(* ===== verification/_CoqProject ===== *)
-Q . S2P
Prelude.v
Pthread.v
Explore.v
Queue.v
Workq.v
Crew.v
Pipe.v
TtyServer.v
Barrier.v
AlarmList.v
AlarmMutex.v
AlarmCond.v
Heap.v
HeapTactics.v
CNode.v
CTree.v
TwoThree.v
TwoThreeSpine.v
TwoThreeSearch.v
TwoThreeInsert.v
TwoThreeRepair.v
TwoThreeDelete.v
TwoThreeDeleteItem.v
TwoThreeRemoveAll.v
TwoThreePrint.v
TwoThreeClass.v
TwoThreeTest.v
TwoThreeProps.v
RedBlackTree.v
RedBlackSpec.v
RedBlackProps.v
RedBlackClass.v
Int.v
Array.v
FindMedian.v
FindMedianProps.v
BinomialHeap.v
BinomialSpec.v
BinomialProps.v
BinomialClass.v
LinkedList.v
LinkedListProps.v
LinkedListTheorems.v
ListCycle.v
ListCycleProps.v
GraphCycle.v
Cyclic.v
CyclicProps.v
BinaryTree.v
BinaryTreeProps.v
BinaryTreeUpdate.v
BinaryTreeTheorems.v
Susp.v
SuspProps.v
SuspTheorems.v
War.v
WarProps.v
Cuckoo.v
CuckooProps.v
Puzzles.v
PuzzlesProps.v
ArrayPuzzles.v
ArrayPuzzlesProps.v
Avl.v
AvlProps.v
Condition.v
DotProduct.v
Threaded.v
ThreadedProps.v
CompareStrings.v
Articulation.v
ArticulationProps.v
BottomView.v
Accumulate.v
ThreadExamples.v
