(* ===== verification/Prelude.v ===== *)
(** Programs of the c11andC repository: multithreaded C programs and C++ data
    structures, modelled and verified.

    * The parts of the program

    The repository collects independent programs.  Those that carry logic of
    their own are modelled here; each reads like the code it models, with the
    code's names for types, fields and functions.

    Threads (C, POSIX threads):
    - a work queue served by a bounded pool of threads (src/workq.c, src/workq.h):
      [Workq].  [workq_add] hands an element to an idle server or creates one,
      [workq_server] takes elements and calls the engine, [workq_destroy] waits
      for the pool to run down;
    - a crew of workers that searches a directory tree for a string
      (src/crew.c): [Crew];
    - a pipeline whose stages hand one datum on at a time (src/pipe.c): [Pipe];
    - a server thread that owns the terminal and its clients (src/server.c):
      [TtyServer];
    - a barrier and a program with two threads that uses it (src/barrier.c,
      src/barrier.h, src/barrier_main.c): [Barrier];
    - threads that suspend one another with signals (src/susp.c): [Susp] is the
      program, [SuspProps] its invariants, [SuspTheorems] its properties;
    - a thread that waits until two others have counted far enough
      (src/condition.c): [Condition];
    - a dot product computed by four threads (src/mutex-1.c): [DotProduct];
    - std::accumulate with several threads (src/CPlusThread/accumulate.cpp):
      [Accumulate];
    - one-time initialisation and a timed wait (src/once.c, src/cond.c): the
      Modules of [ThreadExamples];
    - two alarm clocks, a sorted list between main and an alarm thread
      (src/alarm_mutex.c, src/alarm_cond.c): [AlarmList] has what they share,
      [AlarmMutex] and [AlarmCond] the two programs.
    [Queue] has the first/last linked queue that [Workq], [Crew] and [TtyServer]
    use, [Pthread] the mutexes and condition variables that all of them use.

    A 2-3 tree (C++, src/computation/src 2-3TreeImplementation/):
    - [CNode]: the node class (CNode.h), the error codes (CTreeError.h), the two
      key types int and CMovie (Movie.h, Movie.cpp);
    - [CTree]: every member function of the tree (CTree.h);
    - [TwoThreeTest]: the test program (2-3TreeImplementation.cpp) with its data.
    [Heap] has the programs on a heap and the logic to reason about them; the
    files [TwoThree...] between [CTree] and [TwoThreeTest] prove the member
    functions correct one after the other, [TwoThreeClass] states the contract of
    the class, [TwoThreeProps] its properties.

    Lists (C++ under src/computation/): [LinkedList] has the singly linked node
    that all the exercises declare, and one Module per exercise (addition of
    numbers, merging in order and alternately, deletion, reversal in groups,
    sorted insertion); [LinkedListProps] and [LinkedListTheorems] prove them.
    [ListCycle] and [ListCycleProps] are for loops in lists (the headers of
    training/).  [CompareStrings] compares strings that are lists of characters.

    Trees: [RedBlackTree] (RedBlackTree.cpp), with [RedBlackSpec] for red-black
    trees, [RedBlackProps] for the functions and [RedBlackClass] for the
    contract; [BinaryTree] (ten exercises, one Module each), with
    [BinaryTreeProps] for the functions that read, [BinaryTreeUpdate] for those
    that change the tree, and [BinaryTreeTheorems].  [Avl] and [AvlProps] are for
    AVL.cpp, [Threaded] and [ThreadedProps] for ThreadedTree.cpp, [BottomView] for
    BottomView.cpp.

    Heaps: [BinomialHeap] (BinomialHeap.cpp) with [BinomialSpec],
    [BinomialProps], [BinomialClass]; [FindMedian] (two heaps in arrays of a
    fixed size and the running median) with [FindMedianProps].

    Arrays: [GraphCycle] (union-find, FindCycleInGraph.h) and [Cyclic]
    (permutations, Cyclic.cpp and computation.cpp) with [CyclicProps]; the card
    game of GoToWar.cpp in circular queues ([War], [WarProps]); cuckoo hashing
    ([Cuckoo], [CuckooProps]); the articulation points of a graph ([Articulation],
    [ArticulationProps]); puzzles, one Module each: a game of coins, the edit
    distance, climbing steps and partitions ([Puzzles], [PuzzlesProps]), paths in a
    matrix, sorted arrays, triples and pairs ([ArrayPuzzles], [ArrayPuzzlesProps]).
    [Int] has
    the arithmetic of int, where overflow is a fault, [Array] the arrays, where
    an index out of range is one.  [HeapTactics] has the automation for programs
    on a [Heap].

    * How threads are modelled

    A program is a machine (the class [Machine] of [Prelude]): a configuration,
    an initial configuration, and an executable step that takes an event.  An
    event names a thread and an [oracle]: the outcome of the calls that the
    environment decides (an error status, whether a timed wait times out, the
    address of an allocation, a line of input).  A step runs the code of one
    thread from one synchronisation call to the next, and fails as the code would:
    [Blocked] when the thread cannot go on, [Fault] for undefined behaviour and
    for err_abort.  A run is a list of events, so a theorem about [reachable]
    configurations holds for every interleaving, every number of threads and
    every failing call; a theorem about [can_fault] says which faults there are.
    Mutexes and condition variables ([Pthread]) have owners and sets of waiting
    threads; a wait may end spuriously; a signal wakes the thread the event
    names.  Between two synchronisation calls a thread that holds its mutex runs
    alone; code outside a mutex is split where it touches shared data.  A signal is
    a flag of its target that is pending until the environment delivers it, if the
    mask of the target allows it.  A double is an IEEE 754 binary64 number with its
    rounding ([SpecFloat]).

    Invariants are proved by induction on the steps ([invariant_run],
    [invariant_no_fault]); liveness is stated as an invariant of the wake-up
    (whoever waits has a thread on the way to wake it); [Explore] decides
    questions about machines with finitely many configurations.  Machine integers
    are Z with the wrap-around of their width ([int32], [ulong], [long]).

    * How C++ objects are modelled

    A program is a function from heaps to a result and a heap, or a fault
    ([prog] of [Heap]): NULL is [None], an address a number, [new] chooses an
    address that is not in use, [delete] removes a cell, and touching a cell that
    is not there is a fault.  Loops take fuel; running out of it is no result, so
    each theorem names a fuel that is enough and concludes that there is a result
    (the height of a 2-3 tree is at most log2 (n + 1) for n keys, and a traversal
    has n rounds).  [heapProp] makes predicates on heaps a separation logic with
    the Iris proof mode, [wp m Φ] is total correctness, and [wp_runs] turns a
    specification into a statement about the run of the program.  The logic is
    linear, so that no theorem hides a leak.

    A [tree] of [TwoThree] records the address of every node; [is_tree t par] is
    the heap it describes, parent pointers included.  A [Hole] is a node that lost
    its keys during a deletion, a list of [frame]s the path to the root.

    * What the theorems show

    - Nothing is lost and nothing is done twice: [workq_exactly_once],
      [workq_fifo], [workq_destroy_drains], [crew_search_complete], [pipe_fifo],
      [tty_fifo], [alarm_mutex_delivers], [alarm_cond_delivers].
    - Nobody waits for a wake-up that never comes: [workq_attended],
      [crew_wakeups], [barrier_no_lost_wakeup], [alarm_cond_wakeups];
      [barrier_waits_for_all] (for 2^31 cycles; one call of each cycle returns -1),
      [barrier_main_deterministic] and [barrier_main_finishes] for the barrier.
    - Memory: [workq_no_use_after_free], [tty_memory_safe], [alarm_mutex_safe],
      [alarm_cond_safe], [CTree_removeAll_frees], and for the 2-3 tree every
      theorem, since its runs end without a fault.
    - The 2-3 tree is an ordered set: [CTree_insert_correct],
      [CTree_deleteItem_correct], [CTree_find_correct], [CTree_print_correct],
      [CTree_insert_delete_roundtrip]; sequences of operations that delete from
      fewer than seven keys refine the same sequences on a list
      ([run_script_refines], [ExecDeleteTestcase_correct]), and the test program
      passes ([tmain_passes]).
    - Suspension: a thread is stopped when thd_suspend returns, and stays so until
      thd_continue is called for it ([suspend_stops]), no
      SIGUSR2 is lost ([susp_no_lost_resume]), the answers are not mixed up
      ([susp_handshake]), the program of susp.c ends well ([susp_main_works]); but
      thd_continue clears the wrong entry ([thd_continue_wrong_entry]) and the array
      overflows ([susp_array_overflow]).
    - Threads that compute: [condition_terminates], [dotprod_correct],
      [dotprod_main_deterministic], [parallel_accumulate_correct], and
      [timed_wait_reports]; [once_unlocks_unlocked] shows what main of once.c forgot.
    - Sizes and values: [workq_pool], [crew_work_count], [pipe_capacity],
      [pipe_result_value], [grep_correct], [engine_total].
    - Where the code does not do what it means to: [workq_add_after_take_crashes],
      [crew_opendir_failure_hangs], [barrier_cycle_truncation],
      [tty_client_count_race], [CTree_deleteItem_breaks] and a number of smaller
      theorems next to them.  A deletion that has to be repaired above the leaves
      can take a key of the root for an inner node and leave it with one child;
      this is why [CTree_deleteItem_correct] promises a balanced tree only below
      seven keys, and the right keys always; [removeAll] and the destructor need a
      balanced tree as well ([CTree_removeAll_breaks]).
    - The other structures: what [insert] does to a red-black tree depends on the
      color of the new node, which the constructor leaves unset: if it happens to be
      red the tree stays a red-black tree and sorts, otherwise it does not
      ([RBTree_insert_correct], [RBTree_sorts], [levelOrder_by_levels]); [Insert]
      keeps a binomial heap one ([Insert_correct]) and up to eleven keys are
      sorted ([binomial_heap_sorts]), while [Extract_Min] loses keys from twelve on
      ([binomial_heap_breaks]); the running median is right for five numbers, can
      be wrong for six, its arrays hold 256, and the mean of two numbers can
      overflow ([printMedian_correct], [printMedian_wrong], [printMedian_capacity],
      [Average_overflow]).
    - Lists: [addList_correct], [SortedMerge_same], [merge_alternates],
      [insert_all_sorts], [deleteNode_correct], [reverse_twice]; loops are found
      and removed by both programs alike ([detectloop_correct],
      [detectAndRemoveLoop_correct]).
    - Binary trees: [isSubtree_correct], [findMaxSum_correct],
      [removeShortPathNodes_correct], [lca_correct], [printPreorder_same],
      [minDepth_correct], [isFullTree_correct], [reverseAlternate_twice],
      [bottomView_correct].  The AVL tree is right for ascending keys
      ([AVL_insert_correct], [AVL_ascending]) and wrong in general
      ([AVL_heights_wrong]); [createThreaded] always ends with the front of an empty
      queue ([createThreaded_faults]) although the threads it sets are right
      ([createThreadedUtil_correct]); [getSum_correct] adds with bit operations.
    - Arrays: [isCycle_correct]; [print_cycles_correct], [is_cyclic_correct],
      [is_inverse_correct]; [make_inverse] is right on involutions
      ([make_inverse_involution]) and destroys other permutations
      ([make_inverse_wrong]).
    - Graphs: the depth-first search of articulation.cpp prints exactly the vertices
      whose removal disconnects the graph ([AP_correct]).
    - Games and tables: the card game on circular queues is the game on lists
      ([war_correct]) and the program reads back the decks it is shown
      ([tmain_plays]); [cuckoo_correct] and [place_keeps]; [optimalStrategy_correct]
      for up to four coins and [optimalStrategy_overflows] for five;
      [editDist_correct], [printCountRec_correct], [findMin_correct];
      [finLongestOverAll_correct], [union_intersection_correct],
      [countTriplets_correct] and [triplets_missed]; [compare_correct].

    * Modelling choices

    - The engine of the work queue, what is typed, which calls fail, the order
      of a directory and the passing of time are choices of the environment, made
      by the events.
    - Output is a list in the configuration or in the result.
    - Keys of the 2-3 tree are passed by value where the code passes addresses of
      keys that it only reads; [find] returns which key of which node it found.
      The objects that the test program allocates for its arguments are not on
      the heap.  A default-initialised int has no value ([unset] is [None]): to
      read it is a fault.  [stale_int_key] is for memory that holds some number.

    * Not modelled

    - The demonstrations under src/advancedC/ (processes, sockets, shared memory,
      files): sequences of system calls without logic between them.
    - The other one-page examples under src/: alarm.c and alarm_thread.c have the
      input loop of the alarm programs and nothing else; trylock.c measures time;
      attributes, thread-specific data, cancellation (cancel*.c), fork handlers
      (atfork.c) and signal demonstrations (csignal.c, killProcess-1.c, sigwait.c,
      sigev_thread.c, semaphore_signal.c) are one or two library calls each, whose
      meaning is that of the library and not of the code.
    - Lambda.cpp, qtTest, src/quetions/ and the rest of src/CPlusThread/ demonstrate
      features of C++ (binding, templates, rvalues); notes, project files, generated
      files and binaries.  add-linked-list.h and LinkedListInsertAtAlternate.h repeat
      functions that are modelled from other files. *)

From stdpp Require Export strings numbers prelude gmap list.

#[global] Set Default Goal Selector "!".

(** ** Run-time outcomes

    A C statement either finishes, blocks the calling thread (a mutex that is
    held, a condition variable that was not signalled), or is a fault.  A fault
    is undefined behaviour of C or a deliberate [abort]. *)

Inductive fault : Type :=
  | NullDeref        (* a NULL pointer is dereferenced *)
  | BadPointer       (* a pointer to memory that is not (or no longer) allocated *)
  | OutOfBounds      (* an access outside an array or a buffer *)
  | Uninitialised    (* an indeterminate value is used *)
  | BadSync          (* a synchronisation object is misused *)
  | Overflow         (* a conversion gives no value of its type *)
  | Abort (code : Z) (* err_abort(code, ...) of errors.h *).

#[export] Instance fault_eq_dec : EqDecision fault.
Proof. solve_decision. Defined.

Inductive res (A : Type) : Type :=
  | Ok (a : A)
  | Blocked
  | Fault (f : fault).
Arguments Ok {A} a.
Arguments Blocked {A}.
Arguments Fault {A} f.

#[export] Instance res_ret : MRet res := λ A a, Ok a.
#[export] Instance res_bind : MBind res := λ A B k m,
  match m with Ok a => k a | Blocked => Blocked | Fault f => Fault f end.

#[export] Instance res_eq_dec `{EqDecision A} : EqDecision (res A).
Proof. solve_decision. Defined.

(** [require b f] is a check whose failure is the fault [f]. *)
Definition require (b : bool) (f : fault) : res unit := if b then Ok tt else Fault f.
(** [await b] blocks the thread until [b] holds. *)
Definition await (b : bool) : res unit := if b then Ok tt else Blocked.
(** [of_option f o] reads an optional value, [f] when it is absent. *)
Definition of_option {A} (f : fault) (o : option A) : res A :=
  match o with Some a => Ok a | None => Fault f end.
(** [choose o] reads an oracle's choice; without one the event is impossible. *)
Definition choose {A} (o : option A) : res A :=
  match o with Some a => Ok a | None => Blocked end.

Section res_lemmas.
Context {A B : Type}.
Implicit Types (m : res A) (k : A → res B).

Lemma bind_Ok m k b : (m ≫= k) = Ok b ↔ ∃ a, m = Ok a ∧ k a = Ok b.
Proof. destruct m; naive_solver. Qed.
Lemma bind_Fault m k f :
  (m ≫= k) = Fault f ↔ m = Fault f ∨ ∃ a, m = Ok a ∧ k a = Fault f.
Proof. destruct m; naive_solver. Qed.
Lemma of_option_Ok f (o : option A) a : of_option f o = Ok a ↔ o = Some a.
Proof. destruct o; naive_solver. Qed.
Lemma choose_Ok (o : option A) a : choose o = Ok a ↔ o = Some a.
Proof. destruct o; naive_solver. Qed.
Lemma choose_Fault (o : option A) f : choose o = Fault f ↔ False.
Proof. destruct o; naive_solver. Qed.
End res_lemmas.
Lemma require_Ok b f u : require b f = Ok u ↔ b = true.
Proof. destruct b, u; naive_solver. Qed.
Lemma require_Fault b f g : require b f = Fault g ↔ b = false ∧ f = g.
Proof. destruct b; naive_solver. Qed.
Lemma await_Ok b u : await b = Ok u ↔ b = true.
Proof. destruct b, u; naive_solver. Qed.

(** ** C integers *)

Definition wrap_signed (w z : Z) : Z := (z + 2 ^ (w - 1)) `mod` 2 ^ w - 2 ^ (w - 1).
Definition wrap_unsigned (w z : Z) : Z := z `mod` 2 ^ w.
Abbreviation int32 := (wrap_signed 32).
Abbreviation ulong := (wrap_unsigned 64).
Abbreviation long64 := (wrap_signed 64).
Definition INT_MAX : Z := 2147483647.

Lemma wrap_signed_range w z :
  (0 < w)%Z → (- 2 ^ (w - 1) ≤ wrap_signed w z < 2 ^ (w - 1))%Z.
Proof.
  intros Hw. unfold wrap_signed.
  assert (2 ^ w = 2 * 2 ^ (w - 1))%Z as ->.
  { rewrite <- Z.pow_succ_r by lia. f_equal; lia. }
  pose proof (Z.pow_pos_nonneg 2 (w - 1)).
  pose proof (Z.mod_pos_bound (z + 2 ^ (w - 1)) (2 * 2 ^ (w - 1))). lia.
Qed.

Lemma wrap_signed_id w z :
  (0 < w)%Z → (- 2 ^ (w - 1) ≤ z < 2 ^ (w - 1))%Z → wrap_signed w z = z.
Proof.
  intros Hw Hz. unfold wrap_signed.
  assert (2 ^ w = 2 * 2 ^ (w - 1))%Z as ->.
  { rewrite <- Z.pow_succ_r by lia. f_equal; lia. }
  rewrite Z.mod_small; lia.
Qed.

Lemma wrap_unsigned_id w z : (0 ≤ z < 2 ^ w)%Z → wrap_unsigned w z = z.
Proof. intros Hz. unfold wrap_unsigned. by rewrite Z.mod_small. Qed.

(** ** Strings *)

Definition newline : Ascii.ascii := Ascii.ascii_of_nat 10.

Section strings.
#[local] Arguments String.append !_ _ : simpl nomatch.

Lemma string_app_assoc (a b c : string) : (a +:+ (b +:+ c) = (a +:+ b) +:+ c)%string.
Proof. induction a; simpl; congruence. Qed.
Lemma string_app_nil (a : string) : (a +:+ "" = a)%string.
Proof. induction a; simpl; congruence. Qed.
Lemma string_length_app (a b : string) :
  String.length (a +:+ b) = (String.length a + String.length b)%nat.
Proof. induction a; simpl; congruence. Qed.
End strings.

(** ** Error numbers of <errno.h> (Linux values) *)
Definition EINVAL : Z := 22.
Definition ENOMEM : Z := 12.
Definition EBUSY : Z := 16.
Definition EAGAIN : Z := 11.
Definition ETIMEDOUT : Z := 110.

(** ** Counting threads

    [cnt P l] is the number of list elements that satisfy [P]; the invariants
    relate such counts to the counters the programs keep. *)

Fixpoint cnt {A} (P : A → bool) (l : list A) : Z :=
  match l with [] => 0 | x :: l => Z.b2z (P x) + cnt P l end.

Section cnt.
Context {A : Type} (P : A → bool).
Implicit Type l : list A.

Lemma cnt_nonneg l : (0 ≤ cnt P l)%Z.
Proof. induction l as [|x l IH]; simpl; [lia|]. destruct (P x); simpl; lia. Qed.
Lemma cnt_app l k : cnt P (l ++ k) = (cnt P l + cnt P k)%Z.
Proof. induction l as [|x l IH]; simpl; lia. Qed.
Lemma cnt_insert l i x y :
  l !! i = Some x → cnt P (<[i:=y]> l) = (cnt P l - Z.b2z (P x) + Z.b2z (P y))%Z.
Proof.
  revert i; induction l as [|z l IH]; intros [|i]; simpl; try done.
  - intros [= ->]. lia.
  - intros Hx. rewrite (IH _ Hx). lia.
Qed.
Lemma cnt_lookup l i x : l !! i = Some x → (Z.b2z (P x) ≤ cnt P l)%Z.
Proof.
  revert i; induction l as [|z l IH]; intros [|i]; simpl; try done.
  - intros [= ->]. pose proof (cnt_nonneg l). lia.
  - intros Hx. pose proof (IH _ Hx). destruct (P z); simpl; lia.
Qed.
Lemma cnt_pos l : (0 < cnt P l)%Z ↔ ∃ i x, l !! i = Some x ∧ P x = true.
Proof.
  split.
  - induction l as [|z l IH]; simpl; [lia|]. intros Hpos.
    destruct (P z) eqn:Hz; [by exists 0, z|].
    destruct IH as (i & x & ? & ?); [simpl in *; lia|]. by exists (S i), x.
  - intros (i & x & Hx & Hp). pose proof (cnt_lookup l i x Hx) as H.
    rewrite Hp in H. simpl in H. lia.
Qed.
Lemma cnt_zero l : cnt P l = 0%Z ↔ ∀ i x, l !! i = Some x → P x = false.
Proof.
  pose proof (cnt_nonneg l) as H0. split.
  - intros H i x Hx. destruct (P x) eqn:Hp; [|done].
    assert (0 < cnt P l)%Z by (apply cnt_pos; eauto). lia.
  - intros H. destruct (decide (0 < cnt P l)%Z) as [(i & x & Hx & Hp)%cnt_pos|]; [|lia].
    rewrite (H _ _ Hx) in Hp. done.
Qed.
Lemma cnt_le_length l : (cnt P l ≤ Z.of_nat (length l))%Z.
Proof. induction l as [|z l IH]; simpl; [lia|]. destruct (P z); simpl; lia. Qed.
End cnt.

Lemma cnt_ext {A} (P Q : A → bool) l : (∀ x, P x = Q x) → cnt P l = cnt Q l.
Proof. intros H. induction l as [|x l IH]; simpl; [done|]. rewrite H. lia. Qed.
Lemma cnt_mono {A} (P Q : A → bool) l :
  (∀ x, P x = true → Q x = true) → (cnt P l ≤ cnt Q l)%Z.
Proof.
  intros H. induction l as [|x l IH]; simpl; [lia|].
  specialize (H x). destruct (P x), (Q x); simpl; naive_solver lia.
Qed.
Lemma cnt_at_most_one {A} (P : A → bool) l :
  (∀ i j x y, l !! i = Some x → l !! j = Some y → P x = true → P y = true → i = j) →
  (cnt P l ≤ 1)%Z.
Proof.
  induction l as [|z l IH]; intros H; simpl; [lia|].
  destruct (P z) eqn:Hz; simpl.
  - assert (cnt P l = 0%Z) as ->; [|lia]. apply cnt_zero. intros i x Hx.
    destruct (P x) eqn:Hp; [|done]. by specialize (H 0 (S i) z x eq_refl Hx Hz Hp).
  - apply IH. intros i j x y Hx Hy Hpx Hpy.
    specialize (H (S i) (S j) x y Hx Hy Hpx Hpy). lia.
Qed.
Lemma cnt_replicate {A} (P : A → bool) n x : P x = false → cnt P (replicate n x) = 0%Z.
Proof. intros Hx. induction n; simpl; [done|]. rewrite Hx. done. Qed.
Lemma cnt_replicate_true {A} (P : A → bool) n x : P x = true → cnt P (replicate n x) = Z.of_nat n.
Proof. intros Hx. induction n; simpl; [done|]. rewrite Hx. simpl. lia. Qed.
Lemma cnt_false {A} (l : list A) : cnt (λ _, false) l = 0%Z.
Proof. induction l; simpl; lia. Qed.

Lemma cnt_full {A} (P : A → bool) l :
  cnt P l = Z.of_nat (length l) → ∀ i x, l !! i = Some x → P x = true.
Proof.
  induction l as [|y l IH]; intros H [|i] x; simpl in *; try done.
  - intros [= ->]. pose proof (cnt_le_length P l). destruct (P x); [done|]. simpl in H. lia.
  - apply IH. pose proof (cnt_le_length P l). destruct (P y); simpl in H; lia.
Qed.

Lemma cnt_all {A} (P : A → bool) l :
  (∀ i x, l !! i = Some x → P x = true) → cnt P l = Z.of_nat (length l).
Proof.
  induction l as [|y l IH]; intros H; simpl; [done|].
  rewrite (H 0%nat y eq_refl), IH; [simpl; lia|]. intros i x. apply (H (S i)).
Qed.

(** ** Resources held by threads

    [omap f ths] lists what the threads hold (say, the heap nodes they own). *)

Lemma omap_insert_perm {A B} (f : A → option B) (l : list A) i x y :
  l !! i = Some x →
  option_list (f y) ++ omap f l ≡ₚ option_list (f x) ++ omap f (<[i:=y]> l).
Proof.
  revert i; induction l as [|z l IH]; intros [|i]; simpl; try done.
  - intros [= ->]. destruct (f x), (f y); simpl; try done. constructor.
  - intros Hx. specialize (IH _ Hx).
    destruct (f z) as [b|]; [|done].
    rewrite <- !Permutation_middle. by f_equiv.
Qed.

Lemma omap_insert_same {A B} (f : A → option B) (l : list A) i x y :
  l !! i = Some x → f x = f y → omap f (<[i:=y]> l) = omap f l.
Proof.
  intros Hx Hf. revert i Hx; induction l as [|z l IH]; intros [|i]; simpl; try done.
  - intros [= ->]. by rewrite Hf.
  - intros Hx. specialize (IH _ Hx). destruct (f z); [f_equal|]; exact IH.
Qed.

Lemma concat_map_ext {A B} (f g : A → list B) l :
  (∀ x, x ∈ l → f x = g x) → concat (map f l) = concat (map g l).
Proof. induction l as [|x l IH]; simpl; intros H; [done|]. rewrite H, IH; set_solver. Qed.

(** ** Machines: programs as step functions

    A program is a deterministic step function on configurations once an event
    fixes every choice of its environment (which thread runs, what a call
    returns, which waiter a signal wakes).  Quantifying over event lists
    quantifies over all interleavings. *)

Class Machine (C E : Type) := mstep : C → E → res C.
#[export] Hint Mode Machine + - : typeclass_instances.

Section machine.
Context {C E : Type} `{M : Machine C E}.
Implicit Types (c : C) (e : E) (es : list E) (I : C → Prop).

Fixpoint run c es : res C :=
  match es with [] => Ok c | e :: es => c' ← mstep c e; run c' es end.

Definition reachable c0 c : Prop := ∃ es, run c0 es = Ok c.
(** some schedule runs into the fault [f] *)
Definition can_fault c0 (f : fault) : Prop := ∃ es, run c0 es = Fault f.
(** [I] is preserved by every step that succeeds *)
Definition stable I : Prop := ∀ c e c', I c → mstep c e = Ok c' → I c'.
(** no step from [I] runs into the fault [f] *)
Definition avoids I (f : fault) : Prop := ∀ c e, I c → mstep c e ≠ Fault f.

Lemma run_app c es1 es2 : run c (es1 ++ es2) = (c' ← run c es1; run c' es2).
Proof.
  revert c; induction es1 as [|e es1 IH]; intros c; simpl; [done|].
  destruct (mstep c e); simpl; auto.
Qed.
Lemma reachable_refl c : reachable c c.
Proof. by exists []. Qed.
Lemma reachable_step c0 c e c' : reachable c0 c → mstep c e = Ok c' → reachable c0 c'.
Proof.
  intros [es Hes] He. exists (es ++ [e]). rewrite run_app, Hes. simpl. by rewrite He.
Qed.
Lemma reachable_trans c0 c1 c2 : reachable c0 c1 → reachable c1 c2 → reachable c0 c2.
Proof.
  intros [es1 H1] [es2 H2]. exists (es1 ++ es2). by rewrite run_app, H1.
Qed.
Lemma invariant_run I c0 c : I c0 → stable I → reachable c0 c → I c.
Proof.
  intros H0 HI [es Hes]. revert c0 H0 Hes.
  induction es as [|e es IH]; intros c0 H0; simpl; [naive_solver|].
  intros (c1 & H1 & Hes)%bind_Ok. eauto.
Qed.
Lemma invariant_no_fault I c0 f :
  I c0 → stable I → avoids I f → ¬ can_fault c0 f.
Proof.
  intros H0 HI Hn [es Hes]. revert c0 H0 Hes.
  induction es as [|e es IH]; intros c0 H0; simpl; [done|].
  intros [Hf|(c1 & H1 & Hes)]%bind_Fault; [by eapply Hn|]. eauto.
Qed.
(** rule induction along a run, with the steps taken *)
Lemma reachable_ind I c0 :
  I c0 → (∀ c e c', reachable c0 c → I c → mstep c e = Ok c' → I c') →
  ∀ c, reachable c0 c → I c.
Proof.
  intros H0 HI c Hc.
  cut (I c ∧ reachable c0 c); [naive_solver|].
  apply (invariant_run (λ c, I c ∧ reachable c0 c) c0); [| |done].
  - split; [done|]. apply reachable_refl.
  - intros c1 e c2 [? ?] ?. split; [eauto|]. eapply reachable_step; eauto.
Qed.

(** the configuration a concrete schedule ends in, when it runs to its end *)
Definition completes c es : bool := match run c es with Ok _ => true | _ => false end.
Definition final c es : C := match run c es with Ok c' => c' | _ => c end.
Lemma reachable_final c es : completes c es = true → reachable c (final c es).
Proof. unfold completes, final. intros H. exists es. by destruct (run c es). Qed.

(** the machine whose environment only makes the choices [okay] *)
Definition restrict (okay : C → E → bool) : Machine C E :=
  λ c e, if okay c e then mstep c e else Blocked.
Lemma restrict_Ok okay c e c' :
  restrict okay c e = Ok c' ↔ okay c e = true ∧ mstep c e = Ok c'.
Proof. unfold restrict. destruct (okay c e); naive_solver. Qed.
End machine.
Arguments restrict {C E M} okay c e.
Arguments run {C E M} c es.
Arguments completes {C E M} c es.
Arguments final {C E M} c es.
Arguments reachable_final {C E M} c es.
Arguments reachable {C E M} c0 c.
Arguments can_fault {C E M} c0 f.
Arguments stable {C E M} I.
Arguments avoids {C E M} I f.

(** ** Tactics *)

(** turn a successful monadic computation into its intermediate results *)
Ltac res_inv :=
  repeat match goal with
  | H : (_ ≫= _) = Ok _ |- _ => apply bind_Ok in H as (? & ? & ?)
  | H : mret _ = Ok _ |- _ => injection H as H
  | H : Ok _ = Ok _ |- _ => injection H as H
  | H : require _ _ = Ok _ |- _ => apply require_Ok in H
  | H : await _ = Ok _ |- _ => apply await_Ok in H
  | H : of_option _ _ = Ok _ |- _ => apply of_option_Ok in H
  | H : choose _ = Ok _ |- _ => apply choose_Ok in H
  | H : Blocked = Ok _ |- _ => discriminate H
  | H : Fault _ = Ok _ |- _ => discriminate H
  | H : bool_decide _ = true |- _ => apply bool_decide_eq_true in H
  | H : bool_decide _ = false |- _ => apply bool_decide_eq_false in H
  | H : negb _ = true |- _ => apply negb_true_iff in H
  | H : negb _ = false |- _ => apply negb_false_iff in H
  | H : (_ && _)%bool = true |- _ => apply andb_true_iff in H as [? ?]
  end.

(** split a step's [if]s and [match]es, discarding the branches that do not
    succeed *)
Ltac step_cases :=
  repeat (res_inv; subst; simpl in *; try discriminate;
    match goal with
    | H : context [match ?x with _ => _ end] |- _ =>
        match type of H with
        | _ = Ok _ => destruct x eqn:?
        end
    end); res_inv; subst; simpl in *; try discriminate.

(** rewrite the counts of an updated thread table *)
Ltac cnt_simpl :=
  repeat (erewrite cnt_insert by
    first [eassumption | by apply lookup_app_l_Some]);
  rewrite ?cnt_app; simpl.
