(* ===== verification/Pthread.v ===== *)
(** Mutexes and condition variables of <pthread.h>, as the programs use them.

    A mutex is its holder, a condition variable the list of the threads blocked
    on it.  [pthread_cond_wait] appears in the programs as two steps: the first
    releases the mutex and joins the waiters, the second runs once the thread
    has left the waiters (a signal, a broadcast, or a spurious wake-up) and the
    mutex is free again. *)

From S2P Require Import Prelude.

Abbreviation tid := nat.
Abbreviation mutex := (option nat).
Abbreviation cond := (list nat).

(** What the environment decides in one step of a thread. *)
Record oracle := Oracle {
  o_status : Z;          (* what the pthread call of the step returns *)
  o_wake : option tid;   (* the waiter a pthread_cond_signal wakes *)
  o_alloc : option nat;  (* the address malloc returns, None when it fails *)
  o_alloc2 : bool;       (* whether a second malloc of the same step succeeds *)
  o_time : Z;            (* what time(NULL) returns *)
  o_line : option string (* the line fgets reads, None at end of file *)
}.

Definition ok : oracle := Oracle 0 None None true 0 None.
Definition ok_wake (t : tid) : oracle := Oracle 0 (Some t) None true 0 None.
Definition ok_alloc (l : nat) : oracle := Oracle 0 None (Some l) true 0 None.
Definition failing (s : Z) : oracle := Oracle s None None true 0 None.
Definition ok_time (s : Z) : oracle := Oracle 0 None None true s None.
Definition ok_line (s : string) : oracle := Oracle 0 None None true 0 (Some s).

Definition mutex_lock (t : tid) (m : mutex) : res mutex :=
  match m with None => Ok (Some t) | Some _ => Blocked end.

Definition mutex_unlock (t : tid) (m : mutex) : res mutex :=
  if bool_decide (m = Some t) then Ok None else Fault BadSync.

(** the thread joins the waiters; the caller releases the mutex *)
Definition cond_block (t : tid) (ws : cond) : cond := ws ++ [t].

(** the thread leaves the waiters: wake-up without a signal, or a time-out *)
Definition cond_leave (t : tid) (ws : cond) : cond := filter (λ x, x ≠ t) ws.

(** a signal wakes one of the waiters, when there is one *)
Definition cond_signal (w : option tid) (ws : cond) : res cond :=
  match ws with
  | [] => Ok []
  | _ => t ← choose w; _ ← await (bool_decide (t ∈ ws)); Ok (cond_leave t ws)
  end.

Definition cond_broadcast (ws : cond) : cond := [].

(** the thread is no longer among the waiters *)
Definition awake (t : tid) (ws : cond) : bool := bool_decide (t ∉ ws).

Lemma elem_of_cond_leave t u ws : u ∈ cond_leave t ws ↔ u ∈ ws ∧ u ≠ t.
Proof. unfold cond_leave. rewrite list_elem_of_filter. naive_solver. Qed.
Lemma elem_of_cond_block t u ws : u ∈ cond_block t ws ↔ u ∈ ws ∨ u = t.
Proof. unfold cond_block. set_solver. Qed.
Lemma cond_leave_absent t ws : t ∉ ws → cond_leave t ws = ws.
Proof.
  unfold cond_leave. induction ws as [|u ws IH]; intros H; [done|].
  rewrite filter_cons_True by set_solver. rewrite IH; set_solver.
Qed.
Lemma NoDup_cond_leave t ws : NoDup ws → NoDup (cond_leave t ws).
Proof. apply list.NoDup_filter. Qed.
Lemma NoDup_cond_block t ws : t ∉ ws → NoDup ws → NoDup (cond_block t ws).
Proof. intros. unfold cond_block. apply list.NoDup_app. set_solver by eauto using NoDup_singleton. Qed.
Lemma cond_leave_not_in t ws : t ∉ ws → cond_leave t ws = ws.
Proof.
  intros Ht. unfold cond_leave. induction ws as [|u ws IH]; [done|].
  rewrite filter_cons_True by set_solver. f_equal. set_solver.
Qed.

Lemma mutex_lock_Ok t m m' : mutex_lock t m = Ok m' ↔ m = None ∧ m' = Some t.
Proof. destruct m; naive_solver. Qed.
Lemma mutex_unlock_Ok t m m' : mutex_unlock t m = Ok m' ↔ m = Some t ∧ m' = None.
Proof. unfold mutex_unlock. case_bool_decide; naive_solver. Qed.

(** a signal either finds nobody, or wakes exactly one waiter *)
Lemma cond_signal_Ok w ws ws' :
  cond_signal w ws = Ok ws' →
  (ws = [] ∧ ws' = []) ∨ (∃ t, t ∈ ws ∧ ws' = cond_leave t ws).
Proof. destruct ws; simpl; intros; res_inv; naive_solver. Qed.

Lemma cond_signal_sub w ws ws' u : cond_signal w ws = Ok ws' → u ∈ ws' → u ∈ ws.
Proof.
  intros [[-> ->]|(t & _ & ->)]%cond_signal_Ok; [done|]. rewrite elem_of_cond_leave. naive_solver.
Qed.

Lemma cond_signal_possible ws : ∃ w ws', cond_signal w ws = Ok ws'.
Proof.
  destruct ws as [|t ws]; [by exists None, []|].
  exists (Some t), (cond_leave t (t :: ws)). simpl.
  rewrite bool_decide_true by set_solver. done.
Qed.

Lemma awake_true t ws : awake t ws = true ↔ t ∉ ws.
Proof. apply bool_decide_eq_true. Qed.

Create HintDb pthread discriminated.
#[export] Hint Resolve NoDup_cond_leave NoDup_cond_block : pthread.

(** extend [res_inv] with the outcomes of the calls above *)
Ltac sync_inv :=
  repeat (res_inv;
  match goal with
  | H : mutex_lock _ _ = Ok _ |- _ => apply mutex_lock_Ok in H as [? ?]
  | H : mutex_unlock _ _ = Ok _ |- _ => apply mutex_unlock_Ok in H as [? ?]
  | H : awake _ _ = true |- _ => apply awake_true in H
  end); res_inv.

(** ** Mutual exclusion

    [holding p] says that a thread at program counter [p] is inside a critical
    section.  [mutex_ok] is the invariant every program keeps: only the holder
    of the mutex is inside. *)
Section mutual_exclusion.
Context {PC : Type} (holding : PC → bool).
Implicit Types (m : mutex) (ths : list PC) (p : PC).

Definition mutex_ok m ths : Prop :=
  ∀ t p, ths !! t = Some p → holding p = true → m = Some t.

Lemma mutex_ok_unique m ths t u p q :
  mutex_ok m ths → ths !! t = Some p → ths !! u = Some q →
  holding p = true → holding q = true → t = u.
Proof. intros H ? ? Hp Hq. eapply H in Hp, Hq; [|done..]. congruence. Qed.

Lemma mutex_ok_acquire ths t p : mutex_ok None ths → mutex_ok (Some t) (<[t:=p]> ths).
Proof.
  intros H u q [(<- & <- & _)|(Hu & Hq)]%list_lookup_insert_Some Hh; [done|].
  by specialize (H _ _ Hq Hh).
Qed.
Lemma mutex_ok_release ths t p :
  mutex_ok (Some t) ths → holding p = false → mutex_ok None (<[t:=p]> ths).
Proof.
  intros H Hp u q [(<- & <- & _)|(Hu & Hq)]%list_lookup_insert_Some Hh; [congruence|].
  specialize (H _ _ Hq Hh). congruence.
Qed.
Lemma mutex_ok_keep m ths t p :
  mutex_ok m ths → (holding p = true → m = Some t) → mutex_ok m (<[t:=p]> ths).
Proof.
  intros H Hp u q [(<- & <- & _)|(Hu & Hq)]%list_lookup_insert_Some ?; [auto|].
  by apply (H _ _ Hq).
Qed.
Lemma mutex_ok_spawn m ths p : mutex_ok m ths → holding p = false → mutex_ok m (ths ++ [p]).
Proof.
  intros H Hp t q [Hq|[_ Hq]]%lookup_app_Some ?; [by apply (H _ _ Hq)|].
  apply list_lookup_singleton_Some in Hq as [_ <-]. congruence.
Qed.
Lemma mutex_ok_replicate m n p : holding p = false → mutex_ok m (replicate n p).
Proof. intros Hp t q [-> _]%lookup_replicate_1. congruence. Qed.

(** at most one thread is inside, none while the mutex is free *)
Lemma mutex_ok_cnt m ths : mutex_ok m ths → (cnt holding ths ≤ 1)%Z.
Proof. intros H. apply cnt_at_most_one. intros. by eapply mutex_ok_unique. Qed.
Lemma mutex_ok_cnt_free ths : mutex_ok None ths → cnt holding ths = 0%Z.
Proof.
  intros H. apply cnt_zero. intros i x Hx.
  destruct (holding x) eqn:Hp; [|done]. by specialize (H _ _ Hx Hp).
Qed.
End mutual_exclusion.

#[export] Hint Resolve mutex_ok_acquire mutex_ok_release mutex_ok_keep mutex_ok_spawn
  mutex_ok_replicate : pthread.

(** prove [mutex_ok] after one step of a thread *)
Ltac solve_mutex_ok :=
  match goal with
  | |- mutex_ok _ ?m (<[_ := _]> (_ ++ _)) =>
      rewrite insert_app_l by (eapply lookup_lt_Some; eassumption);
      apply mutex_ok_spawn; [solve_mutex_ok|done]
  | |- mutex_ok _ None (<[_ := _]> _) =>
      first [ apply mutex_ok_keep; [eassumption|by (simpl; intros; discriminate)]
            | eapply mutex_ok_release; [eassumption|reflexivity] ]
  | |- mutex_ok _ (Some _) (<[_ := _]> _) =>
      first [ apply mutex_ok_acquire; eassumption
            | apply mutex_ok_keep; [eassumption|done] ]
  | H : mutex_ok _ ?m ?ths |- mutex_ok _ ?m (<[_ := _]> ?ths) =>
      apply mutex_ok_keep;
        [exact H|first [by (simpl; intros; discriminate)
                       |intros _; eapply H; [eassumption|reflexivity]]]
  | H : mutex_ok _ ?m ?ths |- mutex_ok _ ?m ?ths => exact H
  end.

(** two threads cannot be inside; nobody is inside while the mutex is free *)
Ltac mutex_contra :=
  exfalso;
  match goal with
  | Hm : mutex_ok _ _ ?ths, H1 : ?ths !! ?t = Some _, H2 : ?ths !! ?u = Some _,
    Hne : ?t ≠ ?u |- _ =>
      apply Hne; apply (mutex_ok_unique _ _ _ _ _ _ _ Hm H1 H2 eq_refl eq_refl)
  | Hm : mutex_ok _ None ?ths, H1 : ?ths !! ?t = Some _ |- _ =>
      discriminate (Hm _ _ H1 eq_refl)
  end.

(** ** Waiters

    [waits p] says that a thread at [p] is inside a condition wait.  [cv_ok] is
    the invariant that only such threads are in the waiter list. *)
Section waiters.
Context {PC : Type} (waits : PC → bool).
Implicit Types (ws : cond) (ths : list PC) (p : PC).

Definition cv_ok ws ths : Prop :=
  ∀ u, u ∈ ws → ∃ p, ths !! u = Some p ∧ waits p = true.

Lemma cv_ok_running ws ths t p :
  cv_ok ws ths → ths !! t = Some p → waits p = false → t ∉ ws.
Proof. intros H Ht Hp (q & ? & ?)%H. congruence. Qed.

Lemma cv_ok_sub ws ws' ths : cv_ok ws ths → (∀ u, u ∈ ws' → u ∈ ws) → cv_ok ws' ths.
Proof. intros H Hs u Hu. auto. Qed.

Lemma cv_ok_keep ws ths t p : cv_ok ws ths → t ∉ ws → cv_ok ws (<[t:=p]> ths).
Proof.
  intros H Ht u Hu. destruct (H u Hu) as (q & ? & ?). exists q.
  split; [|done]. rewrite list_lookup_insert_ne; [done|congruence].
Qed.

Lemma cv_ok_block ws ths t p q :
  cv_ok ws ths → ths !! t = Some q → waits p = true → cv_ok (cond_block t ws) (<[t:=p]> ths).
Proof.
  intros H Ht Hp u. rewrite elem_of_cond_block. intros Hu.
  destruct (decide (u = t)) as [->|].
  - exists p. rewrite list_lookup_insert_eq; [done|by eapply lookup_lt_Some].
  - destruct Hu as [Hu|]; [|done]. destruct (H u Hu) as (r & ? & ?). exists r.
    by rewrite list_lookup_insert_ne.
Qed.

Lemma cv_ok_leave ws ths t p : cv_ok ws ths → cv_ok (cond_leave t ws) (<[t:=p]> ths).
Proof.
  intros H u. rewrite elem_of_cond_leave. intros [Hu ?].
  destruct (H u Hu) as (r & ? & ?). exists r. by rewrite list_lookup_insert_ne.
Qed.

Lemma cv_ok_spawn ws ths p : cv_ok ws ths → cv_ok ws (ths ++ [p]).
Proof.
  intros H u Hu. destruct (H u Hu) as (q & Hq & ?). exists q. split; [|done].
  by apply lookup_app_l_Some.
Qed.

Lemma cv_ok_nil ths : cv_ok [] ths.
Proof. intros u. set_solver. Qed.

Lemma cv_ok_signal w ws ws' ths : cv_ok ws ths → cond_signal w ws = Ok ws' → cv_ok ws' ths.
Proof.
  intros H [[-> ->]|(t & _ & ->)]%cond_signal_Ok; [done|].
  eapply cv_ok_sub; [done|]. intros u. rewrite elem_of_cond_leave. naive_solver.
Qed.
End waiters.

(** prove [cv_ok] after one step of a thread *)
Ltac solve_cv_ok :=
  match goal with
  | |- cv_ok _ [] _ => apply cv_ok_nil
  | |- cv_ok _ (cond_broadcast _) _ => apply cv_ok_nil
  | H : cv_ok _ ?ws ?ths |- cv_ok _ ?ws ?ths => exact H
  | H : cond_signal ?w ?ws0 = Ok ?ws |- cv_ok ?v ?ws _ =>
      apply (cv_ok_signal v w ws0); [clear H; solve_cv_ok|exact H]
  | |- cv_ok _ (cond_leave ?t _) (<[?t := _]> _) => apply cv_ok_leave; solve_cv_ok
  | |- cv_ok ?w (cond_leave ?t ?ws) _ =>
      apply (cv_ok_sub w ws); [solve_cv_ok|intros ?; rewrite elem_of_cond_leave; by intros []]
  | |- cv_ok _ (cond_block ?t _) (<[?t := _]> _) =>
      eapply cv_ok_block; [solve_cv_ok|eassumption|reflexivity]
  | |- cv_ok _ _ (<[_ := _]> (_ ++ _)) =>
      rewrite insert_app_l by (eapply lookup_lt_Some; eassumption);
      apply cv_ok_spawn; solve_cv_ok
  | |- cv_ok _ _ (<[_ := _]> _) =>
      apply cv_ok_keep; [solve_cv_ok|
        first [assumption | eapply cv_ok_running; [eassumption|eassumption|reflexivity]]]
  end.

(** ** Some thread is in a given state *)
Section someone.
Context {PC : Type}.
Implicit Types (A : tid → PC → Prop) (ths : list PC) (p q : PC).

Definition someone A ths : Prop := ∃ t p, ths !! t = Some p ∧ A t p.

Lemma someone_self A ths t p q : ths !! t = Some q → A t p → someone A (<[t:=p]> ths).
Proof.
  intros Ht Hp. exists t, p. split; [|done].
  apply list_lookup_insert_eq. by eapply lookup_lt_Some.
Qed.
Lemma someone_other A ths t u p q :
  ths !! u = Some q → A u q → u ≠ t → someone A (<[t:=p]> ths).
Proof. intros. exists u, q. by rewrite list_lookup_insert_ne. Qed.
(** after a step of [t], someone is in [A'] if [t] is, or if the one who was in
    [A] was not [t] *)
Lemma someone_step A A' ths t p q :
  ths !! t = Some q → someone A ths → (∀ u r, A u r → u ≠ t → A' u r) →
  (A t q → A' t p) → someone A' (<[t:=p]> ths).
Proof.
  intros Ht (u & r & Hu & Hr) Hother Hself. destruct (decide (u = t)) as [->|].
  - eapply someone_self; [done|]. apply Hself. congruence.
  - eapply someone_other; [done| |done]. auto.
Qed.
Lemma someone_mono A A' ths : (∀ t p, A t p → A' t p) → someone A ths → someone A' ths.
Proof. intros H (t & p & ? & ?). exists t, p. auto. Qed.
(** ... and someone was already in [A'] if [t] is not *)
Lemma someone_before A ths t p :
  ¬ A t p → someone A (<[t:=p]> ths) → someone A ths.
Proof.
  intros Hp (u & r & Hu & Hr). apply list_lookup_insert_Some in Hu as [(-> & -> & _)|[_ Hu]].
  - done.
  - by exists u, r.
Qed.
End someone.
