(* ===== verification/Explore.v ===== *)
(** Exhaustive exploration of a machine with finitely many configurations.

    The demonstration programs with a fixed number of threads reach finitely many
    configurations.  [explore] computes them; [explored_complete] turns a finished
    exploration into a statement about every schedule: what holds of the listed
    configurations holds of all reachable ones. *)

From S2P Require Import Prelude.

Section explore.
Context {C E : Type} `{M : Machine C E}.
(** equality test, and the events worth trying in a configuration *)
Variables (eqb : C → C → bool) (events : C → list E).
Hypothesis eqb_eq : ∀ c d, eqb c d = true → c = d.
Implicit Types (c : C) (L : list C).

Definition listed c L : bool := existsb (eqb c) L.

Definition successors c : list C :=
  omap (λ e, match mstep c e with Ok c' => Some c' | _ => None end) (events c).

(** work list exploration; [fuel] bounds the configurations taken from the list *)
Fixpoint explore (fuel : nat) (seen todo : list C) : list C :=
  match fuel, todo with
  | S fuel, c :: todo =>
      if listed c seen then explore fuel seen todo
      else explore fuel (c :: seen) (successors c ++ todo)
  | _, _ => seen
  end.

Definition closed L : bool := forallb (λ c, forallb (λ d, listed d L) (successors c)) L.

(** every event has the effect of a tried one, or none *)
Definition covers : Prop := ∀ c e,
  mstep c e = Blocked ∨ mstep c e = Ok c ∨ ∃ e', e' ∈ events c ∧ mstep c e' = mstep c e.

Lemma covers_Ok c e c' :
  covers → mstep c e = Ok c' → c' = c ∨ c' ∈ successors c.
Proof.
  intros Hcov Hs. destruct (Hcov c e) as [Hb|[Hn|(e' & He' & Hs')]]; [congruence| |].
  - left. congruence.
  - right. unfold successors. apply list_elem_of_omap. exists e'. by rewrite Hs', Hs.
Qed.

Lemma listed_elem c L : listed c L = true → c ∈ L.
Proof.
  unfold listed. rewrite existsb_exists. intros (d & Hd & ->%eqb_eq).
  by apply list_elem_of_In.
Qed.

Lemma closed_successor L c c' :
  closed L = true → c ∈ L → c' ∈ successors c → c' ∈ L.
Proof.
  unfold closed. rewrite forallb_forall. intros HL Hc Hc'.
  apply list_elem_of_In, HL in Hc. rewrite forallb_forall in Hc.
  by apply listed_elem, Hc, list_elem_of_In.
Qed.

Lemma explored_complete L c0 c :
  covers → listed c0 L = true → closed L = true → reachable c0 c → c ∈ L.
Proof.
  intros Hcov H0 HL Hc. apply (invariant_run (λ c, c ∈ L) c0); [by apply listed_elem| |done].
  intros c1 e c2 H1 Hs. destruct (covers_Ok _ _ _ Hcov Hs) as [->|Hin]; [done|].
  by eapply closed_successor.
Qed.

(** what a finished exploration checks holds of every reachable configuration *)
Lemma explored_all (P : C → bool) L c0 c :
  covers → listed c0 L = true → closed L = true → forallb P L = true →
  reachable c0 c → P c = true.
Proof.
  intros Hcov H0 HL HP Hc. rewrite forallb_forall in HP. apply HP, list_elem_of_In.
  by eapply explored_complete.
Qed.

Definition faultless c : bool :=
  forallb (λ e, match mstep c e with Fault _ => false | _ => true end) (events c).

Lemma explored_no_fault L c0 f :
  covers → listed c0 L = true → closed L = true →
  forallb faultless L = true → ¬ can_fault c0 f.
Proof.
  intros Hcov H0 HL HP.
  apply (invariant_no_fault (λ c, c ∈ L)); [by apply listed_elem| |].
  - intros c1 e c2 H1 Hs. destruct (covers_Ok _ _ _ Hcov Hs) as [->|Hin]; [done|].
    by eapply closed_successor.
  - intros c e Hc Hf. destruct (Hcov c e) as [Hb|[Hn|(e' & He' & Hf')]]; [congruence..|].
    rewrite Hf in Hf'.
    rewrite forallb_forall in HP. apply list_elem_of_In, HP in Hc.
    unfold faultless in Hc. rewrite forallb_forall in Hc.
    apply list_elem_of_In, Hc in He'. by rewrite Hf' in He'.
Qed.
End explore.

(** ** Finishing a run

    [settle n sched c] goes [n] times through the schedule, skipping the steps that
    cannot be taken. *)
Section settle.
Context {C E : Type} `{M : Machine C E}.

Definition attempt (c : C) (e : E) : C := match mstep c e with Ok c' => c' | _ => c end.
Definition settle (n : nat) (sched : list E) (c : C) : C :=
  Nat.iter n (fold_left attempt sched) c.

Lemma attempt_reachable c e : reachable c (attempt c e).
Proof.
  unfold attempt. destruct (mstep c e) eqn:Hs; try apply reachable_refl.
  eapply reachable_step; [apply reachable_refl|done].
Qed.
Lemma settle_reachable n sched c : reachable c (settle n sched c).
Proof.
  assert (∀ c, reachable c (fold_left attempt sched c)) as Hf.
  { induction sched as [|e sched IH]; intros d; simpl; [apply reachable_refl|].
    eapply reachable_trans; [apply attempt_reachable|apply IH]. }
  unfold settle. induction n as [|n IH]; simpl; [apply reachable_refl|].
  eapply reachable_trans; [exact IH|apply Hf].
Qed.
End settle.
Arguments settle {C E M} n sched c.
