(* ===== verification/Queue.v ===== *)
(** Singly linked queues with a first and a last pointer.

    crew.c ([work_t] of a crew), server.c ([request_t] of the tty server) and
    workq.c ([workq_ele_t] of a work queue) keep their pending work in such a
    queue.  The nodes live on a heap, so that sharing, dangling and NULL
    pointers are visible.  A program says where the [next] field of its node
    type is with an instance of [Linked]; the queue operations and their
    specification against the list of the queued nodes are shared. *)

From S2P Require Import Prelude.

Abbreviation loc := nat.
Abbreviation ptr := (option nat).   (* None is NULL *)

(** ** The interface a node type provides *)
Class Linked (N : Type) := {
  next : N → ptr;
  set_next : ptr → N → N;
  next_set_next p n : next (set_next p n) = p;
}.

Section heap.
Context {N : Type}.
Abbreviation heap := (gmap loc N).

(** [*p] *)
Definition load (h : heap) (p : ptr) : res N :=
  match p with
  | None => Fault NullDeref
  | Some l => of_option BadPointer (h !! l)
  end.

(** [p = malloc(...)], the address is the environment's choice *)
Definition malloc (h : heap) (n : N) (l : loc) : res heap :=
  _ ← await (bool_decide (h !! l = None)); Ok (<[l := n]> h).

(** [free(p)] *)
Definition free (h : heap) (p : ptr) : res heap :=
  match p with
  | None => Ok h
  | Some l => _ ← of_option BadPointer (h !! l); Ok (delete l h)
  end.

Lemma malloc_Ok h n l h' : malloc h n l = Ok h' ↔ h !! l = None ∧ h' = <[l:=n]> h.
Proof.
  unfold malloc, await. case_bool_decide; simpl; naive_solver.
Qed.
End heap.

Section queue.
Context {N : Type} `{LN : Linked N}.
Abbreviation heap := (gmap loc N).
Implicit Types (h : heap) (n : N) (l : loc) (ls : list loc) (p first lst : ptr).

(** [p->next = q] *)
Definition store_next h p (q : ptr) : res heap :=
  match p with
  | None => Fault NullDeref
  | Some l => n ← of_option BadPointer (h !! l); Ok (<[l := set_next q n]> h)
  end.

(** Append the node at [l]:
    [if (first == NULL) first = n; else last->next = n; last = n;] *)
Definition enqueue h first lst l : res (heap * ptr * ptr) :=
  match first with
  | None => Ok (h, Some l, Some l)
  | Some _ => h' ← store_next h lst (Some l); Ok (h', first, Some l)
  end.

(** Take the first node:
    [n = first; first = n->next; if (first == NULL) last = NULL;] *)
Definition dequeue h first lst : res (ptr * ptr) :=
  n ← load h first;
  Ok (next n, match next n with None => None | Some _ => lst end).

(** ** Specification *)

(** the nodes [ls] are linked from [p] and the last one ends in NULL *)
Fixpoint chain h p ls : Prop :=
  match ls with
  | [] => p = None
  | l :: ls => p = Some l ∧ ∃ n, h !! l = Some n ∧ chain h (next n) ls
  end.

(** first and last pointer represent the queue of the nodes [ls] *)
Record queue_rep h first lst ls : Prop := {
  rep_chain : chain h first ls;
  rep_nodup : NoDup ls;
  rep_last : lst = last ls;
}.

Lemma chain_alloc h p ls l n :
  h !! l = None → chain h p ls → chain (<[l:=n]> h) p ls.
Proof.
  intros Hl. revert p; induction ls as [|l' ls IH]; intros p; simpl; [done|].
  intros (-> & n' & Hn' & Hc). split; [done|]. exists n'.
  rewrite lookup_insert_ne by congruence. auto.
Qed.

Lemma chain_frame h h' p ls :
  (∀ l n, l ∈ ls → h !! l = Some n → ∃ n', h' !! l = Some n' ∧ next n' = next n) →
  chain h p ls → chain h' p ls.
Proof.
  revert p; induction ls as [|l ls IH]; intros p Hh; simpl; [done|].
  intros (-> & n & Hn & Hc). split; [done|].
  destruct (Hh l n) as (n' & Hn' & Hnext); [set_solver|done|].
  exists n'. split; [done|]. rewrite Hnext. apply IH; [|done].
  intros. apply Hh; set_solver.
Qed.

Lemma chain_lookup h p ls l : chain h p ls → l ∈ ls → is_Some (h !! l).
Proof.
  revert p; induction ls as [|l' ls IH]; intros p; simpl; [set_solver|].
  intros (_ & n & Hn & Hc) [->|Hl]%elem_of_cons; [by eexists|eauto].
Qed.

Lemma chain_head h p ls : chain h p ls → p = head ls.
Proof. destruct ls; simpl; naive_solver. Qed.

Lemma chain_functional h p ls ls' : chain h p ls → chain h p ls' → ls = ls'.
Proof.
  revert p ls'; induction ls as [|l ls IH]; intros p [|l' ls']; simpl; try naive_solver.
Qed.

(** setting the [next] of the last node appends to the chain *)
Lemma chain_snoc h p ls e l n m :
  chain h p (ls ++ [e]) → NoDup (ls ++ [e]) → l ∉ ls ++ [e] →
  h !! e = Some m → h !! l = Some n → next n = None →
  chain (<[e := set_next (Some l) m]> h) p (ls ++ [e] ++ [l]).
Proof.
  intros Hc Hnd Hl Hm Hn Hnone. revert p Hc Hnd Hl.
  induction ls as [|l' ls IH]; intros p; simpl.
  - intros (-> & n' & ? & ?) _ Hl. simplify_eq. split; [done|].
    exists (set_next (Some l) m). rewrite lookup_insert_eq, next_set_next.
    split_and!; [done|done|]. exists n.
    rewrite lookup_insert_ne by set_solver. done.
  - intros (-> & n' & Hn' & Hc) [Hl' Hnd]%NoDup_cons Hl. split; [done|]. exists n'.
    rewrite lookup_insert_ne by set_solver. split; [done|].
    apply IH; [done..|set_solver].
Qed.

(** ** The operations refine the list operations *)

Lemma queue_rep_nil h : queue_rep h None None [].
Proof. split; simpl; auto using NoDup_nil_2. Qed.

Lemma enqueue_spec h first lst ls l n :
  queue_rep h first lst ls → l ∉ ls → h !! l = Some n → next n = None →
  ∃ h', enqueue h first lst l = Ok (h', head (ls ++ [l]), Some l)
      ∧ queue_rep h' (head (ls ++ [l])) (Some l) (ls ++ [l])
      ∧ (∀ k, k ∉ ls → h' !! k = h !! k)
      ∧ (∀ k m, h !! k = Some m → ∃ p, h' !! k = Some m ∨ h' !! k = Some (set_next p m)).
Proof.
  intros [Hc Hnd ->] Hl Hn Hnone. pose proof (chain_head _ _ _ Hc) as ->.
  destruct ls as [|l0 ls0] using rev_ind; simpl.
  - exists h. split_and!; [done|split; simpl; [by eauto|apply list.NoDup_singleton|done]|done|].
    intros k m Hk. exists None. auto.
  - clear IHls0. rename l0 into e. rewrite last_snoc, <- app_assoc.
    destruct (head (ls0 ++ [e])) as [f|] eqn:Hf; [|by destruct ls0].
    assert (is_Some (h !! e)) as [m Hm] by (eapply chain_lookup; [done|set_solver]).
    simpl. rewrite Hm. simpl. eexists. split.
    { f_equal. f_equal. f_equal. by destruct ls0. }
    split; [split|].
    + replace (head (ls0 ++ [e; l])) with (Some f) by (by destruct ls0).
      by apply (chain_snoc h (Some f) ls0 e l n m).
    + change [e; l] with ([e] ++ [l]); rewrite app_assoc. apply list.NoDup_app.
      split_and!; [done|set_solver|apply list.NoDup_singleton].
    + change [e; l] with ([e] ++ [l]). by rewrite app_assoc, last_snoc.
    + split.
      * intros k Hk. rewrite lookup_insert_ne by set_solver. done.
      * intros k m' Hk. destruct (decide (k = e)) as [->|].
        -- simplify_eq. exists (Some l). rewrite lookup_insert_eq. auto.
        -- exists None. rewrite lookup_insert_ne by done. auto.
Qed.

Lemma dequeue_spec h first lst l ls :
  queue_rep h first lst (l :: ls) →
  first = Some l ∧
  ∃ first' lst', dequeue h first lst = Ok (first', lst')
      ∧ queue_rep h first' lst' ls.
Proof.
  intros [(-> & n & Hn & Hc) [Hl Hnd]%NoDup_cons ->]. split; [done|].
  unfold dequeue. simpl. rewrite Hn. simpl. do 2 eexists. split; [done|].
  pose proof (chain_head _ _ _ Hc) as Hh. rewrite Hh. split.
  - by rewrite <- Hh.
  - done.
  - destruct ls as [|l' ls]; done.
Qed.

Lemma queue_rep_first h first lst ls : queue_rep h first lst ls → first = head ls.
Proof. intros [Hc _ _]. by eapply chain_head. Qed.

Lemma queue_rep_alloc h first lst ls l n :
  h !! l = None → queue_rep h first lst ls → queue_rep (<[l:=n]> h) first lst ls.
Proof. intros ? []. split; auto using chain_alloc. Qed.

Lemma queue_rep_frame h h' first lst ls :
  (∀ l n, l ∈ ls → h !! l = Some n → ∃ n', h' !! l = Some n' ∧ next n' = next n) →
  queue_rep h first lst ls → queue_rep h' first lst ls.
Proof. intros ? []. split; eauto using chain_frame. Qed.

Lemma queue_rep_delete h first lst ls l :
  l ∉ ls → queue_rep h first lst ls → queue_rep (delete l h) first lst ls.
Proof.
  intros Hl. apply queue_rep_frame. intros k n Hk Hn. exists n.
  rewrite lookup_delete_ne by set_solver. done.
Qed.
End queue.
