(* ===== verification/Workq.v ===== *)
(** workq.c, workq.h: a work queue served by a bounded pool of threads.

    [workq_t] is the record [workq]; its elements live on the heap as
    [workq_ele_t].  The three entry points run in the threads of the machine
    [wstep]: [workq_add] and [workq_destroy] in client threads, [workq_server]
    in the threads that [workq_add] creates.  A program counter names the next
    synchronisation call of a thread; the code up to the following call is one
    step, and it is executed with the mutex held wherever the source holds it. *)

From S2P Require Import Prelude Pthread Queue.

Local Open Scope Z_scope.

(** ** Data *)

Definition WORKQ_VALID : Z := 0xdec1992.

Record workq_ele_t := WorkqEle { we_next : ptr; we_data : Z }.

#[export] Instance workq_ele_linked : Linked workq_ele_t.
Proof.
  refine {| next := we_next; set_next p e := WorkqEle p (we_data e) |}.
  by intros p [].
Defined.

Record workq_t := Workq {
  wq_mutex : mutex;
  wq_cv : cond;
  wq_first : ptr;
  wq_last : ptr;
  wq_valid : Z;
  wq_quit : Z;
  wq_parallelism : Z;
  wq_counter : Z;
  wq_idle : Z;
  wq_alive : bool   (* the mutex and the condition variable are initialised *)
}.

Section setters.
Variable q : workq_t.
Definition set_mutex m := Workq m (wq_cv q) (wq_first q) (wq_last q) (wq_valid q) (wq_quit q)
  (wq_parallelism q) (wq_counter q) (wq_idle q) (wq_alive q).
Definition set_cv v := Workq (wq_mutex q) v (wq_first q) (wq_last q) (wq_valid q) (wq_quit q)
  (wq_parallelism q) (wq_counter q) (wq_idle q) (wq_alive q).
Definition set_queue f l := Workq (wq_mutex q) (wq_cv q) f l (wq_valid q) (wq_quit q)
  (wq_parallelism q) (wq_counter q) (wq_idle q) (wq_alive q).
Definition set_valid v := Workq (wq_mutex q) (wq_cv q) (wq_first q) (wq_last q) v (wq_quit q)
  (wq_parallelism q) (wq_counter q) (wq_idle q) (wq_alive q).
Definition set_quit v := Workq (wq_mutex q) (wq_cv q) (wq_first q) (wq_last q) (wq_valid q) v
  (wq_parallelism q) (wq_counter q) (wq_idle q) (wq_alive q).
Definition set_counter v := Workq (wq_mutex q) (wq_cv q) (wq_first q) (wq_last q) (wq_valid q)
  (wq_quit q) (wq_parallelism q) v (wq_idle q) (wq_alive q).
Definition set_idle v := Workq (wq_mutex q) (wq_cv q) (wq_first q) (wq_last q) (wq_valid q)
  (wq_quit q) (wq_parallelism q) (wq_counter q) v (wq_alive q).
Definition set_alive b := Workq (wq_mutex q) (wq_cv q) (wq_first q) (wq_last q) (wq_valid q)
  (wq_quit q) (wq_parallelism q) (wq_counter q) (wq_idle q) b.
End setters.

(** ** workq_init

    [s1] to [s4] are what pthread_attr_init, pthread_attr_setdetachstate,
    pthread_mutex_init and pthread_cond_init return. *)
Definition workq_init (wq : workq_t) (threads s1 s2 s3 s4 : Z) : Z * workq_t :=
  if negb (s1 =? 0) then (s1, wq)
  else if negb (s2 =? 0) then (s2, wq)
  else if negb (s3 =? 0) then (s3, wq)
  else if negb (s4 =? 0) then (s4, wq)
  else (0, Workq None [] None None WORKQ_VALID 0 threads 0 0 true).

(** ** Threads *)

Inductive pc : Type :=
  (* a client between two calls *)
  | CIdle
  (* workq_add: lock; signal; create; unlock and return *)
  | ALock (item : loc)
  | ASignal
  | ACreate
  | AUnlock (ret : Z)
  (* workq_destroy: lock; broadcast; wait; unlock and return; destroy *)
  | DLock
  | DBroadcast
  | DWait
  | DFail (ret : Z)
  | DUnlock
  | DDestroy
  (* workq_server *)
  | SLock
  | STop
  | SWait
  | SUnlockItem (we : loc) (timedout : bool)
  | SEngine (we : loc) (timedout : bool)
  | SRelock (timedout : bool)
  | SUnlockExit
  | SExit.

(** The machine: the queue, the heap, the threads, and a log of what happened:
    the elements accepted by workq_add, the elements servers took off the
    queue, the calls of the engine, and the values the calls returned. *)
Record wconf := WConf {
  c_wq : workq_t;
  c_heap : gmap loc workq_ele_t;
  c_threads : list pc;
  c_added : list Z;
  c_taken : list Z;
  c_engine : list Z;
  c_rets : list (tid * Z)
}.

Definition set_wq (c : wconf) (q : workq_t) : wconf :=
  WConf q (c_heap c) (c_threads c) (c_added c) (c_taken c) (c_engine c) (c_rets c).
Definition goto (t : tid) (p : pc) (c : wconf) : wconf :=
  WConf (c_wq c) (c_heap c) (<[t := p]> (c_threads c)) (c_added c) (c_taken c) (c_engine c)
    (c_rets c).
Definition returns (t : tid) (r : Z) (c : wconf) : wconf :=
  WConf (c_wq c) (c_heap c) (<[t := CIdle]> (c_threads c)) (c_added c) (c_taken c) (c_engine c)
    (c_rets c ++ [(t, r)]).
Definition set_heap (h : gmap loc workq_ele_t) (c : wconf) : wconf :=
  WConf (c_wq c) h (c_threads c) (c_added c) (c_taken c) (c_engine c) (c_rets c).
Definition spawn (p : pc) (c : wconf) : wconf :=
  WConf (c_wq c) (c_heap c) (c_threads c ++ [p]) (c_added c) (c_taken c) (c_engine c) (c_rets c).
Definition log_added (x : Z) (c : wconf) : wconf :=
  WConf (c_wq c) (c_heap c) (c_threads c) (c_added c ++ [x]) (c_taken c) (c_engine c) (c_rets c).
Definition log_taken (x : Z) (c : wconf) : wconf :=
  WConf (c_wq c) (c_heap c) (c_threads c) (c_added c) (c_taken c ++ [x]) (c_engine c) (c_rets c).
Definition log_engine (x : Z) (c : wconf) : wconf :=
  WConf (c_wq c) (c_heap c) (c_threads c) (c_added c) (c_taken c) (c_engine c ++ [x]) (c_rets c).

Definition upd (f : workq_t → workq_t) (c : wconf) : wconf := set_wq c (f (c_wq c)).

(** pthread_mutex_lock(&wq->mutex) / pthread_mutex_unlock(&wq->mutex) *)
Definition lock (t : tid) (c : wconf) : res wconf :=
  _ ← require (wq_alive (c_wq c)) BadSync;
  m ← mutex_lock t (wq_mutex (c_wq c));
  Ok (upd (λ q, set_mutex q m) c).
Definition unlock (t : tid) (c : wconf) : res wconf :=
  m ← mutex_unlock t (wq_mutex (c_wq c));
  Ok (upd (λ q, set_mutex q m) c).
(** the first half of a condition wait: release the mutex and block *)
Definition block (t : tid) (p : pc) (c : wconf) : res wconf :=
  c ← unlock t c;
  Ok (goto t p (upd (λ q, set_cv q (cond_block t (wq_cv q))) c)).

(** ** workq_add *)

Definition workq_add_call (t : tid) (element : Z) (o : oracle) (c : wconf) : res wconf :=
  if negb (wq_valid (c_wq c) =? WORKQ_VALID) then Ok (returns t EINVAL c)
  else match o_alloc o with
  | None => Ok (returns t ENOMEM c)
  | Some item =>
      h ← malloc (c_heap c) (WorkqEle None element) item;
      Ok (goto t (ALock item) (set_heap h c))
  end.

Definition workq_add_locked (t : tid) (item : loc) (c : wconf) : res wconf :=
  let q := c_wq c in
  e ← load (c_heap c) (Some item);
  '(h, first, lst) ← enqueue (c_heap c) (wq_first q) (wq_last q) item;
  let c := log_added (we_data e) (upd (λ q, set_queue q first lst) (set_heap h c)) in
  Ok (if 0 <? wq_idle q then goto t ASignal c
      else if wq_counter q <? wq_parallelism q then goto t ACreate c
      else goto t (AUnlock 0) c).

Definition workq_add_step (t : tid) (p : pc) (o : oracle) (c : wconf) : res wconf :=
  match p with
  | ALock item =>
      if negb (o_status o =? 0) then
        h ← free (c_heap c) (Some item); Ok (returns t (o_status o) (set_heap h c))
      else c ← lock t c; workq_add_locked t item c
  | ASignal =>
      if negb (o_status o =? 0) then Ok (goto t (AUnlock (o_status o)) c)
      else
        ws ← cond_signal (o_wake o) (wq_cv (c_wq c));
        Ok (goto t (AUnlock 0) (upd (λ q, set_cv q ws) c))
  | ACreate =>
      if negb (o_status o =? 0) then Ok (goto t (AUnlock (o_status o)) c)
      else
        Ok (goto t (AUnlock 0)
             (upd (λ q, set_counter q (wq_counter q + 1)) (spawn SLock c)))
  | AUnlock r =>
      c ← (if o_status o =? 0 then unlock t c else Ok c); Ok (returns t r c)
  | _ => Blocked
  end.

(** ** workq_destroy *)

Definition workq_destroy_call (t : tid) (c : wconf) : res wconf :=
  if negb (wq_valid (c_wq c) =? WORKQ_VALID) then Ok (returns t EINVAL c)
  else Ok (goto t DLock c).

(** [while (wq->counter > 0) pthread_cond_wait(&wq->cv, &wq->mutex);] *)
Definition workq_destroy_wait (t : tid) (c : wconf) : res wconf :=
  if 0 <? wq_counter (c_wq c) then block t DWait c else Ok (goto t DUnlock c).

Definition workq_destroy_locked (t : tid) (c : wconf) : res wconf :=
  let c := upd (λ q, set_valid q 0) c in
  if 0 <? wq_counter (c_wq c) then
    let c := upd (λ q, set_quit q 1) c in
    if 0 <? wq_idle (c_wq c) then Ok (goto t DBroadcast c) else workq_destroy_wait t c
  else Ok (goto t DUnlock c).

Definition workq_destroy_step (t : tid) (p : pc) (o : oracle) (c : wconf) : res wconf :=
  match p with
  | DLock =>
      if negb (o_status o =? 0) then Ok (returns t (o_status o) c)
      else c ← lock t c; workq_destroy_locked t c
  | DBroadcast =>
      if negb (o_status o =? 0) then Ok (goto t (DFail (o_status o)) c)
      else workq_destroy_wait t (upd (λ q, set_cv q (cond_broadcast (wq_cv q))) c)
  | DWait =>
      if negb (o_status o =? 0) then
        c ← lock t c;
        Ok (goto t (DFail (o_status o)) (upd (λ q, set_cv q (cond_leave t (wq_cv q))) c))
      else
        _ ← await (awake t (wq_cv (c_wq c)));
        c ← lock t c; workq_destroy_wait t c
  | DFail r => c ← unlock t c; Ok (returns t r c)
  | DUnlock =>
      if negb (o_status o =? 0) then Ok (returns t (o_status o) c)
      else c ← unlock t c; Ok (goto t DDestroy c)
  | DDestroy =>
      _ ← require (bool_decide (wq_mutex (c_wq c) = None)) BadSync;
      _ ← require (bool_decide (wq_cv (c_wq c) = [])) BadSync;
      Ok (returns t (o_status o) (upd (λ q, set_alive q false) c))
  | _ => Blocked
  end.

(** ** workq_server *)

(** Lines 164-184: shut down, time out, or go round the loop again. *)
Definition workq_server_tail (t : tid) (timedout : bool) (c : wconf) : wconf :=
  let q := c_wq c in
  match wq_first q with
  | None =>
      if negb (wq_quit q =? 0) then
        let c := upd (λ q, set_counter q (wq_counter q - 1)) c in
        let c := if wq_counter (c_wq c) =? 0
                 then upd (λ q, set_cv q (cond_broadcast (wq_cv q))) c else c in
        goto t SUnlockExit c
      else if timedout then
        goto t SUnlockExit (upd (λ q, set_counter q (wq_counter q - 1)) c)
      else goto t STop c
  | Some _ => goto t STop c
  end.

(** Lines 147-156: take the first element, if there is one.  The condition
    [if (wq->last = we)] is an assignment of a non-NULL pointer: it is true, and
    [wq->last] ends up NULL whatever it was. *)
Definition workq_server_take (t : tid) (timedout : bool) (c : wconf) : res wconf :=
  match wq_first (c_wq c) with
  | Some we =>
      e ← load (c_heap c) (Some we);
      Ok (goto t (SUnlockItem we timedout)
           (log_taken (we_data e) (upd (λ q, set_queue q (we_next e) None) c)))
  | None => Ok (workq_server_tail t timedout c)
  end.

(** Lines 122-126: [while (wq->first == NULL && !wq->quit)]. *)
Definition workq_server_loop (t : tid) (c : wconf) : res wconf :=
  let q := c_wq c in
  if bool_decide (wq_first q = None) && (wq_quit q =? 0) then
    block t SWait (upd (λ q, set_idle q (wq_idle q + 1)) c)
  else workq_server_take t false c.

(** Lines 126-146: the timed wait returns with the mutex held. *)
Definition workq_server_wakeup (t : tid) (s : Z) (c : wconf) : res wconf :=
  c ← lock t c;
  let c := upd (λ q, set_idle q (wq_idle q - 1)) c in
  if s =? ETIMEDOUT then
    workq_server_take t true (upd (λ q, set_cv q (cond_leave t (wq_cv q))) c)
  else if negb (s =? 0) then
    Ok (goto t SUnlockExit
         (upd (λ q, set_counter (set_cv q (cond_leave t (wq_cv q))) (wq_counter q - 1)) c))
  else workq_server_loop t c.

Definition workq_server_step (t : tid) (p : pc) (o : oracle) (c : wconf) : res wconf :=
  match p with
  | SLock =>
      if negb (o_status o =? 0) then Ok (goto t SExit c)
      else c ← lock t c; Ok (goto t STop c)
  | STop => workq_server_loop t c
  | SWait =>
      _ ← await (negb (o_status o =? 0) || awake t (wq_cv (c_wq c)));
      workq_server_wakeup t (o_status o) c
  | SUnlockItem we timedout =>
      if negb (o_status o =? 0) then Ok (goto t SExit c)
      else c ← unlock t c; Ok (goto t (SEngine we timedout) c)
  | SEngine we timedout =>
      e ← load (c_heap c) (Some we);
      h ← free (c_heap c) (Some we);
      Ok (goto t (SRelock timedout) (log_engine (we_data e) (set_heap h c)))
  | SRelock timedout =>
      if negb (o_status o =? 0) then Ok (goto t SExit c)
      else c ← lock t c; Ok (workq_server_tail t timedout c)
  | SUnlockExit => c ← unlock t c; Ok (goto t SExit c)
  | _ => Blocked
  end.

(** ** The machine *)

Inductive wevent : Type :=
  | EAdd (t : tid) (element : Z) (o : oracle)   (* thread t calls workq_add *)
  | EDestroy (t : tid)                          (* thread t calls workq_destroy *)
  | ERun (t : tid) (o : oracle)                 (* thread t takes its next step *)
  | ESpurious (t : tid).                        (* thread t wakes up without a signal *)

Definition wstep (c : wconf) (e : wevent) : res wconf :=
  match e with
  | EAdd t x o =>
      match c_threads c !! t with Some CIdle => workq_add_call t x o c | _ => Blocked end
  | EDestroy t =>
      match c_threads c !! t with Some CIdle => workq_destroy_call t c | _ => Blocked end
  | ERun t o =>
      match c_threads c !! t with
      | Some p =>
          match p with
          | CIdle | SExit => Blocked
          | ALock _ | ASignal | ACreate | AUnlock _ => workq_add_step t p o c
          | DLock | DBroadcast | DWait | DFail _ | DUnlock | DDestroy =>
              workq_destroy_step t p o c
          | SLock | STop | SWait | SUnlockItem _ _ | SEngine _ _ | SRelock _ | SUnlockExit =>
              workq_server_step t p o c
          end
      | None => Blocked
      end
  | ESpurious t => Ok (upd (λ q, set_cv q (cond_leave t (wq_cv q))) c)
  end.

#[export] Instance workq_machine : Machine wconf wevent := wstep.

(** [n] client threads and a queue that workq_init has set up for [threads]
    servers *)
Definition workq_start (n : nat) (threads : Z) : wconf :=
  WConf (workq_init (Workq None [] None None 0 0 0 0 0 false) threads 0 0 0 0).2
    ∅ (replicate n CIdle) [] [] [] [].

(** ** Invariants *)

Definition holding (p : pc) : bool :=
  match p with
  | ASignal | ACreate | AUnlock _ | DBroadcast | DFail _ | DUnlock
  | STop | SUnlockItem _ _ | SUnlockExit => true
  | _ => false
  end.

(** servers blocked in pthread_cond_timedwait, or about to return from it *)
Definition waiting (p : pc) : bool := match p with SWait => true | _ => false end.
(** servers that have not given up their place yet *)
Definition live (p : pc) : bool :=
  match p with
  | SLock | STop | SWait | SUnlockItem _ _ | SEngine _ _ | SRelock _ => true
  | _ => false
  end.
Definition creating (p : pc) : bool := match p with ACreate => true | _ => false end.

Ltac wstep_cases :=
  unfold wstep, workq_add_call, workq_destroy_call, workq_add_step, workq_destroy_step,
    workq_server_step, workq_server_wakeup, workq_server_loop, workq_server_take,
    workq_server_tail, workq_destroy_locked, workq_destroy_wait, workq_add_locked,
    block, lock, unlock in *;
  step_cases; sync_inv; subst; simpl in *;
  repeat match goal with
  | |- context [match ?x with _ => _ end] => destruct x eqn:?; simpl in *
  end.

Record counters_ok (c : wconf) : Prop := {
  co_mutex : mutex_ok holding (wq_mutex (c_wq c)) (c_threads c);
  co_idle : wq_idle (c_wq c) = cnt waiting (c_threads c);
  co_live : cnt live (c_threads c) ≤ wq_counter (c_wq c);
  co_bound : wq_counter (c_wq c) ≤ Z.max 0 (wq_parallelism (c_wq c));
  co_create : 0 < cnt creating (c_threads c) → wq_counter (c_wq c) < wq_parallelism (c_wq c)
}.

Lemma counters_start n k : counters_ok (workq_start n k).
Proof.
  split; simpl; [by apply mutex_ok_replicate|rewrite ?cnt_replicate by done; lia..].
Qed.

Lemma counters_stable : stable counters_ok.
Proof.
  intros c e c' [Hm Hi Hl Hb Hc] Hstep. change (wstep c e = Ok c') in Hstep.
  destruct c as [[m cv f la va qu pa co id al] h ths ad ta en re]. simpl in *.
  assert (cnt creating ths ≤ cnt holding ths) as Hch by (apply cnt_mono; by intros []).
  pose proof (mutex_ok_cnt _ _ _ Hm) as Hmc.
  destruct e; wstep_cases.
  all: split; simpl; try solve [solve_mutex_ok].
  all: try match goal with Ht : _ !! _ = Some _ |- _ =>
         pose proof (cnt_lookup creating _ _ _ Ht); simpl in * end.
  all: cnt_simpl; try lia.
Qed.

(** ** The queue is first-in first-out

    [fifo] describes the heap and the logs by the list [ls] of the queued
    nodes: the elements accepted so far are those the servers took, in the same
    order, followed by the queued ones.  The nodes that threads own (between
    malloc and enqueueing, between dequeueing and free) are allocated and
    disjoint from the queue. *)

Definition owned (p : pc) : option loc :=
  match p with ALock l | SUnlockItem l _ | SEngine l _ => Some l | _ => None end.

Definition data (h : gmap loc workq_ele_t) (ls : list loc) : list Z :=
  omap (λ l, we_data <$> h !! l) ls.

Lemma data_frame h h' ls :
  (∀ l, l ∈ ls → we_data <$> h' !! l = we_data <$> h !! l) → data h' ls = data h ls.
Proof.
  induction ls as [|l ls IH]; intros H; simpl; [done|].
  rewrite (H l), IH; [done| |]; set_solver.
Qed.
Lemma data_app h ls ks : data h (ls ++ ks) = data h ls ++ data h ks.
Proof. apply omap_app. Qed.

Record fifo (h : gmap loc workq_ele_t) (first lst : ptr) (ths : list pc)
    (added taken : list Z) (ls : list loc) : Prop := {
  fi_chain : chain h first ls;
  fi_last : lst = None ∨ lst = last ls;
  fi_nodup : NoDup (ls ++ omap owned ths);
  fi_alloc : ∀ l, l ∈ omap owned ths → is_Some (h !! l);
  fi_fresh : ∀ t l, ths !! t = Some (ALock l) → ∃ x, h !! l = Some (WorkqEle None x);
  fi_order : added = taken ++ data h ls
}.

Lemma owned_elem (ths : list pc) t p l : ths !! t = Some p → owned p = Some l → l ∈ omap owned ths.
Proof.
  intros Ht Hp. apply list_elem_of_omap. exists p. split; [|done].
  by eapply list_elem_of_lookup_2.
Qed.

Section fifo_steps.
Context (h : gmap loc workq_ele_t) (first lst : ptr) (ths : list pc).
Context (added taken : list Z) (ls : list loc) (t : tid) (p : pc).
Hypothesis Ht : ths !! t = Some p.
Hypothesis HF : fifo h first lst ths added taken ls.

(** steps that leave the queue and the heap alone *)
Lemma fifo_goto p' :
  (owned p' = None ∨ owned p' = owned p) → (∀ l, p' ≠ ALock l) →
  fifo h first lst (<[t := p']> ths) added taken ls.
Proof.
  intros Hp' Hno. destruct HF as [Hc Hl Hn Ha Hf Ho].
  pose proof (omap_insert_perm owned ths t p p' Ht) as Hperm.
  assert (∀ l, l ∈ omap owned (<[t:=p']> ths) → l ∈ omap owned ths) as Hsub.
  { destruct Hp' as [Hp'|Hp'].
    - rewrite Hp' in Hperm. simpl in Hperm. intros l. rewrite Hperm. set_solver.
    - by rewrite (omap_insert_same owned ths t p p'). }
  split; [done|done| |by auto| |done].
  - destruct Hp' as [Hp'|Hp'].
    + rewrite Hp' in Hperm. simpl in Hperm. rewrite Hperm in Hn.
      apply list.NoDup_app in Hn as (? & Hd & [_ [Hd2 ?]]%list.NoDup_app).
      apply list.NoDup_app. split_and!; [done| |done]. set_solver.
    + by rewrite (omap_insert_same owned ths t p p').
  - intros u l [(_ & Hu & _)|(_ & Hu)]%list_lookup_insert_Some; [naive_solver|eauto].
Qed.

Lemma fifo_spawn q :
  owned q = None → fifo h first lst (ths ++ [q]) added taken ls.
Proof.
  intros Hq. destruct HF as [Hc Hl Hn Ha Hf Ho].
  assert (omap owned (ths ++ [q]) = omap owned ths) as Heq.
  { rewrite omap_app. simpl. rewrite Hq. apply app_nil_r. }
  split; rewrite ?Heq; try done.
  intros u l [Hu|[_ Hu]]%lookup_app_Some; [eauto|].
  apply list_lookup_singleton_Some in Hu as [_ ->]. done.
Qed.

(** workq_add allocates an element *)
Lemma fifo_malloc l x :
  owned p = None → h !! l = None →
  fifo (<[l := WorkqEle None x]> h) first lst (<[t := ALock l]> ths) added taken ls.
Proof.
  intros Hp Hl'. destruct HF as [Hc Hl Hn Ha Hf Ho].
  pose proof (omap_insert_perm owned ths t p (ALock l) Ht) as Hperm.
  rewrite Hp in Hperm. simpl in Hperm.
  assert (l ∉ ls) as Hls.
  { intros Hin. destruct (chain_lookup _ _ _ _ Hc Hin). congruence. }
  assert (l ∉ omap owned ths) as Hown by (intros Hin; destruct (Ha _ Hin); congruence).
  split; [by apply chain_alloc|done| | | |].
  - rewrite <- Hperm, <- Permutation_middle. apply NoDup_cons. set_solver.
  - intros k. rewrite <- Hperm. rewrite elem_of_cons. intros [->|Hk].
    + rewrite lookup_insert_eq. by eexists.
    + destruct (decide (l = k)) as [->|]; [rewrite lookup_insert_eq; by eexists|].
      rewrite lookup_insert_ne by done. auto.
  - intros u k [(_ & [= ->] & _)|(_ & Hu)]%list_lookup_insert_Some.
    + exists x. apply lookup_insert_eq.
    + destruct (Hf _ _ Hu) as [y Hy]. exists y. rewrite lookup_insert_ne; [done|congruence].
  - rewrite Ho. f_equal. symmetry. apply data_frame. intros k Hk.
    rewrite lookup_insert_ne; [done|congruence].
Qed.

(** an element is freed by the thread that owns it *)
Lemma fifo_free l p' :
  owned p = Some l → owned p' = None →
  fifo (delete l h) first lst (<[t := p']> ths) added taken ls.
Proof.
  intros Hp Hp'. destruct (fifo_goto p' (or_introl Hp')) as [Hc Hl Hn Ha Hf Ho].
  { intros k ->. done. }
  pose proof (omap_insert_perm owned ths t p p' Ht) as Hperm.
  rewrite Hp, Hp' in Hperm. simpl in Hperm.
  assert ((l ∉ ls) ∧ l ∉ omap owned (<[t:=p']> ths)) as [Hls Hown].
  { pose proof (fi_nodup _ _ _ _ _ _ _ HF) as Hnd. rewrite Hperm in Hnd.
    apply list.NoDup_app in Hnd as (? & Hd & [Hd2 ?]%NoDup_cons). set_solver. }
  split; [|done|done| | |].
  - eapply chain_frame; [|done]. intros k n Hk Hkn. exists n.
    rewrite lookup_delete_ne; [done|congruence].
  - intros k Hk. rewrite lookup_delete_ne; [auto|congruence].
  - intros u k Hu. rewrite lookup_delete_ne; [eauto|].
    intros ->. apply Hown. by eapply owned_elem.
  - rewrite Ho. f_equal. symmetry. apply data_frame. intros k Hk.
    rewrite lookup_delete_ne; [done|congruence].
Qed.

(** workq_add links its element to the end of the queue *)
Lemma fifo_enqueue l e h' first' lst' p' :
  p = ALock l → owned p' = None → (∀ k, p' ≠ ALock k) → h !! l = Some e →
  enqueue h first lst l = Ok (h', first', lst') →
  fifo h' first' lst' (<[t := p']> ths) (added ++ [we_data e]) taken
    (ls ++ [l]).
Proof.
  intros -> Hp' Hno He Hq. pose proof HF as [Hc0 Hl0 Hn0 Ha0 Hf0 Ho0].
  destruct (Hf0 _ _ Ht) as [x Hx]. assert (e = WorkqEle None x) as -> by congruence.
  pose proof (omap_insert_perm owned ths t (ALock l) p' Ht) as Hperm.
  rewrite Hp' in Hperm. simpl in Hperm. rewrite Hperm in Hn0.
  assert ((l ∉ ls) ∧ NoDup ls) as [Hls Hnd].
  { apply list.NoDup_app in Hn0 as (? & Hd & ?). split; [|done].
    intros Hin. apply (Hd _ Hin). by left. }
  assert (queue_rep h first (last ls) ls) as Hrep by (by constructor).
  destruct (enqueue_spec h first (last ls) ls l _ Hrep Hls Hx eq_refl)
    as (h2 & Hq2 & [Hc2 Hn2 Hl2] & Hother & Hkeep).
  assert (h' = h2 ∧ first' = head (ls ++ [l]) ∧ lst' = Some l) as (-> & -> & ->).
  { destruct Hl0 as [->| ->]; [|split_and!; congruence].
    destruct first as [f|]; simpl in Hq; [done|].
    destruct ls; [|by destruct Hc0].
    simpl in *. split_and!; congruence. }
  assert (∀ k, we_data <$> h2 !! k = we_data <$> h !! k) as Hdata.
  { intros k. destruct (h !! k) as [m|] eqn:Hk.
    - destruct (Hkeep _ _ Hk) as (q & [->| ->]); done.
    - rewrite Hother, Hk; [done|]. intros Hin.
      destruct (chain_lookup _ _ _ _ Hc0 Hin). congruence. }
  assert (∀ k, k ∈ omap owned (<[t:=p']> ths) → k ∉ ls ++ [l]) as Hdisj.
  { intros k Hk. apply list.NoDup_app in Hn0 as (_ & Hd & [? ?]%NoDup_cons).
    rewrite elem_of_app. set_solver. }
  split; [done|by right| | | |].
  - rewrite <- app_assoc. done.
  - intros k Hk. rewrite Hother by set_solver. apply Ha0. rewrite Hperm. set_solver.
  - intros u k Hu. rewrite Hother.
    + apply list_lookup_insert_Some in Hu as [(_ & Hu & _)|(_ & Hu)]; [naive_solver|eauto].
    + pose proof (owned_elem _ _ _ _ Hu eq_refl). set_solver.
  - rewrite Ho0, data_app, <- app_assoc. f_equal. f_equal.
    + symmetry. by apply data_frame.
    + simpl. rewrite Hdata, Hx. done.
Qed.

(** a server takes the first element *)
Lemma fifo_take l e b :
  owned p = None → first = Some l → h !! l = Some e →
  ∃ ls', ls = l :: ls' ∧
  fifo h (we_next e) None (<[t := SUnlockItem l b]> ths) added (taken ++ [we_data e]) ls'.
Proof.
  intros Hp -> He. destruct HF as [Hc Hl Hn Ha Hf Ho].
  destruct ls as [|l' ls']; simpl in Hc; [done|].
  destruct Hc as ([= <-] & n & Hn' & Hc). assert (n = e) as -> by congruence. exists ls'. split; [done|].
  pose proof (omap_insert_perm owned ths t p (SUnlockItem l b) Ht) as Hperm.
  rewrite Hp in Hperm. simpl in Hperm.
  split; [done|by left| | | |].
  - rewrite <- Hperm, <- Permutation_middle. done.
  - intros k. rewrite <- Hperm, elem_of_cons. intros [->|Hk]; [by eexists|auto].
  - intros u k [(_ & Hu & _)|(_ & Hu)]%list_lookup_insert_Some; [done|eauto].
  - rewrite Ho. simpl. rewrite Hn'. simpl. by rewrite <- app_assoc.
Qed.
End fifo_steps.

Definition fifo_ok (c : wconf) : Prop :=
  ∃ ls, fifo (c_heap c) (wq_first (c_wq c)) (wq_last (c_wq c)) (c_threads c)
    (c_added c) (c_taken c) ls.

Lemma fifo_start n k : fifo_ok (workq_start n k).
Proof.
  assert (omap owned (replicate n CIdle) = []) as Ho.
  { induction n; [done|]. exact IHn. }
  exists []. split; simpl; rewrite ?Ho; try done; [by left|by apply NoDup_nil_2|set_solver|].
  intros t l [? _]%lookup_replicate_1. done.
Qed.

Lemma fifo_stable : stable fifo_ok.
Proof.
  intros c e c' [ls HF] Hstep. change (wstep c e = Ok c') in Hstep.
  destruct c as [[m cv f la va qu pa co id al] h ths ad ta en re]. simpl in *.
  destruct e; wstep_cases; unfold fifo_ok; simpl.
  all: try solve [exists ls; first
    [exact HF | eapply fifo_goto; [eassumption|exact HF|simpl; auto|done]]].
  - match goal with H : malloc _ _ _ = Ok _ |- _ => apply malloc_Ok in H as [? ->] end.
    exists ls. eapply fifo_malloc; done.
  - exists ls. eapply fifo_free; done.
  - exists (ls ++ [item]). eapply fifo_enqueue; done.
  - exists (ls ++ [item]). eapply fifo_enqueue; done.
  - exists (ls ++ [item]). eapply fifo_enqueue; done.
  - exists ls. rewrite insert_app_l by (eapply lookup_lt_Some; eassumption).
    apply fifo_spawn; [|done]. eapply fifo_goto; [done|exact HF|by left|done].
  - edestruct fifo_take as (ls' & _ & ?); [eassumption|exact HF|done..|]. by exists ls'.
  - edestruct fifo_take as (ls' & _ & ?); [eassumption|exact HF|done..|]. by exists ls'.
  - edestruct fifo_take as (ls' & _ & ?); [eassumption|exact HF|done..|]. by exists ls'.
  - exists ls. eapply fifo_free; done.
Qed.

(** ** A reliable environment

    Calls that do not fail, except that a timed wait may time out and a thread
    may not be created. *)
Definition reliable (c : wconf) (e : wevent) : bool :=
  match e with
  | ERun t o =>
      (o_status o =? 0) ||
      match c_threads c !! t with
      | Some SWait => o_status o =? ETIMEDOUT
      | Some ACreate => true
      | _ => false
      end
  | _ => true
  end.

Definition reliable_machine : Machine wconf wevent := restrict reliable.

(** inside one of the two condition waits on the queue's condition variable *)
Definition blocked (p : pc) : bool := match p with SWait | DWait => true | _ => false end.

(** elements taken off the queue, but not yet passed to the engine *)
Definition busy (p : pc) : option loc :=
  match p with SUnlockItem l _ | SEngine l _ => Some l | _ => None end.

(** a thread that will look at the queue (or send another one to it) *)
Definition attends (cv : cond) (t : tid) (p : pc) : Prop :=
  match p with
  | ASignal | ACreate => True
  | SWait => t ∉ cv
  | _ => live p = true
  end.

Record reliable_ok (c : wconf) : Prop := {
  ro_counters : counters_ok c;
  ro_fifo : fifo_ok c;
  ro_live : wq_counter (c_wq c) = cnt live (c_threads c);
  ro_once : c_taken c ≡ₚ c_engine c ++ data (c_heap c) (omap busy (c_threads c));
  ro_cv : cv_ok blocked (wq_cv (c_wq c)) (c_threads c);
  ro_quit : ∀ u, c_threads c !! u = Some DWait ∨ c_threads c !! u = Some DBroadcast →
    wq_quit (c_wq c) ≠ 0;
  ro_rundown : ∀ d u, c_threads c !! d = Some DWait → c_threads c !! u = Some SWait →
    u ∉ wq_cv (c_wq c);
  ro_signal : ∀ t, c_threads c !! t = Some ASignal → 0 < cnt waiting (c_threads c);
  ro_unlock : ∀ t, c_threads c !! t = Some DUnlock → wq_counter (c_wq c) ≤ 0;
}.

Lemma enqueue_data h first lst l h' first' lst' k :
  enqueue h first lst l = Ok (h', first', lst') → we_data <$> h' !! k = we_data <$> h !! k.
Proof.
  unfold enqueue, store_next. destruct first; intros; step_cases; [|done].
  simplify_eq. destruct (decide (n0 = k)) as [->|].
  - rewrite lookup_insert_eq. simpl. by simplify_option_eq.
  - by rewrite lookup_insert_ne.
Qed.

Lemma once_step h h' ths t p p' :
  ths !! t = Some p →
  (∀ l, l ∈ omap busy (<[t:=p']> ths) → we_data <$> h' !! l = we_data <$> h !! l) →
  data h (option_list (busy p')) ++ data h (omap busy ths) ≡ₚ
  data h (option_list (busy p)) ++ data h' (omap busy (<[t:=p']> ths)).
Proof.
  intros Ht Hh. rewrite (data_frame h h') by done. rewrite <- !data_app.
  unfold data. apply omap_Permutation, omap_insert_perm, Ht.
Qed.

Ltac use_reliable Hr :=
  cbn [reliable c_threads] in Hr;
  repeat match goal with
  | H : _ !! _ = Some _ |- _ => rewrite H in Hr
  | H : (_ =? _) = false |- _ => rewrite H in Hr
  end; simpl in Hr; try discriminate Hr.

Ltac lookup_inv :=
  repeat match goal with
  | H : <[_ := _]> _ !! _ = Some _ |- _ =>
      apply list_lookup_insert_Some in H as [(? & ? & ?)|[? H]]; subst; simplify_eq
  | H : (_ ++ [_]) !! _ = Some _ |- _ =>
      apply lookup_app_Some in H as [H|[? H%list_lookup_singleton_Some]];
      [|destruct H; subst; simplify_eq]
  end.

Ltac start_step c e Hstep :=
  destruct c as [[?m ?cv ?f ?la ?va ?qu ?pa ?co ?id ?al] ?h ?ths ?ad ?ta ?en ?re]; simpl in *.

Lemma reliable_live c e c' :
  reliable_ok c → reliable c e = true → wstep c e = Ok c' →
  wq_counter (c_wq c') = cnt live (c_threads c').
Proof.
  intros [_ _ Hl _ _ _ _ _ _] Hr Hstep. start_step c e Hstep.
  destruct e; wstep_cases; use_reliable Hr; cnt_simpl; lia.
Qed.

Lemma reliable_cv c e c' :
  reliable_ok c → reliable c e = true → wstep c e = Ok c' →
  cv_ok blocked (wq_cv (c_wq c')) (c_threads c').
Proof.
  intros [_ _ _ _ Hcv _ _ _ _] Hr Hstep. start_step c e Hstep.
  destruct e; wstep_cases; use_reliable Hr; solve_cv_ok.
Qed.

Lemma reliable_quit c e c' :
  reliable_ok c → reliable c e = true → wstep c e = Ok c' →
  ∀ u, c_threads c' !! u = Some DWait ∨ c_threads c' !! u = Some DBroadcast →
    wq_quit (c_wq c') ≠ 0.
Proof.
  intros [_ _ _ _ _ Hq _ _ _] Hr Hstep u. start_step c e Hstep. specialize (Hq u).
  destruct e; wstep_cases; use_reliable Hr; intros [Hu|Hu]; lookup_inv; eauto.
Qed.

Lemma reliable_signal c e c' :
  reliable_ok c → reliable c e = true → wstep c e = Ok c' →
  ∀ u, c_threads c' !! u = Some ASignal → 0 < cnt waiting (c_threads c').
Proof.
  intros [[Hm Hi _ _ _] _ _ _ _ _ _ Hs _] Hr Hstep u. start_step c e Hstep. specialize (Hs u).
  destruct e; wstep_cases; use_reliable Hr; intros Hu; lookup_inv; cnt_simpl; try lia.
  all: try (specialize (Hs Hu); lia).
  all: mutex_contra.
Qed.

Lemma reliable_unlock c e c' :
  reliable_ok c → reliable c e = true → wstep c e = Ok c' →
  ∀ u, c_threads c' !! u = Some DUnlock → wq_counter (c_wq c') ≤ 0.
Proof.
  intros [[Hm Hi _ _ _] _ _ _ _ _ _ _ Hs] Hr Hstep u. start_step c e Hstep. specialize (Hs u).
  destruct e; wstep_cases; use_reliable Hr; intros Hu; lookup_inv; try lia.
  all: try (specialize (Hs Hu); lia).
  all: mutex_contra.
Qed.

Lemma reliable_rundown c e c' :
  reliable_ok c → reliable c e = true → wstep c e = Ok c' →
  ∀ d u, c_threads c' !! d = Some DWait → c_threads c' !! u = Some SWait →
    u ∉ wq_cv (c_wq c').
Proof.
  intros [[Hm Hi _ _ _] _ _ _ Hcv Hq Hs _ _] Hr Hstep d u.
  assert (∀ ws, cond_signal (match e with ERun _ o => o_wake o | _ => None end)
            (wq_cv (c_wq c)) = Ok ws → u ∉ wq_cv (c_wq c) → u ∉ ws) as Hsig.
  { intros ws [[? ->]|(? & ? & ->)]%cond_signal_Ok; [set_solver|].
    rewrite elem_of_cond_leave. naive_solver. }
  start_step c e Hstep. specialize (Hs d u). specialize (Hq d).
  destruct e; wstep_cases; use_reliable Hr; intros Hd Hu; lookup_inv.
  all: try apply not_elem_of_nil.
  all: try (rewrite elem_of_cond_leave; intros [??]).
  all: try (by apply Hs).
  all: try (by eapply Hsig; eauto).
  all: rewrite elem_of_cond_block; intros [Hin|?]; try congruence.
  all: try (by apply Hs).
  all: try (by apply not_elem_of_nil in Hin).
  all: try (pose proof (cnt_lookup waiting _ _ _ Hu); simpl in *; lia).
  all: match goal with H : (_ =? _) = true |- _ => apply Z.eqb_eq in H end.
  all: apply Hq; auto.
Qed.

Lemma busy_owned (ths : list pc) l : l ∈ omap busy ths → l ∈ omap owned ths.
Proof.
  rewrite !list_elem_of_omap. intros (p & Hp & Hl). exists p. split; [done|]. by destruct p.
Qed.

Lemma once_frame h h' ths t p p' :
  ths !! t = Some p → busy p = busy p' →
  (∀ l, l ∈ omap busy ths → we_data <$> h' !! l = we_data <$> h !! l) →
  data h' (omap busy (<[t:=p']> ths)) = data h (omap busy ths).
Proof. intros Ht Hb Hh. rewrite (omap_insert_same _ _ _ p p') by done. by apply data_frame. Qed.

Lemma once_take h ths t p l e b :
  ths !! t = Some p → busy p = None → h !! l = Some e →
  data h (omap busy (<[t:=SUnlockItem l b]> ths)) ≡ₚ we_data e :: data h (omap busy ths).
Proof.
  intros Ht Hp Hl. pose proof (once_step h h ths t p (SUnlockItem l b) Ht) as H.
  rewrite Hp in H. simpl in H. rewrite <- H by done. by rewrite Hl.
Qed.

Lemma once_engine h first lst ths added taken ls t l e b :
  fifo h first lst ths added taken ls → ths !! t = Some (SEngine l b) → h !! l = Some e →
  data h (omap busy ths) ≡ₚ
  we_data e :: data (delete l h) (omap busy (<[t:=SRelock b]> ths)).
Proof.
  intros HF Ht Hl.
  rewrite (once_step h (delete l h) ths t (SEngine l b) (SRelock b) Ht); simpl.
  - by rewrite Hl.
  - intros k Hk%busy_owned. rewrite lookup_delete_ne; [done|]. intros ->.
    pose proof (fi_nodup _ _ _ _ _ _ _ HF) as Hnd.
    pose proof (omap_insert_perm owned ths t _ (SRelock b) Ht) as Hp. simpl in Hp.
    rewrite Hp in Hnd. apply list.NoDup_app in Hnd as (_ & _ & [Hno _]%NoDup_cons). done.
Qed.

Lemma perm_take {A} (ta en l : list A) x : ta ≡ₚ en ++ l → ta ++ [x] ≡ₚ en ++ x :: l.
Proof. intros ->. rewrite <- app_assoc. f_equiv. symmetry. apply Permutation_cons_append. Qed.

Lemma reliable_once c e c' :
  reliable_ok c → reliable c e = true → wstep c e = Ok c' →
  c_taken c' ≡ₚ c_engine c' ++ data (c_heap c') (omap busy (c_threads c')).
Proof.
  intros [_ [ls HF] _ Ho _ _ _ _ _] Hr Hstep. start_step c e Hstep.
  destruct e; wstep_cases; use_reliable Hr; try exact Ho.
  all: try (rewrite insert_app_l by (eapply lookup_lt_Some; eassumption);
            rewrite omap_app; simpl; rewrite app_nil_r).
  all: try (erewrite once_frame; [exact Ho|eassumption|reflexivity|];
            intros l Hl; try reflexivity; eauto using enqueue_data).
  - match goal with H : malloc _ _ _ = Ok _ |- _ => apply malloc_Ok in H as [Hn ->] end.
    apply busy_owned in Hl. destruct (fi_alloc _ _ _ _ _ _ _ HF _ Hl).
    rewrite lookup_insert_ne; [done|congruence].
  - erewrite once_take by first [eassumption|reflexivity].
    by apply perm_take.
  - erewrite once_take by first [eassumption|reflexivity].
    by apply perm_take.
  - erewrite once_take by first [eassumption|reflexivity].
    by apply perm_take.
  - match goal with Ht : _ !! _ = Some (SEngine _ _), He : _ !! _ = Some _ |- _ =>
      pose proof (once_engine _ _ _ _ _ _ _ _ _ _ _ HF Ht He) as Hen end.
    simplify_eq. rewrite Ho, Hen, <- app_assoc. done.
Qed.

Lemma reliable_step c e c' :
  reliable_ok c → reliable c e = true → wstep c e = Ok c' → reliable_ok c'.
Proof.
  intros H Hr Hs. split.
  - by eapply counters_stable; [apply H|].
  - by eapply fifo_stable; [apply H|].
  - by eapply reliable_live.
  - by eapply reliable_once.
  - by eapply reliable_cv.
  - by eapply reliable_quit.
  - by eapply reliable_rundown.
  - by eapply reliable_signal.
  - by eapply reliable_unlock.
Qed.

Lemma reliable_start n k : reliable_ok (workq_start n k).
Proof.
  split; simpl; eauto using counters_start, fifo_start, cv_ok_nil.
  - by rewrite cnt_replicate.
  - replace (omap busy (replicate n CIdle)) with ([] : list loc); [done|].
    induction n; [done|]. exact IHn.
  - intros u [[? _]%lookup_replicate_1|[? _]%lookup_replicate_1]; done.
  - intros d u [? _]%lookup_replicate_1. done.
  - intros u [? _]%lookup_replicate_1. done.
  - intros u [? _]%lookup_replicate_1. done.
Qed.

(** ** No element is stranded *)

Definition attended (c : wconf) : Prop :=
  wq_first (c_wq c) ≠ None →
  ∃ t p, c_threads c !! t = Some p ∧ attends (wq_cv (c_wq c)) t p.

(** another thread's attention survives a step of [t] that adds nobody but [t]
    to the waiters *)
Lemma attends_other (ths : list pc) cv cv' t u p q :
  ths !! u = Some q → attends cv u q → u ≠ t →
  (∀ v, v ∈ cv' → v ∈ cv ∨ v = t) →
  ∃ v r, <[t:=p]> ths !! v = Some r ∧ attends cv' v r.
Proof.
  intros Hu Ha Hne Hcv. exists u, q. rewrite list_lookup_insert_ne by done. split; [done|].
  destruct q; simpl in *; try done. intros Hin. destruct (Hcv _ Hin); done.
Qed.

Lemma attends_self (ths : list pc) cv t p q :
  ths !! t = Some q → attends cv t p →
  ∃ v r, <[t:=p]> ths !! v = Some r ∧ attends cv v r.
Proof.
  intros Ht Hp. exists t, p. split; [|done].
  apply list_lookup_insert_eq. by eapply lookup_lt_Some.
Qed.


(** after workq_add's signal some server is awake: either nobody was blocked, or
    the signalled thread is a server, or it is the thread in workq_destroy, which
    can only be blocked together with servers that are already awake *)
Lemma attends_signal (ths : list pc) cv cv' w t p :
  cond_signal w cv = Ok cv' → cv_ok blocked cv ths → 0 < cnt waiting ths →
  (∀ d u, ths !! d = Some DWait → ths !! u = Some SWait → u ∉ cv) →
  ths !! t = Some ASignal →
  ∃ v r, <[t:=p]> ths !! v = Some r ∧ attends cv' v r.
Proof.
  intros Hs Hcv (u & q & Hu & Hq)%cnt_pos Hrd Ht. destruct q; try done.
  assert (∀ v, v ∉ cv' → ths !! v = Some SWait →
    ∃ v r, <[t:=p]> ths !! v = Some r ∧ attends cv' v r) as Hdone.
  { intros v Hv Hvs. eapply (attends_other ths cv' cv' t v _ SWait); [done..| |by left].
    intros ->. congruence. }
  apply cond_signal_Ok in Hs as [[-> ->]|(v & Hv & ->)].
  - apply (Hdone u); [by apply not_elem_of_nil|done].
  - destruct (Hcv v Hv) as (r & Hr & Hb). destruct r; try done.
    + apply (Hrd _ _ Hr) in Hu as Hnu. apply (Hdone u); [|done].
      rewrite elem_of_cond_leave. naive_solver.
    + apply (Hdone v); [|done]. rewrite elem_of_cond_leave. naive_solver.
Qed.

(** ... and pthread_create always succeeds *)
Definition steady (c : wconf) (e : wevent) : bool :=
  reliable c e &&
  match e with
  | ERun t o => match c_threads c !! t with Some ACreate => o_status o =? 0 | _ => true end
  | _ => true
  end.
Definition steady_machine : Machine wconf wevent := restrict steady.

Ltac other_thread :=
  match goal with
  | Hu : ?ths !! ?u = Some ?q, Ht : ?ths !! ?t = Some ?p |- ∃ _ _, <[?t:=_]> _ !! _ = _ ∧ _ =>
      first [constr_eq u t; fail 1|
      assert (u ≠ t) by
        (intros ->; rewrite Ht in Hu; injection Hu as <-; simpl in *; done)]
  end.

Lemma attended_step c e c' :
  1 ≤ wq_parallelism (c_wq c) →
  reliable_ok c → attended c → steady c e = true → wstep c e = Ok c' →
  1 ≤ wq_parallelism (c_wq c') ∧ attended c'.
Proof.
  intros Hpar [[Hm Hi _ _ _] _ Hl _ Hcv Hq Hrd Hsg _] Hatt [Hr Hr2]%andb_prop Hstep.
  unfold attended in *. start_step c e Hstep.
  destruct e; wstep_cases; use_reliable Hr; use_reliable Hr2; (split; [assumption|]).
  all: try (intros; contradiction).
  all: try (intros _; eapply attends_self; [eassumption|done]).
  all: try (intros Hf; specialize (Hatt Hf); destruct Hatt as (u & q & Hu & Ha)).
  all: try other_thread.
  all: try (eapply attends_other; [exact Hu|exact Ha|assumption|];
         intros v; unfold cond_broadcast;
         rewrite ?elem_of_cond_block, ?elem_of_cond_leave, ?elem_of_nil; tauto).
  - (* every server is waiting or gone, and there is a live one *)
    intros _. assert (0 < cnt live ths)%Z as (u & q & Hu & Hlive)%cnt_pos by lia.
    assert (waiting q = false) as Hw.
    { pose proof (cnt_lookup waiting _ _ _ Hu) as Hw. destruct (waiting q); [|done].
      simpl in Hw. pose proof (cnt_nonneg waiting ths). lia. }
    eapply (attends_other ths cv cv t u _ q); [done|by destruct q| |by left].
    intros ->. by simplify_eq.
  - by eapply attends_signal; eauto.
  - exists (length ths), SLock. split; [|done].
    pose proof (lookup_lt_Some _ _ _ Heqo0).
    rewrite list_lookup_insert_ne by lia. rewrite lookup_app_r, Nat.sub_diag by lia. done.
  - exists u, q. split; [done|]. destruct q; simpl in *; try done.
    rewrite elem_of_cond_leave. naive_solver.
Qed.

(** ** Memory safety *)

Lemma enqueue_no_dangling h first lst ths ad ta ls item :
  fifo h first lst ths ad ta ls → enqueue h first lst item ≠ Fault BadPointer.
Proof.
  intros HF. destruct HF as [Hc Hl _ _ _ _]. unfold enqueue.
  destruct first as [f|]; [|done]. unfold store_next.
  destruct Hl as [->| ->]; [done|].
  destruct (last ls) as [l|] eqn:Hlast; [|done].
  apply last_Some in Hlast as [ls' ->].
  destruct (chain_lookup _ _ _ l Hc) as [e He]; [set_solver|]. by rewrite He.
Qed.

Lemma fifo_no_dangling : avoids fifo_ok BadPointer.
Proof.
  intros c e [ls HF] Hstep. change (wstep c e = Fault BadPointer) in Hstep.
  destruct c as [[m cv f la va qu pa co id al] h ths ad ta en re]. simpl in *.
  pose proof (fi_alloc _ _ _ _ _ _ _ HF) as Ha.
  assert (∀ t p l, ths !! t = Some p → owned p = Some l → h !! l = None → False) as Hown.
  { intros t p l Ht Hp Hn. destruct (Ha l); [by eapply owned_elem|congruence]. }
  destruct e; unfold wstep, workq_add_call, workq_destroy_call, workq_add_step,
    workq_destroy_step, workq_server_step, workq_server_wakeup, workq_server_loop,
    workq_server_take, workq_server_tail, workq_destroy_locked, workq_destroy_wait,
    workq_add_locked, block, lock, unlock, load, free, malloc, of_option, mutex_lock,
    mutex_unlock, cond_signal, require, await, choose in Hstep.
  all: repeat (simpl in Hstep; try discriminate Hstep;
    match type of Hstep with context [match ?x with _ => _ end] => destruct x eqn:? end).
  all: simpl in Hstep; try discriminate Hstep.
  all: try (eapply Hown; [eassumption|reflexivity|eassumption]).
  all: try match type of Hstep with enqueue _ _ _ _ ≫= _ = _ =>
         apply bind_Fault in Hstep as [Hq|([[? ?] ?] & _ & Hq)];
         [by eapply enqueue_no_dangling in Hq|discriminate Hq] end.
  all: destruct HF as [Hc _ _ _ _ _]; destruct ls as [|l ls]; simpl in Hc; [congruence|];
    destruct Hc as (? & ? & ? & ?); simplify_eq.
Qed.

(** a server that takes an element but leaves others behind has lost the last
    pointer: the next workq_add dereferences NULL *)
Lemma take_loses_last t b c c' n :
  wq_first (c_wq c) = Some n → workq_server_take t b c = Ok c' → wq_last (c_wq c') = None.
Proof. unfold workq_server_take. intros ->. intros. by step_cases. Qed.

Lemma add_without_last t item c f :
  wq_first (c_wq c) = Some f → wq_last (c_wq c) = None → is_Some (c_heap c !! item) →
  workq_add_locked t item c = Fault NullDeref.
Proof. unfold workq_add_locked. intros -> -> [e He]. simpl. by rewrite He. Qed.

(** ** The engine of the demo program

    [engine_routine] counts its calls in thread-specific data; the destructor
    of a terminating server pushes its [engine_t] on a list that main sums up
    after workq_destroy. *)

(** [for (count = 1; count <= power; count++) result *= value;] in 32-bit ints *)
Fixpoint engine_power (value : Z) (power : nat) (result : Z) : Z :=
  match power with
  | O => result
  | S power => engine_power value power (int32 (result * value))
  end.

Record engines := Engines {
  en_tsd : list (option Z);   (* pthread_getspecific(engine_key) of each server *)
  en_list : list Z            (* calls of the engine_t on engine_list_head *)
}.

Definition engine_routine (t : tid) (s : engines) : res engines :=
  tsd ← of_option BadSync (en_tsd s !! t);
  Ok (Engines (<[t := Some (match tsd with None => 1 | Some calls => int32 (calls + 1) end)]>
        (en_tsd s)) (en_list s)).

(** a server terminates: the destructor runs if the key has a value *)
Definition destructor (t : tid) (s : engines) : res engines :=
  tsd ← of_option BadSync (en_tsd s !! t);
  Ok (Engines (<[t := None]> (en_tsd s))
        (match tsd with None => en_list s | Some calls => calls :: en_list s end)).

Inductive engine_event := Call (t : tid) | Exit (t : tid).
Definition engine_step (s : engines) (e : engine_event) : res engines :=
  match e with Call t => engine_routine t s | Exit t => destructor t s end.
#[export] Instance engine_machine : Machine engines engine_event := engine_step.
Definition engines_start (n : nat) : engines := Engines (replicate n None) [].

(** main: [while (engine != NULL) { count++; calls += engine->calls; ... }],
    where [count] has no initial value *)
Fixpoint sum_engines (count calls : Z) (l : list Z) : Z * Z :=
  match l with
  | [] => (count, calls)
  | c :: l => sum_engines (int32 (count + 1)) (int32 (calls + c)) l
  end.
Lemma engine_power_spec value power result :
  0 ≤ value → 0 ≤ result → result * value ^ Z.of_nat power < 2 ^ 31 →
  engine_power value power result = result * value ^ Z.of_nat power.
Proof.
  revert result. induction power as [|power IH]; intros result Hv Hr Hb; simpl engine_power.
  - lia.
  - rewrite Nat2Z.inj_succ, Z.pow_succ_r, Z.mul_assoc in Hb by lia.
    destruct (decide (value = 0)) as [->|].
    + rewrite Nat2Z.inj_succ, Z.pow_succ_r, Z.mul_0_l, !Z.mul_0_r by lia.
      rewrite IH; rewrite ?wrap_signed_id; lia.
    + pose proof (Z.pow_pos_nonneg value (Z.of_nat power)).
      rewrite wrap_signed_id by nia. rewrite IH by nia.
      rewrite Nat2Z.inj_succ, Z.pow_succ_r by lia. lia.
Qed.

Definition tsd_calls (l : list (option Z)) : Z := foldr (λ o s, default 0 o + s) 0 l.

Lemma tsd_calls_insert l t o o' :
  l !! t = Some o → tsd_calls (<[t := o']> l) = tsd_calls l - default 0 o + default 0 o'.
Proof.
  revert t; induction l as [|x l IH]; intros [|t]; simpl; try done.
  - intros [= ->]. unfold tsd_calls. simpl. lia.
  - intros Ht. unfold tsd_calls in *. simpl. rewrite (IH _ Ht). lia.
Qed.

Definition is_call (e : engine_event) : bool := match e with Call _ => true | Exit _ => false end.
Fixpoint sumZ (l : list Z) : Z := match l with [] => 0 | c :: l => c + sumZ l end.

(** the calls made are those on the list and those still in the servers' data *)
Definition engines_ok (k : Z) (s : engines) : Prop :=
  sumZ (en_list s) + tsd_calls (en_tsd s) = k ∧
  Forall (λ o, 0 ≤ default 0 o) (en_tsd s) ∧ Forall (λ c, 0 ≤ c) (en_list s).

Lemma tsd_calls_lookup l t o :
  Forall (λ o, 0 ≤ default 0 o) l → l !! t = Some o → 0 ≤ default 0 o ≤ tsd_calls l.
Proof.
  intros H. revert t; induction H as [|x l Hx H IH]; intros [|t]; simpl; try done.
  - intros [= ->]. assert (0 ≤ tsd_calls l).
    { clear - H. induction H; unfold tsd_calls in *; simpl; lia. }
    unfold tsd_calls in *. simpl. lia.
  - intros Ht. destruct (IH _ Ht). unfold tsd_calls in *. simpl. lia.
Qed.

Lemma sumZ_nonneg l : Forall (λ c, 0 ≤ c) l → 0 ≤ sumZ l.
Proof. induction 1; simpl; lia. Qed.

Lemma engines_ok_step k s e s' :
  engines_ok k s → k + 1 < 2 ^ 31 → engine_step s e = Ok s' →
  engines_ok (k + Z.b2z (is_call e)) s'.
Proof.
  intros (Hk & Ht & Hl) Hb He. pose proof (sumZ_nonneg _ Hl).
  destruct s as [tsd l], e as [t|t]; unfold engine_step, engine_routine, destructor in He;
    step_cases;
    match goal with H : _ !! _ = Some ?x |- _ => destruct x end;
    pose proof (tsd_calls_lookup _ _ _ Ht ltac:(eassumption)) as Hx; simpl in *.
  all: unfold engines_ok; simpl; erewrite tsd_calls_insert by eassumption; simpl.
  all: rewrite ?wrap_signed_id by lia.
  all: split_and!; try lia; try done; try apply Forall_insert; try done; simpl; try lia.
  all: try (constructor; [lia|done]).
Qed.

Lemma engines_ok_run es s s' k :
  engines_ok k s → k + Z.of_nat (length es) < 2 ^ 31 → run s es = Ok s' →
  engines_ok (k + cnt is_call es) s'.
Proof.
  revert k s. induction es as [|e es IH]; intros k s Hs Hb; simpl.
  - intros [= <-]. by rewrite Z.add_0_r.
  - intros (s1 & He & Hr)%bind_Ok. rewrite Z.add_assoc. simpl in Hb.
    eapply IH; [|destruct e; simpl; lia|done]. eapply engines_ok_step; [done|lia|done].
Qed.

Lemma sum_engines_spec count calls l :
  Forall (λ c, 0 ≤ c) l → 0 ≤ calls → calls + sumZ l < 2 ^ 31 →
  (sum_engines count calls l).2 = calls + sumZ l.
Proof.
  intros H. revert count calls. induction H as [|c l Hc H IH]; intros count calls; simpl; [lia|].
  intros. pose proof (sumZ_nonneg _ H). rewrite (wrap_signed_id 32 (calls + c)) by lia.
  rewrite IH by lia. lia.
Qed.

Lemma engines_start_ok n : engines_ok 0 (engines_start n).
Proof.
  unfold engines_ok; simpl. induction n as [|n (IH & ? & ?)]; simpl; [done|].
  unfold tsd_calls in *. simpl. split_and!; [lia| |done]. constructor; [simpl; lia|done].
Qed.

Lemma steady_reachable n threads c :
  1 ≤ threads →
  reachable (M := steady_machine) (workq_start n threads) c →
  reliable_ok c ∧ 1 ≤ wq_parallelism (c_wq c) ∧ attended c.
Proof.
  intros Hk Hc.
  apply (invariant_run (M := steady_machine)
    (λ c, reliable_ok c ∧ 1 ≤ wq_parallelism (c_wq c) ∧ attended c)
    (workq_start n threads) c); [| |done].
  - split_and!; [apply reliable_start|done|]. intros []. done.
  - intros c1 e c2 (Hro & Hp & Ha) [Hs He]%restrict_Ok.
    split; [|by eapply attended_step].
    eapply reliable_step; [done| |exact He]. by apply andb_prop in Hs as [? _].
Qed.

Lemma no_busy (ths : list pc) : cnt live ths = 0 → omap busy ths = [].
Proof.
  intros H0. destruct (omap busy ths) as [|l k] eqn:Hl; [done|].
  assert (l ∈ omap busy ths) as (p & Hp & Hb)%list_elem_of_omap by (rewrite Hl; by left).
  apply list_elem_of_lookup in Hp as [i Hi].
  pose proof (proj1 (cnt_zero _ _) H0 _ _ Hi). by destruct p.
Qed.

(** ** Properties *)

(** In every run of any number of clients and servers, under every
    interleaving and every failure of a call, [idle] is the number of servers in
    the timed wait, the servers that have not given up their place never outnumber
    [counter], [counter] never exceeds the parallelism given to workq_init, and
    only one thread is inside the queue's mutex. *)
Theorem workq_pool n threads c :
  reachable (workq_start n threads) c →
  wq_idle (c_wq c) = cnt waiting (c_threads c) ∧
  cnt live (c_threads c) ≤ wq_counter (c_wq c) ≤ Z.max 0 (wq_parallelism (c_wq c)) ∧
  cnt holding (c_threads c) ≤ 1.
Proof.
  intros Hc. assert (counters_ok c) as [Hm Hi Hl Hb _].
  { by eapply invariant_run; [apply counters_start|apply counters_stable|]. }
  split_and!; [done..|]. by eapply mutex_ok_cnt.
Qed.

(** one client adds two elements; the first server takes and runs the first *)
Definition workq_demo : list wevent :=
  [EAdd 0 10 (ok_alloc 0); ERun 0 ok; ERun 0 ok; ERun 0 ok;
   EAdd 0 20 (ok_alloc 1); ERun 0 ok; ERun 0 ok;
   ERun 1 ok; ERun 1 ok; ERun 1 ok; ERun 1 ok].

Lemma workq_pool_witness :
  completes (workq_start 1 1) workq_demo = true ∧
  (let c := final (workq_start 1 1) workq_demo in
   wq_idle (c_wq c) = cnt waiting (c_threads c) ∧
   cnt live (c_threads c) ≤ wq_counter (c_wq c) ≤ Z.max 0 (wq_parallelism (c_wq c)) ∧
   cnt holding (c_threads c) ≤ 1).
Proof.
  split; [by vm_compute|].
  apply (workq_pool 1 1), reachable_final. by vm_compute.
Defined.

(** C34: The queue is first-in first-out under every interleaving and every failure:
    the elements that workq_add has accepted are, in the same order, those
    servers have taken followed by those linked from [first]. *)
Theorem workq_fifo n threads c :
  reachable (workq_start n threads) c →
  ∃ ls, chain (c_heap c) (wq_first (c_wq c)) ls ∧ NoDup ls ∧
    c_added c = c_taken c ++ data (c_heap c) ls.
Proof.
  intros Hc. assert (fifo_ok c) as [ls [Hch _ Hnd _ _ Ho]].
  { by eapply invariant_run; [apply fifo_start|apply fifo_stable|]. }
  exists ls. split_and!; [done| |done]. by apply list.NoDup_app in Hnd as (? & _ & _).
Qed.

Lemma workq_fifo_witness :
  c_taken (final (workq_start 1 1) workq_demo) = [10] ∧
  ∃ ls, chain (c_heap (final (workq_start 1 1) workq_demo))
      (wq_first (c_wq (final (workq_start 1 1) workq_demo))) ls ∧ NoDup ls ∧
    c_added (final (workq_start 1 1) workq_demo) =
      c_taken (final (workq_start 1 1) workq_demo) ++
      data (c_heap (final (workq_start 1 1) workq_demo)) ls.
Proof.
  split; [by vm_compute|].
  apply (workq_fifo 1 1), reachable_final. by vm_compute.
Defined.

(** C1: workq_destroy only returns once the pool has run down: when no call fails
    (timed waits may still time out) and the queue may have at least one server,
    a thread that leaves the loop of workq_destroy finds no server alive, an
    empty queue, and every element ever accepted processed exactly once. *)
Theorem workq_destroy_drains n threads c t :
  1 ≤ threads →
  reachable (M := steady_machine) (workq_start n threads) c →
  c_threads c !! t = Some DUnlock →
  cnt live (c_threads c) = 0 ∧ wq_first (c_wq c) = None ∧ c_engine c ≡ₚ c_added c.
Proof.
  intros Hk Hc Ht. destruct (steady_reachable _ _ _ Hk Hc) as (Hro & _ & Hatt).
  pose proof (ro_counters _ Hro) as [Hm _ _ _ _].
  assert (cnt live (c_threads c) = 0) as Hlive.
  { pose proof (ro_unlock _ Hro _ Ht). pose proof (ro_live _ Hro).
    pose proof (cnt_nonneg live (c_threads c)). lia. }
  assert (wq_first (c_wq c) = None) as Hf.
  { destruct (wq_first (c_wq c)) eqn:Hf; [|done].
    destruct Hatt as (u & p & Hu & Ha); [congruence|].
    pose proof (proj1 (cnt_zero _ _) Hlive _ _ Hu).
    assert (holding p = true ∧ p ≠ DUnlock) as [Hp ?] by (by destruct p).
    assert (u = t) as -> by (by eapply (mutex_ok_unique _ _ _ _ _ _ _ Hm)). congruence. }
  split_and!; [done..|]. destruct (ro_fifo _ Hro) as [ls [Hch _ _ _ _ Ho]].
  rewrite Hf in Hch. destruct ls; [|by destruct Hch].
  rewrite Ho, app_nil_r, (ro_once _ Hro), (no_busy _ Hlive), app_nil_r. done.
Qed.

(** one client, one server: an element is added and processed, then the queue is
    destroyed while the server is idle *)
Definition workq_life : list wevent :=
  [EAdd 0 10 (ok_alloc 0); ERun 0 ok; ERun 0 ok; ERun 0 ok;
   ERun 1 ok; ERun 1 ok; ERun 1 ok; ERun 1 ok; ERun 1 ok; ERun 1 ok;
   EDestroy 0; ERun 0 ok; ERun 0 ok; ERun 1 ok; ERun 1 ok; ERun 0 ok].

Lemma workq_destroy_drains_witness :
  c_added (final (M := steady_machine) (workq_start 1 1) workq_life) = [10] ∧
  (let c := final (M := steady_machine) (workq_start 1 1) workq_life in
   cnt live (c_threads c) = 0 ∧ wq_first (c_wq c) = None ∧ c_engine c ≡ₚ c_added c).
Proof.
  split; [by vm_compute|].
  apply (workq_destroy_drains 1 1 _ 0); [lia| |by vm_compute].
  apply (reachable_final (M := steady_machine)). by vm_compute.
Defined.

(** C35: No accepted element is stranded: when no call fails (timed waits may still
    time out) and the queue may have a server, then whenever an element is queued
    some thread is on its way to it - a server that is awake, or a client about to
    signal or to create one. *)
Theorem workq_attended n threads c :
  1 ≤ threads →
  reachable (M := steady_machine) (workq_start n threads) c →
  wq_first (c_wq c) ≠ None →
  ∃ t p, c_threads c !! t = Some p ∧ attends (wq_cv (c_wq c)) t p.
Proof. intros Hk Hc. by apply (steady_reachable _ _ _ Hk Hc). Qed.

Lemma workq_attended_witness :
  ∃ t p, c_threads (final (M := steady_machine) (workq_start 1 1) workq_demo) !! t = Some p ∧
    attends (wq_cv (c_wq (final (M := steady_machine) (workq_start 1 1) workq_demo))) t p.
Proof.
  apply (workq_attended 1 1); [lia| |by vm_compute].
  apply (reachable_final (M := steady_machine)). by vm_compute.
Defined.

(** C12: Every accepted element is run by the engine at most once, and none is lost:
    when no call but pthread_create fails (timed waits may time out), the accepted
    elements are, up to order, those the engine has run, those a server has taken
    and not yet run, and those still queued. *)
Theorem workq_exactly_once n threads c :
  reachable (M := reliable_machine) (workq_start n threads) c →
  ∃ ls, chain (c_heap c) (wq_first (c_wq c)) ls ∧
    c_added c ≡ₚ c_engine c ++ data (c_heap c) (omap busy (c_threads c)) ++ data (c_heap c) ls.
Proof.
  intros Hc. assert (reliable_ok c) as Hro.
  { apply (invariant_run (M := reliable_machine) reliable_ok (workq_start n threads) c);
      [apply reliable_start| |done].
    intros c1 e c2 H [Hr Hs]%restrict_Ok. by eapply reliable_step. }
  destruct (ro_fifo _ Hro) as [ls [Hch _ _ _ _ Ho]]. exists ls. split; [done|].
  rewrite Ho, (ro_once _ Hro), <- app_assoc. done.
Qed.

Lemma workq_exactly_once_witness :
  ∃ ls, chain (c_heap (final (M := reliable_machine) (workq_start 1 1) workq_demo))
      (wq_first (c_wq (final (M := reliable_machine) (workq_start 1 1) workq_demo))) ls ∧
    c_added (final (M := reliable_machine) (workq_start 1 1) workq_demo) ≡ₚ
    c_engine (final (M := reliable_machine) (workq_start 1 1) workq_demo) ++
    data (c_heap (final (M := reliable_machine) (workq_start 1 1) workq_demo))
      (omap busy (c_threads (final (M := reliable_machine) (workq_start 1 1) workq_demo))) ++
    data (c_heap (final (M := reliable_machine) (workq_start 1 1) workq_demo)) ls.
Proof.
  apply (workq_exactly_once 1 1), (reachable_final (M := reliable_machine)). by vm_compute.
Defined.

(** No run of the work queue uses an element after it is freed, frees it twice, or
    follows a dangling pointer, whatever the interleaving and whatever call fails. *)
Theorem workq_no_use_after_free n threads : ¬ can_fault (workq_start n threads) BadPointer.
Proof.
  apply (invariant_no_fault fifo_ok); [apply fifo_start|apply fifo_stable|].
  apply fifo_no_dangling.
Qed.

(** The assignment [if (wq->last = we)] of workq_server makes the library crash: a
    server that takes an element clears [last]; if it leaves another element
    queued, the next workq_add of any client dereferences NULL. *)
Theorem workq_add_after_take_crashes t b c c1 t' item x :
  workq_server_take t b c = Ok c1 →
  wq_first (c_wq c) ≠ None → wq_first (c_wq c1) ≠ None → wq_alive (c_wq c1) = true →
  c_threads c1 !! t' = Some (ALock item) → c_heap c1 !! item = Some x →
  ∀ c2, unlock t c1 = Ok c2 → wstep c2 (ERun t' ok) = Fault NullDeref.
Proof.
  intros Htake Hf Hf1 Ha Ht' Hx c2 Hu. destruct (wq_first (c_wq c)) as [l|] eqn:Hl; [|done].
  pose proof (take_loses_last _ _ _ _ _ Hl Htake) as Hlast.
  unfold unlock in Hu. sync_inv. subst. simpl. rewrite Ht'. simpl.
  unfold lock. simpl. rewrite Ha. simpl. unfold workq_add_locked. simpl. rewrite Hx.
  simpl. destruct (wq_first (c_wq c1)); [|done]. simpl. by rewrite Hlast.
Qed.

(** a server about to take the first of two elements while the client has a third
    one in its hands *)
Definition workq_crash : list wevent :=
  [EAdd 0 10 (ok_alloc 0); ERun 0 ok; ERun 0 ok; ERun 0 ok;
   EAdd 0 20 (ok_alloc 1); ERun 0 ok; ERun 0 ok;
   EAdd 0 30 (ok_alloc 2); ERun 1 ok].

Lemma workq_add_after_take_crashes_witness :
  run (workq_start 1 1) (workq_crash ++ [ERun 1 ok; ERun 1 ok]) =
    Ok (final (workq_start 1 1) (workq_crash ++ [ERun 1 ok; ERun 1 ok])) ∧
  wstep (goto 1 (SUnlockItem 0 false) (upd (λ q, set_mutex q None)
    (final (workq_start 1 1) (workq_crash ++ [ERun 1 ok])))) (ERun 0 ok) = Fault NullDeref.
Proof.
  split; [by vm_compute|].
  apply (workq_add_after_take_crashes 1 false (final (workq_start 1 1) workq_crash)
    (final (workq_start 1 1) (workq_crash ++ [ERun 1 ok])) 0 2 (WorkqEle None 30));
    vm_compute; done.
Defined.

(** Workq_add can report failure for an element it keeps: when pthread_create fails,
    workq_add returns the error, but the element stays on the queue with no server
    alive and nobody on the way to it. *)
Theorem workq_add_error_keeps_element :
  ∃ c, reachable (M := reliable_machine) (workq_start 1 1) c ∧
    c_rets c = [(0%nat, EAGAIN)] ∧ c_added c = [10] ∧ wq_first (c_wq c) ≠ None ∧
    (∀ t p, c_threads c !! t = Some p → ¬ attends (wq_cv (c_wq c)) t p).
Proof.
  exists (final (M := reliable_machine) (workq_start 1 1)
    [EAdd 0 10 (ok_alloc 0); ERun 0 ok; ERun 0 (failing EAGAIN); ERun 0 ok]).
  split; [apply (reachable_final (M := reliable_machine)); by vm_compute|].
  split_and!; [by vm_compute..|]. vm_compute. intros [|t] p; [|done].
  intros [= <-]. done.
Qed.

(** Workq_add tests [valid] before it locks the mutex: a workq_destroy that completes
    in between makes it lock a destroyed mutex. *)
Theorem workq_add_races_destroy : can_fault (workq_start 2 1) BadSync.
Proof.
  exists [EAdd 0 10 (ok_alloc 0); EDestroy 1; ERun 1 ok; ERun 1 ok; ERun 1 ok; ERun 0 ok].
  by vm_compute.
Qed.

(** For the requests that thread_routine makes (values below 20, powers below 7)
    engine_routine computes the power exactly; nothing overflows an int. *)
Theorem engine_power_exact value power :
  0 ≤ value < 20 → (power < 7)%nat → engine_power value power 1 = value ^ Z.of_nat power.
Proof.
  intros Hv Hp. rewrite engine_power_spec; [lia|lia|lia|]. rewrite Z.mul_1_l.
  apply Z.le_lt_trans with (19 ^ 6); [|done].
  etransitivity; [apply Z.pow_le_mono_l with (b := 19); lia|].
  apply Z.pow_le_mono_r; lia.
Qed.

Lemma engine_power_exact_witness : engine_power 19 6 1 = 19 ^ 6.
Proof. apply (engine_power_exact 19 6); lia. Defined.

(** The total that main prints is the number of engine calls less those whose server
    has not run its destructor yet; workq_destroy does not wait for the destructors,
    so the comment that all engine_t structures are on the list by then is not
    guaranteed. *)
Theorem engine_total n es s count :
  Z.of_nat (length es) < 2 ^ 31 → run (engines_start n) es = Ok s →
  (sum_engines count 0 (en_list s)).2 = cnt is_call es - tsd_calls (en_tsd s).
Proof.
  intros Hb Hr.
  destruct (engines_ok_run es (engines_start n) s 0) as (Hs & Ht & Hl); [|done..|].
  - apply engines_start_ok.
  - assert (cnt is_call es ≤ Z.of_nat (length es)) by apply cnt_le_length.
    assert (0 ≤ tsd_calls (en_tsd s)).
    { clear - Ht. induction Ht; unfold tsd_calls in *; simpl; lia. }
    rewrite sum_engines_spec; [lia|done|lia|lia].
Qed.

Lemma engine_total_witness :
  (sum_engines 0 0 [2]).2 =
    cnt is_call [Call 0; Call 1; Call 0; Exit 0] - tsd_calls [None; Some 1].
Proof.
  apply (engine_total 2 [Call 0; Call 1; Call 0; Exit 0] (Engines [None; Some 1] [2]));
    by vm_compute.
Defined.
