(* ===== verification/Crew.v ===== *)
(** crew.c: a crew of worker threads searches a directory tree for a string.

    [crew_start] queues the root of the tree; a worker that takes a directory
    queues its entries as new work, a worker that takes a regular file searches
    it.  [work_count] counts the items queued or in work; the worker that brings
    it to zero wakes the client and terminates.  The file system and
    [pathconf] are the environment: they are variables of the section [crew].
    A program counter names the next synchronisation call of a thread. *)

From S2P Require Import Prelude Pthread Queue.

Local Open Scope Z_scope.

(** ** String search: [strstr], [fgets] and the loop over a file *)

Fixpoint starts_with (p s : string) : bool :=
  match p, s with
  | EmptyString, _ => true
  | String a p, String b s => bool_decide (a = b) && starts_with p s
  | _, EmptyString => false
  end.

(** [strstr(s, p) != NULL] *)
Fixpoint strstr (s p : string) : bool :=
  starts_with p s || match s with EmptyString => false | String _ s => strstr s p end.

(** [fgets(buffer, n + 1, f)]: at most [n] characters, up to and including the
    first newline; the line and the rest of the file *)
Fixpoint fgets (n : nat) (s : string) : string * string :=
  match n, s with
  | O, _ => (EmptyString, s)
  | _, EmptyString => (EmptyString, EmptyString)
  | S n, String a s =>
      if bool_decide (a = newline) then (String a EmptyString, s)
      else let '(line, rest) := fgets n s in (String a line, rest)
  end.

(** Lines 208-228, with [char buffer[256]]: the fuel is the length of the file,
    each round reads at least one character. *)
Fixpoint search_file (fuel : nat) (content p : string) : bool :=
  match fuel, content with
  | _, EmptyString => false                      (* fgets returns NULL, feof *)
  | O, _ => false
  | S fuel, _ =>
      let '(buffer, rest) := fgets 255 content in
      strstr buffer p || search_file fuel rest p
  end.
Definition grep (content p : string) : bool := search_file (String.length content) content p.

(** ** Data *)

Definition CREW_SIZE : nat := 5.
Definition PATH_BUFFER : nat := 40.   (* malloc(40) for new_work->path *)

Record work_t := Work { wk_next : ptr; wk_path : string; wk_string : string }.

#[export] Instance work_linked : Linked work_t.
Proof.
  refine {| next := wk_next; set_next p w := Work p (wk_path w) (wk_string w) |}.
  by intros p [].
Defined.

(** The file system: what [lstat], [opendir]/[readdir_r] and [fopen]/[fgets] say. *)
Inductive node : Type :=
  | Lnk
  | Dir (entries : option (list string))   (* None: opendir fails *)
  | Reg (content : option string)          (* None: fopen fails *)
  | Special.                               (* FIFO, device, socket *)
Inductive kind : Type := KLnk | KDir | KReg | KSpecial.
Definition kind_of (n : node) : kind :=
  match n with Lnk => KLnk | Dir _ => KDir | Reg _ => KReg | Special => KSpecial end.

(** [pathconf]: a limit, no limit (-1 with errno 0), or an error *)
Inductive limit : Type := Limit (n : Z) | NoLimit | LimitError.

Record crew_t := Crew {
  cr_size : Z;
  cr_count : Z;        (* work_count *)
  cr_first : ptr;
  cr_last : ptr;
  cr_mutex : mutex;
  cr_done : cond;
  cr_go : cond;
  cr_path_max : Z;
  cr_name_max : Z
}.

Section setters.
Variable q : crew_t.
Definition set_count n := Crew (cr_size q) n (cr_first q) (cr_last q) (cr_mutex q) (cr_done q)
  (cr_go q) (cr_path_max q) (cr_name_max q).
Definition set_queue f l := Crew (cr_size q) (cr_count q) f l (cr_mutex q) (cr_done q)
  (cr_go q) (cr_path_max q) (cr_name_max q).
Definition set_mutex m := Crew (cr_size q) (cr_count q) (cr_first q) (cr_last q) m (cr_done q)
  (cr_go q) (cr_path_max q) (cr_name_max q).
Definition set_done d := Crew (cr_size q) (cr_count q) (cr_first q) (cr_last q) (cr_mutex q) d
  (cr_go q) (cr_path_max q) (cr_name_max q).
Definition set_go g := Crew (cr_size q) (cr_count q) (cr_first q) (cr_last q) (cr_mutex q)
  (cr_done q) g (cr_path_max q) (cr_name_max q).
Definition set_limits p n := Crew (cr_size q) (cr_count q) (cr_first q) (cr_last q)
  (cr_mutex q) (cr_done q) (cr_go q) p n.
End setters.

Inductive pc : Type :=
  (* worker_routine *)
  | WStart                                   (* line 70: lock *)
  | WGo                                      (* line 78: wait for the first work *)
  | WGoUnlock                                (* line 82 *)
  | WTop                                     (* line 100: lock *)
  | WWork                                    (* line 108: wait for work *)
  | WTakeUnlock (work : loc)                 (* line 126 *)
  | WProcess (work : loc)                    (* line 130: lstat *)
  | WReaddir (work : loc) (entries : list string)                (* line 148 *)
  | WAdd (item work : loc) (entries : list string)               (* line 173: lock *)
  | WSignal (work : loc) (entries : list string)                 (* line 188 *)
  | WAddUnlock (work : loc) (entries : list string)              (* line 189 *)
  | WFinish                                  (* line 245: lock *)
  | WBroadcast                               (* line 254 *)
  | WUnlockExit                              (* line 258 *)
  | WUnlock                                  (* line 264 *)
  | WExit
  (* crew_start, called by a client *)
  | CIdle
  | CLock (path search : string)             (* line 314 *)
  | CWaitIdle (path search : string)         (* line 320 *)
  | CFail (status : Z)                       (* lines 323, 385: unlock *)
  | CSignal                                  (* line 378 *)
  | CWaitDone                                (* line 390 *)
  | CUnlock.                                 (* line 395 *)

(** The machine, with a log of the requests, the files found and the values
    crew_start returned; [cc_stat] is each worker's variable [filestat], and
    [cc_lost] counts the items whose directory could not be opened. *)
Record cconf := CConf {
  cc_crew : crew_t;
  cc_heap : gmap loc work_t;
  cc_threads : list pc;
  cc_stat : gmap tid kind;
  cc_lost : Z;
  cc_requests : list (string * string);
  cc_found : list (string * string);
  cc_rets : list (tid * Z)
}.

Section updates.
Variable c : cconf.
Definition upd (f : crew_t → crew_t) : cconf := CConf (f (cc_crew c)) (cc_heap c)
  (cc_threads c) (cc_stat c) (cc_lost c) (cc_requests c) (cc_found c) (cc_rets c).
Definition goto (t : tid) (p : pc) : cconf := CConf (cc_crew c) (cc_heap c)
  (<[t := p]> (cc_threads c)) (cc_stat c) (cc_lost c) (cc_requests c) (cc_found c) (cc_rets c).
Definition set_heap (h : gmap loc work_t) : cconf := CConf (cc_crew c) h
  (cc_threads c) (cc_stat c) (cc_lost c) (cc_requests c) (cc_found c) (cc_rets c).
Definition set_stat (t : tid) (k : kind) : cconf := CConf (cc_crew c) (cc_heap c)
  (cc_threads c) (<[t := k]> (cc_stat c)) (cc_lost c) (cc_requests c) (cc_found c) (cc_rets c).
Definition log_lost : cconf := CConf (cc_crew c) (cc_heap c)
  (cc_threads c) (cc_stat c) (cc_lost c + 1) (cc_requests c) (cc_found c) (cc_rets c).
Definition log_request (r : string * string) : cconf := CConf (cc_crew c) (cc_heap c)
  (cc_threads c) (cc_stat c) (cc_lost c) (cc_requests c ++ [r]) (cc_found c) (cc_rets c).
Definition log_found (r : string * string) : cconf := CConf (cc_crew c) (cc_heap c)
  (cc_threads c) (cc_stat c) (cc_lost c) (cc_requests c) (cc_found c ++ [r]) (cc_rets c).
Definition returns (t : tid) (r : Z) : cconf := CConf (cc_crew c) (cc_heap c)
  (<[t := CIdle]> (cc_threads c)) (cc_stat c) (cc_lost c) (cc_requests c) (cc_found c)
  (cc_rets c ++ [(t, r)]).
End updates.

Definition lock (t : tid) (c : cconf) : res cconf :=
  m ← mutex_lock t (cr_mutex (cc_crew c)); Ok (upd c (λ q, set_mutex q m)).
Definition unlock (t : tid) (c : cconf) : res cconf :=
  m ← mutex_unlock t (cr_mutex (cc_crew c)); Ok (upd c (λ q, set_mutex q m)).
(** the first half of a wait on [go] or [done] *)
Definition block_go (t : tid) (p : pc) (c : cconf) : res cconf :=
  c ← unlock t c; Ok (goto (upd c (λ q, set_go q (cond_block t (cr_go q)))) t p).
Definition block_done (t : tid) (p : pc) (c : cconf) : res cconf :=
  c ← unlock t c; Ok (goto (upd c (λ q, set_done q (cond_block t (cr_done q)))) t p).

(** [if (status != 0) err_abort(status, ...)] *)
Definition checked (s : Z) : res unit := require (s =? 0) (Abort s).
(** [if (status != 0) printf(...)]: the call did nothing, the thread goes on *)
Definition lock_or_print (t : tid) (s : Z) (c : cconf) : res cconf :=
  if s =? 0 then lock t c else Ok c.

(** append a node to the crew's queue and count it, lines 176-186 and 366-377 *)
Definition add_work (item : loc) (c : cconf) : res cconf :=
  '(h, first, lst) ← enqueue (cc_heap c) (cr_first (cc_crew c)) (cr_last (cc_crew c)) item;
  Ok (upd (set_heap c h) (λ q, set_count (set_queue q first lst) (cr_count q + 1))).

(** ** worker_routine *)

(** Lines 75-85: wait while there is nothing to do at all. *)
Definition worker_first (t : tid) (c : cconf) : res cconf :=
  if cr_count (cc_crew c) =? 0 then block_go t WGo c else Ok (goto c t WGoUnlock).

(** Lines 104-120: wait for work and take the first item. *)
Definition worker_take (t : tid) (c : cconf) : res cconf :=
  let q := cc_crew c in
  match cr_first q with
  | None => block_go t WWork c
  | Some work =>
      '(first, lst) ← dequeue (cc_heap c) (cr_first q) (cr_last q);
      Ok (goto (upd c (λ q, set_queue q first lst)) t (WTakeUnlock work))
  end.

(** Lines 245-266: the item is done. *)
Definition worker_finish (t : tid) (c : cconf) : res cconf :=
  let c := upd c (λ q, set_count q (cr_count q - 1)) in
  if cr_count (cc_crew c) <=? 0 then Ok (goto c t WBroadcast) else Ok (goto c t WUnlock).

Section crew.
Variable fs : string → option node.
Variable pathconf_path pathconf_name : string → limit.

(** Lines 130-232: what the worker does with the item's path. *)
Definition worker_process (t : tid) (work : loc) (c : cconf) : res cconf :=
  w ← load (cc_heap c) (Some work);
  let c := match fs (wk_path w) with Some n => set_stat c t (kind_of n) | None => c end in
  k ← of_option Uninitialised (cc_stat c !! t);
  match k with
  | KLnk => Ok (goto c t WFinish)
  | KDir =>
      match fs (wk_path w) with
      | Some (Dir (Some entries)) => Ok (goto c t (WReaddir work entries))
      | _ => Ok (goto (log_lost c) t WTop)        (* opendir fails: continue *)
      end
  | KReg =>
      match fs (wk_path w) with
      | Some (Reg (Some content)) =>
          let c := if grep content (wk_string w)
                   then log_found c (wk_path w, wk_string w) else c in
          Ok (goto c t WFinish)
      | _ => Ok (goto c t WFinish)                (* fopen fails *)
      end
  | KSpecial => Ok (goto c t WFinish)
  end.

(** Lines 146-172: the next entry of the directory.  [o_status] is what readdir_r
    returns, an error ends the loop; [o_alloc] is the address of the new item, None
    when one of its two mallocs fails: either way NULL is written through. *)
Definition worker_readdir (t : tid) (work : loc) (entries : list string) (o : oracle)
    (c : cconf) : res cconf :=
  if negb (o_status o =? 0) then Ok (goto c t WFinish)
  else match entries with
  | [] => Ok (goto c t WFinish)
  | name :: entries =>
      if bool_decide (name = "."%string) || bool_decide (name = ".."%string)
      then Ok (goto c t (WReaddir work entries))
      else match o_alloc o with
      | None => Fault NullDeref                   (* new_work->path = ... *)
      | Some item =>
          w ← load (cc_heap c) (Some work);
          let path := (wk_path w +:+ "/" +:+ name)%string in
          _ ← require (String.length path <? PATH_BUFFER)%nat OutOfBounds;
          h ← malloc (cc_heap c) (Work None path (wk_string w)) item;
          Ok (goto (set_heap c h) t (WAdd item work entries))
      end
  end.

Definition worker_step (t : tid) (p : pc) (o : oracle) (c : cconf) : res cconf :=
  match p with
  | WStart => c ← lock_or_print t (o_status o) c; worker_first t c
  | WGo =>
      _ ← await (awake t (cr_go (cc_crew c))); c ← lock t c; worker_first t c
  | WGoUnlock => c ← unlock t c; Ok (goto c t WTop)
  | WTop => c ← lock_or_print t (o_status o) c; worker_take t c
  | WWork =>
      _ ← await (awake t (cr_go (cc_crew c))); c ← lock t c; worker_take t c
  | WTakeUnlock work => _ ← checked (o_status o); c ← unlock t c; Ok (goto c t (WProcess work))
  | WProcess work => worker_process t work c
  | WReaddir work entries => worker_readdir t work entries o c
  | WAdd item work entries =>
      _ ← checked (o_status o); c ← lock t c; c ← add_work item c;
      Ok (goto c t (WSignal work entries))
  | WSignal work entries =>
      if o_status o =? 0 then
        go ← cond_signal (o_wake o) (cr_go (cc_crew c));
        Ok (goto (upd c (λ q, set_go q go)) t (WAddUnlock work entries))
      else Ok (goto c t (WAddUnlock work entries))
  | WAddUnlock work entries =>
      _ ← checked (o_status o); c ← unlock t c; Ok (goto c t (WReaddir work entries))
  | WFinish => _ ← checked (o_status o); c ← lock t c; worker_finish t c
  | WBroadcast =>
      _ ← checked (o_status o);
      Ok (goto (upd c (λ q, set_done q (cond_broadcast (cr_done q)))) t WUnlockExit)
  | WUnlockExit => _ ← checked (o_status o); c ← unlock t c; Ok (goto c t WExit)
  | WUnlock => _ ← checked (o_status o); c ← unlock t c; Ok (goto c t WTop)
  | _ => Blocked
  end.

(** ** crew_start *)

(** Lines 328-347: a path limit, plus one for the null byte *)
Definition limit_of (l : limit) (unlimited : Z) : res Z :=
  match l with
  | Limit n => Ok (n + 1)
  | NoLimit => Ok (unlimited + 1)
  | LimitError => Fault (Abort 1)
  end.

(** Lines 318-377: wait until the crew is idle, then queue the request. *)
Definition crew_start_idle (t : tid) (path search : string) (o : oracle) (c : cconf)
    : res cconf :=
  if 0 <? cr_count (cc_crew c) then block_done t (CWaitIdle path search) c
  else
    path_max ← limit_of (pathconf_path path) 1024;
    name_max ← limit_of (pathconf_name path) 256;
    let c := upd c (λ q, set_limits q path_max name_max) in
    match o_alloc o with
    | None => Fault (Abort 1)
    | Some request =>
        _ ← require (o_alloc2 o) NullDeref;        (* request->string, strcpy *)
        _ ← require (Z.of_nat (String.length search) <? name_max) OutOfBounds;
        h ← malloc (cc_heap c) (Work None path search) request;
        c ← add_work request (set_heap c h);
        Ok (goto (log_request c (path, search)) t CSignal)
    end.

(** Lines 388-395: [while (crew->work_count > 0)] *)
Definition crew_start_wait (t : tid) (c : cconf) : res cconf :=
  if 0 <? cr_count (cc_crew c) then block_done t CWaitDone c else Ok (goto c t CUnlock).

Definition crew_start_step (t : tid) (p : pc) (o : oracle) (c : cconf) : res cconf :=
  match p with
  | CLock path search =>
      if negb (o_status o =? 0) then Ok (returns c t (o_status o))
      else c ← lock t c; crew_start_idle t path search o c
  | CWaitIdle path search =>
      if negb (o_status o =? 0) then
        c ← lock t c;
        Ok (goto (upd c (λ q, set_done q (cond_leave t (cr_done q)))) t (CFail (o_status o)))
      else
        _ ← await (awake t (cr_done (cc_crew c)));
        c ← lock t c; crew_start_idle t path search o c
  | CFail s => c ← unlock t c; Ok (returns c t s)
  | CSignal =>
      if negb (o_status o =? 0) then
        h ← free (cc_heap c) (cr_first (cc_crew c));
        Ok (goto (upd (set_heap c h)
              (λ q, set_count (set_queue q None (cr_last q)) 0)) t (CFail (o_status o)))
      else
        go ← cond_signal (o_wake o) (cr_go (cc_crew c));
        crew_start_wait t (upd c (λ q, set_go q go))
  | CWaitDone =>
      _ ← checked (o_status o);
      _ ← await (awake t (cr_done (cc_crew c)));
      c ← lock t c; crew_start_wait t c
  | CUnlock => _ ← checked (o_status o); c ← unlock t c; Ok (returns c t 0)
  | _ => Blocked
  end.

(** ** The machine *)

Inductive cevent : Type :=
  | EStart (t : tid) (path search : string)   (* thread t calls crew_start *)
  | ERun (t : tid) (o : oracle)               (* thread t takes its next step *)
  | ESpurious (t : tid).                      (* thread t wakes up without a signal *)

Definition cstep (c : cconf) (e : cevent) : res cconf :=
  match e with
  | EStart t path search =>
      match cc_threads c !! t with Some CIdle => Ok (goto c t (CLock path search)) | _ => Blocked end
  | ERun t o =>
      match cc_threads c !! t with
      | Some p =>
          match p with
          | CIdle | WExit => Blocked
          | CLock _ _ | CWaitIdle _ _ | CFail _ | CSignal | CWaitDone | CUnlock =>
              crew_start_step t p o c
          | _ => worker_step t p o c
          end
      | None => Blocked
      end
  | ESpurious t =>
      Ok (upd c (λ q, set_done (set_go q (cond_leave t (cr_go q))) (cond_leave t (cr_done q))))
  end.

#[local] Instance crew_machine : Machine cconf cevent := cstep.
End crew.

(** ** crew_create

    [s1] to [s3] are what the initialisations return; the loop creates
    [CREW_SIZE] workers whatever [crew_size] is. *)
Definition crew_create (crew_size s1 s2 s3 : Z) (clients : nat) : Z * option cconf :=
  if Z.of_nat CREW_SIZE <? crew_size then (EINVAL, None)
  else if negb (s1 =? 0) then (s1, None)
  else if negb (s2 =? 0) then (s2, None)
  else if negb (s3 =? 0) then (s3, None)
  else (0, Some (CConf (Crew crew_size 0 None None None [] [] 0 0) ∅
         (replicate CREW_SIZE WStart ++ replicate clients CIdle) ∅ 0 [] [] [])).

(** a crew that crew_create has set up, and [clients] threads that may call
    crew_start *)
Definition crew_conf (clients : nat) : cconf :=
  CConf (Crew (Z.of_nat CREW_SIZE) 0 None None None [] [] 0 0) ∅
    (replicate CREW_SIZE WStart ++ replicate clients CIdle) ∅ 0 [] [] [].

(** ** Helper predicates on program counters *)

Definition holding (p : pc) : bool :=
  match p with
  | WGoUnlock | WTakeUnlock _ | WSignal _ _ | WAddUnlock _ _ | WBroadcast | WUnlockExit
  | WUnlock | CFail _ | CSignal | CUnlock => true
  | _ => false
  end.
(** between taking an item and counting it as done *)
Definition processing (p : pc) : bool :=
  match p with
  | WTakeUnlock _ | WProcess _ | WReaddir _ _ | WAdd _ _ _ | WSignal _ _ | WAddUnlock _ _
  | WFinish => true
  | _ => false
  end.
(** a worker that has left, or is about to leave, its loop *)
Definition exited (p : pc) : bool :=
  match p with WBroadcast | WUnlockExit | WExit => true | _ => false end.
(** an item allocated but not queued yet *)
Definition adding (p : pc) : option loc := match p with WAdd i _ _ => Some i | _ => None end.
(** the items a thread points to *)
Definition refs (p : pc) : list loc :=
  match p with
  | WTakeUnlock w | WProcess w | WReaddir w _ | WSignal w _ | WAddUnlock w _ => [w]
  | WAdd i w _ => [i; w]
  | _ => []
  end.

(** calls do not fail *)
Definition reliable (c : cconf) (e : cevent) : bool :=
  match e with ERun _ o => o_status o =? 0 | _ => true end.

(** ** What a search finds

    [expected path s] lists what searching the tree at [path] for [s] finds.  Its
    recursion follows the directory entries; [rank] bounds the depth of the tree. *)
Section specification.
Variable fs : string → option node.

Definition dotted (name : string) : bool :=
  bool_decide (name = "."%string) || bool_decide (name = ".."%string).
Definition child (path name : string) : string := (path +:+ "/" +:+ name)%string.

Fixpoint search_tree (fuel : nat) (path s : string) : list (string * string) :=
  match fuel with
  | O => []
  | S fuel =>
      match fs path with
      | Some (Reg (Some content)) => if grep content s then [(path, s)] else []
      | Some (Dir (Some entries)) =>
          concat (map (λ name, if dotted name then []
                               else search_tree fuel (child path name) s) entries)
      | _ => []
      end
  end.

(** the tree below every directory is finite *)
Definition ranked (rank : string → nat) : Prop :=
  ∀ path entries name, fs path = Some (Dir (Some entries)) → name ∈ entries →
    dotted name = false → (rank (child path name) < rank path)%nat.

Variable rank : string → nat.
Hypothesis Hrank : ranked rank.

Definition expected (path s : string) : list (string * string) :=
  search_tree (S (rank path)) path s.

Lemma search_tree_fuel fuel path s :
  (rank path < fuel)%nat → search_tree fuel path s = expected path s.
Proof.
  unfold expected. remember (S (rank path)) as m eqn:Hm.
  assert (rank path < m)%nat as Hlt by lia. clear Hm. revert m path Hlt.
  induction fuel as [|fuel IH]; intros m path Hm Hf; [lia|].
  destruct m as [|m]; [lia|]. simpl.
  destruct (fs path) as [[|[entries|]| |]|] eqn:Hp; try done.
  apply concat_map_ext. intros name Hn. destruct (dotted name) eqn:Hd; [done|].
  specialize (Hrank _ _ _ Hp Hn Hd). apply IH; lia.
Qed.

Lemma expected_dir path entries s :
  fs path = Some (Dir (Some entries)) →
  expected path s =
    concat (map (λ name, if dotted name then [] else expected (child path name) s) entries).
Proof.
  intros Hp. unfold expected at 1. simpl. rewrite Hp. apply concat_map_ext.
  intros name Hn. destruct (dotted name) eqn:Hd; [done|].
  apply search_tree_fuel. eauto.
Qed.
Lemma expected_file path content s :
  fs path = Some (Reg (Some content)) →
  expected path s = if grep content s then [(path, s)] else [].
Proof. intros Hp. unfold expected. simpl. by rewrite Hp. Qed.
Lemma expected_other path s :
  match fs path with Some (Reg (Some _)) | Some (Dir (Some _)) => False | _ => True end →
  expected path s = [].
Proof. unfold expected. simpl. by destruct (fs path) as [[|[]|[]|]|]. Qed.

End specification.

(** ** What is still to be found *)
Section to_be_found.
Variable fs : string → option node.
Variable rank : string → nat.
Abbreviation expected := (expected fs rank).

Definition of_item (h : gmap loc work_t) (l : loc) : list (string * string) :=
  match h !! l with Some w => expected (wk_path w) (wk_string w) | None => [] end.
Definition of_entries (h : gmap loc work_t) (l : loc) (entries : list string)
    : list (string * string) :=
  match h !! l with
  | Some w => concat (map (λ name, if dotted name then []
                                   else expected (child (wk_path w) name) (wk_string w)) entries)
  | None => []
  end.
Definition pending (h : gmap loc work_t) (p : pc) : list (string * string) :=
  match p with
  | WTakeUnlock w | WProcess w => of_item h w
  | WReaddir w es | WSignal w es | WAddUnlock w es => of_entries h w es
  | WAdd i w es => of_item h i ++ of_entries h w es
  | _ => []
  end.

Definition all_pending (h : gmap loc work_t) (ths : list pc) : list (string * string) :=
  concat (map (pending h) ths).
Definition all_items (h : gmap loc work_t) (ls : list loc) : list (string * string) :=
  concat (map (of_item h) ls).
Definition all_expected (rs : list (string * string)) : list (string * string) :=
  concat (map (λ '(path, s), expected path s) rs).

(** path and string of a node never change *)
Definition extends (h h' : gmap loc work_t) : Prop :=
  ∀ l w, h !! l = Some w →
    ∃ w', h' !! l = Some w' ∧ wk_path w' = wk_path w ∧ wk_string w' = wk_string w.

Lemma extends_refl h : extends h h.
Proof. intros l w ?. by exists w. Qed.
Lemma extends_alloc h l w : h !! l = None → extends h (<[l:=w]> h).
Proof.
  intros Hl k v Hk. exists v. rewrite lookup_insert_ne; [done|congruence].
Qed.
Lemma extends_trans h1 h2 h3 : extends h1 h2 → extends h2 h3 → extends h1 h3.
Proof.
  intros H12 H23 l w Hl. destruct (H12 l w Hl) as (w2 & H2 & Hp & Hs).
  destruct (H23 l w2 H2) as (w3 & H3 & ? & ?). exists w3. split_and!; congruence.
Qed.

Lemma pending_extends h h' p :
  extends h h' → (∀ l, l ∈ refs p → is_Some (h !! l)) → pending h' p = pending h p.
Proof.
  intros He Hr.
  assert (∀ l, l ∈ refs p → of_item h' l = of_item h l) as Hi.
  { intros l [w Hl]%Hr. destruct (He l w Hl) as (w' & Hl' & Hp & Hs).
    unfold of_item. by rewrite Hl, Hl', Hp, Hs. }
  assert (∀ l es, l ∈ refs p → of_entries h' l es = of_entries h l es) as Hes.
  { intros l es [w Hl]%Hr. destruct (He l w Hl) as (w' & Hl' & Hp & Hs).
    unfold of_entries. by rewrite Hl, Hl', Hp, Hs. }
  destruct p; simpl in *; rewrite ?Hi, ?Hes; try done; set_solver.
Qed.
Lemma all_items_extends h h' ls :
  extends h h' → (∀ l, l ∈ ls → is_Some (h !! l)) → all_items h' ls = all_items h ls.
Proof.
  intros He Hr. apply concat_map_ext. intros l [w Hl]%Hr.
  destruct (He l w Hl) as (w' & Hl' & Hp & Hs). unfold of_item. by rewrite Hl, Hl', Hp, Hs.
Qed.

Definition allocated (h : gmap loc work_t) (ths : list pc) : Prop :=
  ∀ t p l, ths !! t = Some p → l ∈ refs p → is_Some (h !! l).

Lemma all_pending_extends h h' ths :
  extends h h' → allocated h ths → all_pending h' ths = all_pending h ths.
Proof.
  intros He Ha. apply concat_map_ext. intros p [t Ht]%list_elem_of_lookup.
  apply pending_extends; [done|]. intros l. by apply (Ha t).
Qed.
Lemma all_pending_insert h ths t p p' :
  ths !! t = Some p →
  pending h p ++ all_pending h (<[t:=p']> ths) ≡ₚ pending h p' ++ all_pending h ths.
Proof.
  unfold all_pending. revert t; induction ths as [|q ths IH]; intros [|t]; simpl; try done.
  - intros [= ->]. rewrite !app_assoc. by rewrite (Permutation_app_comm (pending h p)).
  - intros Ht. rewrite !(Permutation_app_comm (pending h q)), !app_assoc.
    by rewrite (IH _ Ht).
Qed.
End to_be_found.

(** ** The invariant of the queue and of the search *)

Section invariant.
Variable fs : string → option node.
Variable rank : string → nat.
Abbreviation pending := (pending fs rank).
Abbreviation all_pending := (all_pending fs rank).

(** [ls] are the queued items; what has been found and what is still to be found
    in queued items and by the threads is what the requests ask for. *)
Record items_ok (h : gmap loc work_t) (first lst : ptr) (ths : list pc) (rs found : list (string * string))
    (ls : list loc) : Prop := {
  it_queue : queue_rep h first lst ls;
  it_alloc : allocated h ths;
  it_fresh : ∀ t i w es, ths !! t = Some (WAdd i w es) →
    ∃ path s, h !! i = Some (Work None path s);
  it_nodup : NoDup (ls ++ omap adding ths);
  it_found : found ++ all_pending h ths ++ all_items fs rank h ls ≡ₚ all_expected fs rank rs;
}.

Lemma allocated_insert (h : gmap loc work_t) (ths : list pc) t p :
  allocated h ths → (∀ l, l ∈ refs p → is_Some (h !! l)) → allocated h (<[t:=p]> ths).
Proof.
  intros Ha Hp u q l [(<- & <- & _)|(_ & Hq)]%list_lookup_insert_Some; [auto|eauto].
Qed.
Lemma allocated_extends (h h' : gmap loc work_t) ths : extends h h' → allocated h ths → allocated h' ths.
Proof.
  intros He Ha t p l Ht Hl. destruct (Ha t p l Ht Hl) as [w Hw].
  destruct (He l w Hw) as (w' & ? & _). by eexists.
Qed.
Lemma queue_alloc (h : gmap loc work_t) first lst ls (l : loc) :
  queue_rep h first lst ls → l ∈ ls → is_Some (h !! l).
Proof. intros [Hc _ _]. by eapply chain_lookup. Qed.

Section steps.
Context (h : gmap loc work_t) (first lst : ptr) (ths : list pc).
Context (rs found : list (string * string)) (ls : list loc) (t : tid) (p : pc).
Hypothesis Ht : ths !! t = Some p.
Hypothesis HI : items_ok h first lst ths rs found ls.

Lemma adding_insert p' :
  adding p' = None ∨ adding p' = adding p →
  (∀ i, i ∈ omap adding (<[t:=p']> ths) → i ∈ omap adding ths) ∧
  NoDup (ls ++ omap adding (<[t:=p']> ths)).
Proof.
  pose proof (omap_insert_perm adding ths t p p' Ht) as Hperm.
  pose proof (it_nodup _ _ _ _ _ _ _ HI) as Hn.
  intros [Hp'|Hp'].
  - rewrite Hp' in Hperm. simpl in Hperm. split; [intros i; rewrite Hperm; set_solver|].
    rewrite Hperm in Hn.
    apply list.NoDup_app in Hn as (? & Hd & [_ [_ ?]]%list.NoDup_app).
    apply list.NoDup_app. split_and!; [done|set_solver|done].
  - by rewrite (omap_insert_same adding ths t p p').
Qed.

(** the thread moves on; what it leaves pending it has found *)
Lemma items_goto p' found' :
  adding p' = None ∨ adding p' = adding p →
  (∀ i w es, p' ≠ WAdd i w es) →
  (∀ l, l ∈ refs p' → l ∈ refs p ∨ is_Some (h !! l)) →
  found' ++ pending h p' ≡ₚ found ++ pending h p →
  items_ok h first lst (<[t:=p']> ths) rs found' ls.
Proof.
  intros Hadd Hno Hrefs Hf. destruct HI as [Hq Ha Hfr Hn Hfo].
  destruct (adding_insert p' Hadd) as [Hsub Hnd].
  split; [done| | |done|].
  - apply allocated_insert; [done|]. intros l [Hl|Hl]%Hrefs; [by eapply Ha|done].
  - intros u i w es [(_ & Hu & _)|(_ & Hu)]%list_lookup_insert_Some; [by destruct (Hno i w es)|eauto].
  - rewrite <- Hfo. rewrite !app_assoc. f_equiv.
    pose proof (all_pending_insert fs rank h ths t p p' Ht) as Hp.
    rewrite (Permutation_app_comm found), (Permutation_app_comm found').
    apply (Permutation_app_inv_l (pending h p)). rewrite !app_assoc, Hp.
    rewrite (Permutation_app_comm (pending h p')), <- app_assoc.
    rewrite (Permutation_app_comm (pending h p')), Hf.
    rewrite (Permutation_app_comm (pending h p) (all_pending h ths)), <- app_assoc.
    by rewrite (Permutation_app_comm found).
Qed.

(** worker_readdir allocates an item for the next entry *)
Lemma items_alloc i w es name v :
  p = WReaddir w (name :: es) → dotted name = false → h !! w = Some v → h !! i = None →
  items_ok (<[i := Work None (child (wk_path v) name) (wk_string v)]> h) first lst
    (<[t := WAdd i w es]> ths) rs found ls.
Proof.
  intros -> Hd Hw Hi. destruct HI as [Hq Ha Hfr Hn Hfo].
  set (h' := <[i := _]> h).
  assert (extends h h') as He by (by apply extends_alloc).
  assert (i ∉ ls) as Hils.
  { intros Hin. destruct (queue_alloc _ _ _ _ _ Hq Hin). congruence. }
  assert (i ∉ omap adding ths) as Hiadd.
  { intros (q & Hq' & Hqi)%list_elem_of_omap. apply list_elem_of_lookup in Hq' as [u Hu].
    destruct q; try discriminate. injection Hqi as ->.
    destruct (Hfr _ _ _ _ Hu) as (? & ? & ?). congruence. }
  split.
  - by apply queue_rep_alloc.
  - apply allocated_insert; [by eapply allocated_extends|].
    intros l [->| ->%list_elem_of_singleton]%elem_of_cons.
    + unfold h'. rewrite lookup_insert_eq. by eexists.
    + destruct (He w v Hw) as (? & ? & _). by eexists.
  - intros u k w' es' [(_ & [= -> -> ->] & _)|(_ & Hu)]%list_lookup_insert_Some.
    + do 2 eexists. apply lookup_insert_eq.
    + destruct (Hfr _ _ _ _ Hu) as (path & s & Hk). exists path, s.
      unfold h'. rewrite lookup_insert_ne; [done|congruence].
  - pose proof (omap_insert_perm adding ths t _ (WAdd i w es) Ht) as Hperm. simpl in Hperm.
    rewrite <- Hperm, <- Permutation_middle. apply NoDup_cons. split; [set_solver|done].
  - rewrite (all_items_extends fs rank h h') by (try done; intros k Hk; by eapply queue_alloc).
    rewrite <- Hfo, !app_assoc. f_equiv. f_equiv.
    rewrite <- (all_pending_extends fs rank h h' ths He Ha).
    pose proof (all_pending_insert fs rank h' ths t _ (WAdd i w es) Ht) as Hp.
    simpl in Hp. apply (Permutation_app_inv_l (of_entries fs rank h' w (name :: es))).
    rewrite Hp. f_equiv. unfold of_entries, of_item.
    destruct (He w v Hw) as (v' & Hv' & Hpv & Hsv). rewrite Hv'. unfold h' at 1.
    rewrite lookup_insert_eq. simpl. rewrite Hd, Hpv, Hsv. done.
Qed.

(** a worker queues the item it has allocated *)
Lemma items_add i w es h' first' lst' :
  p = WAdd i w es → enqueue h first lst i = Ok (h', first', lst') →
  items_ok h' first' lst' (<[t := WSignal w es]> ths) rs found (ls ++ [i]).
Proof.
  intros -> Henq. pose proof HI as [Hq Ha Hfr Hn Hfo].
  destruct (Hfr _ _ _ _ Ht) as (path & s & Hi).
  pose proof (omap_insert_perm adding ths t _ (WSignal w es) Ht) as Hperm. simpl in Hperm.
  rewrite Hperm in Hn.
  apply list.NoDup_app in Hn as Hn'. destruct Hn' as (Hnls & Hdis & [Hiadd Hnadd]%NoDup_cons).
  assert (i ∉ ls) as Hils by (intros Hin; apply (Hdis _ Hin); by left).
  destruct (enqueue_spec h first lst ls i _ Hq Hils Hi eq_refl)
    as (h2 & Hq2 & Hrep & Hother & Hkeep).
  rewrite Henq in Hq2. injection Hq2 as -> -> ->.
  assert (extends h h2) as He.
  { intros l v Hl. destruct (Hkeep l v Hl) as (q & [->| ->]); eauto. }
  assert (∀ l, l ∈ ls ++ [i] → is_Some (h2 !! l)) as Hall.
  { intros l Hl. by eapply queue_alloc. }
  split; [done| | | |].
  - apply allocated_insert; [by eapply allocated_extends|].
    intros l ->%list_elem_of_singleton.
    destruct (Ha t _ w Ht) as [v Hv]; [simpl; set_solver|].
    destruct (He w v Hv) as (? & ? & _). by eexists.
  - intros u k w' es' [(_ & Hu & _)|(Hne & Hu)]%list_lookup_insert_Some; [done|].
    destruct (Hfr _ _ _ _ Hu) as (path' & s' & Hk). exists path', s'.
    rewrite Hother; [done|]. intros Hin. apply (Hdis _ Hin).
    rewrite elem_of_cons. right. apply list_elem_of_omap.
    exists (WAdd k w' es'). split; [|done].
    apply list_elem_of_lookup. exists u. by rewrite list_lookup_insert_ne.
  - rewrite <- app_assoc. done.
  - unfold all_items. rewrite map_app, concat_app. simpl. rewrite app_nil_r.
    change (concat (map (of_item fs rank h2) ls)) with (all_items fs rank h2 ls).
    rewrite (all_items_extends fs rank h h2) by (try done; intros k Hk; by eapply queue_alloc).
    rewrite <- Hfo. f_equiv.
    pose proof (all_pending_insert fs rank h2 ths t _ (WSignal w es) Ht) as Hp. simpl in Hp.
    rewrite <- (all_pending_extends fs rank h h2 ths He Ha).
    assert (of_item fs rank h2 i ++ all_pending h2 (<[t:=WSignal w es]> ths)
            ≡ₚ all_pending h2 ths) as Hp2.
    { apply (Permutation_app_inv_l (of_entries fs rank h2 w es)).
      rewrite <- Hp, !app_assoc. f_equiv. apply Permutation_app_comm. }
    rewrite <- Hp2, (Permutation_app_comm (of_item fs rank h2 i)), <- app_assoc.
    f_equiv. apply Permutation_app_comm.
Qed.

(** crew_start queues a request *)
Lemma items_request i path s h' first' lst' p' :
  refs p = [] → refs p' = [] → adding p' = None → pending h p = [] → (∀ k, pending k p' = []) →
  h !! i = None →
  enqueue (<[i := Work None path s]> h) first lst i = Ok (h', first', lst') →
  items_ok h' first' lst' (<[t := p']> ths) (rs ++ [(path, s)]) found (ls ++ [i]).
Proof.
  intros Hr Hr' Hadd Hpe Hpe' Hi Henq. pose proof HI as [Hq Ha Hfr Hn Hfo].
  set (h1 := <[i := _]> h) in *.
  assert (i ∉ ls) as Hils.
  { intros Hin. destruct (queue_alloc _ _ _ _ _ Hq Hin). congruence. }
  assert (extends h h1) as He1 by (by apply extends_alloc).
  assert (queue_rep h1 first lst ls) as Hq1 by (by apply queue_rep_alloc).
  destruct (enqueue_spec h1 first lst ls i (Work None path s) Hq1 Hils)
    as (h2 & Hq2 & Hrep & Hother & Hkeep); [apply lookup_insert_eq|done|].
  rewrite Henq in Hq2. injection Hq2 as -> -> ->.
  assert (extends h h2) as He.
  { apply extends_trans with h1; [done|].
    intros l v Hl. destruct (Hkeep l v Hl) as (q & [->| ->]); eauto. }
  destruct (adding_insert p' (or_introl Hadd)) as [Hsub Hnd].
  assert (∀ k, k ∈ omap adding ths → is_Some (h !! k)) as Haddh.
  { intros k (q & Hq' & Hqi)%list_elem_of_omap. apply list_elem_of_lookup in Hq' as [u Hu].
    destruct q; try discriminate. injection Hqi as ->.
    destruct (Hfr _ _ _ _ Hu) as (? & ? & ->). by eexists. }
  split; [done| | | |].
  - apply allocated_insert; [by eapply allocated_extends|]. rewrite Hr'. set_solver.
  - intros u k w' es' [(_ & -> & _)|(Hne & Hu)]%list_lookup_insert_Some; [done|].
    destruct (Hfr _ _ _ _ Hu) as (path' & s' & Hk). exists path', s'.
    rewrite Hother; [unfold h1; rewrite lookup_insert_ne; [done|congruence]|].
    intros Hin. apply list.NoDup_app in Hn as (_ & Hd & _). apply (Hd _ Hin).
    apply list_elem_of_omap. exists (WAdd k w' es'). split; [|done].
    by eapply list_elem_of_lookup_2.
  - rewrite <- app_assoc. simpl. rewrite <- Permutation_middle. apply NoDup_cons.
    split; [|done]. rewrite elem_of_app. intros [?|Hin%Hsub%Haddh]; [done|].
    destruct Hin. congruence.
  - unfold all_items, all_expected. rewrite !map_app, !concat_app. simpl. rewrite !app_nil_r.
    change (concat (map (of_item fs rank h2) ls)) with (all_items fs rank h2 ls).
    rewrite (all_items_extends fs rank h h2) by (try done; intros k Hk; by eapply queue_alloc).
    rewrite !app_assoc. f_equiv.
    + fold (all_expected fs rank rs). rewrite <- Hfo, <- app_assoc. f_equiv. f_equiv.
      pose proof (all_pending_insert fs rank h2 ths t _ p' Ht) as Hp.
      rewrite Hpe', (all_pending_extends fs rank h h2 ths He Ha) in Hp.
      rewrite (pending_extends fs rank h h2 p He) in Hp; [by rewrite Hpe in Hp|].
      rewrite Hr. set_solver.
    + destruct (Hkeep i (Work None path s)) as (q & [Hk|Hk]); [apply lookup_insert_eq|..];
        unfold of_item; by rewrite Hk.
Qed.

(** a worker takes the first item *)
Lemma items_take l first' lst' :
  first = Some l → refs p = [] → adding p = None → pending h p = [] →
  dequeue h first lst = Ok (first', lst') →
  ∃ ls', ls = l :: ls' ∧
    items_ok h first' lst' (<[t := WTakeUnlock l]> ths) rs found ls'.
Proof.
  intros Hfirst Hr Hadd Hpe Hdeq.
  destruct (adding_insert (WTakeUnlock l) (or_introl eq_refl)) as [_ Hnd].
  subst first.
  pose proof HI as [Hq Ha Hfr Hn Hfo].
  destruct ls as [|l' ls']; [by destruct Hq|].
  destruct (dequeue_spec _ _ _ _ _ Hq) as ([= <-] & f' & k' & Hd & Hrep).
  rewrite Hdeq in Hd. injection Hd as <- <-. exists ls'. split; [done|].
  assert (is_Some (h !! l)) as Hl by (eapply queue_alloc; [exact Hq|by left]).
  split; [done| | | |].
  - apply allocated_insert; [done|]. by intros k ->%list_elem_of_singleton.
  - intros u k w' es' [(_ & Hu & _)|(Hne & Hu)]%list_lookup_insert_Some; [done|eauto].
  - simpl in Hnd. by apply NoDup_cons in Hnd as [_ ?].
  - rewrite <- Hfo. f_equiv.
    pose proof (all_pending_insert fs rank h ths t p (WTakeUnlock l) Ht) as Hp.
    rewrite Hpe in Hp. simpl in Hp. rewrite Hp. unfold all_items. simpl.
    rewrite !app_assoc. f_equiv. apply Permutation_app_comm.
Qed.
End steps.

Record crew_ok (c : cconf) : Prop := {
  ck_mutex : mutex_ok holding (cr_mutex (cc_crew c)) (cc_threads c);
  ck_items : ∃ ls,
    items_ok (cc_heap c) (cr_first (cc_crew c)) (cr_last (cc_crew c)) (cc_threads c)
      (cc_requests c) (cc_found c) ls ∧
    cr_count (cc_crew c) = Z.of_nat (length ls) + cnt processing (cc_threads c) + cc_lost c;
  ck_lost : 0 ≤ cc_lost c;
  ck_exits : cnt exited (cc_threads c) + Z.b2z (0 <? cr_count (cc_crew c)) =
    Z.of_nat (length (cc_requests c));
}.

Lemma start_threads n t p :
  cc_threads (crew_conf n) !! t = Some p → p = WStart ∨ p = CIdle.
Proof.
  intros Ht%list_elem_of_lookup_2. unfold crew_conf, cc_threads in Ht.
  apply elem_of_app in Ht as [[-> _]%elem_of_replicate|[-> _]%elem_of_replicate]; auto.
Qed.

Lemma start_cnt P n :
  P WStart = false → P CIdle = false → cnt P (cc_threads (crew_conf n)) = 0.
Proof.
  intros H1 H2. apply cnt_zero. intros i x [-> | ->]%start_threads; done.
Qed.

Lemma crew_start_ok n : crew_ok (crew_conf n).
Proof.
  split.
  - intros t p [-> | ->]%start_threads; done.
  - exists []. split; [split|].
    + apply queue_rep_nil.
    + intros t p l [-> | ->]%start_threads; simpl; set_solver.
    + intros t i w es [? | ?]%start_threads; done.
    + replace (omap adding (cc_threads (crew_conf n))) with (@nil loc); [by apply NoDup_nil_2|].
      simpl. induction n; done.
    + unfold all_pending. simpl. induction n; done.
    + rewrite start_cnt; done.
  - done.
  - rewrite start_cnt; done.
Qed.

Variable pathconf_path pathconf_name : string → limit.
Abbreviation cstep := (cstep fs pathconf_path pathconf_name).
End invariant.

Ltac cstep_cases :=
  unfold cstep, worker_step, crew_start_step, worker_process, worker_readdir, worker_first,
    worker_take, worker_finish, crew_start_idle, crew_start_wait, add_work, limit_of,
    lock_or_print, checked, block_go, block_done, lock, unlock in *;
  step_cases; sync_inv; subst; simpl in *;
  repeat match goal with
  | |- context [match ?x with _ => _ end] => destruct x eqn:?; simpl in *
  end.

Ltac use_reliable Hr :=
  cbn [reliable] in Hr;
  repeat match goal with
  | H : (_ =? _) = false |- _ => rewrite H in Hr
  end; simpl in Hr; try discriminate Hr.

Ltac ltb_cases :=
  repeat match goal with
  | |- context [?x <? ?y] => destruct (Z.ltb_spec x y)
  | H : context [?x <? ?y] |- _ => destruct (Z.ltb_spec x y)
  | H : context [?x <=? ?y] |- _ => destruct (Z.leb_spec x y)
  end.

Section stability.
Variable fs : string → option node.
Variable rank : string → nat.
Hypothesis Hrank : ranked fs rank.
Variable pathconf_path pathconf_name : string → limit.
Abbreviation cstep := (cstep fs pathconf_path pathconf_name).

Lemma crew_step_ok c e c' :
  crew_ok fs rank c → reliable c e = true → cstep c e = Ok c' → crew_ok fs rank c'.
Proof.
  intros [Hm (ls & HI & Hc) Hl Hx] Hr Hstep.
  destruct c as [[si co f la m dn go pm nm] h ths st lo rq fo re]. simpl in *.
  pose proof (cnt_nonneg processing ths) as Hpn.
  destruct e; cstep_cases; use_reliable Hr.
  all: split; simpl; try solve [solve_mutex_ok]; try (cnt_simpl; lia).
  all: try match goal with Ht : _ !! _ = Some _ |- _ =>
         pose proof (cnt_lookup processing _ _ _ Ht); simpl in * end.
  all: try solve [rewrite ?length_app; cnt_simpl; ltb_cases; simpl in *; lia].
  all: try solve [exists ls; split; [|cnt_simpl; lia];
         eapply items_goto; [eassumption|exact HI|by auto|done|set_solver|done]].
  all: repeat match goal with
       | H : <[?t:=_]> _ !! ?t = Some _ |- _ => rewrite lookup_insert_eq in H; injection H as H
       | H : kind_of ?n = _ |- _ => destruct n; simpl in H; discriminate H || clear H
       end.
  all: try solve [exists ls; split; [|cnt_simpl; lia];
         eapply items_goto; [eassumption|exact HI|by auto|done|set_solver|];
         simpl; unfold of_item, of_entries; simplify_option_eq;
         first [rewrite expected_other by (by simplify_option_eq)
               |erewrite expected_file by eassumption
               |erewrite expected_dir by eassumption];
         by simplify_option_eq].
  all: try match goal with |- ∃ _, items_ok _ _ _ _ _ (<[_:=WTakeUnlock _]> _) _ _ _ ∧ _ =>
      edestruct items_take as (ls' & -> & HI'); [eassumption|exact HI|done..|eassumption|];
      exists ls'; split; [exact HI'|cnt_simpl; lia] end.
  all: try match goal with |- ∃ _, items_ok _ _ _ _ _ (<[_:=CSignal]> _) _ _ _ ∧ _ =>
      match goal with H : malloc _ _ _ = Ok _ |- _ => apply malloc_Ok in H as [? ->] end;
      eexists; split; [eapply items_request; try eassumption; done|
        rewrite length_app; cnt_simpl; lia] end.
  - exists ls. split; [|cnt_simpl; lia].
    eapply items_goto; [eassumption|exact HI|by auto|done|set_solver|].
    simpl. unfold of_item. simplify_option_eq. erewrite expected_file by eassumption.
    by rewrite Heqb, app_nil_r.
  - exists ls. split; [|cnt_simpl; lia].
    eapply items_goto; [eassumption|exact HI|by auto|done|set_solver|].
    simpl. unfold of_item. simplify_option_eq. erewrite expected_file by eassumption.
    by rewrite Heqb.
  - exists ls. split; [|cnt_simpl; lia].
    eapply items_goto; [eassumption|exact HI|by auto|done|set_solver|].
    simpl. unfold of_entries. by destruct (h !! work).
  - exists ls. split; [|cnt_simpl; lia].
    eapply items_goto; [eassumption|exact HI|by auto|done|set_solver|].
    simpl. unfold of_entries. destruct (h !! work); [|done]. simpl.
    unfold dotted at 2. match goal with H : _ || _ = true |- _ => by rewrite H end.
  - match goal with H : malloc _ _ _ = Ok _ |- _ => apply malloc_Ok in H as [? ->] end.
    exists ls. split; [|cnt_simpl; lia].
    eapply (items_alloc fs rank _ _ _ _ _ _ _ _ _ Heqo0 HI);
      [reflexivity|match goal with H : _ || _ = false |- _ => exact H end|eassumption|assumption].
  - exists (ls ++ [item]). split; [|rewrite length_app; cnt_simpl; lia].
    by eapply items_add.
  - by exists ls.
Qed.

Lemma crew_reachable_ok n c :
  reachable (M := restrict (M := cstep) reliable) (crew_conf n) c → crew_ok fs rank c.
Proof.
  intros Hc. apply (invariant_run (M := restrict (M := cstep) reliable) (crew_ok fs rank)
    (crew_conf n) c); [apply crew_start_ok| |done].
  intros c1 e c2 H [Hr Hs]%restrict_Ok. by eapply crew_step_ok.
Qed.
End stability.

(** ** Nobody waits for a wake-up that does not come *)

Definition worker (p : pc) : bool :=
  match p with
  | CIdle | CLock _ _ | CWaitIdle _ _ | CFail _ | CSignal | CWaitDone | CUnlock => false
  | _ => true
  end.
Definition waits_go (p : pc) : bool := match p with WGo | WWork => true | _ => false end.
Definition waits_done (p : pc) : bool :=
  match p with CWaitIdle _ _ | CWaitDone => true | _ => false end.

(** a worker that will look at the queue, or the client about to wake one *)
Definition attends (go : cond) (t : tid) (p : pc) : Prop :=
  match p with
  | CSignal => True
  | WGo | WWork => t ∉ go
  | _ => worker p = true ∧ exited p = false
  end.

(** the client's signal wakes a worker, unless all of them have left *)
Lemma crew_attends_signal (ths : list pc) go go' w t p :
  cond_signal w go = Ok go' → cv_ok waits_go go ths → ths !! t = Some CSignal →
  someone (λ t p, worker p = true ∧ exited p = false) ths →
  someone (attends go') (<[t:=p]> ths).
Proof.
  intros Hs Hgo Ht (u & r & Hu & Hw & Hx).
  apply cond_signal_Ok in Hs as [[-> ->]|(v & Hv & ->)].
  - eapply someone_other; [exact Hu| |].
    + destruct r; simpl in *; try done; apply not_elem_of_nil.
    + intros ->. rewrite Ht in Hu. injection Hu as <-. done.
  - destruct (Hgo v Hv) as (q & Hq & Hwq). eapply someone_other; [exact Hq| |].
    + destruct q; try done; simpl; rewrite elem_of_cond_leave; naive_solver.
    + intros ->. rewrite Ht in Hq. injection Hq as <-. done.
Qed.

Record wakeups_ok (c : cconf) : Prop := {
  wu_go : cv_ok waits_go (cr_go (cc_crew c)) (cc_threads c);
  wu_done : cv_ok waits_done (cr_done (cc_crew c)) (cc_threads c);
  wu_attended : cr_first (cc_crew c) ≠ None →
    someone (λ t p, worker p = true ∧ exited p = false) (cc_threads c) →
    someone (attends (cr_go (cc_crew c))) (cc_threads c);
  wu_completion : cr_count (cc_crew c) ≤ 0 → cr_done (cc_crew c) ≠ [] →
    someone (λ t p, p = WBroadcast) (cc_threads c);
  wu_unlock : ∀ t, cc_threads c !! t = Some CUnlock → cr_count (cc_crew c) ≤ 0;
  wu_workers : cnt worker (cc_threads c) = Z.of_nat CREW_SIZE
}.

Section wakeups.
Variable fs : string → option node.
Variable rank : string → nat.
Hypothesis Hrank : ranked fs rank.
Variable pathconf_path pathconf_name : string → limit.
Abbreviation cstep := (cstep fs pathconf_path pathconf_name).

(** what [work_count] says about the queue *)
Lemma crew_count_bounds c :
  crew_ok fs rank c →
  0 ≤ cnt processing (cc_threads c) ≤ cr_count (cc_crew c) ∧ 0 ≤ cc_lost c ∧
  (cr_first (cc_crew c) ≠ None → 1 + cnt processing (cc_threads c) ≤ cr_count (cc_crew c)).
Proof.
  intros [_ (ls & HI & Hc) Hl _]. pose proof (cnt_nonneg processing (cc_threads c)).
  split_and!; [lia..|]. intros Hf. destruct ls; [|simpl in Hc; lia].
  by destruct (it_queue _ _ _ _ _ _ _ _ _ HI) as [Hch _ _].
Qed.

Lemma wakeups_step c e c' :
  crew_ok fs rank c → wakeups_ok c → reliable c e = true → cstep c e = Ok c' → wakeups_ok c'.
Proof.
  intros Hok [Hgo Hdn Hat Hco Hun Hwk] Hr Hstep.
  pose proof (crew_count_bounds c Hok) as (Hn & Hl & Hf). destruct Hok as [Hm _ _ _].
  destruct c as [[si co f la m dn go pm nm] h ths st lo rq fo re]. simpl in *.
  destruct e; cstep_cases; use_reliable Hr.
  all: split; simpl; try solve [solve_cv_ok]; try solve [cnt_simpl; unfold CREW_SIZE in *; lia].
  all: try solve [intros u Hu; apply list_lookup_insert_Some in Hu as [(? & Hu & _)|[? Hu]];
         simplify_eq; first [ltb_cases; lia|specialize (Hun _ Hu); lia|mutex_contra]].
  (* the client's wake-up *)
  all: try match goal with |- _ → _ → someone _ _ => intros ? Hd end.
  all: try match goal with Ht : _ !! _ = Some _ |- _ =>
         pose proof (cnt_lookup processing _ _ _ Ht); simpl in * end.
  all: try match goal with |- someone (λ _ _, _ = WBroadcast) _ =>
         first [lia | contradiction
         | eapply someone_self; [eassumption|done]
         | eapply someone_step; [eassumption|apply Hco; [lia|exact Hd]|naive_solver|naive_solver]]
       end.
  (* attended *)
  all: try (eapply someone_self; [eassumption|done]).
  all: try (apply someone_before in Hd; [|by intros []]).
  all: try (eapply someone_step; [eassumption|by apply Hat| |done];
            intros u r Ha ?; destruct r; simpl in *; try done;
            rewrite ?elem_of_cond_block, ?elem_of_cond_leave; naive_solver).
  1-3: exfalso; match goal with H : ?x ≠ None, Hf : ?x ≠ None → _ ≤ _ |- _ =>
    specialize (Hf H); lia end.
  1-2: by eapply crew_attends_signal.
  - eapply someone_mono; [|by apply Hat]. intros u r. destruct r; simpl; try done;
      rewrite elem_of_cond_leave; naive_solver.
  - apply Hco; [done|]. intros ->. done.
  - exact Hun.
Qed.

Lemma wakeups_start n : wakeups_ok (crew_conf n).
Proof. split; [apply cv_ok_nil|apply cv_ok_nil|done|done|..].
  - by intros t [?|?]%start_threads.
  - unfold crew_conf, cc_threads. rewrite cnt_app.
    rewrite (cnt_replicate_true worker _ WStart), (cnt_replicate worker n CIdle); done. Qed.

Lemma wakeups_reachable n c :
  reachable (M := restrict (M := cstep) reliable) (crew_conf n) c →
  crew_ok fs rank c ∧ wakeups_ok c.
Proof.
  intros Hc. apply (invariant_run (M := restrict (M := cstep) reliable)
    (λ c, crew_ok fs rank c ∧ wakeups_ok c) (crew_conf n) c); [| |done].
  - split; [apply crew_start_ok|apply wakeups_start].
  - intros c1 e c2 [H1 H2] [Hr Hs]%restrict_Ok.
    split; [by eapply crew_step_ok|by eapply wakeups_step].
Qed.
End wakeups.

(** ** The search of one file *)

#[local] Arguments String.append !_ _ : simpl nomatch.

Lemma starts_with_spec p s : starts_with p s = true ↔ ∃ b, s = p +:+ b.
Proof.
  revert s; induction p as [|a p IH]; intros [|c s]; simpl.
  - split; [by exists ""%string|done].
  - split; [by eexists|done].
  - split; [done|]. intros [b [=]].
  - rewrite andb_true_iff, bool_decide_eq_true, IH. split.
    + intros [-> [b ->]]. by exists b.
    + intros [b [= -> ->]]. split; [done|by exists b].
Qed.

Lemma strstr_spec s p : strstr s p = true ↔ ∃ a b, s = a +:+ p +:+ b.
Proof.
  induction s as [|c s IH]; simpl; rewrite orb_true_iff, starts_with_spec.
  - split.
    + intros [[b Hb]|]; [|done]. by exists ""%string, b.
    + intros (a & b & H). left. exists b. destruct a; [done|discriminate].
  - rewrite IH. split.
    + intros [[b ->]|(a & b & ->)]; [by exists ""%string, b|by exists (String c a), b].
    + intros ([|d a] & b & H); [left; by exists b|right].
      injection H as -> ->. by exists a, b.
Qed.

Lemma fgets_app n s : (fgets n s).1 +:+ (fgets n s).2 = s.
Proof.
  revert s; induction n as [|n IH]; intros [|c s]; simpl; try done.
  case_bool_decide; [done|]. specialize (IH s). destruct (fgets n s). simpl in *. by rewrite IH.
Qed.
Lemma fgets_progress n s : s ≠ ""%string → (String.length (fgets (S n) s).2 < String.length s)%nat.
Proof.
  intros Hs. pose proof (fgets_app (S n) s) as H. rewrite <- H at 2.
  rewrite string_length_app. destruct s as [|c s]; [done|]. simpl.
  case_bool_decide; simpl; [lia|]. destruct (fgets n s). simpl. lia.
Qed.

(** whatever is found is there *)
Lemma search_file_sound fuel content p :
  search_file fuel content p = true → strstr content p = true.
Proof.
  revert content; induction fuel as [|fuel IH]; intros [|c s]; try done.
  cbn [search_file]. pose proof (fgets_app 255 (String c s)) as Happ.
  destruct (fgets 255 (String c s)) as [line rest]. simpl in Happ. rewrite <- Happ.
  rewrite orb_true_iff, !strstr_spec. intros [(a & b & ->)|H].
  - exists a, (b +:+ rest)%string. by rewrite <- !string_app_assoc.
  - apply IH, strstr_spec in H as (a & b & ->). exists (line +:+ a)%string, b.
    by rewrite <- string_app_assoc.
Qed.

(** [fits k s]: the rest of the current line of [s] has at most [k] characters, and
    every later line at most 255 *)
Fixpoint fits (k : nat) (s : string) : bool :=
  match s with
  | EmptyString => true
  | String a s =>
      match k with
      | O => false
      | S k => if bool_decide (a = newline) then fits 255 s else fits k s
      end
  end.

Fixpoint one_line (p : string) : bool :=
  match p with EmptyString => true | String a p => bool_decide (a ≠ newline) && one_line p end.

Lemma one_line_app a b : one_line (a +:+ b) = one_line a && one_line b.
Proof. induction a as [|c a IH]; simpl; [done|]. by rewrite IH, andb_assoc. Qed.

(** fgets returns the whole line *)
Lemma fgets_fits k s :
  fits k s = true →
  fits 255 (fgets k s).2 = true ∧
  ((fgets k s).2 = ""%string ∨ ∃ l, (fgets k s).1 = l +:+ String newline "").
Proof.
  revert s; induction k as [|k IH]; intros [|c s]; cbn [fgets fits].
  - auto.
  - done.
  - auto.
  - case_bool_decide as Hc.
    + intros Hf. split; [exact Hf|]. right. exists ""%string. by rewrite Hc.
    + intros Hf. destruct (IH _ Hf) as [Hf2 Hl]. destruct (fgets k s) as [line rest].
      cbn [fst snd] in *. split; [done|]. destruct Hl as [->|[l ->]]; [by left|].
      right. by exists (String c l).
Qed.

(** an occurrence in [line ++ rest] is in one of them if it cannot cross a newline
    that ends [line] *)
Lemma occurrence_split l rest p :
  one_line p = true → strstr (l +:+ String newline rest) p = true →
  strstr (l +:+ String newline "") p = true ∨ strstr rest p = true.
Proof.
  intros Hp. rewrite !strstr_spec. intros (a & b & H). revert a H.
  induction l as [|c l IH]; intros [|d a] H; simpl in H.
  - destruct p as [|q p]; [left; by exists ""%string, (String newline "")|].
    injection H as <- H. exfalso. cbn [one_line] in Hp.
    apply andb_prop in Hp as [Hq _]. by apply bool_decide_eq_true in Hq.
  - injection H as <- ->. right. by exists a, b.
  - clear IH. left. exists ""%string. simpl.
    cut (∃ b', String c l +:+ String newline "" = p +:+ b'); [naive_solver|].
    change (String c (l +:+ String newline rest)) with (String c l +:+ String newline rest) in H.
    generalize dependent (String c l). clear c l. induction p as [|q p IH]; intros l H; simpl.
    + by eexists.
    + simpl in Hp. apply andb_prop in Hp as [Hq Hp].
      destruct l as [|c l]; simpl in H; injection H as <- H; [by apply bool_decide_eq_true in Hq|].
      destruct (IH Hp _ H) as [b' Hb']. exists b'. simpl. by rewrite Hb'.
  - injection H as <- H. destruct (IH a H) as [(a' & b' & H')|?]; [|by right].
    left. exists (String c a'), b'. simpl. by rewrite H'.
Qed.

Lemma search_file_complete fuel content p :
  (String.length content ≤ fuel)%nat → fits 255 content = true →
  one_line p = true → p ≠ ""%string →
  strstr content p = true → search_file fuel content p = true.
Proof.
  intros Hlen Hfits Hp Hne. revert content Hlen Hfits.
  induction fuel as [|fuel IH]; intros [|c s] Hlen Hfits Hs.
  1,3: apply strstr_spec in Hs as (a & b & H); destruct a, p; simpl in *; congruence.
  - simpl in Hlen. lia.
  - cbn [search_file]. pose proof (fgets_app 255 (String c s)) as Happ.
    pose proof (fgets_progress 254 (String c s)) as Hprog.
    destruct (fgets_fits 255 _ Hfits) as [Hf Hl].
    destruct (fgets 255 (String c s)) as [line rest]. cbn [fst snd] in *.
    apply orb_true_iff. destruct Hl as [->|[l ->]].
    + left. rewrite <- Happ in Hs. by rewrite string_app_nil in Hs.
    + rewrite <- Happ in Hs. rewrite <- string_app_assoc in Hs.
      destruct (occurrence_split l rest p Hp Hs) as [?|?]; [by left|right].
      apply IH; [|done..]. simpl in Hlen, Hprog. specialize (Hprog ltac:(done)). lia.
Qed.

(** ** Properties *)

Definition crew_reliable (fs : string → option node) (pp pn : string → limit)
  : Machine cconf cevent := restrict (M := cstep fs pp pn) reliable.

Lemma crew_queue_drained fs rank c :
  crew_ok fs rank c → cr_count (cc_crew c) ≤ 0 →
  cr_first (cc_crew c) = None ∧ cc_found c ≡ₚ all_expected fs rank (cc_requests c).
Proof.
  intros [_ (ls & HI & Hc) Hl _] H0. pose proof (cnt_nonneg processing (cc_threads c)).
  destruct ls; [|simpl in Hc; lia].
  destruct HI as [[Hch _ _] _ _ _ Hf]. split; [done|]. rewrite <- Hf.
  assert (cnt processing (cc_threads c) = 0) as Hp by (simpl in Hc; lia).
  assert (all_pending fs rank (cc_heap c) (cc_threads c) = []) as ->; [|by rewrite !app_nil_r].
  unfold all_pending. rewrite (concat_map_ext _ (λ _, [])).
  - clear. induction (cc_threads c); done.
  - intros p [t Ht]%list_elem_of_lookup. pose proof (proj1 (cnt_zero _ _) Hp _ _ Ht) as Hx.
    by destruct p.
Qed.

(** C6: When crew_start is about to return (calls do not fail), the crew has found
    exactly what a sequential search of all requested trees finds, once each:
    no file is missed, none is searched twice, whatever the interleaving of the
    workers and the clients. *)
Theorem crew_search_complete fs pp pn rank n c t :
  ranked fs rank →
  reachable (M := crew_reliable fs pp pn) (crew_conf n) c →
  cc_threads c !! t = Some CUnlock →
  cr_first (cc_crew c) = None ∧ cc_found c ≡ₚ all_expected fs rank (cc_requests c).
Proof.
  intros Hr Hc Ht. destruct (wakeups_reachable fs rank Hr pp pn n c Hc) as [Hok Hw].
  apply crew_queue_drained; [done|]. by apply (wu_unlock _ Hw t).
Qed.

(** a directory with a matching file and a symbolic link *)
Definition demo_fs (path : string) : option node :=
  if bool_decide (path = "d"%string) then Some (Dir (Some ["."; ".."; "a"; "b"]%string))
  else if bool_decide (path = "d/a"%string) then Some (Reg (Some "hay needle hay"%string))
  else if bool_decide (path = "d/b"%string) then Some Lnk
  else None.
Definition demo_rank (path : string) : nat := if bool_decide (path = "d"%string) then 1 else 0.
Definition demo_limit (_ : string) : limit := Limit 255.

Lemma demo_ranked : ranked demo_fs demo_rank.
Proof.
  intros path entries name Hp. unfold demo_fs in Hp. repeat case_bool_decide; try done.
  subst. injection Hp as <-. intros _ _. unfold demo_rank.
  rewrite bool_decide_false; [|done]. rewrite bool_decide_true by done. lia.
Qed.

(** client 5 asks for "needle" in "d"; worker 0 does all the work *)
Definition crew_demo : list cevent :=
  [EStart 5 "d" "needle"; ERun 5 (ok_alloc 0); ERun 5 ok] ++
  replicate 7 (ERun 0 ok) ++ [ERun 0 (ok_alloc 1); ERun 0 ok; ERun 0 ok; ERun 0 ok;
  ERun 0 (ok_alloc 2)] ++ replicate 17 (ERun 0 ok) ++ [ERun 5 ok].

Lemma crew_search_complete_witness :
  let c := final (M := crew_reliable demo_fs demo_limit demo_limit) (crew_conf 1) crew_demo in
  cc_found c = [("d/a", "needle")]%string ∧
  cr_first (cc_crew c) = None ∧ cc_found c ≡ₚ all_expected demo_fs demo_rank (cc_requests c).
Proof.
  split; [by vm_compute|].
  apply (crew_search_complete demo_fs demo_limit demo_limit demo_rank 1 _ 5).
  - apply demo_ranked.
  - apply (reachable_final (M := crew_reliable demo_fs demo_limit demo_limit)). by vm_compute.
  - by vm_compute.
Defined.

(** [work_count] is exactly the number of items queued or in work (plus those lost
    to an opendir that failed), and only one thread is inside the crew's mutex. *)
Theorem crew_work_count fs pp pn rank n c :
  ranked fs rank →
  reachable (M := crew_reliable fs pp pn) (crew_conf n) c →
  cnt holding (cc_threads c) ≤ 1 ∧
  ∃ ls, queue_rep (cc_heap c) (cr_first (cc_crew c)) (cr_last (cc_crew c)) ls ∧
    cr_count (cc_crew c) = Z.of_nat (length ls) + cnt processing (cc_threads c) + cc_lost c.
Proof.
  intros Hr Hc. destruct (crew_reachable_ok fs rank Hr pp pn n c Hc) as [Hm (ls & HI & Hcount) _ _].
  split; [by eapply mutex_ok_cnt|]. exists ls. split; [by destruct HI|done].
Qed.

Lemma crew_work_count_witness :
  let c := final (M := crew_reliable demo_fs demo_limit demo_limit) (crew_conf 1)
             (take 18 crew_demo) in
  cr_count (cc_crew c) = 3 ∧ cnt holding (cc_threads c) ≤ 1 ∧
  ∃ ls, queue_rep (cc_heap c) (cr_first (cc_crew c)) (cr_last (cc_crew c)) ls ∧
    cr_count (cc_crew c) = Z.of_nat (length ls) + cnt processing (cc_threads c) + cc_lost c.
Proof.
  split; [by vm_compute|].
  apply (crew_work_count demo_fs demo_limit demo_limit demo_rank 1); [apply demo_ranked|].
  apply (reachable_final (M := crew_reliable demo_fs demo_limit demo_limit)). by vm_compute.
Defined.

(** C39: No wake-up is lost, when no call fails. While work is queued and some worker has not left, a worker
    is awake (or the client is about to signal one); and when the work count has
    reached zero while a client still waits for it, the worker that brought it
    there is about to broadcast. *)
Theorem crew_wakeups fs pp pn rank n c :
  ranked fs rank →
  reachable (M := crew_reliable fs pp pn) (crew_conf n) c →
  (cr_first (cc_crew c) ≠ None →
   someone (λ t p, worker p = true ∧ exited p = false) (cc_threads c) →
   someone (attends (cr_go (cc_crew c))) (cc_threads c)) ∧
  (cr_count (cc_crew c) ≤ 0 → cr_done (cc_crew c) ≠ [] →
   someone (λ t p, p = WBroadcast) (cc_threads c)).
Proof.
  intros Hr Hc. destruct (wakeups_reachable fs rank Hr pp pn n c Hc) as [_ Hw].
  split; apply Hw.
Qed.

Lemma crew_wakeups_witness :
  let c := final (M := crew_reliable demo_fs demo_limit demo_limit) (crew_conf 1)
             (take 30 crew_demo) in
  cr_count (cc_crew c) = 0 ∧ cr_done (cc_crew c) = [5%nat] ∧
  (cr_first (cc_crew c) ≠ None →
   someone (λ t p, worker p = true ∧ exited p = false) (cc_threads c) →
   someone (attends (cr_go (cc_crew c))) (cc_threads c)) ∧
  (cr_count (cc_crew c) ≤ 0 → cr_done (cc_crew c) ≠ [] →
   someone (λ t p, p = WBroadcast) (cc_threads c)).
Proof.
  split; [by vm_compute|]. split; [by vm_compute|].
  apply (crew_wakeups demo_fs demo_limit demo_limit demo_rank 1); [apply demo_ranked|].
  apply (reachable_final (M := crew_reliable demo_fs demo_limit demo_limit)). by vm_compute.
Defined.

(** A crew wears out: every crew_start that finishes costs a worker, which leaves
    its loop and terminates, so at most [CREW_SIZE] requests are ever completed, and
    once one more has been accepted every worker is gone and it is never served. *)
Theorem crew_wears_out fs pp pn rank n c :
  ranked fs rank →
  reachable (M := crew_reliable fs pp pn) (crew_conf n) c →
  (length (cc_requests c) ≤ CREW_SIZE + 1)%nat ∧
  (length (cc_requests c) = (CREW_SIZE + 1)%nat →
   0 < cr_count (cc_crew c) ∧
   (∀ t p, cc_threads c !! t = Some p → worker p = true → exited p = true)).
Proof.
  intros Hr Hc. destruct (wakeups_reachable fs rank Hr pp pn n c Hc) as [Hok Hw].
  pose proof (ck_exits _ _ _ Hok) as Hx. pose proof (wu_workers _ Hw) as Hk.
  assert (cnt exited (cc_threads c) ≤ cnt worker (cc_threads c)) as Hle.
  { apply cnt_mono. by intros []. }
  destruct (0 <? cr_count (cc_crew c)) eqn:Hpos; simpl in Hx; split; try lia.
  intros Hlen. apply Z.ltb_lt in Hpos. split; [done|]. intros t p Ht Hwp.
  destruct (exited p) eqn:Hp; [done|]. exfalso.
  assert (cnt exited (cc_threads c) < cnt worker (cc_threads c)); [|lia].
  clear - Ht Hwp Hp. revert t Ht. induction (cc_threads c) as [|q l IH]; intros [|t]; simpl; try done.
  - intros [= ->]. rewrite Hwp, Hp. simpl.
    assert (cnt exited l ≤ cnt worker l) by (apply cnt_mono; by intros []). lia.
  - intros Ht. specialize (IH t Ht).
    destruct q; simpl; lia.
Qed.

Lemma crew_wears_out_witness :
  let c := final (M := crew_reliable demo_fs demo_limit demo_limit) (crew_conf 1) crew_demo in
  (length (cc_requests c) ≤ CREW_SIZE + 1)%nat ∧
  (length (cc_requests c) = (CREW_SIZE + 1)%nat →
   0 < cr_count (cc_crew c) ∧
   (∀ t p, cc_threads c !! t = Some p → worker p = true → exited p = true)).
Proof.
  apply (crew_wears_out demo_fs demo_limit demo_limit demo_rank 1); [apply demo_ranked|].
  apply (reachable_final (M := crew_reliable demo_fs demo_limit demo_limit)). by vm_compute.
Defined.

Lemma lost_monotone fs pp pn c c' :
  reachable (M := crew_reliable fs pp pn) c c' → cc_lost c ≤ cc_lost c'.
Proof.
  intros [es Hes]. revert c Hes. induction es as [|e es IH]; intros c; simpl; [naive_solver lia|].
  intros (c1 & [_ Hs]%restrict_Ok & Hes)%bind_Ok. apply IH in Hes.
  etransitivity; [|exact Hes].
  change (cstep fs pp pn c e = Ok c1) in Hs. clear - Hs.
  destruct c as [[si co f la m dn go pm nm] h ths st lo rq fo re].
  destruct e; cstep_cases; lia.
Qed.

(** A directory that cannot be opened hangs the search: the worker's [continue] skips
    the decrement of [work_count], so no later state lets a crew_start return. *)
Theorem crew_opendir_failure_hangs fs pp pn rank n c c' t :
  ranked fs rank →
  reachable (M := crew_reliable fs pp pn) (crew_conf n) c →
  0 < cc_lost c →
  reachable (M := crew_reliable fs pp pn) c c' →
  cc_threads c' !! t ≠ Some CUnlock.
Proof.
  intros Hr [es1 H1] Hl Hcc'. pose proof (lost_monotone _ _ _ _ _ Hcc') as Hmono.
  destruct Hcc' as [es2 H2].
  assert (reachable (M := crew_reliable fs pp pn) (crew_conf n) c') as Hc'.
  { exists (es1 ++ es2). rewrite (run_app (M := crew_reliable fs pp pn)), H1. exact H2. }
  destruct (wakeups_reachable fs rank Hr pp pn n c' Hc') as [[_ (ls & _ & Hcount) _ _] Hw] .
  intros Ht. pose proof (wu_unlock _ Hw _ Ht). pose proof (cnt_nonneg processing (cc_threads c')).
  lia.
Qed.

Definition locked_fs (path : string) : option node := Some (Dir None).
Lemma crew_opendir_failure_hangs_witness :
  let c := final (M := crew_reliable locked_fs demo_limit demo_limit) (crew_conf 1)
    ([EStart 5 "d" "x"; ERun 5 (ok_alloc 0); ERun 5 ok] ++ replicate 5 (ERun 0 ok)) in
  cc_lost c = 1 ∧ cc_threads c !! 5%nat ≠ Some CUnlock.
Proof.
  split; [by vm_compute|].
  eapply (crew_opendir_failure_hangs locked_fs demo_limit demo_limit (λ _, 0%nat) 1).
  4: apply (reachable_refl (M := crew_reliable locked_fs demo_limit demo_limit)).
  - intros path entries name. done.
  - apply (reachable_final (M := crew_reliable locked_fs demo_limit demo_limit)). by vm_compute.
  - by vm_compute.
Defined.

(** The search of one file is right for one-line search strings and files whose lines
    have at most 255 characters: a match is reported exactly when the string occurs
    in the file; the loop over fgets always ends. *)
Theorem grep_correct content p :
  fits 255 content = true → one_line p = true → p ≠ ""%string →
  grep content p = true ↔ ∃ a b, content = (a +:+ p +:+ b)%string.
Proof.
  intros Hf Hp Hne. rewrite <- strstr_spec. split.
  - apply search_file_sound.
  - by apply search_file_complete.
Qed.

Lemma grep_correct_witness :
  grep "hay needle hay" "needle" = true ↔
    ∃ a b, "hay needle hay"%string = (a +:+ "needle" +:+ b)%string.
Proof. apply (grep_correct "hay needle hay" "needle"); by vm_compute. Defined.

Fixpoint blanks (n : nat) : string :=
  match n with O => EmptyString | S n => (" " +:+ blanks n)%string end.

(** On longer lines a match is lost when it straddles two reads of the 256-byte
    buffer. *)
Theorem grep_misses_straddling_match :
  strstr (blanks 250 +:+ "needle") "needle" = true ∧
  grep (blanks 250 +:+ "needle") "needle" = false.
Proof. by vm_compute. Qed.

(** The 40-byte path buffer overflows as soon as a directory entry's path reaches 40
    characters. *)
Theorem crew_path_overflow fs t work name entries o item c w :
  dotted name = false → o_status o = 0 → o_alloc o = Some item → cc_heap c !! work = Some w →
  (PATH_BUFFER ≤ String.length (child (wk_path w) name))%nat →
  worker_step fs t (WReaddir work (name :: entries)) o c = Fault OutOfBounds.
Proof.
  unfold dotted, child. intros Hd Hs Ho Hw Hlen. unfold worker_step, worker_readdir. rewrite Hs, Hd, Ho.
  simpl. rewrite Hw. cbn [of_option mbind res_bind].
  rewrite (proj2 (Nat.ltb_ge _ _)) by done. done.
Qed.

Lemma crew_path_overflow_witness :
  worker_step demo_fs 0 (WReaddir 0 ["an-entry-name-with-40-characters-or-more"]%string) (ok_alloc 1)
    (set_heap (crew_conf 1) {[0%nat := Work None "d" "needle"]}) = Fault OutOfBounds.
Proof.
  apply (crew_path_overflow demo_fs 0 0 _ [] _ 1 _ (Work None "d" "needle")); try by vm_compute.
  vm_compute. lia.
Defined.

(** crew_create fails only for oversized crews and failed initialisations, and sets
    up five workers whatever size it is asked for *)
Lemma crew_create_ok size clients :
  size ≤ Z.of_nat CREW_SIZE →
  ∃ c, crew_create size 0 0 0 clients = (0, Some c) ∧
    cc_threads c = cc_threads (crew_conf clients) ∧ cr_size (cc_crew c) = size.
Proof.
  intros H. unfold crew_create. rewrite (proj2 (Z.ltb_ge _ _)) by done. by eexists.
Qed.
