(* ===== verification/Pipe.v ===== *)
(** pipe.c: a pipeline of threads.

    Stage [k] is a record with its own mutex and two condition variables; the
    thread of stage [i] takes the datum of its stage, adds one and sends it to
    stage [i + 1] with [pipe_send], and a client reads the last stage (the tail,
    which has no thread) with [pipe_result].  A stage thread keeps the mutex of its
    own stage while it sends.  Stages are numbered by their position in the linked
    list that [pipe_create] builds: the [next] pointer of stage [k] is stage
    [k + 1], NULL at the tail.  A program counter names the next synchronisation
    call of a thread; a stage thread carries the number of its stage. *)

From S2P Require Import Prelude Pthread.

Local Open Scope Z_scope.

(** ** Data *)

Record stage_t := Stage {
  st_mutex : mutex;
  st_avail : cond;      (* signalled when data arrive *)
  st_ready : cond;      (* signalled when the stage is free *)
  st_data_ready : Z;
  st_data : Z
}.

Section stage_setters.
Variable s : stage_t.
Definition set_mutex m := Stage m (st_avail s) (st_ready s) (st_data_ready s) (st_data s).
Definition set_avail a := Stage (st_mutex s) a (st_ready s) (st_data_ready s) (st_data s).
Definition set_ready r := Stage (st_mutex s) (st_avail s) r (st_data_ready s) (st_data s).
Definition set_data_ready b := Stage (st_mutex s) (st_avail s) (st_ready s) b (st_data s).
Definition set_data b d := Stage (st_mutex s) (st_avail s) (st_ready s) b d.
End stage_setters.

Inductive pc : Type :=
  (* pipe_stage, the thread of stage i *)
  | PStart (i : nat)                               (* line 113: lock *)
  | PAvail (i : nat)                               (* line 122: wait for data *)
  | PSignal (i : nat)                              (* line 134: signal ready *)
  (* pipe_send to stage k, called by the thread of stage own or by a client *)
  | SLock (own : option nat) (k : nat) (data : Z)  (* line 50 *)
  | SReady (own : option nat) (k : nat) (data : Z) (* line 76: wait until free *)
  | SSignal (own : option nat) (k : nat)           (* line 92 *)
  | SUnlock (own : option nat) (k : nat)           (* lines 95, 101 *)
  (* clients: pipe_start and pipe_result *)
  | CIdle
  | CStart (value : Z)                             (* line 217: lock the pipe *)
  | CStartUnlock (value : Z)                       (* line 221 *)
  | CResult                                        (* line 235: lock the pipe *)
  | CResultUnlock (empty : bool)                   (* line 242 *)
  | TLock                                          (* line 247: lock the tail *)
  | TAvail                                         (* line 249: wait for a result *)
  | TSignal (k : nat) (result : Z)                 (* line 252 *)
  | TUnlock (k : nat) (result : Z).                (* line 253 *)

(** The machine: the pipe, the global [queue], the threads, and a log of the values
    stored in stage 0, of the results taken from the tail, and of what pipe_result
    returned ([None] when the pipe is empty). *)
Record pconf := PConf {
  p_stages : list stage_t;
  p_mutex : mutex;
  p_active : Z;
  p_queue : list Z;
  p_threads : list pc;
  p_sent : list Z;
  p_results : list Z;
  p_returned : list (option Z)
}.

Section updates.
Variable c : pconf.
Definition goto t p := PConf (p_stages c) (p_mutex c) (p_active c) (p_queue c)
  (<[t := p]> (p_threads c)) (p_sent c) (p_results c) (p_returned c).
Definition upd k (f : stage_t → stage_t) := PConf (alter f k (p_stages c)) (p_mutex c)
  (p_active c) (p_queue c) (p_threads c) (p_sent c) (p_results c) (p_returned c).
Definition set_pipe m a := PConf (p_stages c) m a (p_queue c) (p_threads c) (p_sent c)
  (p_results c) (p_returned c).
Definition set_queue q := PConf (p_stages c) (p_mutex c) (p_active c) q (p_threads c)
  (p_sent c) (p_results c) (p_returned c).
Definition log_sent v := PConf (p_stages c) (p_mutex c) (p_active c) (p_queue c) (p_threads c)
  (p_sent c ++ [v]) (p_results c) (p_returned c).
Definition log_result v := PConf (p_stages c) (p_mutex c) (p_active c) (p_queue c)
  (p_threads c) (p_sent c) (p_results c ++ [v]) (p_returned c).
Definition log_returned r := PConf (p_stages c) (p_mutex c) (p_active c) (p_queue c)
  (p_threads c) (p_sent c) (p_results c) (p_returned c ++ [r]).
End updates.

(** ** pipe_create

    [allocs] says which of the [stages + 1] mallocs succeed; the new stage is
    written to before it is tested for NULL.  The test [index == 0] compares the
    library function [index] with NULL: it is false, every mutex is a default one. *)
Fixpoint create_stages (n : nat) (allocs : list bool) : res (list stage_t) :=
  match n with
  | O => Ok []
  | S n =>
      _ ← require (default true (head allocs)) NullDeref;
      rest ← create_stages n (tail allocs);
      Ok (Stage None [] [] 0 0 :: rest)
  end.
Definition pipe_create (stages : nat) (allocs : list bool) (clients : nat) : res pconf :=
  ss ← create_stages (S stages) allocs;
  Ok (PConf ss None 0 (replicate 10 0) (map PStart (seq 0 stages) ++ replicate clients CIdle)
        [] [] []).

(** ** Synchronisation *)

Definition lock (t : tid) (k : nat) (c : pconf) : res pconf :=
  s ← of_option NullDeref (p_stages c !! k);
  m ← mutex_lock t (st_mutex s); Ok (upd c k (λ s, set_mutex s m)).
Definition unlock (t : tid) (k : nat) (c : pconf) : res pconf :=
  s ← of_option NullDeref (p_stages c !! k);
  m ← mutex_unlock t (st_mutex s); Ok (upd c k (λ s, set_mutex s m)).
Definition signal_avail (k : nat) (w : option tid) (c : pconf) : res pconf :=
  s ← of_option NullDeref (p_stages c !! k);
  ws ← cond_signal w (st_avail s); Ok (upd c k (λ s, set_avail s ws)).
Definition signal_ready (k : nat) (w : option tid) (c : pconf) : res pconf :=
  s ← of_option NullDeref (p_stages c !! k);
  ws ← cond_signal w (st_ready s); Ok (upd c k (λ s, set_ready s ws)).

(** ** pipe_send *)

(** Lines 60-74: remember the number in the first zero entry of [queue]; when
    there is none, [nextPosition] is used without a value. *)
Fixpoint queue_slot (q : list Z) : option nat :=
  match q with
  | [] => None
  | x :: q => if x =? 0 then Some O else S <$> queue_slot q
  end.
Definition queue_put (data : Z) (c : pconf) : res pconf :=
  pos ← of_option Uninitialised (queue_slot (p_queue c));
  Ok (set_queue c (<[pos := data]> (p_queue c))).

(** Lines 56-89: while the stage is busy wait, then store the data. *)
Definition pipe_send_loop (t : tid) (own : option nat) (k : nat) (data : Z) (c : pconf)
    : res pconf :=
  s ← of_option NullDeref (p_stages c !! k);
  if negb (st_data_ready s =? 0) then
    c ← (if bool_decide (k = O) then queue_put data c else Ok c);
    c ← unlock t k c;
    Ok (goto (upd c k (λ s, set_ready s (cond_block t (st_ready s)))) t (SReady own k data))
  else
    let c := upd c k (λ s, set_data s 1 data) in
    let c := if bool_decide (k = O) then log_sent c data else c in
    Ok (goto c t (SSignal own k)).

(** ** pipe_stage *)

(** Lines 119-129: wait for data, then send them on, plus one. *)
Definition pipe_stage_loop (t : tid) (i : nat) (c : pconf) : res pconf :=
  s ← of_option NullDeref (p_stages c !! i);
  if negb (st_data_ready s =? 1) then
    c ← unlock t i c;
    Ok (goto (upd c i (λ s, set_avail s (cond_block t (st_avail s)))) t (PAvail i))
  else Ok (goto c t (SLock (Some i) (S i) (long64 (st_data s + 1)))).

(** Line 133, or the return of pipe_start *)
Definition pipe_send_return (t : tid) (own : option nat) (c : pconf) : res pconf :=
  match own with
  | Some i => Ok (goto (upd c i (λ s, set_data_ready s 0)) t (PSignal i))
  | None => Ok (goto c t CIdle)
  end.

Definition pipe_stage_step (t : tid) (p : pc) (o : oracle) (c : pconf) : res pconf :=
  match p with
  | PStart i =>
      _ ← require (o_status o =? 0) (Abort (o_status o));
      c ← lock t i c; pipe_stage_loop t i c
  | PAvail i =>
      s ← of_option NullDeref (p_stages c !! i);
      _ ← await (awake t (st_avail s)); c ← lock t i c; pipe_stage_loop t i c
  | PSignal i => c ← signal_ready i (o_wake o) c; pipe_stage_loop t i c
  | _ => Blocked
  end.

Definition pipe_send_step (t : tid) (p : pc) (o : oracle) (c : pconf) : res pconf :=
  match p with
  | SLock own k data => c ← lock t k c; pipe_send_loop t own k data c
  | SReady own k data =>
      s ← of_option NullDeref (p_stages c !! k);
      if negb (o_status o =? 0) then
        (* return status, with the mutex of stage k locked *)
        c ← lock t k c;
        pipe_send_return t own (upd c k (λ s, set_ready s (cond_leave t (st_ready s))))
      else
        _ ← await (awake t (st_ready s));
        c ← lock t k c; pipe_send_loop t own k data c
  | SSignal own k =>
      c ← (if o_status o =? 0 then signal_avail k (o_wake o) c else Ok c);
      Ok (goto c t (SUnlock own k))
  | SUnlock own k => c ← unlock t k c; pipe_send_return t own c
  | _ => Blocked
  end.

(** ** pipe_start and pipe_result *)

(** Lines 248-251: wait for a result and take it. *)
Definition pipe_result_loop (t : tid) (c : pconf) : res pconf :=
  let tail := (length (p_stages c) - 1)%nat in
  s ← of_option NullDeref (p_stages c !! tail);
  if st_data_ready s =? 0 then
    c ← unlock t tail c;
    Ok (goto (upd c tail (λ s, set_avail s (cond_block t (st_avail s)))) t TAvail)
  else
    Ok (goto (log_result (upd c tail (λ s, set_data_ready s 0)) (st_data s)) t
          (TSignal tail (st_data s))).

Definition client_step (t : tid) (p : pc) (o : oracle) (c : pconf) : res pconf :=
  match p with
  | CStart v =>
      m ← mutex_lock t (p_mutex c);
      Ok (goto (set_pipe c m (int32 (p_active c + 1))) t (CStartUnlock v))
  | CStartUnlock v =>
      m ← mutex_unlock t (p_mutex c);
      Ok (goto (set_pipe c m (p_active c)) t (SLock None 0 v))
  | CResult =>
      m ← mutex_lock t (p_mutex c);
      if p_active c <=? 0 then Ok (goto (set_pipe c m (p_active c)) t (CResultUnlock true))
      else Ok (goto (set_pipe c m (p_active c - 1)) t (CResultUnlock false))
  | CResultUnlock empty =>
      m ← mutex_unlock t (p_mutex c);
      let c := set_pipe c m (p_active c) in
      if (empty : bool) then Ok (goto (log_returned c None) t CIdle) else Ok (goto c t TLock)
  | TLock => c ← lock t (length (p_stages c) - 1) c; pipe_result_loop t c
  | TAvail =>
      s ← of_option NullDeref (p_stages c !! (length (p_stages c) - 1)%nat);
      _ ← await (awake t (st_avail s));
      c ← lock t (length (p_stages c) - 1) c; pipe_result_loop t c
  | TSignal k v => c ← signal_ready k (o_wake o) c; Ok (goto c t (TUnlock k v))
  | TUnlock k v => c ← unlock t k c; Ok (goto (log_returned c (Some v)) t CIdle)
  | _ => Blocked
  end.

(** ** The machine *)

Inductive pevent : Type :=
  | EStart (t : tid) (value : Z)   (* a client calls pipe_start *)
  | EResult (t : tid)              (* a client calls pipe_result *)
  | ERun (t : tid) (o : oracle)    (* thread t takes its next step *)
  | ESpurious (t : tid) (k : nat). (* thread t wakes up at stage k without a signal *)

Definition pstep (c : pconf) (e : pevent) : res pconf :=
  match e with
  | EStart t v => match p_threads c !! t with Some CIdle => Ok (goto c t (CStart v)) | _ => Blocked end
  | EResult t => match p_threads c !! t with Some CIdle => Ok (goto c t CResult) | _ => Blocked end
  | ERun t o =>
      match p_threads c !! t with
      | Some p =>
          match p with
          | PStart _ | PAvail _ | PSignal _ => pipe_stage_step t p o c
          | SLock _ _ _ | SReady _ _ _ | SSignal _ _ | SUnlock _ _ => pipe_send_step t p o c
          | _ => client_step t p o c
          end
      | None => Blocked
      end
  | ESpurious t k =>
      Ok (upd c k (λ s, set_avail (set_ready s (cond_leave t (st_ready s)))
                          (cond_leave t (st_avail s))))
  end.

#[export] Instance pipe_machine : Machine pconf pevent := pstep.

(** a pipe of [n] stages and a tail, and [clients] threads that use it *)
Definition pipe_conf (n clients : nat) : pconf :=
  PConf (replicate (S n) (Stage None [] [] 0 0)) None 0 (replicate 10 0)
    (map PStart (seq 0 n) ++ replicate clients CIdle) [] [] [].

(** ** Invariants *)

(** the value a datum at stage [k] has when it leaves the pipe *)
Definition bump (x : Z) : Z := long64 (x + 1).
Definition bumps (j : nat) (x : Z) : Z := Nat.iter j bump x.

Definition own (p : pc) : option nat :=
  match p with
  | PStart i | PAvail i | PSignal i => Some i
  | SLock own _ _ | SReady own _ _ | SSignal own _ | SUnlock own _ => own
  | _ => None
  end.
(** inside the critical section of stage [k] *)
Definition holding (k : nat) (p : pc) : bool :=
  match p with
  | PSignal i | SLock (Some i) _ _ | SReady (Some i) _ _ => bool_decide (i = k)
  | SSignal own k' | SUnlock own k' => bool_decide (k' = k) || bool_decide (own = Some k)
  | TSignal k' _ | TUnlock k' _ => bool_decide (k' = k)
  | _ => false
  end.
(** inside the critical section of the pipe *)
Definition pipe_holding (p : pc) : bool :=
  match p with CStartUnlock _ | CResultUnlock _ => true | _ => false end.
(** the datum of stage [i] has been stored in stage [i + 1] too *)
Definition forwarding (i : nat) (p : pc) : bool :=
  match p with SSignal (Some j) _ | SUnlock (Some j) _ => bool_decide (j = i) | _ => false end.
Definition forwarded (ths : list pc) (i : nat) : bool :=
  match ths !! i with Some p => forwarding i p | None => false end.

(** what a thread that is sending knows about its own stage *)
Definition pc_ok (n : nat) (ss : list stage_t) (p : pc) : Prop :=
  match p with
  | SLock (Some i) k d | SReady (Some i) k d =>
      k = S i ∧ ∃ s, ss !! i = Some s ∧ st_data_ready s = 1 ∧ d = bump (st_data s)
  | SSignal (Some i) k | SUnlock (Some i) k =>
      k = S i ∧ ∃ s, ss !! i = Some s ∧ st_data_ready s = 1
  | SLock None k _ | SReady None k _ | SSignal None k | SUnlock None k => k = O
  | TSignal k _ | TUnlock k _ => k = n
  | _ => True
  end.

(** the datum in stage [k], as it will leave the pipe *)
Definition item (n : nat) (ss : list stage_t) (ths : list pc) (k : nat) : list Z :=
  match ss !! k with
  | Some s =>
      if bool_decide (st_data_ready s = 1) && negb (forwarded ths k)
      then [bumps (n - k) (st_data s)] else []
  | None => []
  end.
(** the data in stages [k], [k - 1], ..., 0 *)
Fixpoint content (f : nat → list Z) (k : nat) : list Z :=
  f k ++ match k with O => [] | S k => content f k end.

Lemma content_ext f g k : (∀ j, (j ≤ k)%nat → f j = g j) → content f k = content g k.
Proof.
  induction k as [|k IH]; intros H; simpl; rewrite H by lia; [done|].
  rewrite IH; [done|]. intros. apply H. lia.
Qed.
(** a datum moves from stage [i] to stage [i + 1] *)
Lemma content_move f g i k :
  (i < k)%nat → f (S i) = [] → g i = [] → g (S i) = f i →
  (∀ j, j ≠ i → j ≠ S i → g j = f j) → content g k = content f k.
Proof.
  intros Hi Hf Hg Hfg Hother. induction k as [|k IH]; [lia|].
  destruct (decide (k = i)) as [->|].
  - simpl. rewrite Hf, Hfg. simpl. destruct i as [|i]; simpl; rewrite Hg; [done|].
    simpl. f_equal. apply content_ext. intros j Hj. apply Hother; lia.
  - change (content g (S k)) with (g (S k) ++ content g k).
    change (content f (S k)) with (f (S k) ++ content f k).
    rewrite Hother by lia. rewrite IH by lia. done.
Qed.
(** a datum enters at stage 0 *)
Lemma content_enter f g k :
  f O = [] → (∀ j, j ≠ O → g j = f j) → content g k = content f k ++ g O.
Proof.
  intros Hf Hother. induction k as [|k IH]; simpl.
  - by rewrite Hf, app_nil_r.
  - rewrite IH, app_assoc, Hother; done.
Qed.
(** the datum of stage [k] leaves *)
Lemma content_leave f g k :
  g k = [] → (∀ j, j ≠ k → g j = f j) → content f k = f k ++ content g k.
Proof.
  intros Hg Hother. destruct k as [|k]; simpl; rewrite Hg; [done|]. simpl. f_equal.
  apply content_ext. intros j Hj. symmetry. apply Hother. lia.
Qed.
Lemma content_length f k : (∀ j, (length (f j) ≤ 1)%nat) → (length (content f k) ≤ S k)%nat.
Proof.
  intros H. induction k as [|k IH]; simpl; rewrite length_app; [specialize (H O); simpl; lia|].
  specialize (H (S k)). lia.
Qed.

Lemma alter_inv (f : stage_t → stage_t) (k : nat) (ss : list stage_t) k' s' :
  alter f k ss !! k' = Some s' →
  ∃ s, ss !! k' = Some s ∧ s' = if decide (k = k') then f s else s.
Proof.
  destruct (decide (k = k')) as [->|Hne].
  - rewrite list_lookup_alter_eq. intros (s & ? & ?)%fmap_Some. eauto.
  - rewrite list_lookup_alter_ne by done. eauto.
Qed.

Definition locks_ok (ss : list stage_t) (ths : list pc) : Prop :=
  ∀ k s, ss !! k = Some s → mutex_ok (holding k) (st_mutex s) ths.

(** for each stage: the mutex stays as it is and the thread enters no critical
    section, or the thread acquires it, or the thread releases it *)
Lemma locks_step ss ss' (ths : list pc) t p p' :
  locks_ok ss ths → ths !! t = Some p →
  (∀ k s', ss' !! k = Some s' → ∃ s, ss !! k = Some s ∧
    ((st_mutex s' = st_mutex s ∧ (holding k p' = true → holding k p = true)) ∨
     (st_mutex s = None ∧ st_mutex s' = Some t) ∨
     (st_mutex s = Some t ∧ st_mutex s' = None ∧ holding k p' = false))) →
  locks_ok ss' (<[t:=p']> ths).
Proof.
  intros Hl Ht Hstep k s' Hs'. destruct (Hstep k s' Hs') as (s & Hs & [[-> Hh]|[[Hn ->]|(Hn & -> & Hp)]]);
    specialize (Hl k s Hs).
  - apply mutex_ok_keep; [done|]. intros Hp. by apply (Hl t p), Hh.
  - apply mutex_ok_acquire. by rewrite <- Hn.
  - eapply mutex_ok_release; [|done]. by rewrite <- Hn.
Qed.

Record pipe_ok (n : nat) (c : pconf) : Prop := {
  pk_len : length (p_stages c) = S n;
  pk_own : ∀ t p i, p_threads c !! t = Some p → own p = Some i → t = i ∧ (i < n)%nat;
  pk_locks : locks_ok (p_stages c) (p_threads c);
  pk_pc : ∀ t p, p_threads c !! t = Some p → pc_ok n (p_stages c) p;
  pk_ready : ∀ k s, p_stages c !! k = Some s → st_data_ready s = 0 ∨ st_data_ready s = 1;
  pk_flow : map (bumps n) (p_sent c) =
    p_results c ++ content (item n (p_stages c) (p_threads c)) n;
}.

Definition reliable (c : pconf) (e : pevent) : bool :=
  match e with ERun _ o => o_status o =? 0 | _ => true end.
Definition pipe_reliable : Machine pconf pevent := restrict reliable.

Ltac pstep_cases :=
  unfold pstep, pipe_stage_step, pipe_send_step, client_step, pipe_result_loop, pipe_send_return,
    pipe_stage_loop, pipe_send_loop, queue_put, signal_ready, signal_avail, lock, unlock in *;
  step_cases; sync_inv; subst; simpl in *;
  repeat match goal with
  | |- context [match ?x with _ => _ end] => destruct x eqn:?; simpl in *
  end.

Ltac use_reliable Hr :=
  cbn [reliable] in Hr;
  repeat match goal with
  | H : (_ =? _) = false |- _ => rewrite H in Hr
  end; simpl in Hr; try discriminate Hr.

Lemma lookup_alter_all (f : stage_t → stage_t) (k : nat) (ss : list stage_t) j :
  alter f k ss !! j = (if decide (k = j) then f else id) <$> ss !! j.
Proof.
  case_decide as H; [subst; apply list_lookup_alter_eq|].
  rewrite list_lookup_alter_ne by done. by rewrite option_fmap_id.
Qed.

(** One step of thread [t] from [p] to [p'] that applies [g j] to every stage [j]. *)
Section step.
Context (n : nat) (g : nat → stage_t → stage_t).
Context (ss ss' : list stage_t) (ths : list pc) (t : tid) (p p' : pc).
Hypothesis Ht : ths !! t = Some p.
Hypothesis Hss : ∀ j, ss' !! j = g j <$> ss !! j.
Hypothesis Hown : ∀ t p i, ths !! t = Some p → own p = Some i → t = i ∧ (i < n)%nat.
Hypothesis Hlk : locks_ok ss ths.
Hypothesis Hpc : ∀ t p, ths !! t = Some p → pc_ok n ss p.

(** what the step does to the mutexes *)
Definition lock_effect : Prop := ∀ j s, ss !! j = Some s →
  (st_mutex (g j s) = st_mutex s ∧ (holding j p' = true → holding j p = true)) ∨
  (st_mutex s = None ∧ st_mutex (g j s) = Some t) ∨
  (st_mutex s = Some t ∧ st_mutex (g j s) = None ∧ holding j p' = false).
(** a datum is only touched with the mutex of its stage *)
Definition data_effect : Prop := ∀ j s, ss !! j = Some s →
  (st_data_ready (g j s) = st_data_ready s ∧ st_data (g j s) = st_data s) ∨
  st_mutex s = None ∨ st_mutex s = Some t.

Lemma step_locks : lock_effect → locks_ok ss' (<[t:=p']> ths).
Proof.
  intros Heff. eapply locks_step; [exact Hlk|exact Ht|]. intros k s' Hs'.
  rewrite Hss in Hs'. apply fmap_Some in Hs' as (s & Hs & ->). exists s. split; [done|].
  by apply Heff.
Qed.

Lemma step_own : own p' = own p →
  ∀ u q i, <[t:=p']> ths !! u = Some q → own q = Some i → u = i ∧ (i < n)%nat.
Proof.
  intros Ho u q i [(<- & <- & _)|(_ & Hu)]%list_lookup_insert_Some Hi; [|eauto].
  rewrite Ho in Hi. eauto.
Qed.

Lemma step_pc : data_effect → pc_ok n ss' p' →
  ∀ u q, <[t:=p']> ths !! u = Some q → pc_ok n ss' q.
Proof.
  intros Hd Hp' u q [(<- & <- & _)|(Hne & Hu)]%list_lookup_insert_Some; [done|].
  pose proof (Hpc u q Hu) as Hq.
  assert (∀ i s, own q = Some i → holding i q = true → ss !! i = Some s →
    ∃ s', ss' !! i = Some s' ∧ st_data_ready s' = st_data_ready s ∧ st_data s' = st_data s) as Hsame.
  { intros i s Hi Hh Hs. exists (g i s). rewrite Hss, Hs. split; [done|].
    pose proof (Hlk i s Hs u q Hu Hh) as Hm. destruct (Hd i s Hs) as [?|[?|?]]; [done|congruence..]. }
  destruct q as [| | |[i|] k d|[i|] k d|[i|] k|[i|] k| | | | | | | | |]; simpl in *; try done.
  all: destruct Hq as (-> & s & Hs & Hr); split; [done|];
    destruct (Hsame i s eq_refl) as (s' & Hs' & Hr' & Hd');
    [first [by apply bool_decide_eq_true|apply orb_true_iff; right; by apply bool_decide_eq_true]
    |done|].
  all: exists s'; rewrite Hr', ?Hd'; done.
Qed.

Lemma forwarded_insert j :
  forwarded (<[t:=p']> ths) j = if decide (j = t) then forwarding j p' else forwarded ths j.
Proof.
  unfold forwarded. case_decide as H.
  - subst. by rewrite list_lookup_insert_eq by (by eapply lookup_lt_Some).
  - by rewrite list_lookup_insert_ne.
Qed.

Lemma item_other j :
  (∀ s, ss !! j = Some s → st_data_ready (g j s) = st_data_ready s ∧ st_data (g j s) = st_data s) →
  (j = t → forwarding t p' = forwarding t p) →
  item n ss' (<[t:=p']> ths) j = item n ss ths j.
Proof.
  intros Hs Hf. unfold item. rewrite Hss, forwarded_insert.
  destruct (ss !! j) as [s|]; [|done]. simpl. destruct (Hs s eq_refl) as [-> ->].
  case_decide as H; [|done]. subst. rewrite Hf by done.
  unfold forwarded. by rewrite Ht.
Qed.

(** a stage that is forwarding is full *)
Lemma forwarded_full j s : forwarded ths j = true → ss !! j = Some s → st_data_ready s = 1.
Proof.
  unfold forwarded. destruct (ths !! j) as [q|] eqn:Hj; [|done]. intros Hf Hs.
  pose proof (Hpc j q Hj) as Hq. destruct q as [| | | | |[i|] k|[i|] k| | | | | | | | |]; try done;
    simpl in *; apply bool_decide_eq_true in Hf as ->; destruct Hq as (-> & s' & ? & ?); by simplify_eq.
Qed.
End step.

(** the stage-wise effect of [alter]s *)
Definition over (f : stage_t → stage_t) (k : nat) (g : nat → stage_t → stage_t) (j : nat)
    (s : stage_t) : stage_t := (if decide (k = j) then f else id) (g j s).
Lemma effect_id (ss : list stage_t) j : ss !! j = (λ _ s, s) j <$> ss !! j.
Proof. by rewrite option_fmap_id. Qed.
Lemma effect_over f k g (ss ss' : list stage_t) :
  (∀ j, ss' !! j = g j <$> ss !! j) → ∀ j, alter f k ss' !! j = over f k g j <$> ss !! j.
Proof.
  intros H j. rewrite lookup_alter_all, H, <- option_fmap_compose. by destruct (ss !! j).
Qed.
Lemma effect_length (g : nat → stage_t → stage_t) (ss ss' : list stage_t) :
  (∀ j, ss' !! j = g j <$> ss !! j) → length ss' = length ss.
Proof.
  intros H. assert (∀ j, j < length ss' ↔ j < length ss)%nat as Hlt.
  { intros j. rewrite <- !lookup_lt_is_Some, H. by rewrite fmap_is_Some. }
  destruct (Nat.lt_trichotomy (length ss') (length ss)) as [Hl|[?|Hl]]; [|done|];
    apply Hlt in Hl; lia.
Qed.

Lemma pipe_ok_step n g ss ss' ths t p p' se re se' re' m a q rt m' a' q' rt' :
  pipe_ok n (PConf ss m a q ths se re rt) → ths !! t = Some p →
  (∀ j, ss' !! j = g j <$> ss !! j) →
  own p' = own p → lock_effect g ss t p p' → data_effect g ss t → pc_ok n ss' p' →
  (∀ j s, ss !! j = Some s → st_data_ready s = 0 ∨ st_data_ready s = 1 →
    st_data_ready (g j s) = 0 ∨ st_data_ready (g j s) = 1) →
  (map (bumps n) se = re ++ content (item n ss ths) n →
   map (bumps n) se' = re' ++ content (item n ss' (<[t:=p']> ths)) n) →
  pipe_ok n (PConf ss' m' a' q' (<[t:=p']> ths) se' re' rt').
Proof.
  intros [Hlen Hown Hlk Hpc Hdr Hfl] Ht Hss Ho Hle Hde Hp' Hr Hf. simpl in *.
  split; simpl.
  - by rewrite (effect_length _ _ _ Hss).
  - by eapply step_own.
  - by eapply step_locks.
  - by eapply step_pc.
  - intros k s Hs. rewrite Hss in Hs. apply fmap_Some in Hs as (s0 & Hs & ->).
    apply Hr; [done|]. by eapply Hdr.
  - auto.
Qed.

(** steps that leave all data where they are *)
Lemma flow_quiet n g (ss ss' : list stage_t) (ths : list pc) t p p' :
  ths !! t = Some p → (∀ j, ss' !! j = g j <$> ss !! j) →
  (∀ j s, ss !! j = Some s → st_data_ready (g j s) = st_data_ready s ∧ st_data (g j s) = st_data s) →
  forwarding t p' = forwarding t p →
  content (item n ss' (<[t:=p']> ths)) n = content (item n ss ths) n.
Proof.
  intros Ht Hss Hg Hf. apply content_ext. intros j _. eapply item_other; [done|done|by intros s; apply Hg|by intros ->].
Qed.

Ltac is_pc p := match type of p with pc => idtac end.
Ltac effects :=
  repeat first [apply effect_id | eapply effect_over].
Ltac over_cases :=
  unfold over; intros;
  repeat match goal with |- context [decide (?k = ?j)] => destruct (decide (k = j)); subst end;
  simpl in *; simplify_eq; simpl in *.

(** closing a side condition of [pipe_ok_step] *)
Ltac solve_lock_effect :=
  unfold lock_effect; over_cases;
  rewrite ?orb_true_iff, ?orb_false_iff, ?bool_decide_eq_true, ?bool_decide_eq_false;
  intuition congruence.
Ltac solve_data_effect := unfold data_effect; over_cases; auto; congruence.
Ltac solve_ready := over_cases; by auto.
Ltac solve_flow_quiet :=
  intros Hflow; erewrite flow_quiet; [exact Hflow|eassumption|effects|over_cases; done|done].
(** a sending thread still knows its own stage *)
Ltac solve_pc_ok :=
  simpl in *;
  try match goal with |- match ?own with _ => _ end => destruct own; simpl in * end;
  first [done |
    match goal with
    | H : _ ∧ ∃ _, _ |- _ => destruct H as (? & ? & ? & ?); subst
    | _ => idtac
    end; split; [done|]; eexists; rewrite !lookup_alter_all;
    match goal with H : _ !! ?i = Some _ |- context [_ !! ?i] => rewrite H end;
    split; [reflexivity|repeat case_decide; naive_solver]].

(** pipe_send stores its datum in the free stage [k] *)
Lemma store_ok n ss m a q ths se re rt t p own' k d s se' q' :
  pipe_ok n (PConf ss m a q ths se re rt) → ths !! t = Some p →
  p = SLock own' k d ∨ p = SReady own' k d →
  ss !! k = Some s → st_data_ready s = 0 → st_mutex s = None →
  se' = (if bool_decide (k = 0%nat) then se ++ [d] else se) →
  pipe_ok n (PConf (alter (λ s, set_data s 1 d) k (alter (λ s, set_mutex s (Some t)) k ss))
    m a q' (<[t := SSignal own' k]> ths) se' re rt).
Proof.
  intros Hok Ht Hp Hs Hr0 Hm ->. pose proof Hok as [Hlen Hown Hlk Hpc Hdr _]. simpl in *.
  pose proof (Hpc t p Ht) as Hq. pose proof (Hown t p) as Ho.
  assert (own p = own') as Hop by (by destruct Hp as [-> | ->]).
  assert (∀ j, holding j p = true ↔ own' = Some j) as Hh.
  { intros j. destruct Hp as [-> | ->]; simpl; destruct own'; simpl;
      rewrite ?bool_decide_eq_true; naive_solver. }
  assert (∀ j, forwarding j p = false) as Hfp by (intros j; by destruct Hp as [-> | ->]).
  assert (pc_ok n ss (SLock own' k d)) as Hpk by (by destruct Hp as [-> | ->]).
  clear Hq. eapply pipe_ok_step; [exact Hok|exact Ht|effects|by rewrite Hop|..].
  - unfold lock_effect. intros j s' Hs'. specialize (Hh j). unfold over. simpl.
    destruct (decide (k = j)) as [->|Hne]; simplify_eq; simpl; [by auto|].
    left. split; [done|]. rewrite orb_true_iff, !bool_decide_eq_true. naive_solver.
  - solve_data_effect.
  - destruct own' as [i|]; [|done]. destruct Hpk as (-> & si & Hi & Hri & _). simpl.
    split; [done|]. exists si. rewrite !lookup_alter_all, Hi. simpl.
    repeat case_decide; try lia. done.
  - over_cases; by auto.
  - intros Hfl. set (f := item n ss ths) in *. set (g := item n _ _).
    assert (f k = []) as Hfk.
    { unfold f, item. rewrite Hs, Hr0. done. }
    assert (∀ j, j ≠ k → own' ≠ Some j → g j = f j) as Hother.
    { intros j Hj Hj'. unfold g, f. eapply item_other; [exact Ht|effects|over_cases; done|].
      intros ->. rewrite Hfp. simpl. destruct own' as [i|]; [|done].
      apply bool_decide_false. congruence. }
    assert (g k = [bumps (n - k) d]) as Hgk.
    { unfold g, item. rewrite !lookup_alter_all, Hs. simpl. rewrite decide_True by done. simpl.
      rewrite (forwarded_insert ths t p) by done.
      case_decide as Hkt.
      - destruct own' as [i|]; simpl; [|done]. rewrite bool_decide_false; [done|].
        destruct Hpk as (-> & _). lia.
      - destruct (forwarded ths k) eqn:Hf; [|done].
        pose proof (forwarded_full n ss ths Hpc k s Hf Hs). congruence. }
    destruct own' as [i|].
    + destruct Hpk as (-> & si & Hi & Hri & ->). rewrite bool_decide_false by done.
      destruct (Ho i Ht ltac:(by rewrite Hop)) as [-> Hin].
      rewrite Hfl. f_equal. symmetry. apply (content_move f g i); [done|done| | |].
      * unfold g, item. rewrite !lookup_alter_all, Hi. simpl. rewrite decide_False by lia. simpl.
        rewrite (forwarded_insert ths i p) by done. destruct (decide (i = i)); [|done]. simpl.
        by rewrite (bool_decide_true (i = i)), andb_false_r by done.
      * rewrite Hgk. unfold f, item. rewrite Hi, Hri. unfold forwarded. rewrite Ht, Hfp. simpl.
        f_equal. replace (n - i)%nat with (S (n - S i)) by lia.
        unfold bumps. by rewrite Nat.iter_succ_r.
      * intros j Hj1 Hj2. apply Hother; [done|congruence].
    + simpl in Hpk. subst k. rewrite bool_decide_true by done.
      rewrite map_app. simpl. rewrite Hfl, <- app_assoc. f_equal.
      rewrite (content_enter f g n); [|done|intros; by apply Hother].
      by rewrite Hgk, Nat.sub_0_r.
Qed.

(** the thread of stage [i] has forwarded its datum: the stage becomes free *)
Lemma free_ok n ss m a q ths se re rt t i k s :
  pipe_ok n (PConf ss m a q ths se re rt) → ths !! t = Some (SUnlock (Some i) k) →
  ss !! k = Some s → st_mutex s = Some t →
  pipe_ok n (PConf (alter (λ s, set_data_ready s 0) i (alter (λ s, set_mutex s None) k ss))
    m a q (<[t := PSignal i]> ths) se re rt).
Proof.
  intros Hok Ht Hs Hm. pose proof Hok as [Hlen Hown Hlk Hpc Hdr _]. simpl in *.
  destruct (Hpc _ _ Ht) as (-> & si & Hi & Hri). destruct (Hown _ _ _ Ht eq_refl) as [-> Hin].
  assert (st_mutex si = Some i) as Hmi.
  { apply (Hlk i si Hi i _ Ht). simpl. by rewrite (bool_decide_true (Some i = Some i)), orb_true_r. }
  eapply pipe_ok_step; [exact Hok|exact Ht|effects|done|..].
  - unfold lock_effect. intros j s' Hs'. unfold over. simpl.
    destruct (decide (S i = j)) as [<-|Hne]; [rewrite decide_False by lia|]; simplify_eq; simpl.
    + right. right. split_and!; [done..|]. apply bool_decide_false. lia.
    + left. destruct (decide (i = j)) as [<-|]; simpl; (split; [done|]).
      * intros _. rewrite orb_true_iff, !bool_decide_eq_true. by right.
      * rewrite bool_decide_false; done.
  - unfold data_effect. intros j s' Hs'. unfold over. simpl.
    destruct (decide (i = j)) as [<-|]; simpl; [right; right; congruence|].
    left. by destruct (decide (S i = j)).
  - done.
  - over_cases; by auto.
  - intros Hfl. rewrite Hfl. f_equal. symmetry. apply content_ext. intros j Hj.
    destruct (decide (j = i)) as [->|].
    + unfold item. rewrite !lookup_alter_all, Hi. simpl. rewrite (decide_True (P := i = i)) by done.
      rewrite decide_False by lia. simpl. rewrite bool_decide_true by done. simpl.
      unfold forwarded. rewrite Ht. simpl. by rewrite bool_decide_true.
    + eapply item_other; [exact Ht|effects|over_cases; done|done].
Qed.

(** pipe_result takes the datum of the tail *)
Lemma take_ok n ss m a q ths se re rt t p s :
  pipe_ok n (PConf ss m a q ths se re rt) → ths !! t = Some p →
  p = TLock ∨ p = TAvail → ss !! n = Some s → st_data_ready s ≠ 0 → st_mutex s = None →
  pipe_ok n (PConf (alter (λ s, set_data_ready s 0) n (alter (λ s, set_mutex s (Some t)) n ss))
    m a q (<[t := TSignal n (st_data s)]> ths) se (re ++ [st_data s]) rt).
Proof.
  intros Hok Ht Hp Hs Hr Hm. pose proof Hok as [Hlen Hown Hlk Hpc Hdr _]. simpl in *.
  assert (own p = None ∧ (∀ j, holding j p = false) ∧ (∀ j, forwarding j p = false)) as (Hop & Hh & Hfp).
  { by destruct Hp as [-> | ->]. }
  eapply pipe_ok_step; [exact Hok|exact Ht|effects|by rewrite Hop|..].
  - unfold lock_effect. intros j s' Hs'. unfold over. simpl.
    destruct (decide (n = j)) as [->|Hne]; simplify_eq; simpl; [by auto|].
    left. split; [done|]. by rewrite bool_decide_false.
  - unfold data_effect. intros j s' Hs'. unfold over. simpl.
    destruct (decide (n = j)) as [->|Hne]; simplify_eq; simpl; auto.
  - done.
  - over_cases; by auto.
  - intros Hfl. rewrite Hfl, <- app_assoc. f_equal.
    set (f := item n ss ths) in *. set (g := item n _ _).
    assert (∀ j, j ≠ n → g j = f j) as Hother.
    { intros j Hj. unfold g, f. eapply item_other; [exact Ht|effects|over_cases; done|].
      intros ->. by rewrite Hfp. }
    assert (g n = []) as Hgn.
    { unfold g, item. rewrite !lookup_alter_all, Hs. simpl. by rewrite decide_True. }
    assert (f n = [st_data s]) as Hfn.
    { unfold f, item. rewrite Hs. destruct (Hdr n s Hs) as [|Hr1]; [done|].
      rewrite Hr1. simpl. rewrite Nat.sub_diag. simpl.
      destruct (forwarded ths n) eqn:Hf; [|done]. exfalso. unfold forwarded in Hf.
      destruct (ths !! n) as [u|] eqn:Hu; [|done].
      destruct u as [| | | | |[i|] k|[i|] k| | | | | | | | |]; try done;
        simpl in Hf; apply bool_decide_eq_true in Hf as ->;
        destruct (Hown _ _ _ Hu eq_refl); lia. }
    rewrite (content_leave f g n); [by rewrite Hfn|done|intros; by rewrite Hother].
Qed.

Lemma pc_ok_sending n ss i s f :
  ss !! i = Some s → st_data_ready (f s) = st_data_ready s ∧ st_data (f s) = st_data s →
  st_data_ready s = 1 →
  pc_ok n (alter f i ss) (SLock (Some i) (S i) (long64 (st_data s + 1))).
Proof.
  intros Hs [Hr Hd] H1. split; [done|]. exists (f s).
  rewrite lookup_alter_all, Hs, decide_True by done. split_and!; [done|congruence|].
  by rewrite Hd.
Qed.

Lemma pipe_ok_spurious n ss m a q ths se re rt k f :
  (∀ s, st_mutex (f s) = st_mutex s ∧ st_data_ready (f s) = st_data_ready s ∧
        st_data (f s) = st_data s) →
  pipe_ok n (PConf ss m a q ths se re rt) → pipe_ok n (PConf (alter f k ss) m a q ths se re rt).
Proof.
  intros Hf [Hlen Hown Hlk Hpc Hdr Hfl]. simpl in *.
  assert (∀ j s', alter f k ss !! j = Some s' → ∃ s, ss !! j = Some s ∧ st_mutex s' = st_mutex s ∧
    st_data_ready s' = st_data_ready s ∧ st_data s' = st_data s) as Hall.
  { intros j s' (s & Hs & ->)%alter_inv. exists s. case_decide; auto. }
  split; simpl; [by rewrite length_alter|done| | | |].
  - intros j s' (s & Hs & -> & _)%Hall. by apply Hlk.
  - intros t p Ht. specialize (Hpc t p Ht).
    destruct p as [| | |[i|] kk d|[i|] kk d|[i|] kk|[i|] kk| | | | | | | | |]; try done; simpl in *;
      destruct Hpc as (-> & s & Hs & Hr); (split; [done|]); rewrite lookup_alter_all, Hs;
      eexists; (split; [done|]); case_decide; destruct (Hf s) as (_ & ? & ?); simpl; intuition congruence.
  - intros j s' (s & Hs & _ & -> & _)%Hall. by eapply Hdr.
  - rewrite Hfl. f_equal. apply content_ext. intros j _. unfold item.
    rewrite lookup_alter_all. destruct (ss !! j) as [s|]; [|done]. simpl.
    case_decide; [|done]. by destruct (Hf s) as (_ & -> & ->).
Qed.

Lemma pipe_step_ok n c e c' :
  pipe_ok n c → reliable c e = true → pstep c e = Ok c' → pipe_ok n c'.
Proof.
  intros Hok Hr Hstep. pose proof Hok as [Hlen Hown Hlk Hpc Hdr Hfl].
  destruct c as [ss m a q ths se re rt]. simpl in *.
  destruct e; pstep_cases; use_reliable Hr.
  all: unfold upd, goto, log_sent, log_result, log_returned, set_pipe, set_queue; simpl.
  all: repeat match goal with
       | H : alter _ _ _ !! _ = Some _ |- _ => apply alter_inv in H as (? & H & ->)
       | H : context [decide (?k = ?k)] |- _ => rewrite decide_True in H by done; simpl in H
       end.
  all: try match goal with H : _ !! _ = Some ?p |- _ => is_pc p; pose proof (Hpc _ _ H) end.
  all: rewrite ?length_alter, ?Hlen, ?Nat.sub_succ, ?Nat.sub_0_r in *.
  all: rewrite ?decide_True in * by done; simpl in *.
  all: simplify_eq.
  all: try (eapply store_ok; [exact Hok|eassumption|first [by left|by right]|eassumption
             |by apply Z.eqb_eq|assumption|case_bool_decide; simplify_eq; done]).
  all: try (eapply free_ok; [exact Hok|eassumption..]).
  all: try (eapply take_ok; [exact Hok|eassumption|first [by left|by right]|eassumption
             |by apply Z.eqb_neq|assumption]).
  all: try (eapply pipe_ok_step; [exact Hok|eassumption|effects|done|
    solve_lock_effect|solve_data_effect|solve_pc_ok|solve_ready|solve_flow_quiet]).
  all: try (eapply pipe_ok_step; [exact Hok|eassumption|effects|done|
    solve_lock_effect|solve_data_effect|eapply pc_ok_sending; [eassumption|done|by apply Z.eqb_eq]
    |solve_ready|solve_flow_quiet]).
  - apply pipe_ok_spurious; [done|exact Hok].
Qed.

Lemma pipe_conf_threads n k t p :
  p_threads (pipe_conf n k) !! t = Some p → (p = PStart t ∧ (t < n)%nat) ∨ p = CIdle.
Proof.
  unfold pipe_conf, p_threads. intros [H|[Hl H]]%lookup_app_Some.
  - left. rewrite list_lookup_fmap in H. apply fmap_Some in H as (i & Hi & ->).
    apply lookup_seq in Hi as [-> ?]. split; [done|lia].
  - right. by apply lookup_replicate_1 in H as [-> _].
Qed.

Lemma pipe_start_ok n k : pipe_ok n (pipe_conf n k).
Proof.
  assert (∀ j s, p_stages (pipe_conf n k) !! j = Some s → s = Stage None [] [] 0 0) as Hs.
  { intros j s H. unfold pipe_conf, p_stages in H. by apply lookup_replicate_1 in H as [-> _]. }
  split.
  - unfold pipe_conf, p_stages. by rewrite length_replicate.
  - intros t p i [[-> Hn]| ->]%pipe_conf_threads; [|done]. by intros [= ->].
  - intros j s _ t p [[-> Hn]| ->]%pipe_conf_threads; done.
  - intros t p [[-> Hn]| ->]%pipe_conf_threads; done.
  - intros j s ->%Hs. by left.
  - rewrite (content_ext _ (λ _, [])).
    + assert (∀ m, content (λ _, []) m = []) as -> by (intros m; by induction m). done.
    + intros j _. unfold item. destruct (p_stages (pipe_conf n k) !! j) as [s|] eqn:H; [|done].
      by rewrite (Hs j s H).
Qed.

Lemma pipe_reachable_ok n k c :
  reachable (M := pipe_reliable) (pipe_conf n k) c → pipe_ok n c.
Proof.
  intros Hc. apply (invariant_run (M := pipe_reliable) (pipe_ok n) (pipe_conf n k) c);
    [apply pipe_start_ok| |done].
  intros c1 e c2 H [Hr Hs]%restrict_Ok. by eapply pipe_step_ok.
Qed.

Lemma pipe_create_ok n allocs k :
  Forall (λ b, b = true) allocs → pipe_create n allocs k = Ok (pipe_conf n k).
Proof.
  intros Ha. unfold pipe_create, pipe_conf.
  assert (∀ m l, Forall (λ b, b = true) l →
    create_stages m l = Ok (replicate m (Stage None [] [] 0 0))) as ->; [|done|done].
  clear. induction m as [|m IH]; intros l Hl; cbn [create_stages]; [done|].
  destruct Hl as [|b l -> Hl]; simpl; rewrite IH by auto; done.
Qed.

Lemma bumps_add j x : - 2 ^ 63 ≤ x → x + Z.of_nat j < 2 ^ 63 → bumps j x = x + Z.of_nat j.
Proof.
  intros Hlo Hhi. induction j as [|j IH]; [simpl; lia|].
  change (bumps (S j) x) with (bump (bumps j x)). rewrite IH by lia. unfold bump.
  rewrite wrap_signed_id; lia.
Qed.

(** ** Properties *)


(** client 2 sends 5 and then 7 through a pipe of two stages and takes a result *)
Definition pipe_demo : list pevent :=
  [EStart 2 5] ++ replicate 5 (ERun 2 ok) ++ replicate 3 (ERun 0 ok) ++
  [EStart 2 7; ERun 2 ok; ERun 2 ok; ERun 0 ok; ERun 0 ok] ++
  [ERun 2 ok; ERun 2 (ok_wake 0); ERun 2 ok] ++ replicate 5 (ERun 1 ok) ++
  [EResult 2] ++ replicate 5 (ERun 2 ok).


(** The i-th result is the i-th value sent plus the number of stages, as long as the
    sums fit a long. *)
Theorem pipe_result_value n clients c i r :
  reachable (M := pipe_reliable) (pipe_conf n clients) c →
  p_results c !! i = Some r →
  ∃ v, p_sent c !! i = Some v ∧
    (- 2 ^ 63 ≤ v → v + Z.of_nat n < 2 ^ 63 → r = v + Z.of_nat n).
Proof.
  intros Hc Hr. pose proof (pk_flow n c (pipe_reachable_ok n clients c Hc)) as Hfl.
  assert (map (bumps n) (p_sent c) !! i = Some r) as Hi by (rewrite Hfl; by apply lookup_app_l_Some).
  rewrite list_lookup_fmap in Hi. apply fmap_Some in Hi as (v & Hv & ->).
  exists v. split; [done|]. apply bumps_add.
Qed.

Lemma pipe_result_value_witness :
  ∃ v, p_sent (final (M := pipe_reliable) (pipe_conf 2 1) pipe_demo) !! 0%nat = Some v ∧
    (- 2 ^ 63 ≤ v → v + 2 < 2 ^ 63 → 7 = v + 2).
Proof.
  apply (pipe_result_value 2 1 _ 0 7); [|by vm_compute].
  apply (reachable_final (M := pipe_reliable)). by vm_compute.
Defined.

(** A pipe of [n] stages never holds more than [n + 1] data. The program calls
    pipe_result from the thread that calls pipe_start, so with its three stages the
    fifth number entered without asking for a result blocks it for ever. *)
Theorem pipe_capacity n clients c :
  reachable (M := pipe_reliable) (pipe_conf n clients) c →
  (length (p_sent c) ≤ length (p_results c) + S n)%nat.
Proof.
  intros Hc. pose proof (pk_flow n c (pipe_reachable_ok n clients c Hc)) as Hfl.
  apply (f_equal length) in Hfl. rewrite length_fmap, length_app in Hfl.
  pose proof (content_length (item n (p_stages c) (p_threads c)) n) as Hle.
  rewrite Hfl. apply Nat.add_le_mono_l, Hle. intros j. unfold item.
  destruct (p_stages c !! j); simpl; [case_match; simpl; lia|lia].
Qed.

Lemma pipe_capacity_witness :
  let c := final (M := pipe_reliable) (pipe_conf 2 1) pipe_demo in
  length (p_sent c) = 2%nat ∧ (length (p_sent c) ≤ length (p_results c) + 3)%nat.
Proof.
  split; [by vm_compute|].
  apply (pipe_capacity 2 1), (reachable_final (M := pipe_reliable)). by vm_compute.
Defined.

(** Each stage has its own critical section, with at most one thread in it. *)
Theorem pipe_mutual_exclusion n clients c k s :
  reachable (M := pipe_reliable) (pipe_conf n clients) c →
  p_stages c !! k = Some s → cnt (holding k) (p_threads c) ≤ 1.
Proof.
  intros Hc Hs. eapply mutex_ok_cnt, (pk_locks n c); [|done].
  by apply (pipe_reachable_ok n clients).
Qed.

Lemma pipe_mutual_exclusion_witness :
  cnt (holding 1) (p_threads (final (M := pipe_reliable) (pipe_conf 2 1) pipe_demo)) ≤ 1.
Proof.
  eapply (pipe_mutual_exclusion 2 1).
  - apply (reachable_final (M := pipe_reliable)). by vm_compute.
  - by vm_compute.
Defined.

(** The side array [queue] is only ten numbers long: each wake-up of a client that
    waits for stage 0 adds its number again, and once the array is full the code
    uses [nextPosition] without a value. *)
Theorem pipe_queue_overflow : can_fault (pipe_conf 3 1) Uninitialised.
Proof.
  exists ([EStart 3 5] ++ replicate 5 (ERun 3 ok) ++ [EStart 3 6; ERun 3 ok; ERun 3 ok; ERun 3 ok] ++
    concat (replicate 10 [ESpurious 3 0; ERun 3 ok])).
  by vm_compute.
Qed.
