(* ===== verification/TtyServer.v ===== *)
(** server.c: a server thread that owns the terminal.

    Clients append requests to the queue of [tty_sever]; the server thread, created
    by the first request, handles them in order.  A synchronous request is waited
    for on its own condition variable and freed by its client, an asynchronous one
    is freed by the server.  The main program starts [CLIENT_THREADS] clients,
    waits until [client_threads] is zero and sends a last request that ends the
    server.  Every pthread call whose status is not zero aborts the program.
    A program counter names the next synchronisation call of a thread. *)

From stdpp Require Import pretty.
From S2P Require Import Prelude Pthread Queue.

Local Open Scope Z_scope.

(** ** Data *)

Definition CLIENT_THREADS : Z := 12.
Inductive operation : Type := REQ_READ | REQ_WRITE | REQ_QUIT.
Definition FORMATTED : nat := 128.   (* char formatted[128] *)

#[export] Instance operation_eq_dec : EqDecision operation.
Proof. solve_decision. Defined.

Record request_t := Request {
  rq_next : ptr;
  rq_operation : operation;
  rq_synchronous : bool;
  rq_done_flag : Z;
  rq_done : cond;
  rq_prompt : string;
  rq_text : string
}.

#[export] Instance request_linked : Linked request_t.
Proof.
  refine {| next := rq_next; set_next p r := Request p (rq_operation r) (rq_synchronous r)
    (rq_done_flag r) (rq_done r) (rq_prompt r) (rq_text r) |}.
  by intros p [].
Defined.

Definition set_done_flag (f : Z) (r : request_t) : request_t := Request (rq_next r)
  (rq_operation r) (rq_synchronous r) f (rq_done r) (rq_prompt r) (rq_text r).
Definition set_done (d : cond) (r : request_t) : request_t := Request (rq_next r)
  (rq_operation r) (rq_synchronous r) (rq_done_flag r) d (rq_prompt r) (rq_text r).
Definition set_text (s : string) (r : request_t) : request_t := Request (rq_next r)
  (rq_operation r) (rq_synchronous r) (rq_done_flag r) (rq_done r) (rq_prompt r) s.

Record tty_server_t := Tty {
  tty_first : ptr;
  tty_last : ptr;
  tty_running : bool;
  tty_mutex : mutex;
  tty_request : cond
}.

(** What a caller of [tty_server_request] is doing: client [n] reads a line, or
    writes its line [s] for the [loops]-th time; main asks the server to quit. *)
Inductive act : Type :=
  | ARead (n : nat)
  | AWrite (n loops : nat) (s : string)
  | AQuit.

(** the arguments of the call *)
Definition act_operation (a : act) : operation :=
  match a with ARead _ => REQ_READ | AWrite _ _ _ => REQ_WRITE | AQuit => REQ_QUIT end.
Definition act_sync (a : act) : bool := match a with AWrite _ _ _ => false | _ => true end.
Definition act_prompt (a : act) : string :=
  match a with ARead n => ("Holy Client " +:+ pretty n +:+ "> ")%string | _ => ""%string end.
(** [sprintf(formatted, ...)] *)
Definition formatted (n loops : nat) (s : string) : string :=
  ("(" +:+ pretty n +:+ "#" +:+ pretty loops +:+ ") " +:+ s)%string.
Definition act_text (a : act) : string :=
  match a with AWrite n loops s => formatted n loops s | _ => ""%string end.

Inductive pc : Type :=
  (* tty_server_routine *)
  | VLock                              (* line 59 *)
  | VWait                              (* line 65 *)
  | VUnlock (r : loc)                  (* line 73 *)
  | VProcess (r : loc)                 (* lines 77-113 *)
  | VDone (r : loc) (o : operation)    (* line 100: lock *)
  | VSignal (r : loc) (o : operation)  (* line 104 *)
  | VDoneUnlock (o : operation)        (* line 107 *)
  | VExit
  (* tty_server_request *)
  | RLock (a : act)                    (* line 130 *)
  | RSignal (a : act) (r : loc)        (* line 186 *)
  | RWait (a : act) (r : loc)          (* line 194 *)
  | RUnlock (a : act) (s : string)     (* line 210; s is the string read *)
  (* client_routine *)
  | CDoneLock                          (* line 238 *)
  | CDoneSignal                        (* line 244 *)
  | CDoneUnlock                        (* line 248 *)
  | CExit
  (* main *)
  | MCreate (count : nat)              (* line 261 *)
  | MLock                              (* line 267 *)
  | MWait                              (* line 272 *)
  | MUnlock                            (* line 276 *)
  | MExit.

(** The machine, with a log of the requests queued and of those taken by the
    server (operation and text), and of what the server wrote. *)
Record tconf := TConf {
  t_tty : tty_server_t;
  t_heap : gmap loc request_t;
  t_clients : Z;              (* client_threads *)
  t_client_mutex : mutex;
  t_clients_done : cond;
  t_threads : list pc;
  t_queued : list (operation * string);
  t_taken : list (operation * string);
  t_output : list string
}.

Section updates.
Variable c : tconf.
Definition set_tty q := TConf q (t_heap c) (t_clients c) (t_client_mutex c)
  (t_clients_done c) (t_threads c) (t_queued c) (t_taken c) (t_output c).
Definition set_heap h := TConf (t_tty c) h (t_clients c) (t_client_mutex c)
  (t_clients_done c) (t_threads c) (t_queued c) (t_taken c) (t_output c).
Definition set_clients n m d := TConf (t_tty c) (t_heap c) n m d (t_threads c) (t_queued c)
  (t_taken c) (t_output c).
Definition goto t p := TConf (t_tty c) (t_heap c) (t_clients c) (t_client_mutex c)
  (t_clients_done c) (<[t := p]> (t_threads c)) (t_queued c) (t_taken c) (t_output c).
Definition spawn p := TConf (t_tty c) (t_heap c) (t_clients c) (t_client_mutex c)
  (t_clients_done c) (t_threads c ++ [p]) (t_queued c) (t_taken c) (t_output c).
Definition log_queued x := TConf (t_tty c) (t_heap c) (t_clients c) (t_client_mutex c)
  (t_clients_done c) (t_threads c) (t_queued c ++ [x]) (t_taken c) (t_output c).
Definition log_taken x := TConf (t_tty c) (t_heap c) (t_clients c) (t_client_mutex c)
  (t_clients_done c) (t_threads c) (t_queued c) (t_taken c ++ [x]) (t_output c).
Definition log_output s := TConf (t_tty c) (t_heap c) (t_clients c) (t_client_mutex c)
  (t_clients_done c) (t_threads c) (t_queued c) (t_taken c) (t_output c ++ [s]).
End updates.

Definition set_mutex m (q : tty_server_t) := Tty (tty_first q) (tty_last q) (tty_running q) m (tty_request q).
Definition set_request v (q : tty_server_t) := Tty (tty_first q) (tty_last q) (tty_running q) (tty_mutex q) v.
Definition set_queue f l (q : tty_server_t) := Tty f l (tty_running q) (tty_mutex q) (tty_request q).
Definition set_running (q : tty_server_t) := Tty (tty_first q) (tty_last q) true (tty_mutex q) (tty_request q).

Definition lock (t : tid) (c : tconf) : res tconf :=
  m ← mutex_lock t (tty_mutex (t_tty c)); Ok (set_tty c (set_mutex m (t_tty c))).
Definition unlock (t : tid) (c : tconf) : res tconf :=
  m ← mutex_unlock t (tty_mutex (t_tty c)); Ok (set_tty c (set_mutex m (t_tty c))).
(** [if (status != 0) err_abort(status, ...)] *)
Definition checked (o : oracle) : res unit := require (o_status o =? 0) (Abort (o_status o)).

(** ** tty_server_routine *)

(** Lines 88-90: drop a final newline. *)
Fixpoint strip_newline (s : string) : string :=
  match s with
  | EmptyString => EmptyString
  | String a EmptyString => if bool_decide (a = newline) then EmptyString else s
  | String a s => String a (strip_newline s)
  end.
(** Lines 84-90: what [fgets(text, 128, stdin)] leaves in the buffer; at most 127
    characters *)
Definition read_text (o : oracle) : res string :=
  match o_line o with
  | None => Ok EmptyString
  | Some s => _ ← await (String.length s <? 128)%nat; Ok (strip_newline s)
  end.

(** Lines 63-72: wait for a request and take it. *)
Definition server_take (t : tid) (c : tconf) : res tconf :=
  let q := t_tty c in
  match tty_first q with
  | None =>
      c ← unlock t c;
      Ok (goto (set_tty c (set_request (cond_block t (tty_request q)) (t_tty c))) t VWait)
  | Some r =>
      x ← load (t_heap c) (Some r);
      '(first, lst) ← dequeue (t_heap c) (tty_first q) (tty_last q);
      Ok (goto (log_taken (set_tty c (set_queue first lst q)) (rq_operation x, rq_text x)) t
            (VUnlock r))
  end.

(** Line 116: the end of a round *)
Definition server_next (t : tid) (o : operation) (c : tconf) : tconf :=
  goto c t (match o with REQ_QUIT => VExit | _ => VLock end).

(** Lines 77-115: do what the request asks for. *)
Definition server_process (t : tid) (r : loc) (o : oracle) (c : tconf) : res tconf :=
  x ← load (t_heap c) (Some r);
  c ← match rq_operation x with
      | REQ_QUIT => Ok c
      | REQ_READ =>
          s ← read_text o; Ok (set_heap c (<[r := set_text s x]> (t_heap c)))
      | REQ_WRITE => Ok (log_output c (rq_text x))
      end;
  if rq_synchronous x then Ok (goto c t (VDone r (rq_operation x)))
  else h ← free (t_heap c) (Some r); Ok (server_next t (rq_operation x) (set_heap c h)).

Definition server_step (t : tid) (p : pc) (o : oracle) (c : tconf) : res tconf :=
  match p with
  | VLock => _ ← checked o; c ← lock t c; server_take t c
  | VWait =>
      _ ← checked o; _ ← await (awake t (tty_request (t_tty c)));
      c ← lock t c; server_take t c
  | VUnlock r => _ ← checked o; c ← unlock t c; Ok (goto c t (VProcess r))
  | VProcess r => server_process t r o c
  | VDone r op =>
      _ ← checked o; c ← lock t c;
      x ← load (t_heap c) (Some r);
      Ok (goto (set_heap c (<[r := set_done_flag 1 x]> (t_heap c))) t (VSignal r op))
  | VSignal r op =>
      _ ← checked o;
      x ← load (t_heap c) (Some r);
      ws ← cond_signal (o_wake o) (rq_done x);
      Ok (goto (set_heap c (<[r := set_done ws x]> (t_heap c))) t (VDoneUnlock op))
  | VDoneUnlock op => _ ← checked o; c ← unlock t c; Ok (server_next t op c)
  | _ => Blocked
  end.

(** ** tty_server_request *)

(** Lines 133-184: create the server if there is none, build the request and
    append it to the queue. *)
Definition request_locked (t : tid) (a : act) (o : oracle) (c : tconf) : res tconf :=
  let c := if tty_running (t_tty c) then c else spawn (set_tty c (set_running (t_tty c))) VLock in
  r ← of_option (Abort 1) (o_alloc o);
  let x := Request None (act_operation a) (act_sync a) 0 [] (act_prompt a) (act_text a) in
  h ← malloc (t_heap c) x r;
  '(h, first, lst) ← enqueue h (tty_first (t_tty c)) (tty_last (t_tty c)) r;
  Ok (goto (log_queued (set_heap (set_tty c (set_queue first lst (t_tty c))) h)
             (act_operation a, act_text a)) t (RSignal a r)).

(** Lines 192-208: wait for the reply, copy it and free the request. *)
Definition request_wait (t : tid) (a : act) (r : loc) (c : tconf) : res tconf :=
  x ← load (t_heap c) (Some r);
  if rq_done_flag x =? 0 then
    c ← unlock t c;
    Ok (goto (set_heap c (<[r := set_done (cond_block t (rq_done x)) x]> (t_heap c))) t (RWait a r))
  else
    _ ← require (bool_decide (rq_done x = [])) BadSync;      (* pthread_cond_destroy *)
    h ← free (t_heap c) (Some r);
    Ok (goto (set_heap c h) t (RUnlock a (rq_text x))).

(** ** client_routine and main: what follows a request *)

(** [sprintf(formatted, ...)] and the call that writes it *)
Definition start_write (t : tid) (n loops : nat) (s : string) (c : tconf) : res tconf :=
  _ ← require (String.length (formatted n loops s) <? FORMATTED)%nat OutOfBounds;
  Ok (goto c t (RLock (AWrite n loops s))).

Definition request_return (t : tid) (a : act) (s : string) (c : tconf) : res tconf :=
  match a with
  | ARead n =>
      if (String.length s =? 0)%nat then Ok (goto c t CDoneLock) else start_write t n 0 s c
  | AWrite n loops s' =>
      if (S loops <? 4)%nat then start_write t n (S loops) s' c else Ok (goto c t (RLock (ARead n)))
  | AQuit => Ok (goto c t MExit)
  end.

Definition request_step (t : tid) (p : pc) (o : oracle) (c : tconf) : res tconf :=
  match p with
  | RLock a => _ ← checked o; c ← lock t c; request_locked t a o c
  | RSignal a r =>
      _ ← checked o;
      ws ← cond_signal (o_wake o) (tty_request (t_tty c));
      let c := set_tty c (set_request ws (t_tty c)) in
      if act_sync a then request_wait t a r c else Ok (goto c t (RUnlock a ""))
  | RWait a r =>
      _ ← checked o;
      x ← load (t_heap c) (Some r);
      _ ← await (awake t (rq_done x));
      c ← lock t c; request_wait t a r c
  | RUnlock a s => _ ← checked o; c ← unlock t c; request_return t a s c
  | _ => Blocked
  end.

(** Lines 238-251 *)
Definition client_done_step (t : tid) (p : pc) (o : oracle) (c : tconf) : res tconf :=
  match p with
  | CDoneLock =>
      _ ← checked o;
      m ← mutex_lock t (t_client_mutex c);
      let c := set_clients c (t_clients c - 1) m (t_clients_done c) in
      Ok (goto c t (if t_clients c <=? 0 then CDoneSignal else CDoneUnlock))
  | CDoneSignal =>
      _ ← checked o;
      ws ← cond_signal (o_wake o) (t_clients_done c);
      Ok (goto (set_clients c (t_clients c) (t_client_mutex c) ws) t CDoneUnlock)
  | CDoneUnlock =>
      _ ← checked o;
      m ← mutex_unlock t (t_client_mutex c);
      Ok (goto (set_clients c (t_clients c) m (t_clients_done c)) t CExit)
  | _ => Blocked
  end.

(** Lines 270-276: [while (client_threads > 0)] *)
Definition main_wait (t : tid) (c : tconf) : res tconf :=
  if 0 <? t_clients c then
    m ← mutex_unlock t (t_client_mutex c);
    Ok (goto (set_clients c (t_clients c) m (cond_block t (t_clients_done c))) t MWait)
  else Ok (goto c t MUnlock).

Definition main_step (t : tid) (p : pc) (o : oracle) (c : tconf) : res tconf :=
  match p with
  | MCreate count =>
      if Z.of_nat count <? t_clients c then
        _ ← checked o; Ok (goto (spawn c (RLock (ARead count))) t (MCreate (S count)))
      else Ok (goto c t MLock)
  | MLock =>
      _ ← checked o; m ← mutex_lock t (t_client_mutex c);
      main_wait t (set_clients c (t_clients c) m (t_clients_done c))
  | MWait =>
      _ ← checked o; _ ← await (awake t (t_clients_done c));
      m ← mutex_lock t (t_client_mutex c);
      main_wait t (set_clients c (t_clients c) m (t_clients_done c))
  | MUnlock =>
      _ ← checked o; m ← mutex_unlock t (t_client_mutex c);
      Ok (goto (set_clients c (t_clients c) m (t_clients_done c)) t (RLock AQuit))
  | _ => Blocked
  end.

(** ** The machine *)

Inductive tevent : Type :=
  | ERun (t : tid) (o : oracle)    (* thread t takes its next step *)
  | ESpurious (t : tid).           (* thread t wakes up without a signal *)

(** a thread leaves whatever it waits for *)
Definition spurious (t : tid) (c : tconf) : tconf :=
  TConf (set_request (cond_leave t (tty_request (t_tty c))) (t_tty c))
    ((λ x, set_done (cond_leave t (rq_done x)) x) <$> t_heap c)
    (t_clients c) (t_client_mutex c) (cond_leave t (t_clients_done c))
    (t_threads c) (t_queued c) (t_taken c) (t_output c).

Definition tstep (c : tconf) (e : tevent) : res tconf :=
  match e with
  | ERun t o =>
      match t_threads c !! t with
      | Some p =>
          match p with
          | VExit | CExit | MExit => Blocked
          | VLock | VWait | VUnlock _ | VProcess _ | VDone _ _ | VSignal _ _ | VDoneUnlock _ =>
              server_step t p o c
          | RLock _ | RSignal _ _ | RWait _ _ | RUnlock _ _ => request_step t p o c
          | CDoneLock | CDoneSignal | CDoneUnlock => client_done_step t p o c
          | MCreate _ | MLock | MWait | MUnlock => main_step t p o c
          end
      | None => Blocked
      end
  | ESpurious t => Ok (spurious t c)
  end.

#[export] Instance tty_machine : Machine tconf tevent := tstep.

(** main at the head of its loop, nothing else started *)
Definition tty_start : tconf :=
  TConf (Tty None None false None []) ∅ CLIENT_THREADS None [] [MCreate 0] [] [] [].

(** ** Invariants *)

(** inside the critical section of the server's mutex *)
Definition holding (p : pc) : bool :=
  match p with
  | VUnlock _ | VSignal _ _ | VDoneUnlock _ | RSignal _ _ | RUnlock _ _ => true
  | _ => false
  end.
(** inside the critical section of [client_mutex] *)
Definition client_holding (p : pc) : bool :=
  match p with CDoneSignal | CDoneUnlock | MUnlock => true | _ => false end.
(** the request a server works on *)
Definition sref (p : pc) : option loc :=
  match p with VUnlock r | VProcess r | VDone r _ | VSignal r _ => Some r | _ => None end.
(** the synchronous request a client waits for *)
Definition cref (p : pc) : option loc :=
  match p with RSignal a r | RWait a r => if act_sync a then Some r else None | _ => None end.

Definition describe (x : request_t) : operation * string := (rq_operation x, rq_text x).
Definition data (h : gmap loc request_t) (ls : list loc) : list (operation * string) :=
  omap (λ l, describe <$> h !! l) ls.

Lemma describe_frame h h' ls :
  (∀ l, l ∈ ls → describe <$> h' !! l = describe <$> h !! l) → data h' ls = data h ls.
Proof.
  induction ls as [|l ls IH]; intros H; simpl; [done|].
  rewrite (H l), IH; [done| |]; set_solver.
Qed.

(** [ls] are the queued requests.  A request belongs to the queue, then to the
    server; a synchronous one also to the client that waits for it, and that client
    frees it only after the server has let go of it. *)
Record requests_ok (h : gmap loc request_t) (first lst : ptr) (ths : list pc)
    (queued taken : list (operation * string)) (ls : list loc) : Prop := {
  ty_queue : queue_rep h first lst ls;
  ty_nodup : NoDup (ls ++ omap sref ths);
  ty_sref : ∀ r, r ∈ omap sref ths → is_Some (h !! r);
  ty_crefs : NoDup (omap cref ths);
  ty_cref : ∀ t p r, ths !! t = Some p → cref p = Some r →
    ∃ x, h !! r = Some x ∧ rq_synchronous x = true ∧
      (rq_done_flag x ≠ 0 → (r ∉ ls) ∧
        ∀ u q, ths !! u = Some q → sref q = Some r → ∃ o, q = VSignal r o);
  ty_done : ∀ r x u, h !! r = Some x → u ∈ rq_done x → ∃ a, ths !! u = Some (RWait a r);
  ty_wait : ∀ t a r, ths !! t = Some (RWait a r) → act_sync a = true;
  ty_fifo : queued = taken ++ data h ls
}.

Section steps.
Context (h : gmap loc request_t) (first lst : ptr) (ths : list pc).
Context (qd tk : list (operation * string)) (ls : list loc) (t : tid) (p : pc).
Hypothesis Ht : ths !! t = Some p.
Hypothesis HI : requests_ok h first lst ths qd tk ls.

Lemma sref_elem u q r : ths !! u = Some q → sref q = Some r → r ∈ omap sref ths.
Proof.
  intros Hu Hq. apply list_elem_of_omap. exists q. split; [|done].
  by eapply list_elem_of_lookup_2.
Qed.

Lemma sref_insert p' :
  sref p' = None ∨ sref p' = sref p →
  (∀ r, r ∈ omap sref (<[t:=p']> ths) → r ∈ omap sref ths) ∧
  NoDup (ls ++ omap sref (<[t:=p']> ths)).
Proof.
  pose proof (omap_insert_perm sref ths t p p' Ht) as Hperm.
  pose proof (ty_nodup _ _ _ _ _ _ _ HI) as Hn.
  intros [Hp'|Hp'].
  - rewrite Hp' in Hperm. simpl in Hperm. split; [intros r; rewrite Hperm; set_solver|].
    rewrite Hperm in Hn. apply list.NoDup_app in Hn as (? & Hd & [_ [_ ?]]%list.NoDup_app).
    apply list.NoDup_app. split_and!; [done|set_solver|done].
  - by rewrite (omap_insert_same sref ths t p p').
Qed.

(** no two threads refer to the same request *)
Lemma sref_unique u q r :
  sref p = Some r → ths !! u = Some q → sref q = Some r → u = t.
Proof.
  intros Hp Hu Hq. destruct (decide (u = t)) as [|Hne]; [done|exfalso].
  pose proof (ty_nodup _ _ _ _ _ _ _ HI) as Hn.
  pose proof (omap_insert_perm sref ths t p VExit Ht) as Hperm. rewrite Hp in Hperm. simpl in Hperm.
  rewrite Hperm in Hn. apply list.NoDup_app in Hn as (_ & _ & [Hno _]%NoDup_cons).
  apply Hno, list_elem_of_omap. exists q. split; [|done].
  apply list_elem_of_lookup. exists u. by rewrite list_lookup_insert_ne.
Qed.
Lemma cref_unique u q r :
  cref p = Some r → ths !! u = Some q → cref q = Some r → u = t.
Proof.
  intros Hp Hu Hq. destruct (decide (u = t)) as [|Hne]; [done|exfalso].
  pose proof (ty_crefs _ _ _ _ _ _ _ HI) as Hn.
  pose proof (omap_insert_perm cref ths t p VExit Ht) as Hperm. rewrite Hp in Hperm. simpl in Hperm.
  rewrite Hperm in Hn. apply NoDup_cons in Hn as [Hno _].
  apply Hno, list_elem_of_omap. exists q. split; [|done].
  apply list_elem_of_lookup. exists u. by rewrite list_lookup_insert_ne.
Qed.
Lemma sref_not_queued r : sref p = Some r → r ∉ ls.
Proof.
  intros Hp Hin. pose proof (ty_nodup _ _ _ _ _ _ _ HI) as Hn.
  apply list.NoDup_app in Hn as (_ & Hd & _). apply (Hd _ Hin). by eapply sref_elem.
Qed.

(** how a step may change a request in place *)
Definition updated (p' : pc) (r : loc) (x x' : request_t) : Prop :=
  rq_next x' = rq_next x ∧ rq_operation x' = rq_operation x ∧
  rq_synchronous x' = rq_synchronous x ∧
  (rq_text x' = rq_text x ∨ sref p = Some r) ∧
  (rq_done_flag x' = rq_done_flag x ∨ (sref p = Some r ∧ ∃ o, p' = VSignal r o)) ∧
  (∀ u, u ∈ rq_done x' → u ∈ rq_done x ∨ (u = t ∧ ∃ a, p' = RWait a r)).

Lemma requests_update h' p' :
  (∀ r x, h !! r = Some x → ∃ x', h' !! r = Some x' ∧ updated p' r x x') →
  (∀ r, h !! r = None → h' !! r = None) →
  sref p' = None ∨ sref p' = sref p → (∀ r o, p = VSignal r o → sref p' = None) →
  cref p' = cref p →
  (∀ a r, p = RWait a r → p' = RWait a r) → (∀ a r, p' = RWait a r → act_sync a = true) →
  requests_ok h' first lst (<[t:=p']> ths) qd tk ls.
Proof.
  intros Hh Hn Hs Hsig Hc Hw Hwa. pose proof HI as [Hq Hnd Hsr Hcs Hcr Hdn Hwt Hf].
  destruct (sref_insert p' Hs) as [Hsub Hnd'].
  split; [| |  | | | | |].
  - eapply queue_rep_frame; [|exact Hq]. intros l x _ Hx.
    destruct (Hh l x Hx) as (x' & Hx' & Hnx & _). by exists x'.
  - done.
  - intros r [x Hx]%Hsub%Hsr. destruct (Hh r x Hx) as (x' & ? & _). by eexists.
  - by rewrite (omap_insert_same cref ths t p p').
  - intros u q r Hu Hqr.
    assert (∃ q0, ths !! u = Some q0 ∧ cref q0 = Some r) as (q0 & Hu0 & Hq0).
    { apply list_lookup_insert_Some in Hu as [(-> & -> & _)|(_ & Hu)]; [|by eauto].
      exists p. split; [done|congruence]. }
    destruct (Hcr u q0 r Hu0 Hq0) as (x & Hx & Hsx & Hfl).
    destruct (Hh r x Hx) as (x' & Hx' & _ & _ & Hsy & _ & Hflag & _).
    exists x'. split; [done|]. split; [congruence|]. intros Hne.
    destruct Hflag as [Heq|[Hpr [o ->]]].
    + rewrite Heq in Hne. destruct (Hfl Hne) as [Hls Hsv]. split; [done|].
      intros v w [(-> & -> & _)|(_ & Hv)]%list_lookup_insert_Some Hw'; [|eauto].
      destruct Hs as [Hs|Hs]; [congruence|]. rewrite Hs in Hw'.
      destruct (Hsv _ _ Ht Hw') as [o ->]. rewrite (Hsig r o eq_refl) in Hs. discriminate.
    + split; [by apply sref_not_queued|].
      intros v w [(-> & <- & _)|(Hvt & Hv)]%list_lookup_insert_Some Hw'; [by eauto|].
      exfalso. apply Hvt. symmetry. by eapply sref_unique.
  - intros r x' u Hx' Hu. destruct (h !! r) as [x|] eqn:Hx; [|rewrite (Hn r Hx) in Hx'; done].
    destruct (Hh r x Hx) as (x2 & Hx2 & _ & _ & _ & _ & _ & Hd). simplify_eq.
    destruct (Hd u Hu) as [Hin|[-> [a ->]]].
    + destruct (Hdn r x u Hx Hin) as [a Ha]. exists a.
      destruct (decide (u = t)) as [->|].
      * rewrite list_lookup_insert_eq by (by eapply lookup_lt_Some). f_equal. apply Hw. congruence.
      * by rewrite list_lookup_insert_ne.
    + exists a. apply list_lookup_insert_eq. by eapply lookup_lt_Some.
  - intros u a r [(_ & Hp & _)|(_ & Hu)]%list_lookup_insert_Some; [eauto|eauto].
  - rewrite Hf. f_equal. symmetry. apply describe_frame. intros l Hl.
    destruct (h !! l) as [x|] eqn:Hx; [|by rewrite (Hn l Hx)].
    destruct (Hh l x Hx) as (x' & -> & _ & Ho & _ & Htx & _). simpl. unfold describe.
    rewrite Ho. destruct Htx as [->|Hsl]; [done|]. exfalso. by apply (sref_not_queued l).
Qed.

(** the thread moves on and leaves the requests alone *)
Lemma requests_goto p' :
  sref p' = None ∨ sref p' = sref p → (∀ r o, p = VSignal r o → sref p' = None) →
  cref p' = cref p →
  (∀ a r, p = RWait a r → p' = RWait a r) → (∀ a r, p' = RWait a r → act_sync a = true) →
  requests_ok h first lst (<[t:=p']> ths) qd tk ls.
Proof.
  intros. apply requests_update; try done.
  intros r x Hx. exists x. split; [done|]. unfold updated. split_and!; auto.
Qed.

Lemma requests_set r x x' p' :
  h !! r = Some x → updated p' r x x' →
  sref p' = None ∨ sref p' = sref p → (∀ r o, p = VSignal r o → sref p' = None) →
  cref p' = cref p →
  (∀ a r, p = RWait a r → p' = RWait a r) → (∀ a r, p' = RWait a r → act_sync a = true) →
  requests_ok (<[r:=x']> h) first lst (<[t:=p']> ths) qd tk ls.
Proof.
  intros Hx Hu. intros. apply requests_update; try done.
  - intros k y Hk. destruct (decide (k = r)) as [->|].
    + rewrite lookup_insert_eq. exists x'. by simplify_eq.
    + rewrite lookup_insert_ne by done. exists y. split; [done|].
      unfold updated. split_and!; auto.
  - intros k Hk. rewrite lookup_insert_ne; [done|congruence].
Qed.

(** the request is freed by the last thread that knows it *)
Lemma requests_free r p' :
  r ∉ ls → (sref p = Some r ∨ r ∉ omap sref ths) →
  (cref p = Some r ∨ r ∉ omap cref ths) →
  sref p' = None → cref p' = None → (∀ a k, p' ≠ RWait a k) →
  (∀ k x, k ≠ r → h !! k = Some x → t ∉ rq_done x) →
  requests_ok (delete r h) first lst (<[t:=p']> ths) qd tk ls.
Proof.
  intros Hls Hsr0 Hcr0 Hs Hc Hw Htd. pose proof HI as [Hq Hnd Hsr Hcs Hcr Hdn Hwt Hf].
  destruct (sref_insert p' (or_introl Hs)) as [Hsub Hnd'].
  pose proof (omap_insert_perm sref ths t p p' Ht) as Hps. rewrite Hs in Hps. simpl in Hps.
  pose proof (omap_insert_perm cref ths t p p' Ht) as Hpc. rewrite Hc in Hpc. simpl in Hpc.
  assert (r ∉ omap sref (<[t:=p']> ths)) as Hs'.
  { destruct Hsr0 as [Hp|?]; [|by intros ?%Hsub]. rewrite Hp in Hps. simpl in Hps.
    rewrite Hps in Hnd. by apply list.NoDup_app in Hnd as (_ & _ & [? _]%NoDup_cons). }
  assert (NoDup (omap cref (<[t:=p']> ths)) ∧ r ∉ omap cref (<[t:=p']> ths)) as [Hcs' Hc'].
  { destruct Hcr0 as [Hp|Hno].
    - rewrite Hp in Hpc. simpl in Hpc. rewrite Hpc in Hcs. by apply NoDup_cons in Hcs as [??].
    - rewrite Hpc in Hcs, Hno. apply list.NoDup_app in Hcs as (_ & _ & ?). set_solver. }
  split; [|done| |done| | | |].
  - by apply queue_rep_delete.
  - intros k Hk. rewrite lookup_delete_ne by (intros ->; done). auto.
  - intros u q k Hu Hqk. assert (k ≠ r) as Hkr.
    { intros ->. apply Hc'. apply list_elem_of_omap. exists q. split; [|done].
      by eapply list_elem_of_lookup_2. }
    apply list_lookup_insert_Some in Hu as [(_ & -> & _)|(Hut & Hu)]; [congruence|].
    destruct (Hcr u q k Hu Hqk) as (x & Hx & Hsx & Hfl). exists x.
    rewrite lookup_delete_ne by done. split_and!; [done..|]. intros Hne.
    destruct (Hfl Hne) as [? Hsv]. split; [done|].
    intros v w [(_ & <- & _)|(_ & Hv)]%list_lookup_insert_Some Hw'; [congruence|eauto].
  - intros k x u Hk Hu. apply lookup_delete_Some in Hk as [Hrk Hk].
    destruct (Hdn k x u Hk Hu) as [a Ha]. exists a. rewrite list_lookup_insert_ne; [done|].
    intros <-. by apply (Htd k x).
  - intros u a k [(_ & Hp & _)|(_ & Hu)]%list_lookup_insert_Some; [by destruct (Hw a k)|eauto].
  - rewrite Hf. f_equal. symmetry. apply describe_frame. intros l Hl.
    rewrite lookup_delete_ne; [done|]. by intros ->.
Qed.
End steps.

Section queue_steps.
Context (h : gmap loc request_t) (first lst : ptr) (ths : list pc).
Context (qd tk : list (operation * string)) (ls : list loc) (t : tid) (p : pc).
Hypothesis Ht : ths !! t = Some p.
Hypothesis HI : requests_ok h first lst ths qd tk ls.

(** the server takes the first request *)
Lemma requests_take r x first' lst' :
  first = Some r → h !! r = Some x → sref p = None → cref p = None → (∀ a k, p ≠ RWait a k) →
  dequeue h first lst = Ok (first', lst') →
  ∃ ls', ls = r :: ls' ∧
    requests_ok h first' lst' (<[t:=VUnlock r]> ths) qd (tk ++ [describe x]) ls'.
Proof.
  intros Hfirst Hx Hs Hc Hw Hdeq.
  pose proof (omap_insert_perm sref ths t p (VUnlock r) Ht) as Hps. rewrite Hs in Hps. simpl in Hps.
  destruct HI as [Hq Hnd Hsr Hcs Hcr Hdn Hwt Hf]. subst first.
  destruct ls as [|r' ls']; [by destruct Hq|].
  destruct (dequeue_spec _ _ _ _ _ Hq) as ([= <-] & f' & k' & Hd & Hrep).
  rewrite Hdeq in Hd. injection Hd as <- <-. exists ls'. split; [done|].
  assert (NoDup (ls' ++ r :: omap sref ths)) as Hnd'.
  { rewrite <- Permutation_middle. done. }
  split; [done| | | | | | |].
  - by rewrite <- Hps.
  - intros k. rewrite <- Hps, elem_of_cons. intros [->|Hk]; [by eexists|auto].
  - by rewrite (omap_insert_same cref ths t p (VUnlock r)).
  - intros u q k [(-> & <- & _)|(_ & Hu)]%list_lookup_insert_Some Hqk; [done|].
    destruct (Hcr u q k Hu Hqk) as (y & Hy & Hsy & Hfl). exists y. split_and!; [done..|].
    intros Hne. destruct (Hfl Hne) as [Hnot Hsv]. split; [set_solver|].
    intros v w [(_ & <- & _)|(_ & Hv)]%list_lookup_insert_Some Hw'; [|eauto].
    injection Hw' as ->. set_solver.
  - intros k y u Hy Hu. destruct (Hdn k y u Hy Hu) as [a Ha]. exists a.
    rewrite list_lookup_insert_ne; [done|]. intros <-. rewrite Ht in Ha.
    injection Ha as ->. by destruct (Hw a k).
  - intros u a k [(_ & Hp & _)|(_ & Hu)]%list_lookup_insert_Some; [done|eauto].
  - rewrite Hf. simpl. rewrite Hx. simpl. by rewrite <- app_assoc.
Qed.

(** a client queues a request *)
Lemma requests_add a r x h' first' lst' :
  sref p = None → cref p = None → (∀ a k, p ≠ RWait a k) →
  rq_next x = None → rq_synchronous x = act_sync a → rq_done_flag x = 0 → rq_done x = [] →
  h !! r = None → enqueue (<[r:=x]> h) first lst r = Ok (h', first', lst') →
  requests_ok h' first' lst' (<[t:=RSignal a r]> ths) (qd ++ [describe x]) tk (ls ++ [r]).
Proof.
  intros Hs Hc Hw Hxn Hxs Hxf Hxd Hr Henq.
  pose proof (omap_insert_perm cref ths t p (RSignal a r) Ht) as Hpc. rewrite Hc in Hpc.
  simpl in Hpc.
  destruct HI as [Hq Hnd Hsr Hcs Hcr Hdn Hwt Hf].
  assert (r ∉ ls) as Hrls.
  { intros Hin. destruct (chain_lookup _ _ _ _ (rep_chain _ _ _ _ Hq) Hin). congruence. }
  assert (queue_rep (<[r:=x]> h) first lst ls) as Hq1 by (by apply queue_rep_alloc).
  destruct (enqueue_spec _ _ _ _ r x Hq1 Hrls) as (h2 & Hq2 & Hrep & Hother & Hkeep);
    [apply lookup_insert_eq|done|].
  rewrite Henq in Hq2. injection Hq2 as -> -> ->.
  (* what the new heap says about every request *)
  assert (h2 !! r = Some x) as Hr2 by (rewrite Hother by done; apply lookup_insert_eq).
  assert (∀ k y, h !! k = Some y → ∃ q, h2 !! k = Some y ∨ h2 !! k = Some (set_next q y)) as Hold.
  { intros k y Hk. apply Hkeep. rewrite lookup_insert_ne; [done|congruence]. }
  assert (∀ k y, h2 !! k = Some y → k = r ∨ ∃ z, h !! k = Some z ∧ rq_done y = rq_done z) as Hback.
  { intros k y Hy. destruct (decide (k = r)) as [|Hne]; [by left|right].
    destruct (h !! k) as [z|] eqn:Hk.
    - exists z. split; [done|]. destruct (Hold k z Hk) as [q [Hz|Hz]]; by simplify_eq.
    - exfalso. rewrite Hother in Hy; [rewrite lookup_insert_ne in Hy by done; congruence|].
      intros Hin. destruct (chain_lookup _ _ _ _ (rep_chain _ _ _ _ Hq) Hin). congruence. }
  assert (∀ k, k ≠ r → describe <$> h2 !! k = describe <$> h !! k) as Hdesc.
  { intros k Hne. destruct (h !! k) as [z|] eqn:Hk.
    - destruct (Hold k z Hk) as [q [->| ->]]; done.
    - rewrite Hother; [by rewrite lookup_insert_ne, Hk|].
      intros Hin. destruct (chain_lookup _ _ _ _ (rep_chain _ _ _ _ Hq) Hin). congruence. }
  assert (r ∉ omap sref ths) as Hrs by (intros Hin; destruct (Hsr r Hin); congruence).
  assert (r ∉ omap cref ths) as Hrc.
  { intros (q & Hq' & Hqr)%list_elem_of_omap. apply list_elem_of_lookup in Hq' as [u Hu].
    destruct (Hcr u q r Hu Hqr) as (? & ? & _). congruence. }
  split; [done| | | | | | |].
  - rewrite (omap_insert_same sref ths t p (RSignal a r)) by done.
    rewrite <- app_assoc. simpl. rewrite <- Permutation_middle. apply NoDup_cons. set_solver.
  - intros k. rewrite (omap_insert_same sref ths t p (RSignal a r)) by done. intros Hk.
    destruct (Hsr k Hk) as [y Hy]. destruct (Hold k y Hy) as [q [->| ->]]; by eexists.
  - rewrite <- Hpc. destruct (act_sync a); simpl; [by apply NoDup_cons|done].
  - intros u q k [(-> & <- & _)|(_ & Hu)]%list_lookup_insert_Some Hqk.
    + simpl in Hqk. destruct (act_sync a) eqn:Ha; [|done]. injection Hqk as <-.
      exists x. split_and!; [done|congruence|]. rewrite Hxf. done.
    + destruct (Hcr u q k Hu Hqk) as (y & Hy & Hsy & Hfl).
      assert (k ≠ r) as Hkr by congruence.
      assert (∃ y', h2 !! k = Some y' ∧ rq_synchronous y' = rq_synchronous y ∧
        rq_done_flag y' = rq_done_flag y) as (y' & Hy' & Hsy' & Hfy').
      { destruct (Hold k y Hy) as [q' [->| ->]]; by eexists. }
      exists y'. rewrite Hsy', Hfy'. split_and!; [done..|]. intros Hne.
      destruct (Hfl Hne) as [Hnot Hsv]. split; [set_solver|].
      intros v w [(_ & <- & _)|(_ & Hv)]%list_lookup_insert_Some Hw'; [done|eauto].
  - intros k y u Hy Hu. destruct (Hback k y Hy) as [->|(z & Hz & Hd)].
    + rewrite Hr2 in Hy. injection Hy as <-. rewrite Hxd in Hu. set_solver.
    + rewrite Hd in Hu. destruct (Hdn k z u Hz Hu) as [b Hb]. exists b.
      rewrite list_lookup_insert_ne; [done|]. intros <-. rewrite Ht in Hb.
      injection Hb as ->. by destruct (Hw b k).
  - intros u b k [(_ & Hp & _)|(_ & Hu)]%list_lookup_insert_Some; [done|eauto].
  - rewrite Hf. unfold data at 2. rewrite omap_app. simpl. rewrite Hr2. simpl.
    rewrite <- app_assoc. f_equal. f_equal. symmetry. apply describe_frame.
    intros l Hl. apply Hdesc. intros ->. done.
Qed.

Lemma requests_spawn q :
  sref q = None → cref q = None → (∀ a k, q ≠ RWait a k) →
  requests_ok h first lst (ths ++ [q]) qd tk ls.
Proof.
  intros Hs Hc Hw. destruct HI as [Hq Hnd Hsr Hcs Hcr Hdn Hwt Hf].
  assert (omap sref (ths ++ [q]) = omap sref ths) as Hos.
  { rewrite omap_app. simpl. rewrite Hs. apply app_nil_r. }
  assert (omap cref (ths ++ [q]) = omap cref ths) as Hoc.
  { rewrite omap_app. simpl. rewrite Hc. apply app_nil_r. }
  assert (∀ u w, (ths ++ [q]) !! u = Some w → ths !! u = Some w ∨ w = q) as Hlook.
  { intros u w [Hu|[_ Hu]]%lookup_app_Some; [by left|right].
    by apply list_lookup_singleton_Some in Hu as [_ ->]. }
  split; rewrite ?Hos, ?Hoc; try done.
  - intros u w k [Hu| ->]%Hlook Hk; [|congruence].
    destruct (Hcr u w k Hu Hk) as (x & Hx & Hsx & Hfl). exists x. split_and!; [done..|].
    intros Hne. destruct (Hfl Hne) as [? Hsv]. split; [done|].
    intros v w' [Hv| ->]%Hlook; [eauto|congruence].
  - intros k x u Hk Hu. destruct (Hdn k x u Hk Hu) as [a Ha]. exists a.
    by apply lookup_app_l_Some.
  - intros u a k [Hu|Hu]%Hlook; [eauto|by destruct (Hw a k)].
Qed.

Lemma requests_spurious u :
  requests_ok ((λ x, set_done (cond_leave u (rq_done x)) x) <$> h) first lst ths qd tk ls.
Proof.
  destruct HI as [Hq Hnd Hsr Hcs Hcr Hdn Hwt Hf].
  split; try done.
  - eapply queue_rep_frame; [|exact Hq]. intros l x _ Hx. rewrite lookup_fmap, Hx. by eexists.
  - intros r Hr. rewrite lookup_fmap. destruct (Hsr r Hr) as [x ->]. by eexists.
  - intros v q r Hv Hqr. destruct (Hcr v q r Hv Hqr) as (x & Hx & Hsx & Hfl).
    rewrite lookup_fmap, Hx. by eexists.
  - intros r x v Hx. rewrite lookup_fmap in Hx. apply fmap_Some in Hx as (y & Hy & ->). simpl.
    rewrite elem_of_cond_leave. intros [Hv _]. by eapply Hdn.
  - rewrite Hf. f_equal. symmetry. apply describe_frame. intros l _. rewrite lookup_fmap.
    by destruct (h !! l).
Qed.
End queue_steps.

Section free_steps.
Context (h : gmap loc request_t) (first lst : ptr) (ths : list pc).
Context (qd tk : list (operation * string)) (ls : list loc) (t : tid).
Hypothesis HI : requests_ok h first lst ths qd tk ls.

(** the server frees an asynchronous request it has handled *)
Lemma requests_free_server r x p' :
  ths !! t = Some (VProcess r) → h !! r = Some x → rq_synchronous x = false →
  sref p' = None → cref p' = None → (∀ a k, p' ≠ RWait a k) →
  requests_ok (delete r h) first lst (<[t:=p']> ths) qd tk ls.
Proof.
  intros Ht Hx Hsx Hs Hc Hw. eapply requests_free; [exact Ht|exact HI| | | |done..|].
  - by eapply sref_not_queued.
  - by left.
  - right. intros (q & Hq & Hqr)%list_elem_of_omap. apply list_elem_of_lookup in Hq as [u Hu].
    destruct (ty_cref _ _ _ _ _ _ _ HI u q r Hu Hqr) as (y & Hy & Hsy & _). congruence.
  - intros k y _ Hy Hin. destruct (ty_done _ _ _ _ _ _ _ HI k y t Hy Hin). congruence.
Qed.

(** a client frees its synchronous request after the reply; the mutex keeps the
    server away *)
Lemma requests_free_client m p a r x p' :
  mutex_ok holding m ths → (m = None ∨ m = Some t) →
  ths !! t = Some p → p = RSignal a r ∨ p = RWait a r → act_sync a = true →
  h !! r = Some x → rq_done_flag x ≠ 0 →
  sref p' = None → cref p' = None → (∀ b k, p' ≠ RWait b k) →
  requests_ok (delete r h) first lst (<[t:=p']> ths) qd tk ls.
Proof.
  intros Hm Hmt Ht Hp Ha Hx Hfl Hs Hc Hw.
  assert (cref p = Some r) as Hcp by (destruct Hp as [-> | ->]; simpl; by rewrite Ha).
  destruct (ty_cref _ _ _ _ _ _ _ HI t p r Ht Hcp) as (y & Hy & _ & Hrel). simplify_eq.
  destruct (Hrel Hfl) as [Hls Hsv].
  eapply requests_free; [exact Ht|exact HI|done| | |done..|].
  - right. intros (q & Hq & Hqr)%list_elem_of_omap. apply list_elem_of_lookup in Hq as [u Hu].
    destruct (Hsv u q Hu Hqr) as [o ->]. pose proof (Hm _ _ Hu eq_refl) as Hmu.
    assert (u = t) as -> by (destruct Hmt; congruence).
    destruct Hp as [-> | ->]; congruence.
  - by left.
  - intros k y Hk Hy' Hin. destruct (ty_done _ _ _ _ _ _ _ HI k y t Hy' Hin) as [b Hb].
    destruct Hp as [-> | ->]; congruence.
Qed.
End free_steps.

Record tty_ok (c : tconf) : Prop := {
  tt_mutex : mutex_ok holding (tty_mutex (t_tty c)) (t_threads c);
  tt_client_mutex : mutex_ok client_holding (t_client_mutex c) (t_threads c);
  tt_requests : ∃ ls, requests_ok (t_heap c) (tty_first (t_tty c)) (tty_last (t_tty c))
    (t_threads c) (t_queued c) (t_taken c) ls
}.

Ltac tstep_cases :=
  unfold tstep, server_step, request_step, client_done_step, main_step, server_take, server_process,
    server_next, read_text, request_locked, request_wait, request_return, start_write, main_wait,
    checked, lock, unlock in *;
  step_cases; sync_inv; subst; simpl in *;
  repeat match goal with
  | |- context [match ?x with _ => _ end] => destruct x eqn:?; simpl in *
  end.

Lemma tty_start_ok : tty_ok tty_start.
Proof.
  split; simpl.
  - intros [|t] p; [|done]. by intros [= <-].
  - intros [|t] p; [|done]. by intros [= <-].
  - exists []. split; simpl; try done; try apply NoDup_nil_2; try set_solver.
    + apply queue_rep_nil.
    + intros [|t] p r; [|done]. by intros [= <-].
    + intros [|t] a r; done.
Qed.

(** a thread that changes a request in place *)
Ltac solve_updated :=
  unfold updated; simpl; split_and!; auto;
  intros u; rewrite ?elem_of_cond_block; eauto; naive_solver.

Lemma tty_stable : stable tty_ok.
Proof.
  intros c e c' [Hm Hcm (ls & HI)] Hstep. change (tstep c e = Ok c') in Hstep.
  destruct c as [[f la ru m rq] h n cm cd ths qd tk ou]. simpl in *.
  destruct e; tstep_cases.
  all: split; simpl; try solve [solve_mutex_ok].
  all: rewrite ?delete_insert_eq; simplify_eq.
  all: try match goal with H : _ !! _ = Some (RWait _ _) |- _ =>
         pose proof (ty_wait _ _ _ _ _ _ _ HI _ _ _ H) as Hsync end.
  all: try solve [exists ls; eapply requests_goto; [eassumption|exact HI|simpl; auto|
         simpl; congruence|simpl; by rewrite ?Heqb, ?Hsync|done|done]].
  all: try solve [edestruct requests_take as (ls' & _ & ?);
         [eassumption|exact HI|done|eassumption|done|done|done|eassumption|]; by exists ls'].
  all: try solve [exists ls; eapply requests_set; [eassumption|exact HI|eassumption|solve_updated|
         simpl; auto|simpl; congruence|simpl; by rewrite ?Heqb, ?Hsync|
         congruence|simpl; congruence]].
  all: try solve [exists ls; eapply requests_free_server; [exact HI|eassumption|eassumption|done..]].
  all: try match goal with H : malloc _ _ _ = Ok _ |- _ => apply malloc_Ok in H as [? ->] end.
  - (* the client's request is done *)
    exists ls. eapply requests_set; [eassumption|exact HI|eassumption| |by right|done..].
    unfold updated. simpl. split_and!; eauto.
  - exists ls. eapply requests_set; [eassumption|exact HI|eassumption| |by left|done..].
    unfold updated. simpl. split_and!; auto. intros u Hu. left.
    match goal with H : cond_signal _ _ = Ok _ |- _ => by eapply cond_signal_sub end.
  - exists (ls ++ [x1]). 
    eapply (requests_add _ _ _ _ _ _ _ _ _ Heqo0 HI a _ (Request None (act_operation a) (act_sync a)
      0 [] (act_prompt a) (act_text a))); [done..|eassumption].
  - exists (ls ++ [x1]). 
    eapply (requests_add _ _ _ (ths ++ [VLock]) _ _ _ _ _) with (x := Request None
      (act_operation a) (act_sync a) 0 [] (act_prompt a) (act_text a));
      [by apply lookup_app_l_Some|apply requests_spawn; [exact HI|done..]|done..|eassumption].
  - exists ls. eapply requests_free_client; [exact HI|exact Hm|right; by eapply Hm|eassumption|by left|
      done|eassumption|by apply Z.eqb_neq|done..].
  - exists ls. eapply requests_free_client; [exact HI|exact Hm|by left|eassumption|by right|
      done|eassumption|by apply Z.eqb_neq|done..].
  - exists ls. eapply (requests_goto _ _ _ (ths ++ [RLock (ARead count)]));
      [by apply lookup_app_l_Some|apply requests_spawn; [exact HI|done..]|simpl; auto|done..].
  - exists ls. by apply requests_spurious.
Qed.

(** ** Memory safety *)

(** nobody else waits for the reply to a client's request *)
Lemma done_empty h first lst ths qd tk ls t p a r x :
  requests_ok h first lst ths qd tk ls → ths !! t = Some p →
  p = RSignal a r ∨ p = RWait a r → act_sync a = true → h !! r = Some x →
  (p = RWait a r → t ∉ rq_done x) → rq_done x = [].
Proof.
  intros HI Ht Hp Ha Hx Haw. destruct (rq_done x) as [|u us] eqn:Hd; [done|exfalso].
  destruct (ty_done _ _ _ _ _ _ _ HI r x u Hx) as [b Hb]; [rewrite Hd; by left|].
  pose proof (ty_wait _ _ _ _ _ _ _ HI u b r Hb) as Hbs.
  assert (cref p = Some r) as Hcp by (destruct Hp as [-> | ->]; simpl; by rewrite Ha).
  assert (u = t) as ->.
  { eapply cref_unique; [exact Ht|exact HI|exact Hcp|exact Hb|]. simpl. by rewrite Hbs. }
  destruct Hp as [-> | ->]; [congruence|]. apply (Haw eq_refl). by left.
Qed.

Lemma queue_head_allocated h r lst ths qd tk ls :
  requests_ok h (Some r) lst ths qd tk ls → h !! r = None → False.
Proof.
  intros [[Hc _ _] _ _ _ _ _ _ _] Hr. destruct ls as [|l ls]; [done|].
  destruct Hc as ([= <-] & x & Hx & _). congruence.
Qed.

(** appending a fresh request does not fail *)
Lemma request_no_fault h first lst ths qd tk ls r x f :
  requests_ok h first lst ths qd tk ls → h !! r = None → rq_next x = None →
  enqueue (<[r:=x]> h) first lst r ≠ Fault f.
Proof.
  intros [Hq _ _ _ _ _ _ _] Hr Hx.
  destruct (enqueue_spec (<[r:=x]> h) first lst ls r x) as (h' & -> & _); [| |by rewrite lookup_insert_eq|done|done].
  - by apply queue_rep_alloc.
  - intros Hin. destruct (chain_lookup _ _ _ _ (rep_chain _ _ _ _ Hq) Hin). congruence.
Qed.

Definition acceptable (f : fault) : Prop := f = OutOfBounds ∨ ∃ s, f = Abort s.

Lemma tty_avoids f : ¬ acceptable f → avoids tty_ok f.
Proof.
  intros Hf c e [Hm Hcm (ls & HI)] Hstep. change (tstep c e = Fault f) in Hstep.
  destruct c as [[fi la ru m rq] h n cm cd ths qd tk ou]. simpl in *.
  assert (∀ t p r, ths !! t = Some p → sref p = Some r → h !! r = None → False) as Hsr.
  { intros t p r Ht Hp Hr. destruct (ty_sref _ _ _ _ _ _ _ HI r); [by eapply sref_elem|congruence]. }
  assert (∀ t p r, ths !! t = Some p → cref p = Some r → h !! r = None → False) as Hcr.
  { intros t p r Ht Hp Hr. destruct (ty_cref _ _ _ _ _ _ _ HI t p r Ht Hp) as (? & ? & _). congruence. }
  destruct e; unfold tstep, server_step, request_step, client_done_step, main_step, server_take,
    server_process, server_next, read_text, request_locked, request_wait, request_return,
    start_write, main_wait, checked, lock, unlock, load, free, malloc, dequeue, of_option, mutex_lock,
    mutex_unlock, cond_signal, require, await, choose in Hstep.
  all: repeat (simpl in Hstep; try discriminate Hstep;
    match type of Hstep with context [match ?x with _ => _ end] => destruct x eqn:? end).
  all: simpl in Hstep; try discriminate Hstep.
  all: try (injection Hstep as <-).
  all: try (apply Hf; unfold acceptable; by eauto).
  all: repeat match goal with
       | H : bool_decide _ = false |- _ => apply bool_decide_eq_false in H
       | H : bool_decide _ = true |- _ => apply bool_decide_eq_true in H
       end; subst; simplify_eq.
  all: try match goal with
       | H : ?m ≠ Some ?t, H1 : mutex_ok holding _ _, H2 : mutex_ok client_holding _ _, Hp : _ !! ?t = Some _ |- _ =>
           apply H; first [by apply (H1 _ _ Hp)|by apply (H2 _ _ Hp)]
       | Hr : _ !! ?r = None, Hp : _ !! ?t = Some _ |- _ => by match goal with Hk : ∀ _ _ _, _ → sref _ = _ → _ |- _ => eapply Hk end
       end.
  all: try match goal with
       | H : <[?r:=_]> _ !! ?r = None |- _ => by rewrite lookup_insert_eq in H
       | H : enqueue _ _ _ _ ≫= _ = _, H1 : requests_ok _ _ _ _ _ _ _ |- _ =>
           apply bind_Fault in H as [H|([[??]?] & _ & H)];
             [by eapply request_no_fault in H|discriminate H]
       | H1 : requests_ok _ _ _ _ _ _ _, H : _ !! _ = None |- _ =>
           by eapply queue_head_allocated
       end.
  all: try match goal with H1 : requests_ok _ _ _ _ _ _ _, H : _ !! _ = Some (RWait _ _) |- _ =>
         pose proof (ty_wait _ _ _ _ _ _ _ H1 _ _ _ H) as Hsync end.
  all: try match goal with
       | Hr : _ !! ?r = None, Hp : _ !! _ = Some _, Hcr : ∀ _ _ _, _ → cref _ = _ → _ |- _ =>
           eapply (Hcr _ _ r Hp); [simpl; by match goal with Hs : act_sync _ = true |- _ => rewrite Hs end|done]
       | Hd : rq_done _ ≠ [], H1 : requests_ok _ _ _ _ _ _ _ |- _ =>
           apply Hd; eapply done_empty; [exact H1|eassumption|first [by left|by right]|done|done|];
           first [done|by intros _; apply awake_true]
       end.
Qed.

Lemma tty_reachable_ok c : reachable tty_start c → tty_ok c.
Proof. intros. by eapply invariant_run; [apply tty_start_ok|apply tty_stable|]. Qed.

(** what a client may print: [sprintf] stays inside [formatted] *)
Lemma formatted_length n loops s :
  String.length (formatted n loops s) =
    (4 + String.length (pretty n) + String.length (pretty loops) + String.length s)%nat.
Proof.
  unfold formatted. rewrite !string_length_app. simpl. lia.
Qed.
Lemma pretty_length_small n : (n < 100)%nat → (1 ≤ String.length (pretty n) ≤ 2)%nat.
Proof.
  intros Hn.
  assert (forallb (λ m, (1 <=? String.length (pretty m)) && (String.length (pretty m) <=? 2))%nat
    (seq 0 100) = true) as Hall by by vm_compute.
  rewrite forallb_forall in Hall. specialize (Hall n).
  apply andb_prop in Hall as [?%Nat.leb_le ?%Nat.leb_le]; [lia|]. apply in_seq. lia.
Qed.

(** ** Properties *)

(** C11: The server and its clients are memory safe under every interleaving: the only
    faults a run can have are an overflow of a client's [formatted] buffer and an
    abort after a failed call - no request is used after it is freed or freed
    twice, no NULL is dereferenced, no mutex is unlocked by another thread, and no
    condition variable is destroyed while a thread waits on it. *)
Theorem tty_memory_safe f : can_fault tty_start f → f = OutOfBounds ∨ ∃ s, f = Abort s.
Proof.
  intros Hc. destruct (decide (f = OutOfBounds)) as [|Hne]; [by left|right].
  destruct f as [| | | | | |s]; try done; [..|by exists s]; exfalso;
    (eapply (invariant_no_fault tty_ok);
      [apply tty_start_ok|apply tty_stable|apply tty_avoids|exact Hc]);
    intros [|[? ?]]; done.
Qed.

(** the server (thread 2) handles the request of client thread t, which reads
    the line of [o] *)
Definition tty_read (t : nat) (o : oracle) : list tevent :=
  [ERun t (ok_alloc 0); ERun t ok; ERun 2 ok; ERun 2 ok; ERun 2 o; ERun 2 ok;
   ERun 2 (ok_wake t); ERun 2 ok; ERun t ok; ERun t ok].

Lemma tty_memory_safe_witness :
  run tty_start (ERun 0 ok :: tty_read 1 (ok_line (pretty (10 ^ 124)))) = Fault OutOfBounds ∧
  (OutOfBounds = OutOfBounds ∨ ∃ s, OutOfBounds = Abort s).
Proof.
  split; [by vm_compute|]. apply (tty_memory_safe OutOfBounds).
  exists (ERun 0 ok :: tty_read 1 (ok_line (pretty (10 ^ 124)))). by vm_compute.
Defined.

(** C36: The server is first-in first-out: the requests queued so far are, in the same
    order, those it has taken followed by those in the queue, and no two threads
    ever hold the server's mutex. *)
Theorem tty_fifo c :
  reachable tty_start c →
  cnt holding (t_threads c) ≤ 1 ∧
  ∃ ls, chain (t_heap c) (tty_first (t_tty c)) ls ∧
    t_queued c = t_taken c ++ data (t_heap c) ls.
Proof.
  intros Hc. destruct (tty_reachable_ok c Hc) as [Hm _ (ls & [[Hch _ _] _ _ _ _ _ _ Hf])].
  split; [by eapply mutex_ok_cnt|]. by exists ls.
Qed.

Lemma tty_fifo_witness :
  let c := final tty_start (ERun 0 ok :: tty_read 1 (ok_line "hello")) in
  t_taken c = [(REQ_READ, ""%string)] ∧
  cnt holding (t_threads c) ≤ 1 ∧
  ∃ ls, chain (t_heap c) (tty_first (t_tty c)) ls ∧
    t_queued c = t_taken c ++ data (t_heap c) ls.
Proof.
  split; [by vm_compute|]. apply tty_fifo, reachable_final. by vm_compute.
Defined.

(** A client that still waits for its reply waits for a live synchronous request, and
    once that request is marked done neither the queue nor the server (beyond the
    signal it is about to send) refers to it: the client is the one who frees it. *)
Theorem tty_sync_ownership c t a r :
  reachable tty_start c → t_threads c !! t = Some (RWait a r) →
  ∃ ls x, chain (t_heap c) (tty_first (t_tty c)) ls ∧ t_heap c !! r = Some x ∧
    rq_synchronous x = true ∧
    (rq_done_flag x ≠ 0 → (r ∉ ls) ∧
      ∀ u q, t_threads c !! u = Some q → sref q = Some r → ∃ o, q = VSignal r o) ∧
    (∀ u b, t_threads c !! u = Some (RWait b r) → u = t).
Proof.
  intros Hc Ht. destruct (tty_reachable_ok c Hc) as [_ _ (ls & HI)].
  pose proof (ty_wait _ _ _ _ _ _ _ HI _ _ _ Ht) as Ha.
  destruct (ty_cref _ _ _ _ _ _ _ HI t _ r Ht) as (x & Hx & Hsx & Hfl); [simpl; by rewrite Ha|].
  exists ls, x. destruct (ty_queue _ _ _ _ _ _ _ HI) as [Hch _ _].
  split_and!; [done..|]. intros u b Hu. pose proof (ty_wait _ _ _ _ _ _ _ HI _ _ _ Hu) as Hb.
  eapply (cref_unique _ _ _ _ _ _ _ _ _ Ht HI); [simpl; by rewrite Ha|exact Hu|simpl; by rewrite Hb].
Qed.

Lemma tty_sync_ownership_witness :
  let c := final tty_start (ERun 0 ok :: take 8 (tty_read 1 (ok_line "hello"))) in
  ∃ ls x, chain (t_heap c) (tty_first (t_tty c)) ls ∧ t_heap c !! 0%nat = Some x ∧
    rq_synchronous x = true ∧
    (rq_done_flag x ≠ 0 → (0%nat ∉ ls) ∧
      ∀ u q, t_threads c !! u = Some q → sref q = Some 0%nat → ∃ o, q = VSignal 0 o) ∧
    (∀ u b, t_threads c !! u = Some (RWait b 0) → u = 1%nat).
Proof.
  apply (tty_sync_ownership _ 1 (ARead 0) 0); [apply reachable_final|]; by vm_compute.
Defined.

(** The clients' [formatted] buffer holds every line of up to 120 characters and
    overflows on every line of 122 or more. *)
Theorem tty_formatted_fits t n loops s c :
  (n < 100)%nat → (loops < 4)%nat →
  ((String.length s ≤ 120)%nat → ∃ c', start_write t n loops s c = Ok c') ∧
  ((122 < String.length s)%nat → start_write t n loops s c = Fault OutOfBounds).
Proof.
  intros Hn Hl. pose proof (pretty_length_small n Hn).
  pose proof (pretty_length_small loops ltac:(lia)).
  assert (String.length (pretty loops) = 1%nat) as Hl1.
  { do 4 (destruct loops as [|loops]; [by vm_compute|]). lia. }
  unfold start_write. pose proof (formatted_length n loops s) as Hlen. split; intros Hs.
  - rewrite (proj2 (Nat.ltb_lt _ _)) by (unfold FORMATTED; lia). by eexists.
  - rewrite (proj2 (Nat.ltb_ge _ _)) by (unfold FORMATTED; lia). done.
Qed.

Lemma tty_formatted_fits_witness :
  ((String.length "hello" ≤ 120)%nat → ∃ c', start_write 1 11 3 "hello" tty_start = Ok c') ∧
  ((122 < String.length "hello")%nat → start_write 1 11 3 "hello" tty_start = Fault OutOfBounds).
Proof. apply (tty_formatted_fits 1 11 3 "hello" tty_start); lia. Defined.

(** main creates clients while the first one is already running: the client
    gets end of file and terminates before the loop of main is over *)
Definition tty_client (t : nat) : list tevent := tty_read t ok ++ [ERun t ok; ERun t ok].
Definition tty_race : list tevent :=
  ERun 0 ok :: tty_client 1 ++ replicate 12 (ERun 0 ok) ++
  concat (map tty_client (seq 3 10)) ++ [ERun 2 ok].

(** The loop of main that creates the clients tests [client_threads], which the
    clients decrement: when one of them finishes first, only eleven are started,
    [client_threads] stays at one after all of them have terminated, and the
    program is deadlocked. *)
Theorem tty_client_count_race :
  ∃ c, reachable tty_start c ∧ t_threads c !! 0%nat = Some MWait ∧ t_clients c = 1 ∧
    (∀ t o, o_status o = 0 → tstep c (ERun t o) = Blocked).
Proof.
  exists (final tty_start tty_race).
  split; [apply reachable_final; by vm_compute|].
  assert (t_threads (final tty_start tty_race) =
    [MWait; CExit; VWait] ++ replicate 10 CExit) as Hths by by vm_compute.
  split; [by rewrite Hths|]. split; [by vm_compute|].
  intros t o Ho. unfold tstep. rewrite Hths.
  do 13 (destruct t as [|t]; [simpl; unfold checked; rewrite ?Ho; by vm_compute|]). done.
Qed.
