(* ===== verification/Barrier.v ===== *)
(** barrier.c, barrier.h, barrier_main.c: a barrier and a program that uses it.

    [barrier_wait] is shared by the two files (barrier_main.c holds a copy).  The
    machine of the section [barrier] runs any client: [after] is what a thread does
    between the return of one [barrier_wait] and the next call.  The client of
    barrier_main.c, [thread_routine], is one instance.  [cycle] is an unsigned long
    in the structure and an int in [barrier_wait]; both widths are kept. *)

From S2P Require Import Prelude Explore Pthread.

Local Open Scope Z_scope.

(** ** Data and initialisation *)

Definition BARRIER_VALID : Z := 0xdbcafe.

Record barrier_t := Barrier {
  b_mutex : mutex;
  b_cv : cond;
  b_valid : Z;
  b_threshold : Z;
  b_counter : Z;
  b_cycle : Z      (* unsigned long *)
}.

Section setters.
Variable b : barrier_t.
Definition set_mutex m := Barrier m (b_cv b) (b_valid b) (b_threshold b) (b_counter b) (b_cycle b).
Definition set_cv v := Barrier (b_mutex b) v (b_valid b) (b_threshold b) (b_counter b) (b_cycle b).
Definition set_valid v := Barrier (b_mutex b) (b_cv b) v (b_threshold b) (b_counter b) (b_cycle b).
Definition set_counter n := Barrier (b_mutex b) (b_cv b) (b_valid b) (b_threshold b) n (b_cycle b).
Definition set_cycle n := Barrier (b_mutex b) (b_cv b) (b_valid b) (b_threshold b) (b_counter b) n.
End setters.

(** [s1] and [s2] are what pthread_mutex_init and pthread_cond_init return; the
    fields written before a failure keep their values. *)
Definition barrier_int (b : barrier_t) (count s1 s2 : Z) : Z * barrier_t :=
  let b := set_cycle (set_counter (Barrier (b_mutex b) (b_cv b) (b_valid b) count
             (b_counter b) (b_cycle b)) count) 0 in
  if negb (s1 =? 0) then (s1, b)
  else if negb (s2 =? 0) then (s2, set_mutex b None)
  else (0, set_valid (set_cv (set_mutex b None) []) BARRIER_VALID).

(** [sl], [su], [s1] and [s2] are what the lock, the unlock and the two destroys
    return.  Destroying a condition variable with waiters is a fault. *)
Definition barrier_destroy (t : tid) (b : barrier_t) (sl su s1 s2 : Z) : res (Z * barrier_t) :=
  if negb (b_valid b =? BARRIER_VALID) then Ok (EINVAL, b)
  else if negb (sl =? 0) then Ok (sl, b)
  else
    m ← mutex_lock t (b_mutex b);
    let b := set_mutex b m in
    if negb (b_counter b =? b_threshold b) then
      m ← mutex_unlock t (b_mutex b); Ok (EBUSY, set_mutex b m)
    else
      let b := set_valid b 0 in
      if negb (su =? 0) then Ok (su, b)
      else
        m ← mutex_unlock t (b_mutex b);
        _ ← require (bool_decide (b_cv b = [])) BadSync;
        Ok (if negb (s1 =? 0) then s1 else s2, set_mutex b m).

(** ** barrier_wait *)

Inductive pc : Type :=
  | BCall                       (* about to call barrier_wait *)
  | BLock                       (* line 55: lock *)
  | BBroadcast                  (* line 63 *)
  | BWait (cycle : Z)           (* line 75; cycle is the local int *)
  | BUnlock (status : Z)        (* line 84 *)
  | BReturn (status : Z)        (* back in the client *)
  | BStop.                      (* the client's thread is over *)

(** [S] is the client's state.  The last two members are for the statements: how
    many barrier_wait calls each thread has entered, and what the calls that are
    over have returned: the thread, the number of the call, the result. *)
Record bconf (S : Type) := BConf {
  bc_barrier : barrier_t;
  bc_client : S;
  bc_threads : list pc;
  bc_arrived : list nat;
  bc_log : list (tid * nat * Z)
}.
Arguments BConf {S}.
Arguments bc_barrier {S}.
Arguments bc_client {S}.
Arguments bc_threads {S}.
Arguments bc_arrived {S}.
Arguments bc_log {S}.

Section barrier.
Context {S : Type}.
(** the client: thread, status returned by barrier_wait, state; the new state
    and whether the thread calls barrier_wait again *)
Variable after : tid → Z → S → res (S * bool).
Implicit Types (c : bconf S) (t : tid).

Definition goto t (p : pc) c : bconf S := BConf (bc_barrier c) (bc_client c)
  (<[t := p]> (bc_threads c)) (bc_arrived c) (bc_log c).
Definition upd (f : barrier_t → barrier_t) c : bconf S := BConf (f (bc_barrier c))
  (bc_client c) (bc_threads c) (bc_arrived c) (bc_log c).
Definition arrive t c : bconf S := BConf (bc_barrier c) (bc_client c) (bc_threads c)
  (alter Datatypes.S t (bc_arrived c)) (bc_log c).
(** [return status] *)
Definition ret t (status : Z) c : bconf S := BConf (bc_barrier c) (bc_client c)
  (<[t := BReturn status]> (bc_threads c)) (bc_arrived c)
  (bc_log c ++ [(t, default 0%nat (bc_arrived c !! t), status)]).

(** Lines 73-77: [while (cycle == barrier->cycle)], the int is converted to
    unsigned long for the comparison. *)
Definition barrier_wait_loop t (cycle : Z) c : res (bconf S) :=
  if ulong cycle =? b_cycle (bc_barrier c) then
    m ← mutex_unlock t (b_mutex (bc_barrier c));
    Ok (goto t (BWait cycle)
          (upd (λ b, set_cv (set_mutex b m) (cond_block t (b_cv b))) c))
  else Ok (goto t (BUnlock 0) c).

(** Lines 58-73 *)
Definition barrier_wait_locked t c : res (bconf S) :=
  let cycle := int32 (b_cycle (bc_barrier c)) in
  let c := upd (λ b, set_counter b (b_counter b - 1)) (arrive t c) in
  if b_counter (bc_barrier c) =? 0 then
    Ok (goto t BBroadcast
      (upd (λ b, set_counter (set_cycle b (ulong (b_cycle b + 1))) (b_threshold b)) c))
  else barrier_wait_loop t cycle c.

Definition barrier_wait_step t (p : pc) (o : oracle) c : res (bconf S) :=
  match p with
  | BCall =>
      if negb (b_valid (bc_barrier c) =? BARRIER_VALID) then Ok (ret t EINVAL c)
      else Ok (goto t BLock c)
  | BLock =>
      if negb (o_status o =? 0) then Ok (ret t (o_status o) c)
      else
        m ← mutex_lock t (b_mutex (bc_barrier c));
        barrier_wait_locked t (upd (λ b, set_mutex b m) c)
  | BBroadcast =>
      if negb (o_status o =? 0) then Ok (goto t (BUnlock (o_status o)) c)
      else Ok (goto t (BUnlock (-1)) (upd (λ b, set_cv b (cond_broadcast (b_cv b))) c))
  | BWait cycle =>
      if negb (o_status o =? 0) then
        m ← mutex_lock t (b_mutex (bc_barrier c));
        Ok (goto t (BUnlock (o_status o))
              (upd (λ b, set_cv (set_mutex b m) (cond_leave t (b_cv b))) c))
      else
        _ ← await (awake t (b_cv (bc_barrier c)));
        m ← mutex_lock t (b_mutex (bc_barrier c));
        barrier_wait_loop t cycle (upd (λ b, set_mutex b m) c)
  | BUnlock status =>
      m ← mutex_unlock t (b_mutex (bc_barrier c));
      Ok (ret t status (upd (λ b, set_mutex b m) c))
  | BReturn status =>
      '(s, again) ← after t status (bc_client c);
      Ok (goto t (if again : bool then BCall else BStop)
            (BConf (bc_barrier c) s (bc_threads c) (bc_arrived c) (bc_log c)))
  | BStop => Blocked
  end.

Inductive bevent : Type :=
  | ERun (t : tid) (o : oracle)
  | ESpurious (t : tid).

Definition bstep c (e : bevent) : res (bconf S) :=
  match e with
  | ERun t o =>
      match bc_threads c !! t with Some p => barrier_wait_step t p o c | None => Blocked end
  | ESpurious t => Ok (upd (λ b, set_cv b (cond_leave t (b_cv b))) c)
  end.

(** calls do not fail *)
Definition reliable c (e : bevent) : bool :=
  match e with ERun _ o => o_status o =? 0 | _ => true end.
Definition barrier_machine : Machine (bconf S) bevent := restrict (M := bstep) reliable.
End barrier.

(** [n] threads and a barrier that barrier_int has set up for them *)
Definition barrier_conf {S} (n : nat) (s : S) : bconf S :=
  BConf (barrier_int (Barrier None [] 0 0 0 0) (Z.of_nat n) 0 0).2 s
    (replicate n BCall) (replicate n O) [].

(** ** thread_routine of barrier_main.c *)

Definition THREADS : nat := 2.
Definition ARRAY : nat := 6.
Definition INLOOPS : nat := 1.
Definition OUTLOOPS : nat := 1.

(** [out_loop] and which of the two barrier_wait calls of its round the thread is
    in are the thread's local state. *)
Record thread_t := Thread {
  th_out_loop : nat;
  th_second : bool;
  th_increment : Z;
  th_arrays : list Z
}.

(** Lines 123-128 *)
Definition add_increment (x : thread_t) : thread_t :=
  Thread (th_out_loop x) (th_second x) (th_increment x)
    (Nat.iter INLOOPS (map (λ a, int32 (a + th_increment x))) (th_arrays x)).
(** Lines 138-139 *)
Definition bump_increment (x : thread_t) : thread_t :=
  Thread (th_out_loop x) (th_second x) (int32 (th_increment x + 1)) (th_arrays x).

Definition thread_routine (t : tid) (status : Z) (ths : list thread_t)
    : res (list thread_t * bool) :=
  self ← of_option OutOfBounds (ths !! t);
  if negb (th_second self) then
    (* after the first barrier of the round *)
    let self := add_increment self in
    Ok (<[t := Thread (th_out_loop self) true (th_increment self) (th_arrays self)]> ths, true)
  else
    _ ← require (negb (0 <? status)) (Abort status);
    let ths := if status =? -1 then map bump_increment ths else ths in
    Ok (alter (λ x, Thread (S (th_out_loop x)) false (th_increment x) (th_arrays x)) t ths,
        (S (th_out_loop self) <=? OUTLOOPS)%nat).

(** Lines 151-156 *)
Definition thread_init (i : nat) : thread_t :=
  Thread 0 false (Z.of_nat i) (map (λ j, Z.of_nat j + 1) (seq 0 ARRAY)).
Definition barrier_main : bconf (list thread_t) :=
  barrier_conf THREADS (map thread_init (seq 0 THREADS)).

(** ** The invariant of the barrier *)

Definition holding (p : pc) : bool := match p with BBroadcast | BUnlock _ => true | _ => false end.
Definition waits (p : pc) : bool := match p with BWait _ => true | _ => false end.

(** The barrier is in its [k]-th cycle: the threads inside have entered [k + 1]
    calls and wait for this cycle, all others have entered [k] calls; a released
    thread may still be waiting to run. *)
Definition position (k : nat) (p : pc) (a : nat) : Prop :=
  match p with
  | BWait cycle => (1 ≤ a)%nat ∧ cycle = Z.of_nat a - 1 ∧ (a = k ∨ a = S k)
  | _ => a = k
  end.

Record barrier_ok {S} (n : nat) (c : bconf S) (k : nat) : Prop := {
  bk_pos : (1 ≤ n)%nat;
  bk_valid : b_valid (bc_barrier c) = BARRIER_VALID;
  bk_threshold : b_threshold (bc_barrier c) = Z.of_nat n;
  bk_cycle : b_cycle (bc_barrier c) = Z.of_nat k;
  bk_bound : Z.of_nat k ≤ 2 ^ 31;
  bk_length : length (bc_threads c) = n;
  bk_arrived : length (bc_arrived c) = n;
  bk_mutex : mutex_ok holding (b_mutex (bc_barrier c)) (bc_threads c);
  bk_position : ∀ t p a, bc_threads c !! t = Some p → bc_arrived c !! t = Some a → position k p a;
  bk_counter : b_counter (bc_barrier c) =
    Z.of_nat n - cnt (λ a, bool_decide (a = Datatypes.S k)) (bc_arrived c);
  bk_counter_pos : 1 ≤ b_counter (bc_barrier c);
  bk_cv : cv_ok waits (b_cv (bc_barrier c)) (bc_threads c);
  bk_wakeup : ∀ u p, u ∈ b_cv (bc_barrier c) → bc_threads c !! u = Some p →
    bc_arrived c !! u = Some k → someone (λ _ p, p = BBroadcast) (bc_threads c)
}.

Lemma alter_as_insert (f : nat → nat) (l : list nat) (i x : nat) : l !! i = Some x → alter f i l = <[i:=f x]> l.
Proof.
  revert i; induction l as [|y l IH]; intros [|i]; simpl; try done.
  - by intros [= ->].
  - intros Hx. f_equal. by apply IH.
Qed.

Section steps.
Context {S : Type} (after : tid → Z → S → res (S * bool)).

(** steps that change neither the counter nor the cycle *)
Lemma barrier_goto n k (c : bconf S) t p b' (s' : S) p' log' :
  barrier_ok n c k → bc_threads c !! t = Some p →
  b_valid b' = BARRIER_VALID → b_threshold b' = b_threshold (bc_barrier c) →
  b_cycle b' = b_cycle (bc_barrier c) → b_counter b' = b_counter (bc_barrier c) →
  mutex_ok holding (b_mutex b') (<[t:=p']> (bc_threads c)) →
  (∀ a, bc_arrived c !! t = Some a → position k p a → position k p' a) →
  cv_ok waits (b_cv b') (<[t:=p']> (bc_threads c)) →
  (b_cv b' = [] ∨ ((∀ u, u ∈ b_cv b' → u ∈ b_cv (bc_barrier c) ∨ (u = t ∧ bc_arrived c !! t ≠ Some k))
    ∧ p ≠ BBroadcast)) →
  barrier_ok n (BConf b' s' (<[t:=p']> (bc_threads c)) (bc_arrived c) log') k.
Proof.
  intros [Hn Hv Hth Hcy Hbd Hlt Hla Hm Hpos Hct Hcp Hcv Hw] Ht Hv' Hth' Hcy' Hct' Hm' Hp' Hcv' Hcv2.
  split; simpl; try congruence; try done.
  - by rewrite length_insert.
  - intros u q a [(-> & -> & _)|(_ & Hu)]%list_lookup_insert_Some Ha; [|eauto].
    eapply Hp'; [done|]. by eapply Hpos.
  - intros u q Hu Hq Ha. destruct Hcv2 as [He|[Hsub Hnb]]; [rewrite He in Hu; set_solver|].
    destruct (Hsub u Hu) as [Hin|[-> Hne]]; [|done].
    assert (is_Some (bc_threads c !! u)) as [r Hr].
    { apply lookup_lt_is_Some. apply lookup_lt_Some in Ha. lia. }
    eapply someone_step; [exact Ht|by eapply Hw| |done]. auto.
Qed.

(** the last thread arrives: a new cycle begins *)
Lemma barrier_last n k (c : bconf S) t :
  barrier_ok n c k → bc_threads c !! t = Some BLock → b_mutex (bc_barrier c) = None →
  b_counter (bc_barrier c) - 1 = 0 → Z.of_nat k < 2 ^ 31 →
  barrier_ok n (BConf (Barrier (Some t) (b_cv (bc_barrier c)) (b_valid (bc_barrier c))
    (b_threshold (bc_barrier c)) (b_threshold (bc_barrier c)) (ulong (b_cycle (bc_barrier c) + 1)))
    (bc_client c) (<[t:=BBroadcast]> (bc_threads c)) (alter Datatypes.S t (bc_arrived c))
    (bc_log c)) (Datatypes.S k).
Proof.
  intros [Hn Hv Hth Hcy Hbd Hlt Hla Hm Hpos Hct Hcp Hcv Hw] Ht Hmx H0 Hk.
  assert (is_Some (bc_arrived c !! t)) as [a Ha].
  { apply lookup_lt_is_Some. apply lookup_lt_Some in Ht. lia. }
  pose proof (Hpos t _ a Ht Ha) as Hpa. simpl in Hpa. subst a.
  assert (∀ i x, alter Datatypes.S t (bc_arrived c) !! i = Some x → x = Datatypes.S k) as Hall.
  { intros i x Hx.
    assert (cnt (λ a, bool_decide (a = Datatypes.S k)) (alter Datatypes.S t (bc_arrived c)) =
      Z.of_nat (length (alter Datatypes.S t (bc_arrived c)))) as Hfull.
    { rewrite length_alter, Hla, (alter_as_insert _ _ _ _ Ha).
      erewrite cnt_insert by done. rewrite (bool_decide_false (k = _)) by lia.
      rewrite bool_decide_true by done. simpl. lia. }
    apply (cnt_full _ _ Hfull) in Hx. by apply bool_decide_eq_true in Hx. }
  split; simpl; try done.
  - rewrite Hcy. rewrite wrap_unsigned_id by lia. lia.
  - lia.
  - by rewrite length_insert.
  - by rewrite length_alter.
  - apply mutex_ok_acquire. by rewrite <- Hmx.
  - intros u q b Hu ->%Hall. apply list_lookup_insert_Some in Hu as [(_ & <- & _)|(Hut & Hu)]; [done|].
    assert (is_Some (bc_arrived c !! u)) as [b Hb].
    { apply lookup_lt_is_Some. apply lookup_lt_Some in Hu. lia. }
    pose proof (Hpos u q b Hu Hb) as Hpb.
    assert (b = Datatypes.S k) as ->.
    { apply (Hall u). by rewrite list_lookup_alter_ne by done. }
    destruct q; simpl in *; lia.
  - rewrite Hth. rewrite (proj2 (cnt_zero _ _)); [lia|].
    intros i x ->%Hall. apply bool_decide_false. lia.
  - rewrite Hth. lia.
  - apply cv_ok_keep; [done|]. by eapply cv_ok_running.
  - intros u p _ _ _. eapply someone_self; done.
Qed.

(** another thread arrives and waits *)
Lemma barrier_enter n k (c : bconf S) t :
  barrier_ok n c k → bc_threads c !! t = Some BLock → b_mutex (bc_barrier c) = None →
  b_counter (bc_barrier c) - 1 ≠ 0 → Z.of_nat k < 2 ^ 31 →
  barrier_ok n (BConf (Barrier None (cond_block t (b_cv (bc_barrier c)))
    (b_valid (bc_barrier c)) (b_threshold (bc_barrier c)) (b_counter (bc_barrier c) - 1)
    (b_cycle (bc_barrier c)))
    (bc_client c) (<[t:=BWait (Z.of_nat k)]> (bc_threads c)) (alter Datatypes.S t (bc_arrived c))
    (bc_log c)) k.
Proof.
  intros [Hn Hv Hth Hcy Hbd Hlt Hla Hm Hpos Hct Hcp Hcv Hw] Ht Hmx H0 Hk.
  assert (is_Some (bc_arrived c !! t)) as [a Ha].
  { apply lookup_lt_is_Some. apply lookup_lt_Some in Ht. lia. }
  pose proof (Hpos t _ a Ht Ha) as Hpa. simpl in Hpa. subst a.
  split; simpl; try done.
  - by rewrite length_insert.
  - by rewrite length_alter.
  - rewrite Hmx in Hm. by apply mutex_ok_keep.
  - intros u q b Hu Hb. apply list_lookup_insert_Some in Hu as [(<- & <- & _)|(Hut & Hu)].
    + rewrite list_lookup_alter_eq, Ha in Hb. injection Hb as <-. simpl. lia.
    + rewrite list_lookup_alter_ne in Hb by done. by eapply Hpos.
  - rewrite (alter_as_insert _ _ _ _ Ha). erewrite cnt_insert by done.
    rewrite (bool_decide_false (k = _)) by lia. rewrite bool_decide_true by done. simpl. lia.
  - lia.
  - eapply cv_ok_block; done.
  - intros u p. rewrite elem_of_cond_block. intros Hu Hp Hb.
    destruct (decide (u = t)) as [->|Hut].
    + rewrite list_lookup_alter_eq, Ha in Hb. injection Hb. lia.
    + rewrite list_lookup_alter_ne in Hb by done. rewrite list_lookup_insert_ne in Hp by done.
      destruct Hu as [Hu|]; [|done].
      eapply someone_step; [exact Ht|by eapply Hw|done|done].
Qed.
End steps.

(** events while the cycle count still fits an int *)
Definition bounded {S} (c : bconf S) (e : bevent) : bool :=
  reliable c e && (b_cycle (bc_barrier c) <? 2 ^ 31).
Definition barrier_bounded {S} (after : tid → Z → S → res (S * bool)) : Machine (bconf S) bevent :=
  restrict (M := bstep after) bounded.

Ltac bstep_cases :=
  unfold bstep, barrier_wait_step, barrier_wait_locked, barrier_wait_loop in *;
  step_cases; sync_inv; subst; simpl in *;
  repeat match goal with
  | |- context [match ?x with _ => _ end] => destruct x eqn:?; simpl in *
  end.

Section stability.
Context {S : Type} (after : tid → Z → S → res (S * bool)).

Lemma barrier_spurious n k (c : bconf S) t :
  barrier_ok n c k →
  barrier_ok n (BConf (set_cv (bc_barrier c) (cond_leave t (b_cv (bc_barrier c)))) (bc_client c)
    (bc_threads c) (bc_arrived c) (bc_log c)) k.
Proof.
  intros [Hn Hv Hth Hcy Hbd Hlt Hla Hm Hpos Hct Hcp Hcv Hw]. split; simpl; try done.
  - solve_cv_ok.
  - intros u p. rewrite elem_of_cond_leave. intros [Hu _]. by apply Hw.
Qed.

Lemma barrier_start n (s : S) : (1 ≤ n)%nat → barrier_ok n (barrier_conf n s) 0.
Proof.
  intros Hn. split; simpl; try done; rewrite ?length_replicate; try done.
  - by apply mutex_ok_replicate.
  - intros t p a [-> _]%lookup_replicate_1 [-> _]%lookup_replicate_1. done.
  - rewrite cnt_replicate by done. lia.
  - lia.
  - apply cv_ok_nil.
  - set_solver.
Qed.

Lemma barrier_step_ok n k (c c' : bconf S) e :
  barrier_ok n c k → bounded c e = true → bstep after c e = Ok c' →
  barrier_ok n c' k ∨ barrier_ok n c' (Datatypes.S k).
Proof.
  intros Hok [Hr Hb%Z.ltb_lt]%andb_prop Hstep. pose proof Hok as [Hn Hv Hth Hcy Hbd Hlt Hla Hm Hpos Hct Hcp Hcv Hw].
  rewrite Hcy in Hb.
  assert (int32 (Z.of_nat k) = Z.of_nat k) as Hi by (apply wrap_signed_id; lia).
  assert (∀ t p, bc_threads c !! t = Some p → ∃ a, bc_arrived c !! t = Some a ∧ position k p a) as Hat.
  { intros t p Ht. assert (is_Some (bc_arrived c !! t)) as [a Ha].
    { apply lookup_lt_is_Some. apply lookup_lt_Some in Ht. lia. }
    exists a. split; [done|]. by eapply Hpos. }
  clear Hn Hth Hlt Hla Hpos Hct Hcp Hw Hbd.
  destruct c as [[m cv va th ct cy] s ths ar se]. simpl in *. subst cy va.
  destruct e as [t o|t]; bstep_cases; try (rewrite Hr in *; discriminate).
  all: unfold goto, upd, arrive, ret; simpl.
  all: try (right; eapply (barrier_last _ _ _ _ Hok); [eassumption|done|simpl; lia|done]).
  all: try (left; rewrite Hi; eapply (barrier_enter _ _ _ _ Hok); [eassumption|done|simpl; lia|done]).
  all: left.
  all: try match goal with H : _ !! _ = Some (BWait _) |- _ =>
         destruct (Hat _ _ H) as (a & Ha & Hp); simpl in Hp; destruct Hp as (Ha1 & -> & Hp);
         assert (ulong (Z.of_nat a - 1) = Z.of_nat a - 1) as Hu by (apply wrap_unsigned_id; lia) end.
  all: try (eapply (barrier_goto _ _ _ _ _ _ _ _ _ Hok); [eassumption|done|done|done|done
    |simpl; solve_mutex_ok
    |simpl; intros a' Ha' Hp'; simpl in *; simplify_eq; lia
    |simpl; solve_cv_ok
    |simpl; first [by left
      |right; split; [by left|done]
      |right; split; [|done]; intros u; rewrite elem_of_cond_block; intros [?| ->];
        [by left|right; split; [done|]; rewrite Ha; intros [= ?]; lia]]]).
  - exfalso. match goal with H : (ulong _ =? _) = false |- _ => rename H into Hne end.
    rewrite Hi, wrap_unsigned_id in Hne by lia. lia.
  - exact (barrier_spurious _ _ _ t Hok).
Qed.

Lemma barrier_reachable_ok n (s : S) c :
  (1 ≤ n)%nat →
  reachable (M := barrier_bounded after) (barrier_conf n s) c → ∃ k, barrier_ok n c k.
Proof.
  intros Hn Hc. apply (invariant_run (M := barrier_bounded after) (λ c, ∃ k, barrier_ok n c k)
    (barrier_conf n s) c); [| |done].
  - exists O. by apply barrier_start.
  - intros c1 e c2 [k Hk] [Hb Hs]%restrict_Ok.
    destruct (barrier_step_ok n k c1 c2 e Hk Hb Hs); eauto.
Qed.
End stability.

(** ** The results of barrier_wait

    Each cycle has one thread that returns -1: the one that was the last to arrive. *)

(** the thread returns -1 from the call it is in *)
Definition serves (p : pc) : bool :=
  match p with BBroadcast => true | BUnlock status => status =? -1 | _ => false end.
(** the thread has entered its call and has not returned from it *)
Definition inside (p : pc) : bool := match p with BWait _ | BBroadcast | BUnlock _ => true | _ => false end.
Definition unlocks_ok (p : pc) : Prop := match p with BUnlock status => status = 0 ∨ status = -1 | _ => True end.

(** the [j]-th call of the thread [u] returns -1, or has done so *)
Definition serving {S} (c : bconf S) (u : tid) (j : nat) : Prop :=
  (u, j, -1) ∈ bc_log c ∨
  ∃ p, bc_threads c !! u = Some p ∧ serves p = true ∧ bc_arrived c !! u = Some j.

Record serials_ok {S} (c : bconf S) (k : nat) : Prop := {
  so_unique : ∀ j u v, serving c u j → serving c v j → u = v;
  so_exists : ∀ j, (1 ≤ j ≤ k)%nat → ∃ u, serving c u j;
  so_range : ∀ u j, serving c u j → (j ≤ k)%nat;
  so_status : ∀ u j status, (u, j, status) ∈ bc_log c → status = 0 ∨ status = -1;
  so_unlock : ∀ t p, bc_threads c !! t = Some p → unlocks_ok p;
  so_past : ∀ u j status p a, (u, j, status) ∈ bc_log c → bc_threads c !! u = Some p →
    bc_arrived c !! u = Some a → (j ≤ a)%nat ∧ (inside p = true → (j < a)%nat);
  so_once : NoDup (bc_log c).*1
}.

Section serials.
Context {S : Type}.
Implicit Types (c : bconf S) (t u v : tid).

Lemma serials_start n (s : S) : serials_ok (barrier_conf n s) 0.
Proof.
  assert (∀ u j, ¬ serving (barrier_conf n s) u j) as Hno.
  { intros u j [H|(p & [-> _]%lookup_replicate_1 & H & _)]; [set_solver|done]. }
  split; simpl.
  - intros j u v Hu. by destruct (Hno u j).
  - intros j Hj. lia.
  - intros u j Hu. by destruct (Hno u j).
  - set_solver.
  - by intros t p [-> _]%lookup_replicate_1.
  - set_solver.
  - by apply NoDup_nil.
Qed.

(** a step after which the same threads return -1 *)
Lemma serials_same c c' k :
  serials_ok c k → (∀ u j, serving c' u j ↔ serving c u j) →
  (∀ u j status, (u, j, status) ∈ bc_log c' → status = 0 ∨ status = -1) →
  (∀ t p, bc_threads c' !! t = Some p → unlocks_ok p) →
  (∀ u j status p a, (u, j, status) ∈ bc_log c' → bc_threads c' !! u = Some p →
    bc_arrived c' !! u = Some a → (j ≤ a)%nat ∧ (inside p = true → (j < a)%nat)) →
  NoDup (bc_log c').*1 → serials_ok c' k.
Proof.
  intros [Hu He Hr Hs Hl Hp Ho] Hsv. split; try done.
  - intros j u v. rewrite !Hsv. apply Hu.
  - intros j [u Hj]%He. exists u. by apply Hsv.
  - intros u j. rewrite Hsv. apply Hr.
Qed.

(** what a thread that moves on may do with the log and the threads *)
Lemma serials_threads c k t p q a a' :
  serials_ok c k → bc_threads c !! t = Some p → bc_arrived c !! t = Some a →
  (a ≤ a')%nat → (inside q = true → (a < a')%nat ∨ inside p = true) → unlocks_ok q →
  (∀ u r, <[t := q]> (bc_threads c) !! u = Some r → unlocks_ok r) ∧
  (∀ u j status r b, (u, j, status) ∈ bc_log c → <[t := q]> (bc_threads c) !! u = Some r →
    <[t := a']> (bc_arrived c) !! u = Some b → (j ≤ b)%nat ∧ (inside r = true → (j < b)%nat)).
Proof.
  intros H Ht Ha Hle Hin Hq. split.
  - intros u r [(_ & <- & _)|[_ Hu]]%list_lookup_insert_Some; [done|by eapply so_unlock].
  - intros u j status r b Hlog [(<- & <- & _)|[Hne Hu]]%list_lookup_insert_Some Hb.
    + rewrite list_lookup_insert_eq in Hb by by eapply lookup_lt_Some. injection Hb as <-.
      destruct (so_past _ _ H _ _ _ _ _ Hlog Ht Ha) as [Hj Hj2]. split; [lia|].
      intros [|Hp]%Hin; [lia|]. specialize (Hj2 Hp). lia.
    + rewrite list_lookup_insert_ne in Hb by done. by eapply so_past.
Qed.

(** a thread moves on, and does not become the one that returns -1 *)
Lemma serials_move c k t p q a a' b' (s' : S) ar :
  serials_ok c k → bc_threads c !! t = Some p → bc_arrived c !! t = Some a →
  ar = <[t := a']> (bc_arrived c) → (a = a' ∨ (a < a')%nat ∧ serves q = false) →
  serves q = serves p → (inside q = true → (a < a')%nat ∨ inside p = true) → unlocks_ok q →
  serials_ok (BConf b' s' (<[t := q]> (bc_threads c)) ar (bc_log c)) k.
Proof.
  intros H Ht Ha -> Haa Hse Hin Hq.
  destruct (serials_threads c k t p q a a' H Ht Ha) as [H1 H2]; [lia|done|done|].
  apply (serials_same c); simpl; [done| |apply H|done|done|apply H].
  intros u j. unfold serving. simpl. apply or_iff_compat_l. destruct (decide (u = t)) as [->|Hne].
  - rewrite !list_lookup_insert_eq by by eapply lookup_lt_Some. rewrite Ht, Ha.
    split; intros (r & [= <-] & Hr & [= <-]).
    + exists p. destruct Haa as [->|[_ ?]]; [|congruence]. by rewrite <- Hse.
    + exists q. destruct Haa as [->|[_ ?]]; [|congruence]. by rewrite Hse.
  - by rewrite !list_lookup_insert_ne.
Qed.

(** the last thread arrives *)
Lemma serials_last c k t a b' :
  serials_ok c k → bc_threads c !! t = Some BLock → bc_arrived c !! t = Some k → a = Datatypes.S k →
  serials_ok (BConf b' (bc_client c) (<[t := BBroadcast]> (bc_threads c)) (<[t := a]> (bc_arrived c))
    (bc_log c)) (Datatypes.S k).
Proof.
  intros H Ht Ha ->. pose proof H as [Hu He Hr Hs Hl Hp Ho].
  destruct (serials_threads c k t BLock BBroadcast k (Datatypes.S k) H Ht Ha) as [H1 H2]; [lia|left; lia|done|].
  match goal with |- serials_ok ?c' _ => assert (∀ u j, serving c' u j ↔ serving c u j ∨ u = t ∧ j = Datatypes.S k) as Hsv end.
  { intros u j. unfold serving. simpl. destruct (decide (u = t)) as [->|Hne].
    - rewrite !list_lookup_insert_eq by by eapply lookup_lt_Some. rewrite Ht, Ha. split.
      + intros [?|(r & [= <-] & _ & [= <-])]; [by left; left|by right].
      + intros [[?|(r & [= <-] & [=] & _)]|[_ ->]]; [by left|]. right. by exists BBroadcast.
    - rewrite !list_lookup_insert_ne by done. split; [by left|]. by intros [?|[-> _]]. }
  split; simpl; try done.
  - intros j u v. rewrite !Hsv. intros [Hj|[-> ->]] [Hj'|[-> Hj']]; [by eapply Hu| | |done].
    + apply Hr in Hj. lia.
    + apply Hr in Hj'. lia.
  - intros j Hj. destruct (decide (j = Datatypes.S k)) as [->|Hne]; [exists t; apply Hsv; by right|].
    destruct (He j) as [u Hj']; [lia|]. exists u. apply Hsv. by left.
  - intros u j. rewrite Hsv. intros [Hj|[_ ->]]; [apply Hr in Hj|]; lia.
Qed.

(** a thread returns *)
Lemma serials_return c k t status a b' (s' : S) :
  serials_ok c k → bc_threads c !! t = Some (BUnlock status) → bc_arrived c !! t = Some a →
  serials_ok (BConf b' s' (<[t := BReturn status]> (bc_threads c)) (bc_arrived c)
    (bc_log c ++ [(t, default 0%nat (bc_arrived c !! t), status)])) k.
Proof.
  intros H Ht Ha. pose proof H as [Hu He Hr Hs Hl Hp Ho].
  destruct (serials_threads c k t _ (BReturn status) a a H Ht Ha) as [H1 H2]; [lia|done|done|].
  rewrite (list_insert_id (bc_arrived c) t a Ha) in H2. rewrite Ha. simpl.
  apply (serials_same c); simpl; [done| | |done| |].
  - intros u j. unfold serving. simpl. rewrite elem_of_app, list_elem_of_singleton.
    destruct (decide (u = t)) as [->|Hne].
    + rewrite list_lookup_insert_eq by by eapply lookup_lt_Some. rewrite Ht, Ha. split.
      * intros [[?|[= -> <-]]|(r & [= <-] & [=] & _)]; [by left|]. right. by exists (BUnlock (-1)).
      * intros [?|(r & [= <-] & Hst%Z.eqb_eq & [= <-])]; [by left; left|]. left. right. by rewrite Hst.
    + rewrite list_lookup_insert_ne by done. split; [|tauto]. intros [[?|?]|?]; [tauto|congruence|tauto].
  - intros u j st [?|[= -> -> ->]%list_elem_of_singleton]%elem_of_app; [by eapply Hs|exact (Hl _ _ Ht)].
  - intros u j st r b [?|[= -> -> ->]%list_elem_of_singleton]%elem_of_app Hu' Hb; [by eapply H2|].
    rewrite list_lookup_insert_eq in Hu' by by eapply lookup_lt_Some. injection Hu' as <-.
    simplify_eq. by split; [lia|].
  - rewrite fmap_app. apply NoDup_app. split; [done|]. split; [|apply NoDup_singleton].
    intros [u j] ([[u' j'] st] & [= -> ->] & Hin)%list_elem_of_fmap [= -> ->]%list_elem_of_singleton.
    destruct (Hp _ _ _ _ _ Hin Ht Ha) as [_ Hlt]. specialize (Hlt eq_refl). lia.
Qed.
End serials.

Section serials_stable.
Context {S : Type} (after : tid → Z → S → res (S * bool)).

Lemma serials_step n k (c c' : bconf S) e :
  barrier_ok n c k → serials_ok c k → bounded c e = true → bstep after c e = Ok c' →
  ∃ k', b_cycle (bc_barrier c') = Z.of_nat k' ∧ serials_ok c' k'.
Proof.
  intros Hok H [Hr Hb%Z.ltb_lt]%andb_prop Hstep. pose proof (bk_cycle _ _ _ Hok) as Hcy. rewrite Hcy in Hb.
  assert (∀ t p, bc_threads c !! t = Some p → ∃ a, bc_arrived c !! t = Some a ∧ position k p a) as Hat.
  { intros t p Ht. assert (is_Some (bc_arrived c !! t)) as [a Ha].
    { apply lookup_lt_is_Some. apply lookup_lt_Some in Ht.
      by rewrite (bk_arrived _ _ _ Hok), <- (bk_length _ _ _ Hok). }
    exists a. split; [done|]. by eapply (bk_position _ _ _ Hok). }
  assert (ulong (Z.of_nat k + 1) = Z.of_nat (Datatypes.S k)) as Hu1 by (rewrite wrap_unsigned_id; lia).
  pose proof (so_unlock _ _ H) as Hul. pose proof (bk_valid _ _ _ Hok) as Hv. clear Hok.
  destruct c as [[m cv va th ct cy] s ths ar lg]. simpl in *. subst cy va.
  destruct e as [t o|t]; [|exists k; bstep_cases; split; [done|]; by destruct H].
  bstep_cases; try (rewrite Hr in *; discriminate); simpl in *.
  all: match goal with E : @lookup _ pc _ _ _ _ = Some _ |- _ =>
         rename E into Ht; destruct (Hat _ _ Ht) as (a & Ha & Hp); specialize (Hul _ _ Ht); simpl in Hp, Hul end.
  all: unfold goto, upd, arrive, ret; simpl.
  all: try (exists (Datatypes.S k); split; [exact Hu1|]; try subst a; rewrite (alter_as_insert _ _ _ _ Ha);
    exact (serials_last _ _ _ _ _ H Ht Ha eq_refl)).
  all: exists k; split; [done|].
  all: try exact (serials_return _ _ _ _ _ _ _ H Ht Ha).
  all: try (rewrite (alter_as_insert _ _ _ _ Ha);
    eapply (serials_move _ _ _ _ _ a (Datatypes.S a) _ _ _ H Ht Ha eq_refl);
    [right; split; [lia|done]|done|intros _; left; lia|simpl; auto]).
  all: try (eapply (serials_move _ _ _ _ _ a a _ _ _ H Ht Ha); [by rewrite list_insert_id|by left|done|by auto|simpl; auto]).
Qed.

Lemma barrier_reachable n (s : S) c :
  (1 ≤ n)%nat →
  reachable (M := barrier_bounded after) (barrier_conf n s) c → ∃ k, barrier_ok n c k ∧ serials_ok c k.
Proof.
  intros Hn Hc. apply (invariant_run (M := barrier_bounded after) (λ c, ∃ k, barrier_ok n c k ∧ serials_ok c k)
    (barrier_conf n s) c); [| |done].
  - exists O. split; [by apply barrier_start|apply serials_start].
  - intros c1 e c2 (k & Hk & Hs) [Hb Hstep]%restrict_Ok.
    destruct (serials_step _ _ _ _ _ Hk Hs Hb Hstep) as (k' & Hcy & Hs').
    exists k'. split; [|done].
    destruct (barrier_step_ok after n k c1 c2 e Hk Hb Hstep) as [Hk'|Hk'];
      pose proof (bk_cycle _ _ _ Hk') as Hcy'; rewrite Hcy in Hcy'; apply Nat2Z.inj in Hcy' as ->; done.
Qed.

(** a cycle whose calls have all returned has its -1 *)
Lemma all_returned n c k j :
  barrier_ok n c k → serials_ok (S := S) c k → (1 ≤ j)%nat →
  (∀ u, (u < n)%nat → ∃ status, (u, j, status) ∈ bc_log c) → ∃ u, (u, j, -1) ∈ bc_log c.
Proof.
  intros Hk H Hj Hall.
  assert (∀ u, (u < n)%nat → ∃ p a, bc_threads c !! u = Some p ∧ bc_arrived c !! u = Some a) as Hat.
  { intros u Hu. destruct (lookup_lt_is_Some_2 (bc_threads c) u) as [p Hp]; [by rewrite (bk_length _ _ _ Hk)|].
    destruct (lookup_lt_is_Some_2 (bc_arrived c) u) as [a Ha]; [by rewrite (bk_arrived _ _ _ Hk)|]. eauto. }
  assert (j ≤ k)%nat as Hjk.
  { pose proof (bk_pos _ _ _ Hk). destruct (Hall 0%nat) as [st Hst]; [lia|].
    destruct (Hat 0%nat) as (p & a & Hp & Ha); [lia|].
    destruct (so_past _ _ H _ _ _ _ _ Hst Hp Ha) as [Hle Hin].
    pose proof (bk_position _ _ _ Hk _ _ _ Hp Ha) as Hpos.
    destruct p; simpl in Hpos, Hin; lia. }
  destruct (so_exists _ _ H j) as [u [Hu|(p & Hp & Hs & Ha)]]; [lia|by exists u|].
  destruct (Hall u) as [st Hst]; [rewrite <- (bk_length _ _ _ Hk); by eapply lookup_lt_Some|].
  destruct (so_past _ _ H _ _ _ _ _ Hst Hp Ha) as [_ Hin].
  assert (inside p = true) as Hi by (by destruct p). specialize (Hin Hi). lia.
Qed.
End serials_stable.

(** ** Properties of the barrier, for any client *)

Section barrier_properties.
Context {S : Type} (after : tid → Z → S → res (S * bool)) (n : nat) (s : S).
Hypothesis Hn : (1 ≤ n)%nat.

(** C7: no thread leaves [barrier_wait] early, and one thread per cycle gets -1.
    As long as fewer than 2^31 cycles are over, so that the cycle count fits the int
    of [barrier_wait] (later it fails: [barrier_cycle_truncation]), and calls of the
    thread library do not fail: a thread that is outside the call, or past the wait
    in it, after its [a]-th arrival finds that every thread has arrived at least [a]
    times, and at most once more.  Every call that is over has returned 0 or -1; no
    call returns twice; of the calls of one cycle at most one has returned -1, and
    exactly one when all threads have returned. *)
Theorem barrier_waits_for_all c :
  reachable (M := barrier_bounded after) (barrier_conf n s) c →
  (∀ t p a, bc_threads c !! t = Some p → bc_arrived c !! t = Some a → waits p = false →
     (∀ u b, bc_arrived c !! u = Some b → (a ≤ b ≤ Datatypes.S a)%nat) ∧
     b_cycle (bc_barrier c) = Z.of_nat a) ∧
  (∀ u j status, (u, j, status) ∈ bc_log c → status = 0 ∨ status = -1) ∧
  NoDup (bc_log c).*1 ∧
  (∀ j u v, (u, j, -1) ∈ bc_log c → (v, j, -1) ∈ bc_log c → u = v) ∧
  (∀ j, (1 ≤ j)%nat → (∀ u, (u < n)%nat → ∃ status, (u, j, status) ∈ bc_log c) →
     ∃ u, (u, j, -1) ∈ bc_log c).
Proof.
  intros Hc. destruct (barrier_reachable _ _ _ _ Hn Hc) as (k & Hk & Hs). split_and!.
  - intros t p a Ht Ha Hp. pose proof (bk_position _ _ _ Hk _ _ _ Ht Ha) as Hpa.
    assert (a = k) as -> by (destruct p; done). split; [|by eapply bk_cycle].
    intros u b Hb. assert (is_Some (bc_threads c !! u)) as [q Hq].
    { apply lookup_lt_is_Some. apply lookup_lt_Some in Hb.
      rewrite (bk_length _ _ _ Hk), <- (bk_arrived _ _ _ Hk). done. }
    pose proof (bk_position _ _ _ Hk _ _ _ Hq Hb) as Hpb. destruct q; simpl in Hpb; lia.
  - apply Hs.
  - apply Hs.
  - intros j u v Hu Hv. apply (so_unique _ _ Hs j); by left.
  - intros j. by apply (all_returned n c k).
Qed.

(** The wake-up of the barrier is never lost.  A thread blocked on the
    condition variable has arrived in the cycle that is still open, or the
    thread that closed its cycle is about to broadcast; and a cycle stays open
    only while some thread has not arrived. *)
Theorem barrier_no_lost_wakeup c u p a :
  reachable (M := barrier_bounded after) (barrier_conf n s) c →
  u ∈ b_cv (bc_barrier c) → bc_threads c !! u = Some p → bc_arrived c !! u = Some a →
  (Z.of_nat a = b_cycle (bc_barrier c) + 1 ∧
    ∃ v b, bc_arrived c !! v = Some b ∧ Z.of_nat b = b_cycle (bc_barrier c))
  ∨ ∃ v, v ≠ u ∧ bc_threads c !! v = Some BBroadcast.
Proof.
  intros Hc Hu Hp Ha. destruct (barrier_reachable_ok _ _ _ _ Hn Hc) as [k Hk].
  pose proof (bk_position _ _ _ Hk _ _ _ Hp Ha) as Hpa.
  pose proof (bk_cycle _ _ _ Hk) as Hcy.
  assert (waits p = true) as Hw.
  { destruct (bk_cv _ _ _ Hk u Hu) as (q & Hq & Hw). by simplify_eq. }
  destruct p as [| | |cycle| | |]; try discriminate. destruct Hpa as (_ & _ & [->| ->]).
  - right. destruct (bk_wakeup _ _ _ Hk u _ Hu Hp Ha) as (v & q & Hv & ->).
    exists v. split; [|done]. intros ->. congruence.
  - left. split; [lia|].
    pose proof (bk_counter _ _ _ Hk) as Hct. pose proof (bk_counter_pos _ _ _ Hk) as Hpos.
    destruct (decide (k ∈ bc_arrived c)) as [[v Hv]%list_elem_of_lookup|Hno]; [by exists v, k|exfalso].
    rewrite (cnt_all _ (bc_arrived c)), (bk_arrived _ _ _ Hk) in Hct; [lia|].
    intros v b Hv. apply bool_decide_true.
    assert (is_Some (bc_threads c !! v)) as [q Hq].
    { apply lookup_lt_is_Some. apply lookup_lt_Some in Hv.
      rewrite (bk_length _ _ _ Hk), <- (bk_arrived _ _ _ Hk). done. }
    pose proof (bk_position _ _ _ Hk _ _ _ Hq Hv) as Hb.
    assert (b ≠ k) by (intros ->; apply Hno, list_elem_of_lookup; eauto).
    destruct q; simpl in Hb; lia.
Qed.
End barrier_properties.

(** ** The truncated cycle *)

(** a client whose threads call barrier_wait over and over *)
Definition forever (t : tid) (status : Z) (s : unit) : res (unit * bool) := Ok (tt, true).
(** two of them, after [k] cycles, in which thread 1 was the last to arrive *)
Definition cycles_log (k : nat) : list (tid * nat * Z) :=
  concat ((λ j, [(1%nat, j, -1); (0%nat, j, 0)]) <$> seq 1 k).
Definition after_cycles (k : nat) : bconf unit :=
  BConf (Barrier None [] BARRIER_VALID 2 2 (Z.of_nat k)) tt [BCall; BCall] [k; k] (cycles_log k).
Lemma cycles_log_S k : cycles_log (S k) = cycles_log k ++ [(1%nat, S k, -1); (0%nat, S k, 0)].
Proof. unfold cycles_log. by rewrite seq_S, fmap_app, concat_app. Qed.

Lemma one_more_cycle k :
  Z.of_nat k < 2 ^ 31 →
  reachable (M := barrier_machine forever) (after_cycles k) (after_cycles (S k)).
Proof.
  intros Hk.
  assert (int32 (Z.of_nat k) = Z.of_nat k) as Hi by (apply wrap_signed_id; lia).
  assert (ulong (Z.of_nat k) = Z.of_nat k) as Hu by (apply wrap_unsigned_id; lia).
  assert (ulong (Z.of_nat k + 1) = Z.of_nat (S k)) as Hu1 by (rewrite wrap_unsigned_id; lia).
  assert ((Z.of_nat k =? Z.of_nat (S k)) = false) as Hne by (apply Z.eqb_neq; lia).
  unfold after_cycles. rewrite cycles_log_S.
  revert Hi Hu Hu1 Hne. generalize (Z.of_nat k) (Z.of_nat (S k)) (cycles_log k).
  intros z z' log Hi Hu Hu1 Hne.
  pose (mid m cv ct cy p0 p1 a0 a1 log :=
    BConf (Barrier m cv BARRIER_VALID 2 ct cy) tt [p0; p1] [a0; a1] log).
  assert (∀ c0 e c c', mstep (Machine := barrier_machine forever) c0 e = Ok c →
    reachable (M := barrier_machine forever) c c' →
    reachable (M := barrier_machine forever) c0 c') as Hstep.
  { intros c0 e c c' He. apply reachable_trans. eapply reachable_step; [apply reachable_refl|done]. }
  change (reachable (M := barrier_machine forever)
    (mid None [] 2 z BCall BCall k k log)
    (mid None [] 2 z' BCall BCall (S k) (S k) (log ++ [(1%nat, S k, -1); (0%nat, S k, 0)]))).
  apply (Hstep _ (ERun 0 ok) (mid None [] 2 z BLock BCall k k log)); [reflexivity|].
  apply (Hstep _ (ERun 0 ok) (mid None [0%nat] 1 z (BWait z) BCall (S k) k log)).
  { apply restrict_Ok. split; [done|]. unfold mstep, bstep, mid. simpl.
    unfold barrier_wait_locked. simpl. rewrite Hi. unfold barrier_wait_loop. simpl.
    by rewrite Hu, Z.eqb_refl. }
  apply (Hstep _ (ERun 1 ok) (mid None [0%nat] 1 z (BWait z) BLock (S k) k log)); [reflexivity|].
  apply (Hstep _ (ERun 1 ok)
    (mid (Some 1%nat) [0%nat] 2 z' (BWait z) BBroadcast (S k) (S k) log)).
  { apply restrict_Ok. split; [done|]. unfold mstep, bstep, mid. simpl.
    unfold barrier_wait_locked. simpl. change (1 - 1) with 0. simpl.
    unfold upd, set_cycle. simpl. by rewrite Hu1. }
  apply (Hstep _ (ERun 1 ok)
    (mid (Some 1%nat) [] 2 z' (BWait z) (BUnlock (-1)) (S k) (S k) log)); [reflexivity|].
  apply (Hstep _ (ERun 1 ok)
    (mid None [] 2 z' (BWait z) (BReturn (-1)) (S k) (S k) (log ++ [(1%nat, S k, -1)]))); [reflexivity|].
  apply (Hstep _ (ERun 0 ok)
    (mid (Some 0%nat) [] 2 z' (BUnlock 0) (BReturn (-1)) (S k) (S k) (log ++ [(1%nat, S k, -1)]))).
  { apply restrict_Ok. split; [done|]. unfold mstep, bstep, mid. simpl.
    unfold barrier_wait_loop. simpl. by rewrite Hu, Hne. }
  change [(1%nat, S k, -1); (0%nat, S k, 0)] with ([(1%nat, S k, -1)] ++ [(0%nat, S k, 0)]).
  rewrite app_assoc. exists [ERun 0 ok; ERun 0 ok; ERun 1 ok]. reflexivity.
Qed.

(** The barrier fails after 2^31 cycles.  [barrier_wait] keeps the cycle in an
    int; once the count no longer fits, the comparison with the unsigned long is
    false and a thread returns 0 at once: two threads that only call [barrier_wait]
    reach a point where one is past a barrier that the other has not reached. *)
Theorem barrier_cycle_truncation :
  ∃ c a, reachable (M := barrier_machine forever) (barrier_conf 2 tt) c ∧
    bc_threads c !! 0%nat = Some (BReturn 0) ∧ bc_threads c !! 1%nat = Some BCall ∧
    bc_arrived c = [S a; a] ∧ b_cycle (bc_barrier c) = Z.of_nat a.
Proof.
  assert (∀ k, Z.of_nat k ≤ 2 ^ 31 →
    reachable (M := barrier_machine forever) (barrier_conf 2 tt) (after_cycles k)) as Hr.
  { intros k. induction k as [|k IH]; intros Hk; [apply reachable_refl|].
    eapply reachable_trans; [apply IH; lia|]. apply one_more_cycle. lia. }
  pose (K := Z.to_nat (2 ^ 31)). assert (Z.of_nat K = 2 ^ 31) as HK by (unfold K; lia).
  clearbody K.
  eexists _, K. split.
  - eapply reachable_trans; [apply (Hr K); lia|].
    exists [ERun 0 ok; ERun 0 ok; ERun 0 ok]. unfold after_cycles. rewrite HK.
    cbn -[Z.of_nat replicate]. reflexivity.
  - by simpl.
Qed.

(** ** thread_routine: every schedule gives the same result *)

#[export] Instance barrier_t_eq_dec : EqDecision barrier_t.
Proof. solve_decision. Defined.
#[export] Instance pc_eq_dec : EqDecision pc.
Proof. solve_decision. Defined.
#[export] Instance thread_t_eq_dec : EqDecision thread_t.
Proof. solve_decision. Defined.
#[export] Instance bconf_eq_dec {S : Type} `{EqDecision S} : EqDecision (bconf S).
Proof. solve_decision. Defined.

(** the events that can change a configuration *)
Definition barrier_events {S : Type} (c : bconf S) : list bevent :=
  map (λ t, ERun t ok) (seq 0 (length (bc_threads c))) ++ map ESpurious (b_cv (bc_barrier c)).

Lemma barrier_events_covers {S : Type} (after : tid → Z → S → res (S * bool)) :
  covers (M := barrier_machine after) barrier_events.
Proof.
  intros c e. unfold mstep, barrier_machine, restrict.
  destruct (reliable c e) eqn:Hr; [|by left]. destruct e as [t o|t]; unfold mstep; simpl in *.
  - destruct (bc_threads c !! t) as [p|] eqn:Ht; [|by left]. right; right. exists (ERun t ok). split.
    + apply elem_of_app. left. apply list_elem_of_fmap. exists t. split; [done|].
      apply lookup_lt_Some in Ht. apply elem_of_seq. lia.
    + simpl. rewrite Ht. apply Z.eqb_eq in Hr. destruct p; simpl; by rewrite ?Hr.
  - destruct (decide (t ∈ b_cv (bc_barrier c))) as [Hin|Hout].
    + right; right. exists (ESpurious t). split; [|done].
      apply elem_of_app. right. apply list_elem_of_fmap. eauto.
    + right; left. destruct c as [[m v va th ct cy] s ths ar se]. unfold upd, set_cv. simpl in *.
      by rewrite cond_leave_absent.
Qed.

Definition bconf_eqb (c d : bconf (list thread_t)) : bool := bool_decide (c = d).
Lemma bconf_eqb_eq c d : bconf_eqb c d = true → c = d.
Proof. apply bool_decide_eq_true. Qed.

(** the configurations of the program *)
Definition barrier_configurations : list (bconf (list thread_t)) :=
  explore (M := barrier_machine thread_routine) bconf_eqb barrier_events 4000 [] [barrier_main].

(** all threads are finished *)
Definition finished (c : bconf (list thread_t)) : bool :=
  forallb (λ p, bool_decide (p = BStop)) (bc_threads c).
(** what main prints after the joins *)
Definition printed (c : bconf (list thread_t)) : list (Z * list Z) :=
  map (λ x, (th_increment x, th_arrays x)) (bc_client c).

Definition settled (c : bconf (list thread_t)) : bconf (list thread_t) :=
  settle (M := barrier_machine thread_routine) 50 [ERun 0 ok; ERun 1 ok] c.
Lemma settled_reachable c : reachable (M := barrier_machine thread_routine) c (settled c).
Proof. apply settle_reachable. Qed.
#[local] Strategy opaque [settled].
Definition outcome_ok (c : bconf (list thread_t)) : bool :=
  if finished c then
    bool_decide (printed c = [(2, [2; 3; 4; 5; 6; 7]); (3, [4; 5; 6; 7; 8; 9])]) &&
    match barrier_destroy 2 (bc_barrier c) 0 0 0 0 with Ok (0, _) => true | _ => false end
  else true.

Lemma barrier_listed : listed bconf_eqb barrier_main barrier_configurations = true.
Proof. by vm_compute. Qed.
Lemma barrier_closed :
  closed (M := barrier_machine thread_routine) bconf_eqb barrier_events barrier_configurations = true.
Proof. by vm_compute. Qed.
#[local] Strategy opaque [barrier_configurations].

Lemma barrier_explored (P : bconf (list thread_t) → bool) c :
  forallb P barrier_configurations = true →
  reachable (M := barrier_machine thread_routine) barrier_main c → P c = true.
Proof.
  exact (explored_all (M := barrier_machine thread_routine) bconf_eqb barrier_events bconf_eqb_eq
    P barrier_configurations barrier_main c (barrier_events_covers _) barrier_listed barrier_closed).
Qed.

Lemma outcome_ok_finished c :
  outcome_ok c = true → finished c = true →
  printed c = [(2, [2; 3; 4; 5; 6; 7]); (3, [4; 5; 6; 7; 8; 9])] ∧
  ∃ b', barrier_destroy 2 (bc_barrier c) 0 0 0 0 = Ok (0, b').
Proof.
  unfold outcome_ok. intros Hc Hf. rewrite Hf in Hc.
  apply andb_true_iff in Hc as [Hp Hd]. apply bool_decide_eq_true in Hp. split; [exact Hp|].
  destruct (barrier_destroy 2 (bc_barrier c) 0 0 0 0) as [[[] b']| |]; [eauto|discriminate..].
Qed.

(** Barrier_main computes the same arrays whatever the schedule.  When both
    threads are finished, main prints the increments 2 and 3 and the arrays
    2..7 and 4..9, and barrier_destroy succeeds. *)
Theorem barrier_main_deterministic c :
  reachable (M := barrier_machine thread_routine) barrier_main c → finished c = true →
  printed c = [(2, [2; 3; 4; 5; 6; 7]); (3, [4; 5; 6; 7; 8; 9])] ∧
  ∃ b', barrier_destroy 2 (bc_barrier c) 0 0 0 0 = Ok (0, b').
Proof.
  intros Hc Hf. apply outcome_ok_finished; [|exact Hf].
  apply barrier_explored; [by vm_compute|exact Hc].
Qed.

(** no thread raises the increments while another one is about to add its own *)
Definition raising (x : thread_t) (p : pc) : bool := th_second x && bool_decide (p = BReturn (-1)).
Definition adding (x : thread_t) (p : pc) : bool :=
  negb (th_second x) && match p with BReturn _ => true | _ => false end.
Definition race_free (c : bconf (list thread_t)) : bool :=
  let xs := zip (bc_client c) (bc_threads c) in
  negb (existsb (λ '(x, p), raising x p) xs && existsb (λ '(x, p), adding x p) xs).

(** Barrier_main cannot get stuck, has no data race and runs into no fault.
    From every configuration that it reaches both threads can still finish; the
    thread that raises the increments of both never does so while the other one
    is between the barriers where it reads its own. *)
Theorem barrier_main_finishes :
  (∀ c, reachable (M := barrier_machine thread_routine) barrier_main c → race_free c = true) ∧
  (∀ c, reachable (M := barrier_machine thread_routine) barrier_main c →
    ∃ c', reachable (M := barrier_machine thread_routine) c c' ∧ finished c' = true) ∧
  ∀ f, ¬ can_fault (M := barrier_machine thread_routine) barrier_main f.
Proof.
  split_and!.
  - intros c. apply barrier_explored. by vm_compute.
  - intros c Hc. assert (finished (settled c) = true) as Hf.
    { apply (barrier_explored (λ c, finished (settled c))); [by vm_compute|exact Hc]. }
    exists (settled c). split; [apply settled_reachable|exact Hf].
  - intros f. apply (explored_no_fault (M := barrier_machine thread_routine) bconf_eqb
      barrier_events bconf_eqb_eq barrier_configurations _ _ (barrier_events_covers _)
      barrier_listed barrier_closed). by vm_compute.
Qed.

(** ** Witnesses *)

(** two threads of a client that always calls again *)
Definition barrier_trace : list bevent :=
  [ERun 0 ok; ERun 0 ok; ERun 1 ok; ERun 1 ok; ERun 1 ok; ERun 1 ok].
Definition barrier_example : bconf unit :=
  final (M := barrier_bounded forever) (barrier_conf 2 tt) (barrier_trace ++ [ERun 0 ok; ERun 0 ok]).

Lemma barrier_waits_for_all_witness :
  (∀ u b, bc_arrived barrier_example !! u = Some b → (1 ≤ b ≤ 2)%nat) ∧
  ∃ u, (u, 1%nat, -1) ∈ bc_log barrier_example.
Proof.
  assert (reachable (M := barrier_bounded forever) (barrier_conf 2 tt) barrier_example) as Hr.
  { apply (reachable_final (M := barrier_bounded forever)). by vm_compute. }
  destruct (barrier_waits_for_all forever 2 tt ltac:(lia) barrier_example Hr) as (H1 & _ & _ & _ & H2).
  split.
  - refine (proj1 (H1 1%nat (BReturn (-1)) 1%nat _ _ _)); by vm_compute.
  - apply H2; [lia|]. change (bc_log barrier_example) with [(1%nat, 1%nat, -1); (0%nat, 1%nat, 0)].
    intros [|[|u]] Hu; [exists 0; set_solver|exists (-1); set_solver|lia].
Defined.

Definition barrier_blocked : bconf unit :=
  final (M := barrier_bounded forever) (barrier_conf 2 tt) (take 2 barrier_trace).
Lemma barrier_no_lost_wakeup_witness :
  (Z.of_nat 1 = b_cycle (bc_barrier barrier_blocked) + 1 ∧
    ∃ v b, bc_arrived barrier_blocked !! v = Some b ∧ Z.of_nat b = b_cycle (bc_barrier barrier_blocked))
  ∨ ∃ v, v ≠ 0%nat ∧ bc_threads barrier_blocked !! v = Some BBroadcast.
Proof.
  apply (barrier_no_lost_wakeup forever 2 tt ltac:(lia) barrier_blocked 0 (BWait 0) 1).
  - apply (reachable_final (M := barrier_bounded forever)). by vm_compute.
  - change (barrier_blocked.(bc_barrier).(b_cv)) with [0%nat]. set_solver.
  - by vm_compute.
  - by vm_compute.
Defined.

Definition barrier_main_end : bconf (list thread_t) := settled barrier_main.
Lemma barrier_main_deterministic_witness :
  printed barrier_main_end = [(2, [2; 3; 4; 5; 6; 7]); (3, [4; 5; 6; 7; 8; 9])] ∧
  ∃ b', barrier_destroy 2 (bc_barrier barrier_main_end) 0 0 0 0 = Ok (0, b').
Proof.
  apply (barrier_main_deterministic barrier_main_end).
  - apply settled_reachable.
  - by vm_compute.
Defined.
