(* ===== verification/AlarmList.v ===== *)
(** The alarms of alarm.c, alarm_mutex.c and alarm_cond.c: the command line, the
    alarm record and the list sorted by time.

    alarm_mutex.c (main) and alarm_cond.c ([alarm_insert]) insert with the same
    loop over a pointer to the link to be changed; here that pointer is a [place].
    [insert_time] is the specification of the insertion, [alarms_ok] the
    invariant of the list that the two programs share. *)

From Stdlib Require Import Ascii.
From S2P Require Import Prelude Queue.

Local Open Scope Z_scope.

(** ** sscanf(line, "%d %64[^\n]", ...) *)

Definition is_space (c : Ascii.ascii) : bool :=
  let n := Ascii.nat_of_ascii c in bool_decide (n = 32 ∨ 9 ≤ n ≤ 13)%nat.
Definition digit (c : Ascii.ascii) : option Z :=
  let n := Ascii.nat_of_ascii c in
  if bool_decide (48 ≤ n ≤ 57)%nat then Some (Z.of_nat (n - 48)) else None.

Fixpoint skip_space (s : string) : string :=
  match s with String c t => if is_space c then skip_space t else s | "" => "" end.
(** the value of the digits at the head of [s], the number read so far being [v] *)
Fixpoint read_digits (v : Z) (s : string) : Z * string :=
  match s with
  | String c t =>
      match digit c with Some d => read_digits (10 * v + d) t | None => (v, s) end
  | "" => (v, "")
  end.
(** [%d] after the blanks: a sign and at least one digit *)
Definition read_int (s : string) : option (Z * string) :=
  let '(sign, s) := match s with
    | String c t => if bool_decide (c = "-"%char) then (-1, t)
                    else if bool_decide (c = "+"%char) then (1, t) else (1, s)
    | "" => (1, "") end in
  match s with
  | String c _ =>
      match digit c with
      | Some _ => let '(v, rest) := read_digits 0 s in Some (sign * v, rest)
      | None => None
      end
  | "" => None
  end.
(** [%n[^\n]]: at most [n] characters, up to the end of the line *)
Fixpoint read_line (n : nat) (s : string) : string :=
  match n, s with
  | S n, String c t => if bool_decide (c = newline) then "" else String c (read_line n t)
  | _, _ => ""
  end.

Definition MESSAGE : nat := 64.   (* char message[64] *)

(** The number and the message, [None] when fewer than two items are read.  A
    number that is no int and a message that does not leave room for the null
    byte are faults. *)
Definition scan_alarm (line : string) : res (option (Z * string)) :=
  match read_int (skip_space line) with
  | None => Ok None
  | Some (v, rest) =>
      _ ← require (bool_decide (int32 v = v)) Overflow;
      match read_line 64 (skip_space rest) with
      | "" => Ok None
      | message =>
          _ ← require (bool_decide (String.length message < MESSAGE)%nat) OutOfBounds;
          Ok (Some (v, message))
      end
  end.

(** ** The list *)

Record alarm_t := Alarm {
  al_link : ptr;
  al_seconds : Z;
  al_time : Z;
  al_message : string
}.
Definition set_link (p : ptr) (a : alarm_t) : alarm_t :=
  Alarm p (al_seconds a) (al_time a) (al_message a).
Definition set_time (t : Z) (a : alarm_t) : alarm_t :=
  Alarm (al_link a) (al_seconds a) t (al_message a).

#[export] Instance alarm_linked : Linked alarm_t.
Proof. refine {| next := al_link; set_next := set_link |}. by intros p []. Defined.

(** what [alarm_t **last] points to *)
Inductive place : Type := AlarmList | LinkOf (l : loc).

(** [*last = q] *)
Definition store_place (h : gmap loc alarm_t) (alarm_list : ptr) (last : place) (q : ptr)
    : res (gmap loc alarm_t * ptr) :=
  match last with
  | AlarmList => Ok (h, q)
  | LinkOf l => h ← store_next h (Some l) q; Ok (h, alarm_list)
  end.

(** The loop [while (next != NULL)]: the place to change and where the loop
    stopped.  A loop that has not ended after [fuel] rounds is stuck. *)
Fixpoint insert_loop (fuel : nat) (h : gmap loc alarm_t) (time : Z) (last : place) (nxt : ptr)
    : res (place * ptr) :=
  match nxt with
  | None => Ok (last, None)
  | Some n =>
      match fuel with
      | O => Blocked
      | S fuel =>
          x ← load h nxt;
          if time <=? al_time x then Ok (last, nxt)
          else insert_loop fuel h time (LinkOf n) (al_link x)
      end
  end.

(** Lines 99-132 of alarm_mutex.c, 28-45 of alarm_cond.c *)
Definition insert_alarm (h : gmap loc alarm_t) (alarm_list : ptr) (alarm : loc)
    : res (gmap loc alarm_t * ptr) :=
  a ← load h (Some alarm);
  '(last, nxt) ← insert_loop (S (size h)) h (al_time a) AlarmList alarm_list;
  match nxt with
  | Some _ =>
      h ← store_next h (Some alarm) nxt;
      store_place h alarm_list last (Some alarm)
  | None =>
      '(h, alarm_list) ← store_place h alarm_list last (Some alarm);
      h ← store_next h (Some alarm) None;
      Ok (h, alarm_list)
  end.

(** [for (next = alarm_list; next != NULL; next = next->link) printf(...)] *)
Fixpoint print_list (fuel : nat) (h : gmap loc alarm_t) (nxt : ptr) : res (list (Z * string)) :=
  match nxt with
  | None => Ok []
  | Some _ =>
      match fuel with
      | O => Blocked
      | S fuel =>
          x ← load h nxt; l ← print_list fuel h (al_link x);
          Ok ((al_time x, al_message x) :: l)
      end
  end.

(** ** Specification *)

(** what is left of an alarm apart from its place in memory *)
Definition entry : Type := Z * Z * string.
Definition e_time (e : entry) : Z := e.1.1.
Definition entry_of (a : alarm_t) : entry := (al_time a, al_seconds a, al_message a).
Definition entries (h : gmap loc alarm_t) (ls : list loc) : list entry :=
  omap (λ l, entry_of <$> h !! l) ls.

(** insert before the first alarm that is not earlier *)
Fixpoint insert_time (x : entry) (l : list entry) : list entry :=
  match l with
  | [] => [x]
  | y :: l => if e_time x <=? e_time y then x :: y :: l else y :: insert_time x l
  end.

Fixpoint sorted (l : list entry) : Prop :=
  match l with
  | [] => True
  | x :: l => Forall (λ y, e_time x ≤ e_time y) l ∧ sorted l
  end.

Lemma insert_time_perm x l : insert_time x l ≡ₚ x :: l.
Proof.
  induction l as [|y l IH]; simpl; [done|]. destruct (e_time x <=? e_time y); [done|].
  rewrite IH. apply Permutation_swap.
Qed.

Lemma insert_time_sorted x l : sorted l → sorted (insert_time x l).
Proof.
  induction l as [|y l IH]; simpl; [done|]. intros [Hy Hl].
  destruct (e_time x <=? e_time y) eqn:Hxy; simpl.
  - apply Z.leb_le in Hxy. split; [|done]. constructor; [done|].
    eapply Forall_impl; [exact Hy|]. simpl. lia.
  - apply Z.leb_gt in Hxy. split; [|by apply IH].
    apply Forall_forall. intros z. rewrite insert_time_perm.
    intros [->|Hz]%elem_of_cons; [lia|]. rewrite Forall_forall in Hy. by apply Hy.
Qed.

Definition place_of (pre : list loc) : place :=
  match last pre with Some l => LinkOf l | None => AlarmList end.

(** the heap and the list head after [alarm] is linked in between [pre] and [suf] *)
Definition linked (h : gmap loc alarm_t) (alarm_list : ptr) (pre suf : list loc) (alarm : loc)
    (a : alarm_t) : gmap loc alarm_t * ptr :=
  let h' := <[alarm := set_link (head suf) a]> h in
  match last pre with
  | None => (h', Some alarm)
  | Some l => (match h !! l with Some x => <[l := set_link (Some alarm) x]> h' | None => h' end,
               alarm_list)
  end.

Lemma chain_app_place h p pre l suf n :
  chain h p (pre ++ l :: suf) → h !! l = Some n → chain h (next n) suf.
Proof.
  revert p; induction pre as [|k pre IH]; intros p; simpl.
  - intros (_ & m & Hm & Hc) Hn. by simplify_eq.
  - intros (_ & m & _ & Hc). by eapply IH.
Qed.

(** the loop stops at the first alarm that is not earlier *)
Lemma insert_loop_spec fuel h alarm_list time pre suf :
  chain h alarm_list (pre ++ suf) → (length suf ≤ fuel)%nat →
  ∃ mid rest, suf = mid ++ rest ∧
    insert_loop fuel h time (place_of pre) (head suf) = Ok (place_of (pre ++ mid), head rest) ∧
    Forall (λ y, e_time y < time) (entries h mid) ∧
    match entries h rest with [] => rest = [] | y :: _ => time ≤ e_time y end.
Proof.
  revert fuel pre; induction suf as [|l suf IH]; intros fuel pre Hc Hf.
  - exists [], []. rewrite !app_nil_r. split_and!; [done|by destruct fuel|by constructor|done].
  - assert (is_Some (h !! l)) as [x Hx] by (eapply chain_lookup; [done|set_solver]).
    destruct fuel as [|fuel]; [simpl in Hf; lia|]. simpl. rewrite Hx. simpl.
    destruct (time <=? al_time x) eqn:Ht.
    + exists [], (l :: suf). rewrite app_nil_r. split_and!; [done|done|by constructor|].
      simpl. rewrite Hx. simpl. unfold entry_of, e_time. simpl. lia.
    + destruct (IH fuel (pre ++ [l])) as (mid & rest & Heq & Hrun & Hmid & Hrest).
      { by rewrite <- app_assoc. }
      { simpl in Hf. lia. }
      exists (l :: mid), rest. split_and!; [by rewrite Heq| | |done].
      * assert (al_link x = head suf) as ->.
        { apply (chain_head h (al_link x) suf). change (al_link x) with (next x). by apply (chain_app_place h alarm_list pre l). }
        replace (LinkOf l) with (place_of (pre ++ [l])) by (unfold place_of; by rewrite last_snoc).
        rewrite Hrun. by rewrite <- app_assoc.
      * simpl. rewrite Hx. simpl. constructor; [|done]. unfold e_time, entry_of. simpl. lia.
Qed.

Lemma insert_alarm_linked h alarm_list alarm a ls :
  chain h alarm_list ls → NoDup ls → alarm ∉ ls → h !! alarm = Some a →
  ∃ pre suf, ls = pre ++ suf ∧
    insert_alarm h alarm_list alarm = Ok (linked h alarm_list pre suf alarm a) ∧
    Forall (λ y, e_time y < al_time a) (entries h pre) ∧
    match entries h suf with [] => suf = [] | y :: _ => al_time a ≤ e_time y end.
Proof.
  intros Hc Hnd Hl Ha.
  destruct (insert_loop_spec (S (size h)) h alarm_list (al_time a) [] ls)
    as (pre & suf & -> & Hrun & Hpre & Hsuf); [done| |].
  { assert (list_to_set ls ⊆@{gset loc} dom h) as Hsub.
    { intros k Hk. apply elem_of_dom. eapply chain_lookup; [done|]. set_solver. }
    apply subseteq_size in Hsub. rewrite size_list_to_set in Hsub by done.
    rewrite size_dom in Hsub. lia. }
  exists pre, suf. split_and!; [done| |done|done].
  rewrite <- (chain_head _ _ _ Hc) in Hrun. change (place_of []) with AlarmList in Hrun.
  unfold insert_alarm. cbn [load]. rewrite Ha. cbn [of_option mbind res_bind].
  rewrite Hrun. cbn [mbind res_bind app].
  unfold linked, place_of.
  destruct (head suf) as [s|] eqn:Hs; simpl.
  - rewrite Ha. simpl. destruct (last pre) as [k|] eqn:Hk; simpl; [|done].
    assert (k ∈ pre) by by apply last_Some_elem_of.
    assert (is_Some (h !! k)) as [x Hx] by (eapply chain_lookup; [done|set_solver]).
    rewrite lookup_insert_ne by set_solver. rewrite Hx. done.
  - destruct (last pre) as [k|] eqn:Hk; simpl; [|by rewrite Ha].
    assert (k ∈ pre) by by apply last_Some_elem_of.
    assert (is_Some (h !! k)) as [x Hx] by (eapply chain_lookup; [done|set_solver]).
    rewrite Hx. simpl. rewrite lookup_insert_ne by set_solver. rewrite Ha. simpl.
    by rewrite insert_insert_ne by set_solver.
Qed.

Lemma chain_insert_after h p pre k suf alarm a x :
  chain h p (pre ++ k :: suf) → NoDup (pre ++ k :: suf) → alarm ∉ pre ++ k :: suf →
  h !! alarm = Some a → h !! k = Some x →
  chain (<[k := set_link (Some alarm) x]> (<[alarm := set_link (head suf) a]> h)) p
    (pre ++ k :: alarm :: suf).
Proof.
  revert p; induction pre as [|j pre IH]; intros p; simpl.
  - intros (-> & m & Hm & Hc) [Hk Hnd]%NoDup_cons Hal Ha Hx. split; [done|].
    eexists. rewrite lookup_insert_eq. split; [done|]. split; [done|].
    eexists. rewrite lookup_insert_ne by set_solver. rewrite lookup_insert_eq.
    split; [done|]. simpl. simplify_eq. rewrite (chain_head _ _ _ Hc) in Hc.
    eapply chain_frame; [|exact Hc]. intros l n Hl Hn. exists n.
    rewrite !lookup_insert_ne by set_solver. done.
  - intros (-> & m & Hm & Hc) [Hj Hnd]%NoDup_cons Hal Ha Hx. split; [done|].
    exists m. rewrite !lookup_insert_ne by set_solver. split; [done|]. apply IH; set_solver.
Qed.

Lemma linked_chain h p pre suf alarm a :
  chain h p (pre ++ suf) → NoDup (pre ++ suf) → alarm ∉ pre ++ suf → h !! alarm = Some a →
  chain (linked h p pre suf alarm a).1 (linked h p pre suf alarm a).2 (pre ++ alarm :: suf).
Proof.
  intros Hc Hnd Hal Ha. unfold linked. destruct pre as [|k pre _] using rev_ind; simpl in *.
  - split; [done|]. eexists. rewrite lookup_insert_eq. split; [done|]. simpl.
    rewrite (chain_head _ _ _ Hc) in Hc. eapply chain_frame; [|exact Hc].
    intros l n Hl Hn. exists n. rewrite lookup_insert_ne by set_solver. done.
  - rewrite last_snoc. rewrite <- !app_assoc in *. simpl in *.
    assert (is_Some (h !! k)) as [x Hx] by (eapply chain_lookup; [done|set_solver]).
    rewrite Hx. by apply chain_insert_after.
Qed.

Lemma linked_entry h p pre suf alarm a l :
  h !! alarm = Some a →
  entry_of <$> (linked h p pre suf alarm a).1 !! l = entry_of <$> h !! l.
Proof.
  intros Ha. unfold linked. destruct (last pre) as [k|]; simpl.
  - destruct (h !! k) as [x|] eqn:Hx; [destruct (decide (l = k)) as [->|]|].
    + rewrite lookup_insert_eq, Hx. done.
    + rewrite lookup_insert_ne by done. destruct (decide (l = alarm)) as [->|].
      * by rewrite lookup_insert_eq, Ha.
      * by rewrite lookup_insert_ne.
    + destruct (decide (l = alarm)) as [->|].
      * by rewrite lookup_insert_eq, Ha.
      * by rewrite lookup_insert_ne.
  - destruct (decide (l = alarm)) as [->|].
    + by rewrite lookup_insert_eq, Ha.
    + by rewrite lookup_insert_ne.
Qed.

Lemma entries_cons h l ls :
  entries h (l :: ls) = option_list (entry_of <$> h !! l) ++ entries h ls.
Proof. unfold entries. simpl. by destruct (h !! l). Qed.

Lemma entries_frame h h' ls :
  (∀ l, l ∈ ls → entry_of <$> h' !! l = entry_of <$> h !! l) → entries h' ls = entries h ls.
Proof.
  induction ls as [|l ls IH]; intros H; [done|].
  rewrite !entries_cons, H, IH by set_solver. done.
Qed.

Lemma entries_app h ls ls' : entries h (ls ++ ls') = entries h ls ++ entries h ls'.
Proof. apply omap_app. Qed.

Lemma insert_time_split x l1 l2 :
  Forall (λ y, e_time y < e_time x) l1 →
  match l2 with [] => True | y :: _ => e_time x ≤ e_time y end →
  insert_time x (l1 ++ l2) = l1 ++ x :: l2.
Proof.
  induction 1 as [|y l1 Hy Hl IH]; intros H2; simpl.
  - destruct l2 as [|y l2]; simpl; [done|].
    destruct (e_time x <=? e_time y) eqn:Hxy; [done|]. apply Z.leb_gt in Hxy. lia.
  - destruct (e_time x <=? e_time y) eqn:Hxy; [apply Z.leb_le in Hxy; lia|].
    by rewrite IH.
Qed.

Lemma print_list_spec fuel h p ls :
  chain h p ls → (length ls ≤ fuel)%nat →
  print_list fuel h p = Ok (map (λ e, (e_time e, e.2)) (entries h ls)).
Proof.
  revert fuel p; induction ls as [|l ls IH]; intros fuel p; simpl.
  - intros -> _. by destruct fuel.
  - intros (-> & x & Hx & Hc) Hf. destruct fuel as [|fuel]; [simpl in Hf; lia|].
    simpl. rewrite Hx. simpl. change (al_link x) with (next x). rewrite (IH fuel) by (done || lia).
    done.
Qed.

Lemma chain_size (h : gmap loc alarm_t) p ls :
  chain h p ls → NoDup ls → (length ls ≤ size h)%nat.
Proof.
  intros Hc Hnd.
  assert (list_to_set ls ⊆@{gset loc} dom h) as Hsub.
  { intros k Hk. apply elem_of_dom. eapply chain_lookup; [done|]. set_solver. }
  apply subseteq_size in Hsub. rewrite size_list_to_set in Hsub by done.
  by rewrite size_dom in Hsub.
Qed.

(** insertion refines [insert_time] *)
Lemma insert_alarm_spec h alarm_list alarm a ls :
  chain h alarm_list ls → NoDup ls → alarm ∉ ls → h !! alarm = Some a →
  ∃ h' alarm_list' ls',
    insert_alarm h alarm_list alarm = Ok (h', alarm_list') ∧
    chain h' alarm_list' ls' ∧ ls' ≡ₚ alarm :: ls ∧
    entries h' ls' = insert_time (entry_of a) (entries h ls) ∧
    (∀ l, entry_of <$> h' !! l = entry_of <$> h !! l).
Proof.
  intros Hc Hnd Hal Ha.
  destruct (insert_alarm_linked h alarm_list alarm a ls) as (pre & suf & -> & Hrun & Hpre & Hsuf);
    [done..|].
  pose proof (linked_chain h alarm_list pre suf alarm a Hc Hnd Hal Ha) as Hc'.
  assert (∀ l, entry_of <$> (linked h alarm_list pre suf alarm a).1 !! l = entry_of <$> h !! l)
    as He by (intros l; by apply linked_entry).
  rewrite Hrun. destruct (linked h alarm_list pre suf alarm a) as [h' p'] eqn:Hl. simpl in *.
  exists h', p', (pre ++ alarm :: suf). split_and!; [done|done| | |done].
  - by rewrite Permutation_middle.
  - rewrite (entries_frame h h') by done. rewrite !entries_app.
    rewrite insert_time_split; [|done|].
    + f_equal. unfold entries. simpl. by rewrite Ha.
    + by destruct (entries h suf).
Qed.

(** ** The invariant of the list

    [fresh] is the alarm main is building, [busy] the one the alarm thread has
    taken off the list; [accepted] and [fired] are what was entered and printed. *)
Record alarms_ok (h : gmap loc alarm_t) (alarm_list : ptr) (fresh busy : option loc)
    (accepted fired : list entry) (ls : list loc) : Prop := {
  ao_chain : chain h alarm_list ls;
  ao_nodup : NoDup (option_list fresh ++ option_list busy ++ ls);
  ao_fresh : ∀ l, fresh = Some l → is_Some (h !! l);
  ao_busy : ∀ l, busy = Some l → is_Some (h !! l);
  ao_sorted : sorted (entries h ls);
  ao_all : accepted ≡ₚ fired ++ entries h (option_list busy ++ ls)
}.

Section alarms.
Context (h : gmap loc alarm_t) (alarm_list : ptr) (accepted fired : list entry).
Implicit Types (ls : list loc) (l : loc) (fresh busy : option loc).

Lemma alarms_malloc busy ls l a :
  alarms_ok h alarm_list None busy accepted fired ls → h !! l = None →
  alarms_ok (<[l := a]> h) alarm_list (Some l) busy accepted fired ls.
Proof.
  intros [Hc Hnd Hf Hb Hs Ha] Hl.
  assert (∀ k, k ∈ option_list busy ++ ls → k ≠ l) as Hne.
  { intros k [Hk|Hk]%elem_of_app ->.
    - destruct busy as [b|]; [|set_solver]. apply list_elem_of_singleton in Hk as ->.
      destruct (Hb b eq_refl). congruence.
    - destruct (chain_lookup _ _ _ _ Hc Hk). congruence. }
  assert (∀ ks, (∀ k, k ∈ ks → k ≠ l) → entries (<[l:=a]> h) ks = entries h ks) as He.
  { intros ks Hks. apply entries_frame. intros k Hk%Hks. by rewrite lookup_insert_ne. }
  split.
  - by apply chain_alloc.
  - simpl in *. apply NoDup_cons. split; [|done]. intros Hin. by apply (Hne l).
  - intros k [= <-]. rewrite lookup_insert_eq. by eexists.
  - intros k Hk. destruct (Hb k Hk) as [x Hx]. exists x.
    rewrite lookup_insert_ne; [done|]. intros ->. congruence.
  - rewrite He; [done|]. intros k Hk. apply Hne. set_solver.
  - by rewrite He.
Qed.

Lemma alarms_free busy ls l :
  alarms_ok h alarm_list (Some l) busy accepted fired ls →
  alarms_ok (delete l h) alarm_list None busy accepted fired ls.
Proof.
  intros [Hc Hnd Hf Hb Hs Ha]. simpl in Hnd. apply NoDup_cons in Hnd as [Hl Hnd].
  assert (∀ ks, l ∉ ks → entries (delete l h) ks = entries h ks) as He.
  { intros ks Hks. apply entries_frame. intros k Hk. rewrite lookup_delete_ne; [done|].
    intros ->. done. }
  split.
  - eapply chain_frame; [|exact Hc]. intros k n Hk Hn. exists n.
    rewrite lookup_delete_ne by set_solver. done.
  - done.
  - done.
  - intros k ->. destruct (Hb k eq_refl) as [x Hx]. exists x.
    rewrite lookup_delete_ne; [done|]. intros ->. set_solver.
  - rewrite He; [done|]. set_solver.
  - by rewrite He.
Qed.
End alarms.

Section alarms_steps.
Context (h : gmap loc alarm_t) (alarm_list : ptr) (accepted fired : list entry).
Implicit Types (ls : list loc) (l : loc) (fresh busy : option loc).

Lemma same_entries_lookup (h' : gmap loc alarm_t) l :
  (∀ l, entry_of <$> h' !! l = entry_of <$> h !! l) → is_Some (h !! l) → is_Some (h' !! l).
Proof. intros He. rewrite <- (fmap_is_Some entry_of), <- He, fmap_is_Some. done. Qed.

(** main writes the record it is building *)
Lemma alarms_set busy ls l a :
  alarms_ok h alarm_list (Some l) busy accepted fired ls →
  alarms_ok (<[l := a]> h) alarm_list (Some l) busy accepted fired ls.
Proof.
  intros [Hc Hnd Hf Hb Hs Ha]. pose proof Hnd as Hnd'. simpl in Hnd'.
  apply NoDup_cons in Hnd' as [Hl Hnd'].
  assert (∀ ks, l ∉ ks → entries (<[l:=a]> h) ks = entries h ks) as He.
  { intros ks Hks. apply entries_frame. intros k Hk. rewrite lookup_insert_ne; [done|].
    intros ->. done. }
  split; try done.
  - eapply chain_frame; [|exact Hc]. intros k n Hk Hn. exists n.
    rewrite lookup_insert_ne by set_solver. done.
  - intros k [= <-]. rewrite lookup_insert_eq. by eexists.
  - intros k ->. destruct (Hb k eq_refl) as [x Hx]. exists x.
    rewrite lookup_insert_ne; [done|]. intros ->. set_solver.
  - rewrite He; [done|]. set_solver.
  - by rewrite He.
Qed.

(** main inserts the new alarm *)
Lemma alarms_insert busy ls l a :
  alarms_ok h alarm_list (Some l) busy accepted fired ls → h !! l = Some a →
  ∃ h' alarm_list' ls', insert_alarm h alarm_list l = Ok (h', alarm_list') ∧
    alarms_ok h' alarm_list' None busy (accepted ++ [entry_of a]) fired ls' ∧
    entries h' ls' = insert_time (entry_of a) (entries h ls) ∧
    (∀ k, entry_of <$> h' !! k = entry_of <$> h !! k).
Proof.
  intros [Hc Hnd Hf Hb Hs Ha] Hl. simpl in Hnd. apply NoDup_cons in Hnd as [Hnl Hnd].
  destruct (insert_alarm_spec h alarm_list l a ls) as (h' & p' & ls' & Hrun & Hc' & Hp & He & Hsame);
    [done|by apply list.NoDup_app in Hnd as (_ & _ & ?)|set_solver|done|].
  exists h', p', ls'. split_and!; [done| |done|done]. split.
  - done.
  - simpl. rewrite Hp. rewrite <- Permutation_middle. by apply NoDup_cons.
  - done.
  - intros k Hk. eapply same_entries_lookup; [done|]. by apply Hb.
  - rewrite He. by apply insert_time_sorted.
  - rewrite entries_app, He, insert_time_perm.
    rewrite (entries_frame h h') by done. rewrite entries_app in Ha.
    rewrite Ha. rewrite <- !Permutation_middle, app_nil_r. done.
Qed.

(** the alarm thread takes the first alarm *)
Lemma alarms_take fresh ls l :
  alarms_ok h (Some l) fresh None accepted fired ls →
  ∃ x ls', h !! l = Some x ∧ ls = l :: ls' ∧
    alarms_ok h (al_link x) fresh (Some l) accepted fired ls' ∧
    Forall (λ y, al_time x ≤ e_time y) (entries h ls').
Proof.
  intros [Hc Hnd Hf Hb Hs Ha]. destruct ls as [|k ls]; [done|].
  simpl in Hc. destruct Hc as ([= <-] & x & Hx & Hc). exists x, ls.
  rewrite entries_cons, Hx in Hs. simpl in Hs. destruct Hs as [Hall Hs].
  split_and!; [done|done| |done]. split; try done.
  intros k [= <-]. by eexists.
Qed.

(** ... and puts it back *)
Lemma alarms_reinsert fresh ls l a :
  alarms_ok h alarm_list fresh (Some l) accepted fired ls → h !! l = Some a →
  ∃ h' alarm_list' ls', insert_alarm h alarm_list l = Ok (h', alarm_list') ∧
    alarms_ok h' alarm_list' fresh None accepted fired ls' ∧
    entries h' ls' = insert_time (entry_of a) (entries h ls) ∧
    (∀ k, entry_of <$> h' !! k = entry_of <$> h !! k).
Proof.
  intros [Hc Hnd Hf Hb Hs Ha] Hl. apply list.NoDup_app in Hnd as (Hnf & Hd & Hnd).
  simpl in Hnd. apply NoDup_cons in Hnd as [Hnl Hnd].
  destruct (insert_alarm_spec h alarm_list l a ls) as (h' & p' & ls' & Hrun & Hc' & Hp & He & Hsame);
    [done..|].
  exists h', p', ls'. split_and!; [done| |done|done]. split.
  - done.
  - apply list.NoDup_app. split_and!; [done| |].
    + intros k Hk. simpl. rewrite Hp. by apply Hd.
    + simpl. rewrite Hp. by apply NoDup_cons.
  - intros k Hk. eapply same_entries_lookup; [done|]. by apply Hf.
  - done.
  - rewrite He. by apply insert_time_sorted.
  - change (option_list None ++ ls') with ls'. rewrite He, insert_time_perm.
    change (option_list (Some l) ++ ls) with (l :: ls) in Ha. by rewrite entries_cons, Hl in Ha.
Qed.

(** the alarm thread prints and frees the alarm it has taken *)
Lemma alarms_fire fresh ls l a :
  alarms_ok h alarm_list fresh (Some l) accepted fired ls → h !! l = Some a →
  alarms_ok (delete l h) alarm_list fresh None accepted (fired ++ [entry_of a]) ls.
Proof.
  intros [Hc Hnd Hf Hb Hs Ha] Hl. apply list.NoDup_app in Hnd as (Hnf & Hd & Hnd).
  simpl in Hnd. apply NoDup_cons in Hnd as [Hnl Hnd].
  assert (∀ ks, l ∉ ks → entries (delete l h) ks = entries h ks) as He.
  { intros ks Hks. apply entries_frame. intros k Hk. rewrite lookup_delete_ne; [done|].
    intros ->. done. }
  split.
  - eapply chain_frame; [|exact Hc]. intros k n Hk Hn. exists n.
    rewrite lookup_delete_ne by set_solver. done.
  - apply list.NoDup_app. split_and!; [done| |done]. intros k Hk Hin. apply (Hd k Hk). set_solver.
  - intros k ->. destruct (Hf k eq_refl) as [x Hx]. exists x.
    rewrite lookup_delete_ne; [done|]. intros ->. apply (Hd k); set_solver.
  - done.
  - by rewrite He.
  - change (option_list None ++ ls) with ls. rewrite He by done.
    change (option_list (Some l) ++ ls) with (l :: ls) in Ha. rewrite entries_cons, Hl in Ha.
    rewrite Ha. by rewrite <- app_assoc.
Qed.

Lemma alarms_start : alarms_ok ∅ None None None [] [] [].
Proof. split; simpl; try done. apply NoDup_nil_2. Qed.

(** the loop that prints the list always ends *)
Lemma alarms_print fresh busy ls :
  alarms_ok h alarm_list fresh busy accepted fired ls →
  print_list (size h) h alarm_list = Ok (map (λ e, (e_time e, e.2)) (entries h ls)).
Proof.
  intros [Hc Hnd _ _ _ _]. apply print_list_spec; [done|].
  eapply chain_size; [done|]. apply list.NoDup_app in Hnd as (_ & _ & Hnd).
  by apply list.NoDup_app in Hnd as (_ & _ & Hnd).
Qed.
End alarms_steps.

(** ** Lemmas the two programs share *)

Lemma scan_alarm_seconds line s m : scan_alarm line = Ok (Some (s, m)) → s < 2 ^ 31.
Proof.
  unfold scan_alarm. destruct (read_int (skip_space line)) as [[v rest]|]; [|done].
  intros Hs. assert (int32 v = v ∧ s = v) as [Hv ->].
  { apply bind_Ok in Hs as (u & Hu & Hs). apply require_Ok, bool_decide_eq_true in Hu.
    split; [done|]. destruct (read_line 64 (skip_space rest)); [done|].
    apply bind_Ok in Hs as (u' & _ & Hs). by simplify_eq. }
  pose proof (wrap_signed_range 32 v). lia.
Qed.

(** an alarm off the list is an accepted one *)
Lemma busy_accepted h l fr k acc fired ls a :
  alarms_ok h l fr (Some k) acc fired ls → h !! k = Some a → entry_of a ∈ acc.
Proof.
  intros [_ _ _ _ _ Ha] Hk. rewrite Ha. apply elem_of_app. right.
  change (option_list (Some k) ++ ls) with (k :: ls). rewrite entries_cons, Hk. simpl. set_solver.
Qed.

Lemma busy_allocated h l fr b acc fired ls k x :
  alarms_ok h l fr b acc fired ls → b = Some k → h !! x = None → k ≠ x.
Proof. intros [_ _ _ Hb _ _] ->. destruct (Hb k eq_refl). congruence. Qed.

Lemma busy_fresh h l k b acc fired ls x :
  alarms_ok h l (Some k) b acc fired ls → b = Some x → x ≠ k.
Proof.
  intros [_ Hnd _ _ _ _] ->. simpl in Hnd. apply NoDup_cons in Hnd as [Hnd _]. set_solver.
Qed.

(** malloc failed, the message filled its buffer, the number was no int *)
Definition input_fault (f : fault) : Prop := f = NullDeref ∨ f = OutOfBounds ∨ f = Overflow.

Lemma scan_alarm_fault line f : scan_alarm line = Fault f → input_fault f.
Proof.
  unfold scan_alarm. destruct (read_int (skip_space line)) as [[v rest]|]; [|done].
  intros [[_ <-]%require_Fault|(u & _ & Hs)]%bind_Fault; [by right; right|].
  destruct (read_line 64 (skip_space rest)); [done|].
  apply bind_Fault in Hs as [[_ <-]%require_Fault|(u' & _ & Hs)]; [by right; left|done].
Qed.
