(* ===== verification/AlarmMutex.v ===== *)
(** alarm_mutex.c: main reads alarms and keeps them in a sorted list, a thread
    takes the first one, sleeps until its time and prints it.

    Thread 0 is main, thread 1 is [alarm_thread].  The clock is part of the
    configuration; an event [ETick] lets a second pass. *)

From S2P Require Import Prelude Pthread Queue AlarmList.

Local Open Scope Z_scope.

(** ** Configurations *)

Inductive pc : Type :=
  (* main *)
  | MRead                          (* line 73: fgets *)
  | MLock (alarm : loc)            (* line 93 *)
  | MUnlock                        (* line 137 *)
  | MExit
  (* alarm_thread *)
  | TLock                          (* line 27 *)
  | TUnlock (alarm : ptr) (sleep_time : Z)   (* line 46 *)
  | TSleep (alarm : ptr) (until : Z)         (* line 48, asleep until that time *)
  | TPrint (alarm : ptr).                    (* line 52 *)

(** The logs: the alarms entered, those printed, and when each was printed. *)
Record aconf := AConf {
  a_heap : gmap loc alarm_t;
  a_list : ptr;              (* alarm_list *)
  a_mutex : mutex;
  a_now : Z;                 (* time(NULL) *)
  a_threads : list pc;
  a_accepted : list entry;
  a_fired : list (Z * entry)
}.

Section updates.
Variable c : aconf.
Definition goto t p := AConf (a_heap c) (a_list c) (a_mutex c) (a_now c) (<[t := p]> (a_threads c))
  (a_accepted c) (a_fired c).
Definition set_alarms h l := AConf h l (a_mutex c) (a_now c) (a_threads c) (a_accepted c) (a_fired c).
Definition set_mutex m := AConf (a_heap c) (a_list c) m (a_now c) (a_threads c) (a_accepted c)
  (a_fired c).
Definition tick := AConf (a_heap c) (a_list c) (a_mutex c) (a_now c + 1) (a_threads c)
  (a_accepted c) (a_fired c).
Definition log_accepted x := AConf (a_heap c) (a_list c) (a_mutex c) (a_now c) (a_threads c)
  (a_accepted c ++ [x]) (a_fired c).
Definition log_fired x := AConf (a_heap c) (a_list c) (a_mutex c) (a_now c) (a_threads c)
  (a_accepted c) (a_fired c ++ [(a_now c, x)]).
End updates.

(** a failing lock or unlock is only reported: the thread goes on without *)
Definition lock (t : tid) (o : oracle) (c : aconf) : res aconf :=
  if o_status o =? 0 then m ← mutex_lock t (a_mutex c); Ok (set_mutex c m) else Ok c.
Definition unlock (t : tid) (o : oracle) (c : aconf) : res aconf :=
  if o_status o =? 0 then m ← mutex_unlock t (a_mutex c); Ok (set_mutex c m) else Ok c.

(** ** main *)

(** Lines 73-90: a blank line is skipped; a failing malloc is reported and its
    NULL then dereferenced; a bad command frees the record.  The link and the
    time of the record are written before anything reads them. *)
Definition main_read (t : tid) (o : oracle) (c : aconf) : res aconf :=
  match o_line o with
  | None => Ok (goto c t MExit)
  | Some line =>
      if (String.length line <=? 1)%nat then Ok c
      else
        alarm ← of_option NullDeref (o_alloc o);
        h ← malloc (a_heap c) (Alarm None 0 0 "") alarm;
        scanned ← scan_alarm line;
        match scanned with
        | None => h ← free h (Some alarm); Ok (set_alarms c h (a_list c))
        | Some (seconds, message) =>
            Ok (goto (set_alarms c (<[alarm := Alarm None seconds 0 message]> h) (a_list c)) t
                  (MLock alarm))
        end
  end.

(** Lines 96-136: compute the time, insert, and print the list *)
Definition main_insert (t : tid) (alarm : loc) (c : aconf) : res aconf :=
  a ← load (a_heap c) (Some alarm);
  let a := set_time (a_now c + al_seconds a) a in
  '(h, l) ← insert_alarm (<[alarm := a]> (a_heap c)) (a_list c) alarm;
  _ ← print_list (size h) h l;
  Ok (goto (log_accepted (set_alarms c h l) (entry_of a)) t MUnlock).

Definition main_step (t : tid) (p : pc) (o : oracle) (c : aconf) : res aconf :=
  match p with
  | MRead => main_read t o c
  | MLock alarm => c ← lock t o c; main_insert t alarm c
  | MUnlock => c ← unlock t o c; Ok (goto c t MRead)
  | _ => Blocked
  end.

(** ** alarm_thread *)

(** Lines 30-45: take the first alarm *)
Definition alarm_take (t : tid) (c : aconf) : res aconf :=
  match a_list c with
  | None => Ok (goto c t (TUnlock None 1))
  | Some l =>
      alarm ← load (a_heap c) (Some l);
      let c := set_alarms c (a_heap c) (al_link alarm) in
      let sleep_time := if al_time alarm <=? a_now c then 0
                        else int32 (al_time alarm - a_now c) in
      Ok (goto c t (TUnlock (Some l) sleep_time))
  end.

(** Lines 47-50: sleep, or only give way *)
Definition alarm_sleep (t : tid) (alarm : ptr) (sleep_time : Z) (c : aconf) : aconf :=
  if 0 <? sleep_time then goto c t (TSleep alarm (a_now c + sleep_time))
  else goto c t (TPrint alarm).

(** Lines 52-55 *)
Definition alarm_print (t : tid) (alarm : ptr) (c : aconf) : res aconf :=
  match alarm with
  | None => Ok (goto c t TLock)
  | Some l =>
      a ← load (a_heap c) (Some l);
      h ← free (a_heap c) (Some l);
      Ok (goto (log_fired (set_alarms c h (a_list c)) (entry_of a)) t TLock)
  end.

Definition alarm_thread_step (t : tid) (p : pc) (o : oracle) (c : aconf) : res aconf :=
  match p with
  | TLock => c ← lock t o c; alarm_take t c
  | TUnlock alarm sleep_time => c ← unlock t o c; Ok (alarm_sleep t alarm sleep_time c)
  | TSleep alarm until => _ ← await (until <=? a_now c); Ok (goto c t (TPrint alarm))
  | TPrint alarm => alarm_print t alarm c
  | _ => Blocked
  end.

(** ** The machine *)

Inductive aevent : Type :=
  | ERun (t : tid) (o : oracle)
  | ETick.

(** when main returns from fgets with NULL, exit ends both threads *)
Definition exited (c : aconf) : bool :=
  match a_threads c !! 0%nat with Some MExit => true | _ => false end.

Definition astep (c : aconf) (e : aevent) : res aconf :=
  match e with
  | ERun t o =>
      if exited c then Blocked
      else match a_threads c !! t with
      | Some ((MRead | MLock _ | MUnlock | MExit) as p) => main_step t p o c
      | Some p => alarm_thread_step t p o c
      | None => Blocked
      end
  | ETick => Ok (tick c)
  end.
#[export] Instance alarm_machine : Machine aconf aevent := astep.

(** lock and unlock do not fail, and the difference of two times that the program
    computes fits an int *)
Definition reliable (c : aconf) (e : aevent) : bool :=
  match e with ERun _ o => o_status o =? 0 | _ => true end.
Definition alarm_reliable : Machine aconf aevent := restrict reliable.

Definition alarm_start (now : Z) : aconf := AConf ∅ None None now [MRead; TLock] [] [].

(** ** The invariant *)

Definition holding (p : pc) : bool := match p with MUnlock | TUnlock _ _ => true | _ => false end.
Definition is_main (p : pc) : bool :=
  match p with MRead | MLock _ | MUnlock | MExit => true | _ => false end.
(** the alarm that main is building, and the one the thread has taken *)
Definition fresh (p : pc) : option loc := match p with MLock l => Some l | _ => None end.
Definition busy (p : pc) : option loc :=
  match p with TUnlock a _ | TSleep a _ | TPrint a => a | _ => None end.

(** the alarm at hand is not printed before its time *)
Definition patient (now : Z) (h : gmap loc alarm_t) (p : pc) : Prop :=
  ∀ l a, busy p = Some l → h !! l = Some a →
  match p with
  | TUnlock _ sleep_time => al_time a ≤ now + sleep_time ∧ (0 < sleep_time ∨ al_time a ≤ now)
  | TSleep _ until => al_time a ≤ until
  | _ => al_time a ≤ now
  end.

Record alarm_ok (c : aconf) (pm pt : pc) (ls : list loc) : Prop := {
  am_threads : a_threads c = [pm; pt];
  am_main : is_main pm = true;
  am_thread : is_main pt = false;
  am_mutex : mutex_ok holding (a_mutex c) (a_threads c);
  am_alarms : alarms_ok (a_heap c) (a_list c) (fresh pm) (busy pt) (a_accepted c)
    (map snd (a_fired c)) ls;
  am_seconds : ∀ l a, pm = MLock l → a_heap c !! l = Some a → al_seconds a < 2 ^ 31;
  am_bound : ∀ e, e ∈ a_accepted c → e_time e < a_now c + 2 ^ 31;
  am_patient : patient (a_now c) (a_heap c) pt;
  am_fired : ∀ now e, (now, e) ∈ a_fired c → e_time e ≤ now
}.

Lemma alarm_start_ok now : alarm_ok (alarm_start now) MRead TLock [].
Proof.
  split; simpl; try done.
  - intros [|[|t]] p; simpl; naive_solver.
  - apply alarms_start.
  - set_solver.
  - set_solver.
Qed.

Lemma patient_frame now h h' p :
  patient now h p → (∀ l, busy p = Some l → entry_of <$> h' !! l = entry_of <$> h !! l) →
  patient now h' p.
Proof.
  intros Hp Hh l a Hl Ha. specialize (Hh l Hl). rewrite Ha in Hh.
  destruct (h !! l) as [b|] eqn:Hb; [|done]. simpl in Hh. injection Hh as Ht _ _.
  specialize (Hp l b Hl Hb). rewrite <- Ht in Hp. exact Hp.
Qed.

Section stability.
Context (c : aconf) (pm pt : pc) (ls : list loc) (Hok : alarm_ok c pm pt ls).

Lemma tick_ok : alarm_ok (tick c) pm pt ls.
Proof.
  destruct Hok as [Ht H1 H2 Hm Ha Hs Hb Hp Hf]. split; simpl; try done.
  - intros e He%Hb. lia.
  - intros l a Hl Hk. specialize (Hp l a Hl Hk). destruct pt; simpl in *; lia.
Qed.

Lemma main_read_ok o c' :
  pm = MRead → main_read 0 o c = Ok c' → ∃ pm', alarm_ok c' pm' pt ls.
Proof.
  intros ->. destruct Hok as [Ht H1 H2 Hm Ha Hs Hb Hp Hf]. unfold main_read.
  assert (∀ p, holding p = false → mutex_ok holding (a_mutex c) (<[0%nat := p]> [MRead; pt])) as Hmp.
  { intros p Hh. apply mutex_ok_keep; [by rewrite <- Ht|]. congruence. }
  destruct (o_line o) as [line|].
  2:{ intros [= <-]. exists MExit. split; simpl; rewrite ?Ht; try done. by apply Hmp. }
  destruct (String.length line <=? 1)%nat.
  { intros [= <-]. exists MRead. by split. }
  intros Hst. res_inv. match goal with H : malloc _ _ _ = Ok _ |- _ => apply malloc_Ok in H as [Hfree ->] end.
  match goal with H : scan_alarm line = Ok ?r |- _ => rename H into Hscan; destruct r as [[seconds message]|] end.
  - res_inv. subst c'. eexists (MLock _). split; simpl; rewrite ?Ht; try done.
    + by apply Hmp.
    + by apply alarms_set, alarms_malloc.
    + intros l a [= <-]. rewrite lookup_insert_eq. intros [= <-]. simpl.
      by eapply scan_alarm_seconds.
    + eapply patient_frame; [exact Hp|]. intros l Hl. rewrite insert_insert_eq.
      rewrite lookup_insert_ne; [done|]. intros ->. by eapply busy_allocated.
  - res_inv. subst c'.
    match goal with H : free _ _ = Ok _ |- _ => simpl in H; rewrite lookup_insert_eq in H; injection H as <- end.
    rewrite delete_insert_id by done. exists MRead. by split.
Qed.

Lemma main_insert_ok alarm c' :
  pm = MLock alarm → a_mutex c = Some 0%nat →
  mutex_ok holding (Some 0%nat) [MUnlock; pt] →
  main_insert 0 alarm c = Ok c' → ∃ ls', alarm_ok c' MUnlock pt ls'.
Proof.
  intros -> Hmx Hmp. destruct Hok as [Ht H1 H2 Hm Ha Hs Hb Hp Hf]. simpl in Ha.
  intros Hst. unfold main_insert in Hst. res_inv.
  match goal with H : load _ _ = Ok ?r |- _ => simpl in H; apply of_option_Ok in H; rename H into Hl, r into a end.
  pose proof (alarms_set _ _ _ _ _ _ _ (set_time (a_now c + al_seconds a) a) Ha) as Ha'.
  destruct (alarms_insert _ _ _ _ _ _ _ _ Ha' (lookup_insert_eq _ _ _)) as (h' & l' & ls' & Hrun & Hok' & _ & Hsame).
  match goal with H : insert_alarm _ _ _ = Ok ?r |- _ => rewrite Hrun in H; injection H as <- end.
  res_inv. subst c'. exists ls'. split; simpl; rewrite ?Ht, ?Hmx; try done.
  - intros e [He%Hb|He]%elem_of_app; [done|]. apply list_elem_of_singleton in He as ->.
    specialize (Hs alarm a eq_refl Hl). unfold e_time, entry_of. simpl. lia.
  - eapply patient_frame; [exact Hp|]. intros l Hbl. rewrite Hsame, lookup_insert_ne; [done|].
    intros <-. by eapply (busy_fresh _ _ alarm).
Qed.

Lemma thread_take_ok c' :
  pt = TLock → a_mutex c = Some 1%nat →
  (∀ p, mutex_ok holding (Some 1%nat) [pm; p]) →
  alarm_take 1 c = Ok c' → ∃ pt' ls', alarm_ok c' pm pt' ls'.
Proof.
  intros -> Hmx Hmp. destruct Hok as [Ht H1 H2 Hm Ha Hs Hb Hp Hf]. simpl in Ha.
  unfold alarm_take. destruct (a_list c) as [l|] eqn:Hl.
  2:{ intros [= <-]. exists (TUnlock None 1), ls. split; simpl; rewrite ?Ht; try done.
      - rewrite Hmx. apply Hmp.
      - by rewrite Hl. }
  intros Hst. res_inv. subst c'.
  destruct (alarms_take _ _ _ _ _ _ Ha) as (y & ls' & Hx & -> & Ha' & _).
  match goal with H : load _ _ = Ok _ |- _ => simpl in H; rewrite Hx in H; injection H as <- end.
  eexists (TUnlock (Some l) _), ls'. split; simpl; rewrite ?Ht; try done.
  - rewrite Hmx. apply Hmp.
  - intros k a [= <-] Hk. simplify_eq.
    pose proof (Hb _ (busy_accepted _ _ _ _ _ _ _ _ Ha' Hx)) as Hbx.
    unfold e_time, entry_of in Hbx. simpl in Hbx.
    destruct (al_time y <=? a_now c) eqn:Hle; simpl; [lia|].
    apply Z.leb_gt in Hle. rewrite wrap_signed_id by lia. lia.
Qed.

Lemma thread_print_ok alarm c' :
  pt = TPrint alarm → alarm_print 1 alarm c = Ok c' → alarm_ok c' pm TLock ls.
Proof.
  intros ->. destruct Hok as [Ht H1 H2 Hm Ha Hs Hb Hp Hf].
  assert (mutex_ok holding (a_mutex c) (<[1%nat := TLock]> [pm; TPrint alarm])) as Hmp.
  { apply mutex_ok_keep; [by rewrite <- Ht|]. done. }
  unfold alarm_print. destruct alarm as [l|].
  2:{ intros [= <-]. split; simpl; rewrite ?Ht; try done. }
  intros Hst. res_inv. subst c'.
  match goal with H : load _ _ = Ok ?r |- _ => simpl in H; apply of_option_Ok in H; rename H into Hl, r into a end.
  match goal with H : free _ _ = Ok _ |- _ => simpl in H; rewrite Hl in H; injection H as <- end.
  split; simpl; rewrite ?Ht; try done.
  - rewrite map_app. simpl. by apply alarms_fire.
  - intros k b Hk. rewrite lookup_delete_ne; [by apply Hs|]. intros <-.
    subst pm. simpl in Ha. by eapply (busy_fresh _ _ l).
  - intros now e [He|He]%elem_of_app; [by apply Hf|]. apply list_elem_of_singleton in He as [= -> ->].
    by apply (Hp l a).
Qed.
End stability.

Lemma lock_none c pm pt ls t :
  alarm_ok c pm pt ls → a_mutex c = None → alarm_ok (set_mutex c (Some t)) pm pt ls.
Proof.
  intros [Ht H1 H2 Hm Ha Hs Hb Hp Hf] Hmx. split; simpl; try done.
  intros u p Hu Hh. rewrite Hmx in Hm. by specialize (Hm u p Hu Hh).
Qed.

Lemma alarm_step_ok c c' e pm pt ls :
  alarm_ok c pm pt ls → reliable c e = true → astep c e = Ok c' →
  ∃ pm' pt' ls', alarm_ok c' pm' pt' ls'.
Proof.
  intros Hok Hr Hst. destruct e as [t o|]; simpl in *.
  2:{ injection Hst as <-. exists pm, pt, ls. by apply tick_ok. }
  apply Z.eqb_eq in Hr. pose proof Hok as [Ht H1 H2 Hm _ _ _ _ _].
  destruct (exited c); [done|]. rewrite Ht in Hst.
  assert (∀ t c1, lock t o c = Ok c1 → a_mutex c = None ∧ c1 = set_mutex c (Some t)) as Hlock.
  { intros u c1 Hl. unfold lock in Hl. rewrite Hr in Hl. simpl in Hl. sync_inv. by subst. }
  assert (∀ t c1, unlock t o c = Ok c1 → a_mutex c = Some t ∧ c1 = set_mutex c None) as Hunlock.
  { intros u c1 Hl. unfold unlock in Hl. rewrite Hr in Hl. simpl in Hl. sync_inv. by subst. }
  destruct t as [|[|t]]; simpl in Hst; [| |done].
  - destruct pm as [|alarm| | | | | |] eqn:Hpm; try discriminate; simpl in Hst; try done.
    + destruct (main_read_ok c MRead pt ls Hok o c' eq_refl Hst) as [pm' ?]. by exists pm', pt, ls.
    + res_inv. match goal with H : lock _ _ _ = Ok _ |- _ => apply Hlock in H as [Hmx ->] end.
      rewrite Hmx in Hm. exists MUnlock, pt.
      eapply (main_insert_ok _ _ _ _ (lock_none c _ _ _ 0 Hok Hmx)); [done|done| |done].
      rewrite Ht in Hm. apply (mutex_ok_acquire _ _ 0 MUnlock Hm).
    + res_inv. match goal with H : unlock _ _ _ = Ok _ |- _ => apply Hunlock in H as [Hmx ->] end.
      subst c'. exists MRead, pt, ls. destruct Hok as [_ _ _ _ Ha Hs Hb Hp Hf].
      split; simpl; rewrite ?Ht; try done. rewrite Ht, Hmx in Hm.
      by apply (mutex_ok_release _ _ 0 MRead Hm).
  - destruct pt as [| | | | |alarm s|alarm u|alarm] eqn:Hpt; try discriminate; simpl in Hst.
    + res_inv. match goal with H : lock _ _ _ = Ok _ |- _ => apply Hlock in H as [Hmx ->] end.
      rewrite Hmx in Hm. exists pm.
      eapply (thread_take_ok _ _ _ _ (lock_none c _ _ _ 1 Hok Hmx)); [done|done| |done].
      intros p. rewrite Ht in Hm. apply (mutex_ok_acquire _ _ 1 p Hm).
    + res_inv. match goal with H : unlock _ _ _ = Ok _ |- _ => apply Hunlock in H as [Hmx ->] end.
      subst c'. rewrite Ht, Hmx in Hm. destruct Hok as [_ _ _ _ Ha Hs Hb Hp Hf].
      exists pm. unfold alarm_sleep. simpl. destruct (0 <? s) eqn:Hs0.
      * exists (TSleep alarm (a_now c + s)), ls. split; simpl; rewrite ?Ht; try done.
        -- by apply (mutex_ok_release _ _ 1 _ Hm).
        -- intros l a Hl Hk. by destruct (Hp l a Hl Hk).
      * exists (TPrint alarm), ls. split; simpl; rewrite ?Ht; try done.
        -- by apply (mutex_ok_release _ _ 1 _ Hm).
        -- intros l a Hl Hk. destruct (Hp l a Hl Hk) as [? [?|?]]; lia.
    + res_inv. subst c'. destruct Hok as [_ _ _ _ Ha Hs Hb Hp Hf].
      exists pm, (TPrint alarm), ls. split; simpl; rewrite ?Ht; try done.
      * rewrite Ht in Hm. apply (mutex_ok_keep _ _ _ 1 (TPrint alarm) Hm). done.
      * intros l a Hl Hk. specialize (Hp l a Hl Hk). simpl in Hp. lia.
    + exists pm, TLock, ls. by eapply thread_print_ok.
Qed.

Lemma alarm_reachable_ok now c :
  reachable (M := alarm_reliable) (alarm_start now) c → ∃ pm pt ls, alarm_ok c pm pt ls.
Proof.
  apply (invariant_run (M := alarm_reliable) (λ c, ∃ pm pt ls, alarm_ok c pm pt ls)).
  - exists MRead, TLock, []. apply alarm_start_ok.
  - intros c1 e c2 (pm & pt & ls & Hok) [Hr Hs]%restrict_Ok. by eapply alarm_step_ok.
Qed.

(** ** Faults *)

Section faults.
Context (c : aconf) (pm pt : pc) (ls : list loc) (Hok : alarm_ok c pm pt ls).

Lemma main_read_fault o f : main_read 0 o c = Fault f → input_fault f.
Proof.
  unfold main_read. destruct (o_line o) as [line|]; [|done].
  destruct (String.length line <=? 1)%nat; [done|].
  intros [Hf|(l & _ & Hst)]%bind_Fault; [left; destruct (o_alloc o); naive_solver|].
  apply bind_Fault in Hst as [Hf|(h & [Hl ->]%malloc_Ok & Hst)].
  { unfold malloc, await in Hf. by case_bool_decide. }
  apply bind_Fault in Hst as [Hf|([[s m]|] & _ & Hst)]; [by eapply scan_alarm_fault|done|].
  simpl in Hst. by rewrite lookup_insert_eq in Hst.
Qed.

Lemma main_insert_fault alarm f : pm = MLock alarm → main_insert 0 alarm c ≠ Fault f.
Proof.
  intros ->. destruct Hok as [Ht H1 H2 Hm Ha Hs Hb Hp Hf]. simpl in Ha. unfold main_insert.
  destruct (ao_fresh _ _ _ _ _ _ _ Ha alarm eq_refl) as [a Hl]. cbn [load]. rewrite Hl.
  cbn [of_option mbind res_bind].
  pose proof (alarms_set _ _ _ _ _ _ _ (set_time (a_now c + al_seconds a) a) Ha) as Ha'.
  destruct (alarms_insert _ _ _ _ _ _ _ _ Ha' (lookup_insert_eq _ _ _))
    as (h' & l' & ls' & Hrun & Hok' & _).
  rewrite Hrun. cbn [mbind res_bind]. by rewrite (alarms_print _ _ _ _ _ _ _ Hok').
Qed.

Lemma thread_fault o f : o_status o = 0 → alarm_thread_step 1 pt o c ≠ Fault f.
Proof.
  destruct Hok as [Ht H1 H2 Hm Ha Hs Hb Hp Hf]. intros Ho.
  destruct pt as [| | | | |alarm s|alarm u|alarm] eqn:Hpt; try discriminate; simpl.
  - unfold lock. rewrite Ho. simpl. destruct (a_mutex c); [done|]. simpl. unfold alarm_take. simpl.
    destruct (a_list c) as [l|] eqn:Hl; [|done].
    destruct (alarms_take _ _ _ _ _ _ Ha) as (y & ls' & Hy & _). simpl. by rewrite Hy.
  - unfold unlock. rewrite Ho. simpl. unfold mutex_unlock.
    rewrite bool_decide_true; [done|]. apply (Hm 1%nat (TUnlock alarm s)); [by rewrite Ht|done].
  - by destruct (u <=? a_now c).
  - unfold alarm_print. destruct alarm as [l|]; [|done].
    destruct (ao_busy _ _ _ _ _ _ _ Ha l eq_refl) as [a Hl]. cbn [load]. rewrite Hl. cbn. by rewrite Hl.
Qed.
End faults.

Lemma alarm_fault_ok c pm pt ls e f :
  alarm_ok c pm pt ls → reliable c e = true → astep c e = Fault f → input_fault f.
Proof.
  intros Hok Hr Hst. destruct e as [t o|]; simpl in *; [|done].
  apply Z.eqb_eq in Hr. pose proof Hok as [Ht H1 H2 Hm _ _ _ _ _].
  destruct (exited c); [done|]. rewrite Ht in Hst.
  destruct t as [|[|t]]; simpl in Hst; [| |done].
  - destruct pm as [|alarm| | | | | |] eqn:Hpm; try discriminate; simpl in Hst; try done.
    + by eapply main_read_fault.
    + exfalso. unfold lock in Hst. rewrite Hr in Hst. simpl in Hst.
      destruct (a_mutex c) eqn:Hmx; [done|]. simpl in Hst.
      eapply (main_insert_fault _ _ _ _ (lock_none c _ _ _ 0 Hok Hmx)); done.
    + exfalso. unfold unlock in Hst. rewrite Hr in Hst. simpl in Hst. unfold mutex_unlock in Hst.
      rewrite bool_decide_true in Hst; [done|]. apply (Hm 0%nat MUnlock); [by rewrite Ht|done].
  - exfalso. eapply (thread_fault c pm pt ls Hok o f); [done|].
    by destruct pt; try discriminate.
Qed.

(** ** Properties *)

(** what the alarm thread has taken off the list and not yet printed *)
Definition taken (c : aconf) : list loc :=
  match a_threads c !! 1%nat with Some p => option_list (busy p) | None => [] end.

(** Alarm_mutex.c loses no alarm, prints none twice and none before its time.
    The list is always sorted; the alarms entered are, up to order, those printed,
    the one the thread sleeps for, and those in the list. *)
Theorem alarm_mutex_delivers now c :
  reachable (M := alarm_reliable) (alarm_start now) c →
  ∃ ls, chain (a_heap c) (a_list c) ls ∧ sorted (entries (a_heap c) ls) ∧
    a_accepted c ≡ₚ map snd (a_fired c) ++ entries (a_heap c) (taken c ++ ls) ∧
    ∀ t e, (t, e) ∈ a_fired c → e_time e ≤ t.
Proof.
  intros (pm & pt & ls & Hok)%alarm_reachable_ok. exists ls.
  destruct Hok as [Ht H1 H2 Hm [Hc _ _ _ Hs Ha] _ _ _ Hf].
  unfold taken. rewrite Ht. by split_and!.
Qed.

(** Alarm_mutex.c has no memory fault of its own: when lock and unlock do not
    fail, only its input can hurt it - a malloc that fails, a message of 64
    characters, or a number that is no int.  Both loops over the list end. *)
Theorem alarm_mutex_safe now f :
  can_fault (M := alarm_reliable) (alarm_start now) f →
  f = NullDeref ∨ f = OutOfBounds ∨ f = Overflow.
Proof.
  intros Hf. assert (input_fault f ∨ ¬ input_fault f) as [?|Hno] by (destruct f; unfold input_fault; intuition congruence); [done|exfalso]. revert Hf.
  apply (invariant_no_fault (M := alarm_reliable) (λ c, ∃ pm pt ls, alarm_ok c pm pt ls)).
  - exists MRead, TLock, []. apply alarm_start_ok.
  - intros c1 e c2 (pm & pt & ls & Hok) [Hr Hs]%restrict_Ok. by eapply alarm_step_ok.
  - intros c e (pm & pt & ls & Hok) Hs. unfold mstep, alarm_reliable, restrict in Hs.
    destruct (reliable c e) eqn:Hr; [|done]. by eapply Hno, alarm_fault_ok.
Qed.

Definition line_of (s : string) : string := s +:+ String newline EmptyString.
Definition typed (l : loc) (s : string) : oracle := Oracle 0 None (Some l) true 0 (Some (line_of s)).
Definition alarm_demo : list aevent :=
  [ERun 0 (typed 1 "3 tea"); ERun 0 ok; ERun 0 ok; ERun 0 (typed 2 "1 egg"); ERun 0 ok; ERun 0 ok;
   ERun 1 ok; ERun 1 ok; ETick; ERun 1 ok; ERun 1 ok; ERun 1 ok].
Definition alarm_example : aconf := final (M := alarm_reliable) (alarm_start 1000) alarm_demo.

Lemma alarm_mutex_delivers_witness :
  ∃ ls, chain (a_heap alarm_example) (a_list alarm_example) ls ∧
    sorted (entries (a_heap alarm_example) ls) ∧
    a_accepted alarm_example ≡ₚ map snd (a_fired alarm_example) ++
      entries (a_heap alarm_example) (taken alarm_example ++ ls) ∧
    ∀ t e, (t, e) ∈ a_fired alarm_example → e_time e ≤ t.
Proof.
  apply (alarm_mutex_delivers 1000 alarm_example), (reachable_final (M := alarm_reliable)).
  by vm_compute.
Defined.

(** a message of 64 characters *)
Definition long_message : string :=
  "9 0123456789012345678901234567890123456789012345678901234567890123".
Lemma alarm_mutex_safe_witness : OutOfBounds = NullDeref ∨ OutOfBounds = OutOfBounds ∨ OutOfBounds = Overflow.
Proof.
  apply (alarm_mutex_safe 1000). exists [ERun 0 (typed 1 long_message)]. by vm_compute.
Defined.
