(* ===== verification/AlarmCond.v ===== *)
(** alarm_cond.c: as alarm_mutex.c, but the alarm thread waits on a condition
    variable, so that an alarm that is due earlier interrupts its wait.

    Thread 0 is main, thread 1 is [alarm_thread]; [current_alarm] is the time the
    alarm thread waits for, or 0 when it waits for work. *)

From S2P Require Import Prelude Pthread Queue AlarmList.

Local Open Scope Z_scope.

(** ** Configurations *)

Inductive pc : Type :=
  (* main *)
  | MRead                          (* line 134: fgets *)
  | MLock (alarm : loc)            (* line 154 *)
  | MSignal                        (* line 56, called from main *)
  | MUnlock                        (* line 161 *)
  | MExit
  (* alarm_thread *)
  | TLock                          (* line 69 *)
  | TTop                           (* line 72, the mutex is held *)
  | TWaitWork                      (* line 80: wait for an alarm *)
  | TWaitTime (alarm : loc)        (* line 99: timed wait *)
  | TSignal.                       (* line 56, called from alarm_thread *)

Record aconf := AConf {
  a_heap : gmap loc alarm_t;
  a_list : ptr;              (* alarm_list *)
  a_current : Z;             (* current_alarm *)
  a_mutex : mutex;
  a_cond : cond;             (* alarm_cond *)
  a_now : Z;                 (* time(NULL) *)
  a_threads : list pc;
  a_accepted : list entry;
  a_fired : list (Z * entry)
}.

Section updates.
Variable c : aconf.
Definition goto t p := AConf (a_heap c) (a_list c) (a_current c) (a_mutex c) (a_cond c) (a_now c)
  (<[t := p]> (a_threads c)) (a_accepted c) (a_fired c).
Definition set_alarms h l := AConf h l (a_current c) (a_mutex c) (a_cond c) (a_now c) (a_threads c)
  (a_accepted c) (a_fired c).
Definition set_current v := AConf (a_heap c) (a_list c) v (a_mutex c) (a_cond c) (a_now c)
  (a_threads c) (a_accepted c) (a_fired c).
Definition set_mutex m := AConf (a_heap c) (a_list c) (a_current c) m (a_cond c) (a_now c)
  (a_threads c) (a_accepted c) (a_fired c).
Definition set_cond v := AConf (a_heap c) (a_list c) (a_current c) (a_mutex c) v (a_now c)
  (a_threads c) (a_accepted c) (a_fired c).
Definition tick := AConf (a_heap c) (a_list c) (a_current c) (a_mutex c) (a_cond c) (a_now c + 1)
  (a_threads c) (a_accepted c) (a_fired c).
Definition log_accepted x := AConf (a_heap c) (a_list c) (a_current c) (a_mutex c) (a_cond c)
  (a_now c) (a_threads c) (a_accepted c ++ [x]) (a_fired c).
Definition log_fired x := AConf (a_heap c) (a_list c) (a_current c) (a_mutex c) (a_cond c)
  (a_now c) (a_threads c) (a_accepted c) (a_fired c ++ [(a_now c, x)]).
End updates.

(** a failing lock or unlock is only reported: the thread goes on without *)
Definition lock (t : tid) (o : oracle) (c : aconf) : res aconf :=
  if o_status o =? 0 then m ← mutex_lock t (a_mutex c); Ok (set_mutex c m) else Ok c.
Definition unlock (t : tid) (o : oracle) (c : aconf) : res aconf :=
  if o_status o =? 0 then m ← mutex_unlock t (a_mutex c); Ok (set_mutex c m) else Ok c.

(** the thread gives up the mutex and joins the waiters of alarm_cond *)
Definition block (t : tid) (p : pc) (c : aconf) : res aconf :=
  m ← mutex_unlock t (a_mutex c);
  Ok (goto (set_cond (set_mutex c m) (cond_block t (a_cond c))) t p).

(** ** alarm_insert *)

(** Lines 26-55: insert, print the list, and say whether the alarm thread is to be
    woken. *)
Definition alarm_insert (alarm : loc) (c : aconf) : res (aconf * bool) :=
  '(h, l) ← insert_alarm (a_heap c) (a_list c) alarm;
  _ ← print_list (size h) h l;
  a ← load h (Some alarm);
  let c := set_alarms c h l in
  if (a_current c =? 0) || (al_time a <? a_current c) then Ok (set_current c (al_time a), true)
  else Ok (c, false).

(** Line 56; a failing signal is only reported *)
Definition signal (o : oracle) (c : aconf) : res aconf :=
  if o_status o =? 0 then ws ← cond_signal (o_wake o) (a_cond c); Ok (set_cond c ws) else Ok c.

(** ** main *)

(** Lines 134-151 *)
Definition main_read (t : tid) (o : oracle) (c : aconf) : res aconf :=
  match o_line o with
  | None => Ok (goto c t MExit)
  | Some line =>
      if (String.length line <=? 1)%nat then Ok c
      else
        alarm ← of_option NullDeref (o_alloc o);
        h ← malloc (a_heap c) (Alarm None 0 0 "") alarm;
        scanned ← scan_alarm line;
        match scanned with
        | None => h ← free h (Some alarm); Ok (set_alarms c h (a_list c))
        | Some (seconds, message) =>
            Ok (goto (set_alarms c (<[alarm := Alarm None seconds 0 message]> h) (a_list c)) t
                  (MLock alarm))
        end
  end.

(** Lines 157-160 *)
Definition main_insert (t : tid) (alarm : loc) (c : aconf) : res aconf :=
  a ← load (a_heap c) (Some alarm);
  let a := set_time (a_now c + al_seconds a) a in
  '(c, wake) ← alarm_insert alarm (set_alarms c (<[alarm := a]> (a_heap c)) (a_list c));
  Ok (goto (log_accepted c (entry_of a)) t (if wake : bool then MSignal else MUnlock)).

Definition main_step (t : tid) (p : pc) (o : oracle) (c : aconf) : res aconf :=
  match p with
  | MRead => main_read t o c
  | MLock alarm => c ← lock t o c; main_insert t alarm c
  | MSignal => c ← signal o c; Ok (goto c t MUnlock)
  | MUnlock => c ← unlock t o c; Ok (goto c t MRead)
  | _ => Blocked
  end.

(** ** alarm_thread *)

(** Lines 113-117 *)
Definition alarm_expired (t : tid) (alarm : loc) (c : aconf) : res aconf :=
  a ← load (a_heap c) (Some alarm);
  h ← free (a_heap c) (Some alarm);
  Ok (goto (log_fired (set_alarms c h (a_list c)) (entry_of a)) t TTop).

(** Lines 97-109: [while (current_alarm == alarm->time)] *)
Definition alarm_wait_time (t : tid) (alarm : loc) (c : aconf) : res aconf :=
  a ← load (a_heap c) (Some alarm);
  if a_current c =? al_time a then block t (TWaitTime alarm) c
  else
    '(c, wake) ← alarm_insert alarm c;
    Ok (goto c t (if wake : bool then TSignal else TTop)).

(** Lines 77-96, 111-112: wait for an alarm, take the first one, and wait for its
    time *)
Definition alarm_wait_work (t : tid) (c : aconf) : res aconf :=
  match a_list c with
  | None => block t TWaitWork c
  | Some alarm =>
      a ← load (a_heap c) (Some alarm);
      let c := set_alarms c (a_heap c) (al_link a) in
      if a_now c <? al_time a then alarm_wait_time t alarm (set_current c (al_time a))
      else alarm_expired t alarm c
  end.

(** Lines 99-105: the timed wait ends with the mutex held.  It only times out at
    the time it was given. *)
Definition alarm_wakeup (t : tid) (alarm : loc) (o : oracle) (c : aconf) : res aconf :=
  c ← (if o_status o =? 0 then _ ← await (awake t (a_cond c)); Ok c
       else if o_status o =? ETIMEDOUT then
         a ← load (a_heap c) (Some alarm);
         _ ← await (al_time a <=? a_now c); Ok (set_cond c (cond_leave t (a_cond c)))
       else Ok (set_cond c (cond_leave t (a_cond c))));
  m ← mutex_lock t (a_mutex c);
  let c := set_mutex c m in
  if o_status o =? ETIMEDOUT then alarm_expired t alarm c else alarm_wait_time t alarm c.

Definition alarm_thread_step (t : tid) (p : pc) (o : oracle) (c : aconf) : res aconf :=
  match p with
  | TLock => c ← lock t o c; Ok (goto c t TTop)
  | TTop => alarm_wait_work t (set_current c 0)
  | TWaitWork =>
      c ← (if o_status o =? 0 then _ ← await (awake t (a_cond c)); Ok c
           else Ok (set_cond c (cond_leave t (a_cond c))));
      m ← mutex_lock t (a_mutex c); alarm_wait_work t (set_mutex c m)
  | TWaitTime alarm => alarm_wakeup t alarm o c
  | TSignal => c ← signal o c; Ok (goto c t TTop)
  | _ => Blocked
  end.

(** ** The machine *)

Inductive aevent : Type :=
  | ERun (t : tid) (o : oracle)
  | ESpurious (t : tid)
  | ETick.

(** when main returns from fgets with NULL, exit ends both threads *)
Definition exited (c : aconf) : bool :=
  match a_threads c !! 0%nat with Some MExit => true | _ => false end.

Definition astep (c : aconf) (e : aevent) : res aconf :=
  match e with
  | ERun t o =>
      if exited c then Blocked
      else match a_threads c !! t with
      | Some ((MRead | MLock _ | MSignal | MUnlock | MExit) as p) => main_step t p o c
      | Some p => alarm_thread_step t p o c
      | None => Blocked
      end
  | ESpurious t => Ok (set_cond c (cond_leave t (a_cond c)))
  | ETick => Ok (tick c)
  end.
#[export] Instance alarm_machine : Machine aconf aevent := astep.

(** No call fails except that the timed wait times out, and every alarm is due
    after 1970: its time is positive, so [current_alarm] is 0 only when the thread
    waits for work. *)
Definition reliable (c : aconf) (e : aevent) : bool :=
  match e with
  | ERun t o =>
      match a_threads c !! t with
      | Some (TWaitTime _) => (o_status o =? 0) || (o_status o =? ETIMEDOUT)
      | Some (MLock alarm) =>
          (o_status o =? 0) &&
          match a_heap c !! alarm with Some a => 0 <? a_now c + al_seconds a | None => true end
      | _ => o_status o =? 0
      end
  | _ => true
  end.
Definition alarm_reliable : Machine aconf aevent := restrict reliable.

Definition alarm_start (now : Z) : aconf := AConf ∅ None 0 None [] now [MRead; TLock] [] [].

(** ** The invariant *)

Definition holding (p : pc) : bool :=
  match p with MSignal | MUnlock | TTop | TSignal => true | _ => false end.
Definition is_main (p : pc) : bool :=
  match p with MRead | MLock _ | MSignal | MUnlock | MExit => true | _ => false end.
Definition waits (p : pc) : bool := match p with TWaitWork | TWaitTime _ => true | _ => false end.
(** the alarm that main is building, and the one the thread has taken *)
Definition fresh (p : pc) : option loc := match p with MLock l => Some l | _ => None end.
Definition busy (p : pc) : option loc := match p with TWaitTime l => Some l | _ => None end.

(** The alarm thread is awake, or main is about to signal it. *)
Definition roused (c : aconf) (pm : pc) : Prop := 1%nat ∉ a_cond c ∨ pm = MSignal.

(** The alarm thread waits for the right thing, or it is roused. *)
Definition wait_ok (c : aconf) (pm pt : pc) (ls : list loc) : Prop :=
  match pt with
  | TWaitWork => (a_current c = 0 ∧ ls = []) ∨ (ls ≠ [] ∧ roused c pm)
  | TWaitTime l => ∀ a, a_heap c !! l = Some a →
      0 < a_current c ∧
      ((a_current c = al_time a ∧ Forall (λ y, al_time a ≤ e_time y) (entries (a_heap c) ls))
       ∨ (a_current c < al_time a ∧ roused c pm))
  | _ => True
  end.

Record alarm_ok (c : aconf) (pm pt : pc) (ls : list loc) : Prop := {
  ac_threads : a_threads c = [pm; pt];
  ac_main : is_main pm = true;
  ac_thread : is_main pt = false;
  ac_mutex : mutex_ok holding (a_mutex c) (a_threads c);
  ac_alarms : alarms_ok (a_heap c) (a_list c) (fresh pm) (busy pt) (a_accepted c)
    (map snd (a_fired c)) ls;
  ac_positive : ∀ e, e ∈ a_accepted c → 0 < e_time e;
  ac_fired : ∀ now e, (now, e) ∈ a_fired c → e_time e ≤ now;
  ac_cond : cv_ok waits (a_cond c) (a_threads c);
  ac_wait : wait_ok c pm pt ls
}.

Lemma cond_alarm_start_ok now : alarm_ok (alarm_start now) MRead TLock [].
Proof.
  split; simpl; try done.
  - intros [|[|t]] p; simpl; naive_solver.
  - apply alarms_start.
  - set_solver.
  - set_solver.
  - apply cv_ok_nil.
Qed.

(** *** The alarm thread inside the mutex *)

Record running (c : aconf) (pm : pc) (b : option loc) (ls : list loc) : Prop := {
  rn_threads : ∃ q, a_threads c = [pm; q];
  rn_main : is_main pm = true;
  rn_mutex : a_mutex c = Some 1%nat;
  rn_out : holding pm = false;
  rn_alarms : alarms_ok (a_heap c) (a_list c) (fresh pm) b (a_accepted c) (map snd (a_fired c)) ls;
  rn_positive : ∀ e, e ∈ a_accepted c → 0 < e_time e;
  rn_fired : ∀ now e, (now, e) ∈ a_fired c → e_time e ≤ now;
  rn_cond : a_cond c = []
}.

Lemma running_goto c pm ls pt :
  running c pm None ls → (pt = TTop ∨ pt = TSignal) → alarm_ok (goto c 1 pt) pm pt ls.
Proof.
  intros [[q Ht] H1 Hmx Ho Ha Hp Hf Hc] Hpt. split; simpl; rewrite ?Ht; try done.
  - by destruct Hpt as [-> | ->].
  - intros [|[|t]] p; simpl; [intros [= <-]; congruence|done|done].
  - by destruct Hpt as [-> | ->].
  - rewrite Hc. apply cv_ok_nil.
  - by destruct Hpt as [-> | ->].
Qed.

Lemma running_block c c' pm ls pt :
  running c pm (busy pt) ls → waits pt = true → block 1 pt c = Ok c' →
  (pt = TWaitWork → a_current c = 0 ∧ ls = []) →
  (∀ l a, pt = TWaitTime l → a_heap c !! l = Some a → 0 < a_current c ∧ a_current c = al_time a ∧
     Forall (λ y, al_time a ≤ e_time y) (entries (a_heap c) ls)) →
  alarm_ok c' pm pt ls.
Proof.
  intros [[q Ht] H1 Hmx Ho Ha Hp Hf Hc] Hw Hb Hw1 Hw2. unfold block in Hb. sync_inv. subst c'.
  split; simpl; rewrite ?Ht; try done.
  - by destruct pt.
  - intros [|[|t]] p; simpl; [intros [= <-]; congruence|intros [= <-]; by destruct pt|done].
  - rewrite Hc. apply (cv_ok_block waits [] [pm; q] 1 pt q); [apply cv_ok_nil|done|done].
  - destruct pt; try done; simpl.
    + left. by apply Hw1.
    + intros a Hl. destruct (Hw2 _ a eq_refl Hl) as (? & ? & ?). split; [done|]. by left.
Qed.

Lemma expired_ok c c' pm l a ls :
  running c pm (Some l) ls → a_heap c !! l = Some a → al_time a ≤ a_now c →
  alarm_expired 1 l c = Ok c' → alarm_ok c' pm TTop ls.
Proof.
  intros [[q Ht] H1 Hmx Ho Ha Hp Hf Hc] Hl Hnow Hst. unfold alarm_expired in Hst.
  cbn [load] in Hst. rewrite Hl in Hst. cbn in Hst. rewrite Hl in Hst. injection Hst as <-.
  apply (running_goto (log_fired (set_alarms c (delete l (a_heap c)) (a_list c)) (entry_of a))
    pm ls TTop); [|by left].
  split; simpl; eauto.
  - rewrite map_app. simpl. by apply alarms_fire.
  - intros now e [He|He]%elem_of_app; [by apply Hf|]. by apply list_elem_of_singleton in He as [= -> ->].
Qed.

(** [alarm_insert] called by the alarm thread never signals: the alarm it puts back
    is not the first *)
Lemma reinsert_ok c c' pm l a ls :
  running c pm (Some l) ls → a_heap c !! l = Some a → 0 < a_current c < al_time a →
  ('(c, wake) ← alarm_insert l c; Ok (goto c 1 (if wake : bool then TSignal else TTop))) = Ok c' →
  ∃ ls', alarm_ok c' pm TTop ls'.
Proof.
  intros [[q Ht] H1 Hmx Ho Ha Hp Hf Hc] Hl Hcur Hst. unfold alarm_insert in Hst.
  destruct (alarms_reinsert _ _ _ _ _ _ _ _ Ha Hl) as (h' & l' & ls' & Hrun & Ha' & _ & Hsame).
  rewrite Hrun in Hst. cbn [mbind res_bind] in Hst.
  rewrite (alarms_print _ _ _ _ _ _ _ Ha') in Hst. cbn [mbind res_bind load] in Hst.
  specialize (Hsame l). rewrite Hl in Hsame.
  destruct (h' !! l) as [a'|] eqn:Hl'; [|done]. injection Hsame as Ht' _ _.
  cbn [of_option mbind res_bind a_current set_alarms] in Hst. rewrite Ht' in Hst.
  rewrite (proj2 (Z.eqb_neq (a_current c) 0)) in Hst by lia.
  rewrite (proj2 (Z.ltb_ge (al_time a) (a_current c))) in Hst by lia.
  injection Hst as <-. exists ls'. apply (running_goto (set_alarms c h' l')); [|by left].
  split; simpl; eauto.
Qed.

Lemma wait_time_ok c c' pm l a ls :
  running c pm (Some l) ls → a_heap c !! l = Some a → 0 < a_current c ≤ al_time a →
  (a_current c = al_time a → Forall (λ y, al_time a ≤ e_time y) (entries (a_heap c) ls)) →
  alarm_wait_time 1 l c = Ok c' → ∃ pt ls', alarm_ok c' pm pt ls'.
Proof.
  intros Hrn Hl Hcur Hall Hst. unfold alarm_wait_time in Hst. cbn [load] in Hst.
  rewrite Hl in Hst. cbn [of_option mbind res_bind] in Hst.
  destruct (a_current c =? al_time a) eqn:He.
  - apply Z.eqb_eq in He. exists (TWaitTime l), ls. eapply running_block; [exact Hrn|done|done|done|].
    intros k b [= <-] Hk. simplify_eq. split_and!; [lia|done|by apply Hall].
  - apply Z.eqb_neq in He. exists TTop. by apply (reinsert_ok c c' pm l a ls); [..|lia|].
Qed.

Lemma wait_work_ok c c' pm ls :
  running c pm None ls → (ls = [] → a_current c = 0) →
  alarm_wait_work 1 c = Ok c' → ∃ pt ls', alarm_ok c' pm pt ls'.
Proof.
  intros Hrn Hcur Hst. unfold alarm_wait_work in Hst. pose proof (rn_alarms _ _ _ _ Hrn) as Ha.
  destruct (a_list c) as [l|] eqn:Hl.
  - destruct (alarms_take _ _ _ _ _ _ Ha) as (a & ls' & Hla & -> & Ha' & Hall).
    cbn [load] in Hst. rewrite Hla in Hst. cbn [of_option mbind res_bind] in Hst.
    destruct Hrn as [Ht H1 Hmx Ho _ Hp Hf Hc].
    assert (0 < al_time a) as Hpos.
    { apply (Hp (entry_of a)). by eapply busy_accepted. }
    destruct (a_now _ <? al_time a) eqn:Hnow.
    + eapply (wait_time_ok (set_current (set_alarms c (a_heap c) (al_link a)) (al_time a)) c' pm l a
        ls'); [|exact Hla|simpl; lia|done|exact Hst].
      by split.
    + exists TTop, ls'. eapply (expired_ok (set_alarms c (a_heap c) (al_link a)) c' pm l a ls');
        [by split|exact Hla| |exact Hst].
      apply Z.ltb_ge in Hnow. done.
  - exists TWaitWork, ls. destruct ls as [|k ls].
    + eapply running_block; [exact Hrn|done|exact Hst|by auto|done].
    + destruct Ha as [[[=] _] _ _ _ _ _].
Qed.

(** *** main *)

(** what the thread waits for depends only on the list, the time it holds and the
    signals *)
Lemma wait_frame c c' pm pm' pt ls :
  wait_ok c pm pt ls → a_current c' = a_current c →
  (roused c pm → roused c' pm') →
  (∀ l, busy pt = Some l ∨ l ∈ ls → entry_of <$> a_heap c' !! l = entry_of <$> a_heap c !! l) →
  wait_ok c' pm' pt ls.
Proof.
  intros Hw Hcur Hr Hh. destruct pt; try done; simpl in *; rewrite Hcur.
  - naive_solver.
  - intros a Ha. pose proof (Hh alarm (or_introl eq_refl)) as He. rewrite Ha in He.
    destruct (a_heap c !! alarm) as [b|] eqn:Hb; [|done]. injection He as Ht _ _. rewrite Ht.
    destruct (Hw b eq_refl) as [? Hor]. split; [done|].
    rewrite (entries_frame (a_heap c)) by auto. naive_solver.
Qed.

Section stability.
Context (c : aconf) (pm pt : pc) (ls : list loc) (Hok : alarm_ok c pm pt ls).

Lemma main_threads p :
  holding p = false → mutex_ok holding (a_mutex c) [p; pt].
Proof.
  destruct Hok as [Ht _ _ Hm _ _ _ _ _]. intros Hh. rewrite Ht in Hm.
  apply (mutex_ok_keep _ _ _ 0 p Hm). congruence.
Qed.

Lemma main_waiters p ws : cv_ok waits ws [pm; pt] → is_main p = true → cv_ok waits ws [p; pt].
Proof.
  destruct Hok as [_ H1 _ _ _ _ _ _ _]. intros Hcv Hp.
  apply (cv_ok_keep waits ws [pm; pt] 0 p); [done|].
  eapply cv_ok_running; [done|reflexivity|by destruct pm].
Qed.

Lemma cond_main_read_ok o c' :
  pm = MRead → main_read 0 o c = Ok c' → ∃ pm', alarm_ok c' pm' pt ls.
Proof.
  intros Hpm. destruct Hok as [Ht H1 H2 Hm Ha Hp Hf Hcv Hw]. unfold main_read.
  destruct (o_line o) as [line|].
  2:{ intros [= <-]. exists MExit. split; simpl; rewrite ?Ht; try done.
      - by apply main_threads.
      - by rewrite Hpm in Ha.
      - rewrite Ht in Hcv. by apply main_waiters.
      - apply (wait_frame c _ pm MExit _ _ Hw); [done| |done]. intros [?| ->]; [by left|done]. }
  destruct (String.length line <=? 1)%nat.
  { intros [= <-]. exists MRead. by rewrite <- Hpm. }
  intros Hst. res_inv. match goal with H : malloc _ _ _ = Ok _ |- _ => apply malloc_Ok in H as [Hfree ->] end.
  match goal with H : scan_alarm line = Ok ?r |- _ => rename H into Hscan; destruct r as [[seconds message]|] end.
  - res_inv. subst c'. eexists (MLock _). rewrite Hpm in Ha. split; simpl; rewrite ?Ht; try done.
    + by apply main_threads.
    + by apply alarms_set, alarms_malloc.
    + rewrite Hpm. simpl. rewrite Ht, Hpm in Hcv. apply (main_waiters (MLock _)); [|done].
      by rewrite Hpm.
    + eapply (wait_frame c _ pm); [exact Hw|done| |].
      * rewrite Hpm. intros [?|[=]]. by left.
      * simpl. intros l Hl. rewrite insert_insert_eq, lookup_insert_ne; [done|]. intros <-.
        destruct Hl as [Hl|Hl]; [by eapply busy_allocated|].
        destruct (chain_lookup _ _ _ _ (ao_chain _ _ _ _ _ _ _ Ha) Hl). congruence.
  - res_inv. subst c'.
    match goal with H : free _ _ = Ok _ |- _ => simpl in H; rewrite lookup_insert_eq in H; injection H as <- end.
    rewrite delete_insert_id by done. exists pm. by split.
Qed.

Lemma cond_main_insert_ok alarm a c' :
  pm = MLock alarm → a_mutex c = Some 0%nat → holding pt = false →
  a_heap c !! alarm = Some a → 0 < a_now c + al_seconds a →
  main_insert 0 alarm c = Ok c' → ∃ pm' ls', alarm_ok c' pm' pt ls'.
Proof.
  intros Hpm Hmx Hpt Hl Hpos Hst. destruct Hok as [Ht H1 H2 Hm Ha Hp Hf Hcv Hw].
  rewrite Hpm in Ha. simpl in Ha. unfold main_insert in Hst. cbn [load] in Hst.
  rewrite Hl in Hst. cbn [of_option mbind res_bind] in Hst.
  set (a1 := set_time (a_now c + al_seconds a) a) in Hst.
  pose proof (alarms_set _ _ _ _ _ _ _ a1 Ha) as Ha1.
  destruct (alarms_insert _ _ _ _ _ _ _ _ Ha1 (lookup_insert_eq _ _ _))
    as (h' & l' & ls' & Hrun & Ha' & Hent & Hsame).
  unfold alarm_insert in Hst. cbn [a_heap a_list set_alarms] in Hst. rewrite Hrun in Hst.
  cbn [mbind res_bind] in Hst. rewrite (alarms_print _ _ _ _ _ _ _ Ha') in Hst.
  cbn [mbind res_bind load] in Hst. pose proof (Hsame alarm) as He. rewrite lookup_insert_eq in He.
  destruct (h' !! alarm) as [a'|] eqn:Hl'; [|done]. injection He as Ht' _ _.
  cbn [of_option mbind res_bind a_current set_alarms] in Hst. rewrite Ht' in Hst.
  assert (ls' ≠ []) as Hne.
  { intros ->. assert (entry_of a1 ∈ entries h' []) as Hin; [|set_solver].
    rewrite Hent, insert_time_perm. set_solver. }
  assert (∀ k, busy pt = Some k → entry_of <$> h' !! k = entry_of <$> a_heap c !! k) as Hbusy.
  { intros k Hk. rewrite Hsame, lookup_insert_ne; [done|]. intros <-.
    by eapply (busy_fresh _ _ alarm). }
  assert (∀ e, e ∈ a_accepted c ++ [entry_of a1] → 0 < e_time e) as Hp'.
  { intros e [He|He]%elem_of_app; [by apply Hp|]. by apply list_elem_of_singleton in He as ->. }
  rewrite Ht in Hm, Hcv.
  destruct ((a_current c =? 0) || (a_now c + al_seconds a <? a_current c)) eqn:Hsig;
    cbn [mbind res_bind] in Hst; injection Hst as <-.
  - exists MSignal, ls'. split; simpl; rewrite ?Ht; try done.
    + rewrite Hmx in *. intros [|[|t]] p; simpl; [done|intros [= <-]; congruence|done].
    + by apply (main_waiters MSignal).
    + destruct pt as [| | | | | | | |l0|]; try done; simpl; [right; split; [done|by right]|].
      intros b Hb. specialize (Hbusy l0 eq_refl). rewrite Hb in Hbusy.
      destruct (a_heap c !! l0) as [b0|] eqn:Hb0; [|done]. simpl in Hbusy; injection Hbusy as Htb _ _.
      destruct (Hw b0 Hb0) as [? Hor]. rewrite Htb. split; [done|]. right.
      split; [|by right]. unfold a1 in Hsig. simpl in *. lia.
  - apply orb_false_iff in Hsig as [Hc0%Z.eqb_neq Hc1%Z.ltb_ge].
    exists MUnlock, ls'. split; simpl; rewrite ?Ht; try done.
    + rewrite Hmx in *. intros [|[|t]] p; simpl; [done|intros [= <-]; congruence|done].
    + by apply (main_waiters MUnlock).
    + assert (∀ c', roused c pm → a_cond c' = a_cond c → roused c' MUnlock) as Hr.
      { intros c1 [Hr|Hr] Heq; [left; by rewrite Heq|congruence]. }
      destruct pt as [| | | | | | | |l0|]; try done; simpl.
      * destruct Hw as [[? ?]|[? ?]]; [done|]. right. split; [done|]. by apply Hr.
      * intros b Hb. specialize (Hbusy l0 eq_refl). rewrite Hb in Hbusy.
        destruct (a_heap c !! l0) as [b0|] eqn:Hb0; [|done]. simpl in Hbusy; injection Hbusy as Htb _ _.
        destruct (Hw b0 Hb0) as [? [[Hcur Hall]|[Hcur Hro]]]; rewrite Htb; (split; [done|]).
        -- left. split; [done|]. apply Forall_forall. intros e. rewrite Hent, insert_time_perm.
           intros [->|He]%elem_of_cons; [unfold a1, e_time, entry_of in *; simpl in *; lia|].
           rewrite Forall_forall in Hall. apply Hall.
           rewrite (entries_frame (a_heap c)) in He; [done|].
           intros k Hk. rewrite lookup_insert_ne; [done|]. intros <-.
           pose proof (ao_nodup _ _ _ _ _ _ _ Ha) as Hnd. simpl in Hnd.
           apply NoDup_cons in Hnd as [Hnd _]. set_solver.
        -- right. split; [done|]. by apply Hr.
Qed.
End stability.

Lemma cond_lock_none c pm pt ls t :
  alarm_ok c pm pt ls → a_mutex c = None → alarm_ok (set_mutex c (Some t)) pm pt ls.
Proof.
  intros [Ht H1 H2 Hm Ha Hp Hf Hcv Hw] Hmx. split; simpl; try done.
  intros u p Hu Hh. rewrite Hmx in Hm. by specialize (Hm u p Hu Hh).
Qed.

(** the alarm thread gets the mutex, at [p] and awake *)
Lemma running_start c pm pt ls ws :
  alarm_ok c pm pt ls → a_mutex c = None ∨ holding pt = true ∧ holding pm = false →
  (∀ u, u ∈ ws → u ∈ a_cond c) → 1%nat ∉ ws →
  running (set_mutex (set_cond c ws) (Some 1%nat)) pm (busy pt) ls.
Proof.
  intros [Ht H1 H2 Hm Ha Hp Hf Hcv Hw] Hmx Hsub H1ws. split; simpl; eauto.
  - destruct Hmx as [Hmx|[_ ?]]; [|done]. destruct (holding pm) eqn:Hh; [|done].
    rewrite Ht, Hmx in Hm. by specialize (Hm 0%nat pm eq_refl Hh).
  - assert (∀ u, u ∉ ws) as Hno.
    { intros u Hu. pose proof (Hsub u Hu) as Hu'. apply Hcv in Hu' as (q & Hq & Hwq).
      rewrite Ht in Hq. destruct u as [|[|u]]; simpl in Hq; [|done|done].
      injection Hq as <-. by destruct pm. }
    destruct ws as [|u ws]; [done|]. exfalso. apply (Hno u). set_solver.
Qed.

Lemma set_cond_same c : set_cond c (a_cond c) = c.
Proof. by destruct c. Qed.
Lemma set_mutex_same c : set_mutex c (a_mutex c) = c.
Proof. by destruct c. Qed.

(** only the alarm thread waits on alarm_cond *)
Lemma waiter_thread c pm pt ls u : alarm_ok c pm pt ls → u ∈ a_cond c → u = 1%nat.
Proof.
  intros [Ht H1 H2 Hm Ha Hp Hf Hcv Hw] (q & Hq & Hwq)%Hcv. rewrite Ht in Hq.
  destruct u as [|[|u]]; simpl in Hq; [|done|done]. injection Hq as <-. by destruct pm.
Qed.

Lemma signal_ok c pm pt ls ws w :
  alarm_ok c pm pt ls → cond_signal w (a_cond c) = Ok ws → ws = [].
Proof.
  intros Hok Hs. destruct (cond_signal_Ok _ _ _ Hs) as [[_ ->]|(u & Hu & ->)]; [done|].
  pose proof (waiter_thread _ _ _ _ _ Hok Hu) as ->.
  destruct (cond_leave 1 (a_cond c)) as [|v l] eqn:Hl; [done|].
  assert (v ∈ cond_leave 1 (a_cond c)) as [Hv Hne]%elem_of_cond_leave by (rewrite Hl; set_solver).
  by apply (waiter_thread _ _ _ _ _ Hok) in Hv.
Qed.

(** the environment may let a waiter go at any time *)
Lemma spurious_ok c pm pt ls t :
  alarm_ok c pm pt ls → alarm_ok (set_cond c (cond_leave t (a_cond c))) pm pt ls.
Proof.
  intros [Ht H1 H2 Hm Ha Hp Hf Hcv Hw]. split; simpl; try done.
  - solve_cv_ok.
  - apply (wait_frame c _ pm pm pt ls Hw); [done| |done].
    intros [Hr|Hr]; [left|by right]. simpl. rewrite elem_of_cond_leave. naive_solver.
Qed.

Lemma cond_tick_ok c pm pt ls : alarm_ok c pm pt ls → alarm_ok (tick c) pm pt ls.
Proof. intros [Ht H1 H2 Hm Ha Hp Hf Hcv Hw]. by split. Qed.

Lemma main_step_ok c pm pt ls o c' :
  alarm_ok c pm pt ls → reliable c (ERun 0 o) = true → main_step 0 pm o c = Ok c' →
  ∃ pm' ls', alarm_ok c' pm' pt ls'.
Proof.
  intros Hok Hr Hst. pose proof Hok as [Ht H1 H2 Hm Ha Hp Hf Hcv Hw].
  simpl in Hr. rewrite Ht in Hr, Hm, Hcv. simpl in Hr.
  destruct pm as [|alarm| | | | | | | |] eqn:Hpm; try discriminate; simpl in Hst; try done.
  - destruct (cond_main_read_ok c MRead pt ls Hok o c' eq_refl Hst) as [pm' ?]. by exists pm', ls.
  - destruct (ao_fresh _ _ _ _ _ _ _ Ha alarm eq_refl) as [a Hl]. rewrite Hl in Hr.
    apply andb_prop in Hr as [Hr%Z.eqb_eq Hpos%Z.ltb_lt].
    unfold lock in Hst. rewrite Hr in Hst. cbn [Z.eqb] in Hst. res_inv. sync_inv. subst.
    eapply (cond_main_insert_ok _ _ _ _ (cond_lock_none c _ _ _ 0 Hok ltac:(eassumption)) alarm a);
      [done|done| |done|done|eassumption].
    destruct (holding pt) eqn:Hh; [|done].
    match goal with H : a_mutex c = None |- _ => rewrite H in Hm end.
    by specialize (Hm 1%nat pt eq_refl Hh).
  - apply Z.eqb_eq in Hr. unfold signal in Hst. rewrite Hr in Hst. cbn [Z.eqb] in Hst. res_inv. subst.
    match goal with H : cond_signal _ _ = Ok _ |- _ => rewrite (signal_ok _ _ _ _ _ _ Hok H) end.
    exists MUnlock, ls. split; simpl; rewrite ?Ht; try done.
    + apply (mutex_ok_keep _ _ _ 0 MUnlock Hm). intros _. by apply (Hm 0%nat MSignal).
    + apply cv_ok_nil.
    + apply (wait_frame c _ MSignal MUnlock pt ls Hw); [done| |done]. intros _. left. simpl. set_solver.
  - apply Z.eqb_eq in Hr. unfold unlock in Hst. rewrite Hr in Hst. cbn [Z.eqb] in Hst. res_inv. sync_inv. subst.
    match goal with H : a_mutex c = Some _ |- _ => rewrite H in Hm end.
    exists MRead, ls. split; simpl; rewrite ?Ht; try done.
    + by apply (mutex_ok_release _ _ 0 MRead Hm).
    + apply (cv_ok_keep waits _ _ 0 MRead Hcv). by eapply cv_ok_running.
    + apply (wait_frame c _ MUnlock MRead pt ls Hw); [done| |done]. intros [?|?]; [by left|done].
Qed.

Lemma thread_step_ok c pm pt ls o c' :
  alarm_ok c pm pt ls → reliable c (ERun 1 o) = true → alarm_thread_step 1 pt o c = Ok c' →
  ∃ pt' ls', alarm_ok c' pm pt' ls'.
Proof.
  intros Hok Hr Hst. pose proof Hok as [Ht H1 H2 Hm Ha Hp Hf Hcv Hw].
  simpl in Hr. rewrite Ht in Hr. simpl in Hr.
  destruct pt as [| | | | | | | |l|] eqn:Hpt; try discriminate; simpl in Hst.
  - (* TLock *)
    apply Z.eqb_eq in Hr. unfold lock in Hst. rewrite Hr in Hst. cbn [Z.eqb] in Hst. res_inv.
    sync_inv. subst. exists TTop, ls.
    rewrite <- (set_cond_same c). apply running_goto; [|by left].
    apply (running_start c pm TLock ls); [done|by left|done|].
    rewrite Ht in Hcv. by eapply cv_ok_running.
  - (* TTop *)
    assert (a_mutex c = Some 1%nat) as Hmx by (apply (Hm 1%nat TTop); [by rewrite Ht|done]).
    assert (holding pm = false) as Hpm.
    { destruct (holding pm) eqn:Hh; [|done]. rewrite Ht, Hmx in Hm.
      by specialize (Hm 0%nat pm eq_refl Hh). }
    apply (wait_work_ok (set_current c 0) c' pm ls); [|done|exact Hst].
    assert (running c pm None ls) as [].
    { rewrite <- (set_mutex_same c), Hmx, <- (set_cond_same c).
      apply (running_start c pm TTop ls); [done|by right|done|].
      rewrite Ht in Hcv. by eapply cv_ok_running. }
    by split.
  - (* TWaitWork *)
    apply Z.eqb_eq in Hr. rewrite Hr in Hst. cbn [Z.eqb] in Hst.
    destruct (awake 1 (a_cond c)) eqn:Haw; [|done]. apply awake_true in Haw.
    cbn [await mbind res_bind] in Hst.
    destruct (a_mutex c) eqn:Hmx; [done|]. cbn [mbind res_bind mutex_lock] in Hst.
    apply (wait_work_ok (set_mutex c (Some 1%nat)) c' pm ls);
      [|simpl; intros ->; by destruct Hw as [[? _]|[? _]]|exact Hst].
    rewrite <- (set_cond_same c). apply (running_start c pm TWaitWork ls); [done|by left|done|done].
  - (* TWaitTime *)
    unfold alarm_wakeup in Hst.
    destruct (ao_busy _ _ _ _ _ _ _ Ha l eq_refl) as [a Hl]. specialize (Hw a Hl).
    apply orb_prop in Hr as [Hr%Z.eqb_eq|Hr%Z.eqb_eq]; rewrite Hr in Hst; cbn [Z.eqb] in Hst.
    + destruct (awake 1 (a_cond c)) eqn:Haw; [|done]. apply awake_true in Haw.
      cbn [await mbind res_bind] in Hst.
      destruct (a_mutex c) eqn:Hmx; [done|]. cbn [mbind res_bind mutex_lock] in Hst.
      apply (wait_time_ok (set_mutex c (Some 1%nat)) c' pm l a ls);
        [|done|simpl; lia| |exact Hst].
      * rewrite <- (set_cond_same c). apply (running_start c pm (TWaitTime l) ls); [done|by left|done|done].
      * simpl. destruct Hw as [_ [[_ ?]|[? _]]]; [done|lia].
    + change (ETIMEDOUT =? 0) with false in Hst. rewrite Z.eqb_refl in Hst. cbn [load] in Hst.
      rewrite Hl in Hst. cbn [of_option mbind res_bind] in Hst.
      destruct (al_time a <=? a_now c) eqn:Hle; [|done]. apply Z.leb_le in Hle.
      cbn [await mbind res_bind a_mutex set_cond] in Hst.
      destruct (a_mutex c) eqn:Hmx; [done|]. cbn [mbind res_bind mutex_lock] in Hst.
      rewrite ?Z.eqb_refl in Hst. exists TTop, ls. apply (expired_ok (set_mutex (set_cond c (cond_leave 1 (a_cond c))) (Some 1%nat)) c' pm l a ls);
        [|done|simpl; lia|exact Hst].
      apply (running_start c pm (TWaitTime l) ls); [done|by left| |].
      * intros u. rewrite elem_of_cond_leave. by intros [].
      * rewrite elem_of_cond_leave. by intros [].
  - (* TSignal *)
    apply Z.eqb_eq in Hr. unfold signal in Hst. rewrite Hr in Hst. cbn [Z.eqb] in Hst. res_inv. subst.
    match goal with H : cond_signal _ _ = Ok _ |- _ => rewrite (signal_ok _ _ _ _ _ _ Hok H) end.
    assert (a_mutex c = Some 1%nat) as Hmx by (apply (Hm 1%nat TSignal); [by rewrite Ht|done]).
    exists TTop, ls. apply running_goto; [|by left].
    rewrite <- (set_mutex_same (set_cond c [])). simpl. rewrite Hmx.
    apply (running_start c pm TSignal ls); [done| |set_solver|set_solver].
    right. split; [done|]. destruct (holding pm) eqn:Hh; [|done]. rewrite Ht, Hmx in Hm.
    by specialize (Hm 0%nat pm eq_refl Hh).
Qed.

Lemma cond_alarm_step_ok c c' e pm pt ls :
  alarm_ok c pm pt ls → reliable c e = true → astep c e = Ok c' →
  ∃ pm' pt' ls', alarm_ok c' pm' pt' ls'.
Proof.
  intros Hok Hr Hst. pose proof Hok as [Ht H1 H2 _ _ _ _ _ _].
  destruct e as [t o|t|]; cbn [astep] in Hst.
  - destruct (exited c); [done|]. rewrite Ht in Hst. destruct t as [|[|t]]; [| |done].
    + destruct (main_step_ok c pm pt ls o c' Hok Hr) as (pm' & ls' & ?); [|eauto].
      simpl in Hst. by destruct pm.
    + destruct (thread_step_ok c pm pt ls o c' Hok Hr) as (pt' & ls' & ?); [|eauto].
      simpl in Hst. by destruct pt.
  - injection Hst as <-. exists pm, pt, ls. by apply spurious_ok.
  - injection Hst as <-. exists pm, pt, ls. by apply cond_tick_ok.
Qed.

Lemma cond_alarm_reachable_ok now c :
  reachable (M := alarm_reliable) (alarm_start now) c → ∃ pm pt ls, alarm_ok c pm pt ls.
Proof.
  apply (invariant_run (M := alarm_reliable) (λ c, ∃ pm pt ls, alarm_ok c pm pt ls)).
  - exists MRead, TLock, []. apply cond_alarm_start_ok.
  - intros c1 e c2 (pm & pt & ls & Hok) [Hr Hs]%restrict_Ok. by eapply cond_alarm_step_ok.
Qed.

(** ** Faults *)

Lemma await_no_fault b f : await b ≠ Fault f.
Proof. by destruct b. Qed.

Section faults.
Context (c : aconf) (pm pt : pc) (ls : list loc) (Hok : alarm_ok c pm pt ls).

Lemma cond_main_read_fault o f : main_read 0 o c = Fault f → input_fault f.
Proof.
  unfold main_read. destruct (o_line o) as [line|]; [|done].
  destruct (String.length line <=? 1)%nat; [done|].
  intros [Hf|(l & _ & Hst)]%bind_Fault; [left; destruct (o_alloc o); naive_solver|].
  apply bind_Fault in Hst as [Hf|(h & [Hl ->]%malloc_Ok & Hst)].
  { unfold malloc, await in Hf. by case_bool_decide. }
  apply bind_Fault in Hst as [Hf|([[s m]|] & _ & Hst)]; [by eapply scan_alarm_fault|done|].
  simpl in Hst. by rewrite lookup_insert_eq in Hst.
Qed.

Lemma cond_main_insert_fault alarm f : pm = MLock alarm → main_insert 0 alarm c ≠ Fault f.
Proof.
  intros ->. destruct Hok as [Ht H1 H2 Hm Ha Hp Hf Hcv Hw]. simpl in Ha. unfold main_insert.
  destruct (ao_fresh _ _ _ _ _ _ _ Ha alarm eq_refl) as [a Hl]. cbn [load]. rewrite Hl.
  cbn [of_option mbind res_bind].
  pose proof (alarms_set _ _ _ _ _ _ _ (set_time (a_now c + al_seconds a) a) Ha) as Ha'.
  destruct (alarms_insert _ _ _ _ _ _ _ _ Ha' (lookup_insert_eq _ _ _))
    as (h' & l' & ls' & Hrun & Hok' & _ & Hsame).
  unfold alarm_insert. cbn [a_heap a_list set_alarms]. rewrite Hrun. cbn [mbind res_bind].
  rewrite (alarms_print _ _ _ _ _ _ _ Hok'). cbn [mbind res_bind load].
  specialize (Hsame alarm). rewrite lookup_insert_eq in Hsame.
  destruct (h' !! alarm) as [a'|]; [|done]. cbn [of_option mbind res_bind].
  by destruct (_ || _).
Qed.

(** the alarm thread inside the mutex *)
Lemma expired_fault l a f : a_heap c !! l = Some a → alarm_expired 1 l c ≠ Fault f.
Proof. intros Hl. unfold alarm_expired. cbn [load]. rewrite Hl. cbn. by rewrite Hl. Qed.
End faults.

Lemma wait_time_fault c pm l a ls f :
  running c pm (Some l) ls → a_heap c !! l = Some a → alarm_wait_time 1 l c ≠ Fault f.
Proof.
  intros [_ _ Hmx _ Ha _ _ _] Hl. unfold alarm_wait_time, block. cbn [load]. rewrite Hl.
  cbn [of_option mbind res_bind]. destruct (a_current c =? al_time a); [by rewrite Hmx|].
  destruct (alarms_reinsert _ _ _ _ _ _ _ _ Ha Hl) as (h' & l' & ls' & Hrun & Ha' & _ & Hsame).
  unfold alarm_insert. rewrite Hrun. cbn [mbind res_bind].
  rewrite (alarms_print _ _ _ _ _ _ _ Ha'). cbn [mbind res_bind load].
  specialize (Hsame l). rewrite Hl in Hsame. destruct (h' !! l) as [a'|]; [|done].
  cbn [of_option mbind res_bind]. by destruct (_ || _).
Qed.

Lemma wait_work_fault c pm ls f : running c pm None ls → alarm_wait_work 1 c ≠ Fault f.
Proof.
  intros Hrn. pose proof Hrn as [Ht H1 Hmx Ho Ha Hp Hf Hc]. unfold alarm_wait_work, block.
  destruct (a_list c) as [l|] eqn:Hl; [|by rewrite Hmx].
  destruct (alarms_take _ _ _ _ _ _ Ha) as (a & ls' & Hla & -> & Ha' & Hall).
  cbn [load]. rewrite Hla. cbn [of_option mbind res_bind].
  destruct (a_now _ <? al_time a).
  - eapply (wait_time_fault (set_current (set_alarms c (a_heap c) (al_link a)) (al_time a)) pm l a ls');
      [by split|done].
  - by eapply expired_fault.
Qed.

Lemma unlock_fault c pm pt ls t p o f :
  alarm_ok c pm pt ls → a_threads c !! t = Some p → holding p = true → unlock t o c ≠ Fault f.
Proof.
  intros [_ _ _ Hm _ _ _ _ _] Ht Hp. unfold unlock. destruct (o_status o =? 0); [|done].
  unfold mutex_unlock. rewrite bool_decide_true; [done|]. by apply (Hm t p).
Qed.

Lemma signal_fault o c f : signal o c ≠ Fault f.
Proof.
  unfold signal. destruct (o_status o =? 0); [|done]. unfold cond_signal.
  destruct (a_cond c); [done|]. destruct (o_wake o); [|done]. simpl. by case_bool_decide.
Qed.

Lemma cond_thread_fault c pm pt ls o f :
  alarm_ok c pm pt ls → reliable c (ERun 1 o) = true → alarm_thread_step 1 pt o c ≠ Fault f.
Proof.
  intros Hok Hr. pose proof Hok as [Ht H1 H2 Hm Ha Hp Hf Hcv Hw].
  simpl in Hr. rewrite Ht in Hr. simpl in Hr.
  destruct pt as [| | | | | | | |l|] eqn:Hpt; try discriminate; simpl.
  - unfold lock. destruct (o_status o =? 0); [|done]. by destruct (a_mutex c).
  - assert (a_mutex c = Some 1%nat) as Hmx by (apply (Hm 1%nat TTop); [by rewrite Ht|done]).
    assert (running c pm None ls) as [].
    { rewrite <- (set_mutex_same c), Hmx, <- (set_cond_same c).
      apply (running_start c pm TTop ls); [done| |done|].
      - right. split; [done|]. destruct (holding pm) eqn:Hh; [|done]. rewrite Ht, Hmx in Hm.
        by specialize (Hm 0%nat pm eq_refl Hh).
      - rewrite Ht in Hcv. by eapply cv_ok_running. }
    apply (wait_work_fault (set_current c 0) pm ls). by split.
  - rewrite Hr. destruct (awake 1 (a_cond c)) eqn:Haw; [|done]. apply awake_true in Haw.
    cbn [await mbind res_bind]. destruct (a_mutex c) eqn:Hmx; [done|]. cbn [mbind res_bind mutex_lock].
    eapply wait_work_fault. rewrite <- (set_cond_same c).
    apply (running_start c pm TWaitWork ls); [done|by left|done|done].
  - unfold alarm_wakeup. destruct (ao_busy _ _ _ _ _ _ _ Ha l eq_refl) as [a Hl].
    apply orb_prop in Hr as [Hr%Z.eqb_eq|Hr%Z.eqb_eq]; rewrite Hr; cbn [Z.eqb].
    + destruct (awake 1 (a_cond c)) eqn:Haw; [|done]. apply awake_true in Haw.
      cbn [await mbind res_bind]. destruct (a_mutex c) eqn:Hmx; [done|]. cbn [mbind res_bind mutex_lock].
      apply (wait_time_fault (set_mutex c (Some 1%nat)) pm l a ls); [|done].
      rewrite <- (set_cond_same c).
      apply (running_start c pm (TWaitTime l) ls); [done|by left|done|done].
    + change (ETIMEDOUT =? 0) with false. rewrite Z.eqb_refl. cbn [load]. rewrite Hl.
      cbn [of_option mbind res_bind]. destruct (al_time a <=? a_now c); [|done].
      cbn [await mbind res_bind a_mutex set_cond].
      destruct (a_mutex c); [done|]. cbn [mbind res_bind mutex_lock]. rewrite ?Z.eqb_refl.
      by eapply expired_fault.
  - intros [Hs|(c1 & _ & Hs)]%bind_Fault; [by apply signal_fault in Hs|done].
Qed.

Lemma cond_alarm_fault_ok c pm pt ls e f :
  alarm_ok c pm pt ls → reliable c e = true → astep c e = Fault f → input_fault f.
Proof.
  intros Hok Hr Hst. pose proof Hok as [Ht H1 H2 Hm _ _ _ _ _].
  destruct e as [t o|t|]; cbn [astep] in Hst; [|done|done].
  destruct (exited c); [done|]. rewrite Ht in Hst. destruct t as [|[|t]]; simpl in Hst; [| |done].
  - destruct pm as [|alarm| | | | | | | |] eqn:Hpm; try discriminate; simpl in Hst; try done.
    + by eapply cond_main_read_fault.
    + exfalso. unfold lock in Hst. simpl in Hr. rewrite Ht in Hr. simpl in Hr.
      apply andb_prop in Hr as [Hr _]. rewrite Hr in Hst.
      destruct (a_mutex c) eqn:Hmx; [done|]. simpl in Hst.
      eapply (cond_main_insert_fault _ _ _ _ (cond_lock_none c _ _ _ 0 Hok Hmx)); done.
    + exfalso. apply bind_Fault in Hst as [Hs|(c1 & _ & Hs)]; [by apply signal_fault in Hs|done].
    + exfalso. apply bind_Fault in Hst as [Hs|(c1 & _ & Hs)]; [|done].
      eapply (unlock_fault c MUnlock pt ls 0 MUnlock); [done|by rewrite Ht|done|exact Hs].
  - exfalso. apply (cond_thread_fault c pm pt ls o f Hok Hr). by destruct pt.
Qed.

(** ** Properties *)

(** what the alarm thread has taken off the list and not yet printed *)
Definition taken (c : aconf) : list loc :=
  match a_threads c !! 1%nat with Some p => option_list (busy p) | None => [] end.

(** Alarm_cond.c loses no alarm, prints none twice and none before its time.
    The list is always sorted; the alarms entered are, up to order, those printed,
    the one the thread waits for, and those in the list. *)
Theorem alarm_cond_delivers now c :
  reachable (M := alarm_reliable) (alarm_start now) c →
  ∃ ls, chain (a_heap c) (a_list c) ls ∧ sorted (entries (a_heap c) ls) ∧
    a_accepted c ≡ₚ map snd (a_fired c) ++ entries (a_heap c) (taken c ++ ls) ∧
    ∀ t e, (t, e) ∈ a_fired c → e_time e ≤ t.
Proof.
  intros (pm & pt & ls & Hok)%cond_alarm_reachable_ok. exists ls.
  destruct Hok as [Ht H1 H2 Hm [Hc _ _ _ Hs Ha] _ Hf _ _].
  unfold taken. rewrite Ht. by split_and!.
Qed.

(** An earlier alarm interrupts the wait, and no wake-up is lost.  While the
    alarm thread is blocked and main is not about to signal it, the list is empty
    when the thread waits for work, and the alarm it waits for is due first when it
    waits for a time. *)
Theorem alarm_cond_wakeups now c :
  reachable (M := alarm_reliable) (alarm_start now) c → 1%nat ∈ a_cond c →
  a_threads c !! 0%nat ≠ Some MSignal →
  match a_threads c !! 1%nat with
  | Some TWaitWork => a_list c = None
  | Some (TWaitTime l) => ∃ a ls, a_heap c !! l = Some a ∧ chain (a_heap c) (a_list c) ls ∧
      Forall (λ e, al_time a ≤ e_time e) (entries (a_heap c) ls)
  | _ => False
  end.
Proof.
  intros (pm & pt & ls & Hok)%cond_alarm_reachable_ok Hin Hpm.
  destruct Hok as [Ht H1 H2 Hm Ha _ _ Hcv Hw]. rewrite Ht in *.
  simpl in *. destruct (Hcv _ Hin) as (q & [= <-] & Hq).
  assert (∀ P : Prop, 1%nat ∉ a_cond c ∨ pm = MSignal → P) as Hro by (intros P [?|?]; [done|congruence]).
  destruct pt as [| | | | | | | |l|]; try discriminate; simpl in Hw.
  - destruct Hw as [[_ ->]|[_ ?]]; [|by apply Hro]. by destruct Ha as [Hc _ _ _ _ _].
  - destruct (ao_busy _ _ _ _ _ _ _ Ha l eq_refl) as [a Hl]. exists a, ls.
    split; [done|]. split; [by destruct Ha|].
    destruct (Hw a Hl) as [_ [[_ ?]|[_ ?]]]; [done|by apply Hro].
Qed.

(** Alarm_cond.c has no memory fault of its own: when only timed waits end with
    an error, only its input can hurt it - a malloc that fails, a message of 64
    characters, or a number that is no int. *)
Theorem alarm_cond_safe now f :
  can_fault (M := alarm_reliable) (alarm_start now) f →
  f = NullDeref ∨ f = OutOfBounds ∨ f = Overflow.
Proof.
  intros Hf. assert (input_fault f ∨ ¬ input_fault f) as [?|Hno]
    by (destruct f; unfold input_fault; intuition congruence); [done|exfalso]. revert Hf.
  apply (invariant_no_fault (M := alarm_reliable) (λ c, ∃ pm pt ls, alarm_ok c pm pt ls)).
  - exists MRead, TLock, []. apply cond_alarm_start_ok.
  - intros c1 e c2 (pm & pt & ls & Hok) [Hr Hs]%restrict_Ok. by eapply cond_alarm_step_ok.
  - intros c e (pm & pt & ls & Hok) Hs. unfold mstep, alarm_reliable, restrict in Hs.
    destruct (reliable c e) eqn:Hr; [|done]. by eapply Hno, cond_alarm_fault_ok.
Qed.

Definition typed (l : loc) (s : string) : oracle :=
  Oracle 0 None (Some l) true 0 (Some (s +:+ String newline EmptyString)).
(** an alarm in 5 seconds; the thread waits for it; one in 2 seconds interrupts *)
Definition alarm_demo : list aevent :=
  [ERun 0 (typed 1 "5 tea"); ERun 0 ok; ERun 0 ok; ERun 0 ok; ERun 1 ok; ERun 1 ok;
   ERun 0 (typed 2 "2 egg"); ERun 0 ok; ERun 0 (ok_wake 1); ERun 0 ok; ERun 1 ok; ERun 1 ok;
   ETick; ETick; ERun 1 (failing ETIMEDOUT); ERun 1 ok].
Definition alarm_example : aconf := final (M := alarm_reliable) (alarm_start 1000) alarm_demo.

Lemma alarm_cond_delivers_witness :
  ∃ ls, chain (a_heap alarm_example) (a_list alarm_example) ls ∧
    sorted (entries (a_heap alarm_example) ls) ∧
    a_accepted alarm_example ≡ₚ map snd (a_fired alarm_example) ++
      entries (a_heap alarm_example) (taken alarm_example ++ ls) ∧
    ∀ t e, (t, e) ∈ a_fired alarm_example → e_time e ≤ t.
Proof.
  apply (alarm_cond_delivers 1000 alarm_example), (reachable_final (M := alarm_reliable)).
  by vm_compute.
Defined.

Lemma alarm_cond_wakeups_witness :
  ∃ a ls, a_heap alarm_example !! 1%nat = Some a ∧
    chain (a_heap alarm_example) (a_list alarm_example) ls ∧
    Forall (λ e, al_time a ≤ e_time e) (entries (a_heap alarm_example) ls).
Proof.
  apply (alarm_cond_wakeups 1000 alarm_example).
  - apply (reachable_final (M := alarm_reliable)). by vm_compute.
  - assert (a_cond alarm_example = [1%nat]) as -> by (by vm_compute). set_solver.
  - by vm_compute.
Defined.

Lemma alarm_cond_safe_witness :
  NullDeref = NullDeref ∨ NullDeref = OutOfBounds ∨ NullDeref = Overflow.
Proof.
  apply (alarm_cond_safe 1000). exists [ERun 0 (ok_line "1 tea")]. by vm_compute.
Defined.
