(* ===== verification/Heap.v ===== *)
(** Programs that build linked structures with [new] and [delete].

    The C++ classes of the repository keep their data in nodes that point to
    each other.  This file gives such programs a heap: a program is a function
    from heaps to a result and a heap, or to a fault (a NULL dereference, a use
    of freed memory).  Its specifications are written in a separation logic:
    [heapProp] makes the predicates on heaps a logic of bunched implications,
    so that the Iris proof mode applies, and [wp m Φ] states that the program
    [m] terminates without a fault and leaves a result and a heap that satisfy
    [Φ].  The logic is linear: a specification with precondition [P] and
    postcondition [Q] accounts for every cell, so leaked memory is visible. *)

From iris.proofmode Require Import environments coq_tactics reduction.
From iris.proofmode Require Export proofmode.
From S2P Require Import Prelude.

Abbreviation loc := nat.
Abbreviation ptr := (option nat).   (* None is NULL *)

(** ** Programs *)

Definition prog (V A : Type) : Type := gmap loc V → res (A * gmap loc V).

#[export] Instance prog_ret {V} : MRet (prog V) := λ A a h, Ok (a, h).
#[export] Instance prog_bind {V} : MBind (prog V) := λ A B k m h,
  match m h with
  | Ok (a, h') => k a h'
  | Blocked => Blocked
  | Fault f => Fault f
  end.

(** a computation that does not touch the heap *)
Definition lift {V A} (r : res A) : prog V A := λ h,
  match r with Ok a => Ok (a, h) | Blocked => Blocked | Fault f => Fault f end.

(** [*p] *)
Definition load {V} (p : ptr) : prog V V := λ h,
  match p with
  | None => Fault NullDeref
  | Some l => match h !! l with Some v => Ok (v, h) | None => Fault BadPointer end
  end.

(** [*p = v] *)
Definition store {V} (p : ptr) (v : V) : prog V unit := λ h,
  match p with
  | None => Fault NullDeref
  | Some l =>
      match h !! l with Some _ => Ok (tt, <[l := v]> h) | None => Fault BadPointer end
  end.

(** [new V(...)]: some address that is not in use *)
Definition new {V} (v : V) : prog V ptr := λ h,
  let l := fresh (dom h) in Ok (Some l, <[l := v]> h).

(** [delete p]; deleting NULL does nothing *)
Definition dispose {V} (p : ptr) : prog V unit := λ h,
  match p with
  | None => Ok (tt, h)
  | Some l =>
      match h !! l with Some _ => Ok (tt, delete l h) | None => Fault BadPointer end
  end.

(** [p->f = v] for a field [f] *)
Definition modify {V} (p : ptr) (f : V → V) : prog V unit :=
  v ← load p; store p (f v).

(** ** Assertions *)

Record heapProp (V : Type) := HProp { holds :> gmap loc V → Prop }.
Arguments HProp {V} _.
Arguments holds {V} _ _.
Add Printing Constructor heapProp.

Section logic.
Context {V : Type}.
Implicit Types (P Q R : heapProp V) (h : gmap loc V).

Record hp_equiv P Q : Prop := Equivalent { in_equiv : ∀ h, P h ↔ Q h }.
#[local] Instance heapProp_equiv : Equiv (heapProp V) := hp_equiv.
#[local] Instance heapProp_equivalence : Equivalence (≡@{heapProp V}).
Proof.
  split.
  - by intros P; split.
  - intros P Q [H]; split; intros h. by rewrite H.
  - intros P Q R [H1] [H2]; split; intros h. by rewrite H1 H2.
Qed.
#[local] Canonical Structure heapPropO := discreteO (heapProp V).

Record hp_entails P Q : Prop := Entails { in_entails : ∀ h, P h → Q h }.
Definition hp_emp : heapProp V := HProp (λ h, h = ∅).
Definition hp_pure (φ : Prop) : heapProp V := HProp (λ _, φ).
Definition hp_and P Q : heapProp V := HProp (λ h, P h ∧ Q h).
Definition hp_or P Q : heapProp V := HProp (λ h, P h ∨ Q h).
Definition hp_impl P Q : heapProp V := HProp (λ h, P h → Q h).
Definition hp_forall {A} (Φ : A → heapProp V) : heapProp V := HProp (λ h, ∀ a, Φ a h).
Definition hp_exist {A} (Φ : A → heapProp V) : heapProp V := HProp (λ h, ∃ a, Φ a h).
Definition hp_sep P Q : heapProp V :=
  HProp (λ h, ∃ h1 h2, h = h1 ∪ h2 ∧ h1 ##ₘ h2 ∧ P h1 ∧ Q h2).
Definition hp_wand P Q : heapProp V := HProp (λ h, ∀ h', h ##ₘ h' → P h' → Q (h ∪ h')).
Definition hp_persistently P : heapProp V := HProp (λ _, P ∅).
Definition hp_later P : heapProp V := P.

Lemma heapProp_mixin :
  BiMixin hp_entails hp_emp hp_pure hp_and hp_or hp_impl
    (@hp_forall) (@hp_exist) hp_sep hp_wand.
Proof.
  split; unfold dist, ofe_dist, discrete_dist, equiv; simpl.
  - split; [by intros P; split|]. intros P Q R [H1] [H2]; split. auto.
  - intros P Q. split; [intros [H]; split; split; intros h; apply H|].
    intros [[H1] [H2]]; split; intros h. split; auto.
  - intros n φ ψ H; by split.
  - intros n P P' [HP] Q Q' [HQ]; split; intros h; simpl. by rewrite (HP h) (HQ h).
  - intros n P P' [HP] Q Q' [HQ]; split; intros h; simpl. by rewrite (HP h) (HQ h).
  - intros n P P' [HP] Q Q' [HQ]; split; intros h; simpl. by rewrite (HP h) (HQ h).
  - intros A n Φ Ψ H; split; intros h. split; intros HH a; by apply (H a).
  - intros A n Φ Ψ H; split; intros h. split; intros [a Ha]; exists a; by apply (H a).
  - intros n P P' [HP] Q Q' [HQ]; split; intros h.
    split; intros (h1 & h2 & -> & ? & ? & ?); exists h1, h2;
      repeat split; try done; by first [apply HP|apply HQ].
  - intros n P P' [HP] Q Q' [HQ]; split; intros h.
    split; intros H h' Hd HP'; apply HQ, H; try done; by apply HP.
  - done.
  - intros φ P H; split; intros h Hφ. by apply (H Hφ).
  - intros P Q; split; by intros h [? ?].
  - intros P Q; split; by intros h [? ?].
  - intros P Q R [H1] [H2]; split; intros h HP. split; auto.
  - intros P Q; split; intros h HP. by left.
  - intros P Q; split; intros h HP. by right.
  - intros P Q R [H1] [H2]; split; intros h [?|?]; auto.
  - intros P Q R [H]; split; intros h HP HQ. by apply H.
  - intros P Q R [H]; split; intros h [HP HQ]. by apply H.
  - intros A P Ψ H; split; intros h HP a. by apply H.
  - intros A Ψ a; split; intros h H. apply H.
  - intros A Ψ a; split; intros h H. by exists a.
  - intros A Φ Q H; split; intros h [a Ha]. by eapply H.
  - intros P P' Q Q' [H1] [H2]; split; intros h (h1 & h2 & -> & ? & ? & ?). exists h1, h2. auto.
  - intros P; split; intros h HP. exists ∅, h. rewrite left_id_L.
    split_and!; try done. apply map_disjoint_empty_l.
  - intros P; split; intros h (h1 & h2 & -> & ? & -> & ?). by rewrite left_id_L.
  - intros P Q; split; intros h (h1 & h2 & -> & ? & ? & ?). exists h2, h1.
    split_and!; try done. by apply map_union_comm.
  - intros P Q R; split; intros h (h12 & h3 & -> & Hd & (h1 & h2 & -> & ? & ? & ?) & ?).
    apply map_disjoint_union_l in Hd as [? ?].
    exists h1, (h2 ∪ h3). rewrite assoc_L. split_and!; try done; [by apply map_disjoint_union_r|].
    by exists h2, h3.
  - intros P Q R [H]; split; intros h HP h' Hd HQ. apply H. by exists h, h'.
  - intros P Q R [H]; split; intros h (h1 & h2 & -> & ? & ? & ?). by apply H.
Qed.

Lemma heapProp_persistently_mixin :
  BiPersistentlyMixin hp_entails hp_emp hp_and (@hp_exist) hp_sep hp_persistently.
Proof.
  split; unfold dist, ofe_dist, discrete_dist, equiv; simpl.
  - intros n P Q [H]; split; intros h. apply H.
  - intros P Q [H]; split; intros h. apply H.
  - intros P; by split.
  - by split.
  - intros P Q; by split.
  - intros A Ψ; split; intros h [a Ha]. by exists a.
  - intros P Q; split; by intros h (h1 & h2 & -> & ? & ? & ?).
  - intros P Q; split; intros h [HP HQ]. exists ∅, h. rewrite left_id_L.
    split_and!; try done. apply map_disjoint_empty_l.
Qed.

Lemma heapProp_later_mixin :
  BiLaterMixin hp_entails hp_pure hp_or hp_impl
    (@hp_forall) (@hp_exist) hp_sep hp_persistently hp_later.
Proof. eapply bi_later_mixin_id; [done|apply heapProp_mixin]. Qed.

Canonical Structure heapPropI : bi := {|
  bi_ofe_mixin := ofe_mixin_of (heapProp V);
  bi_bi_mixin := heapProp_mixin;
  bi_bi_persistently_mixin := heapProp_persistently_mixin;
  bi_bi_later_mixin := heapProp_later_mixin |}.

#[export] Instance heapProp_pure_forall : BiPureForall heapPropI.
Proof. intros A φ; split; intros h H a. apply H. Qed.

(** the heap is the single cell [l] with the content [v] *)
Definition points_to (l : loc) (v : V) : heapPropI := HProp (λ h, h = {[ l := v ]}).
(** the program [m] terminates, with a result and a heap that satisfy [Φ] *)
Definition wp {A} (m : prog V A) (Φ : A → heapPropI) : heapPropI := HProp (λ h,
  ∀ hf, h ##ₘ hf → ∃ a h', m (h ∪ hf) = Ok (a, h' ∪ hf) ∧ h' ##ₘ hf ∧ Φ a h').
End logic.
Arguments heapPropO : clear implicits.
Arguments heapPropI : clear implicits.
Notation "l ↦ v" := (points_to l v) (at level 20, format "l  ↦  v") : bi_scope.

#[export] Typeclasses Opaque points_to wp.

(** ** Rules of the logic *)

Section rules.
Context {V : Type}.
Implicit Types (P Q : heapPropI V) (h : gmap loc V) (l : loc) (v : V).

Lemma wp_ret {A} (a : A) (Φ : A → heapPropI V) : Φ a ⊢ wp (mret a) Φ.
Proof. split; intros h HΦ hf Hf. by exists a, h. Qed.

Lemma wp_bind {A B} (m : prog V A) (k : A → prog V B) (Φ : B → heapPropI V) :
  wp m (λ a, wp (k a) Φ) ⊢ wp (m ≫= k) Φ.
Proof.
  split; intros h Hm hf Hf. destruct (Hm hf Hf) as (a & h' & Hr & Hf' & Hk).
  destruct (Hk hf Hf') as (b & h'' & Hr' & Hf'' & HΦ).
  exists b, h''. split; [|done]. unfold mbind, prog_bind. by rewrite Hr.
Qed.

Lemma wp_lift {A} (r : res A) a (Φ : A → heapPropI V) :
  r = Ok a → Φ a ⊢ wp (lift r) Φ.
Proof. intros ->; split; intros h HΦ hf Hf. by exists a, h. Qed.

Lemma wp_wand {A} (m : prog V A) (Φ Ψ : A → heapPropI V) :
  wp m Φ ∗ (∀ a, Φ a -∗ Ψ a) ⊢ wp m Ψ.
Proof.
  split; intros h (h1 & h2 & -> & Hd & Hm & HΦ) hf [Hf1 Hf2]%map_disjoint_union_l.
  destruct (Hm (h2 ∪ hf)) as (a & h' & Hr & [Hf' Hf'']%map_disjoint_union_r & Hk).
  { by apply map_disjoint_union_r. }
  exists a, (h' ∪ h2). rewrite -!assoc_L. split_and!; [done| |].
  - by apply map_disjoint_union_l.
  - rewrite map_union_comm //. by apply (HΦ a).
Qed.

Lemma wp_load l v (Φ : V → heapPropI V) :
  l ↦ v ∗ (l ↦ v -∗ Φ v) ⊢ wp (load (Some l)) Φ.
Proof.
  split; intros h (h1 & h2 & -> & Hd & -> & HΦ) hf Hf. exists v, ({[l := v]} ∪ h2).
  split_and!; [|done|].
  - rewrite /load -assoc_L lookup_union lookup_singleton_eq union_Some_l //.
  - rewrite map_union_comm //. by apply HΦ.
Qed.

Lemma wp_store l v w (Φ : unit → heapPropI V) :
  l ↦ v ∗ (l ↦ w -∗ Φ tt) ⊢ wp (store (Some l) w) Φ.
Proof.
  split; intros h (h1 & h2 & -> & Hd & -> & HΦ) hf [Hf1 Hf2]%map_disjoint_union_l.
  apply map_disjoint_singleton_l in Hd, Hf1.
  exists tt, ({[l := w]} ∪ h2). split_and!.
  - rewrite /store -!assoc_L lookup_union lookup_singleton_eq union_Some_l /=.
    do 3 f_equal. rewrite -!insert_union_singleton_l insert_insert_eq //.
  - apply map_disjoint_union_l. split; [by apply map_disjoint_singleton_l|done].
  - rewrite map_union_comm; [|by apply map_disjoint_singleton_l].
    apply HΦ; [by apply map_disjoint_singleton_r|done].
Qed.

Lemma wp_new v (Φ : ptr → heapPropI V) :
  (∀ l, l ↦ v -∗ Φ (Some l)) ⊢ wp (new v) Φ.
Proof.
  split; intros h HΦ hf Hf. set (l := fresh (dom (h ∪ hf))).
  assert ((h ∪ hf) !! l = None) as [Hl1 Hl2]%lookup_union_None.
  { apply not_elem_of_dom, is_fresh. }
  exists (Some l), (<[l:=v]> h). split_and!.
  - rewrite /new -/l insert_union_l //.
  - by apply map_disjoint_insert_l.
  - rewrite insert_union_singleton_r //.
    apply (HΦ l); [by apply map_disjoint_singleton_r|done].
Qed.

Lemma wp_dispose l v (Φ : unit → heapPropI V) :
  l ↦ v ∗ Φ tt ⊢ wp (dispose (Some l)) Φ.
Proof.
  split; intros h (h1 & h2 & -> & Hd & -> & HΦ) hf [Hf1 Hf2]%map_disjoint_union_l.
  apply map_disjoint_singleton_l in Hd, Hf1.
  exists tt, h2. split_and!; [|done|done].
  rewrite /dispose -!assoc_L lookup_union lookup_singleton_eq union_Some_l /=.
  do 2 f_equal. rewrite -!insert_union_singleton_l delete_insert_id //.
  by apply lookup_union_None.
Qed.

Lemma wp_dispose_null (Φ : unit → heapPropI V) : Φ tt ⊢ wp (dispose None) Φ.
Proof. split; intros h HΦ hf Hf. by exists tt, h. Qed.

Lemma wp_modify l v f (Φ : unit → heapPropI V) :
  l ↦ v ∗ (l ↦ f v -∗ Φ tt) ⊢ wp (modify (Some l) f) Φ.
Proof.
  iIntros "[Hl HΦ]". iApply wp_bind. iApply wp_load. iFrame "Hl". iIntros "Hl".
  iApply wp_store. iFrame.
Qed.

Lemma points_to_excl l v w : l ↦ v -∗ l ↦ w -∗ (False : heapPropI V).
Proof.
  iIntros "H1 H2". iStopProof. split; intros h (h1 & h2 & -> & Hd & -> & ->).
  by apply map_disjoint_singleton_l in Hd; rewrite lookup_singleton_eq in Hd.
Qed.

Lemma points_to_ne l l' v w : l ↦ v -∗ l' ↦ w -∗ (⌜l ≠ l'⌝ ∗ l ↦ v ∗ l' ↦ w : heapPropI V).
Proof.
  iIntros "H1 H2". destruct (decide (l = l')) as [->|].
  - iDestruct (points_to_excl with "H1 H2") as %[].
  - by iFrame.
Qed.

(** a specification speaks about the runs of the program *)
Lemma wp_runs {A} (m : prog V A) P (Φ : A → heapPropI V) h :
  (P ⊢ wp m Φ) → P h → ∃ a h', m h = Ok (a, h') ∧ Φ a h'.
Proof.
  intros [Hm] HP. destruct (Hm h HP ∅) as (a & h' & Hr & _ & HΦ).
  { apply map_disjoint_empty_r. }
  rewrite !right_id_L in Hr. eauto.
Qed.
End rules.

(** ** Conditions evaluated from left to right *)
Definition andM {V} (a b : prog V bool) : prog V bool := x ← a; if x : bool then b else mret false.
Definition orM {V} (a b : prog V bool) : prog V bool := x ← a; if x : bool then mret true else b.
Definition notM {V} (a : prog V bool) : prog V bool := x ← a; mret (negb x).
Infix "&&&" := andM (at level 40, left associativity) : stdpp_scope.
Infix "|||" := orM (at level 50, left associativity) : stdpp_scope.
(** [p == q] on pointers *)
Definition ptr_eqb (p q : ptr) : bool := bool_decide (p = q).
Infix "=p?" := ptr_eqb (at level 38, no associativity) : stdpp_scope.
(** a loop that was given too few iterations has no result *)
Definition out_of_fuel {V A} : prog V A := λ _ : gmap loc V, Blocked.

(** ** Operations on one cell

    [CellOp m n v a w]: the program [m] finds [v] at the address [n], leaves
    [w] there and returns [a].  The tactics below step through a program with
    the instances of this class and the cells of the proof context. *)

Class CellOp {V A} (m : prog V A) (n : loc) (v : V) (a : A) (w : V) : Prop :=
  cell_op (Φ : A → heapPropI V) : n ↦ v ∗ (n ↦ w -∗ Φ a) ⊢ wp m Φ.
#[export] Hint Mode CellOp + + ! ! + - - : typeclass_instances.

#[export] Instance load_op {V} n (v : V) : CellOp (load (Some n)) n v v v.
Proof. intros Φ. apply wp_load. Qed.
#[export] Instance store_op {V} n (v w : V) : CellOp (store (Some n) w) n v tt w.
Proof. intros Φ. apply wp_store. Qed.
#[export] Instance modify_op {V} n (v : V) f : CellOp (modify (Some n) f) n v tt (f v).
Proof. intros Φ. apply wp_modify. Qed.
Lemma bind_op {V A B} (m : prog V A) (k : A → prog V B) n v a w b u :
  CellOp m n v a w → CellOp (k a) n w b u → CellOp (m ≫= k) n v b u.
Proof.
  intros Hm Hk Φ. iIntros "[Hn HΦ]". iApply wp_bind. iApply Hm. iFrame "Hn".
  iIntros "Hn". iApply Hk. iFrame.
Qed.
Lemma ret_op {V A} (a : A) n (v : V) : CellOp (mret a) n v a v.
Proof. intros Φ. iIntros "[Hn HΦ]". iApply wp_ret. by iApply "HΦ". Qed.
Lemma lift_op {V A} (r : res A) (a : A) n (v : V) : r = Ok a → CellOp (lift r) n v a v.
Proof. intros ? Φ. iIntros "[Hn HΦ]". iApply wp_lift; [done|]. by iApply "HΦ". Qed.

Section tactics.
Context {V : Type}.
Implicit Types (Δ : envs (heapPropI V)) (v w : V) (n : loc).

Lemma tac_wp_cell {A} Δ Δ' i n v w (m : prog V A) a Φ :
  envs_lookup i Δ = Some (false, n ↦ v)%I →
  CellOp m n v a w →
  envs_simple_replace i false (Esnoc Enil i (n ↦ w)) Δ = Some Δ' →
  envs_entails Δ' (Φ a) → envs_entails Δ (wp m Φ).
Proof.
  rewrite envs_entails_unseal. intros Hi Hm HΔ HΦ.
  rewrite envs_simple_replace_sound //; simpl. rewrite right_id.
  etrans; [|apply Hm]. by apply bi.sep_mono_r, bi.wand_mono.
Qed.
Lemma tac_wp_bind {A B} Δ (m : prog V A) (k : A → prog V B) Φ :
  envs_entails Δ (wp m (λ a, wp (k a) Φ)) → envs_entails Δ (wp (m ≫= k) Φ).
Proof. rewrite envs_entails_unseal. intros ->. apply wp_bind. Qed.
Lemma tac_wp_ret {A} Δ (a : A) (Φ : A → heapPropI V) :
  envs_entails Δ (Φ a) → envs_entails Δ (wp (mret a) Φ).
Proof. rewrite envs_entails_unseal. intros ->. apply wp_ret. Qed.
Lemma tac_wp_lift {A} Δ (r : res A) a (Φ : A → heapPropI V) :
  r = Ok a → envs_entails Δ (Φ a) → envs_entails Δ (wp (lift r) Φ).
Proof. rewrite envs_entails_unseal. intros ? ->. by apply wp_lift. Qed.
Lemma tac_wp_dispose Δ i n v Φ :
  envs_lookup i Δ = Some (false, n ↦ v)%I →
  envs_entails (envs_delete false i false Δ) (Φ tt) →
  envs_entails Δ (wp (dispose (Some n)) Φ).
Proof.
  rewrite envs_entails_unseal. intros Hi HΦ. rewrite (envs_lookup_sound _ _ _ _ Hi); cbn [bi_intuitionistically_if].
  rewrite HΦ. apply wp_dispose.
Qed.
Lemma tac_cells_ne Δ i j n n' v w Q :
  envs_lookup i Δ = Some (false, n ↦ v)%I →
  envs_lookup j (envs_delete false i false Δ) = Some (false, n' ↦ w)%I →
  (n ≠ n' → envs_entails Δ Q) → envs_entails Δ Q.
Proof.
  rewrite envs_entails_unseal. intros Hi Hj HQ.
  destruct (decide (n = n')) as [<-|Hne]; [|by apply HQ].
  rewrite (envs_lookup_sound _ _ _ _ Hi) (envs_lookup_sound _ _ _ _ Hj).
  cbn [bi_intuitionistically_if].
  iIntros "(H1 & H2 & H3)". iDestruct (points_to_excl with "H1 H2") as %[].
Qed.
End tactics.

Ltac wp_bind := lazymatch goal with
  | |- envs_entails _ (wp (_ ≫= _) _) => eapply tac_wp_bind
  end.
Ltac wp_ret := lazymatch goal with
  | |- envs_entails _ (wp (mret _) _) => eapply tac_wp_ret
  | |- envs_entails _ (wp (lift _) _) => eapply tac_wp_lift; [reflexivity|]
  end; cbv beta.
(** the two cells are at different addresses *)
Ltac cells_ne :=
  repeat match goal with
  | |- envs_entails ?Δ _ =>
      match Δ with
      | context [Esnoc _ ?i (points_to ?n _)] =>
        match Δ with
        | context [Esnoc _ ?j (points_to ?n' _)] =>
          lazymatch i with j => fail | _ => idtac end;
          lazymatch goal with
          | _ : n ≠ n' |- _ => fail
          | _ : n' ≠ n |- _ => fail
          | _ => eapply (tac_cells_ne _ i j n n'); [reflexivity|reflexivity|intros ?]
          end
        end
      end
  end.
