(* ===== verification/HeapTactics.v ===== *)
(** What proofs about heap programs share: comparisons of pointers, assertions
    at a heap, the class [ReadOnly] of programs that leave the heap alone, and
    a tactic that steps through a program with the cells of the proof context.

    [wp_op simp] makes one step: it splits a bind, returns, decides a
    comparison of pointers, or runs an operation for which some cell of the
    context has a [CellOp] instance; [simp] simplifies what is left in the cell
    (the projections of the client's node type). *)

From iris.proofmode Require Import proofmode environments coq_tactics reduction.
From S2P Require Import Prelude Heap.

(** a fact that holds without memory *)
Notation "⟨ φ ⟩" := (<affine> ⌜ φ ⌝)%I (φ at level 99) : bi_scope.

(** ** Comparison of pointers *)
Lemma ptr_eqb_refl (p : ptr) : (p =p? p) = true.
Proof. by apply bool_decide_eq_true. Qed.
Lemma ptr_eqb_neq (p q : ptr) : p ≠ q → (p =p? q) = false.
Proof. intros ?. by apply bool_decide_eq_false. Qed.
Lemma ptr_eqb_ne (n n' : loc) : n ≠ n' → (Some n =p? Some n') = false.
Proof. intros ?. apply ptr_eqb_neq. congruence. Qed.

(** ** Assertions at a heap *)

Section holds.
Context {V : Type}.
Implicit Types (h : gmap loc V).

Lemma holds_exist {A} (Φ : A → heapPropI V) h : holds (∃ a, Φ a)%I h ↔ ∃ a, holds (Φ a) h.
Proof. done. Qed.
Lemma holds_mono (P Q : heapPropI V) h : (P ⊢ Q) → P h → Q h.
Proof. intros [HPQ]. apply HPQ. Qed.
Lemma holds_pure_sep φ (P : heapPropI V) h : holds (⟨φ⟩ ∗ P)%I h ↔ φ ∧ holds P h.
Proof.
  pose proof holds_mono as Hent.
  split.
  - intros Hh. split.
    + assert (⟨φ⟩ ∗ P ⊢ ⌜φ⌝) as Hp by (iIntros "[% ?]"; by iPureIntro).
      exact (Hent _ _ _ Hp Hh).
    + apply (Hent (⟨φ⟩ ∗ P)%I); [|done]. iIntros "[_ $]".
  - intros [Hφ HP]. apply (Hent P); [|done]. iIntros "$". by iPureIntro.
Qed.
(** a cell is added *)
Lemma holds_fresh (P : heapPropI V) h l (v : V) :
  P h → h !! l = None → (P ∗ l ↦ v)%I (<[l:=v]> h).
Proof.
  intros HP Hl. exists h, {[l := v]}. split_and!; [|by apply map_disjoint_singleton_r|done..].
  rewrite insert_union_singleton_r //.
Qed.
Lemma holds_emp h : holds (emp : heapPropI V)%I h ↔ h = ∅.
Proof. done. Qed.
End holds.

(** the cell [l ↦ v] of a heap, and what is around it *)
Lemma holds_cell {V} (l : loc) (v : V) (P : heapPropI V) (h : gmap loc V) :
  (l ↦ v ∗ P)%I h → h !! l = Some v.
Proof.
  intros (h1 & h2 & -> & _ & Hh1 & _). cbn in Hh1. rewrite Hh1.
  rewrite lookup_union lookup_singleton_eq union_Some_l //.
Qed.

(** one operation that succeeds *)
Lemma run_bind {V A B} (m : prog V A) (f : A → prog V B) (h : gmap loc V) (a : A) h' :
  m h = Ok (a, h') → (m ≫= f) h = f a h'.
Proof. unfold mbind, prog_bind. by intros ->. Qed.

(** ** Programs that only read *)

Class ReadOnly {V A} (m : prog V A) : Prop :=
  read_only h a h' : m h = Ok (a, h') → h' = h.
#[export] Hint Mode ReadOnly - - ! : typeclass_instances.

Section read_only.
Context {V : Type}.
#[export] Instance ro_ret {A} (a : A) : ReadOnly (V := V) (mret a).
Proof. by intros h b h' [= _ <-]. Qed.
#[export] Instance ro_fuel {A} : ReadOnly (V := V) (A := A) out_of_fuel.
Proof. by intros h b h'. Qed.
#[export] Instance ro_lift {A} (r : res A) : ReadOnly (V := V) (lift r).
Proof. intros h b h'. unfold lift. destruct r; naive_solver. Qed.
#[export] Instance ro_load p : ReadOnly (load (V := V) p).
Proof. intros h b h'. unfold load. destruct p; [case_match|]; naive_solver. Qed.
#[export] Instance ro_bind {A B} (m : prog V A) (k : A → prog V B) :
  ReadOnly m → (∀ a, ReadOnly (k a)) → ReadOnly (m ≫= k).
Proof.
  intros Hm Hk h b h'. unfold mbind, prog_bind. destruct (m h) as [[a h1]| |] eqn:Hr; [|done..].
  apply Hm in Hr as ->. apply Hk.
Qed.
End read_only.
(** break the program at its conditions *)
#[export] Hint Extern 2 (ReadOnly (match ?x with _ => _ end)) => destruct x : typeclass_instances.
#[export] Instance ro_and {V} (a b : prog V bool) : ReadOnly a → ReadOnly b → ReadOnly (a &&& b).
Proof. intros. unfold andM. apply _. Qed.
#[export] Instance ro_or {V} (a b : prog V bool) : ReadOnly a → ReadOnly b → ReadOnly (a ||| b).
Proof. intros. unfold orM. apply _. Qed.
#[export] Instance ro_not {V} (a : prog V bool) : ReadOnly a → ReadOnly (notM a).
Proof. intros. unfold notM. apply _. Qed.

(** ** Steps *)
Ltac wp_op simp :=
  lazymatch goal with
  | |- envs_entails _ (wp (_ ≫= _) _) => eapply tac_wp_bind
  | |- envs_entails _ (wp (mret _) _) => eapply tac_wp_ret; simp
  | |- envs_entails _ (wp (lift _) _) => eapply tac_wp_lift; [reflexivity|simp]
  | |- envs_entails _ (wp (_ &&& _) _) => unfold andM at 1
  | |- envs_entails _ (wp (_ ||| _) _) => unfold orM at 1
  | |- envs_entails _ (wp (notM _) _) => unfold notM at 1
  | |- envs_entails _ (wp (if ?b then _ else _) _) =>
      lazymatch b with
      | context [?p =p? ?p] => rewrite (ptr_eqb_refl p)
      | context [Some ?n =p? None] => change (Some n =p? None) with false
      | context [None =p? Some ?n] => change (None =p? Some n) with false
      | context [Some ?n =p? Some ?n'] => rewrite (ptr_eqb_neq (Some n) (Some n')); [|congruence]
      | Datatypes.negb true => change (Datatypes.negb true) with false
      | Datatypes.negb false => change (Datatypes.negb false) with true
      | iris.proofmode.base.negb true => change (iris.proofmode.base.negb true) with false
      | iris.proofmode.base.negb false => change (iris.proofmode.base.negb false) with true
      end
  | |- envs_entails ?Δ (wp _ _) =>
      match Δ with context [Esnoc _ ?i (points_to ?n ?v)] =>
        eapply (tac_wp_cell _ _ i n v); [reflexivity|apply _|reflexivity|simp]
      end
  end; cbv beta iota.
Ltac wp_ops simp := repeat wp_op simp.
