(* ===== verification/CNode.v ===== *)
(** The node class of the 2-3 tree (CNode.h), its error codes (CTreeError.h)
    and the key types the tree is used with (int, and CMovie of Movie.h).

    A C++ template parameter is a type [T] with a class [Key]: the comparison
    [operator<] and what a default-initialised object holds (nothing that may
    be read for [int], the value of the default constructor for a class).  The
    member functions are programs on a heap of nodes; reading a key that was
    never set is the fault [Uninitialised]. *)

From iris.proofmode Require Import proofmode.
From Stdlib Require Import Ascii.
From S2P Require Import Prelude Heap.

(** ** CTreeError.h *)
Definition SUCCESS : Z := 0.
Definition FAILURE : Z := 1.
Definition IS_EMPTY : Z := 2.
Definition NOT_FOUND : Z := 3.
Definition DUPLICATE_VALUE : Z := 4.
Definition EQUAL : Z := 5.
Definition GREATER : Z := 6.
Definition LESS : Z := 7.

(** ** Template parameters *)

Class Key (T : Type) := {
  ltb : T → T → bool;          (* operator< *)
  unset : option T;            (* a default-initialised object, if it has a value *)
}.
#[export] Hint Mode Key ! : typeclass_instances.

(** what the tree expects of [operator<]: a strict weak order *)
Class KeyOrder (T : Type) `{Key T} := {
  ltb_irrefl (x : T) : ltb x x = false;
  ltb_trans (x y z : T) : ltb x y = true → ltb y z = true → ltb x z = true;
  ltb_split (x y z : T) : ltb x y = true → ltb x z = true ∨ ltb z y = true;
}.

(** [CTree<int>] *)
#[export] Instance int_key : Key Z := { ltb := Z.ltb; unset := None }.
#[export] Instance int_order : KeyOrder Z.
Proof.
  split; intros *; unfold ltb; simpl; rewrite ?Z.ltb_lt ?Z.ltb_ge; lia.
Qed.

(** [CTree<CMovie>] *)
Record CMovie := mk_CMovie { m_sTitle : string; m_iReleaseYear : Z }.

(** [strcmp(s, t) < 0] *)
Fixpoint strcmp_lt (s t : string) : bool :=
  match s, t with
  | _, EmptyString => false
  | EmptyString, String _ _ => true
  | String a s, String b t =>
      N.ltb (N_of_ascii a) (N_of_ascii b) || (bool_decide (a = b) && strcmp_lt s t)
  end.

Definition CMovie_lt (a b : CMovie) : bool := strcmp_lt (m_sTitle a) (m_sTitle b).
Definition CMovie_default : CMovie := mk_CMovie "" 0.

#[export] Instance CMovie_key : Key CMovie :=
  { ltb := CMovie_lt; unset := Some CMovie_default }.

Lemma strcmp_lt_irrefl s : strcmp_lt s s = false.
Proof.
  induction s as [|a s IH]; simpl; [done|]. rewrite IH N.ltb_irrefl andb_false_r //.
Qed.
Lemma strcmp_lt_trans s t u :
  strcmp_lt s t = true → strcmp_lt t u = true → strcmp_lt s u = true.
Proof.
  revert t u; induction s as [|a s IH]; intros [|b t] [|c u]; simpl; try done.
  rewrite !orb_true_iff !andb_true_iff !N.ltb_lt !bool_decide_eq_true.
  intros [?|[-> ?]] [?|[-> ?]]; [left; lia|by left|by left|right; eauto].
Qed.
Lemma strcmp_lt_split s t u :
  strcmp_lt s t = true → strcmp_lt s u = true ∨ strcmp_lt u t = true.
Proof.
  revert t u; induction s as [|a s IH]; intros [|b t] [|c u]; simpl; try naive_solver.
  rewrite !orb_true_iff !andb_true_iff !N.ltb_lt !bool_decide_eq_true.
  intros [Hlt|[-> Hlt]].
  - destruct (N.lt_trichotomy (N_of_ascii a) (N_of_ascii c)) as [?|[He|?]]; [auto| |].
    + right; left. lia.
    + right; left. lia.
  - destruct (N.lt_trichotomy (N_of_ascii b) (N_of_ascii c)) as [?|[He|?]]; [auto| |auto].
    apply (f_equal ascii_of_N) in He. rewrite !ascii_N_embedding in He. subst c.
    destruct (IH t u Hlt); auto.
Qed.
#[export] Instance CMovie_order : KeyOrder CMovie.
Proof.
  split; intros *; unfold ltb; simpl; unfold CMovie_lt.
  - apply strcmp_lt_irrefl.
  - apply strcmp_lt_trans.
  - apply strcmp_lt_split.
Qed.

(** ** CNode.h *)

Inductive eNodeSize := empty_node | twoNode | threeNode.
Inductive eTraverseDirection := leftChild | middleChild | rightChild.
#[export] Instance eNodeSize_eq_dec : EqDecision eNodeSize.
Proof. solve_decision. Defined.

Record CNode (T : Type) := mk_CNode {
  m_tSmallKey : option T;
  m_tBigKey : option T;
  m_pParent : ptr;
  m_bBigKeyIsSet : bool;
  m_bSmallKeyIsSet : bool;
  m_pLeft : ptr;
  m_pMiddle : ptr;
  m_pRight : ptr;
}.
Arguments mk_CNode {T} _ _ _ _ _ _ _ _.
Arguments m_tSmallKey {T} _.
Arguments m_tBigKey {T} _.
Arguments m_pParent {T} _.
Arguments m_bBigKeyIsSet {T} _.
Arguments m_bSmallKeyIsSet {T} _.
Arguments m_pLeft {T} _.
Arguments m_pMiddle {T} _.
Arguments m_pRight {T} _.

Section cnode.
Context {T : Type} `{Key T}.
Implicit Types (n : CNode T) (p q : ptr) (k : T).
Abbreviation prog := (prog (CNode T)).

(** the field [m_pChildren[i]] *)
Definition m_pChildren n (i : eTraverseDirection) : ptr :=
  match i with leftChild => m_pLeft n | middleChild => m_pMiddle n | rightChild => m_pRight n end.

Definition put_child (i : eTraverseDirection) p n : CNode T :=
  let '(mk_CNode s b par bs ss l m r) := n in
  match i with
  | leftChild => mk_CNode s b par bs ss p m r
  | middleChild => mk_CNode s b par bs ss l p r
  | rightChild => mk_CNode s b par bs ss l m p
  end.

Definition put_parent p n : CNode T :=
  let '(mk_CNode s b _ bs ss l m r) := n in mk_CNode s b p bs ss l m r.

Definition put_small (k : option T) n : CNode T :=
  let '(mk_CNode s b par bs ss l m r) := n in
  match k with
  | None => mk_CNode s b par bs false l m r
  | Some k => mk_CNode (Some k) b par bs true l m r
  end.

Definition put_big (k : option T) n : CNode T :=
  let '(mk_CNode s b par bs ss l m r) := n in
  match k with
  | None => mk_CNode s b par false ss l m r
  | Some k => mk_CNode s (Some k) par true ss l m r
  end.

(** a node whose members are default-initialised except for those given *)
Definition fresh_node (small : option T) (l r : ptr) : CNode T :=
  mk_CNode match small with None => unset | Some k => Some k end
    unset None false (bool_decide (is_Some small)) l None r.

Definition getChild p (i : eTraverseDirection) : prog ptr :=
  n ← load p; mret (m_pChildren n i).

Definition setParent p q : prog unit := modify p (put_parent q).

Definition setChild p (i : eTraverseDirection) q : prog unit :=
  _ ← modify p (put_child i q);
  match q with None => mret tt | Some _ => setParent q p end.

Definition getParent p : prog ptr := n ← load p; mret (m_pParent n).

(** [*p->getSmallKey()] *)
Definition getSmallKey p : prog T :=
  n ← load p; lift (of_option Uninitialised (m_tSmallKey n)).

Definition setSmallKey p (k : option T) : prog unit := modify p (put_small k).

(** [*p->getBigKey()] *)
Definition getBigKey p : prog T :=
  n ← load p; lift (of_option Uninitialised (m_tBigKey n)).

Definition setBigKey p (k : option T) : prog unit := modify p (put_big k).

Definition getSize p : prog eNodeSize :=
  n ← load p;
  mret (if m_bBigKeyIsSet n && m_bSmallKeyIsSet n then threeNode
        else if m_bSmallKeyIsSet n then twoNode else empty_node).

Definition is_null p : bool := bool_decide (p = None).

(** the code tests [m_pChildren[middleChild]] twice *)
Definition isLeaf p : prog bool :=
  n ← load p;
  mret (is_null (m_pChildren n leftChild) && is_null (m_pChildren n middleChild)
        && is_null (m_pChildren n middleChild)).

(** [new CNode<T>()] *)
Definition new_CNode : prog ptr := new (fresh_node None None None).

(** [new CNode<T>(pLeftChild, pRightChild, pSmallKey)] *)
Definition new_CNode3 (pLeftChild pRightChild : ptr) (pSmallKey : option T) : prog ptr :=
  this ← new (fresh_node pSmallKey pLeftChild pRightChild);
  _ ← match pLeftChild with None => mret tt | Some _ => setParent pLeftChild this end;
  _ ← match pRightChild with None => mret tt | Some _ => setParent pRightChild this end;
  mret this.
End cnode.
