(* ===== verification/CTree.v ===== *)
(** The member functions of the 2-3 tree (CTree.h), as programs on the heap of
    its nodes.

    The member [m_pRoot] is an argument, and a result of the functions that
    assign it.  A key that the code passes by address is passed by value (the
    caller's object is not a part of the tree); an output parameter is a
    component of the result.  A loop has a bound on its iterations; the
    theorems give bounds that are enough. *)

From iris.proofmode Require Import proofmode.
From S2P Require Import Prelude Heap CNode.

Inductive eTreeTraversal := inorder | preorder | postorder.

Section ctree.
Context {T : Type} `{Key T}.
Implicit Types (pNode m_pRoot : ptr) (pKey k : T) (fuel : nat).
Abbreviation prog := (prog (CNode T)).

Definition TCompare (k1 k2 : T) : Z :=
  if ltb k1 k2 then LESS else if ltb k2 k1 then GREATER else EQUAL.

(** [TCompare(&k, p->getSmallKey()) == c] *)
Definition small_is k (p : ptr) (c : Z) : prog bool :=
  s ← getSmallKey p; mret (TCompare k s =? c)%Z.
(** [TCompare(&k, p->getBigKey()) == c] *)
Definition big_is k (p : ptr) (c : Z) : prog bool :=
  b ← getBigKey p; mret (TCompare k b =? c)%Z.
(** [p->getSize() == s] *)
Definition size_is (p : ptr) (s : eNodeSize) : prog bool :=
  z ← getSize p; mret (bool_decide (z = s)).

(** ** Walking down *)

Fixpoint getMinNode fuel pNode : prog ptr :=
  match fuel with
  | O => out_of_fuel
  | S fuel =>
      c ← getChild pNode leftChild;
      match c with None => mret pNode | Some _ => getMinNode fuel c end
  end.

Fixpoint getMaxNode fuel pNode : prog ptr :=
  match fuel with
  | O => out_of_fuel
  | S fuel =>
      c ← getChild pNode rightChild;
      match c with None => mret pNode | Some _ => getMaxNode fuel c end
  end.

(** the do-while loop of [search]; the result is [*ppNodeFound] and [*bFound] *)
Fixpoint search_loop fuel pKey (pNodeIterator : ptr) : prog (ptr * bool) :=
  match fuel with
  | O => out_of_fuel
  | S fuel =>
      found ← small_is pKey pNodeIterator EQUAL |||
              (size_is pNodeIterator threeNode &&& big_is pKey pNodeIterator EQUAL);
      if found : bool then mret (pNodeIterator, true) else
      goleft ← small_is pKey pNodeIterator LESS;
      dir ← (if goleft : bool then mret leftChild else
             goright ← (size_is pNodeIterator threeNode &&& big_is pKey pNodeIterator GREATER)
                       ||| (size_is pNodeIterator twoNode &&& small_is pKey pNodeIterator GREATER);
             mret (if goright : bool then rightChild else middleChild));
      c ← getChild pNodeIterator dir;
      match c with
      | None => mret (pNodeIterator, false)
      | Some _ => search_loop fuel pKey c
      end
  end.

(** return code, [*ppNodeFound], [*bFound] *)
Definition search fuel m_pRoot pKey : prog (Z * ptr * bool) :=
  match m_pRoot with
  | None => mret (IS_EMPTY, None, false)
  | Some _ => '(p, found) ← search_loop fuel pKey m_pRoot; mret (SUCCESS, p, found)
  end.

(** the address of a key inside a node *)
Inductive keyref := SmallKeyOf (p : ptr) | BigKeyOf (p : ptr).

Definition find fuel m_pRoot pKey : prog (option keyref) :=
  '(_, pNodeFound, bKeyFound) ← search fuel m_pRoot pKey;
  small ← mret bKeyFound &&& small_is pKey pNodeFound EQUAL;
  if small : bool then mret (Some (SmallKeyOf pNodeFound)) else
  big ← mret bKeyFound &&& size_is pNodeFound threeNode &&& big_is pKey pNodeFound EQUAL;
  mret (if big : bool then Some (BigKeyOf pNodeFound) else None).

(** [*ref], what a caller of [find] reads *)
Definition deref (ref : keyref) : prog T :=
  match ref with SmallKeyOf p => getSmallKey p | BigKeyOf p => getBigKey p end.
Definition find_key fuel m_pRoot pKey : prog (option T) :=
  ref ← find fuel m_pRoot pKey;
  match ref with None => mret None | Some ref => k ← deref ref; mret (Some k) end.

(** ** Insertion *)

Definition add pNode pKey : prog Z :=
  eSize ← getSize pNode;
  match eSize with
  | empty_node => _ ← setSmallKey pNode (Some pKey); mret SUCCESS
  | twoNode =>
      s ← getSmallKey pNode;
      if (TCompare pKey s =? GREATER)%Z then
        _ ← setBigKey pNode (Some pKey); mret SUCCESS
      else if (TCompare pKey s =? LESS)%Z then
        _ ← setBigKey pNode (Some s); _ ← setSmallKey pNode (Some pKey); mret SUCCESS
      else mret FAILURE
  | threeNode => mret FAILURE
  end.

(** return code, [*pKey], [*ppAddedNode] *)
Definition split pKey (pNode2Split pAddedNode : ptr) : prog (Z * T * ptr) :=
  match pNode2Split with
  | None => mret (IS_EMPTY, pKey, pAddedNode)
  | Some _ =>
      greater ← big_is pKey pNode2Split GREATER;
      '(pNode, up) ←
        (if greater : bool then
           l ← getChild pNode2Split leftChild;
           m ← getChild pNode2Split middleChild;
           s ← getSmallKey pNode2Split;
           pNode ← new_CNode3 l m (Some s);
           _ ← setSmallKey pNode2Split (Some pKey);
           up ← getBigKey pNode2Split;
           _ ← setChild pNode2Split leftChild pAddedNode;
           mret (pNode, up)
         else
           less ← small_is pKey pNode2Split LESS;
           if less : bool then
             l ← getChild pNode2Split leftChild;
             pNode ← new_CNode3 pAddedNode l (Some pKey);
             up ← getSmallKey pNode2Split;
             b ← getBigKey pNode2Split;
             _ ← setSmallKey pNode2Split (Some b);
             m ← getChild pNode2Split middleChild;
             _ ← setChild pNode2Split leftChild m;
             mret (pNode, up)
           else
             l ← getChild pNode2Split leftChild;
             s ← getSmallKey pNode2Split;
             pNode ← new_CNode3 l pAddedNode (Some s);
             b ← getBigKey pNode2Split;
             _ ← setSmallKey pNode2Split (Some b);
             m ← getChild pNode2Split middleChild;
             _ ← setChild pNode2Split leftChild m;
             mret (pNode, pKey));
      _ ← setBigKey pNode2Split None;
      _ ← setChild pNode2Split middleChild None;
      mret (SUCCESS, up, pNode)
  end.

(** the body of the loop of [insert] after a successful [split]; [again] is the
    next iteration *)
Definition insert_up (again : T → ptr → ptr → prog (Z * ptr)) m_pRoot
    (tKey : T) (pNodeFound pAddedNode : ptr) : prog (Z * ptr) :=
  parent ← getParent pNodeFound;
  match parent with
  | None =>
      pNewRoot ← new_CNode3 pAddedNode pNodeFound (Some tKey);
      mret (SUCCESS, pNewRoot)
  | Some _ =>
      let pNodeFound := parent in
      two ← size_is pNodeFound twoNode;
      if two : bool then
        less ← small_is tKey pNodeFound LESS;
        if less : bool then
          _ ← add pNodeFound tKey;
          l ← getChild pNodeFound leftChild;
          _ ← setChild pNodeFound middleChild l;
          _ ← setChild pNodeFound leftChild pAddedNode;
          mret (SUCCESS, m_pRoot)
        else
          greater ← small_is tKey pNodeFound GREATER;
          if greater : bool then
            _ ← add pNodeFound tKey;
            _ ← setChild pNodeFound middleChild pAddedNode;
            mret (SUCCESS, m_pRoot)
          else again tKey pNodeFound pAddedNode
      else again tKey pNodeFound pAddedNode
  end.

(** the do-while loop of [insert]; the result is the return code and [m_pRoot] *)
Fixpoint insert_loop fuel m_pRoot (tKey : T) (pNodeFound pAddedNode : ptr) : prog (Z * ptr) :=
  match fuel with
  | O => out_of_fuel
  | S fuel =>
      '(iReturnCode, tKey, pAddedNode) ← split tKey pNodeFound pAddedNode;
      if (iReturnCode =? SUCCESS)%Z
      then insert_up (insert_loop fuel m_pRoot) m_pRoot tKey pNodeFound pAddedNode
      else mret (iReturnCode, m_pRoot)
  end.

(** return code and [m_pRoot] *)
Definition insert fuel m_pRoot pKey : prog (Z * ptr) :=
  match m_pRoot with
  | None =>
      root ← new_CNode;
      _ ← add root pKey;
      mret (SUCCESS, root)
  | Some _ =>
      '(iReturnCode, pNodeFound, bFound) ← search fuel m_pRoot pKey;
      if negb ((iReturnCode =? SUCCESS)%Z && negb (is_null pNodeFound)) then
        mret (iReturnCode, m_pRoot)
      else if bFound : bool then mret (DUPLICATE_VALUE, m_pRoot)
      else
        two ← size_is pNodeFound twoNode;
        if two : bool then _ ← add pNodeFound pKey; mret (SUCCESS, m_pRoot)
        else
          three ← size_is pNodeFound threeNode;
          if three : bool then insert_loop fuel m_pRoot pKey pNodeFound None
          else mret (iReturnCode, m_pRoot)
  end.

(** ** Deletion *)

(** [p->setSmallKey(q->getSmallKey())] and its variants *)
Definition small_from_small (p q : ptr) : prog unit := k ← getSmallKey q; setSmallKey p (Some k).
Definition small_from_big (p q : ptr) : prog unit := k ← getBigKey q; setSmallKey p (Some k).
Definition big_from_small (p q : ptr) : prog unit := k ← getSmallKey q; setBigKey p (Some k).
Definition big_from_big (p q : ptr) : prog unit := k ← getBigKey q; setBigKey p (Some k).
(** [p->setChild(i, q->getChild(j))] *)
Definition child_from (p : ptr) i (q : ptr) j : prog unit := c ← getChild q j; setChild p i c.

Definition removeFromLeaf pNode pKey : prog Z :=
  match pNode with
  | None => mret IS_EMPTY
  | Some _ =>
      small ← small_is pKey pNode EQUAL;
      if small : bool then
        _ ← small_from_big pNode pNode; _ ← setBigKey pNode None; mret SUCCESS
      else
        big ← big_is pKey pNode EQUAL;
        if big : bool then _ ← setBigKey pNode None; mret SUCCESS
        else mret FAILURE
  end.

(** *** The cases of [localRotation] *)

Section local.
Variables pParentNode pLeftNode pMiddleNode pRightNode : ptr.

Definition rotation1 : prog unit :=
  _ ← small_from_small pLeftNode pParentNode;
  _ ← child_from pLeftNode rightChild pRightNode leftChild;
  _ ← small_from_small pParentNode pRightNode;
  _ ← small_from_big pRightNode pRightNode;
  _ ← setBigKey pRightNode None;
  _ ← child_from pRightNode leftChild pRightNode middleChild;
  setChild pRightNode middleChild None.

Definition rotation2 : prog unit :=
  _ ← small_from_small pLeftNode pParentNode;
  _ ← child_from pLeftNode rightChild pMiddleNode leftChild;
  _ ← small_from_small pParentNode pMiddleNode;
  _ ← small_from_big pMiddleNode pMiddleNode;
  _ ← setBigKey pMiddleNode None;
  _ ← child_from pMiddleNode leftChild pMiddleNode middleChild;
  setChild pMiddleNode middleChild None.

Definition rotation3 : prog unit :=
  _ ← small_from_small pLeftNode pParentNode;
  _ ← child_from pLeftNode rightChild pMiddleNode leftChild;
  _ ← small_from_small pParentNode pMiddleNode;
  _ ← small_from_big pMiddleNode pParentNode;
  _ ← child_from pMiddleNode leftChild pMiddleNode rightChild;
  _ ← child_from pMiddleNode rightChild pRightNode leftChild;
  _ ← big_from_small pParentNode pRightNode;
  _ ← small_from_big pRightNode pRightNode;
  _ ← setBigKey pRightNode None;
  _ ← child_from pRightNode leftChild pRightNode middleChild;
  setChild pRightNode middleChild None.

Definition rotation4 : prog unit :=
  _ ← small_from_big pMiddleNode pParentNode;
  _ ← child_from pMiddleNode rightChild pRightNode leftChild;
  _ ← big_from_small pParentNode pRightNode;
  _ ← small_from_big pRightNode pRightNode;
  _ ← setBigKey pRightNode None;
  _ ← child_from pRightNode leftChild pRightNode middleChild;
  setChild pRightNode middleChild None.

Definition rotation5 : prog unit :=
  _ ← small_from_small pMiddleNode pParentNode;
  _ ← child_from pMiddleNode rightChild pMiddleNode leftChild;
  _ ← child_from pMiddleNode leftChild pLeftNode rightChild;
  _ ← small_from_big pParentNode pLeftNode;
  _ ← setBigKey pLeftNode None;
  _ ← child_from pLeftNode rightChild pLeftNode middleChild;
  setChild pLeftNode middleChild None.

Definition rotation6 : prog unit :=
  _ ← small_from_small pRightNode pParentNode;
  _ ← child_from pRightNode rightChild pRightNode leftChild;
  _ ← child_from pRightNode leftChild pLeftNode rightChild;
  _ ← small_from_big pParentNode pLeftNode;
  _ ← setBigKey pLeftNode None;
  _ ← child_from pLeftNode rightChild pLeftNode middleChild;
  setChild pLeftNode middleChild None.

Definition rotation7 : prog unit :=
  _ ← small_from_big pRightNode pParentNode;
  _ ← child_from pRightNode rightChild pRightNode leftChild;
  _ ← child_from pRightNode leftChild pMiddleNode rightChild;
  _ ← big_from_big pParentNode pMiddleNode;
  _ ← setBigKey pMiddleNode None;
  _ ← child_from pMiddleNode rightChild pMiddleNode middleChild;
  setChild pMiddleNode middleChild None.

Definition rotation8 : prog unit :=
  _ ← small_from_big pRightNode pParentNode;
  _ ← child_from pRightNode rightChild pRightNode leftChild;
  _ ← child_from pRightNode leftChild pMiddleNode rightChild;
  _ ← big_from_small pParentNode pMiddleNode;
  _ ← small_from_small pMiddleNode pParentNode;
  _ ← child_from pMiddleNode rightChild pMiddleNode leftChild;
  _ ← child_from pMiddleNode leftChild pLeftNode rightChild;
  _ ← small_from_big pParentNode pLeftNode;
  _ ← setBigKey pLeftNode None;
  _ ← child_from pLeftNode rightChild pLeftNode middleChild;
  setChild pLeftNode middleChild None.

(** *** The cases of [localNodeMerger] *)

Definition merger15 : prog unit :=
  _ ← small_from_small pLeftNode pParentNode;
  _ ← big_from_small pLeftNode pMiddleNode;
  _ ← child_from pLeftNode middleChild pMiddleNode leftChild;
  _ ← child_from pLeftNode rightChild pMiddleNode rightChild;
  _ ← small_from_big pParentNode pParentNode;
  _ ← setBigKey pParentNode None;
  _ ← setChild pParentNode middleChild None;
  dispose pMiddleNode.

Definition merger16 : prog unit :=
  _ ← big_from_small pLeftNode pParentNode;
  _ ← child_from pLeftNode middleChild pLeftNode rightChild;
  _ ← child_from pLeftNode rightChild pMiddleNode leftChild;
  _ ← small_from_big pParentNode pParentNode;
  _ ← setBigKey pParentNode None;
  _ ← setChild pParentNode middleChild None;
  dispose pMiddleNode.

Definition merger17 : prog unit :=
  _ ← small_from_small pRightNode pMiddleNode;
  _ ← big_from_big pRightNode pParentNode;
  _ ← child_from pRightNode rightChild pRightNode leftChild;
  _ ← child_from pRightNode middleChild pMiddleNode rightChild;
  _ ← child_from pRightNode leftChild pMiddleNode leftChild;
  _ ← setBigKey pParentNode None;
  _ ← setChild pParentNode middleChild None;
  dispose pMiddleNode.

(** *** The cases of [globalNodeMerger] *)

Definition merger18 : prog unit :=
  _ ← small_from_small pLeftNode pParentNode;
  _ ← big_from_small pLeftNode pRightNode;
  _ ← child_from pLeftNode middleChild pRightNode leftChild;
  _ ← child_from pLeftNode rightChild pRightNode rightChild;
  _ ← setSmallKey pParentNode None;
  _ ← setChild pParentNode rightChild None;
  dispose pRightNode.

Definition merger19 : prog unit :=
  _ ← big_from_small pLeftNode pParentNode;
  _ ← child_from pLeftNode middleChild pLeftNode rightChild;
  _ ← child_from pLeftNode rightChild pRightNode leftChild;
  _ ← setChild pParentNode rightChild None;
  _ ← setSmallKey pParentNode None;
  dispose pRightNode.
End local.

(** [p == q] as a condition *)
Definition same (p q : ptr) : prog bool := mret (p =p? q).

(** an else-if chain of cases that end in [iReturnCode = SUCCESS] *)
Definition case_of (c : prog bool) (body : prog unit) (otherwise : prog Z) : prog Z :=
  b ← c; if b : bool then _ ← body; mret SUCCESS else otherwise.

Definition localRotation pNode : prog Z :=
  match pNode with
  | None => mret IS_EMPTY
  | Some _ =>
      P ← getParent pNode;
      R ← getChild P rightChild;
      M ← getChild P middleChild;
      L ← getChild P leftChild;
      rc ← case_of (same pNode L &&& size_is P twoNode &&& size_is R threeNode) (rotation1 P L R)
        (case_of (same pNode L &&& size_is P threeNode &&& size_is M threeNode) (rotation2 P L M)
        (case_of (same pNode L &&& size_is P threeNode &&& size_is R threeNode) (rotation3 P L M R)
        (case_of (same pNode M &&& size_is R threeNode) (rotation4 P M R)
        (case_of (same pNode M &&& size_is L threeNode) (rotation5 P L M)
        (mret FAILURE)))));
      case_of (same pNode R &&& size_is P twoNode &&& size_is L threeNode) (rotation6 P L R)
        (case_of (same pNode R &&& size_is P threeNode &&& size_is M threeNode) (rotation7 P M R)
        (case_of (same pNode R &&& size_is P threeNode &&& size_is L threeNode) (rotation8 P L M R)
        (mret rc)))
  end.

(** *** The cases of [globalRotation]: the receiver takes a key of the root,
    which takes one of the giver *)

Section global.
Variables m_pRoot pTo pFrom : ptr.

(** cases 9, 14 *)
Definition rotation_small_from_min : prog unit :=
  _ ← small_from_small pTo m_pRoot;
  _ ← small_from_small m_pRoot pFrom;
  _ ← small_from_big pFrom pFrom;
  setBigKey pFrom None.

(** cases 10, 13 *)
Definition rotation_small_from_max : prog unit :=
  _ ← small_from_small pTo m_pRoot;
  _ ← small_from_big m_pRoot pFrom;
  setBigKey pFrom None.

(** case 11 *)
Definition rotation_big_from_min : prog unit :=
  _ ← small_from_big pTo m_pRoot;
  _ ← big_from_small m_pRoot pFrom;
  _ ← small_from_big pFrom pFrom;
  setBigKey pFrom None.

(** case 12 *)
Definition rotation_big_from_max : prog unit :=
  _ ← small_from_big pTo m_pRoot;
  _ ← big_from_big m_pRoot pFrom;
  setBigKey pFrom None.
End global.

Definition globalRotation fuel m_pRoot pNode : prog Z :=
  match pNode with
  | None => mret IS_EMPTY
  | Some _ =>
      r ← getChild m_pRoot rightChild; pRightMin ← getMinNode fuel r;
      l ← getChild m_pRoot leftChild; pLeftMax ← getMaxNode fuel l;
      three ← size_is m_pRoot threeNode;
      if three : bool then
        m ← getChild m_pRoot middleChild;
        pMiddleMin ← getMinNode fuel m;
        pMiddleMax ← getMaxNode fuel m;
        case_of (same pNode pLeftMax &&& size_is pMiddleMin threeNode)
          (rotation_small_from_min m_pRoot pLeftMax pMiddleMin)
        (case_of (same pNode pMiddleMin &&& size_is pLeftMax threeNode)
          (rotation_small_from_max m_pRoot pMiddleMin pLeftMax)
        (case_of (same pNode pMiddleMax &&& size_is pRightMin threeNode)
          (rotation_big_from_min m_pRoot pMiddleMax pRightMin)
        (case_of (same pNode pRightMin &&& size_is pMiddleMax threeNode)
          (rotation_big_from_max m_pRoot pRightMin pMiddleMax)
        (mret FAILURE))))
      else
        case_of (same pNode pRightMin &&& size_is pLeftMax threeNode)
          (rotation_small_from_max m_pRoot pRightMin pLeftMax)
        (case_of (same pNode pLeftMax &&& size_is pRightMin threeNode)
          (rotation_small_from_min m_pRoot pLeftMax pRightMin)
        (mret FAILURE))
  end.

Definition localNodeMerger pNode : prog Z :=
  match pNode with
  | None => mret IS_EMPTY
  | Some _ =>
      P ← getParent pNode;
      R ← getChild P rightChild;
      M ← getChild P middleChild;
      L ← getChild P leftChild;
      case_of (same pNode L &&& size_is P threeNode) (merger15 P L M)
      (case_of (same pNode M &&& size_is P threeNode) (merger16 P L M)
      (case_of (same pNode R &&& size_is P threeNode) (merger17 P M R)
      (mret FAILURE)))
  end.

(** return code and [*ppNextNode2Fix] *)
Definition globalNodeMerger pNode : prog (Z * ptr) :=
  match pNode with
  | None => mret (IS_EMPTY, None)
  | Some _ =>
      P ← getParent pNode;
      R ← getChild P rightChild;
      L ← getChild P leftChild;
      if pNode =p? L then _ ← merger18 P L R; mret (SUCCESS, P)
      else if pNode =p? R then _ ← merger19 P L R; mret (SUCCESS, P)
      else mret (FAILURE, None)
  end.

(** ** Walking in key order, children first and parents first *)

(** the do-while loop of [getNextInorderKey] *)
Fixpoint inorder_climb fuel (pNodeIterator : ptr) pKey : prog (ptr * T) :=
  match fuel with
  | O => out_of_fuel
  | S fuel =>
      p ← getParent pNodeIterator;
      match p with
      | None => mret (None, pKey)
      | Some _ =>
          less ← small_is pKey p LESS;
          if less : bool then k ← getSmallKey p; mret (p, k)
          else
            less ← size_is p threeNode &&& big_is pKey p LESS;
            if less : bool then k ← getBigKey p; mret (p, k)
            else inorder_climb fuel p pKey
      end
  end.

(** the node and the key that follow; NULL and an unchanged key at the end *)
Definition getNextInorderKey fuel pNode pKey : prog (ptr * T) :=
  first ← size_is pNode threeNode &&& small_is pKey pNode EQUAL;
  if first : bool then
    leaf ← isLeaf pNode;
    if leaf : bool then k ← getBigKey pNode; mret (pNode, k)
    else
      m ← getChild pNode middleChild; p ← getMinNode fuel m;
      k ← getSmallKey p; mret (p, k)
  else
    right ← notM (isLeaf pNode) &&&
            ((size_is pNode twoNode &&& small_is pKey pNode EQUAL) |||
             (size_is pNode threeNode &&& big_is pKey pNode EQUAL));
    if right : bool then
      r ← getChild pNode rightChild; p ← getMinNode fuel r;
      k ← getSmallKey p; mret (p, k)
    else inorder_climb fuel pNode pKey.

Definition getNextPostorderKey fuel pNode pKey : prog (ptr * T) :=
  let pChildNode := pNode in
  first ← size_is pNode threeNode &&& small_is pKey pNode EQUAL;
  if first : bool then
    leaf ← isLeaf pNode;
    if leaf : bool then k ← getBigKey pNode; mret (pNode, k)
    else
      r ← getChild pNode rightChild; p ← getMinNode fuel r;
      k ← getSmallKey p; mret (p, k)
  else
    p ← getParent pNode;
    match p with
    | None => mret (None, pKey)
    | Some _ =>
        z ← getSize p;
        match z with
        | twoNode =>
            l ← getChild p leftChild;
            if l =p? pChildNode then
              r ← getChild p rightChild; q ← getMinNode fuel r;
              k ← getSmallKey q; mret (q, k)
            else
              r ← getChild p rightChild;
              if r =p? pChildNode then k ← getSmallKey p; mret (p, k)
              else mret (p, pKey)
        | threeNode =>
            l ← getChild p leftChild;
            if l =p? pChildNode then
              m ← getChild p middleChild; q ← getMinNode fuel m;
              k ← getSmallKey q; mret (q, k)
            else
              m ← getChild p middleChild;
              if m =p? pChildNode then k ← getSmallKey p; mret (p, k)
              else
                r ← getChild p rightChild;
                if r =p? pChildNode then k ← getBigKey p; mret (p, k)
                else mret (p, pKey)
        | empty_node => mret (p, pKey)
        end
    end.

(** the while loop of [getNextPreorderKey]: [pNodeIterator] and [pPrevNode] *)
Fixpoint preorder_climb fuel (pPrevNode : ptr) : prog (ptr * ptr) :=
  match fuel with
  | O => out_of_fuel
  | S fuel =>
      p ← getParent pPrevNode;
      match p with
      | None => mret (None, pPrevNode)
      | Some _ =>
          r ← getChild p rightChild;
          if r =p? pPrevNode then preorder_climb fuel p else mret (p, pPrevNode)
      end
  end.

Definition getNextPreorderKey fuel pNode pKey : prog (ptr * T) :=
  both ← size_is pNode threeNode &&& small_is pKey pNode EQUAL &&& isLeaf pNode;
  if both : bool then k ← getBigKey pNode; mret (pNode, k)
  else
    left ← small_is pKey pNode EQUAL &&& notM (isLeaf pNode);
    if left : bool then
      l ← getChild pNode leftChild; k ← getSmallKey l; mret (l, k)
    else
      middle ← big_is pKey pNode EQUAL &&& notM (isLeaf pNode);
      if middle : bool then
        m ← getChild pNode middleChild; k ← getSmallKey m; mret (m, k)
      else
        '(p, pPrevNode) ← preorder_climb fuel pNode;
        match p with
        | None => mret (None, pKey)
        | Some _ =>
            right ← (size_is p twoNode &&&
                       (l ← getChild p leftChild; same l pPrevNode)) |||
                    (size_is p threeNode &&&
                       (m ← getChild p middleChild; same m pPrevNode));
            if right : bool then
              r ← getChild p rightChild; k ← getSmallKey r; mret (r, k)
            else
              big ← (l ← getChild p leftChild; same l pPrevNode) &&& size_is p threeNode;
              if big : bool then k ← getBigKey p; mret (p, k)
              else mret (p, pKey)
        end.

(** the do-while loop of [print]: the lines written to [std::cout] *)
Fixpoint print_loop fuel (next : ptr → T → prog (ptr * T)) pNode pKey : prog (list T) :=
  match fuel with
  | O => out_of_fuel
  | S fuel =>
      '(p, k) ← next pNode pKey;
      rest ← match p with None => mret [] | Some _ => print_loop fuel next p k end;
      mret (pKey :: rest)
  end.

(** return code, output and [*pNrOfItemsPrinted] *)
Definition print fuel m_pRoot (eTraversalMethod : eTreeTraversal) : prog (Z * list T * Z) :=
  match m_pRoot with
  | None => mret (IS_EMPTY, [], 0%Z)
  | Some _ =>
      pNodeIterator ←
        match eTraversalMethod with
        | preorder => mret m_pRoot
        | inorder | postorder => getMinNode fuel m_pRoot
        end;
      tKey ← getSmallKey pNodeIterator;
      let pTraversalFunc :=
        match eTraversalMethod with
        | inorder => getNextInorderKey fuel
        | preorder => getNextPreorderKey fuel
        | postorder => getNextPostorderKey fuel
        end in
      out ← print_loop fuel pTraversalFunc pNodeIterator tKey;
      mret (FAILURE, out, Z.of_nat (length out))
  end.

(** ** Deleting an item *)

(** return code and [*ppLeafNode] *)
Definition swapWithInOrderSuccessor fuel pNode pKey : prog (Z * ptr) :=
  match pNode with
  | None => mret (IS_EMPTY, None)
  | Some _ =>
      '(pLeafNode, tLeafKey) ← getNextInorderKey fuel pNode pKey;
      small ← small_is pKey pNode EQUAL;
      if small : bool then
        _ ← setSmallKey pLeafNode (Some pKey);
        _ ← setSmallKey pNode (Some tLeafKey);
        mret (SUCCESS, pLeafNode)
      else
        big ← big_is pKey pNode EQUAL;
        if big : bool then
          _ ← setSmallKey pLeafNode (Some pKey);
          _ ← setBigKey pNode (Some tLeafKey);
          mret (SUCCESS, pLeafNode)
        else mret (FAILURE, None)
  end.

(** [f(...) == SUCCESS] *)
Definition succeeds (m : prog Z) : prog bool := rc ← m; mret (rc =? SUCCESS)%Z.

(** the do-while loop of [deleteItem]; the result is the return code and [m_pRoot] *)
Fixpoint delete_loop fuel m_pRoot pNode : prog (Z * ptr) :=
  match fuel with
  | O => out_of_fuel
  | S fuel =>
      if pNode =p? m_pRoot then
        m_pRoot ← getChild pNode leftChild;
        _ ← match m_pRoot with None => mret tt | Some _ => setParent m_pRoot None end;
        _ ← dispose pNode;
        mret (SUCCESS, m_pRoot)
      else
        fixed ← succeeds (localRotation pNode) |||
                succeeds (globalRotation fuel m_pRoot pNode) |||
                succeeds (localNodeMerger pNode);
        if fixed : bool then mret (SUCCESS, m_pRoot)
        else
          '(rc, pNextNode2Fix) ← globalNodeMerger pNode;
          if (rc =? SUCCESS)%Z then delete_loop fuel m_pRoot pNextNode2Fix
          else mret (FAILURE, m_pRoot)
  end.

(** the leaf that loses the key: the successor of an inner node's key *)
Definition find_leaf fuel pNode pKey : prog (Z * ptr) :=
  leaf ← isLeaf pNode;
  if leaf : bool then mret (SUCCESS, pNode) else swapWithInOrderSuccessor fuel pNode pKey.

(** the rest of [deleteItem], when the key was found or moved to [pNode] *)
Definition delete_from fuel m_pRoot pKey (rc : Z) pNode : prog (Z * ptr) :=
  three ← mret (rc =? SUCCESS)%Z &&& size_is pNode threeNode;
  if three : bool then rc ← removeFromLeaf pNode pKey; mret (rc, m_pRoot)
  else if (rc =? SUCCESS)%Z then delete_loop fuel m_pRoot pNode
  else mret (rc, m_pRoot).

(** return code and [m_pRoot] *)
Definition deleteItem fuel m_pRoot pKey : prog (Z * ptr) :=
  match m_pRoot with
  | None => mret (IS_EMPTY, None)
  | Some _ =>
      '(rc, pNode, bFound) ← search fuel m_pRoot pKey;
      if negb (rc =? SUCCESS)%Z then mret (rc, m_pRoot)
      else if negb bFound then mret (NOT_FOUND, m_pRoot)
      else
        '(rc, pNode) ← find_leaf fuel pNode pKey;
        delete_from fuel m_pRoot pKey rc pNode
  end.

(** ** Deleting the tree *)

(** the while loop of [removeAll] *)
Fixpoint remove_loop fuel (pNodeIterator : ptr) : prog unit :=
  match fuel with
  | O => out_of_fuel
  | S fuel =>
      P ← getParent pNodeIterator;
      match P with
      | None => mret tt
      | Some _ =>
          R ← getChild P rightChild;
          M ← getChild P middleChild;
          L ← getChild P leftChild;
          if ((pNodeIterator =p? L) && is_null M) || (pNodeIterator =p? M) then
            _ ← dispose pNodeIterator; p ← getMinNode fuel R; remove_loop fuel p
          else if pNodeIterator =p? L then
            _ ← dispose pNodeIterator; p ← getMinNode fuel M; remove_loop fuel p
          else if pNodeIterator =p? R then
            _ ← dispose pNodeIterator; remove_loop fuel P
          else remove_loop fuel pNodeIterator
      end
  end.

(** return code and [m_pRoot] *)
Definition removeAll fuel m_pRoot : prog (Z * ptr) :=
  match m_pRoot with
  | None => mret (IS_EMPTY, None)
  | Some _ =>
      p ← getMinNode fuel m_pRoot;
      _ ← remove_loop fuel p;
      _ ← dispose m_pRoot;
      mret (SUCCESS, None)
  end.

(** the destructor *)
Definition destroy_CTree fuel m_pRoot : prog unit :=
  match m_pRoot with None => mret tt | Some _ => _ ← removeAll fuel m_pRoot; mret tt end.
End ctree.
