(* ===== verification/TwoThree.v ===== *)
(** 2-3 trees: the data that a heap of [CNode]s represents.

    A [tree] records the address of each of its nodes, so the assertion
    [is_tree t par] determines every pointer of the heap it describes.  [Hole n t]
    is a node that lost its keys while an item is being deleted; its only child
    is [t].  A [frame] is a node with one child taken out, a list of frames the
    path from such a place up to the root. *)

From iris.proofmode Require Import proofmode.
From Stdlib Require Export Sorted.
From iris.proofmode Require Import environments coq_tactics reduction.
From S2P Require Import Prelude Heap HeapTactics CNode CTree.

(** equations between lists of keys *)
Ltac keys_eq := simpl; rewrite ?app_nil_r; repeat (rewrite -app_assoc /=); done.

Section trees.
Context {T : Type}.

Inductive tree :=
  | E
  | N2 (n : loc) (l : tree) (k : T) (r : tree)
  | N3 (n : loc) (l : tree) (k1 : T) (m : tree) (k2 : T) (r : tree)
  | Hole (n : loc) (t : tree).

Inductive frame :=
  | F2l (n : loc) (k : T) (r : tree)
  | F2r (n : loc) (l : tree) (k : T)
  | F3l (n : loc) (k1 : T) (m : tree) (k2 : T) (r : tree)
  | F3m (n : loc) (l : tree) (k1 k2 : T) (r : tree)
  | F3r (n : loc) (l : tree) (k1 : T) (m : tree) (k2 : T).

Implicit Types (t l m r : tree) (f : frame) (c : list frame).

Definition ptr_of t : ptr :=
  match t with E => None | N2 n _ _ _ | N3 n _ _ _ _ _ | Hole n _ => Some n end.
Definition frame_loc f : loc :=
  match f with
  | F2l n _ _ | F2r n _ _ | F3l n _ _ _ _ | F3m n _ _ _ _ | F3r n _ _ _ _ => n
  end.
Definition ctx_ptr c : ptr := frame_loc <$> head c.

(** the keys from left to right *)
Fixpoint keys t : list T :=
  match t with
  | E => []
  | N2 _ l k r => keys l ++ k :: keys r
  | N3 _ l k1 m k2 r => keys l ++ k1 :: (keys m ++ k2 :: keys r)
  | Hole _ t => keys t
  end.

(** all leaves are at depth [h] *)
Fixpoint balanced (h : nat) t {struct t} : Prop :=
  match t with
  | E => h = 0
  | N2 _ l _ r =>
      match h with 0 => False | S h => balanced h l ∧ balanced h r end
  | N3 _ l _ m _ r =>
      match h with 0 => False | S h => balanced h l ∧ balanced h m ∧ balanced h r end
  | Hole _ t => match h with 0 => False | S h => balanced h t end
  end.

(** no node is a hole *)
Fixpoint whole t : Prop :=
  match t with
  | E => True
  | N2 _ l _ r => whole l ∧ whole r
  | N3 _ l _ m _ r => whole l ∧ whole m ∧ whole r
  | Hole _ _ => False
  end.

Fixpoint height t : nat :=
  match t with
  | E => 0
  | N2 _ l _ r => S (height l `max` height r)
  | N3 _ l _ m _ r => S ((height l `max` height m) `max` height r)
  | Hole _ t => S (height t)
  end.

Definition fill f t : tree :=
  match f with
  | F2l n k r => N2 n t k r
  | F2r n l k => N2 n l k t
  | F3l n k1 m k2 r => N3 n t k1 m k2 r
  | F3m n l k1 k2 r => N3 n l k1 t k2 r
  | F3r n l k1 m k2 => N3 n l k1 m k2 t
  end.
Fixpoint plug c t : tree := match c with [] => t | f :: c => plug c (fill f t) end.

Definition frame_left f : list T :=
  match f with
  | F2l _ _ _ | F3l _ _ _ _ _ => []
  | F2r _ l k => keys l ++ [k]
  | F3m _ l k1 _ _ => keys l ++ [k1]
  | F3r _ l k1 m k2 => keys l ++ k1 :: keys m ++ [k2]
  end.
Definition frame_right f : list T :=
  match f with
  | F2l _ k r => k :: keys r
  | F3l _ k1 m k2 r => k1 :: keys m ++ k2 :: keys r
  | F3m _ _ _ k2 r => k2 :: keys r
  | F2r _ _ _ | F3r _ _ _ _ _ => []
  end.
Fixpoint ctx_left c : list T :=
  match c with [] => [] | f :: c => ctx_left c ++ frame_left f end.
Fixpoint ctx_right c : list T :=
  match c with [] => [] | f :: c => frame_right f ++ ctx_right c end.

Definition frame_balanced h f : Prop :=
  match f with
  | F2l _ _ t | F2r _ t _ => balanced h t
  | F3l _ _ t1 _ t2 | F3m _ t1 _ _ t2 | F3r _ t1 _ t2 _ => balanced h t1 ∧ balanced h t2
  end.
Fixpoint ctx_balanced h c : Prop :=
  match c with [] => True | f :: c => frame_balanced h f ∧ ctx_balanced (S h) c end.

Definition frame_whole f : Prop :=
  match f with
  | F2l _ _ t | F2r _ t _ => whole t
  | F3l _ _ t1 _ t2 | F3m _ t1 _ _ t2 | F3r _ t1 _ t2 _ => whole t1 ∧ whole t2
  end.
Definition ctx_whole c : Prop := Forall frame_whole c.

Lemma keys_fill f t : keys (fill f t) = frame_left f ++ keys t ++ frame_right f.
Proof. destruct f; simpl; rewrite ?app_nil_r -?app_assoc //=; by rewrite -?app_assoc. Qed.
Lemma keys_plug c t : keys (plug c t) = ctx_left c ++ keys t ++ ctx_right c.
Proof.
  revert t; induction c as [|f c IH]; intros t; simpl; [by rewrite app_nil_r|].
  rewrite IH keys_fill -!app_assoc //.
Qed.
Lemma balanced_fill h f t : balanced h t → frame_balanced h f → balanced (S h) (fill f t).
Proof. destruct f; simpl; naive_solver. Qed.
Lemma balanced_plug h c t :
  balanced h t → ctx_balanced h c → balanced (h + length c) (plug c t).
Proof.
  revert h t; induction c as [|f c IH]; intros h t Ht; simpl; [by rewrite Nat.add_0_r|].
  intros [Hf Hc]. replace (h + S (length c)) with (S h + length c) by lia.
  apply IH; [by apply balanced_fill|done].
Qed.
Lemma whole_plug c t : whole t → ctx_whole c → whole (plug c t).
Proof.
  intros Ht Hc. revert t Ht; induction Hc as [|f c Hf Hc IH]; intros t Ht; simpl; [done|].
  apply IH. destruct f; simpl in *; naive_solver.
Qed.
Lemma balanced_height h t : balanced h t → height t = h.
Proof.
  revert h; induction t as [|? l IHl ? r IHr|? l IHl ? m IHm ? r IHr|? t IH];
    intros [|h]; simpl; try done.
  - intros [Hl Hr]. rewrite (IHl h Hl) (IHr h Hr). lia.
  - intros (Hl & Hm & Hr). rewrite (IHl h Hl) (IHm h Hm) (IHr h Hr). lia.
  - intros Ht. by rewrite (IH h Ht).
Qed.
Lemma balanced_E h t : balanced h t → ptr_of t = None ↔ h = 0.
Proof. destruct t, h; simpl; naive_solver. Qed.
Lemma ptr_of_fill f t : ptr_of (fill f t) = Some (frame_loc f).
Proof. by destruct f. Qed.
Lemma ptr_of_plug c t t' : ptr_of t = ptr_of t' → ptr_of (plug c t) = ptr_of (plug c t').
Proof.
  revert t t'; induction c as [|f c IH]; intros t t' Ht; simpl; [done|].
  apply IH. by rewrite !ptr_of_fill.
Qed.
Lemma balanced_0 t : balanced 0 t → t = E.
Proof. by destruct t. Qed.
End trees.
Arguments tree : clear implicits.
Arguments frame : clear implicits.

Section rep.
Context {T : Type} `{Key T}.
Implicit Types (t l m r : tree T) (f : frame T) (c : list (frame T)) (par p : ptr) (k : T).
Abbreviation hProp := (heapPropI (CNode T)).

(** what an unset key may hold: a class type is default-initialised *)
Definition stale (o : option T) : Prop := is_Some (unset (T := T)) → is_Some o.

Definition node2 k (big : option T) par (a b : ptr) : CNode T :=
  mk_CNode (Some k) big par false true a None b.
Definition node3 (k1 k2 : T) par (a m b : ptr) : CNode T :=
  mk_CNode (Some k1) (Some k2) par true true a m b.
Definition hole_node (small big : option T) ss par (a : ptr) : CNode T :=
  mk_CNode small big par false ss a None None.

Fixpoint is_tree t par : hProp :=
  match t with
  | E => emp
  | N2 n l k r =>
      ∃ big, ⟨stale big⟩ ∗ n ↦ node2 k big par (ptr_of l) (ptr_of r) ∗
             is_tree l (Some n) ∗ is_tree r (Some n)
  | N3 n l k1 m k2 r =>
      n ↦ node3 k1 k2 par (ptr_of l) (ptr_of m) (ptr_of r) ∗
      is_tree l (Some n) ∗ is_tree m (Some n) ∗ is_tree r (Some n)
  | Hole n t =>
      ∃ small big ss, ⟨stale big⟩ ∗ n ↦ hole_node small big ss par (ptr_of t) ∗
             is_tree t (Some n)
  end%I.

(** the nodes of a path, [p] is the pointer to the child that is taken out *)
Definition is_frame f p par : hProp :=
  match f with
  | F2l n k r =>
      ∃ big, ⟨stale big⟩ ∗ n ↦ node2 k big par p (ptr_of r) ∗ is_tree r (Some n)
  | F2r n l k =>
      ∃ big, ⟨stale big⟩ ∗ n ↦ node2 k big par (ptr_of l) p ∗ is_tree l (Some n)
  | F3l n k1 m k2 r =>
      n ↦ node3 k1 k2 par p (ptr_of m) (ptr_of r) ∗ is_tree m (Some n) ∗ is_tree r (Some n)
  | F3m n l k1 k2 r =>
      n ↦ node3 k1 k2 par (ptr_of l) p (ptr_of r) ∗ is_tree l (Some n) ∗ is_tree r (Some n)
  | F3r n l k1 m k2 =>
      n ↦ node3 k1 k2 par (ptr_of l) (ptr_of m) p ∗ is_tree l (Some n) ∗ is_tree m (Some n)
  end%I.
Fixpoint is_ctx c p : hProp :=
  match c with
  | [] => emp
  | f :: c => is_frame f p (ctx_ptr c) ∗ is_ctx c (Some (frame_loc f))
  end%I.

Lemma is_tree_fill f t par :
  is_tree (fill f t) par ⊣⊢ is_tree t (Some (frame_loc f)) ∗ is_frame f (ptr_of t) par.
Proof.
  destruct f; simpl; iSplit.
  1: iIntros "(% & $ & $ & $ & $)".
  1: iIntros "($ & % & $ & $ & $)".
  1: iIntros "(% & $ & $ & $ & $)".
  1: iIntros "($ & % & $ & $ & $)".
  1: iIntros "($ & $ & $ & $)".
  1: iIntros "($ & $ & $ & $)".
  1: iIntros "($ & $ & $ & $)".
  1: iIntros "($ & $ & $ & $)".
  1: iIntros "($ & $ & $ & $)".
  1: iIntros "($ & $ & $ & $)".
Qed.
Lemma is_tree_plug c t :
  is_tree (plug c t) None ⊣⊢ is_tree t (ctx_ptr c) ∗ is_ctx c (ptr_of t).
Proof.
  revert t; induction c as [|f c IH]; intros t; simpl; [by rewrite right_id|].
  rewrite IH is_tree_fill ptr_of_fill -assoc //.
Qed.

#[local] Typeclasses Opaque is_tree.
Lemma is_tree_E par : is_tree E par ⊣⊢ emp.
Proof. done. Qed.
Lemma is_tree_N2 n l k r par :
  is_tree (N2 n l k r) par ⊣⊢
  ∃ big, ⟨stale big⟩ ∗ n ↦ node2 k big par (ptr_of l) (ptr_of r) ∗
         is_tree l (Some n) ∗ is_tree r (Some n).
Proof. done. Qed.
Lemma is_tree_N3 n l k1 m k2 r par :
  is_tree (N3 n l k1 m k2 r) par ⊣⊢
  n ↦ node3 k1 k2 par (ptr_of l) (ptr_of m) (ptr_of r) ∗
  is_tree l (Some n) ∗ is_tree m (Some n) ∗ is_tree r (Some n).
Proof. done. Qed.
Lemma is_tree_Hole n t par :
  is_tree (Hole n t) par ⊣⊢
  ∃ small big ss, ⟨stale big⟩ ∗ n ↦ hole_node small big ss par (ptr_of t) ∗ is_tree t (Some n).
Proof. done. Qed.

Lemma is_ctx_nil p : is_ctx [] p ⊣⊢ emp.
Proof. done. Qed.
Lemma is_ctx_cons f c p :
  is_ctx (f :: c) p ⊣⊢ is_frame f p (ctx_ptr c) ∗ is_ctx c (Some (frame_loc f)).
Proof. done. Qed.

(** the proof mode opens the node of a tree *)
#[export] Instance into_exist_N2 n l k r par :
  IntoExist (is_tree (N2 n l k r) par)
    (λ big, ⟨stale big⟩ ∗ n ↦ node2 k big par (ptr_of l) (ptr_of r) ∗
            is_tree l (Some n) ∗ is_tree r (Some n))%I (to_ident_name big).
Proof. rewrite /IntoExist is_tree_N2 //. Qed.
#[export] Instance into_exist_Hole n t par :
  IntoExist (is_tree (Hole n t) par)
    (λ small, ∃ big ss, ⟨stale big⟩ ∗ n ↦ hole_node small big ss par (ptr_of t) ∗
            is_tree t (Some n))%I (to_ident_name small).
Proof. rewrite /IntoExist is_tree_Hole //. Qed.
#[export] Instance into_sep_N3 n l k1 m k2 r par :
  IntoSep (is_tree (N3 n l k1 m k2 r) par)
    (n ↦ node3 k1 k2 par (ptr_of l) (ptr_of m) (ptr_of r))
    (is_tree l (Some n) ∗ is_tree m (Some n) ∗ is_tree r (Some n)).
Proof. rewrite /IntoSep is_tree_N3 //. Qed.

(** the keys are in strictly increasing order *)
Definition key_lt (x y : T) : Prop := ltb x y = true.
Definition ordered (ks : list T) : Prop := StronglySorted key_lt ks.

(** a finished tree: balanced, without holes, in order *)
Record wf h t : Prop := {
  wf_balanced : balanced h t;
  wf_whole : whole t;
  wf_ordered : ordered (keys t);
}.
End rep.
#[export] Typeclasses Opaque is_tree is_ctx.
Arguments is_tree {T _} _ _ : simpl never.
Arguments is_frame {T _} !_ _ _ /.
Arguments is_ctx {T _} _ _ : simpl never.


(** ** Rules for the member functions of CNode *)

Definition size_of {T} (v : CNode T) : eNodeSize :=
  if m_bBigKeyIsSet v && m_bSmallKeyIsSet v then threeNode
  else if m_bSmallKeyIsSet v then twoNode else empty_node.

Section node_rules.
Context {T : Type} `{Key T}.
Implicit Types (n : loc) (v : CNode T) (t : tree T) (k : T).

#[export] Instance getChild_op n v i : CellOp (getChild (Some n) i) n v (m_pChildren v i) v.
Proof. eapply bind_op; [apply _|apply ret_op]. Qed.
#[export] Instance getParent_op n v : CellOp (getParent (Some n)) n v (m_pParent v) v.
Proof. eapply bind_op; [apply _|apply ret_op]. Qed.
#[export] Instance getSize_op n v : CellOp (getSize (Some n)) n v (size_of v) v.
Proof. eapply bind_op; [apply _|apply ret_op]. Qed.
Lemma size_is_op n v s b :
  bool_decide (size_of v = s) = b → CellOp (size_is (Some n) s) n v b v.
Proof. intros <-. eapply bind_op; [apply _|apply ret_op]. Qed.
#[export] Instance isLeaf_op n v :
  CellOp (isLeaf (Some n)) n v (is_null (m_pLeft v) && is_null (m_pMiddle v)) v.
Proof.
  replace (is_null (m_pLeft v) && is_null (m_pMiddle v)) with
    (is_null (m_pLeft v) && is_null (m_pMiddle v) && is_null (m_pMiddle v))
    by (by destruct (is_null (m_pLeft v)), (is_null (m_pMiddle v))).
  eapply bind_op; [apply _|apply ret_op].
Qed.
Lemma getSmallKey_op n v k :
  m_tSmallKey v = Some k → CellOp (getSmallKey (Some n)) n v k v.
Proof. intros Hk. eapply bind_op; [apply _|]. apply lift_op. by rewrite Hk. Qed.
Lemma getBigKey_op n v k :
  m_tBigKey v = Some k → CellOp (getBigKey (Some n)) n v k v.
Proof. intros Hk. eapply bind_op; [apply _|]. apply lift_op. by rewrite Hk. Qed.
Lemma small_is_op n v k s c :
  m_tSmallKey v = Some s → CellOp (small_is k (Some n) c) n v (TCompare k s =? c)%Z v.
Proof. intros Hk. eapply bind_op; [by apply getSmallKey_op|apply ret_op]. Qed.
Lemma big_is_op n v k s c :
  m_tBigKey v = Some s → CellOp (big_is k (Some n) c) n v (TCompare k s =? c)%Z v.
Proof. intros Hk. eapply bind_op; [by apply getBigKey_op|apply ret_op]. Qed.
#[export] Instance setSmallKey_op n v o :
  CellOp (setSmallKey (Some n) o) n v tt (put_small o v).
Proof. apply modify_op. Qed.
#[export] Instance setBigKey_op n v o :
  CellOp (setBigKey (Some n) o) n v tt (put_big o v).
Proof. apply modify_op. Qed.
#[export] Instance setParent_op n v q :
  CellOp (setParent (Some n) q) n v tt (put_parent q v).
Proof. apply modify_op. Qed.
#[export] Instance setChild_null_op n v i :
  CellOp (setChild (Some n) i None) n v tt (put_child i None v).
Proof. eapply bind_op; [apply _|apply ret_op]. Qed.

End node_rules.
#[export] Hint Extern 1 (CellOp (getSmallKey _) _ _ _ _) =>
  eapply getSmallKey_op; reflexivity : typeclass_instances.
#[export] Hint Extern 1 (CellOp (getBigKey _) _ _ _ _) =>
  eapply getBigKey_op; reflexivity : typeclass_instances.
#[export] Hint Extern 1 (CellOp (small_is _ _ _) _ _ _ _) =>
  eapply small_is_op; reflexivity : typeclass_instances.
#[export] Hint Extern 1 (CellOp (big_is _ _ _) _ _ _ _) =>
  eapply big_is_op; reflexivity : typeclass_instances.
#[export] Hint Extern 1 (CellOp (size_is _ _) _ _ _ _) =>
  first [eapply (size_is_op _ _ _ true); reflexivity
        |eapply (size_is_op _ _ _ false); reflexivity] : typeclass_instances.

Ltac node_simpl :=
  cbn [m_pChildren m_pLeft m_pMiddle m_pRight m_pParent size_of put_child put_small put_big
       put_parent m_bBigKeyIsSet m_bSmallKeyIsSet andb negb].
Ltac wp_cell n := lazymatch goal with
  | |- envs_entails ?Δ _ =>
      match Δ with context [Esnoc _ ?i (points_to n ?v)] =>
        eapply (tac_wp_cell _ _ i n v); [reflexivity|apply _|reflexivity|node_simpl]
      end
  end.

Section parent_rules.
Context {T : Type} `{Key T}.
Implicit Types (t : tree T).

Lemma wp_set_parent t par q (Φ : unit → heapPropI (CNode T)) :
  is_tree t par ∗ (is_tree t q -∗ Φ tt) ⊢
  wp (match ptr_of t with None => mret tt | Some _ => setParent (ptr_of t) q end) Φ.
Proof.
  destruct t as [|n l k r|n l k1 m k2 r|n t]; simpl; rewrite ?is_tree_E ?is_tree_N2 ?is_tree_N3 ?is_tree_Hole; iIntros "[Ht HΦ]".
  - iApply wp_ret. by iApply "HΦ".
  - iDestruct "Ht" as (big) "(Hs & Hn & Hl & Hr)". wp_cell n. iApply "HΦ". iExists big. iFrame.
  - iDestruct "Ht" as "(Hn & Hl & Hm & Hr)". wp_cell n. iApply "HΦ". iFrame.
  - iDestruct "Ht" as (s big ss) "(Hs & Hn & Ht)". wp_cell n. iApply "HΦ". iExists s, big, ss. iFrame.
Qed.

Lemma tac_wp_set_parent Δ Δ' i t par q (Φ : unit → heapPropI (CNode T)) :
  envs_lookup i Δ = Some (false, is_tree t par)%I →
  envs_simple_replace i false (Esnoc Enil i (is_tree t q)) Δ = Some Δ' →
  envs_entails Δ' (Φ tt) →
  envs_entails Δ (wp (match ptr_of t with None => mret tt | Some _ => setParent (ptr_of t) q end) Φ).
Proof.
  rewrite envs_entails_unseal. intros Hi HΔ HΦ.
  rewrite envs_simple_replace_sound //; simpl. rewrite right_id.
  etrans; [|apply wp_set_parent]. by apply bi.sep_mono_r, bi.wand_mono.
Qed.
End parent_rules.

(** the next operation of the program *)
Ltac wp_step :=
  lazymatch goal with
  | |- envs_entails _ (wp (_ ≫= _) _) => eapply tac_wp_bind
  | |- envs_entails _ (wp (mret _) _) => eapply tac_wp_ret
  | |- envs_entails _ (wp (lift _) _) => eapply tac_wp_lift; [reflexivity|]
  | |- envs_entails _ (wp (same _ _) _) => eapply tac_wp_ret
  | |- envs_entails _ (wp (if Some ?n =p? Some ?n then _ else _) _) => rewrite (ptr_eqb_refl (Some n))
  | Hc : TCompare ?k ?s = _ |- envs_entails _ (wp (if (TCompare ?k ?s =? _)%Z then _ else _) _) =>
      rewrite Hc
  | |- envs_entails _ (wp (if Some ?n =p? None then _ else _) _) =>
      change (Some n =p? None) with false
  | |- envs_entails _ (wp (if Some ?n =p? Some ?n' then _ else _) _) =>
      rewrite (ptr_eqb_ne n n'); [|first [assumption|by apply not_eq_sym]]
  | |- envs_entails ?Δ (wp (match ptr_of ?t with None => _ | Some _ => _ end) _) =>
      match Δ with context [Esnoc _ ?i (is_tree t _)] =>
        eapply (tac_wp_set_parent _ _ i t); [reflexivity|reflexivity|]
      end
  | |- envs_entails ?Δ (wp (dispose (Some ?n)) _) =>
      match Δ with context [Esnoc _ ?i (points_to n ?v)] =>
        eapply (tac_wp_dispose _ i n v); [reflexivity|pm_reduce]
      end
  | |- envs_entails _ (wp (setChild (Some _) _ (ptr_of _)) _) => unfold setChild
  | |- envs_entails _ (wp (andM _ _) _) => unfold andM
  | |- envs_entails _ (wp (orM _ _) _) => unfold orM
  | |- envs_entails _ (wp (notM _) _) => unfold notM
  | |- envs_entails _ (wp (case_of _ _ _) _) => unfold case_of
  | |- envs_entails _ (wp (succeeds _) _) => unfold succeeds
  | |- envs_entails _ (wp (child_from _ _ _ _) _) => unfold child_from
  | |- envs_entails _ (wp (small_from_small _ _) _) => unfold small_from_small
  | |- envs_entails _ (wp (small_from_big _ _) _) => unfold small_from_big
  | |- envs_entails _ (wp (big_from_small _ _) _) => unfold big_from_small
  | |- envs_entails _ (wp (big_from_big _ _) _) => unfold big_from_big
  | |- envs_entails _ (wp (rotation1 _ _ _) _) => unfold rotation1
  | |- envs_entails _ (wp (rotation2 _ _ _) _) => unfold rotation2
  | |- envs_entails _ (wp (rotation3 _ _ _ _) _) => unfold rotation3
  | |- envs_entails _ (wp (rotation4 _ _ _) _) => unfold rotation4
  | |- envs_entails _ (wp (rotation5 _ _ _) _) => unfold rotation5
  | |- envs_entails _ (wp (rotation6 _ _ _) _) => unfold rotation6
  | |- envs_entails _ (wp (rotation7 _ _ _) _) => unfold rotation7
  | |- envs_entails _ (wp (rotation8 _ _ _ _) _) => unfold rotation8
  | |- envs_entails _ (wp (merger15 _ _ _) _) => unfold merger15
  | |- envs_entails _ (wp (merger16 _ _ _) _) => unfold merger16
  | |- envs_entails _ (wp (merger17 _ _ _) _) => unfold merger17
  | |- envs_entails _ (wp (merger18 _ _ _) _) => unfold merger18
  | |- envs_entails _ (wp (merger19 _ _ _) _) => unfold merger19
  | |- envs_entails _ (wp (rotation_small_from_min _ _ _) _) => unfold rotation_small_from_min
  | |- envs_entails _ (wp (rotation_small_from_max _ _ _) _) => unfold rotation_small_from_max
  | |- envs_entails _ (wp (rotation_big_from_min _ _ _) _) => unfold rotation_big_from_min
  | |- envs_entails _ (wp (rotation_big_from_max _ _ _) _) => unfold rotation_big_from_max
  | |- envs_entails _ (wp (?op (Some ?n) _ _) _) => wp_cell n
  | |- envs_entails _ (wp (?op (Some ?n) _) _) => wp_cell n
  | |- envs_entails _ (wp (?op (Some ?n)) _) => wp_cell n
  | |- envs_entails _ (wp (if ?b then _ else _) _) =>
      let x := eval cbv in b in
      lazymatch x with true => change b with true | false => change b with false end
  end; cbv beta iota.
(** the next operation of the program *)
Ltac wp_steps := repeat wp_step.

(** ** Closing goals about the trees that a program leaves *)
Ltac fold_trees :=
  repeat (progress (rewrite ?is_tree_N2 ?is_tree_N3 ?is_tree_Hole ?is_tree_E
                      /node2 /node3 /hole_node; cbn [ptr_of]; try iFrame)).
Ltac stale_facts :=
  repeat match goal with
  | |- _ ∧ _ => split
  | |- stale (Some _) => intros _; by eexists
  | |- stale unset => intros ?; assumption
  | |- stale _ => assumption
  | |- _ => done
  end.
Ltac trees_done := fold_trees; try done; iPureIntro; stale_facts.

Lemma balanced_S_inv {T} h (t : tree T) :
  balanced (S h) t → whole t →
  (∃ n l k r, t = N2 n l k r) ∨ (∃ n l k1 m k2 r, t = N3 n l k1 m k2 r).
Proof. destruct t; simpl; naive_solver. Qed.
(** a proper subtree at this height is a two-node or a three-node *)
Ltac node_cases Hb Hw :=
  let n := fresh "n" in let l := fresh "l" in let k := fresh "k" in let r := fresh "r" in
  let m := fresh "m" in
  destruct (balanced_S_inv _ _ Hb Hw) as [(n & l & k & r & ->)|(n & l & k & m & ? & r & ->)].
(** open every node and frame of the context and learn that they are distinct *)
Ltac open_trees :=
  repeat match goal with
  | |- envs_entails ?Δ _ =>
      match Δ with
      | context [Esnoc _ ?i (is_tree (N2 _ _ _ _) _)] => iDestruct i as (?) "(% & ? & ? & ?)"
      | context [Esnoc _ ?i (is_tree (N3 _ _ _ _ _ _) _)] => iDestruct i as "(? & ? & ? & ?)"
      | context [Esnoc _ ?i (is_tree (Hole _ _) _)] => iDestruct i as (? ? ?) "(% & ? & ?)"
      | context [Esnoc _ ?i (is_frame (F2l _ _ _) _ _)] => iDestruct i as (?) "(% & ? & ?)"
      | context [Esnoc _ ?i (is_frame (F2r _ _ _) _ _)] => iDestruct i as (?) "(% & ? & ?)"
      | context [Esnoc _ ?i (is_frame (F3l _ _ _ _ _) _ _)] => iDestruct i as "(? & ? & ?)"
      | context [Esnoc _ ?i (is_frame (F3m _ _ _ _ _) _ _)] => iDestruct i as "(? & ? & ?)"
      | context [Esnoc _ ?i (is_frame (F3r _ _ _ _ _) _ _)] => iDestruct i as "(? & ? & ?)"
      end
  end;
  unfold hole_node, node2, node3; cells_ne.
