(* ===== verification/TwoThreeSpine.v ===== *)
(** The first and the last node of a 2-3 tree: what [getMinNode] and
    [getMaxNode] find, and how a tree changes when that node is replaced. *)

From iris.proofmode Require Import proofmode environments coq_tactics reduction.
From S2P Require Import Prelude Heap HeapTactics CNode CTree TwoThree.

Section spine.
Context {T : Type}.
Implicit Types (t l m r x : tree T).

(** the node that has no right child, on the way right from the root of [t];
    a hole has none *)
Fixpoint last_node t : tree T :=
  match t with
  | N2 _ _ _ r | N3 _ _ _ _ _ r => match r with E => t | _ => last_node r end
  | E | Hole _ _ => t
  end.
Fixpoint first_node t : tree T :=
  match t with
  | N2 _ l _ _ | N3 _ l _ _ _ _ | Hole _ l => match l with E => t | _ => first_node l end
  | E => t
  end.

(** put [x] in the place of that node *)
Fixpoint set_last t x : tree T :=
  match t with
  | N2 n l k r => match r with E => x | _ => N2 n l k (set_last r x) end
  | N3 n l k1 m k2 r => match r with E => x | _ => N3 n l k1 m k2 (set_last r x) end
  | E | Hole _ _ => x
  end.
Fixpoint set_first t x : tree T :=
  match t with
  | N2 n l k r => match l with E => x | _ => N2 n (set_first l x) k r end
  | N3 n l k1 m k2 r => match l with E => x | _ => N3 n (set_first l x) k1 m k2 r end
  | Hole n l => match l with E => x | _ => Hole n (set_first l x) end
  | E => x
  end.

Definition is_three t : bool := match t with N3 _ _ _ _ _ _ => true | _ => false end.

(** the holes of [t] are the nodes at address [p], and their child is [t0] *)
Fixpoint marked (p : loc) (t0 : tree T) t : Prop :=
  match t with
  | E => True
  | N2 n l _ r => n ≠ p ∧ marked p t0 l ∧ marked p t0 r
  | N3 n l _ m _ r => n ≠ p ∧ marked p t0 l ∧ marked p t0 m ∧ marked p t0 r
  | Hole n t => n = p ∧ t = t0 ∧ marked p t0 t
  end.

(** *** The last and the first node are found on the same path *)

(** induction along the path to the last (first) node of a non-empty tree *)
Lemma last_ind (P : tree T → Prop) :
  (∀ n l k, P (N2 n l k E)) → (∀ n l k1 m k2, P (N3 n l k1 m k2 E)) →
  (∀ n t, P (Hole n t)) →
  (∀ n l k r, r ≠ E → P r → P (N2 n l k r)) →
  (∀ n l k1 m k2 r, r ≠ E → P r → P (N3 n l k1 m k2 r)) →
  ∀ t, t ≠ E → P t.
Proof.
  intros H2 H3 HH H2' H3' t. induction t as [|n l _ k r IH|n l _ k1 m _ k2 r IH|n t _];
    intros Ht; [done| | |apply HH].
  - destruct (decide (ptr_of r = None)) as [Hr|Hr]; [destruct r; [apply H2|done..]|].
    apply H2'; [by intros ->|apply IH; by intros ->].
  - destruct (decide (ptr_of r = None)) as [Hr|Hr]; [destruct r; [apply H3|done..]|].
    apply H3'; [by intros ->|apply IH; by intros ->].
Qed.
Lemma first_ind (P : tree T → Prop) :
  (∀ n k r, P (N2 n E k r)) → (∀ n k1 m k2 r, P (N3 n E k1 m k2 r)) →
  (∀ n, P (Hole n E)) →
  (∀ n l k r, l ≠ E → P l → P (N2 n l k r)) →
  (∀ n l k1 m k2 r, l ≠ E → P l → P (N3 n l k1 m k2 r)) →
  (∀ n l, l ≠ E → P l → P (Hole n l)) →
  ∀ t, t ≠ E → P t.
Proof.
  intros H2 H3 HH H2' H3' HH' t. induction t as [|n l IH k r _|n l IH k1 m _ k2 r _|n l IH];
    intros Ht; [done| | |].
  - destruct (decide (ptr_of l = None)) as [Hr|Hr]; [destruct l; [apply H2|done..]|].
    apply H2'; [by intros ->|apply IH; by intros ->].
  - destruct (decide (ptr_of l = None)) as [Hr|Hr]; [destruct l; [apply H3|done..]|].
    apply H3'; [by intros ->|apply IH; by intros ->].
  - destruct (decide (ptr_of l = None)) as [Hr|Hr]; [destruct l; [apply HH|done..]|].
    apply HH'; [by intros ->|apply IH; by intros ->].
Qed.

Lemma last_node_N2 n l k r : r ≠ E → last_node (N2 n l k r) = last_node r.
Proof. by destruct r. Qed.
Lemma last_node_N3 n l k1 m k2 r : r ≠ E → last_node (N3 n l k1 m k2 r) = last_node r.
Proof. by destruct r. Qed.
Lemma first_node_N2 n l k r : l ≠ E → first_node (N2 n l k r) = first_node l.
Proof. by destruct l. Qed.
Lemma first_node_N3 n l k1 m k2 r : l ≠ E → first_node (N3 n l k1 m k2 r) = first_node l.
Proof. by destruct l. Qed.
Lemma first_node_Hole n l : l ≠ E → first_node (Hole n l) = first_node l.
Proof. by destruct l. Qed.
Lemma set_last_N2 n l k r x : r ≠ E → set_last (N2 n l k r) x = N2 n l k (set_last r x).
Proof. by destruct r. Qed.
Lemma set_last_N3 n l k1 m k2 r x :
  r ≠ E → set_last (N3 n l k1 m k2 r) x = N3 n l k1 m k2 (set_last r x).
Proof. by destruct r. Qed.
Lemma set_first_N2 n l k r x : l ≠ E → set_first (N2 n l k r) x = N2 n (set_first l x) k r.
Proof. by destruct l. Qed.
Lemma set_first_N3 n l k1 m k2 r x :
  l ≠ E → set_first (N3 n l k1 m k2 r) x = N3 n (set_first l x) k1 m k2 r.
Proof. by destruct l. Qed.
Lemma set_first_Hole n l x : l ≠ E → set_first (Hole n l) x = Hole n (set_first l x).
Proof. by destruct l. Qed.

Lemma last_node_ne t : t ≠ E → last_node t ≠ E.
Proof.
  revert t. apply last_ind; try done; intros; [by rewrite last_node_N2|by rewrite last_node_N3].
Qed.
Lemma first_node_ne t : t ≠ E → first_node t ≠ E.
Proof.
  revert t. apply first_ind; try done; intros;
    [by rewrite first_node_N2|by rewrite first_node_N3|by rewrite first_node_Hole].
Qed.

(** replacing the last node keeps what precedes it *)
Lemma last_keys t : t ≠ E →
  ∃ pre, keys t = pre ++ keys (last_node t) ∧ ∀ x, keys (set_last t x) = pre ++ keys x.
Proof.
  revert t. apply last_ind.
  - intros. by exists [].
  - intros. by exists [].
  - intros. by exists [].
  - intros n l k r Hr (pre & Hk & Hx). exists (keys l ++ k :: pre).
    split; [|intros x]; rewrite ?last_node_N2 ?set_last_N2 //=; by rewrite ?Hk ?Hx -app_assoc.
  - intros n l k1 m k2 r Hr (pre & Hk & Hx). exists (keys l ++ k1 :: keys m ++ k2 :: pre).
    split; [|intros x]; rewrite ?last_node_N3 ?set_last_N3 //= ?Hk ?Hx;
      by repeat rewrite -app_assoc /=.
Qed.
Lemma first_keys t : t ≠ E →
  ∃ post, keys t = keys (first_node t) ++ post ∧ ∀ x, keys (set_first t x) = keys x ++ post.
Proof.
  revert t. apply first_ind.
  - intros. exists []. split; [|intros]; by rewrite app_nil_r.
  - intros. exists []. split; [|intros]; by rewrite app_nil_r.
  - intros. exists []. split; [|intros]; by rewrite app_nil_r.
  - intros n l k r Hr (post & Hk & Hx). exists (post ++ k :: keys r).
    split; [|intros x]; rewrite ?first_node_N2 ?set_first_N2 //= ?Hk ?Hx -app_assoc //.
  - intros n l k1 m k2 r Hr (post & Hk & Hx). exists (post ++ k1 :: keys m ++ k2 :: keys r).
    split; [|intros x]; rewrite ?first_node_N3 ?set_first_N3 //= ?Hk ?Hx -app_assoc //.
  - intros n l Hr (post & Hk & Hx). exists post.
    split; [|intros x]; rewrite ?first_node_Hole ?set_first_Hole //=.
Qed.
Lemma last_balanced h t : t ≠ E → balanced h t →
  ∃ h', balanced (S h') (last_node t) ∧ ∀ x, balanced (S h') x → balanced h (set_last t x).
Proof.
  intros Ht. revert h. revert t Ht. apply (last_ind (λ t, ∀ h, balanced h t → _)).
  - intros n l k [|h] Hb; [done|]. by exists h.
  - intros n l k1 m k2 [|h] Hb; [done|]. by exists h.
  - intros n t [|h] Hb; [done|]. by exists h.
  - intros n l k r Hr IH [|h]; [done|]. intros [Hl (h' & Hn & Hx)%IH]. exists h'.
    rewrite last_node_N2 //. split; [done|]. intros x ?. rewrite set_last_N2 //=. auto.
  - intros n l k1 m k2 r Hr IH [|h]; [done|]. intros (Hl & Hm & (h' & Hn & Hx)%IH). exists h'.
    rewrite last_node_N3 //. split; [done|]. intros x ?. rewrite set_last_N3 //=. auto.
Qed.
Lemma first_balanced h t : t ≠ E → balanced h t →
  ∃ h', balanced (S h') (first_node t) ∧ ∀ x, balanced (S h') x → balanced h (set_first t x).
Proof.
  intros Ht. revert h. revert t Ht. apply (first_ind (λ t, ∀ h, balanced h t → _)).
  - intros n k r [|h] Hb; [done|]. by exists h.
  - intros n k1 m k2 r [|h] Hb; [done|]. by exists h.
  - intros n [|h] Hb; [done|]. by exists h.
  - intros n l k r Hr IH [|h]; [done|]. intros [(h' & Hn & Hx)%IH Hl]. exists h'.
    rewrite first_node_N2 //. split; [done|]. intros x ?. rewrite set_first_N2 //=. auto.
  - intros n l k1 m k2 r Hr IH [|h]; [done|]. intros ((h' & Hn & Hx)%IH & Hm & Hl). exists h'.
    rewrite first_node_N3 //. split; [done|]. intros x ?. rewrite set_first_N3 //=. auto.
  - intros n l Hr IH [|h]; [done|]. intros (h' & Hn & Hx)%IH. exists h'.
    rewrite first_node_Hole //. split; [done|]. intros x ?. rewrite set_first_Hole //=. auto.
Qed.
Lemma last_marked p t0 t : t ≠ E → marked p t0 t → marked p t0 (last_node t).
Proof.
  revert t. apply (last_ind (λ t, marked p t0 t → marked p t0 (last_node t))); try done; intros.
  - rewrite last_node_N2 //. simpl in *. naive_solver.
  - rewrite last_node_N3 //. simpl in *. naive_solver.
Qed.
Lemma first_marked p t0 t : t ≠ E → marked p t0 t → marked p t0 (first_node t).
Proof.
  revert t. apply (first_ind (λ t, marked p t0 t → marked p t0 (first_node t))); try done; intros.
  - rewrite first_node_N2 //. simpl in *. naive_solver.
  - rewrite first_node_N3 //. simpl in *. naive_solver.
  - rewrite first_node_Hole //. simpl in *. naive_solver.
Qed.
(** the number of holes *)
Fixpoint holes t : nat :=
  match t with
  | E => 0
  | N2 _ l _ r => holes l + holes r
  | N3 _ l _ m _ r => holes l + holes m + holes r
  | Hole _ t => S (holes t)
  end.
Lemma whole_holes t : whole t ↔ holes t = 0.
Proof.
  induction t as [|? l IHl ? r IHr|? l IHl ? m IHm ? r IHr|]; simpl; [done| | |lia].
  - rewrite IHl IHr. lia.
  - rewrite IHl IHm IHr. lia.
Qed.
Lemma last_holes t : t ≠ E →
  ∃ n, holes t = n + holes (last_node t) ∧ ∀ x, holes (set_last t x) = n + holes x.
Proof.
  revert t. apply last_ind.
  - intros. by exists 0.
  - intros. by exists 0.
  - intros. by exists 0.
  - intros n l k r Hr (a & Hk & Hx). exists (holes l + a).
    split; [|intros x]; rewrite ?last_node_N2 ?set_last_N2 //= ?Hk ?Hx; lia.
  - intros n l k1 m k2 r Hr (a & Hk & Hx). exists (holes l + holes m + a).
    split; [|intros x]; rewrite ?last_node_N3 ?set_last_N3 //= ?Hk ?Hx; lia.
Qed.
Lemma first_holes t : t ≠ E →
  ∃ n, holes t = n + holes (first_node t) ∧ ∀ x, holes (set_first t x) = n + holes x.
Proof.
  revert t. apply first_ind.
  - intros. by exists 0.
  - intros. by exists 0.
  - intros. by exists 0.
  - intros n l k r Hr (a & Hk & Hx). exists (a + holes r).
    split; [|intros x]; rewrite ?first_node_N2 ?set_first_N2 //= ?Hk ?Hx; lia.
  - intros n l k1 m k2 r Hr (a & Hk & Hx). exists (a + holes m + holes r).
    split; [|intros x]; rewrite ?first_node_N3 ?set_first_N3 //= ?Hk ?Hx; lia.
  - intros n l Hr (a & Hk & Hx). exists (S a).
    split; [|intros x]; rewrite ?first_node_Hole ?set_first_Hole //= ?Hk ?Hx; lia.
Qed.

(** the first node has no left child, the last node no right child *)
Lemma last_shape t : t ≠ E →
  match last_node t with
  | N2 _ _ _ r | N3 _ _ _ _ _ r => r = E
  | _ => True
  end.
Proof.
  revert t. apply last_ind; try done; intros; [by rewrite last_node_N2|by rewrite last_node_N3].
Qed.
Lemma first_shape t : t ≠ E →
  match first_node t with
  | N2 _ l _ _ | N3 _ l _ _ _ _ | Hole _ l => l = E
  | E => True
  end.
Proof.
  revert t. apply first_ind; try done; intros;
    [by rewrite first_node_N2|by rewrite first_node_N3|by rewrite first_node_Hole].
Qed.
End spine.

Section spine_rules.
Context {T : Type} `{Key T}.
Implicit Types (t l m r x : tree T) (par : ptr) (fuel : nat).

Lemma match_ptr {A} t (a b : A) :
  t ≠ E → (match ptr_of t with None => a | Some _ => b end) = b.
Proof. by destruct t. Qed.

Lemma wp_getMaxNode fuel t par Φ :
  t ≠ E → height t ≤ fuel →
  is_tree t par ∗ (is_tree t par -∗ Φ (ptr_of (last_node t))) ⊢
  wp (getMaxNode fuel (ptr_of t)) Φ.
Proof.
  revert t par; induction fuel as [|fuel IH]; intros t par Ht Hh;
    [destruct t; simpl in *; [done|lia..]|].
  destruct t as [|n l k r|n l k1 m k2 r|n t]; [done|..]; simpl in Hh; iIntros "[Ht HΦ]";
    open_trees; cbn [ptr_of getMaxNode]; wp_steps; [..|iApply "HΦ"; trees_done].
  - destruct (decide (ptr_of r = None)) as [Hr|Hr].
    + destruct r; [|done..]. cbn [ptr_of]. wp_steps. iApply "HΦ". trees_done.
    + assert (r ≠ E) by by intros ->. rewrite match_ptr // last_node_N2 //.
      iApply (IH r); [done|lia|]. iFrame. iIntros "?". iApply "HΦ". trees_done.
  - destruct (decide (ptr_of r = None)) as [Hr|Hr].
    + destruct r; [|done..]. cbn [ptr_of]. wp_steps. iApply "HΦ". trees_done.
    + assert (r ≠ E) by by intros ->. rewrite match_ptr // last_node_N3 //.
      iApply (IH r); [done|lia|]. iFrame. iIntros "?". iApply "HΦ". trees_done.
Qed.

Lemma wp_getMinNode fuel t par Φ :
  t ≠ E → height t ≤ fuel →
  is_tree t par ∗ (is_tree t par -∗ Φ (ptr_of (first_node t))) ⊢
  wp (getMinNode fuel (ptr_of t)) Φ.
Proof.
  revert t par; induction fuel as [|fuel IH]; intros t par Ht Hh;
    [destruct t; simpl in *; [done|lia..]|].
  destruct t as [|n l k r|n l k1 m k2 r|n l]; [done|..]; simpl in Hh; iIntros "[Ht HΦ]";
    open_trees; cbn [ptr_of getMinNode]; wp_steps;
    (destruct (decide (ptr_of l = None)) as [Hl|Hl];
      [destruct l; [|done..]; cbn [ptr_of]; wp_steps; iApply "HΦ"; trees_done|]);
    assert (l ≠ E) by (by intros ->);
    rewrite match_ptr // ?first_node_N2 ?first_node_N3 ?first_node_Hole //;
    (iApply (IH l); [done|lia|]); iFrame; iIntros "?"; iApply "HΦ"; trees_done.
Qed.

Lemma ptr_of_set_last t x :
  t ≠ E → ptr_of x = ptr_of (last_node t) → ptr_of (set_last t x) = ptr_of t.
Proof.
  intros Ht. revert t Ht x.
  apply (last_ind (λ t, ∀ x, ptr_of x = _ → _ = ptr_of t)); try done; intros.
  - rewrite set_last_N2 //.
  - rewrite set_last_N3 //.
Qed.
Lemma ptr_of_set_first t x :
  t ≠ E → ptr_of x = ptr_of (first_node t) → ptr_of (set_first t x) = ptr_of t.
Proof.
  intros Ht. revert t Ht x.
  apply (first_ind (λ t, ∀ x, ptr_of x = _ → _ = ptr_of t)); try done; intros.
  - rewrite set_first_N2 //.
  - rewrite set_first_N3 //.
  - rewrite set_first_Hole //.
Qed.

(** the node of a tree can be opened and replaced *)
Lemma last_focus t par :
  t ≠ E →
  is_tree t par ⊢ ∃ par', is_tree (last_node t) par' ∗
    (∀ x, ⟨ptr_of x = ptr_of (last_node t)⟩ -∗ is_tree x par' -∗ is_tree (set_last t x) par).
Proof.
  intros Ht. revert t Ht par. apply (last_ind (λ t, ∀ par, _)).
  - intros n l k par. iIntros "Ht". iExists par. iFrame. iIntros (x _) "$".
  - intros n l k1 m k2 par. iIntros "Ht". iExists par. iFrame. iIntros (x _) "$".
  - intros n t par. iIntros "Ht". iExists par. iFrame. iIntros (x _) "$".
  - intros n l k r Hr IH par. iIntros "(% & %Hs & Hn & Hl & Hr)". rewrite last_node_N2 //.
    iDestruct (IH with "Hr") as (par') "[Hr Hx]". iExists par'. iFrame "Hr".
    iIntros (x Hp) "Hr". iSpecialize ("Hx" $! x Hp with "Hr").
    rewrite set_last_N2 // is_tree_N2 ptr_of_set_last //. iFrame. done.
  - intros n l k1 m k2 r Hr IH par. iIntros "(Hn & Hl & Hm & Hr)". rewrite last_node_N3 //.
    iDestruct (IH with "Hr") as (par') "[Hr Hx]". iExists par'. iFrame "Hr".
    iIntros (x Hp) "Hr". iSpecialize ("Hx" $! x Hp with "Hr").
    rewrite set_last_N3 // is_tree_N3 ptr_of_set_last //. iFrame.
Qed.
Lemma first_focus t par :
  t ≠ E →
  is_tree t par ⊢ ∃ par', is_tree (first_node t) par' ∗
    (∀ x, ⟨ptr_of x = ptr_of (first_node t)⟩ -∗ is_tree x par' -∗ is_tree (set_first t x) par).
Proof.
  intros Ht. revert t Ht par. apply (first_ind (λ t, ∀ par, _)).
  - intros n k r par. iIntros "Ht". iExists par. iFrame. iIntros (x _) "$".
  - intros n k1 m k2 r par. iIntros "Ht". iExists par. iFrame. iIntros (x _) "$".
  - intros n par. iIntros "Ht". iExists par. iFrame. iIntros (x _) "$".
  - intros n l k r Hr IH par. iIntros "(% & %Hs & Hn & Hl & Hr)". rewrite first_node_N2 //.
    iDestruct (IH with "Hl") as (par') "[Hl Hx]". iExists par'. iFrame "Hl".
    iIntros (x Hp) "Hl". iSpecialize ("Hx" $! x Hp with "Hl").
    rewrite set_first_N2 // is_tree_N2 ptr_of_set_first //. iFrame. done.
  - intros n l k1 m k2 r Hr IH par. iIntros "(Hn & Hl & Hm & Hr)". rewrite first_node_N3 //.
    iDestruct (IH with "Hl") as (par') "[Hl Hx]". iExists par'. iFrame "Hl".
    iIntros (x Hp) "Hl". iSpecialize ("Hx" $! x Hp with "Hl").
    rewrite set_first_N3 // is_tree_N3 ptr_of_set_first //. iFrame.
  - intros n l Hr IH par. iIntros "(% & % & % & %Hs & Hn & Hl)". rewrite first_node_Hole //.
    iDestruct (IH with "Hl") as (par') "[Hl Hx]". iExists par'. iFrame "Hl".
    iIntros (x Hp) "Hl". iSpecialize ("Hx" $! x Hp with "Hl").
    rewrite set_first_Hole // is_tree_Hole ptr_of_set_first //. iFrame. done.
Qed.
Lemma set_last_self t : set_last t (last_node t) = t.
Proof.
  induction t as [|n l _ k r IH|n l _ k1 m _ k2 r IH|]; simpl; [done|..|done]; destruct r;
    first [done|by rewrite IH].
Qed.
Lemma set_first_self t : set_first t (first_node t) = t.
Proof.
  induction t as [|n l IH k r _|n l IH k1 m _ k2 r _|n l IH]; simpl; [done|..]; destruct l;
    first [done|by rewrite IH].
Qed.

(** only its size is read *)
Lemma wp_is_three t par Φ :
  t ≠ E → is_tree t par ∗ (is_tree t par -∗ Φ (is_three t)) ⊢
  wp (size_is (ptr_of t) threeNode) Φ.
Proof.
  destruct t as [|n l k r|n l k1 m k2 r|n t]; [done|..]; iIntros (_) "[Ht HΦ]".
  - open_trees. cbn [ptr_of]. wp_steps. iApply "HΦ". trees_done.
  - open_trees. cbn [ptr_of]. wp_steps. iApply "HΦ". trees_done.
  - iDestruct "Ht" as (s b ss) "(% & ? & ?)"; destruct ss; unfold hole_node; cbn [ptr_of]; wp_steps;
      iApply "HΦ"; trees_done.
Qed.
Lemma wp_last_is_three t par Φ :
  t ≠ E → is_tree t par ∗ (is_tree t par -∗ Φ (is_three (last_node t))) ⊢
  wp (size_is (ptr_of (last_node t)) threeNode) Φ.
Proof.
  iIntros (Ht) "[Ht HΦ]". iDestruct (last_focus with "Ht") as (par') "[Ht Hx]"; [done|].
  iApply wp_is_three; [by apply last_node_ne|]. iFrame "Ht". iIntros "Ht". iApply "HΦ".
  iDestruct ("Hx" with "[%//] Ht") as "Ht". by rewrite set_last_self.
Qed.
Lemma wp_first_is_three t par Φ :
  t ≠ E → is_tree t par ∗ (is_tree t par -∗ Φ (is_three (first_node t))) ⊢
  wp (size_is (ptr_of (first_node t)) threeNode) Φ.
Proof.
  iIntros (Ht) "[Ht HΦ]". iDestruct (first_focus with "Ht") as (par') "[Ht Hx]"; [done|].
  iApply wp_is_three; [by apply first_node_ne|]. iFrame "Ht". iIntros "Ht". iApply "HΦ".
  iDestruct ("Hx" with "[%//] Ht") as "Ht". by rewrite set_first_self.
Qed.

(** the nodes of a hole's context and subtree are at other addresses *)
Fixpoint avoids (p : loc) t : Prop :=
  match t with
  | E => True
  | N2 n l _ r => n ≠ p ∧ avoids p l ∧ avoids p r
  | N3 n l _ m _ r => n ≠ p ∧ avoids p l ∧ avoids p m ∧ avoids p r
  | Hole n t => n ≠ p ∧ avoids p t
  end.
Lemma is_tree_avoids p v t par : p ↦ v ∗ is_tree t par ⊢ ⌜avoids p t⌝.
Proof.
  revert par; induction t as [|n l IHl k r IHr|n l IHl k1 m IHm k2 r IHr|n t IH]; intros par;
    iIntros "[Hp Ht]".
  - done.
  - iDestruct "Ht" as (?) "(_ & Hn & Hl & Hr)". cells_ne.
    iDestruct (IHl with "[$Hp $Hl]") as %?. iDestruct (IHr with "[$Hp $Hr]") as %?. done.
  - iDestruct "Ht" as "(Hn & Hl & Hm & Hr)". cells_ne.
    iDestruct (IHl with "[$Hp $Hl]") as %?. iDestruct (IHm with "[$Hp $Hm]") as %?.
    iDestruct (IHr with "[$Hp $Hr]") as %?. done.
  - iDestruct "Ht" as (???) "(_ & Hn & Ht)". cells_ne.
    iDestruct (IH with "[$Hp $Ht]") as %?. done.
Qed.
Lemma is_tree_ptr_ne n v t par : n ↦ v ∗ is_tree t par ⊢ ⌜ptr_of t ≠ Some n⌝.
Proof.
  iIntros "H". iDestruct (is_tree_avoids with "H") as %Ha. iPureIntro.
  destruct t; simpl in *; naive_solver.
Qed.

Lemma is_tree_disjoint t t' par par' :
  t ≠ E → is_tree t par ∗ is_tree t' par' ⊢ ⌜ptr_of t ≠ ptr_of t'⌝.
Proof.
  iIntros (Ht) "[H1 H2]". destruct t as [|n l k r|n l k m k' r|n t]; [done|..]; open_trees;
    match goal with |- context [Esnoc _ ?i (points_to n _)] =>
      iDestruct (is_tree_ptr_ne with "[$]") as %Hne end; iPureIntro; by apply not_eq_sym.
Qed.

Lemma avoids_whole_marked p t0 t : avoids p t → whole t → marked p t0 t.
Proof. induction t; simpl; naive_solver. Qed.
Lemma frame_marked p t0 v f t q par :
  frame_whole f → marked p t0 t → p ↦ v ∗ is_frame f q par ⊢ ⌜marked p t0 (fill f t)⌝.
Proof.
  intros Hw Ht. iIntros "[Hp Hf]". destruct f as [n k r|n l k|n k1 m k2 r|n l k1 k2 r|n l k1 m k2];
    simpl in Hw.
  - iDestruct "Hf" as (?) "(_ & Hn & Hr)". cells_ne.
    iDestruct (is_tree_avoids with "[$Hp $Hr]") as %?%(avoids_whole_marked _ t0); done.
  - iDestruct "Hf" as (?) "(_ & Hn & Hr)". cells_ne.
    iDestruct (is_tree_avoids with "[$Hp $Hr]") as %?%(avoids_whole_marked _ t0); done.
  - iDestruct "Hf" as "(Hn & Hm & Hr)". cells_ne. destruct Hw.
    iDestruct (is_tree_avoids with "[$Hp $Hm]") as %?%(avoids_whole_marked _ t0); [|done].
    iDestruct (is_tree_avoids with "[$Hp $Hr]") as %?%(avoids_whole_marked _ t0); done.
  - iDestruct "Hf" as "(Hn & Hm & Hr)". cells_ne. destruct Hw.
    iDestruct (is_tree_avoids with "[$Hp $Hm]") as %?%(avoids_whole_marked _ t0); [|done].
    iDestruct (is_tree_avoids with "[$Hp $Hr]") as %?%(avoids_whole_marked _ t0); done.
  - iDestruct "Hf" as "(Hn & Hm & Hr)". cells_ne. destruct Hw.
    iDestruct (is_tree_avoids with "[$Hp $Hm]") as %?%(avoids_whole_marked _ t0); [|done].
    iDestruct (is_tree_avoids with "[$Hp $Hr]") as %?%(avoids_whole_marked _ t0); done.
Qed.
Lemma plug_marked p t0 v c t q :
  ctx_whole c → marked p t0 t → p ↦ v ∗ is_ctx c q ⊢ ⌜marked p t0 (plug c t)⌝.
Proof.
  intros Hc. revert t q; induction Hc as [|f c Hf Hc IH]; intros t q Ht; simpl.
  - by iIntros "_".
  - rewrite /is_ctx -/is_ctx. iIntros "(Hp & Hf & Hc)".
    iDestruct (frame_marked with "[$Hp $Hf]") as %?; [done..|].
    iApply (IH with "[$Hp $Hc]"). done.
Qed.
(** the only hole of the tree is the node at [p] *)
Lemma hole_marked p t c :
  whole t → ctx_whole c →
  is_tree (Hole p t) (ctx_ptr c) ∗ is_ctx c (Some p) ⊢ ⌜marked p t (plug c (Hole p t))⌝.
Proof.
  iIntros (Ht Hc) "[(% & % & % & _ & Hp & Ht) Hc]".
  iDestruct (is_tree_avoids with "[$Hp $Ht]") as %?%(avoids_whole_marked _ t); [|done].
  iApply (plug_marked with "[$Hp $Hc]"); done.
Qed.
End spine_rules.
