(* ===== verification/TwoThreeSearch.v ===== *)
(** Searching a 2-3 tree: [search] and [find] of CTree.h. *)

From iris.proofmode Require Import proofmode environments coq_tactics reduction.
From S2P Require Import Prelude Heap HeapTactics CNode CTree TwoThree TwoThreeSpine.

(** ** The order of the keys *)

Section order.
Context {T : Type} `{KO : KeyOrder T}.
Implicit Types (x y z k s : T).

(** neither key is before the other: the code takes them for equal *)
Definition key_eq x y : Prop := ltb x y = false ∧ ltb y x = false.

Lemma TCompare_cases x y :
  (TCompare x y = LESS ∧ key_lt x y) ∨ (TCompare x y = GREATER ∧ key_lt y x) ∨
  (TCompare x y = EQUAL ∧ key_eq x y).
Proof.
  unfold TCompare, key_lt, key_eq.
  destruct (ltb x y) eqn:Hxy; [by left|]. destruct (ltb y x) eqn:Hyx; auto.
Qed.
Lemma TCompare_EQUAL x y : (TCompare x y =? EQUAL)%Z = true ↔ key_eq x y.
Proof.
  unfold TCompare, key_eq. destruct (ltb x y), (ltb y x); simpl; naive_solver.
Qed.
Lemma key_lt_trans x y z : key_lt x y → key_lt y z → key_lt x z.
Proof. apply ltb_trans. Qed.
Lemma key_lt_irrefl x : ¬ key_lt x x.
Proof. unfold key_lt. by rewrite ltb_irrefl. Qed.
Lemma TCompare_lt x y : key_lt x y → TCompare x y = LESS.
Proof. unfold TCompare, key_lt. by intros ->. Qed.
Lemma TCompare_gt x y : key_lt y x → TCompare x y = GREATER.
Proof.
  unfold TCompare. intros Hyx. destruct (ltb x y) eqn:Hxy.
  - destruct (key_lt_irrefl x). by eapply key_lt_trans.
  - by rewrite Hyx.
Qed.
Lemma key_eq_refl x : key_eq x x.
Proof. split; apply ltb_irrefl. Qed.
Lemma key_eq_sym x y : key_eq x y → key_eq y x.
Proof. unfold key_eq. naive_solver. Qed.
Lemma key_lt_eq_l x y z : key_eq x y → key_lt y z → key_lt x z.
Proof.
  intros [Hxy Hyx] Hyz. destruct (ltb_split y z x Hyz) as [?|?]; [congruence|done].
Qed.
Lemma key_lt_eq_r x y z : key_lt x y → key_eq y z → key_lt x z.
Proof.
  intros Hxy [Hyz Hzy]. destruct (ltb_split x y z Hxy) as [?|?]; [done|congruence].
Qed.
Lemma key_eq_trans x y z : key_eq x y → key_eq y z → key_eq x z.
Proof.
  intros Hxy Hyz. split; apply not_true_is_false; intros Hlt.
  - apply (key_lt_irrefl x). eapply key_lt_eq_r; [eapply key_lt_eq_r; [exact Hlt|]|].
    + by apply key_eq_sym.
    + by apply key_eq_sym.
  - apply (key_lt_irrefl z). eapply key_lt_eq_r; [eapply key_lt_eq_r; [exact Hlt|]|]; done.
Qed.
#[export] Instance key_eq_equivalence : Equivalence key_eq.
Proof.
  split; [exact key_eq_refl|exact key_eq_sym|exact key_eq_trans].
Qed.
#[export] Instance key_lt_proper : Proper (key_eq ==> key_eq ==> iff) key_lt.
Proof.
  intros x x' Hx y y' Hy. split; intros Hlt.
  - eapply key_lt_eq_r; [|exact Hy]. eapply key_lt_eq_l; [by symmetry|done].
  - eapply key_lt_eq_r; [|by symmetry]. by eapply key_lt_eq_l.
Qed.

(** [all_lt ks k]: every key of [ks] is before [k], and the other way around *)
Definition all_lt (ks : list T) k : Prop := Forall (λ x, key_lt x k) ks.
Definition all_gt (ks : list T) k : Prop := Forall (key_lt k) ks.

Lemma ordered_app ks ks' :
  ordered (ks ++ ks') ↔
  ordered ks ∧ ordered ks' ∧ Forall (λ x, Forall (key_lt x) ks') ks.
Proof.
  unfold ordered. induction ks as [|x ks IH]; simpl; [split; [|tauto]; by repeat constructor|].
  split.
  - intros [Hs Hx]%StronglySorted_inv. apply IH in Hs as (? & ? & ?).
    apply Forall_app in Hx as [??]. split_and!; [by constructor|done|by constructor].
  - intros (Hs & Hs' & Hx). apply StronglySorted_inv in Hs as [??].
    apply Forall_cons in Hx as [??]. constructor; [tauto|]. by apply Forall_app.
Qed.
Lemma ordered_cons x ks : ordered (x :: ks) ↔ ordered ks ∧ all_gt ks x.
Proof.
  unfold ordered, all_gt. split; [apply StronglySorted_inv|]. intros [??]. by constructor.
Qed.
(** a key of an ordered list splits it *)
Lemma ordered_middle ks k ks' :
  ordered (ks ++ k :: ks') ↔ ordered (ks ++ ks') ∧ all_lt ks k ∧ all_gt ks' k.
Proof.
  rewrite !ordered_app ordered_cons. unfold all_lt, all_gt.
  setoid_rewrite Forall_cons. rewrite Forall_and. tauto.
Qed.
Lemma all_lt_app ks ks' k : all_lt (ks ++ ks') k ↔ all_lt ks k ∧ all_lt ks' k.
Proof. rewrite /all_lt Forall_app //. Qed.
Lemma all_gt_app ks ks' k : all_gt (ks ++ ks') k ↔ all_gt ks k ∧ all_gt ks' k.
Proof. rewrite /all_gt Forall_app //. Qed.
Lemma all_lt_cons x ks k : all_lt (x :: ks) k ↔ key_lt x k ∧ all_lt ks k.
Proof. rewrite /all_lt Forall_cons //. Qed.
Lemma all_gt_cons x ks k : all_gt (x :: ks) k ↔ key_lt k x ∧ all_gt ks k.
Proof. rewrite /all_gt Forall_cons //. Qed.
Lemma all_lt_trans ks x y : all_lt ks x → key_lt x y → all_lt ks y.
Proof. intros Hx Hy. eapply Forall_impl; [exact Hx|]. intros z ?; simpl in *. by eapply key_lt_trans. Qed.
Lemma all_gt_trans ks x y : all_gt ks y → key_lt x y → all_gt ks x.
Proof. intros Hx Hy. eapply Forall_impl; [exact Hx|]. intros z ?; simpl in *. by eapply key_lt_trans. Qed.
End order.

(** ** The node a search ends in *)

Section locate.
Context {T : Type} `{KO : KeyOrder T}.
Implicit Types (t l m r : tree T) (f : frame T) (c : list (frame T)) (k s : T).

(** the node where the search for [k] ends below the path [c], and whether it
    holds [k] *)
Fixpoint locate k c t : list (frame T) * tree T * bool :=
  match t with
  | E | Hole _ _ => (c, t, false)
  | N2 n l s r =>
      if (TCompare k s =? EQUAL)%Z then (c, t, true)
      else if (TCompare k s =? LESS)%Z then
        match l with E => (c, t, false) | _ => locate k (F2l n s r :: c) l end
      else
        match r with E => (c, t, false) | _ => locate k (F2r n l s :: c) r end
  | N3 n l s m s' r =>
      if (TCompare k s =? EQUAL)%Z || (TCompare k s' =? EQUAL)%Z then (c, t, true)
      else if (TCompare k s =? LESS)%Z then
        match l with E => (c, t, false) | _ => locate k (F3l n s m s' r :: c) l end
      else if (TCompare k s' =? GREATER)%Z then
        match r with E => (c, t, false) | _ => locate k (F3r n l s m s' :: c) r end
      else
        match m with E => (c, t, false) | _ => locate k (F3m n l s s' r :: c) m end
  end.

(** [k] is in a node *)
Definition node_has k t : Prop :=
  match t with
  | N2 _ _ s _ => key_eq k s
  | N3 _ _ s _ s' _ => key_eq k s ∨ key_eq k s'
  | _ => False
  end.
Definition is_leaf t : Prop :=
  match t with
  | N2 _ l _ r => l = E ∧ r = E
  | N3 _ l _ m _ r => l = E ∧ m = E ∧ r = E
  | _ => False
  end.

Lemma balanced_unplug h c t :
  balanced h (plug c t) → ∃ h', balanced h' t ∧ ctx_balanced h' c ∧ h = h' + length c.
Proof.
  revert t; induction c as [|f c IH]; intros t Hb; simpl in *; [exists h; auto|].
  destruct (IH _ Hb) as (h' & Hf & Hc & ->).
  destruct h' as [|h']; [by destruct f|]. exists h'. split_and!; [..|lia].
  - destruct f; simpl in Hf; naive_solver.
  - destruct f; simpl in *; naive_solver.
  - done.
Qed.
Lemma whole_unplug c t : whole (plug c t) → whole t ∧ ctx_whole c.
Proof.
  revert t; induction c as [|f c IH]; intros t Hw; simpl in *; [split; [done|constructor]|].
  destruct (IH _ Hw) as [Hf Hc]. split; [destruct f; simpl in Hf; naive_solver|].
  constructor; [destruct f; simpl in *; naive_solver|done].
Qed.
Lemma match_tree {A} t (a b : A) :
  t ≠ E → (match t with E => a | N2 _ _ _ _ => b | N3 _ _ _ _ _ _ => b | Hole _ _ => b end) = b.
Proof. by destruct t. Qed.
Lemma tree_dec t : t = E ∨ t ≠ E.
Proof. destruct t; [by left|by right..]. Qed.

(** what is known where the search ends *)
Record located k c t (b : bool) : Prop := {
  loc_node : t ≠ E;
  loc_left : all_lt (ctx_left c) k;
  loc_right : all_gt (ctx_right c) k;
  loc_found : if b then node_has k t else is_leaf t ∧ ¬ node_has k t;
}.

Lemma locate_spec h k c t :
  balanced h t → whole t → ordered (keys t) → t ≠ E →
  all_lt (ctx_left c) k → all_gt (ctx_right c) k →
  let '(c', t', b) := locate k c t in plug c' t' = plug c t ∧ located k c' t' b.
Proof.
  revert h c. induction t as [|n l IHl s r IHr|n l IHl s m IHm s' r IHr|n t _];
    intros h c Hb Hw Ho Ht Hl Hr; [done| | |done]; destruct h as [|h]; simpl in Hb, Hw, Ho; try done.
  - destruct Hb as [Hbl Hbr], Hw as [Hwl Hwr].
    apply ordered_middle in Ho as (Ho & Hol & Hor). apply ordered_app in Ho as (Ho1 & Ho2 & _).
    cbn [locate].
    destruct (TCompare_cases k s) as [[-> Hs]|[[-> Hs]|[-> Hs]]]; simpl.
    + destruct (tree_dec l) as [->|Hne].
      { simpl in Hbl. subst h. apply balanced_0 in Hbr as ->.
        split; [done|]. split; [done..|]. split; [done|]. intros He. simpl in He.
        rewrite He in Hs. by apply key_lt_irrefl in Hs. }
      rewrite match_tree //. apply (IHl h (F2l n s r :: c)); try done; simpl.
      * by rewrite app_nil_r.
      * apply all_gt_cons. split; [done|]. apply all_gt_app. eauto using all_gt_trans.
    + destruct (tree_dec r) as [->|Hne].
      { simpl in Hbr. subst h. apply balanced_0 in Hbl as ->.
        split; [done|]. split; [done..|]. split; [done|]. intros He. simpl in He.
        rewrite He in Hs. by apply key_lt_irrefl in Hs. }
      rewrite match_tree //. apply (IHr h (F2r n l s :: c)); try done; simpl.
      apply all_lt_app. split; [done|]. apply all_lt_app. split; [eauto using all_lt_trans|].
      apply all_lt_cons. split; [done|constructor].
    + split; [done|]. split; done.
  - destruct Hb as (Hbl & Hbm & Hbr), Hw as (Hwl & Hwm & Hwr).
    apply ordered_middle in Ho as (Ho & Hol & Hor).
    rewrite app_assoc in Ho. apply ordered_middle in Ho as (Ho & Hol' & Hor').
    rewrite -app_assoc in Ho. apply ordered_app in Ho as (Ho1 & Ho2 & _).
    apply ordered_app in Ho2 as (Ho2 & Ho3 & _).
    apply all_gt_app in Hor as [Hom [Hss' Hor]%all_gt_cons].
    apply all_lt_app in Hol' as [Hol' Hom'].
    cbn [locate].
    destruct (TCompare_cases k s) as [[-> Hs]|[[-> Hs]|[-> Hs]]];
    destruct (TCompare_cases k s') as [[-> Hs']|[[-> Hs']|[-> Hs']]]; simpl;
      try (split; [done|]; split; naive_solver).
    + destruct (tree_dec l) as [->|Hne].
      { simpl in Hbl. subst h. apply balanced_0 in Hbr as ->. apply balanced_0 in Hbm as ->.
        split; [done|]. split; [done..|]. split; [done|]. simpl. intros [He|He].
        - rewrite He in Hs. by apply key_lt_irrefl in Hs.
        - rewrite He in Hs'. by apply key_lt_irrefl in Hs'. }
      rewrite match_tree //. apply (IHl h (F3l n s m s' r :: c)); try done; simpl.
      * by rewrite app_nil_r.
      * rewrite all_gt_cons -app_assoc /= all_gt_app all_gt_cons all_gt_app.
        split_and!; eauto using all_gt_trans.
    + exfalso. apply (key_lt_irrefl s). eapply key_lt_trans; [exact Hss'|].
      by eapply key_lt_trans.
    + destruct (tree_dec m) as [->|Hne].
      { simpl in Hbm. subst h. apply balanced_0 in Hbr as ->. apply balanced_0 in Hbl as ->.
        split; [done|]. split; [done..|]. split; [done|]. simpl. intros [He|He].
        - rewrite He in Hs. by apply key_lt_irrefl in Hs.
        - rewrite He in Hs'. by apply key_lt_irrefl in Hs'. }
      rewrite match_tree //. apply (IHm h (F3m n l s s' r :: c)); try done; simpl.
      * rewrite !all_lt_app all_lt_cons. split_and!; eauto using all_lt_trans. constructor.
      * rewrite all_gt_cons all_gt_app. split_and!; eauto using all_gt_trans.
    + destruct (tree_dec r) as [->|Hne].
      { simpl in Hbr. subst h. apply balanced_0 in Hbm as ->. apply balanced_0 in Hbl as ->.
        split; [done|]. split; [done..|]. split; [done|]. simpl. intros [He|He].
        - rewrite He in Hs. by apply key_lt_irrefl in Hs.
        - rewrite He in Hs'. by apply key_lt_irrefl in Hs'. }
      rewrite match_tree //. apply (IHr h (F3r n l s m s' :: c)); try done; simpl.
      rewrite !all_lt_app all_lt_cons all_lt_app all_lt_cons.
      split_and!; eauto using all_lt_trans. constructor.
Qed.

(** ** The loop of [search] *)

Ltac into_child IH x c :=
  let Hx := fresh in
  destruct (tree_dec x) as [->|Hx];
  [cbn [ptr_of]; wp_steps; iApply "HΦ"; trees_done
  |rewrite match_ptr // match_tree //; iApply (IH x _ c); [naive_solver|done|lia|];
   iFrame; iIntros "?"; iApply "HΦ"; trees_done].
Lemma wp_search_loop fuel k t par c (Φ : ptr * bool → heapPropI (CNode T)) :
  whole t → t ≠ E → height t ≤ fuel →
  is_tree t par ∗ (is_tree t par -∗ Φ (let '(_, t', b) := locate k c t in (ptr_of t', b))) ⊢
  wp (search_loop fuel k (ptr_of t)) Φ.
Proof.
  revert t par c; induction fuel as [|fuel IH]; intros t par c Hw Ht Hh;
    [destruct t; simpl in *; [done|lia..]|].
  destruct t as [|n l s r|n l s m s' r|n t]; [done| | |done]; simpl in Hh, Hw;
    iIntros "[Ht HΦ]"; open_trees; cbn [ptr_of search_loop locate].
  - destruct (TCompare_cases k s) as [[Hc _]|[[Hc _]|[Hc _]]]; wp_steps; rewrite ?Hc; simpl.
    + into_child IH l (F2l n s r :: c).
    + into_child IH r (F2r n l s :: c).
    + iApply "HΦ". trees_done.
  - destruct (TCompare_cases k s) as [[Hc _]|[[Hc _]|[Hc _]]];
    destruct (TCompare_cases k s') as [[Hc' _]|[[Hc' _]|[Hc' _]]];
      wp_steps; rewrite ?Hc ?Hc'; simpl; wp_steps; rewrite ?Hc ?Hc'; simpl.
    all: try (iApply "HΦ"; trees_done).
    + into_child IH l (F3l n s m s' r :: c).
    + into_child IH l (F3l n s m s' r :: c).
    + into_child IH m (F3m n l s s' r :: c).
    + into_child IH r (F3r n l s m s' :: c).
Qed.

Lemma wp_search fuel k t par (Φ : Z * ptr * bool → heapPropI (CNode T)) :
  whole t → height t ≤ fuel →
  is_tree t par ∗ (is_tree t par -∗ Φ
    match t with
    | E => (IS_EMPTY, None, false)
    | _ => let '(_, t', b) := locate k [] t in (SUCCESS, ptr_of t', b)
    end) ⊢
  wp (search fuel (ptr_of t) k) Φ.
Proof.
  iIntros (Hw Hh) "[Ht HΦ]". unfold search. destruct (tree_dec t) as [->|Hne].
  { cbn [ptr_of]. wp_steps. by iApply "HΦ". }
  rewrite match_ptr // match_tree //. wp_steps. iApply (wp_search_loop fuel k t par []); [done..|].
  iFrame "Ht". iIntros "Ht". destruct (locate k [] t) as [[c' t'] b]. wp_steps. by iApply "HΦ".
Qed.

(** a node of the tree is opened along its path *)
Lemma is_tree_focus t c t' :
  plug c t' = plug [] t →
  is_tree t None ⊣⊢ is_tree t' (ctx_ptr c) ∗ is_ctx c (ptr_of t').
Proof. simpl. intros <-. apply is_tree_plug. Qed.

Lemma wp_find_key fuel h k t (Φ : option T → heapPropI (CNode T)) :
  wf h t → height t ≤ fuel →
  is_tree t None ∗ (∀ o, is_tree t None -∗ ⟨match o with
    | Some s => s ∈ keys t ∧ key_eq k s
    | None => ∀ s, s ∈ keys t → ¬ key_eq k s
    end⟩ -∗ Φ o) ⊢
  wp (find_key fuel (ptr_of t) k) Φ.
Proof.
  iIntros ([Hb Hw Ho] Hh) "[Ht HΦ]". unfold find_key, find. wp_steps.
  iApply wp_search; [done..|]. iFrame "Ht". iIntros "Ht".
  destruct (tree_dec t) as [->|Hne].
  { wp_steps. iApply ("HΦ" with "Ht"). iPureIntro. simpl. set_solver. }
  rewrite match_tree //.
  pose proof (locate_spec h k [] t Hb Hw Ho Hne ltac:(constructor) ltac:(constructor)) as Hloc.
  destruct (locate k [] t) as [[c' t'] b]. destruct Hloc as [Hplug [Hn Hl Hr Hf]].
  iDestruct (is_tree_focus t c' t' with "Ht") as "[Ht Hc]"; [done|].
  assert (keys t = ctx_left c' ++ keys t' ++ ctx_right c') as Hkeys.
  { rewrite -keys_plug Hplug //. }
  assert (is_tree t' (ctx_ptr c') ∗ is_ctx c' (ptr_of t') ⊢ is_tree t None) as Hclose.
  { rewrite (is_tree_focus t c' t') //. }
  wp_steps. destruct b; wp_steps.
  - destruct t' as [|n l s r|n l s m s' r|]; try done; open_trees; cbn [ptr_of]; simpl in Hf.
    + destruct (TCompare_cases k s) as [[Hc _]|[[Hc _]|[Hc _]]]; wp_steps; rewrite ?Hc; simpl.
      all: try (apply TCompare_EQUAL in Hf; by rewrite Hc in Hf).
      wp_steps. iApply ("HΦ" with "[-]").
      * iApply Hclose. trees_done.
      * iPureIntro. rewrite Hkeys. set_solver.
    + destruct (TCompare_cases k s) as [[Hc He]|[[Hc He]|[Hc He]]]; wp_steps; rewrite ?Hc; simpl.
      3: { wp_steps. iApply ("HΦ" with "[-]").
           - iApply Hclose. trees_done.
           - iPureIntro. rewrite Hkeys. set_solver. }
      all: assert (key_eq k s') as He'
        by (destruct Hf as [Hf|Hf]; [apply TCompare_EQUAL in Hf; by rewrite Hc in Hf|done]).
      all: apply TCompare_EQUAL in He' as Hc'.
      all: wp_steps; rewrite Hc'; wp_steps; cbn [deref]; wp_steps.
      all: iApply ("HΦ" with "[-]"); [iApply Hclose; trees_done|].
      all: iPureIntro; rewrite Hkeys; set_solver.
  - iApply ("HΦ" with "[-]"); [iApply Hclose; iFrame|]. iPureIntro.
    destruct Hf as [Hleaf Hf]. rewrite Hkeys. intros s.
    rewrite !elem_of_app. intros [Hs|[Hs|Hs]] He.
    + eapply Forall_forall in Hl; [|done]. rewrite He in Hl. by apply key_lt_irrefl in Hl.
    + destruct t' as [|? ? ? ?|? ? ? ? ? ?|]; simpl in Hleaf, Hf, Hs; try done.
      * destruct Hleaf as [-> ->]. set_solver.
      * destruct Hleaf as (-> & -> & ->). set_solver.
    + eapply Forall_forall in Hr; [|done]. rewrite He in Hr. by apply key_lt_irrefl in Hr.
Qed.
End locate.
