(* ===== verification/TwoThreeInsert.v ===== *)
(** Inserting a key into a 2-3 tree: [insert], [add] and [split] of CTree.h. *)

From iris.proofmode Require Import proofmode environments coq_tactics reduction.
From S2P Require Import Prelude Heap HeapTactics CNode CTree TwoThree TwoThreeSpine TwoThreeSearch.

Section insert_rules.
Context {T : Type} `{KO : KeyOrder T}.
Implicit Types (t l m r A B : tree T) (f : frame T) (c : list (frame T)) (k s : T) (par : ptr).

Lemma wp_getParent t par Φ :
  t ≠ E → is_tree t par ∗ (is_tree t par -∗ Φ par) ⊢ wp (getParent (ptr_of t)) Φ.
Proof.
  destruct t as [|n l k r|n l k1 m k2 r|n t]; [done|..]; iIntros (_) "[Ht HΦ]"; open_trees;
    cbn [ptr_of]; wp_steps; iApply "HΦ"; trees_done.
Qed.

Lemma wp_new_CNode3 A B k pa pb (Φ : ptr → heapPropI (CNode T)) :
  is_tree A pa ∗ is_tree B pb ∗ (∀ n, is_tree (N2 n A k B) None -∗ Φ (Some n)) ⊢
  wp (new_CNode3 (ptr_of A) (ptr_of B) (Some k)) Φ.
Proof.
  iIntros "(HA & HB & HΦ)". unfold new_CNode3. wp_bind. iApply wp_new. iIntros (n) "Hn".
  wp_steps. iApply "HΦ". unfold fresh_node. simpl. trees_done.
Qed.

(** splitting a three-node whose child [B] got the sibling [A] on its left *)
Lemma wp_split_l n k1 m k2 r A k B pa par :
  key_lt k k1 → key_lt k k2 →
  is_tree A pa ∗ is_tree B (Some n) ∗ is_frame (F3l n k1 m k2 r) (ptr_of B) par ⊢
  wp (split k (Some n) (ptr_of A)) (λ rs, ∃ n',
    ⟨rs = (SUCCESS, k1, Some n')⟩ ∗ is_tree (N2 n' A k B) None ∗ is_tree (N2 n m k2 r) par).
Proof.
  iIntros (H1 H2) "(HA & HB & Hf)". open_trees. unfold split.
  pose proof (TCompare_lt k k1 H1) as Hc1.
  pose proof (TCompare_lt k k2 H2) as Hc2.
  wp_steps. rewrite ?Hc2 ?Hc1. wp_steps. iApply (wp_new_CNode3 A B). iFrame "HA HB".
  iIntros (n') "HN". wp_steps. iExists n'. iSplit; [done|]. trees_done.
Qed.
Lemma wp_split_m n l k1 k2 r A k B pa par :
  key_lt k1 k → key_lt k k2 →
  is_tree A pa ∗ is_tree B (Some n) ∗ is_frame (F3m n l k1 k2 r) (ptr_of B) par ⊢
  wp (split k (Some n) (ptr_of A)) (λ rs, ∃ n',
    ⟨rs = (SUCCESS, k, Some n')⟩ ∗ is_tree (N2 n' l k1 A) None ∗ is_tree (N2 n B k2 r) par).
Proof.
  iIntros (H1 H2) "(HA & HB & Hf)". open_trees. unfold split.
  pose proof (TCompare_gt k k1 H1) as Hc1. pose proof (TCompare_lt k k2 H2) as Hc2.
  wp_steps. rewrite ?Hc2 ?Hc1. wp_steps. iApply (wp_new_CNode3 l A). iFrame.
  iIntros (n') "HN". wp_steps. iExists n'. iSplit; [done|]. trees_done.
Qed.
Lemma wp_split_r n l k1 m k2 A k B pa par :
  key_lt k2 k →
  is_tree A pa ∗ is_tree B (Some n) ∗ is_frame (F3r n l k1 m k2) (ptr_of B) par ⊢
  wp (split k (Some n) (ptr_of A)) (λ rs, ∃ n',
    ⟨rs = (SUCCESS, k2, Some n')⟩ ∗ is_tree (N2 n' l k1 m) None ∗ is_tree (N2 n A k B) par).
Proof.
  iIntros (H2) "(HA & HB & Hf)". open_trees. unfold split.
  pose proof (TCompare_gt k k2 H2) as Hc2.
  wp_steps. rewrite ?Hc2. wp_steps. iApply (wp_new_CNode3 l m). iFrame.
  iIntros (n') "HN". wp_steps. iExists n'. iSplit; [done|]. trees_done.
Qed.

(** what an insertion that reached the path [c] leaves: the keys [ks] *)
Definition inserted (ks : list T) (rs : Z * ptr) : heapPropI (CNode T) :=
  ∃ h t, ⟨balanced h t ∧ whole t ∧ keys t = ks ∧ rs = (SUCCESS, ptr_of t)⟩ ∗ is_tree t None.

(** the child [B] of the path [c] got the sibling [A] on its left, with the
    key [k] in between *)
Record pending h c A k B : Prop := {
  pend_left : balanced h A ∧ whole A;
  pend_right : balanced h B ∧ whole B;
  pend_path : ctx_balanced h c ∧ ctx_whole c;
  pend_ordered : ordered (ctx_left c ++ keys A ++ k :: keys B ++ ctx_right c);
}.
Definition pending_keys c A k B : list T := ctx_left c ++ keys A ++ k :: keys B ++ ctx_right c.

Lemma pending_lt h c A k B :
  pending h c A k B → all_lt (ctx_left c) k ∧ all_gt (ctx_right c) k.
Proof.
  intros [_ _ _ Ho]. rewrite app_assoc in Ho. apply ordered_middle in Ho as (_ & Hl & Hr).
  apply all_lt_app in Hl as [? _]. by apply all_gt_app in Hr as [_ ?].
Qed.

Definition three_frame f : Prop :=
  match f with F2l _ _ _ | F2r _ _ _ => False | _ => True end.

(** the finished tree of an insertion *)
Lemma inserted_plug h c t root ks :
  balanced h t → ctx_balanced h c → whole t → ctx_whole c →
  ks = ctx_left c ++ keys t ++ ctx_right c → root = ptr_of (plug c t) →
  is_tree t (ctx_ptr c) ∗ is_ctx c (ptr_of t) ⊢ inserted ks (SUCCESS, root).
Proof.
  iIntros (Hb Hc Hw Hcw -> ->) "H". iExists (h + length c), (plug c t).
  rewrite is_tree_plug. iFrame. iPureIntro.
  split_and!; [by apply balanced_plug|by apply whole_plug|by rewrite keys_plug|done].
Qed.

Lemma wp_insert_up again root h c A k B pa :
  B ≠ E → pending h c A k B →
  (∀ f c', c = f :: c' → three_frame f →
     is_tree A pa ∗ is_tree B (Some (frame_loc f)) ∗ is_frame f (ptr_of B) (ctx_ptr c') ∗
     is_ctx c' (Some (frame_loc f)) ⊢
     wp (again k (Some (frame_loc f)) (ptr_of A)) (inserted (pending_keys c A k B))) →
  root = ptr_of (plug c B) →
  is_tree A pa ∗ is_tree B (ctx_ptr c) ∗ is_ctx c (ptr_of B) ⊢
  wp (insert_up again root k (ptr_of B) (ptr_of A)) (inserted (pending_keys c A k B)).
Proof.
  intros HB Hp Hagain ->. destruct (pending_lt _ _ _ _ _ Hp) as [Hlt Hgt].
  destruct Hp as [[HbA HwA] [HbB HwB] [Hcb Hcw] Ho].
  iIntros "(HA & HB & Hc)". unfold insert_up. wp_bind. iApply (wp_getParent B); [done|].
  iFrame "HB". iIntros "HB". destruct c as [|f c].
  { rewrite is_ctx_nil. cbn [ctx_ptr head fmap option_fmap option_map]. wp_steps.
    iApply (wp_new_CNode3 A B). iFrame "HA HB". iIntros (n) "HN". wp_steps.
    iExists (S h), (N2 n A k B). iFrame. iPureIntro. unfold pending_keys. simpl. rewrite app_nil_r //. }
  destruct Hcb as [Hfb Hcb]. apply Forall_cons in Hcw as [Hfw Hcw].
  rewrite is_ctx_cons. iDestruct "Hc" as "[Hf Hc]". cbn [ctx_ptr head fmap option_fmap option_map].
  destruct f as [p s r|p l s|p k1 m k2 r|p l k1 k2 r|p l k1 m k2]; cbn [frame_loc].
  - simpl in Hgt. apply all_gt_cons in Hgt as [Hs _]. pose proof (TCompare_lt k s Hs) as Hcs.
    open_trees. wp_steps. unfold add. wp_steps.
    iApply (inserted_plug (S h) c (N3 p A k B s r)); [naive_solver..| | |].
    + unfold pending_keys. keys_eq.
    + cbn [plug]. by apply ptr_of_plug.
    + trees_done.
  - simpl in Hlt. rewrite !all_lt_app all_lt_cons in Hlt. destruct Hlt as (_ & _ & Hs & _).
    pose proof (TCompare_gt k s Hs) as Hcs.
    open_trees. wp_steps. unfold add. wp_steps.
    iApply (inserted_plug (S h) c (N3 p l s A k B)); [naive_solver..| | |].
    + unfold pending_keys. keys_eq.
    + cbn [plug]. by apply ptr_of_plug.
    + trees_done.
  - iDestruct "Hf" as "(Hp & H1 & H2)". unfold node3. wp_steps.
    iApply (Hagain (F3l p k1 m k2 r) c); [done..|]. iFrame.
  - iDestruct "Hf" as "(Hp & H1 & H2)". unfold node3. wp_steps.
    iApply (Hagain (F3m p l k1 k2 r) c); [done..|]. iFrame.
  - iDestruct "Hf" as "(Hp & H1 & H2)". unfold node3. wp_steps.
    iApply (Hagain (F3r p l k1 m k2) c); [done..|]. iFrame.
Qed.

(** [split] at the three-node [f] moves the pending insertion one level up *)
Lemma wp_split f h c A k B pa par :
  three_frame f → pending h (f :: c) A k B →
  is_tree A pa ∗ is_tree B (Some (frame_loc f)) ∗ is_frame f (ptr_of B) par ⊢
  wp (split k (Some (frame_loc f)) (ptr_of A)) (λ rs, ∃ X up Y,
    ⟨rs = (SUCCESS, up, ptr_of X) ∧ ptr_of Y = Some (frame_loc f) ∧ pending (S h) c X up Y ∧
     pending_keys c X up Y = pending_keys (f :: c) A k B⟩ ∗
    is_tree X None ∗ is_tree Y par).
Proof.
  intros Hf Hp. destruct (pending_lt _ _ _ _ _ Hp) as [Hlt Hgt].
  destruct Hp as [[HbA HwA] [HbB HwB] [[Hfb Hcb] Hcw] Ho]. apply Forall_cons in Hcw as [Hfw Hcw].
  assert (∀ X up Y, balanced (S h) X ∧ whole X → balanced (S h) Y ∧ whole Y →
    pending_keys c X up Y = pending_keys (f :: c) A k B → pending (S h) c X up Y) as Hpend.
  { intros X up Y ?? Hk. split; try done. unfold pending_keys in Hk. by rewrite Hk. }
  unfold ordered in Ho.
  destruct f as [| |p k1 m k2 r|p l k1 k2 r|p l k1 m k2]; [done..| | |]; cbn [frame_loc]; iIntros "H".
  - simpl in Hgt. rewrite all_gt_cons -app_assoc all_gt_app /= all_gt_cons in Hgt.
    destruct Hgt as (H1 & _ & H2 & _).
    iApply wp_wand. iSplitL; [by iApply (wp_split_l with "H")|].
    iIntros (rs) "(%n' & -> & HX & HY)". iExists (N2 n' A k B), k1, (N2 p m k2 r). iFrame.
    assert (pending_keys c (N2 n' A k B) k1 (N2 p m k2 r) =
            pending_keys (F3l p k1 m k2 r :: c) A k B) as Hk by (unfold pending_keys; keys_eq).
    iPureIntro. split_and!; [done|done| |done]. apply Hpend; [simpl in *; naive_solver..|done].
  - simpl in Hgt, Hlt. rewrite all_gt_cons in Hgt. rewrite !all_lt_app all_lt_cons in Hlt.
    destruct Hgt as (H2 & _), Hlt as (_ & _ & H1 & _).
    iApply wp_wand. iSplitL; [by iApply (wp_split_m with "H")|].
    iIntros (rs) "(%n' & -> & HX & HY)". iExists (N2 n' l k1 A), k, (N2 p B k2 r). iFrame.
    assert (pending_keys c (N2 n' l k1 A) k (N2 p B k2 r) =
            pending_keys (F3m p l k1 k2 r :: c) A k B) as Hk by (unfold pending_keys; keys_eq).
    iPureIntro. split_and!; [done|done| |done]. apply Hpend; [simpl in *; naive_solver..|done].
  - simpl in Hlt. rewrite !all_lt_app all_lt_cons all_lt_app all_lt_cons in Hlt.
    destruct Hlt as (_ & _ & _ & _ & H1 & _).
    iApply wp_wand. iSplitL; [by iApply (wp_split_r with "H")|].
    iIntros (rs) "(%n' & -> & HX & HY)". iExists (N2 n' l k1 m), k2, (N2 p A k B). iFrame.
    assert (pending_keys c (N2 n' l k1 m) k2 (N2 p A k B) =
            pending_keys (F3r p l k1 m k2 :: c) A k B) as Hk by (unfold pending_keys; keys_eq).
    iPureIntro. split_and!; [done|done| |done]. apply Hpend; [simpl in *; naive_solver..|done].
Qed.

Lemma wp_insert_loop fuel f h c A k B pa root :
  three_frame f → pending h (f :: c) A k B → length c < fuel → root = ptr_of (plug (f :: c) B) →
  is_tree A pa ∗ is_tree B (Some (frame_loc f)) ∗ is_frame f (ptr_of B) (ctx_ptr c) ∗
  is_ctx c (Some (frame_loc f)) ⊢
  wp (insert_loop fuel root k (Some (frame_loc f)) (ptr_of A)) (inserted (pending_keys (f :: c) A k B)).
Proof.
  revert f h c A k B pa. induction fuel as [|fuel IH]; intros f h c A k B pa Hf Hp Hl ->; [lia|].
  iIntros "(HA & HB & Hf & Hc)". cbn [insert_loop]. wp_bind. iApply wp_wand.
  iSplitR "Hc"; [iApply (wp_split f h c A k B); [done..|iFrame]|].
  iIntros (rs) "(%X & %up & %Y & %Hsplit & HX & HY)".
  destruct Hsplit as (-> & HY & Hp' & <-). wp_steps.
  rewrite -HY. iApply (wp_insert_up _ _ (S h) c X up Y None).
  - by destruct Y.
  - done.
  - intros g c' -> Hg. iIntros "H". simpl in Hl. iApply (IH g (S h) c' X up Y None); [done..|lia| |done].
    simpl. apply ptr_of_plug. by rewrite !ptr_of_fill.
  - cbn [plug]. apply ptr_of_plug. by rewrite ptr_of_fill HY.
  - iFrame.
Qed.

(** ** The reference: insertion into an ordered list *)
Fixpoint insert_key k (ks : list T) : list T :=
  match ks with
  | [] => [k]
  | s :: ks' =>
      if ltb s k then s :: insert_key k ks' else if ltb k s then k :: ks else ks
  end.
(** [k] is among the keys *)
Definition has_key k (ks : list T) : bool := existsb (λ s, TCompare k s =? EQUAL)%Z ks.

Lemma has_key_spec k ks : has_key k ks = true ↔ ∃ s, s ∈ ks ∧ key_eq k s.
Proof.
  unfold has_key. rewrite existsb_exists. setoid_rewrite TCompare_EQUAL.
  by setoid_rewrite <-list_elem_of_In.
Qed.
Lemma has_key_located (l : list T) t (r : list T) k : node_has k t → has_key k (l ++ keys t ++ r) = true.
Proof.
  intros Hf. apply has_key_spec. destruct t as [|? ? s ?|? ? s ? s' ?|]; simpl in Hf; try done.
  - exists s. set_solver.
  - destruct Hf; [exists s|exists s']; set_solver.
Qed.
Lemma insert_key_new (l r : list T) k :
  all_lt l k → all_gt r k → insert_key k (l ++ r) = l ++ k :: r.
Proof.
  intros Hl Hr. induction Hl as [|x l Hx Hl IH]; simpl.
  - destruct r as [|y r]; simpl; [done|]. apply all_gt_cons in Hr as [Hy _].
    unfold key_lt in Hy. rewrite Hy. destruct (ltb y k) eqn:Hlt; [|done].
    destruct (key_lt_irrefl k). by eapply key_lt_trans.
  - unfold key_lt in Hx. by rewrite Hx IH.
Qed.
Lemma not_has_located (l : list T) t (r : list T) k :
  all_lt l k → all_gt r k → is_leaf t → ¬ node_has k t → has_key k (l ++ keys t ++ r) = false.
Proof.
  intros Hl Hr Hleaf Hnot. apply not_true_iff_false. rewrite has_key_spec. intros (s & Hs & He).
  rewrite !elem_of_app in Hs. destruct Hs as [Hs|[Hs|Hs]].
  - eapply Forall_forall in Hl; [|done]. simpl in Hl. rewrite He in Hl. by apply key_lt_irrefl in Hl.
  - destruct t as [|? ? ? ?|? ? ? ? ? ?|]; simpl in Hleaf, Hnot, Hs; try done.
    + destruct Hleaf as [-> ->]. set_solver.
    + destruct Hleaf as (-> & -> & ->). set_solver.
  - eapply Forall_forall in Hr; [|done]. simpl in Hr. rewrite He in Hr. by apply key_lt_irrefl in Hr.
Qed.
Lemma insert_key_dup ks k : ordered ks → has_key k ks = true → insert_key k ks = ks.
Proof.
  rewrite has_key_spec. induction ks as [|x ks IH]; intros Ho (s & Hs & He); [set_solver|].
  simpl. apply ordered_cons in Ho as [Ho Hx]. apply elem_of_cons in Hs as [->|Hs].
  - destruct He as [Hkx Hxk]. by rewrite Hxk Hkx.
  - assert (key_lt x k) as Hlt.
    { rewrite He. by eapply Forall_forall in Hx. }
    unfold key_lt in Hlt. rewrite Hlt IH //. eauto.
Qed.
Lemma not_has_key (l r : list T) k : all_lt l k → all_gt r k → has_key k (l ++ r) = false.
Proof.
  intros Hl Hr. apply not_true_iff_false. rewrite has_key_spec. intros (s & Hs & He).
  apply elem_of_app in Hs as [Hs|Hs].
  - eapply Forall_forall in Hl; [|done]. simpl in Hl. rewrite He in Hl. by apply key_lt_irrefl in Hl.
  - eapply Forall_forall in Hr; [|done]. simpl in Hr. rewrite He in Hr. by apply key_lt_irrefl in Hr.
Qed.
Lemma insert_key_ordered ks k : ordered ks → ordered (insert_key k ks).
Proof.
  induction ks as [|x ks IH]; intros Ho; simpl; [by repeat constructor|].
  apply ordered_cons in Ho as [Ho Hx].
  destruct (ltb x k) eqn:Hxk; [|destruct (ltb k x) eqn:Hkx]; rewrite ordered_cons.
  - split; [auto|]. clear IH Ho. induction ks as [|y ks IH]; simpl; [by repeat constructor|].
    apply all_gt_cons in Hx as [Hxy Hx].
    destruct (ltb y k); [|destruct (ltb k y)]; rewrite ?all_gt_cons; auto.
  - split; [by apply ordered_cons|]. apply all_gt_cons. split; [done|by eapply all_gt_trans].
  - done.
Qed.

Lemma key_split (l r ks : list T) k :
  ks = l ++ r → all_lt l k → all_gt r k →
  insert_key k ks = l ++ k :: r ∧ has_key k ks = false.
Proof. intros -> ??. split; [by apply insert_key_new|by apply not_has_key]. Qed.

(** ** insert *)

Definition insert_code k (ks : list T) : Z := if has_key k ks then DUPLICATE_VALUE else SUCCESS.

(** an insertion that reached the three-node [f] above the leaves *)
Lemma wp_insert_leaf fuel h f c k ks root :
  three_frame f → length c < fuel → root = ptr_of (plug (f :: c) E) →
  frame_balanced 0 f → frame_whole f → ctx_balanced 1 c → ctx_whole c → h = length c →
  ks = ctx_left (f :: c) ++ ctx_right (f :: c) →
  all_lt (ctx_left (f :: c)) k → all_gt (ctx_right (f :: c)) k → ordered ks →
  is_tree (fill f E) (ctx_ptr c) ∗ is_ctx c (Some (frame_loc f)) ⊢
  wp (insert_loop fuel root k (Some (frame_loc f)) None) (λ rs, ∃ h' t',
    ⟨wf h' t' ∧ keys t' = insert_key k ks ∧ rs = (insert_code k ks, ptr_of t')⟩ ∗
    is_tree t' None).
Proof.
  iIntros (Hf Hl -> Hbf Hwf Hbc Hwc -> Hks Hlt Hgt Ho) "[Ht Hc]". unfold insert_code.
  pose proof (insert_key_ordered ks k Ho) as Ho'.
  destruct (key_split _ _ _ _ Hks Hlt Hgt) as [Hik ->].
  rewrite is_tree_fill. iDestruct "Ht" as "[Ht Hf]".
  iApply wp_wand. iSplitL.
  { iApply (wp_insert_loop fuel f 0 c E k E None); [done| |done|done|].
    - split; [done|done|split; [by split|by constructor]|]. simpl in *. by rewrite -Hik.
    - cbn [ptr_of]. rewrite !is_tree_E !left_id. iFrame. }
  iIntros (rs) "(%h' & %t' & %Ht & Ht)". destruct Ht as (Hb & Hw & Hk & ->).
  iExists h', t'. iFrame. iPureIntro. unfold pending_keys in Hk. simpl in Hk.
  rewrite Hik in Ho'. split_and!; [split|..]; rewrite ?Hk ?Hik //.
Qed.

Lemma wp_insert fuel h k t :
  wf h t → height t < fuel →
  is_tree t None ⊢ wp (insert fuel (ptr_of t) k) (λ rs, ∃ h' t',
    ⟨wf h' t' ∧ keys t' = insert_key k (keys t) ∧
     rs = (insert_code k (keys t), ptr_of t')⟩ ∗ is_tree t' None).
Proof.
  intros [Hb Hw Ho] Hh. iIntros "Ht". unfold insert, insert_code. destruct (tree_dec t) as [->|Hne].
  { cbn [ptr_of]. wp_bind. iApply wp_new. iIntros (n) "Hn". 
    change (fresh_node None None None) with (mk_CNode (T := T) unset unset None false false None None None).
    wp_steps. unfold add. wp_steps. iExists 1, (N2 n E k E). iSplitR.
    - iPureIntro. split_and!; [split; simpl; auto; by repeat constructor|done|done].
    - trees_done. }
  rewrite match_ptr //. wp_bind. iApply wp_search; [done|lia|]. iFrame "Ht". iIntros "Ht".
  rewrite match_tree //.
  pose proof (locate_spec h k [] t Hb Hw Ho Hne ltac:(constructor) ltac:(constructor)) as Hloc.
  destruct (locate k [] t) as [[c t'] b]. destruct Hloc as [Hplug [Hn Hl Hr Hf]].
  simpl in Hplug. subst t. rewrite is_tree_plug keys_plug. rewrite keys_plug in Ho.
  apply balanced_unplug in Hb as (h' & Hb & Hcb & ->). apply whole_unplug in Hw as [Hw Hcw].
  iDestruct "Ht" as "[Ht Hc]". destruct b.
  { (* the key is in the node *)
    assert (has_key k (ctx_left c ++ keys t' ++ ctx_right c) = true) as Hk.
    { by apply has_key_located. }
    rewrite Hk. assert (is_null (ptr_of t') = false) as Hnull by by destruct t'.
    rewrite Hnull. wp_steps. iExists (h' + length c), (plug c t'). iSplitR.
    - iPureIntro. split_and!; [split|..].
      + by apply balanced_plug.
      + by apply whole_plug.
      + by rewrite keys_plug.
      + by rewrite keys_plug insert_key_dup.
      + done.
    - rewrite is_tree_plug. iFrame. }
  destruct Hf as [Hleaf Hnot].
  destruct t' as [|n l s r|n l s m s' r|]; simpl in Hleaf, Hnot; try done.
  - destruct Hleaf as [-> ->]. destruct h' as [|h']; [done|]. destruct Hb as [Hb _].
    simpl in Hb. subst h'. simpl in Hnot, Ho. set (ks := ctx_left c ++ keys (N2 n E s E) ++ ctx_right c).
    destruct (TCompare_cases k s) as [[Hc Hs]|[[Hc Hs]|[_ Hs]]]; [| |done].
    + destruct (key_split (ctx_left c) (s :: ctx_right c) ks k) as [Hik Hk]; [done|done| |].
      { by apply all_gt_cons. }
      rewrite Hik Hk. open_trees. cbn [ptr_of]. wp_steps. unfold add. wp_steps.
      iExists (1 + length c), (plug c (N3 n E k E s E)). iSplitR.
      * pose proof (insert_key_ordered ks k Ho) as Ho'. rewrite Hik in Ho'. iPureIntro.
        split_and!; [split|..]; rewrite ?keys_plug //; [by apply balanced_plug|by apply whole_plug|].
        f_equal. by apply ptr_of_plug.
      * rewrite is_tree_plug. trees_done.
    + destruct (key_split (ctx_left c ++ [s]) (ctx_right c) ks k) as [Hik Hk]; [| |done|].
      { unfold ks. keys_eq. }
      { apply all_lt_app. split; [done|]. apply all_lt_cons. split; [done|constructor]. }
      rewrite Hik Hk. open_trees. cbn [ptr_of]. wp_steps. unfold add. wp_steps.
      iExists (1 + length c), (plug c (N3 n E s E k E)). iSplitR.
      * pose proof (insert_key_ordered ks k Ho) as Ho'. rewrite Hik -app_assoc in Ho'. iPureIntro.
        split_and!; [split|..]; rewrite ?keys_plug -?app_assoc //;
          [by apply balanced_plug|by apply whole_plug|].
        f_equal. by apply ptr_of_plug.
      * rewrite is_tree_plug. trees_done.
  - destruct Hleaf as (-> & -> & ->). destruct h' as [|h']; [done|]. destruct Hb as [Hb _].
    simpl in Hb. subst h'. simpl in Hnot, Ho. set (ks := ctx_left c ++ keys (N3 n E s E s' E) ++ ctx_right c).
    assert (length c < fuel) as Hfuel.
    { rewrite (balanced_height (1 + length c)) in Hh; [lia|]. by apply (balanced_plug 1). }
    assert (key_lt s s') as Hss'.
    { apply ordered_app in Ho as (_ & Ho & _). apply ordered_cons in Ho as [_ Ho].
      by apply all_gt_cons in Ho as [? _]. }
    open_trees. cbn [ptr_of]. wp_steps.
    destruct (TCompare_cases k s) as [[_ Hs]|[[_ Hs]|[_ Hs]]];
      [| |exfalso; apply Hnot; by left].
    { iApply (wp_insert_leaf fuel _ (F3l n s E s' E) c k ks); try done; simpl.
      - by rewrite app_nil_r.
      - by rewrite app_nil_r.
      - apply all_gt_cons. split; [done|]. apply all_gt_cons. split; [|done].
        by eapply key_lt_trans.
      - trees_done. }
    destruct (TCompare_cases k s') as [[_ Hs']|[[_ Hs']|[_ Hs']]];
      [| |exfalso; apply Hnot; by right].
    { iApply (wp_insert_leaf fuel _ (F3m n E s s' E) c k ks); try done; simpl.
      - unfold ks. keys_eq.
      - apply all_lt_app. split; [done|]. apply all_lt_cons. split; [done|constructor].
      - by apply all_gt_cons.
      - trees_done. }
    { iApply (wp_insert_leaf fuel _ (F3r n E s E s') c k ks); try done; simpl.
      - unfold ks. keys_eq.
      - apply all_lt_app. split; [done|]. rewrite !all_lt_cons. split_and!; [done|done|constructor].
      - trees_done. }
Qed.
End insert_rules.
