(* ===== verification/TwoThreeRepair.v ===== *)
(** Repairing a 2-3 tree next to a hole: [localRotation], [localNodeMerger] and
    [globalNodeMerger] of CTree.h against their effect on trees. *)

From iris.proofmode Require Import proofmode environments coq_tactics reduction.
From S2P Require Import Prelude Heap HeapTactics CNode CTree TwoThree TwoThreeSpine.

(** ** Repairing a hole, on trees *)

Section repair.
Context {T : Type}.
Implicit Types (t l m r : tree T) (f : frame T).

(** a hole [Hole n t] in the frame [f] takes a key from a three-node next to it *)
Definition local_rotation f n t : option (tree T) :=
  match f with
  | F2l p k (N3 q a x b y d) => Some (N2 p (N2 n t k a) x (N2 q b y d))
  | F3l p k1 (N3 q a x b y d) k2 r => Some (N3 p (N2 n t k1 a) x (N2 q b y d) k2 r)
  | F3l p k1 (N2 q a x b) k2 (N3 s c y d z e) =>
      Some (N3 p (N2 n t k1 a) x (N2 q b k2 c) y (N2 s d z e))
  | F3m p l k1 k2 (N3 q a x b y d) => Some (N3 p l k1 (N2 n t k2 a) x (N2 q b y d))
  | F3m p (N3 q a x b y d) k1 k2 r => Some (N3 p (N2 q a x b) y (N2 n d k1 t) k2 r)
  | F2r p (N3 q a x b y d) k => Some (N2 p (N2 q a x b) y (N2 n d k t))
  | F3r p l k1 (N3 q a x b y d) k2 => Some (N3 p l k1 (N2 q a x b) y (N2 n d k2 t))
  | F3r p (N3 q a x b y d) k1 (N2 s e z c) k2 =>
      Some (N3 p (N2 q a x b) y (N2 s d k1 e) z (N2 n c k2 t))
  | _ => None
  end.

(** a hole is merged with a two-node next to it, below a three-node *)
Definition local_merger f n t : option (tree T) :=
  match f with
  | F3l p k1 (N2 q a x b) k2 r => Some (N2 p (N3 n t k1 a x b) k2 r)
  | F3m p (N2 q a x b) k1 k2 r => Some (N2 p (N3 q a x b k1 t) k2 r)
  | F3r p l k1 (N2 q a x b) k2 => Some (N2 p l k1 (N3 n a x b k2 t))
  | _ => None
  end.

(** a hole is merged with a two-node next to it, below a two-node, which
    becomes a hole *)
Definition global_merger f n t : option (tree T) :=
  match f with
  | F2l p k (N2 q a x b) => Some (Hole p (N3 n t k a x b))
  | F2r p (N2 q a x b) k => Some (Hole p (N3 q a x b k t))
  | _ => None
  end.

(** the repairs keep the keys in order *)
Lemma local_rotation_keys f n t t' :
  local_rotation f n t = Some t' → keys t' = frame_left f ++ keys t ++ frame_right f.
Proof.
  destruct f as [? ? []|? [] ?|? ? [] ? []|? [] ? ? []|? [] ? [] ?]; simpl; try done;
    intros [= <-]; keys_eq.
Qed.
Lemma local_merger_keys f n t t' :
  local_merger f n t = Some t' → keys t' = frame_left f ++ keys t ++ frame_right f.
Proof.
  destruct f as [| |? ? [] ? ?|? [] ? ? ?|? ? ? [] ?]; simpl; try done; intros [= <-]; keys_eq.
Qed.
Lemma global_merger_keys f n t t' :
  global_merger f n t = Some t' → keys t' = frame_left f ++ keys t ++ frame_right f.
Proof.
  destruct f as [? ? []|? [] ?| | |]; simpl; try done; intros [= <-]; keys_eq.
Qed.
(** and the depth of the leaves; the mergers leave a hole in the place of a
    two-node *)
Lemma local_rotation_balanced f n t t' h :
  balanced h t → frame_balanced (S h) f → local_rotation f n t = Some t' →
  balanced (S (S h)) t'.
Proof.
  destruct f as [? ? []|? [] ?|? ? [] ? []|? [] ? ? []|? [] ? [] ?]; simpl; try done;
    intros ?? [= <-]; simpl; naive_solver.
Qed.
Lemma local_merger_balanced f n t t' h :
  balanced h t → frame_balanced (S h) f → local_merger f n t = Some t' →
  balanced (S (S h)) t'.
Proof.
  destruct f as [| |? ? [] ? ?|? [] ? ? ?|? ? ? [] ?]; simpl; try done;
    intros ?? [= <-]; simpl; naive_solver.
Qed.
Lemma global_merger_balanced f n p t t' h :
  balanced h t → frame_balanced (S h) f → global_merger f n t = Some (Hole p t') →
  balanced (S h) t'.
Proof.
  destruct f as [? ? []|? [] ?| | |]; simpl; try done; intros ?? [= _ <-]; simpl; naive_solver.
Qed.
Lemma local_rotation_whole f n t t' :
  whole t → frame_whole f → local_rotation f n t = Some t' → whole t'.
Proof.
  destruct f as [? ? []|? [] ?|? ? [] ? []|? [] ? ? []|? [] ? [] ?]; simpl; try done;
    intros ?? [= <-]; simpl; naive_solver.
Qed.
Lemma local_merger_whole f n t t' :
  whole t → frame_whole f → local_merger f n t = Some t' → whole t'.
Proof.
  destruct f as [| |? ? [] ? ?|? [] ? ? ?|? ? ? [] ?]; simpl; try done;
    intros ?? [= <-]; simpl; naive_solver.
Qed.
Lemma global_merger_whole f n p t t' :
  whole t → frame_whole f → global_merger f n t = Some (Hole p t') → whole t'.
Proof.
  destruct f as [? ? []|? [] ?| | |]; simpl; try done; intros ?? [= _ <-]; simpl; naive_solver.
Qed.
(** one of the repairs applies *)
Lemma repair_applies f n t h :
  frame_balanced (S h) f → frame_whole f → local_rotation f n t = None →
  local_merger f n t = None → ∃ t', global_merger f n t = Some (Hole (frame_loc f) t').
Proof.
  destruct f as [? ? t1|? t1 ?|? ? t1 ? t2|? t1 ? ? t2|? t1 ? t2 ?]; simpl.
  - destruct t1; naive_solver.
  - destruct t1; naive_solver.
  - destruct t1, t2; naive_solver.
  - destruct t1, t2; naive_solver.
  - destruct t1, t2; naive_solver.
Qed.
End repair.

Section local.
Context {T : Type} `{Key T}.
Implicit Types (t l m r : tree T) (f : frame T) (par : ptr).

Lemma wp_localRotation f n t par h :
  frame_balanced (S h) f → frame_whole f →
  is_tree (Hole n t) (Some (frame_loc f)) ∗ is_frame f (Some n) par ⊢
  wp (localRotation (Some n)) (λ rc,
    match local_rotation f n t with
    | Some t' => ⟨rc = SUCCESS⟩ ∗ is_tree t' par
    | None => ⟨rc = FAILURE⟩ ∗ is_tree (Hole n t) (Some (frame_loc f)) ∗ is_frame f (Some n) par
    end).
Proof.
  intros Hb Hw. unfold localRotation.
  destruct f as [p k r|p l k|p k1 m k2 r|p l k1 k2 r|p l k1 m k2]; simpl in Hb, Hw.
  - node_cases Hb Hw; iIntros "[? ?]"; open_trees; simpl; wp_steps; trees_done.
  - node_cases Hb Hw; iIntros "[? ?]"; open_trees; simpl; wp_steps; trees_done.
  - destruct Hb as [Hb1 Hb2], Hw as [Hw1 Hw2]. node_cases Hb1 Hw1; node_cases Hb2 Hw2;
      iIntros "[? ?]"; open_trees; simpl; wp_steps; trees_done.
  - destruct Hb as [Hb1 Hb2], Hw as [Hw1 Hw2]. node_cases Hb1 Hw1; node_cases Hb2 Hw2;
      iIntros "[? ?]"; open_trees; simpl; wp_steps; trees_done.
  - destruct Hb as [Hb1 Hb2], Hw as [Hw1 Hw2]. node_cases Hb1 Hw1; node_cases Hb2 Hw2;
      iIntros "[? ?]"; open_trees; simpl; wp_steps; trees_done.
Qed.

Lemma wp_localNodeMerger f n t par h :
  frame_balanced (S h) f → frame_whole f → local_rotation f n t = None →
  is_tree (Hole n t) (Some (frame_loc f)) ∗ is_frame f (Some n) par ⊢
  wp (localNodeMerger (Some n)) (λ rc,
    match local_merger f n t with
    | Some t' => ⟨rc = SUCCESS⟩ ∗ is_tree t' par
    | None => ⟨rc = FAILURE⟩ ∗ is_tree (Hole n t) (Some (frame_loc f)) ∗ is_frame f (Some n) par
    end).
Proof.
  intros Hb Hw Hrot. unfold localNodeMerger.
  destruct f as [p k r|p l k|p k1 m k2 r|p l k1 k2 r|p l k1 m k2]; simpl in Hb, Hw, Hrot.
  - node_cases Hb Hw; [|done]. iIntros "[? ?]"; open_trees; simpl; wp_steps; trees_done.
  - node_cases Hb Hw; [|done]. iIntros "[? ?]"; open_trees; simpl; wp_steps; trees_done.
  - destruct Hb as [Hb1 Hb2], Hw as [Hw1 Hw2]. node_cases Hb1 Hw1; node_cases Hb2 Hw2; try done.
    iIntros "[? ?]"; open_trees; simpl; wp_steps; trees_done.
  - destruct Hb as [Hb1 Hb2], Hw as [Hw1 Hw2]. node_cases Hb1 Hw1; node_cases Hb2 Hw2; try done.
    iIntros "[? ?]"; open_trees; simpl; wp_steps; trees_done.
  - destruct Hb as [Hb1 Hb2], Hw as [Hw1 Hw2]. node_cases Hb1 Hw1; node_cases Hb2 Hw2; try done.
    iIntros "[? ?]"; open_trees; simpl; wp_steps; trees_done.
Qed.

Lemma wp_globalNodeMerger f n t par h :
  frame_balanced (S h) f → frame_whole f →
  local_rotation f n t = None → local_merger f n t = None →
  is_tree (Hole n t) (Some (frame_loc f)) ∗ is_frame f (Some n) par ⊢
  wp (globalNodeMerger (Some n)) (λ rp,
    ∃ t', ⟨global_merger f n t = Some (Hole (frame_loc f) t') ∧
           rp = (SUCCESS, Some (frame_loc f))⟩ ∗
          is_tree (Hole (frame_loc f) t') par).
Proof.
  intros Hb Hw Hrot Hmrg. unfold globalNodeMerger.
  destruct f as [p k r|p l k|p k1 m k2 r|p l k1 k2 r|p l k1 m k2]; simpl in Hb, Hw, Hrot, Hmrg.
  - node_cases Hb Hw; [|done]. iIntros "[? ?]"; open_trees; simpl; wp_steps.
    iExists _. iSplit; [done|]. trees_done.
  - node_cases Hb Hw; [|done]. iIntros "[? ?]"; open_trees; simpl; wp_steps.
    iExists _. iSplit; [done|]. trees_done.
  - destruct Hb as [Hb1 Hb2], Hw as [Hw1 Hw2]. node_cases Hb1 Hw1; node_cases Hb2 Hw2; done.
  - destruct Hb as [Hb1 Hb2], Hw as [Hw1 Hw2]. node_cases Hb1 Hw1; node_cases Hb2 Hw2; done.
  - destruct Hb as [Hb1 Hb2], Hw as [Hw1 Hw2]. node_cases Hb1 Hw1; node_cases Hb2 Hw2; done.
Qed.
End local.
