(* ===== verification/TwoThreeDelete.v ===== *)
(** Deleting an item of a 2-3 tree: [globalRotation], [deleteItem]. *)

From iris.proofmode Require Import proofmode environments coq_tactics reduction.
From S2P Require Import Prelude Heap HeapTactics CNode CTree TwoThree TwoThreeSpine TwoThreeRepair.

(** ** Rotation over the root, on trees *)

Section global.
Context {T : Type}.
Implicit Types (t l m r : tree T) (f : frame T).

(** a leaf with two keys gives its first (last) key away; a hole takes a key *)
Definition give_first t : option (T * tree T) :=
  match t with N3 n E x E y E => Some (x, N2 n E y E) | _ => None end.
Definition give_last t : option (T * tree T) :=
  match t with N3 n E x E y E => Some (y, N2 n E x E) | _ => None end.
Definition take (k : T) t : tree T :=
  match t with Hole n t => N2 n t k E | _ => t end.

Definition or_else {A} (o o' : option A) : option A :=
  match o with Some a => Some a | None => o' end.

(** the hole at [p] is the last node of [l] and takes the key [k] between [l]
    and [r], which is replaced with the first key of [r]; and the other way
    around *)
Definition shift_left p l (k : T) r : option (tree T * T * tree T) :=
  if Some p =p? ptr_of (last_node l) then
    '(x, g) ← give_first (first_node r);
    Some (set_last l (take k (last_node l)), x, set_first r g)
  else None.
Definition shift_right p l (k : T) r : option (tree T * T * tree T) :=
  if Some p =p? ptr_of (first_node r) then
    '(x, g) ← give_last (last_node l);
    Some (set_last l g, x, set_first r (take k (first_node r)))
  else None.

(** a hole takes a key of the root [t], which takes one of a leaf *)
Definition global_rotation p t : option (tree T) :=
  match t with
  | N2 n l k r =>
      or_else ('(l, k, r) ← shift_right p l k r; Some (N2 n l k r))
              ('(l, k, r) ← shift_left p l k r; Some (N2 n l k r))
  | N3 n l k1 m k2 r =>
      or_else ('(l, k1, m) ← shift_left p l k1 m; Some (N3 n l k1 m k2 r))
      (or_else ('(l, k1, m) ← shift_right p l k1 m; Some (N3 n l k1 m k2 r))
      (or_else ('(m, k2, r) ← shift_left p m k2 r; Some (N3 n l k1 m k2 r))
               ('(m, k2, r) ← shift_right p m k2 r; Some (N3 n l k1 m k2 r))))
  | _ => None
  end.

Lemma hole_last p t0 t :
  t ≠ E → marked p t0 t → ptr_of (last_node t) = Some p → last_node t = Hole p t0.
Proof.
  intros Ht Hm Hp. pose proof (last_node_ne t Ht) as Hne.
  pose proof (last_marked p t0 t Ht Hm) as Hm'.
  destruct (last_node t); simpl in *; [done|naive_solver..].
Qed.
Lemma hole_first p t0 t :
  t ≠ E → marked p t0 t → ptr_of (first_node t) = Some p → first_node t = Hole p E.
Proof.
  intros Ht Hm Hp. pose proof (first_node_ne t Ht) as Hne.
  pose proof (first_marked p t0 t Ht Hm) as Hm'. pose proof (first_shape t Ht) as Hs.
  destruct (first_node t); simpl in *; naive_solver.
Qed.
Lemma three_last h t :
  t ≠ E → balanced h t → is_three (last_node t) = true →
  ∃ n x y, last_node t = N3 n E x E y E.
Proof.
  intros Ht Hb Hp. destruct (last_balanced h t Ht Hb) as (h' & Hb' & _).
  pose proof (last_shape t Ht) as Hs.
  destruct (last_node t) as [| |n l x m y r|]; try done. subst r.
  destruct Hb' as (Hl & Hm & Hr). simpl in Hr. subst h'.
  apply balanced_0 in Hl as ->. apply balanced_0 in Hm as ->. eauto.
Qed.
Lemma three_first h t :
  t ≠ E → balanced h t → is_three (first_node t) = true →
  ∃ n x y, first_node t = N3 n E x E y E.
Proof.
  intros Ht Hb Hp. destruct (first_balanced h t Ht Hb) as (h' & Hb' & _).
  pose proof (first_shape t Ht) as Hs.
  destruct (first_node t) as [| |n l x m y r|]; try done. subst l.
  destruct Hb' as (Hl & Hm & Hr). simpl in Hl. subst h'.
  apply balanced_0 in Hr as ->. apply balanced_0 in Hm as ->. eauto.
Qed.
Lemma not_three_last t : is_three (last_node t) = false → give_last (last_node t) = None.
Proof. by destruct (last_node t). Qed.
Lemma not_three_first t : is_three (first_node t) = false → give_first (first_node t) = None.
Proof. by destruct (first_node t). Qed.

(** the subtrees keep their addresses *)
Lemma shift_right_ptrs p l k r l' x r' :
  l ≠ E → r ≠ E → shift_right p l k r = Some (l', x, r') →
  ptr_of l' = ptr_of l ∧ ptr_of r' = ptr_of r.
Proof.
  intros Hl Hr. unfold shift_right. case_match; [|done].
  destruct (give_last (last_node l)) as [[y g]|] eqn:Hg; [|done]. intros [= <- <- <-]. split.
  - apply ptr_of_set_last; [done|].
    destruct (last_node l) as [| |n [] a [] b []|]; naive_solver.
  - apply ptr_of_set_first; [done|]. by destruct (first_node r).
Qed.
Lemma shift_left_ptrs p l k r l' x r' :
  l ≠ E → r ≠ E → shift_left p l k r = Some (l', x, r') →
  ptr_of l' = ptr_of l ∧ ptr_of r' = ptr_of r.
Proof.
  intros Hl Hr. unfold shift_left. case_match; [|done].
  destruct (give_first (first_node r)) as [[y g]|] eqn:Hg; [|done]. intros [= <- <- <-]. split.
  - apply ptr_of_set_last; [done|]. by destruct (last_node l).
  - apply ptr_of_set_first; [done|].
    destruct (first_node r) as [| |n [] a [] b []|]; naive_solver.
Qed.

(** the tree after the loop of [deleteItem], for a hole [Hole p t] in the
    context [c] *)
Fixpoint repair (c : list (frame T)) p t : tree T :=
  match c with
  | [] => t
  | f :: c' =>
      match local_rotation f p t with
      | Some t' => plug c' t'
      | None =>
          match global_rotation p (plug c (Hole p t)) with
          | Some t' => t'
          | None =>
              match local_merger f p t with
              | Some t' => plug c' t'
              | None =>
                  match global_merger f p t with
                  | Some (Hole q t') => repair c' q t'
                  | _ => E
                  end
              end
          end
      end
  end.

Lemma local_rotation_ptr f p t t' :
  local_rotation f p t = Some t' → ptr_of t' = Some (frame_loc f).
Proof.
  destruct f as [? ? []|? [] ?|? ? [] ? []|? [] ? ? []|? [] ? [] ?]; simpl; naive_solver.
Qed.
Lemma local_merger_ptr f p t t' :
  local_merger f p t = Some t' → ptr_of t' = Some (frame_loc f).
Proof. destruct f as [| |? ? [] ? ?|? [] ? ? ?|? ? ? [] ?]; simpl; naive_solver. Qed.
Lemma global_rotation_ptr p t t' : global_rotation p t = Some t' → ptr_of t' = ptr_of t.
Proof.
  destruct t as [|n l k r|n l k1 m k2 r|]; simpl; [done|..|done].
  - destruct (shift_right p l k r) as [[[??]?]|], (shift_left p l k r) as [[[??]?]|];
      simpl; naive_solver.
  - destruct (shift_left p l k1 m) as [[[??]?]|], (shift_right p l k1 m) as [[[??]?]|],
      (shift_left p m k2 r) as [[[??]?]|], (shift_right p m k2 r) as [[[??]?]|];
      simpl; naive_solver.
Qed.
(** the root of a path that is not empty is not a hole *)
Lemma plug_root f c t :
  (∃ n l k r, plug (f :: c) t = N2 n l k r) ∨
  (∃ n l k1 m k2 r, plug (f :: c) t = N3 n l k1 m k2 r).
Proof.
  simpl. revert f t; induction c as [|g c IH]; intros f t; simpl; [|apply IH].
  destruct f; simpl; naive_solver.
Qed.
Lemma plug_root_ne p t0 f c t :
  marked p t0 (plug (f :: c) t) → ∃ n, ptr_of (plug (f :: c) t) = Some n ∧ p ≠ n.
Proof.
  destruct (plug_root f c t) as [(n & l & k & r & ->)|(n & l & k1 & m & k2 & r & ->)]; simpl;
    intros [? _]; exists n; auto.
Qed.

(** *** Rotation over the root keeps the keys, and fills the hole *)

Lemma give_last_inv t y g :
  give_last t = Some (y, g) → ∃ n x, t = N3 n E x E y E ∧ g = N2 n E x E.
Proof. destruct t as [| |n [] x [] y' []|]; simpl; naive_solver. Qed.
Lemma give_first_inv t x g :
  give_first t = Some (x, g) → ∃ n y, t = N3 n E x E y E ∧ g = N2 n E y E.
Proof. destruct t as [| |n [] x' [] y' []|]; simpl; naive_solver. Qed.

Lemma shift_right_spec p t0 l k r l' x r' hl hr :
  l ≠ E → r ≠ E → marked p t0 r → shift_right p l k r = Some (l', x, r') →
  balanced hl l → balanced hr r →
  keys l' ++ x :: keys r' = keys l ++ k :: keys r ∧
  S (holes l' + holes r') = holes l + holes r ∧ balanced hl l' ∧ balanced hr r'.
Proof.
  intros Hl Hr Hm. unfold shift_right. case_match eqn:Hp; [|done].
  apply bool_decide_eq_true in Hp. rewrite (hole_first p t0 r Hr Hm (eq_sym Hp)).
  destruct (give_last (last_node l)) as [[y g]|] eqn:Hg; [|done].
  apply give_last_inv in Hg as (n & z & Hn & ->). intros [= <- <- <-] Hbl Hbr.
  destruct (last_keys l Hl) as (pre & Hk & Hkx). destruct (last_holes l Hl) as (a & Ha & Hax).
  destruct (last_balanced hl l Hl Hbl) as (h1 & Hb1 & Hbx).
  destruct (first_keys r Hr) as (post & Hk' & Hkx'). destruct (first_holes r Hr) as (b & Hb & Hb').
  destruct (first_balanced hr r Hr Hbr) as (h2 & Hb2 & Hbx').
  rewrite Hkx Hax Hkx' Hb' Hk Ha Hk' Hb Hn (hole_first p t0 r Hr Hm (eq_sym Hp)). simpl.
  rewrite Hn in Hb1. rewrite (hole_first p t0 r Hr Hm (eq_sym Hp)) in Hb2. simpl in Hb1, Hb2.
  destruct Hb1 as (? & _ & _). subst. split_and!; [by rewrite -!app_assoc|lia|by apply Hbx|by apply Hbx'].
Qed.
(** a hole above the leaves is filled too, but it stays without a right child *)
Lemma shift_left_spec p t0 l k r l' x r' hl hr :
  l ≠ E → r ≠ E → marked p t0 l → shift_left p l k r = Some (l', x, r') →
  balanced hl l → balanced hr r →
  keys l' ++ x :: keys r' = keys l ++ k :: keys r ∧
  S (holes l' + holes r') = holes l + holes r ∧ balanced hr r' ∧ (t0 = E → balanced hl l').
Proof.
  intros Hl Hr Hm. unfold shift_left. case_match eqn:Hp; [|done].
  apply bool_decide_eq_true in Hp.
  destruct (give_first (first_node r)) as [[y g]|] eqn:Hg; [|done].
  apply give_first_inv in Hg as (n & z & Hn & ->). intros [= <- <- <-] Hbl Hbr.
  pose proof (hole_last p t0 l Hl Hm (eq_sym Hp)) as Ht.
  destruct (last_keys l Hl) as (pre & Hk & Hkx). destruct (last_holes l Hl) as (a & Ha & Hax).
  destruct (last_balanced hl l Hl Hbl) as (h1 & Hb1 & Hbx).
  destruct (first_keys r Hr) as (post & Hk' & Hkx'). destruct (first_holes r Hr) as (b & Hb & Hb').
  destruct (first_balanced hr r Hr Hbr) as (h2 & Hb2 & Hbx').
  rewrite Hkx Hax Hkx' Hb' Hk Ha Hk' Hb Hn Ht. simpl.
  rewrite Hn in Hb2. rewrite Ht in Hb1. simpl in Hb1, Hb2. destruct Hb2 as (? & _ & _). subst h2.
  split_and!; [|lia|by apply Hbx'|].
  - keys_eq.
  - intros ->. apply Hbx. simpl in *. by subst.
Qed.

Lemma global_rotation_spec p t0 h t t' :
  balanced (S (S h)) t → marked p t0 t → global_rotation p t = Some t' →
  keys t' = keys t ∧ S (holes t') = holes t ∧ (t0 = E → balanced (S (S h)) t').
Proof.
  destruct t as [|n l k r|n l k1 m k2 r|n t]; try done; cbn [balanced marked global_rotation].
  - intros [Hl Hr] (_ & Hml & Hmr).
    assert (l ≠ E) by (by intros ->). assert (r ≠ E) by (by intros ->).
    destruct (shift_right p l k r) as [[[l' x] r']|] eqn:Hs1; simpl.
    { intros [= <-]. destruct (shift_right_spec p t0 l k r l' x r' (S h) (S h)) as (? & ? & ? & ?);
        [done..|]. simpl. naive_solver. }
    destruct (shift_left p l k r) as [[[l' x] r']|] eqn:Hs2; simpl; [|done].
    intros [= <-]. destruct (shift_left_spec p t0 l k r l' x r' (S h) (S h)) as (? & ? & ? & ?);
      [done..|]. simpl. naive_solver.
  - intros (Hl & Hm & Hr) (_ & Hml & Hmm & Hmr).
    assert (l ≠ E) by (by intros ->). assert (m ≠ E) by (by intros ->).
    assert (r ≠ E) by (by intros ->).
    destruct (shift_left p l k1 m) as [[[l' x] m']|] eqn:Hs1; simpl.
    { intros [= <-]. destruct (shift_left_spec p t0 l k1 m l' x m' (S h) (S h)) as (Hk & ? & ? & ?);
        [done..|]. simpl. split_and!; [|lia|naive_solver].
      by rewrite !app_comm_cons !app_assoc Hk. }
    destruct (shift_right p l k1 m) as [[[l' x] m']|] eqn:Hs2; simpl.
    { intros [= <-]. destruct (shift_right_spec p t0 l k1 m l' x m' (S h) (S h)) as (Hk & ? & ? & ?);
        [done..|]. simpl. split_and!; [|lia|naive_solver].
      by rewrite !app_comm_cons !app_assoc Hk. }
    destruct (shift_left p m k2 r) as [[[m' x] r']|] eqn:Hs3; simpl.
    { intros [= <-]. destruct (shift_left_spec p t0 m k2 r m' x r' (S h) (S h)) as (Hk & ? & ? & ?);
        [done..|]. simpl. split_and!; [by rewrite Hk|lia|naive_solver]. }
    destruct (shift_right p m k2 r) as [[[m' x] r']|] eqn:Hs4; simpl; [|done].
    intros [= <-]. destruct (shift_right_spec p t0 m k2 r m' x r' (S h) (S h)) as (Hk & ? & ? & ?);
      [done..|]. simpl. split_and!; [by rewrite Hk|lia|naive_solver].
Qed.

(** the loop reaches a rotation over the root when the hole is above the
    leaves: the filled node has no right child *)
Fixpoint breaks (c : list (frame T)) p t : bool :=
  match c with
  | [] => false
  | f :: c' =>
      match local_rotation f p t with
      | Some _ => false
      | None =>
          match global_rotation p (plug c (Hole p t)) with
          | Some _ => bool_decide (ptr_of t ≠ None)
          | None =>
              match local_merger f p t with
              | Some _ => false
              | None =>
                  match global_merger f p t with
                  | Some (Hole q t') => breaks c' q t'
                  | _ => false
                  end
              end
          end
      end
  end.

Lemma holes_plug c t : ctx_whole c → holes (plug c t) = holes t.
Proof.
  intros Hc. revert t. induction Hc as [|f c Hf Hc IH]; intros t; simpl; [done|].
  rewrite IH. destruct f; simpl in *; rewrite ->!whole_holes in Hf; lia.
Qed.

(** what the repair of a hole gives: the keys of the tree, without a hole *)
Definition repaired (c : list (frame T)) p t : Prop :=
  keys (repair c p t) = ctx_left c ++ keys t ++ ctx_right c ∧ whole (repair c p t) ∧
  (breaks c p t = false → ∃ h, balanced h (repair c p t)).

Section repaired.
Context (f : frame T) (c : list (frame T)) (p : loc) (t : tree T) (h : nat).
Context (Hb : balanced h t) (Hw : whole t) (Hf : frame_balanced (S h) f) (Hfw : frame_whole f).
Context (Hc : ctx_balanced (S (S h)) c) (Hcw : ctx_whole c).

Lemma repaired_rotation t' : local_rotation f p t = Some t' → repaired (f :: c) p t.
Proof.
  intros Hr. unfold repaired. cbn [repair breaks]. rewrite Hr. split_and!.
  - rewrite keys_plug (local_rotation_keys f p t t') //. keys_eq.
  - apply whole_plug; [by eapply local_rotation_whole|done].
  - intros _. exists (S (S h) + length c). apply balanced_plug; [|done].
    by eapply local_rotation_balanced.
Qed.
Lemma repaired_global t' :
  local_rotation f p t = None → marked p t (plug (f :: c) (Hole p t)) →
  global_rotation p (plug (f :: c) (Hole p t)) = Some t' → repaired (f :: c) p t.
Proof.
  intros Hr Hm Hg. pose proof (balanced_plug (S h) (f :: c) (Hole p t) Hb (conj Hf Hc)) as Hbp.
  replace (S h + length (f :: c)) with (S (S (h + length c))) in Hbp by (simpl; lia).
  destruct (global_rotation_spec p t (h + length c) _ t' Hbp Hm Hg) as (Hk & Hh & Hb').
  unfold repaired. cbn [repair breaks]. rewrite Hr Hg. split_and!.
  - by rewrite Hk keys_plug.
  - rewrite holes_plug in Hh; [|by constructor]. simpl in Hh.
    apply whole_holes. apply whole_holes in Hw. lia.
  - intros Hn%bool_decide_eq_false. exists (S (S (h + length c))). apply Hb'.
    destruct t; [done|by destruct Hn..].
Qed.
Lemma repaired_merger t' :
  local_rotation f p t = None → global_rotation p (plug (f :: c) (Hole p t)) = None →
  local_merger f p t = Some t' → repaired (f :: c) p t.
Proof.
  intros Hr Hg Hm. unfold repaired. cbn [repair breaks]. rewrite Hr Hg Hm. split_and!.
  - rewrite keys_plug (local_merger_keys f p t t') //. keys_eq.
  - apply whole_plug; [by eapply local_merger_whole|done].
  - intros _. exists (S (S h) + length c). apply balanced_plug; [|done].
    by eapply local_merger_balanced.
Qed.
Lemma repaired_step q t' :
  local_rotation f p t = None → global_rotation p (plug (f :: c) (Hole p t)) = None →
  local_merger f p t = None → global_merger f p t = Some (Hole q t') →
  repaired c q t' → repaired (f :: c) p t.
Proof.
  intros Hr Hg Hm Hgm (Hk & Hw' & Hb'). unfold repaired. cbn [repair breaks].
  rewrite Hr Hg Hm Hgm. split_and!; [|done|done].
  pose proof (global_merger_keys f p t _ Hgm) as Hk'. simpl in Hk'. rewrite Hk Hk'. keys_eq.
Qed.
End repaired.
End global.

Section global_rules.
Context {T : Type} `{Key T}.
Implicit Types (t l m r : tree T) (f : frame T) (par : ptr).

(** the key of the root that is rotated over *)
Definition key_of (big : bool) (v : CNode T) : option T :=
  if big then m_tBigKey v else m_tSmallKey v.
Definition put_key (big : bool) (k : T) (v : CNode T) : CNode T :=
  if big then put_big (Some k) v else put_small (Some k) v.
Definition from_max (big : bool) : ptr → ptr → ptr → prog (CNode T) unit :=
  if big then rotation_big_from_max else rotation_small_from_max.
Definition from_min (big : bool) : ptr → ptr → ptr → prog (CNode T) unit :=
  if big then rotation_big_from_min else rotation_small_from_min.

Lemma wp_shift_right big p t0 hl hr n v l k r next Φ :
  l ≠ E → r ≠ E → balanced hl l → balanced hr r → marked p t0 r → key_of big v = Some k →
  n ↦ v ∗ is_tree l (Some n) ∗ is_tree r (Some n) ∗
  match shift_right p l k r with
  | Some (l', x, r') =>
      n ↦ put_key big x v -∗ is_tree l' (Some n) -∗ is_tree r' (Some n) -∗ Φ SUCCESS
  | None => n ↦ v -∗ is_tree l (Some n) -∗ is_tree r (Some n) -∗ wp next Φ
  end ⊢
  wp (case_of (same (Some p) (ptr_of (first_node r)) &&&
               size_is (ptr_of (last_node l)) threeNode)
        (from_max big (Some n) (ptr_of (first_node r)) (ptr_of (last_node l))) next) Φ.
Proof.
  intros Hl Hr Hbl Hbr Hm Hk. destruct v as [s b pv bs ss pl pm pr]. iIntros "(Hn & Hl & Hr & HΦ)".
  unfold shift_right. wp_steps.
  destruct (Some p =p? ptr_of (first_node r)) eqn:Hf; wp_steps;
    [|iApply ("HΦ" with "Hn Hl Hr")].
  iApply (wp_last_is_three l); [done|]. iFrame "Hl". iIntros "Hl".
  destruct (is_three (last_node l)) eqn:H3; wp_steps;
    [|rewrite not_three_last //; iApply ("HΦ" with "Hn Hl Hr")].
  destruct (three_last hl l) as (q & x & y & Hq); [done..|].
  apply bool_decide_eq_true in Hf. pose proof (hole_first p t0 r Hr Hm (eq_sym Hf)) as Hp.
  iDestruct (last_focus with "Hl") as (par') "[Hl Hl']"; [done|].
  iDestruct (first_focus with "Hr") as (par'') "[Hr Hr']"; [done|].
  rewrite Hq Hp. open_trees. cbn [ptr_of].
  iAssert (wp (from_max big (Some n) (Some p) (Some q)) (λ _,
    n ↦ put_key big y (mk_CNode s b pv bs ss pl pm pr) ∗
    is_tree (N2 p E k E) par'' ∗ is_tree (N2 q E x E) par'))%I with "[- HΦ Hl' Hr']" as "Hrot".
  { destruct big; simpl in Hk; subst; unfold from_max, put_key; wp_steps; trees_done. }
  iApply wp_wand. iFrame "Hrot". iIntros (?) "(Hn & Hp & Hq)". wp_steps. simpl.
  iApply ("HΦ" with "Hn [Hl' Hq] [Hr' Hp]").
  - iApply ("Hl'" $! (N2 q E x E) with "[%//] Hq").
  - iApply ("Hr'" $! (N2 p E k E) with "[%//] Hp").
Qed.

Lemma wp_shift_left big p t0 hl hr n v l k r next Φ :
  l ≠ E → r ≠ E → balanced hl l → balanced hr r → marked p t0 l → key_of big v = Some k →
  n ↦ v ∗ is_tree l (Some n) ∗ is_tree r (Some n) ∗
  match shift_left p l k r with
  | Some (l', x, r') =>
      n ↦ put_key big x v -∗ is_tree l' (Some n) -∗ is_tree r' (Some n) -∗ Φ SUCCESS
  | None => n ↦ v -∗ is_tree l (Some n) -∗ is_tree r (Some n) -∗ wp next Φ
  end ⊢
  wp (case_of (same (Some p) (ptr_of (last_node l)) &&&
               size_is (ptr_of (first_node r)) threeNode)
        (from_min big (Some n) (ptr_of (last_node l)) (ptr_of (first_node r))) next) Φ.
Proof.
  intros Hl Hr Hbl Hbr Hm Hk. destruct v as [s b pv bs ss pl pm pr]. iIntros "(Hn & Hl & Hr & HΦ)".
  unfold shift_left. wp_steps.
  destruct (Some p =p? ptr_of (last_node l)) eqn:Hf; wp_steps;
    [|iApply ("HΦ" with "Hn Hl Hr")].
  iApply (wp_first_is_three r); [done|]. iFrame "Hr". iIntros "Hr".
  destruct (is_three (first_node r)) eqn:H3; wp_steps;
    [|rewrite not_three_first //; iApply ("HΦ" with "Hn Hl Hr")].
  destruct (three_first hr r) as (q & x & y & Hq); [done..|].
  apply bool_decide_eq_true in Hf. pose proof (hole_last p t0 l Hl Hm (eq_sym Hf)) as Hp.
  iDestruct (last_focus with "Hl") as (par') "[Hl Hl']"; [done|].
  iDestruct (first_focus with "Hr") as (par'') "[Hr Hr']"; [done|].
  rewrite Hq Hp. open_trees. cbn [ptr_of].
  iAssert (wp (from_min big (Some n) (Some p) (Some q)) (λ _,
    n ↦ put_key big x (mk_CNode s b pv bs ss pl pm pr) ∗
    is_tree (N2 p t0 k E) par' ∗ is_tree (N2 q E y E) par''))%I with "[- HΦ Hl' Hr']" as "Hrot".
  { destruct big; simpl in Hk; subst; unfold from_min, put_key; wp_steps; trees_done. }
  iApply wp_wand. iFrame "Hrot". iIntros (?) "(Hn & Hp & Hq)". wp_steps. simpl.
  iApply ("HΦ" with "Hn [Hl' Hp] [Hr' Hq]").
  - iApply ("Hl'" $! (N2 p t0 k E) with "[%//] Hp").
  - iApply ("Hr'" $! (N2 q E y E) with "[%//] Hq").
Qed.

Lemma wp_globalRotation2 p t0 fuel h n l k r :
  let t := N2 n l k r in
  balanced (S (S h)) t → marked p t0 t → height t ≤ S fuel →
  is_tree t None ⊢ wp (globalRotation fuel (ptr_of t) (Some p)) (λ rc,
    match global_rotation p t with
    | Some t' => ⟨rc = SUCCESS⟩ ∗ is_tree t' None
    | None => ⟨rc = FAILURE⟩ ∗ is_tree t None
    end).
Proof.
  intros t [Hl Hr] (Hn & Hml & Hmr) Hh.
  assert (l ≠ E) by (by intros ->). assert (r ≠ E) by (by intros ->).
  simpl in Hh. subst t. iIntros "(%b & %Hs & Hn & Hl & Hr)".
  set (v := node2 k b None (ptr_of l) (ptr_of r)).
  unfold globalRotation. cbn [ptr_of]. wp_steps.
  iApply (wp_getMinNode _ r); [done|lia|]. iFrame "Hr". iIntros "Hr". wp_steps.
  iApply (wp_getMaxNode _ l); [done|lia|]. iFrame "Hl". iIntros "Hl". do 2 wp_step.
  cbn [global_rotation].
  iApply (wp_shift_right false p t0 (S h) (S h) n v l k r); [done..|]. iFrame "Hn Hl Hr".
  destruct (shift_right p l k r) as [[[l' x] r']|] eqn:Hsr; simpl; iIntros "Hn Hl Hr".
  { iSplit; [done|]. destruct (shift_right_ptrs p l k r l' x r') as [Hpl Hpr]; [done..|]. rewrite is_tree_N2 Hpl Hpr. trees_done. }
  iApply (wp_shift_left false p t0 (S h) (S h) n v l k r); [done..|]. iFrame "Hn Hl Hr".
  destruct (shift_left p l k r) as [[[l' x] r']|] eqn:Hsl; simpl; iIntros "Hn Hl Hr".
  { iSplit; [done|]. destruct (shift_left_ptrs p l k r l' x r') as [Hpl Hpr]; [done..|]. rewrite is_tree_N2 Hpl Hpr. trees_done. }
  wp_steps. iSplit; [done|]. trees_done.
Qed.

Lemma wp_globalRotation3 p t0 fuel h n l k1 m k2 r :
  let t := N3 n l k1 m k2 r in
  balanced (S (S h)) t → marked p t0 t → height t ≤ S fuel →
  is_tree t None ⊢ wp (globalRotation fuel (ptr_of t) (Some p)) (λ rc,
    match global_rotation p t with
    | Some t' => ⟨rc = SUCCESS⟩ ∗ is_tree t' None
    | None => ⟨rc = FAILURE⟩ ∗ is_tree t None
    end).
Proof.
  intros t (Hl & Hm & Hr) (Hn & Hml & Hmm & Hmr) Hh.
  assert (l ≠ E) by (by intros ->). assert (m ≠ E) by (by intros ->).
  assert (r ≠ E) by (by intros ->).
  simpl in Hh. subst t. iIntros "(Hn & Hl & Hm & Hr)".
  set (v := node3 k1 k2 None (ptr_of l) (ptr_of m) (ptr_of r)).
  unfold globalRotation. cbn [ptr_of]. wp_steps.
  iApply (wp_getMinNode _ r); [done|lia|]. iFrame "Hr". iIntros "Hr". wp_steps.
  iApply (wp_getMaxNode _ l); [done|lia|]. iFrame "Hl". iIntros "Hl". do 5 wp_step.
  iApply (wp_getMinNode _ m); [done|lia|]. iFrame "Hm". iIntros "Hm". wp_step.
  iApply (wp_getMaxNode _ m); [done|lia|]. iFrame "Hm". iIntros "Hm".
  cbn [global_rotation].
  iApply (wp_shift_left false p t0 (S h) (S h) n v l k1 m); [done..|]. iFrame "Hn Hl Hm".
  destruct (shift_left p l k1 m) as [[[l' x] m']|] eqn:Hs1; simpl; iIntros "Hn Hl Hm".
  { iSplit; [done|]. destruct (shift_left_ptrs p l k1 m l' x m') as [Hp1 Hp2]; [done..|].
    rewrite is_tree_N3 Hp1 Hp2. trees_done. }
  iApply (wp_shift_right false p t0 (S h) (S h) n v l k1 m); [done..|]. iFrame "Hn Hl Hm".
  destruct (shift_right p l k1 m) as [[[l' x] m']|] eqn:Hs2; simpl; iIntros "Hn Hl Hm".
  { iSplit; [done|]. destruct (shift_right_ptrs p l k1 m l' x m') as [Hp1 Hp2]; [done..|].
    rewrite is_tree_N3 Hp1 Hp2. trees_done. }
  iApply (wp_shift_left true p t0 (S h) (S h) n v m k2 r); [done..|]. iFrame "Hn Hm Hr".
  destruct (shift_left p m k2 r) as [[[m' x] r']|] eqn:Hs3; simpl; iIntros "Hn Hm Hr".
  { iSplit; [done|]. destruct (shift_left_ptrs p m k2 r m' x r') as [Hp1 Hp2]; [done..|].
    rewrite is_tree_N3 Hp1 Hp2. trees_done. }
  iApply (wp_shift_right true p t0 (S h) (S h) n v m k2 r); [done..|]. iFrame "Hn Hm Hr".
  destruct (shift_right p m k2 r) as [[[m' x] r']|] eqn:Hs4; simpl; iIntros "Hn Hm Hr".
  { iSplit; [done|]. destruct (shift_right_ptrs p m k2 r m' x r') as [Hp1 Hp2]; [done..|].
    rewrite is_tree_N3 Hp1 Hp2. trees_done. }
  wp_steps. iSplit; [done|]. trees_done.
Qed.

Lemma wp_globalRotation p t0 fuel h f c t1 :
  let t := plug (f :: c) t1 in
  balanced (S (S h)) t → marked p t0 t → height t ≤ S fuel →
  is_tree t None ⊢ wp (globalRotation fuel (ptr_of t) (Some p)) (λ rc,
    match global_rotation p t with
    | Some t' => ⟨rc = SUCCESS⟩ ∗ is_tree t' None
    | None => ⟨rc = FAILURE⟩ ∗ is_tree t None
    end).
Proof.
  intros t Ht Hm Hh. subst t.
  destruct (plug_root f c t1) as [(n & l & k & r & Hp)|(n & l & k1 & m & k2 & r & Hp)];
    rewrite Hp in Ht, Hm, Hh |- *; [by eapply wp_globalRotation2|by eapply wp_globalRotation3].
Qed.

Lemma wp_delete_loop fuel h c p t :
  balanced h t → ctx_balanced (S h) c → whole t → ctx_whole c →
  height (plug c (Hole p t)) + length c ≤ fuel →
  is_tree (Hole p t) (ctx_ptr c) ∗ is_ctx c (Some p) ⊢
  wp (delete_loop fuel (ptr_of (plug c (Hole p t))) (Some p)) (λ rp,
    ⟨rp = (SUCCESS, ptr_of (repair c p t)) ∧ repaired c p t⟩ ∗ is_tree (repair c p t) None).
Proof.
  revert h c p t. induction fuel as [|fuel IH]; intros h c p t Hb Hc Hw Hcw Hh.
  { exfalso. pose proof (balanced_height _ _ (balanced_plug (S h) c (Hole p t) Hb Hc)). lia. }
  cbn [delete_loop]. destruct c as [|f c].
  { rewrite is_ctx_nil right_id. iIntros "Ht". cbn [plug ptr_of repair]. open_trees. wp_steps.
    iSplit; [|trees_done]. iPureIntro. split; [done|]. split_and!; simpl; rewrite ?app_nil_r; eauto. }
  cbn [ctx_balanced] in Hc. destruct Hc as [Hf Hc].
  apply Forall_cons in Hcw as Hcw'. destruct Hcw' as [Hfw Hcw'].
  iIntros "H". iDestruct (hole_marked with "H") as %Hm; [done..|].
  destruct (plug_root_ne _ _ _ _ _ Hm) as (n & Hn & Hne).
  set (root := ptr_of (plug (f :: c) (Hole p t))) in *.
  assert (Some p =p? root = false) as -> by (rewrite Hn; by apply ptr_eqb_ne).
  cbn [repair]. rewrite is_ctx_cons. iDestruct "H" as "(Ht & Hf & Hc)". wp_steps.
  iApply wp_wand. iSplitL "Ht Hf".
  { iApply (wp_localRotation f p t (ctx_ptr c) h); [done..|]. iFrame. }
  iIntros (rc) "Hrc". destruct (local_rotation f p t) as [t'|] eqn:Hlr.
  { iDestruct "Hrc" as (->) "Ht". wp_steps. iSplitR.
    - iPureIntro. split; [|by eapply repaired_rotation]. f_equal. subst root. cbn [plug]. apply ptr_of_plug.
      rewrite ptr_of_fill. symmetry. by eapply local_rotation_ptr.
    - rewrite is_tree_plug (local_rotation_ptr f p t t') //. iFrame. }
  iDestruct "Hrc" as (->) "[Ht Hf]". wp_steps.
  pose proof (balanced_plug (S h) (f :: c) (Hole p t) Hb (conj Hf Hc)) as Hbp.
  iApply wp_wand. iSplitL "Ht Hf Hc".
  { iApply (wp_globalRotation p t fuel (h + length c) f c (Hole p t)); [|done|lia|].
    - by replace (S (S (h + length c))) with (S h + length (f :: c)) by (simpl; lia).
    - rewrite is_tree_plug is_ctx_cons. iFrame. }
  iIntros (rc) "Hrc". destruct (global_rotation p (plug (f :: c) (Hole p t))) as [t'|] eqn:Hgr.
  { iDestruct "Hrc" as (->) "Ht". wp_steps. iFrame. iPureIntro.
    split; [|by eapply repaired_global]. f_equal. symmetry. by eapply global_rotation_ptr. }
  iDestruct "Hrc" as (->) "Ht". rewrite is_tree_plug is_ctx_cons.
  iDestruct "Ht" as "(Ht & Hf & Hc)". wp_steps.
  iApply wp_wand. iSplitL "Ht Hf".
  { iApply (wp_localNodeMerger f p t (ctx_ptr c) h); [done..|]. iFrame. }
  iIntros (rc) "Hrc". destruct (local_merger f p t) as [t'|] eqn:Hlm.
  { iDestruct "Hrc" as (->) "Ht". wp_steps. iSplitR.
    - iPureIntro. split; [|by eapply repaired_merger]. f_equal. subst root. cbn [plug].
      apply ptr_of_plug. rewrite ptr_of_fill. symmetry. by eapply local_merger_ptr.
    - rewrite is_tree_plug (local_merger_ptr f p t t') //. iFrame. }
  iDestruct "Hrc" as (->) "[Ht Hf]". wp_steps.
  iApply wp_wand. iSplitL "Ht Hf".
  { iApply (wp_globalNodeMerger f p t (ctx_ptr c) h); [done..|]. iFrame. }
  iIntros (rp) "(%t' & [%Hgm ->] & Ht)". rewrite Hgm. wp_steps.
  assert (root = ptr_of (plug c (Hole (frame_loc f) t'))) as ->.
  { subst root. cbn [plug]. apply ptr_of_plug. by rewrite ptr_of_fill. }
  assert (balanced (S h) t') by by eapply global_merger_balanced.
  iApply wp_wand. iSplitL.
  { iApply (IH (S h) c (frame_loc f) t'); [done|done|by eapply global_merger_whole|done| |iFrame].
    pose proof (balanced_plug (S (S h)) c (Hole (frame_loc f) t') ltac:(done) Hc) as Hbp'.
    rewrite (balanced_height _ _ Hbp) in Hh. rewrite (balanced_height _ _ Hbp').
    simpl in Hh. lia. }
  iIntros (rp) "[%Hrp $]". iPureIntro. destruct Hrp as [-> Hrep]. split; [done|].
  by eapply repaired_step.
Qed.
End global_rules.
