(* ===== verification/TwoThreeDeleteItem.v ===== *)
(** [deleteItem] of CTree.h: the leaf that loses a key, and the key of an inner
    node that is exchanged with its successor. *)

From iris.proofmode Require Import proofmode environments coq_tactics reduction.
From S2P Require Import Prelude Heap HeapTactics CNode CTree TwoThree TwoThreeSpine TwoThreeSearch.
From S2P Require Import TwoThreeInsert TwoThreeRepair TwoThreeDelete.

(** ** The reference: deletion from an ordered list *)
Section reference.
Context {T : Type} `{KO : KeyOrder T}.
Implicit Types (k s : T) (ks : list T).

Definition delete_key k ks : list T := filter (λ s, (TCompare k s =? EQUAL)%Z = false) ks.

Lemma delete_key_app k ks ks' : delete_key k (ks ++ ks') = delete_key k ks ++ delete_key k ks'.
Proof. apply filter_app. Qed.
Lemma delete_key_lt k ks : all_lt ks k → delete_key k ks = ks.
Proof.
  unfold delete_key. induction 1 as [|x ks Hx Hks IH]; [done|].
  rewrite filter_cons_True; [by rewrite IH|by rewrite TCompare_gt].
Qed.
Lemma delete_key_gt k ks : all_gt ks k → delete_key k ks = ks.
Proof.
  unfold delete_key. induction 1 as [|x ks Hx Hks IH]; [done|].
  rewrite filter_cons_True; [by rewrite IH|by rewrite TCompare_lt].
Qed.
(** the key that is equal to [k] goes *)
Lemma delete_key_split k ks s ks' :
  ordered (ks ++ s :: ks') → key_eq k s → delete_key k (ks ++ s :: ks') = ks ++ ks'.
Proof.
  intros Ho He. apply ordered_middle in Ho as (_ & Hl & Hr).
  rewrite delete_key_app delete_key_lt.
  - f_equal. unfold delete_key. rewrite filter_cons_False.
    + apply delete_key_gt. unfold all_gt in *. eapply Forall_impl; [exact Hr|].
      intros x Hx. simpl in *. by rewrite He.
    + by apply TCompare_EQUAL in He as ->.
  - eapply Forall_impl; [exact Hl|]. intros x Hx. simpl in *. by rewrite He.
Qed.
Lemma delete_key_node k a b s d e :
  ordered (a ++ (b ++ s :: d) ++ e) → key_eq k s →
  delete_key k (a ++ (b ++ s :: d) ++ e) = a ++ b ++ d ++ e.
Proof.
  rewrite -(app_assoc b) (app_assoc a) /=. intros Ho He. rewrite (delete_key_split k _ s) //.
  by rewrite -app_assoc.
Qed.
Lemma delete_key_none k ks : has_key k ks = false → delete_key k ks = ks.
Proof.
  unfold has_key, delete_key. induction ks as [|x ks IH]; [done|]. simpl.
  intros [Hx Hks]%orb_false_iff. rewrite filter_cons_True //. by rewrite IH.
Qed.
Lemma delete_key_ordered k ks : ordered ks → ordered (delete_key k ks).
Proof.
  unfold ordered, delete_key. induction 1 as [|x ks Ho IH Hx]; [constructor|].
  rewrite filter_cons. case_decide; [|done]. constructor; [done|].
  apply Forall_forall. intros y Hy. apply list_elem_of_filter in Hy as [_ Hy].
  by eapply Forall_forall in Hx.
Qed.
End reference.

Section paths.
Context {T : Type}.
Implicit Types (t l m r x : tree T) (c : list (frame T)).

(** the path to the first node *)
Fixpoint first_ctx c t : list (frame T) :=
  match t with
  | N2 n l k r => match l with E => c | _ => first_ctx (F2l n k r :: c) l end
  | N3 n l k1 m k2 r => match l with E => c | _ => first_ctx (F3l n k1 m k2 r :: c) l end
  | E | Hole _ _ => c
  end.

Lemma plug_first_ctx c t x : whole t → t ≠ E → plug (first_ctx c t) x = plug c (set_first t x).
Proof.
  revert c. induction t as [|n l IH k r _|n l IH k1 m _ k2 r _|n l IH]; intros c Hw Ht; simpl in Hw;
    [done| | |done].
  - destruct (tree_dec l) as [->|Hl]; [done|]. rewrite set_first_N2 //. simpl.
    rewrite match_tree // IH //. naive_solver.
  - destruct (tree_dec l) as [->|Hl]; [done|]. rewrite set_first_N3 //. simpl.
    rewrite match_tree // IH //. naive_solver.
Qed.

(** the small key of a node *)
Definition small_key t : option T :=
  match t with N2 _ _ x _ | N3 _ _ x _ _ _ => Some x | _ => None end.
Definition with_key k t : tree T :=
  match t with
  | N2 n l _ r => N2 n l k r
  | N3 n l _ m y r => N3 n l k m y r
  | _ => t
  end.
End paths.

Section delete.
Context {T : Type} `{KO : KeyOrder T}.
Implicit Types (t l m r x : tree T) (c : list (frame T)) (k s : T).

(** a leaf loses its key [k] *)
Definition remove_leaf c t k : tree T :=
  match t with
  | N2 q _ _ _ => repair c q E
  | N3 q _ a _ y _ => plug c (if (TCompare k a =? EQUAL)%Z then N2 q E y E else N2 q E a E)
  | _ => plug c t
  end.
(** the repair after that is not at an inner node *)
Definition leaf_breaks c t : bool := match t with N2 q _ _ _ => breaks c q E | _ => false end.

(** the keys a leaf keeps *)
Definition leaf_rest k t : list T :=
  match t with N3 _ _ s _ s' _ => if (TCompare k s =? EQUAL)%Z then [s'] else [s] | _ => [] end.

(** what a deletion leaves: the keys [ks] *)
Definition removed c t (ks : list T) (rs : Z * ptr) : heapPropI (CNode T) :=
  ∃ t', ⟨whole t' ∧ keys t' = ks ∧ (leaf_breaks c t = false → ∃ h, balanced h t') ∧
         rs = (SUCCESS, ptr_of t')⟩ ∗ is_tree t' None.

Lemma removed_plug c t t' ks h root :
  balanced h t' → whole t' → ctx_balanced h c → ctx_whole c →
  ks = ctx_left c ++ keys t' ++ ctx_right c → root = ptr_of (plug c t') →
  is_tree t' (ctx_ptr c) ∗ is_ctx c (ptr_of t') ⊢ removed c t ks (SUCCESS, root).
Proof.
  iIntros (Hb Hw Hcb Hcw -> ->) "H". iExists (plug c t'). rewrite is_tree_plug. iFrame.
  iPureIntro. split_and!; [by apply whole_plug|by rewrite keys_plug| |done].
  intros _. exists (h + length c). by apply balanced_plug.
Qed.

Lemma wp_delete_leaf fuel h c t k root :
  balanced h t → whole t → ctx_balanced h c → ctx_whole c → is_leaf t → node_has k t →
  height (plug c t) + length c ≤ fuel → root = ptr_of (plug c t) →
  is_tree t (ctx_ptr c) ∗ is_ctx c (ptr_of t) ⊢
  wp (delete_from fuel root k SUCCESS (ptr_of t))
     (removed c t (ctx_left c ++ leaf_rest k t ++ ctx_right c)).
Proof.
  intros Hb Hw Hcb Hcw Hleaf Hhas Hh ->. iIntros "[Ht Hc]". unfold delete_from.
  destruct t as [|n l s r|n l s m s' r|]; simpl in Hleaf, Hhas; try done.
  - destruct Hleaf as [-> ->]. destruct h as [|h]; [done|]. destruct Hb as [Hb _]. simpl in Hb.
    subst h. open_trees. cbn [ptr_of]. wp_steps.
    iAssert (is_tree (Hole n E) (ctx_ptr c)) with "[- Hc]" as "Ht"; [trees_done|].
    iApply wp_wand. iSplitL.
    { replace (ptr_of (plug c (N2 n E s E))) with (ptr_of (plug c (Hole n E)));
        [|by apply ptr_of_plug]. 
      iApply (wp_delete_loop fuel 0 c n E); [done..| |iFrame].
      pose proof (balanced_plug 1 c (Hole n E) eq_refl Hcb) as H1.
      pose proof (balanced_plug 1 c (N2 n E s E) ltac:(done) Hcb) as H2.
      rewrite (balanced_height _ _ H2) in Hh. by rewrite (balanced_height _ _ H1). }
    iIntros (rs) "[%Hrs Ht]". destruct Hrs as [-> (Hk & Hw' & Hb')]. iExists (repair c n E). iFrame.
    iPureIntro. split_and!; done.
  - destruct Hleaf as (-> & -> & ->). destruct h as [|h]; [done|]. destruct Hb as [Hb _].
    simpl in Hb. subst h. set (root := ptr_of (plug c (N3 n E s E s' E))).
    open_trees. cbn [ptr_of]. wp_steps. unfold removeFromLeaf. wp_steps.
    destruct (TCompare k s =? EQUAL)%Z eqn:Hs; wp_steps.
    + iApply (removed_plug c _ (N2 n E s' E) _ 1 root); [done|done|done|done| | |trees_done].
      * simpl. by rewrite Hs.
      * by apply ptr_of_plug.
    + destruct Hhas as [Hhas|Hhas]; [apply TCompare_EQUAL in Hhas; congruence|].
      apply TCompare_EQUAL in Hhas as Hs'. rewrite Hs'. wp_steps.
      iApply (removed_plug c _ (N2 n E s E) _ 1 root); [done|done|done|done| | |trees_done].
      * simpl. by rewrite Hs.
      * by apply ptr_of_plug.
Qed.

(** *** Exchanging a key of an inner node with its successor *)

Lemma wp_first_small r par (x : T) Φ :
  r ≠ E → small_key (first_node r) = Some x →
  is_tree r par ∗ (is_tree r par -∗ Φ x) ⊢ wp (getSmallKey (ptr_of (first_node r))) Φ.
Proof.
  iIntros (Hr Hx) "[Ht HΦ]". iDestruct (first_focus with "Ht") as (par') "[Ht Hw]"; [done|].
  iApply wp_wand. iSplitL "Ht".
  { instantiate (1 := (λ k, ⟨k = x⟩ ∗ is_tree (first_node r) par')%I).
    destruct (first_node r) as [|n l s m|n l s m s' m'|]; try done; simpl in Hx;
      injection Hx as ->; open_trees; cbn [ptr_of]; wp_steps; iSplit; try done; trees_done. }
  iIntros (k) "[-> Ht]". iApply "HΦ". iSpecialize ("Hw" with "[%//] Ht").
  by rewrite set_first_self.
Qed.
Lemma wp_first_set_small r par k Φ :
  r ≠ E → whole r →
  is_tree r par ∗ (is_tree (set_first r (with_key k (first_node r))) par -∗ Φ tt) ⊢
  wp (setSmallKey (ptr_of (first_node r)) (Some k)) Φ.
Proof.
  iIntros (Hr Hw) "[Ht HΦ]". iDestruct (first_focus with "Ht") as (par') "[Ht Hw]"; [done|].
  iApply wp_wand. iSplitL "Ht".
  { instantiate (1 := (λ _, is_tree (with_key k (first_node r)) par')%I).
    assert (whole (first_node r)) as Hwf.
    { apply whole_holes. apply whole_holes in Hw. destruct (first_holes r Hr) as (a & Ha & _). lia. }
    pose proof (first_node_ne r Hr).
    destruct (first_node r) as [|n l s m|n l s m s' m'|]; try done;
      open_trees; cbn [ptr_of]; wp_steps; trees_done. }
  iIntros ([]) "Ht". iApply "HΦ". iApply ("Hw" with "[%] Ht").
  by destruct (first_node r).
Qed.

Lemma not_null t : t ≠ E → is_null (ptr_of t) = false.
Proof. by destruct t. Qed.

(** the successor of an inner key is the first key of the subtree after it *)
Ltac next_inner r :=
  iApply (wp_getMinNode _ r); [done|done|]; iFrame; iIntros "?"; wp_steps;
  iApply (wp_first_small r); [done|done|]; iFrame; iIntros "?"; wp_steps.
Ltac set_first_small r :=
  iApply (wp_first_set_small r); [done|done|]; iFrame; iIntros "?"; wp_steps;
  (iSplit; [done|]; fold_trees; rewrite ?ptr_of_set_first //; try by destruct (first_node r)); try trees_done.

Lemma wp_swap_two fuel n l s r par k (x : T) :
  l ≠ E → r ≠ E → whole r → height r ≤ fuel → key_eq k s → small_key (first_node r) = Some x →
  is_tree (N2 n l s r) par ⊢
  wp (swapWithInOrderSuccessor fuel (Some n) k) (λ rs,
    ⟨rs = (SUCCESS, ptr_of (first_node r))⟩ ∗
    is_tree (N2 n l x (set_first r (with_key k (first_node r)))) par).
Proof.
  iIntros (Hl Hr Hw Hh He Hx) "Ht". apply TCompare_EQUAL in He.
  unfold swapWithInOrderSuccessor, getNextInorderKey. open_trees. wp_steps.
  rewrite not_null //. wp_steps. rewrite He. wp_steps. next_inner r.
  rewrite He. wp_steps. set_first_small r.
Qed.
Lemma wp_swap_small fuel n l s m s' r par k (x : T) :
  l ≠ E → m ≠ E → whole m → height m ≤ fuel → key_eq k s → small_key (first_node m) = Some x →
  is_tree (N3 n l s m s' r) par ⊢
  wp (swapWithInOrderSuccessor fuel (Some n) k) (λ rs,
    ⟨rs = (SUCCESS, ptr_of (first_node m))⟩ ∗
    is_tree (N3 n l x (set_first m (with_key k (first_node m))) s' r) par).
Proof.
  iIntros (Hl Hr Hw Hh He Hx) "Ht". apply TCompare_EQUAL in He.
  unfold swapWithInOrderSuccessor, getNextInorderKey. open_trees. wp_steps.
  rewrite He. wp_steps. rewrite not_null //. wp_steps. next_inner m.
  rewrite He. wp_steps. set_first_small m.
Qed.
Lemma wp_swap_big fuel n l s m s' r par k (x : T) :
  l ≠ E → r ≠ E → whole r → height r ≤ fuel → (TCompare k s =? EQUAL)%Z = false →
  key_eq k s' → small_key (first_node r) = Some x →
  is_tree (N3 n l s m s' r) par ⊢
  wp (swapWithInOrderSuccessor fuel (Some n) k) (λ rs,
    ⟨rs = (SUCCESS, ptr_of (first_node r))⟩ ∗
    is_tree (N3 n l s m x (set_first r (with_key k (first_node r)))) par).
Proof.
  iIntros (Hl Hr Hw Hh He He' Hx) "Ht". apply TCompare_EQUAL in He'.
  unfold swapWithInOrderSuccessor, getNextInorderKey. open_trees. wp_steps.
  rewrite He. wp_steps. rewrite not_null //. wp_steps. rewrite He'. wp_steps. next_inner r.
  rewrite He. wp_steps. rewrite He'. wp_steps. set_first_small r.
Qed.

(** ** The leaf that loses the key *)

(** for the key [k] of the node [t] below the path [c]: the path and the leaf
    after the exchange *)
Definition delete_site k c t : list (frame T) * tree T :=
  match t with
  | N2 n l _ r =>
      match small_key (first_node r) with
      | Some x => (first_ctx (F2r n l x :: c) r, with_key k (first_node r))
      | None => (c, t)
      end
  | N3 n l s m s' r =>
      if (TCompare k s =? EQUAL)%Z then
        match small_key (first_node m) with
        | Some x => (first_ctx (F3m n l x s' r :: c) m, with_key k (first_node m))
        | None => (c, t)
        end
      else
        match small_key (first_node r) with
        | Some x => (first_ctx (F3r n l s m x :: c) r, with_key k (first_node r))
        | None => (c, t)
        end
  | _ => (c, t)
  end.

(** what is known of that leaf *)
Record site k h c t (ks : list T) : Prop := {
  site_balanced : ∃ h', balanced h' t ∧ ctx_balanced h' c ∧ h = h' + length c;
  site_whole : whole t ∧ ctx_whole c;
  site_leaf : is_leaf t ∧ node_has k t;
  site_keys : ctx_left c ++ leaf_rest k t ++ ctx_right c = ks;
}.

Lemma first_leaf h r :
  balanced h r → whole r → r ≠ E →
  (∃ q s, first_node r = N2 q E s E) ∨ (∃ q s s', first_node r = N3 q E s E s' E).
Proof.
  intros Hb Hw Hr. destruct (first_balanced h r Hr Hb) as (h' & Hb' & _).
  destruct (first_holes r Hr) as (a & Ha & _). apply whole_holes in Hw.
  pose proof (first_shape r Hr) as Hs. pose proof (first_node_ne r Hr) as Hne.
  destruct (first_node r) as [|q l s r'|q l s m s' r'|q l]; [done| | |].
  - subst l. destruct Hb' as [Hl Hb']. simpl in Hl. subst h'. apply balanced_0 in Hb' as ->. eauto.
  - subst l. destruct Hb' as (Hl & Hm & Hb'). simpl in Hl. subst h'.
    apply balanced_0 in Hb' as ->. apply balanced_0 in Hm as ->. eauto.
  - simpl in Ha. lia.
Qed.

Lemma first_site k f c r hr :
  r ≠ E → balanced hr r → whole r → frame_balanced hr f → frame_whole f →
  ctx_balanced (S hr) c → ctx_whole c →
  ∃ s rest, small_key (first_node r) = Some s ∧ keys r = s :: rest ∧
    site k (hr + S (length c)) (first_ctx (f :: c) r) (with_key k (first_node r))
      (ctx_left (f :: c) ++ rest ++ ctx_right (f :: c)).
Proof.
  intros Hr Hb Hw Hfb Hfw Hcb Hcw.
  destruct (first_keys r Hr) as (post & Hk & Hx). destruct (first_holes r Hr) as (a & Ha & Hax).
  destruct (first_balanced hr r Hr Hb) as (h' & Hb' & Hbx).
  pose proof (λ x, plug_first_ctx (f :: c) r x Hw Hr) as Hplug.
  assert (∀ x, balanced (S h') x → whole x → ∃ h2, balanced h2 x ∧
    ctx_balanced h2 (first_ctx (f :: c) r) ∧ hr + S (length c) = h2 + length (first_ctx (f :: c) r) ∧
    ctx_whole (first_ctx (f :: c) r)) as Hbw.
  { intros x Hbx' Hwx. destruct (balanced_unplug (hr + S (length c)) (first_ctx (f :: c) r) x) as (h2 & ? & ? & ?).
    - rewrite Hplug. apply (balanced_plug hr (f :: c)); [by apply Hbx|by split].
    - exists h2. split_and!; try done.
      apply (whole_unplug _ x). rewrite Hplug. apply whole_plug; [|by constructor].
      apply whole_holes. apply whole_holes in Hw, Hwx. rewrite Hax. lia. }
  assert (∀ x, ctx_left (first_ctx (f :: c) r) ++ keys x ++ ctx_right (first_ctx (f :: c) r) =
    ctx_left (f :: c) ++ (keys x ++ post) ++ ctx_right (f :: c)) as Hkx.
  { intros x. by rewrite -!keys_plug Hplug (keys_plug (f :: c)) Hx. }
  destruct (first_leaf hr r Hb Hw Hr) as [(q & s & Hq)|(q & s & s' & Hq)]; rewrite Hq in Hk, Hb' |- *;
    simpl in Hk, Hb'; simpl small_key; simpl with_key.
  - exists s, post. split; [done|]. split; [done|].
    destruct (Hbw (N2 q E k E)) as (h2 & ? & ? & ? & ?); [done..|]. split; [eauto|done|..].
    + split; [done|]. simpl. reflexivity.
    + apply (Hkx E).
  - exists s, (s' :: post). split; [done|]. split; [done|].
    destruct (Hbw (N3 q E k E s' E)) as (h2 & ? & ? & ? & ?); [done..|]. split; [eauto|done|..].
    + split; [done|]. simpl. left. reflexivity.
    + simpl leaf_rest. assert ((TCompare k k =? EQUAL)%Z = true) as -> by by apply TCompare_EQUAL.
      apply (Hkx (N2 q E s' E)).
Qed.

Definition site_post h c t k (ks : list T) root (rs : Z * ptr) : heapPropI (CNode T) :=
  let '(c2, t2) := delete_site k c t in
  ⟨site k h c2 t2 ks ∧ rs = (SUCCESS, ptr_of t2) ∧ root = ptr_of (plug c2 t2)⟩ ∗
  is_tree t2 (ctx_ptr c2) ∗ is_ctx c2 (ptr_of t2).

(** the exchange below the frame [f] gives the path to the leaf *)
Lemma site_focus f c r k :
  whole r → r ≠ E →
  is_tree (set_first r (with_key k (first_node r))) (Some (frame_loc f)) ∗
  is_frame f (ptr_of r) (ctx_ptr c) ∗ is_ctx c (Some (frame_loc f)) ⊢
  is_tree (with_key k (first_node r)) (ctx_ptr (first_ctx (f :: c) r)) ∗
  is_ctx (first_ctx (f :: c) r) (ptr_of (with_key k (first_node r))).
Proof.
  intros Hw Hr. rewrite -is_tree_plug plug_first_ctx // is_tree_plug is_ctx_cons.
  rewrite ptr_of_set_first //. by destruct (first_node r).
Qed.
Lemma site_root f c r k t :
  whole r → r ≠ E → ptr_of t = Some (frame_loc f) →
  ptr_of (plug c t) = ptr_of (plug (first_ctx (f :: c) r) (with_key k (first_node r))).
Proof. intros Hw Hr Ht. rewrite plug_first_ctx //. cbn [plug]. apply ptr_of_plug. by rewrite ptr_of_fill. Qed.

Lemma wp_find_leaf fuel h c t k :
  balanced h t → whole t → ctx_balanced h c → ctx_whole c → node_has k t → height t ≤ fuel →
  ordered (ctx_left c ++ keys t ++ ctx_right c) →
  is_tree t (ctx_ptr c) ∗ is_ctx c (ptr_of t) ⊢
  wp (find_leaf fuel (ptr_of t) k)
     (site_post (h + length c) c t k (delete_key k (ctx_left c ++ keys t ++ ctx_right c)) (ptr_of (plug c t))).
Proof.
  intros Hb Hw Hcb Hcw Hk Hh Ho. iIntros "[Ht Hc]". unfold find_leaf, site_post.
  destruct t as [|n l s r|n l s m s' r|]; simpl in Hk; try done; destruct h as [|h]; try done;
    simpl in Hb, Hw, Hh.
  - destruct Hb as [Hbl Hbr], Hw as [Hwl Hwr]. cbn [delete_site].
    destruct (tree_dec r) as [->|Hr].
    { simpl in Hbr. subst h. apply balanced_0 in Hbl as ->. simpl. open_trees. cbn [ptr_of]. wp_steps.
      iSplitR; [|trees_done]. iPureIntro.
      split; [split|done]; [by exists 1|done|done|]. simpl. by rewrite (delete_key_split k _ s). }
    assert (l ≠ E) as Hl by (intros ->; simpl in Hbl; subst h; by apply balanced_0 in Hbr).
    destruct (first_site k (F2r n l s) c r h) as (x & rest & Hx & Hrest & _); [done..|].
    destruct (first_site k (F2r n l x) c r h) as (x' & rest' & Hx' & Hrest' & Hsite); [done..|].
    rewrite Hx. rewrite Hx in Hx'. injection Hx' as <-. rewrite Hrest in Hrest'.
    injection Hrest' as <-.
    iDestruct "Ht" as (big) "(%Hs & Hn & Hl & Hr)". unfold node2. wp_bind. wp_cell n.
    rewrite (not_null l) //. cbn [andb]. cbv beta iota.
    iApply wp_wand. iSplitL "Hn Hl Hr".
    { iApply (wp_swap_two fuel n l s r (ctx_ptr c) k x); [done|done|done|lia|done|done|trees_done]. }
    iIntros (rs) "[-> Ht]". rewrite Nat.add_succ_comm. iSplitR.
    + iPureIntro. split; [|split].
      * replace (delete_key _ _) with (ctx_left (F2r n l x :: c) ++ rest ++ ctx_right (F2r n l x :: c));
          [exact Hsite|].
        simpl in Ho |- *. rewrite (delete_key_node k _ _ s) // Hrest. keys_eq.
      * by destruct (first_node r).
      * by apply site_root.
    + iApply site_focus; [done..|]. iDestruct "Ht" as (big') "(%Hs' & Hn & Hl & Hr)".
      iFrame "Hr". cbn [is_frame frame_loc]. rewrite ptr_of_set_first //; [|by destruct (first_node r)].
      trees_done.
  - destruct Hb as (Hbl & Hbm & Hbr), Hw as (Hwl & Hwm & Hwr). cbn [delete_site].
    destruct (tree_dec l) as [->|Hl].
    { simpl in Hbl. subst h. apply balanced_0 in Hbm as ->. apply balanced_0 in Hbr as ->. simpl.
      open_trees. cbn [ptr_of]. wp_steps. destruct (TCompare k s =? EQUAL)%Z eqn:Hks.
      - iSplitR; [|trees_done]. iPureIntro.
        split; [split|done]; [by exists 1|done|done|]. simpl leaf_rest. rewrite Hks.
        apply TCompare_EQUAL in Hks. simpl in Ho. by rewrite (delete_key_node k _ [] s [s']).
      - destruct Hk as [Hk|Hk]; [apply TCompare_EQUAL in Hk; congruence|].
        iSplitR; [|trees_done]. iPureIntro.
        split; [split|done]; [by exists 1|done|split; [done|by right]|]. simpl leaf_rest. rewrite Hks.
        simpl in Ho. by rewrite (delete_key_node k _ [s] s' []). }
    assert (m ≠ E) as Hm by (intros ->; simpl in Hbm; subst h; by apply balanced_0 in Hbl).
    assert (r ≠ E) as Hr by (intros ->; simpl in Hbr; subst h; by apply balanced_0 in Hbl).
    iDestruct "Ht" as "(Hn & Hl & Hm & Hr)". unfold node3. wp_bind. wp_cell n.
    rewrite (not_null l) //. cbn [andb]. cbv beta iota.
    destruct (TCompare k s =? EQUAL)%Z eqn:Hks.
    + apply TCompare_EQUAL in Hks.
      destruct (first_site k (F3m n l s s' r) c m h) as (x & rest & Hx & Hrest & _); [done..|].
      destruct (first_site k (F3m n l x s' r) c m h) as (x' & rest' & Hx' & Hrest' & Hsite); [done..|].
      rewrite Hx. rewrite Hx in Hx'. injection Hx' as <-. rewrite Hrest in Hrest'.
      injection Hrest' as <-.
      iApply wp_wand. iSplitL "Hn Hl Hm Hr".
      { iApply (wp_swap_small fuel n l s m s' r (ctx_ptr c) k x);
          [done|done|done|lia|done|done|trees_done]. }
      iIntros (rs) "[-> Ht]". rewrite Nat.add_succ_comm. iSplitR.
      * iPureIntro. split; [|split; [by destruct (first_node m)|by apply site_root]].
        replace (delete_key _ _) with
          (ctx_left (F3m n l x s' r :: c) ++ rest ++ ctx_right (F3m n l x s' r :: c)); [exact Hsite|].
        simpl in Ho |- *. rewrite (delete_key_node k _ _ s) // Hrest. keys_eq.
      * iApply site_focus; [done..|]. iDestruct "Ht" as "(Hn & Hl & Hm & Hr)".
        iFrame "Hm". cbn [is_frame frame_loc]. rewrite ptr_of_set_first //; [|by destruct (first_node m)].
        trees_done.
    + destruct Hk as [Hk|Hk]; [apply TCompare_EQUAL in Hk; congruence|].
      destruct (first_site k (F3r n l s m s') c r h) as (x & rest & Hx & Hrest & _); [done..|].
      destruct (first_site k (F3r n l s m x) c r h) as (x' & rest' & Hx' & Hrest' & Hsite); [done..|].
      rewrite Hx. rewrite Hx in Hx'. injection Hx' as <-. rewrite Hrest in Hrest'.
      injection Hrest' as <-.
      iApply wp_wand. iSplitL "Hn Hl Hm Hr".
      { iApply (wp_swap_big fuel n l s m s' r (ctx_ptr c) k x);
          [done|done|done|lia|done|done|done|trees_done]. }
      iIntros (rs) "[-> Ht]". rewrite Nat.add_succ_comm. iSplitR.
      * iPureIntro. split; [|split; [by destruct (first_node r)|by apply site_root]].
        replace (delete_key _ _) with
          (ctx_left (F3r n l s m x :: c) ++ rest ++ ctx_right (F3r n l s m x :: c)); [exact Hsite|].
        simpl in Ho |- *. rewrite (app_comm_cons (keys m)) (app_assoc (keys l)) in Ho |- *.
        rewrite (delete_key_node k _ _ s') // Hrest. keys_eq.
      * iApply site_focus; [done..|]. iDestruct "Ht" as "(Hn & Hl & Hm & Hr)".
        iFrame "Hr". cbn [is_frame frame_loc]. rewrite ptr_of_set_first //; [|by destruct (first_node r)].
        trees_done.
Qed.

(** ** deleteItem *)

(** the deletion of [k] rotates over the root when the hole is above the leaves *)
Definition delete_breaks k t : bool :=
  let '(c, t', b) := locate k [] t in
  if b : bool then let '(c', t'') := delete_site k c t' in leaf_breaks c' t'' else false.
Definition delete_code k t : Z :=
  match t with E => IS_EMPTY | _ => if has_key k (keys t) then SUCCESS else NOT_FOUND end.

Lemma wp_deleteItem fuel h k t :
  wf h t → 2 * height t ≤ fuel →
  is_tree t None ⊢ wp (deleteItem fuel (ptr_of t) k) (λ rs, ∃ t',
    ⟨whole t' ∧ keys t' = delete_key k (keys t) ∧
     (delete_breaks k t = false → ∃ h', balanced h' t') ∧
     rs = (delete_code k t, ptr_of t')⟩ ∗ is_tree t' None).
Proof.
  intros [Hb Hw Ho] Hh. iIntros "Ht". unfold deleteItem, delete_code, delete_breaks.
  destruct (tree_dec t) as [->|Hne].
  { cbn [ptr_of]. wp_steps. iExists E. iFrame. iPureIntro. split_and!; try done. by exists 0. }
  rewrite match_ptr //. wp_bind. iApply wp_search; [done|lia|]. iFrame "Ht". iIntros "Ht".
  rewrite !match_tree //.
  pose proof (locate_spec h k [] t Hb Hw Ho Hne ltac:(constructor) ltac:(constructor)) as Hloc.
  destruct (locate k [] t) as [[c t'] b]. destruct Hloc as [Hplug [Hn Hl Hr Hf]].
  simpl in Hplug. subst t. rewrite is_tree_plug keys_plug. rewrite keys_plug in Ho.
  rewrite (balanced_height _ _ Hb) in Hh.
  apply balanced_unplug in Hb as (h' & Hb & Hcb & ->). apply whole_unplug in Hw as [Hw Hcw].
  iDestruct "Ht" as "[Ht Hc]". destruct b; wp_steps.
  - assert (has_key k (ctx_left c ++ keys t' ++ ctx_right c) = true) as ->.
    { by apply has_key_located. }
    iApply wp_wand. iSplitL.
    { iApply (wp_find_leaf fuel h' c t' k); [done..| | |iFrame]; [|done].
      rewrite (balanced_height _ _ Hb). lia. }
    iIntros (rs) "Hrs". unfold site_post. destruct (delete_site k c t') as [c2 t2].
    iDestruct "Hrs" as "(%Hrs & Ht & Hc)". destruct Hrs as ([Hsb [??] [??] Hks] & -> & Hroot).
    destruct Hsb as (h2 & Hb2 & Hc2 & Hh2).
    iApply wp_wand. iSplitL.
    { iApply (wp_delete_leaf fuel h2 c2 t2); [done..| |done|iFrame].
      rewrite (balanced_height _ _ (balanced_plug h2 c2 t2 Hb2 Hc2)). lia. }
    iIntros (rs) "(%t3 & %Hrm & Ht)". destruct Hrm as (? & Hk3 & ? & ->). iExists t3. iFrame.
    iPureIntro. split_and!; [done|by rewrite Hk3 Hks|done|done].
  - assert (has_key k (ctx_left c ++ keys t' ++ ctx_right c) = false) as Hno.
    { destruct Hf. by apply not_has_located. }
    rewrite Hno delete_key_none //. iExists (plug c t'). rewrite is_tree_plug. iFrame. iPureIntro.
    split_and!; [by apply whole_plug|by rewrite keys_plug| |done].
    intros _. exists (h' + length c). by apply balanced_plug.
Qed.
End delete.
