(* ===== verification/TwoThreeRemoveAll.v ===== *)
(** [removeAll] and the destructor of CTree.h: every node is deleted once. *)

From iris.proofmode Require Import proofmode environments coq_tactics reduction.
From S2P Require Import Prelude Heap HeapTactics CNode CTree TwoThree TwoThreeSpine TwoThreeSearch.

Section remove_all.
Context {T : Type} `{Key T}.
Implicit Types (t l m r : tree T) (par : ptr).

(** the number of nodes *)
Fixpoint nodes t : nat :=
  match t with
  | E => 0
  | N2 _ l _ r => S (nodes l + nodes r)
  | N3 _ l _ m _ r => S (nodes l + nodes m + nodes r)
  | Hole _ t => S (nodes t)
  end.

(** one round of the loop, at a child [a] of the node [n] *)
Lemma wp_remove_step fuel a v n w (Φ : unit → heapPropI (CNode T)) :
  m_pParent v = Some n →
  a ↦ v ∗ n ↦ w ∗
  (n ↦ w -∗
    wp (if ((Some a =p? m_pLeft w) && is_null (m_pMiddle w)) || (Some a =p? m_pMiddle w)
        then p ← getMinNode fuel (m_pRight w); remove_loop fuel p
        else if Some a =p? m_pLeft w then p ← getMinNode fuel (m_pMiddle w); remove_loop fuel p
        else remove_loop fuel (Some n)) Φ) ∗
  ⟨(Some a =p? m_pLeft w) || (Some a =p? m_pMiddle w) || (Some a =p? m_pRight w) = true⟩ ⊢
  wp (remove_loop (S fuel) (Some a)) Φ.
Proof.
  iIntros (Hv) "(Ha & Hn & HΦ & %Hc)". cbn [remove_loop]. wp_steps. rewrite Hv. wp_steps.
  destruct (Some a =p? m_pLeft w), (Some a =p? m_pMiddle w), (is_null (m_pMiddle w));
    simpl in *; try (wp_bind; wp_step; by iApply "HΦ").
  all: rewrite Hc; wp_bind; wp_step; by iApply "HΦ".
Qed.

#[local] Arguments remove_loop : simpl never.

(** the loop frees the subtrees of a node and comes back to it *)
Lemma wp_remove_loop t par fuel Φ h :
  t ≠ E → whole t → balanced h t → height t ≤ fuel →
  is_tree t par ∗
  (∀ n v, ⟨ptr_of t = Some n ∧ m_pParent v = par⟩ -∗ n ↦ v -∗
    wp (remove_loop (S fuel) (Some n)) Φ) ⊢
  wp (remove_loop (nodes t + fuel) (ptr_of (first_node t))) Φ.
Proof.
  revert par fuel Φ h.
  induction t as [|n l IHl s r IHr|n l IHl s m IHm s' r IHr|n t _]; intros par fuel Φ h Ht Hw Hb Hh;
    [done| | |done]; destruct h as [|h]; try done; simpl in Hw, Hb, Hh.
  - destruct Hw as [Hwl Hwr], Hb as [Hbl Hbr]. iIntros "[(%big & %Hs & Hn & Hl & Hr) HΦ]".
    destruct (tree_dec l) as [->|Hl].
    { simpl in Hbl. subst h. apply balanced_0 in Hbr as ->. simpl. rewrite !is_tree_E.
      iApply ("HΦ" $! n with "[%] Hn"). done. }
    assert (r ≠ E) as Hr by (intros ->; simpl in Hbr; subst h; by apply balanced_0 in Hbl).
    rewrite first_node_N2 //. simpl nodes.
    replace (S (nodes l + nodes r) + fuel) with (nodes l + (nodes r + S fuel)) by lia.
    iApply (IHl (Some n) _ _ h); [done..|lia|]. iFrame "Hl". iIntros (a v [Ha Hv]) "Ha".
    iDestruct (is_tree_ptr_ne with "[$Ha $Hr]") as %Har.
    iApply wp_remove_step; [done|]. iFrame "Ha Hn". rewrite /= Ha ptr_eqb_refl /=.
    iSplitL; [|done]. iIntros "Hn".
    wp_bind. iApply (wp_getMinNode with "[-]"); [done|lia|]. iFrame "Hr". iIntros "Hr".
    iApply (IHr (Some n) _ _ h); [done..|lia|]. iFrame "Hr". iIntros (b w [Hb Hw]) "Hb".
    rewrite Hb in Har *. iApply wp_remove_step; [done|]. iFrame "Hb Hn".
    rewrite /= (ptr_eqb_neq (Some b) (Some a)); [|congruence]. rewrite ptr_eqb_refl /=.
    iSplitL; [|done]. iIntros "Hn". by iApply ("HΦ" with "[%] Hn").
  - destruct Hw as (Hwl & Hwm & Hwr), Hb as (Hbl & Hbm & Hbr). iIntros "[(Hn & Hl & Hm & Hr) HΦ]".
    destruct (tree_dec l) as [->|Hl].
    { simpl in Hbl. subst h. apply balanced_0 in Hbr as ->. apply balanced_0 in Hbm as ->.
      simpl. rewrite !is_tree_E.
      iApply ("HΦ" $! n with "[%] Hn"). done. }
    assert (r ≠ E) as Hr by (intros ->; simpl in Hbr; subst h; by apply balanced_0 in Hbl).
    assert (m ≠ E) as Hm by (intros ->; simpl in Hbm; subst h; by apply balanced_0 in Hbl).
    rewrite first_node_N3 //. simpl nodes.
    replace (S (nodes l + nodes m + nodes r) + fuel) with (nodes l + (nodes m + (nodes r + S fuel)))
      by lia.
    iApply (IHl (Some n) _ _ h); [done..|lia|]. iFrame "Hl". iIntros (a v [Ha Hv]) "Ha".
    iDestruct (is_tree_ptr_ne with "[$Ha $Hr]") as %Har.
    iDestruct (is_tree_ptr_ne with "[$Ha $Hm]") as %Ham.
    assert (is_null (ptr_of m) = false) as Hm0 by by destruct m.
    iApply wp_remove_step; [done|]. iFrame "Ha Hn".
    rewrite /= Ha ptr_eqb_refl Hm0 (ptr_eqb_neq (Some a) (ptr_of m)) //=.
    iSplitL; [|done]. iIntros "Hn".
    wp_bind. iApply (wp_getMinNode with "[-]"); [done|lia|]. iFrame "Hm". iIntros "Hm".
    iApply (IHm (Some n) _ _ h); [done..|lia|]. iFrame "Hm". iIntros (b w [Hb Hw]) "Hb".
    iDestruct (is_tree_ptr_ne with "[$Hb $Hr]") as %Hbr'.
    rewrite Hb in Ham *. iApply wp_remove_step; [done|]. iFrame "Hb Hn".
    rewrite /= (ptr_eqb_neq (Some b) (Some a)); [|congruence]. rewrite ptr_eqb_refl /=.
    iSplitL; [|done]. iIntros "Hn".
    wp_bind. iApply (wp_getMinNode with "[-]"); [done|lia|]. iFrame "Hr". iIntros "Hr".
    iApply (IHr (Some n) _ _ h); [done..|lia|]. iFrame "Hr". iIntros (c u [Hc Hu]) "Hc".
    rewrite Hc in Har Hbr' *. iApply wp_remove_step; [done|]. iFrame "Hc Hn".
    rewrite /= (ptr_eqb_neq (Some c) (Some a)); [|congruence].
    rewrite (ptr_eqb_neq (Some c) (Some b)); [|congruence]. rewrite ptr_eqb_refl /=.
    iSplitL; [|done]. iIntros "Hn". by iApply ("HΦ" with "[%] Hn").
Qed.

Lemma wp_removeAll t fuel Φ h :
  t ≠ E → whole t → balanced h t → nodes t + height t ≤ fuel →
  is_tree t None ∗ Φ (SUCCESS, None) ⊢ wp (removeAll fuel (ptr_of t)) Φ.
Proof.
  intros Ht Hw Hb Hf. iIntros "[Ht HΦ]".
  destruct (ptr_of t) as [n|] eqn:Hn; [|by destruct t]. cbn [removeAll]. rewrite -Hn.
  wp_bind. iApply (wp_getMinNode with "[-]"); [done|lia|]. iFrame "Ht". iIntros "Ht".
  wp_bind. replace fuel with (nodes t + (fuel - nodes t)) by lia.
  iApply (wp_remove_loop t None _ _ h); [done..|lia|]. iFrame "Ht". iIntros (n' v [Hn' Hv]) "Hn".
  rewrite Hn in Hn'. injection Hn' as <-. unfold remove_loop; fold (@remove_loop T).
  wp_step. wp_step. rewrite Hv. wp_step. rewrite Hn. wp_steps. done.
Qed.
End remove_all.
