(* ===== verification/TwoThreePrint.v ===== *)
(** The traversals of the 2-3 tree: [print] of CTree.h with its three step
    functions.  A traversal of a subtree ends in a state that does not depend on
    the subtree's inside: the lemmas of this file say that the loop of [print],
    started at a subtree, writes the keys of the subtree and reaches that state. *)

From iris.proofmode Require Import proofmode environments coq_tactics reduction.
From S2P Require Import Prelude Heap HeapTactics CNode CTree TwoThree TwoThreeSpine TwoThreeSearch.
From S2P Require Import TwoThreeInsert TwoThreeDeleteItem.

Section print.
Context {T : Type} `{KO : KeyOrder T}.
Implicit Types (t l m r : tree T) (k s x : T) (par : ptr) (fuel F h : nat).
Abbreviation hProp := (heapPropI (CNode T)).

#[local] Arguments print_loop : simpl never.
#[local] Arguments inorder_climb : simpl never.
#[local] Arguments preorder_climb : simpl never.

Lemma ordered_N2 n l k r :
  ordered (keys (N2 n l k r)) →
  ordered (keys l) ∧ ordered (keys r) ∧ all_lt (keys l) k ∧ all_gt (keys r) k.
Proof. simpl. rewrite ordered_middle ordered_app. tauto. Qed.
Lemma ordered_N3 n l k1 m k2 r :
  ordered (keys (N3 n l k1 m k2 r)) →
  ordered (keys l) ∧ ordered (keys m) ∧ ordered (keys r) ∧ key_lt k1 k2 ∧
  all_lt (keys l) k1 ∧ all_gt (keys m) k1 ∧ all_lt (keys m) k2 ∧ all_gt (keys r) k2 ∧
  all_gt (keys r) k1.
Proof.
  simpl. rewrite ordered_middle ordered_app ordered_middle all_gt_app all_gt_cons ordered_app. tauto.
Qed.

Lemma first_small t : t ≠ E → whole t → ∃ k, small_key (first_node t) = Some k ∧ k ∈ keys t.
Proof.
  intros Ht Hw. destruct (first_keys t Ht) as (post & Hk & _).
  pose proof (first_node_ne t Ht). pose proof (first_shape t Ht).
  assert (whole (first_node t)) as Hwf.
  { apply whole_holes. apply whole_holes in Hw. destruct (first_holes t Ht) as (a & Ha & _). lia. }
  destruct (first_node t); try done; eexists; (split; [done|]); rewrite Hk; simpl; set_solver.
Qed.
Lemma last_all_lt ks x k : last ks = Some x → all_lt ks k → key_lt x k.
Proof. intros Hx Hk. apply last_Some_elem_of in Hx. by eapply Forall_forall in Hk. Qed.
Lemma last_all_gt ks x k : last ks = Some x → all_gt ks k → key_lt k x.
Proof. intros Hx Hk. apply last_Some_elem_of in Hx. by eapply Forall_forall in Hk. Qed.
Lemma last_cons_last ks x k : last ks = Some x → last (k :: ks) = Some x.
Proof. intros Hx. by rewrite last_cons Hx. Qed.
Lemma last_app_last ks ks' x : last ks' = Some x → last (ks ++ ks') = Some x.
Proof. intros Hx. by rewrite last_app Hx. Qed.

Lemma TCompare_refl k : TCompare k k = EQUAL.
Proof. apply Z.eqb_eq, TCompare_EQUAL, key_eq_refl. Qed.

(** the loop goes on after the next key was found *)
Definition resume F next (Φ : list T → hProp) (pk : ptr * T) : hProp :=
  wp (match pk.1 with None => mret [] | Some _ => print_loop F next pk.1 pk.2 end) Φ.

(** one line of output *)
Lemma wp_print_loop next F p k (Φ : list T → hProp) :
  wp (next p k) (resume F next (λ out, Φ (k :: out))) ⊢ wp (print_loop (S F) next p k) Φ.
Proof.
  iIntros "H". rewrite {1}/print_loop -/print_loop. iApply wp_bind. iApply wp_wand.
  iSplitL "H"; [iExact "H"|].
  iIntros ([q k']) "H". iApply wp_bind. iApply wp_wand. iSplitL "H"; [iExact "H"|].
  iIntros (out) "H". by iApply wp_ret.
Qed.
Lemma resume_mono F next (Φ Ψ : list T → hProp) pk :
  (∀ out, Φ out = Ψ out) → resume F next Φ pk ⊢ resume F next Ψ pk.
Proof.
  iIntros (HΦ) "H". iApply wp_wand. iSplitL; [iExact "H"|]. iIntros (out) "H". by rewrite HΦ.
Qed.
Lemma resume_subtree F next t k (Φ : list T → hProp) :
  t ≠ E → wp (print_loop F next (ptr_of (first_node t)) k) Φ ⊢
  resume F next Φ (ptr_of (first_node t), k).
Proof. intros Ht. rewrite /resume /= match_ptr //. by apply first_node_ne. Qed.
Lemma resume_node F next n k (Φ : list T → hProp) :
  wp (print_loop F next (Some n) k) Φ ⊢ resume F next Φ (Some n, k).
Proof. done. Qed.

(** ** inorder *)

Lemma inorder_leaf2 fuel n s par (Φ : ptr * T → hProp) :
  is_tree (N2 n E s E) par ∗ (is_tree (N2 n E s E) par -∗ wp (inorder_climb fuel (Some n) s) Φ) ⊢
  wp (getNextInorderKey fuel (Some n) s) Φ.
Proof.
  iIntros "[Ht HΦ]". unfold getNextInorderKey. open_trees. wp_steps. iApply "HΦ". trees_done.
Qed.
Lemma inorder_leaf3_small fuel n s s' par (Φ : ptr * T → hProp) :
  is_tree (N3 n E s E s' E) par ∗ (is_tree (N3 n E s E s' E) par -∗ Φ (Some n, s')) ⊢
  wp (getNextInorderKey fuel (Some n) s) Φ.
Proof.
  iIntros "[Ht HΦ]". unfold getNextInorderKey. pose proof (TCompare_refl s).
  open_trees. wp_steps. iApply "HΦ". trees_done.
Qed.
Lemma inorder_leaf3_big fuel n s s' par (Φ : ptr * T → hProp) :
  key_lt s s' →
  is_tree (N3 n E s E s' E) par ∗
  (is_tree (N3 n E s E s' E) par -∗ wp (inorder_climb fuel (Some n) s') Φ) ⊢
  wp (getNextInorderKey fuel (Some n) s') Φ.
Proof.
  iIntros (Hs) "[Ht HΦ]". unfold getNextInorderKey. pose proof (TCompare_gt _ _ Hs).
  open_trees. wp_steps. iApply "HΦ". trees_done.
Qed.

(** the successor of an inner key is the first key of the subtree after it *)
Ltac inner_next r :=
  wp_steps; iApply (wp_getMinNode _ r); [done|done|]; iFrame; iIntros "?"; wp_steps;
  iApply (wp_first_small r); [done|done|]; iFrame; iIntros "?"; wp_steps.
Lemma inorder_inner2 fuel n l s r k par (Φ : ptr * T → hProp) :
  l ≠ E → r ≠ E → height r ≤ fuel → small_key (first_node r) = Some k →
  is_tree (N2 n l s r) par ∗ (is_tree (N2 n l s r) par -∗ Φ (ptr_of (first_node r), k)) ⊢
  wp (getNextInorderKey fuel (Some n) s) Φ.
Proof.
  iIntros (Hl Hr Hf Hk) "[Ht HΦ]". unfold getNextInorderKey. pose proof (TCompare_refl s).
  open_trees. wp_steps. rewrite not_null //. inner_next r. iApply "HΦ". trees_done.
Qed.
Lemma inorder_inner3_small fuel n l s m s' r k par (Φ : ptr * T → hProp) :
  l ≠ E → m ≠ E → height m ≤ fuel → small_key (first_node m) = Some k →
  is_tree (N3 n l s m s' r) par ∗
  (is_tree (N3 n l s m s' r) par -∗ Φ (ptr_of (first_node m), k)) ⊢
  wp (getNextInorderKey fuel (Some n) s) Φ.
Proof.
  iIntros (Hl Hr Hf Hk) "[Ht HΦ]". unfold getNextInorderKey. pose proof (TCompare_refl s).
  open_trees. wp_steps. rewrite not_null //. inner_next m. iApply "HΦ". trees_done.
Qed.
Lemma inorder_inner3_big fuel n l s m s' r k par (Φ : ptr * T → hProp) :
  l ≠ E → r ≠ E → height r ≤ fuel → small_key (first_node r) = Some k → key_lt s s' →
  is_tree (N3 n l s m s' r) par ∗
  (is_tree (N3 n l s m s' r) par -∗ Φ (ptr_of (first_node r), k)) ⊢
  wp (getNextInorderKey fuel (Some n) s') Φ.
Proof.
  iIntros (Hl Hr Hf Hk Hs) "[Ht HΦ]". unfold getNextInorderKey. pose proof (TCompare_refl s').
  pose proof (TCompare_gt _ _ Hs).
  open_trees. wp_steps. rewrite not_null //. inner_next r. iApply "HΦ". trees_done.
Qed.

(** a step of the climb from the child [t] of a node *)
Lemma climb_parent climb t n (Φ : ptr * T → hProp) x :
  t ≠ E → is_tree t (Some n) ∗
  (is_tree t (Some n) -∗
    wp (less ← small_is x (Some n) LESS;
        if less : bool then k ← getSmallKey (Some n); mret (Some n, k)
        else
          less ← size_is (Some n) threeNode &&& big_is x (Some n) LESS;
          if less : bool then k ← getBigKey (Some n); mret (Some n, k)
          else inorder_climb climb (Some n) x) Φ) ⊢
  wp (inorder_climb (S climb) (ptr_of t) x) Φ.
Proof.
  iIntros (Ht) "[Ht HΦ]". rewrite /inorder_climb -/inorder_climb. wp_bind.
  iApply (wp_getParent t); [done|]. iFrame "Ht". done.
Qed.
Lemma climb_from_left2 climb n l s r x par (Φ : ptr * T → hProp) :
  l ≠ E → key_lt x s →
  is_tree (N2 n l s r) par ∗ (is_tree (N2 n l s r) par -∗ Φ (Some n, s)) ⊢
  wp (inorder_climb (S climb) (ptr_of l) x) Φ.
Proof.
  iIntros (Hl Hx) "[Ht HΦ]". pose proof (TCompare_lt _ _ Hx). open_trees.
  iApply climb_parent; [done|]. iFrame. iIntros "?". wp_steps. iApply "HΦ". trees_done.
Qed.
Lemma climb_from_left3 climb n l s m s' r x par (Φ : ptr * T → hProp) :
  l ≠ E → key_lt x s →
  is_tree (N3 n l s m s' r) par ∗ (is_tree (N3 n l s m s' r) par -∗ Φ (Some n, s)) ⊢
  wp (inorder_climb (S climb) (ptr_of l) x) Φ.
Proof.
  iIntros (Hl Hx) "[Ht HΦ]". pose proof (TCompare_lt _ _ Hx). open_trees.
  iApply climb_parent; [done|]. iFrame. iIntros "?". wp_steps. iApply "HΦ". trees_done.
Qed.
Lemma climb_from_middle3 climb n l s m s' r x par (Φ : ptr * T → hProp) :
  m ≠ E → key_lt s x → key_lt x s' →
  is_tree (N3 n l s m s' r) par ∗ (is_tree (N3 n l s m s' r) par -∗ Φ (Some n, s')) ⊢
  wp (inorder_climb (S climb) (ptr_of m) x) Φ.
Proof.
  iIntros (Hl Hs Hx) "[Ht HΦ]". pose proof (TCompare_lt _ _ Hx). pose proof (TCompare_gt _ _ Hs).
  open_trees. iApply (climb_parent _ m); [done|]. iFrame. iIntros "?". wp_steps.
  iApply "HΦ". trees_done.
Qed.
Lemma climb_from_right2 climb n l s r x par (Φ : ptr * T → hProp) :
  r ≠ E → key_lt s x →
  is_tree (N2 n l s r) par ∗
  (is_tree (N2 n l s r) par -∗ wp (inorder_climb climb (Some n) x) Φ) ⊢
  wp (inorder_climb (S climb) (ptr_of r) x) Φ.
Proof.
  iIntros (Hl Hx) "[Ht HΦ]". pose proof (TCompare_gt _ _ Hx). open_trees.
  iApply (climb_parent _ r); [done|]. iFrame. iIntros "?". wp_steps. iApply "HΦ". trees_done.
Qed.
Lemma climb_from_right3 climb n l s m s' r x par (Φ : ptr * T → hProp) :
  r ≠ E → key_lt s x → key_lt s' x →
  is_tree (N3 n l s m s' r) par ∗
  (is_tree (N3 n l s m s' r) par -∗ wp (inorder_climb climb (Some n) x) Φ) ⊢
  wp (inorder_climb (S climb) (ptr_of r) x) Φ.
Proof.
  iIntros (Hl Hs Hx) "[Ht HΦ]". pose proof (TCompare_gt _ _ Hx). pose proof (TCompare_gt _ _ Hs).
  open_trees. iApply (climb_parent _ r); [done|]. iFrame. iIntros "?". wp_steps.
  iApply "HΦ". trees_done.
Qed.

(** the state in which the traversal of the subtree [t] ends: its last key [x]
    was written, the climb is at its root *)
Definition inorder_after fuel F h t (Φ : list T → hProp) : hProp :=
  ∀ x, ⟨last (keys t) = Some x⟩ -∗
    wp (inorder_climb (S fuel - h) (ptr_of t) x)
       (resume F (getNextInorderKey fuel) (λ out, Φ (keys t ++ out))).

(** the loop, started at the first key of [t], writes the keys of [t] *)
Definition inorder_writes t : Prop := ∀ fuel F h par k (Φ : list T → hProp),
  t ≠ E → whole t → balanced h t → ordered (keys t) → h ≤ fuel →
  small_key (first_node t) = Some k →
  is_tree t par ∗ (is_tree t par -∗ inorder_after fuel F h t Φ) ⊢
  wp (print_loop (length (keys t) + F) (getNextInorderKey fuel) (ptr_of (first_node t)) k) Φ.

Lemma inorder_two n l s r :
  inorder_writes l → inorder_writes r → inorder_writes (N2 n l s r).
Proof.
  intros IHl IHr fuel F [|h] par k Φ Ht Hw Hb Ho Hf Hk; try done; simpl in Hw, Hb.
  destruct Hw as [Hwl Hwr], Hb as [Hbl Hbr].
  apply ordered_N2 in Ho as (Hol & Hor & Hls & Hrs).
  destruct (tree_dec l) as [->|Hl].
  - simpl in Hbl. subst h. apply balanced_0 in Hbr as ->. injection Hk as <-.
    iIntros "[Ht HΦ]". iApply wp_print_loop. iApply inorder_leaf2. iFrame "Ht". iIntros "Ht".
    iSpecialize ("HΦ" with "Ht"). iSpecialize ("HΦ" $! s with "[//]").
    rewrite /= Nat.sub_0_r. done.
  - assert (r ≠ E) as Hr by (intros ->; simpl in Hbr; subst h; by apply balanced_0 in Hbl).
    rewrite first_node_N2 // in Hk *. iIntros "[(%big & %Hs & Hn & Hl & Hr) HΦ]".
    destruct (first_small r Hr Hwr) as (k' & Hk' & Hin).
    cbn [keys]. rewrite length_app /=.
    replace (length (keys l) + S (length (keys r)) + F)
      with (length (keys l) + (S (length (keys r) + F))) by lia.
    iApply (IHl _ _ h (Some n)); [done..|lia|done|]. iFrame "Hl". iIntros "Hl" (x Hx).
    replace (S fuel - h) with (S (fuel - h)) by lia.
    iApply (climb_from_left2 _ n l s r x par); [done|by eapply last_all_lt|].
    iSplitL "Hn Hl Hr"; [trees_done|]. iIntros "Ht". iApply resume_node.
    iApply wp_print_loop. iApply (inorder_inner2 _ n l s r k' par); [done|done| |done|].
    { rewrite (balanced_height h) //. lia. }
    iFrame "Ht". iIntros "(%big' & %Hs' & Hn & Hl & Hr)". iApply resume_subtree; [done|].
    iApply (IHr _ _ h (Some n)); [done..|lia|done|]. iFrame "Hr". iIntros "Hr" (y Hy).
    replace (S fuel - h) with (S (fuel - h)) by lia.
    iApply (climb_from_right2 _ n l s r y par); [done|by eapply last_all_gt|].
    iSplitL "Hn Hl Hr"; [trees_done|]. iIntros "Ht".
    iSpecialize ("HΦ" with "Ht"). iSpecialize ("HΦ" $! y with "[%]").
    { by apply last_app_last, last_cons_last. }
    iApply wp_wand. iSplitL; [iExact "HΦ"|]. iIntros (pk) "H".
    iApply (resume_mono with "H"). intros out. simpl. by rewrite -app_assoc.
Qed.
Lemma inorder_three n l s m s' r :
  inorder_writes l → inorder_writes m → inorder_writes r → inorder_writes (N3 n l s m s' r).
Proof.
  intros IHl IHm IHr fuel F [|h] par k Φ Ht Hw Hb Ho Hf Hk; try done; simpl in Hw, Hb.
  destruct Hw as (Hwl & Hwm & Hwr), Hb as (Hbl & Hbm & Hbr).
  apply ordered_N3 in Ho as (Hol & Hom & Hor & Hss & Hls & Hms & Hms' & Hrs' & Hrs).
  destruct (tree_dec l) as [->|Hl].
  - simpl in Hbl. subst h. apply balanced_0 in Hbr as ->. apply balanced_0 in Hbm as ->.
    injection Hk as <-. iIntros "[Ht HΦ]".
    iApply wp_print_loop. iApply inorder_leaf3_small. iFrame "Ht". iIntros "Ht".
    iApply resume_node. iApply wp_print_loop. iApply inorder_leaf3_big; [done|].
    iFrame "Ht". iIntros "Ht".
    iSpecialize ("HΦ" with "Ht"). iSpecialize ("HΦ" $! s' with "[//]").
    rewrite /= Nat.sub_0_r. done.
  - assert (r ≠ E) as Hr by (intros ->; simpl in Hbr; subst h; by apply balanced_0 in Hbl).
    assert (m ≠ E) as Hm by (intros ->; simpl in Hbm; subst h; by apply balanced_0 in Hbl).
    rewrite first_node_N3 // in Hk *. iIntros "[(Hn & Hl & Hm & Hr) HΦ]".
    destruct (first_small r Hr Hwr) as (k' & Hk' & _).
    destruct (first_small m Hm Hwm) as (k'' & Hk'' & _).
    cbn [keys]. rewrite length_app /= length_app /=.
    replace (length (keys l) + S (length (keys m) + S (length (keys r))) + F)
      with (length (keys l) + (S (length (keys m) + (S (length (keys r) + F))))) by lia.
    iApply (IHl _ _ h (Some n)); [done..|lia|done|]. iFrame "Hl". iIntros "Hl" (x Hx).
    replace (S fuel - h) with (S (fuel - h)) by lia.
    iApply (climb_from_left3 _ n l s m s' r x par); [done|by eapply last_all_lt|].
    iSplitL "Hn Hl Hm Hr"; [trees_done|]. iIntros "Ht". iApply resume_node.
    iApply wp_print_loop. iApply (inorder_inner3_small _ n l s m s' r k'' par); [done|done| |done|].
    { rewrite (balanced_height h) //. lia. }
    iFrame "Ht". iIntros "(Hn & Hl & Hm & Hr)". iApply resume_subtree; [done|].
    iApply (IHm _ _ h (Some n)); [done..|lia|done|]. iFrame "Hm". iIntros "Hm" (y Hy).
    replace (S fuel - h) with (S (fuel - h)) by lia.
    iApply (climb_from_middle3 _ n l s m s' r y par);
      [done|by eapply last_all_gt|by eapply last_all_lt|].
    iSplitL "Hn Hl Hm Hr"; [trees_done|]. iIntros "Ht". iApply resume_node.
    iApply wp_print_loop. iApply (inorder_inner3_big _ n l s m s' r k' par); [done|done| |done|done|].
    { rewrite (balanced_height h) //. lia. }
    iFrame "Ht". iIntros "(Hn & Hl & Hm & Hr)". iApply resume_subtree; [done|].
    iApply (IHr _ _ h (Some n)); [done..|lia|done|]. iFrame "Hr". iIntros "Hr" (z Hz).
    replace (S fuel - h) with (S (fuel - h)) by lia.
    iApply (climb_from_right3 _ n l s m s' r z par);
      [done|by eapply last_all_gt|by eapply last_all_gt|].
    iSplitL "Hn Hl Hm Hr"; [trees_done|]. iIntros "Ht".
    iSpecialize ("HΦ" with "Ht"). iSpecialize ("HΦ" $! z with "[%]").
    { by do 2 apply last_app_last, last_cons_last. }
    iApply wp_wand. iSplitL; [iExact "HΦ"|]. iIntros (pk) "H".
    iApply (resume_mono with "H"). intros out. simpl. rewrite -app_assoc /= -app_assoc //.
Qed.
Lemma inorder_subtree t : whole t → inorder_writes t.
Proof.
  induction t as [|n l IHl s r IHr|n l IHl s m IHm s' r IHr|n t _]; intros Hw; simpl in Hw;
    [by intros ???????| | |done]; destruct_and?; auto using inorder_two, inorder_three.
Qed.

(** ** postorder *)

(** the order in which [getNextPostorderKey] visits the keys: in a three-node
    the small key is written after the middle subtree *)
Fixpoint postorder_keys t : list T :=
  match t with
  | E => []
  | N2 _ l s r => postorder_keys l ++ postorder_keys r ++ [s]
  | N3 _ l s m s' r =>
      postorder_keys l ++ postorder_keys m ++ s :: postorder_keys r ++ [s']
  | Hole _ t => postorder_keys t
  end.

(** the second branch of [getNextPostorderKey]: from the node [child] to its parent *)
Definition postorder_up fuel (pChildNode : ptr) pKey : prog (CNode T) (ptr * T) :=
  p ← getParent pChildNode;
  match p with
  | None => mret (None, pKey)
  | Some _ =>
      z ← getSize p;
      match z with
      | twoNode =>
          l ← getChild p leftChild;
          if l =p? pChildNode then
            r ← getChild p rightChild; q ← getMinNode fuel r;
            k ← getSmallKey q; mret (q, k)
          else
            r ← getChild p rightChild;
            if r =p? pChildNode then k ← getSmallKey p; mret (p, k)
            else mret (p, pKey)
      | threeNode =>
          l ← getChild p leftChild;
          if l =p? pChildNode then
            m ← getChild p middleChild; q ← getMinNode fuel m;
            k ← getSmallKey q; mret (q, k)
          else
            m ← getChild p middleChild;
            if m =p? pChildNode then k ← getSmallKey p; mret (p, k)
            else
              r ← getChild p rightChild;
              if r =p? pChildNode then k ← getBigKey p; mret (p, k)
              else mret (p, pKey)
      | empty_node => mret (p, pKey)
      end
  end.
#[local] Arguments postorder_up : simpl never.

Lemma postorder_node2 fuel n l s r par (Φ : ptr * T → hProp) :
  is_tree (N2 n l s r) par ∗
  (is_tree (N2 n l s r) par -∗ wp (postorder_up fuel (Some n) s) Φ) ⊢
  wp (getNextPostorderKey fuel (Some n) s) Φ.
Proof.
  iIntros "[Ht HΦ]". unfold getNextPostorderKey. open_trees.
  wp_bind. wp_step. wp_bind. wp_step. wp_step. iApply "HΦ". trees_done.
Qed.
Lemma postorder_node3 fuel n l s m s' r par (Φ : ptr * T → hProp) :
  key_lt s s' →
  is_tree (N3 n l s m s' r) par ∗
  (is_tree (N3 n l s m s' r) par -∗ wp (postorder_up fuel (Some n) s') Φ) ⊢
  wp (getNextPostorderKey fuel (Some n) s') Φ.
Proof.
  iIntros (Hs) "[Ht HΦ]". pose proof (TCompare_gt _ _ Hs). unfold getNextPostorderKey. open_trees.
  do 7 wp_step. iApply "HΦ". trees_done.
Qed.
Lemma postorder_leaf3 fuel n s s' par (Φ : ptr * T → hProp) :
  is_tree (N3 n E s E s' E) par ∗ (is_tree (N3 n E s E s' E) par -∗ Φ (Some n, s')) ⊢
  wp (getNextPostorderKey fuel (Some n) s) Φ.
Proof.
  iIntros "[Ht HΦ]". unfold getNextPostorderKey. pose proof (TCompare_refl s).
  open_trees. wp_steps. iApply "HΦ". trees_done.
Qed.
Lemma postorder_inner3 fuel n l s m s' r k par (Φ : ptr * T → hProp) :
  l ≠ E → r ≠ E → height r ≤ fuel → small_key (first_node r) = Some k →
  is_tree (N3 n l s m s' r) par ∗
  (is_tree (N3 n l s m s' r) par -∗ Φ (ptr_of (first_node r), k)) ⊢
  wp (getNextPostorderKey fuel (Some n) s) Φ.
Proof.
  iIntros (Hl Hr Hf Hk) "[Ht HΦ]". unfold getNextPostorderKey. pose proof (TCompare_refl s).
  open_trees. wp_steps. rewrite not_null //. inner_next r. iApply "HΦ". trees_done.
Qed.

(** from a child to its parent *)
Ltac up_step t Ht :=
  rewrite /postorder_up; wp_bind; iApply (wp_getParent t); [exact Ht|]; iFrame; iIntros "?";
  wp_steps; rewrite ?ptr_eqb_refl; wp_steps.
Lemma postorder_left2 fuel n l s r k x par (Φ : ptr * T → hProp) :
  l ≠ E → r ≠ E → height r ≤ fuel → small_key (first_node r) = Some k →
  is_tree (N2 n l s r) par ∗
  (is_tree (N2 n l s r) par -∗ Φ (ptr_of (first_node r), k)) ⊢
  wp (postorder_up fuel (ptr_of l) x) Φ.
Proof.
  iIntros (Hl Hr Hf Hk) "[Ht HΦ]". open_trees. up_step l Hl. inner_next r.
  iApply "HΦ". trees_done.
Qed.
Lemma postorder_right2 fuel n l s r x par (Φ : ptr * T → hProp) :
  l ≠ E → r ≠ E →
  is_tree (N2 n l s r) par ∗ (is_tree (N2 n l s r) par -∗ Φ (Some n, s)) ⊢
  wp (postorder_up fuel (ptr_of r) x) Φ.
Proof.
  iIntros (Hl Hr) "[(%big & % & Hn & Hl & Hr) HΦ]".
  iDestruct (is_tree_disjoint with "[$Hl $Hr]") as %Hlr; [done|]. unfold node2.
  up_step r Hr. rewrite (ptr_eqb_neq (ptr_of l)) //. wp_steps. rewrite ptr_eqb_refl. wp_steps.
  iApply "HΦ". trees_done.
Qed.
Lemma postorder_left3 fuel n l s m s' r k x par (Φ : ptr * T → hProp) :
  l ≠ E → m ≠ E → height m ≤ fuel → small_key (first_node m) = Some k →
  is_tree (N3 n l s m s' r) par ∗
  (is_tree (N3 n l s m s' r) par -∗ Φ (ptr_of (first_node m), k)) ⊢
  wp (postorder_up fuel (ptr_of l) x) Φ.
Proof.
  iIntros (Hl Hm Hf Hk) "[Ht HΦ]". open_trees. up_step l Hl. inner_next m.
  iApply "HΦ". trees_done.
Qed.
Lemma postorder_middle3 fuel n l s m s' r x par (Φ : ptr * T → hProp) :
  l ≠ E → m ≠ E →
  is_tree (N3 n l s m s' r) par ∗ (is_tree (N3 n l s m s' r) par -∗ Φ (Some n, s)) ⊢
  wp (postorder_up fuel (ptr_of m) x) Φ.
Proof.
  iIntros (Hl Hm) "[(Hn & Hl & Hm & Hr) HΦ]".
  iDestruct (is_tree_disjoint with "[$Hl $Hm]") as %Hlm; [done|]. unfold node3.
  up_step m Hm. rewrite (ptr_eqb_neq (ptr_of l)) //. wp_steps. rewrite ptr_eqb_refl. wp_steps.
  iApply "HΦ". trees_done.
Qed.
Lemma postorder_right3 fuel n l s m s' r x par (Φ : ptr * T → hProp) :
  l ≠ E → m ≠ E → r ≠ E →
  is_tree (N3 n l s m s' r) par ∗ (is_tree (N3 n l s m s' r) par -∗ Φ (Some n, s')) ⊢
  wp (postorder_up fuel (ptr_of r) x) Φ.
Proof.
  iIntros (Hl Hm Hr) "[(Hn & Hl & Hm & Hr) HΦ]".
  iDestruct (is_tree_disjoint with "[$Hl $Hr]") as %Hlr; [done|].
  iDestruct (is_tree_disjoint with "[$Hm $Hr]") as %Hmr; [done|]. unfold node3.
  up_step r Hr. rewrite (ptr_eqb_neq (ptr_of l)) //. wp_steps.
  rewrite (ptr_eqb_neq (ptr_of m)) //. wp_steps. rewrite ptr_eqb_refl. wp_steps.
  iApply "HΦ". trees_done.
Qed.

(** the state in which the traversal of [t] ends: the last key of the root was written *)
Definition postorder_after fuel F t (Φ : list T → hProp) : hProp :=
  ∀ x, wp (postorder_up fuel (ptr_of t) x)
          (resume F (getNextPostorderKey fuel) (λ out, Φ (postorder_keys t ++ out))).

Definition postorder_writes t : Prop := ∀ fuel F h par k (Φ : list T → hProp),
  t ≠ E → whole t → balanced h t → ordered (keys t) → h ≤ fuel →
  small_key (first_node t) = Some k →
  is_tree t par ∗ (is_tree t par -∗ postorder_after fuel F t Φ) ⊢
  wp (print_loop (length (postorder_keys t) + F) (getNextPostorderKey fuel)
        (ptr_of (first_node t)) k) Φ.

Lemma postorder_two n l s r :
  postorder_writes l → postorder_writes r → postorder_writes (N2 n l s r).
Proof.
  intros IHl IHr fuel F [|h] par k Φ Ht Hw Hb Ho Hf Hk; try done; simpl in Hw, Hb.
  destruct Hw as [Hwl Hwr], Hb as [Hbl Hbr].
  apply ordered_N2 in Ho as (Hol & Hor & Hls & Hrs).
  destruct (tree_dec l) as [->|Hl].
  - simpl in Hbl. subst h. apply balanced_0 in Hbr as ->. injection Hk as <-.
    iIntros "[Ht HΦ]". iApply wp_print_loop. iApply postorder_node2. iFrame "Ht". iIntros "Ht".
    iApply ("HΦ" with "Ht").
  - assert (r ≠ E) as Hr by (intros ->; simpl in Hbr; subst h; by apply balanced_0 in Hbl).
    rewrite first_node_N2 // in Hk *. iIntros "[(%big & %Hs & Hn & Hl & Hr) HΦ]".
    destruct (first_small r Hr Hwr) as (k' & Hk' & _).
    cbn [postorder_keys]. rewrite !length_app /=.
    replace (length (postorder_keys l) + (length (postorder_keys r) + 1) + F)
      with (length (postorder_keys l) + (length (postorder_keys r) + S F)) by lia.
    iApply (IHl _ _ h (Some n)); [done..|lia|done|]. iFrame "Hl". iIntros "Hl" (x).
    iApply (postorder_left2 _ n l s r k' x par); [done|done| |done|].
    { rewrite (balanced_height h) //. lia. }
    iSplitL "Hn Hl Hr"; [trees_done|].
    iIntros "(%big' & %Hs' & Hn & Hl & Hr)". iApply resume_subtree; [done|].
    iApply (IHr _ _ h (Some n)); [done..|lia|done|]. iFrame "Hr". iIntros "Hr" (y).
    iApply (postorder_right2 _ n l s r y par); [done|done|].
    iSplitL "Hn Hl Hr"; [trees_done|]. iIntros "Ht". iApply resume_node.
    iApply wp_print_loop. iApply postorder_node2. iFrame "Ht". iIntros "Ht".
    iSpecialize ("HΦ" with "Ht"). iSpecialize ("HΦ" $! s).
    iApply wp_wand. iSplitL; [iExact "HΦ"|]. iIntros (pk) "H".
    iApply (resume_mono with "H"). intros out. simpl. by rewrite -!app_assoc.
Qed.
Lemma postorder_three n l s m s' r :
  postorder_writes l → postorder_writes m → postorder_writes r →
  postorder_writes (N3 n l s m s' r).
Proof.
  intros IHl IHm IHr fuel F [|h] par k Φ Ht Hw Hb Ho Hf Hk; try done; simpl in Hw, Hb.
  destruct Hw as (Hwl & Hwm & Hwr), Hb as (Hbl & Hbm & Hbr).
  apply ordered_N3 in Ho as (Hol & Hom & Hor & Hss & Hls & Hms & Hms' & Hrs' & Hrs).
  destruct (tree_dec l) as [->|Hl].
  - simpl in Hbl. subst h. apply balanced_0 in Hbr as ->. apply balanced_0 in Hbm as ->.
    injection Hk as <-. iIntros "[Ht HΦ]".
    iApply wp_print_loop. iApply postorder_leaf3. iFrame "Ht". iIntros "Ht".
    iApply resume_node. iApply wp_print_loop. iApply postorder_node3; [done|].
    iFrame "Ht". iIntros "Ht". iApply ("HΦ" with "Ht").
  - assert (r ≠ E) as Hr by (intros ->; simpl in Hbr; subst h; by apply balanced_0 in Hbl).
    assert (m ≠ E) as Hm by (intros ->; simpl in Hbm; subst h; by apply balanced_0 in Hbl).
    rewrite first_node_N3 // in Hk *. iIntros "[(Hn & Hl & Hm & Hr) HΦ]".
    destruct (first_small r Hr Hwr) as (k' & Hk' & _).
    destruct (first_small m Hm Hwm) as (k'' & Hk'' & _).
    cbn [postorder_keys]. rewrite !length_app /= !length_app /=.
    replace (length (postorder_keys l) +
        (length (postorder_keys m) + S (length (postorder_keys r) + 1)) + F)
      with (length (postorder_keys l) +
        (length (postorder_keys m) + S (length (postorder_keys r) + S F))) by lia.
    iApply (IHl _ _ h (Some n)); [done..|lia|done|]. iFrame "Hl". iIntros "Hl" (x).
    iApply (postorder_left3 _ n l s m s' r k'' x par); [done|done| |done|].
    { rewrite (balanced_height h) //. lia. }
    iSplitL "Hn Hl Hm Hr"; [trees_done|]. iIntros "(Hn & Hl & Hm & Hr)".
    iApply resume_subtree; [done|].
    iApply (IHm _ _ h (Some n)); [done..|lia|done|]. iFrame "Hm". iIntros "Hm" (y).
    iApply (postorder_middle3 _ n l s m s' r y par); [done|done|].
    iSplitL "Hn Hl Hm Hr"; [trees_done|]. iIntros "Ht". iApply resume_node.
    iApply wp_print_loop. iApply (postorder_inner3 _ n l s m s' r k' par); [done|done| |done|].
    { rewrite (balanced_height h) //. lia. }
    iFrame "Ht". iIntros "(Hn & Hl & Hm & Hr)". iApply resume_subtree; [done|].
    iApply (IHr _ _ h (Some n)); [done..|lia|done|]. iFrame "Hr". iIntros "Hr" (z).
    iApply (postorder_right3 _ n l s m s' r z par); [done|done|done|].
    iSplitL "Hn Hl Hm Hr"; [trees_done|]. iIntros "Ht". iApply resume_node.
    iApply wp_print_loop. iApply postorder_node3; [done|]. iFrame "Ht". iIntros "Ht".
    iSpecialize ("HΦ" with "Ht"). iSpecialize ("HΦ" $! s').
    iApply wp_wand. iSplitL; [iExact "HΦ"|]. iIntros (pk) "H".
    iApply (resume_mono with "H"). intros out. simpl. rewrite -!app_assoc /= -!app_assoc //.
Qed.
Lemma postorder_subtree t : whole t → postorder_writes t.
Proof.
  induction t as [|n l IHl s r IHr|n l IHl s m IHm s' r IHr|n t _]; intros Hw; simpl in Hw;
    [by intros ???????| | |done]; destruct_and?; auto using postorder_two, postorder_three.
Qed.

(** ** preorder *)

Fixpoint preorder_keys t : list T :=
  match t with
  | E => []
  | N2 _ l s r => s :: preorder_keys l ++ preorder_keys r
  | N3 _ l s m s' r => s :: preorder_keys l ++ s' :: preorder_keys m ++ preorder_keys r
  | Hole _ t => preorder_keys t
  end.

(** the end of [getNextPreorderKey]: the climb stopped at [p] below its child [pPrevNode] *)
Definition preorder_turn pKey (pp : ptr * ptr) : prog (CNode T) (ptr * T) :=
  let '(p, pPrevNode) := pp in
  match p with
  | None => mret (None, pKey)
  | Some _ =>
      right ← (size_is p twoNode &&&
                 (l ← getChild p leftChild; same l pPrevNode)) |||
              (size_is p threeNode &&&
                 (m ← getChild p middleChild; same m pPrevNode));
      if right : bool then
        r ← getChild p rightChild; k ← getSmallKey r; mret (r, k)
      else
        big ← (l ← getChild p leftChild; same l pPrevNode) &&& size_is p threeNode;
        if big : bool then k ← getBigKey p; mret (p, k)
        else mret (p, pKey)
  end.
Definition preorder_up climb p x (Φ : ptr * T → hProp) : hProp :=
  wp (preorder_climb climb p) (λ pp, wp (preorder_turn x pp) Φ).

Lemma wp_root_small t par k Φ :
  small_key t = Some k →
  is_tree t par ∗ (is_tree t par -∗ Φ k) ⊢ wp (getSmallKey (ptr_of t)) Φ.
Proof.
  destruct t as [|n l s r|n l s m s' r|n t]; try done; intros [= ->]; iIntros "[Ht HΦ]"; open_trees;
    cbn [ptr_of]; wp_steps; iApply "HΦ"; trees_done.
Qed.
Lemma root_small t : t ≠ E → whole t → ∃ k, small_key t = Some k.
Proof. destruct t; naive_solver. Qed.

(** the second case reads the big key of a two-node: it was never set *)
Lemma preorder_leaf2 fuel n s par (Φ : ptr * T → hProp) :
  is_Some (unset (T := T)) →
  is_tree (N2 n E s E) par ∗
  (is_tree (N2 n E s E) par -∗ preorder_up fuel (Some n) s Φ) ⊢
  wp (getNextPreorderKey fuel (Some n) s) Φ.
Proof.
  iIntros (Hu) "[(%big & %Hb & Ht) HΦ]". destruct (Hb Hu) as [b ->]. unfold getNextPreorderKey.
  pose proof (TCompare_refl s).
  iDestruct "Ht" as "(Hn & H1 & H2)". unfold node2.
  wp_steps. destruct (TCompare s b =? EQUAL)%Z; wp_steps.
  all: iApply "HΦ"; trees_done.
Qed.
Lemma preorder_leaf3_small fuel n s s' par (Φ : ptr * T → hProp) :
  is_tree (N3 n E s E s' E) par ∗ (is_tree (N3 n E s E s' E) par -∗ Φ (Some n, s')) ⊢
  wp (getNextPreorderKey fuel (Some n) s) Φ.
Proof.
  iIntros "[Ht HΦ]". unfold getNextPreorderKey. pose proof (TCompare_refl s).
  open_trees. wp_steps. iApply "HΦ". trees_done.
Qed.
Lemma preorder_leaf3_big fuel n s s' par (Φ : ptr * T → hProp) :
  key_lt s s' →
  is_tree (N3 n E s E s' E) par ∗
  (is_tree (N3 n E s E s' E) par -∗ preorder_up fuel (Some n) s' Φ) ⊢
  wp (getNextPreorderKey fuel (Some n) s') Φ.
Proof.
  iIntros (Hs) "[Ht HΦ]". unfold getNextPreorderKey. pose proof (TCompare_refl s').
  pose proof (TCompare_gt _ _ Hs).
  open_trees. wp_steps. iApply "HΦ". trees_done.
Qed.
Lemma preorder_inner2 fuel n l s r k par (Φ : ptr * T → hProp) :
  l ≠ E → small_key l = Some k →
  is_tree (N2 n l s r) par ∗ (is_tree (N2 n l s r) par -∗ Φ (ptr_of l, k)) ⊢
  wp (getNextPreorderKey fuel (Some n) s) Φ.
Proof.
  iIntros (Hl Hk) "[Ht HΦ]". unfold getNextPreorderKey. pose proof (TCompare_refl s).
  open_trees. wp_steps. rewrite not_null //. wp_steps.
  iApply (wp_root_small l); [done|]. iFrame. iIntros "?". wp_steps. iApply "HΦ". trees_done.
Qed.
Lemma preorder_inner3_small fuel n l s m s' r k par (Φ : ptr * T → hProp) :
  l ≠ E → small_key l = Some k →
  is_tree (N3 n l s m s' r) par ∗ (is_tree (N3 n l s m s' r) par -∗ Φ (ptr_of l, k)) ⊢
  wp (getNextPreorderKey fuel (Some n) s) Φ.
Proof.
  iIntros (Hl Hk) "[Ht HΦ]". unfold getNextPreorderKey. pose proof (TCompare_refl s).
  open_trees. do 2 (wp_steps; rewrite not_null //). wp_steps.
  iApply (wp_root_small l); [done|]. iFrame. iIntros "?". wp_steps. iApply "HΦ". trees_done.
Qed.
Lemma preorder_inner3_big fuel n l s m s' r k par (Φ : ptr * T → hProp) :
  l ≠ E → key_lt s s' → small_key m = Some k →
  is_tree (N3 n l s m s' r) par ∗ (is_tree (N3 n l s m s' r) par -∗ Φ (ptr_of m, k)) ⊢
  wp (getNextPreorderKey fuel (Some n) s') Φ.
Proof.
  iIntros (Hl Hs Hk) "[Ht HΦ]". unfold getNextPreorderKey. pose proof (TCompare_refl s').
  pose proof (TCompare_gt _ _ Hs). open_trees. wp_steps. rewrite not_null //. wp_steps.
  iApply (wp_root_small m); [done|]. iFrame. iIntros "?". wp_steps. iApply "HΦ". trees_done.
Qed.

(** a round of the loop that climbs from the child [t] *)
Ltac turn_step t Ht :=
  rewrite /preorder_up /preorder_climb -/preorder_climb; wp_bind;
  iApply (wp_getParent t); [exact Ht|]; iFrame; iIntros "?"; wp_steps.
(** the next comparison of two pointers *)
Ltac ptr_ne := rewrite ptr_eqb_neq; [|first [assumption|by apply not_eq_sym]].
Ltac turn_bind := rewrite /preorder_turn; wp_steps; rewrite /same; wp_steps.
Lemma preorder_left2 fuel n l s r k x par (Φ : ptr * T → hProp) :
  l ≠ E → r ≠ E → small_key r = Some k →
  is_tree (N2 n l s r) par ∗ (is_tree (N2 n l s r) par -∗ Φ (ptr_of r, k)) ⊢
  preorder_up (S fuel) (ptr_of l) x Φ.
Proof.
  iIntros (Hl Hr Hk) "[(%big & % & Hn & Hl & Hr) HΦ]".
  iDestruct (is_tree_disjoint with "[$Hl $Hr]") as %Hlr; [done|]. unfold node2.
  turn_step l Hl. ptr_ne. wp_steps. turn_bind. rewrite ptr_eqb_refl. wp_steps.
  iApply (wp_root_small r); [done|]. iFrame. iIntros "?". wp_steps. iApply "HΦ". trees_done.
Qed.
Lemma preorder_right2 fuel n l s r x par (Φ : ptr * T → hProp) :
  r ≠ E →
  is_tree (N2 n l s r) par ∗ (is_tree (N2 n l s r) par -∗ preorder_up fuel (Some n) x Φ) ⊢
  preorder_up (S fuel) (ptr_of r) x Φ.
Proof.
  iIntros (Hr) "[Ht HΦ]". open_trees. turn_step r Hr. rewrite ptr_eqb_refl. wp_steps.
  iApply "HΦ". trees_done.
Qed.
Lemma preorder_left3 fuel n l s m s' r x par (Φ : ptr * T → hProp) :
  l ≠ E →
  is_tree (N3 n l s m s' r) par ∗ (is_tree (N3 n l s m s' r) par -∗ Φ (Some n, s')) ⊢
  preorder_up (S fuel) (ptr_of l) x Φ.
Proof.
  iIntros (Hl) "[(Hn & Hl & Hm & Hr) HΦ]".
  iDestruct (is_tree_disjoint with "[$Hl $Hr]") as %Hlr; [done|].
  iDestruct (is_tree_disjoint with "[$Hl $Hm]") as %Hlm; [done|]. unfold node3.
  turn_step l Hl. ptr_ne. wp_steps. turn_bind. ptr_ne. wp_steps. rewrite ptr_eqb_refl. wp_steps.
  iApply "HΦ". trees_done.
Qed.
Lemma preorder_middle3 fuel n l s m s' r k x par (Φ : ptr * T → hProp) :
  m ≠ E → small_key r = Some k →
  is_tree (N3 n l s m s' r) par ∗ (is_tree (N3 n l s m s' r) par -∗ Φ (ptr_of r, k)) ⊢
  preorder_up (S fuel) (ptr_of m) x Φ.
Proof.
  iIntros (Hm Hk) "[(Hn & Hl & Hm & Hr) HΦ]".
  iDestruct (is_tree_disjoint with "[$Hm $Hr]") as %Hmr; [done|]. unfold node3.
  turn_step m Hm. ptr_ne. wp_steps. turn_bind. rewrite ptr_eqb_refl. wp_steps.
  iApply (wp_root_small r); [done|]. iFrame. iIntros "?". wp_steps. iApply "HΦ". trees_done.
Qed.
Lemma preorder_right3 fuel n l s m s' r x par (Φ : ptr * T → hProp) :
  r ≠ E →
  is_tree (N3 n l s m s' r) par ∗
  (is_tree (N3 n l s m s' r) par -∗ preorder_up fuel (Some n) x Φ) ⊢
  preorder_up (S fuel) (ptr_of r) x Φ.
Proof.
  iIntros (Hr) "[Ht HΦ]". open_trees. turn_step r Hr. rewrite ptr_eqb_refl. wp_steps.
  iApply "HΦ". trees_done.
Qed.
Lemma resume_root F next t k (Φ : list T → hProp) :
  t ≠ E → wp (print_loop F next (ptr_of t) k) Φ ⊢ resume F next Φ (ptr_of t, k).
Proof. intros Ht. rewrite /resume /= match_ptr //. Qed.

Lemma preorder_up_mono climb q x F next (Φ Ψ : list T → hProp) :
  (∀ out, Φ out = Ψ out) →
  preorder_up climb q x (resume F next Φ) ⊢ preorder_up climb q x (resume F next Ψ).
Proof.
  iIntros (HΦ) "H". iApply wp_wand. iSplitL; [iExact "H"|]. iIntros (pp) "H".
  iApply wp_wand. iSplitL; [iExact "H"|]. iIntros (pk) "H". by iApply (resume_mono with "H").
Qed.

(** the traversal of [t] ends in a climb from its root *)
Definition preorder_after fuel F h t (Φ : list T → hProp) : hProp :=
  ∀ x, preorder_up (S fuel - h) (ptr_of t) x
         (resume F (getNextPreorderKey fuel) (λ out, Φ (preorder_keys t ++ out))).

Definition preorder_writes t : Prop := ∀ fuel F h par k (Φ : list T → hProp),
  t ≠ E → whole t → balanced h t → ordered (keys t) → h ≤ fuel → small_key t = Some k →
  is_tree t par ∗ (is_tree t par -∗ preorder_after fuel F h t Φ) ⊢
  wp (print_loop (length (preorder_keys t) + F) (getNextPreorderKey fuel) (ptr_of t) k) Φ.

Lemma preorder_two n l s r :
  is_Some (unset (T := T)) → preorder_writes l → preorder_writes r → preorder_writes (N2 n l s r).
Proof.
  intros Hu IHl IHr fuel F [|h] par k Φ Ht Hw Hb Ho Hf Hk; try done; simpl in Hw, Hb.
  destruct Hw as [Hwl Hwr], Hb as [Hbl Hbr].
  apply ordered_N2 in Ho as (Hol & Hor & Hls & Hrs). injection Hk as <-.
  destruct (tree_dec l) as [->|Hl].
  - simpl in Hbl. subst h. apply balanced_0 in Hbr as ->.
    iIntros "[Ht HΦ]". iApply wp_print_loop. iApply preorder_leaf2; [done|].
    iFrame "Ht". iIntros "Ht".
    iSpecialize ("HΦ" with "Ht"). rewrite /preorder_after /= Nat.sub_0_r. iApply "HΦ".
  - assert (r ≠ E) as Hr by (intros ->; simpl in Hbr; subst h; by apply balanced_0 in Hbl).
    iIntros "[Ht HΦ]". destruct (root_small l Hl Hwl) as [k Hk].
    destruct (root_small r Hr Hwr) as [k' Hk'].
    cbn [preorder_keys length plus]. rewrite !length_app.
    rewrite -Nat.add_assoc.
    iApply wp_print_loop. iApply (preorder_inner2 _ n l s r k par); [done|done|].
    iFrame "Ht". iIntros "(%big & %Hs & Hn & Hl & Hr)". iApply resume_root; [done|].
    iApply (IHl _ _ h (Some n)); [done..|lia|done|]. iFrame "Hl". iIntros "Hl" (x).
    replace (S fuel - h) with (S (fuel - h)) by lia.
    iApply (preorder_left2 _ n l s r k' x par); [done..|].
    iSplitL "Hn Hl Hr"; [trees_done|]. iIntros "(%big' & %Hs' & Hn & Hl & Hr)".
    iApply resume_root; [done|].
    iApply (IHr _ _ h (Some n)); [done..|lia|done|]. iFrame "Hr". iIntros "Hr" (y).
    replace (S fuel - h) with (S (fuel - h)) by lia.
    iApply (preorder_right2 _ n l s r y par); [done|].
    iSplitL "Hn Hl Hr"; [trees_done|]. iIntros "Ht".
    iSpecialize ("HΦ" with "Ht"). iSpecialize ("HΦ" $! y).
    iApply (preorder_up_mono with "HΦ"). intros out. simpl. by rewrite -app_assoc.
Qed.
Lemma preorder_three n l s m s' r :
  preorder_writes l → preorder_writes m → preorder_writes r → preorder_writes (N3 n l s m s' r).
Proof.
  intros IHl IHm IHr fuel F [|h] par k Φ Ht Hw Hb Ho Hf Hk; try done; simpl in Hw, Hb.
  destruct Hw as (Hwl & Hwm & Hwr), Hb as (Hbl & Hbm & Hbr).
  apply ordered_N3 in Ho as (Hol & Hom & Hor & Hss & Hls & Hms & Hms' & Hrs' & Hrs).
  injection Hk as <-.
  destruct (tree_dec l) as [->|Hl].
  - simpl in Hbl. subst h. apply balanced_0 in Hbr as ->. apply balanced_0 in Hbm as ->.
    iIntros "[Ht HΦ]".
    iApply wp_print_loop. iApply preorder_leaf3_small. iFrame "Ht". iIntros "Ht".
    iApply resume_node. iApply wp_print_loop. iApply preorder_leaf3_big; [done|].
    iFrame "Ht". iIntros "Ht".
    iSpecialize ("HΦ" with "Ht"). rewrite /preorder_after /= Nat.sub_0_r. iApply "HΦ".
  - assert (r ≠ E) as Hr by (intros ->; simpl in Hbr; subst h; by apply balanced_0 in Hbl).
    assert (m ≠ E) as Hm by (intros ->; simpl in Hbm; subst h; by apply balanced_0 in Hbl).
    iIntros "[Ht HΦ]". destruct (root_small l Hl Hwl) as [k Hk].
    destruct (root_small m Hm Hwm) as [k'' Hk'']. destruct (root_small r Hr Hwr) as [k' Hk'].
    cbn [preorder_keys length plus]. rewrite !length_app /= length_app.
    replace (length (preorder_keys l) +
        S (length (preorder_keys m) + length (preorder_keys r)) + F)
      with (length (preorder_keys l) +
        S (length (preorder_keys m) + (length (preorder_keys r) + F))) by lia.
    iApply wp_print_loop. iApply (preorder_inner3_small _ n l s m s' r k par); [done|done|].
    iFrame "Ht". iIntros "(Hn & Hl & Hm & Hr)". iApply resume_root; [done|].
    iApply (IHl _ _ h (Some n)); [done..|lia|done|]. iFrame "Hl". iIntros "Hl" (x).
    replace (S fuel - h) with (S (fuel - h)) by lia.
    iApply (preorder_left3 _ n l s m s' r x par); [done|].
    iSplitL "Hn Hl Hm Hr"; [trees_done|]. iIntros "Ht". iApply resume_node.
    iApply wp_print_loop. iApply (preorder_inner3_big _ n l s m s' r k'' par); [done..|].
    iFrame "Ht". iIntros "(Hn & Hl & Hm & Hr)". iApply resume_root; [done|].
    iApply (IHm _ _ h (Some n)); [done..|lia|done|]. iFrame "Hm". iIntros "Hm" (y).
    replace (S fuel - h) with (S (fuel - h)) by lia.
    iApply (preorder_middle3 _ n l s m s' r k' y par); [done..|].
    iSplitL "Hn Hl Hm Hr"; [trees_done|]. iIntros "(Hn & Hl & Hm & Hr)".
    iApply resume_root; [done|].
    iApply (IHr _ _ h (Some n)); [done..|lia|done|]. iFrame "Hr". iIntros "Hr" (z).
    replace (S fuel - h) with (S (fuel - h)) by lia.
    iApply (preorder_right3 _ n l s m s' r z par); [done|].
    iSplitL "Hn Hl Hm Hr"; [trees_done|]. iIntros "Ht".
    iSpecialize ("HΦ" with "Ht"). iSpecialize ("HΦ" $! z).
    iApply (preorder_up_mono with "HΦ"). intros out. simpl. rewrite -app_assoc /= -app_assoc //.
Qed.
Lemma preorder_subtree t : is_Some (unset (T := T)) → whole t → preorder_writes t.
Proof.
  intros Hu. induction t as [|n l IHl s r IHr|n l IHl s m IHm s' r IHr|n t _]; intros Hw;
    simpl in Hw; [by intros ???????| | |done]; destruct_and?;
    auto using preorder_two, preorder_three.
Qed.

(** ** [print] *)

Lemma length_postorder t : whole t → length (postorder_keys t) = length (keys t).
Proof.
  induction t; simpl; intros; destruct_and?; repeat (rewrite length_app /=); try done;
    repeat match goal with H : whole ?t → _, H' : whole ?t |- _ => specialize (H H') end; lia.
Qed.
Lemma length_preorder t : whole t → length (preorder_keys t) = length (keys t).
Proof.
  induction t; simpl; intros; destruct_and?; repeat (rewrite length_app /=); try done;
    repeat match goal with H : whole ?t → _, H' : whole ?t |- _ => specialize (H H') end; lia.
Qed.
Lemma balanced_length h t : whole t → balanced h t → h ≤ length (keys t).
Proof.
  revert h. induction t as [|n l IHl s r IHr|n l IHl s m IHm s' r IHr|n t _]; intros [|h] Hw Hb;
    simpl in *; try done; rewrite ?length_app /=; try lia; destruct_and?.
  - assert (h ≤ length (keys l)) by auto. lia.
  - assert (h ≤ length (keys l)) by auto. lia.
Qed.

(** the keys in the order of a traversal *)
Definition traversal (o : eTreeTraversal) t : list T :=
  match o with inorder => keys t | preorder => preorder_keys t | postorder => postorder_keys t end.

Lemma print_inorder fuel h t k (Φ : list T → hProp) :
  wf h t → t ≠ E → length (keys t) ≤ fuel → small_key (first_node t) = Some k →
  is_tree t None ∗ (is_tree t None -∗ Φ (keys t)) ⊢
  wp (print_loop fuel (getNextInorderKey fuel) (ptr_of (first_node t)) k) Φ.
Proof.
  intros [Hb Hw Ho] Ht Hf Hk. pose proof (balanced_length _ _ Hw Hb) as Hh.
  replace fuel with (length (keys t) + (fuel - length (keys t))) at 1 by lia. iIntros "[Ht HΦ]".
  iApply (inorder_subtree t Hw _ _ h None); [done..|lia|done|]. iFrame "Ht". iIntros "Ht" (x Hx).
  replace (S fuel - h) with (S (fuel - h)) by lia. rewrite /inorder_climb -/inorder_climb.
  wp_bind. iApply wp_getParent; [done|]. iFrame "Ht". iIntros "Ht". wp_ret.
  rewrite /resume /=. wp_ret. rewrite app_nil_r. by iApply "HΦ".
Qed.
Lemma print_postorder fuel h t k (Φ : list T → hProp) :
  wf h t → t ≠ E → length (keys t) ≤ fuel → small_key (first_node t) = Some k →
  is_tree t None ∗ (is_tree t None -∗ Φ (postorder_keys t)) ⊢
  wp (print_loop fuel (getNextPostorderKey fuel) (ptr_of (first_node t)) k) Φ.
Proof.
  intros [Hb Hw Ho] Ht Hf Hk. pose proof (balanced_length _ _ Hw Hb) as Hh.
  pose proof (length_postorder t Hw) as Hl.
  replace fuel with (length (postorder_keys t) + (fuel - length (keys t))) at 1 by lia.
  iIntros "[Ht HΦ]".
  iApply (postorder_subtree t Hw _ _ h None); [done..|lia|done|]. iFrame "Ht". iIntros "Ht" (x).
  rewrite /postorder_up. wp_bind. iApply wp_getParent; [done|]. iFrame "Ht". iIntros "Ht". wp_ret.
  rewrite /resume /=. wp_ret. rewrite app_nil_r. by iApply "HΦ".
Qed.
Lemma print_preorder fuel h t k (Φ : list T → hProp) :
  is_Some (unset (T := T)) → wf h t → t ≠ E → length (keys t) ≤ fuel → small_key t = Some k →
  is_tree t None ∗ (is_tree t None -∗ Φ (preorder_keys t)) ⊢
  wp (print_loop fuel (getNextPreorderKey fuel) (ptr_of t) k) Φ.
Proof.
  intros Hu [Hb Hw Ho] Ht Hf Hk. pose proof (balanced_length _ _ Hw Hb) as Hh.
  pose proof (length_preorder t Hw) as Hl.
  replace fuel with (length (preorder_keys t) + (fuel - length (keys t))) at 1 by lia.
  iIntros "[Ht HΦ]".
  iApply (preorder_subtree t Hu Hw _ _ h None); [done..|lia|done|]. iFrame "Ht". iIntros "Ht" (x).
  replace (S fuel - h) with (S (fuel - h)) by lia. rewrite /preorder_up /preorder_climb -/preorder_climb.
  wp_bind. iApply wp_getParent; [done|]. iFrame "Ht". iIntros "Ht". wp_ret. cbn [preorder_turn]. wp_ret.
  rewrite /resume /=. wp_ret. rewrite app_nil_r. by iApply "HΦ".
Qed.

Lemma wp_print fuel o h t :
  wf h t → t ≠ E → length (keys t) ≤ fuel → (o = preorder → is_Some (unset (T := T))) →
  is_tree t None ⊢
  wp (print fuel (ptr_of t) o) (λ out,
    ⟨out = (FAILURE, traversal o t, Z.of_nat (length (keys t)))⟩ ∗ is_tree t None).
Proof.
  intros Hwf Ht Hf Hu. destruct Hwf as [Hb Hw Ho] eqn:Heq. clear Heq.
  pose proof (balanced_length _ _ Hw Hb) as Hh. pose proof (balanced_height h t Hb).
  destruct (first_small t Ht Hw) as (k & Hk & _).
  destruct (root_small t Ht Hw) as (k' & Hk'). iIntros "Ht". unfold print.
  destruct (ptr_of t) as [n|] eqn:Hn; [|by destruct t]. rewrite -Hn. wp_bind. destruct o.
  - iApply wp_getMinNode; [done|lia|]. iFrame "Ht". iIntros "Ht". wp_bind.
    iApply wp_first_small; [done|done|]. iFrame "Ht". iIntros "Ht". wp_bind.
    iApply (print_inorder _ h); [done..|]. iFrame "Ht". iIntros "Ht". wp_ret. by iFrame.
  - wp_ret. wp_bind. iApply wp_root_small; [done|]. iFrame "Ht". iIntros "Ht". wp_bind.
    iApply (print_preorder _ h); [by apply Hu|done..|]. iFrame "Ht". iIntros "Ht". wp_ret. iFrame.
    by rewrite length_preorder.
  - iApply wp_getMinNode; [done|lia|]. iFrame "Ht". iIntros "Ht". wp_bind.
    iApply wp_first_small; [done|done|]. iFrame "Ht". iIntros "Ht". wp_bind.
    iApply (print_postorder _ h); [done..|]. iFrame "Ht". iIntros "Ht". wp_ret. iFrame.
    by rewrite length_postorder.
Qed.
End print.
