(* ===== verification/TwoThreeClass.v ===== *)
(** The class [CTree] seen from outside: what its member functions promise on a
    heap that holds a tree.

    [is_CTree root ks h] says that the heap [h] is exactly a balanced 2-3 tree
    below [root] whose keys, in order, are [ks].  The contract of the class is
    that of an ordered set: each operation does on the heap what a function on
    the list [ks] does. *)

From iris.proofmode Require Import proofmode.
From stdpp Require Import sorting.
From S2P Require Import Prelude Heap HeapTactics CNode CTree TwoThree TwoThreeSpine TwoThreeSearch.
From S2P Require Import TwoThreeInsert TwoThreeRepair TwoThreeDelete TwoThreeDeleteItem.
From S2P Require Import TwoThreeRemoveAll TwoThreePrint.

(** ** Member functions that only read *)

Section read_only_tree.
Context {T : Type} `{Key T}.
Implicit Types (k : T) (root p q : ptr) (fuel : nat).

#[export] Instance ro_getChild p i : ReadOnly (getChild (T := T) p i).
Proof. apply _. Qed.
#[export] Instance ro_getParent p : ReadOnly (getParent (T := T) p).
Proof. apply _. Qed.
#[export] Instance ro_getSmallKey p : ReadOnly (getSmallKey (T := T) p).
Proof. apply _. Qed.
#[export] Instance ro_getBigKey p : ReadOnly (getBigKey (T := T) p).
Proof. apply _. Qed.
#[export] Instance ro_getSize p : ReadOnly (getSize (T := T) p).
Proof. apply _. Qed.
#[export] Instance ro_isLeaf p : ReadOnly (isLeaf (T := T) p).
Proof. apply _. Qed.
#[export] Instance ro_small_is k p c : ReadOnly (small_is k p c).
Proof. apply _. Qed.
#[export] Instance ro_big_is k p c : ReadOnly (big_is k p c).
Proof. apply _. Qed.
#[export] Instance ro_size_is p (z : eNodeSize) : ReadOnly (size_is (T := T) p z).
Proof. apply _. Qed.
#[export] Instance ro_same p q : ReadOnly (same (T := T) p q).
Proof. unfold same. apply _. Qed.

#[export] Instance ro_search_loop fuel k p : ReadOnly (search_loop fuel k p).
Proof. revert p. induction fuel; intros p; simpl; apply _. Qed.
#[export] Instance ro_find_key fuel root k : ReadOnly (find_key fuel root k).
Proof. unfold find_key, find, search, deref. apply _. Qed.
#[export] Instance ro_getMinNode fuel p : ReadOnly (getMinNode (T := T) fuel p).
Proof. revert p. induction fuel; intros p; simpl; apply _. Qed.
#[export] Instance ro_inorder_climb fuel p k : ReadOnly (inorder_climb fuel p k).
Proof. revert p. induction fuel; intros p; simpl; apply _. Qed.
#[export] Instance ro_preorder_climb fuel p : ReadOnly (preorder_climb (T := T) fuel p).
Proof. revert p. induction fuel; intros p; simpl; apply _. Qed.
#[export] Instance ro_inorder fuel p k : ReadOnly (getNextInorderKey fuel p k).
Proof. unfold getNextInorderKey. apply _. Qed.
#[export] Instance ro_postorder fuel p k : ReadOnly (getNextPostorderKey fuel p k).
Proof. unfold getNextPostorderKey. apply _. Qed.
#[export] Instance ro_preorder fuel p k : ReadOnly (getNextPreorderKey fuel p k).
Proof. unfold getNextPreorderKey. apply _. Qed.
#[export] Instance ro_print_loop fuel next p k :
  (∀ p k, ReadOnly (next p k)) → ReadOnly (print_loop (T := T) fuel next p k).
Proof. intros Hn. revert p k. induction fuel; intros p k; simpl; apply _. Qed.
#[export] Instance ro_print fuel root o : ReadOnly (print (T := T) fuel root o).
Proof. unfold print. destruct o; apply _. Qed.
End read_only_tree.

(** ** Height and number of keys *)

Section height.
Context {T : Type}.
Implicit Types (t : tree T) (c : list (frame T)) (d : nat).

Lemma length_lower d t : whole t → balanced d t → 2 ^ d ≤ S (length (keys t)).
Proof.
  revert d. induction t as [|n l IHl s r IHr|n l IHl s m IHm s' r IHr|n t _]; intros [|d] Hw Hb;
    simpl in Hw, Hb; try done; cbn [keys]; rewrite ?length_app /= ?length_app /=; try lia; destruct_and?.
  - assert (2 ^ d ≤ S (length (keys l))) by auto. assert (2 ^ d ≤ S (length (keys r))) by auto. lia.
  - assert (2 ^ d ≤ S (length (keys l))) by auto. assert (2 ^ d ≤ S (length (keys r))) by auto. lia.
Qed.
Lemma height_log d t : whole t → balanced d t → d ≤ Nat.log2 (S (length (keys t))).
Proof.
  intros Hw Hb. pose proof (length_lower d t Hw Hb).
  by apply (Nat.log2_le_pow2 (S (length (keys t))) d); [lia|].
Qed.

Lemma length_nodes d t : whole t → balanced d t → nodes t ≤ length (keys t).
Proof.
  revert d. induction t as [|n l IHl s r IHr|n l IHl s m IHm s' r IHr|n t _]; intros [|d] Hw Hb;
    simpl in Hw, Hb; try done; cbn [keys nodes]; rewrite ?length_app /= ?length_app /=; try lia;
    destruct_and?.
  - assert (nodes l ≤ length (keys l)) by eauto. assert (nodes r ≤ length (keys r)) by eauto. lia.
  - assert (nodes l ≤ length (keys l)) by eauto. assert (nodes m ≤ length (keys m)) by eauto.
    assert (nodes r ≤ length (keys r)) by eauto. lia.
Qed.

(** the path to the leaf of a deletion is as long as the tree is high *)
Lemma length_first_ctx c d t :
  whole t → t ≠ E → balanced d t → S (length (first_ctx c t)) = length c + d.
Proof.
  revert c d. induction t as [|n l IHl s r _|n l IHl s m _ s' r _|n t _]; intros c [|d] Hw Ht Hb;
    simpl in Hw, Hb; try done; simpl; destruct_and?; destruct (tree_dec l) as [->|Hl].
  - simpl in *. subst. lia.
  - rewrite match_tree // (IHl _ d) //=; lia.
  - simpl in *. subst. lia.
  - rewrite match_tree // (IHl _ d) //=; lia.
Qed.
End height.

Section shallow.
Context {T : Type} `{KO : KeyOrder T}.
Implicit Types (t : tree T) (c : list (frame T)) (d : nat) (k : T).

Lemma length_delete_site k c d t :
  whole t → balanced d t → t ≠ E → S (length (delete_site k c t).1) ≤ length c + d.
Proof.
  intros Hw Hb Ht. unfold delete_site.
  destruct t as [|n l s r|n l s m s' r|n t]; destruct d as [|d]; try done; simpl in Hw, Hb;
    destruct_and?.
  - destruct (tree_dec r) as [->|Hr]; simpl; [lia|]. case_match; simpl; [|lia].
    rewrite (length_first_ctx _ d) //=; lia.
  - destruct (TCompare k s =? EQUAL)%Z.
    + destruct (tree_dec m) as [->|Hr]; simpl; [lia|]. case_match; simpl; [|lia].
      rewrite (length_first_ctx _ d) //=; lia.
    + destruct (tree_dec r) as [->|Hr]; simpl; [lia|]. case_match; simpl; [|lia].
      rewrite (length_first_ctx _ d) //=; lia.
Qed.
Lemma breaks_short c q : length c ≤ 1 → breaks c q (E (T := T)) = false.
Proof.
  destruct c as [|f [|f' c]]; simpl; [done| |lia]. intros _. repeat case_match; try done.
Qed.

(** in a tree of two levels every hole is a leaf *)
Lemma delete_breaks_low d k t : wf d t → d ≤ 2 → delete_breaks k t = false.
Proof.
  intros [Hb Hw Ho] Hd. unfold delete_breaks. destruct (tree_dec t) as [->|Hne]; [done|].
  pose proof (locate_spec d k [] t Hb Hw Ho Hne ltac:(constructor) ltac:(constructor)) as Hloc.
  destruct (locate k [] t) as [[c t'] []]; [|done]. destruct Hloc as [Hplug [Hn Hl Hr Hf]].
  simpl in Hplug. subst t. apply balanced_unplug in Hb as (d' & Hb & _ & ->).
  apply whole_unplug in Hw as [Hw _]. pose proof (length_delete_site k c d' t' Hw Hb Hn) as Hlen.
  destruct (delete_site k c t') as [c2 t2]. simpl in Hlen. unfold leaf_breaks.
  destruct t2; try done. apply breaks_short. lia.
Qed.
End shallow.

(** ** The contract of the class *)

Section contract.
Context {T : Type} `{KO : KeyOrder T}.
Implicit Types (t : tree T) (ks : list T) (k s : T) (root : ptr) (fuel d : nat)
  (h : gmap loc (CNode T)).

(** the heap is a finished tree below [root] with the keys [ks] *)
Definition is_CTree root ks h : Prop :=
  ∃ d t, wf d t ∧ keys t = ks ∧ root = ptr_of t ∧ holds (is_tree t None) h.

(** the heap is a tree below [root] with the keys [ks], maybe out of balance *)
Definition has_keys root ks h : Prop :=
  ∃ t, whole t ∧ keys t = ks ∧ root = ptr_of t ∧ holds (is_tree t None) h.

(** the element of [ks] that equals [k] *)
Definition find_in k ks : option T := head (filter (λ s, (TCompare k s =? EQUAL)%Z = true) ks).

Lemma filter_none (P : T → Prop) `{∀ x, Decision (P x)} ks :
  Forall (λ x, ¬ P x) ks → filter P ks = [].
Proof. induction 1; [done|]. by rewrite filter_cons_False. Qed.
Lemma find_in_some ks k s : ordered ks → s ∈ ks → key_eq k s → find_in k ks = Some s.
Proof.
  intros Ho Hs He. apply list_elem_of_split in Hs as (l1 & l2 & ->).
  apply ordered_middle in Ho as (_ & Hl & _). unfold find_in. rewrite filter_app.
  rewrite (filter_none _ l1).
  - rewrite filter_cons_True //. by apply TCompare_EQUAL.
  - eapply Forall_impl; [exact Hl|].
    intros x Hx Hc. apply TCompare_EQUAL in Hc. rewrite -He in Hx. rewrite Hc in Hx.
    by apply key_lt_irrefl in Hx.
Qed.
Lemma find_in_none ks k : (∀ s, s ∈ ks → ¬ key_eq k s) → find_in k ks = None.
Proof.
  intros Hn. unfold find_in. rewrite filter_none //. apply Forall_forall. intros s Hs Hc.
  apply TCompare_EQUAL in Hc. by eapply Hn.
Qed.

Lemma keys_ne d t : wf d t → t ≠ E → keys t ≠ [].
Proof.
  intros [Hb Hw _] Ht Hk. pose proof (balanced_length _ _ Hw Hb) as Hd. rewrite Hk in Hd.
  simpl in Hd. destruct d; [|lia]. by apply balanced_0 in Hb.
Qed.
Lemma is_CTree_empty : is_CTree None [] ∅.
Proof. exists 0, E. split_and!; [split; [done|done|constructor]|done..]. Qed.
Lemma is_CTree_ordered root ks h : is_CTree root ks h → ordered ks.
Proof. intros (d & t & [] & <- & _). done. Qed.
Lemma is_CTree_height root ks h :
  is_CTree root ks h → ∃ d t, wf d t ∧ keys t = ks ∧ root = ptr_of t ∧
    holds (is_tree t None) h ∧ height t = d ∧ d ≤ Nat.log2 (S (length ks)) ∧ nodes t ≤ length ks.
Proof.
  intros (d & t & Hwf & <- & -> & Ht). exists d, t. destruct Hwf as [Hb Hw Ho].
  split_and!; try done; [by apply balanced_height|by apply height_log|by eapply length_nodes].
Qed.

Lemma find_key_runs root ks h k fuel :
  is_CTree root ks h → Nat.log2 (S (length ks)) ≤ fuel →
  find_key fuel root k h = Ok (find_in k ks, h).
Proof.
  intros (d & t & Hwf & <- & -> & Ht & Hh & Hd & _)%is_CTree_height Hf.
  destruct (wp_runs (find_key fuel (ptr_of t) k) (is_tree t None)
    (λ o, ⟨o = find_in k (keys t)⟩ ∗ is_tree t None)%I h) as (o & h' & Hr & Ho); [|done|].
  - iIntros "Ht". iApply (wp_find_key fuel d); [done|lia|]. iFrame. iIntros (o) "Ht %Ho". iFrame.
    iPureIntro. destruct o as [s|].
    + destruct Ho. symmetry. apply find_in_some; [apply Hwf|done..].
    + symmetry. by apply find_in_none.
  - apply holds_pure_sep in Ho as [-> _]. rewrite Hr. by apply read_only in Hr as ->.
Qed.

Lemma insert_runs root ks h k fuel :
  is_CTree root ks h → Nat.log2 (S (length ks)) < fuel →
  ∃ root' h', insert fuel root k h = Ok ((insert_code k ks, root'), h') ∧
    is_CTree root' (insert_key k ks) h'.
Proof.
  intros (d & t & Hwf & <- & -> & Ht & Hh & Hd & _)%is_CTree_height Hf.
  destruct (wp_runs _ _ _ h (wp_insert fuel d k t Hwf ltac:(lia)) Ht) as (rs & h' & Hr & Hp).
  apply holds_exist in Hp as [d' Hp]. apply holds_exist in Hp as [t' Hp].
  apply holds_pure_sep in Hp as [(Hwf' & Hk & ->) Ht'].
  exists (ptr_of t'), h'. split; [done|]. exists d', t'. split_and!; done.
Qed.

Lemma deleteItem_runs root ks h k fuel :
  is_CTree root ks h → 2 * Nat.log2 (S (length ks)) ≤ fuel →
  ∃ code root' h', deleteItem fuel root k h = Ok ((code, root'), h') ∧
    code = match ks with [] => IS_EMPTY | _ => if has_key k ks then SUCCESS else NOT_FOUND end ∧
    has_keys root' (delete_key k ks) h' ∧
    (length ks < 7 → is_CTree root' (delete_key k ks) h').
Proof.
  intros (d & t & Hwf & <- & -> & Ht & Hh & Hd & _)%is_CTree_height Hf.
  destruct (wp_runs _ _ _ h (wp_deleteItem fuel d k t Hwf ltac:(lia)) Ht) as (rs & h' & Hr & Hp).
  apply holds_exist in Hp as [t' Hp]. apply holds_pure_sep in Hp as [(Hw' & Hk & Hb & ->) Ht'].
  exists (delete_code k t), (ptr_of t'), h'. split_and!; [done| |by exists t'|].
  - unfold delete_code. destruct (tree_dec t) as [->|Hne]; [done|].
    pose proof (keys_ne _ _ Hwf Hne). rewrite match_tree //. by destruct (keys t).
  - intros Hlen. destruct Hb as [d' Hb'].
    + apply (delete_breaks_low d); [done|]. apply Nat.log2_le_mono in Hlen as Hl.
      change (Nat.log2 7) with 2 in Hl. lia.
    + exists d', t'. split_and!; [|done..]. split; [done|done|].
      rewrite Hk. apply delete_key_ordered, Hwf.
Qed.

Lemma removeAll_runs root ks h fuel :
  is_CTree root ks h → length ks + Nat.log2 (S (length ks)) ≤ fuel →
  removeAll fuel root h = Ok ((match ks with [] => IS_EMPTY | _ => SUCCESS end, None), ∅).
Proof.
  intros (d & t & Hwf & <- & -> & Ht & Hh & Hd & Hn)%is_CTree_height Hf.
  destruct (tree_dec t) as [->|Hne].
  { simpl in *. by apply holds_emp in Ht as ->. }
  pose proof (wf_balanced _ _ Hwf) as Hb. pose proof (wf_whole _ _ Hwf) as Hw.
  destruct (wp_runs (removeAll fuel (ptr_of t)) (is_tree t None)
    (λ rs, ⟨rs = (SUCCESS, None)⟩ ∗ emp)%I h) as (o & h' & Hr & Ho); [|done|].
  - iIntros "Ht". iApply (wp_removeAll t _ _ d); [done..|lia|]. by iFrame.
  - apply holds_pure_sep in Ho as [-> ->%holds_emp]. rewrite Hr.
    pose proof (keys_ne _ _ Hwf Hne). by destruct (keys t).
Qed.

Lemma traversal_perm o t : traversal o t ≡ₚ keys t.
Proof.
  destruct o; [done|..]; simpl.
  - induction t as [|n l IHl s r IHr|n l IHl s m IHm s' r IHr|n t IH]; simpl; [done| | |done];
      rewrite ?IHl ?IHm ?IHr; solve_Permutation.
  - induction t as [|n l IHl s r IHr|n l IHl s m IHm s' r IHr|n t IH]; simpl; [done| | |done];
      rewrite ?IHl ?IHm ?IHr; solve_Permutation.
Qed.

Lemma print_runs root ks h o fuel :
  is_CTree root ks h → length ks ≤ fuel → (o = preorder → is_Some (unset (T := T))) →
  ∃ out, print fuel root o h =
    Ok ((match ks with [] => IS_EMPTY | _ => FAILURE end, out, Z.of_nat (length ks)), h) ∧
    out ≡ₚ ks ∧ (o = inorder → out = ks).
Proof.
  intros (d & t & Hwf & <- & -> & Ht) Hf Hu. destruct (tree_dec t) as [->|Hne].
  { simpl. eexists. by split_and!. }
  destruct (wp_runs _ _ _ h (wp_print fuel o d t Hwf Hne Hf Hu) Ht) as (rs & h' & Hr & Hp).
  apply holds_pure_sep in Hp as [-> _]. exists (traversal o t). split_and!.
  - rewrite Hr. apply read_only in Hr as ->.
    pose proof (keys_ne _ _ Hwf Hne). by destruct (keys t).
  - apply traversal_perm.
  - by intros ->.
Qed.
End contract.
