(* ===== verification/TwoThreeTest.v ===== *)
(** The test program of the 2-3 tree (2-3TreeImplementation.cpp).

    [printOrders] and [ExecDeleteTestcase] are programs on the heap of nodes.
    The statements of [_tmain] are a list of commands per tree, [run_script]
    executes them; the lines they write are the result.  The CMovie objects
    that [_tmain] allocates for its arguments are passed by value. *)

From iris.proofmode Require Import proofmode.
From S2P Require Import Prelude Heap HeapTactics CNode CTree TwoThree TwoThreeSearch TwoThreeInsert.
From S2P Require Import TwoThreeDeleteItem TwoThreePrint TwoThreeClass.

(** ** The functions of the test program *)

Section test.
Context {T : Type} `{Key T}.
Implicit Types (k : T) (m_pRoot : ptr) (fuel : nat).
Abbreviation prog := (prog (CNode T)).

(** what one call of [printOrders] writes: the keys and the number of items of
    the three traversals *)
Record orders := mk_orders {
  out_preorder : list T * Z;
  out_inorder : list T * Z;
  out_postorder : list T * Z;
}.

Definition printOrders fuel m_pRoot : prog orders :=
  '(_, pre, n1) ← print fuel m_pRoot preorder;
  '(_, ino, n2) ← print fuel m_pRoot inorder;
  '(_, post, n3) ← print fuel m_pRoot postorder;
  mret (mk_orders (pre, n1) (ino, n2) (post, n3)).

(** the two loops of [ExecDeleteTestcase] *)
Fixpoint insert_each fuel (pObjects2Insert : list T) m_pRoot : prog ptr :=
  match pObjects2Insert with
  | [] => mret m_pRoot
  | k :: ks => '(_, m_pRoot) ← insert fuel m_pRoot k; insert_each fuel ks m_pRoot
  end.
Fixpoint delete_each fuel (pObjects2Delete : list T) m_pRoot : prog (list orders * ptr) :=
  match pObjects2Delete with
  | [] => mret ([], m_pRoot)
  | k :: ks =>
      '(_, m_pRoot) ← deleteItem fuel m_pRoot k;
      o ← printOrders fuel m_pRoot;
      '(os, m_pRoot) ← delete_each fuel ks m_pRoot;
      mret (o :: os, m_pRoot)
  end.

Definition ExecDeleteTestcase fuel (pObjects2Insert pObjects2Delete : list T) : prog (list orders) :=
  m_pRoot ← insert_each fuel pObjects2Insert None;
  '(os, m_pRoot) ← delete_each fuel pObjects2Delete m_pRoot;
  _ ← destroy_CTree fuel m_pRoot;
  mret os.

(** the statements of [_tmain] about one tree *)
Inductive command :=
  | Insert k
  | Delete k
  | PrintOrders
  | SearchPhase (ks : list T).
Inductive output :=
  | Orders (o : orders)
  | SearchPassed (b : bool).

(** [find(...) == 0 || find(...) == 0 ...] *)
Fixpoint any_missing fuel m_pRoot (ks : list T) : prog bool :=
  match ks with
  | [] => mret false
  | k :: ks =>
      ref ← find fuel m_pRoot k;
      match ref with None => mret true | Some _ => any_missing fuel m_pRoot ks end
  end.

Definition run_command fuel m_pRoot (c : command) : prog (list output * ptr) :=
  match c with
  | Insert k => '(_, m_pRoot) ← insert fuel m_pRoot k; mret ([], m_pRoot)
  | Delete k => '(_, m_pRoot) ← deleteItem fuel m_pRoot k; mret ([], m_pRoot)
  | PrintOrders => o ← printOrders fuel m_pRoot; mret ([Orders o], m_pRoot)
  | SearchPhase ks => b ← any_missing fuel m_pRoot ks; mret ([SearchPassed (negb b)], m_pRoot)
  end.
Fixpoint run_script fuel m_pRoot (cs : list command) : prog (list output * ptr) :=
  match cs with
  | [] => mret ([], m_pRoot)
  | c :: cs =>
      '(os, m_pRoot) ← run_command fuel m_pRoot c;
      '(os', m_pRoot) ← run_script fuel m_pRoot cs;
      mret (os ++ os', m_pRoot)
  end.

(** ** The same on an ordered list of keys *)

Definition ref_command (ks : list T) (c : command) : list T :=
  match c with
  | Insert k => insert_key k ks
  | Delete k => delete_key k ks
  | PrintOrders | SearchPhase _ => ks
  end.
(** the output [o] of the command [c] is right when the keys are [ks] *)
Definition agrees (ks : list T) (c : command) (os : list output) : Prop :=
  match c, os with
  | Insert _, [] | Delete _, [] => True
  | PrintOrders, [Orders o] =>
      out_inorder o = (ks, Z.of_nat (length ks)) ∧
      (out_preorder o).1 ≡ₚ ks ∧ (out_preorder o).2 = Z.of_nat (length ks) ∧
      (out_postorder o).1 ≡ₚ ks ∧ (out_postorder o).2 = Z.of_nat (length ks)
  | SearchPhase q, [SearchPassed b] => b = forallb (λ k, has_key k ks) q
  | _, _ => False
  end.
Fixpoint script_agrees (ks : list T) (cs : list command) (os : list output) : Prop :=
  match cs with
  | [] => os = []
  | c :: cs => ∃ o os', os = o ++ os' ∧ agrees ks c o ∧ script_agrees (ref_command ks c) cs os'
  end.
Definition ref_script (ks : list T) (cs : list command) : list T := foldl ref_command ks cs.

(** items are deleted from trees of fewer than seven keys *)
Definition small_command (ks : list T) (c : command) : Prop :=
  match c with Delete _ => length ks < 7 | _ => True end.
Fixpoint small_script (ks : list T) (cs : list command) : Prop :=
  match cs with
  | [] => True
  | c :: cs => small_command ks c ∧ small_script (ref_command ks c) cs
  end.
(** the last statement may delete from a tree of any size *)
Fixpoint small_before_last (ks : list T) (cs : list command) : Prop :=
  match cs with
  | [] | [_] => True
  | c :: cs => small_command ks c ∧ small_before_last (ref_command ks c) cs
  end.
(** printing needs a key type whose default constructor leaves a value *)
Definition prints (cs : list command) : Prop := PrintOrders ∈ cs.
End test.
Arguments command : clear implicits.
Arguments output : clear implicits.
Arguments orders : clear implicits.

(** ** _tmain: the calls of [ExecDeleteTestcase], the items to insert and to delete *)

#[local] Open Scope Z_scope.
Definition testcases_001_010 : list (list Z * list Z) := [
  ([67; 34; 23; 88; 96; 14; 4; 27],
   [4; 34; 23; 88; 27; 67; 14; 96]);
  ([37; 11; 17; 48; 78; 87; 93; 67; 68; 83],
   [67; 17; 78; 48; 68; 87; 11; 37]);
  ([20; 25; 43; 47; 12; 56; 15; 70; 86; 92],
   [43; 15; 56; 25; 86; 70]);
  ([18; 47; 67; 35; 96; 24; 15; 45; 38; 7; 11; 37],
   [18]);
  ([47; 51; 16; 23; 45; 79; 14; 81; 37; 13; 41; 90; 96; 67],
   [81]);
  ([54; 70; 94; 58; 25; 62; 45; 17],
   [94]);
  ([26; 25; 67; 89; 57; 42; 52; 47; 31; 35],
   [47]);
  ([79; 45; 94; 56; 29; 64; 26; 58; 50; 55],
   [56]);
  ([67; 20; 72; 65; 85; 47; 60; 25; 45; 78; 53; 58],
   [45]);
  ([98; 13; 46; 14; 79; 38; 74; 76; 41; 16; 67; 92; 86; 53; 50; 44],
   [50])
].
Definition testcases_011_021 : list (list Z * list Z) := [
  ([98; 72; 65; 24; 87; 62; 28; 84; 56; 85; 48; 45],
   [65]);
  ([23; 45; 67; 48; 41; 56; 17; 46; 54; 43; 18; 13; 30; 44],
   [46]);
  ([64; 38; 72; 58; 25; 79; 28; 76; 43],
   [72]);
  ([58; 79; 95; 82; 57; 25; 86; 81],
   [58]);
  ([46; 72; 70; 93; 76; 36; 50; 28; 22],
   [22]);
  ([23; 43; 46; 78; 34; 83; 48; 74; 61; 69],
   [74]);
  ([1; 12; 38; 54; 48; 95; 47; 81; 45],
   [47]);
  ([73; 24; 57; 84; 56; 37; 23; 75],
   [73]);
  ([35; 40; 45; 51; 75; 82; 87],
   [45]);
  ([74; 65; 91; 38; 46; 17; 16; 84],
   [74]);
  ([22; 27; 30; 32; 35; 40; 45; 51; 55; 60; 75; 82; 87; 92; 95; 16; 10],
   [30; 51; 32; 45; 60; 75; 92])
].

(** the statements about each tree of movies *)
Definition pMovieTree : list (command CMovie) := [
  Insert (mk_CMovie "Die Hard" 1988);
  PrintOrders;
  Insert (mk_CMovie "Terminator" 1984);
  PrintOrders;
  Insert (mk_CMovie "Kill Bill Volume 1" 2010);
  PrintOrders;
  Insert (mk_CMovie "Pirates of the Caribbean" 2003);
  Insert (mk_CMovie "The Lord of the Rings" 2001);
  PrintOrders;
  Insert (mk_CMovie "Star Wars" 1977);
  Insert (mk_CMovie "Gladiator" 2000);
  PrintOrders;
  Insert (mk_CMovie "Matrix" 1999);
  PrintOrders;
  SearchPhase [mk_CMovie "Matrix" 0; mk_CMovie "Die Hard" 0; mk_CMovie "Terminator" 0; mk_CMovie "Kill Bill Volume 1" 0; mk_CMovie "Pirates of the Caribbean" 0; mk_CMovie "The Lord of the Rings" 0; mk_CMovie "Star Wars" 0; mk_CMovie "Gladiator" 0]
].
Definition pMovieTree2 : list (command CMovie) := [
  Delete (mk_CMovie "Die Hard" 0);
  PrintOrders;
  Insert (mk_CMovie "Die Hard" 1988);
  Delete (mk_CMovie "Die Hard" 0);
  PrintOrders;
  Insert (mk_CMovie "Die Hard" 1988);
  Insert (mk_CMovie "Terminator" 1984);
  Delete (mk_CMovie "Terminator" 0);
  PrintOrders;
  Insert (mk_CMovie "Terminator" 1984);
  Insert (mk_CMovie "Kill Bill Volume 1" 2010);
  Delete (mk_CMovie "Kill Bill Volume 1" 0);
  PrintOrders;
  Insert (mk_CMovie "Kill Bill Volume 1" 2010);
  Delete (mk_CMovie "Die Hard" 0);
  PrintOrders;
  Insert (mk_CMovie "Die Hard" 1988);
  Delete (mk_CMovie "Terminator" 0);
  PrintOrders;
  Insert (mk_CMovie "Terminator" 1984);
  Insert (mk_CMovie "Pirates of the Caribbean" 2003);
  Delete (mk_CMovie "Pirates of the Caribbean" 0);
  PrintOrders;
  Insert (mk_CMovie "Pirates of the Caribbean" 2003);
  Insert (mk_CMovie "The Lord of the Rings" 2001);
  Delete (mk_CMovie "The Lord of the Rings" 0);
  PrintOrders;
  Insert (mk_CMovie "Kill Bill Volume 2" 2011);
  Delete (mk_CMovie "Kill Bill Volume 2" 0);
  PrintOrders;
  Insert (mk_CMovie "Kill Bill Volume 2" 2011);
  Delete (mk_CMovie "Die Hard" 0);
  PrintOrders
].
Definition pMovieTree3 : list (command CMovie) := [
  Insert (mk_CMovie "Die Hard" 1988);
  Insert (mk_CMovie "Terminator" 1984);
  Insert (mk_CMovie "Kill Bill Volume 1" 2010);
  Insert (mk_CMovie "Pirates of the Caribbean" 2003);
  Insert (mk_CMovie "The Lord of the Rings" 2001);
  Insert (mk_CMovie "Star Wars" 1977);
  Insert (mk_CMovie "Gladiator" 2000);
  Insert (mk_CMovie "Matrix" 1999);
  Insert (mk_CMovie "Clerks" 2001);
  Insert (mk_CMovie "The Usual Suspects" 1997);
  PrintOrders;
  Insert (mk_CMovie "Silence of the Lambs" 1992);
  Insert (mk_CMovie "Enemy of the State" 1994);
  Insert (mk_CMovie "Aliens" 2010);
  PrintOrders;
  Insert (mk_CMovie "Spaceballs" 1986);
  PrintOrders;
  Insert (mk_CMovie "Happy Gilmore" 1989);
  PrintOrders;
  Insert (mk_CMovie "Top Gun" 1986);
  PrintOrders;
  Insert (mk_CMovie "Meet the Parents" 2000);
  Insert (mk_CMovie "Kill Bill Volume 2" 2011);
  PrintOrders
].
Definition pMovieTree4 : list (command CMovie) := [
  Insert (mk_CMovie "Aliens" 2010);
  Insert (mk_CMovie "Enemy of the State" 1994);
  Insert (mk_CMovie "Gladiator" 2000);
  Insert (mk_CMovie "Kill Bill Volume 2" 2011);
  Insert (mk_CMovie "Matrix" 1999);
  Insert (mk_CMovie "Happy Gilmore" 1989);
  Insert (mk_CMovie "Meet the Parents" 2000);
  Delete (mk_CMovie "Aliens" 0);
  PrintOrders
].
Definition pMovieTree5 : list (command CMovie) := [
  Insert (mk_CMovie "Aliens" 2010);
  Insert (mk_CMovie "Enemy of the State" 1994);
  Insert (mk_CMovie "Gladiator" 2000);
  Insert (mk_CMovie "Kill Bill Volume 2" 2011);
  Insert (mk_CMovie "Matrix" 1999);
  Insert (mk_CMovie "Meet the Parents" 2000);
  Delete (mk_CMovie "Aliens" 0);
  PrintOrders
].
Definition pMovieTree6 : list (command CMovie) := [
  Insert (mk_CMovie "Aliens" 2010);
  Insert (mk_CMovie "Enemy of the State" 1994);
  Insert (mk_CMovie "Gladiator" 2000);
  Insert (mk_CMovie "Kill Bill Volume 2" 2011);
  Insert (mk_CMovie "Matrix" 1999);
  Insert (mk_CMovie "Meet the Parents" 2000);
  Delete (mk_CMovie "Gladiator" 0);
  PrintOrders
].
Definition pMovieTree7 : list (command CMovie) := [
  Insert (mk_CMovie "Aliens" 2010);
  Insert (mk_CMovie "Enemy of the State" 1994);
  Insert (mk_CMovie "Gladiator" 2000);
  Insert (mk_CMovie "Kill Bill Volume 2" 2011);
  Insert (mk_CMovie "Matrix" 1999);
  Insert (mk_CMovie "Clerks" 2001);
  Delete (mk_CMovie "Gladiator" 0);
  PrintOrders
].
Definition pMovieTree8 : list (command CMovie) := [
  Insert (mk_CMovie "Aliens" 2010);
  Insert (mk_CMovie "Enemy of the State" 1994);
  Insert (mk_CMovie "Gladiator" 2000);
  Insert (mk_CMovie "Kill Bill Volume 2" 2011);
  Insert (mk_CMovie "Matrix" 1999);
  Insert (mk_CMovie "Clerks" 2001);
  Delete (mk_CMovie "Matrix" 0);
  PrintOrders
].
Definition pMovieTree9 : list (command CMovie) := [
  Insert (mk_CMovie "Aliens" 2010);
  Insert (mk_CMovie "Enemy of the State" 1994);
  Insert (mk_CMovie "Gladiator" 2000);
  Insert (mk_CMovie "Kill Bill Volume 2" 2011);
  Insert (mk_CMovie "Matrix" 1999);
  Insert (mk_CMovie "Clerks" 2001);
  Insert (mk_CMovie "Happy Gilmore" 1989);
  Delete (mk_CMovie "Matrix" 0);
  PrintOrders
].
Definition movie_scripts : list (list (command CMovie)) :=
  [pMovieTree; pMovieTree2; pMovieTree3; pMovieTree4; pMovieTree5; pMovieTree6; pMovieTree7; pMovieTree8; pMovieTree9].
#[local] Close Scope Z_scope.

(** the inorder traversals that [ExecDeleteTestcase] should write *)
Fixpoint expected {T} `{Key T} (ks dels : list T) : list (list T * Z) :=
  match dels with
  | [] => []
  | k :: dels =>
      let ks := delete_key k ks in (ks, Z.of_nat (length ks)) :: expected ks dels
  end.

(** int objects whose memory holds some number before it is set *)
Definition stale_int_key (g : Z) : Key Z := {| ltb := Z.ltb; unset := Some g |}.

(** ** The test program against the reference *)

Section refinement.
Context {T : Type} `{KO : KeyOrder T}.
Implicit Types (ks : list T) (k : T) (root : ptr) (fuel : nat) (h : gmap loc (CNode T)).

Lemma printOrders_runs root ks h fuel :
  is_CTree root ks h → length ks ≤ fuel → is_Some (unset (T := T)) →
  ∃ o, printOrders fuel root h = Ok (o, h) ∧ agrees ks PrintOrders [Orders o].
Proof.
  intros Ht Hf Hu.
  destruct (print_runs root ks h preorder fuel Ht Hf (λ _, Hu)) as (pre & Hpre & Hpp & _).
  destruct (print_runs root ks h inorder fuel Ht Hf (λ _, Hu)) as (ino & Hino & _ & Hii).
  destruct (print_runs root ks h postorder fuel Ht Hf (λ _, Hu)) as (post & Hpost & Hpo & _).
  rewrite Hii // in Hino. eexists. unfold printOrders.
  rewrite (run_bind _ _ _ _ _ Hpre) (run_bind _ _ _ _ _ Hino) (run_bind _ _ _ _ _ Hpost).
  split; [done|]. by split_and!.
Qed.

Lemma has_key_find ks k : has_key k ks = bool_decide (is_Some (find_in k ks)).
Proof.
  unfold has_key, find_in. induction ks as [|s ks IH]; [done|]. simpl.
  destruct (TCompare k s =? EQUAL)%Z eqn:Hs.
  - rewrite filter_cons_True //.
  - rewrite filter_cons_False ?Hs // IH //.
Qed.
Lemma any_missing_runs root ks h fuel q :
  is_CTree root ks h → Nat.log2 (S (length ks)) ≤ fuel →
  any_missing fuel root q h = Ok (negb (forallb (λ k, has_key k ks) q), h).
Proof.
  intros Ht Hf. induction q as [|k q IH]; [done|]. cbn [any_missing forallb].
  pose proof (find_key_runs root ks h k fuel Ht Hf) as Hr. unfold find_key in Hr.
  destruct (find fuel root k h) as [[ref h1]| |] eqn:Hfind;
    unfold mbind, prog_bind in Hr |- *; rewrite Hfind in Hr |- *; [|done..].
  rewrite has_key_find. destruct ref as [ref|]; [|injection Hr as <- <-; done].
  revert Hr. destruct (deref ref h1) as [[s h2]| |] eqn:Hd; intros Hr; [|done..].
  injection Hr as <- <-. assert (h2 = h1) as ->.
  { unfold deref in Hd. destruct ref; by apply read_only in Hd. }
  exact IH.
Qed.

Lemma length_insert_key ks k : length (insert_key k ks) ≤ S (length ks).
Proof. induction ks as [|s ks IH]; simpl; [done|]. repeat case_match; simpl; lia. Qed.
Lemma length_delete_key ks k : length (delete_key k ks) ≤ length ks.
Proof. apply length_filter. Qed.
Lemma log2_bound n : Nat.log2 (S n) ≤ n.
Proof. destruct n; [done|]. pose proof (Nat.log2_lt_lin (S (S n))). lia. Qed.

Lemma is_CTree_has_keys root ks h : is_CTree root ks h → has_keys root ks h.
Proof. intros (d & t & Hwf & Hk & Hr & Ht). exists t. split_and!; [apply Hwf|done..]. Qed.

Lemma run_command_runs root ks h fuel c :
  is_CTree root ks h → (c = PrintOrders → is_Some (unset (T := T))) →
  2 * length ks + 2 ≤ fuel →
  ∃ os root' h', run_command fuel root c h = Ok ((os, root'), h') ∧
    has_keys root' (ref_command ks c) h' ∧
    (small_command ks c → is_CTree root' (ref_command ks c) h') ∧ agrees ks c os.
Proof.
  intros Ht Hu Hf. pose proof (log2_bound (length ks)).
  pose proof (is_CTree_has_keys _ _ _ Ht) as Hk. destruct c as [k|k| |q]; simpl.
  - destruct (insert_runs root ks h k fuel Ht) as (root' & h' & Hr & Ht'); [lia|].
    rewrite (run_bind _ _ _ _ _ Hr). eexists _, _, _. split_and!; [done|by apply is_CTree_has_keys|done..].
  - destruct (deleteItem_runs root ks h k fuel Ht) as (code & root' & h' & Hr & _ & Hk' & Ht'); [lia|].
    rewrite (run_bind _ _ _ _ _ Hr). by eexists _, _, _; split_and!.
  - destruct (printOrders_runs root ks h fuel Ht) as (o & Hr & Ho); [lia|by apply Hu|].
    rewrite (run_bind _ _ _ _ _ Hr). by eexists _, _, _; split_and!.
  - rewrite (run_bind _ _ _ _ _ (any_missing_runs root ks h fuel q Ht ltac:(lia))).
    eexists _, _, _; split_and!; [done..|]. apply negb_involutive.
Qed.

Lemma length_ref_command ks c : length (ref_command ks c) ≤ S (length ks).
Proof.
  destruct c; simpl; [apply length_insert_key| |lia..]. etrans; [apply length_delete_key|lia].
Qed.
Lemma run_script_runs cs root ks h fuel :
  is_CTree root ks h → small_before_last ks cs → (prints cs → is_Some (unset (T := T))) →
  2 * (length ks + length cs) ≤ fuel →
  ∃ os root' h', run_script fuel root cs h = Ok ((os, root'), h') ∧
    has_keys root' (ref_script ks cs) h' ∧
    (small_script ks cs → is_CTree root' (ref_script ks cs) h') ∧ script_agrees ks cs os.
Proof.
  revert root ks h. induction cs as [|c cs IH]; intros root ks h Ht Hs Hu Hf.
  - eexists _, _, _. split_and!; [done|by apply is_CTree_has_keys|done..].
  - simpl in Hf.
    destruct (run_command_runs root ks h fuel c) as (o & r1 & h1 & Hr1 & Hk1 & Ht1 & Ho); [done| |lia|].
    { intros ->. apply Hu. by left. }
    simpl. rewrite (run_bind _ _ _ _ _ Hr1). destruct cs as [|c' cs].
    + eexists _, _, _; split_and!; [done|done|by intros [? _]; apply Ht1|].
      exists o, []. by split_and!.
    + destruct Hs as [Hc Hs]. pose proof (length_ref_command ks c).
      destruct (IH r1 (ref_command ks c) h1) as (os & r2 & h2 & Hr2 & Hk2 & Ht2 & Hos);
        [by apply Ht1|done|by intros Hp; apply Hu; right|lia|].
      rewrite (run_bind _ _ _ _ _ Hr2).
      eexists _, _, _; split_and!; [done|done|by intros [_ ?]; apply Ht2|]. by eexists _, _; split_and!.
Qed.

Lemma insert_each_runs ins root ks h fuel :
  is_CTree root ks h → length ks + length ins < fuel →
  ∃ root' h', insert_each fuel ins root h = Ok (root', h') ∧
    is_CTree root' (foldl (λ ks k, insert_key k ks) ks ins) h'.
Proof.
  revert root ks h. induction ins as [|k ins IH]; intros root ks h Ht Hf; simpl in Hf |- *.
  - by exists root, h.
  - pose proof (log2_bound (length ks)). pose proof (length_insert_key ks k).
    destruct (insert_runs root ks h k fuel Ht) as (r1 & h1 & Hr & Ht1); [lia|].
    rewrite (run_bind _ _ _ _ _ Hr). apply IH; [done|lia].
Qed.
Lemma delete_each_runs dels root ks h fuel :
  is_CTree root ks h → length ks < 7 → 2 * length ks ≤ fuel → is_Some (unset (T := T)) →
  ∃ os root' h', delete_each fuel dels root h = Ok ((os, root'), h') ∧
    map out_inorder os = expected ks dels ∧
    is_CTree root' (foldl (λ ks k, delete_key k ks) ks dels) h'.
Proof.
  revert root ks h. induction dels as [|k dels IH]; intros root ks h Ht Hl Hf Hu; simpl.
  - by exists [], root, h.
  - pose proof (log2_bound (length ks)). pose proof (length_delete_key ks k).
    destruct (deleteItem_runs root ks h k fuel Ht) as (code & r1 & h1 & Hr & _ & _ & Ht1); [lia|].
    specialize (Ht1 Hl).
    destruct (printOrders_runs r1 _ h1 fuel Ht1) as (o & Ho & Hino & _); [lia|done|].
    destruct (IH r1 _ h1 Ht1) as (os & r2 & h2 & Hr2 & Hos & Ht2); [lia..|done|].
    rewrite (run_bind _ _ _ _ _ Hr) (run_bind _ _ _ _ _ Ho) (run_bind _ _ _ _ _ Hr2).
    exists (o :: os), r2, h2. split_and!; [done| |done]. simpl. by rewrite Hino Hos.
Qed.
Lemma destroy_runs root ks h fuel :
  is_CTree root ks h → 2 * length ks ≤ fuel → destroy_CTree fuel root h = Ok (tt, ∅).
Proof.
  intros Ht Hf. pose proof (log2_bound (length ks)).
  pose proof (removeAll_runs root ks h fuel Ht ltac:(lia)) as Hr. unfold destroy_CTree.
  destruct root as [n|]; [by rewrite (run_bind _ _ _ _ _ Hr)|].
  simpl in Hr. by injection Hr as _ ->.
Qed.

(** distinct items end in an ordered list of at most as many *)
Lemma length_inserts ins ks :
  length (foldl (λ ks k, insert_key k ks) ks ins) ≤ length ks + length ins.
Proof.
  revert ks. induction ins as [|k ins IH]; intros ks; simpl; [lia|].
  pose proof (IH (insert_key k ks)). pose proof (length_insert_key ks k). lia.
Qed.
Lemma length_deletes dels ks : length (foldl (λ ks k, delete_key k ks) ks dels) ≤ length ks.
Proof.
  revert ks. induction dels as [|k dels IH]; intros ks; simpl; [lia|].
  etrans; [apply IH|apply length_delete_key].
Qed.
End refinement.
