(* ===== verification/TwoThreeProps.v ===== *)
(** What the class [CTree] guarantees: the properties of the 2-3 tree. *)

From iris.proofmode Require Import proofmode.
From S2P Require Import Prelude Heap HeapTactics CNode CTree TwoThree TwoThreeSearch TwoThreeInsert.
From S2P Require Import TwoThreeDeleteItem TwoThreePrint TwoThreeClass TwoThreeTest.

Section reference.
Context {T : Type} `{KO : KeyOrder T}.
Implicit Types (k : T) (ks : list T).

Lemma insert_key_split k ks :
  has_key k ks = false → ∃ l r, ks = l ++ r ∧ insert_key k ks = l ++ k :: r.
Proof.
  unfold has_key. induction ks as [|s ks IH]; simpl; [by exists [], []|].
  intros [Hs Hks]%orb_false_iff. destruct (IH Hks) as (l & r & -> & ->).
  destruct (ltb s k) eqn:Hsk; [by exists (s :: l), r|].
  destruct (ltb k s) eqn:Hk; [by exists [], (s :: l ++ r)|].
  unfold TCompare in Hs. by rewrite Hk Hsk in Hs.
Qed.
Lemma delete_insert_key k ks : has_key k ks = false → delete_key k (insert_key k ks) = ks.
Proof.
  intros Hk. destruct (insert_key_split k ks Hk) as (l & r & -> & ->).
  unfold has_key in Hk. rewrite existsb_app in Hk. apply orb_false_iff in Hk as [Hl Hr].
  rewrite delete_key_app delete_key_none //. f_equal. unfold delete_key.
  rewrite filter_cons_False; [|by rewrite TCompare_refl]. by apply delete_key_none.
Qed.
End reference.

Section properties.
Context {T : Type} `{KO : KeyOrder T}.
Implicit Types (ks ins dels : list T) (k : T) (root : ptr) (fuel : nat) (h : gmap loc (CNode T)).

(** C2: [insert] on a heap that holds a balanced 2-3 tree returns, and leaves a
    heap that is exactly a balanced 2-3 tree again, whose keys are those of the
    reference insertion into an ordered list; it reports a duplicate when an
    equal key is present, and then the keys stay as they are.  The number of
    rounds it needs is logarithmic in the number of keys. *)
Theorem CTree_insert_correct root ks h k fuel :
  is_CTree root ks h → Nat.log2 (S (length ks)) < fuel →
  ∃ root' h', insert fuel root k h = Ok ((insert_code k ks, root'), h') ∧
    is_CTree root' (insert_key k ks) h'.
Proof. apply insert_runs. Qed.

(** C3: [deleteItem] returns without a fault on every balanced tree, reports
    whether the key was there, and leaves exactly the nodes of a tree that holds
    the other keys in order; if the tree had fewer than seven keys, that tree is
    balanced again. *)
Theorem CTree_deleteItem_correct root ks h k fuel :
  is_CTree root ks h → 2 * Nat.log2 (S (length ks)) ≤ fuel →
  ∃ code root' h', deleteItem fuel root k h = Ok ((code, root'), h') ∧
    code = match ks with [] => IS_EMPTY | _ => if has_key k ks then SUCCESS else NOT_FOUND end ∧
    has_keys root' (delete_key k ks) h' ∧
    (length ks < 7 → is_CTree root' (delete_key k ks) h').
Proof. apply deleteItem_runs. Qed.

(** [find], called in a tree of [n] keys, needs at most [log2 (n + 1)] rounds
    to return the address of the key that equals the argument, or NULL when
    there is none; the heap stays as it was. *)
Theorem CTree_find_correct root ks h k fuel :
  is_CTree root ks h → Nat.log2 (S (length ks)) ≤ fuel →
  find_key fuel root k h = Ok (find_in k ks, h).
Proof. apply find_key_runs. Qed.

(** [print] in each of the three orders terminates, leaves the tree as it
    was, writes every key once and counts them; the inorder traversal writes
    them in increasing order.  Its return code for a tree that is not empty is
    FAILURE.  The preorder traversal is for keys whose default constructor
    leaves a value: it compares with the big key of two-nodes. *)
Theorem CTree_print_correct root ks h o fuel :
  is_CTree root ks h → length ks ≤ fuel → (o = preorder → is_Some (unset (T := T))) →
  ∃ out, print fuel root o h =
    Ok ((match ks with [] => IS_EMPTY | _ => FAILURE end, out, Z.of_nat (length ks)), h) ∧
    out ≡ₚ ks ∧ (o = inorder → out = ks ∧ ordered out).
Proof.
  intros Ht Hf Hu. destruct (print_runs root ks h o fuel Ht Hf Hu) as (out & Hr & Hp & Ho).
  exists out. split_and!; [done..|]. intros Hin. rewrite Ho //. split; [done|].
  by eapply is_CTree_ordered.
Qed.

(** C10: [removeAll], which the destructor calls, on a balanced tree of any size,
    as insertions and deletions from fewer than seven keys leave it, deletes every
    node exactly once: it terminates without touching freed memory and the heap is
    empty afterwards.  On a tree that a deletion from eight keys has left out of
    balance it may follow NULL ([CTree_removeAll_breaks]). *)
Theorem CTree_removeAll_frees root ks h fuel :
  is_CTree root ks h → length ks + Nat.log2 (S (length ks)) ≤ fuel →
  removeAll fuel root h = Ok ((match ks with [] => IS_EMPTY | _ => SUCCESS end, None), ∅).
Proof. apply removeAll_runs. Qed.

(** Inserting a key that is not in a tree of at most five keys and deleting
    it again gives a balanced tree with the keys it had; in between [find]
    returns the inserted key. *)
Theorem CTree_insert_delete_roundtrip root ks h k fuel :
  is_CTree root ks h → has_key k ks = false → length ks < 6 → 2 * length ks + 2 < fuel →
  ∃ root' h',
    ('(_, r) ← insert fuel root k; o ← find_key fuel r k;
     '(_, r) ← deleteItem fuel r k; mret (o, r)) h = Ok ((Some k, root'), h') ∧
    is_CTree root' ks h'.
Proof.
  intros Ht Hk Hl Hf. pose proof (log2_bound (length ks)). pose proof (length_insert_key ks k).
  pose proof (log2_bound (length (insert_key k ks))).
  destruct (insert_runs root ks h k fuel Ht) as (r1 & h1 & Hr1 & Ht1); [lia|].
  pose proof (find_key_runs r1 _ h1 k fuel Ht1 ltac:(lia)) as Hr2.
  destruct (deleteItem_runs r1 _ h1 k fuel Ht1) as (c & r3 & h3 & Hr3 & _ & _ & Ht3); [lia|].
  destruct (insert_key_split k ks Hk) as (l & r & Hks & Hik).
  rewrite (find_in_some _ k k) in Hr2; [|by eapply is_CTree_ordered|rewrite Hik; set_solver|reflexivity].
  exists r3, h3. split.
  - by rewrite (run_bind _ _ _ _ _ Hr1) (run_bind _ _ _ _ _ Hr2) (run_bind _ _ _ _ _ Hr3).
  - rewrite -{1}(delete_insert_key k ks Hk). apply Ht3. lia.
Qed.

(** C9: sequences of the test program's statements about one tree, inserting,
    deleting, printing and searching in any order, refine the same sequence on an
    ordered list, as long as keys are deleted from fewer than seven; only the last
    statement may be a deletion from any number of keys.  The sequence runs without a
    fault, each printed traversal and each search result is the one of the list, and
    the heap is exactly a tree with the keys of the list at the end, a balanced one
    if the last statement does not delete from seven keys or more.  If the sequence
    prints, the default constructor of the key type must leave a value, since the
    preorder traversal compares with keys that were never set.

    The limit on deletions is that of the code: one from eight keys can leave a tree
    that a later deletion does not survive ([CTree_deleteItem_breaks]). *)
Theorem run_script_refines cs root ks h fuel :
  is_CTree root ks h → small_before_last ks cs → (prints cs → is_Some (unset (T := T))) →
  2 * (length ks + length cs) ≤ fuel →
  ∃ os root' h', run_script fuel root cs h = Ok ((os, root'), h') ∧
    has_keys root' (ref_script ks cs) h' ∧
    (small_script ks cs → is_CTree root' (ref_script ks cs) h') ∧ script_agrees ks cs os.
Proof. apply run_script_runs. Qed.

(** [ExecDeleteTestcase] on at most six items of any type with a default
    value terminates, writes after each deletion the remaining items in order,
    and deletes its tree without a leak: the heap is empty again. *)
Theorem ExecDeleteTestcase_correct ins dels fuel :
  length ins < 7 → 2 * length ins < fuel → is_Some (unset (T := T)) →
  ∃ os, ExecDeleteTestcase fuel ins dels ∅ = Ok (os, ∅) ∧
    map out_inorder os = expected (foldl (λ ks k, insert_key k ks) [] ins) dels.
Proof.
  intros Hl Hf Hu. pose proof (length_inserts ins []) as Hli. simpl in Hli.
  destruct (insert_each_runs ins None [] ∅ fuel is_CTree_empty) as (r1 & h1 & Hr1 & Ht1); [simpl; lia|].
  destruct (delete_each_runs dels r1 _ h1 fuel Ht1) as (os & r2 & h2 & Hr2 & Hos & Ht2); [lia..|done|].
  exists os. split; [|done]. unfold ExecDeleteTestcase.
  rewrite (run_bind _ _ _ _ _ Hr1) (run_bind _ _ _ _ _ Hr2).
  rewrite (run_bind _ _ _ _ _ (destroy_runs _ _ _ fuel Ht2 _)); [done|].
  pose proof (length_deletes dels (foldl (λ ks k, insert_key k ks) [] ins)). lia.
Qed.
End properties.

(** ** The calls of _tmain *)

(** the test case runs, deletes its tree and writes the inorder traversals [expected] *)
Definition passes (c : list Z * list Z) : bool :=
  match ExecDeleteTestcase (H := stale_int_key 0) 60 c.1 c.2 ∅ with
  | Ok (os, h) =>
      bool_decide (map out_inorder os = expected (foldl (λ ks k, insert_key k ks) [] c.1) c.2) &&
      bool_decide (h = ∅)
  | _ => false
  end.

Lemma passes_spec c :
  passes c = true →
  ∃ os, ExecDeleteTestcase (H := stale_int_key 0) 60 c.1 c.2 ∅ = Ok (os, ∅) ∧
    map out_inorder os = expected (foldl (λ ks k, insert_key k ks) [] c.1) c.2.
Proof.
  unfold passes. destruct (ExecDeleteTestcase _ _ _ _) as [[os h]| |]; [|done..].
  intros [?%bool_decide_eq_true ->%bool_decide_eq_true]%andb_true_iff. by exists os.
Qed.

(** what a reader of the output checks: the inorder traversals and the message
    of the search phase *)
Definition visible {T} (o : output T) : list T * Z + bool :=
  match o with Orders o => inl (out_inorder o) | SearchPassed b => inr b end.
Fixpoint ref_visible {T} `{Key T} (ks : list T) (cs : list (command T)) : list (list T * Z + bool) :=
  match cs with
  | [] => []
  | c :: cs =>
      match c with
      | PrintOrders => [inl (ks, Z.of_nat (length ks))]
      | SearchPhase q => [inr (forallb (λ k, has_key k ks) q)]
      | _ => []
      end ++ ref_visible (ref_command ks c) cs
  end.
#[export] Instance CMovie_eq_dec : EqDecision CMovie.
Proof. solve_decision. Defined.
Definition script_passes (cs : list (command CMovie)) : bool :=
  match run_script 60 None cs ∅ with
  | Ok (os, _, _) => bool_decide (map visible os = ref_visible [] cs)
  | _ => false
  end.

Lemma script_passes_spec cs :
  script_passes cs = true →
  ∃ os root h, run_script 60 None cs ∅ = Ok ((os, root), h) ∧ map visible os = ref_visible [] cs.
Proof.
  unfold script_passes. destruct (run_script _ _ _ _) as [[[os r] h]| |]; [|done..].
  intros Hc%bool_decide_eq_true. by exists os, r, h.
Qed.
Lemma forallb_Forall {A} (f : A → bool) (P : A → Prop) l :
  (∀ x, f x = true → P x) → forallb f l = true → Forall P l.
Proof.
  intros HP. induction l as [|x l IH]; simpl; [done|]. intros [? ?]%andb_true_iff. auto.
Qed.

(** The test program [_tmain] passes.  Each of the 21 calls of
    [ExecDeleteTestcase], run with memory in which an unset int is 0, terminates,
    writes the remaining items in order after every deletion and leaves no node
    behind; the statements about the nine trees of movies run without a fault,
    including the deletions from seven items, every inorder traversal is the one
    of an ordered set of titles, and the search phase passes. *)
Theorem tmain_passes :
  Forall (λ c, ∃ os, ExecDeleteTestcase (H := stale_int_key 0) 60 c.1 c.2 ∅ = Ok (os, ∅) ∧
      map out_inorder os = expected (foldl (λ ks k, insert_key k ks) [] c.1) c.2)
    (testcases_001_010 ++ testcases_011_021) ∧
  Forall (λ cs, ∃ os root h, run_script 60 None cs ∅ = Ok ((os, root), h) ∧
      map visible os = ref_visible [] cs)
    movie_scripts.
Proof.
  split.
  - apply (forallb_Forall passes); [exact passes_spec|by vm_compute].
  - apply (forallb_Forall script_passes); [exact script_passes_spec|by vm_compute].
Qed.

(** ** What goes wrong *)

(** items after which a deletion rotates over the root to fill an inner node *)
Definition broken_items : list Z := [10; 20; 30; 40; 50; 60; 70; 45]%Z.

Definition null_deref {A} (r : res A) : bool :=
  match r with Fault NullDeref => true | _ => false end.
Lemma null_deref_spec {A} (r : res A) : null_deref r = true → r = Fault NullDeref.
Proof. by destruct r as [| |[]]. Qed.
(** the deletions of 10 and 30 succeed; then the deletion of 20, and [removeAll]
    after the first one, fault *)
Definition broken_run : bool :=
  match insert_each 20 broken_items None ∅ with
  | Ok (root, h) =>
      match deleteItem 20 root 10%Z h with
      | Ok ((c1, root1), h1) => (c1 =? SUCCESS)%Z && null_deref (removeAll 20 root1 h1) &&
          match deleteItem 20 root1 30%Z h1 with
          | Ok ((c2, root2), h2) => (c2 =? SUCCESS)%Z && null_deref (deleteItem 20 root2 20%Z h2)
          | _ => false
          end
      | _ => false
      end
  | _ => false
  end.
Lemma broken_codes_spec (del : Z → ptr → gmap loc (CNode Z) → res (Z * ptr * gmap loc (CNode Z)))
    (rem : ptr → gmap loc (CNode Z) → res (Z * ptr * gmap loc (CNode Z))) root h :
  match del 10%Z root h with
  | Ok ((c1, root1), h1) => (c1 =? SUCCESS)%Z && null_deref (rem root1 h1) &&
      match del 30%Z root1 h1 with
      | Ok ((c2, root2), h2) => (c2 =? SUCCESS)%Z && null_deref (del 20%Z root2 h2)
      | _ => false
      end
  | _ => false
  end = true →
  ∃ root1 h1 root2 h2,
    del 10%Z root h = Ok ((SUCCESS, root1), h1) ∧ rem root1 h1 = Fault NullDeref ∧
    del 30%Z root1 h1 = Ok ((SUCCESS, root2), h2) ∧ del 20%Z root2 h2 = Fault NullDeref.
Proof.
  destruct (del 10%Z root h) as [[[c1 root1] h1]| |] eqn:H1; [|done..].
  destruct (del 30%Z root1 h1) as [[[c2 root2] h2]| |] eqn:H2; [|by intros [_ [=]]%andb_true_iff..].
  intros [[->%Z.eqb_eq Hrem%null_deref_spec]%andb_true_iff H]%andb_true_iff.
  apply andb_true_iff in H as [->%Z.eqb_eq Hdel%null_deref_spec].
  by exists root1, h1, root2, h2.
Qed.
Lemma broken_runs :
  ∃ root h root1 h1 root2 h2,
    insert_each 20 broken_items None ∅ = Ok (root, h) ∧
    is_CTree root [10; 20; 30; 40; 45; 50; 60; 70]%Z h ∧
    deleteItem 20 root 10%Z h = Ok ((SUCCESS, root1), h1) ∧
    removeAll 20 root1 h1 = Fault NullDeref ∧
    deleteItem 20 root1 30%Z h1 = Ok ((SUCCESS, root2), h2) ∧
    deleteItem 20 root2 20%Z h2 = Fault NullDeref.
Proof.
  destruct (insert_each_runs broken_items None [] ∅ 20 is_CTree_empty) as (root & h & Hr & Ht);
    [simpl; lia|].
  assert (broken_run = true) as Hrun by by vm_compute. unfold broken_run in Hrun. rewrite Hr in Hrun.
  destruct (broken_codes_spec (λ k r, deleteItem 20 r k) (removeAll 20) root h Hrun)
    as (root1 & h1 & root2 & h2 & H1 & H2 & H3 & H4).
  exists root, h, root1, h1, root2, h2. exact (conj Hr (conj Ht (conj H1 (conj H2 (conj H3 H4))))).
Qed.

(** C40: deletion does not keep the tree balanced, shown on one tree: from the
    balanced tree that the insertion of eight keys makes, the item 10 is deleted with
    SUCCESS, but [globalRotation] moves a key into an inner node that keeps only one
    of its two children.  The deletion of 30 still returns SUCCESS; the deletion of
    20 then reads through a NULL pointer. *)
Theorem CTree_deleteItem_breaks :
  ∃ root h root1 h1 root2 h2,
    insert_each 20 broken_items None ∅ = Ok (root, h) ∧
    is_CTree root [10; 20; 30; 40; 45; 50; 60; 70]%Z h ∧
    deleteItem 20 root 10%Z h = Ok ((SUCCESS, root1), h1) ∧
    deleteItem 20 root1 30%Z h1 = Ok ((SUCCESS, root2), h2) ∧
    deleteItem 20 root2 20%Z h2 = Fault NullDeref.
Proof.
  destruct broken_runs as (root & h & root1 & h1 & root2 & h2 & ? & ? & ? & _ & ? & ?).
  exists root, h, root1, h1, root2, h2. split_and!; assumption.
Qed.

(** The destructor does not survive such a tree either: after the deletion of 10,
    [removeAll] looks for the smallest node below a child that is NULL. *)
Theorem CTree_removeAll_breaks :
  ∃ root h root1 h1,
    insert_each 20 broken_items None ∅ = Ok (root, h) ∧
    deleteItem 20 root 10%Z h = Ok ((SUCCESS, root1), h1) ∧
    removeAll 20 root1 h1 = Fault NullDeref.
Proof.
  destruct broken_runs as (root & h & root1 & h1 & root2 & h2 & ? & _ & ? & ? & _).
  exists root, h, root1, h1. split_and!; assumption.
Qed.

(** The test program reads memory that was never set: the preorder traversal of
    a tree of ints compares with the big key of a leaf that has none.  The first
    test case of [_tmain] already does. *)
Theorem preorder_reads_unset :
  (λ c, ExecDeleteTestcase 60 c.1 c.2 ∅) <$> head testcases_001_010 = Some (Fault Uninitialised).
Proof.
  by vm_compute.
Qed.

(** ** Witnesses *)

Lemma insert_each_tree (ins : list Z) root h :
  length ins < 20 → insert_each 20 ins None ∅ = Ok (root, h) →
  is_CTree root (foldl (λ ks k, insert_key k ks) [] ins) h.
Proof.
  intros Hl Hr. destruct (insert_each_runs ins None [] ∅ 20 is_CTree_empty) as (r & h' & Hr' & Ht);
    [simpl; lia|]. rewrite Hr in Hr'. by injection Hr' as <- <-.
Qed.
(** the heap after the insertion of some items *)
Definition built (ins : list Z) : ptr * gmap loc (CNode Z) :=
  match insert_each 20 ins None ∅ with Ok rh => rh | _ => (None, ∅) end.
Lemma built_tree ins :
  length ins < 20 →
  match insert_each 20 ins None ∅ with Ok _ => True | _ => False end →
  is_CTree (built ins).1 (foldl (λ ks k, insert_key k ks) [] ins) (built ins).2.
Proof.
  intros Hl Hok. apply insert_each_tree; [done|]. unfold built.
  by destruct (insert_each 20 ins None ∅) as [[]| |].
Qed.
Definition sample : ptr * gmap loc (CNode Z) := built [50; 20; 80; 10; 40]%Z.
Lemma sample_tree : is_CTree sample.1 [10; 20; 40; 50; 80]%Z sample.2.
Proof. apply (built_tree [50; 20; 80; 10; 40]%Z); [simpl; lia|by vm_compute]. Qed.

Lemma CTree_insert_correct_witness :
  ∃ root' h', insert 9 sample.1 30%Z sample.2 = Ok ((SUCCESS, root'), h') ∧
    is_CTree root' [10; 20; 30; 40; 50; 80]%Z h'.
Proof. apply (CTree_insert_correct sample.1 _ sample.2 30%Z 9 sample_tree). vm_compute; lia. Defined.
Lemma CTree_deleteItem_correct_witness :
  ∃ code root' h', deleteItem 9 sample.1 40%Z sample.2 = Ok ((code, root'), h') ∧
    code = SUCCESS ∧ has_keys root' [10; 20; 50; 80]%Z h' ∧
    (5 < 7 → is_CTree root' [10; 20; 50; 80]%Z h').
Proof. apply (CTree_deleteItem_correct sample.1 _ sample.2 40%Z 9 sample_tree). vm_compute; lia. Defined.
Lemma CTree_find_correct_witness :
  find_key 3 sample.1 40%Z sample.2 = Ok (Some 40%Z, sample.2).
Proof. apply (CTree_find_correct sample.1 _ sample.2 40%Z 3 sample_tree). vm_compute; lia. Defined.
Lemma CTree_print_correct_witness :
  ∃ out, print 9 sample.1 inorder sample.2 = Ok ((FAILURE, out, 5%Z), sample.2) ∧
    out ≡ₚ [10; 20; 40; 50; 80]%Z ∧
    (inorder = inorder → out = [10; 20; 40; 50; 80]%Z ∧ ordered out).
Proof.
  apply (CTree_print_correct sample.1 _ sample.2 inorder 9 sample_tree); [simpl; lia|discriminate].
Defined.
Lemma CTree_removeAll_frees_witness :
  removeAll 9 sample.1 sample.2 = Ok ((SUCCESS, None), ∅).
Proof. apply (CTree_removeAll_frees sample.1 _ sample.2 9 sample_tree). vm_compute; lia. Defined.
Lemma CTree_insert_delete_roundtrip_witness :
  ∃ root' h',
    ('(_, r) ← insert 20 sample.1 30%Z; o ← find_key 20 r 30%Z;
     '(_, r) ← deleteItem 20 r 30%Z; mret (o, r)) sample.2 = Ok ((Some 30%Z, root'), h') ∧
    is_CTree root' [10; 20; 40; 50; 80]%Z h'.
Proof.
  apply (CTree_insert_delete_roundtrip sample.1 _ sample.2 30%Z 20 sample_tree);
    [reflexivity|simpl; lia..].
Defined.
Lemma run_script_refines_witness :
  (∃ os root' h', run_script 99 None pMovieTree2 ∅ = Ok ((os, root'), h') ∧
    is_CTree root' (ref_script [] pMovieTree2) h' ∧ script_agrees [] pMovieTree2 os) ∧
  (∃ os root' h', run_script 99 None (map Insert broken_items ++ [Delete 10%Z]) ∅ = Ok ((os, root'), h') ∧
    has_keys root' [20; 30; 40; 45; 50; 60; 70]%Z h').
Proof.
  split.
  - destruct (run_script_refines pMovieTree2 None [] ∅ 99 is_CTree_empty)
      as (os & r & h & Hr & _ & Ht & Hos); [vm_compute; repeat split; lia|by eexists|vm_compute; lia|].
    exists os, r, h. split; [exact Hr|]. split; [|exact Hos]. apply Ht. vm_compute; repeat split; lia.
  - destruct (run_script_refines (map Insert broken_items ++ [Delete 10%Z]) None [] ∅ 99 is_CTree_empty)
      as (os & r & h & Hr & Hk & _).
    + vm_compute. repeat split.
    + unfold prints, broken_items. intros Hp. exfalso. simpl in Hp.
      repeat (apply elem_of_cons in Hp as [Hp|Hp]; [discriminate|]). by apply elem_of_nil in Hp.
    + vm_compute; lia.
    + exists os, r, h. split; [exact Hr|exact Hk].
Defined.
Lemma ExecDeleteTestcase_correct_witness :
  ∃ os, ExecDeleteTestcase 9 [CMovie_default] [CMovie_default] ∅ = Ok (os, ∅) ∧
    map out_inorder os = expected [CMovie_default] [CMovie_default].
Proof.
  apply (ExecDeleteTestcase_correct [CMovie_default] [CMovie_default] 9);
    [simpl; lia..|by eexists].
Defined.
