(* ===== verification/RedBlackTree.v ===== *)
(** The red-black tree of RedBlackTree.cpp: its nodes and functions as programs
    on a heap of nodes.

    The member [root] is an argument of the functions that use it and a result
    of those that assign it.  The constructor of [Node] sets every member but
    [color]: what such a member holds is a parameter of the model, [uninit],
    and reading it is a fault when [uninit] is [None].  Recursions and loops
    have a bound on their depth; the theorems give bounds that are enough. *)

From iris.proofmode Require Import proofmode.
From S2P Require Import Prelude Heap.

(** [enum Color], stored in a [bool] *)
Definition RED : bool := false.
Definition BLACK : bool := true.

Record Node := mk_Node {
  n_data : Z;
  n_color : option bool;      (* None: never written *)
  n_left : ptr;
  n_right : ptr;
  n_parent : ptr;
}.

Definition set_data_left (p : ptr) (n : Node) : Node :=
  mk_Node (n_data n) (n_color n) p (n_right n) (n_parent n).
Definition set_data_right (p : ptr) (n : Node) : Node :=
  mk_Node (n_data n) (n_color n) (n_left n) p (n_parent n).
Definition set_data_parent (p : ptr) (n : Node) : Node :=
  mk_Node (n_data n) (n_color n) (n_left n) (n_right n) p.
Definition set_data_color (c : bool) (n : Node) : Node :=
  mk_Node (n_data n) (Some c) (n_left n) (n_right n) (n_parent n).

Section rbtree.
(** what memory that was never written holds, as the value of a [bool] *)
Context (uninit : option bool).
Implicit Types (root pt p q : ptr) (fuel : nat).
Abbreviation prog := (prog Node).

(** ** Members of a node *)
Definition get_data p : prog Z := n ← load p; mret (n_data n).
Definition get_left p : prog ptr := n ← load p; mret (n_left n).
Definition get_right p : prog ptr := n ← load p; mret (n_right n).
Definition get_parent p : prog ptr := n ← load p; mret (n_parent n).
Definition get_color p : prog bool := n ← load p; lift (of_option Uninitialised (n_color n)).
Definition set_left p q : prog unit := modify p (set_data_left q).
Definition set_right p q : prog unit := modify p (set_data_right q).
Definition set_parent p q : prog unit := modify p (set_data_parent q).
Definition set_color p (c : bool) : prog unit := modify p (set_data_color c).
(** [p->color == c] *)
Definition color_is p (c : bool) : prog bool := x ← get_color p; mret (Bool.eqb x c).

(** [new Node(data)] *)
Definition new_Node (data : Z) : prog ptr := new (mk_Node data uninit None None None).

(** ** Traversals: the result is what is printed *)

Fixpoint inorderHelper fuel root : prog (list Z) :=
  match fuel with
  | O => out_of_fuel
  | S fuel =>
      match root with
      | None => mret []
      | Some _ =>
          l ← get_left root; out1 ← inorderHelper fuel l;
          d ← get_data root;
          r ← get_right root; out2 ← inorderHelper fuel r;
          mret (out1 ++ d :: out2)
      end
  end.

(** the loop on the queue [q] *)
Fixpoint levelOrder_loop fuel (q : list ptr) : prog (list Z) :=
  match fuel with
  | O => out_of_fuel
  | S fuel =>
      match q with
      | [] => mret []
      | temp :: q =>
          d ← get_data temp;
          l ← get_left temp;
          let q := match l with None => q | Some _ => q ++ [l] end in
          r ← get_right temp;
          let q := match r with None => q | Some _ => q ++ [r] end in
          out ← levelOrder_loop fuel q;
          mret (d :: out)
      end
  end.

Definition levelOrderHelper fuel root : prog (list Z) :=
  match root with None => mret [] | Some _ => levelOrder_loop fuel [root] end.

(** ** Insertion *)

Fixpoint BSTInsert fuel root pt : prog ptr :=
  match fuel with
  | O => out_of_fuel
  | S fuel =>
      match root with
      | None => mret pt
      | Some _ =>
          x ← get_data pt; y ← get_data root;
          if (x <? y)%Z then
            l ← get_left root; p ← BSTInsert fuel l pt;
            _ ← set_left root p;
            l ← get_left root; _ ← set_parent l root;
            mret root
          else
            x ← get_data pt; y ← get_data root;
            if (x >? y)%Z then
              r ← get_right root; p ← BSTInsert fuel r pt;
              _ ← set_right root p;
              r ← get_right root; _ ← set_parent r root;
              mret root
            else mret root
      end
  end.

(** the result is the new [root] *)
Definition rotateLeft root pt : prog ptr :=
  pt_right ← get_right pt;
  prl ← get_left pt_right; _ ← set_right pt prl;
  r ← get_right pt;
  _ ← match r with None => mret tt | Some _ => r ← get_right pt; set_parent r pt end;
  p ← get_parent pt; _ ← set_parent pt_right p;
  p ← get_parent pt;
  root ←
    match p with
    | None => mret pt_right
    | Some _ =>
        p ← get_parent pt; l ← get_left p;
        if pt =p? l then p ← get_parent pt; _ ← set_left p pt_right; mret root
        else p ← get_parent pt; _ ← set_right p pt_right; mret root
    end;
  _ ← set_left pt_right pt;
  _ ← set_parent pt pt_right;
  mret root.

Definition rotateRight root pt : prog ptr :=
  pt_left ← get_left pt;
  plr ← get_right pt_left; _ ← set_left pt plr;
  l ← get_left pt;
  _ ← match l with None => mret tt | Some _ => l ← get_left pt; set_parent l pt end;
  p ← get_parent pt; _ ← set_parent pt_left p;
  p ← get_parent pt;
  root ←
    match p with
    | None => mret pt_left
    | Some _ =>
        p ← get_parent pt; l ← get_left p;
        if pt =p? l then p ← get_parent pt; _ ← set_left p pt_left; mret root
        else p ← get_parent pt; _ ← set_right p pt_left; mret root
    end;
  _ ← set_right pt_left pt;
  _ ← set_parent pt pt_left;
  mret root.

(** [swap(p->color, q->color)] *)
Definition swap_color p q : prog unit :=
  a ← get_color p; b ← get_color q; _ ← set_color p b; set_color q a.

(** Case 1 of both sides: the uncle is red *)
Definition recolor (grand_parent_pt parent_pt uncle_pt : ptr) : prog unit :=
  _ ← set_color grand_parent_pt RED;
  _ ← set_color parent_pt BLACK;
  set_color uncle_pt BLACK.

(** the body of the loop of [fixViolation]; the results are [root] and [pt] *)
Definition fixViolation_body root pt : prog (ptr * ptr) :=
  parent_pt ← get_parent pt;
  p ← get_parent pt; grand_parent_pt ← get_parent p;
  gl ← get_left grand_parent_pt;
  if parent_pt =p? gl then
    uncle_pt ← get_right grand_parent_pt;
    red ← mret (negb (uncle_pt =p? None)) &&& color_is uncle_pt RED;
    if red : bool then
      _ ← recolor grand_parent_pt parent_pt uncle_pt; mret (root, grand_parent_pt)
    else
      pr ← get_right parent_pt;
      '(root, parent_pt) ←
        (if pt =p? pr then
           root ← rotateLeft root parent_pt;
           let pt := parent_pt in
           parent_pt ← get_parent pt; mret (root, parent_pt)
         else mret (root, parent_pt));
      root ← rotateRight root grand_parent_pt;
      _ ← swap_color parent_pt grand_parent_pt;
      mret (root, parent_pt)
  else
    uncle_pt ← get_left grand_parent_pt;
    red ← mret (negb (uncle_pt =p? None)) &&& color_is uncle_pt RED;
    if red : bool then
      _ ← recolor grand_parent_pt parent_pt uncle_pt; mret (root, grand_parent_pt)
    else
      pl ← get_left parent_pt;
      '(root, parent_pt) ←
        (if pt =p? pl then
           root ← rotateRight root parent_pt;
           let pt := parent_pt in
           parent_pt ← get_parent pt; mret (root, parent_pt)
         else mret (root, parent_pt));
      root ← rotateLeft root grand_parent_pt;
      _ ← swap_color parent_pt grand_parent_pt;
      mret (root, parent_pt).

(** the condition of the loop *)
Definition violation root pt : prog bool :=
  mret (negb (pt =p? root)) &&& notM (color_is pt BLACK) &&&
  (p ← get_parent pt; color_is p RED).

Fixpoint fixViolation_loop fuel root pt : prog ptr :=
  match fuel with
  | O => out_of_fuel
  | S fuel =>
      c ← violation root pt;
      if c : bool then
        '(root, pt) ← fixViolation_body root pt; fixViolation_loop fuel root pt
      else mret root
  end.

Definition fixViolation fuel root pt : prog ptr :=
  root ← fixViolation_loop fuel root pt;
  _ ← set_color root BLACK;
  mret root.

(** [RBTree::insert]; the result is the new value of the member [root] *)
Definition insert fuel root (data : Z) : prog ptr :=
  pt ← new_Node data;
  root ← BSTInsert fuel root pt;
  fixViolation fuel root pt.

Definition inorder fuel root : prog (list Z) := inorderHelper fuel root.
Definition levelOrder fuel root : prog (list Z) := levelOrderHelper fuel root.

(** consecutive calls of [insert] *)
Fixpoint insert_all fuel root (ks : list Z) : prog ptr :=
  match ks with
  | [] => mret root
  | k :: ks => root ← insert fuel root k; insert_all fuel root ks
  end.

(** [main]: the two traversals that it prints *)
Definition main fuel : prog (list Z * list Z) :=
  root ← insert_all fuel None [7; 6; 5; 4; 3; 2; 1]%Z;
  out1 ← inorder fuel root;
  out2 ← levelOrder fuel root;
  mret (out1, out2).
End rbtree.
