(* ===== verification/RedBlackSpec.v ===== *)
(** Red-black trees as values: what insertion (RedBlackTree.cpp) does to the
    tree that a heap of nodes represents.

    A [tree] records the address and the color of its nodes, a list of frames
    the path from a place of the tree up to the root.  [rb_insert] puts a red
    node at its place and repairs the path above it; [rb h t] says that all
    paths of [t] to its leaves meet [h] black nodes and that no red node has a
    red child. *)

From stdpp Require Import sorting.
From S2P Require Import Prelude Heap RedBlackTree.

Inductive tree :=
  | E
  | N (n : loc) (c : bool) (l : tree) (k : Z) (r : tree).

(** a node with its left (right) child taken out *)
Inductive frame :=
  | FL (n : loc) (c : bool) (k : Z) (r : tree)
  | FR (n : loc) (c : bool) (l : tree) (k : Z).

Implicit Types (t l r u : tree) (f g : frame) (cx : list frame) (k : Z) (c : bool).

Definition ptr_of t : ptr := match t with E => None | N n _ _ _ _ => Some n end.
Definition frame_loc f : loc := match f with FL n _ _ _ | FR n _ _ _ => n end.
Definition frame_color f : bool := match f with FL _ c _ _ | FR _ c _ _ => c end.
Definition sibling f : tree := match f with FL _ _ _ t | FR _ _ t _ => t end.
Definition ctx_ptr cx : ptr := frame_loc <$> head cx.

Definition fill f t : tree :=
  match f with FL n c k r => N n c t k r | FR n c l k => N n c l k t end.
Fixpoint plug cx t : tree := match cx with [] => t | f :: cx => plug cx (fill f t) end.

(** the keys from left to right *)
Fixpoint keys t : list Z :=
  match t with E => [] | N _ _ l k r => keys l ++ k :: keys r end.
Fixpoint height t : nat :=
  match t with E => 0 | N _ _ l _ r => S (height l `max` height r) end.
(** the keys at depth [d], from left to right *)
Fixpoint level (d : nat) t {struct t} : list Z :=
  match t, d with
  | E, _ => []
  | N _ _ _ k _, 0 => [k]
  | N _ _ l _ r, S d => level d l ++ level d r
  end.
Definition level_order t : list Z := concat ((λ d, level d t) <$> seq 0 (height t)).

(** ** Insertion *)

(** the unbalanced insertion of [leaf] as a node for the key [k] *)
Fixpoint bst_insert (leaf : tree) k t : tree :=
  match t with
  | E => leaf
  | N n c l x r =>
      if (k <? x)%Z then N n c (bst_insert leaf k l) x r
      else if (k >? x)%Z then N n c l x (bst_insert leaf k r)
      else t
  end.
(** the path to the place of [k] *)
Fixpoint path k t cx : list frame :=
  match t with
  | E => cx
  | N n c l x r =>
      if (k <? x)%Z then path k l (FL n c x r :: cx) else path k r (FR n c l x :: cx)
  end.

Definition paint c t : tree := match t with E => E | N n _ l k r => N n c l k r end.
Definition is_red t : bool := match t with N _ c _ _ _ => Bool.eqb c RED | E => false end.

(** the rotations for a red node [t] with the parent [f] and the grandparent
    [g]: the root of the result has the color of [g] *)
Definition rotate f g t : tree :=
  match g, f, t with
  | FL ng cg kg u, FL np _ kp s, _ => N np cg t kp (N ng RED s kg u)
  | FL ng cg kg u, FR np _ s kp, N nx cx a kx b =>
      N nx cg (N np cx s kp a) kx (N ng RED b kg u)
  | FR ng cg u kg, FR np _ s kp, _ => N np cg (N ng RED u kg s) kp t
  | FR ng cg u kg, FL np _ kp s, N nx cx a kx b =>
      N nx cg (N ng RED u kg a) kx (N np cx b kp s)
  | _, _, E => E
  end.
(** the red node [t] gets red parent and red uncle: both become black *)
Definition recolored f g t : tree :=
  match g with
  | FL ng _ kg u => N ng RED (paint BLACK (fill f t)) kg (paint BLACK u)
  | FR ng _ u kg => N ng RED (paint BLACK u) kg (paint BLACK (fill f t))
  end.

(** the loop of [fixViolation] at the red node [t] below the path [cx] *)
Fixpoint fixup cx t : tree :=
  match cx with
  | f :: g :: cx' =>
      if frame_color f then plug cx t
      else if is_red (sibling g) then fixup cx' (recolored f g t)
      else plug cx' (rotate f g t)
  | _ => plug cx t
  end.

Definition rb_insert (n : loc) k t : tree :=
  paint BLACK (fixup (path k t []) (N n RED E k E)).

(** ** Invariants *)

(** all paths meet [h] black nodes, a red node has black children *)
Fixpoint rb (h : nat) t {struct t} : Prop :=
  match t with
  | E => h = 0
  | N _ true l _ r => match h with 0 => False | S h => rb h l ∧ rb h r end
  | N _ false l _ r => is_red l = false ∧ is_red r = false ∧ rb h l ∧ rb h r
  end.

(** the path [cx] around a tree of black height [h]; the tree may be red *)
Fixpoint rb_ctx (h : nat) cx : Prop :=
  match cx with
  | [] => True
  | f :: cx =>
      rb h (sibling f) ∧
      if frame_color f then rb_ctx (S h) cx
      else is_red (sibling f) = false ∧
           (if head cx is Some g then frame_color g = BLACK else False) ∧ rb_ctx h cx
  end.

Definition sorted_keys t : Prop := StronglySorted Z.lt (keys t).

(** a red-black tree: balanced, the root black, the keys in order *)
Record wf (h : nat) t : Prop := {
  wf_rb : rb h t;
  wf_root : is_red t = false;
  wf_sorted : sorted_keys t;
}.

(** ** Facts *)

Definition frame_left f : list Z := match f with FL _ _ _ _ => [] | FR _ _ l k => keys l ++ [k] end.
Definition frame_right f : list Z := match f with FL _ _ k r => k :: keys r | FR _ _ _ _ => [] end.
Fixpoint ctx_left cx : list Z := match cx with [] => [] | f :: cx => ctx_left cx ++ frame_left f end.
Fixpoint ctx_right cx : list Z := match cx with [] => [] | f :: cx => frame_right f ++ ctx_right cx end.

Lemma keys_fill_rb f t : keys (fill f t) = frame_left f ++ keys t ++ frame_right f.
Proof. destruct f; simpl; by rewrite ?app_nil_r -?app_assoc. Qed.
Lemma keys_plug_rb cx t : keys (plug cx t) = ctx_left cx ++ keys t ++ ctx_right cx.
Proof.
  revert t; induction cx as [|f cx IH]; intros t; simpl; [by rewrite app_nil_r|].
  by rewrite IH keys_fill_rb -!app_assoc.
Qed.
Lemma keys_paint c t : keys (paint c t) = keys t.
Proof. by destruct t. Qed.
Lemma keys_rotate f g n c l k r :
  keys (rotate f g (N n c l k r)) = keys (fill g (fill f (N n c l k r))).
Proof. destruct g, f; simpl; by rewrite ?app_nil_r -?app_assoc /= -?app_assoc. Qed.
Lemma keys_recolored f g t : keys (recolored f g t) = keys (fill g (fill f t)).
Proof. destruct g; simpl; by rewrite !keys_paint ?keys_fill_rb. Qed.

(** induction along a path, two frames at a time *)
Lemma path_ind (P : list frame → Prop) :
  P [] → (∀ f, P [f]) → (∀ f g cx, P cx → P (f :: g :: cx)) → ∀ cx, P cx.
Proof.
  intros H0 H1 H2 cx. cut (P cx ∧ ∀ f, P (f :: cx)); [by intros []|].
  induction cx as [|g cx [IH1 IH2]]; auto.
Qed.

Lemma keys_fixup cx n c l k r :
  keys (fixup cx (N n c l k r)) = keys (plug cx (N n c l k r)).
Proof.
  revert n c l k r. induction cx as [| |f g cx IH] using path_ind; intros n c l k r; try done.
  simpl. destruct (frame_color f); [done|]. destruct (is_red (sibling g)).
  - assert (∃ m l' x r', recolored f g (N n c l k r) = N m RED l' x r') as (m & l' & x & r' & Hr).
    { destruct g; simpl; eauto. }
    rewrite Hr IH -Hr !keys_plug_rb keys_recolored. done.
  - by rewrite !keys_plug_rb keys_rotate.
Qed.

Lemma path_plug leaf k t cx :
  k ∉ keys t → plug (path k t cx) leaf = plug cx (bst_insert leaf k t).
Proof.
  revert cx. induction t as [|n c l IHl x r IHr]; intros cx Hk; simpl in *; [done|].
  rewrite elem_of_app elem_of_cons in Hk.
  destruct (k <? x)%Z eqn:?; [rewrite IHl //=; tauto|].
  destruct (k >? x)%Z eqn:?; [rewrite IHr //=; tauto|].
  exfalso. apply Hk. right; left. lia.
Qed.
Lemma keys_rb_insert n k t : k ∉ keys t → keys (rb_insert n k t) = keys (bst_insert (N n RED E k E) k t).
Proof. intros Hk. unfold rb_insert. by rewrite keys_paint keys_fixup path_plug. Qed.

(** ** Order *)

(** [k] put at its place in a sorted list *)
Fixpoint insert_key k (ks : list Z) : list Z :=
  match ks with
  | [] => [k]
  | x :: ks => if (k <? x)%Z then k :: x :: ks else x :: insert_key k ks
  end.

Lemma insert_key_Permutation k ks : insert_key k ks ≡ₚ k :: ks.
Proof.
  induction ks as [|x ks IH]; simpl; [done|]. case_match; [done|]. rewrite IH. constructor.
Qed.
Lemma insert_key_elem k ks x : x ∈ insert_key k ks ↔ x = k ∨ x ∈ ks.
Proof. by rewrite insert_key_Permutation elem_of_cons. Qed.
Lemma insert_key_sorted k ks :
  k ∉ ks → StronglySorted Z.lt ks → StronglySorted Z.lt (insert_key k ks).
Proof.
  intros Hk Hs. induction Hs as [|x ks Hs IH Hx]; simpl; [by repeat constructor|].
  rewrite not_elem_of_cons in Hk. destruct Hk as [Hne Hk].
  destruct (k <? x)%Z eqn:Hlt.
  - repeat constructor; [done..|lia|]. eapply Forall_impl; [done|]. simpl; lia.
  - constructor; [by apply IH|]. apply Forall_forall. intros y [->|Hy]%insert_key_elem; [lia|].
    by eapply Forall_forall in Hx.
Qed.
Lemma insert_key_below k ks x ks' :
  (k < x)%Z → insert_key k (ks ++ x :: ks') = insert_key k ks ++ x :: ks'.
Proof.
  intros Hx. induction ks as [|y ks IH]; simpl.
  - destruct (k <? x)%Z eqn:?; [done|lia].
  - case_match; [done|]. by rewrite IH.
Qed.
Lemma insert_key_above k ks x ks' :
  Forall (λ y, y < k)%Z (ks ++ [x]) →
  insert_key k (ks ++ x :: ks') = ks ++ x :: insert_key k ks'.
Proof.
  induction ks as [|y ks IH]; simpl; intros [Hy Hks]%Forall_cons.
  - by rewrite (proj2 (Z.ltb_ge _ _)); [|lia].
  - rewrite (proj2 (Z.ltb_ge _ _)); [|lia]. by rewrite IH.
Qed.

Lemma sorted_keys_N n c l k r :
  sorted_keys (N n c l k r) ↔
  sorted_keys l ∧ sorted_keys r ∧ Forall (λ x, x < k)%Z (keys l) ∧ Forall (Z.lt k) (keys r) ∧
  Forall (λ x, Forall (Z.lt x) (keys r)) (keys l).
Proof.
  rewrite /sorted_keys /= StronglySorted_app. setoid_rewrite elem_of_cons.
  split.
  - intros (Hlr & Hl & [Hr Hk]%StronglySorted_inv).
    split_and!; [done..| |done|]; apply Forall_forall; intros x Hx.
    + apply Hlr; auto.
    + apply Forall_forall; intros y Hy. apply Hlr; auto.
  - intros (Hl & Hr & Hlk & Hk & Hlr). split_and!; [|done|by constructor].
    intros x y Hx [->|Hy]; [by eapply Forall_forall in Hlk|].
    eapply Forall_forall in Hlr; [|done]. by eapply Forall_forall in Hlr.
Qed.

Lemma keys_bst_insert leaf k t :
  keys leaf = [k] → sorted_keys t → k ∉ keys t → keys (bst_insert leaf k t) = insert_key k (keys t).
Proof.
  intros Hleaf. induction t as [|n c l IHl x r IHr]; simpl; [done|].
  intros (Hl & Hr & Hlx & Hrx & _)%sorted_keys_N Hk.
  rewrite not_elem_of_app not_elem_of_cons in Hk. destruct Hk as (Hkl & Hkx & Hkr).
  destruct (k <? x)%Z eqn:?; simpl.
  - rewrite IHl // insert_key_below //. lia.
  - rewrite Z.gtb_ltb. rewrite (proj2 (Z.ltb_lt _ _)); [|lia]. simpl.
    rewrite IHr // insert_key_above //. apply Forall_app. split; [|by repeat constructor; lia].
    eapply Forall_impl; [done|]. simpl; lia.
Qed.

(** ** Balance *)

Lemma rb_plug cx h t :
  rb h t → rb_ctx h cx →
  (is_red t = true → if head cx is Some f then frame_color f = BLACK else False) →
  ∃ h', rb h' (plug cx t) ∧ is_red (plug cx t) = false.
Proof.
  revert h t; induction cx as [|f cx IH]; intros h t Ht Hc Hred; simpl in *.
  - exists h. split; [done|]. destruct (is_red t) eqn:Hr; [by destruct Hred|done].
  - destruct Hc as [Hs Hf]. destruct f as [n c k s|n c s k], c; simpl in *.
    + apply (IH (S h)); done.
    + destruct (is_red t) eqn:Hr; [by specialize (Hred eq_refl)|].
      destruct Hf as (? & ? & ?). by apply (IH h).
    + apply (IH (S h)); done.
    + destruct (is_red t) eqn:Hr; [by specialize (Hred eq_refl)|].
      destruct Hf as (? & ? & ?). by apply (IH h).
Qed.

Lemma rb_path k t cx h :
  rb h t → rb_ctx h cx →
  (is_red t = true → if head cx is Some f then frame_color f = BLACK else False) →
  rb_ctx 0 (path k t cx).
Proof.
  revert cx h; induction t as [|n c l IHl x r IHr]; intros cx h Ht Hc Hred; simpl in *;
    [by subst|].
  destruct c; [destruct h as [|h]; [done|]|]; simpl in *; destruct (k <? x)%Z.
  - apply (IHl _ h); simpl; tauto.
  - apply (IHr _ h); simpl; tauto.
  - destruct Ht as (Hl & Hr & ? & ?). apply (IHl _ h); simpl; rewrite ?Hl; tauto.
  - destruct Ht as (Hl & Hr & ? & ?). apply (IHr _ h); simpl; rewrite ?Hr; tauto.
Qed.

Lemma rb_paint_black h t : rb h t → ∃ h', rb h' (paint BLACK t).
Proof. destruct t as [|n [] l k r]; simpl; intros Ht; [by exists h..|]. exists (S h). naive_solver. Qed.
Lemma is_red_black t : is_red (paint BLACK t) = false.
Proof. by destruct t. Qed.
Lemma paint_black t : is_red t = false → paint BLACK t = t.
Proof. by destruct t as [|n [] l k r]. Qed.

Lemma rb_recolored h f g t :
  frame_color f = RED → frame_color g = BLACK → rb h t → rb h (sibling f) → rb h (sibling g) →
  is_red (sibling g) = true → rb (S h) (recolored f g t) ∧ is_red (recolored f g t) = true.
Proof.
  destruct f as [nf cf kf sf|nf cf sf kf], g as [ng cg kg u|ng cg u kg]; simpl; intros -> ->;
    destruct u as [|? [] ? ? ?]; naive_solver.
Qed.
Lemma rb_rotate h f g n l k r :
  frame_color f = RED → frame_color g = BLACK → rb h (N n RED l k r) → rb h (sibling f) →
  rb h (sibling g) → is_red (sibling f) = false → is_red (sibling g) = false →
  rb (S h) (rotate f g (N n RED l k r)) ∧ is_red (rotate f g (N n RED l k r)) = false.
Proof.
  destruct f as [nf cf kf sf|nf cf sf kf], g as [ng cg kg u|ng cg u kg]; simpl; intros -> ->;
    naive_solver.
Qed.

Lemma rb_fixup cx h n l k r :
  rb h (N n RED l k r) → rb_ctx h cx →
  ∃ h', rb h' (paint BLACK (fixup cx (N n RED l k r))).
Proof.
  revert h n l k r. induction cx as [|f|f g cx IH] using path_ind; intros h n l k r Ht Hc.
  - by eapply rb_paint_black.
  - simpl in Hc. destruct (frame_color f) eqn:Hf; [|naive_solver].
    edestruct (rb_plug [f] h (N n RED l k r)) as (h' & Hh & _); simpl; [done|by rewrite Hf|by intros|].
    by eapply rb_paint_black.
  - destruct Hc as [Hs Hc]. simpl in *. destruct (frame_color f) eqn:Hf.
    { edestruct (rb_plug (f :: g :: cx) h (N n RED l k r)) as (h' & Hh & _); simpl;
        [done|by rewrite Hf|done|]. by eapply rb_paint_black. }
    destruct Hc as (Hsr & Hg & Hu & Hc). rewrite Hg in Hc.
    destruct (is_red (sibling g)) eqn:Hur.
    + destruct (rb_recolored h f g (N n RED l k r)) as [Hr _]; [done..|].
      destruct g; apply (IH (S h)); done.
    + destruct (rb_rotate h f g n l k r) as [Hr Hrr]; [done..|].
      destruct (rb_plug cx (S h) (rotate f g (N n RED l k r))) as (h' & Hh & _); [done..|by rewrite Hrr|].
      by eapply rb_paint_black.
Qed.

(** insertion of a new key: the tree stays a red-black tree, with the key at
    its place *)
Lemma wf_rb_insert n k h t :
  wf h t → k ∉ keys t →
  (∃ h', wf h' (rb_insert n k t)) ∧ keys (rb_insert n k t) = insert_key k (keys t).
Proof.
  intros [Hrb Hroot Hs] Hk.
  assert (keys (rb_insert n k t) = insert_key k (keys t)) as Hkeys.
  { by rewrite keys_rb_insert // keys_bst_insert. }
  split; [|done]. destruct (rb_fixup (path k t []) 0 n E k E) as (h' & Hh'); [done| |].
  { eapply rb_path; [done..|]. by rewrite Hroot. }
  exists h'. split; [done|by apply is_red_black|].
  rewrite /sorted_keys Hkeys. by apply insert_key_sorted.
Qed.

(** ** Height *)

Lemma rb_height h t : rb h t → height t ≤ 2 * h + (if is_red t then 1 else 0).
Proof.
  revert h; induction t as [|n c l IHl k r IHr]; intros h; simpl; [lia|].
  destruct c; simpl.
  - destruct h as [|h]; [done|]. intros [Hl%IHl Hr%IHr].
    destruct (is_red l), (is_red r); lia.
  - intros (Hl' & Hr' & Hl%IHl & Hr%IHr). rewrite Hl' in Hl. rewrite Hr' in Hr. lia.
Qed.
Lemma rb_size h t : rb h t → 2 ^ h ≤ S (length (keys t)).
Proof.
  revert h; induction t as [|n c l IHl k r IHr]; intros h; simpl; [by intros ->|].
  rewrite length_app /=. destruct c.
  - destruct h as [|h]; [done|]. intros [Hl%IHl Hr%IHr]. simpl. lia.
  - intros (_ & _ & Hl%IHl & Hr%IHr). lia.
Qed.
Lemma wf_height h t : wf h t → height t ≤ 2 * Nat.log2 (S (length (keys t))).
Proof.
  intros [Hrb Hroot _]. pose proof (rb_height h t Hrb) as Hh. rewrite Hroot in Hh.
  apply rb_size in Hrb. apply Nat.log2_le_pow2 in Hrb; lia.
Qed.
Lemma length_path k t cx : length (path k t cx) ≤ height t + length cx.
Proof.
  revert cx; induction t as [|n c l IHl x r IHr]; intros cx; simpl; [lia|].
  case_match; [etrans; [apply IHl|]|etrans; [apply IHr|]]; simpl; lia.
Qed.
Lemma height_le_size t : height t ≤ length (keys t).
Proof. induction t; simpl; [done|]. rewrite length_app /=. lia. Qed.
