(* ===== verification/RedBlackProps.v ===== *)
(** Red-black trees on the heap: the functions of RedBlackTree.cpp do to the
    nodes what [rb_insert] does to the tree. *)

From iris.proofmode Require Import proofmode environments coq_tactics reduction.
From stdpp Require Import sorting.
From S2P Require Import Prelude Heap HeapTactics RedBlackTree RedBlackSpec.

Section rep.
Implicit Types (t l r u : tree) (f g : frame) (cx : list frame) (k : Z) (c : bool) (p par : ptr).
Abbreviation hProp := (heapPropI Node).

(** the heap is the tree [t], whose root has the parent [par] *)
Fixpoint is_tree t par : hProp :=
  match t with
  | E => emp
  | N n c l k r =>
      n ↦ mk_Node k (Some c) (ptr_of l) (ptr_of r) par ∗
      is_tree l (Some n) ∗ is_tree r (Some n)
  end%I.

(** the nodes of a path; [p] points to the child that is taken out *)
Definition is_frame f p par : hProp :=
  match f with
  | FL n c k r => n ↦ mk_Node k (Some c) p (ptr_of r) par ∗ is_tree r (Some n)
  | FR n c l k => n ↦ mk_Node k (Some c) (ptr_of l) p par ∗ is_tree l (Some n)
  end%I.
Fixpoint is_ctx cx p : hProp :=
  match cx with
  | [] => emp
  | f :: cx => is_frame f p (ctx_ptr cx) ∗ is_ctx cx (Some (frame_loc f))
  end%I.
End rep.
#[export] Typeclasses Opaque is_tree is_ctx.
Arguments is_tree !_ _ /.
Arguments is_frame !_ _ _ /.
Arguments is_ctx !_ _ /.

Section trees.
Implicit Types (t l r u : tree) (f g : frame) (cx : list frame) (k : Z) (c : bool) (p par : ptr).

Lemma ptr_of_fill_rb f t : ptr_of (fill f t) = Some (frame_loc f).
Proof. by destruct f. Qed.
Lemma ptr_of_plug_rb cx t t' : ptr_of t = ptr_of t' → ptr_of (plug cx t) = ptr_of (plug cx t').
Proof.
  revert t t'; induction cx as [|f cx IH]; intros t t' Ht; simpl; [done|].
  apply IH. by rewrite !ptr_of_fill_rb.
Qed.
Lemma is_tree_fill_rb f t par :
  is_tree (fill f t) par ⊣⊢ is_tree t (Some (frame_loc f)) ∗ is_frame f (ptr_of t) par.
Proof.
  destruct f; simpl; iSplit.
  - iIntros "($ & $ & $)".
  - iIntros "($ & $ & $)".
  - iIntros "($ & $ & $)".
  - iIntros "($ & $ & $)".
Qed.
Lemma is_tree_plug_rb cx t :
  is_tree (plug cx t) None ⊣⊢ is_tree t (ctx_ptr cx) ∗ is_ctx cx (ptr_of t).
Proof.
  revert t; induction cx as [|f cx IH]; intros t; simpl; [by rewrite right_id|].
  rewrite IH is_tree_fill_rb ptr_of_fill_rb -assoc //.
Qed.

(** ** Rules for the members of a node *)
#[export] Instance get_data_op n (v : Node) : CellOp (get_data (Some n)) n v (n_data v) v.
Proof. eapply bind_op; [apply _|apply ret_op]. Qed.
#[export] Instance get_left_op n (v : Node) : CellOp (get_left (Some n)) n v (n_left v) v.
Proof. eapply bind_op; [apply _|apply ret_op]. Qed.
#[export] Instance get_right_op n (v : Node) : CellOp (get_right (Some n)) n v (n_right v) v.
Proof. eapply bind_op; [apply _|apply ret_op]. Qed.
#[export] Instance get_parent_op n (v : Node) : CellOp (get_parent (Some n)) n v (n_parent v) v.
Proof. eapply bind_op; [apply _|apply ret_op]. Qed.
#[export] Instance get_color_op n d c (l r p : ptr) :
  CellOp (get_color (Some n)) n (mk_Node d (Some c) l r p) c (mk_Node d (Some c) l r p).
Proof. eapply bind_op; [apply _|by apply lift_op]. Qed.
#[export] Instance color_is_op n d c c' (l r p : ptr) :
  CellOp (color_is (Some n) c') n (mk_Node d (Some c) l r p) (Bool.eqb c c')
    (mk_Node d (Some c) l r p).
Proof. eapply bind_op; [apply _|apply ret_op]. Qed.
#[export] Instance set_left_op n (v : Node) p : CellOp (set_left (Some n) p) n v tt (set_data_left p v).
Proof. apply _. Qed.
#[export] Instance set_right_op n (v : Node) p : CellOp (set_right (Some n) p) n v tt (set_data_right p v).
Proof. apply _. Qed.
#[export] Instance set_parent_op n (v : Node) p :
  CellOp (set_parent (Some n) p) n v tt (set_data_parent p v).
Proof. apply _. Qed.
#[export] Instance set_color_op n (v : Node) c : CellOp (set_color (Some n) c) n v tt (set_data_color c v).
Proof. apply _. Qed.
End trees.

Ltac node_simpl :=
  cbn [set_data_left set_data_right set_data_parent set_data_color
       n_data n_color n_left n_right n_parent ptr_of ctx_ptr head fmap option_fmap option_map
       frame_loc fst snd];
  change (Bool.eqb RED RED) with true; change (Bool.eqb BLACK RED) with false;
  change (Bool.eqb RED BLACK) with false; change (Bool.eqb BLACK BLACK) with true;
  cbv beta iota.
Ltac steps := wp_ops node_simpl.
Ltac open_reps :=
  cbn [is_tree is_ctx is_frame ptr_of frame_loc ctx_ptr head fmap option_fmap option_map].

Section rotations.
Implicit Types (t l r u : tree) (f g : frame) (cx : list frame) (k : Z) (c : bool) (p par root : ptr).

(** a subtree that is not empty is at another address than a cell outside it *)
Lemma is_tree_ne t par n (v : Node) :
  is_tree t par -∗ n ↦ v -∗ ⟨ptr_of t ≠ Some n⟩ ∗ is_tree t par ∗ n ↦ v.
Proof.
  iIntros "Ht Hn". destruct t as [|m c l k r]; simpl; [by iFrame|].
  iDestruct "Ht" as "(Hm & Hl & Hr)". cells_ne.
  iFrame. iPureIntro. congruence.
Qed.

(** the part of a rotation that puts [q] where [Some n] hangs *)
Lemma wp_relink cx n v q root (Φ : ptr → heapPropI Node) :
  n_parent v = ctx_ptr cx →
  n ↦ v ∗ is_ctx cx (Some n) ∗
  (n ↦ v -∗ is_ctx cx q -∗ Φ (if cx is [] then q else root)) ⊢
  wp (match ctx_ptr cx with
      | None => mret q
      | Some _ =>
          p ← get_parent (Some n); l ← get_left p;
          if Some n =p? l then p ← get_parent (Some n); _ ← set_left p q; mret root
          else p ← get_parent (Some n); _ ← set_right p q; mret root
      end) Φ.
Proof.
  intros Hv. iIntros "(Hn & Hc & HΦ)".
  destruct cx as [|f cx]; simpl.
  - repeat (progress (steps; rewrite ?Hv /=)). iApply ("HΦ" with "Hn Hc").
  - iDestruct "Hc" as "[Hf Hc]". destruct f as [m c k r|m c l k]; simpl;
      iDestruct "Hf" as "[Hm Ht]"; repeat (progress (steps; rewrite ?Hv /=)).
    + iApply ("HΦ" with "Hn"). iFrame.
    + iDestruct (is_tree_ne with "Ht Hn") as "(%Hne & Ht & Hn)".
      rewrite ptr_eqb_neq; [|done]. repeat (progress (steps; rewrite ?Hv /=)). iApply ("HΦ" with "Hn"). iFrame.
Qed.

Lemma wp_rotateLeft cx (p : loc) cp (a : tree) k (m : loc) cm (b : tree) (x : Z) (d : tree) root (Φ : ptr → heapPropI Node) :
  is_tree (N p cp a k (N m cm b x d)) (ctx_ptr cx) ∗ is_ctx cx (Some p) ∗
  (is_tree (N m cm (N p cp a k b) x d) (ctx_ptr cx) -∗ is_ctx cx (Some m) -∗
   Φ (if cx is [] then Some m else root)) ⊢
  wp (rotateLeft root (Some p)) Φ.
Proof.
  simpl. iIntros "((Hp & Ha & Hm & Hb & Hd) & Hc & HΦ)". unfold rotateLeft. steps.
  iAssert (wp (match ptr_of b with
     | None => mret tt | Some _ => r ← get_right (Some p); set_parent r (Some p) end)
     (λ _, p ↦ mk_Node k (Some cp) (ptr_of a) (ptr_of b) (ctx_ptr cx) ∗ is_tree b (Some p)))%I
     with "[Hp Hb]" as "Hw".
  { destruct b as [|nb cb bl kb br]; simpl; [steps; iFrame|].
    iDestruct "Hb" as "(Hb & Hl & Hr)". steps. iFrame. }
  iApply wp_wand. iSplitL "Hw"; [iExact "Hw"|]. iIntros ([]) "[Hp Hb]".
  steps. iApply (wp_relink cx p); [|iFrame "Hp Hc"; iIntros "Hp Hc"]; [done|].
  steps. iApply ("HΦ" with "[-Hc] Hc"). iFrame.
Qed.

Lemma wp_rotateRight cx (p : loc) cp (a : tree) k (m : loc) cm (b : tree) (x : Z) (d : tree) root (Φ : ptr → heapPropI Node) :
  is_tree (N p cp (N m cm d x b) k a) (ctx_ptr cx) ∗ is_ctx cx (Some p) ∗
  (is_tree (N m cm d x (N p cp b k a)) (ctx_ptr cx) -∗ is_ctx cx (Some m) -∗
   Φ (if cx is [] then Some m else root)) ⊢
  wp (rotateRight root (Some p)) Φ.
Proof.
  simpl. iIntros "((Hp & (Hm & Hd & Hb) & Ha) & Hc & HΦ)". unfold rotateRight. steps.
  iAssert (wp (match ptr_of b with
     | None => mret tt | Some _ => l ← get_left (Some p); set_parent l (Some p) end)
     (λ _, p ↦ mk_Node k (Some cp) (ptr_of b) (ptr_of a) (ctx_ptr cx) ∗ is_tree b (Some p)))%I
     with "[Hp Hb]" as "Hw".
  { destruct b as [|nb cb bl kb br]; simpl; [steps; iFrame|].
    iDestruct "Hb" as "(Hb & Hl & Hr)". steps. iFrame. }
  iApply wp_wand. iSplitL "Hw"; [iExact "Hw"|]. iIntros ([]) "[Hp Hb]".
  steps. iApply (wp_relink cx p); [|iFrame "Hp Hc"; iIntros "Hp Hc"]; [done|].
  steps. iApply ("HΦ" with "[-Hc] Hc"). iFrame.
Qed.
End rotations.

(** ** fixViolation *)
Section fix_violation.
Implicit Types (t u : tree) (f g : frame) (cx : list frame) (k : Z) (c : bool) (n : loc) (root : ptr).

Lemma ptr_of_plug_cons f cx t t' : ptr_of (plug (f :: cx) t) = ptr_of (plug (f :: cx) t').
Proof. simpl. apply ptr_of_plug_rb. by rewrite !ptr_of_fill_rb. Qed.

(** the root is not a node below it *)
Lemma root_ne f cx t p n (v : Node) :
  is_ctx (f :: cx) p -∗ n ↦ v -∗
  ⟨Some n ≠ ptr_of (plug (f :: cx) t)⟩ ∗ is_ctx (f :: cx) p ∗ n ↦ v.
Proof.
  revert f t p. induction cx as [|g cx IH]; intros f t p; iIntros "Hc Hn"; cbn [is_ctx];
    iDestruct "Hc" as "[Hf Hc]".
  - destruct f; simpl; iDestruct "Hf" as "[Hm Ht]"; cells_ne; iFrame; iPureIntro; congruence.
  - iDestruct (IH g (fill f t) with "Hc Hn") as "(% & $ & $)". by iFrame.
Qed.

(** a red node [l k r] below the red [f] and [g]: the node and what is around *)
Definition at_fault f g cx (n : loc) (l : tree) k (r : tree) : heapPropI Node :=
  (is_tree (N n RED l k r) (Some (frame_loc f)) ∗ is_frame f (Some n) (Some (frame_loc g)) ∗
   is_frame g (Some (frame_loc f)) (ctx_ptr cx) ∗ is_ctx cx (Some (frame_loc g)))%I.

Ltac open_fault := unfold at_fault; simpl; iIntros "[((Hn & Hl & Hr) & (Hp & Hs) & (Hg & Hu) & Hc) HΦ]".

Lemma wp_body_recolor f g cx n (l : tree) k (r : tree) root (Φ : ptr * ptr → heapPropI Node) :
  frame_color f = RED → is_red (sibling g) = true →
  at_fault f g cx n l k r ∗
  (is_tree (recolored f g (N n RED l k r)) (ctx_ptr cx) -∗ is_ctx cx (Some (frame_loc g)) -∗
   Φ (root, Some (frame_loc g))) ⊢
  wp (fixViolation_body root (Some n)) Φ.
Proof.
  intros Hf Hu. unfold fixViolation_body, recolor.
  destruct f as [p cp kp s|p cp s kp], g as [m cg kg u|m cg u kg]; simpl in Hf, Hu; subst cp;
    destruct u as [|a cu u1 ku u2]; try done; apply eqb_prop in Hu as ->; open_fault;
    iDestruct "Hu" as "(Hu & Hu1 & Hu2)"; cells_ne; steps; iApply ("HΦ" with "[-Hc] Hc"); iFrame.
Qed.

(** [uncle_pt != NULL && uncle_pt->color == RED] *)
Lemma wp_uncle u par (Φ : bool → heapPropI Node) :
  is_tree u par ∗ (is_tree u par -∗ Φ (is_red u)) ⊢
  wp (mret (Datatypes.negb (ptr_of u =p? None)) &&& color_is (ptr_of u) RED) Φ.
Proof.
  iIntros "[Hu HΦ]". destruct u as [|n c l k r]; simpl.
  - steps. by iApply "HΦ".
  - iDestruct "Hu" as "(Hn & Hl & Hr)". steps. iApply "HΦ". iFrame.
Qed.
(** the two nodes of a rotation change their colors *)
Lemma wp_swap n d c (l r p : ptr) n' d' c' (l' r' p' : ptr) (Φ : unit → heapPropI Node) :
  n ↦ mk_Node d (Some c) l r p ∗ n' ↦ mk_Node d' (Some c') l' r' p' ∗
  (n ↦ mk_Node d (Some c') l r p -∗ n' ↦ mk_Node d' (Some c) l' r' p' -∗ Φ tt) ⊢
  wp (swap_color (Some n) (Some n')) Φ.
Proof. iIntros "(H1 & H2 & HΦ)". unfold swap_color. steps. iApply ("HΦ" with "H1 H2"). Qed.

Lemma wp_body_rotate f g cx n (l : tree) k (r : tree) root (Φ : ptr * ptr → heapPropI Node) :
  frame_color f = RED → is_red (sibling g) = false →
  at_fault f g cx n l k r ∗
  (is_tree (rotate f g (N n RED l k r)) (ctx_ptr cx) -∗
   is_ctx cx (ptr_of (rotate f g (N n RED l k r))) -∗
   Φ (if cx is [] then ptr_of (rotate f g (N n RED l k r)) else root,
      ptr_of (rotate f g (N n RED l k r)))) ⊢
  wp (fixViolation_body root (Some n)) Φ.
Proof.
  intros Hf Hu. unfold fixViolation_body.
  destruct f as [p cp kp s|p cp s kp], g as [m cg kg u|m cg u kg]; simpl in Hf, Hu; subst cp;
    open_fault; cells_ne; iDestruct (is_tree_ne with "Hs Hn") as "(%Hne & Hs & Hn)".
  - steps. iApply wp_uncle. iFrame "Hu". iIntros "Hu". rewrite Hu. steps.
    rewrite ptr_eqb_neq //. steps.
    iApply (wp_rotateRight cx m cg u kg p RED s kp (N n RED l k r)). open_reps. iFrame.
    iIntros "(Hp & (Hn & Hl & Hr) & (Hm & Hs & Hu)) Hc". steps.
    iApply wp_swap; iFrame "Hp Hm". iIntros "Hp Hm". steps. iApply ("HΦ" with "[-Hc] Hc"). iFrame.
  - iDestruct (is_tree_ne with "Hu Hp") as "(%Hne' & Hu & Hp)".
    steps. rewrite ptr_eqb_neq //. steps.
    iApply wp_uncle. iFrame "Hu". iIntros "Hu". rewrite Hu. steps.
    iApply (wp_rotateRight (FR m cg u kg :: cx) p RED s kp n RED r k l). open_reps. iFrame.
    iIntros "(Hn & Hl & (Hp & Hr & Hs)) ((Hm & Hu) & Hc)". steps.
    iApply (wp_rotateLeft cx m cg u kg n RED l k (N p RED r kp s)). open_reps. iFrame.
    iIntros "(Hn & (Hm & Hu & Hl) & (Hp & Hr & Hs)) Hc". steps.
    iApply wp_swap; iFrame "Hn Hm". iIntros "Hn Hm". steps. iApply ("HΦ" with "[-Hc] Hc"). iFrame.
  - steps. iApply wp_uncle. iFrame "Hu". iIntros "Hu". rewrite Hu. steps.
    iApply (wp_rotateLeft (FL m cg kg u :: cx) p RED s kp n RED l k r). open_reps. iFrame.
    iIntros "(Hn & (Hp & Hs & Hl) & Hr) ((Hm & Hu) & Hc)". steps.
    iApply (wp_rotateRight cx m cg u kg n RED r k (N p RED s kp l)). open_reps. iFrame.
    iIntros "(Hn & (Hp & Hs & Hl) & (Hm & Hr & Hu)) Hc". steps.
    iApply wp_swap; iFrame "Hn Hm". iIntros "Hn Hm". steps. iApply ("HΦ" with "[-Hc] Hc"). iFrame.
  - iDestruct (is_tree_ne with "Hu Hp") as "(%Hne' & Hu & Hp)".
    steps. rewrite ptr_eqb_neq //. steps.
    iApply wp_uncle. iFrame "Hu". iIntros "Hu". rewrite Hu. steps.
    rewrite ptr_eqb_neq //. steps.
    iApply (wp_rotateLeft cx m cg u kg p RED s kp (N n RED l k r)). open_reps. iFrame.
    iIntros "(Hp & (Hm & Hu & Hs) & (Hn & Hl & Hr)) Hc". steps.
    iApply wp_swap; iFrame "Hp Hm". iIntros "Hp Hm". steps. iApply ("HΦ" with "[-Hc] Hc"). iFrame.
Qed.
End fix_violation.

(** ** The loop of fixViolation *)
Section loop.
Implicit Types (t u : tree) (f g : frame) (cx : list frame) (k : Z) (c : bool) (n : loc) (root : ptr).

(** the loop stops at a black node *)
Lemma wp_loop_black fuel cx n (l : tree) k (r : tree) root (Φ : ptr → heapPropI Node) :
  root = ptr_of (plug cx (N n BLACK l k r)) →
  is_tree (N n BLACK l k r) (ctx_ptr cx) ∗ is_ctx cx (Some n) ∗
  (is_tree (plug cx (N n BLACK l k r)) None -∗ Φ root) ⊢
  wp (fixViolation_loop (S fuel) root (Some n)) Φ.
Proof.
  intros ->. rewrite is_tree_plug_rb. iIntros "(Ht & Hc & HΦ)". cbn [fixViolation_loop]. unfold violation.
  cbn [is_tree ptr_of]. iDestruct "Ht" as "(Hn & Hl & Hr)". destruct cx as [|f cx].
  - cbn [plug ptr_of]. steps. iApply "HΦ". open_reps. iFrame.
  - iDestruct (root_ne f cx (N n BLACK l k r) with "Hc Hn") as "(%Hne & Hc & Hn)".
    steps. rewrite ptr_eqb_neq //. steps. iApply "HΦ". open_reps. iFrame.
Qed.

(** the condition of the loop at a red node below [f] *)
Lemma wp_violation f cx n (l : tree) k (r : tree) root (Φ : bool → heapPropI Node) :
  root = ptr_of (plug (f :: cx) (N n RED l k r)) →
  is_tree (N n RED l k r) (Some (frame_loc f)) ∗ is_ctx (f :: cx) (Some n) ∗
  (is_tree (N n RED l k r) (Some (frame_loc f)) -∗ is_ctx (f :: cx) (Some n) -∗
   Φ (Datatypes.negb (frame_color f))) ⊢
  wp (violation root (Some n)) Φ.
Proof.
  intros ->. unfold violation. cbn [is_tree ptr_of]. iIntros "((Hn & Hl & Hr) & Hc & HΦ)".
  iDestruct (root_ne f cx (N n RED l k r) with "Hc Hn") as "(%Hne & Hc & Hn)".
  rewrite ptr_eqb_neq //. open_reps. iDestruct "Hc" as "[Hf Hc]".
  destruct f as [m c x u|m c u x]; destruct c; open_reps;
    iDestruct "Hf" as "[Hm Hu]"; steps; iApply ("HΦ" with "[Hn Hl Hr]"); iFrame.
Qed.

Lemma wp_loop fuel cx h n (l : tree) k (r : tree) root (Φ : ptr → heapPropI Node) :
  length cx < fuel → rb_ctx h cx → root = ptr_of (plug cx (N n RED l k r)) →
  is_tree (N n RED l k r) (ctx_ptr cx) ∗ is_ctx cx (Some n) ∗
  (is_tree (fixup cx (N n RED l k r)) None -∗ Φ (ptr_of (fixup cx (N n RED l k r)))) ⊢
  wp (fixViolation_loop fuel root (Some n)) Φ.
Proof.
  revert fuel h n l k r root. induction cx as [|f|f g cx IH] using path_ind;
    intros fuel h n l k r root Hfuel Hc Hroot; (destruct fuel as [|fuel]; [simpl in Hfuel; lia|]);
    iIntros "(Ht & Hc & HΦ)"; cbn [fixViolation_loop].
  - subst root. unfold violation. cbn [is_tree ptr_of plug fixup ctx_ptr head fmap option_fmap option_map].
    iDestruct "Ht" as "(Hn & Hl & Hr)". steps.
    cbn [is_ctx]. iApply "HΦ". by iFrame.
  - steps. iApply (wp_violation f []); [done|]. iFrame "Ht Hc". iIntros "Ht Hc".
    simpl in Hc. destruct (frame_color f); [|naive_solver]. steps. subst root.
    iApply "HΦ". iApply (is_tree_plug_rb [f]). iFrame.
  - steps. iApply (wp_violation f (g :: cx)); [done|]. iFrame "Ht Hc". iIntros "Ht Hc".
    cbn [fixup]. simpl in Hc. destruct (frame_color f) eqn:Hf; cbn [Datatypes.negb].
    { steps. subst root. iApply "HΦ". iApply (is_tree_plug_rb (f :: g :: cx)). iFrame. }
    destruct Hc as (_ & _ & Hg & _ & Hc). rewrite Hg in Hc.
    cbn [is_ctx ctx_ptr head fmap option_fmap option_map]. iDestruct "Hc" as "(Hf & Hg & Hc)".
    steps. destruct (is_red (sibling g)) eqn:Hu.
    + iApply (wp_body_recolor f g cx); [done..|]. iFrame. iIntros "Ht Hc". steps.
      assert (∃ m l' x r', recolored f g (N n RED l k r) = N m RED l' x r' ∧ m = frame_loc g)
        as (m & l' & x & r' & Hr & ->) by (destruct g; simpl; eauto 10).
      rewrite Hr. iApply (IH fuel (S h)); [simpl in Hfuel; lia|done| |by iFrame].
      subst root. simpl. apply ptr_of_plug_rb. by rewrite !ptr_of_fill_rb.
    + iApply (wp_body_rotate f g cx); [done..|]. iFrame. iIntros "Ht Hc". steps.
      assert (∃ m l' x r', rotate f g (N n RED l k r) = N m BLACK l' x r')
        as (m & l' & x & r' & Hr) by (destruct f, g; simpl in Hg |- *; rewrite Hg; eauto).
      rewrite Hr. simpl in Hfuel. destruct fuel as [|fuel]; [lia|].
      assert ((if cx is [] then Some m else root) = ptr_of (plug cx (N m BLACK l' x r'))) as Hroot'.
      { destruct cx as [|f' cx]; [done|]. rewrite Hroot. simpl. apply ptr_of_plug_rb. by rewrite !ptr_of_fill_rb. }
      iApply (wp_loop_black _ cx); [done|]. iFrame. rewrite Hroot'. done.
Qed.
End loop.

(** ** BSTInsert *)
Section bst_insert.
Implicit Types (t u : tree) (k : Z) (c : bool) (n : loc) (root par : ptr) (fuel : nat).

(** [p->parent = q] for the root [p] of a tree *)
Lemma wp_set_parent_rb t par q (Φ : unit → heapPropI Node) :
  t ≠ E → is_tree t par ∗ (is_tree t q -∗ Φ tt) ⊢ wp (set_parent (ptr_of t) q) Φ.
Proof.
  intros Ht. destruct t as [|n c l k r]; [done|]. open_reps. iIntros "((Hn & Hl & Hr) & HΦ)".
  steps. iApply "HΦ". iFrame.
Qed.
Lemma bst_insert_E n c k t : bst_insert (N n c E k E) k t ≠ E.
Proof. destruct t; simpl; repeat case_match; done. Qed.

Lemma wp_BSTInsert fuel t par n c k (Φ : ptr → heapPropI Node) :
  height t < fuel → k ∉ keys t →
  is_tree t par ∗ is_tree (N n c E k E) None ∗
  (is_tree (bst_insert (N n c E k E) k t) (if t is E then None else par) -∗
   Φ (ptr_of (bst_insert (N n c E k E) k t))) ⊢
  wp (BSTInsert fuel (ptr_of t) (Some n)) Φ.
Proof.
  revert fuel par Φ. induction t as [|m cm l IHl x r IHr]; intros fuel par Φ Hfuel Hk;
    (destruct fuel as [|fuel]; [lia|]); cbn [BSTInsert bst_insert ptr_of].
  { cbn [is_tree]. iIntros "(_ & Hn & HΦ)". steps. by iApply "HΦ". }
  simpl in Hfuel, Hk. rewrite not_elem_of_app not_elem_of_cons in Hk. destruct Hk as (Hl & Hx & Hr).
  cbn [is_tree]. iIntros "((Hm & Hlt & Hrt) & (Hn & He & He') & HΦ)". steps.
  destruct (k <? x)%Z eqn:Hlt.
  - steps. iApply (IHl fuel (Some m)); [lia|done|]. iFrame "Hlt". cbn [is_tree]. iFrame "Hn". iSplitL "He He'"; [by iFrame|].
    iIntros "Hlt". steps. iApply wp_set_parent_rb; [apply bst_insert_E|]. iFrame "Hlt".
    iIntros "Hlt". steps. iApply "HΦ". cbn [is_tree ptr_of]. iFrame.
  - steps. destruct (k >? x)%Z eqn:Hgt; [|exfalso; lia].
    steps. iApply (IHr fuel (Some m)); [lia|done|]. iFrame "Hrt". cbn [is_tree]. iFrame "Hn". iSplitL "He He'"; [by iFrame|].
    iIntros "Hrt". steps. iApply wp_set_parent_rb; [apply bst_insert_E|]. iFrame "Hrt".
    iIntros "Hrt". steps. iApply "HΦ". cbn [is_tree ptr_of]. iFrame.
Qed.

(** a key that is present: nothing is linked *)
Lemma wp_BSTInsert_present fuel t par n v k (Φ : ptr → heapPropI Node) :
  height t < fuel → sorted_keys t → k ∈ keys t → n_data v = k →
  is_tree t par ∗ n ↦ v ∗ (is_tree t par -∗ n ↦ v -∗ Φ (ptr_of t)) ⊢
  wp (BSTInsert fuel (ptr_of t) (Some n)) Φ.
Proof.
  intros Hfuel Hs Hk Hv. revert fuel par Φ Hfuel Hs Hk.
  induction t as [|m cm l IHl x r IHr]; intros fuel par Φ Hfuel Hs Hk;
    (destruct fuel as [|fuel]; [simpl in Hfuel; lia|]); cbn [BSTInsert ptr_of];
    [by apply elem_of_nil in Hk|].
  simpl in Hfuel. apply sorted_keys_N in Hs as (Hsl & Hsr & Hl & Hr & _).
  simpl in Hk. rewrite elem_of_app elem_of_cons in Hk.
  cbn [is_tree]. iIntros "((Hm & Hlt & Hrt) & Hn & HΦ)". steps. rewrite Hv.
  destruct (k <? x)%Z eqn:Hlt.
  - assert (l ≠ E) as HlE.
    { intros ->. rewrite elem_of_nil in Hk. destruct Hk as [[]|[->|Hk]]; [lia|].
      eapply Forall_forall in Hr; [|done]. lia. }
    steps. iApply (IHl fuel (Some m)); [lia|done| |].
    { destruct Hk as [?|[->|Hk]]; [done|lia|]. eapply Forall_forall in Hr; [|done]. lia. }
    iFrame "Hlt Hn". iIntros "Hlt Hn". steps. iApply wp_set_parent_rb; [done|]. iFrame "Hlt".
    iIntros "Hlt". steps. iApply ("HΦ" with "[-Hn] Hn"). iFrame.
  - steps. rewrite Hv. destruct (k >? x)%Z eqn:Hgt.
    + assert (k ∈ keys r) as Hkr.
      { destruct Hk as [Hk|[->|Hk]]; [|lia|done]. eapply Forall_forall in Hl; [|done]. simpl in Hl; lia. }
      assert (r ≠ E) as HrE by (intros ->; by apply elem_of_nil in Hkr).
      steps. iApply (IHr fuel (Some m)); [lia|done|done|].
      iFrame "Hrt Hn". iIntros "Hrt Hn". steps. iApply wp_set_parent_rb; [done|]. iFrame "Hrt".
      iIntros "Hrt". steps. iApply ("HΦ" with "[-Hn] Hn"). iFrame.
    + steps. iApply ("HΦ" with "[-Hn] Hn"). iFrame.
Qed.

(** ** insert *)

Lemma wp_insert_rb fuel t h k (Φ : ptr → heapPropI Node) :
  height t < fuel → wf h t → k ∉ keys t →
  is_tree t None ∗
  (∀ n, is_tree (rb_insert n k t) None -∗ Φ (ptr_of (rb_insert n k t))) ⊢
  wp (insert (Some RED) fuel (ptr_of t) k) Φ.
Proof.
  intros Hfuel [Hrb Hroot Hs] Hk. iIntros "[Ht HΦ]". unfold insert, new_Node, fixViolation.
  wp_bind. iApply wp_new. iIntros (n) "Hn". steps.
  iApply (wp_BSTInsert fuel t None n RED); [done..|]. iFrame "Ht".
  cbn [is_tree ptr_of]. iFrame "Hn".
  iSplitR; [by iFrame|].
  replace (if t is E then None else None) with (@None loc) by (by destruct t). iIntros "Ht".
  pose proof (path_plug (N n RED E k E) k t [] Hk) as Hplug. cbn [plug] in Hplug.
  rewrite -{1}Hplug is_tree_plug_rb. iDestruct "Ht" as "[Hn Hc]". steps.
  iApply (wp_loop fuel (path k t []) 0 n E k E).
  - pose proof (length_path k t []) as Hlen. simpl in Hlen. lia.
  - eapply rb_path; [done..|]. by rewrite Hroot.
  - congruence.
  - iFrame "Hn Hc". iIntros "Ht". steps. unfold rb_insert in *.
    destruct (fixup (path k t []) (N n RED E k E)) as [|m c l x r] eqn:Hfix.
    { exfalso. apply (f_equal keys) in Hfix.
      rewrite keys_fixup path_plug // /= in Hfix.
      pose proof (bst_insert_E n RED k t). destruct (bst_insert _ k t); simpl in Hfix; [done|].
      by apply app_nil in Hfix as [_ ?]. }
    iSpecialize ("HΦ" $! n). rewrite Hfix. cbn [is_tree ptr_of paint].
    iDestruct "Ht" as "(Hm & Hl & Hr)". steps. iApply "HΦ". iFrame.
Qed.
End bst_insert.

(** ** insert, when a new node does not start red *)
Section insert_other.
Implicit Types (t : tree) (k : Z) (n : loc) (fuel : nat).

(** the empty tree: the color that the new node starts with is never read *)
Lemma wp_insert_empty u fuel k (Φ : ptr → heapPropI Node) :
  0 < fuel →
  (∀ n, is_tree (N n BLACK E k E) None -∗ Φ (Some n)) ⊢ wp (insert u fuel None k) Φ.
Proof.
  intros Hfuel. destruct fuel as [|fuel]; [lia|]. iIntros "HΦ".
  unfold insert, new_Node, fixViolation. cbn [BSTInsert fixViolation_loop]. unfold violation.
  wp_bind. iApply wp_new. iIntros (n) "Hn". steps.
  iApply "HΦ". cbn [is_tree ptr_of]. iFrame "Hn". by iSplit.
Qed.

(** a node that starts black is linked and nothing is repaired *)
Lemma wp_insert_black fuel t k (Φ : ptr → heapPropI Node) :
  height t < fuel → k ∉ keys t →
  is_tree t None ∗
  (∀ n, is_tree (paint BLACK (bst_insert (N n BLACK E k E) k t)) None -∗
        Φ (ptr_of (bst_insert (N n BLACK E k E) k t))) ⊢
  wp (insert (Some BLACK) fuel (ptr_of t) k) Φ.
Proof.
  intros Hfuel Hk. iIntros "[Ht HΦ]". unfold insert, new_Node, fixViolation.
  wp_bind. iApply wp_new. iIntros (n) "Hn". steps.
  iApply (wp_BSTInsert fuel t None n BLACK); [done..|]. iFrame "Ht".
  cbn [is_tree ptr_of]. iFrame "Hn". iSplitR; [by iFrame|].
  replace (if t is E then None else None) with (@None loc) by (by destruct t). iIntros "Ht".
  pose proof (path_plug (N n BLACK E k E) k t [] Hk) as Hplug. cbn [plug] in Hplug.
  rewrite -{1}Hplug is_tree_plug_rb. iDestruct "Ht" as "[Hn Hc]". steps.
  destruct fuel as [|fuel]; [lia|].
  iApply (wp_loop_black fuel (path k t []) n E k E); [congruence|].
  iFrame "Hn Hc". rewrite Hplug. iIntros "Ht". steps.
  iSpecialize ("HΦ" $! n). pose proof (bst_insert_E n BLACK k t).
  destruct (bst_insert (N n BLACK E k E) k t) as [|m c l x r]; [done|].
  cbn [is_tree ptr_of paint]. iDestruct "Ht" as "(Hm & Hl & Hr)". steps. iApply "HΦ". iFrame.
Qed.

(** a black node whose key is present stays outside the tree *)
Lemma wp_insert_black_present fuel t k (Φ : ptr → heapPropI Node) :
  height t < fuel → sorted_keys t → is_red t = false → k ∈ keys t →
  is_tree t None ∗ (is_tree t None ∗ True -∗ Φ (ptr_of t)) ⊢
  wp (insert (Some BLACK) fuel (ptr_of t) k) Φ.
Proof.
  intros Hfuel Hs Hc Hk. iIntros "[Ht HΦ]". unfold insert, new_Node, fixViolation.
  wp_bind. iApply wp_new. iIntros (n) "Hn". steps.
  iDestruct (is_tree_ne with "Ht Hn") as "(%Hne & Ht & Hn)".
  iApply (wp_BSTInsert_present fuel t None n (mk_Node k (Some BLACK) None None None) k); [done..|]. iFrame. iIntros "Ht Hn". steps.
  destruct fuel as [|fuel]; [lia|]. cbn [fixViolation_loop]. unfold violation.
  rewrite ptr_eqb_neq; [|congruence]. steps.
  destruct t as [|m c l x r]; [by apply elem_of_nil in Hk|]. cbn [is_red] in Hc.
  assert (c = BLACK) as -> by (by destruct c).
  cbn [is_tree ptr_of]. iDestruct "Ht" as "(Hm & Hl & Hr)". steps. iApply "HΦ". iFrame.
Qed.

(** the black heights no longer agree *)
Lemma rb_black_E n k h : rb h (N n BLACK E k E) → h = 1.
Proof. destruct h as [|h]; simpl; [done|]. by intros [-> _]. Qed.
Lemma rb_height_unique t h h' : rb h t → rb h' t → h = h'.
Proof.
  revert h h'. induction t as [|m c l IHl x r IHr]; intros h h'; simpl; [congruence|].
  destruct c; [destruct h, h'; try done; intros [H _] [H' _]; f_equal; by eapply IHl|].
  intros (_ & _ & H & _) (_ & _ & H' & _). by eapply IHl.
Qed.
Lemma rb_bst_insert_black n k t h h' :
  t ≠ E → k ∉ keys t → rb h t → ¬ rb h' (bst_insert (N n BLACK E k E) k t).
Proof.
  revert h h'. induction t as [|m c l IHl x r IHr]; intros h h' Ht Hk Hrb; [done|].
  simpl in Hk. rewrite not_elem_of_app not_elem_of_cons in Hk. destruct Hk as (Hkl & Hkx & Hkr).
  assert (∃ hl, rb hl l ∧ rb hl r) as (hl & Hl & Hr).
  { destruct c; simpl in Hrb; [destruct h as [|h]; [done|]; eauto|]. exists h. tauto. }
  cbn [bst_insert]. destruct (k <? x)%Z eqn:Hlt; [|destruct (k >? x)%Z eqn:Hgt; [|lia]].
  - intros Hrb'. assert (∃ h2, rb h2 (bst_insert (N n BLACK E k E) k l) ∧ rb h2 r) as (h2 & H2l & H2r).
    { destruct c; simpl in Hrb'; [destruct h' as [|h']; [done|]; eauto|]. exists h'. tauto. }
    assert (l = E ∨ l ≠ E) as [->|Hne] by (destruct l; auto); [|by eapply (IHl hl h2)].
    simpl in Hl. subst hl. apply rb_black_E in H2l as ->.
    by pose proof (rb_height_unique _ _ _ Hr H2r).
  - intros Hrb'. assert (∃ h2, rb h2 l ∧ rb h2 (bst_insert (N n BLACK E k E) k r)) as (h2 & H2l & H2r).
    { destruct c; simpl in Hrb'; [destruct h' as [|h']; [done|]; eauto|]. exists h'. tauto. }
    assert (r = E ∨ r ≠ E) as [->|Hne] by (destruct r; auto); [|by eapply (IHr hl h2)].
    simpl in Hr. subst hl. apply rb_black_E in H2r as ->.
    by pose proof (rb_height_unique _ _ _ Hl H2l).
Qed.
End insert_other.
