(* ===== verification/RedBlackClass.v ===== *)
(** The class [RBTree] of RedBlackTree.cpp seen from outside.

    [is_RBTree root ks h] says that the heap [h] is exactly a red-black tree
    below [root] whose keys, in order, are [ks].  The theorems give the effect
    of [insert] on a new key and on a present one, for every value of the member
    [color] that the constructor leaves unset, of the two traversals, and of
    [main]. *)

From iris.proofmode Require Import proofmode environments coq_tactics reduction.
From stdpp Require Import sorting.
From S2P Require Import Prelude Heap HeapTactics RedBlackTree RedBlackSpec RedBlackProps.

(** ** Traversals *)
Section traversals.
Implicit Types (t u : tree) (k : Z) (ts q : list tree) (par : ptr) (fuel : nat).

Lemma wp_inorder fuel t par (Φ : list Z → heapPropI Node) :
  height t < fuel →
  is_tree t par ∗ (is_tree t par -∗ Φ (keys t)) ⊢ wp (inorderHelper fuel (ptr_of t)) Φ.
Proof.
  revert fuel par Φ. induction t as [|m cm l IHl x r IHr]; intros fuel par Φ Hfuel;
    (destruct fuel as [|fuel]; [lia|]); cbn [inorderHelper ptr_of].
  { iIntros "[Ht HΦ]". steps. by iApply "HΦ". }
  simpl in Hfuel. cbn [is_tree]. iIntros "((Hm & Hl & Hr) & HΦ)". steps.
  iApply (IHl fuel (Some m)); [lia|]. iFrame "Hl". iIntros "Hl". steps.
  iApply (IHr fuel (Some m)); [lia|]. iFrame "Hr". iIntros "Hr". steps.
  iApply "HΦ". iFrame.
Qed.

(** *** Level order *)

Definition node_of t : list tree := match t with E => [] | N _ _ _ _ _ => [t] end.
Definition children ts : list tree :=
  ts ≫= λ t, match t with E => [] | N _ _ l _ r => node_of l ++ node_of r end.

(** the queue [ts] is worked off with the output [out] *)
Inductive dequeues : list tree → list Z → Prop :=
  | dequeues_nil : dequeues [] []
  | dequeues_cons n c l k r ts out :
      dequeues (ts ++ node_of l ++ node_of r) out → dequeues (N n c l k r :: ts) (k :: out).

Lemma dequeues_level ts q out :
  Forall (.≠ E) ts → dequeues (q ++ children ts) out →
  dequeues (ts ++ q) ((ts ≫= level 0) ++ out).
Proof.
  intros Hts. revert q. induction Hts as [|t ts Ht Hts IH]; intros q Hq.
  { by rewrite /= app_nil_r in Hq. }
  destruct t as [|n c l k r]; [done|]. simpl. constructor. rewrite -assoc_L. apply IH.
  change (children (N n c l k r :: ts)) with ((node_of l ++ node_of r) ++ children ts) in Hq.
  by rewrite -!assoc_L in Hq *.
Qed.
Lemma level_children d ts : children ts ≫= level d = ts ≫= level (S d).
Proof.
  induction ts as [|t ts IH]; [done|]. unfold children in *. rewrite !bind_cons bind_app IH. f_equal.
  destruct t as [|n c l k r]; [done|]. rewrite bind_app. simpl.
  by destruct l, r; simpl; rewrite ?app_nil_r.
Qed.
Lemma children_ne ts : Forall (.≠ E) (children ts).
Proof.
  apply Forall_bind, Forall_forall. intros t _. destruct t as [|n c l k r]; [constructor|].
  destruct l, r; simpl; by repeat constructor.
Qed.
Lemma children_height d ts :
  Forall (λ t, height t ≤ S d) ts → Forall (λ t, height t ≤ d) (children ts).
Proof.
  intros Hts. apply Forall_bind. eapply Forall_impl; [exact Hts|]. intros t Ht.
  destruct t as [|n c l k r]; [constructor|]. simpl in Ht.
  apply Forall_app; destruct l, r; split; repeat constructor; simpl in *; lia.
Qed.
(** the queue discipline visits level after level *)
Lemma dequeues_levels D ts :
  Forall (.≠ E) ts → Forall (λ t, height t ≤ D) ts →
  dequeues ts (concat ((λ d, ts ≫= level d) <$> seq 0 D)).
Proof.
  revert ts. induction D as [|D IH]; intros ts Hne Hh.
  - destruct ts as [|t ts]; [constructor|]. exfalso. apply Forall_cons in Hne as [Hne _].
    apply Forall_cons in Hh as [Hh _]. destruct t; simpl in Hh; [done|lia].
  - rewrite -cons_seq fmap_cons /= -fmap_S_seq -list_fmap_compose -{1}(app_nil_r ts).
    apply dequeues_level; [done|]. rewrite app_nil_l.
    rewrite (list_fmap_ext _ (λ d, children ts ≫= level d)).
    + apply IH; [apply children_ne|by apply children_height].
    + intros i d _. by rewrite level_children.
Qed.
Lemma dequeues_level_order t : t ≠ E → dequeues [t] (level_order t).
Proof.
  intros Ht. unfold level_order. rewrite (list_fmap_ext _ (λ d, [t] ≫= level d)).
  - apply dequeues_levels; repeat constructor; done.
  - intros i d _. by rewrite /= app_nil_r.
Qed.

Definition node_at t n : list (tree * ptr) := match t with E => [] | N _ _ _ _ _ => [(t, Some n)] end.
Definition is_queue (q : list (tree * ptr)) : heapPropI Node := ([∗ list] tp ∈ q, is_tree tp.1 tp.2)%I.
Lemma is_queue_node t n : is_queue (node_at t n) ⊣⊢ is_tree t (Some n).
Proof. unfold is_queue. destruct t; simpl; [done|]. by rewrite right_id. Qed.

Lemma wp_levelOrder_loop fuel (q : list (tree * ptr)) ts out (Φ : list Z → heapPropI Node) :
  dequeues ts out → length out < fuel → q.*1 = ts →
  is_queue q ∗ (is_queue q -∗ Φ out) ⊢ wp (levelOrder_loop fuel (ptr_of <$> ts)) Φ.
Proof.
  intros Hd. revert fuel q Φ.
  induction Hd as [|n c l k r ts out Hd IH]; intros fuel q Φ Hfuel Hq;
    (destruct fuel as [|fuel]; [simpl in Hfuel; lia|]); cbn [levelOrder_loop fmap list_fmap ptr_of].
  { destruct q; [|done]. iIntros "[Hq HΦ]". steps. by iApply "HΦ". }
  destruct q as [|[t par] q]; [done|]. simpl in Hq. injection Hq as -> Hq. unfold is_queue.
  cbn [big_opL fst snd is_tree]. iIntros "[((Hn & Hl & Hr) & Hq) HΦ]". steps.
  iDestruct (is_queue_node with "Hl") as "Hl". iDestruct (is_queue_node with "Hr") as "Hr".
  assert ((ptr_of <$> (ts ++ node_of l ++ node_of r)) =
    match ptr_of r with
    | None => match ptr_of l with None => ptr_of <$> ts | Some _ => (ptr_of <$> ts) ++ [ptr_of l] end
    | Some _ => match ptr_of l with None => ptr_of <$> ts | Some _ => (ptr_of <$> ts) ++ [ptr_of l] end
                ++ [ptr_of r]
    end) as <-.
  { rewrite !fmap_app. destruct l, r; simpl; by rewrite ?app_nil_r -?assoc_L. }
  iApply (IH fuel (q ++ node_at l n ++ node_at r n)); [simpl in Hfuel; lia| |].
  { rewrite !fmap_app. f_equal; [exact Hq|]. by destruct l, r. }
  unfold is_queue. rewrite !big_sepL_app. iFrame "Hq Hl Hr". iIntros "(Hq & Hl & Hr)". steps.
  iApply "HΦ". iFrame. iSplitL "Hl"; by iApply is_queue_node.
Qed.

Lemma length_dequeues ts out : dequeues ts out → length out = length (ts ≫= keys).
Proof.
  induction 1 as [|n c l k r ts out Hd IH]; [done|]. rewrite bind_cons length_app /= IH.
  rewrite !bind_app !length_app /=. destruct l, r; simpl; rewrite ?length_app /= ?length_app /=; lia.
Qed.

Lemma wp_levelOrder fuel t par (Φ : list Z → heapPropI Node) :
  length (keys t) < fuel →
  is_tree t par ∗ (is_tree t par -∗ Φ (level_order t)) ⊢ wp (levelOrderHelper fuel (ptr_of t)) Φ.
Proof.
  iIntros (Hfuel) "[Ht HΦ]". unfold levelOrderHelper. assert (t = E ∨ t ≠ E) as [->|Ht] by (destruct t; auto).
  { cbn [ptr_of]. steps. by iApply "HΦ". }
  destruct (ptr_of t) as [m|] eqn:Hm; [|by destruct t]. rewrite -Hm.
  pose proof (dequeues_level_order t Ht) as Hd.
  iApply (wp_levelOrder_loop fuel [(t, par)] [t]); [done| |done|].
  { rewrite (length_dequeues _ _ Hd) /= app_nil_r. lia. }
  unfold is_queue; simpl. iFrame "Ht". iIntros "[Ht _]". by iApply "HΦ".
Qed.
End traversals.

(** ** The contract of the class *)

Definition is_RBTree (root : ptr) (ks : list Z) (h : gmap loc Node) : Prop :=
  ∃ bh t, wf bh t ∧ root = ptr_of t ∧ keys t = ks ∧ is_tree t None h.

Section contract.
Implicit Types (root : ptr) (ks : list Z) (k : Z) (h : gmap loc Node) (fuel n : nat).

Lemma is_RBTree_empty : is_RBTree None [] ∅.
Proof. exists 0, E. by repeat constructor. Qed.

Lemma insert_runs_rb root ks h k fuel :
  is_RBTree root ks h → k ∉ ks → 2 * Nat.log2 (S (length ks)) < fuel →
  ∃ root' h', insert (Some RED) fuel root k h = Ok (root', h') ∧ is_RBTree root' (insert_key k ks) h'.
Proof.
  intros (bh & t & Hwf & -> & <- & Ht) Hk Hfuel. pose proof (wf_height _ _ Hwf) as Hh.
  edestruct (wp_runs (insert (Some RED) fuel (ptr_of t) k) (is_tree t None)
    (λ root', ∃ t', ⟨(∃ bh', wf bh' t') ∧ keys t' = insert_key k (keys t) ∧ root' = ptr_of t'⟩ ∗
                    is_tree t' None)%I h) as (root' & h' & Hr & Ho); [|done|].
  - iIntros "Ht". iApply (wp_insert_rb _ _ bh); [lia|done|done|]. iFrame "Ht". iIntros (n) "Ht".
    iExists (rb_insert n k t). iFrame "Ht". iPureIntro.
    by destruct (wf_rb_insert n k bh t Hwf Hk).
  - apply holds_exist in Ho as [t' Ho]. apply holds_pure_sep in Ho as [((bh' & Hwf') & Hk' & ->) Ht'].
    exists (ptr_of t'), h'. split; [done|]. by exists bh', t'.
Qed.

Lemma inorder_runs root ks h fuel :
  is_RBTree root ks h → 2 * Nat.log2 (S (length ks)) < fuel → inorder fuel root h = Ok (ks, h).
Proof.
  intros (bh & t & Hwf & -> & <- & Ht) Hfuel. pose proof (wf_height _ _ Hwf) as Hh.
  edestruct (wp_runs (inorder fuel (ptr_of t)) (is_tree t None)
    (λ out, ⟨out = keys t⟩ ∗ is_tree t None)%I h) as (out & h' & Hr & Ho); [|done|].
  - iIntros "Ht". iApply wp_inorder; [lia|]. iFrame "Ht". iIntros "$". done.
  - apply holds_pure_sep in Ho as [-> _]. rewrite Hr.
    assert (∀ fuel p, ReadOnly (inorderHelper fuel p)) as Hro.
    { clear. induction fuel; intros p; simpl; unfold get_left, get_right, get_data; apply _. }
    by apply Hro in Hr as ->.
Qed.

Lemma levelOrder_runs t h fuel :
  is_tree t None h → length (keys t) < fuel →
  levelOrder fuel (ptr_of t) h = Ok (level_order t, h).
Proof.
  intros Ht Hfuel.
  edestruct (wp_runs (levelOrder fuel (ptr_of t)) (is_tree t None)
    (λ out, ⟨out = level_order t⟩ ∗ is_tree t None)%I h) as (out & h' & Hr & Ho); [|done|].
  - iIntros "Ht". iApply wp_levelOrder; [lia|]. iFrame "Ht". iIntros "$". done.
  - apply holds_pure_sep in Ho as [-> _]. rewrite Hr.
    assert (∀ fuel q, ReadOnly (levelOrder_loop fuel q)) as Hro.
    { clear. induction fuel; intros q; simpl; unfold get_left, get_right, get_data; apply _. }
    unfold levelOrder, levelOrderHelper in Hr. destruct (ptr_of t) as [m|].
    + by apply Hro in Hr as ->.
    + by injection Hr as _ ->.
Qed.

(** ** Programs that do not look at colors *)

Definition uncolored (v : Node) : Node := mk_Node (n_data v) None (n_left v) (n_right v) (n_parent v).

(** on heaps that differ in colors the program does the same, and it keeps the
    colors *)
Class ColorBlind {A} (m : prog Node A) : Prop :=
  color_blind h1 h2 a h1' :
    uncolored <$> h1 = uncolored <$> h2 → m h1 = Ok (a, h1') →
    ∃ h2', m h2 = Ok (a, h2') ∧ uncolored <$> h1' = uncolored <$> h2' ∧
           n_color <$> h2' = n_color <$> h2.
#[export] Hint Mode ColorBlind - ! : typeclass_instances.

#[export] Instance cb_ret {A} (a : A) : ColorBlind (mret a).
Proof. intros h1 h2 b h1' He [= -> ->]. by exists h2. Qed.
#[export] Instance cb_fuel {A} : ColorBlind (A := A) out_of_fuel.
Proof. by intros h1 h2 a h1' He. Qed.
#[export] Instance cb_bind {A B} (m : prog Node A) (f : A → prog Node B) :
  ColorBlind m → (∀ a, ColorBlind (f a)) → ColorBlind (m ≫= f).
Proof.
  intros Hm Hf h1 h2 b h1'' He Hr. unfold mbind, prog_bind in Hr.
  destruct (m h1) as [[a h1']| |] eqn:Hr1; [|done..].
  destruct (Hm h1 h2 a h1' He Hr1) as (h2' & Hr2 & He' & Hc).
  destruct (Hf a h1' h2' b h1'' He' Hr) as (h2'' & Hr2' & He'' & Hc').
  exists h2''. rewrite (run_bind _ _ _ _ _ Hr2). split_and!; [done..|congruence].
Qed.

Lemma uncolored_lookup h1 h2 n v :
  uncolored <$> h1 = uncolored <$> h2 → h1 !! n = Some v →
  ∃ v', h2 !! n = Some v' ∧ uncolored v = uncolored v'.
Proof.
  intros He Hv. assert ((uncolored <$> h1) !! n = (uncolored <$> h2) !! n) as Hn by by rewrite He.
  rewrite !lookup_fmap Hv /= in Hn. destruct (h2 !! n) as [v'|]; [|done]. apply (inj Some) in Hn. eauto.
Qed.
Lemma cb_read {A} p (f : Node → A) :
  (∀ v, f v = f (uncolored v)) → ColorBlind (v ← load p; mret (f v)).
Proof.
  intros Hf h1 h2 a h1' He Hr. destruct p as [n|]; [|done].
  unfold mbind, prog_bind, load in Hr. destruct (h1 !! n) as [v|] eqn:Hv; [|done].
  injection Hr as <- <-. destruct (uncolored_lookup _ _ _ _ He Hv) as (v' & Hv' & Huv).
  exists h2. unfold mbind, prog_bind, load. rewrite Hv'. split_and!; [|done..].
  by rewrite (Hf v) Huv -Hf.
Qed.
Lemma cb_write p (f : Node → Node) :
  (∀ v, uncolored (f v) = uncolored (f (uncolored v))) → (∀ v, n_color (f v) = n_color v) →
  ColorBlind (modify p f).
Proof.
  intros Hf Hc h1 h2 a h1' He Hr. destruct p as [n|]; [|done].
  unfold modify, mbind, prog_bind, load, store in Hr.
  destruct (h1 !! n) as [v|] eqn:Hv; [|done]. rewrite Hv in Hr. injection Hr as <- <-.
  destruct (uncolored_lookup _ _ _ _ He Hv) as (v' & Hv' & Huv).
  exists (<[n:=f v']> h2). unfold modify, mbind, prog_bind, load, store. rewrite !Hv'.
  split_and!; [done| |].
  - by rewrite !fmap_insert He (Hf v) Huv -Hf.
  - rewrite fmap_insert Hc insert_id // lookup_fmap Hv' //.
Qed.
#[export] Instance cb_get_data p : ColorBlind (get_data p).
Proof. by apply cb_read. Qed.
#[export] Instance cb_get_left p : ColorBlind (get_left p).
Proof. by apply cb_read. Qed.
#[export] Instance cb_get_right p : ColorBlind (get_right p).
Proof. by apply cb_read. Qed.
#[export] Instance cb_set_left p q : ColorBlind (set_left p q).
Proof. by apply cb_write. Qed.
#[export] Instance cb_set_right p q : ColorBlind (set_right p q).
Proof. by apply cb_write. Qed.
#[export] Instance cb_set_parent p q : ColorBlind (set_parent p q).
Proof. by apply cb_write. Qed.
#[export] Instance cb_BSTInsert fuel p q : ColorBlind (BSTInsert fuel p q).
Proof.
  revert p. induction fuel as [|fuel IH]; intros p; simpl; [apply _|].
  destruct p as [p|]; [|apply _]. repeat (apply cb_bind; [apply _|intros ?]).
  case_match; repeat (apply cb_bind; [apply _|intros ?]); [apply _|].
  case_match; repeat (apply cb_bind; [apply _|intros ?]); apply _.
Qed.
End contract.

(** ** Faults *)
Section faults.
Implicit Types (root : ptr) (ks : list Z) (k : Z) (h : gmap loc Node) (fuel l : nat) (v : Node).

(** the loop of [fixViolation] at a node [l] that is not the root *)
Lemma violation_uninitialised root l v h :
  h !! l = Some v → root ≠ Some l → n_color v = None →
  violation root (Some l) h = Fault Uninitialised.
Proof.
  intros Hl Hr Hc. unfold violation, andM, notM, color_is, get_color, mbind, prog_bind, mret, prog_ret, load.
  rewrite ptr_eqb_neq; [|congruence]. by rewrite /= Hl Hc.
Qed.
Lemma violation_no_parent root l v h :
  h !! l = Some v → root ≠ Some l → n_color v = Some RED → n_parent v = None →
  violation root (Some l) h = Fault NullDeref.
Proof.
  intros Hl Hr Hc Hp.
  unfold violation, andM, notM, color_is, get_color, get_parent, mbind, prog_bind, mret, prog_ret, load.
  rewrite ptr_eqb_neq; [|congruence]. by rewrite /= Hl Hc /= Hl /= Hp.
Qed.
Lemma fix_fault f fuel root p h :
  violation root p h = Fault f → fixViolation (S fuel) root p h = Fault f.
Proof.
  intros Hf. unfold fixViolation, mbind, prog_bind. simpl. unfold mbind, prog_bind. by rewrite Hf.
Qed.

(** a key that is present: the new node stays outside the tree *)
Lemma BSTInsert_present fuel t h l v :
  height t < fuel → sorted_keys t → n_data v ∈ keys t → is_tree t None h → h !! l = None →
  ∃ h', BSTInsert fuel (ptr_of t) (Some l) (<[l:=v]> h) = Ok (ptr_of t, h') ∧
        h' !! l = Some v ∧ ptr_of t ≠ Some l.
Proof.
  intros Hfuel Hs Hk Ht Hl.
  destruct (wp_runs (BSTInsert fuel (ptr_of t) (Some l)) (is_tree t None ∗ l ↦ v)%I
    (λ r, ⟨r = ptr_of t ∧ ptr_of t ≠ Some l⟩ ∗ l ↦ v ∗ is_tree t None)%I (<[l:=v]> h))
    as (r & h' & Hr & Ho); [|by apply holds_fresh|].
  - iIntros "[Ht Hl]". iDestruct (is_tree_ne with "Ht Hl") as "(%Hne & Ht & Hl)".
    iApply wp_BSTInsert_present; [done..|]. iFrame. iIntros "$ $". by iPureIntro.
  - apply holds_pure_sep in Ho as [[-> Hne] Ho]. exists h'. split_and!; [done| |done].
    by eapply holds_cell.
Qed.
(** a new key: the root stays the same, whatever the colors are *)
Lemma BSTInsert_new fuel t h l k :
  t ≠ E → height t < fuel → k ∉ keys t → is_tree t None h → h !! l = None →
  ∃ h', BSTInsert fuel (ptr_of t) (Some l) (<[l:=mk_Node k (Some RED) None None None]> h)
          = Ok (ptr_of t, h') ∧ ptr_of t ≠ Some l.
Proof.
  intros Hne Hfuel Hk Ht Hl.
  edestruct (wp_runs (BSTInsert fuel (ptr_of t) (Some l))
    (is_tree t None ∗ l ↦ mk_Node k (Some RED) None None None)%I
    (λ r, ⟨r = ptr_of t ∧ ptr_of t ≠ Some l⟩ ∗ True)%I) as (r & h' & Hr & Ho);
    [|by apply holds_fresh|].
  - iIntros "[Ht Hl]". iDestruct (is_tree_ne with "Ht Hl") as "(% & Ht & Hl)".
    iApply (wp_BSTInsert fuel t None l RED k); [done..|]. iFrame "Ht".
    cbn [is_tree ptr_of]. iFrame "Hl". iSplitR; [by iFrame|]. iIntros "Ht". iSplit; [|done].
    iPureIntro. split; [|done]. destruct t as [|n c a x b]; [done|]. simpl. by repeat case_match.
  - apply holds_pure_sep in Ho as [[-> Hrl] _]. by exists h'.
Qed.
Lemma BSTInsert_new_uninit fuel t h l k :
  t ≠ E → height t < fuel → k ∉ keys t → is_tree t None h → h !! l = None →
  ∃ h' v, BSTInsert fuel (ptr_of t) (Some l) (<[l:=mk_Node k None None None None]> h)
          = Ok (ptr_of t, h') ∧ ptr_of t ≠ Some l ∧ h' !! l = Some v ∧ n_color v = None.
Proof.
  intros Hne Hfuel Hk Ht Hl. destruct (BSTInsert_new fuel t h l k) as (h1 & Hr & Hrl); [done..|].
  assert (uncolored <$> <[l:=mk_Node k (Some RED) None None None]> h =
          uncolored <$> <[l:=mk_Node k None None None None]> h) as He by by rewrite !fmap_insert.
  destruct (color_blind _ _ _ _ He Hr) as (h' & Hr' & _ & Hc).
  assert ((n_color <$> h') !! l = Some None) as Hcl.
  { rewrite Hc lookup_fmap lookup_insert_eq //. }
  rewrite lookup_fmap in Hcl. destruct (h' !! l) as [v|] eqn:Hv; [|done].
  injection Hcl as Hcl. by exists h', v.
Qed.

(** the empty tree *)
Lemma insert_empty_runs u root h k fuel :
  is_RBTree root [] h → 0 < fuel →
  ∃ root' h', insert u fuel root k h = Ok (root', h') ∧ is_RBTree root' [k] h'.
Proof.
  intros (bh & t & _ & -> & Hk & Ht) Hfuel.
  assert (t = E) as -> by (destruct t; [done|]; by apply app_nil in Hk as [_ ?]).
  edestruct (wp_runs (insert u fuel None k) (is_tree E None)
    (λ root', ∃ n, ⟨root' = Some n⟩ ∗ is_tree (N n BLACK E k E) None)%I h) as (root' & h' & Hr & Ho); [|done|].
  - cbn [is_tree]. iIntros "_". iApply wp_insert_empty; [done|]. iIntros (n) "Ht". iExists n. by iFrame.
  - apply holds_exist in Ho as [n Ho]. apply holds_pure_sep in Ho as [-> Ht'].
    exists (Some n), h'. split; [done|]. exists 1, (N n BLACK E k E). by repeat constructor.
Qed.

(** a node that starts black *)
Lemma insert_black_runs root ks h k fuel :
  is_RBTree root ks h → ks ≠ [] → k ∉ ks → 2 * Nat.log2 (S (length ks)) < fuel →
  ∃ h' t', insert (Some BLACK) fuel root k h = Ok (root, h') ∧ root = ptr_of t' ∧
    is_tree t' None h' ∧ keys t' = insert_key k ks ∧ ¬ ∃ bh, rb bh t'.
Proof.
  intros (bh & t & Hwf & -> & <- & Ht) Hne Hk Hfuel. pose proof (wf_height _ _ Hwf) as Hh.
  edestruct (wp_runs (insert (Some BLACK) fuel (ptr_of t) k) (is_tree t None)
    (λ root', ∃ n, ⟨root' = ptr_of (bst_insert (N n BLACK E k E) k t)⟩ ∗
                   is_tree (paint BLACK (bst_insert (N n BLACK E k E) k t)) None)%I h)
    as (root' & h' & Hr & Ho); [|done|].
  - iIntros "Ht". iApply wp_insert_black; [lia|done|]. iFrame "Ht". iIntros (n) "Ht". iExists n. by iFrame.
  - apply holds_exist in Ho as [n Ho]. apply holds_pure_sep in Ho as [-> Ht'].
    assert (t ≠ E) as HtE by (by intros ->).
    assert (∃ m a x b, bst_insert (N n BLACK E k E) k t = N m BLACK a x b ∧ ptr_of t = Some m)
      as (m & a & x & b & He & Hp).
    { destruct t as [|m c a x b]; [done|]. destruct Hwf as [_ Hroot _]. cbn [is_red] in Hroot.
      assert (c = BLACK) as -> by (by destruct c). simpl. repeat case_match; eauto 10. }
    exists h', (bst_insert (N n BLACK E k E) k t). rewrite Hr He Hp. rewrite He in Ht'.
    split_and!; [done..| |]; rewrite -He.
    + apply keys_bst_insert; [done|apply Hwf|done].
    + intros [bh' Hbh']. by eapply rb_bst_insert_black; [..|apply Hwf|].
Qed.
Lemma insert_black_present root ks h k fuel :
  is_RBTree root ks h → k ∈ ks → 2 * Nat.log2 (S (length ks)) < fuel →
  ∃ h' h1, insert (Some BLACK) fuel root k h = Ok (root, h') ∧ h1 ⊆ h' ∧ is_RBTree root ks h1.
Proof.
  intros (bh & t & Hwf & -> & <- & Ht) Hk Hfuel. pose proof (wf_height _ _ Hwf) as Hh.
  edestruct (wp_runs (insert (Some BLACK) fuel (ptr_of t) k) (is_tree t None)
    (λ root', ⟨root' = ptr_of t⟩ ∗ is_tree t None ∗ True)%I h) as (root' & h' & Hr & Ho); [|done|].
  - iIntros "Ht". iApply wp_insert_black_present; [lia|apply Hwf|apply Hwf|done|]. iFrame "Ht".
    iIntros "$". done.
  - apply holds_pure_sep in Ho as [-> (h1 & h2 & -> & _ & Ht' & _)].
    exists (h1 ∪ h2), h1. split; [done|]. split; [apply map_union_subseteq_l|]. by exists bh, t.
Qed.

Lemma insert_unfold u fuel root k h l :
  l = fresh (dom h) → insert u fuel root k h =
  (root ← BSTInsert fuel root (Some l); fixViolation fuel root (Some l)) (<[l:=mk_Node k u None None None]> h).
Proof. by intros ->. Qed.
Lemma is_tree_height_fuel bh t fuel :
  wf bh t → 2 * Nat.log2 (S (length (keys t))) < fuel → height t < fuel.
Proof. intros Hwf. pose proof (wf_height _ _ Hwf). lia. Qed.

Lemma insert_present_faults root ks h k fuel :
  is_RBTree root ks h → k ∈ ks → 2 * Nat.log2 (S (length ks)) < fuel →
  insert (Some RED) fuel root k h = Fault NullDeref.
Proof.
  intros (bh & t & Hwf & -> & <- & Ht) Hk Hfuel%(is_tree_height_fuel bh); [|done].
  erewrite insert_unfold; [|done]. set (l := fresh (dom h)).
  assert (h !! l = None) as Hl by apply not_elem_of_dom, is_fresh.
  destruct (BSTInsert_present fuel t h l (mk_Node k (Some RED) None None None))
    as (h' & Hr & Hl' & Hne); [done|apply Hwf|done..|].
  rewrite (run_bind _ _ _ _ _ Hr). destruct fuel as [|fuel]; [lia|].
  apply fix_fault. by eapply violation_no_parent.
Qed.
Lemma insert_uninit_faults root ks h k fuel :
  is_RBTree root ks h → ks ≠ [] → 2 * Nat.log2 (S (length ks)) < fuel →
  insert None fuel root k h = Fault Uninitialised.
Proof.
  intros (bh & t & Hwf & -> & <- & Ht) Hne Hfuel%(is_tree_height_fuel bh); [|done].
  erewrite insert_unfold; [|done]. set (l := fresh (dom h)).
  assert (h !! l = None) as Hl by apply not_elem_of_dom, is_fresh.
  assert (t ≠ E) as HtE by (by intros ->).
  assert (∃ h' v, BSTInsert fuel (ptr_of t) (Some l) (<[l:=mk_Node k None None None None]> h)
          = Ok (ptr_of t, h') ∧ ptr_of t ≠ Some l ∧ h' !! l = Some v ∧ n_color v = None)
    as (h' & v & Hr & Hr' & Hl' & Hc).
  { destruct (decide (k ∈ keys t)) as [Hk|Hk]; [|by apply BSTInsert_new_uninit].
    destruct (BSTInsert_present fuel t h l (mk_Node k None None None None))
      as (h' & Hr & Hl' & Hn); [done|apply Hwf|done..|]. by exists h', (mk_Node k None None None None). }
  rewrite (run_bind _ _ _ _ _ Hr). destruct fuel as [|fuel]; [lia|].
  apply fix_fault. by eapply violation_uninitialised.
Qed.

(** ** Sequences of insertions *)

Lemma insert_all_runs_rb root ks0 h ks fuel :
  is_RBTree root ks0 h → NoDup (ks ++ ks0) → 2 * Nat.log2 (S (length (ks ++ ks0))) < fuel →
  ∃ root' h' ks', insert_all (Some RED) fuel root ks h = Ok (root', h') ∧
    is_RBTree root' ks' h' ∧ ks' ≡ₚ ks ++ ks0.
Proof.
  revert root ks0 h; induction ks as [|k ks IH]; intros root ks0 h Hroot Hnd Hfuel; simpl in *.
  { by exists root, h, ks0. }
  apply NoDup_cons in Hnd as [Hk Hnd]. rewrite not_elem_of_app in Hk.
  assert (Nat.log2 (S (length ks0)) ≤ Nat.log2 (S (S (length (ks ++ ks0))))) as Hlog.
  { apply Nat.log2_le_mono. rewrite length_app. lia. }
  destruct (insert_runs_rb root ks0 h k fuel) as (root1 & h1 & Hr & Hroot1); [done|tauto|lia|].
  assert (ks ++ insert_key k ks0 ≡ₚ k :: ks ++ ks0) as Hp.
  { rewrite insert_key_Permutation. by rewrite -Permutation_middle. }
  destruct (IH root1 (insert_key k ks0) h1) as (root2 & h2 & ks' & Hr2 & Hroot2 & Hks'); [done| | |].
  - rewrite Hp. apply NoDup_cons. by rewrite not_elem_of_app.
  - by rewrite (Permutation_length Hp).
  - exists root2, h2, ks'. rewrite (run_bind _ _ _ _ _ Hr). split_and!; [done..|].
    by rewrite Hks' Hp.
Qed.

Lemma is_RBTree_sorted root ks h : is_RBTree root ks h → StronglySorted Z.lt ks.
Proof. intros (bh & t & Hwf & _ & <- & _). apply Hwf. Qed.
Lemma sorted_merge_sort ks ks' :
  StronglySorted Z.lt ks' → ks' ≡ₚ ks → ks' = merge_sort Z.le ks.
Proof.
  intros Hs Hp. apply (StronglySorted_unique Z.le).
  - clear Hp. induction Hs as [|x l Hs IH Hx]; constructor; [done|].
    eapply Forall_impl; [done|]. simpl; lia.
  - apply (StronglySorted_merge_sort Z.le).
  - by rewrite Hp (merge_sort_Permutation Z.le).
Qed.
End faults.

(** ** Properties *)

Lemma is_RBTree_single l k :
  is_RBTree (Some l) [k] {[l := mk_Node k (Some BLACK) None None None]}.
Proof.
  exists 1, (N l BLACK E k E). split_and!; [by repeat constructor|done..|].
  apply (holds_mono (l ↦ mk_Node k (Some BLACK) None None None)%I); [|done].
  cbn [is_tree ptr_of]. iIntros "$". by iSplit.
Qed.

(** C5: what [insert] does on a red-black tree (keys in order, root black, no red
    node with a red child, equal black heights, every parent pointer right), for
    every value that the member [color] of the new node may hold: the constructor
    leaves it unset.  A logarithmic number of rounds is enough in every case.

    If memory happens to make the new node red, a key that is not present is put
    at its place and the heap is exactly a red-black tree again; a key that is
    present makes the repair follow the NULL parent of the new node.  The first key
    of an empty tree makes a red-black tree whatever the color is.  Into a tree that
    is not empty: reading [color] as a member that was never written is a fault;
    and if the new node happens to be black, a new key gets its place in the search
    tree but the tree is no red-black tree any more, and a key that is present
    leaves the tree as it was. *)
Theorem RBTree_insert_correct root ks h k fuel :
  is_RBTree root ks h → 2 * Nat.log2 (S (length ks)) < fuel →
  (k ∉ ks → ∃ root' h', insert (Some RED) fuel root k h = Ok (root', h') ∧
     is_RBTree root' (insert_key k ks) h') ∧
  (k ∈ ks → insert (Some RED) fuel root k h = Fault NullDeref) ∧
  (ks = [] → ∀ u, ∃ root' h', insert u fuel root k h = Ok (root', h') ∧ is_RBTree root' [k] h') ∧
  (ks ≠ [] → insert None fuel root k h = Fault Uninitialised) ∧
  (ks ≠ [] → k ∉ ks → ∃ h' t', insert (Some BLACK) fuel root k h = Ok (root, h') ∧
     root = ptr_of t' ∧ is_tree t' None h' ∧ keys t' = insert_key k ks ∧ ¬ ∃ bh, rb bh t') ∧
  (k ∈ ks → ∃ h' h1, insert (Some BLACK) fuel root k h = Ok (root, h') ∧
     h1 ⊆ h' ∧ is_RBTree root ks h1).
Proof.
  intros Hroot Hfuel. split_and!.
  - intros Hk. by apply insert_runs_rb.
  - intros Hk. by eapply insert_present_faults.
  - intros -> u. apply insert_empty_runs; [done|lia].
  - intros Hne. by eapply insert_uninit_faults.
  - intros Hne Hk. by apply insert_black_runs.
  - intros Hk. by apply insert_black_present.
Qed.

Lemma RBTree_insert_correct_witness :
  (∃ root' h', insert (Some RED) 3 (Some 0) 3 {[0 := mk_Node 5 (Some BLACK) None None None]}
              = Ok (root', h') ∧ is_RBTree root' [3; 5]%Z h') ∧
  insert None 3 (Some 0) 3 {[0 := mk_Node 5 (Some BLACK) None None None]} = Fault Uninitialised.
Proof.
  destruct (RBTree_insert_correct (Some 0) [5%Z] _ 3 3 (is_RBTree_single 0 5)) as (H1 & _ & _ & H2 & _).
  - simpl. lia.
  - split; [|by apply H2]. apply H1. by apply (bool_decide_unpack _).
Defined.

(** A tree built by inserting any list of distinct keys sorts them and stays
    balanced: [inorder] prints the keys in increasing order, and the tree is
    never deeper than [2 log2 (n + 1)]. *)
Theorem RBTree_sorts ks fuel :
  NoDup ks → 2 * Nat.log2 (S (length ks)) < fuel →
  ∃ root h t, insert_all (Some RED) fuel None ks ∅ = Ok (root, h) ∧
    inorder fuel root h = Ok (merge_sort Z.le ks, h) ∧
    root = ptr_of t ∧ is_tree t None h ∧ height t ≤ 2 * Nat.log2 (S (length ks)).
Proof.
  intros Hnd Hfuel.
  destruct (insert_all_runs_rb None [] ∅ ks fuel) as (root & h & ks' & Hr & Hroot & Hks').
  { apply is_RBTree_empty. }
  { by rewrite app_nil_r. }
  { by rewrite app_nil_r. }
  rewrite app_nil_r in Hks'. pose proof (Permutation_length Hks') as Hlen.
  rewrite -(sorted_merge_sort ks ks'); [|by eapply is_RBTree_sorted|done].
  pose proof Hroot as (bh & t & Hwf & Hp & Hk & Ht). exists root, h, t.
  split_and!; [done| |done..|].
  - apply inorder_runs; [done|]. by rewrite Hlen.
  - rewrite -Hlen -Hk. by eapply wf_height.
Qed.

Lemma RBTree_sorts_witness :
  ∃ root h t, insert_all (Some RED) 7 None [7; 6; 5; 4; 3; 2; 1]%Z ∅ = Ok (root, h) ∧
    inorder 7 root h = Ok (merge_sort Z.le [7; 6; 5; 4; 3; 2; 1]%Z, h) ∧
    root = ptr_of t ∧ is_tree t None h ∧ height t ≤ 6.
Proof.
  apply (RBTree_sorts [7; 6; 5; 4; 3; 2; 1]%Z 7).
  - by apply (bool_decide_unpack _).
  - simpl. lia.
Defined.

(** [levelOrder], which works with a queue of nodes, prints the keys level
    after level, each level from left to right. *)
Theorem levelOrder_by_levels t h fuel :
  is_tree t None h → length (keys t) < fuel →
  levelOrder fuel (ptr_of t) h = Ok (level_order t, h).
Proof. apply levelOrder_runs. Qed.

Lemma levelOrder_by_levels_witness :
  levelOrder 2 (Some 4) {[4 := mk_Node 5 (Some BLACK) None None None]}
  = Ok ([5%Z], {[4 := mk_Node 5 (Some BLACK) None None None]}).
Proof.
  apply (levelOrder_by_levels (N 4 BLACK E 5 E)).
  - apply (holds_mono (4 ↦ mk_Node 5 (Some BLACK) None None None)%I); [|done].
    cbn [is_tree ptr_of]. iIntros "$". by iSplit.
  - simpl. lia.
Defined.

(** [main] with new nodes that start red: the two traversals it prints *)
Example main_output :
  match main (Some RED) 8 ∅ with Ok (out, _) => Some out | _ => None end =
  Some ([1; 2; 3; 4; 5; 6; 7]%Z, [6; 4; 7; 2; 5; 1; 3]%Z).
Proof. vm_compute. reflexivity. Qed.
(** when new nodes start black nothing is repaired: the tree is a chain *)
Example main_output_black :
  match main (Some BLACK) 8 ∅ with Ok (out, _) => Some out | _ => None end =
  Some ([1; 2; 3; 4; 5; 6; 7]%Z, [7; 6; 5; 4; 3; 2; 1]%Z).
Proof. vm_compute. reflexivity. Qed.
