(* ===== verification/Int.v ===== *)
(** Arithmetic on [int]: the operations of C on 32-bit signed integers, whose
    overflow is a fault. *)

From S2P Require Import Prelude.

Definition INT_MIN : Z := -2147483648.
Definition int_range (x : Z) : bool := bool_decide (INT_MIN ≤ x ≤ INT_MAX)%Z.

(** [a + b] *)
Definition int_add (a b : Z) : res Z :=
  _ ← require (int_range (a + b)) Overflow; mret (a + b)%Z.

Lemma int_add_Ok a b : (INT_MIN ≤ a + b ≤ INT_MAX)%Z → int_add a b = Ok (a + b)%Z.
Proof. intros H. unfold int_add, int_range. by rewrite bool_decide_true. Qed.
Lemma int_add_Overflow a b : ¬ (INT_MIN ≤ a + b ≤ INT_MAX)%Z → int_add a b = Fault Overflow.
Proof. intros H. unfold int_add, int_range. by rewrite bool_decide_false. Qed.
