(* ===== verification/Array.v ===== *)
(** Arrays of the C programs, as lists: an access outside the array is a fault,
    and so is reading an entry of a new array that was never written. *)

From S2P Require Import Prelude.

Section arrays.
Context {A : Type}.
Implicit Types (l : list A) (i : Z) (x : A).

(** [l[i]] *)
Definition get l i : res A :=
  _ ← require (bool_decide (0 ≤ i)%Z) OutOfBounds; of_option OutOfBounds (l !! Z.to_nat i).
(** [l[i] = x] *)
Definition put l i x : res (list A) :=
  _ ← require (bool_decide (0 ≤ i < Z.of_nat (length l))%Z) OutOfBounds; mret (<[Z.to_nat i := x]> l).

Lemma get_Ok l (n : nat) x : l !! n = Some x → get l (Z.of_nat n) = Ok x.
Proof. intros Hn. unfold get. rewrite bool_decide_true by lia. simpl. by rewrite Nat2Z.id, Hn. Qed.
Lemma put_Ok l (n : nat) x : n < length l → put l (Z.of_nat n) x = Ok (<[n := x]> l).
Proof. intros Hn. unfold put. rewrite bool_decide_true by lia. simpl. by rewrite Nat2Z.id. Qed.
Lemma get_OutOfBounds l i : ¬ (0 ≤ i < Z.of_nat (length l))%Z → get l i = Fault OutOfBounds.
Proof.
  intros Hi. unfold get. case_bool_decide; [|done]. simpl. by rewrite lookup_ge_None_2 by lia.
Qed.
End arrays.

(** an array whose entries are not all written yet *)
Abbreviation array := (list (option Z)).
(** [A[i]] *)
Definition fetch (A : array) (i : Z) : res Z := o ← get A i; of_option Uninitialised o.
(** [A[i] = v] *)
Definition assign (A : array) (i v : Z) : res array := put A i (Some v).

Section entries.
Implicit Types (ks : list Z) (rest : array) (i : nat) (v : Z).

(** the entries [ks] have been written *)
Lemma fetch_Ok ks rest i :
  i < length ks → fetch ((Some <$> ks) ++ rest) (Z.of_nat i) = Ok (ks !!! i).
Proof.
  intros Hi. unfold fetch. rewrite (get_Ok _ _ (Some (ks !!! i))); [done|].
  rewrite lookup_app_l by by rewrite length_fmap. rewrite list_lookup_fmap.
  by rewrite (list_lookup_lookup_total_lt _ _ Hi).
Qed.
Lemma assign_Ok ks rest i v :
  i < length ks →
  assign ((Some <$> ks) ++ rest) (Z.of_nat i) v = Ok ((Some <$> <[i := v]> ks) ++ rest).
Proof.
  intros Hi. unfold assign. rewrite put_Ok.
  - rewrite insert_app_l by by rewrite length_fmap. by rewrite list_fmap_insert.
  - rewrite length_app, length_fmap. lia.
Qed.
Lemma fetch_middle ks x ks' rest :
  fetch ((Some <$> ks ++ x :: ks') ++ rest) (Z.of_nat (length ks)) = Ok x.
Proof.
  rewrite fetch_Ok by (rewrite length_app; simpl; lia). by rewrite list_lookup_total_middle.
Qed.
Lemma assign_middle ks x ks' rest v :
  assign ((Some <$> ks ++ x :: ks') ++ rest) (Z.of_nat (length ks)) v = Ok ((Some <$> ks ++ v :: ks') ++ rest).
Proof.
  rewrite assign_Ok by (rewrite length_app; simpl; lia).
  by rewrite insert_app_r_alt, Nat.sub_diag by done.
Qed.
(** the first entry behind them is written *)
Lemma assign_next ks o rest v :
  assign ((Some <$> ks) ++ o :: rest) (Z.of_nat (length ks)) v = Ok ((Some <$> ks ++ [v]) ++ rest).
Proof.
  unfold assign. rewrite put_Ok.
  - rewrite insert_app_r_alt by by rewrite length_fmap.
    rewrite length_fmap, Nat.sub_diag, fmap_app. simpl. by rewrite <-(assoc_L (++)).
  - rewrite length_app, length_fmap. simpl. lia.
Qed.
End entries.
