(* ===== verification/FindMedian.v ===== *)
(** The running median of FindMedian.cpp: two heaps in arrays.

    A heap object is a record: the array that [new int[MAX_HEAP_SIZE]] made
    (entries that were never written are [None]), the comparator, and the index
    of its last element.  The two heaps of [printMedian] own their arrays, so
    objects are passed as values.  Reading or writing outside the array, reading
    an entry that was never written, and the overflow of [a + b] are faults. *)

From S2P Require Import Prelude Int Array.

Definition MAX_HEAP_SIZE : Z := 128.

(** ** Utility functions *)
Definition Greater (a b : Z) : bool := (a >? b)%Z.
Definition Smaller (a b : Z) : bool := (a <? b)%Z.

(** [/] rounds towards zero *)
Definition Average (a b : Z) : res Z := s ← int_add a b; mret (s `quot` 2)%Z.

Definition Signum (a b : Z) : Z := if (a =? b)%Z then 0 else if (a <? b)%Z then -1 else 1.

(** ** Arrays *)
(** [Exch(A[i], A[j])] *)
Definition Exch (A : array) (i j : Z) : res array :=
  aux ← fetch A i; b ← fetch A j; A ← assign A i b; assign A j aux.

(** ** The class Heap *)
Record Heap := mk_Heap { A : array; comp : Z → Z → bool; heapSize : Z }.

(** [Heap(new int[MAX_HEAP_SIZE], c)] *)
Definition new_Heap (c : Z → Z → bool) : Heap :=
  mk_Heap (replicate (Z.to_nat MAX_HEAP_SIZE) None) c (-1).
Definition MaxHeap : Heap := new_Heap Greater.
Definition MinHeap : Heap := new_Heap Smaller.

Definition parent (i : Z) : Z := if (i <=? 0)%Z then -1 else (i - 1) `quot` 2.

(** [top], behind [GetTop] *)
Definition top (h : Heap) : res Z :=
  let max := (-1)%Z in
  if (heapSize h >=? 0)%Z then fetch (A h) 0 else mret max.
(** [count], behind [GetCount] *)
Definition count (h : Heap) : Z := (heapSize h + 1)%Z.

Fixpoint heapify (fuel : nat) (c : Z → Z → bool) (A : array) (i : Z) : res array :=
  match fuel with
  | O => Blocked
  | S fuel =>
      let p := parent i in
      up ← (if (p >=? 0)%Z then a ← fetch A i; b ← fetch A p; mret (c a b) else mret false);
      if up : bool then A ← Exch A i p; heapify fuel c A p else mret A
  end.
(** indices halve: this many steps are enough for every index of the array *)
Definition heapify_fuel : nat := S (Z.to_nat MAX_HEAP_SIZE).

(** [deleteTop], behind [ExtractTop] *)
Definition deleteTop (h : Heap) : res (Z * Heap) :=
  let del := (-1)%Z in
  if (heapSize h >? -1)%Z then
    del ← fetch (A h) 0;
    A' ← Exch (A h) 0 (heapSize h);
    let n := (heapSize h - 1)%Z in
    A' ← heapify heapify_fuel (comp h) A' (parent (n + 1));
    mret (del, mk_Heap A' (comp h) n)
  else mret (del, h).

(** [insertHelper], behind [Insert] *)
Definition insertHelper (h : Heap) (key : Z) : res (bool * Heap) :=
  if (heapSize h <? MAX_HEAP_SIZE)%Z then
    let n := (heapSize h + 1)%Z in
    A' ← assign (A h) n key;
    A' ← heapify heapify_fuel (comp h) A' n;
    mret (true, mk_Heap A' (comp h) n)
  else mret (false, h).

(** the virtual functions of [MaxHeap] and [MinHeap] *)
Definition Insert (h : Heap) (e : Z) : res Heap := '(_, h) ← insertHelper h e; mret h.
Definition GetTop : Heap → res Z := top.
Definition ExtractTop : Heap → res (Z * Heap) := deleteTop.
Definition GetCount : Heap → Z := count.

(** ** The median so far *)

(** the result is the new [m], and the heaps *)
Definition getMedian (e m : Z) (l r : Heap) : res (Z * Heap * Heap) :=
  let sig := Signum (GetCount l) (GetCount r) in
  if (sig =? 1)%Z then
    '(l, r) ←
      (if (e <? m)%Z then
         '(t, l) ← ExtractTop l; r ← Insert r t;
         l ← Insert l e; mret (l, r)
       else r ← Insert r e; mret (l, r));
    a ← GetTop l; b ← GetTop r; m ← Average a b; mret (m, l, r)
  else if (sig =? 0)%Z then
    if (e <? m)%Z then l ← Insert l e; m ← GetTop l; mret (m, l, r)
    else r ← Insert r e; m ← GetTop r; mret (m, l, r)
  else
    '(l, r) ←
      (if (e <? m)%Z then l ← Insert l e; mret (l, r)
       else
         '(t, r) ← ExtractTop r; l ← Insert l t;
         r ← Insert r e; mret (l, r));
    a ← GetTop l; b ← GetTop r; m ← Average a b; mret (m, l, r).

(** the loop of [printMedian]: what is printed *)
Fixpoint median_loop (m : Z) (l r : Heap) (es : list Z) : res (list Z) :=
  match es with
  | [] => mret []
  | e :: es =>
      '(m, l, r) ← getMedian e m l r;
      out ← median_loop m l r es; mret (m :: out)
  end.
Definition printMedian (es : list Z) : res (list Z) := median_loop 0 MaxHeap MinHeap es.

(** ** The driver *)

(** the lambda [getLogFileInfo]: the values that it prints, [b] then [a] *)
Definition getLogFileInfo (a b : Z) : res (list Z) := a ← int_add a b; mret [b; a].
Definition Provider (provider : Z → res (list Z)) : res (list Z) := provider 1%Z.
Definition main : res (list Z) := Provider (λ x, getLogFileInfo x 4).
