(* ===== verification/FindMedianProps.v ===== *)
(** The heaps of FindMedian.cpp and the median they give.

    [is_heap h ks] says that the object [h] holds the elements [ks], in the
    order of its array; [ordered c ks] is the heap order.  [Insert] keeps the
    order.  [ExtractTop] keeps the other elements but not their order: the
    medians are right for the first five numbers of any stream, and not for six.
    The arrays are used within their bounds for exactly 256 numbers. *)

From stdpp Require Import sorting.
From S2P Require Import Prelude Int Array FindMedian.

(** what a heap expects of its comparator *)
Class HeapOrder (c : Z → Z → bool) := {
  comp_asym x y : c x y = true → c y x = false;
  comp_trans x y z : c x y = false → c y z = false → c x z = false;
}.
#[export] Instance Greater_order : HeapOrder Greater.
Proof. split; unfold Greater; intros *; rewrite !Z.gtb_ltb, ?Z.ltb_ge, ?Z.ltb_lt; lia. Qed.
#[export] Instance Smaller_order : HeapOrder Smaller.
Proof. split; unfold Smaller; intros *; rewrite ?Z.ltb_ge, ?Z.ltb_lt; lia. Qed.

(** ** Arrays *)
Section arrays.
Implicit Types (ks : list Z) (rest : array) (i j n : nat) (x y v : Z).

(** the two elements change places *)
Definition swap ks i j : list Z := <[i := ks !!! j]> (<[j := ks !!! i]> ks).

Lemma Exch_Ok ks rest i j :
  i < length ks → j < length ks →
  Exch ((Some <$> ks) ++ rest) (Z.of_nat i) (Z.of_nat j) = Ok ((Some <$> swap ks j i) ++ rest).
Proof.
  intros Hi Hj. unfold Exch. rewrite !fetch_Ok by done. simpl. rewrite assign_Ok by done. simpl.
  by rewrite assign_Ok by by rewrite length_insert.
Qed.
Lemma length_swap ks i j : length (swap ks i j) = length ks.
Proof. unfold swap. by rewrite !length_insert. Qed.
Lemma swap_lookup ks i j n :
  i < length ks → j < length ks →
  swap ks i j !!! n = if decide (n = i) then ks !!! j else if decide (n = j) then ks !!! i else ks !!! n.
Proof.
  intros Hi Hj. unfold swap. destruct (decide (n = i)) as [->|].
  - by rewrite list_lookup_total_insert_eq by by rewrite length_insert.
  - rewrite list_lookup_total_insert_ne by done. destruct (decide (n = j)) as [->|].
    + by rewrite list_lookup_total_insert_eq.
    + by rewrite list_lookup_total_insert_ne.
Qed.
Lemma swap_Permutation ks i j : i < length ks → j < length ks → swap ks i j ≡ₚ ks.
Proof.
  intros Hi Hj. apply Permutation_inj. split; [by rewrite length_swap|].
  set (f n := if decide (n = i) then j else if decide (n = j) then i else n).
  exists f. split.
  - intros a b. unfold f. repeat case_decide; congruence.
  - intros n. destruct (decide (n < length ks)) as [Hn|Hn].
    + rewrite (list_lookup_lookup_total_lt (swap ks i j)) by by rewrite length_swap.
      rewrite swap_lookup by done. unfold f. repeat case_decide; subst;
        by rewrite list_lookup_lookup_total_lt.
    + rewrite lookup_ge_None_2 by (rewrite length_swap; lia).
      unfold f. repeat case_decide; subst; [lia..|]. by rewrite lookup_ge_None_2 by lia.
Qed.
End arrays.

(** ** Heap order *)

(** the parent of the position [i] *)
Definition up (i : nat) : nat := (i - 1) / 2.

Lemma up_lt i : 0 < i → up i < i.
Proof. intros Hi. unfold up. apply Nat.Div0.div_lt_upper_bound. lia. Qed.
Lemma parent_up i : 0 < i → parent (Z.of_nat i) = Z.of_nat (up i).
Proof.
  intros Hi. unfold parent, up. destruct (Z.leb_spec (Z.of_nat i) 0); [lia|].
  rewrite Z.quot_div_nonneg by lia. replace (Z.of_nat i - 1)%Z with (Z.of_nat (i - 1)) by lia.
  by rewrite Nat2Z.inj_div.
Qed.

Section order.
Context (c : Z → Z → bool) `{HO : !HeapOrder c}.
Implicit Types (ks : list Z) (rest : array) (i j n : nat) (x y v : Z).

Definition ordered ks : Prop := ∀ i, 0 < i < length ks → c (ks !!! i) (ks !!! up i) = false.
(** ordered but for the element at [i], which may belong higher *)
Definition almost ks i : Prop :=
  (∀ j, 0 < j < length ks → j ≠ i → c (ks !!! j) (ks !!! up j) = false) ∧
  (∀ j, 0 < j < length ks → up j = i → 0 < i → c (ks !!! j) (ks !!! up i) = false).

Lemma almost_0 ks : almost ks 0 → ordered ks.
Proof. intros [Ha _] i Hi. apply Ha; lia. Qed.
Lemma almost_done ks i : almost ks i → c (ks !!! i) (ks !!! up i) = false → ordered ks.
Proof. intros [Ha _] Hc j Hj. destruct (decide (j = i)) as [->|]; [done|by apply Ha]. Qed.
Lemma almost_swap ks i :
  almost ks i → 0 < i < length ks → c (ks !!! i) (ks !!! up i) = true →
  almost (swap ks i (up i)) (up i).
Proof using HO.
  intros [Ha Hb] Hi Hc. pose proof (up_lt i ltac:(lia)) as Hp.
  assert (∀ n, swap ks i (up i) !!! n =
    if decide (n = i) then ks !!! up i else if decide (n = up i) then ks !!! i else ks !!! n) as Hs.
  { intros n. apply swap_lookup; lia. }
  split; intros j Hj; rewrite length_swap in Hj; rewrite !Hs.
  - intros Hjp. pose proof (up_lt j ltac:(lia)) as Hpj. destruct (decide (j = i)) as [->|Hji].
    + rewrite (decide_False (P := up i = i)), (decide_True (P := up i = up i)) by lia. by apply comp_asym.
    + rewrite (decide_False (P := j = up i)) by done. destruct (decide (up j = i)) as [Hui|].
      * apply Hb; [done|done|lia].
      * destruct (decide (up j = up i)) as [He|]; [|by apply Ha].
        apply (comp_trans _ (ks !!! up i)); [rewrite <-He; by apply Ha|by apply comp_asym].
  - intros Hu Hpos. pose proof (up_lt (up i) Hpos) as Hpp.
    rewrite (decide_False (P := up (up i) = i)), (decide_False (P := up (up i) = up i)) by lia.
    destruct (decide (j = i)) as [->|Hji]; [apply Ha; lia|].
    pose proof (up_lt j ltac:(lia)). rewrite (decide_False (P := j = up i)) by lia.
    apply (comp_trans _ (ks !!! up i)); [rewrite <-Hu; by apply Ha|apply Ha; lia].
Qed.

(** [heapify] permutes the elements, and finishes an order that is missing one
    element *)
Lemma heapify_Ok fuel ks rest i :
  i < length ks → i < fuel →
  ∃ ks', heapify fuel c ((Some <$> ks) ++ rest) (Z.of_nat i) = Ok ((Some <$> ks') ++ rest) ∧
         ks' ≡ₚ ks ∧ (almost ks i → ordered ks').
Proof using HO.
  revert ks i; induction fuel as [|fuel IH]; intros ks i Hi Hfuel; [lia|]. simpl.
  destruct (decide (i = 0)) as [->|Hi0].
  { exists ks. simpl. split_and!; [done..|]. apply almost_0. }
  rewrite parent_up by lia. pose proof (up_lt i ltac:(lia)) as Hp.
  rewrite Z.geb_leb, (proj2 (Z.leb_le _ _)) by lia. rewrite !fetch_Ok by lia. simpl.
  destruct (c (ks !!! i) (ks !!! up i)) eqn:Hc.
  - rewrite Exch_Ok by lia. simpl.
    assert (swap ks (up i) i = swap ks i (up i)) as ->.
    { unfold swap. apply list_insert_insert_ne. lia. }
    destruct (IH (swap ks i (up i)) (up i)) as (ks' & Hr & Hks' & Ho); [rewrite length_swap; lia|lia|].
    exists ks'. split_and!; [done| |].
    + by rewrite Hks', swap_Permutation by lia.
    + intros Ha. apply Ho, almost_swap; [done|lia|done].
  - exists ks. split_and!; [done..|]. intros Ha. by eapply almost_done.
Qed.

(** the first element is the top *)
Lemma ordered_top ks x : ordered ks → x ∈ ks → c x (ks !!! 0) = false.
Proof using HO.
  intros Ho Hx. apply list_elem_of_lookup in Hx as [i Hi].
  pose proof (lookup_lt_Some _ _ _ Hi) as Hlt. apply list_lookup_total_correct in Hi. subst x.
  induction i as [i IH] using lt_wf_ind. destruct (decide (i = 0)) as [->|Hi0].
  - destruct (c (ks !!! 0) (ks !!! 0)) eqn:Hc; [|done]. pose proof (comp_asym _ _ Hc). congruence.
  - pose proof (up_lt i ltac:(lia)). eapply comp_trans; [apply Ho; lia|]. apply IH; lia.
Qed.
Lemma ordered_short ks : length ks ≤ 1 → ordered ks.
Proof. intros Hl i Hi. lia. Qed.
Lemma ordered_snoc ks x : ordered ks → almost (ks ++ [x]) (length ks).
Proof.
  intros Ho. split; intros j Hj; rewrite length_app in Hj; simpl in Hj.
  - intros Hjn. pose proof (up_lt j ltac:(lia)). rewrite !lookup_total_app_l by lia. apply Ho. lia.
  - intros Hu Hn. pose proof (up_lt j ltac:(lia)). lia.
Qed.
End order.

(** ** The operations of a heap object *)

(** [h] holds the elements [ks] in an array of 128 places *)
Definition is_heap (h : Heap) (ks : list Z) : Prop :=
  ∃ rest, A h = (Some <$> ks) ++ rest ∧ length ks + length rest = 128 ∧
          heapSize h = (Z.of_nat (length ks) - 1)%Z.

Section heaps.
#[local] Arguments heapify : simpl never.
#[local] Arguments heapify_fuel : simpl never.
Implicit Types (ks : list Z) (h : Heap) (x y v key : Z).

Lemma new_Heap_empty c : is_heap (new_Heap c) [].
Proof. by exists (replicate 128 None). Qed.
Lemma GetCount_Ok h ks : is_heap h ks → GetCount h = Z.of_nat (length ks).
Proof. intros (rest & _ & _ & Hs). unfold GetCount, count. lia. Qed.
Lemma GetTop_Ok h ks : is_heap h ks → ks ≠ [] → GetTop h = Ok (ks !!! 0).
Proof.
  intros (rest & HA & _ & Hs) Hne. unfold GetTop, top.
  assert (0 < length ks) by (destruct ks; [done|simpl; lia]).
  rewrite Z.geb_leb, (proj2 (Z.leb_le _ _)) by lia. rewrite HA. by apply (fetch_Ok _ _ 0).
Qed.

Lemma insertHelper_Ok h ks key :
  HeapOrder (comp h) → is_heap h ks → length ks < 128 →
  ∃ h' ks', insertHelper h key = Ok (true, h') ∧ comp h' = comp h ∧ is_heap h' ks' ∧
            ks' ≡ₚ key :: ks ∧ (ordered (comp h) ks → ordered (comp h) ks').
Proof.
  intros HO (rest & HA & Hl & Hs) Hlen. unfold insertHelper.
  rewrite (proj2 (Z.ltb_lt _ _)) by (unfold MAX_HEAP_SIZE; lia).
  destruct rest as [|o rest]; [simpl in Hl; lia|].
  rewrite Hs, HA. replace (Z.of_nat (length ks) - 1 + 1)%Z with (Z.of_nat (length ks)) by lia.
  rewrite assign_next. simpl.
  destruct (heapify_Ok (comp h) heapify_fuel (ks ++ [key]) rest (length ks)) as (ks' & Hr & Hks' & Ho).
  { rewrite length_app. simpl. lia. }
  { unfold heapify_fuel, MAX_HEAP_SIZE. lia. }
  rewrite Hr. simpl. exists (mk_Heap ((Some <$> ks') ++ rest) (comp h) (Z.of_nat (length ks))), ks'.
  assert (length ks' = S (length ks)) as Hl'.
  { rewrite Hks', length_app. simpl. lia. }
  split_and!; [done..| |by rewrite Hks', (Permutation_app_comm ks)|].
  - exists rest. simpl in *. split_and!; [done|lia|lia].
  - intros Hord. by apply Ho, ordered_snoc.
Qed.
Lemma insertHelper_full h ks key :
  is_heap h ks → length ks = 128 → insertHelper h key = Fault OutOfBounds.
Proof.
  intros (rest & HA & Hl & Hs) Hlen. unfold insertHelper.
  rewrite (proj2 (Z.ltb_lt _ _)) by (unfold MAX_HEAP_SIZE; lia). unfold assign, put.
  rewrite bool_decide_false; [done|]. rewrite HA, length_app, length_fmap. lia.
Qed.

Lemma swap_last ks x y : swap (x :: ks ++ [y]) (S (length ks)) 0 = (y :: ks) ++ [x].
Proof.
  unfold swap. simpl. rewrite lookup_total_app_r, Nat.sub_diag by lia. simpl.
  by rewrite insert_app_r_alt, Nat.sub_diag by lia.
Qed.
Lemma deleteTop_Ok h ks :
  HeapOrder (comp h) → is_heap h ks → ks ≠ [] →
  ∃ h' ks', deleteTop h = Ok (ks !!! 0, h') ∧ comp h' = comp h ∧ is_heap h' ks' ∧
            (ks !!! 0) :: ks' ≡ₚ ks.
Proof.
  intros HO (rest & HA & Hl & Hs) Hne. unfold deleteTop.
  assert (0 < length ks) as Hpos by (destruct ks; [done|simpl; lia]).
  rewrite (proj2 (Z.gtb_lt _ _)) by lia. rewrite HA.
  pose proof (fetch_Ok ks rest 0 Hpos) as Hf. pose proof (Exch_Ok ks rest 0 (length ks - 1) Hpos ltac:(lia)) as He.
  change (Z.of_nat 0) with 0%Z in Hf, He. rewrite Hf. simpl.
  rewrite Hs. replace (Z.of_nat (length ks) - 1)%Z with (Z.of_nat (length ks - 1)) by lia.
  rewrite He. simpl.
  replace (Z.of_nat (length ks - 1) - 1 + 1)%Z with (Z.of_nat (length ks - 1)) by lia.
  destruct ks as [|x ks]; [done|]. destruct ks as [|y ks _] using rev_ind.
  - simpl. exists (mk_Heap (Some x :: rest) (comp h) (-1)), []. split_and!; [done..| |done].
    exists (Some x :: rest). simpl in *. split_and!; [done|lia|lia].
  - replace (length (x :: ks ++ [y]) - 1) with (S (length ks)) by (simpl; rewrite length_app; simpl; lia).
    rewrite swap_last, parent_up, fmap_app by lia. rewrite <-(assoc_L (++)).
    simpl in Hl. rewrite length_app in Hl. simpl in Hl.
    destruct (heapify_Ok (comp h) heapify_fuel (y :: ks) ((Some <$> [x]) ++ rest) (up (S (length ks))))
      as (ks' & Hr & Hks' & _).
    { pose proof (up_lt (S (length ks)) ltac:(lia)). simpl. lia. }
    { pose proof (up_lt (S (length ks)) ltac:(lia)). unfold heapify_fuel, MAX_HEAP_SIZE. lia. }
    rewrite Hr. simpl.
    assert (length ks' = S (length ks)) as Hl' by by rewrite Hks'.
    eexists _, ks'. split_and!; [done..| |].
    + exists (Some x :: rest). simpl. split_and!; [done|lia|lia].
    + simpl. by rewrite Hks', (Permutation_app_comm ks).
Qed.
End heaps.

(** ** The median *)

(** of an even number of elements the mean of the two in the middle, rounded
    towards zero *)
Definition median (ks : list Z) : Z :=
  let s := merge_sort Z.le ks in
  let n := length s in
  if Nat.odd n then s !!! (n / 2) else ((s !!! (n / 2 - 1)) + s !!! (n / 2)) `quot` 2.

Section median.
Implicit Types (ks L R s : list Z) (m x y e : Z).

Lemma quot_between x y : (x ≤ y)%Z → (x ≤ (x + y) `quot` 2 ≤ y)%Z.
Proof.
  intros Hxy. pose proof (Z.quot_rem' (x + y) 2). pose proof (Z.rem_bound_abs (x + y) 2). lia.
Qed.

Lemma sorted_first s x : StronglySorted Z.le s → x ∈ s → (s !!! 0%nat ≤ x)%Z.
Proof.
  intros Hs Hx. destruct Hs as [|y s Hs Hy]; [by apply elem_of_nil in Hx|].
  simpl. apply elem_of_cons in Hx as [->|Hx]; [done|]. by eapply Forall_forall in Hy.
Qed.
Lemma sorted_last s x : StronglySorted Z.le s → x ∈ s → (x ≤ s !!! (length s - 1)%nat)%Z.
Proof.
  intros Hs. revert x. induction Hs as [|y s Hs IH Hy]; intros x Hx; [by apply elem_of_nil in Hx|].
  simpl. rewrite Nat.sub_0_r. destruct s as [|z s].
  { apply list_elem_of_singleton in Hx as ->. done. }
  simpl in *. rewrite Nat.sub_0_r in IH. apply elem_of_cons in Hx as [->|Hx]; [|by apply IH].
  etrans; [|apply (IH z); by left]. by apply Forall_cons in Hy as [? _].
Qed.

Lemma merge_sort_split L R :
  (∀ x y, x ∈ L → y ∈ R → (x ≤ y)%Z) →
  merge_sort Z.le (L ++ R) = merge_sort Z.le L ++ merge_sort Z.le R.
Proof.
  intros Hsep. apply (StronglySorted_unique Z.le).
  - apply (StronglySorted_merge_sort Z.le).
  - apply StronglySorted_app. split_and!; [|apply (StronglySorted_merge_sort Z.le)..].
    intros x y. rewrite !(merge_sort_Permutation Z.le). apply Hsep.
  - by rewrite !(merge_sort_Permutation Z.le).
Qed.
Lemma merge_sort_length ks : length (merge_sort Z.le ks) = length ks.
Proof. by rewrite (merge_sort_Permutation Z.le). Qed.
Lemma merge_sort_elem x ks : x ∈ merge_sort Z.le ks ↔ x ∈ ks.
Proof. by rewrite (merge_sort_Permutation Z.le). Qed.
Lemma merge_sort_last L x :
  x ∈ L → (∀ y, y ∈ L → (y ≤ x)%Z) → merge_sort Z.le L !!! (length L - 1) = x.
Proof.
  intros Hx Hmax. pose proof (StronglySorted_merge_sort Z.le L) as Hs.
  assert (length L ≠ 0) by (destruct L; [by apply elem_of_nil in Hx|simpl; lia]).
  assert (merge_sort Z.le L !!! (length L - 1) ∈ L) as Hin.
  { apply merge_sort_elem, list_elem_of_lookup_total_2. rewrite merge_sort_length. lia. }
  apply Hmax in Hin. apply merge_sort_elem, (sorted_last _ x Hs) in Hx.
  rewrite merge_sort_length in Hx. lia.
Qed.
Lemma merge_sort_first R x :
  x ∈ R → (∀ y, y ∈ R → (x ≤ y)%Z) → merge_sort Z.le R !!! 0 = x.
Proof.
  intros Hx Hmin. pose proof (StronglySorted_merge_sort Z.le R) as Hs.
  assert (length R ≠ 0) by (destruct R; [by apply elem_of_nil in Hx|simpl; lia]).
  assert (merge_sort Z.le R !!! 0 ∈ R) as Hin.
  { apply merge_sort_elem, list_elem_of_lookup_total_2. rewrite merge_sort_length. lia. }
  apply Hmin in Hin. apply merge_sort_elem, (sorted_first _ x Hs) in Hx. lia.
Qed.

(** the median of two halves, from the largest of the one and the smallest of
    the other *)
Lemma median_left L R x :
  (∀ x y, x ∈ L → y ∈ R → (x ≤ y)%Z) → length L = S (length R) →
  x ∈ L → (∀ y, y ∈ L → (y ≤ x)%Z) → median (L ++ R) = x.
Proof.
  intros Hsep Hl Hx Hmax. unfold median. rewrite merge_sort_split by done.
  rewrite length_app, !merge_sort_length, Hl.
  replace (S (length R) + length R) with (1 + 2 * length R) by lia.
  rewrite Nat.odd_add_mul_2, (Nat.mul_comm 2), Nat.div_add by lia. simpl.
  rewrite lookup_total_app_l by (rewrite merge_sort_length; lia).
  replace (length R) with (length L - 1) by lia. by apply merge_sort_last.
Qed.
Lemma median_right L R x :
  (∀ x y, x ∈ L → y ∈ R → (x ≤ y)%Z) → length R = S (length L) →
  x ∈ R → (∀ y, y ∈ R → (x ≤ y)%Z) → median (L ++ R) = x.
Proof.
  intros Hsep Hl Hx Hmin. unfold median. rewrite merge_sort_split by done.
  rewrite length_app, !merge_sort_length, Hl.
  replace (length L + S (length L)) with (1 + 2 * length L) by lia.
  rewrite Nat.odd_add_mul_2, (Nat.mul_comm 2), Nat.div_add by lia. simpl.
  rewrite lookup_total_app_r by (rewrite merge_sort_length; lia).
  rewrite merge_sort_length, Nat.sub_diag. by apply merge_sort_first.
Qed.
Lemma median_even L R x y :
  (∀ x y, x ∈ L → y ∈ R → (x ≤ y)%Z) → length L = length R →
  x ∈ L → (∀ z, z ∈ L → (z ≤ x)%Z) → y ∈ R → (∀ z, z ∈ R → (y ≤ z)%Z) →
  median (L ++ R) = ((x + y) `quot` 2)%Z.
Proof.
  intros Hsep Hl Hx Hmax Hy Hmin. unfold median. rewrite merge_sort_split by done.
  rewrite length_app, !merge_sort_length, Hl.
  assert (length L ≠ 0) by (destruct L; [by apply elem_of_nil in Hx|simpl; lia]).
  replace (length R + length R) with (0 + 2 * length R) by lia.
  rewrite Nat.odd_add_mul_2, (Nat.mul_comm 2), Nat.div_add by lia. simpl.
  rewrite lookup_total_app_l by (rewrite merge_sort_length; lia).
  rewrite lookup_total_app_r by (rewrite merge_sort_length; lia).
  rewrite merge_sort_length, Hl, Nat.sub_diag.
  rewrite (merge_sort_first R y Hy Hmin). f_equal. f_equal. rewrite <-Hl. by apply merge_sort_last.
Qed.
End median.

(** ** One number of the stream *)

(** no sum of two such numbers overflows *)
Definition small (x : Z) : Prop := (- 2 ^ 30 ≤ x < 2 ^ 30)%Z.

Section stream.
Implicit Types (L R ks seen es : list Z) (m x y e b : Z) (l r h : Heap).

Lemma Average_Ok x y : small x → small y → Average x y = Ok ((x + y) `quot` 2)%Z.
Proof.
  unfold small, Average. intros Hx Hy. by rewrite int_add_Ok by (unfold INT_MIN, INT_MAX; lia).
Qed.

(** the two objects hold [L] and [R], of sizes that differ by at most one *)
Record halves l r L R : Prop := {
  hv_l : is_heap l L;
  hv_r : is_heap r R;
  hv_lc : comp l = Greater;
  hv_rc : comp r = Smaller;
  hv_small : Forall small (L ++ R);
  hv_size : length L ≤ S (length R) ∧ length R ≤ S (length L);
}.
(** heap order, and [m] between the halves *)
Record tracked L R m : Prop := {
  tr_l : ordered Greater L;
  tr_r : ordered Smaller R;
  tr_below : ∀ x, x ∈ L → (x ≤ m)%Z;
  tr_above : ∀ y, y ∈ R → (m ≤ y)%Z;
  tr_m : match length L ?= length R with
         | Gt => m = L !!! 0
         | Lt => m = R !!! 0
         | Eq => L ≠ [] → m = (((L !!! 0%nat) + (R !!! 0%nat)) `quot` 2)%Z
         end;
}.

Lemma head_elem L : L ≠ [] → L !!! 0 ∈ L.
Proof. destruct L; [done|]. intros _. by left. Qed.
Lemma top_max L x : ordered Greater L → x ∈ L → (x ≤ L !!! 0%nat)%Z.
Proof. intros Ho Hx. apply (ordered_top Greater) in Hx; [|done]. unfold Greater in Hx. lia. Qed.
Lemma top_min R x : ordered Smaller R → x ∈ R → (R !!! 0%nat ≤ x)%Z.
Proof. intros Ho Hx. apply (ordered_top Smaller) in Hx; [|done]. unfold Smaller in Hx. lia. Qed.

(** what is tracked is the median *)
Lemma tracked_median L R m :
  tracked L R m → length L ≤ S (length R) → length R ≤ S (length L) → L ++ R ≠ [] → m = median (L ++ R).
Proof.
  intros [Hl Hr Hb Ha Hm] HL HR Hne.
  assert (∀ x y, x ∈ L → y ∈ R → (x ≤ y)%Z) as Hsep.
  { intros x y Hx%Hb Hy%Ha. lia. }
  pose proof (top_max L) as HmaxL. pose proof (top_min R) as HminR.
  destruct (Nat.compare_spec (length L) (length R)) as [He|Hlt|Hgt].
  - assert (L ≠ []) as HLne by (intros ->; by destruct R).
    assert (R ≠ []) as HRne by (intros ->; by destruct L).
    rewrite (Hm HLne). symmetry. by apply median_even; auto using head_elem.
  - assert (R ≠ []) as HRne by (intros ->; simpl in *; lia).
    rewrite Hm. symmetry. apply median_right; auto using head_elem; lia.
  - assert (L ≠ []) as HLne by (intros ->; simpl in *; lia).
    rewrite Hm. symmetry. apply median_left; auto using head_elem; lia.
Qed.

Lemma Insert_Ok c h ks e :
  HeapOrder c → comp h = c → is_heap h ks → length ks < 128 →
  ∃ h' ks', Insert h e = Ok h' ∧ comp h' = c ∧ is_heap h' ks' ∧ ks' ≡ₚ e :: ks ∧
            (ordered c ks → ordered c ks').
Proof.
  intros HO <- Hh Hlen. destruct (insertHelper_Ok h ks e HO Hh Hlen) as (h' & ks' & Hr & ? & ? & ? & ?).
  exists h', ks'. unfold Insert. by rewrite Hr.
Qed.
Lemma ExtractTop_Ok c h ks :
  HeapOrder c → comp h = c → is_heap h ks → ks ≠ [] →
  ∃ h' ks', ExtractTop h = Ok (ks !!! 0, h') ∧ comp h' = c ∧ is_heap h' ks' ∧
            (ks !!! 0) :: ks' ≡ₚ ks ∧ (length ks ≤ 2 → ordered c ks').
Proof.
  intros HO <- Hh Hne. destruct (deleteTop_Ok h ks HO Hh Hne) as (h' & ks' & Hr & Hc & Hh' & Hp).
  exists h', ks'. split_and!; [done..|]. intros Hl. apply ordered_short.
  apply Permutation_length in Hp. simpl in Hp. lia.
Qed.

(** both halves have the same size: the mean of the two tops is taken *)
Lemma balance_Ok l r L R :
  is_heap l L → is_heap r R → Forall small (L ++ R) → L ≠ [] → R ≠ [] →
  (a ← GetTop l; b ← GetTop r; m ← Average a b; mret (m, l, r)) =
  Ok ((((L !!! 0%nat) + (R !!! 0%nat)) `quot` 2)%Z, l, r).
Proof.
  intros Hl Hr [HsL HsR]%Forall_app HL HR.
  rewrite (GetTop_Ok l L), (GetTop_Ok r R) by done. simpl. rewrite Average_Ok; [done| |].
  - eapply Forall_forall in HsL; [done|]. by apply head_elem.
  - eapply Forall_forall in HsR; [done|]. by apply head_elem.
Qed.
Lemma balance_tracked L R b :
  ordered Greater L → ordered Smaller R → length L = length R → L ≠ [] →
  (∀ x, x ∈ L → (x ≤ b)%Z) → (∀ y, y ∈ R → (b ≤ y)%Z) →
  tracked L R (((L !!! 0%nat) + (R !!! 0%nat)) `quot` 2)%Z.
Proof.
  intros HL HR Hlen HLne Hx Hy. assert (R ≠ []) as HRne by (intros ->; by destruct L).
  pose proof (Hx _ (head_elem L HLne)). pose proof (Hy _ (head_elem R HRne)).
  assert (L !!! 0%nat ≤ R !!! 0%nat)%Z as Hq%quot_between by lia. split; [done..| | |].
  - intros x Hxl. pose proof (top_max L x HL Hxl). lia.
  - intros y Hyr. pose proof (top_min R y HR Hyr). lia.
  - by rewrite Hlen, Nat.compare_refl.
Qed.

Lemma Signum_nat (a b : nat) :
  Signum (Z.of_nat a) (Z.of_nat b) = match Nat.compare a b with Gt => 1 | Eq => 0 | Lt => -1 end%Z.
Proof.
  unfold Signum. destruct (Nat.compare_spec a b) as [->|Hab|Hab].
  - by rewrite Z.eqb_refl.
  - rewrite (proj2 (Z.eqb_neq _ _)), (proj2 (Z.ltb_lt _ _)) by lia. done.
  - rewrite (proj2 (Z.eqb_neq _ _)), (proj2 (Z.ltb_ge _ _)) by lia. done.
Qed.

Lemma perm_in x e ks ks' : ks' ≡ₚ e :: ks → x ∈ ks' → x = e ∨ x ∈ ks.
Proof. intros Hp. by rewrite Hp, elem_of_cons. Qed.
Lemma halves_intro l r L R L' R' e :
  is_heap l L' → is_heap r R' → comp l = Greater → comp r = Smaller → small e →
  Forall small (L ++ R) → L' ++ R' ≡ₚ e :: L ++ R →
  length L' ≤ S (length R') → length R' ≤ S (length L') → halves l r L' R'.
Proof. intros ????? Hs Hp ??. split; try done. rewrite Hp. by constructor. Qed.

(** equally many numbers in both halves *)
Lemma step_equal e m l r L R :
  halves l r L R → small e → length L = length R → length L < 128 →
  ∃ m' l' r' L' R',
    getMedian e m l r = Ok (m', l', r') ∧ halves l' r' L' R' ∧ L' ++ R' ≡ₚ e :: L ++ R ∧
    (tracked L R m → tracked L' R' m').
Proof.
  intros [Hl Hr Hlc Hrc Hs [HL HR]] He Hlen H128. unfold getMedian.
  rewrite (GetCount_Ok l L), (GetCount_Ok r R), Signum_nat, Hlen, Nat.compare_refl by done. simpl.
  destruct (e <? m)%Z eqn:Hem.
  - destruct (Insert_Ok Greater l L e _ Hlc Hl) as (l' & L' & Hi & Hlc' & Hl' & HpL & Ho); [lia|].
    assert (length L' = S (length R)) as HlL by (rewrite HpL; simpl; lia).
    assert (L' ≠ []) as HneL by by intros ->.
    assert (L' ++ R ≡ₚ e :: L ++ R) as Hp by by rewrite HpL.
    rewrite Hi. simpl. rewrite (GetTop_Ok l' L') by done. simpl.
    eexists _, l', r, L', R. split_and!; [done|eapply (halves_intro _ _ L R); eauto; lia|done|].
    intros [HoL HoR Hb Ha _]. specialize (Ho HoL). split; [done..| | |].
    + intros x Hx. by apply top_max.
    + intros y Hy%Ha. pose proof (head_elem L' HneL) as Hin. apply (perm_in _ _ _ _ HpL) in Hin as [Heq|Hin%Hb]; lia.
    + by rewrite HlL, (proj2 (Nat.compare_gt_iff _ _)) by lia.
  - destruct (Insert_Ok Smaller r R e _ Hrc Hr) as (r' & R' & Hi & Hrc' & Hr' & HpR & Ho); [lia|].
    assert (length R' = S (length L)) as HlR by (rewrite HpR; simpl; lia).
    assert (R' ≠ []) as HneR by by intros ->.
    assert (L ++ R' ≡ₚ e :: L ++ R) as Hp by by rewrite HpR, <-Permutation_middle.
    rewrite Hi. simpl. rewrite (GetTop_Ok r' R') by done. simpl.
    eexists _, l, r', L, R'. split_and!; [done|eapply (halves_intro _ _ L R); eauto; lia|done|].
    intros [HoL HoR Hb Ha _]. specialize (Ho HoR). split; [done..| | |].
    + intros x Hx%Hb. pose proof (head_elem R' HneR) as Hin. apply (perm_in _ _ _ _ HpR) in Hin as [Heq|Hin%Ha]; lia.
    + intros y Hy. by apply top_min.
    + by rewrite HlR, (proj2 (Nat.compare_lt_iff _ _)) by lia.
Qed.

(** one more number in the left half *)
Lemma step_left e m l r L R :
  halves l r L R → small e → length L = S (length R) → length L ≤ 128 →
  ∃ m' l' r' L' R',
    getMedian e m l r = Ok (m', l', r') ∧ halves l' r' L' R' ∧ L' ++ R' ≡ₚ e :: L ++ R ∧
    (tracked L R m → length L ≤ 2 → tracked L' R' m').
Proof.
  intros [Hl Hr Hlc Hrc Hs [HL HR]] He Hlen H128. unfold getMedian.
  rewrite (GetCount_Ok l L), (GetCount_Ok r R), Signum_nat, (proj2 (Nat.compare_gt_iff _ _)) by (done || lia).
  simpl. assert (L ≠ []) as HLne by by intros ->.
  assert (tracked L R m → m = L !!! 0) as Heq.
  { intros Ht. pose proof (tr_m _ _ _ Ht) as Hm. by rewrite (proj2 (Nat.compare_gt_iff _ _)) in Hm by lia. }
  destruct (e <? m)%Z eqn:Hem.
  - destruct (ExtractTop_Ok Greater l L _ Hlc Hl HLne) as (l1 & L1 & Hx & Hlc1 & Hl1 & Hp1 & Ho1).
    pose proof (Permutation_length Hp1) as Hlen1. simpl in Hlen1.
    destruct (Insert_Ok Smaller r R (L !!! 0) _ Hrc Hr) as (r' & R' & Hi & Hrc' & Hr' & HpR & HoR); [lia|].
    destruct (Insert_Ok Greater l1 L1 e _ Hlc1 Hl1) as (l' & L' & Hi' & Hlc' & Hl' & HpL & HoL); [lia|].
    pose proof (Permutation_length HpR) as HlR. pose proof (Permutation_length HpL) as HlL.
    simpl in HlR, HlL. rewrite Hx. simpl. rewrite Hi. simpl. rewrite Hi'. simpl.
    assert (L' ++ R' ≡ₚ e :: L ++ R) as Hp.
    { rewrite HpL, HpR. simpl. by rewrite <-Permutation_middle, app_comm_cons, Hp1. }
    assert (halves l' r' L' R') as Hh by (eapply (halves_intro _ _ L R); eauto; lia).
    assert (L' ≠ []) as HneL by by intros ->. assert (R' ≠ []) as HneR by by intros ->.
    rewrite (balance_Ok l' r' L' R') by (done || apply Hh).
    eexists _, l', r', L', R'. split_and!; [done..|].
    intros Ht Hlen2. specialize (Heq Ht). destruct Ht as [HtL HtR Hb Ha _]. apply (balance_tracked _ _ m); [auto..|lia|done| |].
    + intros x. rewrite HpL, elem_of_cons. intros [->|Hx']; [lia|]. apply Hb. rewrite <-Hp1. by right.
    + intros y. rewrite HpR, elem_of_cons. intros [->|Hy%Ha]; [by rewrite Heq|done].
  - destruct (Insert_Ok Smaller r R e _ Hrc Hr) as (r' & R' & Hi & Hrc' & Hr' & HpR & HoR); [lia|].
    pose proof (Permutation_length HpR) as HlR. simpl in HlR. rewrite Hi. simpl.
    assert (L ++ R' ≡ₚ e :: L ++ R) as Hp by by rewrite HpR, <-Permutation_middle.
    assert (halves l r' L R') as Hh by (eapply (halves_intro _ _ L R); eauto; lia).
    assert (R' ≠ []) as HneR by by intros ->.
    rewrite (balance_Ok l r' L R') by (done || apply Hh).
    eexists _, l, r', L, R'. split_and!; [done..|].
    intros [HtL HtR Hb Ha _] _. apply (balance_tracked _ _ m); [auto..|lia|done|done|].
    intros y. rewrite HpR, elem_of_cons. intros [->|Hy%Ha]; [lia|done].
Qed.

(** one more number in the right half *)
Lemma step_right e m l r L R :
  halves l r L R → small e → length R = S (length L) → length R ≤ 128 →
  ∃ m' l' r' L' R',
    getMedian e m l r = Ok (m', l', r') ∧ halves l' r' L' R' ∧ L' ++ R' ≡ₚ e :: L ++ R ∧
    (tracked L R m → length R ≤ 2 → tracked L' R' m').
Proof.
  intros [Hl Hr Hlc Hrc Hs [HL HR]] He Hlen H128. unfold getMedian.
  rewrite (GetCount_Ok l L), (GetCount_Ok r R), Signum_nat, (proj2 (Nat.compare_lt_iff _ _)) by (done || lia).
  simpl. assert (R ≠ []) as HRne by by intros ->.
  assert (tracked L R m → m = R !!! 0) as Heq.
  { intros Ht. pose proof (tr_m _ _ _ Ht) as Hm. by rewrite (proj2 (Nat.compare_lt_iff _ _)) in Hm by lia. }
  destruct (e <? m)%Z eqn:Hem.
  - destruct (Insert_Ok Greater l L e _ Hlc Hl) as (l' & L' & Hi & Hlc' & Hl' & HpL & HoL); [lia|].
    pose proof (Permutation_length HpL) as HlL. simpl in HlL. rewrite Hi. simpl.
    assert (L' ++ R ≡ₚ e :: L ++ R) as Hp by by rewrite HpL.
    assert (halves l' r L' R) as Hh by (eapply (halves_intro _ _ L R); eauto; lia).
    assert (L' ≠ []) as HneL by by intros ->.
    rewrite (balance_Ok l' r L' R) by (done || apply Hh).
    eexists _, l', r, L', R. split_and!; [done..|].
    intros [HtL HtR Hb Ha _] _. apply (balance_tracked _ _ m); [auto..|lia|done| |done].
    intros x. rewrite HpL, elem_of_cons. intros [->|Hx%Hb]; [lia|done].
  - destruct (ExtractTop_Ok Smaller r R _ Hrc Hr HRne) as (r1 & R1 & Hx & Hrc1 & Hr1 & Hp1 & Ho1).
    pose proof (Permutation_length Hp1) as Hlen1. simpl in Hlen1.
    destruct (Insert_Ok Greater l L (R !!! 0) _ Hlc Hl) as (l' & L' & Hi & Hlc' & Hl' & HpL & HoL); [lia|].
    destruct (Insert_Ok Smaller r1 R1 e _ Hrc1 Hr1) as (r' & R' & Hi' & Hrc' & Hr' & HpR & HoR); [lia|].
    pose proof (Permutation_length HpR) as HlR. pose proof (Permutation_length HpL) as HlL.
    simpl in HlR, HlL. rewrite Hx. simpl. rewrite Hi. simpl. rewrite Hi'. simpl.
    assert (L' ++ R' ≡ₚ e :: L ++ R) as Hp.
    { rewrite HpL, HpR. trans (e :: L ++ (R !!! 0) :: R1); [|by rewrite Hp1].
      simpl. rewrite <-!Permutation_middle. apply Permutation_swap. }
    assert (halves l' r' L' R') as Hh by (eapply (halves_intro _ _ L R); eauto; lia).
    assert (L' ≠ []) as HneL by by intros ->. assert (R' ≠ []) as HneR by by intros ->.
    rewrite (balance_Ok l' r' L' R') by (done || apply Hh).
    eexists _, l', r', L', R'. split_and!; [done..|].
    intros Ht Hlen2. specialize (Heq Ht). destruct Ht as [HtL HtR Hb Ha _].
    apply (balance_tracked _ _ m); [auto..|lia|done| |].
    + intros x. rewrite HpL, elem_of_cons. intros [->|Hx'%Hb]; [by rewrite Heq|done].
    + intros y. rewrite HpR, elem_of_cons. intros [->|Hy]; [lia|]. apply Ha. rewrite <-Hp1. by right.
Qed.

Lemma getMedian_step e m l r L R :
  halves l r L R → small e → length L + length R < 256 →
  ∃ m' l' r' L' R',
    getMedian e m l r = Ok (m', l', r') ∧ halves l' r' L' R' ∧ L' ++ R' ≡ₚ e :: L ++ R ∧
    (tracked L R m → length L + length R ≤ 4 → tracked L' R' m').
Proof.
  intros Hh He Hlen. pose proof (hv_size _ _ _ _ Hh) as [HL HR].
  assert (length L = length R ∨ length L = S (length R) ∨ length R = S (length L)) as [Hc|[Hc|Hc]] by lia.
  - destruct (step_equal e m l r L R) as (m' & l' & r' & L' & R' & ? & ? & ? & Ht); [done..|lia|].
    exists m', l', r', L', R'. auto.
  - destruct (step_left e m l r L R) as (m' & l' & r' & L' & R' & ? & ? & ? & Ht); [done..|lia|].
    exists m', l', r', L', R'. split_and!; [done..|]. intros ??. apply Ht; [done|lia].
  - destruct (step_right e m l r L R) as (m' & l' & r' & L' & R' & ? & ? & ? & Ht); [done..|lia|].
    exists m', l', r', L', R'. split_and!; [done..|]. intros ??. apply Ht; [done|lia].
Qed.

(** *** Any numbers *)

(** the sizes of the two halves, without a condition on the numbers *)
Record sized (l r : Heap) (L R : list Z) : Prop := {
  sz_left : is_heap l L;
  sz_right : is_heap r R;
  sz_comp_left : comp l = Greater;
  sz_comp_right : comp r = Smaller;
  sz_size : length L ≤ S (length R) ∧ length R ≤ S (length L)
}.
Lemma halves_sized l r L R : halves l r L R → sized l r L R.
Proof. by intros []; split. Qed.

Lemma balance_any l r L R :
  is_heap l L → is_heap r R → L ≠ [] → R ≠ [] →
  (a ← GetTop l; b ← GetTop r; m ← Average a b; mret (m, l, r)) = Fault Overflow ∨
  ∃ m, (a ← GetTop l; b ← GetTop r; m ← Average a b; mret (m, l, r)) = Ok (m, l, r).
Proof.
  intros Hl Hr HL HR. rewrite (GetTop_Ok l L), (GetTop_Ok r R) by done. simpl. unfold Average.
  destruct (decide (INT_MIN ≤ L !!! 0%nat + R !!! 0%nat ≤ INT_MAX)%Z).
  - right. rewrite int_add_Ok by done. simpl. eauto.
  - left. by rewrite int_add_Overflow.
Qed.

(** the shorter half gets one more, or one moves over *)
Lemma getMedian_any e m l r L R :
  sized l r L R → length L + length R < 256 →
  getMedian e m l r = Fault Overflow ∨
  ∃ m' l' r' L' R', getMedian e m l r = Ok (m', l', r') ∧ sized l' r' L' R' ∧
    length L' + length R' = S (length L + length R).
Proof.
  intros [Hl Hr Hlc Hrc [HL HR]] Hlen. unfold getMedian.
  rewrite (GetCount_Ok l L), (GetCount_Ok r R), Signum_nat by done.
  assert (∀ h ks x c, HeapOrder c → comp h = c → is_heap h ks → length ks < 128 →
    ∃ h' ks', Insert h x = Ok h' ∧ comp h' = c ∧ is_heap h' ks' ∧ length ks' = S (length ks)) as Hins.
  { intros h ks x c HO Hc Hh Hk. destruct (Insert_Ok c h ks x HO Hc Hh Hk) as (h' & ks' & ? & ? & ? & Hp & _).
    exists h', ks'. by apply Permutation_length in Hp. }
  assert (∀ h ks c, HeapOrder c → comp h = c → is_heap h ks → ks ≠ [] →
    ∃ h' ks', ExtractTop h = Ok (ks !!! 0, h') ∧ comp h' = c ∧ is_heap h' ks' ∧ S (length ks') = length ks) as Hext.
  { intros h ks c HO Hc Hh Hk. destruct (ExtractTop_Ok c h ks HO Hc Hh Hk) as (h' & ks' & ? & ? & ? & Hp & _).
    exists h', ks'. by apply Permutation_length in Hp. }
  assert (∀ l' r' L' R', sized l' r' L' R' → L' ≠ [] → R' ≠ [] → length L' + length R' = S (length L + length R) →
    (a ← GetTop l'; b ← GetTop r'; m ← Average a b; mret (m, l', r')) = Fault Overflow ∨
    ∃ m1 l1 r1 L1 R1, (a ← GetTop l'; b ← GetTop r'; m ← Average a b; mret (m, l', r')) = Ok (m1, l1, r1) ∧
      sized l1 r1 L1 R1 ∧ length L1 + length R1 = S (length L + length R)) as Hbal.
  { intros l' r' L' R' Hs HneL HneR Hl'.
    destruct (balance_any l' r' L' R') as [?|[m1 ?]]; [apply Hs|apply Hs|done|done|by left|].
    right. exists m1, l', r', L', R'. auto. }
  assert (∀ ks : list Z, 0 < length ks → ks ≠ []) as Hne by (by intros [|x ks]; simpl; [lia|]).
  destruct (Nat.compare_spec (length L) (length R)) as [He|Hlt|Hgt]; simpl.
  - right. destruct (e <? m)%Z.
    + destruct (Hins l L e Greater _ Hlc Hl) as (l' & L' & -> & Hlc' & Hl' & HlL); [lia|]. simpl.
      rewrite (GetTop_Ok l' L') by (done || apply Hne; lia). simpl.
      eexists _, l', r, L', R. split; [done|]. split; [split; try done; lia|lia].
    + destruct (Hins r R e Smaller _ Hrc Hr) as (r' & R' & -> & Hrc' & Hr' & HlR); [lia|]. simpl.
      rewrite (GetTop_Ok r' R') by (done || apply Hne; lia). simpl.
      eexists _, l, r', L, R'. split; [done|]. split; [split; try done; lia|lia].
  - destruct (e <? m)%Z.
    + destruct (Hins l L e Greater _ Hlc Hl) as (l' & L' & -> & Hlc' & Hl' & HlL); [lia|]. simpl.
      apply (Hbal l' r L' R); [split; try done; lia|apply Hne; lia..|lia].
    + destruct (Hext r R Smaller _ Hrc Hr) as (r1 & R1 & -> & Hrc1 & Hr1 & HlR1); [apply Hne; lia|]. simpl.
      destruct (Hins l L (R !!! 0) Greater _ Hlc Hl) as (l' & L' & -> & Hlc' & Hl' & HlL); [lia|]. simpl.
      destruct (Hins r1 R1 e Smaller _ Hrc1 Hr1) as (r' & R' & -> & Hrc' & Hr' & HlR); [lia|]. simpl.
      apply (Hbal l' r' L' R'); [split; try done; lia|apply Hne; lia..|lia].
  - destruct (e <? m)%Z.
    + destruct (Hext l L Greater _ Hlc Hl) as (l1 & L1 & -> & Hlc1 & Hl1 & HlL1); [apply Hne; lia|]. simpl.
      destruct (Hins r R (L !!! 0) Smaller _ Hrc Hr) as (r' & R' & -> & Hrc' & Hr' & HlR); [lia|]. simpl.
      destruct (Hins l1 L1 e Greater _ Hlc1 Hl1) as (l' & L' & -> & Hlc' & Hl' & HlL); [lia|]. simpl.
      apply (Hbal l' r' L' R'); [split; try done; lia|apply Hne; lia..|lia].
    + destruct (Hins r R e Smaller _ Hrc Hr) as (r' & R' & -> & Hrc' & Hr' & HlR); [lia|]. simpl.
      apply (Hbal l r' L R'); [split; try done; lia|apply Hne; lia..|lia].
Qed.

(** ** The stream *)

Lemma halves_empty : halves MaxHeap MinHeap [] [].
Proof. split; [apply new_Heap_empty..|done|done|constructor|simpl; lia]. Qed.
Lemma tracked_empty m : tracked [] [] m.
Proof.
  assert (∀ x : Z, x ∉ []) as Hnil by apply not_elem_of_nil.
  split; [apply ordered_short; simpl; lia|apply ordered_short; simpl; lia|..].
  - intros x Hx. by apply Hnil in Hx.
  - intros x Hx. by apply Hnil in Hx.
  - simpl. congruence.
Qed.

Lemma median_loop_Ok es m l r L R :
  halves l r L R → Forall small es → length es + (length L + length R) ≤ 256 →
  ∃ out, median_loop m l r es = Ok out ∧ length out = length es.
Proof.
  revert m l r L R; induction es as [|e es IH]; intros m l r L R Hh Hs Hlen; simpl; [by exists []|].
  apply Forall_cons in Hs as [He Hs]. simpl in Hlen.
  destruct (getMedian_step e m l r L R Hh He) as (m' & l' & r' & L' & R' & Hr & Hh' & Hp & _); [lia|].
  apply Permutation_length in Hp. simpl in Hp. rewrite !length_app in Hp.
  destruct (IH m' l' r' L' R' Hh' Hs) as (out & Hr' & Hl); [lia|].
  exists (m' :: out). rewrite Hr. simpl. rewrite Hr'. simpl. auto.
Qed.
Lemma getMedian_full e m l r L R :
  sized l r L R → length L + length R = 256 → getMedian e m l r = Fault OutOfBounds.
Proof.
  intros [Hl Hr Hlc Hrc [HL HR]] Hlen. unfold getMedian.
  assert (length L = 128) as HL128 by lia. assert (length R = 128) as HR128 by lia.
  rewrite (GetCount_Ok l L), (GetCount_Ok r R), Signum_nat, HL128, HR128, Nat.compare_refl by done.
  simpl. unfold Insert. case_match.
  - by rewrite (insertHelper_full l L).
  - by rewrite (insertHelper_full r R).
Qed.
Lemma median_loop_full es m l r L R :
  halves l r L R → Forall small es → 256 < length es + (length L + length R) →
  length L + length R ≤ 256 → median_loop m l r es = Fault OutOfBounds.
Proof.
  revert m l r L R; induction es as [|e es IH]; intros m l r L R Hh Hs Hlen Hle; simpl in *; [lia|].
  apply Forall_cons in Hs as [He Hs].
  destruct (decide (length L + length R = 256)) as [H256|].
  { by rewrite (getMedian_full e m l r L R) by (by apply halves_sized || done). }
  destruct (getMedian_step e m l r L R Hh He) as (m' & l' & r' & L' & R' & Hr & Hh' & Hp & _); [lia|].
  apply Permutation_length in Hp. simpl in Hp. rewrite !length_app in Hp.
  rewrite Hr. simpl. by rewrite (IH m' l' r' L' R') by (done || lia).
Qed.

(** any numbers: a sum may overflow, which ends the run; nothing else happens *)
Lemma median_loop_any es m l r L R :
  sized l r L R → length L + length R ≤ 256 →
  median_loop m l r es = Fault Overflow ∨
  if decide (length es + (length L + length R) ≤ 256)
  then ∃ out, median_loop m l r es = Ok out ∧ length out = length es
  else median_loop m l r es = Fault OutOfBounds.
Proof.
  revert m l r L R; induction es as [|e es IH]; intros m l r L R Hh Hle; simpl.
  { right. rewrite decide_True by lia. by exists []. }
  destruct (decide (length L + length R = 256)) as [H256|].
  { right. rewrite decide_False by lia. by rewrite (getMedian_full e m l r L R). }
  destruct (getMedian_any e m l r L R Hh) as [->|(m' & l' & r' & L' & R' & -> & Hh' & Hl')]; [lia|by left|].
  simpl. destruct (IH m' l' r' L' R' Hh') as [->|Hr]; [lia|by left|]. right.
  repeat case_decide; try lia; [|by rewrite Hr].
  destruct Hr as (out & -> & Hlen). exists (m' :: out). split; [done|]. simpl. lia.
Qed.

(** the medians of the longer and longer beginnings of a stream *)
Definition medians seen es : list Z :=
  (λ n, median (seen ++ take n es)) <$> seq 1 (length es).
Lemma medians_cons seen e es :
  medians seen (e :: es) = median (seen ++ [e]) :: medians (seen ++ [e]) es.
Proof.
  unfold medians. cbn [length seq]. rewrite fmap_cons, <-(fmap_S_seq 1), <-list_fmap_compose. f_equal.
  apply list_fmap_ext. intros i n _. simpl. by rewrite <-(assoc_L (++)).
Qed.
Lemma median_Permutation ks ks' : ks ≡ₚ ks' → median ks = median ks'.
Proof.
  intros Hp. unfold median. assert (merge_sort Z.le ks = merge_sort Z.le ks') as ->; [|done].
  apply (StronglySorted_unique Z.le); [apply (StronglySorted_merge_sort Z.le)..|].
  by rewrite !(merge_sort_Permutation Z.le).
Qed.

Lemma median_loop_median es m l r L R seen :
  halves l r L R → tracked L R m → L ++ R ≡ₚ seen → Forall small es →
  length es + length seen ≤ 5 → median_loop m l r es = Ok (medians seen es).
Proof.
  revert m l r L R seen; induction es as [|e es IH]; intros m l r L R seen Hh Ht Hseen Hs Hlen; [done|].
  simpl in *. apply Forall_cons in Hs as [He Hs].
  pose proof (Permutation_length Hseen) as Hl. rewrite length_app in Hl.
  destruct (getMedian_step e m l r L R Hh He) as (m' & l' & r' & L' & R' & Hr & Hh' & Hp & Ht'); [lia|].
  specialize (Ht' Ht ltac:(lia)).
  assert (L' ++ R' ≡ₚ seen ++ [e]) as Hseen'.
  { by rewrite Hp, Hseen, Permutation_app_comm. }
  rewrite Hr. simpl. rewrite (IH m' l' r' L' R' (seen ++ [e])) by
    (try done; rewrite length_app; simpl; lia). simpl.
  rewrite medians_cons. do 2 f_equal. rewrite <-(median_Permutation _ _ Hseen').
  pose proof (hv_size _ _ _ _ Hh') as [? ?]. apply tracked_median; [done..|].
  intros Hnil. rewrite Hnil in Hp. by apply Permutation_nil_l in Hp.
Qed.
End stream.

(** ** Properties *)

(** [insertHelper] keeps the heap.  On an object that holds the elements
    [ks] in heap order and is not full, it returns true and leaves an object that
    holds the elements and the new key, in heap order for its comparator. *)
Theorem insertHelper_heap h ks key :
  HeapOrder (comp h) → is_heap h ks → ordered (comp h) ks → length ks < 128 →
  ∃ h' ks', insertHelper h key = Ok (true, h') ∧ is_heap h' ks' ∧ ks' ≡ₚ key :: ks ∧
            ordered (comp h') ks'.
Proof.
  intros HO Hh Ho Hlen. destruct (insertHelper_Ok h ks key HO Hh Hlen) as (h' & ks' & Hr & Hc & Hh' & Hp & Ho').
  exists h', ks'. rewrite Hc. auto.
Qed.

Lemma insertHelper_heap_witness :
  ∃ h' ks', insertHelper MaxHeap 7 = Ok (true, h') ∧ is_heap h' ks' ∧ ks' ≡ₚ [7%Z] ∧
            ordered (comp h') ks'.
Proof.
  apply (insertHelper_heap MaxHeap [] 7).
  - exact Greater_order.
  - apply new_Heap_empty.
  - apply ordered_short. simpl. lia.
  - simpl. lia.
Defined.

(** The medians that [printMedian] prints are right for every stream of at
    most five numbers (numbers whose sums do not overflow): the [n]-th line is
    the median of the first [n] numbers. *)
Theorem printMedian_correct es :
  Forall small es → length es ≤ 5 → printMedian es = Ok (medians [] es).
Proof.
  intros Hs Hlen. apply (median_loop_median _ _ _ _ [] []);
    [apply halves_empty|apply tracked_empty|done|done|simpl; lia].
Qed.

Lemma printMedian_correct_witness :
  printMedian [5; 15; 1; 3; 2]%Z = Ok [5; 10; 5; 4; 3]%Z.
Proof.
  apply (printMedian_correct [5; 15; 1; 3; 2]%Z).
  - by apply (bool_decide_unpack _).
  - simpl. lia.
Defined.

(** For six numbers the medians can be wrong: [deleteTop] puts the last
    element at the root and repairs the order upwards from the removed place
    only, so the heap order is lost as soon as two elements remain. *)
Theorem printMedian_wrong :
  printMedian [1; 2; 3; 4; 5; 6]%Z = Ok [1; 1; 2; 2; 3; 4]%Z ∧
  medians [] [1; 2; 3; 4; 5; 6]%Z = [1; 1; 2; 2; 3; 3]%Z ∧
  match (h ← Insert MinHeap 1; h ← Insert h 2; h ← Insert h 3; '(t, h) ← ExtractTop h; GetTop h) with
  | Ok x => x = 3%Z | _ => False end.
Proof. vm_compute. done. Qed.

(** C33: the capacity.  A stream of at most 256 numbers (128 for each heap) is
    processed without a fault, with one line for each number; a longer one
    writes behind the end of an array, since [insertHelper] compares the index
    of the last element with the capacity.  Both hold unless the mean of two
    numbers overflows an int before; that cannot happen when all numbers are in
    [-2^30, 2^30), and does for two numbers 2000000000 ([Average_overflow]). *)
Theorem printMedian_capacity es :
  (¬ Forall small es ∧ printMedian es = Fault Overflow) ∨
  if decide (length es ≤ 256) then ∃ out, printMedian es = Ok out ∧ length out = length es
  else printMedian es = Fault OutOfBounds.
Proof.
  destruct (decide (Forall small es)) as [Hs|Hs].
  - right. case_decide as Hlen.
    + apply (median_loop_Ok _ _ _ _ [] []); [apply halves_empty|done|simpl; lia].
    + apply (median_loop_full _ _ _ _ [] []); [apply halves_empty|done|simpl; lia..].
  - destruct (median_loop_any es 0 MaxHeap MinHeap [] []) as [Hr|Hr];
      [apply halves_sized, halves_empty|simpl; lia|by left|right].
    simpl in Hr. by rewrite Nat.add_0_r in Hr.
Qed.

Lemma printMedian_capacity_witness :
  printMedian (replicate 257 0%Z) = Fault OutOfBounds.
Proof.
  destruct (printMedian_capacity (replicate 257 0%Z)) as [[Hs _]|H]; [|exact H].
  exfalso. apply Hs, Forall_replicate. unfold small. lia.
Defined.

(** the sum of two [int]s can overflow *)
Example Average_overflow : printMedian [2000000000; 2000000000]%Z = Fault Overflow.
Proof. vm_compute. reflexivity. Qed.
Example median_output : main = Ok [4; 5]%Z.
Proof. reflexivity. Qed.
