(* ===== verification/BinomialHeap.v ===== *)
(** The binomial heap of BinomialHeap.cpp: the functions of its class and its
    menu as programs on a heap of nodes.

    The members [H] and [Hr] of the class are results of the functions that
    assign them ([count] is never used).  [Create_node] sets the key of a node
    and nothing else: the fields of a node are options, and reading one that
    was never set is a fault.  Recursions and loops have a bound; the theorems
    give bounds that are enough. *)

From iris.proofmode Require Import proofmode.
From S2P Require Import Prelude Heap.

Record node := mk_node {
  n_key : option Z;           (* the member n *)
  n_degree : option Z;
  n_parent : option ptr;
  n_child : option ptr;
  n_sibling : option ptr;
}.

Definition put_key (k : Z) (v : node) : node :=
  mk_node (Some k) (n_degree v) (n_parent v) (n_child v) (n_sibling v).
Definition put_degree (d : Z) (v : node) : node :=
  mk_node (n_key v) (Some d) (n_parent v) (n_child v) (n_sibling v).
Definition put_parent (p : ptr) (v : node) : node :=
  mk_node (n_key v) (n_degree v) (Some p) (n_child v) (n_sibling v).
Definition put_child (p : ptr) (v : node) : node :=
  mk_node (n_key v) (n_degree v) (n_parent v) (Some p) (n_sibling v).
Definition put_sibling (p : ptr) (v : node) : node :=
  mk_node (n_key v) (n_degree v) (n_parent v) (n_child v) (Some p).

(** what the functions write to the console *)
Inductive message :=
  | HeapIsEmpty                      (* Display of an empty heap *)
  | RootNodes (ks : list Z)          (* "The root nodes are: ..." *)
  | NothingToExtract
  | InvalidChoiceOfKey
  | NewKeyIsGreater
  | KeyReduced
  | HeapEmptyOnDelete
  | NodeDeleted
  | MinimumKey (k : Z)               (* "The node with minimum key: ..." *)
  | HeapIsEmptyOnExtract
  | WrongChoice.

Section binomial.
Implicit Types (H Hr x y z p : ptr) (k : Z) (fuel : nat).
Abbreviation prog := (prog node).

Definition get_key p : prog Z := v ← load p; lift (of_option Uninitialised (n_key v)).
Definition get_degree p : prog Z := v ← load p; lift (of_option Uninitialised (n_degree v)).
Definition get_parent p : prog ptr := v ← load p; lift (of_option Uninitialised (n_parent v)).
Definition get_child p : prog ptr := v ← load p; lift (of_option Uninitialised (n_child v)).
Definition get_sibling p : prog ptr := v ← load p; lift (of_option Uninitialised (n_sibling v)).
Definition set_key p k : prog unit := modify p (put_key k).
Definition set_degree p (d : Z) : prog unit := modify p (put_degree d).
Definition set_parent p q : prog unit := modify p (put_parent q).
Definition set_child p q : prog unit := modify p (put_child q).
Definition set_sibling p q : prog unit := modify p (put_sibling q).

Definition Initializeheap : ptr := None.

Definition Binomial_link y z : prog unit :=
  _ ← set_parent y z;
  c ← get_child z; _ ← set_sibling y c;
  _ ← set_child z y;
  d ← get_degree z; set_degree z (d + 1).

Definition Create_node k : prog ptr :=
  p ← new (mk_node None None None None None);
  _ ← set_key p k; mret p.

(** the loop of [Merge] *)
Fixpoint Merge_loop fuel y z : prog unit :=
  match y, z with
  | Some _, Some _ =>
      match fuel with
      | O => out_of_fuel
      | S fuel =>
          dy ← get_degree y; dz ← get_degree z;
          if (dy <? dz)%Z then y ← get_sibling y; Merge_loop fuel y z
          else
            dy ← get_degree y; dz ← get_degree z;
            if (dy =? dz)%Z then
              a ← get_sibling y; _ ← set_sibling y z; Merge_loop fuel a z
            else
              b ← get_sibling z; _ ← set_sibling z y; Merge_loop fuel y b
      end
  | _, _ => mret tt
  end.

(** the choice of the first root in [Merge] *)
Definition Merge_start y z : prog ptr :=
  match y with
  | Some _ =>
      match z with
      | Some _ =>
          dy ← get_degree y; dz ← get_degree z;
          if (dy <=? dz)%Z then mret y
          else
            dy ← get_degree y; dz ← get_degree z;
            mret (if (dy >? dz)%Z then z else Initializeheap)
      | None => mret y
      end
  | None => mret z
  end.

Definition Merge fuel (H1 H2 : ptr) : prog ptr :=
  let y := H1 in let z := H2 in
  H ← Merge_start y z;
  _ ← Merge_loop fuel y z;
  mret H.

(** the condition to move on in the loop of [Union] *)
Definition moves_on x (next_x : ptr) : prog bool :=
  dx ← get_degree x; dn ← get_degree next_x;
  mret (negb (dx =? dn)%Z) |||
  (s ← get_sibling next_x;
   mret (negb (s =p? None)) &&&
   (s ← get_sibling next_x; ds ← get_degree s; dx ← get_degree x; mret (ds =? dx)%Z)).

(** the loop of [Union]; the result is [H] *)
Fixpoint Union_loop fuel H (prev_x x next_x : ptr) : prog ptr :=
  match next_x with
  | None => mret H
  | Some _ =>
      match fuel with
      | O => out_of_fuel
      | S fuel =>
          skip ← moves_on x next_x;
          '(H, prev_x, x) ←
            (if skip : bool then mret (H, x, next_x)
             else
               kx ← get_key x; kn ← get_key next_x;
               if (kx <=? kn)%Z then
                 s ← get_sibling next_x; _ ← set_sibling x s;
                 _ ← Binomial_link next_x x;
                 mret (H, prev_x, x)
               else
                 H ← match prev_x with
                     | None => mret next_x
                     | Some _ => _ ← set_sibling prev_x next_x; mret H
                     end;
                 _ ← Binomial_link x next_x;
                 mret (H, prev_x, next_x));
          next_x ← get_sibling x;
          Union_loop fuel H prev_x x next_x
      end
  end.

Definition Union fuel (H1 H2 : ptr) : prog ptr :=
  H ← Merge fuel H1 H2;
  match H with
  | None => mret H
  | Some _ =>
      let x := H in
      next_x ← get_sibling x;
      Union_loop fuel H None x next_x
  end.

Definition Insert fuel H x : prog ptr :=
  _ ← set_parent x None; _ ← set_child x None;
  _ ← set_sibling x None; _ ← set_degree x 0;
  let H1 := x in
  H ← Union fuel H H1; mret H.

(** the keys that [Display] writes *)
Fixpoint Display_loop fuel p : prog (list Z) :=
  match p with
  | None => mret []
  | Some _ =>
      match fuel with
      | O => out_of_fuel
      | S fuel =>
          k ← get_key p; s ← get_sibling p; ks ← Display_loop fuel s; mret (k :: ks)
      end
  end.
Definition Display fuel H : prog message :=
  match H with
  | None => mret HeapIsEmpty
  | Some _ => ks ← Display_loop fuel H; mret (RootNodes ks)
  end.

(** [Revert_list]; the result is the member [Hr] that it sets *)
Fixpoint Revert_list fuel y : prog ptr :=
  match fuel with
  | O => out_of_fuel
  | S fuel =>
      s ← get_sibling y;
      match s with
      | Some _ =>
          s ← get_sibling y; Hr ← Revert_list fuel s;
          s ← get_sibling y; _ ← set_sibling s y;
          mret Hr
      | None => mret y
      end
  end.

(** the scan of the roots in [Extract_Min]; the results are [t] and [x] *)
Fixpoint min_loop fuel (min : Z) (t x p : ptr) : prog (ptr * ptr) :=
  match fuel with
  | O => out_of_fuel
  | S fuel =>
      s ← get_sibling p;
      match s with
      | None => mret (t, x)
      | Some _ =>
          s ← get_sibling p; k ← get_key s;
          '(min, t, x) ←
            (if (k <? min)%Z then
               s ← get_sibling p; min ← get_key s;
               x ← get_sibling p; mret (min, p, x)
             else mret (min, t, x));
          p ← get_sibling p;
          min_loop fuel min t x p
      end
  end.

(** [Extract_Min] takes the root [x] with the predecessor [t] out of the list
    [H1]; the result is the new [H1] *)
Definition unlink (t x H1 : ptr) : prog ptr :=
  last ← mret (t =p? None) &&& (s ← get_sibling x; mret (s =p? None));
  if last : bool then mret None
  else
    match t with
    | None => get_sibling x
    | Some _ =>
        s ← get_sibling t;
        match s with
        | None => mret H1                (* t = NULL *)
        | Some _ => s ← get_sibling x; _ ← set_sibling t s; mret H1
        end
    end.
(** ... and reverses its children; the result is the member [Hr] *)
Definition revert_kids fuel x : prog ptr :=
  c ← get_child x;
  match c with
  | None => mret None
  | Some _ =>
      c ← get_child x; Hr ← Revert_list fuel c;
      c ← get_child x; _ ← set_sibling c None;
      mret Hr
  end.

(** [Extract_Min]: the result, what is printed, and the members [H] and [Hr];
    [mH] is the old value of the member [H] *)
Definition Extract_Min fuel (mH H1 : ptr) : prog (ptr * list message * (ptr * ptr)) :=
  match H1 with
  | None => mret (None, [NothingToExtract], (mH, None))
  | Some _ =>
      min ← get_key H1;
      '(t, x) ← min_loop fuel min None H1 H1;
      H1 ← unlink t x H1;
      Hr ← revert_kids fuel x;
      H ← Union fuel H1 Hr;
      mret (x, [], (H, Hr))
  end.

Fixpoint Search fuel H k : prog ptr :=
  match fuel with
  | O => out_of_fuel
  | S fuel =>
      let x := H in
      kx ← get_key x;
      if (kx =? k)%Z then mret x
      else
        c ← get_child x;
        p ← match c with
            | Some _ => c ← get_child x; Search fuel c k
            | None => mret None
            end;
        s ← get_sibling x;
        match s, p with
        | Some _, None => s ← get_sibling x; Search fuel s k
        | _, _ => mret p
        end
  end.

(** the loop of [Decrease_key], which moves the key up *)
Fixpoint bubble fuel y z : prog unit :=
  match fuel with
  | O => out_of_fuel
  | S fuel =>
      up ← mret (negb (z =p? None)) &&&
           (ky ← get_key y; kz ← get_key z; mret (ky <? kz)%Z);
      if up : bool then
        temp ← get_key y; kz ← get_key z; _ ← set_key y kz; _ ← set_key z temp;
        let y := z in
        z ← get_parent z;
        bubble fuel y z
      else mret tt
  end.

Definition Decrease_key fuel H (i k : Z) : prog message :=
  p ← Search fuel H i;
  match p with
  | None => mret InvalidChoiceOfKey
  | Some _ =>
      kp ← get_key p;
      if (k >? kp)%Z then mret NewKeyIsGreater
      else
        _ ← set_key p k;
        let y := p in
        z ← get_parent p;
        _ ← bubble fuel y z;
        mret KeyReduced
  end.

(** [Delete]: what is printed, and the members [H] and [Hr] *)
Definition Delete fuel (mH mHr : ptr) H k : prog (list message * (ptr * ptr)) :=
  match H with
  | None => mret ([HeapEmptyOnDelete], (mH, mHr))
  | Some _ =>
      out ← Decrease_key fuel H k (-1000);
      '(np, out', m) ← Extract_Min fuel mH H;
      mret (out :: out' ++ match np with Some _ => [NodeDeleted] | None => [] end, m)
  end.

(** ** The menu *)

(** one round of [main]'s loop: the numbers read for the round are
    [choice] and [args] *)
Inductive choice :=
  | ChInsert (m : Z) | ChExtract | ChDecrease (m l : Z) | ChDelete (m : Z) | ChDisplay | ChOther.

(** the state of [main]: its variable [H], and the members of [bh] *)
Record state := mk_state { main_H : ptr; bh_H : ptr; bh_Hr : ptr }.

Definition menu fuel (st : state) (c : choice) : prog (list message * state) :=
  let H := main_H st in
  match c with
  | ChInsert m =>
      p ← Create_node m;
      H ← Insert fuel H p;
      mret ([], mk_state H (bh_H st) (bh_Hr st))
  | ChExtract =>
      '(p, out, (mH, mHr)) ← Extract_Min fuel (bh_H st) H;
      out' ← match p with
             | Some _ => k ← get_key p; mret [MinimumKey k]
             | None => mret [HeapIsEmptyOnExtract]
             end;
      mret (out ++ out', mk_state H mH mHr)
  | ChDecrease m l =>
      out ← Decrease_key fuel H m l;
      mret ([out], st)
  | ChDelete m =>
      '(out, (mH, mHr)) ← Delete fuel (bh_H st) (bh_Hr st) H m;
      mret (out, mk_state H mH mHr)
  | ChDisplay => out ← Display fuel H; mret ([out], st)
  | ChOther => mret ([WrongChoice], st)
  end.

(** the rounds up to the choice [6)Exit] *)
Fixpoint menu_loop fuel (st : state) (cs : list choice) : prog (list message) :=
  match cs with
  | [] => mret []
  | c :: cs =>
      '(out, st) ← menu fuel st c;
      out' ← menu_loop fuel st cs;
      mret (out ++ out')
  end.
Definition main fuel (cs : list choice) : prog (list message) :=
  menu_loop fuel (mk_state Initializeheap Initializeheap Initializeheap) cs.

(** consecutive insertions, as [main] makes them *)
Fixpoint insert_all fuel H (ks : list Z) : prog ptr :=
  match ks with
  | [] => mret H
  | k :: ks => p ← Create_node k; H ← Insert fuel H p; insert_all fuel H ks
  end.
End binomial.
