(* ===== verification/BinomialSpec.v ===== *)
(** Binomial heaps as values: what the functions of BinomialHeap.cpp do to the
    trees that a heap of nodes represents.

    A [tree] records the address of each node; a heap is the list of its root
    trees.  [merges] describes the runs of [Merge] that lose nothing: it tracks
    which of the two lists the node linked last points to. *)

From stdpp Require Import sorting.
From S2P Require Import Prelude Heap BinomialHeap.

#[warnings="-register-all"]
Inductive tree := B (n : loc) (k : Z) (cs : list tree).

Definition root (t : tree) : loc := match t with B n _ _ => n end.
Definition key (t : tree) : Z := match t with B _ k _ => k end.
Definition kids (t : tree) : list tree := match t with B _ _ cs => cs end.
Definition degree (t : tree) : nat := length (kids t).

Implicit Types (t x y z : tree) (ts ys zs cs out : list tree) (k : Z).

Lemma tree_ind' (P : tree → Prop) :
  (∀ n k cs, Forall P cs → P (B n k cs)) → ∀ t, P t.
Proof.
  intros HB. fix IH 1. intros [n k cs]. apply HB. induction cs as [|c cs IHcs]; constructor; auto.
Qed.

(** the keys of a tree and of a list of trees *)
Fixpoint elems t : list Z := match t with B _ k cs => k :: mjoin (elems <$> cs) end.
Definition all_elems ts : list Z := mjoin (elems <$> ts).

(** binomial trees: the children of a node have the degrees [d-1 .. 0] and keys
    that are not smaller *)
#[warnings="-register-all"]
Inductive binomial : tree → Prop :=
  | binomial_B n k cs :
      degree <$> cs = reverse (seq 0 (length cs)) → Forall (λ c, k ≤ key c)%Z cs →
      Forall binomial cs → binomial (B n k cs).
(** a heap: binomial trees of strictly increasing degrees *)
Definition heap ts : Prop := Forall binomial ts ∧ StronglySorted lt (degree <$> ts).

(** ** Union *)

(** [y] becomes the first child of [z] *)
Definition link y z : tree := B (root z) (key z) (y :: kids z).

(** the condition to move on in the loop of [Union] *)
Definition skips x (nx : tree) (rest : list tree) : bool :=
  negb (degree x =? degree nx) || match rest with z :: _ => degree z =? degree x | [] => false end.
(** the loop of [Union] at the root [x] *)
Fixpoint consolidate x (rest : list tree) : list tree :=
  match rest with
  | [] => [x]
  | nx :: rest =>
      if skips x nx rest then x :: consolidate nx rest
      else if (key x <=? key nx)%Z then consolidate (link nx x) rest
      else consolidate (link x nx) rest
  end.
Definition union_of ts : list tree :=
  match ts with [] => [] | x :: rest => consolidate x rest end.

(** ** Merge *)

(** where the last linked node points: nowhere yet, to the head of the first
    list or to the head of the second one *)
Inductive link_state := Start | ToY | ToZ.

Inductive merges : link_state → list tree → list tree → list tree → Prop :=
  | merges_no_y s zs : s ≠ ToY → merges s [] zs zs
  | merges_no_z s ys : s ≠ ToZ → merges s ys [] ys
  | merges_less s y y' ys z zs out :
      s ≠ ToZ → degree y < degree z →
      merges ToY (y' :: ys) (z :: zs) out → merges s (y :: y' :: ys) (z :: zs) (y :: out)
  | merges_equal s y ys z zs out :
      s ≠ ToZ → degree y = degree z →
      merges ToZ ys (z :: zs) out → merges s (y :: ys) (z :: zs) (y :: out)
  | merges_greater s y ys z zs out :
      s ≠ ToY → degree z < degree y →
      merges ToY (y :: ys) zs out → merges s (y :: ys) (z :: zs) (z :: out).

Lemma merges_Permutation s ys zs out : merges s ys zs out → out ≡ₚ ys ++ zs.
Proof.
  induction 1 as [|s ys ?|s y y' ys z zs out ?? _ IH|s y ys z zs out ?? _ IH|s y ys z zs out ?? _ IH].
  - done.
  - by rewrite app_nil_r.
  - by rewrite IH.
  - by rewrite IH.
  - by rewrite IH -Permutation_middle.
Qed.

(** the next node is the one that the last node points to *)
Lemma merges_head s ys zs out :
  merges s ys zs out →
  match s with Start => True | ToY => head out = head ys | ToZ => head out = head zs end.
Proof. intros Hm. destruct Hm, s; try done; congruence. Qed.

Definition deg_le x y : Prop := degree x ≤ degree y.

Lemma degrees_sorted_cons y ys :
  StronglySorted lt (degree <$> y :: ys) →
  StronglySorted lt (degree <$> ys) ∧ Forall (λ x, degree y < degree x) ys.
Proof. rewrite fmap_cons. intros [Hs Hy]%StronglySorted_inv. by rewrite Forall_fmap in Hy. Qed.

Lemma merges_sorted s ys zs out :
  merges s ys zs out → StronglySorted lt (degree <$> ys) → StronglySorted lt (degree <$> zs) →
  StronglySorted deg_le out.
Proof.
  assert (∀ ys, StronglySorted lt (degree <$> ys) → StronglySorted deg_le ys) as Hle.
  { clear. intros ys. induction ys as [|y ys IH]; [constructor|].
    intros [Hs Hy]%degrees_sorted_cons. constructor; [by apply IH|].
    eapply Forall_impl; [done|]. unfold deg_le. simpl; lia. }
  induction 1 as [|s ys ?|s y y' ys z zs out ?? Hm IH|s y ys z zs out ?? Hm IH|s y ys z zs out ?? Hm IH];
    intros Hy Hz; [by auto..| | |]; apply degrees_sorted_cons in Hy as [Hy Hyy];
    pose proof Hz as [Hz' Hzz]%degrees_sorted_cons.
  all: constructor; [|apply merges_Permutation in Hm; rewrite Hm; apply Forall_app; unfold deg_le; split].
  - by apply IH.
  - eapply Forall_impl; [done|]. simpl; lia.
  - constructor; [lia|]. eapply Forall_impl; [done|]. simpl; lia.
  - by apply IH.
  - eapply Forall_impl; [done|]. simpl; lia.
  - constructor; [lia|]. eapply Forall_impl; [done|]. simpl; lia.
  - apply IH; [|done]. by constructor; [|apply Forall_fmap].
  - constructor; [lia|]. eapply Forall_impl; [done|]. simpl; lia.
  - eapply Forall_impl; [done|]. simpl; lia.
Qed.

(** ** The loop of Union *)

Lemma degree_link y z : degree (link y z) = S (degree z).
Proof. done. Qed.
Lemma binomial_link y z :
  binomial y → binomial z → degree y = degree z → (key z ≤ key y)%Z → binomial (link y z).
Proof.
  intros Hy Hz Hd Hk. destruct z as [n k cs]. inversion Hz as [? ? ? Hcs Hks Hbs]; subst.
  unfold link; simpl in *. constructor; [|by constructor..].
  rewrite fmap_cons Hcs Hd length_cons seq_S reverse_app. done.
Qed.
Lemma elems_link y z : elems (link y z) ≡ₚ elems z ++ elems y.
Proof. destruct z as [n k cs]. simpl. constructor. apply Permutation_app_comm. Qed.

Lemma consolidate_elems x rest : all_elems (consolidate x rest) ≡ₚ elems x ++ all_elems rest.
Proof.
  revert x; induction rest as [|nx rest IH]; intros x; [done|]. simpl.
  assert (all_elems (nx :: rest) = elems nx ++ all_elems rest) as -> by done.
  case_match; [change (elems x ++ all_elems (consolidate nx rest) ≡ₚ elems x ++ elems nx ++ all_elems rest); by rewrite IH|].
  case_match; rewrite IH elems_link; [by rewrite assoc_L|].
  rewrite (Permutation_app_comm (elems nx)) assoc_L //.
Qed.
Lemma consolidate_binomial x rest :
  binomial x → Forall binomial rest → Forall binomial (consolidate x rest).
Proof.
  intros Hx Hr. revert x Hx; induction Hr as [|nx rest Hnx Hr IH]; intros x Hx; simpl; [by constructor|].
  destruct (skips x nx rest) eqn:Hs; [by constructor; [|apply IH]|].
  apply orb_false_iff in Hs as [Hs _]. apply negb_false_iff, Nat.eqb_eq in Hs.
  case_match; apply IH, binomial_link; try done; lia.
Qed.

(** every degree occurs at most twice *)
Definition twice ts : Prop :=
  StronglySorted deg_le ts ∧ ∀ d, length (filter (λ t, degree t = d) ts) ≤ 2.

Lemma twice_cons t ts : twice (t :: ts) → twice ts ∧ Forall (deg_le t) ts.
Proof.
  intros [[Hs Ht]%StronglySorted_inv Hc]. split; [|done]. split; [done|]. intros d.
  specialize (Hc d). rewrite filter_cons in Hc. case_decide; simpl in *; lia.
Qed.
(** of three trees with the same degree not all are in such a list *)
Lemma twice_three t t' ts :
  twice (t :: t' :: ts) → degree t = degree t' → Forall (λ x, degree t < degree x) ts.
Proof.
  intros Ht Hd. pose proof Ht as [Ht' _]%twice_cons. apply twice_cons in Ht' as [Ht' Hle].
  destruct Ht as [_ Hc]. specialize (Hc (degree t)).
  rewrite !filter_cons !decide_True // /= in Hc. apply Forall_forall. intros x Hx.
  eapply Forall_forall in Hle; [|done]. unfold deg_le in Hle.
  destruct (decide (degree x = degree t)) as [He|]; [|lia].
  assert (x ∈ filter (λ y, degree y = degree t) ts) as Hin by by apply list_elem_of_filter.
  destruct (filter _ ts); [by apply elem_of_nil in Hin|simpl in Hc; lia].
Qed.

Lemma consolidate_sorted x rest :
  twice rest → Forall (deg_le x) rest →
  StronglySorted lt (degree <$> consolidate x rest) ∧
  Forall (deg_le x) (consolidate x rest).
Proof.
  remember (length rest) as m eqn:Hm. revert x rest Hm.
  induction m as [m IH] using lt_wf_ind; intros x rest -> Ht Hx.
  destruct rest as [|nx rest]; simpl; [by repeat constructor; unfold deg_le|].
  pose proof Ht as [Ht' Hnx]%twice_cons. apply Forall_cons in Hx as [Hxn Hx].
  assert (∀ nx', degree nx' = degree nx → ∀ l, consolidate nx' rest = l → degree x < degree nx →
    StronglySorted lt (degree <$> x :: l) ∧ Forall (deg_le x) (x :: l)) as Hmove.
  { intros nx' Hd l <- Hlt. destruct (IH (length rest) ltac:(simpl; lia) nx' rest) as [Hs Hle]; [done|done| |].
    { eapply Forall_impl; [exact Hnx|]. unfold deg_le. rewrite Hd. done. }
    split; constructor; [done| |unfold deg_le; lia|].
    - apply Forall_fmap. eapply Forall_impl; [exact Hle|]. unfold deg_le. simpl; lia.
    - eapply Forall_impl; [exact Hle|]. unfold deg_le. simpl; lia. }
  destruct (skips x nx rest) eqn:Hs.
  - destruct (decide (degree x = degree nx)) as [Hd|Hd].
    + (* three equal degrees: the next step joins the other two *)
      unfold skips in Hs. rewrite Hd Nat.eqb_refl /= in Hs.
      destruct rest as [|z rest]; [done|]. apply Nat.eqb_eq in Hs.
      pose proof (twice_three nx z rest Ht (eq_sym Hs)) as Hlt.
      assert (skips nx z rest = false) as Hskip.
      { unfold skips. rewrite Hs Nat.eqb_refl /=. destruct rest as [|w rest]; [done|].
        apply Forall_cons in Hlt as [Hw _]. apply Nat.eqb_neq. lia. }
      apply twice_cons in Ht' as [Ht'' _].
      assert (∀ u v, degree v = degree nx →
        StronglySorted lt (degree <$> x :: consolidate (link u v) rest) ∧
        Forall (deg_le x) (x :: consolidate (link u v) rest)) as Hlink.
      { intros u v Hv. destruct (IH (length rest) ltac:(simpl; lia) (link u v) rest) as [Hs' Hle];
          [done|done| |].
        { eapply Forall_impl; [exact Hlt|]. unfold deg_le. rewrite degree_link Hv. simpl. lia. }
        split; constructor; [done| |unfold deg_le; lia|].
        - apply Forall_fmap. eapply Forall_impl; [exact Hle|].
          unfold deg_le. rewrite degree_link Hv Hd. simpl. lia.
        - eapply Forall_impl; [exact Hle|]. unfold deg_le. rewrite degree_link Hv Hd. lia. }
      simpl. rewrite Hskip. case_match; apply Hlink; congruence.
    + apply (Hmove nx); [done..|]. unfold deg_le in Hxn. lia.
  - apply orb_false_iff in Hs as [Hd Hz]. apply negb_false_iff, Nat.eqb_eq in Hd.
    assert (∀ u v, degree v = degree x →
      StronglySorted lt (degree <$> consolidate (link u v) rest) ∧
      Forall (deg_le x) (consolidate (link u v) rest)) as Hlink.
    { intros u v Hv. destruct (IH (length rest) ltac:(simpl; lia) (link u v) rest) as [Hs' Hle];
        [done|done| |].
      - destruct rest as [|z rest]; [done|]. apply Nat.eqb_neq in Hz.
        apply twice_cons in Ht' as [_ Hzr]. apply Forall_cons in Hnx as [Hnz _].
        unfold deg_le in *. constructor; [rewrite degree_link; lia|].
        eapply Forall_impl; [exact Hzr|]. intros w Hw. simpl in Hw. rewrite degree_link. lia.
      - split; [done|]. eapply Forall_impl; [exact Hle|].
        unfold deg_le. rewrite degree_link Hv. simpl. lia. }
    destruct (key x <=? key nx)%Z; apply Hlink; congruence.
Qed.

(** ** Heaps *)

Lemma all_elems_app ts ts' : all_elems (ts ++ ts') = all_elems ts ++ all_elems ts'.
Proof. unfold all_elems. induction ts as [|t ts IH]; [done|]. by rewrite /= IH -assoc_L. Qed.
Lemma all_elems_cons t ts : all_elems (t :: ts) = elems t ++ all_elems ts.
Proof. done. Qed.
Lemma all_elems_Permutation ts ts' : ts ≡ₚ ts' → all_elems ts ≡ₚ all_elems ts'.
Proof.
  induction 1 as [|t ts ts' _ IH|t t' ts|? ? ? _ IH1 _ IH2]; rewrite ?all_elems_cons.
  - done.
  - by rewrite IH.
  - rewrite !assoc_L (Permutation_app_comm (elems t)) //.
  - by rewrite IH1.
Qed.

Lemma filter_degree_once ts d :
  StronglySorted lt (degree <$> ts) → length (filter (λ t, degree t = d) ts) ≤ 1.
Proof.
  induction ts as [|t ts IH]; [simpl; lia|]. intros [Hs Ht]%degrees_sorted_cons.
  rewrite filter_cons. case_decide as Hd; [|by apply IH]. simpl.
  destruct (filter (λ x, degree x = d) ts) as [|u us] eqn:Hf; [simpl; lia|].
  assert (u ∈ filter (λ x, degree x = d) ts) as [Hu Hin]%list_elem_of_filter by (rewrite Hf; by left).
  eapply Forall_forall in Ht; [|done]. simpl in Ht. lia.
Qed.

Lemma merges_twice ys zs out :
  merges Start ys zs out → StronglySorted lt (degree <$> ys) → StronglySorted lt (degree <$> zs) →
  twice out.
Proof.
  intros Hm Hy Hz. split; [by eapply merges_sorted|]. intros d.
  rewrite (filter_Permutation _ _ _ (merges_Permutation _ _ _ _ Hm)) filter_app length_app.
  pose proof (filter_degree_once ys d Hy). pose proof (filter_degree_once zs d Hz). lia.
Qed.

(** [Union] of two heaps that [Merge] does not break *)
Lemma heap_union ys zs out :
  heap ys → heap zs → merges Start ys zs out →
  heap (union_of out) ∧ all_elems (union_of out) ≡ₚ all_elems ys ++ all_elems zs.
Proof.
  intros [Hby Hsy] [Hbz Hsz] Hm. pose proof (merges_twice _ _ _ Hm Hsy Hsz) as Ht.
  pose proof (merges_Permutation _ _ _ _ Hm) as Hp. rewrite -all_elems_app.
  assert (Forall binomial out) as Hb by (rewrite Hp; by apply Forall_app).
  rewrite -(all_elems_Permutation _ _ Hp). destruct out as [|x rest]; [by repeat constructor|].
  apply twice_cons in Ht as [Ht Hx]. apply Forall_cons in Hb as [Hbx Hb]. simpl. split.
  - split; [by apply consolidate_binomial|]. by apply consolidate_sorted.
  - apply consolidate_elems.
Qed.

(** one new root of degree 0: what [Insert] merges *)
Lemma merges_single ys z :
  StronglySorted lt (degree <$> ys) → degree z = 0 → ∃ out, merges Start ys [z] out.
Proof.
  intros Hy Hz. destruct ys as [|y ys]; [eexists; by constructor|].
  apply degrees_sorted_cons in Hy as [Hy Hyy]. destruct (decide (degree y = 0)) as [Hd|Hd].
  - destruct ys as [|y' ys].
    + eexists. apply merges_equal; [done|congruence|by constructor].
    + apply Forall_cons in Hyy as [Hy' _].
      eexists. apply merges_equal; [done|congruence|]. apply merges_greater; [done|lia|by constructor].
  - eexists. apply merges_greater; [done|lia|by constructor].
Qed.

(** the smallest key of a tree is at its root *)
Lemma binomial_min t k : binomial t → k ∈ elems t → (key t ≤ k)%Z.
Proof.
  revert k; induction t as [n k0 cs IH] using tree_ind'; intros k Hb Hk.
  inversion Hb as [? ? ? _ Hks Hbs]; subst. simpl in *. apply elem_of_cons in Hk as [->|Hk]; [lia|].
  apply list_elem_of_join in Hk as (es & Hk & Hes). apply list_elem_of_fmap in Hes as (c & -> & Hc).
  eapply Forall_forall in IH; [|done]. eapply Forall_forall in Hks; [|done].
  eapply Forall_forall in Hbs; [|done]. specialize (IH _ Hbs Hk). lia.
Qed.
Lemma heap_min ts k0 k :
  heap ts → Forall (λ t, k0 ≤ key t)%Z ts → k ∈ all_elems ts → (k0 ≤ k)%Z.
Proof.
  intros [Hb _] Hk0 Hk. apply list_elem_of_join in Hk as (es & Hk & Hes).
  apply list_elem_of_fmap in Hes as (c & -> & Hc).
  eapply Forall_forall in Hk0; [|done]. eapply Forall_forall in Hb; [|done].
  pose proof (binomial_min c k Hb Hk). simpl in *. lia.
Qed.

(** a tree of degree [d] has [2 ^ d] nodes *)
Lemma length_kids cs d :
  Forall (λ c, length (elems c) = 2 ^ degree c) cs → degree <$> cs = reverse (seq 0 d) →
  S (length (all_elems cs)) = 2 ^ d.
Proof.
  revert cs; induction d as [|d IH]; intros cs Hl Hd.
  - by apply fmap_nil_inv in Hd as ->.
  - rewrite seq_S reverse_snoc in Hd. destruct cs as [|c cs]; [done|].
    injection Hd as Hc Hcs. apply Forall_cons in Hl as [Hlc Hl].
    rewrite all_elems_cons length_app Hlc Hc. specialize (IH cs Hl Hcs). simpl. lia.
Qed.
Lemma length_elems t : binomial t → length (elems t) = 2 ^ degree t.
Proof.
  induction t as [n k cs IH] using tree_ind'; intros Hb.
  inversion Hb as [? ? ? Hd _ Hbs]; subst. simpl. apply (length_kids cs (length cs)); [|done].
  clear -IH Hbs. induction IH as [|c cs Hc _ IH]; [constructor|].
  apply Forall_cons in Hbs as [Hb Hbs]. constructor; auto.
Qed.
Lemma length_root_lt ts t : Forall binomial ts → t ∈ ts → 2 ^ degree t ≤ length (all_elems ts).
Proof.
  intros Hb Ht. apply list_elem_of_split in Ht as (ts1 & ts2 & ->).
  apply Forall_app in Hb as [_ [Hb _]%Forall_cons].
  rewrite all_elems_app all_elems_cons !length_app (length_elems t Hb). lia.
Qed.

(** the children of an extracted root *)
Lemma heap_kids t : binomial t → heap (reverse (kids t)) ∧ degree <$> reverse (kids t) = seq 0 (degree t).
Proof.
  destruct t as [n k cs]. inversion 1 as [? ? ? Hd _ Hbs]; subst. unfold degree. simpl in *.
  assert (degree <$> reverse cs = seq 0 (length cs)) as Hr.
  { rewrite fmap_reverse Hd reverse_involutive //. }
  split; [|done]. split.
  - by apply Forall_reverse.
  - rewrite Hr. generalize 0 (length cs). intros i m. revert i. induction m as [|m IH]; intros i; [constructor|].
    simpl. constructor; [done|]. apply Forall_forall. intros j Hj%elem_of_seq. lia.
Qed.

(** [Merge] loses nothing when a root is taken out of a heap with few keys *)
Lemma heap_delete pre x post :
  heap (pre ++ x :: post) → heap (pre ++ post) ∧ degree x ∉ degree <$> (pre ++ post).
Proof.
  intros [Hb Hs]. rewrite fmap_app fmap_cons StronglySorted_app in Hs.
  destruct Hs as (Hlt & Hpre & [Hpost Hx]%StronglySorted_inv). split.
  - split.
    + apply Forall_app in Hb as [? [_ ?]%Forall_cons]. by apply Forall_app.
    + rewrite fmap_app StronglySorted_app. split_and!; [|done..].
      intros a b Ha Hb'. apply Hlt; [done|by right].
  - rewrite fmap_app elem_of_app. intros [Hin|Hin].
    + specialize (Hlt (degree x) (degree x) Hin ltac:(by left)). lia.
    + eapply Forall_forall in Hx; [|done]. lia.
Qed.
Lemma merges_small pre x post :
  heap (pre ++ x :: post) → length (all_elems (pre ++ x :: post)) ≤ 11 →
  ∃ out, merges Start (pre ++ post) (reverse (kids x)) out.
Proof.
  intros Hh Hlen. destruct (heap_delete _ _ _ Hh) as [[Hb Hs] Hx].
  assert (binomial x) as Hbx by (destruct Hh as [[_ [? _]%Forall_cons]%Forall_app _]; done).
  destruct (heap_kids x Hbx) as [_ Hd]. rewrite all_elems_app all_elems_cons !length_app in Hlen.
  assert (length (all_elems (pre ++ post)) + 2 ^ degree x ≤ 11) as Hl.
  { rewrite all_elems_app length_app -(length_elems x Hbx). lia. }
  assert (∀ y, y ∈ pre ++ post → 2 ^ degree y + 2 ^ degree x ≤ 11 ∧ degree y ≠ degree x) as Hy.
  { intros y Hy. pose proof (length_root_lt _ _ Hb Hy). split; [lia|].
    intros He. apply Hx. rewrite -He. apply list_elem_of_fmap. eauto. }
  generalize dependent (pre ++ post). intros ys Hb Hs Hx Hl Hy. clear Hh Hlen Hb Hx Hl.
  revert Hd Hy. generalize (reverse (kids x)) (degree x). clear x Hbx. intros zs d Hd Hy.
  destruct d as [|[|d]].
  - apply fmap_nil_inv in Hd as ->. eexists. by constructor.
  - destruct zs as [|z [|? ?]]; try done. injection Hd as Hz. by apply merges_single.
  - assert (∀ y, y ∈ ys → degree y < 2) as Hlt.
    { intros y [Hle Hne]%Hy. destruct (degree y) as [|[|e]]; [lia..|]. exfalso.
      pose proof (Nat.pow_nonzero 2 e). destruct d as [|[|d]]; [|simpl in Hle; lia|].
      - destruct e as [|e]; [done|]. pose proof (Nat.pow_nonzero 2 e). simpl in Hle. lia.
      - pose proof (Nat.pow_nonzero 2 d). simpl in Hle. lia. }
    destruct zs as [|z0 [|z1 zs]]; [done..|]. injection Hd as Hz0 Hz1 _.
    destruct ys as [|y ys]; [eexists; by constructor|].
    apply degrees_sorted_cons in Hs as [Hs Hyy].
    pose proof (Hlt y ltac:(by left)) as Hy2.
    assert (degree y = 1 → ys = []) as Hnil.
    { intros Hy1. destruct ys as [|y' ys]; [done|]. apply Forall_cons in Hyy as [Hyy _].
      specialize (Hlt y' ltac:(set_solver)). lia. }
    destruct (degree y) as [|[|?]] eqn:Hdy; [|rewrite Hnil //|lia].
    + destruct ys as [|y' ys]; [eexists; apply merges_equal; [done|congruence|by constructor]|].
      apply Forall_cons in Hyy as [Hyy _]. specialize (Hlt y' ltac:(set_solver)) as Hy'.
      destruct ys as [|y'' ys].
      * eexists. apply merges_equal; [done|congruence|]. apply merges_greater; [done|lia|].
        apply merges_equal; [done|lia|by constructor].
      * apply degrees_sorted_cons in Hs as [_ [Hs _]%Forall_cons].
        specialize (Hlt y'' ltac:(set_solver)). lia.
    + eexists. apply merges_greater; [done|lia|]. apply merges_equal; [done|lia|by constructor].
Qed.
