(* ===== verification/BinomialProps.v ===== *)
(** Binomial heaps in memory: the functions of BinomialHeap.cpp do to the nodes
    what the functions of BinomialSpec do to the trees. *)

From iris.proofmode Require Import proofmode environments coq_tactics reduction.
From stdpp Require Import sorting.
From S2P Require Import Prelude Heap HeapTactics BinomialHeap BinomialSpec.

Section rep.
Implicit Types (t x y : tree) (ts cs : list tree) (k : Z) (par sib q : ptr).
Abbreviation hProp := (heapPropI node).

(** a pointer to the first tree of a list that goes on at [q] *)
Definition hd_ptr ts q : ptr := match ts with [] => q | t :: _ => Some (root t) end.
Definition tree_node t par sib : node :=
  mk_node (Some (key t)) (Some (Z.of_nat (degree t))) (Some par)
    (Some (hd_ptr (kids t) None)) (Some sib).

Fixpoint is_tree t par sib : hProp :=
  match t with
  | B n _ cs =>
      n ↦ tree_node t par sib ∗
      (fix is_kids ts :=
         match ts with
         | [] => emp
         | c :: ts => is_tree c (Some n) (hd_ptr ts None) ∗ is_kids ts
         end) cs
  end%I.
(** the children of [n] *)
Fixpoint is_kids (n : loc) ts : hProp :=
  match ts with
  | [] => emp
  | c :: ts => is_tree c (Some n) (hd_ptr ts None) ∗ is_kids n ts
  end%I.
(** roots, linked by their siblings up to [q]; the parent of a root is not
    determined *)
Fixpoint is_roots ts q : hProp :=
  match ts with
  | [] => emp
  | t :: ts => (∃ par, is_tree t par (hd_ptr ts q)) ∗ is_roots ts q
  end%I.

Lemma is_tree_unfold t par sib :
  is_tree t par sib ⊣⊢ root t ↦ tree_node t par sib ∗ is_kids (root t) (kids t).
Proof. destruct t as [n k cs]. simpl. f_equiv. induction cs as [|c cs IH]; simpl; [done|]. by rewrite IH. Qed.
Lemma is_roots_cons t ts q :
  is_roots (t :: ts) q ⊣⊢
  (∃ par, root t ↦ tree_node t par (hd_ptr ts q)) ∗ is_kids (root t) (kids t) ∗ is_roots ts q.
Proof.
  simpl. iSplit.
  - iIntros "[(%par & Ht) Hr]". rewrite is_tree_unfold. iDestruct "Ht" as "[Ht Hk]".
    iSplitL "Ht"; [by iExists par|]. iFrame.
  - iIntros "[(%par & Ht) [Hk Hr]]". iSplitR "Hr"; [|done]. iExists par. rewrite is_tree_unfold. iFrame.
Qed.
Lemma is_roots_nil q : is_roots [] q ⊣⊢ emp.
Proof. done. Qed.
Lemma is_roots_tree t ts q :
  is_roots (t :: ts) q ⊣⊢ (∃ par, is_tree t par (hd_ptr ts q)) ∗ is_roots ts q.
Proof. done. Qed.
Lemma is_kids_cons n c cs :
  is_kids n (c :: cs) ⊣⊢ is_tree c (Some n) (hd_ptr cs None) ∗ is_kids n cs.
Proof. done. Qed.
Lemma hd_ptr_app_heap ts ts' q : hd_ptr (ts ++ ts') q = hd_ptr ts (hd_ptr ts' q).
Proof. by destruct ts. Qed.
Lemma is_roots_app ts ts' q : is_roots (ts ++ ts') q ⊣⊢ is_roots ts (hd_ptr ts' q) ∗ is_roots ts' q.
Proof.
  induction ts as [|t ts IH]; simpl; [by rewrite left_id|]. by rewrite IH hd_ptr_app_heap assoc.
Qed.
End rep.
#[export] Typeclasses Opaque is_tree is_kids is_roots.
Arguments is_tree : simpl never.
Arguments is_roots : simpl never.
Arguments is_kids : simpl never.

Section node_rules.
Implicit Types (n : loc) (v : node).
#[export] Instance get_key_op n k d p c s :
  CellOp (get_key (Some n)) n (mk_node (Some k) d p c s) k (mk_node (Some k) d p c s).
Proof. eapply bind_op; [apply _|by apply lift_op]. Qed.
#[export] Instance get_degree_op n k d p c s :
  CellOp (get_degree (Some n)) n (mk_node k (Some d) p c s) d (mk_node k (Some d) p c s).
Proof. eapply bind_op; [apply _|by apply lift_op]. Qed.
#[export] Instance get_parent_op n k d p c s :
  CellOp (get_parent (Some n)) n (mk_node k d (Some p) c s) p (mk_node k d (Some p) c s).
Proof. eapply bind_op; [apply _|by apply lift_op]. Qed.
#[export] Instance get_child_op n k d p c s :
  CellOp (get_child (Some n)) n (mk_node k d p (Some c) s) c (mk_node k d p (Some c) s).
Proof. eapply bind_op; [apply _|by apply lift_op]. Qed.
#[export] Instance get_sibling_op n k d p c s :
  CellOp (get_sibling (Some n)) n (mk_node k d p c (Some s)) s (mk_node k d p c (Some s)).
Proof. eapply bind_op; [apply _|by apply lift_op]. Qed.
#[export] Instance set_key_op n v k : CellOp (set_key (Some n) k) n v tt (put_key k v).
Proof. apply _. Qed.
#[export] Instance set_degree_op n v d : CellOp (set_degree (Some n) d) n v tt (put_degree d v).
Proof. apply _. Qed.
#[export] Instance set_parent_op n v p : CellOp (set_parent (Some n) p) n v tt (put_parent p v).
Proof. apply _. Qed.
#[export] Instance set_child_op n v p : CellOp (set_child (Some n) p) n v tt (put_child p v).
Proof. apply _. Qed.
#[export] Instance set_sibling_op n v p : CellOp (set_sibling (Some n) p) n v tt (put_sibling p v).
Proof. apply _. Qed.
End node_rules.

Ltac node_simpl :=
  cbn [put_key put_degree put_parent put_child put_sibling n_key n_degree n_parent n_child n_sibling
       hd_ptr fst snd].
Ltac steps := wp_ops node_simpl.

(** ** Union *)
Section union.
Implicit Types (x y z nx : tree) (ts pre rest : list tree) (k : Z) (n : loc) (q : ptr).

(** [Binomial_link]: the node [y] becomes a child of [z] *)
Lemma wp_Binomial_link y z par par' q q' (Φ : unit → heapPropI node) :
  is_tree y par q ∗ is_tree z par' q' ∗ (is_tree (link y z) par' q' -∗ Φ tt) ⊢
  wp (Binomial_link (Some (root y)) (Some (root z))) Φ.
Proof.
  rewrite !is_tree_unfold. unfold Binomial_link, tree_node.
  iIntros "([Hy Hky] & [Hz Hkz] & HΦ)". steps. iApply "HΦ".
  cbn [link root kids key]. rewrite is_kids_cons is_tree_unfold degree_link.
  replace (Z.of_nat (degree z) + 1)%Z with (Z.of_nat (S (degree z))) by lia. iFrame.
Qed.

Definition last_ptr ts : ptr := root <$> last ts.

(** the condition of the loop *)
Lemma wp_skips x nx rest (q : ptr) par (Φ : bool → heapPropI node) :
  is_tree x par q ∗ is_roots (nx :: rest) None ∗
  (is_tree x par q -∗ is_roots (nx :: rest) None -∗ Φ (skips x nx rest)) ⊢
  wp (moves_on (Some (root x)) (Some (root nx))) Φ.
Proof.
  assert (∀ a b : nat, (Z.of_nat a =? Z.of_nat b)%Z = (a =? b)) as Heq.
  { intros a b. destruct (Nat.eqb_spec a b) as [->|]; [apply Z.eqb_refl|apply Z.eqb_neq; lia]. }
  rewrite is_roots_cons is_tree_unfold. unfold moves_on, tree_node, skips.
  iIntros "([Hx Hkx] & ((%par' & Hn) & Hkn & Hr) & HΦ)". steps. rewrite Heq.
  destruct (degree x =? degree nx) eqn:Hd; cbn [Datatypes.negb orb]; steps.
  - destruct rest as [|z rest]; cbn [hd_ptr]; steps.
    + iApply ("HΦ" with "[$Hx $Hkx]"). iFrame.
    + rewrite is_roots_cons. unfold tree_node. iDestruct "Hr" as "((%par'' & Hz) & Hkz & Hr)". steps.
      rewrite Heq. iApply ("HΦ" with "[$Hx $Hkx]"). iFrame.
  - iApply ("HΦ" with "[$Hx $Hkx]"). iFrame.
Qed.

Lemma hd_ptr_cons_app ts x q : hd_ptr (ts ++ [x]) q = hd_ptr (ts ++ [x]) None.
Proof. by destruct ts. Qed.
Lemma hd_snoc ts x ts' : hd_ptr (ts ++ x :: ts') None = hd_ptr (ts ++ [x]) None.
Proof. by destruct ts. Qed.
Lemma last_ptr_snoc ts x : last_ptr (ts ++ [x]) = Some (root x).
Proof. by rewrite /last_ptr last_snoc. Qed.

(** the node before [x] gets a new sibling, if there is one *)
Lemma wp_relink_heap ts q q' H (Φ : ptr → heapPropI node) :
  H = hd_ptr ts q →
  is_roots ts q ∗ (is_roots ts q' -∗ Φ (hd_ptr ts q')) ⊢
  wp (match last_ptr ts with
      | None => mret q'
      | Some _ => _ ← set_sibling (last_ptr ts) q'; mret H
      end) Φ.
Proof.
  intros ->. destruct ts as [|t ts _] using rev_ind.
  - iIntros "[Hr HΦ]". cbn [last_ptr last fmap option_fmap option_map]. steps. by iApply "HΦ".
  - rewrite last_ptr_snoc !is_roots_app !is_roots_cons. unfold tree_node.
    iIntros "[(Hr & (%par & Ht) & Hk & He) HΦ]". steps.
    rewrite !(hd_ptr_cons_app _ _ q) (hd_ptr_cons_app _ _ q'). iApply "HΦ". iFrame.
Qed.

Lemma wp_Union_loop fuel pre x rest H (Φ : ptr → heapPropI node) :
  length rest ≤ fuel → H = hd_ptr (pre ++ [x]) None →
  is_roots (pre ++ x :: rest) None ∗
  (is_roots (pre ++ consolidate x rest) None -∗ Φ (hd_ptr (pre ++ consolidate x rest) None)) ⊢
  wp (Union_loop fuel H (last_ptr pre) (Some (root x)) (hd_ptr rest None)) Φ.
Proof.
  revert fuel pre x H. induction rest as [|nx rest IH]; intros fuel pre x H Hfuel ->.
  { iIntros "[Hr HΦ]". destruct fuel; simpl; steps; by iApply "HΦ". }
  destruct fuel as [|fuel]; [simpl in Hfuel; lia|]. simpl in Hfuel.
  cbn [Union_loop hd_ptr]. rewrite is_roots_app (is_roots_tree x).
  iIntros "[[Hpre [(%par & Hx) Hr]] HΦ]". cbn [hd_ptr].
  steps. iApply wp_skips. iFrame "Hx Hr". iIntros "Hx Hr".
  cbn [consolidate]. destruct (skips x nx rest).
  - (* move on to [nx] *)
    steps. rewrite (is_roots_cons nx). unfold tree_node. iDestruct "Hr" as "((%par' & Hn) & Hkn & Hr)".
    steps. pose proof (IH fuel (pre ++ [x]) nx) as IH'. rewrite last_ptr_snoc in IH'.
    iApply IH'; [lia| |].
    { by destruct pre. }
    rewrite -!app_assoc !is_roots_app. iSplitR "HΦ"; [|done].
    cbn [app]. rewrite (is_roots_tree x) (is_roots_cons nx). cbn [hd_ptr]. iFrame.
    by rewrite /is_roots.
  - rewrite (is_roots_tree nx) !is_tree_unfold. unfold tree_node.
    iDestruct "Hx" as "[Hx Hkx]". iDestruct "Hr" as "[(%par' & Hn) Hr]".
    iDestruct (is_tree_unfold with "Hn") as "[Hn Hkn]". unfold tree_node. steps.
    destruct (key x <=? key nx)%Z.
    + (* [nx] goes below [x] *)
      steps. iApply (wp_Binomial_link nx x par' par (hd_ptr rest None) (hd_ptr rest None)).
      rewrite !is_tree_unfold. unfold tree_node. iFrame "Hn Hkn Hx Hkx". iIntros "[Hx Hkx]".
      steps. iApply (IH fuel pre (link nx x)); [lia|by destruct pre|].
      iSplitR "HΦ"; [|done]. rewrite is_roots_app is_roots_cons. iFrame.
    + (* [x] goes below [nx] *)
      steps. iApply (wp_relink_heap pre (Some (root x))); [by destruct pre|]. iFrame "Hpre". iIntros "Hpre".
      steps. iApply (wp_Binomial_link x nx par par' (Some (root nx)) (hd_ptr rest None)).
      rewrite !is_tree_unfold. unfold tree_node. iFrame "Hn Hkn Hx Hkx". iIntros "[Hx Hkx]".
      steps. iApply (IH fuel pre (link x nx)); [lia|by destruct pre|].
      iSplitR "HΦ"; [|done]. rewrite is_roots_app is_roots_cons. iFrame.
Qed.
End union.

(** ** Merge *)
Section merge.
Implicit Types (x y z : tree) (ts ys zs out : list tree) (k : Z) (n : loc) (q : ptr).

Lemma hd_ptr_head ts t q : head ts = Some t → hd_ptr ts q = Some (root t).
Proof. destruct ts; naive_solver. Qed.
Lemma Zltb_nat (a b : nat) : (Z.of_nat a <? Z.of_nat b)%Z = (a <? b).
Proof. destruct (Nat.ltb_spec a b); [apply Z.ltb_lt|apply Z.ltb_ge]; lia. Qed.
Lemma Zeqb_nat (a b : nat) : (Z.of_nat a =? Z.of_nat b)%Z = (a =? b).
Proof. destruct (Nat.eqb_spec a b) as [->|]; [apply Z.eqb_refl|apply Z.eqb_neq; lia]. Qed.

Ltac open_roots := rewrite !is_roots_cons; unfold tree_node; cbn [hd_ptr];
  iIntros "(((%par & Hy) & Hky & Hys) & ((%par' & Hz) & Hkz & Hzs) & HΦ)".

Lemma wp_Merge_loop s fuel ys zs out (Φ : unit → heapPropI node) :
  merges s ys zs out → length ys + length zs ≤ fuel →
  is_roots ys None ∗ is_roots zs None ∗ (is_roots out None -∗ Φ tt) ⊢
  wp (Merge_loop fuel (hd_ptr ys None) (hd_ptr zs None)) Φ.
Proof.
  intros Hm. revert fuel. induction Hm as
    [s zs ?|s ys ?|s y y' ys z zs out ? Hd Hm IH|s y ys z zs out ? Hd Hm IH|s y ys z zs out ? Hd Hm IH];
    intros fuel Hfuel.
  - rewrite is_roots_nil. iIntros "(_ & Hz & HΦ)". destruct fuel; cbn [Merge_loop hd_ptr];
      steps; by iApply "HΦ".
  - rewrite is_roots_nil. iIntros "(Hy & _ & HΦ)".
    destruct fuel; destruct ys as [|y ys]; cbn [Merge_loop hd_ptr]; steps; by iApply "HΦ".
  - destruct fuel as [|fuel]; [simpl in Hfuel; lia|]. cbn [Merge_loop hd_ptr]. open_roots.
    steps. rewrite Zltb_nat (proj2 (Nat.ltb_lt _ _)) //. steps.
    iApply (IH fuel); [simpl in *; lia|]. rewrite (is_roots_cons y') (is_roots_cons z).
    unfold tree_node. iFrame "Hys Hz Hkz Hzs". iIntros "Hout". iApply "HΦ".
    rewrite (hd_ptr_head out y'); [|by apply merges_head in Hm]. unfold tree_node. iFrame.
  - destruct fuel as [|fuel]; [simpl in Hfuel; lia|]. cbn [Merge_loop hd_ptr]. open_roots.
    steps. rewrite Zltb_nat (proj2 (Nat.ltb_ge _ _)); [|lia]. steps. rewrite Hd Z.eqb_refl. steps.
    iApply (IH fuel); [simpl in *; lia|]. rewrite (is_roots_cons z). unfold tree_node. iFrame "Hys Hz Hkz Hzs".
    iIntros "Hout". iApply "HΦ".
    rewrite (hd_ptr_head out z); [|by apply merges_head in Hm]. unfold tree_node. iFrame.
  - destruct fuel as [|fuel]; [simpl in Hfuel; lia|]. cbn [Merge_loop hd_ptr]. open_roots.
    steps. rewrite Zltb_nat (proj2 (Nat.ltb_ge _ _)); [|lia]. steps.
    rewrite Zeqb_nat (proj2 (Nat.eqb_neq _ _)); [|lia]. steps.
    iApply (IH fuel); [simpl in *; lia|]. rewrite (is_roots_cons y). unfold tree_node. iFrame "Hys Hy Hky Hzs".
    iIntros "Hout". iApply "HΦ".
    rewrite (hd_ptr_head out y); [|by apply merges_head in Hm]. unfold tree_node. iFrame.
Qed.

Lemma wp_Merge_start ys zs out (Φ : ptr → heapPropI node) :
  merges Start ys zs out →
  is_roots ys None ∗ is_roots zs None ∗
  (is_roots ys None -∗ is_roots zs None -∗ Φ (hd_ptr out None)) ⊢
  wp (Merge_start (hd_ptr ys None) (hd_ptr zs None)) Φ.
Proof.
  intros Hm. unfold Merge_start.
  destruct ys as [|y ys]; cbn [hd_ptr].
  { iIntros "(Hy & Hz & HΦ)". steps. inversion Hm; subst; iApply ("HΦ" with "Hy Hz"). }
  destruct zs as [|z zs]; cbn [hd_ptr].
  { iIntros "(Hy & Hz & HΦ)". steps. inversion Hm; subst. iApply ("HΦ" with "Hy Hz"). }
  assert (hd_ptr out None = if degree y <=? degree z then Some (root y) else Some (root z)) as ->.
  { destruct (Nat.leb_spec (degree y) (degree z)); inversion Hm; subst; done || lia. }
  open_roots. steps.
  assert ((Z.of_nat (degree y) <=? Z.of_nat (degree z))%Z = (degree y <=? degree z)) as ->.
  { destruct (Nat.leb_spec (degree y) (degree z)); [apply Z.leb_le|apply Z.leb_gt]; lia. }
  destruct (Nat.leb_spec (degree y) (degree z)); steps.
  - iApply ("HΦ" with "[Hy Hky Hys]"); iFrame.
  - rewrite (proj2 (Z.gtb_lt _ _)); [|lia]. iApply ("HΦ" with "[Hy Hky Hys]"); iFrame.
Qed.

Lemma wp_Merge fuel ys zs out (Φ : ptr → heapPropI node) :
  merges Start ys zs out → length ys + length zs ≤ fuel →
  is_roots ys None ∗ is_roots zs None ∗ (is_roots out None -∗ Φ (hd_ptr out None)) ⊢
  wp (Merge fuel (hd_ptr ys None) (hd_ptr zs None)) Φ.
Proof.
  intros Hm Hfuel. unfold Merge. iIntros "(Hy & Hz & HΦ)". steps.
  iApply wp_Merge_start; [done|]. iFrame "Hy Hz". iIntros "Hy Hz". steps.
  iApply (wp_Merge_loop Start); [done..|]. iFrame. iIntros "Hout". steps. by iApply "HΦ".
Qed.

Lemma wp_Union fuel ys zs out (Φ : ptr → heapPropI node) :
  merges Start ys zs out → length ys + length zs ≤ fuel →
  is_roots ys None ∗ is_roots zs None ∗
  (is_roots (union_of out) None -∗ Φ (hd_ptr (union_of out) None)) ⊢
  wp (Union fuel (hd_ptr ys None) (hd_ptr zs None)) Φ.
Proof.
  intros Hm Hfuel. unfold Union. iIntros "(Hy & Hz & HΦ)". steps.
  iApply (wp_Merge _ _ _ out); [done..|]. iFrame "Hy Hz". iIntros "Hout".
  pose proof (Permutation_length (merges_Permutation _ _ _ _ Hm)) as Hlen. rewrite length_app in Hlen.
  destruct out as [|x rest]; cbn [hd_ptr]; [steps; by iApply "HΦ"|].
  rewrite is_roots_cons. unfold tree_node. iDestruct "Hout" as "((%par & Hx) & Hkx & Hr)". steps.
  iApply (wp_Union_loop fuel [] x rest); [simpl in Hlen; lia|done|].
  cbn [app]. rewrite is_roots_cons. unfold tree_node. iFrame.
Qed.

(** [Insert] of a node with the key [k] whose other fields hold anything *)
Lemma wp_Insert fuel ys n k d p c s out (Φ : ptr → heapPropI node) :
  merges Start ys [B n k []] out → S (length ys) ≤ fuel →
  is_roots ys None ∗ n ↦ mk_node (Some k) d p c s ∗
  (is_roots (union_of out) None -∗ Φ (hd_ptr (union_of out) None)) ⊢
  wp (Insert fuel (hd_ptr ys None) (Some n)) Φ.
Proof.
  intros Hm Hfuel. unfold Insert. iIntros "(Hy & Hn & HΦ)". steps.
  iApply (wp_Union _ ys [B n k []] out); [done|simpl; lia|]. iFrame "Hy".
  rewrite is_roots_cons is_roots_nil. unfold tree_node. cbn [root kids key degree hd_ptr length Z.of_nat].
  iFrame "Hn". iSplitR; [by rewrite /is_kids; iFrame|]. iIntros "Hr". steps. by iApply "HΦ".
Qed.
End merge.

(** ** Extract_Min *)
Section extract.
Implicit Types (x y z p m t c : tree) (ts pre mid post rest cs out : list tree) (k : Z) (n : loc) (q : ptr).

(** the scan for the smallest root: [m] is the first minimum of what was seen,
    [pre] comes before it and [mid] after it *)
Fixpoint scan pre m mid rest : list tree * tree * list tree :=
  match rest with
  | [] => (pre, m, mid)
  | s :: rest =>
      if (key s <? key m)%Z then scan (pre ++ m :: mid) s [] rest
      else scan pre m (mid ++ [s]) rest
  end.
Lemma scan_spec pre m mid rest :
  Forall (λ t, key m ≤ key t)%Z (pre ++ m :: mid) →
  let '(pre', m', post') := scan pre m mid rest in
  pre' ++ m' :: post' = pre ++ m :: mid ++ rest ∧
  Forall (λ t, key m' ≤ key t)%Z (pre' ++ m' :: post').
Proof.
  revert pre m mid; induction rest as [|s rest IH]; intros pre m mid Hm; simpl.
  { by rewrite app_nil_r. }
  destruct (key s <? key m)%Z eqn:Hlt.
  - specialize (IH (pre ++ m :: mid) s []). destruct (scan _ s [] rest) as [[pre' m'] post'].
    destruct IH as [-> Hall].
    + apply Forall_app. split; [|by repeat constructor].
      eapply Forall_impl; [exact Hm|]. simpl; lia.
    + split; [|done]. by rewrite -app_assoc.
  - specialize (IH pre m (mid ++ [s])). destruct (scan pre m _ rest) as [[pre' m'] post'].
    destruct IH as [-> Hall].
    + rewrite app_comm_cons app_assoc. apply Forall_app. split; [done|]. repeat constructor. lia.
    + split; [|done]. by rewrite -app_assoc.
Qed.

Lemma is_roots_middle l t rest q :
  is_roots (l ++ t :: rest) q ⊣⊢
  is_roots l (Some (root t)) ∗ (∃ par, root t ↦ tree_node t par (hd_ptr rest q)) ∗
  is_kids (root t) (kids t) ∗ is_roots rest q.
Proof. by rewrite is_roots_app is_roots_cons. Qed.

Lemma wp_min_loop fuel l p pre m mid rest (Φ : ptr * ptr → heapPropI node) :
  l ++ [p] = pre ++ m :: mid → length rest < fuel →
  is_roots (l ++ p :: rest) None ∗
  (let '(pre', m', post') := scan pre m mid rest in
   is_roots (l ++ p :: rest) None -∗ Φ (last_ptr pre', Some (root m'))) ⊢
  wp (min_loop fuel (key m) (last_ptr pre) (Some (root m)) (Some (root p))) Φ.
Proof.
  revert fuel l p pre m mid. induction rest as [|s rest IH]; intros fuel l p pre m mid Hl Hfuel;
    (destruct fuel as [|fuel]; [lia|]); cbn [min_loop scan].
  - rewrite is_roots_middle. unfold tree_node. iIntros "[(Hl & (%par & Hp) & Hkp & Hr) HΦ]". steps.
    iApply "HΦ". iFrame.
  - rewrite {1}is_roots_middle {1}is_roots_cons. unfold tree_node.
    iIntros "[(Hl & (%par & Hp) & Hkp & ((%par' & Hs) & Hks & Hr)) HΦ]". steps.
    assert (l ++ p :: s :: rest = (l ++ [p]) ++ s :: rest) as Hassoc by by rewrite -app_assoc.
    rewrite Hassoc. destruct (key s <? key m)%Z; steps.
    + pose proof (IH fuel (l ++ [p]) s (pre ++ m :: mid) s [] ltac:(by rewrite Hl) ltac:(simpl in Hfuel; lia)) as IH'.
      rewrite -Hl last_ptr_snoc in IH'. rewrite -Hl. iApply IH'. iSplitR "HΦ"; [|done].
      rewrite -app_assoc /= is_roots_middle is_roots_cons. unfold tree_node. cbn [hd_ptr]. iFrame.
    + iApply (IH fuel (l ++ [p]) s pre m (mid ++ [s])); [|simpl in Hfuel; lia|].
      { by rewrite Hl -app_assoc. }
      iSplitR "HΦ"; [|done].
      rewrite -app_assoc /= is_roots_middle is_roots_cons. unfold tree_node. cbn [hd_ptr]. iFrame.
Qed.

(** [x] is taken out of the root list *)
Lemma wp_unlink pre x post (Φ : ptr → heapPropI node) :
  is_roots (pre ++ x :: post) None ∗
  (is_roots (pre ++ post) None -∗
   (∃ par, root x ↦ tree_node x par (hd_ptr post None)) -∗ is_kids (root x) (kids x) -∗
   Φ (hd_ptr (pre ++ post) None)) ⊢
  wp (unlink (last_ptr pre) (Some (root x)) (hd_ptr (pre ++ x :: post) None)) Φ.
Proof.
  rewrite is_roots_middle. unfold tree_node, unlink.
  iIntros "[(Hpre & (%par & Hx) & Hkx & Hpost) HΦ]". destruct pre as [|t pre _] using rev_ind.
  - rewrite is_roots_nil. cbn [last_ptr last fmap option_fmap option_map app hd_ptr]. steps.
    destruct post as [|s post]; cbn [hd_ptr]; steps; iApply ("HΦ" with "Hpost [Hx] Hkx"); iFrame.
  - rewrite last_ptr_snoc is_roots_app is_roots_cons is_roots_nil. unfold tree_node.
    iDestruct "Hpre" as "(Hpre & (%par' & Ht) & Hkt & _)". steps.
    rewrite -!app_assoc. cbn [app].
    replace (hd_ptr (pre ++ t :: x :: post) None) with (hd_ptr (pre ++ t :: post) None) by by destruct pre.
    iApply ("HΦ" with "[Hpre Ht Hkt Hpost] [Hx] Hkx"); [|by iFrame].
    rewrite is_roots_middle. unfold tree_node. iFrame.
Qed.

(** ** The children become a list of roots *)
Lemma kids_roots n cs : is_kids n cs ⊢ is_roots cs None.
Proof.
  induction cs as [|c cs IH]; [done|]. rewrite is_kids_cons is_roots_tree.
  iIntros "[Hc Hcs]". iSplitL "Hc"; [by iExists _|]. by iApply IH.
Qed.
Lemma hd_ptr_reverse c d cs q :
  hd_ptr (reverse (c :: d :: cs)) q = hd_ptr (reverse (d :: cs)) None.
Proof. rewrite !reverse_cons. by destruct (reverse cs). Qed.

Lemma wp_Revert_list fuel c cs (Φ : ptr → heapPropI node) :
  length cs < fuel →
  is_roots (c :: cs) None ∗
  (is_roots (reverse cs) (Some (root c)) -∗
   (∃ par, root c ↦ tree_node c par (hd_ptr cs None)) -∗ is_kids (root c) (kids c) -∗
   Φ (hd_ptr (reverse (c :: cs)) None)) ⊢
  wp (Revert_list fuel (Some (root c))) Φ.
Proof.
  revert fuel c Φ. induction cs as [|d cs IH]; intros fuel c Φ Hfuel;
    (destruct fuel as [|fuel]; [lia|]); cbn [Revert_list]; rewrite is_roots_cons; unfold tree_node;
    iIntros "[((%par & Hc) & Hkc & Hcs) HΦ]"; cbn [hd_ptr]; steps.
  - iApply ("HΦ" with "[Hcs] [Hc] Hkc"); [by rewrite reverse_nil !is_roots_nil|by iFrame].
  - iApply (IH fuel d); [simpl in Hfuel; lia|]. iFrame "Hcs". iIntros "Hr (%par' & Hd) Hkd".
    unfold tree_node. steps. rewrite hd_ptr_reverse.
    iApply ("HΦ" with "[Hr Hd Hkd] [Hc] Hkc"); [|by iFrame].
    rewrite reverse_cons is_roots_app is_roots_cons is_roots_nil. unfold tree_node. cbn [hd_ptr]. iFrame.
Qed.

Lemma wp_revert_kids fuel x par q (Φ : ptr → heapPropI node) :
  length (kids x) ≤ fuel →
  root x ↦ tree_node x par q ∗ is_kids (root x) (kids x) ∗
  (root x ↦ tree_node x par q -∗ is_roots (reverse (kids x)) None -∗
   Φ (hd_ptr (reverse (kids x)) None)) ⊢
  wp (revert_kids fuel (Some (root x))) Φ.
Proof.
  intros Hfuel. unfold revert_kids, tree_node. iIntros "(Hx & Hk & HΦ)". steps.
  destruct (kids x) as [|c cs]; cbn [hd_ptr]; steps.
  - iApply ("HΦ" with "Hx"). by rewrite reverse_nil is_roots_nil.
  - iDestruct (kids_roots with "Hk") as "Hk". iApply (wp_Revert_list _ c cs); [simpl in Hfuel; lia|].
    iFrame "Hk". iIntros "Hr (%par' & Hc) Hkc". unfold tree_node. steps.
    iApply ("HΦ" with "Hx"). rewrite reverse_cons is_roots_app is_roots_cons is_roots_nil.
    unfold tree_node. cbn [hd_ptr]. iFrame.
Qed.

(** what [Extract_Min] leaves: the extracted node, which keeps its key, and the
    union of the other roots with its children *)
Lemma wp_Extract_Min fuel mH ts x pre post out (Φ : _ → heapPropI node) t ts' :
  ts = t :: ts' → scan [] t [] ts' = (pre, x, post) →
  merges Start (pre ++ post) (reverse (kids x)) out →
  length ts + length (kids x) ≤ fuel →
  is_roots ts None ∗
  (is_roots (union_of out) None -∗
   (∃ par q, root x ↦ tree_node x par q) -∗
   Φ (Some (root x), [], (hd_ptr (union_of out) None, hd_ptr (reverse (kids x)) None))) ⊢
  wp (Extract_Min fuel mH (hd_ptr ts None)) Φ.
Proof.
  intros -> Hscan Hm Hfuel. unfold Extract_Min. cbn [hd_ptr].
  iIntros "[Hts HΦ]". rewrite {1}is_roots_cons. unfold tree_node.
  iDestruct "Hts" as "((%par & Ht) & Hkt & Hr)". steps.
  pose proof (wp_min_loop fuel [] t [] t [] ts') as Hloop. cbn [app] in Hloop.
  iApply Hloop; [done|simpl in Hfuel; lia|]. rewrite Hscan is_roots_cons. unfold tree_node.
  iSplitR "HΦ"; [iFrame|]. iIntros "Hts". steps.
  assert (Forall (λ t', key t ≤ key t')%Z ([] ++ t :: [])) as Ht by (repeat constructor; lia).
  pose proof (scan_spec [] t [] ts' Ht) as Hs. rewrite Hscan in Hs. destruct Hs as [Hs _].
  cbn [app] in Hs.
  assert (Some (root t) = hd_ptr (pre ++ x :: post) None) as -> by by rewrite Hs.
  rewrite -is_roots_cons -Hs. iApply wp_unlink. iFrame "Hts".
  iIntros "Hroots (%par' & Hx) Hkx". steps.
  iApply (wp_revert_kids _ x); [lia|]. iFrame "Hx Hkx". iIntros "Hx Hkids". steps.
  iApply (wp_Union _ _ _ out); [done| |].
  { rewrite length_reverse. rewrite -Hs in Hfuel. rewrite !length_app /= in Hfuel |- *. lia. }
  iFrame "Hroots Hkids". iIntros "Hr". steps. iApply ("HΦ" with "Hr"). iFrame.
Qed.

(** ** Display *)
Lemma wp_Display_loop fuel ts (Φ : list Z → heapPropI node) :
  length ts ≤ fuel → is_roots ts None ∗ (is_roots ts None -∗ Φ (key <$> ts)) ⊢
  wp (Display_loop fuel (hd_ptr ts None)) Φ.
Proof.
  revert fuel Φ. induction ts as [|t ts IH]; intros fuel Φ Hfuel.
  - iIntros "[Hr HΦ]". destruct fuel; simpl; steps; by iApply "HΦ".
  - destruct fuel as [|fuel]; [simpl in Hfuel; lia|]. simpl in Hfuel. cbn [Display_loop hd_ptr].
    rewrite is_roots_cons. unfold tree_node. iIntros "[((%par & Ht) & Hk & Hr) HΦ]". steps.
    iApply (IH fuel); [lia|]. iFrame "Hr". iIntros "Hr". steps. iApply "HΦ". iFrame.
Qed.
End extract.
