(* ===== verification/BinomialClass.v ===== *)
(** The class [BinomialHeap] of BinomialHeap.cpp seen from outside.

    [is_bheap H ks h]: at [H] starts a binomial heap with the keys [ks] (the
    memory [h] may hold more: the nodes that were extracted).  [Insert] is right
    for every heap.  [Extract_Min] returns a smallest key, and keeps the others
    as long as there are at most 11 keys: with 12 the function [Merge] can lose
    nodes.  The menu of [main] goes on with the old root list after an
    extraction. *)

From iris.proofmode Require Import proofmode environments coq_tactics reduction.
From stdpp Require Import sorting.
From S2P Require Import Prelude Heap HeapTactics BinomialHeap BinomialSpec BinomialProps.

Definition is_bheap (H : ptr) (ks : list Z) (h : gmap loc node) : Prop :=
  ∃ ts, heap ts ∧ H = hd_ptr ts None ∧ all_elems ts ≡ₚ ks ∧ (is_roots ts None ∗ True)%I h.

(** [p = bh.Create_node(k); H = bh.Insert(H, p);] *)
Definition insert_key fuel (H : ptr) (k : Z) : prog node ptr := p ← Create_node k; Insert fuel H p.

Section contract.
Implicit Types (H : ptr) (ks : list Z) (k : Z) (h : gmap loc node) (fuel n : nat) (ts : list tree).

Lemma is_bheap_empty : is_bheap None [] ∅.
Proof.
  exists []. split_and!; [by split; [|constructor]|done..|].
  exists ∅, ∅. by rewrite left_id_L.
Qed.

Lemma length_roots ts : length ts ≤ length (all_elems ts).
Proof.
  induction ts as [|[n k cs] ts IH]; [done|]. rewrite all_elems_cons length_app /=. lia.
Qed.
Lemma length_kids_elems t : length (kids t) < length (elems t).
Proof. destruct t as [n k cs]. simpl. pose proof (length_roots cs). unfold all_elems in *. lia. Qed.

Lemma Insert_runs H ks h k fuel :
  is_bheap H ks h → length ks < fuel →
  ∃ H' h', insert_key fuel H k h = Ok (H', h') ∧ is_bheap H' (k :: ks) h'.
Proof.
  intros (ts & Hheap & -> & Hks & Hh) Hfuel.
  destruct (wp_runs (insert_key fuel (hd_ptr ts None) k) (is_roots ts None ∗ True)%I
    (λ H', ∃ ts', ⟨heap ts' ∧ H' = hd_ptr ts' None ∧ all_elems ts' ≡ₚ k :: ks⟩ ∗
                  is_roots ts' None ∗ True)%I h) as (H' & h' & Hr & Ho); [|done|].
  - iIntros "[Hts HT]". unfold insert_key, Create_node. wp_bind. wp_bind.
    iApply wp_new. iIntros (n) "Hn". steps. destruct (merges_single ts (B n k [])) as [out Hm];
      [apply Hheap|done|].
    iApply (wp_Insert _ ts n k _ _ _ _ out); [done| |].
    { pose proof (length_roots ts). rewrite Hks in H. lia. }
    iFrame "Hts Hn". iIntros "Hr". iExists (union_of out). iFrame. iPureIntro.
    assert (heap [B n k []]) as Hn by (split; repeat constructor).
    destruct (heap_union _ _ _ Hheap Hn Hm) as [Hu He]. split; [|done]. do 2 (split; [done|]).
    by rewrite He Hks Permutation_app_comm.
  - apply holds_exist in Ho as [ts' Ho]. apply holds_pure_sep in Ho as [(Hu & -> & He) Ho].
    exists (hd_ptr ts' None), h'. split; [done|]. by exists ts'.
Qed.

Lemma scan_heap t ts' pre x post :
  heap (t :: ts') → scan [] t [] ts' = (pre, x, post) →
  t :: ts' = pre ++ x :: post ∧ (∀ k, k ∈ all_elems (t :: ts') → (key x ≤ k)%Z).
Proof.
  intros Hheap Hscan.
  assert (Forall (λ t', key t ≤ key t')%Z ([] ++ t :: [])) as Ht by (repeat constructor; lia).
  pose proof (scan_spec [] t [] ts' Ht) as Hs. rewrite Hscan in Hs. destruct Hs as [Hs Hmin].
  cbn [app] in Hs. split; [done|]. intros k. apply heap_min; [done|by rewrite -Hs].
Qed.

Lemma extract_runs m H ks h fuel :
  is_bheap H ks h → ks ≠ [] → length ks ≤ 11 → 2 * length ks ≤ fuel →
  ∃ x k ks' H' Hr h',
    Extract_Min fuel m H h = Ok ((x, [], (H', Hr)), h') ∧ get_key x h' = Ok (k, h') ∧
    ks ≡ₚ k :: ks' ∧ (∀ k', k' ∈ ks → (k ≤ k')%Z) ∧ is_bheap H' ks' h'.
Proof.
  intros (ts & Hheap & -> & Hks & Hh) Hne Hlen Hfuel.
  destruct ts as [|t ts']; [by apply Permutation_nil_l in Hks|].
  destruct (scan [] t [] ts') as [[pre x] post] eqn:Hscan.
  destruct (scan_heap _ _ _ _ _ Hheap Hscan) as [Hts Hmin].
  rewrite Hts in Hheap Hks. pose proof (Permutation_length Hks) as Hl.
  destruct (merges_small pre x post Hheap) as [out Hm]; [lia|].
  assert (binomial x) as Hbx by (destruct Hheap as [[_ [? _]%Forall_cons]%Forall_app _]; done).
  destruct (heap_union _ _ _ (proj1 (heap_delete _ _ _ Hheap)) (proj1 (heap_kids x Hbx)) Hm) as [Hu He].
  edestruct (wp_runs (Extract_Min fuel m (hd_ptr (t :: ts') None)) (is_roots (t :: ts') None ∗ True)%I
    (λ r, ⟨r = (Some (root x), [], (hd_ptr (union_of out) None, hd_ptr (reverse (kids x)) None))⟩ ∗
          (∃ par q, root x ↦ tree_node x par q) ∗ is_roots (union_of out) None ∗ True)%I h)
    as (r & h' & Hr & Ho); [|done|].
  - iIntros "[Hts HT]". iApply (wp_Extract_Min fuel m (t :: ts') x pre post out); [done..| |].
    { rewrite Hts. rewrite all_elems_app all_elems_cons !length_app in Hl.
      pose proof (length_roots pre). pose proof (length_roots post). pose proof (length_kids_elems x).
      rewrite length_app /=. lia. }
    iFrame "Hts". iIntros "Hr Hx". iFrame. by iPureIntro.
  - apply holds_pure_sep in Ho as [-> Ho].
    exists (Some (root x)), (key x), (all_elems (union_of out)), (hd_ptr (union_of out) None),
      (hd_ptr (reverse (kids x)) None), h'.
    split_and!; [done| | | |].
    + apply (holds_mono _ (∃ par q, root x ↦ tree_node x par q ∗ True)%I) in Ho.
      2: { iIntros "((%par & %q & Hx) & _)". iExists par, q. by iFrame. }
      apply holds_exist in Ho as [par Ho]. apply holds_exist in Ho as [q Ho]. apply holds_cell in Ho.
      unfold get_key, mbind, prog_bind, load, lift. by rewrite Ho.
    + rewrite -Hks He !all_elems_app all_elems_cons.
      rewrite (all_elems_Permutation (reverse (kids x)) (kids x)); [|apply reverse_Permutation].
      destruct x as [n k cs]. cbn [elems key kids]. fold (all_elems cs).
      cbn [app]. rewrite -Permutation_middle -assoc_L. do 2 f_equiv. apply Permutation_app_comm.
    + intros k Hk. apply Hmin. by rewrite Hts Hks.
    + exists (union_of out). split_and!; [done..|].
      eapply holds_mono; [|exact Ho]. iIntros "(_ & $ & $)".
Qed.
End contract.

(** ** Search *)

(** the nodes of a tree with their keys *)
Fixpoint nodes (t : tree) : list (loc * Z) :=
  match t with B n k cs => (n, k) :: mjoin (nodes <$> cs) end.
Definition all_nodes (ts : list tree) : list (loc * Z) := mjoin (nodes <$> ts).

Section search.
Implicit Types (ts cs : list tree) (k : Z) (n : loc) (fuel : nat).

Lemma all_nodes_cons t ts : all_nodes (t :: ts) = nodes t ++ all_nodes ts.
Proof. done. Qed.
Lemma elems_nodes t : elems t = (nodes t).*2.
Proof.
  induction t as [n k cs IH] using tree_ind'. cbn [elems nodes]. rewrite fmap_cons. f_equal.
  fold (all_elems cs) (all_nodes cs). induction IH as [|c cs Hc _ IH]; [done|].
  by rewrite all_elems_cons all_nodes_cons fmap_app Hc IH.
Qed.
Lemma all_elems_nodes ts : all_elems ts = (all_nodes ts).*2.
Proof.
  induction ts as [|t ts IH]; [done|].
  by rewrite all_elems_cons IH elems_nodes all_nodes_cons fmap_app.
Qed.

Lemma all_nodes_step x n k cs ts :
  x ∈ all_nodes (B n k cs :: ts) ↔ x = (n, k) ∨ x ∈ all_nodes cs ∨ x ∈ all_nodes ts.
Proof. rewrite all_nodes_cons elem_of_app. cbn [nodes]. rewrite elem_of_cons or_assoc //. Qed.
Lemma all_elems_step x n k cs ts :
  x ∈ all_elems (B n k cs :: ts) ↔ x = k ∨ x ∈ all_elems cs ∨ x ∈ all_elems ts.
Proof. rewrite all_elems_cons elem_of_app. cbn [elems]. rewrite elem_of_cons or_assoc //. Qed.

Lemma wp_Search fuel t ts k :
  length (all_elems (t :: ts)) ≤ fuel →
  is_roots (t :: ts) None ⊢
  wp (Search fuel (Some (root t)) k) (λ p,
    ⟨match p with None => k ∉ all_elems (t :: ts) | Some n => (n, k) ∈ all_nodes (t :: ts) end⟩ ∗ True).
Proof.
  revert t ts. induction fuel as [|fuel IH]; intros [n k0 cs] ts Hfuel; [simpl in Hfuel; lia|].
  rewrite all_elems_cons length_app in Hfuel. simpl in Hfuel. fold (all_elems cs) in Hfuel.
  cbn [Search root]. rewrite is_roots_cons. unfold tree_node. cbn [key root kids].
  iIntros "((%par & Hn) & Hk & Hr)". steps. destruct (Z.eqb_spec k0 k) as [->|Hne].
  { steps. iSplit; [|done]. iPureIntro. apply all_nodes_step. by left. }
  steps.
  iAssert (wp (match hd_ptr cs None with
               | Some _ => c ← get_child (Some n); Search fuel c k
               | None => mret None end)
    (λ p, n ↦ mk_node (Some k0) (Some (Z.of_nat (degree (B n k0 cs)))) (Some par)
                (Some (hd_ptr cs None)) (Some (hd_ptr ts None)) ∗
          ⟨match p with None => k ∉ all_elems cs | Some m => (m, k) ∈ all_nodes cs end⟩ ∗ True))%I
    with "[Hn Hk]" as "Hw".
  { destruct cs as [|c cs]; cbn [hd_ptr]; steps.
    - iFrame. iPureIntro. split; [|done]. apply not_elem_of_nil.
    - iApply wp_wand. iSplitR "Hn"; [iApply (IH c cs); [lia|by iApply kids_roots]|].
      iIntros (p) "[$ $]". iFrame. }
  iApply wp_wand. iSplitL "Hw"; [iExact "Hw"|]. iIntros (p) "(Hn & %Hp & HT)". steps.
  destruct ts as [|t' ts]; cbn [hd_ptr]; [|destruct p as [m|]]; steps.
  - iSplit; [|done]. iPureIntro. destruct p as [m|]; [apply all_nodes_step; auto|].
    rewrite all_elems_step. intros [?|[?|?%elem_of_nil]]; done.
  - iSplit; [|done]. iPureIntro. apply all_nodes_step. auto.
  - iApply wp_wand. iSplitR "HT Hn"; [iApply (IH t' ts); [lia|done]|].
    iIntros (q) "[%Hq _]". iSplit; [|done]. iPureIntro.
    destruct q as [m|]; [apply all_nodes_step; auto|].
    rewrite all_elems_step. intros [?|[?|?]]; done.
Qed.

Lemma ro_Search fuel H k : ReadOnly (Search fuel H k).
Proof.
  revert H; induction fuel as [|fuel IH]; intros H; simpl; [apply _|].
  unfold get_key, get_child, get_sibling. apply _.
Qed.

(** the cell of a node in a list of roots *)
Lemma is_roots_node n k ts q :
  (n, k) ∈ all_nodes ts → is_roots ts q ⊢ ∃ d p c s, n ↦ mk_node (Some k) d p c s ∗ True.
Proof.
  remember (length (all_nodes ts)) as m eqn:Hm. revert ts q Hm.
  induction m as [m IH] using lt_wf_ind; intros ts q -> Hin.
  destruct ts as [|[n0 k0 cs] ts]; [by apply elem_of_nil in Hin|].
  rewrite all_nodes_cons length_app in IH. cbn [nodes length] in IH. fold (all_nodes cs) in IH.
  apply all_nodes_step in Hin. rewrite is_roots_cons. unfold tree_node. cbn [root kids].
  iIntros "((%par & Hn) & Hk & Hr)".
  destruct Hin as [[= -> ->]|[Hin|Hin]].
  - iExists _, _, _, _. by iFrame.
  - iDestruct (kids_roots with "Hk") as "Hk".
    iDestruct (IH (length (all_nodes cs)) ltac:(lia) cs _ eq_refl Hin with "Hk") as (d p c s) "[Hc _]".
    iExists d, p, c, s. by iFrame.
  - iDestruct (IH (length (all_nodes ts)) ltac:(lia) ts _ eq_refl Hin with "Hr") as (d p c s) "[Hc _]".
    iExists d, p, c, s. by iFrame.
Qed.

Lemma Search_runs fuel H ks h k :
  is_bheap H ks h → ks ≠ [] → length ks ≤ fuel →
  ∃ p, Search fuel H k h = Ok (p, h) ∧
       match p with None => k ∉ ks | Some _ => k ∈ ks ∧ get_key p h = Ok (k, h) end.
Proof.
  intros (ts & Hheap & -> & Hks & Hh) Hne Hfuel.
  destruct ts as [|t ts]; [by apply Permutation_nil_l in Hks|]. rewrite -Hks in Hfuel.
  destruct (wp_runs (Search fuel (Some (root t)) k) (is_roots (t :: ts) None ∗ True)%I
    (λ p, ⟨match p with None => k ∉ all_elems (t :: ts) | Some n => (n, k) ∈ all_nodes (t :: ts) end⟩ ∗ True)%I h)
    as (p & h' & Hr & Ho); [|done|].
  { iIntros "[Ht HT]". iApply wp_wand. iSplitL "Ht"; [by iApply wp_Search|].
    iIntros (p) "[$ $]". }
  apply holds_pure_sep in Ho as [Hp _]. pose proof Hr as ->%ro_Search.
  exists p. split; [exact Hr|]. destruct p as [n|]; [|by rewrite -Hks]. split.
  - rewrite -Hks all_elems_nodes. apply list_elem_of_fmap. by exists (n, k).
  - eapply (holds_mono _ (∃ d p c s, n ↦ mk_node (Some k) d p c s ∗ True)%I) in Hh.
    2: { iIntros "[Hr _]". by iApply is_roots_node. }
    do 4 (apply holds_exist in Hh as [? Hh]). apply holds_cell in Hh.
    unfold get_key, mbind, prog_bind, load, lift. by rewrite Hh.
Qed.
End search.

(** ** Properties *)

(** a client that takes the heap of the member [H] after each extraction *)
Fixpoint extract_all fuel (n : nat) (H : ptr) : prog node (list Z) :=
  match n with
  | O => mret []
  | S n =>
      match H with
      | None => mret []
      | Some _ =>
          '(x, _, (H, _)) ← Extract_Min fuel None H;
          k ← get_key x; out ← extract_all fuel n H; mret (k :: out)
      end
  end.
Definition sort_keys fuel (ks : list Z) : prog node (list Z) :=
  H ← insert_all fuel None ks; extract_all fuel (length ks) H.
Definition result_of {A} (r : res (A * gmap loc node)) : option A :=
  match r with Ok (a, _) => Some a | _ => None end.

Section sorting.
Implicit Types (H : ptr) (ks : list Z) (k : Z) (h : gmap loc node) (fuel n : nat).

Lemma Insert_all_runs fuel H ks0 h ks :
  is_bheap H ks0 h → length ks + length ks0 < fuel →
  ∃ H' h', insert_all fuel H ks h = Ok (H', h') ∧ is_bheap H' (ks ++ ks0) h'.
Proof.
  revert H ks0 h; induction ks as [|k ks IH]; intros H ks0 h Hh Hfuel; simpl in Hfuel.
  { by exists H, h. }
  destruct (Insert_runs H ks0 h k fuel Hh) as (H1 & h1 & Hr & Hh1); [lia|].
  destruct (IH H1 (k :: ks0) h1 Hh1) as (H2 & h2 & Hr2 & Hh2); [simpl; lia|].
  exists H2, h2. split.
  - cbn [insert_all]. unfold insert_key in Hr. unfold mbind, prog_bind in *.
    destruct (Create_node k h) as [[p h']| |]; [|done..]. by rewrite Hr.
  - destruct Hh2 as (ts & ? & ? & Hks & ?). exists ts. split_and!; [done..| |done].
    by rewrite Hks -Permutation_middle.
Qed.

Lemma extract_all_runs fuel n H ks h :
  is_bheap H ks h → length ks = n → length ks ≤ 11 → 2 * length ks ≤ fuel →
  ∃ out h', extract_all fuel n H h = Ok (out, h') ∧ out ≡ₚ ks ∧ StronglySorted Z.le out.
Proof.
  revert H ks h; induction n as [|n IH]; intros H ks h Hh Hn Hlen Hfuel.
  { apply length_zero_iff_nil in Hn as ->. exists [], h. by repeat constructor. }
  assert (ks ≠ []) as Hne by (by intros ->).
  assert (is_Some H) as [l ->].
  { destruct Hh as ([|t ts] & _ & -> & Hks & _); [by apply Permutation_nil_l in Hks|by eexists]. }
  destruct (extract_runs None (Some l) ks h fuel) as (x & k & ks' & H' & Hr & h1 & Hrun & Hk & Hks & Hmin & Hh1);
    [done..|]. rewrite Hks /= in Hn Hlen Hfuel.
  destruct (IH H' ks' h1 Hh1) as (out & h2 & Hrun2 & Hout & Hsorted); [lia..|].
  exists (k :: out), h2. split_and!.
  - cbn [extract_all]. rewrite (run_bind _ _ _ _ _ Hrun) (run_bind _ _ _ _ _ Hk) (run_bind _ _ _ _ _ Hrun2) //.
  - by rewrite Hout Hks.
  - constructor; [done|]. rewrite Hout. apply Forall_forall. intros y Hy. apply Hmin. rewrite Hks. by right.
Qed.
End sorting.

(** C26: [Insert] (of a node that [Create_node] made) into a binomial heap with
    the keys [ks] terminates without a fault and leaves a binomial heap with the
    keys [k :: ks]: the roots have strictly increasing degrees, a tree of degree
    [d] has children of the degrees [d-1 .. 0], and no child has a smaller key
    than its parent. *)
Theorem Insert_correct H ks h k fuel :
  is_bheap H ks h → length ks < fuel →
  ∃ H' h', insert_key fuel H k h = Ok (H', h') ∧ is_bheap H' (k :: ks) h'.
Proof. apply Insert_runs. Qed.

Lemma Insert_correct_witness :
  ∃ H' h', insert_key 1 None 7 ∅ = Ok (H', h') ∧ is_bheap H' [7%Z] h'.
Proof. apply (Insert_correct None [] ∅ 7 1); [apply is_bheap_empty|simpl; lia]. Defined.

(** For at most 11 keys the heap sorts: inserting the keys and extracting
    the minimum from the member [H] until it is empty gives the keys in
    increasing order, none lost. *)
Theorem binomial_heap_sorts ks fuel :
  length ks ≤ 11 → 2 * length ks < fuel →
  ∃ h, sort_keys fuel ks ∅ = Ok (merge_sort Z.le ks, h).
Proof.
  intros Hlen Hfuel. destruct (Insert_all_runs fuel None [] ∅ ks) as (H & h & Hr & Hh).
  { apply is_bheap_empty. }
  { simpl. lia. }
  rewrite app_nil_r in Hh.
  destruct (extract_all_runs fuel (length ks) H ks h) as (out & h' & Hr' & Hout & Hs); [done..|lia|].
  exists h'. unfold sort_keys. rewrite (run_bind _ _ _ _ _ Hr) Hr'. do 2 f_equal.
  apply (StronglySorted_unique Z.le); [done|apply (StronglySorted_merge_sort Z.le)|].
  by rewrite Hout (merge_sort_Permutation Z.le).
Qed.

Lemma binomial_heap_sorts_witness :
  ∃ h, sort_keys 30 [5; 3; 8; 1; 9; 2; 7; 4; 6; 0; 10]%Z ∅ =
       Ok (merge_sort Z.le [5; 3; 8; 1; 9; 2; 7; 4; 6; 0; 10]%Z, h).
Proof. apply (binomial_heap_sorts [5; 3; 8; 1; 9; 2; 7; 4; 6; 0; 10]%Z 30); simpl; lia. Defined.

(** With 12 keys [Extract_Min] loses nodes: when the minimum is in a tree
    of degree 2 and the other root has degree 3, [Merge] links the root of
    degree 0 directly to the one of degree 3, and the tree of degree 1 with its
    two keys is gone.  And [main], which does not take the new list of roots
    from the member [H], extracts the same node again and again, and removes the
    minimum when it is told to delete a key that is not there. *)
Theorem binomial_heap_breaks :
  result_of (sort_keys 30 [1; 2; 3; 4; 5; 6; 7; 8; 9; 10; 11; 12]%Z ∅) =
    Some [1; 2; 5; 6; 7; 8; 9; 10; 11; 12]%Z ∧
  (∀ k, result_of (main 30 [ChInsert k; ChExtract; ChExtract; ChDisplay] ∅) =
    Some [MinimumKey k; MinimumKey k; RootNodes [k]]) ∧
  result_of (main 30 [ChInsert 5; ChDelete 8] ∅) = Some [InvalidChoiceOfKey; NodeDeleted] ∧
  main 30 [ChDecrease 5 3] ∅ = Fault NullDeref.
Proof. split_and!; [vm_compute; reflexivity|intros k; vm_compute; reflexivity|vm_compute; reflexivity..]. Qed.

(** the children of an extracted node keep it as their parent: a decreased key
    moves out of the heap *)
Example stale_parent :
  result_of ((
    H ← insert_all 30 None [1; 2]%Z;
    '(_, _, (H, _)) ← Extract_Min 30 None H;
    out ← Decrease_key 30 H 2 0;
    ks ← Display 30 H; mret (out, ks)) ∅) = Some (KeyReduced, RootNodes [1%Z]).
Proof. vm_compute. reflexivity. Qed.
