(* ===== verification/LinkedList.v ===== *)
(** The exercises on singly linked lists, as programs on a heap of list nodes.

    Every file declares the same [struct node] and the same [push] and
    [printList]; they are modelled once.  [malloc] gives a node whose members
    are not set.  An output parameter ([node **], [int *]) is an argument and a
    result; a pointer to a pointer that the program moves along the list is a
    [ref].  Printed values are results.  Each exercise is a Module; the Module's
    name is the name of the file. *)

From iris.proofmode Require Import proofmode.
From S2P Require Import Prelude Int Heap.

Record node := mk_node { n_data : option Z; n_next : option ptr }.

Definition put_data (d : Z) (v : node) : node := mk_node (Some d) (n_next v).
Definition put_next (p : ptr) (v : node) : node := mk_node (n_data v) (Some p).

Abbreviation prog := (prog node).
Implicit Types (p q head : ptr) (fuel : nat).

Definition get_data p : prog Z := v ← load p; lift (of_option Uninitialised (n_data v)).
Definition get_next p : prog ptr := v ← load p; lift (of_option Uninitialised (n_next v)).
Definition set_data p (d : Z) : prog unit := modify p (put_data d).
Definition set_next p q : prog unit := modify p (put_next q).
(** [malloc(sizeof(struct node))] *)
Definition malloc_node : prog ptr := new (mk_node None None).

(** [push(&head, new_data)]; the result is the new [head] *)
Definition push head (new_data : Z) : prog ptr :=
  new_node ← malloc_node;
  _ ← set_data new_node new_data;
  _ ← set_next new_node head;
  mret new_node.

(** the values that are printed *)
Fixpoint printList fuel head : prog (list Z) :=
  match head with
  | None => mret []
  | Some _ =>
      match fuel with
      | O => out_of_fuel
      | S fuel =>
          d ← get_data head; n ← get_next head; out ← printList fuel n; mret (d :: out)
      end
  end.

(** consecutive calls of [push] *)
Fixpoint push_all head (ds : list Z) : prog ptr :=
  match ds with
  | [] => mret head
  | d :: ds => head ← push head d; push_all head ds
  end.

(** ** AddNumberByLinkedList.cpp *)
Module AddNumberByLinkedList.

Fixpoint getSize fuel (node : ptr) : prog Z :=
  match node with
  | None => mret 0%Z
  | Some _ =>
      match fuel with
      | O => out_of_fuel
      | S fuel => node ← get_next node; size ← getSize fuel node; mret (size + 1)%Z
      end
  end.

(** the result and [*carry] *)
Fixpoint addSameSize fuel (head1 head2 : ptr) (carry : Z) : prog (ptr * Z) :=
  match head1 with
  | None => mret (None, carry)
  | Some _ =>
      match fuel with
      | O => out_of_fuel
      | S fuel =>
          result ← malloc_node;
          n1 ← get_next head1; n2 ← get_next head2;
          '(r, carry) ← addSameSize fuel n1 n2 carry;
          _ ← set_next result r;
          d1 ← get_data head1; d2 ← get_data head2;
          sum ← lift (int_add d1 d2); sum ← lift (int_add sum carry);
          let carry := (sum `quot` 10)%Z in
          let sum := (sum `rem` 10)%Z in
          _ ← set_data result sum;
          mret (result, carry)
      end
  end.

(** [*carry] and [*result] *)
Fixpoint addCarryToRemaining fuel (head1 cur : ptr) (carry : Z) (result : ptr) : prog (Z * ptr) :=
  if head1 =p? cur then mret (carry, result)
  else
    match fuel with
    | O => out_of_fuel
    | S fuel =>
        n ← get_next head1;
        '(carry, result) ← addCarryToRemaining fuel n cur carry result;
        d ← get_data head1;
        sum ← lift (int_add d carry);
        let carry := (sum `quot` 10)%Z in
        let sum := (sum `rem` 10)%Z in
        result ← push result sum;
        mret (carry, result)
    end.

(** [for (cur = head1; diff--; cur = cur->next);] *)
Fixpoint skip_nodes (diff : nat) (cur : ptr) : prog ptr :=
  match diff with
  | O => mret cur
  | S diff => cur ← get_next cur; skip_nodes diff cur
  end.

(** [*result] *)
Definition addList fuel (head1 head2 : ptr) : prog ptr :=
  match head1, head2 with
  | None, _ => mret head2
  | Some _, None => mret head1
  | Some _, Some _ =>
      size1 ← getSize fuel head1;
      size2 ← getSize fuel head2;
      '(carry, result) ←
        (if (size1 =? size2)%Z then
           '(result, carry) ← addSameSize fuel head1 head2 0; mret (carry, result)
         else
           let diff := Z.abs (size1 - size2) in
           let '(head1, head2) := if (size1 <? size2)%Z then (head2, head1) else (head1, head2) in
           cur ← skip_nodes (Z.to_nat diff) head1;
           '(result, carry) ← addSameSize fuel cur head2 0;
           addCarryToRemaining fuel head1 cur carry result);
      if (carry =? 0)%Z then mret result else push result carry
  end.

Definition main fuel : prog (list Z) :=
  head1 ← push_all None (reverse [9; 9; 9]%Z);
  head2 ← push_all None (reverse [1; 8]%Z);
  result ← addList fuel head1 head2;
  printList fuel result.

(** AddLinkedList of training.cpp, with the same functions from add-linked-list.h *)
Definition AddLinkedList fuel : prog (list Z) :=
  head1 ← push_all None (reverse [8; 9; 9]%Z);
  head2 ← push_all None (reverse [3; 8]%Z);
  result ← addList fuel head1 head2;
  printList fuel result.
End AddNumberByLinkedList.

(** ** MergeTwoLinkedList.cpp *)
Module MergeTwoLinkedList.

(** a [struct node **]: the address of the local variable that holds the head
    of the result ([dummy.next], [result]), or of the member [next] of a node *)
Inductive ref := Head | NextOf (p : ptr).
(** [*r], where [v] is the content of the variable *)
Definition read (v : ptr) (r : ref) : prog ptr :=
  match r with Head => mret v | NextOf p => get_next p end.
(** [*r = q]; the result is the new content of the variable *)
Definition write (v : ptr) (r : ref) q : prog ptr :=
  match r with Head => mret q | NextOf p => _ ← set_next p q; mret v end.

(** [MoveNode(destRef, &source)]: the variable and the source *)
Definition MoveNode (v : ptr) (destRef : ref) (source : ptr) : prog (ptr * ptr) :=
  let newNode := source in
  match newNode with
  | None => lift (Fault (Abort 6))                       (* assert *)
  | Some _ =>
      source ← get_next newNode;
      d ← read v destRef; _ ← set_next newNode d;
      v ← write v destRef newNode;
      mret (v, source)
  end.

(** the loop of [SortedMerge]: [dummy] holds [dummy.next], [tail] is the address
    of the next field of the node that the code calls [tail].  The results are
    what is printed and [dummy.next] *)
Fixpoint SortedMerge_loop fuel (dummy : ptr) (tail : ref) (a b : ptr) : prog (list (list Z) * ptr) :=
  match fuel with
  | O => out_of_fuel
  | S fuel =>
      match a, b with
      | None, _ => dummy ← write dummy tail b; mret ([], dummy)
      | _, None => dummy ← write dummy tail a; mret ([], dummy)
      | Some _, Some _ =>
          da ← get_data a; db ← get_data b;
          '(out, dummy, a, b) ←
            (if (da <=? db)%Z then
               '(dummy, a) ← MoveNode dummy tail a; mret ([], dummy, a, b)
             else
               '(dummy, b) ← MoveNode dummy tail b;
               out ← printList fuel dummy; mret ([out], dummy, a, b));
          t ← read dummy tail;
          '(out', res) ← SortedMerge_loop fuel dummy (NextOf t) a b;
          mret (out ++ out', res)
      end
  end.
Definition SortedMerge fuel (a b : ptr) : prog (list (list Z) * ptr) :=
  SortedMerge_loop fuel None Head a b.

(** the loop of [SortedMerge2] *)
Fixpoint SortedMerge2_loop fuel (result : ptr) (lastPtrRef : ref) (a b : ptr) : prog ptr :=
  match fuel with
  | O => out_of_fuel
  | S fuel =>
      match a, b with
      | None, _ => write result lastPtrRef b
      | _, None => write result lastPtrRef a
      | Some _, Some _ =>
          da ← get_data a; db ← get_data b;
          '(result, a, b) ←
            (if (da <=? db)%Z then
               '(result, a) ← MoveNode result lastPtrRef a; mret (result, a, b)
             else '(result, b) ← MoveNode result lastPtrRef b; mret (result, a, b));
          l ← read result lastPtrRef;
          SortedMerge2_loop fuel result (NextOf l) a b
      end
  end.
Definition SortedMerge2 fuel (a b : ptr) : prog ptr := SortedMerge2_loop fuel None Head a b.

Definition main fuel : prog (list Z) :=
  a ← push_all None [15; 10; 5]%Z;
  b ← push_all None [20; 3; 2]%Z;
  res ← SortedMerge2 fuel a b;
  printList fuel res.
End MergeTwoLinkedList.

(** ** MergeLinkedList.cpp *)
Module MergeLinkedList.

(** the loop of [merge]; the result is [*q] *)
Fixpoint merge fuel (p_curr q_curr : ptr) : prog ptr :=
  match p_curr, q_curr with
  | Some _, Some _ =>
      match fuel with
      | O => out_of_fuel
      | S fuel =>
          p_next ← get_next p_curr; q_next ← get_next q_curr;
          _ ← set_next q_curr p_next;
          _ ← set_next p_curr q_curr;
          merge fuel p_next q_next
      end
  | _, _ => mret q_curr
  end.

(** the four lists that are printed *)
Definition main fuel : prog (list (list Z)) :=
  p ← push_all None [3; 2; 1]%Z;
  o1 ← printList fuel p;
  q ← push_all None [8; 7; 6; 5; 4]%Z;
  o2 ← printList fuel q;
  q ← merge fuel p q;
  o3 ← printList fuel p; o4 ← printList fuel q;
  mret [o1; o2; o3; o4].
End MergeLinkedList.

(** ** DeleteNodeFromLinkedList.cpp *)
Module DeleteNodeFromLinkedList.

Inductive message := OnlyOneNode | NotPresent.

(** [while (prev->next != NULL && prev->next != n) prev = prev->next;] *)
Fixpoint find_prev fuel (prev n : ptr) : prog ptr :=
  match fuel with
  | O => out_of_fuel
  | S fuel =>
      go ← (x ← get_next prev; mret (negb (x =p? None))) &&&
           (x ← get_next prev; mret (negb (x =p? n)));
      if go : bool then prev ← get_next prev; find_prev fuel prev n else mret prev
  end.

(** the message that is printed, if there is one *)
Definition deleteNode fuel head (n : ptr) : prog (option message) :=
  if head =p? n then
    x ← get_next head;
    match x with
    | None => mret (Some OnlyOneNode)
    | Some _ =>
        x ← get_next head; d ← get_data x; _ ← set_data head d;
        n ← get_next head;
        x ← get_next head; y ← get_next x; _ ← set_next head y;
        _ ← dispose n;
        mret None
    end
  else
    prev ← find_prev fuel head n;
    x ← get_next prev;
    match x with
    | None => mret (Some NotPresent)
    | Some _ =>
        x ← get_next prev; y ← get_next x; _ ← set_next prev y;
        _ ← dispose n;
        mret None
    end.

(** the list before, between and after the two deletions, and the value of the
    first node that is deleted *)
Definition main fuel : prog (list (list Z) * Z) :=
  head ← push_all None [3; 2; 6; 5; 11; 10; 15; 12]%Z;
  o1 ← printList fuel head;
  x ← get_next head; y ← get_next x; d ← get_data y;
  x ← get_next head; y ← get_next x; _ ← deleteNode fuel head y;
  o2 ← printList fuel head;
  _ ← deleteNode fuel head head;
  o3 ← printList fuel head;
  mret ([o1; o2; o3], d).
End DeleteNodeFromLinkedList.

(** ** ReverseLinkedListForKgroup.cpp *)
Module ReverseLinkedListForKgroup.

Inductive message := Current (d : Z) | HeadIs (d : Z) | HeadNext (d : Z) | PreIs (d : Z).

(** the loop that reverses the first [k] nodes: what is printed, and [prev] and
    [next]; [count] counts down to the end of the group *)
Fixpoint reverse_loop (count : nat) (current prev next : ptr) : prog (list message * ptr * ptr) :=
  match current, count with
  | Some _, S count =>
      d ← get_data current;
      next ← get_next current;
      _ ← set_next current prev;
      let prev := current in
      let current := next in
      '(out, prev, next) ← reverse_loop count current prev next;
      mret (Current d :: out, prev, next)
  | _, _ => mret ([], prev, next)
  end.

(** what is printed, and the new head *)
Fixpoint reverse fuel head (k : Z) : prog (list message * ptr) :=
  match fuel with
  | O => out_of_fuel
  | S fuel =>
      '(out, prev, next) ← reverse_loop (Z.to_nat k) head None None;
      out' ←
        match next with
        | None => mret []
        | Some _ =>
            d ← get_data head;
            '(out', r) ← reverse fuel next k;
            _ ← set_next head r;
            both ← mret (negb (head =p? None)) &&& (x ← get_next head; mret (negb (x =p? None)));
            out'' ← (if both : bool then x ← get_next head; d ← get_data x; mret [HeadNext d] else mret []);
            mret (HeadIs d :: out' ++ out'')
        end;
      d ← get_data prev;
      mret (out ++ out' ++ [PreIs d], prev)
  end.

(** the two lists that [main] prints *)
Definition main fuel : prog (list Z * list Z) :=
  head ← push_all None [7; 6; 5; 4; 3; 2; 1]%Z;
  o1 ← printList fuel head;
  '(_, head) ← reverse fuel head 3;
  o2 ← printList fuel head;
  mret (o1, o2).
End ReverseLinkedListForKgroup.

(** ** NodeInsertLinkedList.cpp *)
Module NodeInsertLinkedList.

(** [while (current->next != NULL && current->next->data < new_node->data)] *)
Fixpoint locate fuel (current new_node : ptr) : prog ptr :=
  match fuel with
  | O => out_of_fuel
  | S fuel =>
      go ← (n ← get_next current; mret (negb (n =p? None))) &&&
           (n ← get_next current; d ← get_data n; e ← get_data new_node; mret (d <? e)%Z);
      if go : bool then current ← get_next current; locate fuel current new_node
      else mret current
  end.

(** [sortedInsert(&head, new_node)]; the result is the new [head] *)
Definition sortedInsert fuel head (new_node : ptr) : prog ptr :=
  first ← mret (head =p? None) |||
          (d ← get_data head; e ← get_data new_node; mret (d >=? e)%Z);
  if first : bool then _ ← set_next new_node head; mret new_node
  else
    current ← locate fuel head new_node;
    n ← get_next current; _ ← set_next new_node n;
    _ ← set_next current new_node;
    mret head.

Definition newNode (new_data : Z) : prog ptr :=
  new_node ← malloc_node;
  _ ← set_data new_node new_data;
  _ ← set_next new_node None;
  mret new_node.

(** the calls in [main] *)
Fixpoint insert_all fuel head (ds : list Z) : prog ptr :=
  match ds with
  | [] => mret head
  | d :: ds =>
      new_node ← newNode d; head ← sortedInsert fuel head new_node; insert_all fuel head ds
  end.
Definition main fuel : prog (list Z) :=
  head ← insert_all fuel None [5; 10; 7; 3; 1; 9]%Z;
  printList fuel head.
End NodeInsertLinkedList.
