(* ===== verification/LinkedListProps.v ===== *)
(** The exercises on linked lists: what they do to lists in memory.

    [is_nodes ns q] is a chain of the nodes [ns] (addresses with their values)
    that ends at [q].  The specifications follow the nodes, so they also say
    which memory is reused, allocated and freed. *)

From iris.proofmode Require Import proofmode environments coq_tactics reduction.
From stdpp Require Import sorting.
From S2P Require Import Prelude Int Heap HeapTactics LinkedList.

Section rep.
Implicit Types (ns : list (loc * Z)) (p q : ptr) (ds : list Z).

Definition hd_ptr ns q : ptr := match ns with [] => q | (n, _) :: _ => Some n end.
Fixpoint is_nodes ns q : heapPropI node :=
  match ns with
  | [] => emp
  | (n, d) :: ns => n ↦ mk_node (Some d) (Some (hd_ptr ns q)) ∗ is_nodes ns q
  end%I.
(** a NULL-terminated list with the values [ds] *)
Definition is_list p ds : heapPropI node :=
  (∃ ns, ⟨p = hd_ptr ns None ∧ ns.*2 = ds⟩ ∗ is_nodes ns None)%I.
End rep.
#[export] Typeclasses Opaque is_nodes.
Arguments is_nodes : simpl never.

Section nodes.
Implicit Types (ns pre : list (loc * Z)) (p q : ptr) (ds : list Z) (d : Z) (n : loc).

Lemma is_nodes_nil q : is_nodes [] q ⊣⊢ emp.
Proof. done. Qed.
Lemma is_nodes_cons n d ns q :
  is_nodes ((n, d) :: ns) q ⊣⊢ n ↦ mk_node (Some d) (Some (hd_ptr ns q)) ∗ is_nodes ns q.
Proof. done. Qed.
Lemma hd_ptr_app ns ns' q : hd_ptr (ns ++ ns') q = hd_ptr ns (hd_ptr ns' q).
Proof. by destruct ns as [|[]]. Qed.
Lemma is_nodes_app ns ns' q : is_nodes (ns ++ ns') q ⊣⊢ is_nodes ns (hd_ptr ns' q) ∗ is_nodes ns' q.
Proof.
  induction ns as [|[n d] ns IH]; simpl; [by rewrite is_nodes_nil left_id|].
  rewrite !is_nodes_cons IH hd_ptr_app assoc //.
Qed.
Lemma is_nodes_snoc ns n d q :
  is_nodes (ns ++ [(n, d)]) q ⊣⊢ is_nodes ns (Some n) ∗ n ↦ mk_node (Some d) (Some q).
Proof. by rewrite is_nodes_app is_nodes_cons is_nodes_nil right_id. Qed.

(** the nodes and the end of a chain determine the memory *)
Lemma is_nodes_unique ns q h h' : is_nodes ns q h → is_nodes ns q h' → h = h'.
Proof.
  revert h h'; induction ns as [|[n d] ns IH]; intros h h' Hh Hh'; [by trans (∅ : gmap loc node)|].
  destruct Hh as (h1 & h2 & -> & _ & Hh1 & Hh2), Hh' as (h1' & h2' & -> & _ & Hh1' & Hh2').
  cbn in Hh1, Hh1'. subst. f_equal. by apply IH.
Qed.

#[export] Instance get_data_op n d (x : option ptr) :
  CellOp (get_data (Some n)) n (mk_node (Some d) x) d (mk_node (Some d) x).
Proof. eapply bind_op; [apply _|by apply lift_op]. Qed.
#[export] Instance get_next_op n (d : option Z) (x : ptr) :
  CellOp (get_next (Some n)) n (mk_node d (Some x)) x (mk_node d (Some x)).
Proof. eapply bind_op; [apply _|by apply lift_op]. Qed.
#[export] Instance set_data_op n (v : node) d : CellOp (set_data (Some n) d) n v tt (put_data d v).
Proof. apply _. Qed.
#[export] Instance set_next_op n (v : node) p : CellOp (set_next (Some n) p) n v tt (put_next p v).
Proof. apply _. Qed.
End nodes.

Ltac node_simpl := cbn [put_data put_next n_data n_next hd_ptr fst snd].
Ltac steps := wp_ops node_simpl.

(** ** push and printList *)
Section utilities.
Implicit Types (ns : list (loc * Z)) (p q : ptr) (ds : list Z) (d : Z) (n : loc) (fuel : nat).

Lemma wp_push ns q d (Φ : ptr → heapPropI node) :
  is_nodes ns q ∗ (∀ n, is_nodes ((n, d) :: ns) q -∗ Φ (Some n)) ⊢ wp (push (hd_ptr ns q) d) Φ.
Proof.
  iIntros "[Hns HΦ]". unfold push, malloc_node. wp_bind. iApply wp_new. iIntros (n) "Hn". steps.
  iApply "HΦ". rewrite is_nodes_cons. iFrame.
Qed.

Lemma wp_printList fuel ns (Φ : list Z → heapPropI node) :
  length ns ≤ fuel →
  is_nodes ns None ∗ (is_nodes ns None -∗ Φ ns.*2) ⊢ wp (printList fuel (hd_ptr ns None)) Φ.
Proof.
  revert fuel Φ; induction ns as [|[n d] ns IH]; intros fuel Φ Hfuel.
  - iIntros "[Hns HΦ]". destruct fuel; simpl; steps; by iApply "HΦ".
  - destruct fuel as [|fuel]; [simpl in Hfuel; lia|]. simpl in Hfuel.
    rewrite is_nodes_cons. cbn [printList hd_ptr]. iIntros "[[Hn Hns] HΦ]". steps.
    iApply (IH fuel); [lia|]. iFrame "Hns". iIntros "Hns". steps. iApply "HΦ". iFrame.
Qed.
End utilities.

(** ** SortedMerge and SortedMerge2 *)
Section merge.
Import MergeTwoLinkedList.
Implicit Types (ns pre : list (loc * Z)) (p q : ptr) (fuel : nat).

Definition val_le (x y : loc * Z) : Prop := (x.2 ≤ y.2)%Z.
#[export] Instance val_le_dec x y : Decision (val_le x y).
Proof. unfold val_le. apply _. Defined.

(** the place where the next node is linked, behind the chain [pre] *)
Definition ref_of pre : ref := match last pre with None => Head | Some (n, _) => NextOf (Some n) end.

Lemma ref_of_snoc pre n d : ref_of (pre ++ [(n, d)]) = NextOf (Some n).
Proof. by rewrite /ref_of last_snoc. Qed.
Lemma wp_read pre q (Φ : ptr → heapPropI node) :
  is_nodes pre q ∗ (is_nodes pre q -∗ Φ q) ⊢ wp (read (hd_ptr pre q) (ref_of pre)) Φ.
Proof.
  destruct pre as [|[n d] pre _] using rev_ind.
  - iIntros "[H HΦ]". cbn [ref_of last read hd_ptr]. steps. by iApply "HΦ".
  - rewrite ref_of_snoc is_nodes_snoc. iIntros "[[H Hn] HΦ]". cbn [read]. steps. iApply "HΦ". iFrame.
Qed.
Lemma wp_write pre q q' (Φ : ptr → heapPropI node) :
  is_nodes pre q ∗ (is_nodes pre q' -∗ Φ (hd_ptr pre q')) ⊢
  wp (write (hd_ptr pre q) (ref_of pre) q') Φ.
Proof.
  destruct pre as [|[n d] pre _] using rev_ind.
  - iIntros "[H HΦ]". cbn [ref_of last write hd_ptr]. steps. by iApply "HΦ".
  - rewrite ref_of_snoc !is_nodes_snoc. iIntros "[[H Hn] HΦ]". cbn [write]. steps.
    rewrite !hd_ptr_app. iApply "HΦ". iFrame.
Qed.
Lemma wp_MoveNode pre n d ns (Φ : ptr * ptr → heapPropI node) :
  is_nodes pre None ∗ is_nodes ((n, d) :: ns) None ∗
  (is_nodes (pre ++ [(n, d)]) None -∗ is_nodes ns None -∗
   Φ (hd_ptr (pre ++ [(n, d)]) None, hd_ptr ns None)) ⊢
  wp (MoveNode (hd_ptr pre None) (ref_of pre) (Some n)) Φ.
Proof.
  rewrite is_nodes_cons is_nodes_snoc hd_ptr_app. iIntros "(Hpre & [Hn Hns] & HΦ)". unfold MoveNode. steps.
  iApply wp_read. iFrame "Hpre". iIntros "Hpre". steps.
  iApply wp_write. iFrame "Hpre". iIntros "Hpre". steps.
  iApply ("HΦ" with "[Hpre Hn] Hns"). iFrame.
Qed.

(** one of the lists has run out: the other one is linked *)
Lemma wp_link_rest pre ns (Φ : ptr → heapPropI node) :
  is_nodes pre None ∗ is_nodes ns None ∗
  (is_nodes (pre ++ ns) None -∗ Φ (hd_ptr (pre ++ ns) None)) ⊢
  wp (write (hd_ptr pre None) (ref_of pre) (hd_ptr ns None)) Φ.
Proof.
  rewrite is_nodes_app hd_ptr_app. iIntros "(Hpre & Hns & HΦ)".
  iApply wp_write. iFrame "Hpre". iIntros "Hpre". iApply "HΦ". iFrame.
Qed.
(** the place behind the node that was moved *)
Lemma wp_read_moved pre n d (Φ : ptr → heapPropI node) :
  is_nodes (pre ++ [(n, d)]) None ∗ (is_nodes (pre ++ [(n, d)]) None -∗ Φ (Some n)) ⊢
  wp (read (hd_ptr (pre ++ [(n, d)]) None) (ref_of pre)) Φ.
Proof.
  rewrite is_nodes_snoc hd_ptr_app. iIntros "[[Hpre Hn] HΦ]". cbn [hd_ptr].
  iApply wp_read. iFrame "Hpre". iIntros "Hpre". iApply "HΦ". iFrame.
Qed.

Lemma wp_SortedMerge2_loop fuel pre (a b : list (loc * Z)) (Φ : ptr → heapPropI node) :
  length a + length b < fuel →
  is_nodes pre None ∗ is_nodes a None ∗ is_nodes b None ∗
  (is_nodes (pre ++ list_merge val_le a b) None -∗ Φ (hd_ptr (pre ++ list_merge val_le a b) None)) ⊢
  wp (SortedMerge2_loop fuel (hd_ptr pre None) (ref_of pre) (hd_ptr a None) (hd_ptr b None)) Φ.
Proof.
  revert pre a b. induction fuel as [|fuel IH]; intros pre a b Hfuel; [lia|]. cbn [SortedMerge2_loop].
  destruct a as [|[na da] a].
  { rewrite list_merge_nil_l is_nodes_nil. iIntros "(Hpre & _ & Hb & HΦ)". cbn [hd_ptr].
    iApply wp_link_rest. iFrame. }
  destruct b as [|[nb db] b].
  { rewrite list_merge_nil_r is_nodes_nil. iIntros "(Hpre & Ha & _ & HΦ)". cbn [hd_ptr].
    iApply (wp_link_rest pre ((na, da) :: a)). iFrame. }
  rewrite list_merge_cons. simpl in Hfuel. rewrite (is_nodes_cons na) (is_nodes_cons nb).
  iIntros "(Hpre & [Hna Ha] & [Hnb Hb] & HΦ)". cbn [hd_ptr]. steps.
  assert (∀ x xs, pre ++ x :: xs = (pre ++ [x]) ++ xs) as Hassoc by (intros; by rewrite -app_assoc).
  destruct (Z.leb_spec da db).
  - rewrite decide_True; [|done]. rewrite Hassoc. steps. iApply (wp_MoveNode pre na da a). rewrite is_nodes_cons.
    iFrame "Hpre Hna Ha". iIntros "Hpre Ha". steps. iApply wp_read_moved. iFrame "Hpre". iIntros "Hpre".
    steps. rewrite -(ref_of_snoc pre na da). iApply (IH (pre ++ [(na, da)]) a ((nb, db) :: b)); [simpl; lia|].
    rewrite (is_nodes_cons nb). iFrame.
  - rewrite decide_False; [|unfold val_le; simpl; lia]. rewrite Hassoc. steps. iApply (wp_MoveNode pre nb db b). rewrite is_nodes_cons.
    iFrame "Hpre Hnb Hb". iIntros "Hpre Hb". steps. iApply wp_read_moved. iFrame "Hpre". iIntros "Hpre".
    steps. rewrite -(ref_of_snoc pre nb db). iApply (IH (pre ++ [(nb, db)]) ((na, da) :: a) b); [simpl; lia|].
    rewrite (is_nodes_cons na). iFrame.
Qed.

Lemma wp_SortedMerge_loop fuel pre (a b : list (loc * Z)) (Φ : list (list Z) * ptr → heapPropI node) :
  length pre + 2 * (length a + length b) < fuel →
  is_nodes pre None ∗ is_nodes a None ∗ is_nodes b None ∗
  (∀ out, is_nodes (pre ++ list_merge val_le a b) None -∗
          Φ (out, hd_ptr (pre ++ list_merge val_le a b) None)) ⊢
  wp (SortedMerge_loop fuel (hd_ptr pre None) (ref_of pre) (hd_ptr a None) (hd_ptr b None)) Φ.
Proof.
  revert pre a b Φ. induction fuel as [|fuel IH]; intros pre a b Φ Hfuel; [lia|]. cbn [SortedMerge_loop].
  destruct a as [|[na da] a].
  { rewrite list_merge_nil_l is_nodes_nil. iIntros "(Hpre & _ & Hb & HΦ)". cbn [hd_ptr]. steps.
    iApply wp_link_rest. iFrame "Hpre Hb". iIntros "H". steps. by iApply "HΦ". }
  destruct b as [|[nb db] b].
  { rewrite list_merge_nil_r is_nodes_nil. iIntros "(Hpre & Ha & _ & HΦ)". cbn [hd_ptr]. steps.
    iApply (wp_link_rest pre ((na, da) :: a)). iFrame "Hpre Ha". iIntros "H". steps. by iApply "HΦ". }
  rewrite list_merge_cons. simpl in Hfuel. rewrite (is_nodes_cons na) (is_nodes_cons nb).
  iIntros "(Hpre & [Hna Ha] & [Hnb Hb] & HΦ)". cbn [hd_ptr]. steps.
  assert (∀ x xs, pre ++ x :: xs = (pre ++ [x]) ++ xs) as Hassoc by (intros; by rewrite -app_assoc).
  destruct (Z.leb_spec da db).
  - rewrite decide_True; [|done]. rewrite Hassoc. steps. iApply (wp_MoveNode pre na da a). rewrite is_nodes_cons.
    iFrame "Hpre Hna Ha". iIntros "Hpre Ha". steps. iApply wp_read_moved. iFrame "Hpre". iIntros "Hpre".
    steps. rewrite -(ref_of_snoc pre na da).
    iApply (IH (pre ++ [(na, da)]) a ((nb, db) :: b)); [rewrite length_app /=; lia|].
    rewrite (is_nodes_cons nb). iFrame. iIntros (out) "H". steps. by iApply "HΦ".
  - rewrite decide_False; [|unfold val_le; simpl; lia]. rewrite Hassoc. steps. iApply (wp_MoveNode pre nb db b). rewrite is_nodes_cons.
    iFrame "Hpre Hnb Hb". iIntros "Hpre Hb". steps.
    iApply (wp_printList fuel (pre ++ [(nb, db)])); [rewrite length_app /=; lia|]. iFrame "Hpre".
    iIntros "Hpre". steps. iApply wp_read_moved. iFrame "Hpre". iIntros "Hpre".
    steps. rewrite -(ref_of_snoc pre nb db).
    iApply (IH (pre ++ [(nb, db)]) ((na, da) :: a) b); [rewrite length_app /=; lia|].
    rewrite (is_nodes_cons na). iFrame. iIntros (out) "H". steps. by iApply "HΦ".
Qed.
End merge.

(** ** merge at alternate positions *)
Section alternate.
Implicit Types (ns ps qs : list (loc * Z)) (fuel : nat).

(** the first list with nodes of the second one between its nodes, and what is
    left of the second one *)
Fixpoint alternate {A} (ps qs : list A) : list A * list A :=
  match ps, qs with
  | p :: ps, q :: qs => let '(r, rest) := alternate ps qs in (p :: q :: r, rest)
  | _, _ => (ps, qs)
  end.

Lemma alternate_fmap {A B} (f : A → B) (ps qs : list A) :
  alternate (f <$> ps) (f <$> qs) = (f <$> (alternate ps qs).1, f <$> (alternate ps qs).2).
Proof.
  revert qs; induction ps as [|p ps IH]; intros [|q qs]; try done. simpl. rewrite IH.
  by destruct (alternate ps qs).
Qed.

Lemma wp_alternate fuel ps qs (Φ : ptr → heapPropI node) :
  length ps ≤ fuel →
  is_nodes ps None ∗ is_nodes qs None ∗
  (is_nodes (alternate ps qs).1 None -∗ is_nodes (alternate ps qs).2 None -∗
   Φ (hd_ptr (alternate ps qs).2 None)) ⊢
  wp (MergeLinkedList.merge fuel (hd_ptr ps None) (hd_ptr qs None)) Φ.
Proof.
  revert fuel qs Φ; induction ps as [|[p dp] ps IH]; intros fuel qs Φ Hfuel.
  { iIntros "(Hp & Hq & HΦ)". destruct fuel, qs as [|[]]; simpl; steps; iApply ("HΦ" with "Hp Hq"). }
  destruct fuel as [|fuel]; [simpl in Hfuel; lia|]. simpl in Hfuel.
  destruct qs as [|[q dq] qs].
  { iIntros "(Hp & Hq & HΦ)". simpl. steps. iApply ("HΦ" with "Hp Hq"). }
  rewrite !is_nodes_cons. cbn [MergeLinkedList.merge hd_ptr alternate].
  iIntros "([Hp Hps] & [Hq Hqs] & HΦ)". steps.
  iApply (IH fuel qs); [lia|]. iFrame "Hps Hqs". iIntros "Hr Hrest".
  assert (hd_ptr ps None = hd_ptr (alternate ps qs).1 None) as ->.
  { destruct ps as [|[]], qs as [|[]]; try done. simpl. by destruct (alternate ps qs). }
  destruct (alternate ps qs) as [r rest]. cbn [fst snd]. rewrite !is_nodes_cons. cbn [hd_ptr].
  iApply ("HΦ" with "[Hp Hq Hr] Hrest"). iFrame.
Qed.
End alternate.

(** ** sortedInsert *)
Section sorted_insert.
Import NodeInsertLinkedList.
Implicit Types (ns pre : list (loc * Z)) (d e : Z) (n m : loc) (fuel : nat).

(** [x] before the first element that is not smaller *)
Fixpoint insert_sorted (x : loc * Z) ns : list (loc * Z) :=
  match ns with
  | [] => [x]
  | y :: ns => if (x.2 <=? y.2)%Z then x :: y :: ns else y :: insert_sorted x ns
  end.

(** the loop from the node [m]: the nodes from [m] on with [new_node] inserted *)
Lemma wp_locate_insert fuel m dm ns n d o head (Φ : ptr → heapPropI node) :
  length ns < fuel → (dm < d)%Z →
  is_nodes ((m, dm) :: ns) None ∗ n ↦ mk_node (Some d) o ∗
  (is_nodes ((m, dm) :: insert_sorted (n, d) ns) None -∗ Φ head) ⊢
  wp (locate fuel (Some m) (Some n)) (λ current,
    wp (x ← get_next current; _ ← set_next (Some n) x;
        _ ← set_next current (Some n); mret head) Φ).
Proof.
  revert fuel m dm. induction ns as [|[m' d'] ns IH]; intros fuel m dm Hfuel Hd;
    (destruct fuel as [|fuel]; [simpl in Hfuel; lia|]); cbn [locate insert_sorted snd];
    rewrite is_nodes_cons.
  - rewrite is_nodes_nil. iIntros "([Hm _] & Hn & HΦ)". cbn [hd_ptr]. steps. iApply "HΦ".
    rewrite !is_nodes_cons is_nodes_nil. cbn [hd_ptr]. iFrame.
  - rewrite is_nodes_cons. iIntros "([Hm [Hm' Hns]] & Hn & HΦ)". cbn [hd_ptr]. steps.
    destruct (Z.ltb_spec d' d).
    + rewrite (proj2 (Z.leb_gt _ _)); [|lia]. steps.
      iApply (IH fuel m' d'); [simpl in Hfuel; lia|done|]. rewrite (is_nodes_cons m'). iFrame "Hm' Hns Hn".
      iIntros "H". iApply "HΦ". rewrite (is_nodes_cons m). cbn [hd_ptr]. iFrame.
    + rewrite (proj2 (Z.leb_le _ _)); [|lia]. steps. iApply "HΦ".
      rewrite !is_nodes_cons. cbn [hd_ptr]. iFrame.
Qed.

Lemma wp_sortedInsert fuel ns n d o (Φ : ptr → heapPropI node) :
  length ns < fuel →
  is_nodes ns None ∗ n ↦ mk_node (Some d) o ∗
  (is_nodes (insert_sorted (n, d) ns) None -∗ Φ (hd_ptr (insert_sorted (n, d) ns) None)) ⊢
  wp (sortedInsert fuel (hd_ptr ns None) (Some n)) Φ.
Proof.
  intros Hfuel. unfold sortedInsert. destruct ns as [|[m dm] ns]; cbn [insert_sorted snd hd_ptr].
  - iIntros "(Hns & Hn & HΦ)". steps. iApply "HΦ". rewrite is_nodes_cons. iFrame.
  - rewrite is_nodes_cons. iIntros "([Hm Hns] & Hn & HΦ)". steps. rewrite Z.geb_leb.
    destruct (Z.leb_spec d dm); steps.
    + iApply "HΦ". rewrite !is_nodes_cons. cbn [hd_ptr]. iFrame.
    + iApply (wp_locate_insert fuel m dm ns); [simpl in Hfuel; lia|done|]. rewrite (is_nodes_cons m dm ns).
      iFrame "Hm Hns Hn". iIntros "H". by iApply "HΦ".
Qed.

Lemma insert_sorted_Permutation x ns : insert_sorted x ns ≡ₚ x :: ns.
Proof.
  induction ns as [|y ns IH]; simpl; [done|]. case_match; [done|]. rewrite IH. constructor.
Qed.
Lemma insert_sorted_sorted x ns :
  StronglySorted val_le ns → StronglySorted val_le (insert_sorted x ns).
Proof.
  induction 1 as [|y ns Hs IH Hy]; simpl; [by repeat constructor|].
  destruct (Z.leb_spec x.2 y.2).
  - constructor; [by constructor|]. constructor; [done|]. eapply Forall_impl; [exact Hy|].
    unfold val_le. simpl. lia.
  - constructor; [done|]. rewrite insert_sorted_Permutation. constructor; [|done]. unfold val_le. lia.
Qed.
End sorted_insert.

(** ** deleteNode *)
Section delete.
Import DeleteNodeFromLinkedList.
Implicit Types (ns pre post : list (loc * Z)) (d e : Z) (n m : loc) (fuel : nat).

(** a chain that does not contain the address [n], or whose nodes are at other
    addresses than a given cell *)
Lemma is_nodes_ne ns q n (v : node) :
  is_nodes ns q -∗ n ↦ v -∗ ⟨n ∉ ns.*1⟩ ∗ is_nodes ns q ∗ n ↦ v.
Proof.
  induction ns as [|[m d] ns IH]; simpl.
  - rewrite is_nodes_nil. iIntros "H Hn". iFrame "H Hn". iPureIntro. apply not_elem_of_nil.
  - rewrite is_nodes_cons. iIntros "[Hm Hns] Hn". cells_ne.
    iDestruct (IH with "Hns Hn") as "(%Hn & $ & $)". iFrame. iPureIntro.
    rewrite not_elem_of_cons. auto.
Qed.

(** the node before the first node at [x], or the last one *)
Fixpoint prev_node (p : loc * Z) ns (x : ptr) : loc * Z :=
  match ns with
  | [] => p
  | m :: ns => if decide (Some m.1 = x) then p else prev_node m ns x
  end.

Lemma wp_find_prev fuel p ns x (Φ : ptr → heapPropI node) :
  length ns < fuel →
  is_nodes (p :: ns) None ∗
  (is_nodes (p :: ns) None -∗ Φ (Some (prev_node p ns x).1)) ⊢
  wp (find_prev fuel (Some p.1) x) Φ.
Proof.
  revert fuel p. induction ns as [|[m dm] ns IH]; intros fuel [p dp] Hfuel;
    (destruct fuel as [|fuel]; [simpl in Hfuel; lia|]); cbn [find_prev prev_node fst]; rewrite is_nodes_cons.
  - iIntros "[[Hp Hns] HΦ]". cbn [hd_ptr]. steps. iApply "HΦ". iFrame.
  - iIntros "[[Hp Hns] HΦ]". cbn [hd_ptr]. steps. destruct (decide (Some m = x)) as [<-|Hne].
    + steps. iApply "HΦ". iFrame.
    + rewrite ptr_eqb_neq //. steps. iApply (IH fuel (m, dm)); [simpl in Hfuel; lia|].
      iFrame "Hns". iIntros "Hns". iApply "HΦ". iFrame.
Qed.

Lemma prev_node_absent p ns x : x ∉ Some <$> ns.*1 → Some (prev_node p ns x) = last (p :: ns).
Proof.
  revert p; induction ns as [|m ns IH]; intros p; [done|]. rewrite !fmap_cons not_elem_of_cons.
  intros [Hm Hx]. cbn [prev_node]. rewrite decide_False; [|congruence]. rewrite IH //.
Qed.
Lemma prev_node_found p pre n d post :
  n ∉ pre.*1 → Some (prev_node p (pre ++ (n, d) :: post) (Some n)) = last (p :: pre).
Proof.
  revert p; induction pre as [|m pre IH]; intros p; cbn [app prev_node fst]; [by rewrite decide_True|].
  rewrite fmap_cons not_elem_of_cons. intros [Hm Hx]. rewrite decide_False; [|congruence]. rewrite IH //.
Qed.

(** deleting the head: the value of the second node moves up, and that node is freed *)
Lemma wp_deleteNode_head fuel h dh m dm ns (Φ : option message → heapPropI node) :
  is_nodes ((h, dh) :: (m, dm) :: ns) None ∗ (is_nodes ((h, dm) :: ns) None -∗ Φ None) ⊢
  wp (deleteNode fuel (Some h) (Some h)) Φ.
Proof.
  rewrite !is_nodes_cons. unfold deleteNode. iIntros "[(Hh & Hm & Hns) HΦ]". cbn [hd_ptr]. steps.
  iApply (wp_dispose (V := node)). iFrame "Hm". steps. iApply "HΦ". iFrame.
Qed.
Lemma wp_deleteNode_single fuel h dh (Φ : option message → heapPropI node) :
  is_nodes [(h, dh)] None ∗ (is_nodes [(h, dh)] None -∗ Φ (Some OnlyOneNode)) ⊢
  wp (deleteNode fuel (Some h) (Some h)) Φ.
Proof.
  rewrite !is_nodes_cons. unfold deleteNode. iIntros "[(Hh & Hns) HΦ]". cbn [hd_ptr]. steps.
  iApply "HΦ". iFrame.
Qed.
(** deleting another node: it is unlinked and freed *)
Lemma wp_deleteNode_inner fuel h dh pre n d post (Φ : option message → heapPropI node) :
  length pre + length post + 1 < fuel →
  is_nodes ((h, dh) :: pre ++ (n, d) :: post) None ∗
  (is_nodes ((h, dh) :: pre ++ post) None -∗ Φ None) ⊢
  wp (deleteNode fuel (Some h) (Some n)) Φ.
Proof.
  intros Hfuel. unfold deleteNode. rewrite app_comm_cons is_nodes_app (is_nodes_cons n).
  iIntros "[(Hpre & Hn & Hpost) HΦ]". cbn [hd_ptr].
  iDestruct (is_nodes_ne with "Hpre Hn") as "(%Hne & Hpre & Hn)".
  rewrite fmap_cons not_elem_of_cons in Hne. destruct Hne as [Hnh Hne].
  rewrite ptr_eqb_neq; [|naive_solver]. steps.
  iApply (wp_find_prev _ (h, dh) (pre ++ (n, d) :: post)); [rewrite length_app /=; lia|].
  iSplitR "HΦ"; [rewrite app_comm_cons is_nodes_app (is_nodes_cons n); iFrame|]. iIntros "Hall".
  pose proof (prev_node_found (h, dh) pre n d post Hne) as Hprev.
  destruct (prev_node (h, dh) (pre ++ (n, d) :: post) (Some n)) as [m dm]. cbn [fst].
  symmetry in Hprev. apply last_Some in Hprev as [l Hl].
  rewrite !app_comm_cons Hl -!app_assoc /= !is_nodes_app !is_nodes_cons. cbn [hd_ptr].
  iDestruct "Hall" as "(Hl & Hm & Hn & Hpost)". steps.
  iApply (wp_dispose (V := node)). iFrame "Hn". steps. iApply "HΦ". iFrame.
Qed.
Lemma wp_deleteNode_absent fuel h dh ns x (Φ : option message → heapPropI node) :
  length ns < fuel → x ∉ Some <$> ((h, dh) :: ns).*1 →
  is_nodes ((h, dh) :: ns) None ∗
  (is_nodes ((h, dh) :: ns) None -∗ Φ (Some NotPresent)) ⊢
  wp (deleteNode fuel (Some h) x) Φ.
Proof.
  intros Hfuel Hx. rewrite !fmap_cons not_elem_of_cons in Hx. destruct Hx as [Hxh Hx].
  unfold deleteNode. iIntros "[Hns HΦ]". rewrite ptr_eqb_neq; [|naive_solver]. steps.
  iApply (wp_find_prev _ (h, dh) ns); [done|]. iFrame "Hns". iIntros "Hns".
  pose proof (prev_node_absent (h, dh) ns x Hx) as Hprev.
  destruct (prev_node (h, dh) ns x) as [m dm]. cbn [fst].
  symmetry in Hprev. apply last_Some in Hprev as [l Hl]. rewrite Hl is_nodes_snoc.
  iDestruct "Hns" as "[Hl Hm]". steps. iApply "HΦ". iFrame.
Qed.
End delete.
