(* ===== verification/LinkedListTheorems.v ===== *)
(** What the exercises on linked lists do: numbers that are added, lists that
    are reversed in groups, and the statements about whole lists. *)

From iris.proofmode Require Import proofmode environments coq_tactics reduction.
From stdpp Require Import sorting.
From S2P Require Import Prelude Int Heap HeapTactics LinkedList LinkedListProps.

(** ** Reversal in groups of [k] nodes *)
Section reverse_groups.
Import ReverseLinkedListForKgroup.
Implicit Types (fuel k : nat).

(** the first [k] elements in reverse, then the same for the rest *)
Fixpoint rev_groups {A} fuel k (l : list A) : list A :=
  match fuel, l with
  | S fuel, _ :: _ => list.reverse (take k l) ++ rev_groups fuel k (drop k l)
  | _, _ => []
  end.

Lemma rev_groups_nil {A} fuel k : rev_groups fuel k ([] : list A) = [].
Proof. by destruct fuel. Qed.
Lemma rev_groups_fmap {A B} (f : A → B) fuel k (l : list A) :
  rev_groups fuel k (f <$> l) = f <$> rev_groups fuel k l.
Proof.
  revert l; induction fuel as [|fuel IH]; intros [|x l]; try done. cbn [rev_groups fmap list_fmap].
  rewrite fmap_app fmap_reverse fmap_take -IH fmap_drop //.
Qed.
Lemma rev_groups_group {A} fuel k (g l : list A) :
  length g = k → 0 < k → rev_groups (S fuel) k (g ++ l) = list.reverse g ++ rev_groups fuel k l.
Proof.
  intros Hg Hk. destruct g as [|x g]; [simpl in Hg; lia|]. cbn [rev_groups app].
  rewrite app_comm_cons take_app_length' // drop_app_length' //.
Qed.
(** more iterations than elements change nothing *)
Lemma rev_groups_enough {A} fuel fuel' k (l : list A) :
  0 < k → length l ≤ fuel → length l ≤ fuel' → rev_groups fuel k l = rev_groups fuel' k l.
Proof.
  intros Hk. revert fuel' l; induction fuel as [|fuel IH]; intros fuel' [|x l] Hf Hf';
    [by rewrite !rev_groups_nil|simpl in Hf; lia|by rewrite !rev_groups_nil|].
  destruct fuel' as [|fuel']; [simpl in Hf'; lia|]. cbn [rev_groups]. f_equal.
  apply IH; rewrite length_drop; simpl in *; lia.
Qed.
Lemma rev_groups_Permutation {A} fuel k (l : list A) :
  0 < k → length l ≤ fuel → rev_groups fuel k l ≡ₚ l.
Proof.
  intros Hk. revert l; induction fuel as [|fuel IH]; intros [|x l] Hf; try done; [simpl in Hf; lia|].
  cbn [rev_groups]. rewrite reverse_Permutation IH; [by rewrite take_drop|].
  rewrite length_drop. simpl in *. lia.
Qed.
(** a list of at most [k] elements is reversed *)
Lemma rev_groups_short {A} fuel k (l : list A) :
  length l ≤ k → 0 < fuel → rev_groups fuel k l = list.reverse l.
Proof.
  intros Hl Hf. destruct fuel as [|fuel]; [lia|]. destruct l as [|x l]; [done|]. cbn [rev_groups].
  rewrite take_ge // drop_ge // rev_groups_nil app_nil_r //.
Qed.
(** twice is the identity *)
Lemma rev_groups_involutive {A} fuel k (l : list A) :
  0 < k → length l ≤ fuel → rev_groups fuel k (rev_groups fuel k l) = l.
Proof.
  intros Hk. revert l; induction fuel as [|fuel IH]; intros l Hf; [by destruct l; [|simpl in Hf; lia]|].
  destruct (decide (length l ≤ k)) as [Hle|Hgt].
  { rewrite (rev_groups_short _ _ l) //; [|lia].
    rewrite rev_groups_short ?length_reverse ?reverse_involutive //. lia. }
  destruct l as [|x l]; [done|]. cbn [rev_groups].
  rewrite -/(rev_groups (S fuel) k (list.reverse (take k (x :: l)) ++ rev_groups fuel k (drop k (x :: l)))).
  rewrite rev_groups_group; [|rewrite length_reverse length_take; lia|done].
  rewrite reverse_involutive IH ?take_drop // length_drop. simpl in *. lia.
Qed.

Implicit Types (ns : list (loc * Z)) (p q : ptr) (d : Z) (n : loc).

(** the loop moves the first [count] nodes, reversed, in front of [prev] *)
Lemma wp_reverse_loop (count : nat) ns p q (Φ : list message * ptr * ptr → heapPropI node) :
  0 < count → ns ≠ [] →
  is_nodes ns None ∗
  (∀ out, is_nodes (list.reverse (take count ns)) p -∗ is_nodes (drop count ns) None -∗
   Φ (out, hd_ptr (list.reverse (take count ns)) p, hd_ptr (drop count ns) None)) ⊢
  wp (reverse_loop count (hd_ptr ns None) p q) Φ.
Proof.
  revert ns p q Φ; induction count as [|count IH]; intros [|[n d] ns] p q Φ Hcount Hns; try done; [lia|].
  rewrite is_nodes_cons. cbn [reverse_loop hd_ptr]. iIntros "[[Hn Hns] HΦ]". steps.
  destruct ns as [|[n' d'] ns].
  { rewrite is_nodes_nil. cbn [hd_ptr]. destruct count; cbn [reverse_loop]; steps; iApply ("HΦ" with "[Hn] Hns");
      cbn [take list.reverse rev_append]; rewrite is_nodes_cons is_nodes_nil; iFrame. }
  destruct count as [|count].
  { cbn [hd_ptr reverse_loop]. steps. iApply ("HΦ" with "[Hn] Hns"). rewrite is_nodes_cons is_nodes_nil. iFrame. }
  iApply (IH ((n', d') :: ns)); [lia|done|]. iFrame "Hns". iIntros (out) "H1 H2". steps.
  iSpecialize ("HΦ" $! (Current d :: out)). rewrite firstn_cons skipn_cons reverse_cons is_nodes_snoc hd_ptr_app.
  iApply ("HΦ" with "[$H1 $Hn] H2").
Qed.

(** the value of the first node of a reversed group *)
Lemma wp_prev_data ns n d r (Φ : Z → heapPropI node) :
  is_nodes ns (Some n) ∗ n ↦ mk_node (Some d) (Some r) ∗
  (∀ x, is_nodes ns (Some n) -∗ n ↦ mk_node (Some d) (Some r) -∗ Φ x) ⊢
  wp (get_data (hd_ptr ns (Some n))) Φ.
Proof.
  destruct ns as [|[m e] ns]; cbn [hd_ptr].
  - iIntros "(Hg & Hn & HΦ)". steps. iApply ("HΦ" with "Hg Hn").
  - iIntros "(Hg & Hn & HΦ)". iEval (rewrite is_nodes_cons) in "Hg". iDestruct "Hg" as "[Hm Hg]". steps.
    iApply ("HΦ" with "[Hm Hg] Hn"). iApply is_nodes_cons. iFrame.
Qed.

Lemma wp_reverse fuel ns (k : Z) (Φ : list message * ptr → heapPropI node) :
  length ns ≤ fuel → (0 < k)%Z → ns ≠ [] →
  is_nodes ns None ∗
  (∀ out, is_nodes (rev_groups fuel (Z.to_nat k) ns) None -∗
   Φ (out, hd_ptr (rev_groups fuel (Z.to_nat k) ns) None)) ⊢
  wp (reverse fuel (hd_ptr ns None) k) Φ.
Proof.
  intros Hfuel Hk. revert ns Φ Hfuel; induction fuel as [|fuel IH]; intros [|[n d] ns] Φ Hfuel Hns;
    [done|simpl in Hfuel; lia|done|]. cbn [reverse]. iIntros "[H HΦ]". steps.
  iApply (wp_reverse_loop _ ((n, d) :: ns)); [lia|done|]. iFrame "H". iIntros (out) "Hg Hrest". steps.
  cbn [rev_groups]. destruct (Z.to_nat k) as [|k'] eqn:Hk'; [lia|]. cbn [take drop hd_ptr].
  rewrite reverse_cons is_nodes_snoc -app_assoc !hd_ptr_app. cbn [app hd_ptr].
  iDestruct "Hg" as "[Hg Hn]".
  set (g := list.reverse (take k' ns)). set (rest := drop k' ns).
  assert (Hrest : length rest ≤ fuel) by (rewrite length_drop; simpl in Hfuel; lia).
  clearbody g rest.
  destruct rest as [|[m e] rest].
  - cbn [hd_ptr]. steps. iApply wp_prev_data. iFrame "Hg Hn". iIntros (x) "Hg Hn". steps.
    rewrite rev_groups_nil. iApply "HΦ". rewrite is_nodes_app is_nodes_cons. iFrame.
  - cbn [hd_ptr]. steps. iApply (IH ((m, e) :: rest)); [done..|]. iFrame "Hrest".
    iIntros (out') "Hrest". steps.
    assert (∃ m' e' r, rev_groups fuel (S k') ((m, e) :: rest) = (m', e') :: r) as (m' & e' & r & Hr).
    { pose proof (rev_groups_Permutation fuel (S k') ((m, e) :: rest) ltac:(lia) Hrest) as Hp.
      apply Permutation_length in Hp.
      destruct (rev_groups fuel (S k') ((m, e) :: rest)) as [|[m' e'] r]; [done|eauto]. }
    rewrite Hr is_nodes_cons. iDestruct "Hrest" as "[Hm' Hr]". cbn [hd_ptr]. steps.
    iApply wp_prev_data. iFrame "Hg Hn". iIntros (x) "Hg Hn". steps. iApply "HΦ".
    rewrite is_nodes_app !is_nodes_cons. cbn [hd_ptr]. iFrame.
Qed.
End reverse_groups.

(** ** Numbers as lists of digits *)
Section add_numbers.
Import AddNumberByLinkedList.
Implicit Types (ns a b r pre : list (loc * Z)) (p q : ptr) (d : Z) (n : loc) (ds : list Z) (fuel : nat).

Definition digit (d : Z) : Prop := (0 ≤ d ≤ 9)%Z.
(** the number with the decimal digits [ds], the most significant one first *)
Fixpoint num ds : Z :=
  match ds with [] => 0 | d :: ds => d * 10 ^ length ds + num ds end%Z.
(** the carry [c] and the [len] digits [ds] are the number [v] *)
Definition digits_of (len : nat) (v : Z) ds (c : Z) : Prop :=
  length ds = len ∧ Forall digit ds ∧ (c = 0 ∨ c = 1)%Z ∧ (c * 10 ^ len + num ds = v)%Z.

Lemma num_app ds ds' : num (ds ++ ds') = (num ds * 10 ^ length ds' + num ds')%Z.
Proof.
  induction ds as [|d ds IH]; simpl; [done|].
  rewrite IH length_app Nat2Z.inj_add Z.pow_add_r; lia.
Qed.

(** one digit is added *)
Lemma digit_sum d e c :
  digit d → digit e → (c = 0 ∨ c = 1)%Z →
  let s := (d + e + c)%Z in
  int_add d e = Ok (d + e)%Z ∧ int_add (d + e) c = Ok s ∧
  digit (s `rem` 10) ∧ (s `quot` 10 = 0 ∨ s `quot` 10 = 1)%Z ∧
  (s `quot` 10 * 10 + s `rem` 10 = s)%Z.
Proof.
  unfold digit. intros Hd He Hc. cbv zeta.
  pose proof (Z.quot_rem' (d + e + c) 10). pose proof (Z.rem_bound_pos (d + e + c) 10 ltac:(lia) ltac:(lia)).
  split_and!; try (apply int_add_Ok; unfold int_range, INT_MIN, INT_MAX; lia); lia.
Qed.

Lemma wp_getSize fuel ns (Φ : Z → heapPropI node) :
  length ns ≤ fuel →
  is_nodes ns None ∗ (is_nodes ns None -∗ Φ (Z.of_nat (length ns))) ⊢ wp (getSize fuel (hd_ptr ns None)) Φ.
Proof.
  revert fuel Φ; induction ns as [|[n d] ns IH]; intros fuel Φ Hfuel.
  - iIntros "[Hns HΦ]". destruct fuel; cbn [getSize hd_ptr]; steps; by iApply "HΦ".
  - destruct fuel as [|fuel]; [simpl in Hfuel; lia|]. simpl in Hfuel.
    rewrite is_nodes_cons. cbn [getSize hd_ptr]. iIntros "[[Hn Hns] HΦ]". steps.
    iApply (IH fuel); [lia|]. iFrame "Hns". iIntros "Hns". steps.
    replace (Z.of_nat (length ns) + 1)%Z with (Z.of_nat (length ((n, d) :: ns))) by (simpl; lia).
    iApply "HΦ". iFrame.
Qed.

(** the sums of the digits of two lists of the same length *)
Lemma wp_addSameSize fuel a b (Φ : ptr * Z → heapPropI node) :
  length a ≤ fuel → length a = length b → Forall digit a.*2 → Forall digit b.*2 →
  is_nodes a None ∗ is_nodes b None ∗
  (∀ r c, ⟨digits_of (length a) (num a.*2 + num b.*2) r.*2 c⟩ -∗
          is_nodes a None -∗ is_nodes b None -∗ is_nodes r None -∗ Φ (hd_ptr r None, c)) ⊢
  wp (addSameSize fuel (hd_ptr a None) (hd_ptr b None) 0) Φ.
Proof.
  revert b fuel Φ; induction a as [|[n d] a IH]; intros [|[m e] b] fuel Φ Hfuel Hlen Ha Hb; try done.
  { iIntros "(Ha & Hb & HΦ)". destruct fuel; cbn [addSameSize hd_ptr]; steps;
      iApply ("HΦ" $! [] 0%Z with "[] Ha Hb []"); rewrite ?is_nodes_nil //; iPureIntro; split_and!; auto. }
  destruct fuel as [|fuel]; [simpl in Hfuel; lia|]. simpl in Hfuel, Hlen.
  apply Forall_cons in Ha as [Hd Ha], Hb as [He Hb]. cbn [snd] in Hd, He.
  iIntros "(Ha & Hb & HΦ)". iEval (rewrite is_nodes_cons) in "Ha Hb".
  iDestruct "Ha" as "[Hn Ha]". iDestruct "Hb" as "[Hm Hb]". cbn [addSameSize hd_ptr].
  unfold malloc_node. wp_bind. iApply wp_new. iIntros (l) "Hl". steps.
  iApply (IH b fuel); [lia|lia|done..|]. iFrame "Ha Hb". iIntros (r c) "%Hr Ha Hb Hr". steps.
  destruct Hr as (Hlr & Hr & Hc & Hsum).
  destruct (digit_sum d e c Hd He Hc) as (Hs1 & Hs2 & Hs & Hq & Hqr). rewrite Hs1. steps. rewrite Hs2. steps.
  iApply ("HΦ" $! ((l, (d + e + c) `rem` 10)%Z :: r) with "[] [Hn Ha] [Hm Hb]"); rewrite ?is_nodes_cons; iFrame.
  iPureIntro. unfold digits_of. cbn [length fmap list_fmap snd num]. rewrite Hlr.
  split_and!; [done|by constructor|done|].
  injection Hlen as Hlen. rewrite !length_fmap -Hlen.
  replace (Z.of_nat (S (length a))) with (length a + 1)%Z by lia. rewrite Z.pow_add_r; [|lia..]. nia.
Qed.

(** the carry goes through the digits before the shorter number *)
Lemma wp_addCarryToRemaining fuel pre ns c r (Φ : Z * ptr → heapPropI node) :
  length pre ≤ fuel → Forall digit pre.*2 → (c = 0 ∨ c = 1)%Z →
  is_nodes (pre ++ ns) None ∗ is_nodes r None ∗
  (∀ r' c', ⟨digits_of (length pre) (num pre.*2 + c) r'.*2 c'⟩ -∗ is_nodes (pre ++ ns) None -∗ is_nodes (r' ++ r) None -∗
            Φ (c', hd_ptr (r' ++ r) None)) ⊢
  wp (addCarryToRemaining fuel (hd_ptr (pre ++ ns) None) (hd_ptr ns None) c (hd_ptr r None)) Φ.
Proof.
  revert fuel Φ; induction pre as [|[n d] pre IH]; intros fuel Φ Hfuel Hpre Hc.
  { iIntros "(Hns & Hr & HΦ)". cbn [app]. destruct fuel; cbn [addCarryToRemaining]; rewrite ptr_eqb_refl; steps;
      iApply ("HΦ" $! [] c with "[] Hns Hr"); iPureIntro; split_and!; auto; simpl; lia. }
  destruct fuel as [|fuel]; [simpl in Hfuel; lia|]. simpl in Hfuel.
  apply Forall_cons in Hpre as [Hd Hpre]. cbn [snd] in Hd.
  iIntros "(Hns & Hr & HΦ)". cbn [app addCarryToRemaining hd_ptr].
  iEval (rewrite is_nodes_cons) in "Hns". iDestruct "Hns" as "[Hn Hns]".
  iAssert (⟨Some n ≠ hd_ptr ns None⟩ ∗ n ↦ mk_node (Some d) (Some (hd_ptr (pre ++ ns) None)) ∗
           is_nodes (pre ++ ns) None)%I with "[Hn Hns]" as "(%Hne & Hn & Hns)".
  { iDestruct (is_nodes_ne with "Hns Hn") as "(%Hnot & $ & $)". iPureIntro.
    destruct ns as [|[m e] ns]; [done|]. cbn [hd_ptr]. intros [= <-]. apply Hnot.
    rewrite fmap_app elem_of_app fmap_cons elem_of_cons. auto. }
  rewrite ptr_eqb_neq //. steps. iApply (IH fuel); [lia|done..|]. iFrame "Hns Hr".
  iIntros (r' c') "%Hr' Hns Hr". steps. destruct Hr' as (Hlr & Hr' & Hc' & Hsum).
  destruct (digit_sum d 0 c' Hd ltac:(unfold digit; lia) Hc') as (_ & Hs2 & Hs & Hq & Hqr).
  rewrite Z.add_0_r in Hs2, Hs, Hq, Hqr. rewrite Hs2. steps.
  iApply wp_push. iFrame "Hr". iIntros (l) "Hr". steps. rewrite app_comm_cons.
  iApply ("HΦ" $! ((l, ((d + c') `rem` 10)%Z) :: r') with "[] [Hn Hns]"); [|rewrite is_nodes_cons; iFrame|done].
  iPureIntro. unfold digits_of. cbn [fmap list_fmap length snd num]. rewrite Hlr.
  split_and!; [done|by constructor|done|]. rewrite length_fmap.
  replace (Z.of_nat (S (length pre))) with (length pre + 1)%Z by lia. rewrite Z.pow_add_r; [|lia..]. nia.
Qed.

Lemma wp_skip_nodes pre ns (Φ : ptr → heapPropI node) :
  is_nodes (pre ++ ns) None ∗ (is_nodes (pre ++ ns) None -∗ Φ (hd_ptr ns None)) ⊢
  wp (skip_nodes (length pre) (hd_ptr (pre ++ ns) None)) Φ.
Proof.
  revert Φ; induction pre as [|[n d] pre IH]; intros Φ; iIntros "[Hns HΦ]"; cbn [app length skip_nodes hd_ptr].
  - steps. by iApply "HΦ".
  - iEval (rewrite is_nodes_cons) in "Hns". iDestruct "Hns" as "[Hn Hns]". steps.
    iApply IH. iFrame "Hns". iIntros "Hns". iApply "HΦ". rewrite is_nodes_cons. iFrame.
Qed.

(** the case of two sizes: [pre] are the digits that the shorter number lacks *)
Lemma wp_add_longer fuel pre a b (Φ : Z * ptr → heapPropI node) :
  length pre + length a ≤ fuel → length a = length b →
  Forall digit (pre ++ a).*2 → Forall digit b.*2 →
  is_nodes (pre ++ a) None ∗ is_nodes b None ∗
  (∀ r c, ⟨digits_of (length (pre ++ a)) (num (pre ++ a).*2 + num b.*2) r.*2 c⟩ -∗
          is_nodes (pre ++ a) None -∗ is_nodes b None -∗ is_nodes r None -∗ Φ (c, hd_ptr r None)) ⊢
  wp (cur ← skip_nodes (length pre) (hd_ptr (pre ++ a) None);
      '(result, carry) ← addSameSize fuel cur (hd_ptr b None) 0;
      addCarryToRemaining fuel (hd_ptr (pre ++ a) None) cur carry result) Φ.
Proof.
  rewrite fmap_app Forall_app. intros Hfuel Hlen [Hpre Ha] Hb. iIntros "(Ha & Hb & HΦ)". wp_bind.
  iApply wp_skip_nodes. iFrame "Ha". iIntros "Ha". steps.
  iEval (rewrite is_nodes_app) in "Ha". iDestruct "Ha" as "[Hpre Ha]".
  iApply wp_addSameSize; [lia|done..|]. iFrame "Ha Hb". iIntros (r c) "%Hr Ha Hb Hr". steps.
  destruct Hr as (Hlr & Hr & Hc & Hsum).
  iApply wp_addCarryToRemaining; [lia|done..|]. iFrame "Hr".
  iSplitL "Hpre Ha"; [rewrite is_nodes_app; iFrame|]. iIntros (r' c') "%Hr' Ha Hr". destruct Hr' as (Hlr' & Hr' & Hc' & Hsum').
  iApply ("HΦ" $! (r' ++ r) c' with "[] Ha Hb Hr"). iPureIntro. unfold digits_of.
  rewrite !fmap_app !num_app Forall_app !length_app Hlr Hlr' !length_fmap Nat2Z.inj_add Z.pow_add_r; [|lia..].
  split_and!; [done..|]. nia.
Qed.

Lemma wp_addList fuel a b (Φ : ptr → heapPropI node) :
  length a ≤ fuel → length b ≤ fuel → a ≠ [] → b ≠ [] →
  Forall digit a.*2 → Forall digit b.*2 →
  is_nodes a None ∗ is_nodes b None ∗
  (∀ r, ⟨Forall digit r.*2 ∧ num r.*2 = (num a.*2 + num b.*2)%Z⟩ -∗
        is_nodes a None -∗ is_nodes b None -∗ is_nodes r None -∗ Φ (hd_ptr r None)) ⊢
  wp (addList fuel (hd_ptr a None) (hd_ptr b None)) Φ.
Proof.
  intros Hfa Hfb Hna Hnb Ha Hb. iIntros "(Ha & Hb & HΦ)".
  iAssert (∀ len r c, ⟨digits_of len (num a.*2 + num b.*2) r.*2 c⟩ -∗
            is_nodes a None -∗ is_nodes b None -∗ is_nodes r None -∗
            wp (if (c =? 0)%Z then mret (hd_ptr r None) else push (hd_ptr r None) c) Φ)%I
    with "[HΦ]" as "Hend".
  { iIntros (len r c) "%Hr Ha Hb Hr". destruct Hr as (Hlr & Hr & Hc & Hsum).
    destruct (Z.eqb_spec c 0) as [->|Hc0]; [steps; iApply ("HΦ" with "[] Ha Hb Hr"); auto|].
    iApply wp_push. iFrame "Hr". iIntros (n) "Hr". iApply ("HΦ" $! ((n, c) :: r) with "[] Ha Hb Hr").
    iPureIntro. cbn [fmap list_fmap snd num]. rewrite Hlr. split; [|done].
    constructor; [unfold digit; lia|done]. }
  assert (addList fuel (hd_ptr a None) (hd_ptr b None) =
    (size1 ← getSize fuel (hd_ptr a None);
     size2 ← getSize fuel (hd_ptr b None);
      '(carry, result) ←
        (if (size1 =? size2)%Z then
           '(result, carry) ← addSameSize fuel (hd_ptr a None) (hd_ptr b None) 0; mret (carry, result)
         else
           let diff := Z.abs (size1 - size2) in
           let '(head1, head2) := if (size1 <? size2)%Z then (hd_ptr b None, hd_ptr a None)
                                  else (hd_ptr a None, hd_ptr b None) in
           cur ← skip_nodes (Z.to_nat diff) head1;
           '(result, carry) ← addSameSize fuel cur head2 0;
           addCarryToRemaining fuel head1 cur carry result);
      if (carry =? 0)%Z then mret result else push result carry)) as ->.
  { destruct a as [|[]], b as [|[]]; done. }
  wp_bind. iApply wp_getSize; [done|]. iFrame "Ha". iIntros "Ha". wp_bind.
  iApply wp_getSize; [done|]. iFrame "Hb". iIntros "Hb". wp_bind.
  destruct (Z.eqb_spec (length a) (length b)) as [Hlen|Hlen].
  { steps. iApply wp_addSameSize; [done|lia|done..|]. iFrame "Ha Hb". iIntros (r c) "%Hr Ha Hb Hr". steps.
    iApply ("Hend" with "[] Ha Hb Hr"). by iPureIntro. }
  destruct (Z.ltb_spec (length a) (length b)) as [Hlt|Hge]; cbv zeta beta iota.
  - set (k := Z.to_nat _). assert (length (take k b) = k) as Hk by (rewrite length_take; lia).
    pose proof (wp_add_longer fuel (take k b) (drop k b) a) as Hadd.
    rewrite take_drop length_drop Hk in Hadd. iApply Hadd; [lia|lia|done..|].
    iFrame "Ha Hb". iIntros (r c) "%Hr Hb Ha Hr". steps. iApply ("Hend" with "[] Ha Hb Hr"). iPureIntro.
    by rewrite Z.add_comm.
  - set (k := Z.to_nat _). assert (length (take k a) = k) as Hk by (rewrite length_take; lia).
    pose proof (wp_add_longer fuel (take k a) (drop k a) b) as Hadd.
    rewrite take_drop length_drop Hk in Hadd. iApply Hadd; [lia|lia|done..|].
    iFrame "Ha Hb". iIntros (r c) "%Hr Ha Hb Hr". steps. iApply ("Hend" with "[] Ha Hb Hr"). by iPureIntro.
Qed.
End add_numbers.

(** ** Whole lists *)
Section whole_lists.
Implicit Types (a b l : list Z) (p q : ptr) (h : gmap loc node) (ns : list (loc * Z)).

Lemma is_list_nodes ns h : is_nodes ns None h → is_list (hd_ptr ns None) ns.*2 h.
Proof. intros Hns. exists ns. by apply holds_pure_sep. Qed.
Lemma is_list_inv p l h : is_list p l h → ∃ ns, p = hd_ptr ns None ∧ ns.*2 = l ∧ is_nodes ns None h.
Proof. intros [ns [[Hp Hl] Hns]%holds_pure_sep]. eauto. Qed.
Lemma is_lists_inv p q a b h :
  (is_list p a ∗ is_list q b)%I h →
  ∃ ns ms, p = hd_ptr ns None ∧ q = hd_ptr ms None ∧ ns.*2 = a ∧ ms.*2 = b ∧
           (is_nodes ns None ∗ is_nodes ms None)%I h.
Proof.
  intros (h1 & h2 & -> & Hd & (ns & -> & Hns & H1)%is_list_inv & (ms & -> & Hms & H2)%is_list_inv).
  exists ns, ms. split_and!; [done..|]. by exists h1, h2.
Qed.
Lemma list_merge_values (ns ms : list (loc * Z)) :
  (list_merge val_le ns ms).*2 = list_merge Z.le ns.*2 ms.*2.
Proof.
  revert ms; induction ns as [|[n d] ns IHn]; intros ms; [by rewrite !list_merge_nil_l|].
  induction ms as [|[m e] ms IHm]; [by rewrite !list_merge_nil_r|].
  rewrite list_merge_cons !fmap_cons list_merge_cons. cbn [snd].
  destruct (decide (d ≤ e)%Z).
  - rewrite decide_True // fmap_cons IHn //.
  - rewrite decide_False // fmap_cons IHm //.
Qed.

(** C24: [addList] adds numbers: for two nonempty lists of decimal digits it
    returns a new list of digits whose number is the sum of the two numbers,
    whatever their sizes, and leaves the two lists as they are. *)
Theorem addList_correct fuel p q a b h :
  length a ≤ fuel → length b ≤ fuel → a ≠ [] → b ≠ [] → Forall digit a → Forall digit b →
  (is_list p a ∗ is_list q b)%I h →
  ∃ r s h', AddNumberByLinkedList.addList fuel p q h = Ok (r, h') ∧
            (is_list p a ∗ is_list q b ∗ is_list r s)%I h' ∧
            Forall digit s ∧ num s = (num a + num b)%Z.
Proof.
  intros Hfa Hfb Hna Hnb Ha Hb (ns & ms & -> & -> & <- & <- & Hh)%is_lists_inv.
  rewrite length_fmap in Hfa. rewrite length_fmap in Hfb.
  destruct (wp_runs (AddNumberByLinkedList.addList fuel (hd_ptr ns None) (hd_ptr ms None))
              (is_nodes ns None ∗ is_nodes ms None) (λ r, ∃ s, ⟨Forall digit s ∧ num s = (num ns.*2 + num ms.*2)%Z⟩ ∗
              is_list (hd_ptr ns None) ns.*2 ∗ is_list (hd_ptr ms None) ms.*2 ∗ is_list r s)%I h)
    as (r & h' & Hrun & s & [[Hs Hsum] Hh']%holds_pure_sep); [|exact Hh|by exists r, s, h'].
  iIntros "[Ha Hb]". iApply (wp_addList fuel ns ms); try done; [by intros ->..|]. iFrame "Ha Hb".
    iIntros (r) "%Hr Ha Hb Hr". iExists r.*2. iSplit; [done|].
    iSplitL "Ha"; [|iSplitL "Hb"]; iExists _; by iFrame.
Qed.

(** [SortedMerge] and [SortedMerge2] are the same function: on any two
    lists they return the same pointer and leave the same memory, which is the
    merge of the two lists made of their own nodes; the merge of sorted lists
    is sorted. *)
Theorem SortedMerge_same fuel p q a b h :
  2 * (length a + length b) < fuel →
  (is_list p a ∗ is_list q b)%I h →
  ∃ out r h', MergeTwoLinkedList.SortedMerge fuel p q h = Ok ((out, r), h') ∧
              MergeTwoLinkedList.SortedMerge2 fuel p q h = Ok (r, h') ∧
              is_list r (list_merge Z.le a b) h' ∧
              (Sorted Z.le a → Sorted Z.le b → Sorted Z.le (list_merge Z.le a b)).
Proof.
  intros Hfuel (ns & ms & -> & -> & <- & <- & Hh)%is_lists_inv. rewrite !length_fmap in Hfuel.
  destruct (wp_runs (MergeTwoLinkedList.SortedMerge fuel (hd_ptr ns None) (hd_ptr ms None))
              (is_nodes ns None ∗ is_nodes ms None)
              (λ r, ⟨r.2 = hd_ptr (list_merge val_le ns ms) None⟩ ∗ is_nodes (list_merge val_le ns ms) None)%I h)
    as ([out r] & h1 & Hrun1 & [Hr1 Hh1]%holds_pure_sep); [|exact Hh|].
  { iIntros "[Ha Hb]". iApply (wp_SortedMerge_loop fuel [] ns ms); [simpl; lia|]. rewrite is_nodes_nil.
    iFrame "Ha Hb". iIntros (out) "Hr". by iFrame. }
  destruct (wp_runs (MergeTwoLinkedList.SortedMerge2 fuel (hd_ptr ns None) (hd_ptr ms None))
              (is_nodes ns None ∗ is_nodes ms None)
              (λ r, ⟨r = hd_ptr (list_merge val_le ns ms) None⟩ ∗ is_nodes (list_merge val_le ns ms) None)%I h)
    as (r2 & h2 & Hrun2 & [Hr2 Hh2]%holds_pure_sep); [|exact Hh|].
  { iIntros "[Ha Hb]". iApply (wp_SortedMerge2_loop fuel [] ns ms); [lia|]. rewrite is_nodes_nil.
    iFrame "Ha Hb". iIntros "Hr". by iFrame. }
  cbn [snd] in Hr1. subst r r2. pose proof (is_nodes_unique _ _ _ _ Hh1 Hh2) as <-.
  eexists out, _, h1. split_and!; [exact Hrun1|exact Hrun2| |].
  - rewrite -list_merge_values. by apply is_list_nodes.
  - intros. by apply (Sorted_list_merge Z.le).
Qed.

(** [reverse] reverses every group of [k] consecutive values, the last one
    may be shorter, in place; a second call restores the list. *)
Theorem reverse_twice fuel p (k : Z) l h :
  length l ≤ fuel → (0 < k)%Z → l ≠ [] → is_list p l h →
  ∃ out1 r1 h1 out2 r2 h2,
    ReverseLinkedListForKgroup.reverse fuel p k h = Ok ((out1, r1), h1) ∧
    is_list r1 (rev_groups fuel (Z.to_nat k) l) h1 ∧
    ReverseLinkedListForKgroup.reverse fuel r1 k h1 = Ok ((out2, r2), h2) ∧
    is_list r2 l h2.
Proof.
  intros Hfuel Hk Hl (ns & -> & <- & Hns)%is_list_inv. rewrite length_fmap in Hfuel.
  assert (∀ (ms : list (loc * Z)) hm, length ms ≤ fuel → ms ≠ [] → is_nodes ms None hm →
    ∃ out h', ReverseLinkedListForKgroup.reverse fuel (hd_ptr ms None) k hm =
                Ok ((out, hd_ptr (rev_groups fuel (Z.to_nat k) ms) None), h') ∧
              is_nodes (rev_groups fuel (Z.to_nat k) ms) None h') as Hrev.
  { intros ms hm Hf Hms Hhm.
    destruct (wp_runs (ReverseLinkedListForKgroup.reverse fuel (hd_ptr ms None) k) (is_nodes ms None)
                (λ r, ⟨r.2 = hd_ptr (rev_groups fuel (Z.to_nat k) ms) None⟩ ∗
                      is_nodes (rev_groups fuel (Z.to_nat k) ms) None)%I hm)
      as ([out r] & h' & Hrun & [Hr Hh']%holds_pure_sep); [|exact Hhm|].
    { iIntros "Hns". iApply wp_reverse; [done..|]. iFrame "Hns". iIntros (out) "H". by iFrame. }
    cbn [snd] in Hr. subst r. by exists out, h'. }
  assert (ns ≠ []) as Hns0 by by intros ->.
  pose proof (rev_groups_Permutation fuel (Z.to_nat k) ns ltac:(lia) Hfuel) as Hperm.
  pose proof (Permutation_length Hperm) as Hlen.
  destruct (Hrev ns h Hfuel Hns0 Hns) as (out1 & h1 & Hrun1 & Hh1).
  destruct (Hrev (rev_groups fuel (Z.to_nat k) ns) h1) as (out2 & h2 & Hrun2 & Hh2); [lia| |done|].
  { intros He. rewrite He in Hlen. by destruct ns. }
  rewrite rev_groups_involutive in Hrun2, Hh2; [|lia|done].
  eexists out1, _, h1, out2, _, h2. split_and!; [exact Hrun1| |exact Hrun2|by apply is_list_nodes].
  rewrite rev_groups_fmap. by apply is_list_nodes.
Qed.

(** [reverse] cannot handle an empty list, nor groups of no nodes: it
    dereferences the NULL pointer that stands for the reversed group. *)
Theorem reverse_faults fuel p (k : Z) l h :
  is_list p l h → p = None ∨ (k ≤ 0)%Z →
  ReverseLinkedListForKgroup.reverse (S fuel) p k h = Fault NullDeref.
Proof.
  intros (ns & -> & _ & Hns)%is_list_inv [Hp|Hk]; cbn [ReverseLinkedListForKgroup.reverse].
  - rewrite Hp. by destruct (Z.to_nat k).
  - replace (Z.to_nat k) with 0 by lia. by destruct ns as [|[]].
Qed.

(** The calls of [sortedInsert] on new nodes build a sorted list of the
    values from nothing, in whatever order they come. *)
Theorem insert_all_sorts fuel ds :
  length ds ≤ fuel →
  ∃ p l h, NodeInsertLinkedList.insert_all fuel None ds ∅ = Ok (p, h) ∧
           is_list p l h ∧ Sorted Z.le l ∧ l ≡ₚ ds.
Proof.
  intros Hfuel.
  assert (∀ ds (ns : list (loc * Z)), length ns + length ds ≤ fuel → StronglySorted val_le ns →
    is_nodes ns None ⊢ wp (NodeInsertLinkedList.insert_all fuel (hd_ptr ns None) ds) (λ p,
      ∃ ms, ⟨p = hd_ptr ms None ∧ StronglySorted val_le ms ∧ ms.*2 ≡ₚ ds ++ ns.*2⟩ ∗ is_nodes ms None)) as Hall.
  { clear. induction ds as [|d ds IH]; intros ns Hfuel Hs; iIntros "Hns"; cbn [NodeInsertLinkedList.insert_all].
    - steps. iExists ns. by iFrame.
    - steps. unfold NodeInsertLinkedList.newNode, malloc_node. wp_bind. iApply wp_new. iIntros (n) "Hn".
      steps. simpl in Hfuel. iApply wp_sortedInsert; [lia|]. iFrame "Hns Hn". iIntros "Hns".
      pose proof (insert_sorted_Permutation (n, d) ns) as Hp. iApply wp_wand.
      iSplitL "Hns"; [iApply (IH with "Hns"); [rewrite Hp /=; lia|by apply insert_sorted_sorted]|].
      iIntros (p) "(%ms & %Hres & Hms')". destruct Hres as (-> & Hs' & Hms). iExists ms. iFrame. iPureIntro. split_and!; [done..|].
      rewrite Hms Hp /=. by rewrite Permutation_middle. }
  destruct (wp_runs _ _ _ ∅ (Hall ds [] Hfuel (SSorted_nil _)) (proj2 (holds_emp _) eq_refl))
    as (p & h & Hrun & ms & [(-> & Hs & Hp) Hh]%holds_pure_sep).
  eexists _, _, h. split_and!; [exact Hrun|by apply is_list_nodes| |by rewrite Hp app_nil_r].
  apply StronglySorted_Sorted. clear -Hs. induction Hs as [|x ms Hs IH Hx]; constructor; [done|].
  by apply Forall_fmap.
Qed.

(** [merge] puts the nodes of the second list between those of the first one
    and returns what is left of the second list. *)
Theorem merge_alternates fuel p q a b h :
  length a ≤ fuel → (is_list p a ∗ is_list q b)%I h →
  ∃ r h', MergeLinkedList.merge fuel p q h = Ok (r, h') ∧
          (is_list p (alternate a b).1 ∗ is_list r (alternate a b).2)%I h'.
Proof.
  intros Hfuel (ns & ms & -> & -> & <- & <- & Hh)%is_lists_inv. rewrite length_fmap in Hfuel.
  destruct (wp_runs (MergeLinkedList.merge fuel (hd_ptr ns None) (hd_ptr ms None))
              (is_nodes ns None ∗ is_nodes ms None)
              (λ r, is_list (hd_ptr ns None) (alternate ns.*2 ms.*2).1 ∗ is_list r (alternate ns.*2 ms.*2).2)%I h)
    as (r & h' & Hrun & Hh'); [|exact Hh|by exists r, h'].
  iIntros "[Ha Hb]". iApply wp_alternate; [done|]. iFrame "Ha Hb". iIntros "H1 H2".
  rewrite alternate_fmap. cbn [fst snd]. iSplitL "H1"; iExists _; iFrame; iPureIntro; [|done]. split; [|done].
  destruct ns as [|[]], ms as [|[]]; try done. simpl. by destruct (alternate ns ms).
Qed.
End whole_lists.

(** ** deleteNode and concrete lists *)
Section delete_and_examples.
Import DeleteNodeFromLinkedList.
Implicit Types (a b l : list Z) (p q x : ptr) (h : gmap loc node) (ns ms : list (loc * Z)) (n m : loc).

(** what is printed and the nodes that are left: the first node stays and takes
    over the value of the second one, any other node is unlinked *)
Definition deleted ns x : option message * list (loc * Z) :=
  match ns with
  | [] => (None, [])
  | (n, d) :: rest =>
      if decide (x = Some n) then
        match rest with
        | [] => (Some OnlyOneNode, ns)
        | (_, e) :: rest => (None, (n, e) :: rest)
        end
      else if decide (x ∈ Some <$> rest.*1) then (None, (n, d) :: filter (λ y, x ≠ Some y.1) rest)
      else (Some NotPresent, ns)
  end.

Lemma is_nodes_NoDup ns q : is_nodes ns q ⊢ ⟨NoDup ns.*1⟩ ∗ is_nodes ns q.
Proof.
  induction ns as [|[n d] ns IH].
  - rewrite is_nodes_nil. iIntros "$". iPureIntro. constructor.
  - rewrite is_nodes_cons. iIntros "[Hn Hns]". iDestruct (IH with "Hns") as "[%Hns Hns]".
    iDestruct (is_nodes_ne with "Hns Hn") as "(%Hne & $ & $)". iPureIntro. by constructor.
Qed.
Lemma filter_absent x ns : x ∉ Some <$> ns.*1 → filter (λ y, x ≠ Some y.1) ns = ns.
Proof.
  induction ns as [|[m e] ns IH]; [done|]. rewrite !fmap_cons not_elem_of_cons. intros [Hm Hx].
  rewrite filter_cons_True // IH //.
Qed.

(** [deleteNode] on a nonempty list without cycles, for every pointer:
    deleting the first node moves the second value up and frees the second
    node, except that a list of one node is refused; any other node of the
    list is unlinked and freed; a pointer that is not in the list is reported
    and nothing changes. *)
Theorem deleteNode_correct fuel ns x h :
  length ns ≤ fuel → ns ≠ [] → is_nodes ns None h →
  ∃ h', deleteNode fuel (hd_ptr ns None) x h = Ok ((deleted ns x).1, h') ∧
        is_nodes (deleted ns x).2 None h'.
Proof.
  intros Hfuel Hns Hh.
  assert (is_nodes ns None ⊢ wp (deleteNode fuel (hd_ptr ns None) x)
            (λ r, ⟨r = (deleted ns x).1⟩ ∗ is_nodes (deleted ns x).2 None)) as Hwp.
  { destruct ns as [|[n d] ns]; [done|]. simpl in Hfuel. cbn [deleted hd_ptr].
    iIntros "H". destruct (decide (x = Some n)) as [->|Hx].
    { destruct ns as [|[m e] ns].
      - iApply wp_deleteNode_single. iFrame "H". iIntros "H". by iFrame.
      - iApply wp_deleteNode_head. iFrame "H". iIntros "H". by iFrame. }
    destruct (decide (x ∈ Some <$> ns.*1)) as [Hin|Hin].
    - apply list_elem_of_fmap in Hin as (m & -> & ([m' e] & -> & Hm)%list_elem_of_fmap).
      apply list_elem_of_split in Hm as (pre & post & ->). cbn [fst].
      iDestruct (is_nodes_NoDup with "H") as "[%Hnd H]".
      rewrite fmap_cons fmap_app fmap_cons NoDup_cons NoDup_app NoDup_cons in Hnd. cbn [fst] in Hnd.
      destruct Hnd as (_ & _ & Hpre & Hpost & _).
      rewrite filter_app filter_cons_False; [|naive_solver].
      rewrite !filter_absent.
      + iApply (wp_deleteNode_inner fuel n d pre m' e post); [rewrite length_app /= in Hfuel; lia|]. iFrame "H". iIntros "H". by iFrame.
      + intros (m & [= <-] & Hm)%list_elem_of_fmap. done.
      + intros (m & [= <-] & Hm)%list_elem_of_fmap. apply (Hpre _ Hm). rewrite elem_of_cons. auto.
    - iApply (wp_deleteNode_absent fuel n d ns); [lia| |].
      + rewrite !fmap_cons not_elem_of_cons. auto.
      + iFrame "H". iIntros "H". by iFrame. }
  destruct (wp_runs _ _ _ h Hwp Hh) as (r & h' & Hrun & [-> Hh']%holds_pure_sep). by exists h'.
Qed.

(** the memory of a chain *)
Fixpoint chain_heap ns q : gmap loc node :=
  match ns with
  | [] => ∅
  | (n, d) :: ns => <[n := mk_node (Some d) (Some (hd_ptr ns q))]> (chain_heap ns q)
  end.
(** values at consecutive addresses *)
Definition at_addr n l : list (loc * Z) := zip (seq n (length l)) l.
Lemma dom_chain_heap ns q : dom (chain_heap ns q) = list_to_set ns.*1.
Proof. induction ns as [|[n d] ns IH]; simpl; [apply dom_empty_L|]. rewrite dom_insert_L IH //. Qed.
Lemma is_nodes_chain_heap ns q : NoDup ns.*1 → is_nodes ns q (chain_heap ns q).
Proof.
  induction ns as [|[n d] ns IH]; [done|]. rewrite fmap_cons NoDup_cons. cbn [fst chain_heap]. intros [Hn Hns].
  apply (holds_mono (is_nodes ns q ∗ n ↦ mk_node (Some d) (Some (hd_ptr ns q)))%I).
  { rewrite is_nodes_cons. iIntros "[$ $]". }
  apply holds_fresh; [by apply IH|]. apply not_elem_of_dom. rewrite dom_chain_heap elem_of_list_to_set //.
Qed.
Lemma is_list_chain_heap ns : NoDup ns.*1 → is_list (hd_ptr ns None) ns.*2 (chain_heap ns None).
Proof. intros. by apply is_list_nodes, is_nodes_chain_heap. Qed.
Lemma is_lists_chain_heap ns ms :
  NoDup (ns.*1 ++ ms.*1) →
  (is_list (hd_ptr ns None) ns.*2 ∗ is_list (hd_ptr ms None) ms.*2)%I
    (chain_heap ns None ∪ chain_heap ms None).
Proof.
  rewrite NoDup_app. intros (Hns & Hdis & Hms). exists (chain_heap ns None), (chain_heap ms None).
  split_and!; [done| |by apply is_list_chain_heap..].
  apply map_disjoint_dom. rewrite !dom_chain_heap. set_solver.
Qed.
End delete_and_examples.

(** 999 and 18 *)
Lemma addList_correct_witness :
  ∃ r s h', AddNumberByLinkedList.addList 3 (Some 0) (Some 3)
              (chain_heap (at_addr 0 [9; 9; 9]%Z) None ∪ chain_heap (at_addr 3 [1; 8]%Z) None) = Ok (r, h') ∧
            num s = 1017%Z.
Proof.
  destruct (addList_correct 3 (Some 0) (Some 3) [9; 9; 9]%Z [1; 8]%Z
              (chain_heap (at_addr 0 [9; 9; 9]%Z) None ∪ chain_heap (at_addr 3 [1; 8]%Z) None))
    as (r & s & h' & Hrun & _ & _ & Hnum); [simpl; lia|simpl; lia|done|done|..].
  - repeat constructor; unfold digit; lia.
  - repeat constructor; unfold digit; lia.
  - apply (is_lists_chain_heap (at_addr 0 [9; 9; 9]%Z) (at_addr 3 [1; 8]%Z)). compute_done.
  - by exists r, s, h'.
Defined.
Lemma SortedMerge_same_witness :
  ∃ out r h', MergeTwoLinkedList.SortedMerge 11 (Some 0) (Some 3)
                (chain_heap (at_addr 0 [5; 10; 15]%Z) None ∪ chain_heap (at_addr 3 [2; 3]%Z) None) = Ok ((out, r), h') ∧
              is_list r [2; 3; 5; 10; 15]%Z h'.
Proof.
  destruct (SortedMerge_same 11 (Some 0) (Some 3) [5; 10; 15]%Z [2; 3]%Z
              (chain_heap (at_addr 0 [5; 10; 15]%Z) None ∪ chain_heap (at_addr 3 [2; 3]%Z) None))
    as (out & r & h' & Hrun & _ & Hl & _); [simpl; lia| |by exists out, r, h'].
  apply (is_lists_chain_heap (at_addr 0 [5; 10; 15]%Z) (at_addr 3 [2; 3]%Z)). compute_done.
Defined.
Lemma reverse_twice_witness :
  ∃ out r h', ReverseLinkedListForKgroup.reverse 5 (Some 0) 2
                (chain_heap (at_addr 0 [1; 2; 3; 4; 5]%Z) None) = Ok ((out, r), h') ∧
              is_list r [2; 1; 4; 3; 5]%Z h'.
Proof.
  destruct (reverse_twice 5 (Some 0) 2 [1; 2; 3; 4; 5]%Z (chain_heap (at_addr 0 [1; 2; 3; 4; 5]%Z) None))
    as (out & r & h' & _ & _ & _ & Hrun & Hl & _); [simpl; lia|lia|done| |by exists out, r, h'].
  apply (is_list_chain_heap (at_addr 0 [1; 2; 3; 4; 5]%Z)). compute_done.
Defined.
Lemma reverse_faults_witness :
  ReverseLinkedListForKgroup.reverse 5 (Some 0) 0 (chain_heap (at_addr 0 [7]%Z) None) = Fault NullDeref.
Proof.
  apply (reverse_faults 4 (Some 0) 0 [7]%Z); [|right; lia].
  apply (is_list_chain_heap (at_addr 0 [7]%Z)). compute_done.
Defined.
Lemma insert_all_sorts_witness :
  ∃ p l h, NodeInsertLinkedList.insert_all 6 None [5; 10; 7; 3; 1; 9]%Z ∅ = Ok (p, h) ∧
           is_list p l h ∧ Sorted Z.le l.
Proof.
  destruct (insert_all_sorts 6 [5; 10; 7; 3; 1; 9]%Z) as (p & l & h & Hrun & Hl & Hs & _); [simpl; lia|].
  exists p, l, h. exact (conj Hrun (conj Hl Hs)).
Defined.
Lemma deleteNode_correct_witness :
  ∃ h', DeleteNodeFromLinkedList.deleteNode 3 (Some 0) (Some 1)
          (chain_heap (at_addr 0 [12; 15; 10]%Z) None) = Ok (None, h') ∧
        is_nodes [(0, 12%Z); (2, 10%Z)] None h'.
Proof.
  destruct (deleteNode_correct 3 (at_addr 0 [12; 15; 10]%Z) (Some 1)
              (chain_heap (at_addr 0 [12; 15; 10]%Z) None)) as (h' & Hrun & Hh'); [simpl; lia|done| |by exists h'].
  apply (is_nodes_chain_heap (at_addr 0 [12; 15; 10]%Z)). compute_done.
Defined.

(** ** The programs *)
Definition prints {A} (m : LinkedList.prog A) : option A :=
  match m ∅ with Ok (out, _) => Some out | _ => None end.
Example list_programs :
  prints (AddNumberByLinkedList.main 9) = Some [1; 0; 1; 7]%Z ∧
  prints (AddNumberByLinkedList.AddLinkedList 9) = Some [9; 3; 7]%Z ∧
  prints (MergeTwoLinkedList.main 9) = Some [2; 3; 5; 10; 15; 20]%Z ∧
  prints (MergeLinkedList.main 9) = Some [[1; 2; 3]; [4; 5; 6; 7; 8]; [1; 4; 2; 5; 3; 6]; [7; 8]]%Z ∧
  prints (DeleteNodeFromLinkedList.main 9) =
    Some ([[12; 15; 10; 11; 5; 6; 2; 3]; [12; 15; 11; 5; 6; 2; 3]; [15; 11; 5; 6; 2; 3]], 10)%Z ∧
  prints (ReverseLinkedListForKgroup.main 9) = Some ([1; 2; 3; 4; 5; 6; 7], [3; 2; 1; 6; 5; 4; 7])%Z ∧
  prints (NodeInsertLinkedList.main 9) = Some [1; 3; 5; 7; 9; 10]%Z.
Proof. vm_compute. split_and!; reflexivity. Qed.
