(* ===== verification/ListCycle.v ===== *)
(** Finding and removing a cycle in a linked list: Floyd's algorithm in
    DetectCircleInList.h, RemoveCycleInList.h and RemoveCycle.h.

    The three files have the same loop with two pointers; [found] is what they do
    when the pointers meet.  The nodes are those of LinkedList.v. *)

From iris.proofmode Require Import proofmode.
From S2P Require Import Prelude Int Heap LinkedList.

Implicit Types (p q head loop_node slow_p fast_p : ptr) (fuel : nat).

(** [while (slow_p && fast_p && fast_p->next)] *)
Fixpoint floyd_loop (found : ptr → prog Z) fuel slow_p fast_p : prog Z :=
  match fuel with
  | O => out_of_fuel
  | S fuel =>
      go ← mret (negb (slow_p =p? None)) &&& mret (negb (fast_p =p? None)) &&&
           (x ← get_next fast_p; mret (negb (x =p? None)));
      if go : bool then
        slow_p ← get_next slow_p;
        x ← get_next fast_p; fast_p ← get_next x;
        if slow_p =p? fast_p then found slow_p else floyd_loop found fuel slow_p fast_p
      else mret 0%Z
  end.

(** [while (p->next != q) p = p->next;]: the last [p] and the number of steps *)
Fixpoint walk_until fuel p q : prog (ptr * nat) :=
  match fuel with
  | O => out_of_fuel
  | S fuel =>
      x ← get_next p;
      if x =p? q then mret (p, 0)
      else p ← get_next p; '(p, k) ← walk_until fuel p q; mret (p, S k)
  end.

Module DetectCircleInList.
Definition detectloop fuel (list : ptr) : prog Z := floyd_loop (λ _, mret 1%Z) fuel list list.
End DetectCircleInList.

Module RemoveCycleInList.

(** [for (i = 0; i < k; i++) ptr2 = ptr2->next;] *)
Fixpoint advance (k : nat) (ptr2 : ptr) : prog ptr :=
  match k with O => mret ptr2 | S k => ptr2 ← get_next ptr2; advance k ptr2 end.
(** [while (ptr2 != ptr1)], both pointers move *)
Fixpoint meet fuel (ptr1 ptr2 : ptr) : prog (ptr * ptr) :=
  match fuel with
  | O => out_of_fuel
  | S fuel =>
      if ptr2 =p? ptr1 then mret (ptr1, ptr2)
      else ptr1 ← get_next ptr1; ptr2 ← get_next ptr2; meet fuel ptr1 ptr2
  end.

Definition removeLoop fuel loop_node head : prog unit :=
  '(_, steps) ← walk_until fuel loop_node loop_node;
  let k := 1 + steps in
  ptr2 ← advance k head;
  '(ptr1, ptr2) ← meet fuel head ptr2;
  ptr2 ← get_next ptr2;
  '(ptr2, _) ← walk_until fuel ptr2 ptr1;
  set_next ptr2 None.

Definition detectAndRemoveLoop fuel (list : ptr) : prog Z :=
  floyd_loop (λ slow_p, _ ← removeLoop fuel slow_p list; mret 1%Z) fuel list list.

Definition linkNode (key : Z) : prog ptr :=
  temp ← malloc_node; _ ← set_data temp key; _ ← set_next temp None; mret temp.

(** RemoveLoopList of training.cpp: the list after the loop is removed;
    [advance k head] is [head->next->...->next] *)
Definition RemoveLoopList fuel : prog (list Z) :=
  head ← linkNode 50;
  n ← linkNode 20; _ ← set_next head n;
  n ← linkNode 15; p ← advance 1 head; _ ← set_next p n;
  n ← linkNode 4; p ← advance 2 head; _ ← set_next p n;
  n ← linkNode 10; p ← advance 3 head; _ ← set_next p n;
  n ← advance 2 head; p ← advance 4 head; _ ← set_next p n;
  _ ← detectAndRemoveLoop fuel head;
  printList fuel head.
End RemoveCycleInList.

Module RemoveCycle.

(** [while (ptr2->next != loop_node && ptr2->next != ptr1) ptr2 = ptr2->next;] *)
Fixpoint search fuel loop_node (ptr1 ptr2 : ptr) : prog ptr :=
  match fuel with
  | O => out_of_fuel
  | S fuel =>
      go ← (x ← get_next ptr2; mret (negb (x =p? loop_node))) &&&
           (x ← get_next ptr2; mret (negb (x =p? ptr1)));
      if go : bool then ptr2 ← get_next ptr2; search fuel loop_node ptr1 ptr2 else mret ptr2
  end.
(** [while (1)]; [fuel'] bounds the inner loop *)
Fixpoint removeLoop_loop fuel fuel' loop_node (ptr1 : ptr) : prog ptr :=
  match fuel with
  | O => out_of_fuel
  | S fuel =>
      ptr2 ← search fuel' loop_node ptr1 loop_node;
      x ← get_next ptr2;
      if x =p? ptr1 then mret ptr2
      else ptr1 ← get_next ptr1; removeLoop_loop fuel fuel' loop_node ptr1
  end.
Definition removeLoop fuel loop_node head : prog unit :=
  ptr2 ← removeLoop_loop fuel fuel loop_node head; set_next ptr2 None.

Definition detectAndRemoveLoop fuel (list : ptr) : prog Z :=
  floyd_loop (λ slow_p, _ ← removeLoop fuel slow_p list; mret 1%Z) fuel list list.
End RemoveCycle.
