(* ===== verification/ListCycleProps.v ===== *)
(** Floyd's algorithm is correct on every list: what the walks of its pointers
    visit, where they meet, and that removing the link found leaves the same
    nodes as a straight list. *)

From iris.proofmode Require Import proofmode environments coq_tactics reduction.
From S2P Require Import Prelude Int Heap HeapTactics LinkedList LinkedListProps LinkedListTheorems ListCycle.

(** ** Walks in a lasso *)
Section walks.
Variables (pre cyc : list (loc * Z)) (h : gmap loc node).
(** the nodes [pre] lead to the cycle [cyc], or to NULL when [cyc] is empty *)
Hypothesis Hlasso : is_nodes (pre ++ cyc) (hd_ptr cyc None) h.
Implicit Types (i j k fuel : nat) (n : loc) (p q : ptr).

#[local] Abbreviation N := (pre ++ cyc).
#[local] Abbreviation μ := (length pre).
#[local] Abbreviation λc := (length cyc).

(** the index of the node that [k] steps from the head reach *)
Definition pos k : nat :=
  if decide (k < μ) then k else if decide (λc = 0) then k else μ + (k - μ) `mod` λc.
Definition node_at k : ptr := fst <$> N !! pos k.

Lemma lasso_NoDup : NoDup N.*1.
Proof.
  pose proof (holds_mono _ _ _ (is_nodes_NoDup N (hd_ptr cyc None)) Hlasso) as Hh.
  by apply holds_pure_sep in Hh as [? _].
Qed.
Lemma lasso_lookup i n d :
  N !! i = Some (n, d) →
  h !! n = Some (mk_node (Some d) (Some (hd_ptr (drop (S i) N) (hd_ptr cyc None)))).
Proof.
  intros Hi. pose proof Hlasso as Hh. rewrite -(take_drop_middle _ _ _ Hi) in Hh.
  apply (holds_cell n _ (is_nodes (take i N) (Some n) ∗ is_nodes (drop (S i) N) (hd_ptr cyc None))%I).
  refine (holds_mono _ _ _ _ Hh). rewrite is_nodes_app is_nodes_cons. iIntros "($ & $ & $)".
Qed.

Lemma node_at_0 : node_at 0 = hd_ptr N None.
Proof using.
  clear Hlasso.
  unfold node_at. assert (pos 0 = 0) as ->.
  { unfold pos. repeat case_decide; [done..|]. rewrite Nat.sub_0_l Nat.Div0.mod_0_l. lia. }
  destruct pre as [|[n d] pre']; [|done]. by destruct cyc as [|[n d] cyc'].
Qed.
Lemma pos_straight k : k < length N → pos k = k.
Proof.
  rewrite length_app. unfold pos. intros Hk. repeat case_decide; [done..|].
  rewrite Nat.mod_small; lia.
Qed.
Lemma pos_bound k : cyc ≠ [] → pos k < length N.
Proof.
  intros Hcyc. assert (λc ≠ 0) by by destruct cyc. rewrite length_app. unfold pos.
  repeat case_decide; [lia|lia|]. pose proof (Nat.mod_upper_bound (k - μ) λc). lia.
Qed.
Lemma pos_succ k : cyc ≠ [] → pos (S k) = if decide (S (pos k) < length N) then S (pos k) else μ.
Proof.
  intros Hcyc. assert (λc ≠ 0) by by destruct cyc. rewrite length_app.
  destruct (decide (S k < μ)).
  { rewrite /pos. repeat case_decide; lia. }
  destruct (decide (k < μ)).
  { rewrite /pos. replace (S k - μ) with 0 by lia. rewrite Nat.Div0.mod_0_l. repeat case_decide; lia. }
  pose proof (Nat.mod_upper_bound (k - μ) λc). pose proof (Nat.div_mod (k - μ) λc).
  rewrite /pos Nat.sub_succ_l; [|lia]. repeat case_decide; try lia.
  - rewrite -(Nat.mod_unique (S (k - μ)) λc ((k - μ) / λc) (S ((k - μ) `mod` λc))); lia.
  - rewrite -(Nat.mod_unique (S (k - μ)) λc (S ((k - μ) / λc)) 0); lia.
Qed.

Lemma node_at_Some k : pos k < length N → is_Some (node_at k).
Proof. intros. by apply fmap_is_Some, lookup_lt_is_Some_2. Qed.
Lemma node_at_cycle k : cyc ≠ [] → is_Some (node_at k).
Proof. intros. by apply node_at_Some, pos_bound. Qed.

(** one step of a pointer *)
Lemma get_next_node_at k : is_Some (node_at k) → get_next (node_at k) h = Ok (node_at (S k), h).
Proof.
  unfold node_at at 1 2. intros [n Hn]. rewrite Hn.
  destruct (N !! pos k) as [[n' d]|] eqn:Hk; [|done]. injection Hn as ->.
  unfold get_next, mbind, prog_bind, load. cbn. rewrite (lasso_lookup _ _ _ Hk). cbn. do 2 f_equal.
  apply lookup_lt_Some in Hk as Hlt. unfold node_at. destruct (decide (cyc = [])) as [Hc|Hc].
  - assert (∀ j, pos j = j) as Hp by (intros j; rewrite /pos Hc; by case_decide).
    rewrite !Hp Hc. destruct (drop (S k) (pre ++ [])) as [|[m e] l] eqn:Hd; cbn [hd_ptr].
    + rewrite lookup_ge_None_2 //. apply (f_equal length) in Hd. rewrite length_drop in Hd. simpl in Hd. lia.
    + rewrite -{1}(Nat.add_0_r (S k)) -lookup_drop Hd //.
  - rewrite pos_succ //. case_decide as Hs.
    + destruct (drop (S (pos k)) N) as [|[m e] l] eqn:Hd; cbn [hd_ptr].
      * apply (f_equal length) in Hd. rewrite length_drop in Hd. simpl in Hd. lia.
      * rewrite -{1}(Nat.add_0_r (S (pos k))) -lookup_drop Hd //.
    + rewrite drop_ge; [|lia]. cbn [hd_ptr]. rewrite lookup_app_r // Nat.sub_diag.
      by destruct cyc as [|[m e] l].
Qed.

(** two walks are at the same node when they are a number of rounds apart *)
Lemma node_at_inj j k : is_Some (node_at j) → node_at j = node_at k → pos j = pos k.
Proof.
  unfold node_at. intros [n Hn] Hjk. rewrite Hn in Hjk. symmetry in Hjk.
  rewrite -list_lookup_fmap in Hn. rewrite -list_lookup_fmap in Hjk.
  by apply (NoDup_lookup N.*1 _ _ n lasso_NoDup).
Qed.
Lemma node_at_meet j k :
  cyc ≠ [] → j ≤ k → node_at j = node_at k ↔ j = k ∨ μ ≤ j ∧ (k - j) `mod` λc = 0.
Proof.
  intros Hcyc Hjk. assert (λc ≠ 0) by by destruct cyc. split.
  - intros Heq%node_at_inj; [|by apply node_at_cycle]. unfold pos in Heq.
    pose proof (Nat.mod_upper_bound (k - μ) λc). pose proof (Nat.mod_upper_bound (j - μ) λc).
    repeat case_decide; try lia. right. split; [lia|].
    replace (k - j) with ((k - μ) - (j - μ)) by lia.
    pose proof (Nat.div_mod (k - μ) λc). pose proof (Nat.div_mod (j - μ) λc).
    symmetry. apply (Nat.mod_unique _ _ ((k - μ) / λc - (j - μ) / λc)); [lia|]. rewrite Nat.mul_sub_distr_l. nia.
  - intros [->|[Hj Hmod]]; [done|]. unfold node_at, pos. rewrite !(decide_False (P := _ < _)); [|lia..].
    case_decide; [done|]. do 3 f_equal. apply Nat.Div0.mod_divides in Hmod as [c Hc].
    replace (k - μ) with (j - μ + c * λc) by lia. by rewrite Nat.Div0.mod_add.
Qed.
Lemma node_at_straight j k : j < length N → k < length N → node_at j = node_at k → j = k.
Proof.
  intros Hj Hk Heq. apply node_at_inj in Heq; [by rewrite !pos_straight in Heq|].
  apply node_at_Some. by rewrite pos_straight.
Qed.

Lemma node_at_not_null k : is_Some (node_at k) → (node_at k =p? None) = false.
Proof. intros [n ->]. by apply ptr_eqb_neq. Qed.

(** ** The loop with two pointers *)
Lemma floyd_step found fuel j f :
  is_Some (node_at j) → is_Some (node_at f) → is_Some (node_at (S f)) →
  floyd_loop found (S fuel) (node_at j) (node_at f) h =
  if node_at (S j) =p? node_at (S (S f)) then found (node_at (S j)) h
  else floyd_loop found fuel (node_at (S j)) (node_at (S (S f))) h.
Proof.
  intros H1 H2 H3. cbn [floyd_loop]. unfold andM, mbind, prog_bind, mret, prog_ret.
  rewrite !node_at_not_null //=. rewrite (get_next_node_at f) // node_at_not_null //=.
  rewrite (get_next_node_at j) // (get_next_node_at f) // (get_next_node_at (S f)) //.
  by destruct (node_at (S j) =p? node_at (S (S f))).
Qed.
Lemma floyd_end found fuel j f :
  ¬ (is_Some (node_at j) ∧ is_Some (node_at f) ∧ is_Some (node_at (S f))) →
  floyd_loop found (S fuel) (node_at j) (node_at f) h = Ok (0%Z, h).
Proof.
  intros Hno. cbn [floyd_loop]. unfold andM, mbind, prog_bind, mret, prog_ret.
  destruct (decide (is_Some (node_at j))) as [Hj|Hj%eq_None_not_Some]; [|by rewrite Hj].
  rewrite node_at_not_null //=.
  destruct (decide (is_Some (node_at f))) as [Hf|Hf%eq_None_not_Some]; [|by rewrite Hf].
  rewrite node_at_not_null //= get_next_node_at //.
  destruct (decide (is_Some (node_at (S f)))) as [Hs|Hs%eq_None_not_Some]; [tauto|by rewrite Hs].
Qed.

(** with a cycle the pointers meet in it *)
Lemma floyd_cycle found fuel :
  cyc ≠ [] → length N < fuel →
  ∃ k, μ ≤ k ∧ floyd_loop found fuel (node_at 0) (node_at 0) h = found (node_at k) h.
Proof.
  intros Hcyc. assert (λc ≠ 0) as Hc by by destruct cyc. rewrite length_app. intros Hfuel.
  pose (K := λc * (μ / λc + 1)).
  assert (μ ≤ K ∧ 1 ≤ K ∧ K ≤ μ + λc) as (HK1 & HK2 & HK3).
  { subst K. pose proof (Nat.div_mod μ λc Hc). pose proof (Nat.mod_upper_bound μ λc Hc). nia. }
  assert (K `mod` λc = 0) as HK by (rewrite /K Nat.mul_comm; apply Nat.Div0.mod_mul).
  clearbody K. assert (∀ d j, j + d = K → j < K → d < fuel →
    ∃ k, μ ≤ k ∧ floyd_loop found fuel (node_at j) (node_at (2 * j)) h = found (node_at k) h) as Hloop.
  { clear Hfuel. revert fuel. intros fuel d. revert fuel. induction d as [|d IH]; intros fuel j Hd Hj Hf; [lia|].
    destruct fuel as [|fuel]; [lia|]. rewrite floyd_step; [|by apply node_at_cycle..].
    replace (S (S (2 * j))) with (2 * S j) by lia.
    destruct (decide (node_at (S j) = node_at (2 * S j))) as [Heq|Hne].
    - rewrite Heq ptr_eqb_refl. exists (2 * S j). apply node_at_meet in Heq; [|done|lia]. split; [lia|done].
    - rewrite ptr_eqb_neq //. apply IH; [lia| |lia].
      destruct (decide (S j = K)) as [<-|]; [|lia]. destruct Hne. apply node_at_meet; [done|lia|]. right.
      split; [done|]. by replace (2 * S j - S j) with (S j) by lia. }
  destruct (Hloop K 0) as (k & Hk & Hrun); [lia..|]. by exists k.
Qed.

(** without one the first pointer falls off the list *)
Lemma floyd_straight found fuel :
  cyc = [] → length N < fuel → floyd_loop found fuel (node_at 0) (node_at 0) h = Ok (0%Z, h).
Proof.
  intros Hcyc Hfuel.
  assert (∀ j, is_Some (node_at j) ↔ j < length N) as Hsome.
  { intros j. unfold node_at. rewrite fmap_is_Some lookup_lt_is_Some. unfold pos. rewrite Hcyc. by case_decide. }
  assert (∀ d j, length N ≤ j + d → d < fuel →
    floyd_loop found fuel (node_at j) (node_at (2 * j)) h = Ok (0%Z, h)) as Hloop.
  { clear Hfuel. intros d. revert fuel. induction d as [|d IH]; intros fuel j Hd Hf.
    { destruct fuel as [|fuel]; [lia|]. apply floyd_end. rewrite !Hsome. lia. }
    destruct fuel as [|fuel]; [lia|].
    destruct (decide (2 * j + 1 < length N)); [|apply floyd_end; rewrite !Hsome; lia].
    rewrite floyd_step; [|apply Hsome; lia..].
    replace (S (S (2 * j))) with (2 * S j) by lia. rewrite ptr_eqb_neq; [apply IH; lia|].
    intros Heq. assert (is_Some (node_at (S j))) as Hs by (apply Hsome; lia).
    assert (2 * S j < length N) as H2 by (apply Hsome; by rewrite -Heq).
    apply node_at_straight in Heq; lia. }
  apply (Hloop (length N) 0); lia.
Qed.

(** ** Walks around the cycle *)
Lemma walk_until_runs fuel j m t :
  cyc ≠ [] → m < fuel → node_at (S (j + m)) = node_at t →
  (∀ i, i < m → node_at (S (j + i)) ≠ node_at t) →
  walk_until fuel (node_at j) (node_at t) h = Ok ((node_at (j + m), m), h).
Proof.
  intros Hcyc. revert fuel j; induction m as [|m IH]; intros [|fuel] j Hf Ht Hm; try lia; cbn [walk_until];
    unfold mbind, prog_bind; rewrite get_next_node_at; try by apply node_at_cycle.
  - rewrite Nat.add_0_r in Ht. by rewrite Ht ptr_eqb_refl Nat.add_0_r.
  - rewrite ptr_eqb_neq; [|specialize (Hm 0); rewrite Nat.add_0_r in Hm; apply Hm; lia].
    rewrite get_next_node_at; [|by apply node_at_cycle]. rewrite IH; [by rewrite -Nat.add_succ_comm|lia| |].
    + by rewrite Nat.add_succ_comm.
    + intros i Hi. rewrite Nat.add_succ_comm. apply Hm. lia.
Qed.

(** ** Removing the link to the start of the cycle *)
Section removal.
Hypothesis Hcyc : cyc ≠ [].
Let Hc : λc ≠ 0.
Proof. by destruct cyc. Qed.

(** the last node gets NULL *)
Lemma unlink_runs k :
  pos k = length N - 1 →
  ∃ h', set_next (node_at k) None h = Ok (tt, h') ∧ is_nodes N None h'.
Proof.
  intros Hk. pose proof Hlasso as Hh. unfold node_at. rewrite Hk.
  destruct N as [|[n d] N' _] eqn:HN using rev_ind; [by destruct pre, cyc|].
  rewrite length_app Nat.add_sub lookup_app_r // Nat.sub_diag. cbn.
  destruct (wp_runs (set_next (Some n) None) (is_nodes (N' ++ [(n, d)]) (hd_ptr cyc None))
              (λ _, is_nodes (N' ++ [(n, d)]) None) h) as ([] & h' & Hrun & Hh'); [|done|by exists h'].
  rewrite is_nodes_snoc. iIntros "[H Hn]". steps. rewrite is_nodes_snoc. iFrame.
Qed.

Lemma advance_runs k j : RemoveCycleInList.advance k (node_at j) h = Ok (node_at (j + k), h).
Proof.
  revert j; induction k as [|k IH]; intros j; cbn [RemoveCycleInList.advance]; [by rewrite Nat.add_0_r|].
  unfold mbind, prog_bind. rewrite get_next_node_at; [|by apply node_at_cycle]. by rewrite IH Nat.add_succ_comm.
Qed.
(** pointers at a distance of one round meet at the start of the cycle *)
Lemma meet_runs fuel i :
  i ≤ μ → μ - i < fuel →
  RemoveCycleInList.meet fuel (node_at i) (node_at (i + λc)) h = Ok ((node_at μ, node_at (μ + λc)), h).
Proof.
  revert i; induction fuel as [|fuel IH]; intros i Hi Hf; [lia|]. cbn [RemoveCycleInList.meet].
  destruct (decide (i = μ)) as [->|Hne].
  - assert (node_at μ = node_at (μ + λc)) as <-; [|by rewrite ptr_eqb_refl].
    apply node_at_meet; [done|lia|]. right. split; [done|]. rewrite Nat.add_comm Nat.add_sub. apply Nat.Div0.mod_same.
  - rewrite ptr_eqb_neq; [|intros Heq; symmetry in Heq; apply node_at_meet in Heq; [lia|done|lia]].
    unfold mbind, prog_bind. rewrite !get_next_node_at; [|by apply node_at_cycle..].
    change (S (i + λc)) with (S i + λc). apply IH; lia.
Qed.

Lemma removeLoop_counting fuel k :
  μ ≤ k → length N < fuel →
  ∃ h', RemoveCycleInList.removeLoop fuel (node_at k) (node_at 0) h = Ok (tt, h') ∧ is_nodes N None h'.
Proof.
  rewrite length_app. intros Hk Hf. unfold RemoveCycleInList.removeLoop.
  assert (walk_until fuel (node_at k) (node_at k) h = Ok ((node_at (k + (λc - 1)), λc - 1), h)) as Hcount.
  { apply walk_until_runs; [done|lia| |].
    - symmetry. apply node_at_meet; [done|lia|]. right. split; [done|].
      replace (S (k + (λc - 1)) - k) with λc by lia. apply Nat.Div0.mod_same.
    - intros i Hi Heq. symmetry in Heq. apply node_at_meet in Heq as [|[_ Hmod]]; [lia| |done|lia].
      rewrite Nat.mod_small in Hmod; lia. }
  rewrite (run_bind _ _ _ _ _ Hcount). cbn beta iota. replace (1 + (λc - 1)) with λc by lia.
  rewrite (run_bind _ _ _ _ _ (advance_runs λc 0)) (run_bind _ _ _ _ _ (meet_runs fuel 0 ltac:(lia) ltac:(lia))).
  cbn beta iota. rewrite (run_bind _ _ _ _ _ (get_next_node_at _ (node_at_cycle _ Hcyc))).
  set (m := if decide (λc = 1) then 0 else λc - 2).
  assert (walk_until fuel (node_at (S (μ + λc))) (node_at μ) h = Ok ((node_at (S (μ + λc) + m), m), h)) as Hlast.
  { apply walk_until_runs; [done|subst m; case_decide; lia| |].
    - symmetry. apply node_at_meet; [done|lia|]. right. split; [done|]. subst m. case_decide as H1.
      + rewrite H1. apply Nat.mod_1_r.
      + replace (S (S (μ + λc) + (λc - 2)) - μ) with (2 * λc) by lia. apply Nat.Div0.mod_mul.
    - intros i Hi Heq. symmetry in Heq. subst m. case_decide; [lia|].
      apply node_at_meet in Heq as [|[_ Hmod]]; [lia| |done|lia].
      replace (S (S (μ + λc) + i) - μ) with (i + 2 + 1 * λc) in Hmod by lia.
      rewrite Nat.Div0.mod_add Nat.mod_small in Hmod; lia. }
  rewrite (run_bind _ _ _ _ _ Hlast). cbn beta iota. apply unlink_runs. rewrite length_app.
  subst m. destruct (decide (λc = 1)) as [H1|H1]; unfold pos; rewrite !decide_False; try lia.
  - rewrite H1 Nat.mod_1_r. lia.
  - replace (S (μ + λc) + (λc - 2) - μ) with (λc - 1 + 1 * λc) by lia.
    rewrite Nat.Div0.mod_add Nat.mod_small; lia.
Qed.

(** the inner loop of the other variant *)
Lemma search_runs fuel k t j m :
  m < fuel → node_at (S (j + m)) = node_at k ∨ node_at (S (j + m)) = node_at t →
  (∀ i, i < m → node_at (S (j + i)) ≠ node_at k ∧ node_at (S (j + i)) ≠ node_at t) →
  RemoveCycle.search fuel (node_at k) (node_at t) (node_at j) h = Ok (node_at (j + m), h).
Proof.
  revert fuel j; induction m as [|m IH]; intros [|fuel] j Hf Ht Hm; try lia; cbn [RemoveCycle.search];
    unfold andM, mbind, prog_bind, mret, prog_ret; rewrite !get_next_node_at; try by apply node_at_cycle.
  - rewrite !Nat.add_0_r in Ht |- *. destruct Ht as [Ht|Ht].
    + by rewrite Ht ptr_eqb_refl.
    + destruct (node_at (S j) =p? node_at k) eqn:He; simpl; [done|].
      rewrite get_next_node_at; [|by apply node_at_cycle]. by rewrite Ht ptr_eqb_refl.
  - destruct (Hm 0 ltac:(lia)) as [H1 H2]. rewrite Nat.add_0_r in H1, H2.
    rewrite ptr_eqb_neq //= get_next_node_at; [|by apply node_at_cycle].
    rewrite ptr_eqb_neq //= get_next_node_at; [|by apply node_at_cycle].
    rewrite IH; [by rewrite Nat.add_succ_comm|lia|by rewrite Nat.add_succ_comm|].
    intros i Hi. rewrite Nat.add_succ_comm. apply Hm. lia.
Qed.

(** the head pointer finds the start of the cycle, and the inner loop the last node *)
Lemma removeLoop_loop_runs fuel fuel' k i :
  μ ≤ k → i ≤ μ → μ - i < fuel → λc < fuel' →
  ∃ m, pos m = length N - 1 ∧
       RemoveCycle.removeLoop_loop fuel fuel' (node_at k) (node_at i) h = Ok (node_at m, h).
Proof.
  intros Hk. revert i; induction fuel as [|fuel IH]; intros i Hi Hf Hf'; [lia|].
  cbn [RemoveCycle.removeLoop_loop].
  assert (∀ j, j < λc - 1 → node_at (S (k + j)) ≠ node_at k) as Hround.
  { intros j Hj Heq. symmetry in Heq. apply node_at_meet in Heq as [|[_ Hmod]]; [lia| |done|lia].
    rewrite Nat.mod_small in Hmod; lia. }
  assert (node_at (S (k + (λc - 1))) = node_at k) as Hback.
  { symmetry. apply node_at_meet; [done|lia|]. right. split; [done|].
    replace (S (k + (λc - 1)) - k) with λc by lia. apply Nat.Div0.mod_same. }
  destruct (decide (i = μ)) as [->|Hne].
  - set (r := (k - μ) `mod` λc). assert (r < λc) by by apply Nat.mod_upper_bound.
    assert (∀ j, (S (k + j) - μ) `mod` λc = (r + S j) `mod` λc) as Hmods.
    { intros j. replace (S (k + j) - μ) with (k - μ + S j) by lia. by rewrite Nat.Div0.add_mod_idemp_l. }
    exists (k + (λc - 1 - r)). split.
    { rewrite length_app. unfold pos. rewrite !decide_False; [|lia..].
      replace (k + (λc - 1 - r) - μ) with (k - μ + (λc - 1 - r)) by lia.
      rewrite -Nat.Div0.add_mod_idemp_l -/r Nat.mod_small; lia. }
    assert (node_at (S (k + (λc - 1 - r))) = node_at μ) as Hstart.
    { symmetry. apply node_at_meet; [done|lia|]. right. split; [done|]. rewrite Hmods.
      replace (r + S (λc - 1 - r)) with λc by lia. apply Nat.Div0.mod_same. }
    assert (RemoveCycle.search fuel' (node_at k) (node_at μ) (node_at k) h = Ok (node_at (k + (λc - 1 - r)), h))
      as Hsearch.
    { apply search_runs; [lia|by right|]. intros j Hj. split; [apply Hround; lia|]. intros Heq. symmetry in Heq.
      apply node_at_meet in Heq as [|[_ Hmod]]; [lia| |done|lia]. rewrite Hmods Nat.mod_small in Hmod; lia. }
    rewrite (run_bind _ _ _ _ _ Hsearch) (run_bind _ _ _ _ _ (get_next_node_at _ (node_at_cycle _ Hcyc))).
    by rewrite Hstart ptr_eqb_refl.
  - assert (∀ j, node_at (S (k + j)) ≠ node_at i) as Hout.
    { intros j Heq. symmetry in Heq. apply node_at_meet in Heq; [lia|done|lia]. }
    assert (RemoveCycle.search fuel' (node_at k) (node_at i) (node_at k) h = Ok (node_at (k + (λc - 1)), h))
      as Hsearch.
    { apply search_runs; [lia|by left|]. intros j Hj. split; [by apply Hround|apply Hout]. }
    rewrite (run_bind _ _ _ _ _ Hsearch) (run_bind _ _ _ _ _ (get_next_node_at _ (node_at_cycle _ Hcyc))).
    rewrite ptr_eqb_neq // (run_bind _ _ _ _ _ (get_next_node_at _ (node_at_cycle _ Hcyc))). apply IH; lia.
Qed.
Lemma removeLoop_checking fuel k :
  μ ≤ k → length N < fuel →
  ∃ h', RemoveCycle.removeLoop fuel (node_at k) (node_at 0) h = Ok (tt, h') ∧ is_nodes N None h'.
Proof.
  rewrite length_app. intros Hk Hf.
  destruct (removeLoop_loop_runs fuel fuel k 0) as (m & Hm & Hrun); [lia..|].
  unfold RemoveCycle.removeLoop. rewrite (run_bind _ _ _ _ _ Hrun). by apply unlink_runs.
Qed.
End removal.
End walks.

(** ** The functions *)
Section detect.
Implicit Types (pre cyc : list (loc * Z)) (fuel : nat) (h : gmap loc node).

(** the answer of the functions: 1 when there is a cycle *)
Definition has_cycle cyc : Z := match cyc with [] => 0 | _ => 1 end.

(** what is done with the node where the pointers meet leaves a straight list *)
Lemma floyd_removes (found : ptr → prog Z) fuel pre cyc h :
  is_nodes (pre ++ cyc) (hd_ptr cyc None) h → length (pre ++ cyc) < fuel →
  (∀ k, cyc ≠ [] → length pre ≤ k →
        ∃ h', found (node_at pre cyc k) h = Ok (1%Z, h') ∧ is_nodes (pre ++ cyc) None h') →
  ∃ h', floyd_loop found fuel (hd_ptr (pre ++ cyc) None) (hd_ptr (pre ++ cyc) None) h = Ok (has_cycle cyc, h') ∧
        is_nodes (pre ++ cyc) None h'.
Proof.
  intros Hlasso Hfuel Hfound. rewrite -node_at_0. destruct (decide (cyc = [])) as [->|Hcyc].
  - rewrite (floyd_straight pre [] h Hlasso) //. by exists h.
  - destruct (floyd_cycle pre cyc h Hlasso found fuel Hcyc Hfuel) as (k & Hk & ->).
    assert (has_cycle cyc = 1%Z) as -> by by destruct cyc. by apply Hfound.
Qed.

(** [detectloop] answers 1 for a list that runs into a cycle and 0 for a
    list that ends in NULL, and leaves the list alone: it always terminates,
    after at most as many steps as the list has nodes. *)
Theorem detectloop_correct fuel pre cyc h :
  is_nodes (pre ++ cyc) (hd_ptr cyc None) h → length (pre ++ cyc) < fuel →
  DetectCircleInList.detectloop fuel (hd_ptr (pre ++ cyc) None) h = Ok (has_cycle cyc, h).
Proof.
  intros Hlasso Hfuel. unfold DetectCircleInList.detectloop. rewrite -node_at_0.
  destruct (decide (cyc = [])) as [->|Hcyc]; [by rewrite (floyd_straight pre [] h Hlasso)|].
  destruct (floyd_cycle pre cyc h Hlasso (λ _, mret 1%Z) fuel Hcyc Hfuel) as (k & _ & ->). by destruct cyc.
Qed.

(** C25: both variants of [detectAndRemoveLoop], the one that counts the nodes
    of the cycle and the one that checks the nodes one by one, do the same: they
    answer whether there is a cycle and leave the nodes in their order as a
    list that ends in NULL. *)
Theorem detectAndRemoveLoop_correct fuel pre cyc h :
  is_nodes (pre ++ cyc) (hd_ptr cyc None) h → length (pre ++ cyc) < fuel →
  ∃ h', RemoveCycleInList.detectAndRemoveLoop fuel (hd_ptr (pre ++ cyc) None) h = Ok (has_cycle cyc, h') ∧
        RemoveCycle.detectAndRemoveLoop fuel (hd_ptr (pre ++ cyc) None) h = Ok (has_cycle cyc, h') ∧
        is_nodes (pre ++ cyc) None h'.
Proof.
  intros Hlasso Hfuel.
  destruct (floyd_removes (λ slow_p, _ ← RemoveCycleInList.removeLoop fuel slow_p (hd_ptr (pre ++ cyc) None); mret 1%Z)
              fuel pre cyc h Hlasso Hfuel) as (h1 & Hrun1 & Hh1).
  { intros k Hcyc Hk. destruct (removeLoop_counting pre cyc h Hlasso Hcyc fuel k Hk Hfuel) as (h' & Hr & Hh').
    exists h'. rewrite node_at_0 in Hr. by rewrite (run_bind _ _ _ _ _ Hr). }
  destruct (floyd_removes (λ slow_p, _ ← RemoveCycle.removeLoop fuel slow_p (hd_ptr (pre ++ cyc) None); mret 1%Z)
              fuel pre cyc h Hlasso Hfuel) as (h2 & Hrun2 & Hh2).
  { intros k Hcyc Hk. destruct (removeLoop_checking pre cyc h Hlasso Hcyc fuel k Hk Hfuel) as (h' & Hr & Hh').
    exists h'. rewrite node_at_0 in Hr. by rewrite (run_bind _ _ _ _ _ Hr). }
  pose proof (is_nodes_unique _ _ _ _ Hh1 Hh2) as <-. by exists h1.
Qed.
End detect.

(** 1 -> 2 -> 3 -> 4 -> 5 -> 3 *)
Definition lasso_heap : gmap loc node := chain_heap (at_addr 0 [1; 2; 3; 4; 5]%Z) (Some 2).
Lemma lasso_heap_nodes :
  is_nodes (at_addr 0 [1; 2]%Z ++ at_addr 2 [3; 4; 5]%Z) (hd_ptr (at_addr 2 [3; 4; 5]%Z) None) lasso_heap.
Proof. apply (is_nodes_chain_heap (at_addr 0 [1; 2; 3; 4; 5]%Z)). compute_done. Qed.
Lemma detectloop_correct_witness : DetectCircleInList.detectloop 6 (Some 0) lasso_heap = Ok (1%Z, lasso_heap).
Proof.
  apply (detectloop_correct 6 (at_addr 0 [1; 2]%Z) (at_addr 2 [3; 4; 5]%Z) lasso_heap); [|simpl; lia].
  apply lasso_heap_nodes.
Defined.
Lemma detectAndRemoveLoop_correct_witness :
  ∃ h', RemoveCycleInList.detectAndRemoveLoop 6 (Some 0) lasso_heap = Ok (1%Z, h') ∧
        is_nodes (at_addr 0 [1; 2; 3; 4; 5]%Z) None h'.
Proof.
  destruct (detectAndRemoveLoop_correct 6 (at_addr 0 [1; 2]%Z) (at_addr 2 [3; 4; 5]%Z) lasso_heap)
    as (h' & Hrun & _ & Hh'); [apply lasso_heap_nodes|simpl; lia|by exists h'].
Defined.

Example RemoveLoopList_output :
  prints (RemoveCycleInList.RemoveLoopList 8) = Some [50; 20; 15; 4; 10]%Z.
Proof. reflexivity. Qed.
