(* ===== verification/GraphCycle.v ===== *)
(** Cycles in an undirected graph, by union-find: FindCycleInGraph.h.

    A graph is an array of edges; [createGraph] leaves the members of the edges
    unset.  [parent] is an array of ints that [memset] fills with -1.  The model
    is followed by its correctness: the answer says whether some edge joins two
    vertices that the edges before it already connect. *)

From stdpp Require Import relations.
From S2P Require Import Prelude Array.

Record Edge := mk_Edge { src : option Z; dest : option Z }.
Record Graph := mk_Graph { V : Z; E : Z; edge : list Edge }.

Definition createGraph (V E : Z) : Graph := mk_Graph V E (replicate (Z.to_nat E) (mk_Edge None None)).

Fixpoint find (fuel : nat) (parent : list Z) (i : Z) : res Z :=
  match fuel with
  | O => Blocked
  | S fuel =>
      x ← get parent i;
      if (x =? -1)%Z then mret i else y ← get parent i; find fuel parent y
  end.

Definition Union (fuel : nat) (parent : list Z) (x y : Z) : res (list Z) :=
  xset ← find fuel parent x; yset ← find fuel parent y; put parent xset yset.

(** the loop over the edges from the index [i] on; [n] iterations are left *)
Fixpoint isCycle_loop (fuel n : nat) (graph : Graph) (i : Z) (parent : list Z) : res Z :=
  match n with
  | O => mret 0%Z
  | S n =>
      e ← get (edge graph) i; s ← of_option Uninitialised (src e); x ← find fuel parent s;
      e ← get (edge graph) i; d ← of_option Uninitialised (dest e); y ← find fuel parent d;
      if (x =? y)%Z then mret 1%Z
      else parent ← Union fuel parent x y; isCycle_loop fuel n graph (i + 1) parent
  end.
Definition isCycle (fuel : nat) (graph : Graph) : res Z :=
  isCycle_loop fuel (Z.to_nat (E graph)) graph 0 (replicate (Z.to_nat (V graph)) (-1)%Z).

(** [graph->edge[i].src = v] and [graph->edge[i].dest = v] *)
Definition set_src (g : Graph) (i v : Z) : res Graph :=
  e ← get (edge g) i; es ← put (edge g) i (mk_Edge (Some v) (dest e)); mret (mk_Graph (V g) (E g) es).
Definition set_dest (g : Graph) (i v : Z) : res Graph :=
  e ← get (edge g) i; es ← put (edge g) i (mk_Edge (src e) (Some v)); mret (mk_Graph (V g) (E g) es).
(** the triangle; whether the graph contains a cycle *)
Definition FindCycleinGraph (fuel : nat) : res bool :=
  let graph := createGraph 3 3 in
  graph ← set_src graph 0 0; graph ← set_dest graph 0 1;
  graph ← set_src graph 1 1; graph ← set_dest graph 1 2;
  graph ← set_src graph 2 0; graph ← set_dest graph 2 2;
  r ← isCycle fuel graph;
  mret (negb (r =? 0)%Z).

(** ** The forest of parents *)
Section forest.
Implicit Types (parent : list Z) (i j r s t x y : nat) (es : list (nat * nat)) (fuel d : nat).

(** [d] steps lead from [i] to its root *)
Inductive chain parent : nat → nat → nat → Prop :=
  | chain_root i : parent !! i = Some (-1)%Z → chain parent 0 i i
  | chain_step d i j r :
      parent !! i = Some (Z.of_nat j) → chain parent d j r → chain parent (S d) i r.

Lemma chain_is_root parent d i r : chain parent d i r → parent !! r = Some (-1)%Z.
Proof. by induction 1. Qed.
Lemma chain_func parent d d' i r r' : chain parent d i r → chain parent d' i r' → r = r'.
Proof.
  intros Hc. revert d' r'. induction Hc as [i Hi|d i j r Hi Hc IH]; intros d' r' Hc';
    inversion Hc' as [k Hk|d1 k l r1 Hk Hl]; subst; rewrite Hi in Hk; try done;
    injection Hk as Hk; try lia. apply Nat2Z.inj in Hk as ->. eauto.
Qed.
Lemma chain_bound parent d i r : chain parent d i r → i < length parent.
Proof. by destruct 1; eapply lookup_lt_Some. Qed.
Lemma find_runs parent d i r fuel :
  chain parent d i r → d < fuel → find fuel parent (Z.of_nat i) = Ok (Z.of_nat r).
Proof.
  intros Hc. revert fuel. induction Hc as [i Hi|d i j r Hi Hc IH]; intros [|fuel] Hf; try lia; simpl;
    rewrite (get_Ok _ _ _ Hi); simpl; [done|].
  destruct (Z.eqb_spec (Z.of_nat j) (-1)); [lia|]. apply IH. lia.
Qed.
(** the root [x] gets the parent [y] *)
Lemma chain_union parent d i r x y :
  x ≠ y → parent !! x = Some (-1)%Z → parent !! y = Some (-1)%Z → chain parent d i r →
  ∃ d', d' ≤ S d ∧ chain (<[x := Z.of_nat y]> parent) d' i (if decide (r = x) then y else r).
Proof.
  intros Hne Hx Hy. assert (x < length parent) by by eapply lookup_lt_Some.
  assert (chain (<[x := Z.of_nat y]> parent) 0 y y) as Hy'.
  { constructor. by rewrite list_lookup_insert_ne by done. }
  induction 1 as [i Hi|d i j r Hi Hc (d' & Hd' & IH)].
  - case_decide; subst.
    + exists 1. split; [lia|]. eapply chain_step; [by apply list_lookup_insert_eq|done].
    + exists 0. split; [lia|]. constructor. by rewrite list_lookup_insert_ne by done.
  - exists (S d'). split; [lia|]. econstructor; [|exact IH].
    rewrite list_lookup_insert_ne; [done|]. intros ->. simplify_eq. lia.
Qed.

(** two vertices have the same root *)
Definition same parent i j : Prop := ∃ r d d', chain parent d i r ∧ chain parent d' j r.
(** connected by the edges [es] *)
Definition connected es : nat → nat → Prop := rtsc (λ i j, (i, j) ∈ es).

Record forest_inv (n : nat) es parent : Prop := {
  inv_length : length parent = n;
  inv_chain i : i < n → ∃ d r, d ≤ length es ∧ chain parent d i r;
  inv_sound i j : same parent i j → connected es i j;
  inv_edges i j : (i, j) ∈ es → same parent i j }.

Lemma same_trans parent i j k : same parent i j → same parent j k → same parent i k.
Proof.
  intros (r & d1 & d2 & H1 & H2) (r' & d3 & d4 & H3 & H4).
  rewrite (chain_func _ _ _ _ _ _ H2 H3) in H1. by exists r', d1, d4.
Qed.
Lemma same_sym parent i j : same parent i j → same parent j i.
Proof. intros (r & d1 & d2 & H1 & H2). by exists r, d2, d1. Qed.

(** equal roots are connection, for vertices of the graph *)
Lemma forest_same n es parent i j :
  forest_inv n es parent → i < n → j < n → same parent i j ↔ connected es i j.
Proof.
  intros Hinv Hi Hj. split; [apply (inv_sound _ _ _ Hinv)|].
  intros Hc. revert Hi Hj. induction Hc as [i|i k j Hik _ IH]; intros Hi Hj.
  - destruct (inv_chain _ _ _ Hinv i Hi) as (d & r & _ & Hr). by exists r, d, d.
  - assert (same parent i k) as Hs.
    { destruct Hik as [Hik|Hki]; [|apply same_sym]; by apply (inv_edges _ _ _ Hinv). }
    apply (same_trans _ _ k); [done|]. apply IH; [|done].
    destruct Hs as (r & d & d' & _ & Hk). rewrite <-(inv_length _ _ _ Hinv).
    by eapply chain_bound.
Qed.

Lemma forest_init n : forest_inv n [] (replicate n (-1)%Z).
Proof.
  split; [by rewrite length_replicate| | |].
  - intros i Hi. exists 0, i. split; [done|]. constructor. by apply lookup_replicate_2.
  - intros i j (r & d & d' & Hi & Hj).
    assert (∀ d i, chain (replicate n (-1)%Z) d i r → i = r) as Hroot.
    { intros d0 i0 Hc. inversion Hc as [|? ? k ? Hk]; subst; [done|].
      apply lookup_replicate in Hk as [Hk _]. lia. }
    rewrite (Hroot _ _ Hi), (Hroot _ _ Hj). apply rtc_refl.
  - intros i j Hin. by apply elem_of_nil in Hin.
Qed.

(** an edge between two trees joins them *)
Lemma forest_union n es parent s t x y d d' :
  forest_inv n es parent → chain parent d s x → chain parent d' t y → x ≠ y →
  forest_inv n (es ++ [(s, t)]) (<[x := Z.of_nat y]> parent).
Proof.
  intros Hinv Hs Ht Hne.
  pose proof (chain_is_root _ _ _ _ Hs) as Hx. pose proof (chain_is_root _ _ _ _ Ht) as Hy.
  pose proof (λ d i r, chain_union parent d i r x y Hne Hx Hy) as Hunion.
  assert (∀ i j, same parent i j → same (<[x := Z.of_nat y]> parent) i j) as Hmono.
  { intros i j (r & d1 & d2 & (d1' & _ & H1)%Hunion & (d2' & _ & H2)%Hunion). by eexists _, d1', d2'. }
  assert (∀ i j, connected es i j → connected (es ++ [(s, t)]) i j) as Hconn.
  { intros i j. apply rtc_subrel. intros a b [Hab|Hab]; [left|right]; apply elem_of_app; by left. }
  assert (connected (es ++ [(s, t)]) x y) as Hxy.
  { trans s; [apply Hconn, (inv_sound _ _ _ Hinv); exists x; eexists 0, d; split; [by constructor|done]|].
    trans t; [|apply Hconn, (inv_sound _ _ _ Hinv); exists y; eexists d', 0; split; [done|by constructor]].
    apply rtsc_lr. apply elem_of_app. right. by apply list_elem_of_singleton. }
  split.
  - rewrite length_insert. apply Hinv.
  - intros i Hi. destruct (inv_chain _ _ _ Hinv i Hi) as (d1 & r & Hd1 & (d2 & Hd2 & Hc)%Hunion).
    eexists d2, _. rewrite length_app. simpl. split; [lia|exact Hc].
  - intros i j (r & d1 & d2 & Hi & Hj).
    assert (∀ d0 i0, chain (<[x := Z.of_nat y]> parent) d0 i0 r → connected (es ++ [(s, t)]) i0 r) as Hroot.
    { intros d0 i0 Hi0. pose proof (chain_bound _ _ _ _ Hi0) as Hlt. rewrite length_insert in Hlt.
      rewrite (inv_length _ _ _ Hinv) in Hlt. destruct (inv_chain _ _ _ Hinv i0 Hlt) as (d3 & r0 & _ & H0).
      assert (connected (es ++ [(s, t)]) i0 r0) as Hc.
      { apply Hconn, (inv_sound _ _ _ Hinv). exists r0, d3, 0. split; [done|]. constructor.
        by eapply chain_is_root. }
      apply Hunion in H0 as (d4 & _ & H0). rewrite (chain_func _ _ _ _ _ _ Hi0 H0).
      case_decide as Hr0; [|done]. subst. by trans x. }
    trans r; [by eapply Hroot|]. apply symmetry. by eapply Hroot.
  - intros i j [Hin|Hin%list_elem_of_singleton]%elem_of_app; [by apply Hmono, (inv_edges _ _ _ Hinv)|].
    simplify_eq. apply Hunion in Hs as (d1 & _ & Hs), Ht as (d2 & _ & Ht).
    rewrite decide_True in Hs by done. rewrite decide_False in Ht by done. by exists y, d1, d2.
Qed.
End forest.

(** ** isCycle *)
Section cycle.
Implicit Types (n s t i : nat) (es pre post : list (nat * nat)) (fuel : nat).

(** the graph with [n] vertices and the edges [es] *)
Definition graph_of n es : Graph :=
  mk_Graph (Z.of_nat n) (Z.of_nat (length es))
    ((λ e, mk_Edge (Some (Z.of_nat e.1)) (Some (Z.of_nat e.2))) <$> es).
(** an edge that joins vertices which the edges before it connect *)
Definition closes_cycle es i : Prop := ∃ s t, es !! i = Some (s, t) ∧ connected (take i es) s t.

Lemma isCycle_loop_runs fuel n pre post parent :
  (∀ s t, (s, t) ∈ post → s < n ∧ t < n) → length (pre ++ post) < fuel → forest_inv n pre parent →
  (∃ i, length pre ≤ i ∧ closes_cycle (pre ++ post) i ∧
        isCycle_loop fuel (length post) (graph_of n (pre ++ post)) (Z.of_nat (length pre)) parent = Ok 1%Z) ∨
  (∀ i, length pre ≤ i → ¬ closes_cycle (pre ++ post) i) ∧
        isCycle_loop fuel (length post) (graph_of n (pre ++ post)) (Z.of_nat (length pre)) parent = Ok 0%Z.
Proof.
  revert pre parent. induction post as [|[s t] post IH]; intros pre parent Hpost Hfuel Hinv.
  { right. split; [|done]. intros i Hi (s & t & Hs & _). rewrite app_nil_r in Hs. apply lookup_lt_Some in Hs. lia. }
  destruct (Hpost s t) as [Hs Ht]; [left|].
  destruct (inv_chain _ _ _ Hinv s Hs) as (d & x & Hd & Hx), (inv_chain _ _ _ Hinv t Ht) as (d' & y & Hd' & Hy).
  pose proof (forest_same n pre parent s t Hinv Hs Ht) as Hsame.
  rewrite length_app in Hfuel. simpl in Hfuel.
  assert (get (edge (graph_of n (pre ++ (s, t) :: post))) (Z.of_nat (length pre)) =
          Ok (mk_Edge (Some (Z.of_nat s)) (Some (Z.of_nat t)))) as Hedge.
  { apply get_Ok. simpl. by rewrite list_lookup_fmap, list_lookup_middle. }
  assert (∀ i, closes_cycle (pre ++ (s, t) :: post) i → i = length pre → connected pre s t) as Hhere.
  { intros i (s' & t' & Hi & Hc) ->. rewrite list_lookup_middle in Hi by done. simplify_eq.
    by rewrite take_app_length in Hc. }
  cbn [length isCycle_loop]. rewrite Hedge. cbn [mbind res_bind src dest of_option].
  rewrite (find_runs _ _ _ _ _ Hx), (find_runs _ _ _ _ _ Hy) by lia. cbn [mbind res_bind].
  destruct (Z.eqb_spec (Z.of_nat x) (Z.of_nat y)) as [Hxy%Nat2Z.inj|Hxy].
  - subst y. left. exists (length pre). split; [done|]. split; [|done]. exists s, t.
    rewrite list_lookup_middle, take_app_length by done. split; [done|]. apply Hsame. by exists x, d, d'.
  - assert (x ≠ y) as Hne by (by intros ->).
    assert (Union fuel parent (Z.of_nat x) (Z.of_nat y) = Ok (<[x := Z.of_nat y]> parent)) as HUnion.
    { pose proof (chain_is_root _ _ _ _ Hx) as Hrx. pose proof (chain_is_root _ _ _ _ Hy) as Hry. unfold Union.
      rewrite (find_runs parent 0 x x), (find_runs parent 0 y y) by (by constructor || lia).
      cbn [mbind res_bind]. apply put_Ok. by eapply lookup_lt_Some. }
    rewrite HUnion. cbn [mbind res_bind].
    specialize (IH (pre ++ [(s, t)]) (<[x := Z.of_nat y]> parent)).
    rewrite <-(assoc_L (++)), !length_app in IH. simpl in IH.
    replace (Z.of_nat (length pre + 1)) with (Z.of_nat (length pre) + 1)%Z in IH by lia.
    destruct IH as [(i & Hi & Hc & Hrun)|[Hno Hrun]].
    + intros s' t' Hin. apply Hpost. by right.
    + simpl. lia.
    + by eapply forest_union.
    + left. exists i. split; [lia|done].
    + right. split; [|done]. intros i Hi Hc. destruct (decide (i = length pre)) as [Heq|].
      * apply (Hhere _ Hc), Hsame in Heq as (r & d1 & d2 & H1 & H2).
        apply Hne. rewrite (chain_func _ _ _ _ _ _ Hx H1). by rewrite (chain_func _ _ _ _ _ _ H2 Hy).
      * apply (Hno i); [lia|done].
Qed.

(** C32: [isCycle] always terminates on a graph whose edges have their ends
    among its vertices; it answers 1 exactly when some edge joins two vertices
    that the edges before it connect, that is, when the edges close a cycle,
    and 0 otherwise. *)
Theorem isCycle_correct fuel n es :
  (∀ s t, (s, t) ∈ es → s < n ∧ t < n) → length es < fuel →
  ∃ r, isCycle fuel (graph_of n es) = Ok r ∧ (r = 0%Z ∨ r = 1%Z) ∧ (r = 1%Z ↔ ∃ i, closes_cycle es i).
Proof.
  intros Hes Hfuel. unfold isCycle. cbn [E V graph_of]. rewrite !Nat2Z.id.
  destruct (isCycle_loop_runs fuel n [] es _ Hes Hfuel (forest_init n)) as [(i & _ & Hc & Hrun)|[Hno Hrun]].
  - exists 1%Z. split; [exact Hrun|]. split; [by right|]. split; [|done]. intros _. by exists i.
  - exists 0%Z. split; [exact Hrun|]. split; [by left|]. split; [done|]. intros [i Hc]. destruct (Hno i); [simpl; lia|done].
Qed.
End cycle.

Lemma isCycle_correct_witness :
  ∃ r, isCycle 4 (graph_of 3 [(0, 1); (1, 2); (0, 2)]) = Ok r ∧
       (r = 1%Z ↔ ∃ i, closes_cycle [(0, 1); (1, 2); (0, 2)] i).
Proof.
  destruct (isCycle_correct 4 3 [(0, 1); (1, 2); (0, 2)]) as (r & Hrun & _ & Hr); [|simpl; lia|by exists r].
  intros s t. rewrite !elem_of_cons, elem_of_nil. intros [?|[?|[?|[]]]]; simplify_eq; lia.
Defined.

Example FindCycleinGraph_output : FindCycleinGraph 4 = Ok true.
Proof. reflexivity. Qed.
(** an edge whose end is not a vertex is an access outside [parent] *)
Example isCycle_OutOfBounds : isCycle 4 (graph_of 2 [(0, 2)]) = Fault OutOfBounds.
Proof. reflexivity. Qed.
(** the members of an edge that the caller did not set *)
Example isCycle_Uninitialised : isCycle 4 (createGraph 2 1) = Fault Uninitialised.
Proof. reflexivity. Qed.
