(* ===== verification/Cyclic.v ===== *)
(** Permutations as arrays: Cyclic.cpp and computation.cpp.

    The arrays are passed as pointers; [tb] and [bp], the arrays of tags, may be
    NULL ([None]).  Functions that write an array return it.  The model is
    followed by what the functions do to a permutation of the first [n]
    numbers. *)

From S2P Require Import Prelude Array.

(** [tb[i]] and [tb[i] = 1] *)
Definition tag_of (tb : option (list Z)) (i : Z) : res Z := l ← of_option NullDeref tb; get l i.
Definition set_tag (tb : option (list Z)) (i : Z) : res (option (list Z)) :=
  l ← of_option NullDeref tb; l ← put l i 1%Z; mret (Some l).

(** the [do] loop: the numbers that are printed and the tags *)
Fixpoint print_cycle (fuel : nat) (f : list Z) (k i : Z) (tb : option (list Z)) :
    res (list Z * option (list Z)) :=
  match fuel with
  | O => Blocked
  | S fuel =>
      tb ← set_tag tb i;
      j ← get f i;
      if (j =? k)%Z then mret ([i], tb)
      else '(out, tb) ← print_cycle fuel f k j tb; mret (i :: out, tb)
  end.
(** the loop from [k] on, with [m] iterations left: the cycles that are printed *)
Fixpoint print_cycles_loop (fuel m : nat) (f : list Z) (k : Z) (tb : option (list Z)) :
    res (list (list Z) * option (list Z)) :=
  match m with
  | O => mret ([], tb)
  | S m =>
      t ← tag_of tb k;
      if (t =? 1)%Z then print_cycles_loop fuel m f (k + 1) tb
      else
        '(c, tb) ← print_cycle fuel f k k tb;
        '(out, tb) ← print_cycles_loop fuel m f (k + 1) tb;
        mret (c :: out, tb)
  end.
Definition print_cycles (fuel : nat) (f : list Z) (n : nat) (tb : option (list Z)) :=
  print_cycles_loop fuel n f 0 tb.

(** the [do] loop: [k] when [e] is back at 0 *)
Fixpoint is_cyclic_loop (fuel : nat) (f : list Z) (k e : Z) : res Z :=
  match fuel with
  | O => Blocked
  | S fuel =>
      e ← get f e;
      let k := (k + 1)%Z in
      if (e =? 0)%Z then mret k else is_cyclic_loop fuel f k e
  end.
Definition is_cyclic (fuel : nat) (f : list Z) (n : nat) : res bool :=
  if (n <=? 1)%nat then mret true
  else k ← is_cyclic_loop fuel f 0 0; mret (k =? Z.of_nat n)%Z.

Fixpoint is_inverse_loop (m : nat) (f g : list Z) (k : Z) : res bool :=
  match m with
  | O => mret true
  | S m =>
      x ← get g k; y ← get f x;
      if negb (y =? k)%Z then mret false else is_inverse_loop m f g (k + 1)
  end.
Definition is_inverse (f g : list Z) (n : nat) : res bool := is_inverse_loop n f g 0.

(** [while (0 == (tp[g] == 1))]: the array, [i] and [g] *)
Fixpoint invert_cycle (fuel : nat) (f : list Z) (tp : option (list Z)) (i g : Z) : res (list Z * Z * Z) :=
  match fuel with
  | O => Blocked
  | S fuel =>
      x ← tag_of tp g;
      if (x =? 1)%Z then mret (f, i, g)
      else
        t ← get f g;
        f ← put f g i;
        invert_cycle fuel f tp g t
  end.
Fixpoint make_inverse_loop (fuel m : nat) (f : list Z) (k : Z) (tp : option (list Z)) :
    res (list Z * option (list Z)) :=
  match m with
  | O => mret (f, tp)
  | S m =>
      x ← tag_of tp k;
      if (x =? 1)%Z then make_inverse_loop fuel m f (k + 1) tp
      else
        tp ← set_tag tp k;
        g ← get f k;
        '(f, i, g) ← invert_cycle fuel f tp k g;
        f ← put f g i;
        make_inverse_loop fuel m f (k + 1) tp
  end.
(** when [bp] is NULL, [delete tp] deletes NULL, which does nothing *)
Definition make_inverse (fuel : nat) (f : list Z) (n : nat) (bp : option (list Z)) :=
  make_inverse_loop fuel n f 0 bp.

Fixpoint clear_loop (m : nat) (bp : option (list Z)) (i : Z) : res (option (list Z)) :=
  match m with
  | O => mret bp
  | S m => l ← of_option NullDeref bp; l ← put l i 0%Z; clear_loop m (Some l) (i + 1)
  end.
Definition clear (bp : option (list Z)) (n : nat) : res (option (list Z)) := clear_loop n bp 0.

(** [_tmain]: the array after [make_inverse] and the cycles that are printed *)
Definition tmain_array (fuel : nat) : res (list Z * option (list Z)) :=
  '(f, tb) ← make_inverse fuel [3; 0; 1; 2]%Z 4 (Some [0; 0; 0; 0]%Z);
  tb ← clear tb 4;
  mret (f, tb).
Definition tmain (fuel : nat) : res (list (list Z)) :=
  '(f, tb) ← tmain_array fuel;
  '(out, tb) ← print_cycles fuel f 4 tb;
  mret out.

