(* ===== verification/CyclicProps.v ===== *)
(** What the functions of Cyclic.cpp do to a permutation of the first [n]
    numbers, given as the list [p] of its values. *)

From S2P Require Import Prelude Array Cyclic.

(** ** Orbits *)
Section orbits.
Variables (n : nat) (p : list nat).
Hypothesis Hperm : p ≡ₚ seq 0 n.
Implicit Types (i j k m : nat) (visited : list nat).

Definition step i : nat := p !!! i.
Definition steps j i : nat := Nat.iter j step i.
(** [m] numbers from [i] on *)
Definition orbit i m : list nat := (λ j, steps j i) <$> seq 0 m.
(** the array *)
Definition arr : list Z := Z.of_nat <$> p.

Lemma perm_length : length p = n.
Proof. rewrite Hperm. apply length_seq. Qed.
Lemma perm_NoDup : NoDup p.
Proof. rewrite Hperm. apply NoDup_seq. Qed.
Lemma step_lookup i : i < n → p !! i = Some (step i).
Proof. intros. apply list_lookup_lookup_total_lt. by rewrite perm_length. Qed.
Lemma step_lt i : i < n → step i < n.
Proof.
  intros Hi. pose proof (list_elem_of_lookup_2 _ _ _ (step_lookup i Hi)) as Hin.
  rewrite Hperm, elem_of_seq in Hin. lia.
Qed.
Lemma step_inj i j : i < n → j < n → step i = step j → i = j.
Proof.
  intros Hi Hj Heq. apply (NoDup_lookup p i j (step i) perm_NoDup); [by apply step_lookup|].
  rewrite Heq. by apply step_lookup.
Qed.
Lemma get_arr i : i < n → get arr (Z.of_nat i) = Ok (Z.of_nat (step i)).
Proof. intros. apply get_Ok. unfold arr. by rewrite list_lookup_fmap, step_lookup. Qed.

Lemma steps_add j k i : steps (j + k) i = steps j (steps k i).
Proof. apply Nat.iter_add. Qed.
Lemma steps_lt j i : i < n → steps j i < n.
Proof. intros Hi. induction j as [|j IH]; [done|]. by apply step_lt. Qed.
Lemma steps_inj j i i' : i < n → i' < n → steps j i = steps j i' → i = i'.
Proof.
  intros Hi Hi'. induction j as [|j IH]; [done|]. simpl. intros Heq%step_inj; [auto|by apply steps_lt..].
Qed.
Lemma orbit_S i m : orbit i (S m) = i :: orbit (step i) m.
Proof.
  unfold orbit. simpl. f_equal. rewrite <-fmap_S_seq, <-list_fmap_compose. apply list_fmap_ext.
  intros ? j _. apply Nat.iter_succ_r.
Qed.
Lemma elem_of_orbit i m x : x ∈ orbit i m ↔ ∃ j, j < m ∧ x = steps j i.
Proof.
  unfold orbit. rewrite list_elem_of_fmap. setoid_rewrite elem_of_seq.
  split; intros (j & ? & ?); exists j; split; auto; lia.
Qed.

(** the least number of steps that lead back *)
Lemma least_return m i : 0 < m → steps m i = i →
  ∃ m', 0 < m' ≤ m ∧ steps m' i = i ∧ ∀ j, 0 < j < m' → steps j i ≠ i.
Proof.
  induction (lt_wf m) as [m _ IH]. intros Hm Hret.
  destruct (decide (Exists (λ j, steps j i = i) (seq 1 (m - 1)))) as [Hex|Hno].
  - apply Exists_exists in Hex as (j & Hj & Hret'). apply elem_of_seq in Hj.
    destruct (IH j) as (m' & ? & ?); [lia|lia|done|]. exists m'. split; [lia|done].
  - exists m. split; [lia|]. split; [done|]. intros j Hj Hret'. apply Hno, Exists_exists.
    exists j. split; [apply elem_of_seq; lia|done].
Qed.
Lemma orbit_NoDup i m :
  i < n → (∀ j, 0 < j < m → steps j i ≠ i) → NoDup (orbit i m).
Proof.
  intros Hi Hm. unfold orbit. apply NoDup_fmap_2_strong; [|apply NoDup_seq].
  assert (∀ a b, a < b → b < m → steps a i ≠ steps b i) as Hlt.
  { intros a b Hab Hb Heq. apply (Hm (b - a)); [lia|]. symmetry. apply (steps_inj a); [done|by apply steps_lt|].
    rewrite <-steps_add. by replace (a + (b - a)) with b by lia. }
  intros a b Ha%elem_of_seq Hb%elem_of_seq Heq.
  destruct (Nat.lt_trichotomy a b) as [?|[?|?]]; [|done|]; exfalso; [apply (Hlt a b)|apply (Hlt b a)]; auto; lia.
Qed.

(** every number is on a cycle *)
Lemma first_return i : i < n →
  ∃ m, 0 < m ≤ n ∧ steps m i = i ∧ (∀ j, 0 < j < m → steps j i ≠ i) ∧ NoDup (orbit i m).
Proof.
  intros Hi. assert (∃ m, 0 < m ∧ steps m i = i) as (m & Hm & Hret).
  { assert (¬ NoDup (orbit i (S n))) as Hdup.
    { intros Hnd. assert (S n ≤ n); [|lia].
      transitivity (length (orbit i (S n))); [unfold orbit; by rewrite length_fmap, length_seq|].
      rewrite <-(length_seq n 0) at 2. apply submseteq_length, NoDup_submseteq; [done|].
      intros x (j & _ & ->)%elem_of_orbit. apply elem_of_seq. pose proof (steps_lt j i Hi). lia. }
    destruct (decide (Exists (λ j, steps j i = i) (seq 1 n))) as [Hex|Hno].
    - apply Exists_exists in Hex as (j & Hj%elem_of_seq & Hret). exists j. split; [lia|done].
    - destruct Hdup. apply orbit_NoDup; [done|]. intros j Hj Hret. apply Hno, Exists_exists.
      exists j. split; [apply elem_of_seq; lia|done]. }
  destruct (least_return m i Hm Hret) as (m' & Hm' & Hret' & Hleast).
  pose proof (orbit_NoDup i m' Hi Hleast) as Hnd. exists m'. split_and!; try done; [lia|].
  rewrite <-(length_seq n 0). transitivity (length (orbit i m')); [unfold orbit; by rewrite length_fmap, length_seq|].
  apply submseteq_length, NoDup_submseteq; [done|].
  intros x (j & _ & ->)%elem_of_orbit. apply elem_of_seq. pose proof (steps_lt j i Hi). lia.
Qed.

(** ** is_cyclic *)
Lemma is_cyclic_loop_runs fuel m i (k : Z) :
  i < n → m < fuel → steps (S m) i = 0 → (∀ j, j < m → steps (S j) i ≠ 0) →
  is_cyclic_loop fuel arr k (Z.of_nat i) = Ok (k + Z.of_nat (S m))%Z.
Proof.
  revert i k fuel; induction m as [|m IH]; intros i k [|fuel] Hi Hf Hret Hleast; try lia; cbn [is_cyclic_loop];
    rewrite (get_arr _ Hi); cbn [mbind res_bind].
  - change (steps 1 i) with (step i) in Hret. by rewrite Hret.
  - destruct (Z.eqb_spec (Z.of_nat (step i)) 0) as [H0|_].
    { destruct (Hleast 0); [lia|]. change (steps 1 i) with (step i). lia. }
    rewrite IH; [f_equal; lia|by apply step_lt|lia| |].
    + rewrite <-Hret. symmetry. apply Nat.iter_succ_r.
    + intros j Hj. unfold steps. rewrite <-Nat.iter_succ_r. apply (Hleast (S j)). lia.
Qed.
End orbits.

Section is_cyclic.
Implicit Types (n i j fuel : nat) (p : list nat).

(** [is_cyclic] terminates on every permutation and says whether it is a
    single cycle: [true] exactly when every number is reached from 0. *)
Theorem is_cyclic_correct fuel n p :
  p ≡ₚ seq 0 n → n ≤ fuel →
  ∃ b, is_cyclic fuel (arr p) n = Ok b ∧ (b = true ↔ ∀ i, i < n → ∃ j, steps p j 0 = i).
Proof.
  intros Hperm Hfuel. unfold is_cyclic. destruct (Nat.leb_spec n 1) as [Hn|Hn].
  { exists true. split; [done|]. split; [|done]. intros _ i Hi. exists 0. simpl. lia. }
  destruct (first_return n p Hperm 0) as (m & Hm & Hret & Hleast & Hnd); [lia|].
  assert (is_cyclic_loop fuel (arr p) 0 (Z.of_nat 0) = Ok (0 + Z.of_nat (S (m - 1)))%Z) as Hrun.
  { apply (is_cyclic_loop_runs n p Hperm); [lia|lia|by replace (S (m - 1)) with m by lia|].
    intros j Hj. apply Hleast. lia. }
  replace (0 + Z.of_nat (S (m - 1)))%Z with (Z.of_nat m) in Hrun by lia.
  rewrite (Hrun : is_cyclic_loop fuel (arr p) 0 0 = _).
  exists (Z.of_nat m =? Z.of_nat n)%Z. split; [done|]. rewrite Z.eqb_eq. split.
  - intros Heq i Hi. assert (m = n) as -> by lia.
    assert (orbit p 0 n ≡ₚ seq 0 n) as Hall.
    { apply submseteq_length_Permutation; [|unfold orbit; by rewrite length_fmap, !length_seq].
      apply NoDup_submseteq; [done|]. intros x (j & _ & ->)%elem_of_orbit. apply elem_of_seq.
      pose proof (steps_lt n p Hperm j 0). lia. }
    assert (i ∈ orbit p 0 n) as (j & _ & ->)%elem_of_orbit; [|by exists j].
    rewrite Hall. apply elem_of_seq. lia.
  - intros Hreach. f_equal. apply Nat.le_antisymm; [lia|].
    rewrite <-(length_seq n 0). transitivity (length (orbit p 0 m)); [|unfold orbit; by rewrite length_fmap, length_seq].
    apply submseteq_length, NoDup_submseteq; [apply NoDup_seq|]. intros x Hx%elem_of_seq.
    destruct (Hreach x) as [j <-]; [lia|]. apply elem_of_orbit. exists (j `mod` m). split; [apply Nat.mod_upper_bound; lia|].
    rewrite (Nat.div_mod j m) at 1 by lia. rewrite Nat.add_comm, steps_add. f_equal.
    rewrite Nat.mul_comm. induction (j / m) as [|q IH]; [done|]. simpl. rewrite Nat.add_comm, steps_add. by rewrite Hret.
Qed.
End is_cyclic.

(** ** Tags *)
Section tags.
Variables (n : nat).
Implicit Types (i j : nat) (visited : list nat).

(** the array of tags when the numbers [visited] are tagged *)
Definition tags visited : list Z := (λ i, if decide (i ∈ visited) then 1%Z else 0%Z) <$> seq 0 n.

Lemma tags_lookup visited i : i < n → tags visited !! i = Some (if decide (i ∈ visited) then 1%Z else 0%Z).
Proof. intros Hi. unfold tags. by rewrite list_lookup_fmap, lookup_seq_lt. Qed.
Lemma tag_of_tags visited i :
  i < n → tag_of (Some (tags visited)) (Z.of_nat i) = Ok (if decide (i ∈ visited) then 1%Z else 0%Z).
Proof. intros Hi. by apply get_Ok, tags_lookup. Qed.
Lemma set_tag_tags visited i :
  i < n → set_tag (Some (tags visited)) (Z.of_nat i) = Ok (Some (tags (visited ++ [i]))).
Proof.
  intros Hi. unfold set_tag. cbn [of_option mbind res_bind].
  assert (length (tags visited) = n) as Hlen by (unfold tags; by rewrite length_fmap, length_seq).
  rewrite put_Ok by lia. cbn [mbind res_bind mret res_ret]. do 2 f_equal. apply list_eq. intros j.
  destruct (decide (j < n)) as [Hj|Hj].
  - rewrite (tags_lookup _ j Hj). destruct (decide (j = i)) as [->|Hne].
    + rewrite list_lookup_insert_eq, decide_True by (lia || set_solver). done.
    + rewrite list_lookup_insert_ne, (tags_lookup _ j Hj) by done. f_equal. apply decide_ext. set_solver.
  - rewrite !lookup_ge_None_2; [done|..]; rewrite ?length_insert; unfold tags; rewrite length_fmap, length_seq; lia.
Qed.
Lemma tags_nil : tags [] = replicate n 0%Z.
Proof.
  apply list_eq. intros j. destruct (decide (j < n)) as [Hj|Hj].
  - rewrite tags_lookup, lookup_replicate_2 by done. by rewrite decide_False by set_solver.
  - rewrite !lookup_ge_None_2; [done|..]; unfold tags; rewrite ?length_fmap, ?length_seq, ?length_replicate; lia.
Qed.
Lemma tags_all visited : visited ≡ₚ seq 0 n → tags visited = replicate n 1%Z.
Proof.
  intros Hall. apply list_eq. intros j. destruct (decide (j < n)) as [Hj|Hj].
  - rewrite tags_lookup, lookup_replicate_2 by done. rewrite decide_True; [done|]. rewrite Hall.
    apply elem_of_seq. lia.
  - rewrite !lookup_ge_None_2; [done|..]; unfold tags; rewrite ?length_fmap, ?length_seq, ?length_replicate; lia.
Qed.

End tags.

(** ** print_cycles *)
Section print_cycles.
Variables (n : nat) (p : list nat).
Hypothesis Hperm : p ≡ₚ seq 0 n.
Implicit Types (i j k m fuel : nat) (visited : list nat) (cs : list (list nat)).

(** a cycle of the permutation: its numbers from some number on, each once *)
Definition is_cycle c : Prop := ∃ i m, i < n ∧ 0 < m ∧ c = orbit p i m ∧ steps p m i = i ∧ NoDup c.

Lemma print_cycle_runs fuel m k i visited :
  i < n → m < fuel → steps p (S m) i = k → (∀ j, j < m → steps p (S j) i ≠ k) →
  print_cycle fuel (arr p) (Z.of_nat k) (Z.of_nat i) (Some (tags n visited)) =
  Ok (Z.of_nat <$> orbit p i (S m), Some (tags n (visited ++ orbit p i (S m)))).
Proof.
  revert i visited fuel; induction m as [|m IH]; intros i visited [|fuel] Hi Hf Hret Hleast; try lia;
    cbn [print_cycle]; rewrite set_tag_tags by done; cbn [mbind res_bind];
    rewrite (get_arr n p Hperm _ Hi); cbn [mbind res_bind].
  - change (step p i = k) in Hret. by rewrite Hret, Z.eqb_refl.
  - destruct (Z.eqb_spec (Z.of_nat (step p i)) (Z.of_nat k)) as [Heq%Nat2Z.inj|_].
    { destruct (Hleast 0); [lia|done]. }
    rewrite (IH (step p i) (visited ++ [i]) fuel).
    + cbn [mbind res_bind]. rewrite (orbit_S _ i (S m)), fmap_cons, <-(assoc_L (++)). done.
    + by apply (step_lt n p Hperm).
    + lia.
    + rewrite <-Hret. symmetry. apply Nat.iter_succ_r.
    + intros j Hj. unfold steps. rewrite <-Nat.iter_succ_r. apply (Hleast (S j)). lia.
Qed.

(** what is visited between two cycles *)
Record visited_inv k visited : Prop := {
  vis_NoDup : NoDup visited;
  vis_closed i : i ∈ visited → i < n ∧ step p i ∈ visited;
  vis_below i : i < k → i ∈ visited }.

Lemma vis_steps k visited j i : visited_inv k visited → i ∈ visited → steps p j i ∈ visited.
Proof. intros Hv Hi. induction j as [|j IH]; [done|]. by apply (vis_closed _ _ Hv). Qed.

Lemma visited_cycle k visited m :
  visited_inv k visited → k < n → k ∉ visited → 0 < m → steps p m k = k → NoDup (orbit p k m) →
  visited_inv (S k) (visited ++ orbit p k m).
Proof.
  intros Hv Hk Hnot Hm Hret Hnd. split.
  - apply NoDup_app. split_and!; [apply Hv| |done].
    intros x Hx (j & Hj & ->)%elem_of_orbit. apply Hnot. rewrite <-Hret.
    replace m with ((m - j) + j) by lia. rewrite steps_add. by apply (vis_steps k).
  - intros i [Hi|Hi]%elem_of_app.
    + destruct (vis_closed _ _ Hv i Hi). split; [done|]. apply elem_of_app. by left.
    + apply elem_of_orbit in Hi as (j & Hj & ->). split; [by apply (steps_lt n p Hperm)|].
      apply elem_of_app. right. apply elem_of_orbit. change (step p (steps p j k)) with (steps p (S j) k).
      destruct (decide (S j = m)) as [->|]; [|exists (S j); split; [lia|done]].
      exists 0. by rewrite Hret.
  - intros i Hi. apply elem_of_app. destruct (decide (i = k)) as [->|].
    + right. apply elem_of_orbit. by exists 0.
    + left. apply (vis_below _ _ Hv). lia.
Qed.

Lemma print_cycles_loop_runs fuel m k visited :
  n ≤ fuel → k + m = n → visited_inv k visited →
  ∃ cs, print_cycles_loop fuel m (arr p) (Z.of_nat k) (Some (tags n visited)) =
          Ok (fmap (M:=list) Z.of_nat <$> cs, Some (tags n (visited ++ concat cs))) ∧
        Forall is_cycle cs ∧ visited_inv n (visited ++ concat cs).
Proof.
  intros Hfuel. revert k visited; induction m as [|m IH]; intros k visited Hk Hv; cbn [print_cycles_loop].
  { exists []. simpl. rewrite app_nil_r. split_and!; [done..|]. by replace n with k by lia. }
  rewrite tag_of_tags by lia. cbn [mbind res_bind].
  replace (Z.of_nat k + 1)%Z with (Z.of_nat (S k)) by lia.
  destruct (decide (k ∈ visited)) as [Hin|Hnot].
  - apply IH; [lia|]. split; [apply Hv|apply Hv|]. intros i Hi.
    destruct (decide (i = k)) as [->|]; [done|]. apply (vis_below _ _ Hv). lia.
  - destruct (first_return n p Hperm k) as (c & Hc & Hret & Hleast & Hnd); [lia|].
    destruct c as [|c]; [lia|]. cbn [Z.eqb].
    rewrite (print_cycle_runs fuel c k k visited); [|lia|lia|done|intros j Hj; apply Hleast; lia].
    cbn [mbind res_bind].
    destruct (IH (S k) (visited ++ orbit p k (S c))) as (cs & Hrun & Hcs & Hv'); [lia|apply visited_cycle; auto; lia|].
    rewrite Hrun. cbn [mbind res_bind mret res_ret]. exists (orbit p k (S c) :: cs).
    rewrite <-(assoc_L (++)) in *. split_and!; [done| |done].
    constructor; [|done]. exists k, (S c). split_and!; auto; lia.
Qed.
End print_cycles.

(** [print_cycles] terminates on every permutation whose tags are cleared:
    it prints the cycles of the permutation, every number in exactly one of
    them, and tags every number. *)
Theorem print_cycles_correct fuel n p :
  p ≡ₚ seq 0 n → n ≤ fuel →
  ∃ cs, print_cycles fuel (arr p) n (Some (replicate n 0%Z)) =
          Ok (fmap (M:=list) Z.of_nat <$> cs, Some (replicate n 1%Z)) ∧
        Forall (is_cycle n p) cs ∧ concat cs ≡ₚ seq 0 n.
Proof.
  intros Hperm Hfuel.
  destruct (print_cycles_loop_runs n p Hperm fuel n 0 []) as (cs & Hrun & Hcs & Hv); [done|done| |].
  { split; [constructor|intros i Hi; by apply elem_of_nil in Hi|lia]. }
  assert (concat cs ≡ₚ seq 0 n) as Hall.
  { apply NoDup_Permutation; [apply Hv|apply NoDup_seq|]. intros x. rewrite elem_of_seq. split.
    - intros Hx. apply (vis_closed _ _ _ _ Hv) in Hx as [? _]. lia.
    - intros Hx. apply (vis_below _ _ _ _ Hv). lia. }
  exists cs. rewrite tags_nil in Hrun. unfold print_cycles. change (Z.of_nat 0) with 0%Z in Hrun. rewrite Hrun.
  simpl. rewrite tags_all by done. done.
Qed.

(** ** is_inverse and make_inverse *)
Section inverse.
Implicit Types (n m i k fuel : nat) (p q : list nat).

Lemma is_inverse_loop_runs n p q m k :
  p ≡ₚ seq 0 n → q ≡ₚ seq 0 n → k + m = n →
  ∃ b, is_inverse_loop m (arr p) (arr q) (Z.of_nat k) = Ok b ∧
       (b = true ↔ ∀ i, k ≤ i < n → step p (step q i) = i).
Proof.
  intros Hp Hq. revert k; induction m as [|m IH]; intros k Hk; cbn [is_inverse_loop].
  { exists true. split; [done|]. split; [|done]. intros _ i Hi. lia. }
  rewrite (get_arr n q Hq) by lia. cbn [mbind res_bind].
  rewrite (get_arr n p Hp) by (apply (step_lt n q Hq); lia). cbn [mbind res_bind].
  replace (Z.of_nat k + 1)%Z with (Z.of_nat (S k)) by lia.
  destruct (Z.eqb_spec (Z.of_nat (step p (step q k))) (Z.of_nat k)) as [Heq%Nat2Z.inj|Hne]; simpl.
  - destruct (IH (S k)) as (b & Hrun & Hb); [lia|]. exists b. split; [done|]. rewrite Hb. split.
    + intros Hall i Hi. destruct (decide (i = k)) as [->|]; [done|]. apply Hall. lia.
    + intros Hall i Hi. apply Hall. lia.
  - exists false. split; [done|]. split; [done|]. intros Hall. destruct Hne. f_equal. apply Hall. lia.
Qed.

Lemma put_same p n i :
  p ≡ₚ seq 0 n → i < n → put (arr p) (Z.of_nat i) (Z.of_nat (step p i)) = Ok (arr p).
Proof.
  intros Hp Hi. rewrite put_Ok.
  - f_equal. apply list_insert_id. unfold arr. by rewrite list_lookup_fmap, (step_lookup n p Hp).
  - unfold arr. by rewrite length_fmap, (perm_length n p Hp).
Qed.

Lemma make_inverse_loop_runs n p fuel m k :
  p ≡ₚ seq 0 n → (∀ i, i < n → step p (step p i) = i) → k + m = n →
  make_inverse_loop (S (S fuel)) m (arr p) (Z.of_nat k) (Some (tags n (seq 0 k))) =
  Ok (arr p, Some (tags n (seq 0 n))).
Proof.
  intros Hp Hinv. revert k; induction m as [|m IH]; intros k Hk; cbn [make_inverse_loop].
  { by replace k with n by lia. }
  rewrite tag_of_tags by lia. cbn [mbind res_bind].
  rewrite decide_False by (rewrite elem_of_seq; lia). cbn [Z.eqb].
  rewrite set_tag_tags by lia. cbn [mbind res_bind]. rewrite (get_arr n p Hp) by lia. cbn [mbind res_bind].
  assert (step p k < n) as Hg by (apply (step_lt n p Hp); lia). assert (k < n) as Hkn by lia.
  change [k] with [0 + k]. rewrite <-seq_S.
  replace (Z.of_nat k + 1)%Z with (Z.of_nat (S k)) by lia.
  assert (tag_of (Some (tags n (seq 0 (S k)))) (Z.of_nat k) = Ok 1%Z) as Htk.
  { rewrite tag_of_tags, decide_True; [done|apply elem_of_seq; lia|done]. }
  assert (put (arr p) (Z.of_nat (step p k)) (Z.of_nat k) = Ok (arr p)) as Hput.
  { pose proof (put_same p n (step p k) Hp Hg) as Hput. by rewrite (Hinv k Hkn) in Hput. }
  cbn [invert_cycle]. rewrite tag_of_tags by done. cbn [mbind res_bind].
  destruct (decide (step p k ∈ seq 0 (S k))) as [Hin|Hin]; cbn [Z.eqb Pos.eqb mret res_ret mbind res_bind].
  - rewrite Hput. cbn [mbind res_bind]. apply IH. lia.
  - rewrite (get_arr n p Hp _ Hg). cbn [mbind res_bind]. rewrite (Hinv k Hkn).
    rewrite Hput. cbn [mbind res_bind]. rewrite Htk. cbn [Z.eqb Pos.eqb mret res_ret mbind res_bind].
    rewrite (put_same p n) by done. cbn [mbind res_bind]. apply IH. lia.
Qed.

(** [is_inverse] answers whether one permutation undoes the other. *)
Theorem is_inverse_correct n p q :
  p ≡ₚ seq 0 n → q ≡ₚ seq 0 n →
  ∃ b, is_inverse (arr p) (arr q) n = Ok b ∧ (b = true ↔ ∀ i, i < n → step p (step q i) = i).
Proof.
  intros Hp Hq. destruct (is_inverse_loop_runs n p q n 0 Hp Hq) as (b & Hrun & Hb); [done|].
  exists b. split; [exact Hrun|]. rewrite Hb. split; intros Hall i Hi; apply Hall; lia.
Qed.

(** [make_inverse] is right on permutations that are their own inverse: it
    leaves the array as it is, and tags every number. *)
Theorem make_inverse_involution fuel n p :
  p ≡ₚ seq 0 n → (∀ i, i < n → step p (step p i) = i) →
  make_inverse (S (S fuel)) (arr p) n (Some (replicate n 0%Z)) = Ok (arr p, Some (replicate n 1%Z)).
Proof.
  intros Hp Hinv. rewrite <-(tags_nil n), <-(tags_all n (seq 0 n)) by done.
  by apply (make_inverse_loop_runs n p fuel n 0).
Qed.

Lemma print_cycle_diverges fuel (i : Z) (tb : list Z) :
  (i = 2 ∨ i = 3)%Z → length tb = 4 → print_cycle fuel [3; 2; 3; 2]%Z 0 i (Some tb) = Blocked.
Proof.
  revert i tb; induction fuel as [|fuel IH]; intros i tb Hi Htb; [done|].
  destruct tb as [|a [|b [|c [|d [|e tb] ] ] ] ]; try done. destruct Hi as [-> | ->]; simpl; rewrite IH; auto.
Qed.

Lemma print_cycle_diverges_0 fuel : print_cycle fuel [3; 2; 3; 2]%Z 0 0 (Some [0; 0; 0; 0]%Z) = Blocked.
Proof. destruct fuel as [|fuel]; [done|]. simpl. rewrite print_cycle_diverges; auto. Qed.

(** [make_inverse] is wrong for the cycle of four numbers in [_tmain]: the
    loop that follows a cycle tags only its first number, so the next numbers of
    the cycle start it again; the array it leaves is not the inverse, not even a
    permutation, and [print_cycles], called on it, never ends. *)
Theorem make_inverse_wrong :
  tmain_array 4 = Ok ([3; 2; 3; 2]%Z, Some [0; 0; 0; 0]%Z) ∧
  is_inverse [3; 2; 3; 2]%Z [3; 0; 1; 2]%Z 4 = Ok false ∧
  ∀ fuel, tmain fuel = Blocked.
Proof.
  split; [reflexivity|]. split; [reflexivity|].
  intros fuel. do 4 (destruct fuel as [|fuel]; [reflexivity|]).
  unfold tmain. assert (tmain_array (S (S (S (S fuel)))) = Ok ([3; 2; 3; 2]%Z, Some [0; 0; 0; 0]%Z)) as ->
    by reflexivity.
  cbn [mbind res_bind]. unfold print_cycles. cbn [print_cycles_loop].
  change (tag_of (Some [0; 0; 0; 0]%Z) 0) with (Ok 0%Z). cbn [mbind res_bind Z.eqb].
  by rewrite print_cycle_diverges_0.
Qed.
End inverse.

Lemma is_cyclic_correct_witness :
  ∃ b, is_cyclic 4 [3; 0; 1; 2]%Z 4 = Ok b ∧ (b = true ↔ ∀ i, i < 4 → ∃ j, steps [3; 0; 1; 2] j 0 = i).
Proof. apply (is_cyclic_correct 4 4 [3; 0; 1; 2]); [compute_done|lia]. Defined.
Lemma print_cycles_correct_witness :
  ∃ cs, print_cycles 5 [2; 1; 0; 4; 3]%Z 5 (Some [0; 0; 0; 0; 0]%Z) =
          Ok (fmap (M:=list) Z.of_nat <$> cs, Some [1; 1; 1; 1; 1]%Z) ∧ concat cs ≡ₚ seq 0 5.
Proof.
  destruct (print_cycles_correct 5 5 [2; 1; 0; 4; 3]) as (cs & Hrun & _ & Hcs); [compute_done|lia|by exists cs].
Defined.
Lemma make_inverse_involution_witness :
  make_inverse 2 [1; 0; 2]%Z 3 (Some [0; 0; 0]%Z) = Ok ([1; 0; 2]%Z, Some [1; 1; 1]%Z).
Proof.
  apply (make_inverse_involution 0 3 [1; 0; 2]); [compute_done|].
  intros i Hi. do 3 (destruct i as [|i]; [reflexivity|]). lia.
Defined.
(** the default value that the comment gives [bp] *)
Example make_inverse_NULL : make_inverse 4 [0]%Z 1 None = Fault NullDeref.
Proof. reflexivity. Qed.
