(* ===== verification/BinaryTree.v ===== *)
(** The exercises on binary trees, as programs on a heap of tree nodes.

    Every file declares the same node with a value (an [int], or a [char], whose
    code is an integer here) and two pointers, and the same [newNode]; they are
    modelled once.  Levels and path lengths are bounded by the depth of the
    tree; sums of values can overflow.  Recursion is bounded by [fuel], one unit
    per level of the tree.  Printed values are results.  Each exercise is a
    Module with the name of its file. *)

From iris.proofmode Require Import proofmode.
From S2P Require Import Prelude Int Array Heap.

Record node := mk_node { n_data : option Z; n_left : option ptr; n_right : option ptr }.

Definition put_data (d : Z) (v : node) : node := mk_node (Some d) (n_left v) (n_right v).
Definition put_left (p : ptr) (v : node) : node := mk_node (n_data v) (Some p) (n_right v).
Definition put_right (p : ptr) (v : node) : node := mk_node (n_data v) (n_left v) (Some p).

Abbreviation prog := (prog node).
Implicit Types (p root : ptr) (fuel : nat).

Definition get_data p : prog Z := v ← load p; lift (of_option Uninitialised (n_data v)).
Definition get_left p : prog ptr := v ← load p; lift (of_option Uninitialised (n_left v)).
Definition get_right p : prog ptr := v ← load p; lift (of_option Uninitialised (n_right v)).
Definition set_data p (d : Z) : prog unit := modify p (put_data d).
Definition set_left p (q : ptr) : prog unit := modify p (put_left q).
Definition set_right p (q : ptr) : prog unit := modify p (put_right q).

Definition newNode (data : Z) : prog ptr :=
  node ← new (mk_node None None None);
  _ ← set_data node data; _ ← set_left node None; _ ← set_right node None;
  mret node.

(** the assignments of the [main] functions, such as
    [root->left->right = newNode(5)], which is [assign_child root [L] R 5] *)
Inductive side := L | R.
Fixpoint follow p (path : list side) : prog ptr :=
  match path with
  | [] => mret p
  | L :: path => p ← get_left p; follow p path
  | R :: path => p ← get_right p; follow p path
  end.
Definition assign_child root (path : list side) (s : side) (data : Z) : prog unit :=
  n ← newNode data; p ← follow root path;
  match s with L => set_left p n | R => set_right p n end.
Fixpoint assign_children root (l : list (list side * side * Z)) : prog unit :=
  match l with
  | [] => mret tt
  | (path, s, data) :: l => _ ← assign_child root path s data; assign_children root l
  end.
Definition build (data : Z) (l : list (list side * side * Z)) : prog ptr :=
  root ← newNode data; _ ← assign_children root l; mret root.

(** ** minBinaryTreeHeight.h *)
Module minBinaryTreeHeight.

Fixpoint minDepth fuel root : prog Z :=
  match root with
  | None => mret 0%Z
  | Some _ =>
      match fuel with
      | O => out_of_fuel
      | S fuel =>
          leaf ← (l ← get_left root; mret (l =p? None)) &&& (r ← get_right root; mret (r =p? None));
          if leaf : bool then mret 1%Z
          else
            l ← get_left root;
            match l with
            | None => r ← get_right root; d ← minDepth fuel r; mret (d + 1)%Z
            | Some _ =>
                r ← get_right root;
                match r with
                | None => l ← get_left root; d ← minDepth fuel l; mret (d + 1)%Z
                | Some _ =>
                    l ← get_left root; dl ← minDepth fuel l;
                    r ← get_right root; dr ← minDepth fuel r;
                    mret (Z.min dl dr + 1)%Z
                end
            end
      end
  end.

(** FindBinaryTreeHeight of training.cpp *)
Definition FindBinaryTreeHeight fuel : prog Z :=
  root ← build 1 [([], L, 2); ([], R, 3); ([L], L, 4); ([L], R, 5)]%Z;
  minDepth fuel root.
End minBinaryTreeHeight.

(** ** MaxBinaryTreeSumPath.h *)
Module MaxBinaryTreeSumPath.

(** the result and [res] *)
Fixpoint findMaxUtil fuel root (res : Z) : prog (Z * Z) :=
  match root with
  | None => mret (0%Z, res)
  | Some _ =>
      match fuel with
      | O => out_of_fuel
      | S fuel =>
          left ← get_left root; '(l, res) ← findMaxUtil fuel left res;
          right ← get_right root; '(r, res) ← findMaxUtil fuel right res;
          d ← get_data root; s ← lift (int_add (Z.max l r) d);
          let max_single := Z.max s d in
          lr ← lift (int_add l r); t ← lift (int_add lr d);
          let max_top := Z.max max_single t in
          mret (max_single, Z.max res max_top)
      end
  end.
Definition findMaxSum fuel root : prog Z := '(_, res) ← findMaxUtil fuel root INT_MIN; mret res.

(** FindMaxSumValue of training.cpp *)
Definition FindMaxSumValue fuel : prog Z :=
  root ← build 10 [([], L, 2); ([], R, 10); ([L], L, 20); ([L], R, 1); ([R], R, -25);
                   ([R; R], L, 3); ([R; R], R, 4)]%Z;
  findMaxSum fuel root.
End MaxBinaryTreeSumPath.

(** ** FullBinaryTest.h *)
Module FullBinaryTest.

Fixpoint isFullTree fuel root : prog bool :=
  match root with
  | None => mret true
  | Some _ =>
      match fuel with
      | O => out_of_fuel
      | S fuel =>
          leaf ← (l ← get_left root; mret (l =p? None)) &&& (r ← get_right root; mret (r =p? None));
          if leaf : bool then mret true
          else
            both ← (l ← get_left root; mret (negb (l =p? None))) &&&
                   (r ← get_right root; mret (negb (r =p? None)));
            if both : bool then
              (l ← get_left root; isFullTree fuel l) &&& (r ← get_right root; isFullTree fuel r)
            else mret false
      end
  end.

(** TestBinaryFullTree of training.cpp *)
Definition TestBinaryFullTree fuel : prog bool :=
  root ← build 10 [([], L, 20); ([], R, 30); ([L], R, 40); ([L], L, 50); ([R], L, 60); ([R], R, 70);
                   ([L; L], L, 80); ([L; L], R, 90); ([L; R], L, 80); ([L; R], R, 90);
                   ([R; L], L, 80); ([R; L], R, 90); ([R; R], L, 80)]%Z;
  isFullTree fuel root.
End FullBinaryTest.

(** ** SumLeftLeaves.cpp *)
Module SumLeftLeaves.

Fixpoint printPostorder fuel root : prog (list Z) :=
  match root with
  | None => mret []
  | Some _ =>
      match fuel with
      | O => out_of_fuel
      | S fuel =>
          l ← get_left root; o1 ← printPostorder fuel l;
          r ← get_right root; o2 ← printPostorder fuel r;
          d ← get_data root; mret (o1 ++ o2 ++ [d])
      end
  end.
(** what is printed and [sum] *)
Fixpoint printInorder fuel root (sum : Z) : prog (list Z * Z) :=
  match root with
  | None => mret ([], sum)
  | Some _ =>
      match fuel with
      | O => out_of_fuel
      | S fuel =>
          l ← get_left root; '(o1, sum) ← printInorder fuel l sum;
          d ← get_data root;
          leaf ← (l ← get_left root; mret (negb (l =p? None))) &&&
                 (l ← get_left root; x ← get_left l; mret (x =p? None)) &&&
                 (l ← get_left root; x ← get_right l; mret (x =p? None));
          sum ← (if leaf : bool then l ← get_left root; e ← get_data l; lift (int_add sum e) else mret sum);
          r ← get_right root; '(o2, sum) ← printInorder fuel r sum;
          mret (o1 ++ d :: o2, sum)
      end
  end.
Fixpoint printPreorder fuel root : prog (list Z) :=
  match root with
  | None => mret []
  | Some _ =>
      match fuel with
      | O => out_of_fuel
      | S fuel =>
          d ← get_data root;
          l ← get_left root; o1 ← printPreorder fuel l;
          r ← get_right root; o2 ← printPreorder fuel r;
          mret (d :: o1 ++ o2)
      end
  end.
(** the three traversals and [sum] *)
Definition main fuel : prog (list Z * list Z * list Z * Z) :=
  root ← build 1 [([], L, 2); ([], R, 3); ([L], L, 4); ([L], R, 5); ([L; L], L, 8); ([L; L], R, 9);
                  ([R], L, 6); ([R], R, 7); ([R; R], L, 10); ([R; R], R, 11)]%Z;
  o1 ← printPreorder fuel root;
  '(o2, sum) ← printInorder fuel root 0;
  o3 ← printPostorder fuel root;
  mret (o1, o2, o3, sum).
End SumLeftLeaves.

(** ** PathToLeafBinaryTree.cpp *)
Module PathToLeafBinaryTree.

(** [printPreorder(node, path)]: the paths that are printed, and [path] *)
Fixpoint printPreorder fuel root (path : list Z) : prog (list (list Z) * list Z) :=
  match root with
  | None => mret ([], path)
  | Some _ =>
      match fuel with
      | O => out_of_fuel
      | S fuel =>
          d ← get_data root;
          let path := path ++ [d] in
          let oldPath := path in
          leaf ← (l ← get_left root; mret (l =p? None)) &&& (r ← get_right root; mret (r =p? None));
          let out := if leaf : bool then [path] else [] in
          l ← get_left root; '(o1, path) ← printPreorder fuel l path;
          let path := oldPath in
          r ← get_right root; '(o2, path) ← printPreorder fuel r path;
          let path := oldPath in
          mret (out ++ o1 ++ o2, path)
      end
  end.

(** [path[i]] for [i] up to [length]; reading past the end of a vector is a fault *)
Definition PrintPathLength (path : list Z) (length : nat) : res (list Z) :=
  if (length <=? List.length path)%nat then Ok (take length path) else Fault OutOfBounds.

(** [printPreorder(node, path, length)] *)
Fixpoint printPreorder_length fuel root (path : list Z) (length : nat) : prog (list (list Z) * list Z) :=
  match root with
  | None => mret ([], path)
  | Some _ =>
      match fuel with
      | O => out_of_fuel
      | S fuel =>
          d ← get_data root;
          path ← (if (length =? List.length path)%nat then mret (path ++ [d])
                  else lift (put path (Z.of_nat length) d));
          let length := S length in
          leaf ← (l ← get_left root; mret (l =p? None)) &&& (r ← get_right root; mret (r =p? None));
          if leaf : bool then out ← lift (PrintPathLength path length); mret ([out], path)
          else
            l ← get_left root; '(o1, path) ← printPreorder_length fuel l path length;
            r ← get_right root; '(o2, path) ← printPreorder_length fuel r path length;
            mret (o1 ++ o2, path)
      end
  end.

(** the paths that the two methods print *)
Definition main fuel : prog (list (list Z) * list (list Z)) :=
  root ← build 1 [([], L, 2); ([], R, 3); ([L], L, 4); ([L; L], L, 7); ([R], L, 6); ([R; L], R, 9); ([R; L], L, 8)]%Z;
  '(o1, _) ← printPreorder fuel root [];
  '(o2, _) ← printPreorder_length fuel root [] 0;
  mret (o1, o2).
End PathToLeafBinaryTree.

(** ** RemoveNodesOnRoot.cpp *)
Module RemoveNodesOnRoot.

Fixpoint removeShortPathNodesUtil fuel root (level k : Z) : prog ptr :=
  match root with
  | None => mret None
  | Some _ =>
      match fuel with
      | O => out_of_fuel
      | S fuel =>
          l ← get_left root; l ← removeShortPathNodesUtil fuel l (level + 1) k; _ ← set_left root l;
          r ← get_right root; r ← removeShortPathNodesUtil fuel r (level + 1) k; _ ← set_right root r;
          short ← (l ← get_left root; mret (l =p? None)) &&& (r ← get_right root; mret (r =p? None)) &&&
                  mret (level <? k)%Z;
          if short : bool then _ ← dispose root; mret None else mret root
      end
  end.
Definition removeShortPathNodes fuel root (k : Z) : prog ptr := removeShortPathNodesUtil fuel root 1 k.

Fixpoint printInorder fuel root : prog (list Z) :=
  match root with
  | None => mret []
  | Some _ =>
      match fuel with
      | O => out_of_fuel
      | S fuel =>
          l ← get_left root; o1 ← printInorder fuel l;
          d ← get_data root;
          r ← get_right root; o2 ← printInorder fuel r;
          mret (o1 ++ d :: o2)
      end
  end.
(** the tree before and after *)
Definition main fuel : prog (list Z * list Z) :=
  let k := 5%Z in
  root ← build 1 [([], L, 2); ([], R, 3); ([L], L, 4); ([L], R, 5); ([L; L], L, 7); ([R], R, 6); ([R; R], L, 8)]%Z;
  o1 ← printInorder fuel root;
  res ← removeShortPathNodes fuel root k;
  o2 ← printInorder fuel res;
  mret (o1, o2).
End RemoveNodesOnRoot.

(** ** Common Ancestor.cpp *)
Module CommonAncestor.

Fixpoint lca fuel root (n1 n2 : Z) : prog ptr :=
  match root with
  | None => mret None
  | Some _ =>
      match fuel with
      | O => out_of_fuel
      | S fuel =>
          d ← get_data root;
          if (d >? n1)%Z && (d >? n2)%Z then l ← get_left root; lca fuel l n1 n2
          else if (d <? n1)%Z && (d <? n2)%Z then r ← get_right root; lca fuel r n1 n2
          else mret root
      end
  end.

(** the ancestors that are printed *)
Definition main fuel : prog (list Z) :=
  root ← build 20 [([], L, 8); ([], R, 22); ([L], L, 4); ([L], R, 12); ([L; R], L, 10); ([L; R], R, 14)]%Z;
  t ← lca fuel root 10 14; a1 ← get_data t;
  t ← lca fuel root 14 8; a2 ← get_data t;
  t ← lca fuel root 10 22; a3 ← get_data t;
  mret [a1; a2; a3].
End CommonAncestor.

(** ** ReverseBinaryTree.cpp *)
Module ReverseBinaryTree.

Definition MAX : nat := 100.

(** [arr] and [*index] *)
Fixpoint storeAlternate fuel root (arr : array) (index l : Z) : prog (array * Z) :=
  match root with
  | None => mret (arr, index)
  | Some _ =>
      match fuel with
      | O => out_of_fuel
      | S fuel =>
          left ← get_left root; '(arr, index) ← storeAlternate fuel left arr index (l + 1);
          '(arr, index) ←
            (if negb (l `rem` 2 =? 0)%Z then
               d ← get_data root; arr ← lift (assign arr index d); mret (arr, index + 1)%Z
             else mret (arr, index));
          right ← get_right root; storeAlternate fuel right arr index (l + 1)
      end
  end.

(** [*index] *)
Fixpoint modifyTree fuel root (arr : array) (index l : Z) : prog Z :=
  match root with
  | None => mret index
  | Some _ =>
      match fuel with
      | O => out_of_fuel
      | S fuel =>
          left ← get_left root; index ← modifyTree fuel left arr index (l + 1);
          index ← (if negb (l `rem` 2 =? 0)%Z then
                     d ← lift (fetch arr index); _ ← set_data root d; mret (index + 1)%Z
                   else mret index);
          right ← get_right root; modifyTree fuel right arr index (l + 1)
      end
  end.

(** [while (l < r)]; the indices come closer in every iteration *)
Fixpoint reverse_loop fuel (arr : array) (l r : Z) : res array :=
  if (l <? r)%Z then
    match fuel with
    | O => Blocked
    | S fuel =>
        temp ← fetch arr l; x ← fetch arr r;
        arr ← assign arr l x; arr ← assign arr r temp;
        reverse_loop fuel arr (l + 1) (r - 1)
    end
  else mret arr.
Definition reverse (arr : array) (n : Z) : res array := reverse_loop (Z.to_nat n) arr 0 (n - 1).

Definition reverseAlternate fuel root : prog unit :=
  let arr := replicate MAX None in
  '(arr, index) ← storeAlternate fuel root arr 0 0;
  arr ← lift (reverse arr index);
  _ ← modifyTree fuel root arr 0 0;
  mret tt.

Fixpoint printInorder fuel root : prog (list Z) :=
  match root with
  | None => mret []
  | Some _ =>
      match fuel with
      | O => out_of_fuel
      | S fuel =>
          l ← get_left root; o1 ← printInorder fuel l;
          d ← get_data root;
          r ← get_right root; o2 ← printInorder fuel r;
          mret (o1 ++ d :: o2)
      end
  end.
(** the traversals before and after, for the letters a to o *)
Definition main fuel : prog (list Z * list Z) :=
  root ← build 97 [([], L, 98); ([], R, 99); ([L], L, 100); ([L], R, 101); ([R], L, 102); ([R], R, 103);
                   ([L; L], L, 104); ([L; L], R, 105); ([L; R], L, 106); ([L; R], R, 107);
                   ([R; L], L, 108); ([R; L], R, 109); ([R; R], L, 110); ([R; R], R, 111)]%Z;
  o1 ← printInorder fuel root;
  _ ← reverseAlternate fuel root;
  o2 ← printInorder fuel root;
  mret (o1, o2).
End ReverseBinaryTree.

(** ** BinarySubTree.cpp *)
Module BinarySubTree.

Definition MAX : nat := 100.
(** the characters that mark a NULL pointer and the end of a string *)
Definition dollar : Z := 36.
Definition nul : Z := 0.

(** [arr] and [i] *)
Fixpoint storeInorder fuel root (arr : array) (i : Z) : prog (array * Z) :=
  match root with
  | None => arr ← lift (assign arr i dollar); mret (arr, i + 1)%Z
  | Some _ =>
      match fuel with
      | O => out_of_fuel
      | S fuel =>
          l ← get_left root; '(arr, i) ← storeInorder fuel l arr i;
          d ← get_data root; arr ← lift (assign arr i d); let i := (i + 1)%Z in
          r ← get_right root; storeInorder fuel r arr i
      end
  end.
Fixpoint storePreOrder fuel root (arr : array) (i : Z) : prog (array * Z) :=
  match root with
  | None => arr ← lift (assign arr i dollar); mret (arr, i + 1)%Z
  | Some _ =>
      match fuel with
      | O => out_of_fuel
      | S fuel =>
          d ← get_data root; arr ← lift (assign arr i d); let i := (i + 1)%Z in
          l ← get_left root; '(arr, i) ← storePreOrder fuel l arr i;
          r ← get_right root; storePreOrder fuel r arr i
      end
  end.

(** the characters of [arr] up to the first 0 *)
Fixpoint c_string (arr : array) : res (list Z) :=
  match arr with
  | [] => Fault OutOfBounds
  | None :: _ => Fault Uninitialised
  | Some c :: arr => if (c =? nul)%Z then mret [] else s ← c_string arr; mret (c :: s)
  end.
Fixpoint starts_with (s t : list Z) : bool :=
  match t, s with
  | [], _ => true
  | _, [] => false
  | y :: t, x :: s => (x =? y)%Z && starts_with s t
  end.
Fixpoint has_substring (s t : list Z) : bool :=
  starts_with s t || match s with [] => false | _ :: s => has_substring s t end.
(** [strstr(s, t) != NULL] *)
Definition strstr (s t : array) : res bool := s ← c_string s; t ← c_string t; mret (has_substring s t).

Definition isSubtree fuel (T S : ptr) : prog bool :=
  match S, T with
  | None, _ => mret true
  | _, None => mret false
  | _, _ =>
      '(inT, m) ← storeInorder fuel T (replicate MAX None) 0;
      '(inS, n) ← storeInorder fuel S (replicate MAX None) 0;
      inT ← lift (assign inT m nul); inS ← lift (assign inS n nul);
      found ← lift (strstr inT inS);
      if negb found then mret false
      else
        '(preT, m) ← storePreOrder fuel T (replicate MAX None) 0;
        '(preS, n) ← storePreOrder fuel S (replicate MAX None) 0;
        preT ← lift (assign preT m nul); preS ← lift (assign preS n nul);
        lift (strstr preT preS)
  end.

Definition main fuel : prog bool :=
  T ← build 97 [([], L, 98); ([], R, 100); ([L], L, 99); ([R], R, 101)]%Z;
  S ← build 97 [([], L, 98); ([L], L, 99); ([], R, 100)]%Z;
  isSubtree fuel T S.
End BinarySubTree.
