(* ===== verification/BinaryTreeProps.v ===== *)
(** The exercises on binary trees that only read the tree.

    A tree [t] carries the addresses of its nodes; [is_tree t] says that they are
    in memory, so a specification that gives [is_tree t] back says that nothing
    changed.  [paths t] are the values on the ways from the root to the leaves. *)

From iris.proofmode Require Import proofmode environments coq_tactics reduction.
From S2P Require Import Prelude Int Array Heap HeapTactics BinaryTree.

Inductive tree := Nil | Bin (n : loc) (l : tree) (d : Z) (r : tree).

Section rep.
Implicit Types (t : tree).

Definition root_ptr t : ptr := match t with Nil => None | Bin n _ _ _ => Some n end.
Fixpoint is_tree t : heapPropI node :=
  match t with
  | Nil => emp
  | Bin n l d r => n ↦ mk_node (Some d) (Some (root_ptr l)) (Some (root_ptr r)) ∗ is_tree l ∗ is_tree r
  end%I.

Fixpoint depth t : nat := match t with Nil => 0 | Bin _ l _ r => S (depth l `max` depth r) end.
Fixpoint addrs t : list loc := match t with Nil => [] | Bin n l _ r => n :: addrs l ++ addrs r end.
Fixpoint preorder t : list Z := match t with Nil => [] | Bin _ l d r => d :: preorder l ++ preorder r end.
Fixpoint inorder t : list Z := match t with Nil => [] | Bin _ l d r => inorder l ++ d :: inorder r end.
Fixpoint postorder t : list Z := match t with Nil => [] | Bin _ l d r => postorder l ++ postorder r ++ [d] end.
(** the ways from the root to the leaves *)
Fixpoint paths t : list (list Z) :=
  match t with
  | Nil => []
  | Bin _ Nil d Nil => [[d]]
  | Bin _ l d r => cons d <$> paths l ++ paths r
  end.
(** the sum of the absolute values: what bounds every sum of values *)
Fixpoint weight t : Z := match t with Nil => 0 | Bin _ l d r => weight l + Z.abs d + weight r end%Z.
End rep.
#[export] Typeclasses Opaque is_tree.
Arguments is_tree : simpl never.

Section nodes.
Implicit Types (t l r : tree) (n : loc) (d : Z) (p : ptr).

Lemma is_tree_Nil : is_tree Nil ⊣⊢ emp.
Proof. done. Qed.
Lemma is_tree_Bin n l d r :
  is_tree (Bin n l d r) ⊣⊢
  n ↦ mk_node (Some d) (Some (root_ptr l)) (Some (root_ptr r)) ∗ is_tree l ∗ is_tree r.
Proof. done. Qed.
Lemma is_tree_open n l d r :
  is_tree (Bin n l d r) ⊢
  n ↦ mk_node (Some d) (Some (root_ptr l)) (Some (root_ptr r)) ∗ is_tree l ∗ is_tree r.
Proof. done. Qed.
Lemma is_tree_close n l d r :
  n ↦ mk_node (Some d) (Some (root_ptr l)) (Some (root_ptr r)) -∗ is_tree l -∗ is_tree r -∗
  is_tree (Bin n l d r).
Proof. rewrite is_tree_Bin. iIntros "$ $ $". Qed.
(** the tree determines the memory *)
Lemma is_tree_unique t h h' : is_tree t h → is_tree t h' → h = h'.
Proof.
  revert h h'; induction t as [|n l IHl d r IHr]; intros h h'; [by intros -> ->|].
  intros (h1 & h2 & -> & _ & Hh1 & h3 & h4 & -> & _ & H3 & H4) (g1 & g2 & -> & _ & Hg1 & g3 & g4 & -> & _ & G3 & G4).
  cbn in Hh1, Hg1. subst. by rewrite (IHl _ _ H3 G3) (IHr _ _ H4 G4).
Qed.

#[export] Instance get_data_op n d (x y : option ptr) :
  CellOp (get_data (Some n)) n (mk_node (Some d) x y) d (mk_node (Some d) x y).
Proof. eapply bind_op; [apply _|by apply lift_op]. Qed.
#[export] Instance get_left_op n (d : option Z) p (y : option ptr) :
  CellOp (get_left (Some n)) n (mk_node d (Some p) y) p (mk_node d (Some p) y).
Proof. eapply bind_op; [apply _|by apply lift_op]. Qed.
#[export] Instance get_right_op n (d : option Z) (x : option ptr) p :
  CellOp (get_right (Some n)) n (mk_node d x (Some p)) p (mk_node d x (Some p)).
Proof. eapply bind_op; [apply _|by apply lift_op]. Qed.
#[export] Instance set_data_op n (v : node) d : CellOp (set_data (Some n) d) n v tt (put_data d v).
Proof. apply _. Qed.
#[export] Instance set_left_op n (v : node) p : CellOp (set_left (Some n) p) n v tt (put_left p v).
Proof. apply _. Qed.
#[export] Instance set_right_op n (v : node) p : CellOp (set_right (Some n) p) n v tt (put_right p v).
Proof. apply _. Qed.
End nodes.

Ltac node_simpl := cbn [put_data put_left put_right n_data n_left n_right root_ptr fst snd].
Ltac steps := wp_ops node_simpl.
Ltac open_tree := iDestruct (is_tree_open with "Ht") as "(Hn & Hl & Hr)".
Ltac close_tree n l d r := iDestruct (is_tree_close n l d r with "Hn Hl Hr") as "Ht".

(** ** The shape of paths *)
Lemma paths_Bin n l d r : l ≠ Nil ∨ r ≠ Nil → paths (Bin n l d r) = cons d <$> paths l ++ paths r.
Proof. intros [?|?]; destruct l, r; done. Qed.
Lemma paths_nonempty t : t ≠ Nil → paths t ≠ [].
Proof.
  induction t as [|n l IHl d r IHr]; [done|]. intros _. destruct l as [|nl ll dl rl]; [destruct r as [|nr lr dr rr]; [done|]|].
  - rewrite paths_Bin; [|by right]. intros Hp%fmap_nil_inv. by apply IHr.
  - rewrite paths_Bin; [|by left]. intros [Hp _]%fmap_nil_inv%app_nil. by apply IHl.
Qed.
Lemma leaf_or_not l r : (l = Nil ∧ r = Nil) ∨ (l ≠ Nil ∨ r ≠ Nil).
Proof. destruct l, r; naive_solver. Qed.
Lemma elem_of_paths_Bin n l d r p :
  p ∈ paths (Bin n l d r) ↔
  (l = Nil ∧ r = Nil ∧ p = [d]) ∨ ∃ p', p = d :: p' ∧ (p' ∈ paths l ∨ p' ∈ paths r).
Proof.
  destruct (leaf_or_not l r) as [[-> ->]|Hlr].
  - cbn [paths]. rewrite list_elem_of_singleton. split; [by left|].
    intros [(_ & _ & ->)|(p' & _ & [H|H])]; [done|by apply not_elem_of_nil in H..].
  - rewrite paths_Bin // list_elem_of_fmap. setoid_rewrite elem_of_app. split; [naive_solver|].
    intros [(-> & -> & _)|?]; naive_solver.
Qed.

(** ** minDepth *)
Section min_depth.
Import minBinaryTreeHeight.
Implicit Types (t : tree) (fuel : nat).

(** the computation of [minDepth] *)
Fixpoint min_depth t : nat :=
  match t with
  | Nil => 0
  | Bin _ Nil _ Nil => 1
  | Bin _ Nil _ r => min_depth r + 1
  | Bin _ l _ Nil => min_depth l + 1
  | Bin _ l _ r => min_depth l `min` min_depth r + 1
  end.

(** it is the length of a shortest way to a leaf *)
Lemma min_depth_shortest t :
  t ≠ Nil → (∃ p, p ∈ paths t ∧ length p = min_depth t) ∧ ∀ p, p ∈ paths t → min_depth t ≤ length p.
Proof.
  induction t as [|n l IHl d r IHr]; [done|]. intros _. split.
  - assert (∃ p, p ∈ paths (Bin n l d r) ∧ length p = min_depth (Bin n l d r)); [|done].
    setoid_rewrite elem_of_paths_Bin.
    destruct l as [|nl ll dl rl], r as [|nr lr dr rr].
    + exists [d]. auto.
    + destruct (IHr ltac:(done)) as [(p & Hp & Hlen) _]. exists (d :: p). split; [eauto 10|]. cbn -[paths]. simpl in Hlen. lia.
    + destruct (IHl ltac:(done)) as [(p & Hp & Hlen) _]. exists (d :: p). split; [eauto 10|]. simpl in *. lia.
    + destruct (IHl ltac:(done)) as [(p & Hp & Hlen) _], (IHr ltac:(done)) as [(q & Hq & Hlen') _].
      destruct (Nat.le_ge_cases (length p) (length q)); [exists (d :: p)|exists (d :: q)]; (split; [eauto 10|]); simpl in *; lia.
  - intros p [(-> & -> & ->)|(p' & -> & Hp')]%elem_of_paths_Bin; [done|].
    destruct l as [|nl ll dl rl], r as [|nr lr dr rr].
    + by destruct Hp' as [[]%not_elem_of_nil|[]%not_elem_of_nil].
    + destruct Hp' as [[]%not_elem_of_nil|Hp']. destruct (IHr ltac:(done)) as [_ Hr]. apply Hr in Hp'. simpl in *. lia.
    + destruct Hp' as [Hp'|[]%not_elem_of_nil]. destruct (IHl ltac:(done)) as [_ Hl]. apply Hl in Hp'. simpl in *. lia.
    + destruct (IHl ltac:(done)) as [_ Hl], (IHr ltac:(done)) as [_ Hr].
      destruct Hp' as [Hp'|Hp']; [apply Hl in Hp'|apply Hr in Hp']; simpl in *; lia.
Qed.

Lemma wp_minDepth fuel t (Φ : Z → heapPropI node) :
  depth t ≤ fuel →
  is_tree t ∗ (is_tree t -∗ Φ (Z.of_nat (min_depth t))) ⊢ wp (minDepth fuel (root_ptr t)) Φ.
Proof.
  revert fuel Φ; induction t as [|n l IHl d r IHr]; intros fuel Φ Hf.
  { iIntros "[Ht HΦ]". destruct fuel; cbn [minDepth root_ptr]; steps; by iApply "HΦ". }
  destruct fuel as [|fuel]; [simpl in Hf; lia|]. cbn [depth] in Hf.
  iIntros "[Ht HΦ]". open_tree. cbn [minDepth root_ptr]. steps.
  destruct l as [|nl ll dl rl], r as [|nr lr dr rr]; cbn [root_ptr]; steps.
  - close_tree n Nil d Nil. iApply ("HΦ" with "Ht").
  - iApply (IHr fuel); [lia|]. iFrame "Hr". iIntros "Hr". steps. close_tree n Nil d (Bin nr lr dr rr). iSpecialize ("HΦ" with "Ht").
    replace (Z.of_nat _) with (Z.of_nat (min_depth (Bin nr lr dr rr)) + 1)%Z; [done|].
    change (min_depth (Bin n Nil d (Bin nr lr dr rr))) with (min_depth (Bin nr lr dr rr) + 1). lia.
  - iApply (IHl fuel); [lia|]. iFrame "Hl". iIntros "Hl". steps. close_tree n (Bin nl ll dl rl) d Nil. iSpecialize ("HΦ" with "Ht").
    replace (Z.of_nat _) with (Z.of_nat (min_depth (Bin nl ll dl rl)) + 1)%Z; [done|].
    change (min_depth (Bin n (Bin nl ll dl rl) d Nil)) with (min_depth (Bin nl ll dl rl) + 1). lia.
  - iApply (IHl fuel); [lia|]. iFrame "Hl". iIntros "Hl". steps.
    iApply (IHr fuel); [lia|]. iFrame "Hr". iIntros "Hr". steps. close_tree n (Bin nl ll dl rl) d (Bin nr lr dr rr). iSpecialize ("HΦ" with "Ht").
    set (t1 := Bin nl ll dl rl). set (t2 := Bin nr lr dr rr).
    replace (Z.of_nat _) with (Z.min (Z.of_nat (min_depth t1)) (Z.of_nat (min_depth t2)) + 1)%Z; [done|].
    change (min_depth (Bin n t1 d t2)) with (min_depth t1 `min` min_depth t2 + 1). lia.
Qed.
End min_depth.

(** ** isFullTree *)
Section full.
Import FullBinaryTest.
Implicit Types (t : tree) (fuel : nat).

(** every node has no child or two *)
Fixpoint full t : Prop :=
  match t with Nil => True | Bin _ l _ r => (l = Nil ↔ r = Nil) ∧ full l ∧ full r end.

Lemma wp_isFullTree fuel t (Φ : bool → heapPropI node) :
  depth t ≤ fuel →
  is_tree t ∗ (∀ b, ⟨b = true ↔ full t⟩ -∗ is_tree t -∗ Φ b) ⊢ wp (isFullTree fuel (root_ptr t)) Φ.
Proof.
  revert fuel Φ; induction t as [|n l IHl d r IHr]; intros fuel Φ Hf.
  { iIntros "[Ht HΦ]". destruct fuel; cbn [isFullTree root_ptr]; steps; by iApply "HΦ". }
  destruct fuel as [|fuel]; [simpl in Hf; lia|]. cbn [depth] in Hf.
  iIntros "[Ht HΦ]". open_tree. cbn [isFullTree root_ptr]. steps.
  destruct l as [|nl ll dl rl], r as [|nr lr dr rr]; cbn [root_ptr]; steps.
  - close_tree n Nil d Nil. iApply ("HΦ" with "[] Ht"). iPureIntro. by simpl.
  - close_tree n Nil d (Bin nr lr dr rr). iApply ("HΦ" with "[] Ht"). iPureIntro. simpl. naive_solver.
  - close_tree n (Bin nl ll dl rl) d Nil. iApply ("HΦ" with "[] Ht"). iPureIntro. simpl. naive_solver.
  - iApply (IHl fuel); [lia|]. iFrame "Hl". iIntros (b) "%Hb Hl". destruct b; steps.
    + iApply (IHr fuel); [lia|]. iFrame "Hr". iIntros (b) "%Hb' Hr".
      close_tree n (Bin nl ll dl rl) d (Bin nr lr dr rr). iApply ("HΦ" with "[] Ht"). iPureIntro. cbn [full] in *. naive_solver.
    + close_tree n (Bin nl ll dl rl) d (Bin nr lr dr rr). iApply ("HΦ" with "[] Ht"). iPureIntro. cbn [full] in *. naive_solver.
Qed.
End full.

(** ** findMaxSum *)
Section max_sum.
Import MaxBinaryTreeSumPath.
Implicit Types (t l r : tree) (fuel : nat) (s m res : Z).

(** the sums along the ways that go down from the root *)
Fixpoint down_sums t : list Z :=
  match t with Nil => [] | Bin _ l d r => d :: (Z.add d <$> down_sums l ++ down_sums r) end.
(** the sums along all ways between two nodes: within a subtree, down from the
    root, or through the root *)
Fixpoint path_sums t : list Z :=
  match t with
  | Nil => []
  | Bin _ l d r =>
      path_sums l ++ path_sums r ++ down_sums (Bin 0 l d r) ++
      (x ← down_sums l; y ← down_sums r; [x + y + d]%Z)
  end.

(** what a call returns: the largest sum down from the root, and the largest of
    [res] and the sums of the tree *)
Definition max_sums t res m res' : Prop :=
  (t = Nil → m = 0%Z) ∧ (t ≠ Nil → m ∈ down_sums t) ∧ (∀ s, s ∈ down_sums t → (s ≤ m)%Z) ∧
  (Z.abs m ≤ weight t)%Z ∧
  (res' = res ∨ res' ∈ path_sums t) ∧ (res ≤ res')%Z ∧ (∀ s, s ∈ path_sums t → (s ≤ res')%Z).

Lemma weight_nonneg t : (0 ≤ weight t)%Z.
Proof. induction t; simpl; lia. Qed.
Lemma elem_of_down_sums n l d r s :
  s ∈ down_sums (Bin n l d r) ↔ s = d ∨ ∃ x, s = (d + x)%Z ∧ (x ∈ down_sums l ∨ x ∈ down_sums r).
Proof. cbn [down_sums]. rewrite elem_of_cons list_elem_of_fmap. setoid_rewrite elem_of_app. done. Qed.
Lemma elem_of_path_sums n l d r s :
  s ∈ path_sums (Bin n l d r) ↔
  s ∈ path_sums l ∨ s ∈ path_sums r ∨ s ∈ down_sums (Bin n l d r) ∨
  ∃ x y, x ∈ down_sums l ∧ y ∈ down_sums r ∧ s = (x + y + d)%Z.
Proof.
  cbn [path_sums]. rewrite !elem_of_app. change (down_sums (Bin n l d r)) with (down_sums (Bin 0 l d r)).
  setoid_rewrite list_elem_of_bind. setoid_rewrite list_elem_of_bind. setoid_rewrite list_elem_of_singleton.
  naive_solver.
Qed.

Lemma max_sums_Nil res : max_sums Nil res 0 res.
Proof. split_and!; try done; auto; by intros s ?%not_elem_of_nil. Qed.
Lemma max_sums_Bin n l d r res m1 res1 m2 res2 :
  max_sums l res m1 res1 → max_sums r res1 m2 res2 →
  max_sums (Bin n l d r) res (Z.max (Z.max m1 m2 + d) d)
    (Z.max res2 (Z.max (Z.max (Z.max m1 m2 + d) d) (m1 + m2 + d))).
Proof.
  intros (Hl0 & Hl1 & Hl2 & Hlw & Hl3 & Hl4 & Hl5) (Hr0 & Hr1 & Hr2 & Hrw & Hr3 & Hr4 & Hr5).
  set (m := Z.max (Z.max m1 m2 + d) d).
  assert (m ∈ down_sums (Bin n l d r)) as Hm.
  { rewrite elem_of_down_sums. subst m.
    destruct (decide (Z.max m1 m2 ≤ 0)%Z); [left; lia|right]. exists (Z.max m1 m2). split; [lia|].
    destruct (Z.max_spec m1 m2) as [[? ->]|[? ->]].
    - right. apply Hr1. intros ->. specialize (Hr0 eq_refl). lia.
    - left. apply Hl1. intros ->. specialize (Hl0 eq_refl). lia. }
  assert (∀ s, s ∈ down_sums (Bin n l d r) → (s ≤ m)%Z) as Hle.
  { intros s [->|(x & -> & [Hx|Hx])]%elem_of_down_sums; [lia| |].
    - apply Hl2 in Hx. lia.
    - apply Hr2 in Hx. lia. }
  pose proof (weight_nonneg l). pose proof (weight_nonneg r).
  split_and!; [done|done|done|cbn [weight]; lia| |lia|].
  - set (top := Z.max m (m1 + m2 + d)%Z). destruct (Z.max_spec res2 top) as [[_ ->]|[_ ->]].
    + right. rewrite elem_of_path_sums. subst top.
      destruct (Z.max_spec m (m1 + m2 + d)%Z) as [[Hlt ->]|[_ ->]]; [|by auto].
      do 3 right. exists m1, m2. split_and!; [apply Hl1|apply Hr1|done]; intros ->.
      * specialize (Hl0 eq_refl). lia.
      * specialize (Hr0 eq_refl). lia.
    + rewrite elem_of_path_sums. naive_solver.
  - intros s [Hs|[Hs|[Hs|(x & y & Hx & Hy & ->)]]]%elem_of_path_sums.
    + apply Hl5 in Hs. lia.
    + apply Hr5 in Hs. lia.
    + apply Hle in Hs. lia.
    + apply Hl2 in Hx. apply Hr2 in Hy. lia.
Qed.

Lemma wp_findMaxUtil fuel t res (Φ : Z * Z → heapPropI node) :
  depth t ≤ fuel → (weight t ≤ INT_MAX)%Z →
  is_tree t ∗ (∀ m res', ⟨max_sums t res m res'⟩ -∗ is_tree t -∗ Φ (m, res')) ⊢
  wp (findMaxUtil fuel (root_ptr t) res) Φ.
Proof.
  revert fuel res Φ; induction t as [|n l IHl d r IHr]; intros fuel res Φ Hf Hw.
  { iIntros "[Ht HΦ]". destruct fuel; cbn [findMaxUtil root_ptr]; steps;
      iApply ("HΦ" with "[] Ht"); iPureIntro; apply max_sums_Nil. }
  destruct fuel as [|fuel]; [simpl in Hf; lia|]. cbn [depth] in Hf. cbn [weight] in Hw.
  pose proof (weight_nonneg l). pose proof (weight_nonneg r).
  iIntros "[Ht HΦ]". open_tree. cbn [findMaxUtil root_ptr]. steps.
  iApply (IHl fuel); [lia..|]. iFrame "Hl". iIntros (m1 res1) "%H1 Hl". steps.
  iApply (IHr fuel); [lia..|]. iFrame "Hr". iIntros (m2 res2) "%H2 Hr". steps.
  pose proof (proj1 (proj2 (proj2 (proj2 H1)))) as Hm1. pose proof (proj1 (proj2 (proj2 (proj2 H2)))) as Hm2.
  rewrite !int_add_Ok; [|unfold INT_MIN, INT_MAX in *; lia..]. steps.
  rewrite int_add_Ok; [|unfold INT_MIN, INT_MAX in *; lia..]. steps. close_tree n l d r.
  iApply ("HΦ" with "[] Ht"). iPureIntro. by eapply max_sums_Bin.
Qed.

Lemma wp_findMaxSum fuel t (Φ : Z → heapPropI node) :
  depth t ≤ fuel → (weight t ≤ INT_MAX)%Z → t ≠ Nil →
  is_tree t ∗ (∀ s, ⟨s ∈ path_sums t ∧ ∀ s', s' ∈ path_sums t → (s' ≤ s)%Z⟩ -∗ is_tree t -∗ Φ s) ⊢
  wp (findMaxSum fuel (root_ptr t)) Φ.
Proof.
  intros Hf Hw Ht. iIntros "[Ht HΦ]". unfold findMaxSum. steps. iApply wp_findMaxUtil; [done..|].
  iFrame "Ht". iIntros (m res) "%Hm Ht". steps. iApply ("HΦ" with "[] Ht"). iPureIntro.
  destruct Hm as (_ & Hm & _ & Hmw & [->|Hres] & _ & Hmax); [|done]. exfalso.
  assert (m ∈ path_sums t) as Hin.
  { specialize (Hm Ht). destruct t; [done|]. apply elem_of_path_sums. auto. }
  apply Hmax in Hin. unfold INT_MIN, INT_MAX in *. lia.
Qed.
End max_sum.

(** ** Traversals and the sum of the left leaves *)
Section traversals.
Import SumLeftLeaves.
Implicit Types (t l r : tree) (fuel : nat) (sum : Z).

Definition leaf_value t : list Z := match t with Bin _ Nil d Nil => [d] | _ => [] end.
(** the values of the leaves that are left children, in order *)
Fixpoint left_leaves t : list Z :=
  match t with Nil => [] | Bin _ l _ r => left_leaves l ++ leaf_value l ++ left_leaves r end.
Definition total (ds : list Z) : Z := foldr Z.add 0%Z ds.

Lemma total_app ds ds' : total (ds ++ ds') = (total ds + total ds')%Z.
Proof. induction ds as [|d ds IH]; simpl; [done|]. unfold total in *. lia. Qed.
Lemma leaf_value_bound t : (Z.abs (total (left_leaves t)) + Z.abs (total (leaf_value t)) ≤ weight t)%Z.
Proof.
  induction t as [|n l IHl d r IHr]; [done|]. cbn [left_leaves weight]. rewrite !total_app.
  assert (leaf_value (Bin n l d r) = [] ∨ (leaf_value (Bin n l d r) = [d] ∧ l = Nil ∧ r = Nil)) as [->|(-> & -> & ->)].
  { destruct l, r; auto. }
  - simpl. lia.
  - simpl. lia.
Qed.

Lemma wp_printPreorder fuel t (Φ : list Z → heapPropI node) :
  depth t ≤ fuel →
  is_tree t ∗ (is_tree t -∗ Φ (preorder t)) ⊢ wp (printPreorder fuel (root_ptr t)) Φ.
Proof.
  revert fuel Φ; induction t as [|n l IHl d r IHr]; intros fuel Φ Hf; iIntros "[Ht HΦ]".
  { destruct fuel; cbn [printPreorder root_ptr]; steps; by iApply "HΦ". }
  destruct fuel as [|fuel]; [simpl in Hf; lia|]. cbn [depth] in Hf. open_tree. cbn [printPreorder root_ptr]. steps.
  iApply (IHl fuel); [lia|]. iFrame "Hl". iIntros "Hl". steps.
  iApply (IHr fuel); [lia|]. iFrame "Hr". iIntros "Hr". steps. close_tree n l d r. by iApply "HΦ".
Qed.
Lemma wp_printPostorder fuel t (Φ : list Z → heapPropI node) :
  depth t ≤ fuel →
  is_tree t ∗ (is_tree t -∗ Φ (postorder t)) ⊢ wp (printPostorder fuel (root_ptr t)) Φ.
Proof.
  revert fuel Φ; induction t as [|n l IHl d r IHr]; intros fuel Φ Hf; iIntros "[Ht HΦ]".
  { destruct fuel; cbn [printPostorder root_ptr]; steps; by iApply "HΦ". }
  destruct fuel as [|fuel]; [simpl in Hf; lia|]. cbn [depth] in Hf. open_tree. cbn [printPostorder root_ptr]. steps.
  iApply (IHl fuel); [lia|]. iFrame "Hl". iIntros "Hl". steps.
  iApply (IHr fuel); [lia|]. iFrame "Hr". iIntros "Hr". steps. close_tree n l d r. by iApply "HΦ".
Qed.
Lemma wp_printInorder fuel t sum (Φ : list Z * Z → heapPropI node) :
  depth t ≤ fuel → (Z.abs sum + weight t ≤ INT_MAX)%Z →
  is_tree t ∗ (is_tree t -∗ Φ (inorder t, sum + total (left_leaves t))%Z) ⊢
  wp (printInorder fuel (root_ptr t) sum) Φ.
Proof.
  revert fuel sum Φ; induction t as [|n l IHl d r IHr]; intros fuel sum Φ Hf Hw; iIntros "[Ht HΦ]".
  { destruct fuel; cbn [printInorder root_ptr]; steps; simpl; rewrite Z.add_0_r; by iApply "HΦ". }
  destruct fuel as [|fuel]; [simpl in Hf; lia|]. cbn [depth] in Hf. cbn [weight] in Hw.
  pose proof (weight_nonneg r). pose proof (leaf_value_bound l).
  cbn [left_leaves inorder]. rewrite !total_app. open_tree. cbn [printInorder root_ptr]. steps.
  iApply (IHl fuel); [lia..|]. iFrame "Hl". iIntros "Hl". steps.
  iAssert (∀ s, ⟨s = (sum + total (left_leaves l) + total (leaf_value l))%Z⟩ -∗
    n ↦ mk_node (Some d) (Some (root_ptr l)) (Some (root_ptr r)) -∗ is_tree l -∗
    wp (printInorder fuel (root_ptr r) s) (λ res, wp (let '(o2, s) := res in mret (inorder l ++ d :: o2, s)) Φ))%I
    with "[HΦ Hr]" as "Hrest".
  { iIntros (s) "%Hs Hn Hl". subst s. iApply (IHr fuel); [lia..|]. iFrame "Hr". iIntros "Hr". steps.
    rewrite !Z.add_assoc. close_tree n l d r. by iApply "HΦ". }
  destruct l as [|nl ll dl rl]; cbn [root_ptr]; steps.
  { iApply ("Hrest" with "[] Hn Hl"). iPureIntro. simpl. lia. }
  iDestruct (is_tree_open with "Hl") as "(Hnl & Hll & Hrl)".
  destruct ll as [|n1 l1 d1 r1]; cbn [root_ptr]; steps.
  2:{ iDestruct (is_tree_close nl (Bin n1 l1 d1 r1) dl rl with "Hnl Hll Hrl") as "Hl".
      iApply ("Hrest" with "[] Hn Hl"). iPureIntro. simpl. lia. }
  destruct rl as [|n1 l1 d1 r1]; cbn [root_ptr]; steps.
  2:{ iDestruct (is_tree_close nl Nil dl (Bin n1 l1 d1 r1) with "Hnl Hll Hrl") as "Hl".
      iApply ("Hrest" with "[] Hn Hl"). iPureIntro. simpl. lia. }
  rewrite int_add_Ok; [|cbn in *; unfold INT_MIN, INT_MAX in *; lia]. steps.
  iDestruct (is_tree_close nl Nil dl Nil with "Hnl Hll Hrl") as "Hl".
  iApply ("Hrest" with "[] Hn Hl"). iPureIntro. simpl. lia.
Qed.
End traversals.

(** ** The ways to the leaves *)
Section leaf_paths.
Import PathToLeafBinaryTree.
Implicit Types (t l r : tree) (fuel len : nat) (path pre : list Z).

(** what both methods print below a node that the way [pre] leads to *)
Definition printed pre t : list (list Z) := app pre <$> paths t.

Lemma printed_Nil pre : printed pre Nil = [].
Proof. done. Qed.
Lemma printed_leaf pre n d : printed pre (Bin n Nil d Nil) = [pre ++ [d]].
Proof. done. Qed.
Lemma printed_Bin pre n l d r :
  l ≠ Nil ∨ r ≠ Nil →
  printed pre (Bin n l d r) = printed (pre ++ [d]) l ++ printed (pre ++ [d]) r.
Proof.
  intros Hlr. unfold printed. rewrite paths_Bin // -list_fmap_compose !fmap_app.
  f_equal; apply list_fmap_ext; intros ? p _; simpl; by rewrite -app_assoc.
Qed.

Lemma wp_path_printPreorder fuel t path (Φ : list (list Z) * list Z → heapPropI node) :
  depth t ≤ fuel →
  is_tree t ∗ (∀ path', is_tree t -∗ Φ (printed path t, path')) ⊢
  wp (printPreorder fuel (root_ptr t) path) Φ.
Proof.
  revert fuel path Φ; induction t as [|n l IHl d r IHr]; intros fuel path Φ Hf; iIntros "[Ht HΦ]".
  { destruct fuel; cbn [printPreorder root_ptr]; steps; by iApply "HΦ". }
  destruct fuel as [|fuel]; [simpl in Hf; lia|]. cbn [depth] in Hf. open_tree. cbn [printPreorder root_ptr]. steps.
  iAssert (∀ out : list (list Z), ⟨out ++ printed (path ++ [d]) l ++ printed (path ++ [d]) r = printed path (Bin n l d r)⟩ -∗
    n ↦ mk_node (Some d) (Some (root_ptr l)) (Some (root_ptr r)) -∗
    wp (printPreorder fuel (root_ptr l) (path ++ [d])) (λ res,
      wp (let '(o1, p) := res in r ← get_right (Some n);
          '(o2, p) ← printPreorder fuel r (path ++ [d]); mret (out ++ o1 ++ o2, path ++ [d])) Φ))%I
    with "[HΦ Hl Hr]" as "Hrest".
  { iIntros (out) "%Hout Hn". iApply (IHl fuel); [lia|]. iFrame "Hl". iIntros (p1) "Hl". steps.
    iApply (IHr fuel); [lia|]. iFrame "Hr". iIntros (p2) "Hr". steps. close_tree n l d r.
    rewrite Hout. by iApply "HΦ". }
  destruct l as [|nl ll dl rl]; cbn [root_ptr]; steps.
  - destruct r as [|nr lr dr rr]; cbn [root_ptr]; steps.
    + iApply ("Hrest" $! [path ++ [d]] with "[] Hn"). by iPureIntro.
    + iApply ("Hrest" $! [] with "[] Hn"). iPureIntro. rewrite (printed_Bin _ n) //. by right.
  - iApply ("Hrest" $! [] with "[] Hn"). iPureIntro. rewrite (printed_Bin _ n) //. by left.
Qed.

Lemma take_prefix path len pre d : take (S len) path = pre ++ [d] → length pre = len → take len path = pre.
Proof.
  intros Ht Hlen. replace (take len path) with (take len (take (S len) path)); [|rewrite take_take; f_equal; lia].
  by rewrite Ht take_app_length'.
Qed.
(** the second method keeps the way in the first [len] entries of the vector *)
Lemma wp_path_printPreorder_length fuel t path len pre (Φ : list (list Z) * list Z → heapPropI node) :
  depth t ≤ fuel → take len path = pre → len ≤ length path →
  is_tree t ∗ (∀ path', ⟨take len path' = pre ∧ len ≤ length path'⟩ -∗ is_tree t -∗ Φ (printed pre t, path')) ⊢
  wp (printPreorder_length fuel (root_ptr t) path len) Φ.
Proof.
  revert fuel path len pre Φ; induction t as [|n l IHl d r IHr]; intros fuel path len pre Φ Hf Hpre Hlen;
    iIntros "[Ht HΦ]".
  { destruct fuel; cbn [printPreorder_length root_ptr]; steps; iApply ("HΦ" with "[] Ht"); by iPureIntro. }
  destruct fuel as [|fuel]; [simpl in Hf; lia|]. cbn [depth] in Hf. open_tree.
  cbn [printPreorder_length root_ptr]. steps.
  assert (∃ path1, (if (len =? length path)%nat then mret (path ++ [d]) else lift (put path (Z.of_nat len) d)) =
            (mret path1 : prog (list Z)) ∧ take (S len) path1 = pre ++ [d] ∧ S len ≤ length path1)
    as (path2 & -> & Hpre2 & Hlen2).
  { destruct (Nat.eqb_spec len (length path)) as [->|Hne].
    - exists (path ++ [d]). rewrite length_app. simpl. split_and!; [done| |lia].
      rewrite take_ge; [|rewrite length_app; simpl; lia]. by rewrite -Hpre take_ge.
    - exists (<[len := d]> path). split_and!; [rewrite put_Ok //; lia| |rewrite length_insert; lia].
      rewrite (take_S_r _ _ d); [|apply list_lookup_insert_eq; lia]. by rewrite take_insert_ge // Hpre. }
  steps.
  destruct (leaf_or_not l r) as [[-> ->]|Hlr].
  { cbn [root_ptr]. steps. unfold PrintPathLength. rewrite (proj2 (Nat.leb_le _ _)) //. steps. close_tree n Nil d Nil.
    rewrite Hpre2. iApply ("HΦ" with "[] Ht").
    iPureIntro. split; [|lia]. apply (take_prefix _ _ _ d); [done|]. rewrite -Hpre length_take. lia. }
  iAssert (n ↦ mk_node (Some d) (Some (root_ptr l)) (Some (root_ptr r)) -∗ is_tree l -∗ is_tree r -∗
    wp (printPreorder_length fuel (root_ptr l) path2 (S len)) (λ res,
      wp (let '(o1, path) := res in r ← get_right (Some n);
          '(o2, path) ← printPreorder_length fuel r path (S len); mret (o1 ++ o2, path)) Φ))%I
    with "[HΦ]" as "Hrest".
  { iIntros "Hn Hl Hr". iApply (IHl fuel); [lia|done|done|]. iFrame "Hl". iIntros (p1) "%Hp1 Hl". steps.
    destruct Hp1. iApply (IHr fuel); [lia|done|done|]. iFrame "Hr". iIntros (p2) "%Hp2 Hr". steps.
    destruct Hp2 as [Hp2 Hl2]. close_tree n l d r. rewrite -(printed_Bin _ n) //. iApply ("HΦ" with "[] Ht").
    iPureIntro. split; [|lia]. apply (take_prefix _ _ _ d); [done|]. rewrite -Hpre length_take. lia. }
  destruct l as [|nl ll dl rl]; cbn [root_ptr]; steps; [|iApply ("Hrest" with "Hn Hl Hr")].
  destruct r as [|nr lr dr rr]; [by destruct Hlr|]. cbn [root_ptr]. steps. iApply ("Hrest" with "Hn Hl Hr").
Qed.
End leaf_paths.

(** ** lca *)
Section ancestor.
Import CommonAncestor.
Implicit Types (t l r s : tree) (fuel : nat) (x : Z).

(** a binary search tree: smaller values on the left, larger ones on the right *)
Fixpoint search_tree t : Prop :=
  match t with
  | Nil => True
  | Bin _ l d r => search_tree l ∧ search_tree r ∧
                   (∀ x, x ∈ inorder l → (x < d)%Z) ∧ (∀ x, x ∈ inorder r → (d < x)%Z)
  end.
Fixpoint subtree s t : Prop :=
  s = t ∨ match t with Nil => False | Bin _ l _ r => subtree s l ∨ subtree s r end.
(** the lowest subtree that has both values *)
Definition lowest_common s t (n1 n2 : Z) : Prop :=
  subtree s t ∧ n1 ∈ inorder s ∧ n2 ∈ inorder s ∧
  ∀ s', subtree s' s → n1 ∈ inorder s' → n2 ∈ inorder s' → s' = s.

Lemma subtree_refl t : subtree t t.
Proof. destruct t; by left. Qed.
Lemma subtree_elem s t x : subtree s t → x ∈ inorder s → x ∈ inorder t.
Proof.
  induction t as [|n l IHl d r IHr]; intros [->|Hs] Hx; try done. cbn [inorder].
  rewrite elem_of_app elem_of_cons. destruct Hs as [Hs|Hs]; naive_solver.
Qed.

Lemma wp_lca fuel t n1 n2 (Φ : ptr → heapPropI node) :
  depth t ≤ fuel → search_tree t → n1 ∈ inorder t → n2 ∈ inorder t →
  is_tree t ∗ (∀ s, ⟨lowest_common s t n1 n2⟩ -∗ is_tree t -∗ Φ (root_ptr s)) ⊢
  wp (lca fuel (root_ptr t) n1 n2) Φ.
Proof.
  revert fuel Φ; induction t as [|n l IHl d r IHr]; intros fuel Φ Hf Hs H1 H2; iIntros "[Ht HΦ]".
  { by apply not_elem_of_nil in H1. }
  destruct fuel as [|fuel]; [simpl in Hf; lia|]. cbn [depth] in Hf. destruct Hs as (Hsl & Hsr & Hdl & Hdr).
  cbn [inorder] in H1, H2. rewrite elem_of_app elem_of_cons in H1. rewrite elem_of_app elem_of_cons in H2.
  open_tree. cbn [lca root_ptr]. steps. rewrite !Z.gtb_ltb.
  destruct ((n1 <? d)%Z && (n2 <? d)%Z) eqn:Hless; [|destruct ((d <? n1)%Z && (d <? n2)%Z) eqn:Hmore].
  - apply andb_true_iff in Hless as [Hn1%Z.ltb_lt Hn2%Z.ltb_lt]. steps. iApply (IHl fuel); [lia|done| | |].
    + destruct H1 as [?|[?|Hr1%Hdr]]; [done|lia|lia].
    + destruct H2 as [?|[?|Hr2%Hdr]]; [done|lia|lia].
    + iFrame "Hl". iIntros (s) "%Hs Hl". close_tree n l d r. iApply ("HΦ" with "[] Ht"). iPureIntro.
      destruct Hs as [Hs ?]. split; [|done]. right. by left.
  - apply andb_true_iff in Hmore as [Hn1%Z.ltb_lt Hn2%Z.ltb_lt]. steps. iApply (IHr fuel); [lia|done| | |].
    + destruct H1 as [Hl1%Hdl|[?|?]]; [lia|lia|done].
    + destruct H2 as [Hl2%Hdl|[?|?]]; [lia|lia|done].
    + iFrame "Hr". iIntros (s) "%Hs Hr". close_tree n l d r. iApply ("HΦ" with "[] Ht"). iPureIntro.
      destruct Hs as [Hs ?]. split; [|done]. right. by right.
  - apply andb_false_iff in Hless. rewrite !Z.ltb_ge in Hless. apply andb_false_iff in Hmore.
    rewrite !Z.ltb_ge in Hmore. steps. close_tree n l d r. iApply ("HΦ" $! (Bin n l d r) with "[] Ht").
    iPureIntro. split_and!; [apply subtree_refl|..]; cbn [inorder]; rewrite ?elem_of_app ?elem_of_cons; try tauto.
    intros s' [->|[Hs'|Hs']] Hn1 Hn2; [done| |]; exfalso;
      pose proof (subtree_elem _ _ _ Hs' Hn1) as Hin1; pose proof (subtree_elem _ _ _ Hs' Hn2) as Hin2;
      first [apply Hdl in Hin1; apply Hdl in Hin2|apply Hdr in Hin1; apply Hdr in Hin2]; lia.
Qed.
End ancestor.
