(* ===== verification/BinaryTreeUpdate.v ===== *)
(** The exercises on binary trees that change the tree or store it in an array:
    RemoveNodesOnRoot.cpp, ReverseBinaryTree.cpp and BinarySubTree.cpp. *)

From iris.proofmode Require Import proofmode environments coq_tactics reduction.
From S2P Require Import Prelude Int Array Heap HeapTactics BinaryTree BinaryTreeProps.

(** ** removeShortPathNodes *)
Section remove.
Import RemoveNodesOnRoot.
Implicit Types (t l r : tree) (fuel : nat) (level k : Z) (n : loc) (d : Z).

(** the tree that is left *)
Definition prune_node n l d r level k : tree :=
  match l, r with
  | Nil, Nil => if (level <? k)%Z then Nil else Bin n Nil d Nil
  | _, _ => Bin n l d r
  end.
Fixpoint prune t level k : tree :=
  match t with
  | Nil => Nil
  | Bin n l d r => prune_node n (prune l (level + 1) k) d (prune r (level + 1) k) level k
  end.

Lemma prune_node_keep n l d r level k :
  l ≠ Nil ∨ r ≠ Nil ∨ (k ≤ level)%Z → prune_node n l d r level k = Bin n l d r.
Proof.
  intros Hk. destruct l, r; try done. simpl. destruct (Z.ltb_spec level k); [|done].
  destruct Hk as [?|[?|?]]; [done..|lia].
Qed.
(** from the level [k] on nothing is removed *)
Lemma prune_id t level k : (k ≤ level)%Z → prune t level k = t.
Proof.
  revert level; induction t as [|n l IHl d r IHr]; intros level Hk; [done|]. cbn [prune].
  rewrite IHl ?IHr; [|lia..]. apply prune_node_keep. auto.
Qed.
Lemma filter_longer (d : Z) level k (ps : list (list Z)) :
  filter (λ p, (k ≤ level - 1 + Z.of_nat (length p))%Z) (cons d <$> ps) =
  cons d <$> filter (λ p, (k ≤ level + 1 - 1 + Z.of_nat (length p))%Z) ps.
Proof.
  induction ps as [|p ps IH]; [done|]. rewrite fmap_cons !filter_cons IH. cbn [length].
  repeat case_decide; try done; lia.
Qed.
(** the ways that are left are those with [k] nodes or more *)
Lemma paths_prune t level k :
  paths (prune t level k) = filter (λ p, (k ≤ level - 1 + Z.of_nat (length p))%Z) (paths t).
Proof.
  revert level; induction t as [|n l IHl d r IHr]; intros level; [done|]. cbn [prune].
  destruct (leaf_or_not l r) as [[-> ->]|Hlr].
  { cbn [prune prune_node paths]. rewrite filter_cons filter_nil. simpl.
    destruct (Z.ltb_spec level k); case_decide; try done; lia. }
  rewrite paths_Bin // filter_longer filter_app -IHl -IHr.
  destruct (leaf_or_not (prune l (level + 1) k) (prune r (level + 1) k)) as [[Hl Hr]|Hp].
  - rewrite Hl Hr. simpl. destruct (Z.ltb_spec level k); [done|]. exfalso.
    rewrite (prune_id l) in Hl; [|lia]. rewrite (prune_id r) in Hr; [|lia]. naive_solver.
  - rewrite prune_node_keep; [|naive_solver]. by rewrite paths_Bin.
Qed.

Lemma wp_removeShortPathNodesUtil fuel t level k (Φ : ptr → heapPropI node) :
  depth t ≤ fuel →
  is_tree t ∗ (is_tree (prune t level k) -∗ Φ (root_ptr (prune t level k))) ⊢
  wp (removeShortPathNodesUtil fuel (root_ptr t) level k) Φ.
Proof.
  revert fuel level Φ; induction t as [|n l IHl d r IHr]; intros fuel level Φ Hf; iIntros "[Ht HΦ]".
  { destruct fuel; cbn [removeShortPathNodesUtil root_ptr]; steps; by iApply "HΦ". }
  destruct fuel as [|fuel]; [simpl in Hf; lia|]. cbn [depth] in Hf. open_tree.
  cbn [removeShortPathNodesUtil root_ptr prune]. steps.
  iApply (IHl fuel); [lia|]. iFrame "Hl". iIntros "Hl". steps.
  iApply (IHr fuel); [lia|]. iFrame "Hr". iIntros "Hr". steps.
  set (l' := prune l (level + 1) k). set (r' := prune r (level + 1) k). clearbody l' r'.
  destruct l' as [|n1 l1 d1 r1]; cbn [root_ptr]; steps.
  2:{ close_tree n (Bin n1 l1 d1 r1) d r'. by iApply "HΦ". }
  destruct r' as [|n2 l2 d2 r2]; cbn [root_ptr prune_node]; steps.
  2:{ close_tree n Nil d (Bin n2 l2 d2 r2). by iApply "HΦ". }
  destruct (level <? k)%Z; steps.
  - iApply (wp_dispose (V := node)). iFrame "Hn". steps. iEval (rewrite is_tree_Nil) in "Hr". iApply "HΦ". by iFrame.
  - close_tree n Nil d Nil. by iApply "HΦ".
Qed.
End remove.

(** ** Trees in a heap, for programs that only read *)
Section tree_in.
Implicit Types (t l r : tree) (h : gmap loc node) (n : loc) (d : Z).

Fixpoint tree_in h t : Prop :=
  match t with
  | Nil => True
  | Bin n l d r => h !! n = Some (mk_node (Some d) (Some (root_ptr l)) (Some (root_ptr r))) ∧
                   tree_in h l ∧ tree_in h r
  end.
Lemma is_tree_in t (P : heapPropI node) h : (is_tree t ∗ P)%I h → tree_in h t.
Proof.
  revert P; induction t as [|n l IHl d r IHr]; intros P Hh; [done|]. split_and!.
  - eapply (holds_cell n _ (is_tree l ∗ is_tree r ∗ P)%I). refine (holds_mono _ _ _ _ Hh).
    rewrite is_tree_Bin. iIntros "[($ & $ & $) $]".
  - eapply (IHl (n ↦ mk_node (Some d) (Some (root_ptr l)) (Some (root_ptr r)) ∗ is_tree r ∗ P)%I).
    refine (holds_mono _ _ _ _ Hh). rewrite is_tree_Bin. iIntros "[($ & $ & $) $]".
  - eapply (IHr (n ↦ mk_node (Some d) (Some (root_ptr l)) (Some (root_ptr r)) ∗ is_tree l ∗ P)%I).
    refine (holds_mono _ _ _ _ Hh). rewrite is_tree_Bin. iIntros "[($ & $ & $) $]".
Qed.
Lemma is_tree_in_alone t h : is_tree t h → tree_in h t.
Proof.
  intros Hh. apply (is_tree_in t emp). refine (holds_mono _ _ _ _ Hh). iIntros "$".
Qed.
Lemma get_left_in h n l d r : tree_in h (Bin n l d r) → get_left (Some n) h = Ok (root_ptr l, h).
Proof. intros (Hn & _ & _). unfold get_left, mbind, prog_bind, load. by rewrite Hn. Qed.
Lemma get_right_in h n l d r : tree_in h (Bin n l d r) → get_right (Some n) h = Ok (root_ptr r, h).
Proof. intros (Hn & _ & _). unfold get_right, mbind, prog_bind, load. by rewrite Hn. Qed.
Lemma get_data_in h n l d r : tree_in h (Bin n l d r) → get_data (Some n) h = Ok (d, h).
Proof. intros (Hn & _ & _). unfold get_data, mbind, prog_bind, load. by rewrite Hn. Qed.
End tree_in.

(** ** Values written one after the other *)
Section write_all.
Implicit Types (ks vs ws : list Z) (arr rest : array) (i : Z).

Fixpoint write_all arr i vs : res (array * Z) :=
  match vs with [] => mret (arr, i) | v :: vs => arr ← assign arr i v; write_all arr (i + 1) vs end.

Lemma write_all_app arr i vs ws :
  write_all arr i (vs ++ ws) = '(arr, i) ← write_all arr i vs; write_all arr i ws.
Proof.
  revert arr i; induction vs as [|v vs IH]; intros arr i; [done|]. simpl.
  destruct (assign arr i v) as [arr'| |]; simpl; [apply IH|done..].
Qed.
Lemma write_all_Ok ks vs rest :
  length vs ≤ length rest →
  write_all ((Some <$> ks) ++ rest) (Z.of_nat (length ks)) vs =
  Ok ((Some <$> ks ++ vs) ++ drop (length vs) rest, Z.of_nat (length (ks ++ vs))).
Proof.
  revert ks rest; induction vs as [|v vs IH]; intros ks rest Hlen; [by rewrite app_nil_r|].
  destruct rest as [|o rest]; [simpl in Hlen; lia|]. cbn [write_all]. rewrite assign_next. cbn [mbind res_bind].
  replace (Z.of_nat (length ks) + 1)%Z with (Z.of_nat (length (ks ++ [v]))); [|rewrite length_app; simpl; lia].
  rewrite IH; [|simpl in Hlen; lia]. by rewrite -app_assoc.
Qed.
Lemma write_all_OutOfBounds ks vs rest :
  length rest < length vs →
  write_all ((Some <$> ks) ++ rest) (Z.of_nat (length ks)) vs = Fault OutOfBounds.
Proof.
  revert ks rest; induction vs as [|v vs IH]; intros ks rest Hlen; [simpl in Hlen; lia|].
  destruct rest as [|o rest]; cbn [write_all].
  - rewrite app_nil_r /assign /put bool_decide_false //. rewrite length_fmap. lia.
  - rewrite assign_next. cbn [mbind res_bind].
    replace (Z.of_nat (length ks) + 1)%Z with (Z.of_nat (length (ks ++ [v]))); [|rewrite length_app; simpl; lia].
    apply IH. simpl in Hlen. lia.
Qed.
(** a fresh array *)
Lemma write_all_new n vs :
  length vs ≤ n →
  write_all (replicate n None) 0 vs = Ok ((Some <$> vs) ++ replicate (n - length vs) None, Z.of_nat (length vs)).
Proof.
  intros Hlen. pose proof (write_all_Ok [] vs (replicate n None)) as Hw. rewrite length_replicate in Hw.
  rewrite (Hw Hlen). by rewrite drop_replicate.
Qed.
End write_all.

(** ** reverseAlternate *)
#[local] Arguments get_left : simpl never.
#[local] Arguments get_right : simpl never.
#[local] Arguments get_data : simpl never.
Section reverse_alternate.
Import ReverseBinaryTree.
Implicit Types (t l r : tree) (fuel : nat) (h : gmap loc node) (n : loc) (d : Z) (b : bool)
  (ks vs ws : list Z) (arr rest : array).

(** the values at the levels of one parity, in order; [b] says that the root counts *)
Fixpoint level_values b t : list Z :=
  match t with
  | Nil => []
  | Bin _ l d r => level_values (negb b) l ++ (if b then [d] else []) ++ level_values (negb b) r
  end.
(** the same tree with new values at those levels, and the values that are not used *)
Fixpoint refill b t vs : tree * list Z :=
  match t with
  | Nil => (Nil, vs)
  | Bin n l d r =>
      let '(l, vs) := refill (negb b) l vs in
      let '(d, vs) := match b, vs with true, v :: vs => (v, vs) | _, _ => (d, vs) end in
      let '(r, vs) := refill (negb b) r vs in
      (Bin n l d r, vs)
  end.

Lemma split_three vs (i j k : nat) :
  length vs = i + (j + k) →
  ∃ vl m vr, vs = vl ++ m ++ vr ∧ length vl = i ∧ length m = j ∧ length vr = k.
Proof.
  intros Hlen. exists (take i vs), (take j (drop i vs)), (drop j (drop i vs)).
  split_and!; rewrite ?take_drop //; repeat first [rewrite length_take|rewrite length_drop]; lia.
Qed.
Lemma refill_spec b t vs ws :
  length vs = length (level_values b t) →
  (refill b t (vs ++ ws)).2 = ws ∧
  level_values b (refill b t (vs ++ ws)).1 = vs ∧
  level_values (negb b) (refill b t (vs ++ ws)).1 = level_values (negb b) t ∧
  addrs (refill b t (vs ++ ws)).1 = addrs t ∧ root_ptr (refill b t (vs ++ ws)).1 = root_ptr t.
Proof.
  revert b vs ws; induction t as [|n l IHl d r IHr]; intros b vs ws Hlen; [by destruct vs|].
  cbn [level_values] in Hlen. rewrite !length_app in Hlen.
  destruct (split_three vs _ _ _ Hlen) as (vl & m & vr & -> & Hvl & Hm & Hvr).
  cbn [refill]. rewrite -!app_assoc. destruct (IHl (negb b) vl (m ++ vr ++ ws) Hvl) as (H2 & H1 & Hne & Ha & Hp).
  destruct (refill (negb b) l (vl ++ m ++ vr ++ ws)) as [l' vs']. cbn [fst snd] in H2, H1, Hne, Ha, Hp. subst vs'.
  destruct (IHr (negb b) vr ws Hvr) as (G2 & G1 & Gne & Ga & Gp).
  destruct b; (destruct m as [|v [|]]; try done); cbn [app];
    destruct (refill _ r (vr ++ ws)) as [r' vs']; cbn [fst snd negb level_values addrs root_ptr] in *;
    subst; rewrite ?Ha ?Ga ?Hne ?Gne; done.
Qed.
Lemma refill_prefix b t vs ws :
  length vs = length (level_values b t) → (refill b t (vs ++ ws)).1 = (refill b t vs).1.
Proof.
  revert b vs ws; induction t as [|n l IHl d r IHr]; intros b vs ws Hlen; [done|].
  cbn [level_values] in Hlen. rewrite !length_app in Hlen.
  destruct (split_three vs _ _ _ Hlen) as (vl & m & vr & -> & Hvl & Hm & Hvr).
  destruct (refill_spec (negb b) l vl (m ++ vr ++ ws) Hvl) as (H2 & _), (refill_spec (negb b) l vl (m ++ vr) Hvl) as (G2 & _).
  pose proof (IHl (negb b) vl (m ++ vr ++ ws) Hvl) as Hl. pose proof (IHl (negb b) vl (m ++ vr) Hvl) as Hl'.
  pose proof (IHr (negb b) vr ws Hvr) as Hr. cbn [refill]. rewrite -!app_assoc.
  destruct (refill (negb b) l (vl ++ m ++ vr ++ ws)) as [l1 v1], (refill (negb b) l (vl ++ m ++ vr)) as [l2 v2].
  cbn [fst snd] in *. subst.
  destruct b; (destruct m as [|v [|]]; try done); cbn [app];
    destruct (refill _ r (vr ++ ws)), (refill _ r vr); cbn [fst] in *; by subst.
Qed.
(** putting back what was there gives the same tree *)
Lemma refill_same b t ws : refill b t (level_values b t ++ ws) = (t, ws).
Proof.
  revert b ws; induction t as [|n l IHl d r IHr]; intros b ws; [done|]. cbn [level_values refill].
  rewrite -!app_assoc IHl. destruct b; cbn [app]; rewrite IHr //.
Qed.
(** the tree can be put back *)
Lemma refill_refill b t vs ws :
  length vs = length (level_values b t) → refill b (refill b t vs).1 (level_values b t ++ ws) = (t, ws).
Proof.
  revert b vs ws; induction t as [|n l IHl d r IHr]; intros b vs ws Hlen; [done|].
  cbn [level_values] in Hlen. rewrite !length_app in Hlen.
  destruct (split_three vs _ _ _ Hlen) as (vl & m & vr & -> & Hvl & Hm & Hvr).
  destruct (refill_spec (negb b) l vl (m ++ vr) Hvl) as (H2 & _).
  pose proof (IHl (negb b) vl) as Hl. pose proof (IHr (negb b) vr ws Hvr) as Hr.
  assert (∀ us, (refill (negb b) l (vl ++ us)).1 = (refill (negb b) l vl).1) as Happ.
  { intros us. apply refill_prefix. done. }
  specialize (Happ (m ++ vr)).
  cbn [refill]. destruct (refill (negb b) l (vl ++ m ++ vr)) as [l' vs'] eqn:El. cbn [fst snd] in H2, Happ. subst vs' l'.
  destruct b; (destruct m as [|v [|]]; try done); cbn [app];
    destruct (refill _ r vr) as [r' vs'] eqn:Er; cbn [fst snd level_values refill] in *;
    rewrite -!app_assoc Hl //; cbn [app]; rewrite Hr //.
Qed.

Lemma storeAlternate_runs fuel t h arr (index l : Z) :
  tree_in h t → depth t ≤ fuel → (0 ≤ l)%Z →
  storeAlternate fuel (root_ptr t) arr index l h =
  lift (write_all arr index (level_values (Z.odd l) t)) h.
Proof.
  revert fuel arr index l; induction t as [|n tl IHl d tr IHr]; intros fuel arr index l Hin Hf Hl.
  { destruct fuel; done. }
  destruct fuel as [|fuel]; [simpl in Hf; lia|]. cbn [depth] in Hf. cbn [storeAlternate root_ptr level_values].
  rewrite (run_bind _ _ _ _ _ (get_left_in _ _ _ _ _ Hin)).
  assert (Z.odd (l + 1) = negb (Z.odd l)) as Hodd by (rewrite Z.odd_add; by destruct (Z.odd l)).
  assert (Datatypes.negb (l `rem` 2 =? 0)%Z = Z.odd l) as Hrem.
  { rewrite Z.rem_mod_nonneg; [|lia..]. rewrite Zmod_odd. by destruct (Z.odd l). }
  pose proof Hin as (_ & Hinl & Hinr).
  rewrite Hrem. unfold mbind at 1, prog_bind at 1. rewrite IHl; [|done|lia|lia]. rewrite Hodd !write_all_app.
  destruct (write_all arr index (level_values (negb (Z.odd l)) tl)) as [[arr1 i1]| |]; [|done..].
  destruct (Z.odd l) eqn:Ho; cbn.
  - unfold mbind, prog_bind. rewrite (get_data_in _ _ _ _ _ Hin). cbn.
    destruct (assign arr1 i1 d) as [arr2| |]; [|done..]. cbn.
    rewrite (get_right_in _ _ _ _ _ Hin) IHr; [|done|lia|lia]. by rewrite Hodd ?Ho.
  - unfold mbind, prog_bind, mret, prog_ret. rewrite (get_right_in _ _ _ _ _ Hin) IHr; [|done|lia|lia]. by rewrite Hodd ?Ho.
Qed.

Lemma reverse_loop_runs fuel ks vs ws rest (i j : Z) :
  length vs ≤ fuel → i = Z.of_nat (length ks) → j = (Z.of_nat (length ks + length vs) - 1)%Z →
  reverse_loop fuel ((Some <$> ks ++ vs ++ ws) ++ rest) i j =
  Ok ((Some <$> ks ++ list.reverse vs ++ ws) ++ rest).
Proof.
  revert ks vs ws i j; induction fuel as [|fuel IH]; intros ks vs ws i j Hf -> ->.
  { destruct vs; [|simpl in Hf; lia]. cbn [reverse_loop]. by rewrite (proj2 (Z.ltb_ge _ _)); [|simpl; lia]. }
  destruct vs as [|x vs]; [cbn [reverse_loop]; by rewrite (proj2 (Z.ltb_ge _ _)); [|simpl; lia]|].
  destruct vs as [|y vs _] using rev_ind.
  { cbn [reverse_loop]. by rewrite (proj2 (Z.ltb_ge _ _)); [|simpl; lia]. }
  assert (Z.of_nat (length ks + length (x :: vs ++ [y])) - 1 = Z.of_nat (length (ks ++ x :: vs)))%Z as ->.
  { rewrite !length_app /= length_app /=. lia. }
  cbn [reverse_loop]. rewrite (proj2 (Z.ltb_lt _ _)); [|rewrite length_app /=; lia].
  rewrite -[(x :: vs ++ [y]) ++ ws]/(x :: (vs ++ [y]) ++ ws) -(app_assoc vs) /= fetch_middle. cbn [mbind res_bind].
  assert (∀ z, ks ++ z :: vs ++ y :: ws = (ks ++ z :: vs) ++ y :: ws) as Hl by (intros; by rewrite -app_assoc).
  rewrite {2}Hl fetch_middle. cbn [mbind res_bind]. rewrite assign_middle. cbn [mbind res_bind].
  assert (length (ks ++ x :: vs) = length (ks ++ y :: vs)) as -> by by rewrite !length_app.
  rewrite Hl assign_middle. cbn [mbind res_bind].
  assert ((ks ++ y :: vs) ++ x :: ws = (ks ++ [y]) ++ vs ++ x :: ws) as -> by by rewrite -!app_assoc.
  rewrite IH.
  - rewrite reverse_cons reverse_app /= -!app_assoc //.
  - simpl in Hf. rewrite length_app in Hf. simpl in Hf. lia.
  - rewrite length_app /=. lia.
  - rewrite !length_app /=. lia.
Qed.
Lemma wp_modifyTree fuel t ks vs ws rest (l : Z) (Φ : Z → heapPropI node) :
  depth t ≤ fuel → (0 ≤ l)%Z → length vs = length (level_values (Z.odd l) t) →
  is_tree t ∗ (is_tree (refill (Z.odd l) t vs).1 -∗ Φ (Z.of_nat (length (ks ++ vs)))) ⊢
  wp (modifyTree fuel (root_ptr t) ((Some <$> ks ++ vs ++ ws) ++ rest) (Z.of_nat (length ks)) l) Φ.
Proof.
  revert fuel ks vs ws l Φ; induction t as [|n tl IHl d tr IHr]; intros fuel ks vs ws l Φ Hf Hl Hlen;
    iIntros "[Ht HΦ]".
  { destruct vs; [|done]. rewrite app_nil_r. destruct fuel; cbn [modifyTree root_ptr]; steps; by iApply "HΦ". }
  destruct fuel as [|fuel]; [simpl in Hf; lia|]. cbn [depth] in Hf. open_tree.
  assert (Z.odd (l + 1) = negb (Z.odd l)) as Hodd by (rewrite Z.odd_add; by destruct (Z.odd l)).
  assert (Datatypes.negb (l `rem` 2 =? 0)%Z = Z.odd l) as Hrem.
  { rewrite Z.rem_mod_nonneg; [|lia..]. rewrite Zmod_odd. by destruct (Z.odd l). }
  cbn [level_values] in Hlen. rewrite !length_app in Hlen.
  destruct (split_three vs _ _ _ Hlen) as (vl & m & vr & -> & Hvl & Hm & Hvr).
  destruct (refill_spec (Z.odd (l + 1)) tl vl (m ++ vr)) as (H2 & _ & _ & _ & Hp); [by rewrite Hodd|].
  pose proof (refill_prefix (Z.odd (l + 1)) tl vl (m ++ vr) ltac:(by rewrite Hodd)) as Hpre.
  cbn [modifyTree root_ptr refill]. rewrite Hrem -Hodd. steps. rewrite -!(app_assoc vl) -!(app_assoc m).
  iApply (IHl fuel ks vl (m ++ vr ++ ws)); [lia|lia|by rewrite Hodd|]. iFrame "Hl". iIntros "Hl". steps.
  rewrite -Hpre. destruct (refill (Z.odd (l + 1)) tl (vl ++ m ++ vr)) as [tl' vs'].
  cbn [fst snd] in H2, Hp. subst vs'. cbn [fst]. rewrite -Hp.
  destruct (Z.odd l); (destruct m as [|v [|]]; try done); cbn [app].
  - rewrite (app_assoc ks vl (v :: vr ++ ws)) fetch_middle. steps.
    destruct (refill (Z.odd (l + 1)) tr vr) as [tr' vs'] eqn:Er.
    assert (length (ks ++ vl) + 1 = Z.of_nat (length (ks ++ vl ++ [v])))%Z as ->.
    { rewrite app_assoc (length_app _ [v]). simpl. lia. }
    assert (ks ++ vl ++ v :: vr ++ ws = (ks ++ vl ++ [v]) ++ vr ++ ws) as Hl1 by by rewrite -!app_assoc.
    rewrite -(app_assoc ks vl (v :: vr ++ ws)) Hl1. iApply IHr; [lia|lia|by rewrite Hodd|]. iFrame "Hr". iIntros "Hr". rewrite Er.
    assert (root_ptr tr = root_ptr tr') as ->.
    { destruct (refill_spec (Z.odd (l + 1)) tr vr []) as (_ & _ & _ & _ & Hq); [by rewrite Hodd|].
      by rewrite app_nil_r Er in Hq. }
    cbn [fst]. close_tree n tl' v tr'.
    replace (ks ++ vl ++ v :: vr) with ((ks ++ vl ++ [v]) ++ vr); [|by rewrite -!app_assoc]. by iApply "HΦ".
  - steps. rewrite (app_assoc ks vl (vr ++ ws)). destruct (refill (Z.odd (l + 1)) tr vr) as [tr' vs'] eqn:Er.
    iApply (IHr fuel (ks ++ vl)); [lia|lia|by rewrite Hodd|]. iFrame "Hr". iIntros "Hr". rewrite Er.
    assert (root_ptr tr = root_ptr tr') as ->.
    { destruct (refill_spec (Z.odd (l + 1)) tr vr []) as (_ & _ & _ & _ & Hq); [by rewrite Hodd|].
      by rewrite app_nil_r Er in Hq. }
    cbn [fst]. close_tree n tl' d tr'. rewrite (app_assoc ks vl). by iApply "HΦ".
Qed.
End reverse_alternate.

(** ** isSubtree *)
Section is_subtree.
Import BinarySubTree.
Implicit Types (t l r s : tree) (fuel : nat) (h : gmap loc node) (n : loc) (d c : Z) (u v w : list Z) (arr : array).

(** what the two traversals store *)
Fixpoint in_string t : list Z :=
  match t with Nil => [dollar] | Bin _ l d r => in_string l ++ d :: in_string r end.
Fixpoint pre_string t : list Z :=
  match t with Nil => [dollar] | Bin _ l d r => d :: pre_string l ++ pre_string r end.
(** equal shapes and values, at any addresses *)
Fixpoint same_tree t s : Prop :=
  match t, s with
  | Nil, Nil => True
  | Bin _ l d r, Bin _ l' d' r' => d = d' ∧ same_tree l l' ∧ same_tree r r'
  | _, _ => False
  end.
(** keys that the strings can hold: neither the mark for NULL nor the end of a string *)
Definition plain_keys t : Prop := ∀ d, d ∈ inorder t → d ≠ dollar ∧ d ≠ nul.

Lemma plain_keys_Bin n l d r :
  plain_keys (Bin n l d r) → d ≠ dollar ∧ d ≠ nul ∧ plain_keys l ∧ plain_keys r.
Proof.
  unfold plain_keys. cbn [inorder]. setoid_rewrite elem_of_app. setoid_rewrite elem_of_cons.
  intros H. split_and!; try (apply (H d); by auto); intros d' Hd'; apply H; auto.
Qed.
Lemma length_in_string t : length (in_string t) = length (pre_string t).
Proof.
  induction t as [|n l IHl d r IHr]; [done|]. cbn [in_string pre_string length].
  rewrite !length_app /= IHl IHr. lia.
Qed.

Lemma storeInorder_runs fuel t h arr (i : Z) :
  tree_in h t → depth t ≤ fuel →
  storeInorder fuel (root_ptr t) arr i h = lift (write_all arr i (in_string t)) h.
Proof.
  revert fuel arr i; induction t as [|n l IHl d r IHr]; intros fuel arr i Hin Hf.
  { destruct fuel; cbn; destruct (assign arr i dollar); done. }
  destruct fuel as [|fuel]; [simpl in Hf; lia|]. cbn [depth] in Hf. cbn [storeInorder root_ptr in_string].
  rewrite (run_bind _ _ _ _ _ (get_left_in _ _ _ _ _ Hin)) write_all_app. pose proof Hin as (_ & Hinl & Hinr).
  unfold mbind at 1, prog_bind at 1. rewrite IHl; [|done|lia].
  destruct (write_all arr i (in_string l)) as [[arr1 i1]| |]; [|done..]. cbn.
  unfold mbind, prog_bind. rewrite (get_data_in _ _ _ _ _ Hin). cbn.
  destruct (assign arr1 i1 d) as [arr2| |]; [|done..]. cbn.
  rewrite (get_right_in _ _ _ _ _ Hin) IHr //. lia.
Qed.
Lemma storePreOrder_runs fuel t h arr (i : Z) :
  tree_in h t → depth t ≤ fuel →
  storePreOrder fuel (root_ptr t) arr i h = lift (write_all arr i (pre_string t)) h.
Proof.
  revert fuel arr i; induction t as [|n l IHl d r IHr]; intros fuel arr i Hin Hf.
  { destruct fuel; cbn; destruct (assign arr i dollar); done. }
  destruct fuel as [|fuel]; [simpl in Hf; lia|]. cbn [depth] in Hf. cbn [storePreOrder root_ptr pre_string].
  rewrite (run_bind _ _ _ _ _ (get_data_in _ _ _ _ _ Hin)). pose proof Hin as (_ & Hinl & Hinr).
  unfold mbind at 1, prog_bind at 1. cbn [write_all].
  destruct (assign arr i d) as [arr1| |]; [|done..]. cbn. rewrite write_all_app.
  unfold mbind, prog_bind. rewrite (get_left_in _ _ _ _ _ Hin) IHl; [|done|lia].
  destruct (write_all arr1 (i + 1) (pre_string l)) as [[arr2 i2]| |]; [|done..]. cbn.
  rewrite (get_right_in _ _ _ _ _ Hin) IHr //. lia.
Qed.

Lemma c_string_Ok u arr : nul ∉ u → c_string ((Some <$> u) ++ Some nul :: arr) = Ok u.
Proof.
  induction u as [|c u IH]; [done|]. rewrite not_elem_of_cons. intros [Hc Hu]. cbn [fmap list_fmap app c_string].
  destruct (Z.eqb_spec c nul); [by subst|]. by rewrite IH.
Qed.
Lemma starts_with_prefix u v : starts_with u v ↔ ∃ w, u = v ++ w.
Proof.
  revert u; induction v as [|y v IH]; intros u; cbn [starts_with].
  { split; [intros _; by exists u|intros _; by destruct u]. }
  destruct u as [|x u]; [split; [done|by intros [w ?]]|].
  rewrite andb_True IH. destruct (Z.eqb_spec x y); split; naive_solver.
Qed.
Lemma has_substring_spec u v : has_substring u v ↔ ∃ w w', u = w ++ v ++ w'.
Proof.
  induction u as [|x u IH]; cbn [has_substring]; rewrite orb_True starts_with_prefix.
  - split; [intros [[w ?]|[]]; by exists [], w|].
    intros (w & w' & Hw). destruct w; [|done]. left. by exists w'.
  - rewrite IH. split.
    + intros [[w Hw]|(w & w' & ->)]; [by exists [], w|by exists (x :: w), w'].
    + intros ([|x' w] & w' & Hw); [left; by exists w'|right]. injection Hw as <- ->. by exists w, w'.
Qed.

(** a preorder with marks is not a prefix of another one *)
Lemma pre_string_prefix t s v w :
  plain_keys t → plain_keys s → pre_string t ++ v = pre_string s ++ w → same_tree t s ∧ v = w.
Proof.
  revert s v w; induction t as [|n l IHl d r IHr]; intros s v w Ht Hs Heq; destruct s as [|n' l' d' r'].
  - by injection Heq as ->.
  - injection Heq as Hd _. apply plain_keys_Bin in Hs as (? & _). congruence.
  - injection Heq as Hd _. apply plain_keys_Bin in Ht as (? & _). congruence.
  - apply plain_keys_Bin in Ht as (_ & _ & Hl & Hr), Hs as (_ & _ & Hl' & Hr').
    cbn in Heq. injection Heq as -> Heq. rewrite -!app_assoc in Heq.
    apply IHl in Heq as [Hsl Heq]; [|done..]. apply IHr in Heq as [Hsr ->]; [|done..]. done.
Qed.
(** it occurs inside only as the preorder of a subtree *)
Lemma pre_string_inside t s u v w :
  plain_keys t → plain_keys s → pre_string t ++ u = v ++ pre_string s ++ w →
  length v < length (pre_string t) → ∃ t', subtree t' t ∧ same_tree t' s.
Proof.
  revert u v w; induction t as [|n l IHl d r IHr]; intros u v w Ht Hs Heq Hlen.
  { destruct v; [|simpl in Hlen; lia]. apply (pre_string_prefix Nil) in Heq as [? _]; [|done..].
    exists Nil. split; [by left|done]. }
  destruct v as [|x v].
  { apply (pre_string_prefix (Bin n l d r)) in Heq as [? _]; [|done..]. exists (Bin n l d r). split; [by left|done]. }
  apply plain_keys_Bin in Ht as (_ & _ & Hl & Hr). cbn in Heq. injection Heq as <- Heq.
  cbn [pre_string length] in Hlen. rewrite length_app in Hlen. rewrite -app_assoc in Heq.
  destruct (decide (length v < length (pre_string l))) as [Hlt|Hge].
  - destruct (IHl _ _ _ Hl Hs Heq Hlt) as (t' & ? & ?). exists t'. split; [right; by left|done].
  - assert (v = pre_string l ++ drop (length (pre_string l)) v) as Hv.
    { apply (f_equal (take (length (pre_string l)))) in Heq. rewrite take_app_length take_app_le in Heq; [|lia].
      rewrite {1}Heq. by rewrite take_drop. }
    set (v' := drop _ v) in Hv. rewrite Hv -!app_assoc in Heq. apply app_inv_head in Heq.
    destruct (IHr _ _ _ Hr Hs Heq) as (t' & ? & ?).
    + subst v'. rewrite length_drop. simpl in Hlen. lia.
    + exists t'. split; [right; by right|done].
Qed.
Lemma same_tree_strings t s : same_tree t s → in_string t = in_string s ∧ pre_string t = pre_string s.
Proof.
  revert s; induction t as [|n l IHl d r IHr]; intros [|n' l' d' r']; try done.
  intros (-> & Hl & Hr). apply IHl in Hl as [Hl1 Hl2]. apply IHr in Hr as [Hr1 Hr2].
  cbn [in_string pre_string]. by rewrite Hl1 Hl2 Hr1 Hr2.
Qed.
Lemma subtree_strings t s :
  subtree t s → (∃ w w', in_string s = w ++ in_string t ++ w') ∧ ∃ w w', pre_string s = w ++ pre_string t ++ w'.
Proof.
  induction s as [|n l IHl d r IHr]; intros [->|Hs].
  - split; exists [], []; by rewrite app_nil_r.
  - done.
  - split; exists [], []; by rewrite app_nil_r.
  - destruct Hs as [Hs|Hs].
    + destruct (IHl Hs) as [(w & w' & Hw) (x & x' & Hx)]. cbn [in_string pre_string]. rewrite Hw Hx. split.
      * exists w, (w' ++ d :: in_string r). by rewrite -!app_assoc.
      * exists (d :: x), (x' ++ pre_string r). by rewrite /= -!app_assoc.
    + destruct (IHr Hs) as [(w & w' & Hw) (x & x' & Hx)]. cbn [in_string pre_string]. rewrite Hw Hx. split.
      * exists (in_string l ++ d :: w), w'. by rewrite -!app_assoc.
      * exists (d :: pre_string l ++ x), x'. by rewrite /= -!app_assoc.
Qed.
(** the two substrings say that the tree is a subtree *)
Lemma strings_subtree t s :
  plain_keys t → plain_keys s →
  (has_substring (in_string t) (in_string s) ∧ has_substring (pre_string t) (pre_string s)) ↔
  ∃ t', subtree t' t ∧ same_tree t' s.
Proof.
  intros Ht Hs. rewrite !has_substring_spec. split.
  - intros [_ (w & w' & Hw)]. rewrite -(app_nil_r (pre_string t)) in Hw.
    eapply (pre_string_inside t s []); [done..|].
    apply (f_equal length) in Hw. rewrite !length_app /= in Hw.
    assert (0 < length (pre_string s)) by (destruct s; simpl; lia). lia.
  - intros (t' & Hsub & [Hin Hpre]%same_tree_strings). rewrite -Hin -Hpre. by apply subtree_strings.
Qed.

Lemma in_string_nul t : plain_keys t → nul ∉ in_string t.
Proof.
  induction t as [|n l IHl d r IHr]; [by intros _ [?|?%not_elem_of_nil]%elem_of_cons|].
  intros (? & ? & ? & ?)%plain_keys_Bin. cbn [in_string]. rewrite elem_of_app elem_of_cons. naive_solver.
Qed.
Lemma pre_string_nul t : plain_keys t → nul ∉ pre_string t.
Proof.
  induction t as [|n l IHl d r IHr]; [by intros _ [?|?%not_elem_of_nil]%elem_of_cons|].
  intros (? & ? & ? & ?)%plain_keys_Bin. cbn [pre_string]. rewrite elem_of_cons elem_of_app. naive_solver.
Qed.
(** a string in an array of [MAX] characters and its end *)
Lemma stored_string u :
  length u < MAX →
  ∃ arr, write_all (replicate MAX None) 0 u = Ok (arr, Z.of_nat (length u)) ∧
         ∃ arr', assign arr (Z.of_nat (length u)) nul = Ok arr' ∧ (nul ∉ u → c_string arr' = Ok u).
Proof.
  intros Hu. rewrite write_all_new; [|lia]. eexists. split; [done|].
  destruct (MAX - length u) as [|k] eqn:Hk; [lia|]. cbn [replicate].
  rewrite assign_next. eexists. split; [done|]. intros Hnul. rewrite fmap_app -app_assoc. by apply c_string_Ok.
Qed.
End is_subtree.

Section depth.
Implicit Types (t : tree) (b : bool) (vs : list Z).
Lemma refill_depth b t vs : depth (refill b t vs).1 = depth t.
Proof.
  revert b vs; induction t as [|n l IHl d r IHr]; intros b vs; [done|]. cbn [refill].
  pose proof (IHl (negb b) vs) as Hl. destruct (refill (negb b) l vs) as [l' vs'].
  destruct (match b, vs' with true, v :: vs' => (v, vs') | _, _ => (d, vs') end) as [d' vs''].
  pose proof (IHr (negb b) vs'') as Hr. destruct (refill (negb b) r vs'') as [r' us].
  cbn [fst depth] in *. by rewrite Hl Hr.
Qed.
End depth.
