(* ===== verification/BinaryTreeTheorems.v ===== *)
(** What the exercises on binary trees do, stated for their runs: each theorem
    takes a memory that holds a tree and gives the result and the memory that
    the function leaves. *)

From iris.proofmode Require Import proofmode environments coq_tactics reduction.
From S2P Require Import Prelude Int Array Heap HeapTactics BinaryTree BinaryTreeProps BinaryTreeUpdate.

Section theorems.
Implicit Types (t l r s : tree) (fuel : nat) (h : gmap loc node) (n : loc) (d k : Z).

(** [removeShortPathNodes] frees exactly the nodes that are on no way of [k]
    nodes or more from the root to a leaf: the ways of the tree that is left are
    the ways of the tree that have at least [k] nodes, in the same order; the
    memory of the other nodes is given back. *)
Theorem removeShortPathNodes_correct fuel t k h :
  depth t ≤ fuel → is_tree t h →
  ∃ t' h', RemoveNodesOnRoot.removeShortPathNodes fuel (root_ptr t) k h = Ok (root_ptr t', h') ∧
           is_tree t' h' ∧
           paths t' = filter (λ p, (k ≤ Z.of_nat (length p))%Z) (paths t).
Proof.
  intros Hf Hh. pose (t' := prune t 1 k). exists t'.
  destruct (wp_runs (RemoveNodesOnRoot.removeShortPathNodes fuel (root_ptr t) k) (is_tree t)
              (λ p, ⟨p = root_ptr t'⟩ ∗ is_tree t')%I h) as (p & h' & Hrun & [-> Hh']%holds_pure_sep); [|done|].
  { iIntros "Ht". iApply wp_removeShortPathNodesUtil; [done|]. iFrame "Ht". iIntros "Ht". by iFrame. }
  exists h'. split_and!; [done..|]. subst t'. rewrite paths_prune. apply list_filter_iff. intros p. lia.
Qed.

(** C38: [findMaxSum] returns the largest sum of values along a way between two
    nodes of a nonempty tree, and leaves the tree alone, as long as the absolute
    values of the tree add up to an [int]. *)
Theorem findMaxSum_correct fuel t h :
  depth t ≤ fuel → (weight t ≤ INT_MAX)%Z → t ≠ Nil → is_tree t h →
  ∃ m, MaxBinaryTreeSumPath.findMaxSum fuel (root_ptr t) h = Ok (m, h) ∧
       m ∈ path_sums t ∧ ∀ m', m' ∈ path_sums t → (m' ≤ m)%Z.
Proof.
  intros Hf Hw Ht Hh.
  destruct (wp_runs (MaxBinaryTreeSumPath.findMaxSum fuel (root_ptr t)) (is_tree t)
              (λ m, ⟨m ∈ path_sums t ∧ ∀ m', m' ∈ path_sums t → (m' ≤ m)%Z⟩ ∗ is_tree t)%I h)
    as (m & h' & Hrun & [Hm Hh']%holds_pure_sep); [|done|].
  { iIntros "Ht". iApply wp_findMaxSum; [done..|]. iFrame "Ht". iIntros (m) "%Hm Ht". by iFrame. }
  rewrite (is_tree_unique _ _ _ Hh' Hh) in Hrun. by exists m.
Qed.

(** The two methods of PathToLeafBinaryTree.cpp print the same: every way
    from the root to a leaf, once, from left to right.  The first one copies the
    vector, the second one overwrites it and uses a length. *)
Theorem printPreorder_same fuel t h :
  depth t ≤ fuel → is_tree t h →
  ∃ path path',
    PathToLeafBinaryTree.printPreorder fuel (root_ptr t) [] h = Ok ((paths t, path), h) ∧
    PathToLeafBinaryTree.printPreorder_length fuel (root_ptr t) [] 0 h = Ok ((paths t, path'), h).
Proof.
  intros Hf Hh.
  assert (printed [] t = paths t) as Hp by (unfold printed; apply list_fmap_id).
  destruct (wp_runs (PathToLeafBinaryTree.printPreorder fuel (root_ptr t) []) (is_tree t)
              (λ res, ⟨res.1 = paths t⟩ ∗ is_tree t)%I h)
    as ([o1 p1] & h1 & Hrun1 & [Ho1 Hh1]%holds_pure_sep); [|done|].
  { iIntros "Ht". iApply wp_path_printPreorder; [done|]. iFrame "Ht". iIntros (path) "Ht". rewrite Hp. by iFrame. }
  destruct (wp_runs (PathToLeafBinaryTree.printPreorder_length fuel (root_ptr t) [] 0) (is_tree t)
              (λ res, ⟨res.1 = paths t⟩ ∗ is_tree t)%I h)
    as ([o2 p2] & h2 & Hrun2 & [Ho2 Hh2]%holds_pure_sep); [|done|].
  { iIntros "Ht". iApply (wp_path_printPreorder_length fuel t [] 0 []); [done..|]. iFrame "Ht".
    iIntros (path) "_ Ht". rewrite Hp. by iFrame. }
  cbn in Ho1, Ho2. subst. rewrite (is_tree_unique _ _ _ Hh1 Hh) in Hrun1. rewrite (is_tree_unique _ _ _ Hh2 Hh) in Hrun2.
  by exists p1, p2.
Qed.

(** [minDepth] returns the length of a shortest way to a leaf. *)
Theorem minDepth_correct fuel t h :
  depth t ≤ fuel → t ≠ Nil → is_tree t h →
  ∃ m, minBinaryTreeHeight.minDepth fuel (root_ptr t) h = Ok (Z.of_nat m, h) ∧
       (∃ p, p ∈ paths t ∧ length p = m) ∧ ∀ p, p ∈ paths t → m ≤ length p.
Proof.
  intros Hf Ht Hh.
  destruct (wp_runs (minBinaryTreeHeight.minDepth fuel (root_ptr t)) (is_tree t)
              (λ m, ⟨m = Z.of_nat (min_depth t)⟩ ∗ is_tree t)%I h)
    as (m & h' & Hrun & [-> Hh']%holds_pure_sep); [|done|].
  { iIntros "Ht". iApply wp_minDepth; [done|]. iFrame "Ht". iIntros "Ht". by iFrame. }
  rewrite (is_tree_unique _ _ _ Hh' Hh) in Hrun. exists (min_depth t). split; [done|by apply min_depth_shortest].
Qed.

(** [isFullTree] says whether every node has two children or none. *)
Theorem isFullTree_correct fuel t h :
  depth t ≤ fuel → is_tree t h →
  ∃ b, FullBinaryTest.isFullTree fuel (root_ptr t) h = Ok (b, h) ∧ (b = true ↔ full t).
Proof.
  intros Hf Hh.
  destruct (wp_runs (FullBinaryTest.isFullTree fuel (root_ptr t)) (is_tree t)
              (λ b, ⟨b = true ↔ full t⟩ ∗ is_tree t)%I h)
    as (b & h' & Hrun & [Hb Hh']%holds_pure_sep); [|done|].
  { iIntros "Ht". iApply wp_isFullTree; [done|]. iFrame "Ht". iIntros (b) "%Hb Ht". by iFrame. }
  rewrite (is_tree_unique _ _ _ Hh' Hh) in Hrun. by exists b.
Qed.

(** In a binary search tree that has both values [lca] returns the lowest
    node whose subtree has both of them. *)
Theorem lca_correct fuel t (n1 n2 : Z) h :
  depth t ≤ fuel → search_tree t → n1 ∈ inorder t → n2 ∈ inorder t → is_tree t h →
  ∃ s, CommonAncestor.lca fuel (root_ptr t) n1 n2 h = Ok (root_ptr s, h) ∧ lowest_common s t n1 n2.
Proof.
  intros Hf Hs H1 H2 Hh.
  destruct (wp_runs (CommonAncestor.lca fuel (root_ptr t) n1 n2) (is_tree t)
              (λ p, ∃ s, ⟨p = root_ptr s ∧ lowest_common s t n1 n2⟩ ∗ is_tree t)%I h)
    as (p & h' & Hrun & s & [[-> Hlow] Hh']%holds_pure_sep); [|done|].
  { iIntros "Ht". iApply wp_lca; [done..|]. iFrame "Ht". iIntros (s) "%Hlow Ht". iExists s. by iFrame. }
  rewrite (is_tree_unique _ _ _ Hh' Hh) in Hrun. by exists s.
Qed.

(** [printInorder] of SumLeftLeaves.cpp adds up the left leaves. *)
Theorem printInorder_sums fuel t h :
  depth t ≤ fuel → (weight t ≤ INT_MAX)%Z → is_tree t h →
  SumLeftLeaves.printInorder fuel (root_ptr t) 0 h = Ok ((inorder t, total (left_leaves t)), h).
Proof.
  intros Hf Hw Hh.
  destruct (wp_runs (SumLeftLeaves.printInorder fuel (root_ptr t) 0) (is_tree t)
              (λ res, ⟨res = (inorder t, total (left_leaves t))⟩ ∗ is_tree t)%I h)
    as (res & h' & Hrun & [-> Hh']%holds_pure_sep); [|done|].
  { iIntros "Ht". iApply wp_printInorder; [done|lia|]. iFrame "Ht". iIntros "Ht". by iFrame. }
  by rewrite (is_tree_unique _ _ _ Hh' Hh) in Hrun.
Qed.

(** ** reverseAlternate *)

Lemma reverseAlternate_runs fuel t h :
  depth t ≤ fuel → is_tree t h → length (level_values false t) ≤ ReverseBinaryTree.MAX →
  ∃ h', ReverseBinaryTree.reverseAlternate fuel (root_ptr t) h = Ok (tt, h') ∧
        is_tree (refill false t (reverse (level_values false t))).1 h'.
Proof.
  intros Hf Hh Hmax. set (vs := level_values false t) in *.
  pose proof (storeAlternate_runs fuel t h (replicate ReverseBinaryTree.MAX None) 0 0
                (is_tree_in_alone _ _ Hh) Hf ltac:(done)) as Hstore.
  change (Z.odd 0) with false in Hstore. rewrite write_all_new // in Hstore. unfold lift in Hstore.
  unfold ReverseBinaryTree.reverseAlternate. rewrite (run_bind _ _ _ _ _ Hstore). cbn beta iota.
  assert (ReverseBinaryTree.reverse ((Some <$> vs) ++ replicate (ReverseBinaryTree.MAX - length vs) None)
            (Z.of_nat (length vs)) =
          Ok ((Some <$> reverse vs) ++ replicate (ReverseBinaryTree.MAX - length vs) None)) as Hrev.
  { unfold ReverseBinaryTree.reverse.
    pose proof (reverse_loop_runs (Z.to_nat (Z.of_nat (length vs))) [] vs []
                  (replicate (ReverseBinaryTree.MAX - length vs) None) 0 (Z.of_nat (length vs) - 1)) as Hr.
    rewrite !app_nil_r in Hr. apply Hr; [lia|done|simpl; lia]. }
  rewrite Hrev.
  destruct (wp_runs (ReverseBinaryTree.modifyTree fuel (root_ptr t)
              ((Some <$> reverse vs) ++ replicate (ReverseBinaryTree.MAX - length vs) None) 0 0) (is_tree t)
              (λ _, is_tree (refill false t (reverse vs)).1) h) as (i & h' & Hrun & Hh'); [|done|].
  { iIntros "Ht".
    pose proof (wp_modifyTree fuel t [] (reverse vs) [] (replicate (ReverseBinaryTree.MAX - length vs) None) 0) as Hm.
    rewrite app_nil_r in Hm. iApply Hm; [done|done|by rewrite length_reverse|]. iFrame "Ht". iIntros "$". }
  exists h'. split; [|done]. by rewrite /lift /mbind /prog_bind Hrun.
Qed.

(** [reverseAlternate] gives the values at the odd levels, in order, the
    reverse order, and changes neither the other values nor the nodes; called
    again it restores the memory. *)
Theorem reverseAlternate_twice fuel t h :
  depth t ≤ fuel → is_tree t h → length (level_values false t) ≤ ReverseBinaryTree.MAX →
  ∃ t' h', ReverseBinaryTree.reverseAlternate fuel (root_ptr t) h = Ok (tt, h') ∧ is_tree t' h' ∧
           level_values false t' = reverse (level_values false t) ∧
           level_values true t' = level_values true t ∧
           addrs t' = addrs t ∧ root_ptr t' = root_ptr t ∧
           ReverseBinaryTree.reverseAlternate fuel (root_ptr t) h' = Ok (tt, h).
Proof.
  intros Hf Hh Hmax. destruct (reverseAlternate_runs fuel t h Hf Hh Hmax) as (h' & Hrun & Hh').
  set (t' := (refill false t (reverse (level_values false t))).1) in *.
  destruct (refill_spec false t (reverse (level_values false t)) []) as (_ & H1 & H2 & H3 & H4).
  { by rewrite length_reverse. }
  rewrite app_nil_r -/t' in H1, H2, H3, H4. exists t', h'. split_and!; try done.
  assert (depth t' = depth t) as Hd by apply refill_depth.
  destruct (reverseAlternate_runs fuel t' h') as (h2 & Hrun2 & Hh2); [lia|done|by rewrite H1 length_reverse|].
  rewrite H1 reverse_involutive H4 in Hrun2, Hh2. rewrite Hrun2. do 2 f_equal.
  apply (is_tree_unique t); [|done].
  pose proof (refill_refill false t (reverse (level_values false t)) []) as Hback.
  rewrite app_nil_r in Hback. rewrite -/t' in Hback. rewrite Hback in Hh2; [done|]. by rewrite length_reverse.
Qed.

(** [reverseAlternate] writes past the end of its array when the tree has
    more than 100 nodes at odd levels. *)
Theorem reverseAlternate_overflows fuel t h :
  depth t ≤ fuel → is_tree t h → ReverseBinaryTree.MAX < length (level_values false t) →
  ReverseBinaryTree.reverseAlternate fuel (root_ptr t) h = Fault OutOfBounds.
Proof.
  intros Hf Hh Hmax. unfold ReverseBinaryTree.reverseAlternate, mbind, prog_bind.
  rewrite storeAlternate_runs //; [|by apply is_tree_in_alone]. change (Z.odd 0) with false.
  pose proof (write_all_OutOfBounds [] (level_values false t) (replicate ReverseBinaryTree.MAX None)) as Hw.
  rewrite length_replicate in Hw. by rewrite (Hw Hmax : write_all _ 0 _ = _).
Qed.

(** ** isSubtree *)

(** the code below the two tests for NULL *)
Lemma isSubtree_unfold fuel (T S : tree) : root_ptr T ≠ None → root_ptr S ≠ None →
  BinarySubTree.isSubtree fuel (root_ptr T) (root_ptr S) =
      '(inT, m) ← BinarySubTree.storeInorder fuel (root_ptr T) (replicate BinarySubTree.MAX None) 0;
      '(inS, n) ← BinarySubTree.storeInorder fuel (root_ptr S) (replicate BinarySubTree.MAX None) 0;
      inT ← lift (assign inT m BinarySubTree.nul); inS ← lift (assign inS n BinarySubTree.nul);
      found ← lift (BinarySubTree.strstr inT inS);
      if Datatypes.negb found then mret false
      else
        '(preT, m) ← BinarySubTree.storePreOrder fuel (root_ptr T) (replicate BinarySubTree.MAX None) 0;
        '(preS, n) ← BinarySubTree.storePreOrder fuel (root_ptr S) (replicate BinarySubTree.MAX None) 0;
        preT ← lift (assign preT m BinarySubTree.nul); preS ← lift (assign preS n BinarySubTree.nul);
        lift (BinarySubTree.strstr preT preS).
Proof. by destruct T, S. Qed.
Lemma nil_subtree (T : tree) : subtree Nil T.
Proof. induction T as [|n l IHl d r _]; [by left|]. right. by left. Qed.

(** C23: [isSubtree] answers whether the second tree is equal to a subtree of the
    first one, for trees that fit its arrays and whose keys are neither the
    character that marks NULL nor the end of a string. *)
Theorem isSubtree_correct fuel (T S : tree) h :
  depth T ≤ fuel → depth S ≤ fuel → plain_keys T → plain_keys S →
  length (pre_string T) < BinarySubTree.MAX → length (pre_string S) < BinarySubTree.MAX →
  (is_tree T ∗ is_tree S)%I h →
  ∃ b, BinarySubTree.isSubtree fuel (root_ptr T) (root_ptr S) h = Ok (b, h) ∧
       (b = true ↔ ∃ t', subtree t' T ∧ same_tree t' S).
Proof.
  intros HfT HfS HT HS HlT HlS Hh.
  assert (tree_in h T) as HinT by by eapply is_tree_in.
  assert (tree_in h S) as HinS.
  { apply (is_tree_in S (is_tree T)). refine (holds_mono _ _ _ _ Hh). iIntros "[$ $]". }
  destruct (decide (root_ptr S = None)) as [HS0|HS0].
  { exists true. destruct S; [|done]. split; [by destruct T|]. split; [|done]. intros _. exists Nil.
    split; [apply nil_subtree|done]. }
  destruct (decide (root_ptr T = None)) as [HT0|HT0].
  { exists false. destruct T; [|done]. destruct S; [done|]. split; [done|]. split; [done|]. intros (t' & [->|[]] & []). }
  rewrite isSubtree_unfold //.
  destruct (stored_string (in_string T)) as (a1 & Hw1 & b1 & Ha1 & Hc1); [by rewrite length_in_string|].
  destruct (stored_string (in_string S)) as (a2 & Hw2 & b2 & Ha2 & Hc2); [by rewrite length_in_string|].
  destruct (stored_string (pre_string T) HlT) as (a3 & Hw3 & b3 & Ha3 & Hc3).
  destruct (stored_string (pre_string S) HlS) as (a4 & Hw4 & b4 & Ha4 & Hc4).
  pose proof (storeInorder_runs fuel T h (replicate BinarySubTree.MAX None) 0 HinT HfT) as H1. rewrite Hw1 in H1.
  pose proof (storeInorder_runs fuel S h (replicate BinarySubTree.MAX None) 0 HinS HfS) as H2. rewrite Hw2 in H2.
  pose proof (storePreOrder_runs fuel T h (replicate BinarySubTree.MAX None) 0 HinT HfT) as H3. rewrite Hw3 in H3.
  pose proof (storePreOrder_runs fuel S h (replicate BinarySubTree.MAX None) 0 HinS HfS) as H4. rewrite Hw4 in H4.
  rewrite (run_bind _ _ _ _ _ H1). cbn beta iota. rewrite (run_bind _ _ _ _ _ H2). cbn beta iota.
  rewrite Ha1 Ha2 (run_bind _ _ _ b1 h) // (run_bind _ _ _ b2 h) //.
  assert (BinarySubTree.strstr b1 b2 = Ok (BinarySubTree.has_substring (in_string T) (in_string S))) as ->.
  { unfold BinarySubTree.strstr. by rewrite Hc1 ?Hc2; [|by apply in_string_nul..]. }
  rewrite (run_bind _ _ _ (BinarySubTree.has_substring (in_string T) (in_string S)) h) //.
  pose proof (strings_subtree T S HT HS) as Hspec.
  destruct (BinarySubTree.has_substring (in_string T) (in_string S)); cbn [Datatypes.negb].
  2:{ exists false. split; [done|]. rewrite -Hspec. split; [done|]. by intros [[] _]. }
  rewrite (run_bind _ _ _ _ _ H3). cbn beta iota. rewrite (run_bind _ _ _ _ _ H4). cbn beta iota.
  rewrite Ha3 Ha4 (run_bind _ _ _ b3 h) // (run_bind _ _ _ b4 h) //.
  assert (BinarySubTree.strstr b3 b4 = Ok (BinarySubTree.has_substring (pre_string T) (pre_string S))) as ->.
  { unfold BinarySubTree.strstr. by rewrite Hc3 ?Hc4; [|by apply pre_string_nul..]. }
  exists (BinarySubTree.has_substring (pre_string T) (pre_string S)). split; [done|]. rewrite -Hspec.
  destruct (BinarySubTree.has_substring _ _); naive_solver.
Qed.

(** a tree that does not fit the arrays is written past their end *)
Theorem isSubtree_overflows fuel (T S : tree) h :
  depth T ≤ fuel → T ≠ Nil → S ≠ Nil → BinarySubTree.MAX < length (in_string T) → is_tree T h →
  BinarySubTree.isSubtree fuel (root_ptr T) (root_ptr S) h = Fault OutOfBounds.
Proof.
  intros Hf HT HS Hmax Hh. destruct T as [|n l d r]; [done|]. destruct S as [|m l' d' r']; [done|].
  unfold BinarySubTree.isSubtree. cbn [root_ptr]. unfold mbind at 1, prog_bind at 1.
  rewrite (storeInorder_runs fuel (Bin n l d r)) //; [|by apply is_tree_in_alone].
  pose proof (write_all_OutOfBounds [] (in_string (Bin n l d r)) (replicate BinarySubTree.MAX None)) as Hw.
  rewrite length_replicate in Hw. by rewrite (Hw Hmax : write_all _ 0 _ = _).
Qed.
End theorems.

(** ** Concrete trees *)
Section tree_heap.
Implicit Types (t : tree).

(** the memory of a tree *)
Fixpoint tree_heap t : gmap loc node :=
  match t with
  | Nil => ∅
  | Bin n l d r => <[n := mk_node (Some d) (Some (root_ptr l)) (Some (root_ptr r))]> (tree_heap l ∪ tree_heap r)
  end.
Lemma dom_tree_heap t : dom (tree_heap t) = list_to_set (addrs t).
Proof.
  induction t as [|n l IHl d r IHr]; simpl; [apply dom_empty_L|].
  rewrite dom_insert_L dom_union_L IHl IHr list_to_set_app_L //.
Qed.
Lemma is_tree_heap t : NoDup (addrs t) → is_tree t (tree_heap t).
Proof.
  induction t as [|n l IHl d r IHr]; [done|]. cbn [addrs tree_heap]. rewrite NoDup_cons NoDup_app.
  intros (Hn & Hl & Hlr & Hr).
  apply (holds_mono ((is_tree l ∗ is_tree r) ∗ n ↦ mk_node (Some d) (Some (root_ptr l)) (Some (root_ptr r)))%I).
  { rewrite is_tree_Bin. iIntros "[[$ $] $]". }
  apply holds_fresh.
  - exists (tree_heap l), (tree_heap r). split_and!; [done| |by apply IHl|by apply IHr].
    apply map_disjoint_dom. rewrite !dom_tree_heap. set_solver.
  - apply not_elem_of_dom. rewrite dom_union_L !dom_tree_heap. set_solver.
Qed.
Lemma is_trees_heap t (s : tree) :
  NoDup (addrs t ++ addrs s) → (is_tree t ∗ is_tree s)%I (tree_heap t ∪ tree_heap s).
Proof.
  rewrite NoDup_app. intros (Ht & Hts & Hs). exists (tree_heap t), (tree_heap s).
  split_and!; [done| |by apply is_tree_heap..]. apply map_disjoint_dom. rewrite !dom_tree_heap. set_solver.
Qed.
End tree_heap.

(** a leaf, and a tree with the ways 1 2 4, 1 2 5 and 1 3 *)
Definition leaf (n : loc) (d : Z) : tree := Bin n Nil d Nil.
Definition small_tree : tree := Bin 0 (Bin 1 (leaf 2 4) 2 (leaf 3 5)) 1 (leaf 4 3).
Lemma small_tree_heap : is_tree small_tree (tree_heap small_tree).
Proof. apply is_tree_heap. compute_done. Qed.

Lemma removeShortPathNodes_correct_witness :
  ∃ t' h', RemoveNodesOnRoot.removeShortPathNodes 3 (Some 0) 3 (tree_heap small_tree) = Ok (root_ptr t', h') ∧
           paths t' = [[1; 2; 4]; [1; 2; 5]]%Z.
Proof.
  destruct (removeShortPathNodes_correct 3 small_tree 3 (tree_heap small_tree)) as (t' & h' & Hrun & _ & Hp);
    [simpl; lia|apply small_tree_heap|by exists t', h'].
Defined.
Lemma findMaxSum_correct_witness :
  ∃ m, MaxBinaryTreeSumPath.findMaxSum 3 (Some 0) (tree_heap small_tree) = Ok (m, tree_heap small_tree) ∧
       m ∈ path_sums small_tree.
Proof.
  destruct (findMaxSum_correct 3 small_tree (tree_heap small_tree)) as (m & Hrun & Hm & _);
    [simpl; lia|by compute|done|apply small_tree_heap|by exists m].
Defined.
Lemma printPreorder_same_witness :
  ∃ path, PathToLeafBinaryTree.printPreorder_length 3 (Some 0) [] 0 (tree_heap small_tree) =
          Ok (([[1; 2; 4]; [1; 2; 5]; [1; 3]]%Z, path), tree_heap small_tree).
Proof.
  destruct (printPreorder_same 3 small_tree (tree_heap small_tree)) as (_ & path & _ & Hrun);
    [simpl; lia|apply small_tree_heap|by exists path].
Defined.
Definition search_example : tree := Bin 0 (Bin 1 (leaf 2 4) 8 (leaf 3 12)) 20 (leaf 4 22).
Lemma lca_correct_witness :
  ∃ s, CommonAncestor.lca 3 (Some 0) 4 12 (tree_heap search_example) = Ok (root_ptr s, tree_heap search_example) ∧
       lowest_common s search_example 4 12.
Proof.
  apply (lca_correct 3 search_example 4 12); [simpl; lia| |by compute_done|by compute_done|].
  - cbn. repeat split; intros x; rewrite ?elem_of_cons ?elem_of_nil; naive_solver lia.
  - apply is_tree_heap. compute_done.
Defined.
Lemma reverseAlternate_twice_witness :
  ∃ t' h', ReverseBinaryTree.reverseAlternate 3 (Some 0) (tree_heap small_tree) = Ok (tt, h') ∧ is_tree t' h' ∧
           level_values false t' = [3; 2]%Z.
Proof.
  destruct (reverseAlternate_twice 3 small_tree (tree_heap small_tree)) as (t' & h' & Hrun & Ht' & Hv & _);
    [simpl; lia|apply small_tree_heap|by compute; lia|by exists t', h'].
Defined.
(** a chain of 202 nodes *)
Fixpoint chain (k : nat) : tree := match k with O => Nil | S k => Bin k (chain k) 0 Nil end.
Lemma chain_heap_ok : is_tree (chain 202) (tree_heap (chain 202)).
Proof. apply is_tree_heap. compute_done. Qed.
Lemma reverseAlternate_overflows_witness :
  ReverseBinaryTree.reverseAlternate 202 (Some 201) (tree_heap (chain 202)) = Fault OutOfBounds.
Proof.
  apply (reverseAlternate_overflows 202 (chain 202)); [by compute_done|apply chain_heap_ok|by compute_done].
Defined.
Definition letters : tree := Bin 0 (Bin 1 (leaf 2 99) 98 Nil) 97 (leaf 3 100).
Definition letters_left : tree := Bin 4 (leaf 5 99) 98 Nil.
Lemma isSubtree_correct_witness :
  ∃ b, BinarySubTree.isSubtree 3 (Some 0) (Some 4) (tree_heap letters ∪ tree_heap letters_left) =
         Ok (b, tree_heap letters ∪ tree_heap letters_left) ∧
       (b = true ↔ ∃ t', subtree t' letters ∧ same_tree t' letters_left).
Proof.
  apply (isSubtree_correct 3 letters letters_left); try by compute_done.
  - intros d. cbn. rewrite !elem_of_cons elem_of_nil. unfold BinarySubTree.dollar, BinarySubTree.nul. naive_solver lia.
  - intros d. cbn. rewrite !elem_of_cons elem_of_nil. unfold BinarySubTree.dollar, BinarySubTree.nul. naive_solver lia.
  - apply is_trees_heap. compute_done.
Defined.

(** ** The programs *)
Definition prints {A} (m : BinaryTree.prog A) : option A := match m ∅ with Ok (out, _) => Some out | _ => None end.
Example tree_programs :
  prints (minBinaryTreeHeight.FindBinaryTreeHeight 5) = Some 2%Z ∧
  prints (MaxBinaryTreeSumPath.FindMaxSumValue 5) = Some 42%Z ∧
  prints (FullBinaryTest.TestBinaryFullTree 5) = Some false ∧
  prints (SumLeftLeaves.main 5) =
    Some ([1; 2; 4; 8; 9; 5; 3; 6; 7; 10; 11], [8; 4; 9; 2; 5; 1; 6; 3; 10; 7; 11],
          [8; 9; 4; 5; 2; 6; 10; 11; 7; 3; 1], 24)%Z ∧
  prints (PathToLeafBinaryTree.main 5) =
    Some ([[1; 2; 4; 7]; [1; 3; 6; 8]; [1; 3; 6; 9]], [[1; 2; 4; 7]; [1; 3; 6; 8]; [1; 3; 6; 9]])%Z ∧
  prints (RemoveNodesOnRoot.main 5) = Some ([7; 4; 2; 5; 1; 3; 8; 6], [])%Z ∧
  prints (CommonAncestor.main 5) = Some [12; 8; 20]%Z ∧
  prints (BinarySubTree.main 5) = Some false.
Proof. vm_compute. split_and!; reflexivity. Qed.
(** levels that are not full are not reversed one by one: the values of the
    levels 1 and 3 of a chain change places *)
Example reverse_levels :
  prints (root ← build 97 [([], L, 98); ([L], L, 99); ([L; L], L, 100)]%Z;
          _ ← ReverseBinaryTree.reverseAlternate 4 root; SumLeftLeaves.printPreorder 4 root) =
  Some [97; 100; 99; 98]%Z.
Proof. reflexivity. Qed.
