(* ===== verification/Susp.v ===== *)
(** susp.c: suspending and resuming threads with the signals SIGUSR1 and SIGUSR2.

    Clients call [thd_suspend] and [thd_continue]; targets run [thread_routine]
    and the two signal handlers.  The signals of a target are pending flags (a
    second signal of the same number is not queued) that the kernel delivers when
    the target does not block them; the masks are those of the code.  One event is
    a step of a client, a step of a target, or a delivery. *)

From S2P Require Import Prelude Pthread Array.

Local Open Scope Z_scope.

(** ** Signals *)

Inductive sig := SIGUSR1 | SIGUSR2.
#[export] Instance sig_eq_dec : EqDecision sig.
Proof. solve_decision. Defined.

Definition sigset_t := sig → bool.
Definition sigemptyset : sigset_t := λ _, false.
Definition sigfillset : sigset_t := λ _, true.
Definition sigaddset (set : sigset_t) s : sigset_t := λ x, bool_decide (x = s) || set x.
Definition sigdelset (set : sigset_t) s : sigset_t := λ x, negb (bool_decide (x = s)) && set x.

(** where a target thread is *)
Inductive frame :=
  | Routine     (* in thread_routine *)
  | Entered     (* in suspend_signal_handler, before line 25 *)
  | Marked      (* sentinel is set, before line 26 *)
  | Suspended   (* in sigsuspend *)
  | Resumed     (* sigsuspend has returned, the handler has not *).

(** [sa_mask] of [sigusr1] (lines 48 and 49) *)
Definition sigusr1_mask : sigset_t := sigaddset sigemptyset SIGUSR2.
(** the argument of [sigsuspend] (lines 23 and 24) *)
Definition signal_set : sigset_t := sigdelset sigfillset SIGUSR2.

(** the signals that a target blocks; a handler blocks its own signal, too *)
Definition blocked (f : frame) : sigset_t :=
  match f with
  | Routine => sigemptyset
  | Entered | Marked | Resumed => sigaddset sigusr1_mask SIGUSR1
  | Suspended => signal_set
  end.

(** The last three members are for the statements: how many SIGUSR1 were sent,
    how many of them set [sentinel], and whether a SIGUSR2 was sent to the target
    in the handler. *)
Record target := Target {
  t_frame : frame;
  t_usr1 : bool;   (* SIGUSR1 is pending *)
  t_usr2 : bool;
  t_sent : nat;
  t_answered : nat;
  t_woken : bool
}.
Definition new_target : target := Target Routine false false 0 0 false.

Definition set_frame f tg := Target f (t_usr1 tg) (t_usr2 tg) (t_sent tg) (t_answered tg) (t_woken tg).
Definition pending (tg : target) s : bool :=
  match s with SIGUSR1 => t_usr1 tg | SIGUSR2 => t_usr2 tg end.
Definition in_handler (f : frame) : bool :=
  match f with Entered | Marked | Suspended => true | _ => false end.

(** ** The package *)

Inductive once_t := Never | Doing (t : tid) | Done.

Record susp_t := {
  s_array : option (list (option nat));   (* None: NULL; an entry None: no thread *)
  s_bottom : Z;
  s_inited : Z;
  s_sentinel : Z;
  s_mut : mutex;
  s_once : once_t;
  s_usr1 : bool;     (* the handler of SIGUSR1 is installed *)
  s_usr2 : bool
}.
Definition susp_init : susp_t :=
  {| s_array := None; s_bottom := 0; s_inited := 0; s_sentinel := 0; s_mut := None;
     s_once := Never; s_usr1 := false; s_usr2 := false |}.

Inductive call := CSuspend (target_thread : nat) | CContinue (target_thread : nat).
#[export] Instance call_eq_dec : EqDecision call.
Proof. solve_decision. Defined.
Definition of_call (k : call) : nat := match k with CSuspend x | CContinue x => x end.

Inductive pc :=
  | PIdle
  | POnce (k : call)                     (* lines 79, 141 *)
  | PInit (k : call)                     (* line 43 *)
  | PSig1 (k : call)                     (* line 55 *)
  | PSig2 (k : call)                     (* line 61 *)
  | PLock (k : call)                     (* lines 83, 145 *)
  | PKill (k : call) (i : Z)             (* lines 115, 157 *)
  | PWait (k : call) (i : Z)             (* line 124 *)
  | PUnlock (k : call) (result : option Z)
      (* the result that is returned; None: what pthread_mutex_unlock returns *).

Record sconf := SConf {
  c_susp : susp_t;
  c_clients : list pc;
  c_targets : list target;
  c_killed : bool;                       (* a signal without handler ended the process *)
  c_log : list (nat * call * Z)          (* what the calls have returned *)
}.
#[export] Instance sconf_eq_dec : EqDecision sconf.
Proof.
  assert (EqDecision frame) by solve_decision.
  assert (EqDecision once_t) by solve_decision.
  assert (EqDecision pc) by solve_decision.
  assert (EqDecision target) by solve_decision.
  assert (EqDecision susp_t) by solve_decision. solve_decision.
Defined.

Section updates.
Variable c : sconf.
Definition goto t p := SConf (c_susp c) (<[t := p]> (c_clients c)) (c_targets c) (c_killed c) (c_log c).
Definition upd f := SConf (f (c_susp c)) (c_clients c) (c_targets c) (c_killed c) (c_log c).
Definition set_target x tg := SConf (c_susp c) (c_clients c) (<[x := tg]> (c_targets c)) (c_killed c) (c_log c).
Definition kill_process := SConf (c_susp c) (c_clients c) (c_targets c) true (c_log c).
(** [return result]: the client can make its next call *)
Definition ret t k result := SConf (c_susp c) (<[t := PIdle]> (c_clients c)) (c_targets c) (c_killed c)
  (c_log c ++ [(t, k, result)]).
End updates.

Definition set_array a b s := {| s_array := a; s_bottom := b; s_inited := s_inited s;
  s_sentinel := s_sentinel s; s_mut := s_mut s; s_once := s_once s; s_usr1 := s_usr1 s; s_usr2 := s_usr2 s |}.
Definition set_sentinel v s := {| s_array := s_array s; s_bottom := s_bottom s; s_inited := s_inited s;
  s_sentinel := v; s_mut := s_mut s; s_once := s_once s; s_usr1 := s_usr1 s; s_usr2 := s_usr2 s |}.
Definition set_mut m s := {| s_array := s_array s; s_bottom := s_bottom s; s_inited := s_inited s;
  s_sentinel := s_sentinel s; s_mut := m; s_once := s_once s; s_usr1 := s_usr1 s; s_usr2 := s_usr2 s |}.
Definition set_once o n s := {| s_array := s_array s; s_bottom := s_bottom s; s_inited := n;
  s_sentinel := s_sentinel s; s_mut := s_mut s; s_once := o; s_usr1 := s_usr1 s; s_usr2 := s_usr2 s |}.
Definition set_handlers u1 u2 s := {| s_array := s_array s; s_bottom := s_bottom s; s_inited := s_inited s;
  s_sentinel := s_sentinel s; s_mut := s_mut s; s_once := s_once s; s_usr1 := u1; s_usr2 := u2 |}.

(** ** thd_suspend and thd_continue *)

(** [pthread_once(&once, suspend_init_routine)]: one client runs the routine, the
    others wait for it *)
Definition susp_once (t : tid) (k : call) (o : oracle) (c : sconf) : res sconf :=
  if negb (o_status o =? 0) then Ok (ret c t k (o_status o))
  else match s_once (c_susp c) with
  | Done => Ok (goto c t (PLock k))
  | Never => Ok (goto (upd c (set_once (Doing t) (s_inited (c_susp c)))) t (PInit k))
  | Doing _ => Blocked
  end.

(** [suspend_init_routine]; calloc may fail, and so may sigaction, which is only
    reported *)
Definition suspend_init_routine (t : tid) (p : pc) (o : oracle) (c : sconf) : res sconf :=
  match p with
  | PInit k =>
      let a := match o_alloc o with Some _ => Some (replicate 10 None) | None => None end in
      Ok (goto (upd c (set_array a 10)) t (PSig1 k))
  | PSig1 k =>
      let s := c_susp c in
      let installed := if o_status o =? -1 then s_usr1 s else true in
      Ok (goto (upd c (set_handlers installed (s_usr2 s))) t (PSig2 k))
  | PSig2 k =>
      let s := c_susp c in
      let installed := if o_status o =? -1 then s_usr2 s else true in
      Ok (goto (upd (upd c (set_handlers (s_usr1 s) installed)) (set_once Done 1)) t (PLock k))
  | _ => Blocked
  end.

(** [array[i]] *)
Definition entry (a : option (list (option nat))) (i : Z) : res (option nat) :=
  l ← of_option NullDeref a; get l i.
Definition set_entry (a : option (list (option nat))) (i : Z) v : res (option (list (option nat))) :=
  l ← of_option NullDeref a; l ← put l i v; Ok (Some l).

(** Lines 88-95: is the thread in the array?  [n] rounds are left. *)
Fixpoint listed_loop (n : nat) (a : option (list (option nat))) (i : Z) (x : nat) : res bool :=
  match n with
  | O => Ok false
  | S n => e ← entry a i; if bool_decide (e = Some x) then Ok true else listed_loop n a (i + 1) x
  end.
(** Lines 97-101: the first free entry *)
Fixpoint free_loop (n : nat) (a : option (list (option nat))) (i : Z) : res Z :=
  match n with
  | O => Ok i
  | S n => e ← entry a i; if bool_decide (e ≠ None) then free_loop n a (i + 1) else Ok i
  end.
(** Lines 149-150 *)
Fixpoint skip_loop (n : nat) (a : option (list (option nat))) (i : Z) (x : nat) : res Z :=
  match n with
  | O => Ok i
  | S n => e ← entry a i; if bool_decide (e = Some x) then skip_loop n a (i + 1) x else Ok i
  end.

(** Lines 88-114: the search of the array, under the mutex.  A realloc that
    succeeds is followed by a store behind the end of the array. *)
Definition thd_suspend_find (t : tid) (x : nat) (o : oracle) (c : sconf) : res sconf :=
  let s := c_susp c in
  let n := Z.to_nat (s_bottom s) in
  listed ← listed_loop n (s_array s) 0 x;
  if listed : bool then Ok (goto c t (PUnlock (CSuspend x) None))
  else
    i ← free_loop n (s_array s) 0;
    if i =? s_bottom s then
      match o_alloc o with
      | None => Ok (goto (upd c (set_array None (s_bottom s + 1))) t (PUnlock (CSuspend x) (Some ENOMEM)))
      | Some _ =>
          let array := (λ l, l ++ [None]) <$> s_array s in
          array ← set_entry array (s_bottom s + 1) None;
          Ok (goto (upd (upd c (set_array array (s_bottom s + 1))) (set_sentinel 0)) t (PKill (CSuspend x) i))
      end
    else Ok (goto (upd c (set_sentinel 0)) t (PKill (CSuspend x) i)).

(** Lines 149-155 *)
Definition thd_continue_find (t : tid) (x : nat) (c : sconf) : res sconf :=
  let s := c_susp c in
  i ← skip_loop (Z.to_nat (s_bottom s)) (s_array s) 0 x;
  if i =? s_bottom s then Ok (goto c t (PUnlock (CContinue x) (Some 0)))
  else Ok (goto c t (PKill (CContinue x) i)).

Definition susp_lock (t : tid) (k : call) (o : oracle) (c : sconf) : res sconf :=
  if negb (o_status o =? 0) then Ok (ret c t k (o_status o))
  else
    m ← mutex_lock t (s_mut (c_susp c));
    let c := upd c (set_mut m) in
    match k with CSuspend x => thd_suspend_find t x o c | CContinue x => thd_continue_find t x c end.

(** [pthread_kill]: the signal becomes pending *)
Definition send (s : sig) (tg : target) : target :=
  match s with
  | SIGUSR1 => Target (t_frame tg) true (t_usr2 tg) (S (t_sent tg)) (t_answered tg) (t_woken tg)
  | SIGUSR2 => Target (t_frame tg) (t_usr1 tg) true (t_sent tg) (t_answered tg)
                 (t_woken tg || in_handler (t_frame tg))
  end.

(** Lines 115-122 and 157-163 *)
Definition susp_kill (t : tid) (k : call) (i : Z) (o : oracle) (c : sconf) : res sconf :=
  if negb (o_status o =? 0) then Ok (goto c t (PUnlock k (Some (o_status o))))
  else
    let x := of_call k in
    tg ← of_option BadPointer (c_targets c !! x);
    match k with
    | CSuspend _ => Ok (goto (set_target c x (send SIGUSR1 tg)) t (PWait k i))
    | CContinue _ =>
        let c := set_target c x (send SIGUSR2 tg) in
        array ← set_entry (s_array (c_susp c)) i None;
        Ok (goto (upd c (set_array array (s_bottom (c_susp c)))) t (PUnlock k None))
    end.

(** Lines 124-127: [sched_yield] as long as [sentinel] is 0 *)
Definition susp_wait (t : tid) (k : call) (i : Z) (c : sconf) : res sconf :=
  if s_sentinel (c_susp c) =? 0 then Ok c
  else
    array ← set_entry (s_array (c_susp c)) i (Some (of_call k));
    Ok (goto (upd c (set_array array (s_bottom (c_susp c)))) t (PUnlock k None)).

Definition susp_unlock (t : tid) (k : call) (result : option Z) (o : oracle) (c : sconf) : res sconf :=
  c ← (if o_status o =? 0 then m ← mutex_unlock t (s_mut (c_susp c)); Ok (upd c (set_mut m)) else Ok c);
  Ok (ret c t k (default (o_status o) result)).

Definition client_step (t : tid) (p : pc) (o : oracle) (c : sconf) : res sconf :=
  match p with
  | PIdle => Blocked
  | POnce k => susp_once t k o c
  | PInit _ | PSig1 _ | PSig2 _ => suspend_init_routine t p o c
  | PLock k => susp_lock t k o c
  | PKill k i => susp_kill t k i o c
  | PWait k i => susp_wait t k i c
  | PUnlock k result => susp_unlock t k result o c
  end.

(** ** The targets *)

(** [suspend_signal_handler], and a round of [thread_routine]; in [sigsuspend] the
    thread does nothing *)
Definition target_step (x : nat) (tg : target) (c : sconf) : res sconf :=
  match t_frame tg with
  | Routine => Ok c
  | Entered =>
      Ok (set_target (upd c (set_sentinel 1)) x
            (Target Marked (t_usr1 tg) (t_usr2 tg) (t_sent tg) (S (t_answered tg)) (t_woken tg)))
  | Marked => Ok (set_target c x (set_frame Suspended tg))
  | Suspended => Blocked
  | Resumed => Ok (set_target c x (set_frame Routine tg))
  end.

(** the kernel delivers a pending signal; [resume_signal_hanlder] does nothing,
    but [sigsuspend] returns after it *)
Definition deliver (x : nat) (s : sig) (tg : target) (c : sconf) : res sconf :=
  if pending tg s && negb (blocked (t_frame tg) s) then
    match s with
    | SIGUSR1 =>
        if negb (s_usr1 (c_susp c)) then Ok (kill_process c)
        else Ok (set_target c x (Target Entered false (t_usr2 tg) (t_sent tg) (t_answered tg) (t_woken tg)))
    | SIGUSR2 =>
        if negb (s_usr2 (c_susp c)) then Ok (kill_process c)
        else
          let f := match t_frame tg with Suspended => Resumed | f => f end in
          let woken := match t_frame tg with Suspended => false | _ => t_woken tg end in
          Ok (set_target c x (Target f (t_usr1 tg) false (t_sent tg) (t_answered tg) woken))
    end
  else Blocked.

(** ** The machine *)

Inductive sevent :=
  | ECall (t : tid) (k : call)      (* an idle client calls a function *)
  | EClient (t : tid) (o : oracle)
  | ETarget (x : nat)
  | EDeliver (x : nat) (s : sig).

Definition sstep (c : sconf) (e : sevent) : res sconf :=
  if c_killed c then Blocked
  else match e with
  | ECall t k =>
      p ← choose (c_clients c !! t);
      match p with PIdle => Ok (goto c t (POnce k)) | _ => Blocked end
  | EClient t o => p ← choose (c_clients c !! t); client_step t p o c
  | ETarget x => tg ← choose (c_targets c !! x); target_step x tg c
  | EDeliver x s => tg ← choose (c_targets c !! x); deliver x s tg c
  end.
#[export] Instance susp_machine : Machine sconf sevent := sstep.

Definition susp_start (clients targets : nat) : sconf :=
  SConf susp_init (replicate clients PIdle) (replicate targets new_target) false [].

(** ** main

    One thread, suspended and continued once; a call that fails ends the program.
    The attributes and the creation of the detached thread are over. *)

Definition next_call (log : list (nat * call * Z)) : option call :=
  match log with
  | [] => Some (CSuspend 0)
  | [_] => Some (CContinue 0)
  | _ => None
  end.
Definition last_status (log : list (nat * call * Z)) : Z :=
  match last log with Some (_, _, s) => s | None => 0 end.

Definition main_step (c : sconf) (e : sevent) : res sconf :=
  match e with
  | ECall t k =>
      if negb (last_status (c_log c) =? 0) then Fault (Abort (last_status (c_log c)))
      else if bool_decide (next_call (c_log c) = Some k) then sstep c e else Blocked
  | _ => sstep c e
  end.
Definition main_start : sconf := susp_start 1 1.

(** ** thread_routine *)

(** The progress reports: the number of the thread and the round.  [n] rounds are
    left. *)
Fixpoint thread_routine_loop (n : nat) (number i : Z) : list (Z * Z) :=
  match n with
  | O => []
  | S n =>
      (if i `rem` 2000 =? 0 then [(number, i)] else []) ++ thread_routine_loop n number (i + 1)
  end.
Definition ITERATIONS : Z := 940000.
Definition thread_routine (number : Z) : list (Z * Z) :=
  thread_routine_loop (Z.to_nat ITERATIONS) number 1.
