(* ===== verification/SuspProps.v ===== *)
(** susp.c: the invariants of the machine of [Susp], and the steps that
    preserve them: the handshake through [sentinel], what holds when clients only
    suspend, and what holds of a target until it is continued. *)

From S2P Require Import Prelude Pthread Array Explore Susp.

Local Open Scope Z_scope.

(** ** Handshakes *)

(** the client is between its lock and its unlock *)
Definition holding (p : pc) : bool :=
  match p with PKill _ _ | PWait _ _ | PUnlock _ _ => true | _ => false end.
Definition waits_for (x : nat) (p : pc) : bool :=
  match p with PWait (CSuspend y) _ => bool_decide (x = y) | _ => false end.
Definition kills (p : pc) : bool := match p with PKill (CSuspend _) _ => true | _ => false end.
Definition is_entered (f : frame) : bool := match f with Entered => true | _ => false end.
(** SIGUSR1 was sent and has not set [sentinel] yet *)
Definition outstanding (tg : target) : bool := t_usr1 tg || is_entered (t_frame tg).

(** what holds of one target *)
Record target_ok (tg : target) : Prop := {
  tg_count : t_sent tg = (t_answered tg + Nat.b2n (outstanding tg))%nat;
  tg_once : t_usr1 tg = true → is_entered (t_frame tg) = false;
  tg_woken : t_woken tg = true → in_handler (t_frame tg) = true ∧ t_usr2 tg = true
}.

Record susp_ok (c : sconf) : Prop := {
  sp_mutex : mutex_ok holding (s_mut (c_susp c)) (c_clients c);
  sp_target : ∀ x tg, c_targets c !! x = Some tg → target_ok tg;
  sp_outstanding : ∀ x tg, c_targets c !! x = Some tg → outstanding tg = true →
    s_sentinel (c_susp c) = 0 ∧ ∃ t p, c_clients c !! t = Some p ∧ waits_for x p = true;
  sp_kill : ∀ t p, c_clients c !! t = Some p → kills p = true → s_sentinel (c_susp c) = 0
}.

Lemma susp_start_ok n m : susp_ok (susp_start n m).
Proof.
  split; simpl.
  - by apply mutex_ok_replicate.
  - intros x tg [-> _]%lookup_replicate_1. by split.
  - by intros x tg [-> _]%lookup_replicate_1.
  - by intros t p [-> _]%lookup_replicate_1.
Qed.

Lemma waits_holding x p : waits_for x p = true → holding p = true.
Proof. by destruct p. Qed.
Lemma kills_holding p : kills p = true → holding p = true.
Proof. by destruct p. Qed.
Lemma waits_kills x p : waits_for x p = true → kills p = true → False.
Proof. by destruct p. Qed.
Lemma waits_same x y p : waits_for x p = true → waits_for y p = true → x = y.
Proof.
  destruct p as [| | | | | | |[z|z] i|]; simpl; try done. rewrite !bool_decide_eq_true. congruence.
Qed.

Section preservation.
Implicit Types (c : sconf) (t : tid) (p q : pc) (x : nat) (tg : target) (o : oracle) (k : call).

(** a client moves on and the targets stay as they are *)
Lemma susp_ok_client c c' t p q :
  susp_ok c → c_clients c !! t = Some p → c_clients c' = <[t := q]> (c_clients c) →
  c_targets c' = c_targets c → mutex_ok holding (s_mut (c_susp c')) (<[t := q]> (c_clients c)) →
  (s_sentinel (c_susp c') = s_sentinel (c_susp c) ∨ s_sentinel (c_susp c') = 0) →
  (∀ x, waits_for x p = true → s_sentinel (c_susp c) ≠ 0) →
  (kills q = true → s_sentinel (c_susp c') = 0) → susp_ok c'.
Proof.
  intros [Hm Ht Ho Hk] Hp Hc Htg Hm' Hs Hw Hq. split; rewrite ?Hc, ?Htg; [done|done| |].
  - intros x tg Hx Hout. destruct (Ho x tg Hx Hout) as (Hs0 & u & r & Hu & Hr).
    split; [naive_solver congruence|]. exists u, r. split; [|done].
    rewrite list_lookup_insert_ne; [done|]. intros ->. by apply (Hw x); [congruence|].
  - intros u r [(-> & -> & _)|[Hne Hu]]%list_lookup_insert_Some Hr; [by apply Hq|].
    specialize (Hk u r Hu Hr). destruct Hs; congruence.
Qed.

(** a target changes without setting [sentinel] *)
Lemma susp_ok_target c x tg tg' :
  susp_ok c → c_targets c !! x = Some tg → target_ok tg' →
  (outstanding tg' = true → outstanding tg = true) → susp_ok (set_target c x tg').
Proof.
  intros [Hm Ht Ho Hk] Hx Htg' Hout. split; simpl; [done| | |done].
  - intros y tg1 [(-> & -> & _)|[Hne Hy]]%list_lookup_insert_Some; [done|by eapply Ht].
  - intros y tg1 [(-> & -> & _)|[Hne Hy]]%list_lookup_insert_Some Hout1; [by eapply Ho; eauto|by eapply Ho].
Qed.

(** a client that waits or kills has the mutex to itself *)
Lemma susp_ok_alone c x tg t p :
  susp_ok c → c_targets c !! x = Some tg → outstanding tg = true →
  c_clients c !! t = Some p → holding p = true → waits_for x p = true.
Proof.
  intros [Hm Ht Ho Hk] Hx Hout Hp Hh. destruct (Ho x tg Hx Hout) as (_ & u & r & Hu & Hr).
  pose proof (mutex_ok_unique _ _ _ _ _ _ _ Hm Hp Hu Hh (waits_holding _ _ Hr)) as ->. congruence.
Qed.
End preservation.

(** what a search of the array leaves: the client still holds the mutex *)
Definition found (t : tid) (c c' : sconf) : Prop :=
  ∃ q, c_clients c' = <[t := q]> (c_clients c) ∧ c_targets c' = c_targets c ∧
       s_mut (c_susp c') = s_mut (c_susp c) ∧ holding q = true ∧
       (s_sentinel (c_susp c') = s_sentinel (c_susp c) ∧ kills q = false ∨ s_sentinel (c_susp c') = 0).

Section steps.
Implicit Types (c : sconf) (t : tid) (p q : pc) (x : nat) (tg : target) (o : oracle) (k : call).

Lemma thd_suspend_find_found t x o c c' : thd_suspend_find t x o c = Ok c' → found t c c'.
Proof. unfold thd_suspend_find. intros Hs. step_cases; eexists; split_and!; try reflexivity; simpl; tauto. Qed.
Lemma thd_continue_find_found t x c c' : thd_continue_find t x c = Ok c' → found t c c'.
Proof. unfold thd_continue_find. intros Hs. step_cases; eexists; split_and!; try reflexivity; simpl; tauto. Qed.

(** the steps of a client that leave the targets and [sentinel] alone *)
Ltac client H Hp :=
  eapply (susp_ok_client _ _ _ _ _ H Hp); [reflexivity|reflexivity| | | |];
  [simpl; pose proof (sp_mutex _ H); solve_mutex_ok|simpl; tauto|simpl; try done|simpl; done].

Lemma susp_lock_ok c t k o c' :
  susp_ok c → c_clients c !! t = Some (PLock k) → susp_lock t k o c = Ok c' → susp_ok c'.
Proof.
  intros H Hp. unfold susp_lock. case_match; [intros [= <-]; client H Hp|].
  intros (m & [Hfree ->]%mutex_lock_Ok & Hs)%bind_Ok. pose proof (sp_mutex _ H) as Hm. rewrite Hfree in Hm.
  assert (found t (upd c (set_mut (Some t))) c') as (q & Hc & Ht & Hmut & Hq & Hsent).
  { destruct k; [by eapply thd_suspend_find_found|by eapply thd_continue_find_found]. }
  eapply (susp_ok_client _ _ _ _ _ H Hp); [done|done| | |done|].
  - rewrite Hmut. simpl. by apply mutex_ok_acquire.
  - simpl in Hsent. tauto.
  - intros Hk. destruct Hsent as [[_ Hq']|]; [congruence|done].
Qed.

(** a target to which a client that holds the mutex sends a signal *)
Lemma susp_kill_ok c t k i o c' :
  susp_ok c → c_clients c !! t = Some (PKill k i) → susp_kill t k i o c = Ok c' → susp_ok c'.
Proof.
  intros H Hp. unfold susp_kill. case_match; [intros [= <-]; client H Hp|].
  intros (tg & Hx%of_option_Ok & Hs)%bind_Ok.
  assert (outstanding tg = false) as Hout.
  { destruct (outstanding tg) eqn:Hout; [|done].
    by pose proof (susp_ok_alone _ _ _ _ _ H Hx Hout Hp eq_refl). }
  pose proof (sp_target _ H _ _ Hx) as Htg. destruct k as [x|x]; simpl in Hx.
  - injection Hs as <-. pose proof H as [Hm Ht Ho Hk].
    assert (t < length (c_clients c))%nat by by eapply lookup_lt_Some.
    split; simpl.
    + solve_mutex_ok.
    + intros y tg' [(<- & <- & _)|[Hne Hy]]%list_lookup_insert_Some; [|by eapply Ht].
      destruct Htg as [Hcount Honce Hwoken], tg as [f u1 u2 n m w]; unfold outstanding in *; simpl in *.
      apply orb_false_iff in Hout as [-> Hf]. rewrite Hf in Hcount. split; simpl; [unfold outstanding; simpl in *; lia|done|done].
    + intros y tg' [(<- & <- & _)|[Hne Hy]]%list_lookup_insert_Some Hout'.
      * split; [by eapply (Hk t)|]. exists t, (PWait (CSuspend x) i).
        rewrite list_lookup_insert_eq by done. split; [done|]. simpl. by rewrite bool_decide_true.
      * by pose proof (susp_ok_alone _ _ _ _ _ H Hy Hout' Hp eq_refl).
    + intros u r [(<- & <- & _)|[Hne Hu]]%list_lookup_insert_Some Hr; [done|by eapply Hk].
  - step_cases. pose proof (susp_ok_target c x tg (send SIGUSR2 tg) H Hx) as H'.
    eapply (susp_ok_client (set_target c x (send SIGUSR2 tg)) _ t (PKill (CContinue x) i)); try reflexivity; try done; simpl.
    + apply H'; [|done]. destruct Htg as [Hcount Honce Hwoken]; split; simpl; [done|done|].
      intros [Hw|Hw]%orb_true_iff; [|done]. split; [|done]. by apply Hwoken.
    + pose proof (sp_mutex _ H). solve_mutex_ok.
    + tauto.
Qed.

Lemma client_step_ok c t p o c' :
  susp_ok c → c_clients c !! t = Some p → client_step t p o c = Ok c' → susp_ok c'.
Proof.
  intros H Hp. destruct p as [|k|k|k|k|k|k i|k i|k r]; simpl; [done|..|]; intros Hs.
  - unfold susp_once in Hs. step_cases. all: client H Hp.
  - step_cases; client H Hp.
  - step_cases; client H Hp.
  - step_cases; client H Hp.
  - by eapply susp_lock_ok.
  - by eapply susp_kill_ok.
  - unfold susp_wait in Hs. case_match eqn:Hz; [by injection Hs as <-|]. apply Z.eqb_neq in Hz.
    step_cases. client H Hp.
  - unfold susp_unlock in Hs. apply bind_Ok in Hs as (c1 & Hu & Hs). injection Hs as <-.
    pose proof (sp_mutex _ H) as Hm. case_match; sync_inv; subst; [|client H Hp].
    match goal with E : s_mut _ = Some _ |- _ => rewrite E in Hm end. eapply (susp_ok_client _ _ _ _ _ H Hp); try reflexivity; simpl; try done; [|tauto].
    by eapply mutex_ok_release.
Qed.

Lemma target_step_ok c x tg c' :
  susp_ok c → c_targets c !! x = Some tg → target_step x tg c = Ok c' → susp_ok c'.
Proof.
  intros H Hx. unfold target_step. pose proof (sp_target _ H _ _ Hx) as [Hcount Honce Hwoken].
  destruct tg as [f u1 u2 n m w]. simpl in *. destruct f; intros Hs; try (injection Hs as <-).
  - done.
  - (* the handler sets sentinel *)
    assert (outstanding (Target Entered u1 u2 n m w) = true) as Hout by (unfold outstanding; simpl; by rewrite orb_true_r).
    pose proof H as [Hm Ht Ho Hk].
    assert (∀ t p, c_clients c !! t = Some p → holding p = true → waits_for x p = true) as Hone.
    { intros t p Hp Hh. by eapply susp_ok_alone. }
    assert (u1 = false) as -> by (destruct u1; naive_solver).
    split; simpl; [done| | |].
    + intros y tg' [(<- & <- & _)|[Hne Hy]]%list_lookup_insert_Some; [|by eapply Ht].
      unfold outstanding in *; simpl in *. split; simpl; [unfold outstanding; simpl; lia|done|naive_solver].
    + intros y tg' [(<- & <- & _)|[Hne Hy]]%list_lookup_insert_Some Hout'; [done|].
      destruct (Ho y tg' Hy Hout') as (_ & u & r & Hu & Hr). exfalso. apply Hne.
      eapply waits_same; [|exact Hr]. eapply Hone; [done|]. by eapply waits_holding.
    + intros u r Hu Hr. exfalso. eapply waits_kills; [|exact Hr]. eapply Hone; [done|by apply kills_holding].
  - eapply susp_ok_target; [done|done| |done]. by split.
  - done.
  - eapply susp_ok_target; [done|done| |done]. split; simpl; [done|done|]. intros Hw. by destruct (Hwoken Hw).
Qed.

Lemma deliver_ok c x s tg c' :
  susp_ok c → c_targets c !! x = Some tg → deliver x s tg c = Ok c' → susp_ok c'.
Proof.
  intros H Hx. unfold deliver. pose proof (sp_target _ H _ _ Hx) as [Hcount Honce Hwoken].
  case_match eqn:Hd; [|done]. apply andb_true_iff in Hd as [Hpend Hbl%negb_true_iff].
  assert (susp_ok (kill_process c)) by (destruct H; by split).
  destruct tg as [f u1 u2 n m w]; simpl in *. unfold outstanding in *; simpl in *.
  destruct s; simpl in *; subst; intros Hs; case_match; injection Hs as <-; try done.
  all: eapply susp_ok_target; [done|done| |unfold outstanding; simpl; destruct f; simpl; naive_solver].
  - destruct f; try done. split; simpl; [unfold outstanding; simpl in *; lia|done|naive_solver].
  - destruct f; try done; split; simpl in *; unfold outstanding; naive_solver.
Qed.

Lemma susp_ok_stable : stable susp_ok.
Proof.
  intros c e c' H. unfold mstep, susp_machine, sstep. destruct (c_killed c); [done|].
  destruct e as [t k|t o|x|x s]; intros (y & Hy%choose_Ok & Hs)%bind_Ok.
  - destruct y; try done. injection Hs as <-. client H Hy.
  - by eapply client_step_ok.
  - by eapply target_step_ok.
  - by eapply deliver_ok.
Qed.

Lemma susp_reachable_ok n m c : reachable (susp_start n m) c → susp_ok c.
Proof. apply invariant_run; [apply susp_start_ok|apply susp_ok_stable]. Qed.
End steps.

(** ** Suspending only

    Clients that call [thd_suspend] only, when nothing fails but [pthread_kill]:
    the package does what it means to do. *)

Definition only_suspend (c : sconf) (e : sevent) : bool :=
  match e with
  | ECall _ (CSuspend x) => (x <? length (c_targets c))%nat
  | ECall _ (CContinue _) => false
  | EClient t o =>
      match c_clients c !! t with
      | Some (PLock _ | PUnlock _ _) => o_status o =? 0
      | Some (PInit _) => bool_decide (o_alloc o ≠ None)
      | Some (PSig1 _ | PSig2 _) => negb (o_status o =? -1)
      | _ => true
      end
  | _ => true
  end.
Definition suspend_machine : Machine sconf sevent := restrict only_suspend.

(** what the signals make of a target: it runs, it was told to stop, it stopped *)
Inductive status := Idle | Asked | Stopped | Other.
#[export] Instance status_eq_dec : EqDecision status.
Proof. solve_decision. Defined.
Definition status_of (tg : target) : status :=
  match t_frame tg, t_usr1 tg, t_usr2 tg with
  | Routine, false, false => Idle
  | Routine, true, false | Entered, false, false => Asked
  | (Marked | Suspended), false, false => Stopped
  | _, _, _ => Other
  end.

Section suspending.
Implicit Types (c : sconf) (t : tid) (p q : pc) (x : nat) (tg : target) (o : oracle) (k : call)
  (l : list (option nat)).

Definition entries c : list (option nat) := default [] (s_array (c_susp c)).
Definition waited c x : Prop := ∃ t p, c_clients c !! t = Some p ∧ waits_for x p = true.
Definition ready c : Prop :=
  ∃ l, s_array (c_susp c) = Some l ∧ length l = 10%nat ∧ s_bottom (c_susp c) = 10 ∧
       s_usr1 (c_susp c) = true ∧ s_usr2 (c_susp c) = true.
Definition valid c k : Prop := match k with CSuspend x => (x < length (c_targets c))%nat | _ => False end.
(** the free entry that the client has found *)
Definition reserved c k (i : Z) : Prop :=
  valid c k ∧ 0 ≤ i ∧ entries c !! Z.to_nat i = Some None ∧ Some (of_call k) ∉ entries c.

Definition pc_ok c t p : Prop :=
  match p with
  | PIdle => True
  | POnce k => valid c k
  | PInit k => valid c k ∧ s_once (c_susp c) = Doing t
  | PSig1 k => valid c k ∧ s_once (c_susp c) = Doing t ∧
      s_array (c_susp c) = Some (replicate 10 None) ∧ s_bottom (c_susp c) = 10
  | PSig2 k => valid c k ∧ s_once (c_susp c) = Doing t ∧
      s_array (c_susp c) = Some (replicate 10 None) ∧ s_bottom (c_susp c) = 10 ∧ s_usr1 (c_susp c) = true
  | PLock k => valid c k ∧ s_once (c_susp c) = Done
  | PKill k i => s_once (c_susp c) = Done ∧ reserved c k i
  | PWait k i => s_once (c_susp c) = Done ∧ reserved c k i ∧
      ∃ tg, c_targets c !! of_call k = Some tg ∧
            (status_of tg = Asked ∨ status_of tg = Stopped ∧ s_sentinel (c_susp c) ≠ 0)
  | PUnlock k r => s_once (c_susp c) = Done ∧ valid c k ∧
      match r with None => Some (of_call k) ∈ entries c | Some r => r ≠ 0 end
  end.

Definition status_ok c x (s : status) : Prop :=
  match s with
  | Idle => Some x ∉ entries c
  | Asked => waited c x
  | Stopped => Some x ∈ entries c ∨ waited c x
  | Other => False
  end.

Record stops c : Prop := {
  st_pc : ∀ t p, c_clients c !! t = Some p → pc_ok c t p;
  st_target : ∀ x tg, c_targets c !! x = Some tg → status_ok c x (status_of tg);
  st_member : ∀ x, Some x ∈ entries c → ∃ tg, c_targets c !! x = Some tg ∧ status_of tg = Stopped;
  st_distinct : ∀ i j x, entries c !! i = Some (Some x) → entries c !! j = Some (Some x) → i = j;
  st_ready : s_once (c_susp c) = Done → ready c;
  st_early : s_once (c_susp c) ≠ Done → ∀ x, Some x ∉ entries c;
  st_log : ∀ t k, (t, k, 0) ∈ c_log c → ∃ x, k = CSuspend x ∧ Some x ∈ entries c;
  st_alive : c_killed c = false
}.

Lemma stops_start n m : stops (susp_start n m).
Proof.
  split; simpl; try done; try set_solver.
  - by intros t p [-> _]%lookup_replicate_1.
  - intros x tg [-> _]%lookup_replicate_1. simpl. set_solver.
Qed.

(** a client moves between states in which it does not wait; the array and the
    targets stay as they are *)
Lemma stops_client c c' t p q :
  stops c → c_clients c !! t = Some p → c_clients c' = <[t := q]> (c_clients c) →
  c_targets c' = c_targets c → c_killed c' = c_killed c →
  s_array (c_susp c') = s_array (c_susp c) → s_bottom (c_susp c') = s_bottom (c_susp c) →
  (s_once (c_susp c') = Done → ready c') → (s_once (c_susp c) = Done → s_once (c_susp c') = Done) →
  (s_once (c_susp c) = s_once (c_susp c') ∧ s_usr1 (c_susp c) = s_usr1 (c_susp c') ∨
   ∀ u, u ≠ t → s_once (c_susp c) ≠ Doing u) →
  (s_sentinel (c_susp c') = s_sentinel (c_susp c) ∨ ∀ x, ¬ waited c x) →
  (∀ x, waits_for x p = false) → pc_ok c' t q →
  (∀ u k, (u, k, 0) ∈ c_log c' → (u, k, 0) ∈ c_log c ∨ ∃ x, k = CSuspend x ∧ Some x ∈ entries c) →
  stops c'.
Proof.
  intros [Hpc Ht Hmem Hd Hr He Hl Ha] Hp Hc Htg Hkilled Harr Hbot Hready Hdone Honce Hsent Hw Hq Hlog.
  assert (entries c' = entries c) as Hent by (unfold entries; by rewrite Harr).
  assert (∀ x, waited c x → waited c' x) as Hwaited.
  { intros x (u & r & Hu & Hr'). exists u, r. rewrite Hc. split; [|done].
    rewrite list_lookup_insert_ne; [done|]. intros ->. pose proof (Hw x). congruence. }
  split; rewrite ?Hent, ?Htg; [| |done|done|done| | |congruence].
  - intros u r. rewrite Hc. intros [(<- & <- & _)|[Hne Hu]]%list_lookup_insert_Some; [done|].
    assert (s_once (c_susp c) = Doing u → s_once (c_susp c') = Doing u ∧ s_usr1 (c_susp c') = s_usr1 (c_susp c)) as Hdoing.
    { intros Ho. destruct Honce as [[]|Hn]; [split; congruence|by destruct (Hn u)]. }
    specialize (Hpc u r Hu). destruct r; unfold pc_ok, reserved, valid in *; rewrite ?Htg, ?Hent, ?Harr, ?Hbot.
    + done.
    + done.
    + destruct Hpc as [? [? ?]%Hdoing]. done.
    + destruct Hpc as (? & [? ?]%Hdoing & ? & ?). done.
    + destruct Hpc as (? & [? Hu1]%Hdoing & ? & ? & ?). rewrite Hu1. done.
    + destruct Hpc as [? ?%Hdone]. done.
    + destruct Hpc as [?%Hdone ?]. done.
    + destruct Hpc as (Hdo & Hres & tg & Hx & Hstat). split; [auto|]. split; [done|].
      exists tg. split; [done|]. destruct Hsent as [->|Hno]; [done|].
      destruct Hres as [Hv _]. destruct k as [x|x]; [|done]. exfalso. apply (Hno x). exists u. eexists. split; [done|].
      simpl. by rewrite bool_decide_true.
    + destruct Hpc as [?%Hdone ?]. done.
  - intros x tg Hx. specialize (Ht x tg Hx). destruct (status_of tg); simpl in *; rewrite ?Hent; naive_solver.
  - intros Hnd x Hx. apply (He ltac:(naive_solver) x). done.
  - intros u k Hu. destruct (Hlog u k Hu) as [Hu'|]; [by eapply Hl|done].
Qed.
End suspending.

Section find.
Implicit Types (l : list (option nat)) (x : nat).

Lemma entry_Ok l (i : nat) e : l !! i = Some e → entry (Some l) (Z.of_nat i) = Ok e.
Proof. intros He. unfold entry. simpl. by apply get_Ok. Qed.

Lemma listed_loop_Ok n l (i : nat) x :
  (i + n = length l)%nat → listed_loop n (Some l) (Z.of_nat i) x = Ok (bool_decide (Some x ∈ drop i l)).
Proof.
  revert i. induction n as [|n IH]; intros i Hi; simpl.
  - by rewrite drop_ge by lia.
  - destruct (lookup_lt_is_Some_2 l i) as [e He]; [lia|]. rewrite (entry_Ok _ _ _ He). simpl.
    rewrite (drop_S _ _ _ He). case_bool_decide as Hx.
    + rewrite bool_decide_true; [done|]. rewrite Hx. left.
    + replace (Z.of_nat i + 1)%Z with (Z.of_nat (S i)) by lia. rewrite IH by lia. f_equal.
      apply bool_decide_ext. rewrite elem_of_cons. naive_solver.
Qed.

(** the loop stops at the first free entry *)
Lemma free_loop_Ok n l (i : nat) :
  (i + n = length l)%nat → ∃ j : nat, free_loop n (Some l) (Z.of_nat i) = Ok (Z.of_nat j) ∧ (i ≤ j)%nat ∧
    (l !! j = Some None ∨ j = length l ∧ ∀ k, (i ≤ k < j)%nat → ∃ y, l !! k = Some (Some y)).
Proof.
  revert i. induction n as [|n IH]; intros i Hi; simpl.
  - exists i. split; [done|]. split; [lia|]. right. split; [lia|]. intros k Hk. lia.
  - destruct (lookup_lt_is_Some_2 l i) as [e He]; [lia|]. rewrite (entry_Ok _ _ _ He). simpl.
    destruct e as [y|]; simpl; [|by exists i; auto].
    replace (Z.of_nat i + 1)%Z with (Z.of_nat (S i)) by lia.
    destruct (IH (S i)) as (j & Hj & Hle & Hend); [lia|]. exists j. split; [done|]. split; [lia|].
    destruct Hend as [|[Hlen Hall]]; [by left|right]. split; [done|]. intros k Hk.
    destruct (decide (k = i)) as [->|]; [by exists y|]. apply Hall. lia.
Qed.

(** with at most as many threads as entries there is a free entry for one that is
    not listed *)
Lemma free_exists l m x :
  (m ≤ length l)%nat → (x < m)%nat → Some x ∉ l →
  (∀ y, Some y ∈ l → (y < m)%nat) →
  (∀ i j y, l !! i = Some (Some y) → l !! j = Some (Some y) → i = j) →
  ¬ (∀ k, (k < length l)%nat → ∃ y, l !! k = Some (Some y)).
Proof.
  intros Hm Hx Hnot Hval Hdist Hall.
  assert (∃ ys, l = Some <$> ys) as [ys ->].
  { clear -Hall. induction l as [|e l IH]; [by exists []|]. destruct (Hall 0%nat) as [y Hy]; [simpl; lia|].
    simpl in Hy. injection Hy as ->. destruct IH as [ys ->]; [|by exists (y :: ys)].
    intros k Hk. apply (Hall (S k)). simpl in *. lia. }
  rewrite length_fmap in Hm. assert (NoDup (x :: ys)) as Hnd.
  { constructor.
    - intros Hin. apply Hnot. apply list_elem_of_fmap. eauto.
    - apply NoDup_alt. intros i j y Hi Hj. apply (Hdist i j y); rewrite list_lookup_fmap; [by rewrite Hi|by rewrite Hj]. }
  assert (x :: ys ⊆+ seq 0 m) as Hsub%submseteq_length.
  { apply NoDup_submseteq; [done|]. intros y [->|Hy]%elem_of_cons; apply elem_of_seq; [lia|].
    enough (y < m)%nat by lia. apply Hval. apply list_elem_of_fmap. eauto. }
  rewrite length_seq in Hsub. simpl in Hsub. lia.
Qed.
End find.

Section suspending_steps.
Implicit Types (c : sconf) (t : tid) (p q : pc) (x : nat) (tg : target) (o : oracle) (k : call).

Lemma not_waited c t p :
  susp_ok c → c_clients c !! t = Some p → holding p = true → (∀ x, waits_for x p = false) →
  ∀ x, ¬ waited c x.
Proof.
  intros H Hp Hh Hw x (u & r & Hu & Hr).
  pose proof (mutex_ok_unique _ _ _ _ _ _ _ (sp_mutex _ H) Hp Hu Hh (waits_holding _ _ Hr)) as ->.
  specialize (Hw x). congruence.
Qed.
Lemma not_waited_free c : susp_ok c → s_mut (c_susp c) = None → ∀ x, ¬ waited c x.
Proof.
  intros H Hm x (u & r & Hu & Hr). pose proof (sp_mutex _ H _ _ Hu (waits_holding _ _ Hr)). congruence.
Qed.

(** nothing but the mutex and [sentinel] changes, and the client that moves holds
    the mutex *)
Ltac moves S Hp :=
  eapply (stops_client _ _ _ _ _ S Hp); try reflexivity; simpl; auto.

(** what the search of [thd_suspend] finds *)
Lemma thd_suspend_find_Ok c c1 t x o m :
  (length (c_targets c) ≤ 10)%nat → stops c → ready c → (x < length (c_targets c))%nat →
  c1 = upd c (set_mut m) →
  Some x ∈ entries c ∧ thd_suspend_find t x o c1 = Ok (goto c1 t (PUnlock (CSuspend x) None)) ∨
  (∃ j : nat, entries c !! j = Some None ∧ (Some x ∉ entries c) ∧
    thd_suspend_find t x o c1 = Ok (goto (upd c1 (set_sentinel 0)) t (PKill (CSuspend x) (Z.of_nat j)))).
Proof.
  intros Hten S (l & Hl & Hlen & Hbot & Hu1 & Hu2) Hv ->.
  assert (entries c = l) as Hent by (unfold entries; by rewrite Hl). rewrite Hent.
  unfold thd_suspend_find. simpl. rewrite Hl, Hbot. change (Z.to_nat 10) with 10%nat.
  pose proof (listed_loop_Ok 10 l 0 x ltac:(rewrite Hlen; lia)) as Hlist. change (Z.of_nat 0) with 0 in Hlist.
  rewrite Hlist. clear Hlist. cbn [mbind res_bind]. change (drop 0 l) with l.
  case_bool_decide as Hx; [by left|right].
  destruct (free_loop_Ok 10 l 0) as (j & Hj & _ & Hend); [by rewrite Hlen|]. change (Z.of_nat 0) with 0 in Hj.
  rewrite Hj. cbn [mbind res_bind]. destruct Hend as [Hend|[-> Hall]].
  - pose proof (lookup_lt_Some _ _ _ Hend). rewrite (proj2 (Z.eqb_neq _ _)) by lia. by exists j.
  - exfalso. apply (free_exists l (length (c_targets c)) x); [lia|done|done| | |].
    + intros y Hy. rewrite <- Hent in Hy. apply (st_member _ S) in Hy as (tg & Hy & _). by eapply lookup_lt_Some.
    + rewrite <- Hent. apply (st_distinct _ S).
    + intros i Hi. apply Hall. lia.
Qed.

Lemma stops_lock c t k o c' :
  (length (c_targets c) ≤ 10)%nat → susp_ok c → stops c → c_clients c !! t = Some (PLock k) →
  o_status o = 0 → susp_lock t k o c = Ok c' → stops c'.
Proof.
  intros Hten H S Hp Ho. unfold susp_lock. rewrite Ho. simpl.
  intros (m & [Hfree ->]%mutex_lock_Ok & Hs)%bind_Ok.
  pose proof (st_pc _ S t _ Hp) as [Hv Hdone]. simpl in Hv. destruct k as [x|]; [|done].
  assert (ready c) as Hrdy by by eapply st_ready.
  assert (∀ x, ¬ waited c x) as Hnw by by apply not_waited_free.
  destruct (thd_suspend_find_Ok c _ t x o (Some t) Hten S Hrdy Hv eq_refl) as [[Hx Hf]|(j & Hj & Hx & Hf)];
    rewrite Hf in Hs; injection Hs as <-; moves S Hp.
  split; [done|]. split; [done|]. split; [lia|]. rewrite Nat2Z.id. done.
Qed.
End suspending_steps.

Section suspending_steps2.
Implicit Types (c : sconf) (t : tid) (p q : pc) (x : nat) (tg : target) (o : oracle) (k : call).

(** the other clients, while one holds the mutex *)
Lemma pc_ok_other c c' t u p r :
  susp_ok c → stops c → c_clients c !! t = Some p → holding p = true → s_once (c_susp c) = Done →
  u ≠ t → c_clients c !! u = Some r → s_once (c_susp c') = Done →
  length (c_targets c') = length (c_targets c) → pc_ok c' u r.
Proof.
  intros H S Hp Hh Hd Hne Hu Hd' Hlen. pose proof (st_pc _ S u r Hu) as Hr.
  assert (holding r = false) as Hnh.
  { destruct (holding r) eqn:Hhr; [|done]. destruct Hne. exact (mutex_ok_unique _ _ _ _ _ _ _ (sp_mutex _ H) Hu Hp Hhr Hh). }
  destruct r; simpl in *; unfold valid in *; rewrite ?Hlen; try done; try (destruct Hr as (_ & Hr & _); congruence).
  - destruct Hr. congruence.
  - destruct Hr. done.
Qed.

Lemma waited_iff c t p :
  susp_ok c → c_clients c !! t = Some p → holding p = true → ∀ x, waited c x → waits_for x p = true.
Proof.
  intros H Hp Hh x (u & r & Hu & Hr).
  pose proof (mutex_ok_unique _ _ _ _ _ _ _ (sp_mutex _ H) Hp Hu Hh (waits_holding _ _ Hr)) as ->. congruence.
Qed.

Lemma stops_kill c t k i o c' :
  susp_ok c → stops c → c_clients c !! t = Some (PKill k i) → susp_kill t k i o c = Ok c' → stops c'.
Proof.
  intros H S Hp. pose proof (st_pc _ S t _ Hp) as (Hdone & Hres). pose proof Hres as (Hv & Hi & Hfree & Hnot).
  assert (∀ x, ¬ waited c x) as Hnw by by apply (not_waited c t _ H Hp).
  unfold susp_kill. case_match eqn:Ho.
  { intros [= <-]. apply negb_true_iff, Z.eqb_neq in Ho.
    eapply (stops_client _ _ _ _ _ S Hp); try reflexivity; simpl; auto. by eapply st_ready. }
  intros (tg & Hx%of_option_Ok & Hs)%bind_Ok. destruct k as [x|]; [|done]. cbn [of_call valid] in *.
  assert (goto (set_target c x (send SIGUSR1 tg)) t (PWait (CSuspend x) i) = c') as <- by congruence. clear Hs.
  assert (status_of tg = Idle) as Hst.
  { pose proof (st_target _ S _ _ Hx) as Hst. destruct (status_of tg); simpl in Hst; try done.
    - by destruct (Hnw x).
    - destruct Hst; [done|by destruct (Hnw x)]. }
  assert (status_of (send SIGUSR1 tg) = Asked) as Hst'.
  { destruct tg as [f u1 u2 n m w]; unfold status_of in *; simpl in *. by destruct f, u1, u2. }
  generalize dependent (send SIGUSR1 tg). intros tg2 Hst'.
  assert (t < length (c_clients c))%nat by by eapply lookup_lt_Some.
  pose proof S as [Hpc Ht Hmem Hd Hr He Hl Ha].
  split; simpl; try done.
  - intros u r [(<- & <- & _)|[Hne Hu]]%list_lookup_insert_Some.
    + split; [done|]. split.
      * unfold reserved, valid. simpl. rewrite length_insert. done.
      * exists tg2. split; [by apply list_lookup_insert_eq|by left].
    + apply (pc_ok_other c _ t u _ r H S Hp eq_refl Hdone (not_eq_sym Hne) Hu); [done|]. simpl. by rewrite length_insert.
  - assert (waited (goto (set_target c x tg2) t (PWait (CSuspend x) i)) x) as Hw.
    { exists t, (PWait (CSuspend x) i). simpl. rewrite list_lookup_insert_eq by done. by rewrite bool_decide_true. }
    intros y tg' [(<- & <- & _)|[Hne Hy]]%list_lookup_insert_Some; [by rewrite Hst'|].
    specialize (Ht y tg' Hy). destruct (status_of tg'); simpl in *; [done| |left|done].
    + by destruct (Hnw y).
    + destruct Ht as [|Hw']; [done|by destruct (Hnw y)].
  - intros y Hy. destruct (Hmem y Hy) as (tg' & Hy' & Hst1). exists tg'.
    rewrite list_lookup_insert_ne; [done|]. congruence.
Qed.

Lemma set_entry_Ok l i v a : set_entry (Some l) i v = Ok a ↔ 0 ≤ i < Z.of_nat (length l) ∧ a = Some (<[Z.to_nat i := v]> l).
Proof.
  unfold set_entry, put. simpl. case_bool_decide; simpl; [|naive_solver].
  split; [intros [= <-]; done|intros [_ ->]; done].
Qed.

Lemma stops_wait c t k i c' :
  susp_ok c → stops c → c_clients c !! t = Some (PWait k i) → susp_wait t k i c = Ok c' → stops c'.
Proof.
  intros H S Hp. pose proof (st_pc _ S t _ Hp) as (Hdone & Hres & tg & Hx & Hst). pose proof Hres as (Hv & Hi & Hfree & Hnot).
  pose proof (st_ready _ S Hdone) as (l & Hl & Hlen & Hbot & Hu1 & Hu2).
  unfold susp_wait. case_match eqn:Hz; [by intros [= <-]|]. apply Z.eqb_neq in Hz. rewrite Hl.
  destruct k as [x|]; [|done]. simpl in Hv, Hx, Hnot.
  intros (a & [Hbound ->]%set_entry_Ok & Hs)%bind_Ok. injection Hs as <-.
  assert (status_of tg = Stopped) as Hstop.
  { destruct Hst as [Hst|[]]; [|done].
    destruct (sp_outstanding _ H x tg Hx) as [? _]; [|done].
    unfold status_of, outstanding in *. destruct tg as [[] [] [] ? ? ?]; simpl in *; done. }
  assert (entries c = l) as Hent by (unfold entries; by rewrite Hl). rewrite Hent in *.
  pose proof (waited_iff _ _ _ H Hp eq_refl) as Hwt. simpl in Hwt.
  pose proof S as [Hpc Ht Hmem Hd Hr He Hlog Ha]. rewrite ?Hent in *.
  set (l' := <[Z.to_nat i := Some x]> l).
  assert (∀ y, Some y ∈ l' ↔ y = x ∨ Some y ∈ l) as Hl'.
  { intros y. unfold l'. split.
    - intros (j & [(<- & [= ->] & _)|[Hne Hj]]%list_lookup_insert_Some)%list_elem_of_lookup; [by left|right].
      apply list_elem_of_lookup. eauto.
    - intros [->|(j & Hj)%list_elem_of_lookup]; apply list_elem_of_lookup.
      + exists (Z.to_nat i). rewrite list_lookup_insert_eq by lia. done.
      + exists j. rewrite list_lookup_insert_ne; [done|]. congruence. }
  split; simpl; try (rewrite <- ?Hdone; done).
  - intros u r [(<- & <- & _)|[Hne Hu]]%list_lookup_insert_Some.
    + split_and!; [done|done|]. unfold entries. simpl. apply Hl'. by left.
    + by apply (pc_ok_other c _ t u _ r H S Hp eq_refl Hdone (not_eq_sym Hne) Hu).
  - unfold entries, waited, status_ok. simpl. fold l'. intros y tg' Hy. specialize (Ht y tg' Hy).
    unfold status_ok in Ht. destruct (decide (y = x)) as [->|Hne].
    { assert (tg' = tg) as -> by congruence. rewrite Hstop. left. apply Hl'. by left. }
    assert (¬ waited c y) as Hnw.
    { intros Hw%Hwt. apply bool_decide_eq_true in Hw. congruence. }
    destruct (status_of tg'); [|done| |done]; rewrite Hent in Ht.
    + rewrite Hl'. naive_solver.
    + left. rewrite Hl'. naive_solver.
  - unfold entries. simpl. fold l'. intros y [->|Hy]%Hl'; [by exists tg|by apply Hmem].
  - unfold entries. simpl. fold l'. intros j j' y Hj Hj'. unfold l' in *.
    apply list_lookup_insert_Some in Hj as [(<- & [= ->] & _)|[Hne Hj]];
      apply list_lookup_insert_Some in Hj' as [(<- & Heq & _)|[Hne' Hj']]; [done| | |by eapply Hd].
    + destruct Hnot. apply list_elem_of_lookup. eauto.
    + injection Heq as ->. destruct Hnot. apply list_elem_of_lookup. eauto.
  - intros _. exists l'. unfold l'. rewrite length_insert. done.
  - intros u k Hu. destruct (Hlog u k Hu) as (y & -> & Hy). exists y. split; [done|]. unfold entries. simpl.
    apply Hl'. by right.
Qed.

Lemma stops_unlock c t k r o c' :
  susp_ok c → stops c → c_clients c !! t = Some (PUnlock k r) → o_status o = 0 →
  susp_unlock t k r o c = Ok c' → stops c'.
Proof.
  intros H S Hp Ho. unfold susp_unlock. rewrite Ho. simpl. intros Hs. sync_inv. subst.
  pose proof (st_pc _ S t _ Hp) as (Hdone & Hv & Hr).
  assert (∀ x, ¬ waited c x) as Hnw by by apply (not_waited c t _ H Hp).
  eapply (stops_client _ _ _ _ _ S Hp); try reflexivity; simpl; auto; [by eapply st_ready|].
  intros u k' [Hu|Hu%list_elem_of_singleton]%elem_of_app; [by left|]. injection Hu as -> -> Hz.
  destruct r as [r|]; simpl in Hz; [congruence|]. right. destruct k as [x|]; [|done]. by exists x.
Qed.
End suspending_steps2.

Section suspending_stable.
Implicit Types (c : sconf) (t : tid) (p q : pc) (x : nat) (tg : target) (o : oracle) (k : call).

(** the first step of the initialisation: nothing is listed yet *)
Lemma stops_init c t k a :
  susp_ok c → stops c → c_clients c !! t = Some (PInit k) → a = Some (replicate 10 None) →
  stops (goto (upd c (set_array a 10)) t (PSig1 k)).
Proof.
  intros H S Hp ->. pose proof (st_pc _ S t _ Hp) as [Hv Hdo]. pose proof S as [Hpc Ht Hmem Hd Hr He Hl Ha].
  assert (s_once (c_susp c) ≠ Done) as Hnd by congruence. specialize (He Hnd).
  assert (∀ x, Some x ∉ replicate 10 (None : option nat)) as Hnone.
  { intros x [? _]%elem_of_replicate. done. }
  assert (∀ x, waited c x → waited (goto (upd c (set_array (Some (replicate 10 None)) 10)) t (PSig1 k)) x) as Hw.
  { intros x (u & r & Hu & Hr'). exists u, r. simpl. rewrite list_lookup_insert_ne; [done|]. intros ->.
    rewrite Hp in Hu. injection Hu as <-. done. }
  split; simpl; try done.
  - intros u r [(<- & <- & _)|[Hne Hu]]%list_lookup_insert_Some; [done|].
    specialize (Hpc u r Hu). destruct r; simpl in *; try done.
    all: try (destruct Hpc as (_ & Ho & _); congruence); try (destruct Hpc as [_ Ho]; congruence).
    all: destruct Hpc as [Ho _]; congruence.
  - intros x tg Hx. specialize (Ht x tg Hx). destruct (status_of tg); simpl in *; [done|by apply Hw| |done].
    destruct Ht as [Hin|]; [by destruct (He x)|]. right. by apply Hw.
  - intros x Hx. by destruct (Hnone x).
  - intros i j x Hi. destruct (Hnone x). apply list_elem_of_lookup. by exists i.
  - intros u k' Hu. destruct (Hl u k' Hu) as (x & _ & Hx). by destruct (He x).
Qed.

Lemma stops_client_step c t p o c' :
  (length (c_targets c) ≤ 10)%nat → susp_ok c → stops c → c_clients c !! t = Some p →
  only_suspend c (EClient t o) = true → client_step t p o c = Ok c' → stops c'.
Proof.
  intros Hten H S Hp Hok. simpl in Hok. rewrite Hp in Hok. pose proof (st_pc _ S t _ Hp) as Hpc.
  assert (s_once (c_susp c) = Done → ready c) as Hready by apply (st_ready _ S).
  destruct p as [|k|k|k|k|k|k i|k i|k r]; simpl; [done|..|]; intros Hs; simpl in Hpc.
  - unfold susp_once in Hs. case_match eqn:Ho; [|case_match eqn:Hd; [| |]]; try done; injection Hs as <-.
    + apply negb_true_iff, Z.eqb_neq in Ho.
      eapply (stops_client _ _ _ _ _ S Hp); try reflexivity; simpl; auto.
      intros u k' [Hu|Hu%list_elem_of_singleton]%elem_of_app; [by left|]. injection Hu as -> -> Hz. congruence.
    + eapply (stops_client _ _ _ _ _ S Hp); try reflexivity; simpl; auto; try done; try congruence.
      right. intros u _. congruence.
    + eapply (stops_client _ _ _ _ _ S Hp); try reflexivity; simpl; auto.
  - injection Hs as <-. apply bool_decide_eq_true in Hok. destruct (o_alloc o); [|done].
    by apply stops_init.
  - destruct Hpc as (Hv & Hdo & Harr & Hbot). apply negb_true_iff in Hok. rewrite Hok in Hs. injection Hs as <-.
    eapply (stops_client _ _ _ _ _ S Hp); try reflexivity; simpl; auto; try congruence.
    right. intros u Hne. congruence.
  - destruct Hpc as (Hv & Hdo & Harr & Hbot & Hu1). apply negb_true_iff in Hok. rewrite Hok in Hs. injection Hs as <-.
    eapply (stops_client _ _ _ _ _ S Hp); try reflexivity; simpl; auto; try congruence.
    + intros _. exists (replicate 10 None). done.
    + right. intros u Hne. congruence.
  - apply Z.eqb_eq in Hok. by eapply stops_lock.
  - by eapply stops_kill.
  - by eapply stops_wait.
  - apply Z.eqb_eq in Hok. by eapply stops_unlock.
Qed.

(** a target moves within its status, or stops *)
Lemma stops_target c s x tg tg' :
  stops c → c_targets c !! x = Some tg →
  (status_of tg' = status_of tg ∧ s = s_sentinel (c_susp c) ∨
   status_of tg = Asked ∧ status_of tg' = Stopped ∧ s = 1) →
  stops (set_target (upd c (set_sentinel s)) x tg').
Proof.
  intros S Hx Hst. pose proof S as [Hpc Ht Hmem Hd Hr He Hl Ha].
  assert (x < length (c_targets c))%nat as Hlt by by eapply lookup_lt_Some.
  split; simpl; try done.
  - intros u r Hu. specialize (Hpc u r Hu). destruct r; simpl in *; unfold reserved, valid in *; simpl;
      rewrite ?length_insert; try done.
    destruct Hpc as (Hdone & Hres & tg1 & Hx1 & Hst1). split; [done|]. split; [done|].
    destruct (decide (of_call k = x)) as [He1|Hne].
    + rewrite He1 in *. exists tg'. rewrite list_lookup_insert_eq by done. split; [done|].
      assert (tg1 = tg) as -> by congruence. destruct Hst as [[-> ->]|(_ & -> & ->)]; [done|]. by right.
    + exists tg1. rewrite list_lookup_insert_ne by done. split; [done|].
      destruct Hst1 as [|[Hs1 Hs2]]; [by left|right]. split; [done|]. destruct Hst as [[_ ->]|(_ & _ & ->)]; done.
  - unfold status_ok, waited, entries in *. simpl.
    intros y tg1 [(<- & <- & _)|[Hne Hy]]%list_lookup_insert_Some; [|by apply (Ht y)].
    specialize (Ht x tg Hx). destruct Hst as [[-> _]|(Ho & -> & _)]; [done|]. rewrite Ho in Ht. by right.
  - unfold entries in *. simpl. intros y Hy. destruct (Hmem y Hy) as (tg1 & Hy1 & Hs1).
    destruct (decide (y = x)) as [->|Hne].
    + exists tg'. rewrite list_lookup_insert_eq by done. split; [done|].
      assert (tg1 = tg) as -> by congruence. destruct Hst as [[-> _]|(_ & -> & _)]; done.
    + exists tg1. by rewrite list_lookup_insert_ne.
Qed.

Lemma set_same c x tg' :
  set_target (upd c (set_sentinel (s_sentinel (c_susp c)))) x tg' = set_target c x tg'.
Proof. destruct c as [[] ? ? ? ?]. done. Qed.

Lemma stops_stable c e c' :
  (length (c_targets c) ≤ 10)%nat → susp_ok c → stops c → only_suspend c e = true →
  mstep c e = Ok c' → stops c'.
Proof.
  intros Hten H S Hok. unfold mstep, susp_machine, sstep. rewrite (st_alive _ S).
  destruct e as [t k|t o|x|x s]; intros (y & Hy%choose_Ok & Hs)%bind_Ok.
  - destruct y; try done. injection Hs as <-. destruct k as [x|]; [|done]. simpl in Hok.
    eapply (stops_client _ _ _ _ _ S Hy); try reflexivity; simpl; auto.
    + by apply (st_ready _ S).
    + by apply Nat.ltb_lt.
  - by eapply stops_client_step.
  - pose proof (st_target _ S x y Hy) as Hst. unfold target_step in Hs.
    destruct y as [f u1 u2 n m w]; simpl in *. destruct f; try done; injection Hs as <-.
    + done.
    + eapply stops_target; [done|done|]. right. unfold status_of in *. simpl in *. by destruct u1, u2.
    + rewrite <- set_same. eapply stops_target; [done|done|]. left. done.
  - pose proof (st_target _ S x y Hy) as Hst. unfold deliver in Hs.
    case_match eqn:Hd; [|done]. apply andb_true_iff in Hd as [Hpend Hbl%negb_true_iff].
    destruct y as [f u1 u2 n m w]; simpl in *. destruct s; simpl in *; subst; [|by destruct f, u1].
    destruct f; try done. destruct u2; try done. simpl in Hst.
    assert (s_usr1 (c_susp c) = true) as Hu1.
    { destruct Hst as (t & p & Hp & Hw). pose proof (st_pc _ S t p Hp) as Hpc.
      destruct p; try done. destruct Hpc as [Hdone _]. by destruct (st_ready _ S Hdone) as (l & _ & _ & _ & ? & _). }
    rewrite Hu1 in Hs. injection Hs as <-. rewrite <- set_same. eapply stops_target; [done|done|]. by left.
Qed.
End suspending_stable.

(** ** The contract of [thd_suspend] *)

Section contract.
Implicit Types (c : sconf) (t : tid) (p q : pc) (x : nat) (tg : target) (o : oracle) (k : call).

Lemma mstep_targets c e c' : mstep c e = Ok c' → length (c_targets c') = length (c_targets c).
Proof.
  unfold mstep, susp_machine, sstep. destruct (c_killed c); [done|].
  destruct e as [t k|t o|x|x s]; intros (y & Hy%choose_Ok & Hs)%bind_Ok.
  - destruct y; try done. by injection Hs as <-.
  - destruct y as [|k|k|k|k|k|k i|k i|k r]; simpl in Hs; try done.
    + unfold susp_once in Hs. by step_cases.
    + by step_cases.
    + by step_cases.
    + by step_cases.
    + unfold susp_lock in Hs. case_match; [by injection Hs as <-|].
      apply bind_Ok in Hs as (m & _ & Hs). destruct k.
      * apply thd_suspend_find_found in Hs as (q & _ & -> & _). done.
      * apply thd_continue_find_found in Hs as (q & _ & -> & _). done.
    + unfold susp_kill in Hs. case_match; [by injection Hs as <-|].
      apply bind_Ok in Hs as (tg & _ & Hs). destruct k; [injection Hs as <-|step_cases]; simpl; apply length_insert.
    + unfold susp_wait in Hs. by step_cases.
    + unfold susp_unlock in Hs. apply bind_Ok in Hs as (c1 & Hu & Hs). injection Hs as <-. simpl.
      case_match; sync_inv; by subst.
  - unfold target_step in Hs. destruct (t_frame y); try done; injection Hs as <-; simpl; by rewrite ?length_insert.
  - unfold deliver in Hs. step_cases; by rewrite ?length_insert.
Qed.

Definition suspended_ok m c : Prop := length (c_targets c) = m ∧ susp_ok c ∧ stops c.

Lemma suspended_reachable n m c :
  (m ≤ 10)%nat → reachable (M := suspend_machine) (susp_start n m) c → suspended_ok m c.
Proof.
  intros Hm. apply (invariant_run (M := suspend_machine) (suspended_ok m)).
  - split; [apply length_replicate|]. split; [apply susp_start_ok|apply stops_start].
  - intros c1 e c2 (Hlen & H & S) Hs. apply restrict_Ok in Hs as [Hok Hs].
    split; [by rewrite (mstep_targets _ _ _ Hs)|]. split; [by eapply susp_ok_stable|].
    apply (stops_stable c1 e); [lia|done..].
Qed.

Lemma stops_safe c e f :
  (length (c_targets c) ≤ 10)%nat → susp_ok c → stops c → only_suspend c e = true → mstep c e ≠ Fault f.
Proof.
  intros Hten H S Hok. unfold mstep, susp_machine, sstep. rewrite (st_alive _ S).
  destruct e as [t k|t o|x|x s]; intros [Hf|(y & Hy%choose_Ok & Hs)]%bind_Fault; try by apply choose_Fault in Hf.
  - by destruct y.
  - simpl in Hok. rewrite Hy in Hok. pose proof (st_pc _ S t _ Hy) as Hpc.
    destruct y as [|k|k|k|k|k|k i|k i|k r]; simpl in Hs, Hpc; try done.
    + unfold susp_once in Hs. repeat case_match; done.
    + unfold susp_lock in Hs. apply Z.eqb_eq in Hok. rewrite Hok in Hs. simpl in Hs.
      destruct Hpc as [Hv Hdone]. destruct k as [x|]; [|done]. simpl in Hv.
      apply bind_Fault in Hs as [Hs|(m & _ & Hs)]; [by destruct (s_mut (c_susp c))|].
      destruct (thd_suspend_find_Ok c _ t x o m Hten S (st_ready _ S Hdone) Hv eq_refl) as [[_ Hf]|(j & _ & _ & Hf)]; congruence.
    + unfold susp_kill in Hs. case_match; [done|]. destruct Hpc as (_ & Hv & _). destruct k as [x|]; [|done].
      simpl in *. destruct (lookup_lt_is_Some_2 _ _ Hv) as [tg Htg]. rewrite Htg in Hs. done.
    + unfold susp_wait in Hs. case_match; [done|]. destruct Hpc as (Hdone & (Hv & Hi & Hfree & _) & _).
      destruct (st_ready _ S Hdone) as (l & Hl & Hlen & _). unfold entries in Hfree. rewrite Hl in *. simpl in Hfree.
      apply lookup_lt_Some in Hfree. unfold set_entry, put in Hs. simpl in Hs.
      rewrite bool_decide_true in Hs by lia. done.
    + unfold susp_unlock in Hs. apply Z.eqb_eq in Hok. rewrite Hok in Hs. simpl in Hs.
      unfold mutex_unlock in Hs. rewrite (sp_mutex _ H t _ Hy eq_refl), bool_decide_true in Hs; done.
  - unfold target_step in Hs. by destruct (t_frame y).
  - unfold deliver in Hs. repeat case_match; done.
Qed.

Lemma suspend_step c e c' :
  only_suspend c e = true → mstep c e = Ok c' → reachable (M := suspend_machine) c c'.
Proof.
  intros Hok Hs. exists [e]. simpl. unfold mstep at 1, suspend_machine, restrict. rewrite Hok, Hs. done.
Qed.
Lemma client_event c t p o c' :
  c_killed c = false → c_clients c !! t = Some p → client_step t p o c = Ok c' → mstep c (EClient t o) = Ok c'.
Proof. intros Hk Hp Hs. unfold mstep, susp_machine, sstep. by rewrite Hk, Hp. Qed.

(** a waiting client returns once the target has stopped *)
Lemma waiting_returns c t x i :
  susp_ok c → stops c → c_clients c !! t = Some (PWait (CSuspend x) i) → s_sentinel (c_susp c) ≠ 0 →
  ∃ c', reachable (M := suspend_machine) c c' ∧ (t, CSuspend x, 0) ∈ c_log c'.
Proof.
  intros H S Hp Hz. pose proof (st_pc _ S t _ Hp) as (Hdone & (Hv & Hi & Hfree & _) & _).
  destruct (st_ready _ S Hdone) as (l & Hl & Hlen & _). unfold entries in Hfree. rewrite Hl in Hfree. simpl in Hfree.
  apply lookup_lt_Some in Hfree. assert (t < length (c_clients c))%nat as Ht by by eapply lookup_lt_Some.
  pose proof (sp_mutex _ H t _ Hp eq_refl) as Hm. pose proof (st_alive _ S) as Hk.
  set (c1 := goto (upd c (set_array (Some (<[Z.to_nat i := Some x]> l)) (s_bottom (c_susp c)))) t (PUnlock (CSuspend x) None)).
  assert (reachable (M := suspend_machine) c c1) as Hr1.
  { apply (suspend_step c (EClient t ok)); [simpl; by rewrite Hp|].
    apply (client_event c t _ ok c1 Hk Hp). simpl. unfold susp_wait. rewrite (proj2 (Z.eqb_neq _ _)) by done.
    rewrite Hl. cbn [of_call]. rewrite (proj2 (set_entry_Ok l i (Some x) _)) by (split; [lia|reflexivity]). done. }
  assert (c_clients c1 !! t = Some (PUnlock (CSuspend x) None)) as Hp1 by (simpl; by apply list_lookup_insert_eq).
  eexists. split.
  - eapply reachable_trans; [exact Hr1|]. apply (suspend_step c1 (EClient t ok)); [simpl; by rewrite list_lookup_insert_eq|].
    apply (client_event c1 t _ ok _ Hk Hp1). simpl. unfold susp_unlock. simpl. rewrite Hm. unfold mutex_unlock.
    rewrite bool_decide_true by done. reflexivity.
  - simpl. rewrite elem_of_app. right. by left.
Qed.

Lemma target_reachable c x tg e c' :
  c_killed c = false → c_targets c !! x = Some tg →
  (e = ETarget x ∧ target_step x tg c = Ok c' ∨ ∃ s, e = EDeliver x s ∧ deliver x s tg c = Ok c') →
  reachable (M := suspend_machine) c c'.
Proof.
  intros Hk Hx Hs. apply (suspend_step c e).
  - by destruct Hs as [[-> _]|(s & -> & _)].
  - unfold mstep, susp_machine, sstep. rewrite Hk. by destruct Hs as [[-> Hs]|(s & -> & Hs)]; rewrite Hx.
Qed.

(** the target answers and the client returns *)
Lemma suspend_can_return c t x i :
  susp_ok c → stops c → c_clients c !! t = Some (PWait (CSuspend x) i) →
  (length (c_targets c) ≤ 10)%nat →
  ∃ c', reachable (M := suspend_machine) c c' ∧ (t, CSuspend x, 0) ∈ c_log c'.
Proof.
  intros H S Hp Hten. pose proof (st_pc _ S t _ Hp) as (Hdone & Hres & tg & Hx & Hst). simpl in Hx.
  destruct (st_ready _ S Hdone) as (l & Hl & Hlen & _ & Hu1 & _). pose proof (st_alive _ S) as Hk.
  assert (∀ c1, reachable (M := suspend_machine) c c1 → suspended_ok (length (c_targets c)) c1) as Hinv.
  { intros c1 Hr1. apply (invariant_run (M := suspend_machine) (suspended_ok (length (c_targets c))) c); [done| |done].
    clear c1 Hr1. intros c1 e c2 (Hlen1 & H1 & S1) [Hok Hs]%restrict_Ok.
    split; [by rewrite (mstep_targets _ _ _ Hs)|]. split; [by eapply susp_ok_stable|].
    apply (stops_stable c1 e); [lia|done..]. }
  assert (∀ c1 tg1, reachable (M := suspend_machine) c c1 → c_clients c1 !! t = Some (PWait (CSuspend x) i) →
    c_targets c1 !! x = Some tg1 → t_frame tg1 = Entered → c_killed c1 = false →
    ∃ c', reachable (M := suspend_machine) c c' ∧ (t, CSuspend x, 0) ∈ c_log c') as Hentered.
  { intros c1 tg1 Hr1 Hp1 Hx1 Hf1 Hk1. assert (∃ c2, target_step x tg1 c1 = Ok c2 ∧ c_clients c2 = c_clients c1 ∧
      s_sentinel (c_susp c2) = 1) as (c2 & Hs2 & Hp2 & Hz2).
    { unfold target_step. rewrite Hf1. eexists. split; [reflexivity|]. done. }
    assert (reachable (M := suspend_machine) c c2) as Hr2.
    { eapply reachable_trans; [exact Hr1|]. by eapply target_reachable; [..|left]. }
    destruct (Hinv c2 Hr2) as (_ & H2 & S2). destruct (waiting_returns c2 t x i) as (c' & Hr' & Hlog); [done..|congruence|lia|].
    exists c'. split; [|done]. by eapply reachable_trans. }
  destruct (decide (s_sentinel (c_susp c) = 0)) as [Hz|]; [|by eapply waiting_returns].
  destruct Hst as [Hst|[]]; [|done].
  destruct tg as [[] [] [] n m w]; try done; [|by eapply Hentered; [apply reachable_refl|..]].
  set (tg1 := Target Entered false false n m w).
  apply (Hentered (set_target c x tg1) tg1); [|done| |done|done].
  - eapply target_reachable; [done|exact Hx|right; exists SIGUSR1; split; [done|]].
    unfold deliver. simpl. by rewrite Hu1.
  - simpl. apply list_lookup_insert_eq. by eapply lookup_lt_Some.
Qed.
(** nothing faults when clients only suspend *)
Lemma suspend_no_fault n m f : (m ≤ 10)%nat → ¬ can_fault (M := suspend_machine) (susp_start n m) f.
Proof.
  intros Hm. apply (invariant_no_fault (M := suspend_machine) (suspended_ok m)).
  - split; [apply length_replicate|]. split; [apply susp_start_ok|apply stops_start].
  - intros c1 e c2 (Hlen1 & H1 & S1) [Hok Hs]%restrict_Ok.
    split; [by rewrite (mstep_targets _ _ _ Hs)|]. split; [by eapply susp_ok_stable|].
    apply (stops_stable c1 e); [lia|done..].
  - intros c1 e (Hlen1 & H1 & S1). unfold mstep, suspend_machine, restrict.
    destruct (only_suspend c1 e) eqn:Hok; [|done]. apply stops_safe; [lia|done..].
Qed.
End contract.

(** ** Until it is continued

    What holds of one target as long as no client calls [thd_continue] for it,
    whatever else the clients call and whichever calls fail. *)

Definition stopped (f : frame) : bool := match f with Marked | Suspended => true | _ => false end.
Definition not_continued (x : nat) (c : sconf) (e : sevent) : bool :=
  match e with ECall _ (CContinue y) => negb (bool_decide (y = x)) | _ => true end.
Definition not_continued_machine (x : nat) : Machine sconf sevent := restrict (not_continued x).

Section heeding.
Variable x : nat.
Implicit Types (c : sconf) (t : tid) (p q : pc) (tg : target) (o : oracle) (k : call).

Definition is_stopped c : Prop := ∃ tg, c_targets c !! x = Some tg ∧ stopped (t_frame tg) = true.
Definition is_asked c : Prop :=
  ∃ tg, c_targets c !! x = Some tg ∧ outstanding tg || stopped (t_frame tg) = true.
Definition pc_heeds c p : Prop :=
  match p with
  | PIdle => True
  | POnce k | PInit k | PSig1 k | PSig2 k | PLock k | PKill k _ => k ≠ CContinue x
  | PWait k _ => k ≠ CContinue x ∧ (k = CSuspend x → is_asked c)
  | PUnlock k r => k ≠ CContinue x ∧
      (k = CSuspend x → match r with None => is_stopped c | Some r => r ≠ 0 end)
  end.

Record heeds c : Prop := {
  hd_target : ∀ tg, c_targets c !! x = Some tg → t_usr2 tg = false ∧ t_frame tg ≠ Resumed;
  hd_pc : ∀ t p, c_clients c !! t = Some p → pc_heeds c p;
  hd_member : Some x ∈ entries c → is_stopped c;
  hd_log : ∀ t, (t, CSuspend x, 0) ∈ c_log c → is_stopped c
}.

Lemma heeds_start n m : heeds (susp_start n m).
Proof.
  split; simpl; try set_solver.
  - by intros tg [-> _]%lookup_replicate_1.
  - by intros t p [-> _]%lookup_replicate_1.
Qed.

(** a step that neither lets the target go nor lists or reports it too early *)
Lemma heeds_step c c' :
  heeds c → (is_stopped c → is_stopped c') → (is_asked c → is_asked c') →
  (∀ tg, c_targets c' !! x = Some tg → t_usr2 tg = false ∧ t_frame tg ≠ Resumed) →
  (∀ t p, c_clients c' !! t = Some p → c_clients c !! t = Some p ∨ pc_heeds c' p) →
  (Some x ∈ entries c' → Some x ∈ entries c ∨ is_stopped c') →
  (∀ t, (t, CSuspend x, 0) ∈ c_log c' → (t, CSuspend x, 0) ∈ c_log c ∨ is_stopped c') →
  heeds c'.
Proof.
  intros [Ht Hp Hm Hl] Hs Ha Ht' Hp' Hm' Hl'. split; [done| | |].
  - intros t p [H|H]%Hp'; [|done]. specialize (Hp t p H).
    destruct p as [| | | | | | |k i|k [r|]]; simpl in *; tauto.
  - intros [H|H]%Hm'; auto.
  - intros t [H|H]%Hl'; eauto.
Qed.

(** a step of a client that leaves the targets alone *)
Lemma heeds_client c c' t q :
  heeds c → c_targets c' = c_targets c → c_clients c' = <[t := q]> (c_clients c) → pc_heeds c q →
  (Some x ∈ entries c' → Some x ∈ entries c ∨ is_stopped c) →
  (∀ t, (t, CSuspend x, 0) ∈ c_log c' → (t, CSuspend x, 0) ∈ c_log c ∨ is_stopped c) →
  heeds c'.
Proof.
  intros H Ht Hc Hq Hm Hl.
  assert (is_stopped c' ↔ is_stopped c) as Hs by (unfold is_stopped; by rewrite Ht).
  assert (is_asked c' ↔ is_asked c) as Ha by (unfold is_asked; by rewrite Ht).
  apply (heeds_step c); [done|by apply Hs|by apply Ha|rewrite Ht; apply H| | |].
  - rewrite Hc. intros u p [(_ & <- & _)|[_ ?]]%list_lookup_insert_Some; [|by left].
    right. destruct q as [| | | | | | |k i|k [r|]]; simpl in *; tauto.
  - tauto.
  - intros u [?|?]%Hl; tauto.
Qed.

(** a step of a target *)
Lemma heeds_set_target c f y tg tg' :
  heeds c → c_targets c !! y = Some tg → (∀ s, s_array (f s) = s_array s) →
  (y = x → t_usr2 tg' = false ∧ t_frame tg' ≠ Resumed ∧
     (stopped (t_frame tg) = true → stopped (t_frame tg') = true) ∧
     (outstanding tg || stopped (t_frame tg) = true → outstanding tg' || stopped (t_frame tg') = true)) →
  heeds (set_target (upd c f) y tg').
Proof.
  intros H Hy Hf Hx. assert (y < length (c_targets c))%nat by by eapply lookup_lt_Some.
  assert (∀ P : target → Prop, (y = x → P tg → P tg') →
    (∃ tg, c_targets c !! x = Some tg ∧ P tg) → ∃ tg, <[y:=tg']> (c_targets c) !! x = Some tg ∧ P tg) as Hmono.
  { intros P HP (tg1 & H1 & H2). destruct (decide (y = x)) as [->|Hne].
    - exists tg'. rewrite list_lookup_insert_eq by done. split; [done|]. apply HP; [done|]. congruence.
    - exists tg1. by rewrite list_lookup_insert_ne. }
  apply (heeds_step c); simpl; [done|..].
  - apply Hmono. intros E. by destruct (Hx E) as (_ & _ & ? & _).
  - apply Hmono. intros E. by destruct (Hx E) as (_ & _ & _ & ?).
  - intros tg1 [(-> & <- & _)|[Hne Hx1]]%list_lookup_insert_Some; [|by apply (hd_target _ H)].
    by destruct (Hx eq_refl) as (? & ? & _).
  - by left.
  - unfold entries. simpl. rewrite Hf. by left.
  - by left.
Qed.
End heeding.

Section heeding_steps.
Variable x : nat.
Implicit Types (c : sconf) (t : tid) (p q : pc) (tg : target) (o : oracle) (k : call).

Lemma entry_elem a i : entry a i = Ok (Some x) → Some x ∈ default [] a.
Proof.
  unfold entry, get. intros (l & ->%of_option_Ok & (_ & _ & Hi%of_option_Ok)%bind_Ok)%bind_Ok.
  by eapply list_elem_of_lookup_2.
Qed.
Lemma listed_loop_elem n a i : listed_loop n a i x = Ok true → Some x ∈ default [] a.
Proof.
  revert i. induction n as [|n IH]; intros i; simpl; [done|].
  intros (e & He & Hs)%bind_Ok. case_bool_decide as E; [subst; by eapply entry_elem|by eapply IH].
Qed.
Lemma set_entry_elem a i v a' :
  set_entry a i v = Ok a' → Some x ∈ default [] a' → Some x ∈ default [] a ∨ v = Some x.
Proof.
  destruct a as [l|]; [|done]. intros [_ ->]%set_entry_Ok. simpl.
  intros [j [(_ & -> & _)|[_ Hj]]%list_lookup_insert_Some]%list_elem_of_lookup; [by right|].
  left. by eapply list_elem_of_lookup_2.
Qed.

(** the searches under the mutex *)
Lemma heeds_lock c t k o c' :
  heeds x c → c_clients c !! t = Some (PLock k) → susp_lock t k o c = Ok c' → heeds x c'.
Proof.
  intros H Hp. pose proof (hd_pc _ _ H _ _ Hp) as Hk. simpl in Hk. unfold susp_lock.
  case_match eqn:E; [|intros (m & _ & Hs)%bind_Ok; destruct k as [y|y]].
  - intros [= <-]. eapply (heeds_client x c); try done; [by left|]. apply negb_true_iff, Z.eqb_neq in E.
    simpl. intros u [?|[= _ _ E0]%list_elem_of_singleton]%elem_of_app; [by left|congruence].
  - unfold thd_suspend_find in Hs. apply bind_Ok in Hs as (listed & Hl & Hs). destruct listed.
    { injection Hs as <-. eapply (heeds_client x c); try done; try (by left). simpl. split; [done|].
      intros [= ->]. apply (hd_member _ _ H). by eapply listed_loop_elem. }
    apply bind_Ok in Hs as (i & _ & Hs). case_match; [case_match|].
    + apply bind_Ok in Hs as (a & Ha & [= <-]). eapply (heeds_client x c); try done; [|by left]. simpl.
      unfold entries. simpl. intros Hx. destruct (set_entry_elem _ _ _ _ Ha Hx) as [Hx'|]; [|done].
      simpl in Hx'. destruct (s_array (c_susp c)) as [l|]; simpl in *; [|set_solver].
      left. set_solver.
    + injection Hs as <-. eapply (heeds_client x c); try done; [|by left]. set_solver.
    + injection Hs as <-. by eapply (heeds_client x c); try done; left.
  - unfold thd_continue_find in Hs. apply bind_Ok in Hs as (i & _ & Hs).
    case_match; injection Hs as <-; eapply (heeds_client x c); try done; by left.
Qed.

Lemma heeds_kill c t k i o c' :
  heeds x c → c_clients c !! t = Some (PKill k i) → susp_kill t k i o c = Ok c' → heeds x c'.
Proof.
  intros H Hp. pose proof (hd_pc _ _ H _ _ Hp) as Hk. simpl in Hk. unfold susp_kill. case_match eqn:E.
  { intros [= <-]. apply negb_true_iff, Z.eqb_neq in E. by eapply (heeds_client x c); try done; left. }
  intros (tg & Hx%of_option_Ok & Hs)%bind_Ok. destruct k as [y|y]; simpl in Hx.
  - injection Hs as <-. pose proof (heeds_set_target x c id y tg (send SIGUSR1 tg) H Hx) as H1.
    eapply (heeds_client x (set_target c y (send SIGUSR1 tg))); try done; [|simpl|by left..].
    + apply H1; [done|]. intros ->. destruct (hd_target _ _ H tg Hx). simpl. done.
    + split; [done|]. intros [= ->]. exists (send SIGUSR1 tg). simpl. split; [|done].
      apply list_lookup_insert_eq. by eapply lookup_lt_Some.
  - apply bind_Ok in Hs as (a & Ha & [= <-]).
    eapply (heeds_client x (set_target c y (send SIGUSR2 tg))); try done; [|simpl|by left].
    + apply (heeds_set_target x c id y tg _ H Hx); [done|]. intros ->. done.
    + unfold entries. simpl. intros Hm. destruct (set_entry_elem _ _ _ _ Ha Hm); [by left|done].
Qed.

(** [sentinel] is set, so the target that the client waits for has answered *)
Lemma heeds_wait c t k i c' :
  susp_ok c → heeds x c → c_clients c !! t = Some (PWait k i) → susp_wait t k i c = Ok c' → heeds x c'.
Proof.
  intros Hok H Hp. destruct (hd_pc _ _ H _ _ Hp) as [Hk Hask]. unfold susp_wait.
  case_match eqn:Hz; [by intros [= <-]|]. apply Z.eqb_neq in Hz. intros (a & Ha & [= <-])%bind_Ok.
  assert (k = CSuspend x → is_stopped x c) as Hst.
  { intros E. destruct (Hask E) as (tg & Hx & Hs). exists tg. split; [done|].
    destruct (outstanding tg) eqn:Hout; [|done]. by destruct (sp_outstanding _ Hok x tg Hx Hout). }
  eapply (heeds_client x c); try done; [|by left]. unfold entries. simpl. intros Hm.
  destruct (set_entry_elem _ _ _ _ Ha Hm) as [|[= E]]; [by left|]. right.
  apply Hst. destruct k as [y|y]; simpl in E; congruence.
Qed.

Lemma heeds_client_step c t p o c' :
  susp_ok c → heeds x c → c_clients c !! t = Some p → client_step t p o c = Ok c' → heeds x c'.
Proof.
  intros Hok H Hp Hs. pose proof (hd_pc _ _ H _ _ Hp) as Hk.
  destruct p as [|k|k|k|k|k|k i|k i|k r]; simpl in Hs, Hk; [done|..].
  - unfold susp_once in Hs. case_match eqn:E.
    { injection Hs as <-. eapply (heeds_client x c); try done; [by left|]. apply negb_true_iff, Z.eqb_neq in E.
      simpl. intros u [?|[= _ _ E0]%list_elem_of_singleton]%elem_of_app; [by left|congruence]. }
    case_match; try done; injection Hs as <-; by eapply (heeds_client x c); try done; left.
  - injection Hs as <-. eapply (heeds_client x c); try done; [|by left]. unfold entries. simpl.
    case_match; set_solver.
  - injection Hs as <-. by eapply (heeds_client x c); try done; left.
  - injection Hs as <-. by eapply (heeds_client x c); try done; left.
  - by eapply heeds_lock.
  - by eapply heeds_kill.
  - by eapply heeds_wait.
  - unfold susp_unlock in Hs. apply bind_Ok in Hs as (c1 & Hu & [= <-]).
    assert (c_targets c1 = c_targets c ∧ c_clients c1 = c_clients c ∧ entries c1 = entries c ∧
      c_log c1 = c_log c) as (E1 & E2 & E3 & E4).
    { destruct (o_status o =? 0); [apply bind_Ok in Hu as (m & _ & [= <-])|injection Hu as <-]; done. }
    eapply (heeds_client x c _ t PIdle); simpl; rewrite ?E1, ?E2, ?E4; try done.
    + unfold entries in *. simpl. rewrite E3. by left.
    + intros u [?|[= _ <- E]%list_elem_of_singleton]%elem_of_app; [by left|]. right.
      destruct Hk as [_ Hk]. specialize (Hk eq_refl). destruct r as [r|]; simpl in *; [congruence|done].
Qed.

Lemma heeds_target_step c y tg c' :
  heeds x c → c_targets c !! y = Some tg → target_step y tg c = Ok c' → heeds x c'.
Proof.
  intros H Hy. assert (y = x → t_usr2 tg = false ∧ t_frame tg ≠ Resumed) as Hx.
  { intros ->. by apply (hd_target _ _ H). }
  unfold target_step. destruct tg as [f u1 u2 n m w]; simpl in *.
  destruct f; intros [= <-]; try done; [| |].
  - apply (heeds_set_target x c (set_sentinel 1) _ _ _ H Hy); [done|]. intros E.
    destruct (Hx E). unfold outstanding. simpl. by rewrite !orb_true_r.
  - apply (heeds_set_target x c id _ _ _ H Hy); [done|]. intros E.
    destruct (Hx E). unfold outstanding. simpl. by rewrite !orb_true_r.
  - apply (heeds_set_target x c id _ _ _ H Hy); [done|]. intros E. by destruct (Hx E).
Qed.

Lemma heeds_deliver c y s tg c' :
  heeds x c → c_targets c !! y = Some tg → deliver y s tg c = Ok c' → heeds x c'.
Proof.
  intros H Hy. assert (y = x → t_usr2 tg = false ∧ t_frame tg ≠ Resumed) as Hx.
  { intros ->. by apply (hd_target _ _ H). }
  assert (heeds x (kill_process c)) by (destruct H; by split).
  unfold deliver. case_match eqn:Hd; [|done]. apply andb_true_iff in Hd as [Hpend Hbl%negb_true_iff].
  destruct tg as [f u1 u2 n m w]; simpl in *.
  destruct s; simpl in Hpend; subst; intros Hs; case_match; injection Hs as <-; try done.
  - apply (heeds_set_target x c id _ _ _ H Hy); [done|]. intros E. destruct (Hx E) as [-> Hf].
    destruct f; try done; unfold outstanding; simpl; by rewrite ?orb_true_r.
  - apply (heeds_set_target x c id _ _ _ H Hy); [done|]. intros E. by destruct (Hx E).
Qed.

Lemma heeds_stable : stable (M := not_continued_machine x) (λ c, susp_ok c ∧ heeds x c).
Proof.
  intros c e c' [Hok H] [Hnot Hs]%restrict_Ok. split; [by eapply susp_ok_stable|].
  unfold mstep, susp_machine, sstep in Hs. destruct (c_killed c); [done|].
  destruct e as [t k|t o|y|y s]; apply bind_Ok in Hs as (z & Hz%choose_Ok & Hs).
  - destruct z; try done. injection Hs as <-. eapply (heeds_client x c); try done; [|by left..].
    simpl. intros ->. simpl in Hnot. by rewrite bool_decide_true in Hnot.
  - by eapply heeds_client_step.
  - by eapply heeds_target_step.
  - by eapply heeds_deliver.
Qed.

Lemma heeds_reachable n m c :
  reachable (M := not_continued_machine x) (susp_start n m) c → heeds x c.
Proof.
  intros Hr. cut (susp_ok c ∧ heeds x c); [by intros []|].
  refine (invariant_run (M := not_continued_machine x) _ _ _ _ heeds_stable Hr).
  split; [apply susp_start_ok|apply heeds_start].
Qed.
End heeding_steps.
