(* ===== verification/SuspTheorems.v ===== *)
(** susp.c: the properties of [thd_suspend], [thd_continue] and the program: the
    handshake, what is promised to clients that only suspend, the schedules of
    [main], and what goes wrong in [thd_continue] and with a full array. *)

From S2P Require Import Prelude Pthread Array Explore Susp SuspProps.

Local Open Scope Z_scope.

(** the target gets back to its routine by its own steps and the delivery of a
    SIGUSR2 *)
Definition resumes (c : sconf) (x : nat) : Prop :=
  ∃ es c' tg', Forall (λ e, e = ETarget x ∨ e = EDeliver x SIGUSR2) es ∧ run c es = Ok c' ∧
    c_targets c' !! x = Some tg' ∧ t_frame tg' = Routine.

Lemma resumes_step c e c1 x :
  (e = ETarget x ∨ e = EDeliver x SIGUSR2) → mstep c e = Ok c1 → resumes c1 x → resumes c x.
Proof.
  intros He Hs (es & c' & tg' & Hes & Hr & Ht). exists (e :: es), c', tg'. split; [by constructor|].
  split; [|done]. simpl. rewrite Hs. done.
Qed.
Lemma target_event c x tg c' :
  c_killed c = false → c_targets c !! x = Some tg → target_step x tg c = Ok c' → mstep c (ETarget x) = Ok c'.
Proof. intros Hk Hx Hs. unfold mstep, susp_machine, sstep. by rewrite Hk, Hx. Qed.

Lemma wakes c x tg :
  c_killed c = false → s_usr2 (c_susp c) = true → c_targets c !! x = Some tg →
  in_handler (t_frame tg) = true → t_usr2 tg = true → resumes c x.
Proof.
  intros Hk Hu Hx Hf Hu2.
  assert (∀ d tg1, c_killed d = false → s_usr2 (c_susp d) = true → c_targets d !! x = Some tg1 →
    t_usr2 tg1 = true → t_frame tg1 = Suspended → resumes d x) as Hsusp.
  { intros d tg1 Hk1 Hu1 Hx1 Hp1 Hf1. assert (x < length (c_targets d))%nat by by eapply lookup_lt_Some.
    eapply (resumes_step d (EDeliver x SIGUSR2)); [by right| |].
    { unfold mstep, susp_machine, sstep. rewrite Hk1, Hx1. cbn [choose mbind res_bind]. unfold deliver.
      cbn [pending]. rewrite Hp1, Hf1, Hu1. reflexivity. }
    eapply resumes_step; [by left| |].
    { eapply target_event; [done|by apply list_lookup_insert_eq|reflexivity]. }
    eexists [], _, _. split; [done|]. split; [reflexivity|].
    split; [apply list_lookup_insert_eq; simpl; by rewrite length_insert|done]. }
  assert (∀ d tg1, c_killed d = false → s_usr2 (c_susp d) = true → c_targets d !! x = Some tg1 →
    t_usr2 tg1 = true → t_frame tg1 = Marked → resumes d x) as Hmarked.
  { intros d tg1 Hk1 Hu1 Hx1 Hp1 Hf1. assert (x < length (c_targets d))%nat by by eapply lookup_lt_Some.
    eapply (resumes_step d (ETarget x)); [by left| |].
    { eapply target_event; [done..|]. unfold target_step. rewrite Hf1. reflexivity. }
    by eapply Hsusp; [..|apply list_lookup_insert_eq| |]. }
  assert (x < length (c_targets c))%nat by by eapply lookup_lt_Some.
  destruct (t_frame tg) eqn:Ht; try done; [|by eapply Hmarked|by eapply Hsusp].
  eapply (resumes_step c (ETarget x)); [by left| |].
  { eapply target_event; [done..|]. unfold target_step. rewrite Ht. reflexivity. }
  by eapply Hmarked; [..|apply list_lookup_insert_eq| |].
Qed.

(** ** Properties *)

(** C18: the handshake.  Whatever the calls, their failures and the interleaving: a
    target is sent at most one SIGUSR1 that has not reached the store to
    [sentinel] in its handler, and only while a client waits for it in
    [thd_suspend]; so a client that sees [sentinel] set sees the answer of the
    target it waits for. *)
Theorem susp_handshake n m c x tg :
  reachable (susp_start n m) c → c_targets c !! x = Some tg →
  (t_answered tg ≤ t_sent tg ≤ S (t_answered tg))%nat ∧
  (t_sent tg ≠ t_answered tg → s_sentinel (c_susp c) = 0 ∧
     ∃ t i, c_clients c !! t = Some (PWait (CSuspend x) i)).
Proof.
  intros H%susp_reachable_ok Hx. destruct (sp_target _ H x tg Hx) as [Hcount _ _].
  pose proof (sp_outstanding _ H x tg Hx) as Ho. destruct (outstanding tg); simpl in Hcount.
  - split; [lia|]. intros _. destruct (Ho eq_refl) as (Hz & t & p & Hp & Hw). split; [done|].
    destruct p as [| | | | | | |[y|y] i|]; try done. apply bool_decide_eq_true in Hw as ->. by exists t, i.
  - split; [lia|]. intros Hne. lia.
Qed.

(** C14: no resume is lost.  A SIGUSR2 that is sent to a target anywhere in its
    suspend handler stays pending until [sigsuspend] returns, because the handler
    runs with SIGUSR2 blocked; from every such configuration the target gets back
    to its routine without the help of another thread. *)
Theorem susp_no_lost_resume n m c x tg :
  reachable (susp_start n m) c → c_targets c !! x = Some tg → t_woken tg = true →
  c_killed c = false → s_usr2 (c_susp c) = true →
  t_usr2 tg = true ∧ resumes c x.
Proof.
  intros H%susp_reachable_ok Hx Hw Hk Hu. destruct (sp_target _ H x tg Hx) as [_ _ Hwoken].
  destruct (Hwoken Hw) as [Hf Hu2]. split; [done|].
  apply (wakes c x tg); done.
Qed.

(** C4: [thd_suspend] stops its target, until somebody continues it.  Whatever the
    number of threads, whatever else the clients call ([thd_continue] for other
    threads, too) and whichever library calls fail: as long as no client has called
    [thd_continue] for the target [x], once a [thd_suspend] of [x] has returned 0
    the target is in its handler behind the store to [sentinel], and stays there.
    The condition is needed: after a [thd_continue] of [x] a later [thd_suspend] of
    [x] may return 0 without stopping it ([thd_continue_wrong_entry]).

    For at most ten threads (the size of the array), clients that only suspend,
    and calls that do not fail except [pthread_kill], moreover: a client that waits
    for the answer can always return 0; nothing faults. *)
Theorem suspend_stops n m :
  (∀ x c t, reachable (M := not_continued_machine x) (susp_start n m) c →
     (t, CSuspend x, 0) ∈ c_log c →
     ∃ tg, c_targets c !! x = Some tg ∧ stopped (t_frame tg) = true) ∧
  ((m ≤ 10)%nat →
    (∀ c t x i, reachable (M := suspend_machine) (susp_start n m) c →
       c_clients c !! t = Some (PWait (CSuspend x) i) →
       ∃ c', reachable (M := suspend_machine) c c' ∧ (t, CSuspend x, 0) ∈ c_log c') ∧
    ∀ f, ¬ can_fault (M := suspend_machine) (susp_start n m) f).
Proof.
  split; [|intros Hm; split].
  - intros x c t Hr%heeds_reachable Hlog. by eapply hd_log.
  - intros c t x i Hr Hp. destruct (suspended_reachable n m c Hm Hr) as (Hlen & H & S).
    eapply suspend_can_return; [done..|lia].
  - intros f. by apply suspend_no_fault.
Qed.

(** *** Witnesses *)

(** a client runs its call to the end; the target acts where it is needed *)
Definition client (t : tid) (n : nat) : list sevent := replicate n (EClient t (ok_alloc 0)).
Definition first_suspend (x : nat) : list sevent :=
  ECall 0 (CSuspend x) :: client 0 6 ++ [EDeliver x SIGUSR1; ETarget x] ++ client 0 2.
Definition next_suspend (x : nat) : list sevent :=
  ECall 0 (CSuspend x) :: client 0 3 ++ [EDeliver x SIGUSR1; ETarget x] ++ client 0 2.
Definition next_continue (x : nat) : list sevent := ECall 0 (CContinue x) :: client 0 4.

Definition waiting_example : sconf := final (susp_start 1 1) (ECall 0 (CSuspend 0) :: client 0 6).
Lemma susp_handshake_witness :
  s_sentinel (c_susp waiting_example) = 0 ∧ ∃ t i, c_clients waiting_example !! t = Some (PWait (CSuspend 0) i).
Proof.
  apply (susp_handshake 1 1 waiting_example 0 (Target Routine true false 1 0 false)).
  - apply reachable_final. by vm_compute.
  - by vm_compute.
  - done.
Defined.

Definition resumed_example : sconf := final (susp_start 1 1) (first_suspend 0 ++ next_continue 0).
Lemma susp_no_lost_resume_witness :
  t_usr2 (Target Marked false true 1 1 true) = true ∧ resumes resumed_example 0.
Proof.
  apply (susp_no_lost_resume 1 1 resumed_example 0 (Target Marked false true 1 1 true)).
  - apply reachable_final. by vm_compute.
  - by vm_compute.
  - done.
  - by vm_compute.
  - by vm_compute.
Defined.

(** thread 1 is suspended and continued, which takes thread 0 out of the array *)
Definition suspended_example : sconf :=
  final (M := not_continued_machine 0) (susp_start 1 2)
    (first_suspend 0 ++ [ETarget 0] ++ next_suspend 1 ++ [ETarget 1] ++ next_continue 1 ++
     [EDeliver 1 SIGUSR2; ETarget 1]).
Definition waiting_client : sconf :=
  final (M := suspend_machine) (susp_start 1 1) (ECall 0 (CSuspend 0) :: client 0 6).
Lemma suspend_stops_witness :
  (∃ tg, c_targets suspended_example !! 0%nat = Some tg ∧ stopped (t_frame tg) = true) ∧
  ∃ c', reachable (M := suspend_machine) waiting_client c' ∧ (0%nat, CSuspend 0, 0) ∈ c_log c'.
Proof.
  split.
  - refine (proj1 (suspend_stops 1 2) 0%nat suspended_example 0%nat _ _).
    + apply (reachable_final (M := not_continued_machine 0)). by vm_compute.
    + change (c_log suspended_example) with
        [(0%nat, CSuspend 0, 0); (0%nat, CSuspend 1, 0); (0%nat, CContinue 1, 0)]. by left.
  - refine (proj1 (proj2 (suspend_stops 1 1) _) waiting_client 0%nat 0%nat 0 _ _).
    + lia.
    + apply (reachable_final (M := suspend_machine)). by vm_compute.
    + by vm_compute.
Defined.

(** ** The schedules of the program *)

(** main is client 0, the thread is target 0, and the calls succeed *)
Definition main_okay (c : sconf) (e : sevent) : bool :=
  match e with
  | ECall t _ => bool_decide (t = 0)%nat
  | EClient t o => bool_decide (t = 0)%nat && (o_status o =? 0) && bool_decide (o_alloc o ≠ None)
  | ETarget x | EDeliver x _ => bool_decide (x = 0)%nat
  end.
Definition main_machine : Machine sconf sevent := restrict (M := main_step) main_okay.

Definition main_events (c : sconf) : list sevent :=
  [ECall 0 (CSuspend 0); ECall 0 (CContinue 0); EClient 0 (ok_alloc 0); ETarget 0;
   EDeliver 0 SIGUSR1; EDeliver 0 SIGUSR2].

Lemma client_step_oracle t p o o' c :
  o_status o = o_status o' → is_Some (o_alloc o) → is_Some (o_alloc o') →
  client_step t p o c = client_step t p o' c.
Proof.
  intros Hs [a Ha] [a' Ha']. destruct p as [|k|k|k|k|k|k i|k i|k r]; simpl; try done.
  - unfold susp_once. by rewrite Hs.
  - by rewrite Ha, Ha'.
  - by rewrite Hs.
  - by rewrite Hs.
  - unfold susp_lock. rewrite Hs. destruct k; [|done]. unfold thd_suspend_find. by rewrite Ha, Ha'.
  - unfold susp_kill. by rewrite Hs.
  - unfold susp_unlock. by rewrite Hs.
Qed.

Lemma main_covers : covers (M := main_machine) main_events.
Proof.
  intros c e. unfold mstep, main_machine, restrict.
  destruct (main_okay c e) eqn:Hok; [|by left]. destruct e as [t k|t o|x|x s]; simpl in Hok.
  - apply bool_decide_eq_true in Hok as ->. unfold mstep, main_step.
    destruct (negb _) eqn:Hst; [right; right|case_bool_decide as Hn; [right; right|by left]].
    + exists (ECall 0 (CSuspend 0)). split; [set_solver|]. change (main_okay c (ECall 0 (CSuspend 0))) with true.
      done.
    + destruct k as [x|x]; destruct (c_log c) as [|? [|? ?]] eqn:Hl; try done; simpl in Hn; injection Hn as <-.
      * exists (ECall 0 (CSuspend 0)). split; [set_solver|].
        change (main_okay c (ECall 0 (CSuspend 0))) with true. unfold mstep, main_step. done.
      * exists (ECall 0 (CContinue 0)). split; [set_solver|].
        change (main_okay c (ECall 0 (CContinue 0))) with true. unfold mstep, main_step. done.
  - right. right. apply andb_true_iff in Hok as [[Ht%bool_decide_eq_true Hs%Z.eqb_eq]%andb_true_iff Ha%bool_decide_eq_true].
    subst. exists (EClient 0 (ok_alloc 0)). split; [set_solver|]. unfold main_okay. simpl.
    unfold mstep, main_step, sstep. destruct (c_killed c); [done|]. destruct (c_clients c !! 0%nat); [|done]. simpl.
    apply client_step_oracle; simpl; [congruence|done|]. by destruct (o_alloc o).
  - apply bool_decide_eq_true in Hok as ->. right. right. exists (ETarget 0). split; [set_solver|done].
  - apply bool_decide_eq_true in Hok as ->. right. right. exists (EDeliver 0 s).
    split; [destruct s; set_solver|done].
Qed.

Definition sconf_eqb (c d : sconf) : bool := bool_decide (c = d).
Lemma sconf_eqb_eq c d : sconf_eqb c d = true → c = d.
Proof. apply bool_decide_eq_true. Qed.
Definition main_configurations : list sconf :=
  explore (M := main_machine) sconf_eqb main_events 2000 [] [main_start].
Lemma main_listed : listed sconf_eqb main_start main_configurations = true.
Proof. by vm_compute. Qed.
Lemma main_closed : closed (M := main_machine) sconf_eqb main_events main_configurations = true.
Proof. by vm_compute. Qed.

(** both calls have returned 0 and the thread runs again *)
Definition main_done (c : sconf) : bool :=
  bool_decide (c_log c = [(0%nat, CSuspend 0, 0); (0%nat, CContinue 0, 0)]) &&
  bool_decide (status_of <$> c_targets c = [Idle]).

Definition main_settled (c : sconf) : sconf :=
  settle (M := main_machine) 20 (main_events main_start) c.
Lemma main_settled_reachable c : reachable (M := main_machine) c (main_settled c).
Proof. apply settle_reachable. Qed.
#[local] Strategy opaque [main_settled].
Definition main_checks (c : sconf) : bool :=
  main_done (main_settled c) &&
  (if main_done c then bool_decide (s_array (c_susp c) = Some (Some 0%nat :: replicate 9 None)) else true).

(** The program of susp.c, whatever the schedule: nothing faults, both calls
    return 0, and from every configuration the thread can be suspended and
    resumed to the end; but after it is resumed it is still in the array. *)
Theorem susp_main_works :
  (∀ f, ¬ can_fault (M := main_machine) main_start f) ∧
  ∀ c, reachable (M := main_machine) main_start c →
    (∃ c', reachable (M := main_machine) c c' ∧ main_done c' = true) ∧
    (main_done c = true → s_array (c_susp c) = Some (Some 0%nat :: replicate 9 None)).
Proof.
  split.
  - intros f. apply (explored_no_fault (M := main_machine) sconf_eqb main_events sconf_eqb_eq
      main_configurations _ _ main_covers main_listed main_closed). by vm_compute.
  - intros c Hc. assert (main_checks c = true) as Hchecks.
    { refine (explored_all (M := main_machine) sconf_eqb main_events sconf_eqb_eq
        main_checks main_configurations _ _ main_covers main_listed main_closed _ Hc). by vm_compute. }
    unfold main_checks in Hchecks. apply andb_true_iff in Hchecks as [Hd Ha]. split.
    + exists (main_settled c). split; [apply main_settled_reachable|exact Hd].
    + intros Hdone. rewrite Hdone in Ha. by apply bool_decide_eq_true in Ha.
Qed.

(** ** What goes wrong

    The loop of [thd_continue] skips the entries of the thread it looks for and
    stops at the first other one, so it clears the entry of another thread. *)

(** a client waits for a target that cannot answer *)
Record stuck (c : sconf) (t : tid) (x : nat) (i : Z) : Prop := {
  sk_client : c_clients c !! t = Some (PWait (CSuspend x) i);
  sk_mutex : s_mut (c_susp c) = Some t;
  sk_sentinel : s_sentinel (c_susp c) = 0;
  sk_target : ∃ tg, c_targets c !! x = Some tg ∧ t_frame tg = Suspended ∧ t_usr2 tg = false;
  sk_others : ∀ y tg, y ≠ x → c_targets c !! y = Some tg → outstanding tg = false
}.

Lemma stuck_stable t x i : stable (λ c, susp_ok c ∧ stuck c t x i).
Proof.
  intros c e c' [H K] Hs. split; [by eapply susp_ok_stable|].
  destruct K as [Kc Km Ks (tg & Kt & Kf & Ku) Ko].
  unfold mstep, susp_machine, sstep in Hs. destruct (c_killed c); [done|].
  destruct e as [u k|u o|y|y s]; apply bind_Ok in Hs as (z & Hz%choose_Ok & Hs).
  - destruct z; try done. injection Hs as <-. assert (u ≠ t) by congruence.
    split; simpl; try done; [by rewrite list_lookup_insert_ne|by exists tg].
  - destruct (decide (u = t)) as [->|Hne].
    { rewrite Kc in Hz. injection Hz as <-. simpl in Hs. unfold susp_wait in Hs. rewrite Ks in Hs. injection Hs as <-.
      split; try done. by exists tg. }
    assert (holding z = false) as Hh.
    { destruct (holding z) eqn:Hh; [|done]. pose proof (sp_mutex _ H _ _ Hz Hh). congruence. }
    assert (∀ q f, (∀ s, s_mut (f s) = s_mut s ∧ s_sentinel (f s) = s_sentinel s) →
      stuck (goto (upd c f) u q) t x i) as Hgoto.
    { intros q f Hf. destruct (Hf (c_susp c)) as [Hf1 Hf2]. split; simpl; rewrite ?Hf1, ?Hf2; try done; [|by exists tg].
      by rewrite list_lookup_insert_ne. }
    assert (∀ k r, stuck (ret c u k r) t x i) as Hret.
    { intros k r. split; simpl; try done; [by rewrite list_lookup_insert_ne|by exists tg]. }
    destruct z as [|k|k|k|k|k|k j|k j|k r]; simpl in Hs, Hh; try done.
    + unfold susp_once in Hs. case_match; [by injection Hs as <-|].
      case_match; try done; injection Hs as <-; [by apply Hgoto|].
      split; simpl; try done; [by rewrite list_lookup_insert_ne|by exists tg].
    + injection Hs as <-. by apply Hgoto.
    + injection Hs as <-. by apply Hgoto.
    + injection Hs as <-. split; simpl; try done; [by rewrite list_lookup_insert_ne|by exists tg].
    + unfold susp_lock in Hs. rewrite Km in Hs. case_match; [by injection Hs as <-|done].
  - unfold target_step in Hs. destruct (decide (y = x)) as [->|Hne].
    { assert (z = tg) as -> by congruence. by rewrite Kf in Hs. }
    pose proof (Ko y z Hne Hz) as Hout. destruct z as [f u1 u2 n m w]; unfold outstanding in Hout; simpl in *.
    destruct f; try done; try (by rewrite orb_true_r in Hout); injection Hs as <-; split; simpl; try done.
    all: try (exists tg; by rewrite list_lookup_insert_ne). all: try by exists tg.
    all: intros y' tg' Hy' [(<- & <- & _)|[? ?]]%list_lookup_insert_Some; [done|by apply (Ko y')].
  - unfold deliver in Hs. case_match eqn:Hd; [|done]. apply andb_true_iff in Hd as [Hp Hb%negb_true_iff].
    assert (stuck (kill_process c) t x i) by (split; simpl; try done; by exists tg).
    destruct (decide (y = x)) as [->|Hne].
    { assert (z = tg) as -> by congruence. rewrite Kf in Hb. destruct s; [done|]. simpl in Hp. congruence. }
    pose proof (Ko y z Hne Hz) as Hout. destruct z as [f u1 u2 n m w]; unfold outstanding in *; simpl in *.
    apply orb_false_iff in Hout as [-> Hf]. destruct s; simpl in Hp; [done|].
    case_match; injection Hs as <-; [done|]. split; simpl; try done; [exists tg; by rewrite list_lookup_insert_ne|].
    intros y' tg' Hy' [(<- & <- & _)|[? ?]]%list_lookup_insert_Some; [|by apply (Ko y')].
    by destruct f.
Qed.

(** thread 1 is continued; thread 0, still suspended, leaves the array instead *)
Definition continue_other : list sevent :=
  first_suspend 0 ++ [ETarget 0] ++ next_suspend 1 ++ [ETarget 1] ++ next_continue 1 ++
  [EDeliver 1 SIGUSR2; ETarget 1] ++ ECall 0 (CSuspend 0) :: client 0 3.
Definition continue_stuck : sconf := final (susp_start 2 2) continue_other.

(** [thd_continue] clears the wrong entry.  A thread that was continued is
    still listed: the next [thd_suspend] returns 0 and does not stop it.  And when
    two threads are suspended and the second is continued, the first is forgotten:
    suspending it again never returns and, since the mutex is held, nothing else
    does. *)
Theorem thd_continue_wrong_entry :
  (∃ c, reachable (susp_start 1 1) c ∧
     c_log c = [(0%nat, CSuspend 0, 0); (0%nat, CContinue 0, 0); (0%nat, CSuspend 0, 0)] ∧
     status_of <$> c_targets c = [Idle]) ∧
  ∃ c, reachable (susp_start 2 2) c ∧ status_of <$> c_targets c = [Other; Idle] ∧
    ∀ c', reachable c c' → c_clients c' !! 0%nat = Some (PWait (CSuspend 0) 0) ∧ s_mut (c_susp c') = Some 0%nat.
Proof.
  split.
  - exists (final (susp_start 1 1) (first_suspend 0 ++ [ETarget 0] ++ next_continue 0 ++
      [EDeliver 0 SIGUSR2; ETarget 0] ++ ECall 0 (CSuspend 0) :: client 0 3)).
    split; [apply reachable_final; by vm_compute|]. split; by vm_compute.
  - exists continue_stuck. assert (reachable (susp_start 2 2) continue_stuck) as Hr.
    { apply reachable_final. by vm_compute. }
    split; [done|]. split; [by vm_compute|]. intros c' Hc'.
    assert (susp_ok c' ∧ stuck c' 0 0 0) as [_ K]; [|by destruct K].
    refine (invariant_run _ _ _ _ (stuck_stable 0 0 0) Hc').
    split; [by eapply susp_reachable_ok|]. split; [by vm_compute..| |].
    + exists (Target Suspended true false 2 1 false). by vm_compute.
    + intros y tg Hy. destruct y as [|[|y]]; [done| |].
      * intros Ht. vm_compute in Ht. injection Ht as <-. done.
      * intros Ht. by vm_compute in Ht.
Qed.

(** The eleventh suspended thread: the array is made longer by one entry and
    the store that should clear the new entry goes behind its end; and when the
    array cannot be made longer it is lost, and the next call follows NULL. *)
Theorem susp_array_overflow :
  let full := first_suspend 0 ++ concat (next_suspend <$> seq 1 9) in
  run (susp_start 1 11) (full ++ ECall 0 (CSuspend 10) :: client 0 2) = Fault OutOfBounds ∧
  run (susp_start 1 11) (full ++ ECall 0 (CSuspend 10) :: [EClient 0 ok; EClient 0 ok; EClient 0 ok;
    ECall 0 (CSuspend 0); EClient 0 ok; EClient 0 ok]) = Fault NullDeref.
Proof. split; by vm_compute. Qed.

(** the thread that main creates reports 470 times *)
Example thread_routine_reports :
  thread_routine 0 = (λ k, (0, 2000 * Z.of_nat k)) <$> seq 1 470.
Proof. vm_compute. reflexivity. Qed.
