(* ===== verification/War.v ===== *)
(** GoToWar.cpp: the card game on circular queues, its model and correctness.

    The body of a new queue is not initialised; reading an entry that was never
    written, or taking from an empty queue, is a fault.  Warnings that are only
    printed are not recorded. *)

From S2P Require Import Prelude Array Int.

Definition QUEUESIZE : Z := 1000.

(** ** The queue *)

Record queue := mk_queue { q : array; first : Z; last : Z; count : Z }.

Definition new_queue : array := replicate (Z.to_nat (QUEUESIZE + 1)) None.
Definition init_queue (body : array) : queue := mk_queue body 0 (QUEUESIZE - 1) 0.

Definition enqueue (x : queue) (v : Z) : res queue :=
  if (count x >=? QUEUESIZE)%Z then mret x
  else
    let n := ((last x + 1) `rem` QUEUESIZE)%Z in
    body ← assign (q x) n v;
    mret (mk_queue body (first x) n (count x + 1)).

(** when the queue is empty the result is an uninitialised variable *)
Definition dequeue (x : queue) : res (Z * queue) :=
  if (count x <=? 0)%Z then Fault Uninitialised
  else
    v ← fetch (q x) (first x);
    mret (v, mk_queue (q x) ((first x + 1) `rem` QUEUESIZE)%Z (last x) (count x - 1)).

Definition empty (x : queue) : bool := (count x <=? 0)%Z.

(** ** Cards *)

Definition NCARDS : Z := 52.
Definition NSUITS : Z := 4.
(** characters are their codes; a string ends in 0 *)
Definition values : list Z := [50; 51; 52; 53; 54; 55; 56; 57; 84; 74; 81; 75; 65; 0]%Z.
Definition suits : list Z := [99; 100; 104; 115; 0]%Z.
Definition MAXSTEPS : nat := 1000.

(** the inner loop, [n] iterations left *)
Fixpoint rank_suit (n : nat) (j : Z) (suit : Z) : res (option Z) :=
  match n with
  | O => mret None
  | S n => s ← get suits j; if (s =? suit)%Z then mret (Some j) else rank_suit n (j + 1) suit
  end.
Fixpoint rank_loop (n : nat) (i : Z) (value suit : Z) : res Z :=
  match n with
  | O => Fault Uninitialised      (* the function ends without a return *)
  | S n =>
      v ← get values i;
      found ← (if (v =? value)%Z then rank_suit (Z.to_nat NSUITS) 0 suit else mret None);
      match found with
      | Some j => mret (i * NSUITS + j)%Z
      | None => rank_loop n (i + 1) value suit
      end
  end.
Definition rank_card (value suit : Z) : res Z := rank_loop (Z.to_nat (NCARDS `quot` NSUITS)) 0 value suit.

Definition suit (card : Z) : res Z := get suits (card `rem` NSUITS).
Definition value (card : Z) : res Z := get values (card `quot` NSUITS).

(** ** The game *)

(** [clear_queue(a, b)]; the queue that is emptied and the one that is filled *)
Fixpoint clear_queue (fuel : nat) (a b : queue) : res (queue * queue) :=
  if empty a then mret (a, b)
  else
    match fuel with
    | O => Blocked
    | S fuel => '(v, a) ← dequeue a; b ← enqueue b v; clear_queue fuel a b
    end.

Inductive outcome :=
  | AWins (steps : nat)
  | BWins (steps : nat)
  | Tied (steps : nat) (a b : Z)
  | BothTie (steps : nat).

(** Lines 109-117: what is printed at the end *)
Definition verdict (steps : nat) (a b : queue) : outcome :=
  if negb (empty a) && empty b then AWins steps
  else if empty a && negb (empty b) then BWins steps
  else if negb (empty a) && negb (empty b) then Tied steps (count a) (count b)
  else BothTie steps.

(** The loop; [n] is [MAXSTEPS] less [steps].  [clear_queue] runs at most as often
    as the queue has entries. *)
Fixpoint war_loop (n steps : nat) (a b c : queue) (inwar : bool) : res (outcome * queue * queue * queue) :=
  match n with
  | O => mret (verdict steps a b, a, b, c)
  | S n =>
      if negb (empty a) && negb (empty b) then
        '(x, a) ← dequeue a;
        '(y, b) ← dequeue b;
        c ← enqueue c x;
        c ← enqueue c y;
        if inwar : bool then war_loop n (S steps) a b c false
        else
          vx ← value x; vy ← value y;
          if (vx >? vy)%Z then
            '(c, a) ← clear_queue (Z.to_nat QUEUESIZE) c a; war_loop n (S steps) a b c false
          else if (vx <? vy)%Z then
            '(c, b) ← clear_queue (Z.to_nat QUEUESIZE) c b; war_loop n (S steps) a b c false
          else if (vy =? vx)%Z then war_loop n (S steps) a b c true
          else war_loop n (S steps) a b c inwar
      else mret (verdict steps a b, a, b, c)
  end.
Definition war (a b : queue) : res (outcome * queue * queue * queue) :=
  war_loop MAXSTEPS 0 a b (init_queue new_queue) false.

(** ** The program *)

(** one deck from the characters of a line; [None]: the input has ended *)
Fixpoint read_deck (fuel : nat) (input : list Z) (deck : queue) : res (option (queue * list Z)) :=
  match fuel with
  | O => Blocked
  | S fuel =>
      match input with
      | [] => mret None
      | c :: input =>
          if (c =? 10)%Z then mret (Some (deck, input))
          else if (c =? 32)%Z then read_deck fuel input deck
          else
            let '(s, input) := match input with [] => ((-1)%Z, []) | s :: input => (s, input) end in
            card ← rank_card c s; deck ← enqueue deck card; read_deck fuel input deck
      end
  end.
(** [_tmain]: the verdicts of the games; the bodies of the decks are reused *)
Fixpoint tmain_loop (fuel : nat) (input : list Z) (body1 body2 : array) : res (list outcome) :=
  match fuel with
  | O => Blocked
  | S fuel =>
      r ← read_deck (S (length input)) input (init_queue body1);
      match r with
      | None => mret []
      | Some (a, input) =>
          r ← read_deck (S (length input)) input (init_queue body2);
          match r with
          | None => mret []
          | Some (b, input) =>
              '(o, a, b, _) ← war a b;
              os ← tmain_loop fuel input (q a) (q b);
              mret (o :: os)
          end
      end
  end.
Definition tmain (input : list Z) : res (list outcome) :=
  tmain_loop (S (length input)) input new_queue new_queue.
