(* ===== verification/WarProps.v ===== *)
(** GoToWar.cpp: a circular queue holds a list, the game on queues is the game on
    lists, and the program reads decks and plays. *)

From S2P Require Import Prelude Array Int War.

(** ** Queues hold lists *)

Record is_queue (x : queue) (l : list Z) : Prop := {
  iq_body : length (q x) = 1001;
  iq_first : (0 ≤ first x < QUEUESIZE)%Z;
  iq_count : count x = Z.of_nat (length l);
  iq_bound : (count x ≤ QUEUESIZE)%Z;
  iq_last : last x = ((first x + count x - 1) `mod` QUEUESIZE)%Z;
  iq_entry : ∀ (i : nat) v, l !! i = Some v →
    q x !! Z.to_nat ((first x + Z.of_nat i) `mod` QUEUESIZE) = Some (Some v)
}.

(** how many entries there are, for [lia] *)
#[local] Ltac queue_lia :=
  unfold QUEUESIZE in *; simpl in *; Z.div_mod_to_equations; lia.

Lemma new_is_queue body : length body = 1001 → is_queue (init_queue body) [].
Proof. intros Hb. split; simpl; try done. Qed.

Lemma table_is_queue : is_queue (init_queue new_queue) [].
Proof. by apply new_is_queue. Qed.

Lemma empty_spec x l : is_queue x l → empty x = bool_decide (l = []).
Proof.
  intros H. unfold empty. rewrite (iq_count _ _ H). destruct l; simpl; [done|].
  apply Z.leb_gt. lia.
Qed.

Lemma enqueue_Ok x l v :
  is_queue x l → length l < 1000 → ∃ x', enqueue x v = Ok x' ∧ is_queue x' (l ++ [v]).
Proof.
  intros [Hb Hf Hc _ Hl He] Hlen. unfold enqueue. rewrite Z.geb_leb.
  rewrite (proj2 (Z.leb_gt _ _)) by queue_lia.
  assert ((last x + 1) `rem` QUEUESIZE = (first x + Z.of_nat (length l)) `mod` QUEUESIZE)%Z as ->.
  { rewrite Hl, Hc, Z.rem_mod_nonneg by queue_lia. queue_lia. }
  set (n := ((first x + Z.of_nat (length l)) `mod` QUEUESIZE)%Z).
  assert (0 ≤ n < QUEUESIZE)%Z as Hn by (subst n; queue_lia).
  unfold assign, put. rewrite bool_decide_true by (rewrite Hb; queue_lia).
  eexists. split; [reflexivity|]. split; simpl.
  - by rewrite length_insert.
  - done.
  - rewrite length_app. simpl. lia.
  - queue_lia.
  - subst n. rewrite Hc. queue_lia.
  - intros i w Hi. apply lookup_app_Some in Hi as [Hi|[Hge Hi]].
    + pose proof (lookup_lt_Some _ _ _ Hi). rewrite list_lookup_insert_ne; [by apply He|].
      intros Heq%Z2Nat.inj; [|queue_lia..]. revert Heq. subst n. queue_lia.
    + apply list_lookup_singleton_Some in Hi as [Hi <-].
      assert (i = length l) as -> by lia. fold n. apply list_lookup_insert_eq. rewrite Hb. queue_lia.
Qed.

Lemma enqueue_full x l v : is_queue x l → length l = 1000 → enqueue x v = Ok x.
Proof.
  intros H Hlen. unfold enqueue. rewrite (iq_count _ _ H), Hlen. done.
Qed.

Lemma dequeue_Ok x v l :
  is_queue x (v :: l) → ∃ x', dequeue x = Ok (v, x') ∧ is_queue x' l.
Proof.
  intros [Hb Hf Hc Hbd Hl He]. unfold dequeue. rewrite (proj2 (Z.leb_gt _ _)) by (rewrite Hc; simpl; lia).
  unfold fetch, get. rewrite bool_decide_true by lia. simpl in Hc.
  pose proof (He 0 v eq_refl) as H0. rewrite Z.add_0_r, Z.mod_small in H0 by done.
  cbn [mbind res_bind]. rewrite H0. cbn [of_option mbind res_bind].
  rewrite Z.rem_mod_nonneg by queue_lia. eexists. split; [reflexivity|]. split; simpl; try done.
  - queue_lia.
  - lia.
  - lia.
  - rewrite Hl, Hc. queue_lia.
  - intros i w Hi. pose proof (lookup_lt_Some _ _ _ Hi). specialize (He (S i) w Hi). rewrite <- He. do 2 f_equal. queue_lia.
Qed.

Lemma clear_queue_Ok fuel a b l m :
  is_queue a l → is_queue b m → length l ≤ fuel → length l + length m ≤ 1000 →
  ∃ a' b', clear_queue fuel a b = Ok (a', b') ∧ is_queue a' [] ∧ is_queue b' (m ++ l).
Proof.
  revert a b l m. induction fuel as [|fuel IH]; intros a b l m Ha Hb Hf Hlen; destruct l as [|v l]; simpl in Hf.
  - simpl. rewrite (empty_spec _ _ Ha). rewrite bool_decide_true by done. exists a, b. by rewrite app_nil_r.
  - lia.
  - simpl. rewrite (empty_spec _ _ Ha). rewrite bool_decide_true by done. exists a, b. by rewrite app_nil_r.
  - cbn [clear_queue]. rewrite (empty_spec _ _ Ha). rewrite bool_decide_false by done.
    simpl in Hlen. destruct (dequeue_Ok _ _ _ Ha) as (a1 & -> & Ha1). cbn [mbind res_bind].
    destruct (enqueue_Ok b m v Hb) as (b1 & -> & Hb1); [lia|]. cbn [mbind res_bind].
    destruct (IH a1 b1 l (m ++ [v]) Ha1 Hb1) as (a' & b' & -> & Ha' & Hb'); [lia|rewrite length_app; simpl; lia|].
    exists a', b'. by rewrite <- (assoc_L (++)) in Hb'.
Qed.

(** ** The game on lists *)

Definition is_card (card : Z) : Prop := (0 ≤ card < NCARDS)%Z.
(** the character of the value of a card *)
Definition face (card : Z) : Z := values !!! Z.to_nat (card `div` NSUITS).

Definition verdict_ref (steps : nat) (a b : list Z) : outcome :=
  match a, b with
  | _ :: _, [] => AWins steps
  | [], _ :: _ => BWins steps
  | _ :: _, _ :: _ => Tied steps (Z.of_nat (length a)) (Z.of_nat (length b))
  | [], [] => BothTie steps
  end.

(** the decks [a] and [b] and the cards [c] that lie on the table *)
Fixpoint war_ref (n steps : nat) (a b c : list Z) (inwar : bool) : outcome * (list Z * list Z * list Z) :=
  match n, a, b with
  | S n, x :: a', y :: b' =>
      let c := c ++ [x; y] in
      if inwar then war_ref n (S steps) a' b' c false
      else match (face x ?= face y)%Z with
      | Gt => war_ref n (S steps) (a' ++ c) b' [] false
      | Lt => war_ref n (S steps) a' (b' ++ c) [] false
      | Eq => war_ref n (S steps) a' b' c true
      end
  | _, _, _ => (verdict_ref steps a b, (a, b, c))
  end.

Lemma value_face card : is_card card → value card = Ok (face card).
Proof.
  intros Hc. unfold value, face. unfold is_card, NCARDS, NSUITS in *.
  rewrite Z.quot_div_nonneg by lia.
  assert (0 ≤ card `div` 4 < 13)%Z by (Z.div_mod_to_equations; lia).
  unfold get. rewrite bool_decide_true by lia. simpl.
  destruct (lookup_lt_is_Some_2 values (Z.to_nat (card `div` 4))) as [v Hv]; [simpl; lia|].
  rewrite Hv. simpl. by rewrite (list_lookup_total_correct _ _ _ Hv).
Qed.

Lemma verdict_Ok steps a b la lb : is_queue a la → is_queue b lb → verdict steps a b = verdict_ref steps la lb.
Proof.
  intros Ha Hb. unfold verdict. rewrite (empty_spec _ _ Ha), (empty_spec _ _ Hb), (iq_count _ _ Ha), (iq_count _ _ Hb).
  by destruct la, lb.
Qed.

(** the decks and the table at the end *)
Definition queues (a b c : queue) (ls : list Z * list Z * list Z) : Prop :=
  is_queue a ls.1.1 ∧ is_queue b ls.1.2 ∧ is_queue c ls.2.

Lemma war_loop_Ok n steps a b c inwar la lb lc :
  is_queue a la → is_queue b lb → is_queue c lc → length la + length lb + length lc ≤ 1000 →
  Forall is_card la → Forall is_card lb → Forall is_card lc →
  ∃ a' b' c', war_loop n steps a b c inwar = Ok ((war_ref n steps la lb lc inwar).1, a', b', c') ∧
    queues a' b' c' (war_ref n steps la lb lc inwar).2.
Proof.
  revert steps a b c inwar la lb lc. induction n as [|n IH]; intros steps a b c inwar la lb lc Ha Hb Hc Hlen Fa Fb Fc.
  { simpl. exists a, b, c. by rewrite (verdict_Ok _ _ _ _ _ Ha Hb). }
  cbn [war_loop war_ref]. rewrite (empty_spec _ _ Ha), (empty_spec _ _ Hb).
  destruct la as [|x la]; [exists a, b, c; by rewrite (verdict_Ok _ _ _ _ _ Ha Hb)|].
  destruct lb as [|y lb]; [exists a, b, c; by rewrite (verdict_Ok _ _ _ _ _ Ha Hb)|].
  rewrite !bool_decide_false by done. cbn [negb andb]. simpl in Hlen.
  destruct (dequeue_Ok _ _ _ Ha) as (a1 & -> & Ha1). cbn [mbind res_bind].
  destruct (dequeue_Ok _ _ _ Hb) as (b1 & -> & Hb1). cbn [mbind res_bind].
  destruct (enqueue_Ok c lc x Hc) as (c1 & -> & Hc1); [lia|]. cbn [mbind res_bind].
  destruct (enqueue_Ok c1 _ y Hc1) as (c2 & -> & Hc2); [rewrite length_app; simpl; lia|]. cbn [mbind res_bind].
  rewrite <- (assoc_L (++)) in Hc2. change ([x] ++ [y]) with [x; y] in Hc2.
  inversion Fa as [|? ? Fx Fa']; subst. inversion Fb as [|? ? Fy Fb']; subst.
  assert (Forall is_card (lc ++ [x; y])) as Fc2 by (apply Forall_app; auto).
  assert (length (lc ++ [x; y]) = length lc + 2) as Hlen2 by by rewrite length_app.
  destruct inwar; [apply IH; auto; lia|].
  rewrite (value_face _ Fx), (value_face _ Fy). cbn [mbind res_bind]. rewrite Z.gtb_ltb.
  destruct (Z.compare_spec (face x) (face y)) as [He|Hlt|Hgt].
  - rewrite He, Z.ltb_irrefl, Z.eqb_refl. apply IH; auto; lia.
  - rewrite (proj2 (Z.ltb_ge _ _)) by lia. rewrite (proj2 (Z.ltb_lt _ _)) by lia.
    destruct (clear_queue_Ok (Z.to_nat QUEUESIZE) c2 b1 _ _ Hc2 Hb1) as (c3 & b2 & -> & Hc3 & Hb2); [unfold QUEUESIZE; lia|lia|].
    cbn [mbind res_bind]. apply IH; auto; [rewrite length_app; simpl; lia|by apply Forall_app].
  - rewrite (proj2 (Z.ltb_lt _ _)) by lia.
    destruct (clear_queue_Ok (Z.to_nat QUEUESIZE) c2 a1 _ _ Hc2 Ha1) as (c3 & a2 & -> & Hc3 & Ha2); [unfold QUEUESIZE; lia|lia|].
    cbn [mbind res_bind]. apply IH; auto; [rewrite length_app; simpl; lia|by apply Forall_app].
Qed.

(** no card is lost, none appears *)
Lemma war_ref_Permutation n steps la lb lc inwar :
  let '(la', lb', lc') := (war_ref n steps la lb lc inwar).2 in la' ++ lb' ++ lc' ≡ₚ la ++ lb ++ lc.
Proof.
  revert steps la lb lc inwar. induction n as [|n IH]; intros steps la lb lc inwar; [simpl; done|]. simpl.
  destruct la as [|x la]; [simpl; done|]. destruct lb as [|y lb]; [simpl; done|].
  assert (la ++ lb ++ lc ++ [x; y] ≡ₚ (x :: la) ++ (y :: lb) ++ lc) as Hp by solve_Permutation.
  assert (∀ la1 lb1 lc1 w, la1 ++ lb1 ++ lc1 ≡ₚ la ++ lb ++ lc ++ [x; y] →
    let '(la', lb', lc') := (war_ref n (S steps) la1 lb1 lc1 w).2 in la' ++ lb' ++ lc' ≡ₚ (x :: la) ++ (y :: lb) ++ lc) as Hstep.
  { intros la1 lb1 lc1 w H1. specialize (IH (S steps) la1 lb1 lc1 w).
    destruct (war_ref n (S steps) la1 lb1 lc1 w) as [o [[la' lb'] lc']]. simpl in *. by rewrite IH, H1. }
  destruct inwar; [by apply Hstep|].
  destruct (face x ?= face y)%Z; apply Hstep; [done|by rewrite app_nil_r|].
  rewrite app_nil_r. solve_Permutation.
Qed.

Definition steps_of (o : outcome) : nat :=
  match o with AWins s | BWins s | Tied s _ _ | BothTie s => s end.

Lemma war_ref_outcome n steps la lb lc inwar :
  let '(o, (la', lb', _)) := war_ref n steps la lb lc inwar in
  o = verdict_ref (steps_of o) la' lb' ∧ steps_of o ≤ n + steps ∧ (la' ≠ [] → lb' ≠ [] → steps_of o = n + steps).
Proof.
  revert steps la lb lc inwar. induction n as [|n IH]; intros steps la lb lc inwar; [by destruct la, lb|]. simpl.
  destruct la as [|x la]; [destruct lb; simpl; repeat split; (lia || done)|].
  destruct lb as [|y lb]; [simpl; repeat split; (lia || done)|].
  assert (∀ la1 lb1 lc1 w, let '(o, (la', lb', _)) := war_ref n (S steps) la1 lb1 lc1 w in
    o = verdict_ref (steps_of o) la' lb' ∧ steps_of o ≤ S (n + steps) ∧ (la' ≠ [] → lb' ≠ [] → steps_of o = S (n + steps))) as Hstep.
  { intros la1 lb1 lc1 w. specialize (IH (S steps) la1 lb1 lc1 w).
    destruct (war_ref n (S steps) la1 lb1 lc1 w) as [o [[la' lb'] lc']].
    destruct IH as (Ho & Hle & Heq). split; [done|]. split; [lia|]. intros Ha Hb. specialize (Heq Ha Hb). lia. }
  destruct inwar; [apply Hstep|]. destruct (face x ?= face y)%Z; apply Hstep.
Qed.

(** ** Input *)

Definition suit_char (card : Z) : Z := suits !!! Z.to_nat (card `mod` NSUITS).
Definition card_chars (card : Z) : list Z := [face card; suit_char card].
(** a line of the input *)
Definition deck_line (cards : list Z) : list Z := concat (card_chars <$> cards) ++ [10%Z].

Definition card_checks (card : Z) : bool :=
  bool_decide (rank_card (face card) (suit_char card) = Ok card) &&
  bool_decide (value card = Ok (face card)) && bool_decide (suit card = Ok (suit_char card)) &&
  bool_decide (face card ≠ 10%Z) && bool_decide (face card ≠ 32%Z).
Lemma card_checked card : is_card card → card_checks card = true.
Proof.
  intros Hc. assert (forallb card_checks (seqZ 0 52) = true) as H by by vm_compute.
  rewrite forallb_forall in H. apply H, list_elem_of_In, elem_of_seqZ. exact Hc.
Qed.

Lemma read_deck_Ok fuel cards rest deck m :
  is_queue deck m → Forall is_card cards → length m + length cards ≤ 1000 → length cards < fuel →
  ∃ deck', read_deck fuel (concat (card_chars <$> cards) ++ 10%Z :: rest) deck = Ok (Some (deck', rest)) ∧
           is_queue deck' (m ++ cards).
Proof.
  revert deck m fuel. induction cards as [|c cards IH]; intros deck m fuel Hd Hc Hlen Hf; destruct fuel as [|fuel]; simpl in Hf; try lia.
  - simpl. exists deck. by rewrite app_nil_r.
  - inversion Hc as [|? ? Hcard Hc']; subst.
    pose proof (card_checked c Hcard) as Hchk. unfold card_checks in Hchk.
    repeat (apply andb_true_iff in Hchk as [Hchk ?]).
    repeat match goal with H : bool_decide _ = true |- _ => apply bool_decide_eq_true in H end.
    change (concat (card_chars <$> c :: cards) ++ 10%Z :: rest) with
      (face c :: suit_char c :: concat (card_chars <$> cards) ++ 10%Z :: rest).
    cbn [read_deck]. rewrite (proj2 (Z.eqb_neq _ _)) by done. rewrite (proj2 (Z.eqb_neq _ _)) by done.
    rewrite Hchk. cbn [mbind res_bind]. simpl in Hlen.
    destruct (enqueue_Ok deck m c Hd) as (d1 & -> & Hd1); [lia|]. cbn [mbind res_bind].
    destruct (IH d1 (m ++ [c]) fuel Hd1 Hc') as (d' & -> & Hd'); [rewrite length_app; simpl; lia|lia|].
    exists d'. by rewrite <- (assoc_L (++)) in Hd'.
Qed.

Definition is_game (g : list Z * list Z) : Prop :=
  Forall is_card g.1 ∧ Forall is_card g.2 ∧ length g.1 + length g.2 ≤ 1000.
Definition game_lines (g : list Z * list Z) : list Z := deck_line g.1 ++ deck_line g.2.

Lemma length_deck_line cards : length cards < length (deck_line cards).
Proof.
  unfold deck_line. assert (length (concat (card_chars <$> cards)) = 2 * length cards) as H.
  { induction cards as [|c cards IH]; [done|]. rewrite fmap_cons. simpl. rewrite IH. lia. }
  rewrite length_app, H. simpl. lia.
Qed.

(** the verdict of a game *)
Definition play (g : list Z * list Z) : outcome := (war_ref MAXSTEPS 0 g.1 g.2 [] false).1.

Lemma war_Ok a b la lb :
  is_queue a la → is_queue b lb → is_game (la, lb) →
  ∃ a' b' c', war a b = Ok (play (la, lb), a', b', c') ∧
    queues a' b' c' (war_ref MAXSTEPS 0 la lb [] false).2.
Proof.
  intros Ha Hb (Fa & Fb & Hlen). apply war_loop_Ok; [done|done|apply table_is_queue| |done..].
  cbn [length fst snd] in *. lia.
Qed.

Lemma read_line l rest body :
  length body = 1001 → Forall is_card l → length l ≤ 1000 →
  ∃ x, read_deck (S (length (deck_line l ++ rest))) (deck_line l ++ rest) (init_queue body) = Ok (Some (x, rest)) ∧
       is_queue x l.
Proof.
  intros Hb Hl Hlen. pose proof (length_deck_line l) as Hf.
  replace (deck_line l ++ rest) with (concat (card_chars <$> l) ++ 10%Z :: rest)
    by (unfold deck_line; by rewrite <- (assoc_L (++))).
  apply (read_deck_Ok _ l rest _ [] (new_is_queue _ Hb) Hl); [done|].
  unfold deck_line in Hf. rewrite length_app in Hf |- *. cbn [length] in Hf |- *. lia.
Qed.

Lemma tmain_loop_step fuel la lb rest body1 body2 :
  length body1 = 1001 → length body2 = 1001 → is_game (la, lb) →
  ∃ b1 b2, length b1 = 1001 ∧ length b2 = 1001 ∧
    tmain_loop (S fuel) (deck_line la ++ deck_line lb ++ rest) body1 body2 =
      (os ← tmain_loop fuel rest b1 b2; mret (play (la, lb) :: os)).
Proof.
  intros H1 H2 Hg. pose proof Hg as (Ha & Hb & Hlen). cbn [fst snd] in *.
  destruct (read_line la (deck_line lb ++ rest) body1 H1 Ha) as (a & Hra & Ha'); [lia|].
  destruct (read_line lb rest body2 H2 Hb) as (b & Hrb & Hb'); [lia|].
  destruct (war_Ok a b la lb Ha' Hb' Hg) as (a' & b' & c' & Hw & Ha1 & Hb1 & _).
  exists (q a'), (q b'). split; [apply Ha1|]. split; [apply Hb1|].
  cbn [tmain_loop]. rewrite Hra. cbn [mbind res_bind]. rewrite Hrb. unfold mbind, res_bind. rewrite Hw. reflexivity.
Qed.

Lemma tmain_loop_Ok fuel games body1 body2 :
  length body1 = 1001 → length body2 = 1001 → Forall is_game games → length games < fuel →
  tmain_loop fuel (concat (game_lines <$> games)) body1 body2 = Ok (play <$> games).
Proof.
  revert fuel body1 body2. induction games as [|[la lb] games IH]; intros [|fuel] body1 body2 H1 H2 Hg Hf; cbn [length] in Hf; try lia.
  - done.
  - inversion Hg as [|? ? Hg1 Hg']; subst.
    destruct (tmain_loop_step fuel la lb (concat (game_lines <$> games)) body1 body2 H1 H2 Hg1) as (b1 & b2 & Hb1 & Hb2 & Hs).
    rewrite !fmap_cons. cbn [concat]. unfold game_lines at 1. cbn [fst snd]. rewrite <- (assoc_L (++)), Hs.
    rewrite IH; [done..|lia].
Qed.

Lemma game_correct n a b la lb :
  is_queue a la → is_queue b lb → length la + length lb ≤ 1000 → Forall is_card la → Forall is_card lb →
  let '(o, (la', lb', lc')) := war_ref n 0 la lb [] false in
  (∃ a' b' c', war_loop n 0 a b (init_queue new_queue) false = Ok (o, a', b', c') ∧ is_queue a' la' ∧ is_queue b' lb' ∧ is_queue c' lc') ∧
  la' ++ lb' ++ lc' ≡ₚ la ++ lb ∧
  o = verdict_ref (steps_of o) la' lb' ∧ steps_of o ≤ n ∧ (la' ≠ [] → lb' ≠ [] → steps_of o = n).
Proof.
  intros Ha Hb Hlen Fa Fb.
  pose proof (war_ref_Permutation n 0 la lb [] false) as Hp.
  pose proof (war_ref_outcome n 0 la lb [] false) as Ho.
  destruct (war_loop_Ok n 0 a b (init_queue new_queue) false la lb [] Ha Hb table_is_queue)
    as (a' & b' & c' & Hw & Hq); [cbn [length]; lia|done..|].
  destruct (war_ref n 0 la lb [] false) as [o [[la' lb'] lc']]. cbn [fst snd] in *.
  rewrite app_nil_r in Hp. rewrite Nat.add_0_r in Ho. split; [by exists a', b', c'|]. by split.
Qed.

(** ** Properties *)

(** C20: [war] on two queues plays the game on the lists of their cards: the top
    cards go to the table, the higher value takes the table, equal values leave two
    more cards each, at most 1000 steps.  It ends without a fault, with the same
    verdict; no card is lost or doubled, and the verdict says what is left. *)
Theorem war_correct a b la lb :
  is_queue a la → is_queue b lb → length la + length lb ≤ 1000 → Forall is_card la → Forall is_card lb →
  let '(o, (la', lb', lc')) := war_ref MAXSTEPS 0 la lb [] false in
  (∃ a' b' c', war a b = Ok (o, a', b', c') ∧ is_queue a' la' ∧ is_queue b' lb' ∧ is_queue c' lc') ∧
  la' ++ lb' ++ lc' ≡ₚ la ++ lb ∧
  o = verdict_ref (steps_of o) la' lb' ∧ steps_of o ≤ MAXSTEPS ∧ (la' ≠ [] → lb' ≠ [] → steps_of o = MAXSTEPS).
Proof. exact (game_correct MAXSTEPS a b la lb). Qed.

(** two decks with three cards each *)
Lemma war_correct_witness :
  ∃ a b, is_queue a [0; 20; 44]%Z ∧ is_queue b [3; 21; 8]%Z ∧
  let '(o, (la', lb', lc')) := war_ref MAXSTEPS 0 [0; 20; 44]%Z [3; 21; 8]%Z [] false in
  (∃ a' b' c', war a b = Ok (o, a', b', c') ∧ is_queue a' la' ∧ is_queue b' lb' ∧ is_queue c' lc') ∧
  la' ++ lb' ++ lc' ≡ₚ [0; 20; 44; 3; 21; 8]%Z ∧
  o = verdict_ref (steps_of o) la' lb' ∧ steps_of o ≤ MAXSTEPS ∧ (la' ≠ [] → lb' ≠ [] → steps_of o = MAXSTEPS).
Proof.
  assert (∀ l, Forall is_card l → length l = 3 → ∃ x, is_queue x l) as Hq.
  { intros l Hl Hlen.
    destruct (read_deck_Ok 4 l [] (init_queue new_queue) [] table_is_queue Hl) as (x & _ & Hx); [simpl; lia|lia|].
    by exists x. }
  assert (Forall is_card [0; 20; 44]%Z) as Fa by (repeat constructor; unfold NCARDS; lia).
  assert (Forall is_card [3; 21; 8]%Z) as Fb by (repeat constructor; unfold NCARDS; lia).
  destruct (Hq _ Fa eq_refl) as [a Ha]. destruct (Hq _ Fb eq_refl) as [b Hb].
  exists a, b. split; [exact Ha|]. split; [exact Hb|].
  exact (war_correct a b [0; 20; 44]%Z [3; 21; 8]%Z Ha Hb ltac:(simpl; lia) Fa Fb).
Defined.

(** C31: the program: from lines that show decks of cards it reads the cards back
    and prints the verdict of each game on the lists, until the input ends. *)
Theorem tmain_plays games :
  Forall is_game games →
  tmain (concat (game_lines <$> games)) = Ok (play <$> games).
Proof.
  intros Hg. apply tmain_loop_Ok; [done..|].
  assert (length games ≤ length (concat (game_lines <$> games))); [|lia].
  clear Hg. induction games as [|g games IH]; [done|].
  change (concat (game_lines <$> g :: games)) with (game_lines g ++ concat (game_lines <$> games)).
  rewrite length_app. pose proof (length_deck_line g.1). unfold game_lines at 1. rewrite length_app. simpl. lia.
Qed.

Lemma tmain_plays_witness :
  tmain (concat (game_lines <$> [([48], [51]); ([33], [50])]%Z)) = Ok [BothTie 1; AWins 1].
Proof.
  apply (tmain_plays [([48], [51]); ([33], [50])]%Z).
  assert (∀ x, is_card x → Forall is_card [x]) as H1 by (intros x Hx; by constructor).
  repeat constructor; simpl; unfold is_card, NCARDS; lia.
Defined.

(** the characters are compared, not the values: the ten is the highest card, the
    ace lies below the jack *)
Example ten_beats_ace : tmain [84; 99; 10; 65; 99; 10]%Z = Ok [AWins 1].
Proof. vm_compute. reflexivity. Qed.
Example ace_loses : tmain [65; 99; 10; 74; 99; 10]%Z = Ok [BWins 1].
Proof. vm_compute. reflexivity. Qed.
(** a card that is none: [rank_card] ends without a value *)
Example bad_card : tmain [49; 48; 99; 10]%Z = Fault Uninitialised.
Proof. vm_compute. reflexivity. Qed.
