(* ===== verification/Cuckoo.v ===== *)
(** Cucoo.cpp: Cuckoo hashing with two tables, its model and correctness.

    The tables and the positions are global variables: they are arguments and
    results.  What is printed is a result. *)

From S2P Require Import Prelude Array Int.

Definition MAXN : Z := 11.
Definition ver : Z := 2.

(** [hashtable], one list for each table *)
Abbreviation tables := (list (list Z)).

Definition initTable : tables := replicate (Z.to_nat ver) (replicate (Z.to_nat MAXN) INT_MIN).

Definition hash (function key : Z) : res Z :=
  if (function =? 1)%Z then mret (key `rem` MAXN)%Z
  else if (function =? 2)%Z then mret ((key `quot` MAXN) `rem` MAXN)%Z
  else Fault Uninitialised.

(** [hashtable[i][j]] *)
Definition at_table (t : tables) (i j : Z) : res Z := row ← get t i; get row j.
Definition set_table (t : tables) (i j v : Z) : res tables :=
  row ← get t i; row ← put row j v; put t i row.

(** The loop of [place] over the tables, from [i] on: is the key there?  [n]
    iterations are left; the results are the answer and [pos]. *)
Fixpoint check_loop (n : nat) (i : Z) (t : tables) (key : Z) (pos : list Z) : res (bool * list Z) :=
  match n with
  | O => mret (false, pos)
  | S n =>
      p ← hash (i + 1) key; pos ← put pos i p;
      p ← get pos i; v ← at_table t i p;
      if (v =? key)%Z then mret (true, pos) else check_loop n (i + 1) t key pos
  end.

(** the result has the key that could not be positioned *)
Fixpoint place (fuel : nat) (t : tables) (pos : list Z) (key tableID cnt n : Z) : res (tables * list Z * option Z) :=
  match fuel with
  | O => Blocked
  | S fuel =>
      if (cnt =? n)%Z then mret (t, pos, Some key)
      else
        '(present, pos) ← check_loop (Z.to_nat ver) 0 t key pos;
        if present : bool then mret (t, pos, None)
        else
          p ← get pos tableID; v ← at_table t tableID p;
          if negb (v =? INT_MIN)%Z then
            p ← get pos tableID; dis ← at_table t tableID p;
            p ← get pos tableID; t ← set_table t tableID p key;
            place fuel t pos dis ((tableID + 1) `rem` ver)%Z (cnt + 1)%Z n
          else
            p ← get pos tableID; t ← set_table t tableID p key;
            mret (t, pos, None)
  end.

(** the rows; an empty place is printed as a dash *)
Definition printTable (t : tables) : list (list (option Z)) :=
  map (map (λ v, if (v =? INT_MIN)%Z then None else Some v)) t.

(** The loop over the keys; the results are the tables, [pos], and the keys that
    were reported as unpositioned. *)
Fixpoint cuckoo_loop (keys : list Z) (t : tables) (pos : list Z) (n : Z) : res (tables * list Z * list Z) :=
  match keys with
  | [] => mret (t, pos, [])
  | key :: keys =>
      '(t, pos, out) ← place (S (Z.to_nat n)) t pos key 0 0 n;
      '(t, pos, outs) ← cuckoo_loop keys t pos n;
      mret (t, pos, option_list out ++ outs)
  end.
Definition cuckoo (keys : list Z) (pos : list Z) : res (list Z * list (list (option Z))) :=
  '(t, _, outs) ← cuckoo_loop keys initTable pos (Z.of_nat (length keys)); mret (outs, printTable t).

Definition keys_1 : list Z := [20; 50; 53; 75; 100; 67; 105; 3; 36; 39]%Z.
Definition keys_2 : list Z := [20; 50; 53; 75; 100; 67; 105; 3; 36; 39; 6]%Z.
Definition main : res (list (list Z * list (list (option Z)))) :=
  r1 ← cuckoo keys_1 [0; 0]%Z; r2 ← cuckoo keys_2 [0; 0]%Z; mret [r1; r2].
