(* ===== verification/CuckooProps.v ===== *)
(** Cucoo.cpp: Cuckoo hashing keeps every key at one of its two places, loses none
    without a message, and stops. *)

From S2P Require Import Prelude Array Int Cuckoo.

(** ** What the tables hold *)

(** the places of a key *)
Definition h1 (k : Z) : nat := Z.to_nat (k `mod` 11).
Definition h2 (k : Z) : nat := Z.to_nat ((k `div` 11) `mod` 11).

(** the entry [j] of a table whose keys have their place at [h] *)
Definition row_ok (h : Z → nat) (row : list Z) : Prop :=
  length row = 11 ∧ ∀ j k, row !! j = Some k → k ≠ INT_MIN → (0 ≤ k)%Z ∧ h k = j.
Definition row_keys (row : list Z) : list Z := filter (λ k, k ≠ INT_MIN) row.

(** two tables: their keys are at their places and no key is there twice *)
Definition holds (r1 r2 : list Z) (ks : list Z) : Prop :=
  row_ok h1 r1 ∧ row_ok h2 r2 ∧ ks ≡ₚ row_keys r1 ++ row_keys r2 ∧ NoDup ks.

Lemma row_keys_insert r (p : nat) old k :
  r !! p = Some old → k ≠ INT_MIN →
  (if decide (old = INT_MIN) then [] else [old]) ++ row_keys (<[p := k]> r) ≡ₚ k :: row_keys r.
Proof.
  intros Hp Hk. unfold row_keys. rewrite (insert_take_drop _ _ k) by by eapply lookup_lt_Some.
  rewrite <- (take_drop_middle _ _ _ Hp) at 3. rewrite !filter_app, (filter_cons_True _ k) by done.
  destruct (decide (old = INT_MIN)) as [->|Hne].
  - rewrite filter_cons_False by (intros H; by apply H). simpl. by rewrite <- Permutation_middle.
  - rewrite filter_cons_True by done. simpl. rewrite <- !Permutation_middle. constructor.
Qed.

Lemma row_ok_insert h r k : row_ok h r → (0 ≤ k)%Z → row_ok h (<[h k := k]> r).
Proof.
  intros [Hlen Hr] Hk. split; [by rewrite length_insert|].
  intros j v [(<- & <- & _)|[Hne Hj]]%list_lookup_insert_Some Hv; [by split|exact (Hr j v Hj Hv)].
Qed.

Lemma elem_of_row_keys h r k :
  row_ok h r → k ≠ INT_MIN → k ∈ row_keys r ↔ r !! h k = Some k.
Proof.
  intros [_ Hr] Hk. unfold row_keys. rewrite list_elem_of_filter. split.
  - intros [_ [j Hj]%list_elem_of_lookup]. by destruct (Hr j k Hj Hk) as [_ <-].
  - intros Hj. split; [done|]. apply list_elem_of_lookup. eauto.
Qed.

Lemma h1_lt k : h1 k < 11.
Proof. unfold h1. Z.div_mod_to_equations. lia. Qed.
Lemma h2_lt k : h2 k < 11.
Proof. unfold h2. Z.div_mod_to_equations. lia. Qed.
Lemma hash_Ok k : (0 ≤ k)%Z → hash 1 k = Ok (Z.of_nat (h1 k)) ∧ hash 2 k = Ok (Z.of_nat (h2 k)).
Proof.
  intros Hk. unfold hash, MAXN, h1, h2. simpl. rewrite Z.quot_div_nonneg, !Z.rem_mod_nonneg by (try apply Z.div_pos; lia).
  rewrite !Z2Nat.id by (Z.div_mod_to_equations; lia). done.
Qed.
Lemma nonneg_key k : (0 ≤ k)%Z → k ≠ INT_MIN.
Proof. unfold INT_MIN. lia. Qed.

(** a key is in the tables when it is at one of its places *)
Lemma holds_elem r1 r2 ks k :
  holds r1 r2 ks → (0 ≤ k)%Z → k ∈ ks ↔ r1 !! h1 k = Some k ∨ r2 !! h2 k = Some k.
Proof.
  intros (H1 & H2 & -> & _) Hk%nonneg_key. rewrite elem_of_app.
  by rewrite (elem_of_row_keys h1 r1), (elem_of_row_keys h2 r2).
Qed.

Lemma check_loop_Ok r1 r2 ks k pos :
  holds r1 r2 ks → (0 ≤ k)%Z → length pos = 2 →
  ∃ pos', check_loop 2 0 [r1; r2] k pos = Ok (bool_decide (k ∈ ks), pos') ∧ length pos' = 2 ∧
          (k ∉ ks → pos' = [Z.of_nat (h1 k); Z.of_nat (h2 k)]).
Proof.
  intros Hh Hk Hpos. pose proof (holds_elem r1 r2 ks k Hh Hk) as Hin. destruct Hh as ((Hl1 & _) & (Hl2 & _) & _ & _).
  destruct pos as [|p1 [|p2 [|]]]; try done. destruct (hash_Ok k Hk) as [Hh1 Hh2].
  pose proof (h1_lt k). pose proof (h2_lt k).
  destruct (lookup_lt_is_Some_2 r1 (h1 k)) as [v1 Hv1]; [lia|].
  destruct (lookup_lt_is_Some_2 r2 (h2 k)) as [v2 Hv2]; [lia|].
  cbn [check_loop]. change (0 + 1)%Z with 1%Z. rewrite Hh1. cbn [mbind res_bind].
  change (put [p1; p2] 0 (Z.of_nat (h1 k))) with (Ok [Z.of_nat (h1 k); p2]). cbn [mbind res_bind].
  change (get [Z.of_nat (h1 k); p2] 0) with (Ok (Z.of_nat (h1 k))). cbn [mbind res_bind].
  assert (∀ i, at_table [r1; r2] 0 i = get r1 i) as -> by done. rewrite (get_Ok _ _ _ Hv1). cbn [mbind res_bind].
  destruct (Z.eqb_spec v1 k) as [->|Hne1].
  { eexists. split; [rewrite bool_decide_true; [reflexivity|apply Hin; by left]|]. split; [done|].
    intros Hnot. destruct Hnot. apply Hin. by left. }
  change (1 + 1)%Z with 2%Z. rewrite Hh2. cbn [mbind res_bind].
  change (put [Z.of_nat (h1 k); p2] 1 (Z.of_nat (h2 k))) with (Ok [Z.of_nat (h1 k); Z.of_nat (h2 k)]). cbn [mbind res_bind].
  change (get [Z.of_nat (h1 k); Z.of_nat (h2 k)] 1) with (Ok (Z.of_nat (h2 k))). cbn [mbind res_bind].
  assert (∀ i, at_table [r1; r2] 1 i = get r2 i) as -> by done. rewrite (get_Ok _ _ _ Hv2). cbn [mbind res_bind].
  destruct (Z.eqb_spec v2 k) as [->|Hne2].
  { eexists. split; [rewrite bool_decide_true; [reflexivity|apply Hin; by right]|]. split; [done|].
    intros Hnot. destruct Hnot. apply Hin. by right. }
  eexists. split; [rewrite bool_decide_false; [reflexivity|]|done].
  rewrite Hin, Hv1, Hv2. intros [[= ?]|[= ?]]; congruence.
Qed.

(** one of the two tables *)
Definition row_of (b : bool) (r1 r2 : list Z) : list Z := if b then r2 else r1.
Definition place_of (b : bool) (k : Z) : nat := if b then h2 k else h1 k.
Definition set_row (b : bool) (r1 r2 r : list Z) : list (list Z) := if b then [r1; r] else [r; r2].

(** storing a new key at its place in one table removes what was there *)
Lemma holds_store b r1 r2 ks k old :
  holds r1 r2 ks → (0 ≤ k)%Z → k ∉ ks → row_of b r1 r2 !! place_of b k = Some old →
  ∃ r1' r2' ks', set_row b r1 r2 (<[place_of b k := k]> (row_of b r1 r2)) = [r1'; r2'] ∧ holds r1' r2' ks' ∧
    (if decide (old = INT_MIN) then [] else [old]) ++ ks' ≡ₚ k :: ks ∧ (old ≠ INT_MIN → (0 ≤ old)%Z).
Proof.
  intros (H1 & H2 & Hks & Hnd) Hk Hnot Hold. pose proof (nonneg_key k Hk) as Hne.
  destruct b; simpl in *.
  - pose proof (row_keys_insert _ _ _ _ Hold Hne) as Hp. exists r1, (<[h2 k := k]> r2), (row_keys r1 ++ row_keys (<[h2 k := k]> r2)).
    assert ((if decide (old = INT_MIN) then [] else [old]) ++ row_keys r1 ++ row_keys (<[h2 k := k]> r2) ≡ₚ k :: ks) as Hall.
    { rewrite (assoc_L (++)), (Permutation_app_comm _ (row_keys r1)), <- (assoc_L (++)), Hp, <- Permutation_middle. by rewrite Hks. }
    split_and!; [done| |done|intros Ho; by destruct (proj2 H2 _ _ Hold Ho)].
    split_and!; [done|by apply row_ok_insert|done|].
    assert (NoDup (k :: ks)) as Hnd' by by constructor. rewrite <- Hall in Hnd'. by apply list.NoDup_app in Hnd' as (_ & _ & ?).
  - pose proof (row_keys_insert _ _ _ _ Hold Hne) as Hp. exists (<[h1 k := k]> r1), r2, (row_keys (<[h1 k := k]> r1) ++ row_keys r2).
    assert ((if decide (old = INT_MIN) then [] else [old]) ++ row_keys (<[h1 k := k]> r1) ++ row_keys r2 ≡ₚ k :: ks) as Hall.
    { rewrite (assoc_L (++)), Hp, Hks. done. }
    split_and!; [done| |done|intros Ho; by destruct (proj2 H1 _ _ Hold Ho)].
    split_and!; [by apply row_ok_insert|done|done|].
    assert (NoDup (k :: ks)) as Hnd' by by constructor. rewrite <- Hall in Hnd'. by apply list.NoDup_app in Hnd' as (_ & _ & ?).
Qed.

Definition table_id (b : bool) : Z := Z.b2z b.

Lemma at_row b r1 r2 (j : nat) v : row_of b r1 r2 !! j = Some v → at_table [r1; r2] (table_id b) (Z.of_nat j) = Ok v.
Proof.
  intros Hj. assert (∀ i, at_table [r1; r2] (table_id b) i = get (row_of b r1 r2) i) as -> by by destruct b.
  by apply get_Ok.
Qed.
Lemma set_row_Ok b r1 r2 (j : nat) v :
  j < length (row_of b r1 r2) →
  set_table [r1; r2] (table_id b) (Z.of_nat j) v = Ok (set_row b r1 r2 (<[j := v]> (row_of b r1 r2))).
Proof.
  intros Hj. unfold set_table.
  assert (get [r1; r2] (table_id b) = Ok (row_of b r1 r2)) as -> by by destruct b. cbn [mbind res_bind].
  rewrite put_Ok by done. by destruct b.
Qed.
Lemma get_pos b k : get [Z.of_nat (h1 k); Z.of_nat (h2 k)] (table_id b) = Ok (Z.of_nat (place_of b k)).
Proof. by destruct b. Qed.

(** a key that is not there is placed; each round stores one key and goes on with
    the one that was there *)
Lemma place_Ok fuel r1 r2 ks pos key b cnt n :
  holds r1 r2 ks → (0 ≤ key)%Z → key ∉ ks → length pos = 2 → (0 ≤ cnt ≤ n)%Z → (n - cnt < Z.of_nat fuel)%Z →
  ∃ r1' r2' ks' pos' out, place fuel [r1; r2] pos key (table_id b) cnt n = Ok ([r1'; r2'], pos', out) ∧
    length pos' = 2 ∧ holds r1' r2' ks' ∧ option_list out ++ ks' ≡ₚ key :: ks.
Proof.
  revert r1 r2 ks pos key b cnt. induction fuel as [|fuel IH]; intros r1 r2 ks pos key b cnt Hh Hk Hnot Hpos Hcnt Hf; [lia|].
  cbn [place]. destruct (Z.eqb_spec cnt n) as [->|Hne].
  { exists r1, r2, ks, pos, (Some key). done. }
  destruct (check_loop_Ok r1 r2 ks key pos Hh Hk Hpos) as (pos' & Hcheck & Hpos' & Hp).
  change (Z.to_nat ver) with 2. rewrite Hcheck. rewrite bool_decide_false by done. cbn [mbind res_bind].
  specialize (Hp Hnot). subst pos'. rewrite get_pos. cbn [mbind res_bind].
  assert (place_of b key < length (row_of b r1 r2)) as Hlt.
  { destruct Hh as ((Hl1 & _) & (Hl2 & _) & _). pose proof (h1_lt key). pose proof (h2_lt key). destruct b; simpl; lia. }
  destruct (lookup_lt_is_Some_2 _ _ Hlt) as [old Hold]. rewrite (at_row b r1 r2 _ old Hold). cbn [mbind res_bind].
  destruct (holds_store b r1 r2 ks key old Hh Hk Hnot Hold) as (r1' & r2' & ks' & Hset & Hh' & Hp' & Hold0).
  rewrite set_row_Ok by done. rewrite Hset. cbn [mbind res_bind].
  destruct (Z.eqb_spec old INT_MIN) as [Hmin|Hmin]; cbn [negb].
  - rewrite decide_True in Hp' by done. eexists r1', r2', ks', _, None. done.
  - rewrite decide_False in Hp' by done. simpl in Hp'.
    assert (((table_id b + 1) `rem` ver)%Z = table_id (negb b)) as -> by by destruct b.
    destruct (IH r1' r2' ks' [Z.of_nat (h1 key); Z.of_nat (h2 key)] old (negb b) (cnt + 1)%Z)
      as (r1'' & r2'' & ks'' & pos'' & out & Hr & Hpos'' & Hh'' & Hp''); [done|by apply Hold0| |done|lia|lia|].
    + assert (NoDup (old :: ks')) as Hnd.
      { rewrite Hp'. destruct Hh as (_ & _ & _ & Hnd). by constructor. }
      by apply NoDup_cons in Hnd as [? _].
    + exists r1'', r2'', ks'', pos'', out. split; [done|]. split; [done|]. split; [done|]. by rewrite Hp''.
Qed.

Lemma place_present fuel r1 r2 ks pos key t cnt n :
  holds r1 r2 ks → (0 ≤ key)%Z → key ∈ ks → length pos = 2 → cnt ≠ n →
  ∃ pos', place (S fuel) [r1; r2] pos key t cnt n = Ok ([r1; r2], pos', None) ∧ length pos' = 2.
Proof.
  intros Hh Hk Hin Hpos Hne. cbn [place]. rewrite (proj2 (Z.eqb_neq _ _)) by done.
  destruct (check_loop_Ok r1 r2 ks key pos Hh Hk Hpos) as (pos' & Hcheck & Hpos' & _).
  change (Z.to_nat ver) with 2. rewrite Hcheck. rewrite bool_decide_true by done. by exists pos'.
Qed.

Lemma elem_of_option_list (o : option Z) k : k ∈ option_list o ↔ o = Some k.
Proof. destruct o; simpl; set_solver. Qed.

Lemma cuckoo_loop_Ok keys r1 r2 ks pos n :
  holds r1 r2 ks → Forall (λ k, 0 ≤ k)%Z keys → length pos = 2 → (0 < n)%Z →
  ∃ r1' r2' ks' pos' outs, cuckoo_loop keys [r1; r2] pos n = Ok ([r1'; r2'], pos', outs) ∧
    holds r1' r2' ks' ∧ (∀ k, k ∈ ks ∨ k ∈ keys ↔ k ∈ ks' ∨ k ∈ outs) ∧ length outs + length ks' ≤ length keys + length ks.
Proof.
  revert r1 r2 ks pos. induction keys as [|key keys IH]; intros r1 r2 ks pos Hh Hks Hpos Hn.
  { exists r1, r2, ks, pos, []. split; [done|]. split; [done|]. split; [set_solver|simpl; lia]. }
  inversion Hks as [|? ? Hk Hks']; subst.
  assert (∃ r1' r2' ks' pos' out, place (S (Z.to_nat n)) [r1; r2] pos key 0 0 n = Ok ([r1'; r2'], pos', out) ∧
    length pos' = 2 ∧ holds r1' r2' ks' ∧ (∀ k, k ∈ ks ∨ k = key ↔ k ∈ ks' ∨ out = Some k) ∧
    length (option_list out) + length ks' ≤ S (length ks)) as (r1' & r2' & ks' & pos' & out & Hpl & Hpos' & Hh' & Hin & Hlen).
  { destruct (decide (key ∈ ks)) as [Hkey|Hkey].
    - destruct (place_present (Z.to_nat n) r1 r2 ks pos key 0 0 n) as (pos' & Hpl & Hpos'); [done..|lia|].
      exists r1, r2, ks, pos', None. split_and!; [done..|naive_solver|simpl; lia].
    - destruct (place_Ok (S (Z.to_nat n)) r1 r2 ks pos key false 0 n)
        as (r1' & r2' & ks' & pos' & out & Hpl & Hpos' & Hh' & Hp); [done..|lia|lia|].
      exists r1', r2', ks', pos', out. split; [done|]. split; [done|]. split; [done|]. split.
      + intros k. transitivity (k ∈ key :: ks); [set_solver|]. rewrite <- Hp, elem_of_app, elem_of_option_list. tauto.
      + apply Permutation_length in Hp. rewrite length_app in Hp. simpl in Hp. lia. }
  cbn [cuckoo_loop]. rewrite Hpl. cbn [mbind res_bind].
  destruct (IH r1' r2' ks' pos' Hh' Hks' Hpos' Hn) as (r1'' & r2'' & ks'' & pos'' & outs & Hr & Hh'' & Hin'' & Hlen'').
  rewrite Hr. cbn [mbind res_bind]. exists r1'', r2'', ks'', pos'', (option_list out ++ outs).
  split; [done|]. split; [done|]. split.
  - intros k. rewrite elem_of_cons, elem_of_app, elem_of_option_list. specialize (Hin k). specialize (Hin'' k). tauto.
  - rewrite length_app. simpl. lia.
Qed.

Lemma initTable_holds : ∃ r1 r2, initTable = [r1; r2] ∧ holds r1 r2 [].
Proof.
  exists (replicate 11 INT_MIN), (replicate 11 INT_MIN). split; [done|].
  assert (∀ h, row_ok h (replicate 11 INT_MIN)) as Hr.
  { intros h. split; [done|]. by intros j k [-> _]%lookup_replicate_1 ?. }
  split_and!; [done|done|done|constructor].
Qed.

(** the keys that are printed in a row *)
Definition printed (row : list (option Z)) : list Z := omap id row.
Lemma printed_row_keys row : printed (map (λ v, if (v =? INT_MIN)%Z then None else Some v) row) = row_keys row.
Proof.
  unfold printed, row_keys. induction row as [|v row IH]; [done|]. cbn [map omap list_omap].
  destruct (Z.eqb_spec v INT_MIN) as [->|].
  - rewrite filter_cons_False by (intros H; by apply H). exact IH.
  - rewrite filter_cons_True by done. cbn. by f_equal.
Qed.

(** ** Properties *)

(** [place] of a key that is not in the tables terminates within its bound;
    each table stays a hash table for its function, no key is there twice, and the
    keys are the old ones and the new one, less the one that is reported as
    unpositioned, which need not be the new one. *)
Theorem place_keeps r1 r2 ks pos key n :
  holds r1 r2 ks → (0 ≤ key)%Z → key ∉ ks → length pos = 2 → (0 ≤ n)%Z →
  ∃ r1' r2' ks' pos' out, place (S (Z.to_nat n)) [r1; r2] pos key 0 0 n = Ok ([r1'; r2'], pos', out) ∧
    holds r1' r2' ks' ∧ option_list out ++ ks' ≡ₚ key :: ks.
Proof.
  intros Hh Hk Hnot Hpos Hn.
  destruct (place_Ok (S (Z.to_nat n)) r1 r2 ks pos key false 0 n)
    as (r1' & r2' & ks' & pos' & out & Hpl & _ & Hh' & Hp); [done..|lia|lia|].
  by exists r1', r2', ks', pos', out.
Qed.

Lemma place_keeps_witness :
  ∃ r1 r2, initTable = [r1; r2] ∧
  ∃ r1' r2' ks' pos' out, place (S (Z.to_nat 3)) [r1; r2] [0; 0]%Z 20 0 0 3 = Ok ([r1'; r2'], pos', out) ∧
    holds r1' r2' ks' ∧ option_list out ++ ks' ≡ₚ [20%Z].
Proof.
  destruct initTable_holds as (r1 & r2 & Hi & Hh). exists r1, r2. split; [exact Hi|].
  apply (place_keeps r1 r2 [] [0; 0]%Z 20 3 Hh); [lia|by apply not_elem_of_nil|done|lia].
Defined.

(** C19: [cuckoo] on any keys that are not negative: it ends without a fault; every
    key can be found at its place in the first or in the second printed row unless
    it was reported as unpositioned; nothing else is printed or reported, and no key
    is printed twice. *)
Theorem cuckoo_correct keys pos :
  Forall (λ k, 0 ≤ k)%Z keys → length pos = 2 →
  ∃ outs row1 row2, cuckoo keys pos = Ok (outs, [row1; row2]) ∧
    (∀ k, k ∈ keys ↔ k ∈ outs ∨ k ∈ printed row1 ++ printed row2) ∧
    (∀ k, k ∈ printed row1 ++ printed row2 → row1 !! h1 k = Some (Some k) ∨ row2 !! h2 k = Some (Some k)) ∧
    NoDup (printed row1 ++ printed row2) ∧ length outs + length (printed row1 ++ printed row2) ≤ length keys.
Proof.
  intros Hk Hpos. destruct initTable_holds as (r1 & r2 & Hi & Hh). unfold cuckoo. rewrite Hi.
  destruct (decide (keys = [])) as [->|Hne].
  { exists [], (replicate 11 None), (replicate 11 None). split; [by injection Hi as <- <-|].
    change (printed (replicate 11 None) ++ printed (replicate 11 None)) with (@nil Z).
    split_and!; [set_solver|set_solver|constructor|simpl; lia]. }
  destruct (cuckoo_loop_Ok keys r1 r2 [] pos (Z.of_nat (length keys)) Hh Hk Hpos)
    as (r1' & r2' & ks' & pos' & outs & Hr & Hh' & Hin & Hlen); [destruct keys; simpl; [done|lia]|].
  rewrite Hr. cbn [mbind res_bind].
  do 3 eexists. split; [reflexivity|]. rewrite !printed_row_keys.
  pose proof Hh' as (H1 & H2 & Hks & Hnd). rewrite Hks in Hnd. apply Permutation_length in Hks as Hlen'.
  assert (∀ k, k ∈ row_keys r1' ++ row_keys r2' ↔ k ∈ ks') as Hmem by (intros k; by rewrite Hks).
  split_and!.
  - intros k. rewrite Hmem. specialize (Hin k). set_solver.
  - intros k Hin'. assert (0 ≤ k)%Z as Hk0.
    { rewrite Forall_forall in Hk. apply Hk. apply Hmem in Hin'. specialize (Hin k). set_solver. }
    pose proof (nonneg_key k Hk0) as Hmin. apply Hmem, (holds_elem _ _ _ _ Hh' Hk0) in Hin' as [Hin'|Hin'].
    + left. rewrite list_lookup_fmap, Hin'. simpl. by rewrite (proj2 (Z.eqb_neq _ _)).
    + right. rewrite list_lookup_fmap, Hin'. simpl. by rewrite (proj2 (Z.eqb_neq _ _)).
  - done.
  - rewrite <- Hlen'. simpl in Hlen. lia.
Qed.

Lemma cuckoo_correct_witness :
  ∃ outs row1 row2, cuckoo keys_2 [0; 0]%Z = Ok (outs, [row1; row2]) ∧
    (∀ k, k ∈ keys_2 ↔ k ∈ outs ∨ k ∈ printed row1 ++ printed row2) ∧
    (∀ k, k ∈ printed row1 ++ printed row2 → row1 !! h1 k = Some (Some k) ∨ row2 !! h2 k = Some (Some k)) ∧
    NoDup (printed row1 ++ printed row2) ∧ length outs + length (printed row1 ++ printed row2) ≤ length keys_2.
Proof.
  apply (cuckoo_correct keys_2 [0; 0]%Z); [|done]. unfold keys_2. repeat constructor; lia.
Defined.

(** the program: all of the first keys are positioned, one of the second is not *)
Example cuckoo_output : main = Ok
  [([], [[None; Some 100; None; Some 36; None; None; Some 50; None; None; Some 75; None];
         [Some 3; Some 20; None; Some 39; Some 53; None; Some 67; None; None; Some 105; None]]);
   ([105], [[None; Some 67; None; Some 3; None; None; Some 39; None; None; Some 53; None];
            [Some 6; Some 20; None; Some 36; Some 50; None; Some 75; None; None; Some 100; None]])]%Z.
Proof. vm_compute. reflexivity. Qed.
(** a negative key has no place *)
Example negative_key : cuckoo [-1]%Z [0; 0]%Z = Fault OutOfBounds.
Proof. vm_compute. reflexivity. Qed.
