(* ===== verification/Puzzles.v ===== *)
(** Exercises that compute with numbers and arrays: Game.cpp, EditDistance.cpp,
    FindLongestPath.cpp, CoverSteps.cpp, PartitionASetIntoTwo.cpp,
    ArrayUnionAndIntersection.cpp and Triplets.cpp.  Each is a Module with the
    name of its file. *)

From S2P Require Import Prelude Array Int.

(** ** Game.cpp: the best sum of the first player *)
Module Game.

Definition max (a b : Z) : Z := if (a >? b)%Z then a else b.
Definition min (a b : Z) : Z := if (a <? b)%Z then a else b.

(** [table[4][4]], whose entries are not set *)
Abbreviation matrix := (list array).
Definition new_table : matrix := replicate 4 (replicate 4 None).
Definition at_table (t : matrix) (i j : Z) : res Z := row ← get t i; fetch row j.
Definition set_table (t : matrix) (i j v : Z) : res matrix :=
  row ← get t i; row ← assign row j v; put t i row.

(** the entry [table[i][j]] *)
Definition fill_entry (arr : list Z) (t : matrix) (i j : Z) : res matrix :=
  x ← (if (i + 2 <=? j)%Z then at_table t (i + 2) j else mret 0%Z);
  y ← (if (i + 1 <=? j - 1)%Z then at_table t (i + 1) (j - 1) else mret 0%Z);
  z ← (if (i <=? j - 2)%Z then at_table t i (j - 2) else mret 0%Z);
  a ← get arr i; b ← get arr j;
  u ← int_add a (min x y); v ← int_add b (min y z);
  set_table t i j (max u v).
(** one diagonal: [m] entries are left *)
Fixpoint diagonal (m : nat) (arr : list Z) (t : matrix) (i j : Z) : res matrix :=
  match m with
  | O => mret t
  | S m => t ← fill_entry arr t i j; diagonal m arr t (i + 1) (j + 1)
  end.
(** the diagonals from [gap] on: [m] are left *)
Fixpoint diagonals (m : nat) (arr : list Z) (n : nat) (t : matrix) (gap : nat) : res matrix :=
  match m with
  | O => mret t
  | S m => t ← diagonal (n - gap) arr t 0 (Z.of_nat gap); diagonals m arr n t (S gap)
  end.
Definition optimalStrategyOfGame (arr : list Z) (n : nat) : res Z :=
  t ← diagonals n arr n new_table 0; at_table t 0 (Z.of_nat n - 1).

Definition main : res Z := optimalStrategyOfGame [8; 15; 3; 7]%Z 4.
End Game.

(** ** EditDistance.cpp *)
Module EditDistance.

(** the function of three arguments and the one of <algorithm> *)
Definition min (x y z : Z) : Z := Z.min (Z.min x y) z.

Fixpoint editDist (fuel : nat) (str1 str2 : list Z) (m n : Z) : res Z :=
  match fuel with
  | O => Blocked
  | S fuel =>
      if (m =? 0)%Z then mret n
      else if (n =? 0)%Z then mret m
      else
        a ← get str1 (m - 1); b ← get str2 (n - 1);
        if (a =? b)%Z then editDist fuel str1 str2 (m - 1) (n - 1)
        else
          x ← editDist fuel str1 str2 m (n - 1);
          y ← editDist fuel str1 str2 (m - 1) n;
          z ← editDist fuel str1 str2 (m - 1) (n - 1);
          int_add 1 (min x y z)
  end.

(** the lengths of "sunday" and "saturday" are enough *)
Definition main : res Z :=
  let str1 := [115; 117; 110; 100; 97; 121]%Z in
  let str2 := [115; 97; 116; 117; 114; 100; 97; 121]%Z in
  editDist 15 str1 str2 6 8.
End EditDistance.

(** ** CoverSteps.cpp *)
Module CoverSteps.

Fixpoint printCountRec (fuel : nat) (dist : Z) : res Z :=
  match fuel with
  | O => Blocked
  | S fuel =>
      if (dist <? 0)%Z then mret 0%Z
      else if (dist =? 0)%Z then mret 1%Z
      else
        a ← printCountRec fuel (dist - 1);
        b ← printCountRec fuel (dist - 2);
        s ← int_add a b;
        c ← printCountRec fuel (dist - 3);
        int_add s c
  end.
Definition main : res Z := printCountRec 8 4.
End CoverSteps.

(** ** PartitionASetIntoTwo.cpp *)
Module PartitionASetIntoTwo.

Definition int_sub (a b : Z) : res Z := int_add a (- b).

(** [abs((sumTotal - sumCalculated) - sumCalculated)] *)
Definition difference (sumCalculated sumTotal : Z) : res Z :=
  d ← int_sub sumTotal sumCalculated; d ← int_sub d sumCalculated;
  _ ← require (negb (d =? INT_MIN)%Z) Overflow; mret (Z.abs d).

Fixpoint findMinRec (i : nat) (arr : list Z) (sumCalculated sumTotal : Z) : res Z :=
  match i with
  | O => difference sumCalculated sumTotal
  | S i =>
      a ← get arr (Z.of_nat i); s ← int_add sumCalculated a;
      x ← findMinRec i arr s sumTotal;
      y ← findMinRec i arr sumCalculated sumTotal;
      mret (Z.min x y)
  end.

(** the loop over the entries from [i] on, [m] iterations left *)
Fixpoint total (m : nat) (arr : list Z) (i sumTotal : Z) : res Z :=
  match m with
  | O => mret sumTotal
  | S m => a ← get arr i; s ← int_add sumTotal a; total m arr (i + 1) s
  end.
Definition findMin (arr : list Z) (n : nat) : res Z :=
  sumTotal ← total n arr 0 0; findMinRec n arr 0 sumTotal.

Definition main : res Z := findMin [3; 1; 4; 2; 2; 1]%Z 6.
End PartitionASetIntoTwo.
