(* ===== verification/PuzzlesProps.v ===== *)
(** The exercises of [Puzzles]: each function computes what a reference definition
    says. *)

From S2P Require Import Prelude Array Int Puzzles.

(** ** Game.cpp *)
Module GameProps.
Import Game.

Section game.
Variables (arr : list Z).
Implicit Types (i j n k : nat).

(** the coin at [i], and the sum of [n] coins from [i] on *)
Definition coin i : Z := arr !!! i.
Fixpoint sum n i : Z := match n with O => 0%Z | S n => (coin i + sum n (S i))%Z end.

(** What the player to move can collect from the [n] coins from [i] on, when both
    players play for their own sum: take the first or the last coin, and of the
    rest what the opponent leaves. *)
Fixpoint best n i : Z :=
  match n with
  | O => 0%Z
  | S n => Z.max (coin i + (sum n (S i) - best n (S i))) (coin (i + n) + (sum n i - best n i))
  end.

Lemma sum_last n i : sum (S n) i = (sum n i + coin (i + n))%Z.
Proof.
  revert i. induction n as [|n IH]; intros i; [simpl; rewrite Nat.add_0_r; lia|].
  change (sum (S (S n)) i) with (coin i + sum (S n) (S i))%Z. rewrite IH. simpl sum.
  replace (S i + n) with (i + S n) by lia. lia.
Qed.

(** what the opponent leaves of [n] coins *)
Lemma rest_min n i :
  (sum (S n) i - best (S n) i = Z.min (best n (S i)) (best n i))%Z.
Proof.
  change (best (S n) i) with (Z.max (coin i + (sum n (S i) - best n (S i))) (coin (i + n) + (sum n i - best n i))).
  pose proof (sum_last n i). change (sum (S n) i) with (coin i + sum n (S i))%Z in *. lia.
Qed.

(** the recursion of the table *)
Lemma best_unfold n i :
  best (S (S n)) i = Z.max (coin i + Z.min (best n (S (S i))) (best n (S i)))
                           (coin (i + S n) + Z.min (best n (S i)) (best n i)).
Proof.
  change (best (S (S n)) i) with (Z.max (coin i + (sum (S n) (S i) - best (S n) (S i)))
    (coin (i + S n) + (sum (S n) i - best (S n) i))). by rewrite !rest_min.
Qed.

Hypothesis coins : ∀ i, (0 ≤ coin i)%Z.

Lemma sum_nonneg n i : (0 ≤ sum n i)%Z.
Proof. revert i. induction n as [|n IH]; intros i; simpl; [lia|]. specialize (IH (S i)). specialize (coins i). lia. Qed.
Lemma best_range n : ∀ i, (0 ≤ best n i ≤ sum n i)%Z.
Proof.
  induction n as [|n IH]; intros i; [simpl; lia|].
  pose proof (IH i). pose proof (IH (S i)). pose proof (sum_last n i). pose proof (coins i). pose proof (coins (i + n)).
  change (best (S n) i) with (Z.max (coin i + (sum n (S i) - best n (S i))) (coin (i + n) + (sum n i - best n i))).
  change (sum (S n) i) with (coin i + sum n (S i))%Z in *. lia.
Qed.
Lemma sum_mono n m i j : j ≤ i → i + n ≤ j + m → (sum n i ≤ sum m j)%Z.
Proof.
  revert n i j. induction m as [|m IH]; intros n i j Hle Hend.
  - assert (n = 0) as -> by lia. done.
  - destruct (decide (i = j)) as [->|Hne].
    + destruct n as [|n]; [apply sum_nonneg|]. simpl. specialize (IH n (S j) (S j) ltac:(lia) ltac:(lia)). lia.
    + simpl. specialize (IH n i (S j) ltac:(lia) ltac:(lia)). specialize (coins j). lia.
Qed.

Variable n : nat.
Hypothesis small : n ≤ 4.
Hypothesis long : n ≤ length arr.
Hypothesis fits : (sum n 0 ≤ INT_MAX)%Z.

(** the table: four rows of four entries; the first [gap] diagonals are filled, and
    the first [k] entries of the next one *)
Record filled (t : matrix) (gap k : nat) : Prop := {
  f_rows : length t = 4 ∧ Forall (λ row, length row = 4) t;
  f_entry : ∀ i j, i ≤ j → j < n → j - i < gap ∨ j - i = gap ∧ i < k →
    at_table t (Z.of_nat i) (Z.of_nat j) = Ok (best (S (j - i)) i)
}.

Lemma set_table_Ok t gap k v :
  filled t gap k → k + gap < n → v = best (S gap) k →
  ∃ t', set_table t (Z.of_nat k) (Z.of_nat (k + gap)) v = Ok t' ∧ filled t' gap (S k).
Proof.
  intros [[Hl Hr] He] Hk ->. unfold set_table.
  destruct (lookup_lt_is_Some_2 t k) as [row Hrow]; [lia|]. rewrite (get_Ok _ _ _ Hrow). cbn [mbind res_bind].
  assert (length row = 4) as Hlen by (rewrite Forall_forall in Hr; apply Hr; by eapply list_elem_of_lookup_2).
  unfold assign. rewrite put_Ok by lia. cbn [mbind res_bind]. rewrite put_Ok by lia. eexists. split; [reflexivity|].
  split.
  - rewrite length_insert. split; [done|]. apply Forall_insert; [done|by rewrite length_insert].
  - intros i j Hij Hj Hdone. unfold at_table.
    destruct (decide (i = k)) as [->|Hne].
    + rewrite (get_Ok _ _ (<[k + gap := Some (best (S gap) k)]> row)) by (apply list_lookup_insert_eq; lia). cbn [mbind res_bind].
      unfold fetch. destruct (decide (j = k + gap)) as [->|Hne].
      * rewrite (get_Ok _ _ (Some (best (S gap) k))) by (apply list_lookup_insert_eq; lia).
        replace (k + gap - k) with gap by lia. done.
      * assert (j - k < gap) as Hlt by lia. specialize (He k j Hij Hj (or_introl Hlt)). unfold at_table in He.
        rewrite (get_Ok _ _ _ Hrow) in He. cbn [mbind res_bind] in He. unfold fetch in He.
        destruct (lookup_lt_is_Some_2 row j) as [e Hrj]; [lia|]. rewrite (get_Ok _ _ e) by by rewrite list_lookup_insert_ne by lia.
        by rewrite (get_Ok _ _ _ Hrj) in He.
    + destruct (lookup_lt_is_Some_2 t i) as [row' Hrow']; [lia|].
      rewrite (get_Ok _ _ row') by by rewrite list_lookup_insert_ne.
      specialize (He i j Hij Hj ltac:(lia)). unfold at_table in He. by rewrite (get_Ok _ _ _ Hrow') in He.
Qed.

Lemma max_Zmax a b : max a b = Z.max a b.
Proof. unfold max. destruct (Z.gtb_spec a b); lia. Qed.
Lemma min_Zmin a b : min a b = Z.min a b.
Proof. unfold min. destruct (Z.ltb_spec a b); lia. Qed.

Lemma get_coin i : i < n → get arr (Z.of_nat i) = Ok (coin i).
Proof.
  intros Hi. apply get_Ok. unfold coin. destruct (lookup_lt_is_Some_2 arr i) as [x Hx]; [lia|].
  by rewrite (list_lookup_total_correct _ _ _ Hx).
Qed.

(** one entry: the three entries it needs lie on earlier diagonals *)
Lemma fill_entry_Ok t gap k :
  filled t gap k → k + gap < n →
  ∃ t', fill_entry arr t (Z.of_nat k) (Z.of_nat (k + gap)) = Ok t' ∧ filled t' gap (S k).
Proof.
  intros Hf Hk. pose proof (f_entry _ _ _ Hf) as He. unfold fill_entry.
  set (x := match gap with S (S g) => best (S g) (S (S k)) | _ => 0%Z end).
  set (y := match gap with S (S g) => best (S g) (S k) | _ => 0%Z end).
  set (z := match gap with S (S g) => best (S g) k | _ => 0%Z end).
  assert ((if (Z.of_nat k + 2 <=? Z.of_nat (k + gap))%Z then at_table t (Z.of_nat k + 2) (Z.of_nat (k + gap)) else mret 0%Z) = Ok x) as ->.
  { subst x. destruct gap as [|[|g]]; [rewrite (proj2 (Z.leb_gt _ _)) by lia; done..|].
    rewrite (proj2 (Z.leb_le _ _)) by lia. replace (Z.of_nat k + 2)%Z with (Z.of_nat (S (S k))) by lia.
    rewrite He by lia. replace (k + S (S g) - S (S k)) with g by lia. done. }
  assert ((if (Z.of_nat k + 1 <=? Z.of_nat (k + gap) - 1)%Z then at_table t (Z.of_nat k + 1) (Z.of_nat (k + gap) - 1) else mret 0%Z) = Ok y) as ->.
  { subst y. destruct gap as [|[|g]]; [rewrite (proj2 (Z.leb_gt _ _)) by lia; done..|].
    rewrite (proj2 (Z.leb_le _ _)) by lia. replace (Z.of_nat k + 1)%Z with (Z.of_nat (S k)) by lia.
    replace (Z.of_nat (k + S (S g)) - 1)%Z with (Z.of_nat (k + S g)) by lia.
    rewrite He by lia. replace (k + S g - S k) with g by lia. done. }
  assert ((if (Z.of_nat k <=? Z.of_nat (k + gap) - 2)%Z then at_table t (Z.of_nat k) (Z.of_nat (k + gap) - 2) else mret 0%Z) = Ok z) as ->.
  { subst z. destruct gap as [|[|g]]; [rewrite (proj2 (Z.leb_gt _ _)) by lia; done..|].
    rewrite (proj2 (Z.leb_le _ _)) by lia. replace (Z.of_nat (k + S (S g)) - 2)%Z with (Z.of_nat (k + g)) by lia.
    rewrite He by lia. replace (k + g - k) with g by lia. done. }
  cbn [mbind res_bind]. rewrite !get_coin by lia. cbn [mbind res_bind]. rewrite !min_Zmin.
  assert (Z.max (coin k + Z.min x y) (coin (k + gap) + Z.min y z) = best (S gap) k)%Z as Hbest.
  { subst x y z. destruct gap as [|[|g]]; [simpl; rewrite Nat.add_0_r; lia|simpl; rewrite ?Nat.add_0_r; lia|].
    by rewrite best_unfold. }
  assert (best (S gap) k ≤ INT_MAX)%Z as Hmax.
  { pose proof (best_range (S gap) k). pose proof (sum_mono (S gap) n k 0 ltac:(lia) ltac:(lia)). lia. }
  assert (0 ≤ x ∧ 0 ≤ y ∧ 0 ≤ z)%Z as (? & ? & ?).
  { subst x y z. destruct gap as [|[|g]]; [lia|lia|]. split_and!; apply best_range. }
  pose proof (coins k). pose proof (coins (k + gap)).
  rewrite int_add_Ok by (unfold INT_MIN; lia). cbn [mbind res_bind].
  rewrite int_add_Ok by (unfold INT_MIN; lia). cbn [mbind res_bind]. rewrite max_Zmax, Hbest.
  by apply set_table_Ok.
Qed.

Lemma diagonal_Ok m t gap k :
  filled t gap k → k + gap + m = n →
  ∃ t', diagonal m arr t (Z.of_nat k) (Z.of_nat (k + gap)) = Ok t' ∧ filled t' (S gap) 0.
Proof.
  revert t k. induction m as [|m IH]; intros t k Hf Hm; simpl.
  - exists t. split; [done|]. destruct Hf as [Hr He]. split; [done|]. intros i j Hij Hj Hd. apply He; lia.
  - destruct (fill_entry_Ok t gap k Hf ltac:(lia)) as (t' & -> & Hf'). cbn [mbind res_bind].
    replace (Z.of_nat k + 1)%Z with (Z.of_nat (S k)) by lia.
    replace (Z.of_nat (k + gap) + 1)%Z with (Z.of_nat (S k + gap)) by lia.
    by apply (IH t' (S k)); [|lia].
Qed.

Lemma diagonals_Ok m t gap :
  filled t gap 0 → gap + m = n → ∃ t', diagonals m arr n t gap = Ok t' ∧ filled t' n 0.
Proof.
  revert t gap. induction m as [|m IH]; intros t gap Hf Hm; simpl.
  - exists t. replace gap with n in Hf by lia. done.
  - destruct (diagonal_Ok (n - gap) t gap 0 Hf ltac:(lia)) as (t' & Hd & Hf'). change (Z.of_nat 0) with 0%Z in Hd.
    simpl in Hd. rewrite Hd. cbn [mbind res_bind]. apply (IH t' (S gap)); [done|lia].
Qed.

Lemma optimal_Ok : 0 < n → optimalStrategyOfGame arr n = Ok (best n 0).
Proof.
  intros Hn. unfold optimalStrategyOfGame. destruct (diagonals_Ok n new_table 0) as (t & -> & Hf); [|lia|].
  - split; [split; [done|repeat constructor]|]. intros i j _ _ Hd. lia.
  - cbn [mbind res_bind]. pose proof (f_entry _ _ _ Hf 0 (n - 1) ltac:(lia) ltac:(lia) ltac:(lia)) as He.
    change (Z.of_nat 0) with 0%Z in He. replace (Z.of_nat n - 1)%Z with (Z.of_nat (n - 1)) by lia. rewrite He.
    do 2 f_equal. lia.
Qed.
End game.

(** C22: for one to four coins that are not negative and whose sum is an [int],
    [optimalStrategyOfGame] is the sum that the first player can be sure of: the
    value of the game in which both take a coin from an end in turn. *)
Theorem optimalStrategy_correct arr n :
  0 < n ≤ 4 → n ≤ length arr → (∀ i, 0 ≤ coin arr i)%Z → (sum arr n 0 ≤ INT_MAX)%Z →
  optimalStrategyOfGame arr n = Ok (best arr n 0).
Proof. intros [? ?] ? ? ?. by apply optimal_Ok. Qed.

Lemma optimalStrategy_correct_witness : optimalStrategyOfGame [8; 15; 3; 7]%Z 4 = Ok 22%Z.
Proof.
  apply (optimalStrategy_correct [8; 15; 3; 7]%Z 4); [lia|simpl; lia| |by vm_compute].
  intros [|[|[|[|i]]]]; by vm_compute.
Defined.

(** The table has four rows: with more coins it is written out of bounds. *)
Theorem optimalStrategy_overflows a b c d e arr n :
  Forall (λ x, int_range x = true) [a; b; c; d; e] → 4 < n →
  optimalStrategyOfGame (a :: b :: c :: d :: e :: arr) n = Fault OutOfBounds.
Proof.
  intros Hr Hn. destruct n as [|[|[|[|[|n]]]]]; try lia.
  assert (∀ x y, int_range x = true → int_add x (min y y) = int_add x y) as Hmin.
  { intros x y _. f_equal. unfold min. by destruct (y <? y)%Z. }
  repeat (apply Forall_cons in Hr as [? Hr]).
  assert (∀ x, int_range x = true → int_add x 0 = Ok x) as Hadd.
  { intros x Hx. unfold int_add. rewrite Z.add_0_r, Hx. done. }
  unfold optimalStrategyOfGame. cbn [diagonals]. change (S (S (S (S (S n)))) - 0) with (S (S (S (S (S n))))).
  cbn [diagonal]. unfold fill_entry. simpl.
  change (min 0 0) with 0%Z. unfold max.
  repeat (rewrite Hadd by done; simpl; rewrite ?Z.gtb_ltb, ?Z.ltb_irrefl; simpl). done.
Qed.
Lemma optimalStrategy_overflows_witness : optimalStrategyOfGame [1; 2; 3; 4; 5]%Z 5 = Fault OutOfBounds.
Proof. apply (optimalStrategy_overflows 1 2 3 4 5 [] 5); [by repeat constructor|lia]. Defined.

(** no coins: the result is read in front of the table *)
Example no_coins : optimalStrategyOfGame [] 0 = Fault OutOfBounds.
Proof. vm_compute. reflexivity. Qed.
End GameProps.

(** ** EditDistance.cpp *)
Module EditDistanceProps.
Import EditDistance.

(** [edit a b k]: [k] insertions, removals and replacements turn [a] into [b] *)
Inductive edit : list Z → list Z → nat → Prop :=
  | edit_nil : edit [] [] 0
  | edit_keep x a b k : edit a b k → edit (x :: a) (x :: b) k
  | edit_insert y a b k : edit a b k → edit a (y :: b) (S k)
  | edit_remove x a b k : edit a b k → edit (x :: a) b (S k)
  | edit_replace x y a b k : edit a b k → edit (x :: a) (y :: b) (S k).
#[local] Hint Constructors edit : core.

Section edits.
Implicit Types (a b : list Z) (x y : Z) (k m n : nat).

Lemma edit_cons_snoc a b k x y : edit a b k → edit (a ++ [x]) (b ++ [x]) k ∧ edit a (b ++ [y]) (S k) ∧
  edit (a ++ [x]) b (S k) ∧ edit (a ++ [x]) (b ++ [y]) (S k).
Proof. induction 1; simpl in *; destruct_and?; split_and!; eauto. Qed.
Lemma edit_reverse_1 a b k : edit a b k → edit (reverse a) (reverse b) k.
Proof.
  induction 1 as [|x a b k H IH|y a b k H IH|x a b k H IH|x y a b k H IH]; [constructor|rewrite ?reverse_cons..].
  - by apply (edit_cons_snoc _ _ _ x x).
  - by apply (edit_cons_snoc _ _ _ y y).
  - by apply (edit_cons_snoc _ _ _ x x).
  - by apply (edit_cons_snoc _ _ _ x y).
Qed.
Lemma edit_reverse a b k : edit a b k ↔ edit (reverse a) (reverse b) k.
Proof. split; [apply edit_reverse_1|]. intros H%edit_reverse_1. by rewrite !reverse_involutive in H. Qed.

Lemma edit_nil_l b k : edit [] b k → length b ≤ k.
Proof. remember [] as a. induction 1; simplify_eq/=; try lia. specialize (IHedit eq_refl). lia. Qed.
Lemma edit_nil_r a k : edit a [] k → length a ≤ k.
Proof. remember [] as b. induction 1; simplify_eq/=; try lia. specialize (IHedit eq_refl). lia. Qed.
Lemma edit_all_insert b : edit [] b (length b).
Proof. induction b; simpl; auto. Qed.
Lemma edit_all_remove a : edit a [] (length a).
Proof. induction a; simpl; auto. Qed.

(** without the first element of one side, one operation more is enough *)
Lemma edit_drop_r a y b k : edit a (y :: b) k → ∃ k', k' ≤ S k ∧ edit a b k'.
Proof.
  remember (y :: b) as b' eqn:Hb. induction 1; simplify_eq.
  - eexists; split; [|by apply edit_remove]. lia.
  - eexists; split; [|done]. lia.
  - destruct IHedit as (k' & Hk & He); [done|]. eexists; split; [|by apply edit_remove]. lia.
  - eexists; split; [|by apply edit_remove]. lia.
Qed.
Lemma edit_drop_l x a b k : edit (x :: a) b k → ∃ k', k' ≤ S k ∧ edit a b k'.
Proof.
  remember (x :: a) as a' eqn:Ha. induction 1; simplify_eq.
  - eexists; split; [|by apply edit_insert]. lia.
  - destruct IHedit as (k' & Hk & He); [done|]. eexists; split; [|by apply edit_insert]. lia.
  - eexists; split; [|done]. lia.
  - eexists; split; [|by apply edit_insert]. lia.
Qed.
(** an equal first element need not be touched *)
Lemma edit_same x a b k : edit (x :: a) (x :: b) k → ∃ k', k' ≤ k ∧ edit a b k'.
Proof. inversion 1; subst; [by exists k|by eapply edit_drop_l|by eapply edit_drop_r|eexists; split; [|done]; lia]. Qed.

(** the distance is [d] *)
Definition distance a b (d : nat) : Prop := edit a b d ∧ (∀ k, edit a b k → d ≤ k).

Lemma distance_nil_l b : distance [] b (length b).
Proof. split; [apply edit_all_insert|apply edit_nil_l]. Qed.
Lemma distance_nil_r a : distance a [] (length a).
Proof. split; [apply edit_all_remove|intros k; apply edit_nil_r]. Qed.
Lemma distance_same x a b d : distance a b d → distance (x :: a) (x :: b) d.
Proof.
  intros [He Hmin]. split; [auto|]. intros k (k' & Hk & H)%edit_same. specialize (Hmin k' H). lia.
Qed.
Lemma distance_differ x y a b d1 d2 d3 :
  x ≠ y → distance (x :: a) b d1 → distance a (y :: b) d2 → distance a b d3 →
  distance (x :: a) (y :: b) (S ((d1 `min` d2) `min` d3)).
Proof.
  intros Hne [H1 M1] [H2 M2] [H3 M3]. split.
  - destruct (Nat.min_dec (d1 `min` d2) d3) as [->| ->]; [|auto]. destruct (Nat.min_dec d1 d2) as [->| ->]; auto.
  - intros k. inversion 1 as [| |? ? ? k' Hk|? ? ? k' Hk|? ? ? ? k' Hk]; subst; [done|..].
    + specialize (M1 _ Hk). lia.
    + specialize (M2 _ Hk). lia.
    + specialize (M3 _ Hk). lia.
Qed.
Lemma distance_reverse a b d : distance a b d ↔ distance (reverse a) (reverse b) d.
Proof.
  unfold distance. rewrite (edit_reverse a b). split; intros [He Hmin]; (split; [done|]); intros k Hk; apply Hmin.
  - by rewrite edit_reverse.
  - by rewrite <- edit_reverse.
Qed.
Lemma distance_bound a b d : distance a b d → d ≤ length a + length b.
Proof.
  intros [_ Hmin]. apply Hmin. clear Hmin. induction a as [|x a IH]; simpl; [apply edit_all_insert|auto].
Qed.

Lemma get_last (str : list Z) m : m < length str → get str (Z.of_nat (S m) - 1) = Ok (str !!! m) ∧ take (S m) str = take m str ++ [str !!! m].
Proof.
  intros Hm. destruct (lookup_lt_is_Some_2 str m Hm) as [x Hx]. rewrite (list_lookup_total_correct _ _ _ Hx).
  replace (Z.of_nat (S m) - 1)%Z with (Z.of_nat m) by lia. split; [by apply get_Ok|by apply take_S_r].
Qed.

Lemma editDist_Ok fuel str1 str2 m n :
  m ≤ length str1 → n ≤ length str2 → m + n < fuel → (Z.of_nat (m + n) < INT_MAX)%Z →
  ∃ d, editDist fuel str1 str2 (Z.of_nat m) (Z.of_nat n) = Ok (Z.of_nat d) ∧
       distance (reverse (take m str1)) (reverse (take n str2)) d.
Proof.
  revert m n. induction fuel as [|fuel IH]; intros m n Hm Hn Hf Hi; [lia|]. cbn [editDist].
  destruct m as [|m]; [exists n; split; [done|]|].
  { pose proof (distance_nil_l (reverse (take n str2))) as H. by rewrite length_reverse, length_take_le in H. }
  rewrite (proj2 (Z.eqb_neq _ _)) by lia. destruct n as [|n]; [exists (S m); split; [done|]|].
  { pose proof (distance_nil_r (reverse (take (S m) str1))) as H. by rewrite length_reverse, length_take_le in H. }
  rewrite (proj2 (Z.eqb_neq _ _)) by lia.
  destruct (get_last str1 m) as [-> Ht1]; [lia|]. destruct (get_last str2 n) as [-> Ht2]; [lia|]. cbn [mbind res_bind].
  replace (Z.of_nat (S m) - 1)%Z with (Z.of_nat m) by lia. replace (Z.of_nat (S n) - 1)%Z with (Z.of_nat n) by lia.
  destruct (IH m n) as (d3 & -> & H3); [lia..|].
  rewrite Ht1, Ht2, !reverse_app, !reverse_singleton.
  change ([?x] ++ ?l) with (x :: l). cbn [app]. destruct (Z.eqb_spec (str1 !!! m) (str2 !!! n)) as [->|Hne].
  { exists d3. split; [done|]. by apply distance_same. }
  destruct (IH (S m) n) as (d1 & -> & H1); [lia..|]. destruct (IH m (S n)) as (d2 & -> & H2); [lia..|].
  cbn [mbind res_bind]. rewrite Ht1, reverse_app, reverse_singleton in H1. rewrite Ht2, reverse_app, reverse_singleton in H2.
  pose proof (distance_differ _ _ _ _ d1 d2 d3 Hne H1 H2 H3) as Hd. pose proof (distance_bound _ _ _ Hd) as Hb.
  simpl in Hb. rewrite !length_reverse, !length_take_le in Hb by lia.
  exists (S ((d1 `min` d2) `min` d3)). split; [|done]. unfold min. rewrite int_add_Ok by (unfold INT_MIN; lia). f_equal. lia.
Qed.
End edits.

(** C29: [editDist] on whole strings is the edit distance: that many insertions,
    removals and replacements turn the first into the second, and no fewer do. *)
Theorem editDist_correct fuel str1 str2 :
  length str1 + length str2 < fuel → (Z.of_nat (length str1 + length str2) < INT_MAX)%Z →
  ∃ d, editDist fuel str1 str2 (Z.of_nat (length str1)) (Z.of_nat (length str2)) = Ok (Z.of_nat d) ∧
       edit str1 str2 d ∧ ∀ k, edit str1 str2 k → d ≤ k.
Proof.
  intros Hf Hi. destruct (editDist_Ok fuel str1 str2 (length str1) (length str2)) as (d & Hr & Hd); [done..|].
  exists d. split; [done|]. rewrite !firstn_all, <- distance_reverse in Hd. exact Hd.
Qed.
Lemma editDist_correct_witness :
  ∃ d, editDist 5 [1; 2]%Z [2; 1]%Z 2 2 = Ok (Z.of_nat d) ∧
       edit [1; 2]%Z [2; 1]%Z d ∧ ∀ k, edit [1; 2]%Z [2; 1]%Z k → d ≤ k.
Proof. apply (editDist_correct 5 [1; 2]%Z [2; 1]%Z); [simpl; lia|by vm_compute]. Defined.

(** sunday, saturday *)
Example editDist_output : main = Ok 3%Z.
Proof. vm_compute. reflexivity. Qed.
End EditDistanceProps.

(** ** CoverSteps.cpp *)
Module CoverStepsProps.
Import CoverSteps.

(** all ways to cover a distance, by the first step; [n] is enough fuel for [n] *)
Fixpoint ways (fuel : nat) (d : Z) : list (list Z) :=
  match fuel with
  | O => []
  | S fuel =>
      if decide (d < 0)%Z then []
      else if decide (d = 0)%Z then [[]]
      else (cons 1%Z <$> ways fuel (d - 1)) ++ (cons 2%Z <$> ways fuel (d - 2)) ++ (cons 3%Z <$> ways fuel (d - 3))
  end.
Definition is_way (d : Z) (w : list Z) : Prop := Forall (λ s, 1 ≤ s ≤ 3)%Z w ∧ foldr Z.add 0%Z w = d.

Lemma ways_unfold fuel d : (0 < d)%Z →
  ways (S fuel) d = (cons 1%Z <$> ways fuel (d - 1)) ++ (cons 2%Z <$> ways fuel (d - 2)) ++ (cons 3%Z <$> ways fuel (d - 3)).
Proof.
  intros Hd. simpl. by rewrite decide_False, decide_False by lia.
Qed.

Lemma way_nonneg d w : is_way d w → (0 ≤ d)%Z.
Proof.
  intros [Hw <-]. induction Hw as [|s w Hs Hw IH]; simpl; lia.
Qed.

Lemma ways_elem fuel d w : (d < Z.of_nat fuel)%Z → w ∈ ways fuel d ↔ is_way d w.
Proof.
  revert d w. induction fuel as [|fuel IH]; intros d w Hf.
  { split; [by intros ?%not_elem_of_nil|]. intros ?%way_nonneg. lia. }
  destruct (decide (d < 0)%Z) as [Hd|Hd].
  { simpl. rewrite decide_True by done. split; [by intros ?%not_elem_of_nil|]. intros ?%way_nonneg. lia. }
  destruct (decide (d = 0)%Z) as [->|Hd0].
  { simpl. rewrite list_elem_of_singleton. split; [intros ->; by split|]. intros [Hw Hs]. destruct Hw as [|s w Hs1 Hw]; [done|].
    assert (0 ≤ foldr Z.add 0 w)%Z by (eapply way_nonneg; by split). simpl in Hs. lia. }
  rewrite ways_unfold by lia. rewrite !elem_of_app, !list_elem_of_fmap. split.
  - intros [(v & -> & Hv)|[(v & -> & Hv)|(v & -> & Hv)]]; apply IH in Hv as [Hv Hs]; try lia;
      (split; [constructor; [lia|done]|simpl; lia]).
  - intros [Hw Hs]. destruct Hw as [|s v Hs1 Hv]; simpl in Hs; [lia|].
    assert (s = 1 ∨ s = 2 ∨ s = 3)%Z as [->|[->| ->]] by lia; [left|right; left|right; right];
      (exists v; split; [done|]; apply IH; [lia|]; split; [done|lia]).
Qed.

Lemma ways_NoDup fuel d : NoDup (ways fuel d).
Proof.
  revert d. induction fuel as [|fuel IH]; intros d; [constructor|]. simpl.
  destruct (decide (d < 0)%Z); [constructor|]. destruct (decide (d = 0)%Z); [apply NoDup_singleton|].
  assert (∀ s e, NoDup (cons s <$> ways fuel e)) as Hn by (intros s e; apply NoDup_fmap; [by intros ? ? [=]|apply IH]).
  apply list.NoDup_app. split; [apply Hn|]. split.
  - intros w (v & -> & _)%list_elem_of_fmap. rewrite elem_of_app, !list_elem_of_fmap. naive_solver.
  - apply list.NoDup_app. split; [apply Hn|]. split; [|apply Hn].
    intros w (v & -> & _)%list_elem_of_fmap. rewrite list_elem_of_fmap. naive_solver.
Qed.

(** the number of ways *)
Definition count (fuel : nat) (d : Z) : Z := Z.of_nat (length (ways fuel d)).
Lemma count_unfold fuel d : (0 < d)%Z → count (S fuel) d = (count fuel (d - 1) + count fuel (d - 2) + count fuel (d - 3))%Z.
Proof. intros Hd. unfold count. rewrite ways_unfold, !length_app, !length_fmap by done. lia. Qed.
Lemma count_nonneg fuel d : (0 ≤ count fuel d)%Z.
Proof. unfold count. lia. Qed.

Lemma printCountRec_count fuel d :
  (Z.max 0 d < Z.of_nat fuel)%Z →
  printCountRec fuel d = if decide (count fuel d ≤ INT_MAX)%Z then Ok (count fuel d) else Fault Overflow.
Proof.
  revert d. induction fuel as [|fuel IH]; intros d Hf; [lia|]. cbn [printCountRec].
  destruct (Z.ltb_spec d 0) as [Hd|Hd].
  { assert (count (S fuel) d = 0%Z) as -> by (unfold count; simpl; by rewrite decide_True). done. }
  destruct (Z.eqb_spec d 0) as [->|Hd0]; [done|].
  pose proof (count_nonneg fuel (d - 1)). pose proof (count_nonneg fuel (d - 2)). pose proof (count_nonneg fuel (d - 3)).
  rewrite count_unfold by lia. rewrite !IH by lia.
  destruct (decide (count fuel (d - 1) ≤ INT_MAX)%Z); cbn [mbind res_bind]; [|by rewrite decide_False by lia].
  destruct (decide (count fuel (d - 2) ≤ INT_MAX)%Z); cbn [mbind res_bind]; [|by rewrite decide_False by lia].
  destruct (decide (count fuel (d - 1) + count fuel (d - 2) ≤ INT_MAX)%Z).
  - rewrite int_add_Ok by (unfold INT_MIN; lia). cbn [mbind res_bind].
    destruct (decide (count fuel (d - 3) ≤ INT_MAX)%Z); cbn [mbind res_bind]; [|by rewrite decide_False by lia].
    destruct (decide (count fuel (d - 1) + count fuel (d - 2) + count fuel (d - 3) ≤ INT_MAX)%Z).
    + by rewrite int_add_Ok by (unfold INT_MIN; lia).
    + by rewrite int_add_Overflow by lia.
  - rewrite int_add_Overflow by lia. cbn [mbind res_bind]. by rewrite decide_False by lia.
Qed.

(** [printCountRec] is the number of ways to cover the distance with steps of
    1, 2 and 3 (the length of a list of all of them, each once), and overflows
    exactly when that number is no [int]. *)
Theorem printCountRec_correct fuel d :
  (Z.max 0 d < Z.of_nat fuel)%Z →
  ∃ ws, NoDup ws ∧ (∀ w, w ∈ ws ↔ is_way d w) ∧
    printCountRec fuel d = if decide (Z.of_nat (length ws) ≤ INT_MAX)%Z then Ok (Z.of_nat (length ws))
                           else Fault Overflow.
Proof.
  intros Hf. exists (ways fuel d). split; [apply ways_NoDup|]. split; [intros w; apply ways_elem; lia|].
  by apply printCountRec_count.
Qed.
Lemma printCountRec_correct_witness :
  ∃ ws, NoDup ws ∧ (∀ w, w ∈ ws ↔ is_way 4 w) ∧
    printCountRec 5 4 = if decide (Z.of_nat (length ws) ≤ INT_MAX)%Z then Ok (Z.of_nat (length ws)) else Fault Overflow.
Proof. apply (printCountRec_correct 5 4). lia. Defined.

Example printCountRec_output : main = Ok 7%Z.
Proof. vm_compute. reflexivity. Qed.
End CoverStepsProps.

(** ** PartitionASetIntoTwo.cpp *)
Module PartitionProps.
Import PartitionASetIntoTwo.

Definition total_of (l : list Z) : Z := foldr Z.add 0%Z l.
(** the sum of the absolute values, which bounds every intermediate result *)
Definition weight (l : list Z) : Z := total_of (Z.abs <$> l).

Lemma total_of_app a b : total_of (a ++ b) = (total_of a + total_of b)%Z.
Proof. induction a; simpl; lia. Qed.
#[local] Instance total_of_Permutation : Proper ((≡ₚ) ==> (=)) total_of.
Proof. induction 1; simpl; lia. Qed.
Lemma weight_app a b : weight (a ++ b) = (weight a + weight b)%Z.
Proof. unfold weight. by rewrite fmap_app, total_of_app. Qed.
Lemma weight_cons x a : weight (x :: a) = (Z.abs x + weight a)%Z.
Proof. done. Qed.
Lemma total_of_cons x a : total_of (x :: a) = (x + total_of a)%Z.
Proof. done. Qed.
Lemma weight_ge_0 a : (0 ≤ weight a)%Z.
Proof. induction a as [|x a IH]; [done|]. rewrite weight_cons. lia. Qed.
Lemma total_weight a : (- weight a ≤ total_of a ≤ weight a)%Z.
Proof. induction a as [|x a IH]; [done|]. rewrite weight_cons, total_of_cons. lia. Qed.

(** [d] is the least difference between the sums of two sets that make up [l], when
    [s] and [s'] are added to them *)
Definition least (l : list Z) (s s' d : Z) : Prop :=
  (∃ a b, a ++ b ≡ₚ l ∧ d = Z.abs ((s + total_of a) - (s' + total_of b)))%Z ∧
  (∀ a b, a ++ b ≡ₚ l → d ≤ Z.abs ((s + total_of a) - (s' + total_of b)))%Z.

Lemma least_nil s s' : least [] s s' (Z.abs (s - s')).
Proof.
  split.
  - exists [], []. split; [done|]. simpl. lia.
  - intros a b [-> ->]%Permutation_nil_r%app_nil. simpl. lia.
Qed.
Lemma least_snoc l x s s' d1 d2 :
  least l (s + x) s' d1 → least l s (s' + x) d2 → least (l ++ [x]) s s' (Z.min d1 d2).
Proof.
  intros [(a1 & b1 & P1 & E1) M1] [(a2 & b2 & P2 & E2) M2]. split.
  - destruct (Z.min_dec d1 d2) as [->| ->].
    + exists (x :: a1), b1. split; [simpl; by rewrite P1, Permutation_cons_append|]. rewrite E1. simpl. lia.
    + exists a2, (x :: b2). split; [by rewrite <- Permutation_middle, P2, Permutation_cons_append|]. rewrite E2. simpl. lia.
  - intros a b Hp. assert (x ∈ a ++ b) as Hx by (rewrite Hp; set_solver).
    rewrite <- Permutation_cons_append in Hp.
    apply elem_of_app in Hx as [(a' & Ha)%elem_of_Permutation|(b' & Hb)%elem_of_Permutation].
    + rewrite Ha in Hp |- *. simpl in Hp. apply (inj (x ::.)) in Hp. specialize (M1 _ _ Hp). simpl. lia.
    + rewrite Hb in Hp |- *. rewrite <- Permutation_middle in Hp. apply (inj (x ::.)) in Hp. specialize (M2 _ _ Hp). simpl. lia.
Qed.

Lemma difference_Ok s t : (- INT_MAX ≤ t - s ≤ INT_MAX)%Z → (- INT_MAX ≤ t - s - s ≤ INT_MAX)%Z →
  difference s t = Ok (Z.abs (s - (t - s))).
Proof.
  intros H1 H2. unfold difference, int_sub.
  rewrite int_add_Ok by (unfold INT_MIN, INT_MAX in *; lia). cbn [mbind res_bind].
  rewrite int_add_Ok by (unfold INT_MIN, INT_MAX in *; lia). cbn [mbind res_bind].
  rewrite (proj2 (Z.eqb_neq _ _)) by (unfold INT_MIN, INT_MAX in *; lia). cbn. f_equal. lia.
Qed.

(** [s] is the sum of the entries behind the first [i] that are in the first set *)
Lemma findMinRec_Ok i arr s s' :
  i ≤ length arr → (Z.abs s + Z.abs s' + weight (take i arr) ≤ INT_MAX)%Z →
  ∃ d, findMinRec i arr s (s + s' + total_of (take i arr)) = Ok d ∧ least (take i arr) s s' d.
Proof.
  revert s s'. induction i as [|i IH]; intros s s' Hi Hw.
  - simpl in *. rewrite difference_Ok by (unfold weight in Hw; simpl in Hw; lia).
    eexists. split; [reflexivity|]. replace (s - (s + s' + 0 - s))%Z with (s - s')%Z by lia. apply least_nil.
  - destruct (lookup_lt_is_Some_2 arr i) as [x Hx]; [lia|]. rewrite (take_S_r _ _ _ Hx) in *.
    rewrite weight_app in Hw. rewrite total_of_app. pose proof (weight_ge_0 (take i arr)).
    assert (weight [x] = Z.abs x) as Hx1 by (unfold weight; simpl; lia). assert (total_of [x] = x) as Hx2 by (simpl; lia).
    rewrite Hx1 in Hw. rewrite Hx2. cbn [findMinRec]. rewrite (get_Ok _ _ _ Hx). cbn [mbind res_bind].
    rewrite int_add_Ok by (unfold INT_MIN, INT_MAX in *; lia). cbn [mbind res_bind].
    destruct (IH (s + x)%Z s') as (d1 & Hd1 & L1); [lia|lia|]. destruct (IH s (s' + x)%Z) as (d2 & Hd2 & L2); [lia|lia|].
    replace (s + x + s' + total_of (take i arr))%Z with (s + s' + (total_of (take i arr) + x))%Z in Hd1 by lia.
    replace (s + (s' + x) + total_of (take i arr))%Z with (s + s' + (total_of (take i arr) + x))%Z in Hd2 by lia.
    rewrite Hd1. cbn [mbind res_bind]. rewrite Hd2. cbn [mbind res_bind]. eexists. split; [reflexivity|]. by apply least_snoc.
Qed.

Lemma total_Ok m arr i s :
  i + m = length arr → (Z.abs s + weight (drop i arr) ≤ INT_MAX)%Z →
  total m arr (Z.of_nat i) s = Ok (s + total_of (drop i arr))%Z.
Proof.
  revert i s. induction m as [|m IH]; intros i s Hi Hw; simpl.
  - rewrite drop_ge by lia. simpl. f_equal. lia.
  - destruct (lookup_lt_is_Some_2 arr i) as [x Hx]; [lia|]. rewrite (get_Ok _ _ _ Hx). cbn [mbind res_bind].
    rewrite (drop_S _ _ _ Hx) in *. rewrite weight_cons in Hw.
    pose proof (weight_ge_0 (drop (S i) arr)).
    rewrite int_add_Ok by (unfold INT_MIN, INT_MAX in *; lia). cbn [mbind res_bind].
    replace (Z.of_nat i + 1)%Z with (Z.of_nat (S i)) by lia. rewrite IH by lia. simpl. f_equal. lia.
Qed.

(** [findMin] is the least difference between the sums of two sets into which
    the entries can be divided. *)
Theorem findMin_correct arr :
  (weight arr ≤ INT_MAX)%Z →
  ∃ d, findMin arr (length arr) = Ok d ∧
    (∃ a b, a ++ b ≡ₚ arr ∧ d = Z.abs (total_of a - total_of b)) ∧
    (∀ a b, a ++ b ≡ₚ arr → d ≤ Z.abs (total_of a - total_of b))%Z.
Proof.
  intros Hw. unfold findMin. pose proof (total_Ok (length arr) arr 0 0) as Ht. rewrite drop_0 in Ht.
  change (Z.of_nat 0) with 0%Z in Ht. rewrite Ht by (simpl; lia). cbn [mbind res_bind].
  destruct (findMinRec_Ok (length arr) arr 0 0) as (d & Hd & L); [lia|rewrite firstn_all; simpl; lia|].
  rewrite firstn_all in *. exists d. split; [exact Hd|exact L].
Qed.
Lemma findMin_correct_witness :
  ∃ d, findMin [3; 1; 4]%Z 3 = Ok d ∧
    (∃ a b, a ++ b ≡ₚ [3; 1; 4]%Z ∧ d = Z.abs (total_of a - total_of b)) ∧
    (∀ a b, a ++ b ≡ₚ [3; 1; 4]%Z → d ≤ Z.abs (total_of a - total_of b))%Z.
Proof. apply (findMin_correct [3; 1; 4]%Z). by vm_compute. Defined.

Example findMin_output : main = Ok 1%Z.
Proof. vm_compute. reflexivity. Qed.
End PartitionProps.
