(* ===== verification/ArrayPuzzles.v ===== *)
(** Exercises on arrays with a search: FindLongestPath.cpp,
    ArrayUnionAndIntersection.cpp, Triplets.cpp and GeneratePairsFromArray.cpp,
    one Module each.  Printed lines are results. *)

From stdpp Require Import sorting.
From S2P Require Import Prelude Array Int.

(** ** FindLongestPath.cpp *)
Module FindLongestPath.

Definition n : Z := 3.
Abbreviation matrix := (list (list Z)).
Definition at_matrix (m : matrix) (i j : Z) : res Z := row ← get m i; get row j.
Definition set_matrix (m : matrix) (i j v : Z) : res matrix :=
  row ← get m i; row ← put row j v; put m i row.

(** [mat[i][j] + 1 == mat[k][l]] *)
Definition follows (mat : matrix) (i j k l : Z) : res bool :=
  v ← at_matrix mat i j; v ← int_add v 1; w ← at_matrix mat k l; mret (v =? w)%Z.
(** [c && b], where [b] is only evaluated when [c] holds *)
Definition cand (c : bool) (b : res bool) : res bool := if c then b else mret false.

(** the result and [dp] *)
Fixpoint findLongestFromACell (fuel : nat) (i j : Z) (mat dp : matrix) : res (Z * matrix) :=
  match fuel with
  | O => Blocked
  | S fuel =>
      let go (k l : Z) : res (Z * matrix) :=
        '(d, dp) ← findLongestFromACell fuel k l mat dp;
        d ← int_add 1 d; dp ← set_matrix dp i j d; mret (d, dp) in
      d ← at_matrix dp i j;
      if negb (d =? -1)%Z then mret (d, dp)
      else
        right ← cand (j <? n - 1)%Z (follows mat i j i (j + 1));
        if right : bool then go i (j + 1)%Z
        else
          left ← cand (j >? 0)%Z (follows mat i j i (j - 1));
          if left : bool then go i (j - 1)%Z
          else
            up ← cand (i >? 0)%Z (follows mat i j (i - 1) j);
            if up : bool then go (i - 1)%Z j
            else
              down ← cand (i <? n - 1)%Z (follows mat i j (i + 1) j);
              if down : bool then go (i + 1)%Z j
              else dp ← set_matrix dp i j 1; mret (1%Z, dp)
  end.

(** the two loops, over the cells that are left; the result and [dp] *)
Fixpoint overall_loop (fuel : nat) (cells : list (Z * Z)) (mat dp : matrix) (result : Z) : res Z :=
  match cells with
  | [] => mret result
  | (i, j) :: cells =>
      d ← at_matrix dp i j;
      dp ← (if (d =? -1)%Z then '(_, dp) ← findLongestFromACell fuel i j mat dp; mret dp else mret dp);
      d ← at_matrix dp i j;
      overall_loop fuel cells mat dp (Z.max result d)
  end.
Definition all_cells : list (Z * Z) :=
  [(0, 0); (0, 1); (0, 2); (1, 0); (1, 1); (1, 2); (2, 0); (2, 1); (2, 2)]%Z.
Definition finLongestOverAll (fuel : nat) (mat : matrix) : res Z :=
  overall_loop fuel all_cells mat (replicate 3 (replicate 3 (-1)%Z)) 1.

Definition main : res Z := finLongestOverAll 10 [[1; 2; 9]; [5; 3; 8]; [4; 6; 7]]%Z.
End FindLongestPath.

(** ** ArrayUnionAndIntersection.cpp *)
Module ArrayUnionAndIntersection.

(** [while (i < m) printf(arr[i++])] *)
Fixpoint print_rest (fuel : nat) (arr : list Z) (m i : Z) : res (list Z) :=
  match fuel with
  | O => Blocked
  | S fuel =>
      if (i <? m)%Z then x ← get arr i; out ← print_rest fuel arr m (i + 1); mret (x :: out)
      else mret []
  end.

Fixpoint union_loop (fuel : nat) (arr1 arr2 : list Z) (m n i j : Z) : res (list Z) :=
  match fuel with
  | O => Blocked
  | S fuel =>
      if (i <? m)%Z && (j <? n)%Z then
        a ← get arr1 i; b ← get arr2 j;
        if (a <? b)%Z then
          x ← get arr1 i; out ← union_loop fuel arr1 arr2 m n (i + 1) j; mret (x :: out)
        else
          b ← get arr2 j; a ← get arr1 i;
          if (b <? a)%Z then
            x ← get arr2 j; out ← union_loop fuel arr1 arr2 m n i (j + 1); mret (x :: out)
          else
            x ← get arr2 j; out ← union_loop fuel arr1 arr2 m n (i + 1) (j + 1); mret (x :: out)
      else
        out1 ← print_rest (S fuel) arr1 m i; out2 ← print_rest (S fuel) arr2 n j; mret (out1 ++ out2)
  end.
Definition printUnion (fuel : nat) (arr1 arr2 : list Z) (m n : Z) : res (list Z) :=
  union_loop fuel arr1 arr2 m n 0 0.

Fixpoint intersection_loop (fuel : nat) (arr1 arr2 : list Z) (m n i j : Z) : res (list Z) :=
  match fuel with
  | O => Blocked
  | S fuel =>
      if (i <? m)%Z && (j <? n)%Z then
        a ← get arr1 i; b ← get arr2 j;
        if (a <? b)%Z then intersection_loop fuel arr1 arr2 m n (i + 1) j
        else
          b ← get arr2 j; a ← get arr1 i;
          if (b <? a)%Z then intersection_loop fuel arr1 arr2 m n i (j + 1)
          else
            x ← get arr2 j; out ← intersection_loop fuel arr1 arr2 m n (i + 1) (j + 1); mret (x :: out)
      else mret []
  end.
Definition printIntersection (fuel : nat) (arr1 arr2 : list Z) (m n : Z) : res (list Z) :=
  intersection_loop fuel arr1 arr2 m n 0 0.

Definition main : res (list Z) := printIntersection 10 [1; 2; 4; 5; 6]%Z [2; 3; 5; 7]%Z 5 4.
End ArrayUnionAndIntersection.

(** ** Triplets.cpp *)
Module Triplets.

Definition MaxBound : Z := 12.
Definition numDigis : nat := 5.

(** What a call leaves: the lines printed, [counter], and whether it returned true;
    [None] when [exit] ended the program.  The total that is printed before the
    exit is the counter. *)
Record outcome := mk_outcome { lines : list (list Z); counter : Z; result : option bool }.

(** [RecursiveFindTiplets], and its loop from [i] on *)
Fixpoint RecursiveFindTiplets (fuel : nat) (elements : list Z) (sum : Z) (currentsolution : list Z)
    (start : nat) (count : Z) : res outcome :=
  match fuel with
  | O => Blocked
  | S fuel =>
      if bool_decide (length currentsolution = 3%nat) && (sum <? MaxBound)%Z then
        count ← int_add count 1; mret (mk_outcome [currentsolution] count (Some false))
      else if (sum >=? MaxBound)%Z then mret (mk_outcome [] count (Some true))
      else
        (fix loop (m i : nat) (count : Z) : res outcome :=
           match m with
           | O => mret (mk_outcome [] count (Some false))
           | S m =>
               if bool_decide (length currentsolution = numDigis) then mret (mk_outcome [] count (Some false))
               else
                 e ← get elements (Z.of_nat i);
                 s ← int_add sum e;
                 o ← RecursiveFindTiplets fuel elements s (currentsolution ++ [e]) (S i) count;
                 match result o with
                 | Some false => o' ← loop m (S i) (counter o); mret (mk_outcome (lines o ++ lines o') (counter o') (result o'))
                 | _ => mret (mk_outcome (lines o) (counter o) None)
                 end
           end) (length elements - start) start count
  end.

Definition tmain : res outcome :=
  RecursiveFindTiplets 4 (merge_sort Z.le [5; 1; 3; 4; 7]%Z) 0 [] 0 0.

(** the inner loop; the result is [ans] *)
Fixpoint count_pairs (fuel : nat) (arr : list Z) (i j k sum ans : Z) : res Z :=
  match fuel with
  | O => Blocked
  | S fuel =>
      if (j <? k)%Z then
        a ← get arr i; b ← get arr j; c ← get arr k;
        ab ← int_add a b; abc ← int_add ab c;
        if (abc >=? sum)%Z then count_pairs fuel arr i j (k - 1) sum ans
        else ans ← int_add ans (k - j); count_pairs fuel arr i (j + 1) k sum ans
      else mret ans
  end.
(** the outer loop, [m] iterations left *)
Fixpoint count_loop (m : nat) (arr : list Z) (n i sum ans : Z) : res Z :=
  match m with
  | O => mret ans
  | S m =>
      ans ← count_pairs (S (length arr)) arr i (i + 1) (n - 1) sum ans;
      count_loop m arr n (i + 1) sum ans
  end.
(** [n] is the length of the array; [sort] is the one of <algorithm> *)
Definition countTriplets (arr : list Z) (sum : Z) : res Z :=
  let arr := merge_sort Z.le arr in
  count_loop (length arr - 2) arr (Z.of_nat (length arr)) 0 sum 0.
End Triplets.

(** ** GeneratePairsFromArray.cpp *)
Module GeneratePairsFromArray.

(** [printArr(C, n)]: the entries that are printed *)
Fixpoint printArr (m : nat) (arr : array) (i : Z) : res (list Z) :=
  match m with
  | O => mret []
  | S m => x ← fetch arr i; out ← printArr m arr (i + 1); mret (x :: out)
  end.

(** the lines that are printed, and the array [C] *)
Fixpoint generateUtil (fuel : nat) (A B : list Z) (C : array) (i j len : nat) (flag : bool) : res (list (list Z) * array) :=
  match fuel with
  | O => Blocked
  | S fuel =>
      if flag then
        first ← (if bool_decide (len = 0) then mret [] else l ← printArr (len + 1) C 0; mret [l]);
        '(out, C) ←
          (fix loop (m k : nat) (C : array) : res (list (list Z) * array) :=
             match m with
             | O => mret ([], C)
             | S m =>
                 '(out, C) ←
                   (if bool_decide (len = 0) then
                      a ← get A (Z.of_nat k); C ← assign C (Z.of_nat len) a;
                      generateUtil fuel A B C (k + 1) j len (negb flag)
                    else
                      a ← get A (Z.of_nat k); c ← fetch C (Z.of_nat len);
                      if (a >? c)%Z then
                        a ← get A (Z.of_nat k); C ← assign C (Z.of_nat len + 1) a;
                        generateUtil fuel A B C (k + 1) j (len + 1) (negb flag)
                      else mret ([], C));
                 '(outs, C) ← loop m (S k) C;
                 mret (out ++ outs, C)
             end) (length A - i) i C;
        mret (first ++ out, C)
      else
        (fix loop (m l : nat) (C : array) : res (list (list Z) * array) :=
           match m with
           | O => mret ([], C)
           | S m =>
               '(out, C) ←
                 (b ← get B (Z.of_nat l); c ← fetch C (Z.of_nat len);
                  if (b >? c)%Z then
                    b ← get B (Z.of_nat l); C ← assign C (Z.of_nat len + 1) b;
                    generateUtil fuel A B C i (l + 1) (len + 1) (negb flag)
                  else mret ([], C));
               '(outs, C) ← loop m (S l) C;
               mret (out ++ outs, C)
           end) (length B - j) j C
  end.

(** [m] and [n] are the lengths of the arrays *)
Definition generate (fuel : nat) (A B : list Z) : res (list (list Z)) :=
  '(out, _) ← generateUtil fuel A B (replicate 6 None) 0 0 0 true; mret out.
Definition main : res (list (list Z)) := generate 8 [10; 15; 25]%Z [5; 20; 30]%Z.
End GeneratePairsFromArray.
