(* ===== verification/ArrayPuzzlesProps.v ===== *)
(** The exercises of [ArrayPuzzles]: each function computes what a reference
    definition says. *)

From stdpp Require Import sorting.
From S2P Require Import Prelude Array Int ArrayPuzzles.

(** ** FindLongestPath.cpp *)
Module LongestPathProps.
Import FindLongestPath.

(** a cell of the matrix *)
Definition cell : Type := nat * nat.
Definition inside (c : cell) : Prop := c.1 < 3 ∧ c.2 < 3.
Definition grid : list cell := [(0, 0); (0, 1); (0, 2); (1, 0); (1, 1); (1, 2); (2, 0); (2, 1); (2, 2)].
Lemma grid_inside c : inside c ↔ c ∈ grid.
Proof.
  split.
  - destruct c as [i j]. intros [Hi Hj]. simpl in *. unfold grid.
    destruct i as [|[|[|i]]]; [| | |lia]; (destruct j as [|[|[|j]]]; [| | |lia]); set_solver.
  - unfold grid, inside. intros Hc. repeat (apply elem_of_cons in Hc as [->|Hc]; [simpl; lia|]). by apply not_elem_of_nil in Hc.
Qed.

Section longest.
Variable mat : matrix.

Definition val (c : cell) : Z := (mat !!! c.1) !!! c.2.
Definition adjacent (c d : cell) : Prop :=
  c.1 = d.1 ∧ (S c.2 = d.2 ∨ c.2 = S d.2) ∨ c.2 = d.2 ∧ (S c.1 = d.1 ∨ c.1 = S d.1).
(** the next cell of a path *)
Definition succ (c d : cell) : Prop := inside d ∧ adjacent c d ∧ (val c + 1)%Z = val d.

(** [path c k]: there is a path of [k] cells that begins with [c] *)
Inductive path : cell → nat → Prop :=
  | path_one c : inside c → path c 1
  | path_next c d k : inside c → succ c d → path d k → path c (S k).

Hypothesis shape : length mat = 3 ∧ Forall (λ row, length row = 3) mat.
Hypothesis distinct : ∀ c d, inside c → inside d → val c = val d → c = d.
Hypothesis fits : ∀ c, inside c → (INT_MIN ≤ val c < INT_MAX)%Z.

(** the longest path that begins with [c] has [k] cells *)
Inductive longest : cell → nat → Prop :=
  | longest_end c : inside c → (∀ d, ¬ succ c d) → longest c 1
  | longest_next c d k : inside c → succ c d → longest d k → longest c (S k).

Lemma longest_path c k : longest c k → path c k.
Proof. induction 1; [by constructor|by eapply path_next]. Qed.
Lemma succ_unique c d e : inside c → succ c d → succ c e → d = e.
Proof. intros Hc (Hd & _ & H1) (He & _ & H2). apply distinct; [done..|congruence]. Qed.
Lemma longest_max c k l : longest c k → path c l → l ≤ k.
Proof.
  intros H. revert l. induction H as [c Hc Hend|c d k Hc Hs H IH]; intros l Hp.
  - inversion Hp as [|? d k Hc' Hs]; subst; [lia|]. by destruct (Hend d).
  - inversion Hp as [|? e k' Hc' Hs' Hp']; subst; [lia|].
    rewrite (succ_unique c e d) in Hp' by done. specialize (IH _ Hp'). lia.
Qed.
Lemma longest_pos c k : longest c k → 1 ≤ k ∧ inside c.
Proof. destruct 1; (split; [lia|done]). Qed.

(** how many cells have a larger value *)
Definition above (c : cell) : nat := length (filter (λ d, (val c < val d)%Z) grid).
Lemma above_succ c d : succ c d → above d < above c.
Proof.
  intros (Hd%grid_inside & _ & Hv). unfold above. revert Hd. induction grid as [|e l IH]; [by intros ?%not_elem_of_nil|].
  assert (length (filter (λ x, (val d < val x)%Z) l) ≤ length (filter (λ x, (val c < val x)%Z) l)) as Hle.
  { clear IH. induction l as [|x l IH]; [done|]. rewrite !filter_cons. repeat case_decide; simpl; lia. }
  rewrite !filter_cons. intros [->|Hin]%elem_of_cons.
  - rewrite decide_False, decide_True by lia. simpl. lia.
  - specialize (IH Hin). repeat case_decide; simpl; lia.
Qed.
Lemma above_bound c : above c ≤ 9.
Proof. unfold above. transitivity (length grid); [apply length_filter|done]. Qed.

Lemma longest_bound c k : longest c k → k ≤ 10.
Proof.
  intros H. pose proof (above_bound c). enough (k ≤ S (above c)) by lia.
  induction H as [|c d k Hc Hs Hk IH]; [lia|]. pose proof (above_succ _ _ Hs). pose proof (above_bound d).
  specialize (IH ltac:(lia)). lia.
Qed.

(** ** The table *)

Definition dp_val (dp : matrix) (c : cell) : Z := (dp !!! c.1) !!! c.2.
Record table_ok (dp : matrix) : Prop := {
  tb_shape : length dp = 3 ∧ Forall (λ row, length row = 3) dp;
  tb_entry : ∀ c, inside c → dp_val dp c = (-1)%Z ∨ ∃ k, longest c k ∧ dp_val dp c = Z.of_nat k
}.
(** [dp'] has the answers of [dp] and more *)
Definition extends (dp dp' : matrix) : Prop :=
  ∀ c, inside c → dp_val dp c ≠ (-1)%Z → dp_val dp' c = dp_val dp c.

Lemma at_matrix_Ok (m : matrix) (c : cell) :
  length m = 3 ∧ Forall (λ row, length row = 3) m → inside c →
  at_matrix m (Z.of_nat c.1) (Z.of_nat c.2) = Ok ((m !!! c.1) !!! c.2).
Proof.
  intros [Hl Hr] [H1 H2]. unfold at_matrix. destruct (lookup_lt_is_Some_2 m c.1) as [row Hrow]; [lia|].
  rewrite (get_Ok _ _ _ Hrow), (list_lookup_total_correct _ _ _ Hrow). cbn [mbind res_bind].
  rewrite Forall_forall in Hr. pose proof (Hr row ltac:(by eapply list_elem_of_lookup_2)) as Hlen.
  destruct (lookup_lt_is_Some_2 row c.2) as [v Hv]; [lia|]. by rewrite (get_Ok _ _ _ Hv), (list_lookup_total_correct _ _ _ Hv).
Qed.

Lemma set_matrix_Ok dp (c : cell) k :
  table_ok dp → inside c → longest c k →
  ∃ dp', set_matrix dp (Z.of_nat c.1) (Z.of_nat c.2) (Z.of_nat k) = Ok dp' ∧ table_ok dp' ∧
         dp_val dp' c = Z.of_nat k ∧ (∀ d, inside d → d ≠ c → dp_val dp' d = dp_val dp d).
Proof.
  intros [[Hl Hr] He] Hc Hk. pose proof Hc as [H1 H2]. unfold set_matrix.
  destruct (lookup_lt_is_Some_2 dp c.1) as [row Hrow]; [lia|]. rewrite (get_Ok _ _ _ Hrow). cbn [mbind res_bind].
  assert (length row = 3) as Hlen by (rewrite Forall_forall in Hr; apply Hr; by eapply list_elem_of_lookup_2).
  rewrite put_Ok by lia. cbn [mbind res_bind]. rewrite put_Ok by lia. eexists. split; [reflexivity|].
  assert (dp_val (<[c.1 := <[c.2 := Z.of_nat k]> row]> dp) c = Z.of_nat k) as Hval.
  { unfold dp_val. rewrite list_lookup_total_insert_eq by lia. by rewrite list_lookup_total_insert_eq by lia. }
  assert (∀ d, inside d → d ≠ c → dp_val (<[c.1 := <[c.2 := Z.of_nat k]> row]> dp) d = dp_val dp d) as Hother.
  { intros d _ Hne. unfold dp_val. destruct (decide (d.1 = c.1)) as [Heq|Hne1].
    - rewrite Heq, list_lookup_total_insert_eq by lia. rewrite (list_lookup_total_correct _ _ _ Hrow).
      rewrite list_lookup_total_insert_ne; [done|]. intros Heq2. apply Hne. destruct c, d; simpl in *; congruence.
    - by rewrite list_lookup_total_insert_ne by done. }
  split; [split|done].
  - rewrite length_insert. split; [done|]. apply Forall_insert; [done|by rewrite length_insert].
  - intros d Hd. destruct (decide (d = c)) as [->|Hne]; [right; by exists k|]. rewrite Hother by done. by apply He.
Qed.

(** ** The search *)

Lemma follows_Ok (c d : cell) : inside c → inside d →
  follows mat (Z.of_nat c.1) (Z.of_nat c.2) (Z.of_nat d.1) (Z.of_nat d.2) = Ok (val c + 1 =? val d)%Z.
Proof.
  intros Hc Hd. unfold follows. rewrite !at_matrix_Ok by done. cbn [mbind res_bind].
  pose proof (fits c Hc) as Hf. unfold val in *. by rewrite int_add_Ok by lia.
Qed.

(** the four neighbours; [None] outside the matrix *)
Definition right_of (c : cell) : option cell := if decide (S c.2 < 3) then Some (c.1, S c.2) else None.
Definition left_of (c : cell) : option cell := match c.2 with O => None | S j => Some (c.1, j) end.
Definition up_of (c : cell) : option cell := match c.1 with O => None | S i => Some (i, c.2) end.
Definition down_of (c : cell) : option cell := if decide (S c.1 < 3) then Some (S c.1, c.2) else None.
Definition goes (c : cell) (o : option cell) : bool :=
  match o with Some d => (val c + 1 =? val d)%Z | None => false end.

Lemma neighbour_inside c o d : inside c → o ∈ [right_of c; left_of c; up_of c; down_of c] → o = Some d → inside d ∧ adjacent c d.
Proof.
  intros [H1 H2] Ho ->. destruct c as [i j]. unfold right_of, left_of, up_of, down_of, inside, adjacent in *. simpl in *.
  repeat (apply elem_of_cons in Ho as [Ho|Ho]); [| | | |by apply not_elem_of_nil in Ho].
  - case_decide; simplify_eq/=. lia.
  - destruct j; simplify_eq/=. lia.
  - destruct i; simplify_eq/=. lia.
  - case_decide; simplify_eq/=. lia.
Qed.
Lemma adjacent_neighbour c d : inside d → adjacent c d → Some d ∈ [right_of c; left_of c; up_of c; down_of c].
Proof.
  destruct c as [i j], d as [k l]. unfold inside, adjacent, right_of, left_of, up_of, down_of. simpl.
  intros [Hk Hl] [[-> [<-| ->]]|[-> [<-| ->]]].
  all: repeat case_decide; try lia; set_solver.
Qed.

Lemma cand_right c : inside c →
  cand (Z.of_nat c.2 <? n - 1)%Z (follows mat (Z.of_nat c.1) (Z.of_nat c.2) (Z.of_nat c.1) (Z.of_nat c.2 + 1)) = Ok (goes c (right_of c)).
Proof.
  intros Hc. unfold cand, right_of, n. case_decide as Hd.
  - rewrite (proj2 (Z.ltb_lt _ _)) by lia. replace (Z.of_nat c.2 + 1)%Z with (Z.of_nat (S c.2)) by lia.
    apply (follows_Ok c (c.1, S c.2)); [done|]. destruct Hc. by split.
  - by rewrite (proj2 (Z.ltb_ge _ _)) by lia.
Qed.
Lemma cand_left c : inside c →
  cand (Z.of_nat c.2 >? 0)%Z (follows mat (Z.of_nat c.1) (Z.of_nat c.2) (Z.of_nat c.1) (Z.of_nat c.2 - 1)) = Ok (goes c (left_of c)).
Proof.
  destruct c as [i j]. intros Hc. unfold cand, left_of. simpl. rewrite Z.gtb_ltb. destruct j as [|j]; [done|].
  rewrite (proj2 (Z.ltb_lt _ _)) by lia. replace (Z.of_nat (S j) - 1)%Z with (Z.of_nat j) by lia.
  apply (follows_Ok (i, S j) (i, j)); [done|]. destruct Hc. split; simpl in *; lia.
Qed.
Lemma cand_up c : inside c →
  cand (Z.of_nat c.1 >? 0)%Z (follows mat (Z.of_nat c.1) (Z.of_nat c.2) (Z.of_nat c.1 - 1) (Z.of_nat c.2)) = Ok (goes c (up_of c)).
Proof.
  destruct c as [i j]. intros Hc. unfold cand, up_of. simpl. rewrite Z.gtb_ltb. destruct i as [|i]; [done|].
  rewrite (proj2 (Z.ltb_lt _ _)) by lia. replace (Z.of_nat (S i) - 1)%Z with (Z.of_nat i) by lia.
  apply (follows_Ok (S i, j) (i, j)); [done|]. destruct Hc. split; simpl in *; lia.
Qed.
Lemma cand_down c : inside c →
  cand (Z.of_nat c.1 <? n - 1)%Z (follows mat (Z.of_nat c.1) (Z.of_nat c.2) (Z.of_nat c.1 + 1) (Z.of_nat c.2)) = Ok (goes c (down_of c)).
Proof.
  intros Hc. unfold cand, down_of, n. case_decide as Hd.
  - rewrite (proj2 (Z.ltb_lt _ _)) by lia. replace (Z.of_nat c.1 + 1)%Z with (Z.of_nat (S c.1)) by lia.
    apply (follows_Ok c (S c.1, c.2)); [done|]. destruct Hc. by split.
  - by rewrite (proj2 (Z.ltb_ge _ _)) by lia.
Qed.

Lemma find_Ok fuel c dp :
  above c < fuel → inside c → table_ok dp →
  ∃ k dp', findLongestFromACell fuel (Z.of_nat c.1) (Z.of_nat c.2) mat dp = Ok (Z.of_nat k, dp') ∧
    longest c k ∧ table_ok dp' ∧ extends dp dp' ∧ dp_val dp' c = Z.of_nat k.
Proof.
  revert c dp. induction fuel as [|fuel IH]; intros c dp Hf Hc Hdp; [lia|].
  cbn [findLongestFromACell]. rewrite at_matrix_Ok by (done || apply Hdp). cbn [mbind res_bind]. fold (dp_val dp c).
  destruct (Z.eqb_spec (dp_val dp c) (-1)) as [Hnew|Hold]; cbn [negb].
  2: { destruct (tb_entry _ Hdp c Hc) as [|(k & Hk & Hv)]; [done|]. exists k, dp. rewrite Hv. split_and!; try done. }
  assert (∀ d, inside d → adjacent c d → (val c + 1)%Z = val d → ∃ k dp',
    ('(x, dp) ← findLongestFromACell fuel (Z.of_nat d.1) (Z.of_nat d.2) mat dp;
     x ← int_add 1 x; dp ← set_matrix dp (Z.of_nat c.1) (Z.of_nat c.2) x; mret (x, dp)) = Ok (Z.of_nat k, dp') ∧
    longest c k ∧ table_ok dp' ∧ extends dp dp' ∧ dp_val dp' c = Z.of_nat k) as Hgo.
  { intros d Hd Hadj Hv. assert (succ c d) as Hs by done. pose proof (above_succ c d Hs).
    destruct (IH d dp) as (k & dp1 & -> & Hk & Hdp1 & Hext & _); [lia|done|done|]. cbn [mbind res_bind].
    assert (longest c (S k)) as Hk1 by by eapply longest_next.
    pose proof (longest_bound d k Hk).
    rewrite int_add_Ok by (unfold INT_MIN, INT_MAX; lia). cbn [mbind res_bind].
    replace (1 + Z.of_nat k)%Z with (Z.of_nat (S k)) by lia.
    destruct (set_matrix_Ok dp1 c (S k) Hdp1 Hc Hk1) as (dp' & -> & Hdp' & Hval & Hother). cbn [mbind res_bind].
    exists (S k), dp'. split_and!; try done. intros e He Hne.
    destruct (decide (e = c)) as [->|Hec]; [congruence|]. rewrite Hother by done. by apply Hext. }
  assert (∀ o d, o ∈ [right_of c; left_of c; up_of c; down_of c] → o = Some d → goes c o = true →
    inside d ∧ adjacent c d ∧ (val c + 1)%Z = val d) as Hn.
  { intros o d Ho -> Hg. destruct (neighbour_inside c _ d Hc Ho eq_refl). split_and!; [done..|]. by apply Z.eqb_eq. }
  rewrite cand_right by done. cbn [mbind res_bind]. destruct (goes c (right_of c)) eqn:Hr.
  { destruct (right_of c) as [d|] eqn:Hd; [|done].
    destruct (Hn (Some d) d) as (? & ? & ?); [set_solver|done|done|].
    unfold right_of in Hd. case_decide; [|done]. injection Hd as <-.
    replace (Z.of_nat c.2 + 1)%Z with (Z.of_nat (S c.2)) by lia. by apply (Hgo (c.1, S c.2)). }
  rewrite cand_left by done. cbn [mbind res_bind]. destruct (goes c (left_of c)) eqn:Hl.
  { destruct (left_of c) as [d|] eqn:Hd; [|done].
    destruct (Hn (Some d) d) as (? & ? & ?); [set_solver|done|done|].
    unfold left_of in Hd. destruct c as [i [|j]]; [done|]. simpl in *. injection Hd as <-.
    replace (Z.of_nat (S j) - 1)%Z with (Z.of_nat j) by lia. by apply (Hgo (i, j)). }
  rewrite cand_up by done. cbn [mbind res_bind]. destruct (goes c (up_of c)) eqn:Hu.
  { destruct (up_of c) as [d|] eqn:Hd; [|done].
    destruct (Hn (Some d) d) as (? & ? & ?); [set_solver|done|done|].
    unfold up_of in Hd. destruct c as [[|i] j]; [done|]. simpl in *. injection Hd as <-.
    replace (Z.of_nat (S i) - 1)%Z with (Z.of_nat i) by lia. by apply (Hgo (i, j)). }
  rewrite cand_down by done. cbn [mbind res_bind]. destruct (goes c (down_of c)) eqn:Hdn.
  { destruct (down_of c) as [d|] eqn:Hd; [|done].
    destruct (Hn (Some d) d) as (? & ? & ?); [set_solver|done|done|].
    unfold down_of in Hd. case_decide; [|done]. injection Hd as <-.
    replace (Z.of_nat c.1 + 1)%Z with (Z.of_nat (S c.1)) by lia. by apply (Hgo (S c.1, c.2)). }
  assert (longest c 1) as Hone.
  { apply longest_end; [done|]. intros d (Hd & Hadj & Hv). pose proof (adjacent_neighbour c d Hd Hadj) as Hin.
    apply Z.eqb_eq in Hv. change (goes c (Some d) = true) in Hv.
    repeat (apply elem_of_cons in Hin as [Hin|Hin]; [congruence|]). by apply not_elem_of_nil in Hin. }
  destruct (set_matrix_Ok dp c 1 Hdp Hc Hone) as (dp' & Hset & Hdp' & Hval & Hother).
  change 1%Z with (Z.of_nat 1). rewrite Hset. cbn [mbind res_bind]. exists 1, dp'. split_and!; try done.
  intros e He Hne. destruct (decide (e = c)) as [->|Hec]; [congruence|]. by apply Hother.
Qed.

Definition to_Z (c : cell) : Z * Z := (Z.of_nat c.1, Z.of_nat c.2).

(** [seen] are the cells that were looked at *)
Lemma overall_loop_Ok fuel cells seen dp r :
  9 < fuel → Forall inside cells → table_ok dp → (∃ c, path c r) →
  (∀ c k, c ∈ seen → longest c k → k ≤ r) →
  ∃ r', overall_loop fuel (to_Z <$> cells) mat dp (Z.of_nat r) = Ok (Z.of_nat r') ∧ (∃ c, path c r') ∧
    (∀ c k, c ∈ seen ++ cells → longest c k → k ≤ r').
Proof.
  intros Hf. revert seen dp r. induction cells as [|c cells IH]; intros seen dp r Hc Hdp Hr Hs.
  { exists r. rewrite app_nil_r. done. }
  inversion Hc as [|? ? Hc1 Hc2]; subst.
  assert (∃ dp' k, (d ← at_matrix dp (Z.of_nat c.1) (Z.of_nat c.2);
      (if (d =? -1)%Z then '(_, dp) ← findLongestFromACell fuel (Z.of_nat c.1) (Z.of_nat c.2) mat dp; mret dp else mret dp)) = Ok dp' ∧
      table_ok dp' ∧ longest c k ∧ dp_val dp' c = Z.of_nat k) as (dp' & k & Hdp' & Htab & Hk & Hv).
  { rewrite at_matrix_Ok by (done || apply Hdp). cbn [mbind res_bind]. fold (dp_val dp c).
    destruct (Z.eqb_spec (dp_val dp c) (-1)) as [Hnew|Hold].
    - destruct (find_Ok fuel c dp) as (k & dp' & -> & Hk & Htab & _ & Hv); [|done|done|].
      { pose proof (above_bound c). lia. }
      exists dp', k. done.
    - destruct (tb_entry _ Hdp c Hc1) as [|(k & Hk & Hv)]; [done|]. by exists dp, k. }
  rewrite fmap_cons. unfold to_Z at 1. cbn [overall_loop].
  destruct (at_matrix dp (Z.of_nat c.1) (Z.of_nat c.2)) as [d| |]; [|done..]. cbn [mbind res_bind] in Hdp' |- *.
  unfold mbind in Hdp' |- *. unfold res_bind at 1 3. unfold res_bind at 1 in Hdp'. rewrite Hdp'.
  unfold mbind. rewrite at_matrix_Ok by (done || apply Htab). unfold res_bind. fold (dp_val dp' c). rewrite Hv.
  replace (Z.max (Z.of_nat r) (Z.of_nat k)) with (Z.of_nat (r `max` k)) by lia.
  destruct (IH (seen ++ [c]) dp' (r `max` k)) as (r' & Hr' & Hp' & Hs').
  - done.
  - done.
  - destruct (Nat.max_dec r k) as [->| ->]; [done|]. exists c. by apply longest_path.
  - intros e j He Hj. apply elem_of_app in He as [He|He%list_elem_of_singleton].
    + specialize (Hs e j He Hj). lia.
    + subst e. pose proof (longest_max c k j Hk (longest_path _ _ Hj)). lia.
  - exists r'. split; [exact Hr'|]. split; [done|]. by rewrite <- (assoc_L (++)) in Hs'.
Qed.
End longest.

(** the table [finLongestOverAll] starts with *)
Lemma fresh_dp i j : (i < 3)%nat → (j < 3)%nat → dp_val (replicate 3 (replicate 3 (-1)%Z)) (i, j) = (-1)%Z.
Proof. intros Hi Hj. destruct i as [|[|[|i]]], j as [|[|[|j]]]; reflexivity || lia. Qed.

(** C28: for a matrix of nine different numbers [finLongestOverAll] is the number of
    cells of a longest path on which each cell is next to the one before it and
    its number is one larger; the search with its table terminates. *)
Theorem finLongestOverAll_correct fuel mat :
  length mat = 3 ∧ Forall (λ row, length row = 3) mat →
  (∀ c d, inside c → inside d → val mat c = val mat d → c = d) →
  (∀ c, inside c → (INT_MIN ≤ val mat c < INT_MAX)%Z) → 9 < fuel →
  ∃ r, finLongestOverAll fuel mat = Ok (Z.of_nat r) ∧ (∃ c, path mat c r) ∧ (∀ c k, path mat c k → k ≤ r).
Proof.
  intros Hshape Hdist Hfits Hfuel.
  destruct (overall_loop_Ok mat Hshape Hdist Hfits fuel grid [] (replicate 3 (replicate 3 (-1)%Z)) 1)
    as (r & Hr & Hp & Hmax); [done| | | | |].
  - apply Forall_forall. intros c. by rewrite grid_inside.
  - split; [split; [done|repeat constructor]|]. intros [i j] [Hi Hj]. left. by apply fresh_dp.
  - exists (0, 0). constructor. split; simpl; lia.
  - by intros c k ?%not_elem_of_nil.
  - exists r. split; [exact Hr|]. split; [done|].
    assert (∀ f c, above mat c < f → inside c → ∃ k, longest mat c k) as Hex.
    { intros f c Hf Hc.
      destruct (find_Ok mat Hshape Hdist Hfits f c (replicate 3 (replicate 3 (-1)%Z))) as (k & _ & _ & Hk & _); [done..| |by exists k].
      split; [split; [done|repeat constructor]|]. intros [i j] [Hi Hj]. left. by apply fresh_dp. }
    intros c k Hk. assert (inside c) as Hc by by destruct Hk.
    destruct (Hex (S (above mat c)) c) as (l & Hl); [lia|done|].
    pose proof (longest_max mat Hshape Hdist c l k Hl Hk). assert (l ≤ r); [|lia].
    apply (Hmax c l); [|done]. by rewrite <- grid_inside.
Qed.

Lemma finLongestOverAll_correct_witness :
  ∃ r, finLongestOverAll 10 [[1; 2; 9]; [5; 3; 8]; [4; 6; 7]]%Z = Ok (Z.of_nat r) ∧
    (∃ c, path [[1; 2; 9]; [5; 3; 8]; [4; 6; 7]]%Z c r) ∧ (∀ c k, path [[1; 2; 9]; [5; 3; 8]; [4; 6; 7]]%Z c k → k ≤ r).
Proof.
  apply (finLongestOverAll_correct 10 [[1; 2; 9]; [5; 3; 8]; [4; 6; 7]]%Z).
  - split; [done|repeat constructor].
  - intros c d Hc%grid_inside Hd%grid_inside. unfold grid in *.
    repeat (apply elem_of_cons in Hc as [->|Hc]; [repeat (apply elem_of_cons in Hd as [->|Hd]; [by vm_compute|]); by apply not_elem_of_nil in Hd|]).
    by apply not_elem_of_nil in Hc.
  - intros c Hc%grid_inside. unfold grid in *.
    repeat (apply elem_of_cons in Hc as [->|Hc]; [by vm_compute|]). by apply not_elem_of_nil in Hc.
  - lia.
Defined.

Example longest_output : main = Ok 4%Z.
Proof. vm_compute. reflexivity. Qed.
End LongestPathProps.

(** ** ArrayUnionAndIntersection.cpp *)
Module UnionProps.
Import ArrayUnionAndIntersection.

(** how often a number occurs *)
Definition occurs (x : Z) (l : list Z) : nat := length (filter (x =.) l).
Definition one_if (x y : Z) : nat := if decide (x = y) then 1 else 0.

Lemma occurs_cons x y l : occurs x (y :: l) = one_if x y + occurs x l.
Proof. unfold occurs, one_if. rewrite filter_cons. by destruct (decide (x = y)). Qed.
Lemma occurs_elem x l : x ∈ l ↔ 0 < occurs x l.
Proof.
  induction l as [|y l IH]; [split; [by intros ?%not_elem_of_nil|unfold occurs; simpl; lia]|].
  rewrite elem_of_cons, occurs_cons, IH. unfold one_if. destruct (decide (x = y)); split; intros; lia || naive_solver lia.
Qed.
Lemma occurs_zero x l : Forall (λ y, (x < y)%Z) l → occurs x l = 0.
Proof.
  intros H. destruct (decide (occurs x l = 0)) as [|Hn]; [done|].
  assert (x ∈ l) as Hx by (apply occurs_elem; lia). rewrite Forall_forall in H. specialize (H x Hx). lia.
Qed.
Lemma sorted_above x y l : (x < y)%Z → StronglySorted Z.le (y :: l) → occurs x (y :: l) = 0.
Proof.
  intros Hxy Hs. apply occurs_zero. inversion Hs as [|? ? _ Hl]; subst.
  constructor; [done|]. eapply Forall_impl; [exact Hl|]. simpl. lia.
Qed.
Lemma sorted_cons_of x l : StronglySorted Z.le l → (∀ y, y ∈ l → (x ≤ y)%Z) → StronglySorted Z.le (x :: l).
Proof. intros Hs Hl. constructor; [done|]. by apply Forall_forall. Qed.
Lemma sorted_head x y l : StronglySorted Z.le (x :: l) → y ∈ l → (x ≤ y)%Z.
Proof. intros Hs Hy. inversion Hs as [|? ? _ Hl]; subst. rewrite Forall_forall in Hl. by apply Hl. Qed.

(** what a loop at the indices [i] and [j] has yet to look at *)
Definition left_at (arr : list Z) (i : nat) : list Z := drop i arr.
Lemma left_cons arr i : i < length arr → ∃ a, get arr (Z.of_nat i) = Ok a ∧ left_at arr i = a :: left_at arr (S i).
Proof.
  intros Hi. destruct (lookup_lt_is_Some_2 arr i Hi) as (a & Ha). exists a.
  split; [by apply get_Ok|by apply drop_S].
Qed.
Lemma left_nil arr i : length arr ≤ i → left_at arr i = [].
Proof. apply drop_ge. Qed.
Lemma left_length arr i : length (left_at arr i) = length arr - i.
Proof. apply length_drop. Qed.

Lemma print_rest_Ok fuel arr i : length arr - i < fuel →
  print_rest fuel arr (Z.of_nat (length arr)) (Z.of_nat i) = Ok (left_at arr i).
Proof.
  revert i. induction fuel as [|fuel IH]; intros i Hf; [lia|]. cbn [print_rest].
  destruct (Z.ltb_spec (Z.of_nat i) (Z.of_nat (length arr))).
  - destruct (left_cons arr i) as (a & Ha & ->); [lia|]. unfold mbind. rewrite Ha. unfold res_bind.
    replace (Z.of_nat i + 1)%Z with (Z.of_nat (S i)) by lia. rewrite IH by lia. done.
  - by rewrite left_nil by lia.
Qed.

Section loops.
Variables arr1 arr2 : list Z.
Hypothesis sorted1 : ∀ i, StronglySorted Z.le (left_at arr1 i).
Hypothesis sorted2 : ∀ i, StronglySorted Z.le (left_at arr2 i).
#[local] Abbreviation m := (Z.of_nat (length arr1)).
#[local] Abbreviation n := (Z.of_nat (length arr2)).

Lemma union_loop_Ok fuel i j : length arr1 - i + (length arr2 - j) < fuel →
  ∃ out, union_loop fuel arr1 arr2 m n (Z.of_nat i) (Z.of_nat j) = Ok out ∧ StronglySorted Z.le out ∧
    (∀ x, occurs x out = occurs x (left_at arr1 i) `max` occurs x (left_at arr2 j)).
Proof.
  revert i j. induction fuel as [|fuel IH]; intros i j Hf; [lia|]. cbn [union_loop].
  pose proof (sorted1 i) as Hs1. pose proof (sorted2 j) as Hs2.
  destruct (Z.ltb_spec (Z.of_nat i) m), (Z.ltb_spec (Z.of_nat j) n); cbn [andb].
  - destruct (left_cons arr1 i) as (a & Ha & Hl1); [lia|]. destruct (left_cons arr2 j) as (b & Hb & Hl2); [lia|].
    rewrite Hl1 in Hs1 |- *. rewrite Hl2 in Hs2 |- *.
    replace (Z.of_nat i + 1)%Z with (Z.of_nat (S i)) by lia. replace (Z.of_nat j + 1)%Z with (Z.of_nat (S j)) by lia.
    unfold mbind. rewrite !Ha, !Hb. unfold res_bind at 1 2.
    destruct (Z.ltb_spec a b) as [Hab|Hab]; [|unfold res_bind at 1 2; destruct (Z.ltb_spec b a) as [Hba|Hba]].
    + destruct (IH (S i) j) as (out & -> & Hso & Hc); [lia|]. exists (a :: out). split; [done|].
      rewrite Hl2 in Hc. split.
      * apply sorted_cons_of; [done|]. intros y Hy%occurs_elem. rewrite Hc in Hy.
        destruct (decide (y ∈ left_at arr1 (S i))) as [Hi|Hi]; [by eapply sorted_head|].
        rewrite occurs_elem in Hi. assert (y ∈ b :: left_at arr2 (S j)) as [->|Hj]%elem_of_cons by (apply occurs_elem; lia); [lia|].
        pose proof (sorted_head _ _ _ Hs2 Hj). lia.
      * intros x. rewrite (occurs_cons x a), (occurs_cons x a), Hc. unfold one_if. destruct (decide (x = a)) as [->|]; [|lia].
        rewrite (sorted_above a b) by done. lia.
    + destruct (IH i (S j)) as (out & -> & Hso & Hc); [lia|]. exists (b :: out). split; [done|].
      rewrite Hl1 in Hc. split.
      * apply sorted_cons_of; [done|]. intros y Hy%occurs_elem. rewrite Hc in Hy.
        destruct (decide (y ∈ left_at arr2 (S j))) as [Hj|Hj]; [by eapply sorted_head|].
        rewrite occurs_elem in Hj. assert (y ∈ a :: left_at arr1 (S i)) as [->|Hi]%elem_of_cons by (apply occurs_elem; lia); [lia|].
        pose proof (sorted_head _ _ _ Hs1 Hi). lia.
      * intros x. rewrite (occurs_cons x b), (occurs_cons x b), Hc. unfold one_if. destruct (decide (x = b)) as [->|]; [|lia].
        rewrite (sorted_above b a) by done. lia.
    + assert (a = b) as -> by lia.
      destruct (IH (S i) (S j)) as (out & -> & Hso & Hc); [lia|]. exists (b :: out). split; [done|]. split.
      * apply sorted_cons_of; [done|]. intros y Hy%occurs_elem. rewrite Hc in Hy.
        destruct (decide (y ∈ left_at arr2 (S j))) as [Hj|Hj]; [by eapply sorted_head|].
        rewrite occurs_elem in Hj. assert (y ∈ left_at arr1 (S i)) as Hi by (apply occurs_elem; lia).
        exact (sorted_head _ _ _ Hs1 Hi).
      * intros x. rewrite !occurs_cons, Hc. lia.
  - rewrite !print_rest_Ok by lia. exists (left_at arr1 i ++ left_at arr2 j). split; [done|].
    rewrite (left_nil arr2) by lia. rewrite app_nil_r. split; [done|]. intros x. unfold occurs at 3. simpl. lia.
  - rewrite !print_rest_Ok by lia. exists (left_at arr1 i ++ left_at arr2 j). split; [done|].
    rewrite (left_nil arr1) by lia. split; [done|]. intros x. unfold occurs at 2. simpl. done.
  - rewrite !print_rest_Ok by lia. exists []. rewrite (left_nil arr1), (left_nil arr2) by lia.
    split; [done|]. split; [constructor|]. done.
Qed.

Lemma intersection_loop_Ok fuel i j : length arr1 - i + (length arr2 - j) < fuel →
  ∃ out, intersection_loop fuel arr1 arr2 m n (Z.of_nat i) (Z.of_nat j) = Ok out ∧ StronglySorted Z.le out ∧
    (∀ x, occurs x out = occurs x (left_at arr1 i) `min` occurs x (left_at arr2 j)).
Proof.
  revert i j. induction fuel as [|fuel IH]; intros i j Hf; [lia|]. cbn [intersection_loop].
  pose proof (sorted1 i) as Hs1. pose proof (sorted2 j) as Hs2.
  assert (length arr1 ≤ i ∨ length arr2 ≤ j → ∃ out : list Z, mret [] = Ok out ∧ StronglySorted Z.le out ∧
    (∀ x, occurs x out = occurs x (left_at arr1 i) `min` occurs x (left_at arr2 j))) as Hend.
  { intros Hij. exists []. split; [done|]. split; [constructor|]. intros x.
    destruct Hij; [rewrite (left_nil arr1) by lia|rewrite (left_nil arr2) by lia]; unfold occurs; simpl; lia. }
  destruct (Z.ltb_spec (Z.of_nat i) m), (Z.ltb_spec (Z.of_nat j) n); cbn [andb]; [|apply Hend; lia..].
  destruct (left_cons arr1 i) as (a & Ha & Hl1); [lia|]. destruct (left_cons arr2 j) as (b & Hb & Hl2); [lia|].
  rewrite Hl1 in Hs1 |- *. rewrite Hl2 in Hs2 |- *.
  replace (Z.of_nat i + 1)%Z with (Z.of_nat (S i)) by lia. replace (Z.of_nat j + 1)%Z with (Z.of_nat (S j)) by lia.
  unfold mbind. rewrite !Ha, !Hb. unfold res_bind at 1 2.
  destruct (Z.ltb_spec a b) as [Hab|Hab]; [|unfold res_bind at 1 2; destruct (Z.ltb_spec b a) as [Hba|Hba]].
  - destruct (IH (S i) j) as (out & -> & Hso & Hc); [lia|]. exists out. split; [done|]. split; [done|].
    intros x. rewrite Hc, Hl2, (occurs_cons x a). unfold one_if. destruct (decide (x = a)) as [->|]; [|lia].
    rewrite (sorted_above a b) by done. lia.
  - destruct (IH i (S j)) as (out & -> & Hso & Hc); [lia|]. exists out. split; [done|]. split; [done|].
    intros x. rewrite Hc, Hl1, (occurs_cons x b). unfold one_if. destruct (decide (x = b)) as [->|]; [|lia].
    rewrite (sorted_above b a) by done. lia.
  - assert (a = b) as -> by lia.
    destruct (IH (S i) (S j)) as (out & -> & Hso & Hc); [lia|]. exists (b :: out). split; [done|]. split.
    + apply sorted_cons_of; [done|]. intros y Hy%occurs_elem. rewrite Hc in Hy.
      assert (y ∈ left_at arr1 (S i)) as Hi by (apply occurs_elem; lia). exact (sorted_head _ _ _ Hs1 Hi).
    + intros x. rewrite !occurs_cons, Hc. lia.
Qed.
End loops.

Lemma sorted_left arr i : StronglySorted Z.le arr → StronglySorted Z.le (left_at arr i).
Proof.
  revert i. induction arr as [|x arr IH]; intros i Hs; [by destruct i|].
  inversion Hs; subst. destruct i as [|i]; [done|by apply IH].
Qed.

(** On two sorted arrays [printUnion] and [printIntersection] terminate; the
    numbers they print are in order, and each is printed as often as the larger,
    respectively the smaller, of its numbers of occurrences in the two arrays. *)
Theorem union_intersection_correct fuel arr1 arr2 :
  StronglySorted Z.le arr1 → StronglySorted Z.le arr2 → length arr1 + length arr2 < fuel →
  ∃ u s, printUnion fuel arr1 arr2 (Z.of_nat (length arr1)) (Z.of_nat (length arr2)) = Ok u ∧
    printIntersection fuel arr1 arr2 (Z.of_nat (length arr1)) (Z.of_nat (length arr2)) = Ok s ∧
    StronglySorted Z.le u ∧ StronglySorted Z.le s ∧
    (∀ x, occurs x u = occurs x arr1 `max` occurs x arr2 ∧ occurs x s = occurs x arr1 `min` occurs x arr2).
Proof.
  intros H1 H2 Hf.
  destruct (union_loop_Ok arr1 arr2 (λ i, sorted_left _ i H1) (λ i, sorted_left _ i H2) fuel 0 0) as (u & Hu & Hsu & Hcu); [lia|].
  destruct (intersection_loop_Ok arr1 arr2 (λ i, sorted_left _ i H1) (λ i, sorted_left _ i H2) fuel 0 0) as (s & Hs & Hss & Hcs); [lia|].
  exists u, s. split; [exact Hu|]. split; [exact Hs|]. split; [done|]. split; [done|]. intros x. by split.
Qed.

Lemma union_intersection_correct_witness :
  ∃ u s, printUnion 10 [1; 2; 4; 5; 6]%Z [2; 3; 5; 7]%Z 5 4 = Ok u ∧
    printIntersection 10 [1; 2; 4; 5; 6]%Z [2; 3; 5; 7]%Z 5 4 = Ok s ∧
    StronglySorted Z.le u ∧ StronglySorted Z.le s ∧
    (∀ x, occurs x u = occurs x [1; 2; 4; 5; 6]%Z `max` occurs x [2; 3; 5; 7]%Z ∧
      occurs x s = occurs x [1; 2; 4; 5; 6]%Z `min` occurs x [2; 3; 5; 7]%Z).
Proof.
  apply (union_intersection_correct 10 [1; 2; 4; 5; 6]%Z [2; 3; 5; 7]%Z);
    [repeat constructor; lia..|simpl; lia].
Defined.

Example printIntersection_output : main = Ok [2; 5]%Z.
Proof. vm_compute. reflexivity. Qed.
End UnionProps.

(** ** Triplets.cpp *)
Module TripletsProps.
Import Triplets.

(** how many entries, pairs and triples of entries have a sum below [s] *)
Definition singles_below (s : Z) (l : list Z) : nat := length (filter (λ x, (x < s)%Z) l).
Fixpoint pairs_below (s : Z) (l : list Z) : nat :=
  match l with [] => 0 | x :: l => singles_below (s - x) l + pairs_below s l end.
Fixpoint triples_below (s : Z) (l : list Z) : nat :=
  match l with [] => 0 | x :: l => pairs_below (s - x) l + triples_below s l end.

Lemma singles_cons s x l : singles_below s (x :: l) = (if decide (x < s)%Z then 1 else 0) + singles_below s l.
Proof. unfold singles_below. rewrite filter_cons. by destruct (decide (x < s)%Z). Qed.
Lemma singles_Permutation s l l' : l ≡ₚ l' → singles_below s l = singles_below s l'.
Proof. intros H. unfold singles_below. by rewrite H. Qed.
Lemma pairs_Permutation s l l' : l ≡ₚ l' → pairs_below s l = pairs_below s l'.
Proof.
  intros H. revert s. induction H as [|x l l' H IH|x y l|l l' l'' _ IH1 _ IH2]; intros s; cbn [pairs_below].
  - done.
  - by rewrite (singles_Permutation _ _ _ H), IH.
  - rewrite !singles_cons. destruct (decide (y < s - x)%Z), (decide (x < s - y)%Z); lia.
  - by rewrite IH1.
Qed.
Lemma triples_Permutation s l l' : l ≡ₚ l' → triples_below s l = triples_below s l'.
Proof.
  intros H. revert s. induction H as [|x l l' H IH|x y l|l l' l'' _ IH1 _ IH2]; intros s; cbn [triples_below].
  - done.
  - by rewrite (pairs_Permutation _ _ _ H), IH.
  - cbn [pairs_below]. replace (s - x - y)%Z with (s - y - x)%Z by lia. lia.
  - by rewrite IH1.
Qed.

Lemma singles_app s l l' : singles_below s (l ++ l') = singles_below s l + singles_below s l'.
Proof. unfold singles_below. by rewrite filter_app, length_app. Qed.
Lemma singles_all s l : Forall (λ x, (x < s)%Z) l → singles_below s l = length l.
Proof. induction 1 as [|x l Hx _ IH]; [done|]. rewrite singles_cons, IH, decide_True by done. done. Qed.
(** the last entry is too large for every pair *)
Lemma pairs_drop_last s l y : Forall (λ x, (s ≤ x + y)%Z) l → pairs_below s (l ++ [y]) = pairs_below s l.
Proof.
  induction 1 as [|x l Hx _ IH]; [done|]. rewrite <- app_comm_cons. cbn [pairs_below].
  rewrite IH, singles_app, singles_cons. rewrite decide_False by lia. unfold singles_below at 2. simpl. lia.
Qed.
(** the first entry makes a pair with every other one *)
Lemma pairs_drop_first s x l : Forall (λ y, (x + y < s)%Z) l → pairs_below s (x :: l) = length l + pairs_below s l.
Proof. intros H. cbn [pairs_below]. rewrite singles_all; [done|]. eapply Forall_impl; [exact H|]. simpl. lia. Qed.

Lemma sorted_ends x l y : StronglySorted Z.le (x :: l ++ [y]) →
  Forall (λ z, (x ≤ z)%Z) (l ++ [y]) ∧ Forall (λ z, (z ≤ y)%Z) (x :: l) ∧
  StronglySorted Z.le (x :: l) ∧ StronglySorted Z.le (l ++ [y]).
Proof.
  intros Hs. inversion Hs as [|? ? Hs' Hx]; subst. split; [done|].
  assert (Forall (λ z, (z ≤ y)%Z) l ∧ StronglySorted Z.le l) as (Hy & Hl).
  { clear Hs Hx. induction l as [|z l IH]; [split; constructor|]. inversion Hs' as [|? ? Hs Hz]; subst.
    destruct (IH Hs) as (Hy & Hl). apply Forall_app in Hz as (Hz & Hzy).
    split; constructor; [by inversion Hzy|done..]. }
  apply Forall_app in Hx as (Hx & Hxy).
  split; [constructor; [by inversion Hxy|done]|]. split; [by constructor|done].
Qed.

(** the numbers of which any three can be added *)
Definition small (x : Z) : Prop := (- 715827882 ≤ x ≤ 715827882)%Z.
(** [seg] is the part of the array from [j] on *)
Definition segment (arr : list Z) (j : nat) (seg : list Z) : Prop :=
  ∀ t x, seg !! t = Some x → arr !! (j + t) = Some x.

Lemma count_pairs_Ok fuel arr i a s : get arr (Z.of_nat i) = Ok a → small a →
  ∀ seg j k ans, segment arr j seg → k = (Z.of_nat j + Z.of_nat (length seg) - 1)%Z →
  StronglySorted Z.le seg → Forall small seg → length seg < fuel →
  (0 ≤ ans)%Z → (ans + Z.of_nat (pairs_below (s - a) seg) ≤ INT_MAX)%Z →
  count_pairs fuel arr (Z.of_nat i) (Z.of_nat j) k s ans = Ok (ans + Z.of_nat (pairs_below (s - a) seg))%Z.
Proof.
  intros Ha Hsa. induction fuel as [|fuel IH]; intros seg j k ans Hseg -> Hs Hsm Hf H0 Hmax; [lia|].
  cbn [count_pairs]. destruct seg as [|x seg].
  { rewrite (proj2 (Z.ltb_ge _ _)) by (cbn [length]; lia). cbn. by rewrite Z.add_0_r. }
  destruct (exists_last (l := x :: seg)) as (mid & y & Hmid); [done|]. destruct mid as [|x' mid].
  { simpl in Hmid. injection Hmid as -> ->. rewrite (proj2 (Z.ltb_ge _ _)) by (cbn [length]; lia). cbn. by rewrite Z.add_0_r. }
  simpl in Hmid. injection Hmid as <- ->.
  destruct (sorted_ends _ _ _ Hs) as (Hx & Hy & Hs1 & Hs2).
  pose proof Hsm as Hsm0. apply Forall_cons in Hsm0 as (Hsx & Hsm2).
  pose proof Hsm2 as Hsm0. apply Forall_app in Hsm0 as (Hsm1 & Hsy). rewrite Forall_singleton in Hsy.
  assert (get arr (Z.of_nat j) = Ok x) as Hj.
  { apply get_Ok. rewrite <- (Nat.add_0_r j). by apply Hseg. }
  assert (get arr (Z.of_nat j + Z.of_nat (length (x :: mid ++ [y])) - 1) = Ok y) as Hk.
  { replace (Z.of_nat j + _ - 1)%Z with (Z.of_nat (j + length (x :: mid))) by (cbn [length]; rewrite length_app; cbn [length]; lia).
    apply get_Ok, Hseg. rewrite app_comm_cons. by rewrite list_lookup_middle. }
  rewrite (proj2 (Z.ltb_lt _ _)) by (cbn [length]; rewrite length_app; cbn [length]; lia).
  unfold small in *. unfold mbind. rewrite Ha, Hj, Hk. unfold res_bind at 1 2 3.
  rewrite (int_add_Ok a x) by (unfold INT_MIN, INT_MAX; lia). unfold res_bind at 1.
  rewrite (int_add_Ok (a + x) y) by (unfold INT_MIN, INT_MAX; lia). unfold res_bind at 1.
  rewrite Z.geb_leb. destruct (Z.leb_spec s (a + x + y)) as [Hle|Hgt].
  - assert (pairs_below (s - a) (x :: mid ++ [y]) = pairs_below (s - a) (x :: mid)) as Hp.
    { rewrite app_comm_cons. apply pairs_drop_last. constructor; [lia|].
      apply Forall_app in Hx as (Hx & _). eapply Forall_impl; [exact Hx|]. simpl. lia. }
    rewrite Hp in *. apply IH; [|simpl; rewrite length_app; simpl; lia|done|by constructor| |done|done].
    + intros t z Ht. apply Hseg. rewrite app_comm_cons. by apply lookup_app_l_Some.
    + simpl in Hf |- *. rewrite length_app in Hf. simpl in Hf. lia.
  - assert (pairs_below (s - a) (x :: mid ++ [y]) = length (mid ++ [y]) + pairs_below (s - a) (mid ++ [y])) as Hp.
    { apply pairs_drop_first. apply Forall_cons in Hy as (_ & Hy). apply Forall_app. split.
      - eapply Forall_impl; [exact Hy|]. simpl. lia.
      - rewrite Forall_singleton. lia. }
    rewrite Hp in *. rewrite length_app in *. simpl length in *.
    rewrite int_add_Ok by (unfold INT_MIN; simpl; rewrite ?length_app; simpl; lia). unfold res_bind at 1.
    replace (Z.of_nat j + 1)%Z with (Z.of_nat (S j)) by lia.
    rewrite (IH (mid ++ [y])); [f_equal; rewrite ?length_app; simpl; lia| | |done|done| |simpl; rewrite ?length_app; simpl; lia..].
    + intros t z Ht. replace (S j + t) with (j + S t) by lia. by apply Hseg.
    + simpl. rewrite !length_app. simpl. lia.
    + rewrite ?length_app in *. simpl in *. lia.
Qed.

Lemma triples_short s l : length l ≤ 2 → triples_below s l = 0.
Proof. destruct l as [|x [|y [|z l]]]; simpl; lia. Qed.

Lemma count_loop_Ok arr s i seg ans : segment arr i seg → length arr = i + length seg →
  StronglySorted Z.le seg → Forall small seg → (0 ≤ ans)%Z → (ans + Z.of_nat (triples_below s seg) ≤ INT_MAX)%Z →
  count_loop (length seg - 2) arr (Z.of_nat (length arr)) (Z.of_nat i) s ans = Ok (ans + Z.of_nat (triples_below s seg))%Z.
Proof.
  revert i ans. induction seg as [|a seg IH]; intros i ans Hseg Hlen Hs Hsm H0 Hmax.
  { cbn. by rewrite Z.add_0_r. }
  destruct (decide (length seg < 2)) as [Hshort|Hlong].
  { rewrite triples_short by (simpl; lia). replace (length (a :: seg) - 2) with 0 by (cbn [length]; lia). cbn. by rewrite Z.add_0_r. }
  replace (length (a :: seg) - 2) with (S (length seg - 2)) by (simpl; lia). cbn [count_loop triples_below] in *.
  inversion Hs as [|? ? Hs1 Ha]; subst. apply Forall_cons in Hsm as (Hsa & Hsm).
  replace (Z.of_nat i + 1)%Z with (Z.of_nat (S i)) by lia.
  assert (segment arr (S i) seg) as Hseg1.
  { intros t x Ht. replace (S i + t) with (i + S t) by lia. by apply Hseg. }
  unfold mbind. rewrite (count_pairs_Ok _ _ _ a s) with (seg := seg); [|..].
  - unfold res_bind. rewrite IH; [f_equal; lia|done|simpl in Hlen; lia|done|done|lia|lia].
  - apply get_Ok. rewrite <- (Nat.add_0_r i). by apply Hseg.
  - done.
  - done.
  - simpl in Hlen. lia.
  - done.
  - done.
  - simpl in Hlen. lia.
  - done.
  - lia.
Qed.

(** C30: for numbers of which any three can be added, [countTriplets] is the number of
    triples of entries whose sum is below the bound, if an int can hold it. *)
Theorem countTriplets_correct arr s :
  Forall small arr → (Z.of_nat (triples_below s arr) ≤ INT_MAX)%Z →
  countTriplets arr s = Ok (Z.of_nat (triples_below s arr)).
Proof.
  intros Hsm Hmax. unfold countTriplets.
  pose proof (merge_sort_Permutation Z.le arr) as Hp. rewrite <- (triples_Permutation s _ _ Hp) in *.
  change 0%Z with (Z.of_nat 0) at 1. rewrite count_loop_Ok; [f_equal|..].
  - by intros t x.
  - done.
  - apply (StronglySorted_merge_sort Z.le).
  - by rewrite Hp.
  - lia.
  - lia.
Qed.

Lemma countTriplets_correct_witness : countTriplets [5; 1; 3; 4; 7]%Z 12 = Ok 4%Z.
Proof. apply (countTriplets_correct [5; 1; 3; 4; 7]%Z 12); [repeat constructor; lia|vm_compute; done]. Defined.

(** the program prints the same number of triples *)
Example triplets_output : tmain = Ok (mk_outcome [[1; 3; 4]; [1; 3; 5]; [1; 3; 7]; [1; 4; 5]]%Z 4 None).
Proof. vm_compute. reflexivity. Qed.
(** [RecursiveFindTiplets] ends the program at the first sum that is too large, and
    misses the triples that begin later: here 0, 2, 3 and 1, 2, 3 *)
Example triplets_missed :
  RecursiveFindTiplets 4 [0; 1; 2; 3; 11]%Z 0 [] 0 0 = Ok (mk_outcome [[0; 1; 2]; [0; 1; 3]]%Z 2 None) ∧
  countTriplets [0; 1; 2; 3; 11]%Z MaxBound = Ok 4%Z.
Proof. split; vm_compute; reflexivity. Qed.
End TripletsProps.

(** ** GeneratePairsFromArray.cpp *)
Module GenerateProps.
Import GeneratePairsFromArray.

Example generate_output : main =
  Ok [[10; 20]; [10; 20; 25; 30]; [10; 30]; [15; 20]; [15; 20; 25; 30]; [15; 30]; [25; 30]]%Z.
Proof. vm_compute. reflexivity. Qed.
End GenerateProps.
