(* ===== verification/Avl.v ===== *)
(** AVL.cpp: the nodes and functions as programs on a heap.

    [newNode] writes every member of the memory it allocates, so the new cell has
    them all.  [fuel] bounds the depth of a recursion.  Printed values are results. *)

From iris.proofmode Require Import proofmode.
From S2P Require Import Prelude Int Heap.

Record node := mk_node { n_key : Z; n_left : ptr; n_right : ptr; n_height : Z }.

Definition put_left (p : ptr) (v : node) : node := mk_node (n_key v) p (n_right v) (n_height v).
Definition put_right (p : ptr) (v : node) : node := mk_node (n_key v) (n_left v) p (n_height v).
Definition put_height (h : Z) (v : node) : node := mk_node (n_key v) (n_left v) (n_right v) h.

Abbreviation prog := (prog node).
Implicit Types (p z y : ptr) (fuel : nat) (k key : Z).

Definition get_key p : prog Z := v ← load p; mret (n_key v).
Definition get_left p : prog ptr := v ← load p; mret (n_left v).
Definition get_right p : prog ptr := v ← load p; mret (n_right v).
Definition get_height p : prog Z := v ← load p; mret (n_height v).
Definition set_left p (q : ptr) : prog unit := modify p (put_left q).
Definition set_right p (q : ptr) : prog unit := modify p (put_right q).
Definition set_height p (h : Z) : prog unit := modify p (put_height h).

Definition height p : prog Z := match p with None => mret 0%Z | Some _ => get_height p end.
Definition max (a b : Z) : Z := if (a >? b)%Z then a else b.
Definition newNode key : prog ptr := new (mk_node key None None 1).

(** [n->height = max(height(n->left), height(n->right)) + 1] *)
Definition update_height p : prog unit :=
  l ← get_left p; hl ← height l; r ← get_right p; hr ← height r;
  h ← lift (int_add (max hl hr) 1); set_height p h.

Definition rightRotate z : prog ptr :=
  y ← get_left z; T3 ← get_right y;
  _ ← set_right y z; _ ← set_left z T3;
  _ ← update_height y; _ ← update_height z;
  mret y.
Definition leftRotate z : prog ptr :=
  y ← get_right z; T2 ← get_left y;
  _ ← set_left y z; _ ← set_right z T2;
  _ ← update_height z; _ ← update_height y;
  mret y.

Definition getBalance p : prog Z :=
  match p with
  | None => mret 0%Z
  | Some _ =>
      l ← get_left p; hl ← height l; r ← get_right p; hr ← height r;
      lift (int_add hl (- hr))
  end.

(** [key < p->key] and [key > p->key] *)
Definition below key p : prog bool := x ← get_key p; mret (key <? x)%Z.
Definition above key p : prog bool := x ← get_key p; mret (key >? x)%Z.

(** lines 110 to 137 of [insert] *)
Definition rebalance p key : prog ptr :=
  balance ← getBalance p;
  left_left ← mret (balance >? 1)%Z &&& (l ← get_left p; below key l);
  if left_left : bool then rightRotate p
  else
    right_right ← mret (balance <? -1)%Z &&& (r ← get_right p; above key r);
    if right_right : bool then leftRotate p
    else
      left_right ← mret (balance >? 1)%Z &&& (l ← get_left p; above key l);
      if left_right : bool then
        l ← get_left p; l ← leftRotate l; _ ← set_left p l; rightRotate p
      else
        right_left ← mret (balance <? -1)%Z &&& (r ← get_right p; below key r);
        if right_left : bool then
          r ← get_right p; r ← rightRotate r; _ ← set_right p r; leftRotate p
        else mret p.

Fixpoint insert fuel p key : prog ptr :=
  match fuel with
  | O => out_of_fuel
  | S fuel =>
      match p with
      | None => newNode key
      | Some _ =>
          goes_left ← below key p;
          _ ← (if goes_left : bool then l ← get_left p; l ← insert fuel l key; set_left p l
               else r ← get_right p; r ← insert fuel r key; set_right p r);
          _ ← update_height p;
          rebalance p key
      end
  end.

Fixpoint preOrder fuel p : prog (list Z) :=
  match fuel with
  | O => out_of_fuel
  | S fuel =>
      match p with
      | None => mret []
      | Some _ =>
          k ← get_key p;
          l ← get_left p; out1 ← preOrder fuel l;
          r ← get_right p; out2 ← preOrder fuel r;
          mret (k :: out1 ++ out2)
      end
  end.

(** the calls of [main] *)
Fixpoint insert_all fuel p (keys : list Z) : prog ptr :=
  match keys with [] => mret p | k :: keys => p ← insert fuel p k; insert_all fuel p keys end.
Definition main : prog (list Z) :=
  root ← insert_all 7 None [10; 20; 30; 40; 50; 25]%Z; preOrder 7 root.
