(* ===== verification/AvlProps.v ===== *)
(** AVL.cpp is a search tree, but not an AVL tree.

    [insert] on the heap does what [avl_insert] does to the tree it represents
    ([wp_avl_insert]).  The keys are always right; the heights are right as long as no
    right rotation is needed, because rightRotate computes the height of the new
    root before that of its child. *)

From iris.proofmode Require Import proofmode environments coq_tactics reduction.
From stdpp Require Import sorting.
From S2P Require Import Prelude Int Heap HeapTactics Avl.

(** a tree with the heights that are stored in its nodes *)
Inductive tree := E | N (l : tree) (k h : Z) (r : tree).

Section values.
Implicit Types (t l r a b c : tree) (k key h : Z).

Definition stored t : Z := match t with E => 0 | N _ _ h _ => h end.
Fixpoint keys t : list Z := match t with E => [] | N l k _ r => keys l ++ k :: keys r end.
Fixpoint preorder t : list Z := match t with E => [] | N l k _ r => k :: preorder l ++ preorder r end.
Fixpoint depth t : nat := match t with E => 0 | N l _ _ r => S (depth l `max` depth r) end.

(** a node with its height computed from its children *)
Definition node_of l k r : res tree := h ← int_add (max (stored l) (stored r)) 1; mret (N l k h r).
Definition avl_rightRotate t : res tree :=
  match t with
  | N (N a ky _ b) kz hz c =>
      hy ← int_add (max (stored a) hz) 1; z ← node_of b kz c; mret (N a ky hy z)
  | _ => Fault NullDeref
  end.
Definition avl_leftRotate t : res tree :=
  match t with
  | N a kz _ (N b ky _ c) => z ← node_of a kz b; node_of z ky c
  | _ => Fault NullDeref
  end.
Definition avl_balance t : res Z := match t with E => mret 0%Z | N l _ _ r => int_add (stored l) (- stored r) end.
(** [c && key < root of t] and [c && key > root of t] *)
Definition avl_below (c : bool) key t : res bool :=
  if c then match t with E => Fault NullDeref | N _ x _ _ => mret (key <? x)%Z end else mret false.
Definition avl_above (c : bool) key t : res bool :=
  if c then match t with E => Fault NullDeref | N _ x _ _ => mret (key >? x)%Z end else mret false.

Definition avl_rebalance l k h r key : res tree :=
  balance ← avl_balance (N l k h r);
  left_left ← avl_below (balance >? 1)%Z key l;
  if left_left : bool then avl_rightRotate (N l k h r)
  else
    right_right ← avl_above (balance <? -1)%Z key r;
    if right_right : bool then avl_leftRotate (N l k h r)
    else
      left_right ← avl_above (balance >? 1)%Z key l;
      if left_right : bool then l ← avl_leftRotate l; avl_rightRotate (N l k h r)
      else
        right_left ← avl_below (balance <? -1)%Z key r;
        if right_left : bool then r ← avl_rightRotate r; avl_leftRotate (N l k h r)
        else mret (N l k h r).
Fixpoint avl_insert key t : res tree :=
  match t with
  | E => mret (N E key 1 E)
  | N l k _ r =>
      '(l, r) ← (if (key <? k)%Z then l ← avl_insert key l; mret (l, r) else r ← avl_insert key r; mret (l, r));
      h ← int_add (max (stored l) (stored r)) 1;
      avl_rebalance l k h r key
  end.
End values.

(** ** The heap *)
Section rep.
Implicit Types (t l r a b c : tree) (k key h : Z) (p q : ptr) (n : loc).

(** the tree [t] is at [p] *)
Fixpoint is_tree t p : heapPropI node :=
  match t with
  | E => ⟨p = None⟩
  | N l k h r => ∃ n pl pr, ⟨p = Some n⟩ ∗ n ↦ mk_node k pl pr h ∗ is_tree l pl ∗ is_tree r pr
  end%I.
End rep.
#[export] Typeclasses Opaque is_tree.
Arguments is_tree : simpl never.

Section nodes.
Implicit Types (t l r a b c : tree) (k key h : Z) (p q : ptr) (n : loc).

Lemma is_tree_null p : is_tree E p ⊣⊢ ⟨p = None⟩.
Proof. done. Qed.
Lemma is_tree_opens l k h r p :
  is_tree (N l k h r) p ⊢ ∃ n pl pr, ⟨p = Some n⟩ ∗ n ↦ mk_node k pl pr h ∗ is_tree l pl ∗ is_tree r pr.
Proof. done. Qed.
Lemma is_tree_closes l k h r n pl pr :
  n ↦ mk_node k pl pr h -∗ is_tree l pl -∗ is_tree r pr -∗ is_tree (N l k h r) (Some n).
Proof. iIntros "Hn Hl Hr". iExists n, pl, pr. by iFrame. Qed.

#[export] Instance get_key_op n (v : node) : CellOp (get_key (Some n)) n v (n_key v) v.
Proof. eapply bind_op; [apply _|apply ret_op]. Qed.
#[export] Instance get_left_op n (v : node) : CellOp (get_left (Some n)) n v (n_left v) v.
Proof. eapply bind_op; [apply _|apply ret_op]. Qed.
#[export] Instance get_right_op n (v : node) : CellOp (get_right (Some n)) n v (n_right v) v.
Proof. eapply bind_op; [apply _|apply ret_op]. Qed.
#[export] Instance get_height_op n (v : node) : CellOp (get_height (Some n)) n v (n_height v) v.
Proof. eapply bind_op; [apply _|apply ret_op]. Qed.
#[export] Instance set_left_op n (v : node) p : CellOp (set_left (Some n) p) n v tt (put_left p v).
Proof. apply _. Qed.
#[export] Instance set_right_op n (v : node) p : CellOp (set_right (Some n) p) n v tt (put_right p v).
Proof. apply _. Qed.
#[export] Instance set_height_op n (v : node) h : CellOp (set_height (Some n) h) n v tt (put_height h v).
Proof. apply _. Qed.
#[export] Instance below_op n (v : node) k : CellOp (below k (Some n)) n v (k <? n_key v)%Z v.
Proof. eapply bind_op; [apply _|apply ret_op]. Qed.
#[export] Instance above_op n (v : node) k : CellOp (above k (Some n)) n v (k >? n_key v)%Z v.
Proof. eapply bind_op; [apply _|apply ret_op]. Qed.
End nodes.

Ltac node_simpl := cbn [put_left put_right put_height n_key n_left n_right n_height fst snd].
Ltac steps := wp_ops node_simpl.
(** the cell of the tree ["Ht"] *)
Ltac open_tree H n pl pr :=
  iDestruct (is_tree_opens with H) as (n pl pr) "(-> & Hn & Hl & Hr)".

Section programs.
Implicit Types (t l r : tree) (k key h : Z) (p q : ptr) (n : loc) (fuel : nat).

Lemma wp_height t p (Φ : Z → heapPropI node) :
  is_tree t p ∗ (is_tree t p -∗ Φ (stored t)) ⊢ wp (height p) Φ.
Proof.
  iIntros "[Ht HΦ]". destruct t as [|l k h r].
  - iEval (rewrite is_tree_null) in "Ht"; iDestruct "Ht" as %->. unfold height. steps. iApply "HΦ". by rewrite is_tree_null.
  - open_tree "Ht" n pl pr. unfold height. steps. iApply "HΦ".
    iApply (is_tree_closes with "Hn Hl Hr").
Qed.

(** a node whose children are trees *)
Lemma wp_update_height n pl pr k h h' l r (Φ : unit → heapPropI node) :
  int_add (max (stored l) (stored r)) 1 = Ok h' →
  n ↦ mk_node k pl pr h ∗ is_tree l pl ∗ is_tree r pr ∗
  (n ↦ mk_node k pl pr h' -∗ is_tree l pl -∗ is_tree r pr -∗ Φ tt) ⊢
  wp (update_height (Some n)) Φ.
Proof.
  iIntros (Hh) "(Hn & Hl & Hr & HΦ)". unfold update_height. steps.
  iApply wp_height. iFrame "Hl". iIntros "Hl". steps.
  iApply wp_height. iFrame "Hr". iIntros "Hr".
  wp_bind. iApply wp_lift; [exact Hh|]. steps. iApply ("HΦ" with "Hn Hl Hr").
Qed.
Lemma wp_getBalance n pl pr k h l r bal (Φ : Z → heapPropI node) :
  int_add (stored l) (- stored r) = Ok bal →
  n ↦ mk_node k pl pr h ∗ is_tree l pl ∗ is_tree r pr ∗
  (n ↦ mk_node k pl pr h -∗ is_tree l pl -∗ is_tree r pr -∗ Φ bal) ⊢
  wp (getBalance (Some n)) Φ.
Proof.
  iIntros (Hb) "(Hn & Hl & Hr & HΦ)". unfold getBalance. steps.
  iApply wp_height. iFrame "Hl". iIntros "Hl". steps.
  iApply wp_height. iFrame "Hr". iIntros "Hr".
  iApply wp_lift; [exact Hb|]. iApply ("HΦ" with "Hn Hl Hr").
Qed.

Lemma res_bind_Ok {A B} (m : res A) (f : A → res B) y : (x ← m; f x) = Ok y → ∃ x, m = Ok x ∧ f x = Ok y.
Proof. destruct m as [x| |]; simpl; naive_solver. Qed.

Lemma wp_rightRotate t t' p (Φ : ptr → heapPropI node) :
  avl_rightRotate t = Ok t' →
  is_tree t p ∗ (∀ q, is_tree t' q -∗ Φ q) ⊢ wp (rightRotate p) Φ.
Proof.
  intros Ht. destruct t as [|[|a ky hy b] kz hz c]; try done. cbn [avl_rightRotate] in Ht.
  apply res_bind_Ok in Ht as (hy' & Hy & Ht). apply res_bind_Ok in Ht as (z & Hz & [= <-]).
  apply res_bind_Ok in Hz as (hz' & Hz & [= <-]).
  iIntros "[Ht HΦ]". iDestruct (is_tree_opens with "Ht") as (n pl pc) "(-> & Hn & Ht & Hc)".
  iDestruct (is_tree_opens with "Ht") as (m pa pb) "(-> & Hm & Ha & Hb)".
  unfold rightRotate. steps. node_simpl.
  iDestruct (is_tree_closes b kz hz c with "Hn Hb Hc") as "Hz".
  iApply (wp_update_height _ _ _ _ _ _ a (N b kz hz c) _ Hy). iFrame "Hm Ha Hz". iIntros "Hm Ha Hz". steps.
  iDestruct (is_tree_opens with "Hz") as (n' pb' pc') "(%Hn & Hn & Hb & Hc)". injection Hn as <-.
  iApply (wp_update_height _ _ _ _ _ _ b c _ Hz). iFrame "Hn Hb Hc". iIntros "Hn Hb Hc". steps.
  iApply "HΦ". iApply (is_tree_closes with "Hm Ha"). iApply (is_tree_closes with "Hn Hb Hc").
Qed.
Lemma wp_leftRotate t t' p (Φ : ptr → heapPropI node) :
  avl_leftRotate t = Ok t' →
  is_tree t p ∗ (∀ q, is_tree t' q -∗ Φ q) ⊢ wp (leftRotate p) Φ.
Proof.
  intros Ht. destruct t as [|a kz hz [|b ky hy c]]; try done. cbn [avl_leftRotate] in Ht.
  apply res_bind_Ok in Ht as (z & Hz & Hy). apply res_bind_Ok in Hz as (hz' & Hz & [= <-]).
  apply res_bind_Ok in Hy as (hy' & Hy & [= <-]).
  iIntros "[Ht HΦ]". iDestruct (is_tree_opens with "Ht") as (n pa pr) "(-> & Hn & Ha & Ht)".
  iDestruct (is_tree_opens with "Ht") as (m pb pc) "(-> & Hm & Hb & Hc)".
  unfold leftRotate. steps. node_simpl.
  iApply (wp_update_height _ _ _ _ _ _ a b _ Hz). iFrame "Hn Ha Hb". iIntros "Hn Ha Hb". steps.
  iDestruct (is_tree_closes with "Hn Ha Hb") as "Hz".
  iApply (wp_update_height _ _ _ _ _ _ (N a kz hz' b) c _ Hy). iFrame "Hm Hz Hc". iIntros "Hm Hz Hc". steps.
  iApply "HΦ". iApply (is_tree_closes with "Hm Hz Hc").
Qed.

(** the comparison with the key of a child, if the balance asks for it *)
Lemma wp_child_below c key t p ans (Φ : bool → heapPropI node) :
  avl_below c key t = Ok ans →
  is_tree t p ∗ (is_tree t p -∗ Φ ans) ⊢ wp (if c then below key p else mret false) Φ.
Proof.
  intros Ht. iIntros "[Ht HΦ]". destruct c; [destruct t as [|l k h r]; [done|]|]; injection Ht as <-.
  - open_tree "Ht" n pl pr. steps. iApply "HΦ". iApply (is_tree_closes with "Hn Hl Hr").
  - steps. by iApply "HΦ".
Qed.
Lemma wp_child_above c key t p ans (Φ : bool → heapPropI node) :
  avl_above c key t = Ok ans →
  is_tree t p ∗ (is_tree t p -∗ Φ ans) ⊢ wp (if c then above key p else mret false) Φ.
Proof.
  intros Ht. iIntros "[Ht HΦ]". destruct c; [destruct t as [|l k h r]; [done|]|]; injection Ht as <-.
  - open_tree "Ht" n pl pr. steps. iApply "HΦ". iApply (is_tree_closes with "Hn Hl Hr").
  - steps. by iApply "HΦ".
Qed.
End programs.

Ltac child_test lem :=
  iIntros (?) "(Hn & Ht & HΦ)"; steps;
  match goal with H : _ ?c _ _ = Ok _ |- _ =>
    destruct c;
    [steps; iApply (lem true); [done|]; iFrame "Ht"; iApply ("HΦ" with "Hn")
    |injection H as <-; steps; iApply ("HΦ" with "Hn Ht")]
  end.

Section children.
Implicit Types (t l r : tree) (k key h : Z) (p q : ptr) (n : loc) (fuel : nat).

Lemma wp_left_below n pl pr k h l key c ans (Φ : bool → heapPropI node) :
  avl_below c key l = Ok ans →
  n ↦ mk_node k pl pr h ∗ is_tree l pl ∗ (n ↦ mk_node k pl pr h -∗ is_tree l pl -∗ Φ ans) ⊢
  wp (mret c &&& (l ← get_left (Some n); below key l)) Φ.
Proof. child_test @wp_child_below. Qed.
Lemma wp_left_above n pl pr k h l key c ans (Φ : bool → heapPropI node) :
  avl_above c key l = Ok ans →
  n ↦ mk_node k pl pr h ∗ is_tree l pl ∗ (n ↦ mk_node k pl pr h -∗ is_tree l pl -∗ Φ ans) ⊢
  wp (mret c &&& (l ← get_left (Some n); above key l)) Φ.
Proof. child_test @wp_child_above. Qed.
Lemma wp_right_below n pl pr k h r key c ans (Φ : bool → heapPropI node) :
  avl_below c key r = Ok ans →
  n ↦ mk_node k pl pr h ∗ is_tree r pr ∗ (n ↦ mk_node k pl pr h -∗ is_tree r pr -∗ Φ ans) ⊢
  wp (mret c &&& (r ← get_right (Some n); below key r)) Φ.
Proof. child_test @wp_child_below. Qed.
Lemma wp_right_above n pl pr k h r key c ans (Φ : bool → heapPropI node) :
  avl_above c key r = Ok ans →
  n ↦ mk_node k pl pr h ∗ is_tree r pr ∗ (n ↦ mk_node k pl pr h -∗ is_tree r pr -∗ Φ ans) ⊢
  wp (mret c &&& (r ← get_right (Some n); above key r)) Φ.
Proof. child_test @wp_child_above. Qed.

Lemma wp_rebalance l k h r key t' n pl pr (Φ : ptr → heapPropI node) :
  avl_rebalance l k h r key = Ok t' →
  n ↦ mk_node k pl pr h ∗ is_tree l pl ∗ is_tree r pr ∗ (∀ q, is_tree t' q -∗ Φ q) ⊢
  wp (rebalance (Some n) key) Φ.
Proof.
  intros Ht. unfold avl_rebalance in Ht. apply res_bind_Ok in Ht as (bal & Hb & Ht).
  apply res_bind_Ok in Ht as (c1 & H1 & Ht).
  iIntros "(Hn & Hl & Hr & HΦ)". unfold rebalance. wp_bind.
  iApply (wp_getBalance _ _ _ _ _ _ _ _ _ Hb). iFrame "Hn Hl Hr". iIntros "Hn Hl Hr". wp_bind.
  iApply (wp_left_below _ _ _ _ _ _ _ _ _ _ H1). iFrame "Hn Hl". iIntros "Hn Hl". destruct c1.
  { iApply (wp_rightRotate _ _ _ _ Ht). iFrame "HΦ". iApply (is_tree_closes with "Hn Hl Hr"). }
  apply res_bind_Ok in Ht as (c2 & H2 & Ht). wp_bind.
  iApply (wp_right_above _ _ _ _ _ _ _ _ _ _ H2). iFrame "Hn Hr". iIntros "Hn Hr". destruct c2.
  { iApply (wp_leftRotate _ _ _ _ Ht). iFrame "HΦ". iApply (is_tree_closes with "Hn Hl Hr"). }
  apply res_bind_Ok in Ht as (c3 & H3 & Ht). wp_bind.
  iApply (wp_left_above _ _ _ _ _ _ _ _ _ _ H3). iFrame "Hn Hl". iIntros "Hn Hl". destruct c3.
  { apply res_bind_Ok in Ht as (l' & Hl' & Ht). steps.
    iApply (wp_leftRotate _ _ _ _ Hl'). iFrame "Hl". iIntros (q) "Hl". steps.
    iApply (wp_rightRotate _ _ _ _ Ht). iFrame "HΦ". iApply (is_tree_closes with "Hn Hl Hr"). }
  apply res_bind_Ok in Ht as (c4 & H4 & Ht). wp_bind.
  iApply (wp_right_below _ _ _ _ _ _ _ _ _ _ H4). iFrame "Hn Hr". iIntros "Hn Hr". destruct c4.
  { apply res_bind_Ok in Ht as (r' & Hr' & Ht). steps.
    iApply (wp_rightRotate _ _ _ _ Hr'). iFrame "Hr". iIntros (q) "Hr". steps.
    iApply (wp_leftRotate _ _ _ _ Ht). iFrame "HΦ". iApply (is_tree_closes with "Hn Hl Hr"). }
  injection Ht as <-. steps. iApply "HΦ". iApply (is_tree_closes with "Hn Hl Hr").
Qed.

Lemma wp_avl_insert fuel t key t' p (Φ : ptr → heapPropI node) :
  avl_insert key t = Ok t' → depth t < fuel →
  is_tree t p ∗ (∀ q, is_tree t' q -∗ Φ q) ⊢ wp (insert fuel p key) Φ.
Proof.
  revert t t' p Φ. induction fuel as [|fuel IH]; intros t t' p Φ Ht Hf; [lia|].
  iIntros "[Ht HΦ]". destruct t as [|l k h r].
  - injection Ht as <-. iEval (rewrite is_tree_null) in "Ht". iDestruct "Ht" as %->.
    cbn [insert]. unfold newNode. iApply wp_new. iIntros (n) "Hn". iApply "HΦ".
    iApply (is_tree_closes with "Hn"); by rewrite is_tree_null.
  - cbn [avl_insert depth] in Ht, Hf. apply res_bind_Ok in Ht as ([l' r'] & Hlr & Ht).
    apply res_bind_Ok in Ht as (h' & Hh & Ht). open_tree "Ht" n pl pr. cbn [insert]. steps.
    destruct (key <? k)%Z; apply res_bind_Ok in Hlr as (t1 & H1 & [= <- <-]); steps.
    + iApply (IH _ _ _ _ H1); [lia|]. iFrame "Hl". iIntros (q) "Hl". steps. node_simpl.
      iApply (wp_update_height _ _ _ _ _ _ _ _ _ Hh). iFrame "Hn Hl Hr". iIntros "Hn Hl Hr". steps.
      iApply (wp_rebalance _ _ _ _ _ _ _ _ _ _ Ht). iFrame.
    + iApply (IH _ _ _ _ H1); [lia|]. iFrame "Hr". iIntros (q) "Hr". steps. node_simpl.
      iApply (wp_update_height _ _ _ _ _ _ _ _ _ Hh). iFrame "Hn Hl Hr". iIntros "Hn Hl Hr". steps.
      iApply (wp_rebalance _ _ _ _ _ _ _ _ _ _ Ht). iFrame.
Qed.

Lemma wp_preOrder fuel t p (Φ : list Z → heapPropI node) :
  depth t < fuel → is_tree t p ∗ (is_tree t p -∗ Φ (preorder t)) ⊢ wp (preOrder fuel p) Φ.
Proof.
  revert t p Φ. induction fuel as [|fuel IH]; intros t p Φ Hf; [lia|].
  iIntros "[Ht HΦ]". destruct t as [|l k h r].
  - iEval (rewrite is_tree_null) in "Ht". iDestruct "Ht" as %->. cbn [preOrder]. steps. iApply "HΦ". by rewrite is_tree_null.
  - cbn [depth] in Hf. open_tree "Ht" n pl pr. cbn [preOrder]. steps.
    iApply IH; [|iFrame "Hl"; iIntros "Hl"]; [lia|]. steps.
    iApply IH; [|iFrame "Hr"; iIntros "Hr"]; [lia|]. steps. iApply "HΦ". iApply (is_tree_closes with "Hn Hl Hr").
Qed.
End children.

(** ** The keys *)
Section keys.
Implicit Types (t l r : tree) (k key h x : Z) (xs ys : list Z).

(** insertion behind the smaller and the equal keys of an ordered list *)
Fixpoint list_insert key xs : list Z :=
  match xs with [] => [key] | x :: xs => if (key <? x)%Z then key :: x :: xs else x :: list_insert key xs end.

Lemma list_insert_low key xs x ys : (key < x)%Z →
  list_insert key (xs ++ x :: ys) = list_insert key xs ++ x :: ys.
Proof.
  intros Hx. induction xs as [|y xs IH]; simpl.
  - by rewrite (proj2 (Z.ltb_lt _ _) Hx).
  - destruct (key <? y)%Z; simpl; by rewrite ?IH.
Qed.
Lemma list_insert_high key xs ys : Forall (λ y, (y ≤ key)%Z) xs → list_insert key (xs ++ ys) = xs ++ list_insert key ys.
Proof.
  induction 1 as [|y xs Hy _ IH]; [done|]. simpl. by rewrite IH (proj2 (Z.ltb_ge _ _) Hy).
Qed.
Lemma list_insert_Permutation key xs : list_insert key xs ≡ₚ key :: xs.
Proof.
  induction xs as [|x xs IH]; [done|]. simpl. destruct (key <? x)%Z; [done|]. rewrite IH. by constructor.
Qed.
Lemma list_insert_sorted key xs : StronglySorted Z.le xs → StronglySorted Z.le (list_insert key xs).
Proof.
  induction 1 as [|x xs Hs IH Hx]; [repeat constructor|]. simpl. destruct (Z.ltb_spec key x).
  - constructor; [by constructor|]. constructor; [lia|]. eapply Forall_impl; [exact Hx|]. simpl. lia.
  - constructor; [done|]. rewrite list_insert_Permutation. by constructor.
Qed.

Lemma keys_rightRotate t t' : avl_rightRotate t = Ok t' → keys t' = keys t.
Proof.
  destruct t as [|[|a ky hy b] kz hz c]; try done. cbn [avl_rightRotate]. unfold node_of.
  intros Ht. apply res_bind_Ok in Ht as (hy' & _ & Ht). apply res_bind_Ok in Ht as (z & Hz & [= <-]).
  apply res_bind_Ok in Hz as (? & _ & [= <-]). simpl. by rewrite -app_assoc.
Qed.
Lemma keys_leftRotate t t' : avl_leftRotate t = Ok t' → keys t' = keys t.
Proof.
  destruct t as [|a kz hz [|b ky hy c]]; try done. cbn [avl_leftRotate]. unfold node_of.
  intros Ht. apply res_bind_Ok in Ht as (z & Hz & Ht).
  apply res_bind_Ok in Hz as (? & _ & [= <-]). apply res_bind_Ok in Ht as (? & _ & [= <-]).
  simpl. by rewrite -app_assoc.
Qed.
Lemma keys_rebalance l k h r key t' : avl_rebalance l k h r key = Ok t' → keys t' = keys l ++ k :: keys r.
Proof.
  unfold avl_rebalance. intros Ht. apply res_bind_Ok in Ht as (bal & _ & Ht).
  apply res_bind_Ok in Ht as (c1 & _ & Ht). destruct c1; [by apply keys_rightRotate in Ht|].
  apply res_bind_Ok in Ht as (c2 & _ & Ht). destruct c2; [by apply keys_leftRotate in Ht|].
  apply res_bind_Ok in Ht as (c3 & _ & Ht). destruct c3.
  { apply res_bind_Ok in Ht as (l' & Hl & Ht). apply keys_rightRotate in Ht as ->.
    apply keys_leftRotate in Hl. simpl. by rewrite Hl. }
  apply res_bind_Ok in Ht as (c4 & _ & Ht). destruct c4.
  { apply res_bind_Ok in Ht as (r' & Hr & Ht). apply keys_leftRotate in Ht as ->.
    apply keys_rightRotate in Hr. simpl. by rewrite Hr. }
  by injection Ht as <-.
Qed.
Lemma sorted_node xs k ys : StronglySorted Z.le (xs ++ k :: ys) →
  StronglySorted Z.le xs ∧ StronglySorted Z.le ys ∧ Forall (λ y, (y ≤ k)%Z) xs ∧ Forall (λ y, (k ≤ y)%Z) ys.
Proof.
  induction xs as [|x xs IH]; simpl; intros Hs; inversion Hs as [|? ? Hs' Hx]; subst.
  - split_and!; [constructor|done|constructor|done].
  - destruct (IH Hs') as (H1 & H2 & H3 & H4). apply Forall_app in Hx as (Hx & Hk).
    split_and!; [by constructor|done| |done]. constructor; [by inversion Hk|done].
Qed.
Lemma keys_avl_insert key t t' :
  StronglySorted Z.le (keys t) → avl_insert key t = Ok t' → keys t' = list_insert key (keys t).
Proof.
  revert t'. induction t as [|l IHl k h r IHr]; intros t' Hs Ht; [by injection Ht as <-|].
  cbn [avl_insert keys] in *. apply res_bind_Ok in Ht as ([l' r'] & Hlr & Ht). apply res_bind_Ok in Ht as (h' & _ & Ht).
  apply keys_rebalance in Ht as ->. apply sorted_node in Hs as (Hl & Hr & Hlk & _).
  destruct (Z.ltb_spec key k) as [Hk|Hk]; apply res_bind_Ok in Hlr as (t1 & H1 & [= <- <-]).
  - by rewrite list_insert_low // (IHl _ Hl H1).
  - rewrite list_insert_high; [|eapply Forall_impl; [exact Hlk|simpl; lia]].
    simpl. by rewrite (proj2 (Z.ltb_ge _ _) Hk) (IHr _ Hr H1).
Qed.
End keys.

(** ** Heights *)
Section heights.
Implicit Types (t l r : tree) (k key h x : Z) (xs ys : list Z).

Lemma avl_max x y : max x y = Z.max x y.
Proof. unfold max. rewrite Z.gtb_ltb. destruct (Z.ltb_spec y x); lia. Qed.

(** the stored heights are right and the tree is balanced *)
Fixpoint avl t : Prop :=
  match t with
  | E => True
  | N l _ h r => h = (Z.max (stored l) (stored r) + 1)%Z ∧ (-1 ≤ stored l - stored r ≤ 1)%Z ∧ avl l ∧ avl r
  end.

Lemma avl_stored t : avl t → stored t = Z.of_nat (depth t).
Proof.
  induction t as [|l IHl k h r IHr]; [done|]. cbn [avl stored depth]. intros (-> & _ & Hl & Hr).
  rewrite (IHl Hl) (IHr Hr). lia.
Qed.
(** an AVL tree of depth d has at least 2^(d/2) - 1 keys *)
Lemma avl_size t : avl t → 2 ^ depth t ≤ (length (keys t) + 1) * (length (keys t) + 1).
Proof.
  induction t as [|l IHl k h r IHr]; [simpl; lia|]. intros (_ & Hb & Hl & Hr).
  rewrite (avl_stored _ Hl) (avl_stored _ Hr) in Hb. specialize (IHl Hl). specialize (IHr Hr).
  cbn [depth keys]. rewrite length_app. cbn [length].
  set (a := length (keys l) + 1) in *. set (b := length (keys r) + 1) in *.
  replace (length (keys l) + S (length (keys r)) + 1) with (a + b) by lia.
  assert (depth l = depth r ∨ depth l = S (depth r) ∨ depth r = S (depth l)) as [Hd|[Hd|Hd]] by lia.
  - rewrite Hd Nat.max_id. rewrite Hd in IHl. cbn [Nat.pow]. nia.
  - rewrite Hd in IHl |- *. replace (S (depth r) `max` depth r) with (S (depth r)) by lia. cbn [Nat.pow] in *.
    destruct (Nat.le_ge_cases b a); nia.
  - rewrite Hd in IHr |- *. replace (depth l `max` S (depth l)) with (S (depth l)) by lia. cbn [Nat.pow] in *.
    destruct (Nat.le_ge_cases a b); nia.
Qed.
Lemma depth_keys t : depth t ≤ length (keys t).
Proof. induction t as [|l IHl k h r IHr]; [done|]. simpl. rewrite length_app. simpl. lia. Qed.
End heights.

(** ** Ascending keys *)
Section ascending.
Implicit Types (t l r : tree) (k key h x : Z) (xs ys : list Z).

(** a node that an insertion made higher: a leaf, or one that leans to the right *)
Definition leans_right t : Prop :=
  match t with E => False | N a _ _ b => (a = E ∧ b = E) ∨ stored b = (stored a + 1)%Z end.

Lemma stored_nonneg t : avl t → (0 ≤ stored t)%Z.
Proof. intros Ht. rewrite avl_stored //. lia. Qed.

Lemma avl_no_rebalance l k h r key : (-1 ≤ stored l - stored r ≤ 1)%Z → avl_rebalance l k h r key = Ok (N l k h r).
Proof.
  intros Hb. unfold avl_rebalance. cbn [avl_balance]. rewrite int_add_Ok; [|unfold INT_MIN, INT_MAX; lia].
  cbn [mbind res_bind]. rewrite !Z.gtb_ltb.
  rewrite (proj2 (Z.ltb_ge _ _) (_ : stored l + - stored r ≤ 1)%Z); [|lia].
  rewrite (proj2 (Z.ltb_ge _ _) (_ : -1 ≤ stored l + - stored r)%Z); [|lia]. done.
Qed.
(** the left rotation of [insert] *)
Lemma avl_rebalance_left l k h a x hr b key :
  avl l → avl (N a x hr b) → stored b = (stored a + 1)%Z → stored (N a x hr b) = (stored l + 2)%Z →
  (x < key)%Z → (stored l + 3 ≤ INT_MAX)%Z →
  ∃ t', avl_rebalance l k h (N a x hr b) key = Ok t' ∧ avl t' ∧ stored t' = (stored l + 2)%Z.
Proof.
  intros Hl (Hh & Hbal & Ha & Hb) Hab Hr Hx Hmax. cbn [stored] in Hr. subst hr.
  pose proof (stored_nonneg _ Hl). pose proof (stored_nonneg _ Ha).
  unfold avl_rebalance. cbn [avl_balance stored]. rewrite int_add_Ok; [|unfold INT_MIN, INT_MAX in *; lia].
  cbn [mbind res_bind]. rewrite !Z.gtb_ltb.
  rewrite (proj2 (Z.ltb_ge 1 _)); [|lia]. rewrite (proj2 (Z.ltb_lt _ (-1))); [|lia].
  cbn [avl_below avl_above]. rewrite Z.gtb_ltb (proj2 (Z.ltb_lt _ _) Hx). cbn [mret res_ret avl_leftRotate].
  unfold node_of. rewrite avl_max int_add_Ok; [|unfold INT_MIN, INT_MAX in *; lia]. cbn [mbind res_bind mret res_ret stored].
  rewrite avl_max int_add_Ok; [|unfold INT_MIN, INT_MAX in *; lia]. cbn [mbind res_bind mret res_ret].
  eexists. split; [done|]. cbn [avl stored]. split; [|lia]. split; [done|]. split; [lia|].
  split; [|done]. split; [done|]. split; [lia|]. done.
Qed.

Lemma elem_of_before_last x xs ys zs key : xs ++ x :: ys = zs ++ [key] → ys ≠ [] → x ∈ zs.
Proof.
  intros Heq Hne. destruct (exists_last Hne) as (ys' & y & ->).
  change (x :: ys' ++ [y]) with ((x :: ys') ++ [y]) in Heq. rewrite app_assoc in Heq.
  apply app_inj_tail in Heq as [<- _]. set_solver.
Qed.

Lemma avl_insert_last key t :
  avl t → Forall (λ y, (y < key)%Z) (keys t) → (stored t < INT_MAX)%Z →
  ∃ t', avl_insert key t = Ok t' ∧ avl t' ∧ keys t' = keys t ++ [key] ∧
    (stored t' = stored t ∨ stored t' = (stored t + 1)%Z ∧ leans_right t').
Proof.
  induction t as [|l _ k h r IHr]; intros Ht Hk Hmax.
  { exists (N E key 1 E). cbn. split; [done|]. split_and!; try done. right. split; [done|by left]. }
  destruct Ht as (-> & Hb & Hl & Hr). cbn [keys stored] in *. apply Forall_app in Hk as (Hkl & Hkr).
  apply Forall_cons in Hkr as (Hkk & Hkr). pose proof (stored_nonneg _ Hl). pose proof (stored_nonneg _ Hr).
  destruct (IHr Hr Hkr) as (r' & Hi & Hr' & Hkeys & Hst); [lia|]. clear IHr.
  cbn [avl_insert]. rewrite (proj2 (Z.ltb_ge _ _)); [|lia]. rewrite Hi. cbn [mbind res_bind mret res_ret].
  rewrite avl_max int_add_Ok; [|unfold INT_MIN; lia]. cbn [mbind res_bind].
  destruct (decide (stored r' = stored l + 2)%Z) as [Hhigh|Hlow].
  - assert (stored r' = (stored r + 1)%Z ∧ leans_right r') as (Hr1 & Hlean) by (destruct Hst as [?|?]; [lia|done]).
    destruct r' as [|a x hr b]; [done|]. destruct Hlean as [[-> ->]|Hab].
    { destruct Hr' as (-> & _). cbn in Hhigh. lia. }
    assert (x ∈ keys r) as Hx.
    { apply (elem_of_before_last x (keys a) (keys b) _ key Hkeys).
      destruct Hr' as (_ & _ & Ha & _). pose proof (stored_nonneg _ Ha).
      destruct b as [|bl bk bh br]; [cbn in Hab; lia|]. cbn. by intros [_ [=]]%app_nil. }
    rewrite Forall_forall in Hkr. specialize (Hkr x Hx).
    destruct (avl_rebalance_left l k (Z.max (stored l) (stored (N a x hr b)) + 1) a x hr b key)
      as (t' & Ht' & Havl & Hst'); [done..|lia|].
    exists t'. split; [done|]. split; [done|]. split; [|left; lia].
    rewrite (keys_rebalance _ _ _ _ _ _ Ht') Hkeys. by rewrite -app_assoc.
  - rewrite avl_no_rebalance; [|destruct Hst as [?|[? ?]]; lia]. eexists. split; [done|]. cbn [avl stored keys].
    split; [|split].
    + split; [done|]. split; [|done]. destruct Hst as [?|[? ?]]; lia.
    + by rewrite Hkeys -app_assoc.
    + destruct Hst as [->|[Hst Hlean]]; [by left|]. rewrite Hst.
      destruct (decide (stored r = stored l)) as [Heq|Hne]; [right|left; lia].
      split; [lia|]. right. cbn. lia.
Qed.
End ascending.

(** ** Properties *)
Section theorems.
Implicit Types (t l r : tree) (k key h x : Z) (xs ys : list Z) (p q : ptr).

Lemma avl_depth t n : avl t → length (keys t) ≤ n → depth t ≤ 2 * Nat.log2 (S n) + 1.
Proof.
  intros Ht Hn. pose proof (avl_size _ Ht) as Hs.
  assert (2 ^ depth t < 2 ^ (2 * Nat.log2 (S n) + 2)) as Hlt.
  { destruct (Nat.log2_spec (S n)) as [_ Hlog]; [lia|]. set (m := Nat.log2 (S n)) in *.
    replace (2 * m + 2) with (S m + S m) by lia. rewrite Nat.pow_add_r.
    eapply Nat.le_lt_trans; [exact Hs|]. apply Nat.mul_lt_mono; lia. }
  apply Nat.pow_lt_mono_r_iff in Hlt; lia.
Qed.
Lemma wp_avl_insert_all fuel t p xs (Φ : ptr → heapPropI node) :
  avl t → StronglySorted Z.lt (keys t ++ xs) → (Z.of_nat (length (keys t ++ xs)) < INT_MAX)%Z →
  2 * Nat.log2 (S (length (keys t ++ xs))) + 1 < fuel →
  is_tree t p ∗ (∀ q t', ⟨avl t' ∧ keys t' = keys t ++ xs⟩ -∗ is_tree t' q -∗ Φ q) ⊢ wp (insert_all fuel p xs) Φ.
Proof.
  revert t p. induction xs as [|x xs IH]; intros t p Ht Hs Hmax Hf; iIntros "[Ht HΦ]"; cbn [insert_all].
  { steps. iApply ("HΦ" with "[] Ht"). iPureIntro. by rewrite app_nil_r. }
  assert (keys t ++ x :: xs = (keys t ++ [x]) ++ xs) as Happ by by rewrite -app_assoc.
  destruct (avl_insert_last x t Ht) as (t' & Hi & Ht' & Hk & _).
  - apply Forall_forall. intros y Hy. clear -Hs Hy. induction (keys t) as [|z zs IH]; [by apply not_elem_of_nil in Hy|].
    inversion Hs as [|? ? Hs' Hz]; subst. apply elem_of_cons in Hy as [->|Hy]; [|by apply IH].
    rewrite Forall_forall in Hz. apply Hz. set_solver.
  - rewrite avl_stored //. pose proof (depth_keys t). rewrite length_app in Hmax. lia.
  - wp_bind. iApply (wp_avl_insert _ _ _ _ _ _ Hi).
    { pose proof (avl_depth t (length (keys t ++ x :: xs)) Ht). rewrite length_app in H. rewrite length_app in Hf. lia. }
    iFrame "Ht". iIntros (q) "Ht". rewrite Happ in Hs, Hmax, Hf. rewrite -Hk in Hs, Hmax, Hf.
    iApply (IH t'); [done..|]. iFrame "Ht". by rewrite Hk -app_assoc.
Qed.
End theorems.

(** [insert] of AVL.cpp on a search tree with any heights in its nodes: when the
    rotations that the heights ask for find their nodes, the run ends without a
    fault, and leaves exactly a tree whose keys are the old ones with the new key
    behind the smaller and the equal ones; they stay in order. *)
Theorem AVL_insert_correct fuel t p h key t' :
  is_tree t p h → StronglySorted Z.le (keys t) → avl_insert key t = Ok t' → (depth t < fuel)%nat →
  ∃ q h', insert fuel p key h = Ok (q, h') ∧ is_tree t' q h' ∧
    keys t' = list_insert key (keys t) ∧ StronglySorted Z.le (keys t').
Proof.
  intros Hh Hs Ht Hf.
  destruct (wp_runs (insert fuel p key) (is_tree t p) (λ q, is_tree t' q) h) as (q & h' & Hr & Ht'); [|done|].
  { iIntros "Ht". iApply (wp_avl_insert _ _ _ _ _ _ Ht Hf). iFrame. iIntros (q) "$". }
  exists q, h'. split; [done|]. split; [done|].
  rewrite (keys_avl_insert _ _ _ Hs Ht). split; [done|by apply list_insert_sorted].
Qed.

Lemma AVL_insert_correct_witness :
  ∃ q h', insert 2 (Some 0) 5 {[ 0 := mk_node 7 None None 1 ]} = Ok (q, h') ∧
    is_tree (N (N E 5 1 E) 7 2 E) q h' ∧ keys (N (N E 5 1 E) 7 2 E) = list_insert 5 (keys (N E 7 1 E)) ∧
    StronglySorted Z.le (keys (N (N E 5 1 E) 7 2 E)).
Proof.
  apply (AVL_insert_correct 2 (N E 7 1 E) (Some 0) {[ 0 := mk_node 7 None None 1 ]} 5 (N (N E 5 1 E) 7 2 E)).
  - refine (holds_mono (0 ↦ mk_node 7 None None 1) _ _ _ _); [|done].
    iIntros "Hn". iApply (is_tree_closes with "Hn"); by rewrite is_tree_null.
  - repeat constructor.
  - reflexivity.
  - simpl. lia.
Defined.

(** C13: keys that are inserted in ascending order: the program ends without a fault
    and leaves exactly an AVL tree of them, with the right heights; its depth is
    logarithmic, and so is the fuel that is enough. *)
Theorem AVL_ascending fuel xs :
  StronglySorted Z.lt xs → (Z.of_nat (length xs) < INT_MAX)%Z → (2 * Nat.log2 (S (length xs)) + 1 < fuel)%nat →
  ∃ q h t, insert_all fuel None xs ∅ = Ok (q, h) ∧ is_tree t q h ∧ avl t ∧ keys t = xs ∧
    (2 ^ depth t ≤ (length xs + 1) * (length xs + 1))%nat.
Proof.
  intros Hs Hmax Hf.
  destruct (wp_runs (insert_all fuel None xs) emp%I (λ q, ∃ t, ⟨avl t ∧ keys t = xs⟩ ∗ is_tree t q)%I ∅)
    as (q & h & Hr & t & Ht); [|done|].
  { iIntros "_". iApply (wp_avl_insert_all _ E _ xs); [done..|]. iSplitR; [by rewrite is_tree_null|].
    iIntros (q t) "Ht Hq". iExists t. iFrame. }
  apply holds_pure_sep in Ht as ((Havl & Hk) & Ht). exists q, h, t. split_and!; try done.
  rewrite -Hk. by apply avl_size.
Qed.

Lemma AVL_ascending_witness : ∃ q h t, insert_all 10 None [1; 2; 3; 4; 5; 6; 7]%Z ∅ = Ok (q, h) ∧
  is_tree t q h ∧ avl t ∧ keys t = [1; 2; 3; 4; 5; 6; 7]%Z ∧ (2 ^ depth t ≤ (7 + 1) * (7 + 1))%nat.
Proof.
  apply (AVL_ascending 10 [1; 2; 3; 4; 5; 6; 7]%Z); [repeat constructor; lia|done|vm_compute; lia].
Defined.

(** what is in memory at [p] *)
Fixpoint tree_at (fuel : nat) (h : gmap loc node) (p : ptr) : tree :=
  match fuel, p ≫= (h !!.) with
  | S fuel, Some v => N (tree_at fuel h (n_left v)) (n_key v) (n_height v) (tree_at fuel h (n_right v))
  | _, _ => E
  end.
Definition tree_of (xs : list Z) : res tree :=
  match insert_all (S (length xs)) None xs ∅ with
  | Ok (p, h) => Ok (tree_at (S (length xs)) h p)
  | Blocked => Blocked
  | Fault f => Fault f
  end.

(** The right rotation computes the height of the new root from the old height of
    its child: with three keys a height is wrong, with six the tree is out of
    balance, and with nine [insert] rotates at a node without the child it needs
    and follows NULL.  Equal keys are never rotated. *)
Theorem AVL_heights_wrong :
  tree_of [3; 2; 1]%Z = Ok (N (N E 1 1 E) 2 4 (N E 3 1 E)) ∧
  (∃ t, tree_of [0; 2; 5; 1; 4; 3]%Z = Ok t ∧ depth t = 4 ∧ length (keys t) = 6) ∧
  insert_all 10 None [13; 8; 7; 5; 6; 11; 0; 12; 1]%Z ∅ = Fault NullDeref ∧
  (∃ t, tree_of (replicate 20 1%Z) = Ok t ∧ depth t = 20).
Proof.
  split; [vm_compute; reflexivity|]. split; [eexists; split; [vm_compute; reflexivity|done]|].
  split; [vm_compute; reflexivity|]. eexists; split; [vm_compute; reflexivity|done].
Qed.

Example AVL_main : ∃ h, main ∅ = Ok ([30; 20; 10; 25; 40; 50]%Z, h).
Proof. eexists. vm_compute. reflexivity. Qed.
