(* ===== verification/Condition.v ===== *)
(** condition.c: two threads count, a third one waits for a limit.

    Thread 0 is [watch_count], threads 1 and 2 are [inc_count].  The results of the
    calls are not looked at by the code; on a mutex that is initialised they
    succeed.  One event is a step of a thread from one synchronisation call to the
    next, a spurious wake-up, or a [pthread_join] of main; all threads may start
    at once. *)

From S2P Require Import Prelude Pthread Int.

Local Open Scope Z_scope.

Definition TCOUNT : Z := 10.
Definition COUNT_LIMIT : Z := 12.
Definition NUM_THREADS : nat := 3.

Inductive inc_pc :=
  | ILock (i : Z)        (* line 33 *)
  | ISignal (i : Z)      (* line 43 *)
  | IUnlock (i : Z)      (* line 48 *)
  | IDone.
#[export] Instance inc_pc_eq_dec : EqDecision inc_pc.
Proof. solve_decision. Defined.
Inductive watch_pc :=
  | WLock                (* line 69 *)
  | WWait                (* line 72: the call *)
  | WBlocked             (* line 72: inside *)
  | WUnlock              (* line 79 *)
  | WDone.

Record conf := Conf {
  count : Z;
  count_mutex : mutex;
  count_threshold_cv : cond;
  watch : watch_pc;
  inc1 : inc_pc;
  inc2 : inc_pc;
  joined : nat           (* how many threads main has waited for *)
}.

Definition set_shared n m ws (c : conf) : conf :=
  Conf n m ws (watch c) (inc1 c) (inc2 c) (joined c).

(** [inc_count] of thread [t]; [o] names the thread a signal wakes *)
Definition inc_count (t : tid) (p : inc_pc) (o : option tid) (c : conf) : res (inc_pc * conf) :=
  match p with
  | ILock i =>
      m ← mutex_lock t (count_mutex c);
      n ← int_add (count c) 1;
      Ok (if n =? COUNT_LIMIT then ISignal i else IUnlock i, set_shared n m (count_threshold_cv c) c)
  | ISignal i =>
      ws ← cond_signal o (count_threshold_cv c);
      Ok (IUnlock i, set_shared (count c) (count_mutex c) ws c)
  | IUnlock i =>
      m ← mutex_unlock t (count_mutex c);
      Ok (if i + 1 <? TCOUNT then ILock (i + 1) else IDone, set_shared (count c) m (count_threshold_cv c) c)
  | IDone => Blocked
  end.

(** the condition of the loop of [watch_count] *)
Definition watch_loop (n : Z) : watch_pc := if n <? COUNT_LIMIT then WWait else WUnlock.
Definition watch_count (t : tid) (p : watch_pc) (c : conf) : res (watch_pc * conf) :=
  match p with
  | WLock =>
      m ← mutex_lock t (count_mutex c);
      Ok (watch_loop (count c), set_shared (count c) m (count_threshold_cv c) c)
  | WWait =>
      m ← mutex_unlock t (count_mutex c);
      Ok (WBlocked, set_shared (count c) m (cond_block t (count_threshold_cv c)) c)
  | WBlocked =>
      _ ← await (awake t (count_threshold_cv c));
      m ← mutex_lock t (count_mutex c);
      n ← int_add (count c) 125;
      Ok (watch_loop n, set_shared n m (count_threshold_cv c) c)
  | WUnlock =>
      m ← mutex_unlock t (count_mutex c);
      Ok (WDone, set_shared (count c) m (count_threshold_cv c) c)
  | WDone => Blocked
  end.

Inductive event :=
  | EWatch | EInc1 (o : option tid) | EInc2 (o : option tid)
  | EWake (t : tid)      (* a spurious wake-up *)
  | EJoin.

(** has the thread with this number ended? *)
Definition ended (c : conf) (i : nat) : bool :=
  match i with
  | 0%nat => match watch c with WDone => true | _ => false end
  | 1%nat => match inc1 c with IDone => true | _ => false end
  | _ => match inc2 c with IDone => true | _ => false end
  end.

Definition step (c : conf) (e : event) : res conf :=
  match e with
  | EWatch =>
      '(p, c) ← watch_count 0 (watch c) c;
      Ok (Conf (count c) (count_mutex c) (count_threshold_cv c) p (inc1 c) (inc2 c) (joined c))
  | EInc1 o =>
      '(p, c) ← inc_count 1 (inc1 c) o c;
      Ok (Conf (count c) (count_mutex c) (count_threshold_cv c) (watch c) p (inc2 c) (joined c))
  | EInc2 o =>
      '(p, c) ← inc_count 2 (inc2 c) o c;
      Ok (Conf (count c) (count_mutex c) (count_threshold_cv c) (watch c) (inc1 c) p (joined c))
  | EWake t =>
      _ ← await (bool_decide (t ∈ count_threshold_cv c));
      Ok (set_shared (count c) (count_mutex c) (cond_leave t (count_threshold_cv c)) c)
  | EJoin =>
      _ ← await (bool_decide (joined c < NUM_THREADS)%nat && ended c (joined c));
      Ok (Conf (count c) (count_mutex c) (count_threshold_cv c) (watch c) (inc1 c) (inc2 c) (S (joined c)))
  end.
#[export] Instance condition_machine : Machine conf event := step.

Definition start : conf := Conf 0 None [] WLock (ILock 0) (ILock 0) 0.
(** main has printed [count] *)
Definition finished (c : conf) : bool := bool_decide (joined c = NUM_THREADS).

(** ** The invariant *)

Definition inc_holds (p : inc_pc) : bool := match p with ISignal _ | IUnlock _ => true | _ => false end.
Definition watch_holds (p : watch_pc) : bool := match p with WWait | WUnlock => true | _ => false end.
(** how many times [inc_count] has counted *)
Definition counted (p : inc_pc) : Z :=
  match p with ILock i => i | ISignal i | IUnlock i => i + 1 | IDone => TCOUNT end.
Definition in_range (p : inc_pc) : Prop :=
  match p with ILock i | ISignal i | IUnlock i => 0 ≤ i < TCOUNT | IDone => True end.
Definition signals (p : inc_pc) : bool := match p with ISignal _ => true | _ => false end.
Definition waits (p : watch_pc) : bool := match p with WLock | WWait | WBlocked => true | _ => false end.
(** who is inside the critical section *)
Definition holder (w : watch_pc) (p1 p2 : inc_pc) : mutex :=
  if watch_holds w then Some 0%nat else if inc_holds p1 then Some 1%nat
  else if inc_holds p2 then Some 2%nat else None.
Definition alone (w : watch_pc) (p1 p2 : inc_pc) : bool :=
  negb (watch_holds w && inc_holds p1) && negb (watch_holds w && inc_holds p2) && negb (inc_holds p1 && inc_holds p2).
(** main has only waited for threads that have ended *)
Definition joins (e : nat → bool) (j : nat) : bool :=
  match j with
  | 0%nat => true | 1%nat => e 0%nat | 2%nat => e 0%nat && e 1%nat
  | 3%nat => e 0%nat && e 1%nat && e 2%nat | _ => false
  end.
(** [added]: the number that [watch_count] has added *)
Record cond_ok (added : Z) (c : conf) : Prop := {
  ok_count : count c = counted (inc1 c) + counted (inc2 c) + added;
  ok_added : added = 0 ∨ added = 125 ∧ waits (watch c) = false;
  ok_range1 : in_range (inc1 c);
  ok_range2 : in_range (inc2 c);
  ok_holder : count_mutex c = holder (watch c) (inc1 c) (inc2 c);
  ok_alone : alone (watch c) (inc1 c) (inc2 c) = true;
  ok_waiters : count_threshold_cv c = [] ∨ count_threshold_cv c = [0%nat] ∧ watch c = WBlocked;
  (** a waiting [watch_count] is signalled *)
  ok_signal : count_threshold_cv c = [] ∨ count c < COUNT_LIMIT ∨ signals (inc1 c) || signals (inc2 c) = true;
  ok_test : watch c = WWait → count c < COUNT_LIMIT;
  ok_joined : joins (ended c) (joined c) = true;
}.

Lemma start_ok : cond_ok 0 start.
Proof. split; simpl; try done; try lia; try (by left); try naive_solver lia. Qed.

(** steps until the end *)
Definition inc_left (p : inc_pc) : Z :=
  match p with
  | ILock i => 4 * (TCOUNT - i) | ISignal i => 4 * (TCOUNT - i) - 1
  | IUnlock i => 4 * (TCOUNT - i) - 2 | IDone => 0
  end.
Definition watch_left (p : watch_pc) : Z :=
  match p with WLock => 6 | WWait => 5 | WBlocked => 3 | WUnlock => 1 | WDone => 0 end.
Definition steps_left (c : conf) : Z :=
  inc_left (inc1 c) + inc_left (inc2 c) + watch_left (watch c) +
  Z.of_nat (length (count_threshold_cv c)) + Z.of_nat (NUM_THREADS - joined c).

Lemma signal_one o ws ws' : ws = [] ∨ ws = [0%nat] → cond_signal o ws = Ok ws' → ws' = [].
Proof. intros [->| ->] H; apply cond_signal_Ok in H as [[_ ->]|(t & Ht & ->)]; try done. set_solver. Qed.
Lemma int_add_inv a b c : int_add a b = Ok c → c = a + b.
Proof. unfold int_add. intros. by res_inv. Qed.

Lemma not_waiting (ws : cond) (P : Prop) : ws = [] ∨ ws = [0%nat] ∧ P → 0%nat ∉ ws → ws = [].
Proof. intros [Hw|[-> _]] Hn; [done|]. set_solver. Qed.

(** the cases of the threads that do not take the step; the facts are computed *)
Ltac cond_cases :=
  repeat match goal with
  | H : int_add _ _ = Ok _ |- _ => apply int_add_inv in H
  | H : cond_signal _ _ = Ok _ |- _ => apply signal_one in H; [|naive_solver]
  | H : 0%nat ∉ ?ws, H7 : ?ws = [] ∨ _ |- _ => pose proof (not_waiting _ _ H7 H); clear H7
  | H : Ok _ = Ok _ |- _ => injection H as <-
  | H : (_, _) = ?x |- _ => subst x; simpl in *
  end; subst.
Ltac joins_solve := match goal with H : joins _ ?j = true |- joins _ ?j = true =>
  destruct j as [|[|[|[|j]]]]; simpl in *; try done end.
Ltac cond_solve :=
  cbn in *; unfold watch_loop in *;
  repeat match goal with
  | |- context [?a <? ?b] => destruct (Z.ltb_spec a b); cbn in *
  | |- context [?a =? ?b] => destruct (Z.eqb_spec a b); cbn in *
  end;
  unfold COUNT_LIMIT, TCOUNT in *; try done; try lia; try joins_solve; try naive_solver lia.

Ltac cond_start :=
  intros [H1 H2 H3 H4 H5 H6 H7 H8 H9 H10] Hs;
  match goal with H : step ?c _ = Ok _ |- _ => destruct c as [n m ws w p1 p2 j] end; simpl in *.

Lemma inc1_ok added c o c' : cond_ok added c → step c (EInc1 o) = Ok c' →
  cond_ok added c' ∧ steps_left c' < steps_left c.
Proof.
  cond_start. destruct p1 as [i|i|i|]; simpl in *; sync_inv; cond_cases;
    destruct w; try discriminate; destruct p2 as [i2|i2|i2|]; try discriminate;
    (split; [split|unfold steps_left]); cond_solve.
Qed.
Lemma inc2_ok added c o c' : cond_ok added c → step c (EInc2 o) = Ok c' →
  cond_ok added c' ∧ steps_left c' < steps_left c.
Proof.
  cond_start. destruct p2 as [i|i|i|]; simpl in *; sync_inv; cond_cases;
    destruct w; try discriminate; destruct p1 as [i2|i2|i2|]; try discriminate;
    (split; [split|unfold steps_left]); cond_solve.
Qed.
Lemma watch_ok added c c' : cond_ok added c → step c EWatch = Ok c' →
  ∃ added', cond_ok added' c' ∧ steps_left c' < steps_left c ∧ (added = 125 → added' = 125).
Proof.
  cond_start. destruct w; simpl in *; sync_inv; cond_cases;
    destruct p1 as [i1|i1|i1|]; try discriminate; destruct p2 as [i2|i2|i2|]; try discriminate;
    match goal with
    | H : awake _ _ = true |- _ => exists 125
    | H : 0%nat ∉ _ |- _ => exists 125
    | _ => exists added
    end; (split; [split|split; [unfold steps_left|]]); cond_solve.
Qed.
Lemma wake_ok added c t c' : cond_ok added c → step c (EWake t) = Ok c' →
  cond_ok added c' ∧ steps_left c' < steps_left c.
Proof.
  cond_start. sync_inv. destruct H7 as [->|[-> ->]]; [by apply not_elem_of_nil in H|].
  apply list_elem_of_singleton in H as ->.
  (split; [split|unfold steps_left]); cond_solve.
Qed.
Lemma join_ok added c c' : cond_ok added c → step c EJoin = Ok c' →
  cond_ok added c' ∧ steps_left c' < steps_left c.
Proof.
  cond_start. unfold await in Hs.
  destruct (bool_decide (j < NUM_THREADS)%nat) eqn:Hj; [|done]. simpl in Hs.
  destruct (ended _ j) eqn:Hend in Hs; [|done]. injection Hs as <-. apply bool_decide_eq_true in Hj.
  unfold NUM_THREADS in *. split; [split; try done|unfold steps_left, NUM_THREADS; simpl; lia].
  destruct j as [|[|[|j]]]; simpl in *; rewrite ?H10, ?Hend; done || lia.
Qed.
Lemma cond_step_ok added c e c' : cond_ok added c → step c e = Ok c' →
  ∃ added', cond_ok added' c' ∧ steps_left c' < steps_left c ∧ (added = 125 → added' = 125).
Proof.
  intros Hc Hs. destruct e.
  - by eapply watch_ok.
  - exists added. by destruct (inc1_ok _ _ _ _ Hc Hs).
  - exists added. by destruct (inc2_ok _ _ _ _ Hc Hs).
  - exists added. by destruct (wake_ok _ _ _ _ Hc Hs).
  - exists added. by destruct (join_ok _ _ _ Hc Hs).
Qed.
Lemma cond_reachable_ok c : reachable start c → ∃ added, cond_ok added c.
Proof.
  intros Hc. apply (invariant_run (λ c, ∃ added, cond_ok added c) start); [by exists 0; apply start_ok| |done].
  intros c1 e c2 [added H1] Hs. destruct (cond_step_ok _ _ _ _ H1 Hs) as (added' & ? & _). by exists added'.
Qed.
Lemma run_shortens es c added c' : cond_ok added c → run c es = Ok c' →
  ∃ added', cond_ok added' c' ∧ steps_left c' + Z.of_nat (length es) ≤ steps_left c.
Proof.
  revert c added. induction es as [|e es IH]; intros c added Hc Hr.
  - injection Hr as <-. exists added. simpl. split; [done|lia].
  - simpl in Hr. apply bind_Ok in Hr as (c1 & H1 & Hr). destruct (cond_step_ok _ _ _ _ Hc H1) as (added1 & Hc1 & Hl & _).
    destruct (IH _ _ Hc1 Hr) as (added' & Hc' & Hl'). exists added'. split; [done|]. simpl length. lia.
Qed.
Lemma steps_left_nonneg added c : cond_ok added c → 0 ≤ steps_left c.
Proof.
  intros [_ _ H3 H4 _ _ _ _ _ _]. unfold steps_left.
  assert (∀ p, in_range p → 0 ≤ inc_left p) as Hi by (intros [i|i|i|]; unfold TCOUNT; simpl; unfold TCOUNT; lia).
  pose proof (Hi _ H3). pose proof (Hi _ H4). destruct (watch c); simpl; lia.
Qed.

(** a step is possible that is not a spurious wake-up *)
Definition spurious (e : event) : bool := match e with EWake _ => true | _ => false end.
Definition goes_on (c : conf) : Prop := ∃ e c', spurious e = false ∧ step c e = Ok c'.

(** who can go on: the thread in the critical section, a thread that counts,
    [watch_count], main *)
Lemma inc1_can_step added c : cond_ok added c → watch_holds (watch c) = false → inc1 c ≠ IDone → inc_holds (inc2 c) = false →
  goes_on c.
Proof.
  intros [H1 H2 H3 H4 H5 H6 H7 H8 H9 H10] Hw Hp Hq. destruct c as [n m ws w p1 p2 j]. simpl in *. unfold holder in H5.
  rewrite Hw, Hq in H5. destruct p1 as [i|i|i|]; simpl in H5; subst; [| | |done].
  - eexists (EInc1 None), _. split; [done|]. simpl. rewrite int_add_Ok; [reflexivity|].
    unfold INT_MIN, INT_MAX, TCOUNT in *. destruct p2; simpl in *; unfold TCOUNT in *; lia.
  - eexists (EInc1 (Some 0%nat)), _. split; [done|]. destruct H7 as [->|[-> _]]; reflexivity.
  - eexists (EInc1 None), _. split; [done|]. reflexivity.
Qed.
Lemma inc2_can_step added c : cond_ok added c → watch_holds (watch c) = false → inc2 c ≠ IDone → inc_holds (inc1 c) = false →
  goes_on c.
Proof.
  intros [H1 H2 H3 H4 H5 H6 H7 H8 H9 H10] Hw Hp Hq. destruct c as [n m ws w p1 p2 j]. simpl in *. unfold holder in H5.
  rewrite Hw, Hq in H5. destruct p2 as [i|i|i|]; simpl in H5; subst; [| | |done].
  - eexists (EInc2 None), _. split; [done|]. simpl. rewrite int_add_Ok; [reflexivity|].
    unfold INT_MIN, INT_MAX, TCOUNT in *. destruct p1; simpl in *; unfold TCOUNT in *; lia.
  - eexists (EInc2 (Some 0%nat)), _. split; [done|]. destruct H7 as [->|[-> _]]; reflexivity.
  - eexists (EInc2 None), _. split; [done|]. reflexivity.
Qed.
Lemma cond_progress added c : cond_ok added c → finished c = false → goes_on c.
Proof.
  intros Hc Hf. destruct (watch_holds (watch c)) eqn:Hw.
  { destruct Hc as [H1 H2 H3 H4 H5 H6 H7 H8 H9 H10]. destruct c as [n m ws w p1 p2 j]. simpl in *.
    unfold holder in H5. rewrite Hw in H5. subst. exists EWatch. destruct w; try discriminate; by eexists. }
  destruct (decide (inc_holds (inc2 c) = true)) as [Hh|Hh%not_true_is_false].
  { eapply inc2_can_step; [done..|by destruct (inc2 c)|].
    pose proof (ok_alone _ _ Hc) as Ha. unfold alone in Ha. rewrite Hw, Hh in Ha. by destruct (inc_holds (inc1 c)). }
  destruct (decide (inc1 c = IDone)) as [H1d|H1d]; [|by eapply inc1_can_step].
  destruct (decide (inc2 c = IDone)) as [H2d|H2d]; [|eapply inc2_can_step; [done..|by rewrite H1d]].
  destruct Hc as [H1 H2 H3 H4 H5 H6 H7 H8 H9 H10]. destruct c as [n m ws w p1 p2 j]. simpl in *. subst p1 p2.
  unfold holder in H5. rewrite Hw in H5. simpl in *. subst. unfold TCOUNT, COUNT_LIMIT in *.
  destruct w; try discriminate.
  - exists EWatch. by eexists.
  - assert (ws = []) as -> by (destruct H8 as [|[|]]; [done|lia|done]).
    exists EWatch. eexists. split; [done|]. simpl. rewrite int_add_Ok; [reflexivity|]. unfold INT_MIN, INT_MAX. lia.
  - exists EJoin. eexists. split; [done|]. unfold finished, NUM_THREADS in *. simpl in *.
    destruct j as [|[|[|[|j]]]]; try discriminate; reflexivity.
Qed.

Lemma cond_no_fault added c e f : cond_ok added c → step c e ≠ Fault f.
Proof.
  intros [H1 H2 H3 H4 H5 H6 H7 H8 H9 H10] Hs. destruct c as [n m ws w p1 p2 j]. simpl in *.
  assert (∀ a, -1000 ≤ a ≤ 1000 → int_add n a = Ok (n + a)) as Hn.
  { intros a Ha. apply int_add_Ok. unfold INT_MIN, INT_MAX. destruct p1, p2; simpl in *; unfold TCOUNT in *; lia. }
  assert (∀ o, cond_signal o ws ≠ Fault f) as Hsig.
  { intros o. destruct ws as [|u ws]; [done|]. simpl. destruct o; simpl; [|done]. unfold await. by case_bool_decide. }
  destruct e; simpl in *.
  - destruct w; simpl in Hs; destruct p1; try discriminate; destruct p2; try discriminate; subst m; simpl in *;
      unfold await, awake in Hs; repeat case_bool_decide; simpl in Hs; rewrite ?Hn in Hs by lia; discriminate.
  - destruct p1; simpl in Hs; destruct w; try discriminate; destruct p2; try discriminate; subst m; simpl in *;
      rewrite ?Hn in Hs by lia; try discriminate; specialize (Hsig o); destruct (cond_signal o ws); simpl in *; congruence.
  - destruct p2; simpl in Hs; destruct w; try discriminate; destruct p1; try discriminate; subst m; simpl in *;
      rewrite ?Hn in Hs by lia; try discriminate; specialize (Hsig o); destruct (cond_signal o ws); simpl in *; congruence.
  - unfold await in Hs. by case_bool_decide.
  - unfold await in Hs. by destruct (_ && _).
Qed.

(** ** Properties *)

(** C15: condition.c under every schedule, spurious wake-ups included: no fault, no
    more than 89 steps, and as long as main has not printed some thread can go on
    without a spurious wake-up, so the program always ends.  It prints 20 or 145: [watch_count] adds 125 at most
    once, and not at all when it comes too late. *)
Theorem condition_terminates :
  (∀ f, ¬ can_fault start f) ∧
  (∀ es c, run start es = Ok c → (length es ≤ 89)%nat ∧ (finished c = false → ∃ e c', spurious e = false ∧ mstep c e = Ok c')) ∧
  (∀ c, reachable start c → finished c = true → count c = 20 ∨ count c = 145).
Proof.
  split; [|split].
  - intros f. apply (invariant_no_fault (λ c, ∃ added, cond_ok added c)); [by exists 0; apply start_ok| |].
    + intros c1 e c2 [added H1] Hs. destruct (cond_step_ok _ _ _ _ H1 Hs) as (added' & ? & _). by exists added'.
    + intros c e [added Hc]. by eapply cond_no_fault.
  - intros es c Hes. split.
    + destruct (run_shortens es start 0 c start_ok Hes) as (added & Hc & Hl).
      pose proof (steps_left_nonneg _ _ Hc). change (steps_left start) with 89 in Hl. lia.
    + intros Hf. destruct (cond_reachable_ok c) as [added Hc]; [by exists es|]. by eapply cond_progress.
  - intros c [added Hc]%cond_reachable_ok Hf. destruct Hc as [H1 H2 _ _ _ _ _ _ _ H10].
    apply bool_decide_eq_true in Hf. rewrite Hf in H10. simpl in H10.
    apply andb_true_iff in H10 as [[_ He1]%andb_true_iff He2]. destruct (inc1 c), (inc2 c); try discriminate.
    simpl in H1. unfold TCOUNT in H1. lia.
Qed.

(** both outcomes: [watch_count] waits, or comes too late *)
Definition round1 : list event := [EInc1 None; EInc1 None].
Definition round2 : list event := [EInc2 None; EInc2 None].
Example condition_outcomes :
  (∃ c, reachable start c ∧ finished c = true ∧ count c = 145) ∧
  (∃ c, reachable start c ∧ finished c = true ∧ count c = 20).
Proof.
  split.
  - exists (final start ([EWatch; EWatch] ++ concat (replicate 10 round1) ++ round2 ++ [EInc2 None; EInc2 (Some 0%nat); EInc2 None] ++
      [EWatch; EWatch] ++ concat (replicate 8 round2) ++ [EJoin; EJoin; EJoin])).
    split; [apply reachable_final; by vm_compute|by vm_compute].
  - exists (final start (concat (replicate 10 round1) ++ round2 ++ [EInc2 None; EInc2 None; EInc2 None] ++
      concat (replicate 8 round2) ++ [EWatch; EWatch] ++ [EJoin; EJoin; EJoin])).
    split; [apply reachable_final; by vm_compute|by vm_compute].
Qed.
