(* ===== verification/DotProduct.v ===== *)
(** mutex-1.c: four threads compute a dot product, each its part, and add the
    parts under a mutex.

    A double is a number of IEEE 754 binary64 ([spec_float] of the standard
    library) with its rounding, so the sum depends on the order of the additions.
    One event is a step of a thread from one synchronisation call to the next, or
    a [pthread_join] of main.  The results of the calls are not looked at by the
    code; on a mutex that is initialised they succeed. *)

From Stdlib Require Import SpecFloat.
From S2P Require Import Prelude Array Int Pthread.

Local Open Scope Z_scope.

(** ** Doubles *)

Abbreviation double := spec_float.
Definition add : double → double → double := SFadd 53 1024.
Definition mul : double → double → double := SFmul 53 1024.
Definition zero : double := S754_zero false.
(** 1.0, with a mantissa of 53 bits *)
Definition one : double := S754_finite false 4503599627370496 (-52).

(** ** Data *)

Definition NUMTHRDS : nat := 4.
Definition VECLEN : Z := 100000.

(** memory from malloc: entries that are not written yet are [None] *)
Abbreviation vector := (list (option double)).
Definition read (v : vector) (i : Z) : res double := o ← get v i; of_option Uninitialised o.

Record DOTDATA := mk_DOTDATA { a : vector; b : vector; sum : double; veclen : Z }.

(** ** dotprod *)

(** the loop from [i] on, [n] iterations left *)
Fixpoint dotprod_loop (n : nat) (x y : vector) (i : Z) (mysum : double) : res double :=
  match n with
  | O => mret mysum
  | S n =>
      u ← read x i; v ← read y i;
      dotprod_loop n x y (i + 1) (add mysum (mul u v))
  end.
(** lines 59 to 76; [offset*len] is a long, which is stored in an int *)
Definition mysum_of (d : DOTDATA) (offset : Z) : res (Z * Z * double) :=
  let len := veclen d in
  let start := int32 (offset * len) in
  end_ ← int_add start len;
  mysum ← dotprod_loop (Z.to_nat (end_ - start)) (a d) (b d) start zero;
  mret (start, end_, mysum).

Inductive pc :=
  | DStart                                      (* line 60 *)
  | DLock (start end_ : Z) (mysum : double)     (* line 82 *)
  | DUnlock                                     (* line 85 *)
  | DExit.

(** a line of output: the thread, its range, its sum and the sum so far *)
Record line := mk_line { l_thread : nat; l_range : Z * Z; l_mysum : double; l_sum : double }.

Record conf := Conf {
  dotstr : DOTDATA;
  mutexsum : mutex;
  callThd : list pc;
  printed : list line;
  joined : nat
}.

Definition set_sum (s : double) (d : DOTDATA) : DOTDATA := mk_DOTDATA (a d) (b d) s (veclen d).
Definition goto (c : conf) (t : tid) (p : pc) : conf :=
  Conf (dotstr c) (mutexsum c) (<[t := p]> (callThd c)) (printed c) (joined c).

Definition dotprod (c : conf) (t : tid) (p : pc) : res conf :=
  match p with
  | DStart =>
      '(start, end_, mysum) ← mysum_of (dotstr c) (Z.of_nat t);
      Ok (goto c t (DLock start end_ mysum))
  | DLock start end_ mysum =>
      m ← mutex_lock t (mutexsum c);
      let s := add (sum (dotstr c)) mysum in
      Ok (goto (Conf (set_sum s (dotstr c)) m (callThd c)
                 (printed c ++ [mk_line t (start, end_) mysum s]) (joined c)) t DUnlock)
  | DUnlock =>
      m ← mutex_unlock t (mutexsum c);
      Ok (goto (Conf (dotstr c) m (callThd c) (printed c) (joined c)) t DExit)
  | DExit => Blocked
  end.

Definition exited (p : pc) : bool := match p with DExit => true | _ => false end.

Inductive event := EThread (t : tid) | EJoin.
Definition step (c : conf) (e : event) : res conf :=
  match e with
  | EThread t => p ← choose (callThd c !! t); dotprod c t p
  | EJoin =>
      p ← choose (callThd c !! joined c);
      _ ← await (exited p);
      Ok (Conf (dotstr c) (mutexsum c) (callThd c) (printed c) (S (joined c)))
  end.
#[export] Instance dotprod_machine : Machine conf event := step.

Definition start (d : DOTDATA) (threads : nat) : conf := Conf d None (replicate threads DStart) [] 0.
(** every thread has been joined: main prints the sum *)
Definition finished (c : conf) : bool := bool_decide (joined c = length (callThd c)).

(** ** main *)

(** lines 113 to 116, [n] iterations left *)
Fixpoint fill_loop (n : nat) (a b : vector) (i : Z) : res (vector * vector) :=
  match n with
  | O => mret (a, b)
  | S n =>
      a ← put a i (Some one);
      v ← read a i; b ← put b i (Some v);
      fill_loop n a b (i + 1)
  end.
(** main up to the creation of the threads *)
Definition prepare (threads : nat) (len : Z) : res conf :=
  let n := (threads * Z.to_nat len)%nat in
  '(a, b) ← fill_loop n (replicate n None) (replicate n None) 0;
  mret (start (mk_DOTDATA a b zero len) threads).
Definition main : res conf := prepare NUMTHRDS VECLEN.

(** ** The parts *)

(** the dot product of two lists, added from left to right *)
Definition dot (xs ys : list double) : double := foldl (λ s uv, add s (mul uv.1 uv.2)) zero (zip xs ys).
(** the part of the data for thread [t] *)
Definition segment (len : Z) (xs : list double) (t : nat) : list double :=
  take (Z.to_nat len) (drop (t * Z.to_nat len) xs).

Lemma read_Ok (xs : list double) (i : nat) x : xs !! i = Some x → read (Some <$> xs) (Z.of_nat i) = Ok x.
Proof. intros Hx. unfold read. rewrite (get_Ok _ _ (Some x)); [done|]. by rewrite list_lookup_fmap, Hx. Qed.
Lemma dotprod_loop_Ok m xs ys i s : (i + m ≤ length xs)%nat → (i + m ≤ length ys)%nat →
  dotprod_loop m (Some <$> xs) (Some <$> ys) (Z.of_nat i) s =
  Ok (foldl (λ s uv, add s (mul uv.1 uv.2)) s (zip (take m (drop i xs)) (take m (drop i ys)))).
Proof.
  revert i s. induction m as [|m IH]; intros i s Hx Hy; [done|].
  destruct (lookup_lt_is_Some_2 xs i) as [x Hi]; [lia|]. destruct (lookup_lt_is_Some_2 ys i) as [y Hj]; [lia|].
  rewrite (drop_S xs x i), (drop_S ys y i) by done. cbn [dotprod_loop].
  unfold mbind. rewrite (read_Ok xs i x), (read_Ok ys i y) by done. unfold res_bind.
  replace (Z.of_nat i + 1) with (Z.of_nat (S i)) by lia. rewrite IH by lia. done.
Qed.
Lemma mysum_of_Ok n len xs ys s t : 0 ≤ len → Z.of_nat n * len ≤ INT_MAX → (t < n)%nat →
  (n * Z.to_nat len ≤ length xs)%nat → (n * Z.to_nat len ≤ length ys)%nat →
  mysum_of (mk_DOTDATA (Some <$> xs) (Some <$> ys) s len) (Z.of_nat t) =
  Ok (Z.of_nat t * len, (Z.of_nat t + 1) * len, dot (segment len xs t) (segment len ys t)).
Proof.
  intros Hlen Hmax Ht Hx Hy. unfold mysum_of. cbn [veclen a b].
  assert (0 ≤ Z.of_nat t * len ∧ Z.of_nat t * len + len ≤ INT_MAX) as [H0 H1] by nia.
  rewrite wrap_signed_id by (unfold INT_MAX in *; lia). rewrite int_add_Ok by (unfold INT_MIN; lia).
  cbn [mbind res_bind]. replace (Z.of_nat t * len + len - Z.of_nat t * len) with len by lia.
  unfold mbind, res_bind. replace (Z.of_nat t * len) with (Z.of_nat (t * Z.to_nat len)) at 1 by lia.
  rewrite dotprod_loop_Ok by nia. cbn [mret res_ret]. do 2 f_equal. f_equal. lia.
Qed.

(** ** The invariant *)

Definition holding (p : pc) : bool := match p with DUnlock => true | _ => false end.
Definition added (p : pc) : bool := match p with DUnlock | DExit => true | _ => false end.

Section runs.
Variables (d0 : DOTDATA) (n : nat) (parts : nat → double).
Hypothesis parts_ok : ∀ t, (t < n)%nat → ∃ x y, mysum_of d0 (Z.of_nat t) = Ok (x, y, parts t).

Definition same_data (d : DOTDATA) : Prop := a d = a d0 ∧ b d = b d0 ∧ veclen d = veclen d0.
Record dot_ok (c : conf) : Prop := {
  ok_data : same_data (dotstr c);
  ok_threads : length (callThd c) = n;
  ok_mutex : mutex_ok holding (mutexsum c) (callThd c);
  ok_held : ∀ t, mutexsum c = Some t → callThd c !! t = Some DUnlock;
  (** the threads in the order of their additions *)
  ok_order : NoDup (l_thread <$> printed c);
  ok_added : ∀ t p, callThd c !! t = Some p → t ∈ l_thread <$> printed c ↔ added p = true;
  ok_lines : ∀ l, l ∈ printed c → (l_thread l < n)%nat ∧ l_mysum l = parts (l_thread l);
  ok_sum : sum (dotstr c) = foldl add (sum d0) (parts <$> (l_thread <$> printed c));
  ok_local : ∀ t x y s, callThd c !! t = Some (DLock x y s) → s = parts t;
  ok_joined : (joined c ≤ n)%nat ∧ ∀ t, (t < joined c)%nat → callThd c !! t = Some DExit;
}.

Lemma mysum_same d t : same_data d → mysum_of d t = mysum_of d0 t.
Proof. intros (Ha & Hb & Hl). unfold mysum_of. by rewrite Ha, Hb, Hl. Qed.
Lemma dot_start_ok : dot_ok (start d0 n).
Proof.
  split; simpl; try done.
  - apply length_replicate.
  - by apply mutex_ok_replicate.
  - constructor.
  - intros t p [-> _]%lookup_replicate_1. split; [by intros ?%not_elem_of_nil|done].
  - by intros l ?%not_elem_of_nil.
  - by intros t x y s [[=] _]%lookup_replicate_1.
  - split; [lia|]. lia.
Qed.

(** what a step of thread [t] does not touch *)
Lemma joined_other c t p q : dot_ok c → callThd c !! t = Some p → p ≠ DExit →
  ∀ u, (u < joined c)%nat → <[t := q]> (callThd c) !! u = Some DExit.
Proof.
  intros Hc Ht Hp u Hu. pose proof (proj2 (ok_joined _ Hc) u Hu) as Hx.
  rewrite list_lookup_insert_ne; [done|]. intros ->. congruence.
Qed.
Lemma held_other c t p m q : dot_ok c → callThd c !! t = Some p → mutexsum c = m → m ≠ Some t →
  ∀ u, m = Some u → <[t := q]> (callThd c) !! u = Some DUnlock.
Proof.
  intros Hc Ht Hm Hn u Hu. rewrite list_lookup_insert_ne by congruence. apply (ok_held _ Hc). congruence.
Qed.
Lemma added_other c t p q : dot_ok c → callThd c !! t = Some p → added q = added p →
  ∀ u r, <[t := q]> (callThd c) !! u = Some r → u ∈ l_thread <$> printed c ↔ added r = true.
Proof.
  intros Hc Ht Hq u r [(<- & <- & _)|(Hu & Hr)]%list_lookup_insert_Some.
  - rewrite Hq. by apply (ok_added _ Hc).
  - by apply (ok_added _ Hc).
Qed.
Lemma local_other c t q : dot_ok c → (∀ x y s, q = DLock x y s → s = parts t) →
  ∀ u x y s, <[t := q]> (callThd c) !! u = Some (DLock x y s) → s = parts u.
Proof.
  intros Hc Hq u x y s [(<- & Hs & _)|(Hu & Hr)]%list_lookup_insert_Some; [by eapply Hq|by eapply (ok_local _ Hc)].
Qed.

Lemma thread_ok c t p c' : dot_ok c → callThd c !! t = Some p → dotprod c t p = Ok c' → dot_ok c'.
Proof.
  intros Hc Ht Hs. assert (t < n)%nat as Htn by (rewrite <- (ok_threads _ Hc); by eapply lookup_lt_Some).
  destruct p as [|x y s| |]; simpl in Hs; sync_inv; subst; simpl in *.
  - rewrite (mysum_same _ _ (ok_data _ Hc)) in H. destruct (parts_ok t Htn) as (x1 & y1 & Hp).
    rewrite Hp in H. injection H as <-. injection H0 as <-.
    split; simpl; try apply Hc; try (rewrite length_insert; apply Hc).
    + apply mutex_ok_keep; [apply Hc|done].
    + eapply held_other; [done..|]. intros Hm. apply (ok_held _ Hc) in Hm. congruence.
    + by eapply added_other.
    + eapply local_other; [done|]. by intros ? ? ? [= _ _ <-].
    + split; [apply Hc|]. by eapply joined_other.
  - pose proof (ok_local _ Hc _ _ _ _ Ht) as ->.
    assert (t ∉ l_thread <$> printed c) as Hnew by (intros Hin; by apply (ok_added _ Hc _ _ Ht) in Hin).
    split; simpl; try apply Hc; rewrite ?length_insert, ?fmap_app; simpl.
    + apply Hc.
    + apply mutex_ok_acquire. rewrite <- H. apply Hc.
    + intros u [= <-]. apply list_lookup_insert_eq. rewrite (ok_threads _ Hc). done.
    + apply list.NoDup_app. split; [apply Hc|]. split; [|apply NoDup_singleton]. by intros u Hu ->%list_elem_of_singleton.
    + intros u q [(<- & <- & _)|(Hu & Hq)]%list_lookup_insert_Some; rewrite elem_of_app, list_elem_of_singleton.
      * split; [done|by right].
      * rewrite (ok_added _ Hc _ _ Hq). naive_solver.
    + intros l [Hl| ->%list_elem_of_singleton]%elem_of_app; [by apply Hc|done].
    + rewrite foldl_app. simpl. by rewrite (ok_sum _ Hc).
    + eapply local_other; done.
    + split; [apply Hc|]. by eapply joined_other.
  - split; simpl; try apply Hc; try (rewrite length_insert; apply Hc).
    + eapply mutex_ok_release; [|done]. rewrite <- H. apply Hc.
    + done.
    + by eapply added_other.
    + eapply local_other; done.
    + split; [apply Hc|]. by eapply joined_other.
Qed.
Lemma dot_step_ok c e c' : dot_ok c → step c e = Ok c' → dot_ok c'.
Proof.
  intros Hc Hs. destruct e as [t|]; simpl in Hs; sync_inv; [by eapply thread_ok|].
  subst. split; simpl; try apply Hc. pose proof (ok_joined _ Hc) as [Hj Hd]. split.
  - apply lookup_lt_Some in H. rewrite (ok_threads _ Hc) in H. lia.
  - intros u Hu. destruct (decide (u = joined c)) as [->|]; [|apply Hd; lia].
    match goal with H : exited ?p = true |- _ => by destruct p end.
Qed.
Lemma dot_reachable_ok c : reachable (start d0 n) c → dot_ok c.
Proof. intros Hc. apply (invariant_run dot_ok (start d0 n)); [apply dot_start_ok|exact dot_step_ok|done]. Qed.

Lemma dot_no_fault c e f : dot_ok c → step c e ≠ Fault f.
Proof.
  intros Hc. destruct e as [t|]; simpl.
  - destruct (callThd c !! t) as [p|] eqn:Ht; [|done]. simpl.
    assert (t < n)%nat as Htn by (rewrite <- (ok_threads _ Hc); by eapply lookup_lt_Some).
    destruct p as [|x y s| |]; simpl; [| | |done].
    + rewrite (mysum_same _ _ (ok_data _ Hc)). destruct (parts_ok t Htn) as (x1 & y1 & ->). done.
    + by destruct (mutexsum c).
    + rewrite (ok_mutex _ Hc _ _ Ht eq_refl). unfold mutex_unlock. by rewrite bool_decide_true.
  - destruct (callThd c !! joined c) as [p|]; [|done]. simpl. by destruct p.
Qed.

(** steps until the end *)
Definition pc_left (p : pc) : nat := match p with DStart => 3 | DLock _ _ _ => 2 | DUnlock => 1 | DExit => 0 end.
Definition steps_left (c : conf) : nat := sum_list_with pc_left (callThd c) + (n - joined c).

Lemma sum_insert (ps : list pc) t p q : ps !! t = Some p →
  (sum_list_with pc_left (<[t := q]> ps) + pc_left p = sum_list_with pc_left ps + pc_left q)%nat.
Proof. revert t. induction ps as [|r ps IH]; intros [|t] Ht; simpl in *; simplify_eq; [lia|]. specialize (IH _ Ht). lia. Qed.
Lemma step_shortens c e c' : dot_ok c → step c e = Ok c' → (S (steps_left c') ≤ steps_left c)%nat.
Proof.
  intros Hc Hs. destruct e as [t|]; simpl in Hs; unfold steps_left.
  - apply bind_Ok in Hs as (p & Hp%choose_Ok & Hs). pose proof (λ q, sum_insert _ _ _ q Hp) as Hsum.
    destruct p as [|u v s| |]; simpl in Hs; [| | |done].
    + apply bind_Ok in Hs as ([[u v] s] & _ & [= <-]). specialize (Hsum (DLock u v s)). simpl in *. lia.
    + apply bind_Ok in Hs as (m & _ & [= <-]). specialize (Hsum DUnlock). simpl in *. lia.
    + apply bind_Ok in Hs as (m & _ & [= <-]). specialize (Hsum DExit). simpl in *. lia.
  - sync_inv. subst. simpl. apply lookup_lt_Some in H. rewrite (ok_threads _ Hc) in H. lia.
Qed.
Lemma dot_run_short es c c' : dot_ok c → run c es = Ok c' → (length es + steps_left c' ≤ steps_left c)%nat.
Proof.
  revert c. induction es as [|e es IH]; intros c Hc Hr; [by injection Hr as <-|].
  simpl in Hr. apply bind_Ok in Hr as (c1 & H1 & Hr). pose proof (step_shortens _ _ _ Hc H1).
  specialize (IH c1 (dot_step_ok _ _ _ Hc H1) Hr). simpl. lia.
Qed.
(** the thread in the critical section can go on, or any that has not ended, or main *)
Lemma dot_progress c : dot_ok c → finished c = false → ∃ e c', step c e = Ok c'.
Proof.
  intros Hc Hf. destruct (mutexsum c) as [t|] eqn:Hm.
  { exists (EThread t). eexists. simpl. rewrite (ok_held _ Hc _ Hm). simpl. unfold mutex_unlock. by rewrite Hm, bool_decide_true. }
  apply bool_decide_eq_false in Hf. rewrite (ok_threads _ Hc) in Hf. pose proof (ok_joined _ Hc) as [Hj _].
  destruct (lookup_lt_is_Some_2 (callThd c) (joined c)) as [p Hp]; [rewrite (ok_threads _ Hc); lia|].
  destruct p as [|x y s| |].
  - exists (EThread (joined c)). simpl. rewrite Hp. simpl. rewrite (mysum_same _ _ (ok_data _ Hc)).
    destruct (parts_ok (joined c)) as (x1 & y1 & ->); [lia|]. by eexists.
  - exists (EThread (joined c)). simpl. rewrite Hp. simpl. rewrite Hm. by eexists.
  - pose proof (ok_mutex _ Hc _ _ Hp eq_refl). congruence.
  - exists EJoin. simpl. rewrite Hp. by eexists.
Qed.
Lemma finished_order c : dot_ok c → finished c = true →
  l_thread <$> printed c ≡ₚ seq 0 n ∧ sum (dotstr c) = foldl add (sum d0) (parts <$> (l_thread <$> printed c)).
Proof.
  intros Hc Hf. split; [|apply Hc]. apply bool_decide_eq_true in Hf. rewrite (ok_threads _ Hc) in Hf.
  apply NoDup_Permutation; [apply Hc|apply NoDup_seq|]. intros t. rewrite elem_of_seq. split.
  - intros (l & -> & Hl)%list_elem_of_fmap. destruct (ok_lines _ Hc _ Hl). lia.
  - intros [_ Ht]. pose proof (proj2 (ok_joined _ Hc) t ltac:(lia)) as He. by apply (ok_added _ Hc _ _ He).
Qed.
End runs.

(** ** Properties *)

Section whole.
Context (n : nat) (len : Z) (xs ys : list double).
Hypothesis (Hlen : 0 ≤ len ∧ Z.of_nat n * len ≤ INT_MAX).
Hypothesis (Hdata : (n * Z.to_nat len ≤ length xs ∧ n * Z.to_nat len ≤ length ys)%nat).
Let d := mk_DOTDATA (Some <$> xs) (Some <$> ys) zero len.
Let parts t := dot (segment len xs t) (segment len ys t).

Lemma whole_parts t : (t < n)%nat → ∃ x y, mysum_of d (Z.of_nat t) = Ok (x, y, parts t).
Proof. intros Ht. destruct Hlen, Hdata. eexists _, _. by apply (mysum_of_Ok n len xs ys zero t). Qed.
Lemma whole_no_fault f : ¬ can_fault (start d n) f.
Proof.
  apply (invariant_no_fault (dot_ok d n parts)); [by apply dot_start_ok| |].
  - intros c e c' Hc Hs. eapply dot_step_ok; [exact whole_parts|exact Hc|exact Hs].
  - intros c e Hc. eapply dot_no_fault; [exact whole_parts|exact Hc].
Qed.
Lemma whole_short es c : run (start d n) es = Ok c → (length es ≤ 4 * n)%nat.
Proof.
  intros Hes. pose proof (dot_run_short d n parts whole_parts es (start d n) c (dot_start_ok d n parts) Hes) as Hl.
  unfold steps_left, start in Hl. simpl in Hl.
  assert (∀ k, sum_list_with pc_left (replicate k DStart) = 3 * k)%nat as Hr.
  { intros k. induction k as [|k IH]; simpl; lia. }
  rewrite Hr in Hl. lia.
Qed.
Lemma whole_progress c : reachable (start d n) c → finished c = false → ∃ e c', mstep c e = Ok c'.
Proof.
  intros Hc Hf. eapply dot_progress; [exact whole_parts| |exact Hf].
  eapply dot_reachable_ok; [exact whole_parts|exact Hc].
Qed.
Lemma whole_sum c : reachable (start d n) c → finished c = true →
  ∃ order, order ≡ₚ seq 0 n ∧ sum (dotstr c) = foldl add zero (parts <$> order).
Proof.
  intros Hc Hf. exists (l_thread <$> printed c). apply (finished_order d n parts); [|exact Hf].
  eapply dot_reachable_ok; [exact whole_parts|exact Hc].
Qed.
End whole.

(** C17: for any number of threads and any data that is there, under every schedule:
    no fault; every run ends, and some thread can go on until main has printed the
    sum; this sum is that of the parts, added in some order of the threads. *)
Theorem dotprod_correct n len xs ys :
  (0 ≤ len ∧ Z.of_nat n * len ≤ INT_MAX) →
  (n * Z.to_nat len ≤ length xs ∧ n * Z.to_nat len ≤ length ys)%nat →
  let c0 := start (mk_DOTDATA (Some <$> xs) (Some <$> ys) zero len) n in
  (∀ f, ¬ can_fault c0 f) ∧
  (∀ es c, run c0 es = Ok c → (length es ≤ 4 * n)%nat ∧ (finished c = false → ∃ e c', mstep c e = Ok c')) ∧
  (∀ c, reachable c0 c → finished c = true → ∃ order, order ≡ₚ seq 0 n ∧
     sum (dotstr c) = foldl add zero ((λ t, dot (segment len xs t) (segment len ys t)) <$> order)).
Proof.
  intros Hlen Hdata c0. split; [|split].
  - by apply whole_no_fault.
  - intros es c Hes. split; [by apply (whole_short n len xs ys Hlen Hdata es c)|].
    apply (whole_progress n len xs ys Hlen Hdata). by exists es.
  - by apply whole_sum.
Qed.

Lemma dotprod_correct_witness :
  let c0 := start (mk_DOTDATA (Some <$> [one; one]) (Some <$> [one; one]) zero 1) 2 in
  (∀ f, ¬ can_fault c0 f) ∧
  (∀ es c, run c0 es = Ok c → (length es ≤ 4 * 2)%nat ∧ (finished c = false → ∃ e c', mstep c e = Ok c')) ∧
  (∀ c, reachable c0 c → finished c = true → ∃ order, order ≡ₚ seq 0 2 ∧
     sum (dotstr c) = foldl add zero ((λ t, dot (segment 1 [one; one] t) (segment 1 [one; one] t)) <$> order)).
Proof. apply (dotprod_correct 2 1 [one; one] [one; one]); [done|simpl; lia]. Defined.

(** the vectors of main *)
Lemma fill_loop_Ok m i : 
  fill_loop m (replicate i (Some one) ++ replicate m None) (replicate i (Some one) ++ replicate m None) (Z.of_nat i) =
  Ok (replicate (i + m) (Some one), replicate (i + m) (Some one)).
Proof.
  revert i. induction m as [|m IH]; intros i.
  { cbn [fill_loop replicate]. by rewrite app_nil_r, Nat.add_0_r. }
  assert (<[i := Some one]> (replicate i (Some one) ++ replicate (S m) None) = replicate (S i) (Some one) ++ replicate m None) as Hi.
  { rewrite insert_app_r_alt by (rewrite length_replicate; lia). rewrite length_replicate, Nat.sub_diag.
    cbn [replicate]. change (<[0%nat := Some one]> (None :: replicate m None)) with (Some one :: replicate m (@None double)).
    change (Some one :: replicate m (@None double)) with ([Some one] ++ replicate m (@None double)).
    rewrite (assoc_L (++)). rewrite <- replicate_cons_app. done. }
  cbn [fill_loop]. unfold mbind.
  rewrite put_Ok by (rewrite length_app, !length_replicate; lia). unfold res_bind at 1. rewrite Hi.
  assert (read (replicate (S i) (Some one) ++ replicate m None) (Z.of_nat i) = Ok one) as ->.
  { unfold read. rewrite (get_Ok _ _ (Some one)); [done|]. rewrite lookup_app_l by (rewrite length_replicate; lia).
    apply lookup_replicate_2. lia. }
  unfold res_bind at 1. rewrite put_Ok by (rewrite length_app, !length_replicate; lia). unfold res_bind at 1. rewrite Hi.
  replace (Z.of_nat i + 1) with (Z.of_nat (S i)) by lia. rewrite IH. do 2 f_equal; f_equal; lia.
Qed.
Definition ones (n : nat) : list double := replicate n one.
Lemma prepare_Ok n len : prepare n len =
  Ok (start (mk_DOTDATA (Some <$> ones (n * Z.to_nat len)) (Some <$> ones (n * Z.to_nat len)) zero len) n).
Proof.
  unfold prepare, ones. pose proof (fill_loop_Ok (n * Z.to_nat len) 0) as H. cbn [replicate app] in H.
  change (Z.of_nat 0) with 0 in H. unfold mbind. rewrite H. by rewrite fmap_replicate.
Qed.
Lemma segment_ones n len t : (t < n)%nat → segment len (ones (n * Z.to_nat len)) t = ones (Z.to_nat len).
Proof. intros Ht. unfold segment, ones. rewrite drop_replicate, take_replicate. f_equal. nia. Qed.
Lemma same_parts (parts : nat → double) p n (order : list nat) : (∀ t, (t < n)%nat → parts t = p) → order ≡ₚ seq 0 n →
  parts <$> order = replicate n p.
Proof.
  intros Hp Ho. rewrite <- (length_seq n 0) at 1. rewrite <- (Permutation_length Ho).
  assert (∀ t, t ∈ order → (t < n)%nat) as Hin by (intros t; rewrite Ho, elem_of_seq; lia). clear Ho.
  induction order as [|t order IH]; [done|]. cbn [fmap list_fmap length replicate]. f_equal.
  - apply Hp, Hin. by left.
  - apply IH. intros u Hu. apply Hin. by right.
Qed.

Lemma four_parts (parts : nat → double) p (order : list nat) : (∀ t, (t < NUMTHRDS)%nat → parts t = p) →
  order ≡ₚ seq 0 NUMTHRDS → foldl add zero (parts <$> order) = add (add (add (add zero p) p) p) p.
Proof. intros Hp Ho. by rewrite (same_parts parts p NUMTHRDS order). Qed.

(** Main of mutex-1.c: the vectors are filled without a fault, and although
    the additions are rounded the sum that is printed does not depend on the
    schedule: it is four times the same part added to 0. *)
Theorem dotprod_main_deterministic : ∃ c0, main = Ok c0 ∧
  (∀ f, ¬ can_fault c0 f) ∧
  (∀ c, reachable c0 c → finished c = true →
     let part := dot (ones (Z.to_nat VECLEN)) (ones (Z.to_nat VECLEN)) in
     sum (dotstr c) = add (add (add (add zero part) part) part) part).
Proof.
  eexists. split; [apply prepare_Ok|].
  assert (0 ≤ VECLEN ∧ Z.of_nat NUMTHRDS * VECLEN ≤ INT_MAX) as Hlen by done.
  set (v := ones (NUMTHRDS * Z.to_nat VECLEN)).
  assert (NUMTHRDS * Z.to_nat VECLEN ≤ length v ∧ NUMTHRDS * Z.to_nat VECLEN ≤ length v)%nat as Hdata
    by (unfold v, ones; rewrite length_replicate; lia).
  split; [intros f; by apply whole_no_fault|]. intros c Hc Hd.
  destruct (whole_sum NUMTHRDS VECLEN v v Hlen Hdata c Hc Hd) as (order & Ho & ->).
  apply four_parts; [|exact Ho]. intros t Ht. cbv beta. unfold v. rewrite (segment_ones NUMTHRDS VECLEN t Ht). reflexivity.
Qed.

(** the rounding is that of doubles: ten products of 1.0 make 10.0, and 1.0 is lost
    next to 2^53 *)
Example dot_ten : dot (ones 10) (ones 10) = S754_finite false 5629499534213120 (-49).
Proof. vm_compute. reflexivity. Qed.
Example add_rounds : let big := S754_finite false 4503599627370496 1 in add big one = big.
Proof. vm_compute. reflexivity. Qed.
