(* ===== verification/Threaded.v ===== *)
(** ThreadedTree.cpp: a tree whose empty right pointers lead to the inorder
    successor; and the addition of ints with bit operations.

    [newNode] leaves [isThreaded] unset: reading it before it is written is a fault
    ([None]).  The queue of <queue> is a list; [front] and [pop] of an empty queue
    are faults.  [fuel] bounds the depth of a recursion and the rounds of a loop. *)

From iris.proofmode Require Import proofmode.
From S2P Require Import Prelude Int Heap.

Record Node := mk_Node { n_key : Z; n_left : ptr; n_right : ptr; n_threaded : option bool }.
Definition put_left (p : ptr) (v : Node) : Node := mk_Node (n_key v) p (n_right v) (n_threaded v).
Definition put_right (p : ptr) (v : Node) : Node := mk_Node (n_key v) (n_left v) p (n_threaded v).
Definition put_threaded (c : bool) (v : Node) : Node := mk_Node (n_key v) (n_left v) (n_right v) (Some c).

Abbreviation prog := (prog Node).
Abbreviation queue := (list ptr).
Implicit Types (root cur p : ptr) (fuel : nat) (q : queue).

Definition get_key p : prog Z := v ← load p; mret (n_key v).
Definition get_left p : prog ptr := v ← load p; mret (n_left v).
Definition get_right p : prog ptr := v ← load p; mret (n_right v).
Definition get_threaded p : prog bool := v ← load p; lift (of_option Uninitialised (n_threaded v)).
Definition set_left p (r : ptr) : prog unit := modify p (put_left r).
Definition set_right p (r : ptr) : prog unit := modify p (put_right r).
Definition set_threaded p (c : bool) : prog unit := modify p (put_threaded c).

Definition newNode (key : Z) : prog ptr := new (mk_Node key None None None).

(** [q->front()] and [q->pop()] *)
Definition front q : res ptr := match q with [] => Fault OutOfBounds | p :: _ => Ok p end.
Definition pop q : res queue := match q with [] => Fault OutOfBounds | _ :: q => Ok q end.

Fixpoint populateQueue fuel root q : prog queue :=
  match fuel with
  | O => out_of_fuel
  | S fuel =>
      match root with
      | None => mret q
      | Some _ =>
          l ← get_left root;
          q ← (if l =p? None then mret q else populateQueue fuel l q);
          let q := q ++ [root] in
          r ← get_right root;
          if r =p? None then mret q else populateQueue fuel r q
      end
  end.

Fixpoint createThreadedUtil fuel root q : prog queue :=
  match fuel with
  | O => out_of_fuel
  | S fuel =>
      match root with
      | None => mret q
      | Some _ =>
          l ← get_left root;
          q ← (if l =p? None then mret q else createThreadedUtil fuel l q);
          q ← lift (pop q);
          r ← get_right root;
          if r =p? None then
            next ← lift (front q);
            _ ← set_right root next; _ ← set_threaded root true; mret q
          else createThreadedUtil fuel r q
      end
  end.

Definition createThreaded fuel root : prog unit :=
  q ← populateQueue fuel root []; _ ← createThreadedUtil fuel root q; mret tt.

Fixpoint leftMost fuel root : prog ptr :=
  match fuel with
  | O => out_of_fuel
  | S fuel =>
      match root with
      | None => mret None
      | Some _ => l ← get_left root; if l =p? None then mret root else leftMost fuel l
      end
  end.

(** the loop of [inOrder]; the result is what is printed *)
Fixpoint inOrder_loop fuel cur : prog (list Z) :=
  match fuel with
  | O => out_of_fuel
  | S fuel =>
      match cur with
      | None => mret []
      | Some _ =>
          k ← get_key cur;
          threaded ← get_threaded cur;
          r ← get_right cur;
          cur ← (if threaded : bool then mret r else leftMost fuel r);
          out ← inOrder_loop fuel cur; mret (k :: out)
      end
  end.
Definition inOrder fuel root : prog (list Z) :=
  match root with None => mret [] | Some _ => cur ← leftMost fuel root; inOrder_loop fuel cur end.

(** [c << 1] on a signed int *)
Definition shift_left (c : Z) : res Z :=
  _ ← require (bool_decide (0 ≤ c ∧ 2 * c ≤ INT_MAX)%Z) Overflow; mret (Z.shiftl c 1).
Fixpoint getSum fuel (a b : Z) : res Z :=
  match fuel with
  | O => Blocked
  | S fuel =>
      if negb (b =? 0)%Z then
        let c := Z.land a b in
        let a := Z.lxor a b in
        b ← shift_left c; getSum fuel a b
      else mret a
  end.

(** the tree of [main] *)
Definition build : prog ptr :=
  root ← newNode 1;
  l ← newNode 2; _ ← set_left root l;
  r ← newNode 3; _ ← set_right root r;
  n ← newNode 4; p ← get_left root; _ ← set_left p n;
  n ← newNode 5; p ← get_left root; _ ← set_right p n;
  n ← newNode 6; p ← get_right root; _ ← set_left p n;
  n ← newNode 7; p ← get_right root; _ ← set_right p n;
  mret root.
Definition main : prog Z := _ ← build; lift (getSum 32 1 3).
