(* ===== verification/ThreadedProps.v ===== *)
(** ThreadedTree.cpp: what the threads are, why [createThreaded] never ends well,
    and that [getSum] adds. *)

From iris.proofmode Require Import proofmode environments coq_tactics reduction.
From S2P Require Import Prelude Int Heap HeapTactics Threaded.

(** ** Trees *)

Inductive tree := E | N (n : loc) (l : tree) (k : Z) (r : tree).

Section rep.
Implicit Types (t l r : tree) (p : ptr) (n : loc).

Definition ptr_of t : ptr := match t with E => None | N n _ _ _ => Some n end.
Fixpoint depth t : nat := match t with E => 0 | N _ l _ r => S (depth l `max` depth r) end.
Fixpoint inorder t : list loc := match t with E => [] | N n l _ r => inorder l ++ n :: inorder r end.

(** the tree as it is built *)
Fixpoint is_tree t : heapPropI Node :=
  match t with
  | E => emp
  | N n l k r => n ↦ mk_Node k (ptr_of l) (ptr_of r) None ∗ is_tree l ∗ is_tree r
  end%I.
(** the tree with its threads, the last one leads to [next] *)
Fixpoint is_threaded t (next : ptr) : heapPropI Node :=
  match t with
  | E => emp
  | N n l k r =>
      n ↦ (if r is E then mk_Node k (ptr_of l) next (Some true) else mk_Node k (ptr_of l) (ptr_of r) None) ∗
      is_threaded l (Some n) ∗ is_threaded r next
  end%I.
End rep.
#[export] Typeclasses Opaque is_tree is_threaded.
Arguments is_tree : simpl never.
Arguments is_threaded : simpl never.

Section nodes.
Implicit Types (t l r : tree) (k : Z) (p q : ptr) (n : loc).
Lemma is_tree_node n l k r :
  is_tree (N n l k r) ⊣⊢ n ↦ mk_Node k (ptr_of l) (ptr_of r) None ∗ is_tree l ∗ is_tree r.
Proof. done. Qed.
Lemma is_threaded_node n l k r next : is_threaded (N n l k r) next ⊣⊢
  n ↦ (if r is E then mk_Node k (ptr_of l) next (Some true) else mk_Node k (ptr_of l) (ptr_of r) None) ∗
  is_threaded l (Some n) ∗ is_threaded r next.
Proof. done. Qed.
Lemma is_threaded_E next : is_threaded E next ⊣⊢ emp.
Proof. done. Qed.
Lemma is_tree_empty : is_tree E ⊣⊢ emp.
Proof. done. Qed.

#[export] Instance get_key_op n (v : Node) : CellOp (get_key (Some n)) n v (n_key v) v.
Proof. eapply bind_op; [apply _|apply ret_op]. Qed.
#[export] Instance get_left_op n (v : Node) : CellOp (get_left (Some n)) n v (n_left v) v.
Proof. eapply bind_op; [apply _|apply ret_op]. Qed.
#[export] Instance get_right_op n (v : Node) : CellOp (get_right (Some n)) n v (n_right v) v.
Proof. eapply bind_op; [apply _|apply ret_op]. Qed.
#[export] Instance set_right_op n (v : Node) p : CellOp (set_right (Some n) p) n v tt (put_right p v).
Proof. apply _. Qed.
#[export] Instance set_threaded_op n (v : Node) c : CellOp (set_threaded (Some n) c) n v tt (put_threaded c v).
Proof. apply _. Qed.
End nodes.

Ltac node_simpl := cbn [put_left put_right put_threaded n_key n_left n_right n_threaded ptr_of].
Ltac steps := wp_ops node_simpl.

Section programs.
(** a call for a child, unless it is NULL *)
Lemma wp_child t (q q' : queue) (m : prog queue) (P Q : heapPropI Node) (Φ : queue → heapPropI Node) :
  (t = E → q' = q ∧ (P ⊢ Q)) → (∀ Ψ, P ∗ (Q -∗ Ψ q') ⊢ wp m Ψ) →
  P ∗ (Q -∗ Φ q') ⊢ wp (if ptr_of t =p? None then mret q else m) Φ.
Proof.
  intros HE Hm. destruct t as [|n l k r].
  - destruct HE as [-> HPQ]; [done|]. change (ptr_of E =p? None) with true. iIntros "[HP HΦ]". steps. iApply "HΦ". by iApply HPQ.
  - change (ptr_of (N n l k r) =p? None) with false. apply Hm.
Qed.
Implicit Types (t l r : tree) (k : Z) (p : ptr) (n : loc) (fuel : nat) (q : queue).

Lemma wp_populateQueue fuel t q (Φ : queue → heapPropI Node) : depth t < fuel →
  is_tree t ∗ (is_tree t -∗ Φ (q ++ (Some <$> inorder t))) ⊢ wp (populateQueue fuel (ptr_of t) q) Φ.
Proof.
  revert fuel q Φ. induction t as [|n l IHl k r IHr]; intros fuel q Φ Hf; iIntros "[Ht HΦ]";
    (destruct fuel as [|fuel]; [lia|]); cbn [populateQueue ptr_of].
  { steps. cbn. rewrite app_nil_r. by iApply "HΦ". }
  cbn [depth] in Hf. iEval (rewrite is_tree_node) in "Ht". iDestruct "Ht" as "(Hn & Hl & Hr)". steps.
  iApply (wp_child l q (q ++ (Some <$> inorder l)) _ (is_tree l) (is_tree l)).
  { intros ->. by rewrite app_nil_r. }
  { intros Ψ. apply IHl. lia. }
  iFrame "Hl". iIntros "Hl". steps.
  iApply (wp_child r _ (((q ++ (Some <$> inorder l)) ++ [Some n]) ++ (Some <$> inorder r)) _ (is_tree r) (is_tree r)).
  { intros ->. by rewrite app_nil_r. }
  { intros Ψ. apply IHr. lia. }
  iFrame "Hr". iIntros "Hr". cbn [inorder]. rewrite fmap_app fmap_cons -!app_assoc. iApply "HΦ". rewrite is_tree_node. iFrame.
Qed.

(** while a node follows in the queue, the empty right pointers are set *)
Lemma wp_createThreadedUtil fuel t next q (Φ : queue → heapPropI Node) : depth t < fuel →
  is_tree t ∗ (is_threaded t next -∗ Φ (next :: q)) ⊢
  wp (createThreadedUtil fuel (ptr_of t) ((Some <$> inorder t) ++ next :: q)) Φ.
Proof.
  revert fuel next q Φ. induction t as [|n l IHl k r IHr]; intros fuel next q Φ Hf; iIntros "[Ht HΦ]";
    (destruct fuel as [|fuel]; [lia|]); cbn [createThreadedUtil ptr_of].
  { steps. iApply "HΦ". by rewrite is_threaded_E. }
  cbn [depth] in Hf. iEval (rewrite is_tree_node) in "Ht". iDestruct "Ht" as "(Hn & Hl & Hr)". steps.
  cbn [inorder]. rewrite fmap_app fmap_cons -app_assoc -app_comm_cons.
  iApply (wp_child l _ (Some n :: (Some <$> inorder r) ++ next :: q) _ (is_tree l) (is_threaded l (Some n))).
  { intros ->. by rewrite is_tree_empty is_threaded_E. }
  { intros Ψ. apply IHl. lia. }
  iFrame "Hl". iIntros "Hl". steps. destruct r as [|m rl rk rr]; cbn [ptr_of]; steps.
  - cbn [inorder fmap list_fmap app]. steps. iEval (rewrite is_tree_empty) in "Hr". iApply "HΦ". rewrite (is_threaded_node n) is_threaded_E. iFrame.
  - iApply (IHr fuel); [lia|]. iFrame "Hr". iIntros "Hr". iApply "HΦ". rewrite (is_threaded_node n). iFrame.
Qed.

(** at the last node of the queue there is no front *)
Lemma createThreadedUtil_faults fuel t P h : depth t < fuel → t ≠ E → (is_tree t ∗ P)%I h →
  createThreadedUtil fuel (ptr_of t) (Some <$> inorder t) h = Fault OutOfBounds.
Proof.
  revert fuel P h. induction t as [|n l _ k r IHr]; intros fuel P h Hf Hne Hh; [done|].
  destruct fuel as [|fuel]; [lia|]. cbn [depth] in Hf. cbn [createThreadedUtil ptr_of inorder].
  assert (get_left (Some n) h = Ok (ptr_of l, h)) as Hgl.
  { unfold get_left, mbind, prog_bind, load. rewrite (holds_cell n (mk_Node k (ptr_of l) (ptr_of r) None) (is_tree l ∗ is_tree r ∗ P)%I h); [done|].
    refine (holds_mono _ _ _ _ Hh). rewrite is_tree_node. iIntros "[($ & $ & $) $]". }
  rewrite (run_bind _ _ _ _ _ Hgl) fmap_app fmap_cons.
  set (left := if ptr_of l =p? None then _ else _).
  destruct (wp_runs left (is_tree (N n l k r) ∗ P)%I (λ q, ⟨q = Some n :: (Some <$> inorder r)⟩ ∗
      n ↦ mk_Node k (ptr_of l) (ptr_of r) None ∗ is_tree r ∗ is_threaded l (Some n) ∗ P)%I h)
    as (q & h' & Hrun & Hq); [|done|].
  { iIntros "[Ht HP]". iEval (rewrite is_tree_node) in "Ht". iDestruct "Ht" as "(Hn & Hl & Hr)".
    iApply (wp_child l _ (Some n :: (Some <$> inorder r)) _ (is_tree l) (is_threaded l (Some n))).
    - intros ->. by rewrite is_tree_empty is_threaded_E.
    - intros Ψ. apply wp_createThreadedUtil. lia.
    - iFrame "Hl". iIntros "Hl". iFrame. done. }
  apply holds_pure_sep in Hq as [-> Hh'].
  rewrite (run_bind _ _ _ _ _ Hrun). cbn [pop]. rewrite (run_bind (lift (Ok (Some <$> inorder r))) _ h' (Some <$> inorder r) h'); [|done].
  assert (get_right (Some n) h' = Ok (ptr_of r, h')) as Hgr.
  { unfold get_right, mbind, prog_bind, load. by rewrite (holds_cell _ _ _ _ Hh'). }
  rewrite (run_bind _ _ _ _ _ Hgr). destruct r as [|m rl rk rr]; [done|].
  change (ptr_of (N m rl rk rr) =p? None) with false. cbv iota.
  apply (IHr fuel (n ↦ mk_Node k (ptr_of l) (ptr_of (N m rl rk rr)) None ∗ is_threaded l (Some n) ∗ P)%I); [lia|done|].
  refine (holds_mono _ _ _ _ Hh'). iIntros "($ & $ & $ & $)".
Qed.
End programs.

(** ** Addition *)

Lemma land_mod a b k : (0 ≤ k)%Z → (b mod 2 ^ k = 0)%Z → (Z.land a b mod 2 ^ k = 0)%Z.
Proof.
  intros Hk Hb. rewrite -Z.land_ones // -Z.land_assoc Z.land_ones // Hb. apply Z.land_0_r.
Qed.
Lemma getSum_Ok fuel k a b : (0 ≤ a)%Z → (0 ≤ b)%Z → (a + b ≤ INT_MAX)%Z → (b mod 2 ^ Z.of_nat k = 0)%Z →
  k + fuel = 32 → k < 32 → getSum fuel a b = Ok (a + b)%Z.
Proof.
  revert k a b. induction fuel as [|fuel IH]; intros k a b Ha Hb Hmax Hk Hf Hk32; [lia|]. cbn [getSum].
  destruct (Z.eqb_spec b 0) as [->|Hne]; cbn [negb]; [by rewrite Z.add_0_r|].
  pose proof (Z.add_lxor_2land a b) as Hsum.
  assert (0 ≤ Z.lxor a b)%Z as Hx by (apply Z.lxor_nonneg; lia).
  assert (0 ≤ Z.land a b)%Z as Hl by (apply Z.land_nonneg; lia).
  unfold shift_left. rewrite bool_decide_true; [|unfold INT_MAX in *; lia]. cbn [require mbind res_bind mret res_ret].
  rewrite Z.shiftl_mul_pow2 // Z.pow_1_r. unfold mbind, res_bind.
  destruct (decide (k = 31)) as [->|].
  { exfalso. assert (2 ^ 31 ≤ b)%Z; [|unfold INT_MAX in *; lia].
    apply Z.mod_divide in Hk as [q ->]; [|lia]. change (2 ^ Z.of_nat 31)%Z with (2 ^ 31)%Z in *. nia. }
  rewrite (IH (S k)); [f_equal; lia|lia|lia|lia| |lia|lia].
  rewrite Nat2Z.inj_succ Z.pow_succ_r; [|lia]. rewrite (Z.mul_comm (Z.land a b)) Z.mul_mod_distr_l; [|lia|lia].
  rewrite land_mod //; lia.
Qed.

(** ** Properties *)

(** C37: [createThreaded] has no good end: for every tree that is not empty it runs
    into the front of an empty queue, at the last node of the inorder. *)
Theorem createThreaded_faults fuel t h : is_tree t h → t ≠ E → depth t < fuel →
  createThreaded fuel (ptr_of t) h = Fault OutOfBounds.
Proof.
  intros Hh Hne Hf. unfold createThreaded.
  destruct (wp_runs (populateQueue fuel (ptr_of t) []) (is_tree t) (λ q, ⟨q = Some <$> inorder t⟩ ∗ is_tree t)%I h)
    as (q & h' & Hr & Hq); [|done|].
  { iIntros "Ht". iApply wp_populateQueue; [done|]. iFrame. by iIntros "$". }
  apply holds_pure_sep in Hq as [-> Hh']. rewrite (run_bind _ _ _ _ _ Hr).
  assert (createThreadedUtil fuel (ptr_of t) (Some <$> inorder t) h' = Fault OutOfBounds) as Hf'.
  { apply (createThreadedUtil_faults fuel t emp%I); [done..|]. refine (holds_mono _ _ _ _ Hh'). by iIntros "$". }
  unfold mbind, prog_bind. by rewrite Hf'.
Qed.

Lemma createThreaded_faults_witness :
  createThreaded 2 (Some 0) {[ 0 := mk_Node 7 None None None ]} = Fault OutOfBounds.
Proof.
  apply (createThreaded_faults 2 (N 0 E 7 E)); [|done|simpl; lia].
  refine (holds_mono (0 ↦ mk_Node 7 None None None) _ _ _ _); [|done].
  rewrite is_tree_node !is_tree_empty !right_id. by iIntros "H".
Defined.

(** with an end marker in the queue the threads are right: [createThreadedUtil]
    links every empty right pointer to the inorder successor *)
Theorem createThreadedUtil_correct fuel t next q h : is_tree t h → depth t < fuel →
  ∃ h', createThreadedUtil fuel (ptr_of t) ((Some <$> inorder t) ++ next :: q) h = Ok (next :: q, h') ∧ is_threaded t next h'.
Proof.
  intros Hh Hf.
  destruct (wp_runs (createThreadedUtil fuel (ptr_of t) ((Some <$> inorder t) ++ next :: q)) (is_tree t)
    (λ q', ⟨q' = next :: q⟩ ∗ is_threaded t next)%I h) as (q' & h' & Hr & Hq); [|done|].
  { iIntros "Ht". iApply wp_createThreadedUtil; [done|]. iFrame. by iIntros "$". }
  apply holds_pure_sep in Hq as [-> Hh']. by exists h'.
Qed.

(** [getSum] adds two numbers that are not negative, if the sum fits an int,
    within 32 rounds. *)
Theorem getSum_correct a b : (0 ≤ a)%Z → (0 ≤ b)%Z → (a + b ≤ INT_MAX)%Z → getSum 32 a b = Ok (a + b)%Z.
Proof. intros Ha Hb Hs. apply (getSum_Ok 32 0); [done..|by rewrite Z.mod_1_r|done|lia]. Qed.

Lemma getSum_correct_witness : getSum 32 1 3 = Ok 4%Z.
Proof. apply (getSum_correct 1 3); done. Defined.

Example threaded_main : ∃ h, main ∅ = Ok (4%Z, h).
Proof. eexists. vm_compute. reflexivity. Qed.
(** what [inOrder] reads of a node without a thread was never written *)
Example inOrder_faults : (p ← build; inOrder 9 p) ∅ = Fault Uninitialised.
Proof. vm_compute. reflexivity. Qed.
