(* ===== verification/CompareStrings.v ===== *)
(** CompareStringsByLinkedLists.cpp: strings as linked lists of characters and
    their comparison, its model and correctness.

    The node is that of [LinkedList]; a character is its code. *)

From iris.proofmode Require Import proofmode environments coq_tactics reduction.
From S2P Require Import Prelude Heap HeapTactics LinkedList LinkedListProps.

Definition newNode (c : Z) : prog ptr :=
  temp ← malloc_node; _ ← set_data temp c; _ ← set_next temp None; mret temp.

(** the loop; the results are the two pointers *)
Fixpoint compare_loop (fuel : nat) (list1 list2 : ptr) : prog (ptr * ptr) :=
  match fuel with
  | O => out_of_fuel
  | S fuel =>
      match list1, list2 with
      | Some _, Some _ =>
          a ← get_data list1; b ← get_data list2;
          if (a =? b)%Z then
            list1 ← get_next list1; list2 ← get_next list2; compare_loop fuel list1 list2
          else mret (list1, list2)
      | _, _ => mret (list1, list2)
      end
  end.
Definition compare (fuel : nat) (list1 list2 : ptr) : prog Z :=
  '(list1, list2) ← compare_loop fuel list1 list2;
  match list1, list2 with
  | Some _, Some _ =>
      a ← get_data list1; b ← get_data list2; mret (if (a >? b)%Z then 1 else -1)%Z
  | Some _, None => mret 1%Z
  | None, Some _ => mret (-1)%Z
  | None, None => mret 0%Z
  end.

(** [list->next->...->next = newNode(c)] behind [n] nodes, for each character *)
Fixpoint last_node (n : nat) (p : ptr) : prog ptr :=
  match n with O => mret p | S n => p ← get_next p; last_node n p end.
Fixpoint append_all (head : ptr) (n : nat) (cs : list Z) : prog unit :=
  match cs with
  | [] => mret tt
  | c :: cs => node ← newNode c; p ← last_node n head; _ ← set_next p node; append_all head (S n) cs
  end.
Definition string_of (c : Z) (cs : list Z) : prog ptr :=
  head ← newNode c; _ ← append_all head 0 cs; mret head.
(** the strings "geeksb" and "geeksa" *)
Definition main : prog Z :=
  list1 ← string_of 103 [101; 101; 107; 115; 98]%Z;
  list2 ← string_of 103 [101; 101; 107; 115; 97]%Z;
  compare 7 list1 list2.

(** ** The order of strings *)

Fixpoint order (xs ys : list Z) : Z :=
  match xs, ys with
  | [], [] => 0%Z
  | [], _ => (-1)%Z
  | _, [] => 1%Z
  | x :: xs, y :: ys => if (x =? y)%Z then order xs ys else if (y <? x)%Z then 1%Z else (-1)%Z
  end.
Lemma order_swap xs ys : order ys xs = (- order xs ys)%Z.
Proof.
  revert ys. induction xs as [|x xs IH]; intros [|y ys]; try done. simpl. rewrite (Z.eqb_sym y x).
  destruct (Z.eqb_spec x y) as [->|]; [apply IH|]. destruct (Z.ltb_spec x y), (Z.ltb_spec y x); lia.
Qed.
Lemma order_zero xs ys : order xs ys = 0%Z ↔ xs = ys.
Proof.
  revert ys. induction xs as [|x xs IH]; intros [|y ys]; try done. simpl. destruct (Z.eqb_spec x y) as [->|].
  - rewrite IH. naive_solver.
  - destruct (y <? x)%Z; split; [done|congruence|done|congruence].
Qed.

Section compare.
Implicit Types (ns ms : list (loc * Z)) (fuel : nat).

(** the loop stops at the first difference: the chains before it are equal *)
Lemma wp_compare_loop fuel ns ms (Φ : ptr * ptr → heapPropI node) : length ns < fuel →
  is_nodes ns None ∗ is_nodes ms None ∗
  (∀ ns' ms', ⟨order ns.*2 ms.*2 = order ns'.*2 ms'.*2 ∧
      match ns', ms' with (_, x) :: _, (_, y) :: _ => x ≠ y | _, _ => True end⟩ -∗
    is_nodes ns' None -∗ (is_nodes ns' None -∗ is_nodes ns None) -∗
    is_nodes ms' None -∗ (is_nodes ms' None -∗ is_nodes ms None) -∗ Φ (hd_ptr ns' None, hd_ptr ms' None)) ⊢
  wp (compare_loop fuel (hd_ptr ns None) (hd_ptr ms None)) Φ.
Proof.
  revert fuel ms Φ. induction ns as [|[n x] ns IH]; intros fuel ms Φ Hf; (destruct fuel as [|fuel]; [lia|]);
    iIntros "(Hns & Hms & HΦ)".
  { cbn [compare_loop hd_ptr]. steps. iApply ("HΦ" $! [] ms with "[] Hns [] Hms []"); [done|by iIntros "$"..]. }
  destruct ms as [|[m y] ms].
  { cbn [compare_loop hd_ptr]. steps. iApply ("HΦ" $! ((n, x) :: ns) [] with "[] Hns [] Hms []"); [done|by iIntros "$"..]. }
  cbn [compare_loop hd_ptr length] in *.
  iEval (rewrite is_nodes_cons) in "Hns". iEval (rewrite is_nodes_cons) in "Hms".
  iDestruct "Hns" as "[Hn Hns]". iDestruct "Hms" as "[Hm Hms]". steps.
  destruct (Z.eqb_spec x y) as [->|Hxy]; steps.
  - iApply (IH fuel); [lia|]. iFrame "Hns Hms". iIntros (ns' ms') "%H Hns Hn' Hms Hm'".
    iApply ("HΦ" $! ns' ms' with "[] Hns [Hn Hn'] Hms [Hm Hm']").
    + iPureIntro. rewrite !fmap_cons. cbn [order snd]. by rewrite Z.eqb_refl.
    + iIntros "H". rewrite (is_nodes_cons n). iFrame. by iApply "Hn'".
    + iIntros "H". rewrite (is_nodes_cons m). iFrame. by iApply "Hm'".
  - iApply ("HΦ" $! ((n, x) :: ns) ((m, y) :: ms) with "[] [Hn Hns] [] [Hm Hms] []").
    + done.
    + rewrite is_nodes_cons. iFrame.
    + by iIntros "$".
    + rewrite is_nodes_cons. iFrame.
    + by iIntros "$".
Qed.
Lemma wp_compare fuel ns ms (Φ : Z → heapPropI node) : length ns < fuel →
  is_nodes ns None ∗ is_nodes ms None ∗ (is_nodes ns None -∗ is_nodes ms None -∗ Φ (order ns.*2 ms.*2)) ⊢
  wp (compare fuel (hd_ptr ns None) (hd_ptr ms None)) Φ.
Proof.
  iIntros (Hf) "(Hns & Hms & HΦ)". unfold compare. wp_bind. iApply wp_compare_loop; [done|].
  iFrame "Hns Hms". iIntros (ns' ms') "%H Hns Hn' Hms Hm'". destruct H as [-> Hd].
  destruct ns' as [|[n x] ns'], ms' as [|[m y] ms']; cbn [hd_ptr].
  - steps. iApply ("HΦ" with "[Hns Hn'] [Hms Hm']"); [by iApply "Hn'"|by iApply "Hm'"].
  - steps. iApply ("HΦ" with "[Hns Hn'] [Hms Hm']"); [by iApply "Hn'"|by iApply "Hm'"].
  - steps. iApply ("HΦ" with "[Hns Hn'] [Hms Hm']"); [by iApply "Hn'"|by iApply "Hm'"].
  - iEval (rewrite is_nodes_cons) in "Hns". iEval (rewrite is_nodes_cons) in "Hms".
    iDestruct "Hns" as "[Hn Hns]". iDestruct "Hms" as "[Hm Hms]". steps. rewrite !fmap_cons. cbn [order snd].
    rewrite (proj2 (Z.eqb_neq _ _) Hd) Z.gtb_ltb. iApply ("HΦ" with "[Hn Hns Hn'] [Hm Hms Hm']").
    + iApply "Hn'". rewrite is_nodes_cons. iFrame.
    + iApply "Hm'". rewrite is_nodes_cons. iFrame.
Qed.
End compare.

(** [compare] on two strings in memory: it terminates, changes nothing, and is
    the lexicographic order: 0 only for equal strings, and the opposite sign when
    the strings change places. *)
Theorem compare_correct fuel p q xs ys h :
  (is_list p xs ∗ is_list q ys)%I h → length xs < fuel →
  ∃ h' c, compare fuel p q h = Ok (c, h') ∧ (is_list p xs ∗ is_list q ys)%I h' ∧
    c = order xs ys ∧ (c = 0%Z ↔ xs = ys) ∧ order ys xs = (- c)%Z.
Proof.
  intros Hh Hf.
  destruct (wp_runs (compare fuel p q) (is_list p xs ∗ is_list q ys)%I
    (λ c, ⟨c = order xs ys⟩ ∗ is_list p xs ∗ is_list q ys)%I h) as (c & h' & Hr & Hq); [|done|].
  { iIntros "[H1 H2]". iDestruct "H1" as (ns) "[%H1 Hns]". iDestruct "H2" as (ms) "[%H2 Hms]".
    destruct H1 as [-> <-]. destruct H2 as [-> <-]. iApply wp_compare; [by rewrite length_fmap in Hf|].
    iFrame "Hns Hms". iIntros "Hns Hms". iSplitR; [done|]. iSplitL "Hns"; [iExists ns|iExists ms]; by iFrame. }
  apply holds_pure_sep in Hq as [-> Hh']. exists h', (order xs ys). split_and!; try done.
  - apply order_zero.
  - apply order_swap.
Qed.

Lemma compare_correct_witness : ∃ h' c, compare 2 (Some 0) None {[ 0 := mk_node (Some 97%Z) (Some None) ]} = Ok (c, h') ∧
  (is_list (Some 0) [97%Z] ∗ is_list None [])%I h' ∧ c = order [97%Z] [] ∧ (c = 0%Z ↔ [97%Z] = []) ∧ order [] [97%Z] = (- c)%Z.
Proof.
  apply (compare_correct 2 (Some 0) None [97%Z] []); [|simpl; lia].
  refine (holds_mono (0 ↦ mk_node (Some 97%Z) (Some None)) _ _ _ _); [|done].
  iIntros "Hn". iSplitL "Hn".
  - iExists [(0, 97%Z)]. iSplitR; [done|]. rewrite is_nodes_cons is_nodes_nil. by iFrame.
  - iExists []. iSplitR; [done|]. by rewrite is_nodes_nil.
Defined.

Example compare_output : ∃ h, main ∅ = Ok (1%Z, h).
Proof. eexists. vm_compute. reflexivity. Qed.
