(* ===== verification/Articulation.v ===== *)
(** articulation.cpp: the vertices of an undirected graph whose removal disconnects
    it, by one depth-first search.

    A vertex is an int, an array a list whose entries are [None] until they are
    written.  The members of [state] are the arrays that [AP] allocates and passes
    to [APUtil], and the static variable [time], which lives from one graph to the
    next.  [fuel] bounds the depth of the recursion. *)

From S2P Require Import Prelude Array Int.

Local Open Scope Z_scope.

Definition NIL : Z := -1.

(** [a[i]] of an array from new *)
Definition read {A} (a : list (option A)) (i : Z) : res A := o ← get a i; of_option Uninitialised o.

Record Graph := mk_Graph { V : Z; adj : list (list Z) }.

(** the constructor *)
Definition new_Graph (V : Z) : Graph := mk_Graph V (replicate (Z.to_nat V) []).
(** [adj[v].push_back(w)] *)
Definition push_back (adj : list (list Z)) (v w : Z) : res (list (list Z)) :=
  l ← get adj v; put adj v (l ++ [w]).
Definition addEdge (g : Graph) (v w : Z) : res Graph :=
  a ← push_back (adj g) v w; a ← push_back a w v; mret (mk_Graph (V g) a).

Record state := mk_state {
  time : Z;
  visited : list (option bool);
  disc : list (option Z);
  low : list (option Z);
  parent : list (option Z);
  ap : list (option bool)
}.
Definition set_visited (s : state) (i : Z) (b : bool) : res state :=
  a ← put (visited s) i (Some b); mret (mk_state (time s) a (disc s) (low s) (parent s) (ap s)).
Definition set_disc (s : state) (i d : Z) : res state :=
  a ← put (disc s) i (Some d); mret (mk_state (time s) (visited s) a (low s) (parent s) (ap s)).
Definition set_low (s : state) (i d : Z) : res state :=
  a ← put (low s) i (Some d); mret (mk_state (time s) (visited s) (disc s) a (parent s) (ap s)).
Definition set_parent (s : state) (i p : Z) : res state :=
  a ← put (parent s) i (Some p); mret (mk_state (time s) (visited s) (disc s) (low s) a (ap s)).
Definition set_ap (s : state) (i : Z) (b : bool) : res state :=
  a ← put (ap s) i (Some b); mret (mk_state (time s) (visited s) (disc s) (low s) (parent s) a).
(** [++time] *)
Definition next_time (s : state) : res state :=
  t ← int_add (time s) 1; mret (mk_state t (visited s) (disc s) (low s) (parent s) (ap s)).

(** [low[u] = min(low[u], d)] *)
Definition lower (s : state) (u d : Z) : res state :=
  l ← read (low s) u; set_low s u (Z.min l d).
(** lines 79 to 85, when the call for [v] has returned *)
Definition mark (s : state) (u v children : Z) : res state :=
  p ← read (parent s) u;
  s ← (if (p =? NIL) && (children >? 1) then set_ap s u true else mret s);
  p ← read (parent s) u;
  if negb (p =? NIL) then
    l ← read (low s) v; d ← read (disc s) u;
    if l >=? d then set_ap s u true else mret s
  else mret s.

(** the loop over the rest [vs] of [adj[u]] *)
Fixpoint APUtil_loop (APUtil : Z → state → res state) (u : Z) (vs : list Z) (children : Z) (s : state) : res state :=
  match vs with
  | [] => mret s
  | v :: vs =>
      b ← read (visited s) v;
      if negb b then
        children ← int_add children 1;
        s ← set_parent s v u;
        s ← APUtil v s;
        l ← read (low s) v;
        s ← lower s u l;
        s ← mark s u v children;
        APUtil_loop APUtil u vs children s
      else
        p ← read (parent s) u;
        s ← (if negb (v =? p) then d ← read (disc s) v; lower s u d else mret s);
        APUtil_loop APUtil u vs children s
  end.
Fixpoint APUtil (fuel : nat) (g : Graph) (u : Z) (s : state) : res state :=
  match fuel with
  | O => Blocked
  | S fuel =>
      s ← set_visited s u true;
      s ← next_time s;
      s ← set_low s u (time s);
      s ← set_disc s u (time s);
      vs ← get (adj g) u;
      APUtil_loop (APUtil fuel g) u vs 0 s
  end.

(** lines 105 to 110, from [i] on, [n] iterations left *)
Fixpoint init_loop (n : nat) (i : Z) (s : state) : res state :=
  match n with
  | O => mret s
  | S n =>
      s ← set_parent s i NIL; s ← set_visited s i false; s ← set_ap s i false;
      init_loop n (i + 1) s
  end.
(** lines 114 to 116 *)
Fixpoint AP_loop (fuel : nat) (g : Graph) (n : nat) (i : Z) (s : state) : res state :=
  match n with
  | O => mret s
  | S n =>
      b ← read (visited s) i;
      s ← (if negb b then APUtil fuel g i s else mret s);
      AP_loop fuel g n (i + 1) s
  end.
(** lines 119 to 121: what is printed *)
Fixpoint print_loop (n : nat) (i : Z) (s : state) : res (list Z) :=
  match n with
  | O => mret []
  | S n => b ← read (ap s) i; out ← print_loop n (i + 1) s; mret (if b : bool then i :: out else out)
  end.
(** [t] is [time] before and after the call *)
Definition AP (fuel : nat) (g : Graph) (t : Z) : res (Z * list Z) :=
  let n := Z.to_nat (V g) in
  let s := mk_state t (replicate n None) (replicate n None) (replicate n None) (replicate n None) (replicate n None) in
  s ← init_loop n 0 s;
  s ← AP_loop fuel g n 0 s;
  out ← print_loop n 0 s;
  mret (time s, out).

(** a graph with these edges *)
Fixpoint add_edges (g : Graph) (es : list (Z * Z)) : res Graph :=
  match es with [] => mret g | (v, w) :: es => g ← addEdge g v w; add_edges g es end.
Definition main (fuel : nat) : res (list (list Z)) :=
  g1 ← add_edges (new_Graph 3) [(0, 1); (0, 2)];
  '(t, out1) ← AP fuel g1 0;
  g2 ← add_edges (new_Graph 4) [(0, 1); (1, 2); (2, 3)];
  '(t, out2) ← AP fuel g2 t;
  g3 ← add_edges (new_Graph 7) [(0, 1); (1, 2); (2, 0); (1, 3); (1, 4); (1, 6); (3, 5); (4, 5)];
  '(_, out3) ← AP fuel g3 t;
  mret [out1; out2; out3].
