(* ===== verification/ArticulationProps.v ===== *)
(** The depth-first search of [Articulation] finds exactly the articulation points.

    [Context] fixes the graph as a symmetric relation on the vertices below [n];
    [dfs_runs] is the specification of one call of [APUtil], [ap_step_...] what one
    round of its loop does. *)

From Stdlib Require Import Sorting.Sorted.
From stdpp Require Import relations.
From S2P Require Import Prelude Array Int Articulation.

(** ** Arrays that are written bit by bit *)
Section arrays.
Context {A : Type}.
Implicit Types (a : list (option A)) (i j : nat) (x : A).

Definition written a i : Prop := ∃ x, a !! i = Some (Some x).
(** the value of an entry, [d] if there is none *)
Definition val (d : A) a i : A := match a !! i with Some (Some x) => x | _ => d end.

Lemma read_written d a i : written a i → read a (Z.of_nat i) = Ok (val d a i).
Proof. intros [x Hx]. unfold read, val. rewrite (get_Ok _ _ _ Hx), Hx. done. Qed.
Lemma written_insert a i j x : written a j → written (<[i:=Some x]> a) j.
Proof.
  intros [y Hy]. destruct (decide (i = j)) as [->|].
  - exists x. apply list_lookup_insert_eq. by eapply lookup_lt_Some.
  - exists y. by rewrite list_lookup_insert_ne.
Qed.
Lemma written_here a i x : i < length a → written (<[i:=Some x]> a) i.
Proof. intros Hi. exists x. by apply list_lookup_insert_eq. Qed.
Lemma val_insert d a i j x : i < length a → val d (<[i:=Some x]> a) j = if decide (j = i) then x else val d a j.
Proof.
  intros Hi. unfold val. destruct (decide (j = i)) as [->|].
  - by rewrite list_lookup_insert_eq.
  - by rewrite list_lookup_insert_ne.
Qed.
Lemma val_unwritten d k i : val d (replicate k None) i = d.
Proof.
  unfold val. destruct (replicate k None !! i) as [[y|]|] eqn:Hy; [|done..].
  apply lookup_replicate in Hy as [? _]. done.
Qed.
End arrays.

(** ** The members of the state as functions *)
Definition seen (s : state) (x : nat) : Prop := val false (visited s) x = true.
Definition D (s : state) (x : nat) : Z := val 0%Z (disc s) x.
Definition L (s : state) (x : nat) : Z := val 0%Z (low s) x.
Definition P (s : state) (x : nat) : Z := val NIL (parent s) x.
Definition B (s : state) (x : nat) : bool := val false (ap s) x.
#[export] Instance seen_dec s x : Decision (seen s x).
Proof. unfold seen. apply _. Defined.

Definition is_seen (o : option bool) : bool := match o with Some true => true | _ => false end.

(** all arrays have [n] entries; [t0] is [time] when the search begins *)
Record wf (n : nat) (t0 : Z) (s : state) : Prop := {
  wf_visited : length (visited s) = n;
  wf_disc : length (disc s) = n;
  wf_low : length (low s) = n;
  wf_parent : length (parent s) = n;
  wf_ap : length (ap s) = n;
  written_visited x : x < n → written (visited s) x;
  written_parent x : x < n → written (parent s) x;
  written_ap x : x < n → written (ap s) x;
  written_disc x : seen s x → written (disc s) x;
  written_low x : seen s x → written (low s) x;
  wf_time : time s = (t0 + cnt is_seen (visited s))%Z;
  wf_late x : seen s x → (t0 < D s x ≤ time s)%Z;
}.

Definition with_low s u d := mk_state (time s) (visited s) (disc s) (<[u:=Some d]> (low s)) (parent s) (ap s).
Definition with_parent s u p := mk_state (time s) (visited s) (disc s) (low s) (<[u:=Some p]> (parent s)) (ap s).
Definition with_ap s u b := mk_state (time s) (visited s) (disc s) (low s) (parent s) (<[u:=Some b]> (ap s)).
Definition enter s u :=
  mk_state (time s + 1) (<[u:=Some true]> (visited s)) (<[u:=Some (time s + 1)%Z]> (disc s))
    (<[u:=Some (time s + 1)%Z]> (low s)) (parent s) (ap s).

Section steps.
Context (n : nat) (t0 : Z) (s : state) (Hs : wf n t0 s).
Implicit Types (u x : nat) (d p : Z) (b : bool).

Lemma seen_lt x : seen s x → x < n.
Proof.
  intros Hx. destruct (decide (x < n)) as [|Hn]; [done|]. unfold seen, val in Hx.
  rewrite lookup_ge_None_2 in Hx; [done|]. rewrite (wf_visited _ _ _ Hs). lia.
Qed.
Lemma read_visited x : x < n → read (visited s) (Z.of_nat x) = Ok (val false (visited s) x).
Proof. intros Hx. apply read_written. by eapply written_visited. Qed.
Lemma read_disc x : seen s x → read (disc s) (Z.of_nat x) = Ok (D s x).
Proof. intros Hx. apply read_written. by eapply written_disc. Qed.
Lemma read_low x : seen s x → read (low s) (Z.of_nat x) = Ok (L s x).
Proof. intros Hx. apply read_written. by eapply written_low. Qed.
Lemma read_parent x : x < n → read (parent s) (Z.of_nat x) = Ok (P s x).
Proof. intros Hx. apply read_written. by eapply written_parent. Qed.
Lemma read_ap x : x < n → read (ap s) (Z.of_nat x) = Ok (B s x).
Proof. intros Hx. apply read_written. by eapply written_ap. Qed.

Lemma set_low_Ok u d : u < n → set_low s (Z.of_nat u) d = Ok (with_low s u d).
Proof. intros Hu. unfold set_low. rewrite put_Ok; [done|]. by rewrite (wf_low _ _ _ Hs). Qed.
Lemma set_parent_Ok u d : u < n → set_parent s (Z.of_nat u) d = Ok (with_parent s u d).
Proof. intros Hu. unfold set_parent. rewrite put_Ok; [done|]. by rewrite (wf_parent _ _ _ Hs). Qed.
Lemma set_ap_Ok u b : u < n → set_ap s (Z.of_nat u) b = Ok (with_ap s u b).
Proof. intros Hu. unfold set_ap. rewrite put_Ok; [done|]. by rewrite (wf_ap _ _ _ Hs). Qed.
Lemma lower_Ok u d : seen s u → lower s (Z.of_nat u) d = Ok (with_low s u (Z.min (L s u) d)).
Proof.
  intros Hu. unfold lower. rewrite read_low by done. cbn [mbind res_bind]. apply set_low_Ok. by apply seen_lt.
Qed.

Lemma wf_with_low u d : wf n t0 (with_low s u d).
Proof.
  destruct Hs. split; simpl; rewrite ?length_insert; try done. intros x Hx. by apply written_insert, written_low0.
Qed.
Lemma wf_with_parent u d : wf n t0 (with_parent s u d).
Proof.
  destruct Hs. split; simpl; rewrite ?length_insert; try done. intros x Hx. by apply written_insert, written_parent0.
Qed.
Lemma wf_with_ap u b : wf n t0 (with_ap s u b).
Proof.
  destruct Hs. split; simpl; rewrite ?length_insert; try done. intros x Hx. by apply written_insert, written_ap0.
Qed.

Lemma L_with_low u d x : u < n → L (with_low s u d) x = if decide (x = u) then d else L s x.
Proof. intros Hu. apply val_insert. by rewrite (wf_low _ _ _ Hs). Qed.
Lemma P_with_parent u d x : u < n → P (with_parent s u d) x = if decide (x = u) then d else P s x.
Proof. intros Hu. apply val_insert. by rewrite (wf_parent _ _ _ Hs). Qed.
Lemma B_with_ap u b x : u < n → B (with_ap s u b) x = if decide (x = u) then b else B s x.
Proof. intros Hu. apply val_insert. by rewrite (wf_ap _ _ _ Hs). Qed.

Lemma seen_enter u x : u < n → seen (enter s u) x ↔ x = u ∨ seen s x.
Proof.
  intros Hu. unfold seen. simpl. rewrite val_insert by (by rewrite (wf_visited _ _ _ Hs)).
  destruct (decide (x = u)); naive_solver.
Qed.
Lemma D_enter u x : u < n → D (enter s u) x = if decide (x = u) then (time s + 1)%Z else D s x.
Proof. intros Hu. apply val_insert. by rewrite (wf_disc _ _ _ Hs). Qed.
Lemma L_enter u x : u < n → L (enter s u) x = if decide (x = u) then (time s + 1)%Z else L s x.
Proof. intros Hu. apply val_insert. by rewrite (wf_low _ _ _ Hs). Qed.
Lemma unseen_entry u : u < n → ¬ seen s u → visited s !! u = Some (Some false).
Proof.
  intros Hu Hn. destruct (written_visited _ _ _ Hs u Hu) as [[] Hb]; [|done]. destruct Hn. unfold seen, val. by rewrite Hb.
Qed.
Lemma cnt_enter u : u < n → ¬ seen s u →
  cnt is_seen (<[u:=Some true]> (visited s)) = (cnt is_seen (visited s) + 1)%Z.
Proof. intros Hu Hn. rewrite (cnt_insert _ _ _ (Some false)) by (by apply unseen_entry). simpl. lia. Qed.
Lemma time_bound u : u < n → ¬ seen s u → (time s < t0 + Z.of_nat n)%Z.
Proof.
  intros Hu Hn. pose proof (cnt_enter u Hu Hn). rewrite (wf_time _ _ _ Hs).
  pose proof (cnt_le_length is_seen (<[u:=Some true]> (visited s))) as Hc.
  rewrite length_insert, (wf_visited _ _ _ Hs) in Hc. lia.
Qed.
Lemma wf_enter u : u < n → ¬ seen s u → wf n t0 (enter s u).
Proof.
  intros Hu Hn. pose proof (cnt_nonneg is_seen (visited s)) as Hc. pose proof (wf_time _ _ _ Hs) as Ht.
  split; simpl; rewrite ?length_insert; try apply Hs.
  - intros x Hx. by apply written_insert, Hs.
  - intros x [->|Hx]%seen_enter; [|by apply written_insert, Hs|done]. apply written_here. by rewrite (wf_disc _ _ _ Hs).
  - intros x [->|Hx]%seen_enter; [|by apply written_insert, Hs|done]. apply written_here. by rewrite (wf_low _ _ _ Hs).
  - rewrite cnt_enter by done. lia.
  - intros x Hx. rewrite D_enter by done. destruct (decide (x = u)) as [->|Hne]; [lia|].
    apply seen_enter in Hx as [->|Hx]; [done| |done]. pose proof (wf_late _ _ _ Hs x Hx). lia.
Qed.
End steps.

(** ** Articulation points *)

(** a step that does not touch [z] *)
Definition avoid (link : nat → nat → Prop) (z x y : nat) : Prop := link x y ∧ x ≠ z ∧ y ≠ z.
(** without [u] two vertices are no longer connected *)
Definition articulation (link : nat → nat → Prop) (u : nat) : Prop :=
  ∃ a b, a ≠ u ∧ b ≠ u ∧ rtc link a b ∧ ¬ rtc (avoid link u) a b.

Section articulation.
Context (link : nat → nat → Prop) (link_sym : ∀ x y, link x y → link y x).
Implicit Types (u v w x y z : nat).

Lemma avoid_sym z x y : avoid link z x y → avoid link z y x.
Proof. intros (Hl & Hx & Hy). split; [by apply link_sym|done]. Qed.
Lemma conn_sym z x y : rtc (avoid link z) x y → rtc (avoid link z) y x.
Proof.
  induction 1 as [|x w y Hxw _ IH]; [done|]. eapply rtc_r; [exact IH|]. by apply avoid_sym.
Qed.
Lemma conn_link z x y : link x y → x ≠ z → y ≠ z → rtc (avoid link z) x y.
Proof. intros. by apply rtc_once. Qed.

(** a set that only [u] links to the rest *)
Lemma closed_articulation (C : nat → Prop) u v b :
  C v → v ≠ u → ¬ C b → b ≠ u → link u v → link u b → ¬ C u →
  (∀ w y, C w → link w y → C y ∨ y = u) → articulation link u.
Proof.
  intros Hv Hvu Hb Hbu Hlv Hlb Hu HC. exists v, b. split_and!; [done..| |].
  - eapply rtc_l; [by apply link_sym|]. by apply rtc_once.
  - intros Hr. apply Hb. clear Hb Hbu Hlb Hlv Hvu. induction Hr as [|v w b Hvw Hr IH]; [done|]. apply IH.
    destruct Hvw as (Hl & _ & Hw). by destruct (HC v w Hv Hl).
Qed.
(** the neighbours of [u] stay connected *)
Lemma not_articulation u :
  (∀ x y, link u x → link u y → x ≠ u → y ≠ u → rtc (avoid link u) x y) → ¬ articulation link u.
Proof.
  intros Hn (a & b & Ha & Hb & Hr & Hc). apply Hc. clear Hc.
  assert ((b ≠ u → rtc (avoid link u) a b) ∧ (b = u → ∃ x, link u x ∧ x ≠ u ∧ rtc (avoid link u) a x)) as [? _]; [|auto].
  clear Hb. revert b Hr. apply rtc_ind_r; [split; [done|by intros]|].
  intros b c Hab Hbc [IH1 IH2]. destruct (decide (b = u)) as [->|Hb].
  - destruct (IH2 eq_refl) as (x & Hx & Hxu & Hax). split; [|by exists x].
    intros Hcu. etrans; [exact Hax|]. by apply Hn.
  - specialize (IH1 Hb). split.
    + intros Hcu. eapply rtc_r; [exact IH1|]. done.
    + intros ->. exists b. split; [by apply link_sym|]. done.
Qed.

(** ** The stack of the search *)

(** the vertices whose calls have not returned, the last one first: each is linked
    to the next *)
Fixpoint path (u : nat) (gs : list nat) : Prop :=
  match gs with [] => True | p :: gs => link p u ∧ path p gs end.
Lemma path_conn z u gs x : path u gs → z ∉ u :: gs → x ∈ gs → rtc (avoid link z) u x.
Proof.
  revert u. induction gs as [|p gs IH]; intros u; [by rewrite elem_of_nil|]. intros [Hl Hp].
  rewrite not_elem_of_cons. intros [Hzu Hz] Hx.
  assert (p ≠ z) as Hpz by (intros ->; apply Hz; by left).
  assert (rtc (avoid link z) u p) as Hup by (apply conn_link; [by apply link_sym|by apply not_eq_sym|done]).
  apply elem_of_cons in Hx as [->|Hx]; [done|]. etrans; [exact Hup|]. by apply IH.
Qed.
(** without [u] the vertices below it on the stack are connected *)
Lemma stack_conn u gs x y : path u gs → u ∉ gs → x ∈ gs → y ∈ gs → rtc (avoid link u) x y.
Proof.
  destruct gs as [|p gs]; [by intros _ _ ?%elem_of_nil|]. intros [_ Hp] Hu Hx Hy.
  assert (∀ w, w ∈ p :: gs → rtc (avoid link u) p w) as H.
  { intros w [->|Hw]%elem_of_cons; [done|]. by apply path_conn with gs. }
  etrans; [apply conn_sym|]; by apply H.
Qed.

End articulation.

(** ** One call of the search *)

(** every finished vertex has only neighbours that have been seen *)
Definition closed (link : nat → nat → Prop) (gs : list nat) (s : state) : Prop :=
  ∀ x y, seen s x → x ∉ gs → link x y → seen s y.
(** what a call leaves alone *)
Definition extends (s s' : state) : Prop :=
  ∀ x, seen s x → seen s' x ∧ D s' x = D s x ∧ L s' x = L s x ∧ P s' x = P s x ∧ B s' x = B s x.
(** the vertices that it has reached *)
Definition fresh (s s' : state) (x : nat) : Prop := seen s' x ∧ ¬ seen s x.
(** nothing is known of the others yet *)
Definition untouched (u : nat) (s : state) : Prop :=
  ∀ x, ¬ seen s x → B s x = false ∧ (x ≠ u → P s x = NIL).
Definition parent_of (gs : list nat) : Z := match gs with [] => NIL | p :: _ => Z.of_nat p end.

Section search.
Context (link : nat → nat → Prop) (link_sym : ∀ x y, link x y → link y x).
Context (n : nat) (t0 : Z).
Implicit Types (u v w x y z : nat) (gs : list nat) (s : state).

Record before gs u s : Prop := {
  b_wf : wf n t0 s;
  b_lt : u < n;
  b_new : ¬ seen s u;
  b_stack x : x ∈ gs → seen s x;
  b_closed : closed link gs s;
  b_path : path link u gs;
  b_nodup : NoDup gs;
  b_untouched : untouched u s;
  b_parent : P s u = parent_of gs;
}.
Record after gs u s s' : Prop := {
  a_wf : wf n t0 s';
  a_extends : extends s s';
  a_seen : seen s' u;
  a_disc : D s' u = (time s + 1)%Z;
  a_late x : fresh s s' x → (time s < D s' x)%Z;
  a_closed : closed link gs s';
  a_conn w z : fresh s s' w → ¬ fresh s s' z → rtc (avoid link z) u w;
  a_untouched : untouched u s';
  (** [low] is at least the discovery of the vertices on the stack that are linked *)
  a_sound : (D s' u ≤ L s' u)%Z ∨ ∃ w x, fresh s s' w ∧ x ∈ gs ∧ link w x ∧ L s' u = D s x;
  (** and at most that of those below the parent *)
  a_complete w x : fresh s s' w → x ∈ tail gs → link w x → (L s' u ≤ D s x)%Z;
  a_ap x : fresh s s' x → B s' x = true ↔ articulation link x;
}.

(** where the links of the new vertices lead *)
Lemma boundary gs s s' w y :
  closed link gs s → closed link gs s' → (∀ x, x ∈ gs → seen s x) →
  fresh s s' w → link w y → fresh s s' y ∨ y ∈ gs.
Proof.
  intros Hc Hc' Hgs [Hw Hnw] Hl.
  assert (seen s' y) as Hy by (apply (Hc' w y); [done| |done]; intros Hin; by apply Hnw, Hgs).
  destruct (decide (y ∈ gs)) as [|Hin]; [by right|]. left. split; [done|]. intros Hsy.
  apply Hnw, (Hc y w); [done..|by apply link_sym].
Qed.

(** ** The loop over the neighbours *)
Section loop.
Context (gs : list nat) (u : nat) (s0 : state).
Hypothesis (Hb : before gs u s0).

(** the vertices that must stay connected without [u] *)
Definition other s x : Prop := (fresh s0 s x ∧ x ≠ u) ∨ x ∈ gs.
(** [pre] are the neighbours that the loop has passed *)
Record inv (children : Z) (pre : list nat) s : Prop := {
  i_wf : wf n t0 s;
  i_extends : extends s0 s;
  i_seen : seen s u;
  i_disc : D s u = (time s0 + 1)%Z;
  i_late x : fresh s0 s x → (time s0 < D s x)%Z;
  i_closed : closed link (u :: gs) s;
  i_conn w z : fresh s0 s w → ¬ fresh s0 s z → rtc (avoid link z) u w;
  i_untouched : untouched u s;
  i_parent : P s u = parent_of gs;
  i_sound : (D s u ≤ L s u)%Z ∨ ∃ w x, fresh s0 s w ∧ x ∈ gs ∧ link w x ∧ L s u = D s0 x;
  i_complete w x : fresh s0 s w → x ∈ tail gs → link w x → w ≠ u ∨ x ∈ pre → (L s u ≤ D s0 x)%Z;
  i_ap x : fresh s0 s x → x ≠ u → B s x = true ↔ articulation link x;
  i_pre y : y ∈ pre → seen s y;
  i_cut : B s u = true → articulation link u;
  i_rest x y : B s u = false → other s x → other s y → rtc (avoid link u) x y;
  i_root : gs = [] → (children = 0%Z ∧ ∀ x, fresh s0 s x → x = u) ∨
                    (0 < children)%Z ∧ ∃ x, fresh s0 s x ∧ x ≠ u ∧ link u x;
  i_children : (0 ≤ children ≤ time s - t0)%Z;
}.

Lemma u_fresh s : seen s u → fresh s0 s u.
Proof. intros Hu. split; [done|]. apply Hb. Qed.
Lemma u_not_stack : u ∉ gs.
Proof. intros Hu. by apply (b_new _ _ _ Hb), (b_stack _ _ _ Hb). Qed.
Lemma seen0_not_u x : seen s0 x → x ≠ u.
Proof. intros Hx ->. by apply (b_new _ _ _ Hb). Qed.
Lemma stack_late x : x ∈ gs → (D s0 x < time s0 + 1)%Z.
Proof. intros Hx. pose proof (wf_late _ _ _ (b_wf _ _ _ Hb) x (b_stack _ _ _ Hb x Hx)). lia. Qed.

Lemma inv_start : inv 0 [] (enter s0 u).
Proof.
  pose proof (b_wf _ _ _ Hb) as Hw. pose proof (b_lt _ _ _ Hb) as Hlt. pose proof (b_new _ _ _ Hb) as Hn.
  assert (∀ x, seen (enter s0 u) x ↔ x = u ∨ seen s0 x) as Hse by (intros x; by apply (seen_enter n t0)).
  assert (∀ x, D (enter s0 u) x = if decide (x = u) then (time s0 + 1)%Z else D s0 x) as HD by (intros x; by apply (D_enter n t0)).
  assert (∀ x, L (enter s0 u) x = if decide (x = u) then (time s0 + 1)%Z else L s0 x) as HL by (intros x; by apply (L_enter n t0)).
  assert (∀ x, fresh s0 (enter s0 u) x → x = u) as Hf.
  { intros x [[->|Hx]%Hse Hnx]; done. }
  split.
  - by apply wf_enter.
  - intros x Hx. pose proof (seen0_not_u x Hx) as Hxu. rewrite Hse, HD, HL.
    rewrite !decide_False by done. split_and!; [by right|done..].
  - rewrite Hse. by left.
  - by rewrite HD, decide_True.
  - intros x ->%Hf. rewrite HD, decide_True by done. lia.
  - intros x y [->|Hx]%Hse Hxg Hl.
    + destruct Hxg. by left.
    + rewrite Hse. right. apply (b_closed _ _ _ Hb x y); [done| |done]. intros Hin. apply Hxg. by right.
  - intros w z ->%Hf. done.
  - intros x Hx. rewrite Hse in Hx.
    destruct (b_untouched _ _ _ Hb x) as [HB HP]; [naive_solver|]. done.
  - apply (b_parent _ _ _ Hb).
  - left. by rewrite HD, HL, !decide_True.
  - intros w x ->%Hf _ _ [?|Hx]; [done|]. by apply elem_of_nil in Hx.
  - by intros x ->%Hf.
  - intros y Hy. by apply elem_of_nil in Hy.
  - destruct (b_untouched _ _ _ Hb u Hn) as [HB _]. change (B (enter s0 u) u) with (B s0 u). by rewrite HB.
  - intros x y _ [[Hx%Hf ?]|Hx] [[Hy%Hf ?]|Hy]; try done. apply stack_conn with gs; [done|apply Hb|apply u_not_stack|done..].
  - intros _. by left.
  - simpl. pose proof (wf_time _ _ _ Hw). pose proof (cnt_nonneg is_seen (visited s0)). lia.
Qed.

(** *** [low] of [u] becomes smaller *)
Lemma inv_lower children pre s d : inv children pre s →
  (D s u ≤ d)%Z ∨ (∃ w x, fresh s0 s w ∧ x ∈ gs ∧ link w x ∧ d = D s0 x) →
  inv children pre (with_low s u (Z.min (L s u) d)).
Proof.
  intros Hi Hd. pose proof (b_lt _ _ _ Hb) as Hlt. pose proof (i_wf _ _ _ Hi) as Hw.
  assert (L (with_low s u (Z.min (L s u) d)) u = Z.min (L s u) d) as HL by (by rewrite (L_with_low n t0), decide_True).
  destruct Hi. split; try done.
  - by apply wf_with_low.
  - intros x Hx. rewrite (L_with_low n t0), decide_False by (done || by apply seen0_not_u). by apply i_extends0.
  - rewrite HL. destruct (Z.min_spec (L s u) d) as [[_ ->]|[_ ->]]; done.
  - intros w x Hf Hx Hl Hp. rewrite HL. pose proof (i_complete0 w x Hf Hx Hl Hp). lia.
Qed.
Lemma inv_pass children pre s v : inv children pre s → seen s v → (v ∈ tail gs → (L s u ≤ D s0 v)%Z) →
  inv children (pre ++ [v]) s.
Proof.
  intros Hi Hv HL. destruct Hi. split; try done.
  - intros w x Hf Hx Hl [Hwu|Hp]; [by apply (i_complete0 w x); auto|].
    apply elem_of_app in Hp as [Hp| ->%list_elem_of_singleton]; [by apply (i_complete0 w x); auto|]. by apply HL.
  - intros y [Hy| ->%list_elem_of_singleton]%elem_of_app; [by apply i_pre0|done].
Qed.
(** a neighbour that has been seen *)
Lemma neighbour_disc children pre s v : inv children pre s → link u v → seen s v →
  (D s u ≤ D s v)%Z ∨ v ∈ gs ∧ D s v = D s0 v.
Proof.
  intros Hi Hl Hv. destruct (decide (v ∈ gs)) as [Hg|Hg].
  { right. split; [done|]. by destruct (i_extends _ _ _ Hi v (b_stack _ _ _ Hb v Hg)) as (_ & ? & _). }
  left. destruct (decide (seen s0 v)) as [H0|H0].
  { destruct (b_new _ _ _ Hb). apply (b_closed _ _ _ Hb v u); [done..|by apply link_sym]. }
  rewrite (i_disc _ _ _ Hi). pose proof (i_late _ _ _ Hi v (conj Hv H0)). lia.
Qed.
Lemma parent_not_below v : v ∈ tail gs → Z.of_nat v ≠ parent_of gs.
Proof.
  pose proof (b_nodup _ _ _ Hb) as Hnd. destruct gs as [|p ps]; simpl; [by intros ?%elem_of_nil|].
  intros Hv Heq%Nat2Z.inj. subst. by apply NoDup_cons in Hnd as [? _].
Qed.
Lemma tail_stack v : v ∈ tail gs → v ∈ gs.
Proof. destruct gs; [done|]. by right. Qed.

Lemma inv_seen children pre s v : inv children pre s → link u v → seen s v →
  ∃ s', (if negb (Z.of_nat v =? P s u)%Z then d ← read (disc s) (Z.of_nat v); lower s (Z.of_nat u) d else mret s) = Ok s' ∧
    inv children (pre ++ [v]) s'.
Proof.
  intros Hi Hl Hv. pose proof (b_lt _ _ _ Hb) as Hlt. pose proof (i_wf _ _ _ Hi) as Hw.
  pose proof (neighbour_disc _ _ _ _ Hi Hl Hv) as Hd. destruct (Z.eqb_spec (Z.of_nat v) (P s u)) as [Hp|Hp]; simpl.
  - exists s. split; [done|]. apply inv_pass; [done..|]. intros Hin. exfalso. apply (parent_not_below v Hin).
    by rewrite <- (i_parent _ _ _ Hi).
  - eexists. rewrite (read_disc n t0) by done. cbn [mbind res_bind]. rewrite (lower_Ok n t0); [|done|by apply (i_seen _ _ _ Hi)].
    split; [done|]. apply inv_pass; [apply inv_lower; [done|]|done|].
    + destruct Hd as [?|[? ?]]; [by left|]. right. exists u, v. split; [apply u_fresh, (i_seen _ _ _ Hi)|done].
    + intros Hin%tail_stack. rewrite (L_with_low n t0), decide_True by done.
      destruct (i_extends _ _ _ Hi v (b_stack _ _ _ Hb v Hin)) as (_ & <- & _). lia.
Qed.

(** *** The call for a neighbour *)
Section child.
Context (children : Z) (pre : list nat) (s : state) (v : nat).
Hypothesis (Hi : inv children pre s) (Hl : link u v) (Hn : ¬ seen s v) (Hvn : v < n).
Let s1 := with_parent s v (Z.of_nat u).

Lemma P_before_child x : seen s x → P s1 x = P s x.
Proof.
  intros Hx. unfold s1. rewrite (P_with_parent n t0), decide_False; [done| |by apply (i_wf _ _ _ Hi)|done]. by intros ->.
Qed.
Lemma before_child : before (u :: gs) v s1.
Proof.
  pose proof (i_wf _ _ _ Hi) as Hw. split.
  - by apply wf_with_parent.
  - done.
  - done.
  - intros x [->|Hx]%elem_of_cons; [by apply (i_seen _ _ _ Hi)|]. by apply (i_extends _ _ _ Hi), (b_stack _ _ _ Hb).
  - apply (i_closed _ _ _ Hi).
  - split; [done|]. apply Hb.
  - apply NoDup_cons. split; [apply u_not_stack|]. apply Hb.
  - intros x Hx. destruct (i_untouched _ _ _ Hi x Hx) as [HB HP]. split; [done|]. intros Hxv.
    unfold s1. rewrite (P_with_parent n t0), decide_False by done. apply HP. intros ->. by apply Hx, (i_seen _ _ _ Hi).
  - unfold s1. by rewrite (P_with_parent n t0), decide_True.
Qed.

Context (s2 : state).
Hypothesis (Ha : after (u :: gs) v s1 s2).

Lemma child_extends x : seen s x → seen s2 x ∧ D s2 x = D s x ∧ L s2 x = L s x ∧ P s2 x = P s x ∧ B s2 x = B s x.
Proof.
  intros Hx. destruct (a_extends _ _ _ _ Ha x Hx) as (Hx2 & HD & HL & HP & HB).
  by rewrite HD, HL, HP, HB, P_before_child.
Qed.
Lemma fresh_split x : fresh s0 s2 x → fresh s0 s x ∨ fresh s s2 x.
Proof. intros [Hx Hx0]. destruct (decide (seen s x)); [by left|by right]. Qed.
Lemma fresh_old x : fresh s0 s x → fresh s0 s2 x.
Proof. intros [Hx Hx0]. split; [by apply child_extends|done]. Qed.
Lemma fresh_new x : fresh s s2 x → fresh s0 s2 x.
Proof. intros [Hx Hnx]. split; [done|]. intros H0. by apply Hnx, (i_extends _ _ _ Hi). Qed.
Lemma fresh_not_u x : fresh s s2 x → x ≠ u.
Proof. intros [_ Hx] ->. by apply Hx, (i_seen _ _ _ Hi). Qed.
Lemma fresh_child : fresh s s2 v.
Proof. split; [by apply (a_seen _ _ _ _ Ha)|done]. Qed.
Lemma child_boundary w y : fresh s s2 w → link w y → fresh s s2 y ∨ y ∈ u :: gs.
Proof.
  pose proof before_child as Hb1. intros Hw Hwy.
  exact (boundary (u :: gs) s1 s2 w y (b_closed _ _ _ Hb1) (a_closed _ _ _ _ Ha) (b_stack _ _ _ Hb1) Hw Hwy).
Qed.
Lemma child_time : (D s u < D s2 v)%Z.
Proof.
  rewrite (a_disc _ _ _ _ Ha). change (time s1) with (time s).
  pose proof (wf_late _ _ _ (i_wf _ _ _ Hi) u (i_seen _ _ _ Hi)). lia.
Qed.
Lemma D_stack x : x ∈ gs → D s1 x = D s0 x ∧ (D s0 x < D s u)%Z.
Proof.
  intros Hx. change (D s1 x) with (D s x). destruct (i_extends _ _ _ Hi x (b_stack _ _ _ Hb x Hx)) as (_ & -> & _).
  split; [done|]. rewrite (i_disc _ _ _ Hi). by apply stack_late.
Qed.
(** the new vertices lead to [u] only, or to a vertex below it *)
Lemma child_low :
  (D s u ≤ L s2 v)%Z ∧ (∀ w y, fresh s s2 w → link w y → fresh s s2 y ∨ y = u) ∨
  (L s2 v < D s u)%Z ∧ ∃ w x, fresh s s2 w ∧ x ∈ gs ∧ link w x ∧ L s2 v = D s0 x.
Proof.
  destruct (decide (D s u ≤ L s2 v)%Z) as [Hle|Hlt]; [left|right].
  - split; [done|]. intros w y Hw Hwy. destruct (child_boundary w y Hw Hwy) as [|Hy]; [by left|].
    apply elem_of_cons in Hy as [->|Hy]; [by right|]. exfalso.
    pose proof (a_complete _ _ _ _ Ha w y Hw Hy Hwy) as Hc. destruct (D_stack y Hy) as [HD Hlt]. rewrite HD in Hc. lia.
  - split; [lia|]. pose proof child_time. destruct (a_sound _ _ _ _ Ha) as [?|(w & x & Hw & Hx & Hwx & HL)]; [lia|].
    apply elem_of_cons in Hx as [->|Hx]; [change (D s1 u) with (D s u) in HL; lia|].
    exists w, x. destruct (D_stack x Hx) as [<- _]. done.
Qed.
Lemma child_conn w z : fresh s s2 w → ¬ fresh s s2 z → z ≠ u → rtc (avoid link z) u w.
Proof.
  intros Hw Hz Hzu. etrans; [|by apply (a_conn _ _ _ _ Ha)]. apply conn_link; [done|by apply not_eq_sym|].
  intros Heq. apply Hz. rewrite <- Heq. apply fresh_child.
Qed.

(** the new vertices are connected with one another *)
Lemma child_together w : fresh s s2 w → rtc (avoid link u) v w.
Proof. intros Hw. apply (a_conn _ _ _ _ Ha); [done|]. by intros ?%fresh_not_u. Qed.

(** the state after lines 76 to 85; [b] says whether [ap[u]] is set *)
Definition joined (b : bool) : state :=
  mk_state (time s2) (visited s2) (disc s2) (<[u:=Some (Z.min (L s2 u) (L s2 v))]> (low s2)) (parent s2)
    (if b then <[u:=Some true]> (ap s2) else ap s2).
Lemma wf_joined b : wf n t0 (joined b).
Proof.
  pose proof (wf_with_low n t0 s2 (a_wf _ _ _ _ Ha) u (Z.min (L s2 u) (L s2 v))) as Hw.
  destruct b; [|exact Hw]. exact (wf_with_ap n t0 _ Hw u true).
Qed.
Lemma L_joined b x : L (joined b) x = if decide (x = u) then Z.min (L s u) (L s2 v) else L s2 x.
Proof.
  destruct (child_extends u (i_seen _ _ _ Hi)) as (_ & _ & HL & _).
  change (L (joined b) x) with (L (with_low s2 u (Z.min (L s2 u) (L s2 v))) x).
  rewrite (L_with_low n t0), HL; [done|by apply (a_wf _ _ _ _ Ha)|by apply Hb].
Qed.
Lemma B_joined b x : B (joined b) x = if decide (x = u) then b || B s u else B s2 x.
Proof.
  destruct (child_extends u (i_seen _ _ _ Hi)) as (_ & _ & _ & _ & HB). destruct b; simpl.
  - change (B (joined true) x) with (B (with_ap s2 u true) x).
    apply (B_with_ap n t0); [by apply (a_wf _ _ _ _ Ha)|by apply Hb].
  - change (B (joined false) x) with (B s2 x). destruct (decide (x = u)) as [->|]; done.
Qed.

Lemma joined_extends b : extends s0 (joined b).
Proof.
  intros x Hx. pose proof (seen0_not_u x Hx) as Hxu. destruct (i_extends _ _ _ Hi x Hx) as (Hx1 & HD & HL & HP & HB).
  destruct (child_extends x Hx1) as (Hx2 & HD2 & HL2 & HP2 & HB2).
  rewrite L_joined, B_joined, !decide_False by done.
  rewrite <- HD, <- HL, <- HP, <- HB. done.
Qed.
Lemma joined_conn w z : fresh s0 s2 w → ¬ fresh s0 s2 z → rtc (avoid link z) u w.
Proof.
  intros Hw Hz. apply fresh_split in Hw as [Hw|Hw].
  - apply (i_conn _ _ _ Hi); [done|]. intros Hz'. by apply Hz, fresh_old.
  - apply child_conn; [done| |].
    + intros Hz'. by apply Hz, fresh_new.
    + intros ->. apply Hz, fresh_old, u_fresh, (i_seen _ _ _ Hi).
Qed.
Lemma joined_sound :
  (D s u ≤ Z.min (L s u) (L s2 v))%Z ∨ ∃ w x, fresh s0 s2 w ∧ x ∈ gs ∧ link w x ∧ Z.min (L s u) (L s2 v) = D s0 x.
Proof.
  assert ((D s u ≤ L s u)%Z ∨ ∃ w x, fresh s0 s2 w ∧ x ∈ gs ∧ link w x ∧ L s u = D s0 x) as H1.
  { destruct (i_sound _ _ _ Hi) as [?|(w & x & Hw & H)]; [by left|]. right. exists w, x. split; [by apply fresh_old|done]. }
  assert ((D s u ≤ L s2 v)%Z ∨ ∃ w x, fresh s0 s2 w ∧ x ∈ gs ∧ link w x ∧ L s2 v = D s0 x) as H2.
  { destruct child_low as [[? _]|(_ & w & x & Hw & H)]; [by left|]. right. exists w, x. split; [by apply fresh_new|done]. }
  destruct (Z.min_spec (L s u) (L s2 v)) as [[_ ->]|[_ ->]]; done.
Qed.
Lemma joined_complete w x : fresh s0 s2 w → x ∈ tail gs → link w x → w ≠ u ∨ x ∈ pre ++ [v] →
  (Z.min (L s u) (L s2 v) ≤ D s0 x)%Z.
Proof.
  intros Hw Hx Hwx Hp. pose proof (tail_stack x Hx) as Hg. apply fresh_split in Hw as [Hw|Hw].
  - enough (L s u ≤ D s0 x)%Z by lia. apply (i_complete _ _ _ Hi w x Hw Hx Hwx).
    destruct Hp as [?|[?|Hv%list_elem_of_singleton]%elem_of_app]; [by left|by right|]. exfalso. apply Hn.
    rewrite <- Hv. by apply (i_extends _ _ _ Hi), (b_stack _ _ _ Hb).
  - pose proof (a_complete _ _ _ _ Ha w x Hw Hg Hwx) as Hc. rewrite (proj1 (D_stack x Hg)) in Hc. lia.
Qed.
Lemma still_other x : (fresh s0 s2 x ∧ x ≠ u) ∨ x ∈ gs → other s x ∨ fresh s s2 x.
Proof. intros [[[Hx|Hx]%fresh_split Hxu]|Hx]; [left; by left|by right|left; by right]. Qed.
Lemma joined_rest x y :
  (gs = [] → children = 0%Z) → (gs ≠ [] → L s2 v < D s u)%Z → B s u = false →
  other s x ∨ fresh s s2 x → other s y ∨ fresh s s2 y → rtc (avoid link u) x y.
Proof.
  intros Hroot Hlow HB Hx Hy. destruct (decide (gs = [])) as [Hg|Hg].
  - assert (∀ z, other s z ∨ fresh s s2 z → rtc (avoid link u) v z) as Hv.
    { intros z [[[Hz Hzu]|Hz]|Hz]; [|rewrite Hg in Hz; by apply elem_of_nil in Hz|by apply child_together].
      destruct (i_root _ _ _ Hi Hg) as [[_ H]|[? _]]; [by destruct Hzu; apply H|]. rewrite (Hroot Hg) in *. lia. }
    etrans; [apply conn_sym|]; auto.
  - destruct child_low as [[Hle _]|(_ & w & g & Hw & Hgs & Hwg & _)]; [specialize (Hlow Hg); lia|].
    assert (∀ z, other s z ∨ fresh s s2 z → rtc (avoid link u) g z) as Hv.
    { intros z [Hz|Hz].
      - apply (i_rest _ _ _ Hi); [done|by right|done].
      - trans v; [|by apply child_together]. trans w; [|apply conn_sym; [done|]; by apply child_together].
        apply conn_link; [by apply link_sym| |by apply fresh_not_u]. intros ->. by apply u_not_stack. }
    etrans; [apply conn_sym|]; auto.
Qed.

Lemma inv_joined b :
  (b = true → articulation link u) →
  (b = false → (gs = [] → children = 0%Z) ∧ (gs ≠ [] → L s2 v < D s u)%Z) →
  inv (children + 1) (pre ++ [v]) (joined b).
Proof.
  intros Ht Hf. destruct (child_extends u (i_seen _ _ _ Hi)) as (Hu2 & HDu & _ & HPu & _).
  pose proof (wf_late _ _ _ (i_wf _ _ _ Hi) u (i_seen _ _ _ Hi)) as Htime. rewrite (i_disc _ _ _ Hi) in Htime.
  assert (D (joined b) u = D s u) as HDj by done.
  assert (L (joined b) u = Z.min (L s u) (L s2 v)) as HLj by (by rewrite L_joined, decide_True).
  split.
  - apply wf_joined.
  - apply joined_extends.
  - done.
  - rewrite HDj. apply (i_disc _ _ _ Hi).
  - intros x Hx. change (D (joined b) x) with (D s2 x). apply fresh_split in Hx as [Hx|Hx].
    + destruct (child_extends x (proj1 Hx)) as (_ & -> & _). by apply (i_late _ _ _ Hi).
    + pose proof (a_late _ _ _ _ Ha x Hx) as H. change (time s1) with (time s) in H. lia.
  - apply (a_closed _ _ _ _ Ha).
  - intros w z. apply joined_conn.
  - intros x Hx. destruct (a_untouched _ _ _ _ Ha x Hx) as [HB HP]. rewrite B_joined, decide_False by (by intros ->).
    split; [done|]. intros _. apply HP. intros ->. by apply Hx, (a_seen _ _ _ _ Ha).
  - change (P (joined b) u) with (P s2 u). rewrite HPu. apply (i_parent _ _ _ Hi).
  - rewrite HLj, HDj. apply joined_sound.
  - intros w x. rewrite HLj. apply joined_complete.
  - intros x Hx Hxu. rewrite B_joined, decide_False by done. apply fresh_split in Hx as [Hx|Hx].
    + destruct (child_extends x (proj1 Hx)) as (_ & _ & _ & _ & ->). by apply (i_ap _ _ _ Hi).
    + by apply (a_ap _ _ _ _ Ha).
  - intros y [Hy| ->%list_elem_of_singleton]%elem_of_app; [|apply fresh_child].
    apply child_extends, (i_pre _ _ _ Hi y Hy).
  - rewrite B_joined, decide_True by done. intros [?|?]%orb_true_iff; [by apply Ht|by apply (i_cut _ _ _ Hi)].
  - intros x y. rewrite B_joined, decide_True by done. intros [H1 H2]%orb_false_iff Hx Hy.
    destruct (Hf H1). apply joined_rest; try done; by apply still_other.
  - intros _. pose proof (i_children _ _ _ Hi). right. split; [lia|]. exists v.
    split; [apply fresh_new, fresh_child|]. split; [apply fresh_not_u, fresh_child|done].
  - pose proof (i_children _ _ _ Hi). pose proof (a_disc _ _ _ _ Ha) as HD. change (time s1) with (time s) in HD.
    pose proof (wf_late _ _ _ (a_wf _ _ _ _ Ha) v (a_seen _ _ _ _ Ha)). change (time (joined b)) with (time s2). lia.
Qed.

(** [ap[u]] is set for articulation points only *)
Lemma child_articulation :
  (gs = [] → 0 < children)%Z → (gs ≠ [] → D s u ≤ L s2 v)%Z → articulation link u.
Proof.
  intros Hroot Hlow.
  assert (∃ b, ¬ fresh s s2 b ∧ b ≠ u ∧ link u b) as (b & Hb1 & Hbu & Hlb).
  { destruct (decide (gs = [])) as [Hg|Hg].
    - destruct (i_root _ _ _ Hi Hg) as [[? _]|(_ & x & Hx & Hxu & Hlx)]; [specialize (Hroot Hg); lia|].
      exists x. split; [|done]. intros [_ Hx']. by apply Hx', Hx.
    - assert (∃ p ps, gs = p :: ps) as (p & ps & Hgs) by (destruct gs as [|p ps]; [done|by exists p, ps]).
      assert (p ∈ gs) as Hp by (rewrite Hgs; by left). exists p.
      pose proof (b_path _ _ _ Hb) as Hpath. rewrite Hgs in Hpath. split_and!.
      + intros [_ Hx']. by apply Hx', (i_extends _ _ _ Hi), (b_stack _ _ _ Hb).
      + intros Hpu. apply u_not_stack. by rewrite <- Hpu.
      + apply link_sym, Hpath. }
  apply (closed_articulation link link_sym (fresh s s2) u v b); try done.
  - apply fresh_child.
  - apply fresh_not_u, fresh_child.
  - by intros ?%fresh_not_u.
  - intros w y Hw Hwy. destruct (decide (gs = [])) as [Hg|Hg].
    + destruct (child_boundary w y Hw Hwy) as [|Hy]; [by left|]. rewrite Hg in Hy. right. by apply list_elem_of_singleton.
    + destruct child_low as [[_ H]|[Hlt _]]; [by apply (H w y)|]. specialize (Hlow Hg). lia.
Qed.

Lemma parent_of_NIL : (parent_of gs =? NIL)%Z = bool_decide (gs = []).
Proof. destruct gs as [|p ps]; simpl; [done|]. unfold NIL. apply Z.eqb_neq. lia. Qed.
Lemma joined_mark : mark (joined false) (Z.of_nat u) (Z.of_nat v) (children + 1) =
  Ok (joined (if decide (gs = []) then children + 1 >? 1 else L s2 v >=? D s u)%Z).
Proof.
  pose proof (b_lt _ _ _ Hb) as Hlt. pose proof (wf_joined false) as Hw. pose proof (wf_joined true) as Hw'.
  destruct (child_extends u (i_seen _ _ _ Hi)) as (Hu2 & HDu & _ & HPu & _).
  assert (∀ b, P (joined b) u = parent_of gs) as HP.
  { intros b. change (P (joined b) u) with (P s2 u). rewrite HPu. apply (i_parent _ _ _ Hi). }
  assert (set_ap (joined false) (Z.of_nat u) true = Ok (joined true)) as Hset by (by rewrite (set_ap_Ok n t0)).
  unfold mark. rewrite (read_parent n t0), HP by done. cbn [mbind res_bind]. rewrite parent_of_NIL.
  destruct (decide (gs = [])) as [Hg|Hg].
  - rewrite (bool_decide_true _ Hg). cbn [andb]. destruct (children + 1 >? 1)%Z.
    + rewrite Hset. cbn [mbind res_bind].
      rewrite (read_parent n t0 (joined true)), HP by done. cbn [mbind res_bind]. by rewrite parent_of_NIL, bool_decide_true.
    + cbn [mbind res_bind mret res_ret]. rewrite (read_parent n t0), HP by done. cbn [mbind res_bind].
      by rewrite parent_of_NIL, bool_decide_true.
  - rewrite (bool_decide_false _ Hg). cbn [andb mbind res_bind mret res_ret].
    rewrite (read_parent n t0), HP by done. cbn [mbind res_bind]. rewrite parent_of_NIL, bool_decide_false by done. cbn [negb].
    rewrite (read_low n t0) by (done || apply (a_seen _ _ _ _ Ha)). cbn [mbind res_bind].
    rewrite (read_disc n t0) by done. cbn [mbind res_bind].
    rewrite L_joined, decide_False by (apply fresh_not_u, fresh_child).
    change (D (joined false) u) with (D s2 u). rewrite HDu. by destruct (_ >=? _)%Z.
Qed.
Lemma child_step : ∃ s', (l ← read (low s2) (Z.of_nat v); s ← lower s2 (Z.of_nat u) l;
    mark s (Z.of_nat u) (Z.of_nat v) (children + 1)) = Ok s' ∧ inv (children + 1) (pre ++ [v]) s'.
Proof.
  pose proof (a_wf _ _ _ _ Ha) as Hw2. pose proof (a_seen _ _ _ _ Ha) as Hv2.
  pose proof (proj1 (child_extends u (i_seen _ _ _ Hi))) as Hu2. eexists. split.
  - rewrite (read_low n t0) by done. cbn [mbind res_bind]. rewrite (lower_Ok n t0) by done. cbn [mbind res_bind].
    apply joined_mark.
  - pose proof (i_children _ _ _ Hi). apply inv_joined.
    + intros Hm. apply child_articulation; intros Hg.
      * rewrite decide_True in Hm by done. apply Z.gtb_lt in Hm. lia.
      * rewrite decide_False in Hm by done. apply Z.geb_le in Hm. lia.
    + intros Hm. split; intros Hg.
      * rewrite decide_True in Hm by done. rewrite Z.gtb_ltb in Hm. apply Z.ltb_ge in Hm. lia.
      * rewrite decide_False in Hm by done. rewrite Z.geb_leb in Hm. apply Z.leb_gt in Hm. lia.
Qed.
End child.

(** *** The end of the loop *)
Lemma inv_end children nbs s : inv children nbs s → (∀ y, link u y → y ∈ nbs) → after gs u s0 s.
Proof.
  intros Hi Hall. assert (closed link gs s) as Hc.
  { intros x y Hx Hg Hl. destruct (decide (x = u)) as [->|Hxu].
    - by apply (i_pre _ _ _ Hi), Hall.
    - apply (i_closed _ _ _ Hi x y); [done| |done]. by apply not_elem_of_cons. }
  destruct Hi as [I1 I2 I3 I4 I5 I6 I7 I8 I9 I10 I11 I12 I13 I14 I15 I16 I17]. split; try done.
  - intros w x Hw Hx Hl. apply (I11 w x); try done.
    destruct (decide (w = u)) as [->|]; [right; by apply Hall|by left].
  - intros x Hx. destruct (decide (x = u)) as [->|Hxu]; [|by apply I12].
    split; [apply I14|]. intros Hcut. destruct (B s u) eqn:HB; [done|]. exfalso. revert Hcut.
    apply not_articulation; [done|]. intros y z Hy Hz Hyu Hzu.
    assert (∀ y, link u y → y ≠ u → other s y) as Ho.
    { intros y' Hy' Hyu'. destruct (boundary gs s0 s u y') as [?|?]; try done; [apply Hb|apply Hb|by left|by right]. }
    by apply I15; [|apply Ho|apply Ho].
Qed.
End loop.

(** ** The search of a component *)
Context (g : Graph) (nb : nat → list nat).
Hypothesis (link_nb : ∀ x y, link x y ↔ y ∈ nb x) (link_lt : ∀ x y, link x y → y < n).
Hypothesis (adj_nb : ∀ x, x < n → adj g !! x = Some (Z.of_nat <$> nb x)).
Hypothesis (time_fits : (0 ≤ t0 ∧ t0 + Z.of_nat n ≤ INT_MAX)%Z).

Lemma loop_runs (call : Z → state → res state) gs u s0 :
  before gs u s0 →
  (∀ v s, before (u :: gs) v s → ∃ s', call (Z.of_nat v) s = Ok s' ∧ after (u :: gs) v s s') →
  ∀ rest pre children s, nb u = pre ++ rest → inv gs u s0 children pre s →
  ∃ s', APUtil_loop call (Z.of_nat u) (Z.of_nat <$> rest) children s = Ok s' ∧ after gs u s0 s'.
Proof.
  intros Hb Hcall rest. induction rest as [|v rest IH]; intros pre children s Hnb Hi.
  { exists s. split; [done|]. apply (inv_end _ _ _ Hb children pre s Hi). intros y Hy%link_nb. by rewrite Hnb, app_nil_r in Hy. }
  assert (link u v) as Hl by (apply link_nb; rewrite Hnb; apply elem_of_app; right; by left).
  pose proof (link_lt _ _ Hl) as Hv. pose proof (i_wf _ _ _ _ _ _ Hi) as Hw.
  assert (nb u = (pre ++ [v]) ++ rest) as Hnb' by (by rewrite <- (assoc_L (++))).
  cbn [fmap list_fmap APUtil_loop]. rewrite (read_visited n t0) by done. cbn [mbind res_bind].
  destruct (decide (seen s v)) as [Hs|Hs].
  - unfold seen in Hs. rewrite Hs. cbn [negb]. rewrite (read_parent n t0) by (done || apply Hb). cbn [mbind res_bind].
    destruct (inv_seen gs u s0 Hb children pre s v Hi Hl Hs) as (s' & Hr & Hi'). rewrite Hr. cbn [mbind res_bind].
    by apply (IH (pre ++ [v])).
  - pose proof Hs as Hf%not_true_is_false. rewrite Hf. cbn [negb].
    pose proof (time_bound n t0 s Hw v Hv Hs). pose proof (i_children _ _ _ _ _ _ Hi).
    rewrite int_add_Ok by (unfold INT_MIN, INT_MAX in *; lia). cbn [mbind res_bind].
    rewrite (set_parent_Ok n t0) by done. cbn [mbind res_bind].
    destruct (Hcall v _ (before_child gs u s0 Hb children pre s v Hi Hl Hs Hv)) as (s2 & Hr & Ha). rewrite Hr. cbn [mbind res_bind].
    destruct (child_step gs u s0 Hb children pre s v Hi Hl Hs Hv s2 Ha) as (s' & Hr' & Hi').
    apply bind_Ok in Hr' as (l & -> & Hr'). cbn [mbind res_bind]. apply bind_Ok in Hr' as (s3 & -> & Hr'). cbn [mbind res_bind].
    rewrite Hr'. cbn [mbind res_bind]. by apply (IH (pre ++ [v])).
Qed.

Lemma enter_runs (vs : list Z) (k : list Z → state → res state) u s : wf n t0 s → u < n → ¬ seen s u → adj g !! u = Some vs →
  (s ← set_visited s (Z.of_nat u) true; s ← next_time s; s ← set_low s (Z.of_nat u) (time s);
   s ← set_disc s (Z.of_nat u) (time s); vs ← get (adj g) (Z.of_nat u); k vs s) = k vs (enter s u).
Proof.
  intros Hw Hu Hn Hvs. pose proof (time_bound n t0 s Hw u Hu Hn). pose proof (wf_time _ _ _ Hw).
  pose proof (cnt_nonneg is_seen (visited s)).
  unfold set_visited. rewrite put_Ok by (by rewrite (wf_visited _ _ _ Hw)). cbn [mbind res_bind mret res_ret].
  unfold next_time. cbn [time visited disc low parent ap]. rewrite int_add_Ok by (unfold INT_MIN, INT_MAX in *; lia).
  cbn [mbind res_bind mret res_ret]. unfold set_low. cbn [time visited disc low parent ap].
  rewrite put_Ok by (by rewrite (wf_low _ _ _ Hw)). cbn [mbind res_bind mret res_ret].
  unfold set_disc. cbn [time visited disc low parent ap].
  rewrite put_Ok by (by rewrite (wf_disc _ _ _ Hw)). cbn [mbind res_bind mret res_ret].
  by rewrite (get_Ok _ _ _ Hvs).
Qed.
Lemma stack_short gs u s : before gs u s → length gs < n.
Proof.
  intros Hb. assert (NoDup (u :: gs)) as Hnd.
  { apply NoDup_cons. split; [|apply Hb]. intros Hin. by apply (b_new _ _ _ Hb), (b_stack _ _ _ Hb). }
  assert (u :: gs ⊆+ seq 0 n) as Hsub.
  { apply NoDup_submseteq; [done|]. intros x [->|Hx]%elem_of_cons; apply elem_of_seq.
    - pose proof (b_lt _ _ _ Hb). lia.
    - pose proof (seen_lt n t0 s (b_wf _ _ _ Hb) x (b_stack _ _ _ Hb x Hx)). lia. }
  apply submseteq_length in Hsub. rewrite length_seq in Hsub. simpl in Hsub. lia.
Qed.
Lemma dfs_runs fuel gs u s : before gs u s → n ≤ fuel + length gs →
  ∃ s', APUtil fuel g (Z.of_nat u) s = Ok s' ∧ after gs u s s'.
Proof.
  revert gs u s. induction fuel as [|fuel IH]; intros gs u s Hb Hf.
  { pose proof (stack_short gs u s Hb). lia. }
  cbn [APUtil]. rewrite (enter_runs _ _ u s (b_wf _ _ _ Hb) (b_lt _ _ _ Hb) (b_new _ _ _ Hb) (adj_nb u (b_lt _ _ _ Hb))).
  apply (loop_runs _ gs u s Hb) with (pre := []); [|done|by apply inv_start].
  intros v s' Hb'. apply IH; [done|]. simpl. lia.
Qed.

(** ** The search of the graph *)
Record searched s : Prop := {
  s_wf : wf n t0 s;
  s_closed : closed link [] s;
  s_untouched : untouched n s;
  s_ap x : seen s x → B s x = true ↔ articulation link x;
}.
Lemma AP_loop_runs fuel m i s : searched s → n ≤ fuel → i + m = n → (∀ x, x < i → seen s x) →
  ∃ s', AP_loop fuel g m (Z.of_nat i) s = Ok s' ∧ searched s' ∧ ∀ x, x < n → seen s' x.
Proof.
  intros Hs Hf. revert i s Hs. induction m as [|m IH]; intros i s Hs Him Hseen.
  { exists s. split; [done|]. split; [done|]. intros x Hx. apply Hseen. lia. }
  pose proof (s_wf _ Hs) as Hw. cbn [AP_loop]. rewrite (read_visited n t0) by (done || lia). cbn [mbind res_bind].
  replace (Z.of_nat i + 1)%Z with (Z.of_nat (S i)) by lia.
  destruct (decide (seen s i)) as [Hi|Hi].
  - unfold seen in Hi. rewrite Hi. cbn [negb mbind res_bind mret res_ret]. apply IH; [done|lia|].
    intros x Hx. destruct (decide (x = i)) as [->|]; [done|]. apply Hseen. lia.
  - pose proof Hi as Hf'%not_true_is_false. rewrite Hf'. cbn [negb].
    destruct (dfs_runs fuel [] i s) as (s' & Hr & Ha); [|simpl; lia|].
    { split; [done|lia|exact Hi|by intros x ?%elem_of_nil|by apply s_closed|done|by apply NoDup_nil| |].
      - intros x Hx. destruct (s_untouched _ Hs x Hx) as [HB HP]. split; [done|]. intros _.
        destruct (decide (x = n)) as [->|]; [|by apply HP].
        unfold P, val. by rewrite lookup_ge_None_2 by (by rewrite (wf_parent _ _ _ Hw)).
      - destruct (s_untouched _ Hs i Hi) as [_ HP]. apply HP. lia. }
    rewrite Hr. cbn [mbind res_bind]. apply IH; [|lia|].
    + split; [apply Ha|apply Ha| |].
      * intros x Hx. destruct (a_untouched _ _ _ _ Ha x Hx) as [HB HP]. split; [done|]. intros _. apply HP. intros ->.
        by apply Hx, (a_seen _ _ _ _ Ha).
      * intros x Hx. destruct (decide (seen s x)) as [Hx'|Hx'].
        -- destruct (a_extends _ _ _ _ Ha x Hx') as (_ & _ & _ & _ & ->). by apply (s_ap _ Hs).
        -- by apply (a_ap _ _ _ _ Ha).
    + intros x Hx. destruct (decide (x = i)) as [->|]; [by apply (a_seen _ _ _ _ Ha)|].
      apply (a_extends _ _ _ _ Ha), Hseen. lia.
Qed.

Lemma print_loop_runs s m i : wf n t0 s → i + m = n →
  print_loop m (Z.of_nat i) s = Ok (Z.of_nat <$> filter (λ x, B s x = true) (seq i m)).
Proof.
  intros Hw. revert i. induction m as [|m IH]; intros i Him; [done|]. cbn [print_loop seq].
  rewrite (read_ap n t0) by (done || lia). cbn [mbind res_bind]. replace (Z.of_nat i + 1)%Z with (Z.of_nat (S i)) by lia.
  rewrite IH by lia. cbn [mbind res_bind mret res_ret]. rewrite filter_cons. by destruct (B s i).
Qed.
Lemma filter_seq_sorted (Q : nat → Prop) `{∀ x, Decision (Q x)} m i : StronglySorted lt (filter Q (seq i m)).
Proof.
  revert i. induction m as [|m IH]; intros i; [by constructor|]. simpl. rewrite filter_cons.
  destruct (decide (Q i)); [|done]. constructor; [done|]. apply Forall_forall. intros x [_ Hx]%list_elem_of_filter.
  apply elem_of_seq in Hx. lia.
Qed.

(** the arrays when they are initialised *)
Definition fresh_state : state :=
  mk_state t0 (replicate n (Some false)) (replicate n None) (replicate n None) (replicate n (Some NIL)) (replicate n (Some false)).
Lemma insert_next {A} (v : A) i m :
  <[i:=Some v]> (replicate i (Some v) ++ replicate (S m) None) = replicate (S i) (Some v) ++ replicate m None.
Proof.
  rewrite insert_app_r_alt by (by rewrite length_replicate). rewrite length_replicate, Nat.sub_diag. cbn [replicate].
  change (<[0:=Some v]> (None :: replicate m None)) with ([Some v] ++ replicate m (@None A)).
  rewrite (assoc_L (++)), <- replicate_cons_app. done.
Qed.
Lemma init_loop_runs m i :
  init_loop m (Z.of_nat i) (mk_state t0 (replicate i (Some false) ++ replicate m None) (replicate n None) (replicate n None)
    (replicate i (Some NIL) ++ replicate m None) (replicate i (Some false) ++ replicate m None)) =
  Ok (mk_state t0 (replicate (i + m) (Some false)) (replicate n None) (replicate n None)
    (replicate (i + m) (Some NIL)) (replicate (i + m) (Some false))).
Proof.
  revert i. induction m as [|m IH]; intros i.
  { cbn [init_loop replicate]. by rewrite !app_nil_r, Nat.add_0_r. }
  cbn [init_loop]. unfold set_parent, set_visited, set_ap. cbn [time visited disc low parent ap].
  rewrite put_Ok by (rewrite length_app, !length_replicate; lia). cbn [mbind res_bind mret res_ret time visited disc low parent ap].
  rewrite put_Ok by (rewrite length_app, !length_replicate; lia). cbn [mbind res_bind mret res_ret time visited disc low parent ap].
  rewrite put_Ok by (rewrite length_app, !length_replicate; lia). cbn [mbind res_bind mret res_ret time visited disc low parent ap].
  rewrite !insert_next. replace (Z.of_nat i + 1)%Z with (Z.of_nat (S i)) by lia. rewrite IH.
  by replace (S i + m) with (i + S m) by lia.
Qed.
Lemma fresh_state_searched : searched fresh_state.
Proof.
  assert (∀ x, ¬ seen fresh_state x) as Hn.
  { intros x. unfold seen, val, fresh_state. simpl. destruct (replicate n (Some false) !! x) as [o|] eqn:Hx; [|done].
    by apply lookup_replicate in Hx as [-> _]. }
  assert (∀ A (v : A) x, x < n → written (replicate n (Some v)) x) as Hr.
  { intros A v x Hx. exists v. by apply lookup_replicate_2. }
  assert (∀ A (v : A) x, val v (replicate n (Some v)) x = v) as Hv.
  { intros A v x. unfold val. destruct (replicate n (Some v) !! x) as [o|] eqn:Hx; [|done]. by apply lookup_replicate in Hx as [-> _]. }
  split.
  - split; simpl; rewrite ?length_replicate; try done; auto; try (by intros x ?%Hn).
    rewrite cnt_replicate by done. lia.
  - by intros x y ?%Hn.
  - intros x _. split; [apply Hv|]. intros _. apply Hv.
  - by intros x ?%Hn.
Qed.

Lemma articulation_lt x : articulation link x → x < n.
Proof.
  intros Ha. destruct (decide (x < n)) as [|Hx]; [done|]. exfalso. revert Ha. apply not_articulation; [done|].
  intros y z Hy%link_sym%link_lt. lia.
Qed.
Lemma AP_runs fuel : V g = Z.of_nat n → n ≤ fuel →
  ∃ out, AP fuel g t0 = Ok ((t0 + Z.of_nat n)%Z, Z.of_nat <$> out) ∧ StronglySorted lt out ∧
    ∀ x, x ∈ out ↔ articulation link x.
Proof.
  intros HV Hf. unfold AP. rewrite HV, Nat2Z.id. pose proof (init_loop_runs n 0) as H0. cbn [replicate app] in H0.
  change (Z.of_nat 0) with 0%Z in H0. change (0 + n) with n in H0. rewrite H0. cbn [mbind res_bind].
  destruct (AP_loop_runs fuel n 0 fresh_state fresh_state_searched Hf) as (s & Hr & Hs & Hall); [lia|lia|].
  change (Z.of_nat 0) with 0%Z in Hr. fold fresh_state. rewrite Hr. cbn [mbind res_bind].
  pose proof (s_wf _ Hs) as Hw. pose proof (print_loop_runs s n 0 Hw eq_refl) as Hp.
  change (Z.of_nat 0) with 0%Z in Hp. rewrite Hp. cbn [mbind res_bind mret res_ret].
  exists (filter (λ x, B s x = true) (seq 0 n)). split; [|split; [apply filter_seq_sorted|]].
  - do 2 f_equal. rewrite (wf_time _ _ _ Hw), (cnt_all is_seen (visited s)), (wf_visited _ _ _ Hw); [done|].
    intros i o Ho. assert (i < n) as Hi by (rewrite <- (wf_visited _ _ _ Hw); by eapply lookup_lt_Some).
    pose proof (Hall i Hi) as Hsi. unfold seen, val in Hsi. rewrite Ho in Hsi. by destruct o as [[]|].
  - intros x. rewrite list_elem_of_filter, elem_of_seq. split.
    + intros [HB Hx]. apply (s_ap _ Hs); [apply Hall; lia|done].
    + intros Hc. pose proof (articulation_lt x Hc). split; [|lia]. apply (s_ap _ Hs); [by apply Hall|done].
Qed.
End search.

(** ** Graphs from edges *)

(** an edge joins the two vertices *)
Definition joined_by (es : list (nat * nat)) (x y : nat) : Prop := (x, y) ∈ es ∨ (y, x) ∈ es.
Lemma joined_by_sym es x y : joined_by es x y → joined_by es y x.
Proof. unfold joined_by. tauto. Qed.

(** the adjacency lists hold the neighbours *)
Record represents (n : nat) (g : Graph) (es : list (nat * nat)) : Prop := {
  r_V : V g = Z.of_nat n;
  r_adj : length (adj g) = n;
  r_neighbours x l : adj g !! x = Some l → ∃ ns, l = Z.of_nat <$> ns ∧ ∀ y, y ∈ ns ↔ joined_by es x y;
}.
Definition edge_Z (e : nat * nat) : Z * Z := (Z.of_nat e.1, Z.of_nat e.2).

Lemma push_back_Ok a (v : nat) w l : a !! v = Some l → push_back a (Z.of_nat v) w = Ok (<[v:=l ++ [w]]> a).
Proof.
  intros Hl. unfold push_back. rewrite (get_Ok _ _ _ Hl). cbn [mbind res_bind].
  apply put_Ok. by eapply lookup_lt_Some.
Qed.
(** one more neighbour in the list of [v] *)
Lemma push_neighbour (a : list (list Z)) (v w x : nat) (Q : nat → nat → Prop) lv l :
  (∀ x l, a !! x = Some l → ∃ ns, l = Z.of_nat <$> ns ∧ ∀ y, y ∈ ns ↔ Q x y) →
  a !! v = Some lv → <[v:=lv ++ [Z.of_nat w]]> a !! x = Some l →
  ∃ ns, l = Z.of_nat <$> ns ∧ ∀ y, y ∈ ns ↔ Q x y ∨ (x = v ∧ y = w).
Proof.
  intros Ha Hv Hl. destruct (decide (x = v)) as [->|Hx].
  - rewrite list_lookup_insert_eq in Hl by (by eapply lookup_lt_Some). injection Hl as <-.
    destruct (Ha v lv Hv) as (ns & -> & Hns). exists (ns ++ [w]). rewrite fmap_app. split; [done|].
    intros y. rewrite elem_of_app, Hns, list_elem_of_singleton. tauto.
  - rewrite list_lookup_insert_ne in Hl by done. destruct (Ha x l Hl) as (ns & -> & Hns). exists ns. split; [done|].
    intros y. rewrite Hns. tauto.
Qed.
Lemma addEdge_runs n g es v w : represents n g es → v < n → w < n →
  ∃ g', addEdge g (Z.of_nat v) (Z.of_nat w) = Ok g' ∧ represents n g' (es ++ [(v, w)]).
Proof.
  intros [HV Hlen Hns] Hv Hw. destruct (lookup_lt_is_Some_2 (adj g) v) as [lv Hlv]; [lia|].
  destruct (lookup_lt_is_Some_2 (<[v:=lv ++ [Z.of_nat w]]> (adj g)) w) as [lw Hlw]; [rewrite length_insert; lia|].
  eexists. unfold addEdge. rewrite (push_back_Ok _ _ _ _ Hlv). cbn [mbind res_bind].
  rewrite (push_back_Ok _ _ _ _ Hlw). cbn [mbind res_bind mret res_ret]. split; [done|]. split; [done| |].
  - simpl. by rewrite !length_insert.
  - cbn [adj]. intros x l Hl.
    destruct (push_neighbour (<[v:=lv ++ [Z.of_nat w]]> (adj g)) w v x (λ x y, joined_by es x y ∨ (x = v ∧ y = w)) lw l) as (ns & -> & H); [|done..|].
    { intros x' l' Hl'. by apply (push_neighbour (adj g) v w x' (joined_by es) lv l'). }
    exists ns. split; [done|]. intros y. rewrite H. unfold joined_by.
    rewrite !elem_of_app, !list_elem_of_singleton. naive_solver.
Qed.
Lemma add_edges_runs n es g es0 : represents n g es0 → (∀ x y, (x, y) ∈ es → x < n ∧ y < n) →
  ∃ g', add_edges g (edge_Z <$> es) = Ok g' ∧ represents n g' (es0 ++ es).
Proof.
  revert g es0. induction es as [|[v w] es IH]; intros g es0 Hg Hes.
  { exists g. by rewrite app_nil_r. }
  destruct (Hes v w) as [Hv Hw]; [by left|]. destruct (addEdge_runs n g es0 v w Hg Hv Hw) as (g1 & Hr & Hg1).
  destruct (IH g1 (es0 ++ [(v, w)]) Hg1) as (g' & Hr' & Hg'); [intros x y Hxy; apply Hes; by right|].
  exists g'. rewrite <- (assoc_L (++)) in Hg'. split; [|done].
  cbn [fmap list_fmap add_edges edge_Z fst snd]. rewrite Hr. cbn [mbind res_bind]. done.
Qed.
Lemma new_Graph_represents n : represents n (new_Graph (Z.of_nat n)) [].
Proof.
  split; simpl; [done|by rewrite length_replicate, Nat2Z.id|]. intros x l [-> _]%lookup_replicate. exists [].
  split; [done|]. intros y. unfold joined_by. by rewrite !elem_of_nil; tauto.
Qed.

Lemma to_of_nat (ns : list nat) : Z.to_nat <$> (Z.of_nat <$> ns) = ns.
Proof. induction ns as [|x ns IH]; [done|]. rewrite !fmap_cons, IH. by rewrite Nat2Z.id. Qed.

(** ** Properties *)

(** C21: for every undirected graph with vertices below [n] (loops, repeated edges
    and several components included) and every value [time] has before, as long as
    it does not overflow: the graph is built, the search terminates without a
    fault, and [AP] prints exactly the articulation points, in ascending order. *)
Theorem AP_correct (n : nat) (es : list (nat * nat)) (fuel : nat) (t : Z) :
  (∀ x y, (x, y) ∈ es → x < n ∧ y < n) → (0 ≤ t ∧ t + Z.of_nat n ≤ INT_MAX)%Z → n ≤ fuel →
  ∃ g out, add_edges (new_Graph (Z.of_nat n)) (edge_Z <$> es) = Ok g ∧
    AP fuel g t = Ok ((t + Z.of_nat n)%Z, Z.of_nat <$> out) ∧ StronglySorted lt out ∧
    ∀ x, x ∈ out ↔ articulation (joined_by es) x.
Proof.
  intros Hes Ht Hf. destruct (add_edges_runs n es _ [] (new_Graph_represents n) Hes) as (g & Hg & [HV Hlen Hns]).
  set (nb := λ x, match adj g !! x with Some l => Z.to_nat <$> l | None => [] end).
  assert (∀ x y, joined_by es x y → x < n ∧ y < n) as Hlt by (intros x y [H|H]; apply Hes in H; tauto).
  destruct (AP_runs (joined_by es) (joined_by_sym es) n t g nb) with (fuel := fuel) as (out & Hr & Hout); try done.
  - intros x y. unfold nb. destruct (adj g !! x) as [l|] eqn:Hx.
    + destruct (Hns x l Hx) as (ns & -> & H). rewrite to_of_nat. symmetry. apply H.
    + rewrite elem_of_nil. split; [|done]. intros [Hxn _]%Hlt. apply lookup_ge_None in Hx. lia.
  - intros x y Hxy. by destruct (Hlt x y Hxy).
  - intros x Hx. unfold nb. destruct (lookup_lt_is_Some_2 (adj g) x) as [l Hl]; [lia|]. rewrite Hl.
    destruct (Hns x l Hl) as (ns & -> & _). by rewrite to_of_nat.
  - by exists g, out.
Qed.

Lemma AP_correct_witness : ∃ g out, add_edges (new_Graph 3) [(0, 1); (0, 2)]%Z = Ok g ∧
  AP 3 g 0 = Ok (3%Z, Z.of_nat <$> out) ∧ StronglySorted lt out ∧ ∀ x, x ∈ out ↔ articulation (joined_by [(0, 1); (0, 2)]) x.
Proof.
  apply (AP_correct 3 [(0, 1); (0, 2)] 3 0); [|done|done].
  intros x y. rewrite !elem_of_cons, elem_of_nil. naive_solver lia.
Defined.

Example articulation_main : Articulation.main 7 = Ok [[0]; [1; 2]; [1]]%Z.
Proof. vm_compute. reflexivity. Qed.
(** an edge to a vertex that does not exist is written out of bounds *)
Example addEdge_faults : addEdge (new_Graph 3) 0 3 = Fault OutOfBounds.
Proof. vm_compute. reflexivity. Qed.
