(* ===== verification/BottomView.v ===== *)
(** BottomView.cpp: the nodes of a tree that are seen from below, its model and
    correctness.

    The root has the horizontal distance 0, a left child one less than its parent, a
    right child one more; [bottomView] prints for each distance the last node of the
    level order.  The std::map is a list of pairs in ascending order of the keys, the
    std::queue a list.  [fuel] bounds the rounds of the loop. *)

From Stdlib Require Import Sorting.Sorted.
From iris.proofmode Require Import proofmode environments coq_tactics reduction.
From S2P Require Import Prelude Int Heap HeapTactics.

Record Node := mk_Node { n_data : Z; n_hd : Z; n_left : ptr; n_right : ptr }.
Definition put_hd (h : Z) (v : Node) : Node := mk_Node (n_data v) h (n_left v) (n_right v).
Definition put_left (p : ptr) (v : Node) : Node := mk_Node (n_data v) (n_hd v) p (n_right v).
Definition put_right (p : ptr) (v : Node) : Node := mk_Node (n_data v) (n_hd v) (n_left v) p.

Abbreviation prog := (prog Node).
Abbreviation queue := (list ptr).
Implicit Types (root temp : ptr) (fuel : nat) (q : queue) (m : list (Z * Z)).

Definition get_data p : prog Z := v ← load p; mret (n_data v).
Definition get_hd p : prog Z := v ← load p; mret (n_hd v).
Definition get_left p : prog ptr := v ← load p; mret (n_left v).
Definition get_right p : prog ptr := v ← load p; mret (n_right v).
Definition set_hd p (h : Z) : prog unit := modify p (put_hd h).
Definition set_left p (r : ptr) : prog unit := modify p (put_left r).
Definition set_right p (r : ptr) : prog unit := modify p (put_right r).

(** the constructor *)
Definition new_Node (key : Z) : prog ptr := new (mk_Node key INT_MAX None None).

(** [m[k] = d] *)
Fixpoint map_set m (k d : Z) : list (Z * Z) :=
  match m with
  | [] => [(k, d)]
  | (k', d') :: m =>
      if (k <? k')%Z then (k, d) :: (k', d') :: m
      else if (k =? k')%Z then (k, d) :: m
      else (k', d') :: map_set m k d
  end.

(** lines 69 to 73 and 78 to 82: [get] is the child, [d] its distance *)
Definition push_child (get : ptr → prog ptr) temp (hd d : Z) q : prog queue :=
  c ← get temp;
  if c =p? None then mret q
  else
    h ← lift (int_add hd d);
    c ← get temp; _ ← set_hd c h;
    c ← get temp; mret (q ++ [c]).
Fixpoint bottomView_loop fuel q m : prog (list (Z * Z)) :=
  match fuel with
  | O => out_of_fuel
  | S fuel =>
      match q with
      | [] => mret m
      | temp :: q =>
          hd ← get_hd temp;
          data ← get_data temp;
          let m := map_set m hd data in
          q ← push_child get_left temp hd (-1) q;
          q ← push_child get_right temp hd 1 q;
          bottomView_loop fuel q m
      end
  end.
(** what is printed *)
Definition bottomView fuel root : prog (list Z) :=
  match root with
  | None => mret []
  | Some _ =>
      let hd := 0%Z in
      _ ← set_hd root hd;
      m ← bottomView_loop fuel [root] [];
      mret m.*2
  end.

Definition main : prog (list Z) :=
  root ← new_Node 20;
  n ← new_Node 8; _ ← set_left root n;
  n ← new_Node 22; _ ← set_right root n;
  n ← new_Node 5; p ← get_left root; _ ← set_left p n;
  n ← new_Node 3; p ← get_left root; _ ← set_right p n;
  n ← new_Node 4; p ← get_right root; _ ← set_left p n;
  n ← new_Node 25; p ← get_right root; _ ← set_right p n;
  n ← new_Node 10; p ← get_left root; p ← get_right p; _ ← set_left p n;
  n ← new_Node 14; p ← get_left root; p ← get_right p; _ ← set_right p n;
  bottomView 10 root.

(** ** Trees in memory *)

Inductive tree := E | N (n : loc) (l : tree) (d : Z) (r : tree).
#[export] Instance tree_eq_dec : EqDecision tree.
Proof. solve_decision. Defined.

Section rep.
Implicit Types (t l r : tree) (n : loc) (h : Z).

Definition ptr_of t : ptr := match t with E => None | N n _ _ _ => Some n end.
Fixpoint depth t : nat := match t with E => 0 | N _ l _ r => S (depth l `max` depth r) end.
Fixpoint size t : nat := match t with E => 0 | N _ l _ r => S (size l + size r) end.

(** whatever [hd] is *)
Fixpoint is_tree t : heapPropI Node :=
  match t with
  | E => emp
  | N n l d r => (∃ h, n ↦ mk_Node d h (ptr_of l) (ptr_of r)) ∗ is_tree l ∗ is_tree r
  end%I.
(** the root has the distance [h] *)
Definition is_reached (th : tree * Z) : heapPropI Node :=
  match th.1 with
  | E => emp
  | N n l d r => n ↦ mk_Node d th.2 (ptr_of l) (ptr_of r) ∗ is_tree l ∗ is_tree r
  end%I.
(** every node has its distance *)
Fixpoint is_placed t h : heapPropI Node :=
  match t with
  | E => emp
  | N n l d r => n ↦ mk_Node d h (ptr_of l) (ptr_of r) ∗ is_placed l (h - 1) ∗ is_placed r (h + 1)
  end%I.

(** *** Level order *)

(** a level with the distances: level [k] of a tree whose root has the distance [h] *)
Fixpoint level (k : nat) t h {struct t} : list (Z * Z) :=
  match t with
  | E => []
  | N _ l d r => match k with O => [(h, d)] | S k => level k l (h - 1) ++ level k r (h + 1) end
  end.
Definition level_order t : list (Z * Z) := concat ((λ k, level k t 0) <$> seq 0 (depth t)).

Definition node_of t h : list (tree * Z) := match t with E => [] | N _ _ _ _ => [(t, h)] end.
Definition children (ts : list (tree * Z)) : list (tree * Z) :=
  ts ≫= λ th, match th.1 with E => [] | N _ l _ r => node_of l (th.2 - 1) ++ node_of r (th.2 + 1) end.
Definition levels (k : nat) (ts : list (tree * Z)) : list (Z * Z) := ts ≫= λ th, level k th.1 th.2.

(** the queue [ts] is worked off, [out] are the nodes in the order of their visits *)
Inductive visits : list (tree * Z) → list (Z * Z) → Prop :=
  | visits_nil : visits [] []
  | visits_cons n l d r h ts out :
      visits (ts ++ node_of l (h - 1) ++ node_of r (h + 1)) out → visits ((N n l d r, h) :: ts) ((h, d) :: out).

Lemma visits_level ts us out :
  Forall (λ th, th.1 ≠ E) ts → visits (us ++ children ts) out → visits (ts ++ us) (levels 0 ts ++ out).
Proof.
  intros Hts. revert us. induction Hts as [|[t h] ts Ht Hts IH]; intros us Hq.
  { by rewrite /= app_nil_r in Hq. }
  destruct t as [|n l d r]; [done|]. simpl. constructor. rewrite -assoc_L. apply IH.
  change (children ((N n l d r, h) :: ts)) with ((node_of l (h - 1) ++ node_of r (h + 1)) ++ children ts) in Hq.
  by rewrite -!assoc_L in Hq *.
Qed.
Lemma levels_children k ts : levels k (children ts) = levels (S k) ts.
Proof.
  induction ts as [|[t h] ts IH]; [done|]. unfold levels, children in *. rewrite !bind_cons bind_app IH. f_equal.
  destruct t as [|n l d r]; [done|]. rewrite bind_app. simpl.
  by destruct l, r; simpl; rewrite ?app_nil_r.
Qed.
Lemma children_nodes ts : Forall (λ th, th.1 ≠ E) (children ts).
Proof.
  apply list.Forall_bind. apply list.Forall_forall. intros [t h] _. destruct t as [|n l d r]; [constructor|].
  destruct l, r; simpl; by repeat constructor.
Qed.
Lemma children_depth k ts : Forall (λ th, depth th.1 ≤ S k) ts → Forall (λ th, depth th.1 ≤ k) (children ts).
Proof.
  intros Hts. apply Forall_bind. eapply Forall_impl; [exact Hts|]. intros [t h] Ht.
  destruct t as [|n l d r]; [constructor|]. simpl in Ht.
  apply Forall_app; destruct l, r; split; repeat constructor; simpl in *; lia.
Qed.
Lemma visits_levels k ts :
  Forall (λ th, th.1 ≠ E) ts → Forall (λ th, depth th.1 ≤ k) ts →
  visits ts (concat ((λ i, levels i ts) <$> seq 0 k)).
Proof.
  revert ts. induction k as [|k IH]; intros ts Hne Hh.
  - destruct ts as [|[t h] ts]; [constructor|]. exfalso. apply Forall_cons in Hne as [Hne _].
    apply Forall_cons in Hh as [Hh _]. destruct t; simpl in Hh, Hne; [done|lia].
  - rewrite -cons_seq fmap_cons /= -fmap_S_seq -list_fmap_compose -{1}(app_nil_r ts).
    apply visits_level; [done|]. rewrite app_nil_l.
    rewrite (list_fmap_ext _ (λ i, levels i (children ts))).
    + apply IH; [apply children_nodes|by apply children_depth].
    + intros i d _. by rewrite levels_children.
Qed.
(** the queue visits the nodes level after level *)
Lemma visits_level_order t : t ≠ E → visits [(t, 0%Z)] (level_order t).
Proof.
  intros Ht. unfold level_order. rewrite (list_fmap_ext _ (λ i, levels i [(t, 0%Z)])).
  - apply visits_levels; repeat constructor; done.
  - intros i d _. by rewrite /levels /= app_nil_r.
Qed.
Lemma length_visits ts out : visits ts out → length out = sum_list_with (λ th, size th.1) ts.
Proof.
  induction 1 as [|n l d r h ts out Hd IH]; [done|]. simpl. rewrite IH !sum_list_with_app.
  destruct l, r; simpl; lia.
Qed.
End rep.
#[export] Typeclasses Opaque is_tree is_placed.
Arguments is_tree : simpl never.
Arguments is_placed : simpl never.

(** ** The loop *)
Section programs.
Implicit Types (t l r : tree) (n : loc) (h d : Z).

Lemma is_tree_hd n l d r : is_tree (N n l d r) ⊣⊢ (∃ h, n ↦ mk_Node d h (ptr_of l) (ptr_of r)) ∗ is_tree l ∗ is_tree r.
Proof. done. Qed.
Lemma is_tree_nil : is_tree E ⊣⊢ emp.
Proof. done. Qed.
Lemma is_placed_node n l d r h : is_placed (N n l d r) h ⊣⊢
  n ↦ mk_Node d h (ptr_of l) (ptr_of r) ∗ is_placed l (h - 1) ∗ is_placed r (h + 1).
Proof. done. Qed.

#[export] Instance get_data_op n (v : Node) : CellOp (get_data (Some n)) n v (n_data v) v.
Proof. eapply bind_op; [apply _|apply ret_op]. Qed.
#[export] Instance get_hd_op n (v : Node) : CellOp (get_hd (Some n)) n v (n_hd v) v.
Proof. eapply bind_op; [apply _|apply ret_op]. Qed.
#[export] Instance get_left_op n (v : Node) : CellOp (get_left (Some n)) n v (n_left v) v.
Proof. eapply bind_op; [apply _|apply ret_op]. Qed.
#[export] Instance get_right_op n (v : Node) : CellOp (get_right (Some n)) n v (n_right v) v.
Proof. eapply bind_op; [apply _|apply ret_op]. Qed.
#[export] Instance set_hd_op n (v : Node) h : CellOp (set_hd (Some n) h) n v tt (put_hd h v).
Proof. apply _. Qed.
End programs.

Ltac node_simpl := cbn [put_hd n_data n_hd n_left n_right ptr_of].
Ltac steps := wp_ops node_simpl.

Section loop.
Implicit Types (t l r c : tree) (n : loc) (h d : Z).

(** a child gets its distance and goes to the end of the queue *)
Lemma wp_push_child (get : ptr → prog ptr) (field : Node → ptr) n v c hd d q (Φ : queue → heapPropI Node) :
  (∀ v : Node, CellOp (get (Some n)) n v (field v) v) → field v = ptr_of c → (INT_MIN ≤ hd + d ≤ INT_MAX)%Z →
  n ↦ v ∗ is_tree c ∗
    (n ↦ v -∗ ([∗ list] th ∈ node_of c (hd + d), is_reached th) -∗ Φ (q ++ (ptr_of <$> (node_of c (hd + d)).*1))) ⊢
  wp (push_child get (Some n) hd d q) Φ.
Proof.
  iIntros (Hget Hc Hr) "(Hn & Hc & HΦ)". unfold push_child. rewrite (int_add_Ok _ _ Hr). destruct c as [|m l k r].
  - steps. rewrite Hc. cbn [ptr_of]. steps. cbn [node_of fmap list_fmap]. rewrite app_nil_r.
    iApply ("HΦ" with "Hn"). done.
  - iEval (rewrite is_tree_hd) in "Hc". iDestruct "Hc" as "([%h Hm] & Hl & Hr)".
    steps. rewrite Hc. cbn [ptr_of]. steps. rewrite Hc. cbn [ptr_of]. steps. rewrite Hc. cbn [ptr_of]. steps.
    iApply ("HΦ" with "Hn"). cbn. iFrame.
Qed.

(** the distances on the queue are small enough for the nodes below *)
Definition fits (th : tree * Z) : Prop := (Z.abs th.2 + Z.of_nat (depth th.1) ≤ INT_MAX)%Z.
Lemma fits_children n l d r h : fits (N n l d r, h) → Forall fits (node_of l (h - 1) ++ node_of r (h + 1)).
Proof.
  unfold fits. simpl. intros H. apply Forall_app; split; [destruct l|destruct r]; repeat constructor; simpl in *; lia.
Qed.

Definition placed_nodes (ts : list (tree * Z)) : heapPropI Node := ([∗ list] th ∈ ts, is_placed th.1 th.2)%I.
Lemma placed_node_of t h : placed_nodes (node_of t h) ⊣⊢ is_placed t h.
Proof. unfold placed_nodes. destruct t; simpl; [done|]. by rewrite right_id. Qed.

Lemma wp_bottomView_loop fuel ts out m (Φ : list (Z * Z) → heapPropI Node) :
  visits ts out → length out < fuel → Forall fits ts →
  ([∗ list] th ∈ ts, is_reached th) ∗
    (placed_nodes ts -∗ Φ (foldl (λ m hd, map_set m hd.1 hd.2) m out)) ⊢
  wp (bottomView_loop fuel (ptr_of <$> ts.*1) m) Φ.
Proof.
  intros Hd. revert fuel m Φ.
  induction Hd as [|n l d r h ts out Hd IH]; intros fuel m Φ Hfuel Hfit;
    (destruct fuel as [|fuel]; [simpl in Hfuel; lia|]); cbn [bottomView_loop fmap list_fmap ptr_of fst].
  { iIntros "[_ HΦ]". steps. iApply "HΦ". by rewrite /placed_nodes. }
  apply Forall_cons in Hfit as [Hh Hfit]. pose proof (fits_children _ _ _ _ _ Hh) as Hch. unfold fits in Hh. simpl in Hh.
  cbn [big_opL is_reached fst snd]. iIntros "[((Hn & Hl & Hr) & Hq) HΦ]". steps.
  iApply (wp_push_child get_left n_left n (mk_Node d h (ptr_of l) (ptr_of r)) l); [done|unfold INT_MIN, INT_MAX in *; lia|]. iFrame "Hn Hl". iIntros "Hn Hl". steps.
  iApply (wp_push_child get_right n_right n (mk_Node d h (ptr_of l) (ptr_of r)) r); [done|unfold INT_MIN, INT_MAX in *; lia|]. iFrame "Hn Hr". iIntros "Hn Hr". steps.
  rewrite -!fmap_app -app_assoc. change (h + -1)%Z with (h - 1)%Z.
  iApply (IH fuel); [simpl in Hfuel; lia|by apply Forall_app|].
  rewrite !big_sepL_app. iFrame "Hq Hl Hr". unfold placed_nodes. rewrite !big_sepL_app. iIntros "(Hq & Hl & Hr)".
  iApply "HΦ". cbn [big_opL fst snd]. iFrame "Hq". rewrite is_placed_node. iFrame "Hn".
  iSplitL "Hl"; by iApply placed_node_of.
Qed.

(** ** The map *)
Lemma map_set_elem m k d p : StronglySorted Z.lt m.*1 →
  p ∈ map_set m k d ↔ p = (k, d) ∨ p ∈ m ∧ p.1 ≠ k.
Proof.
  induction m as [|[k' d'] m IH]; intros Hs.
  { cbn [map_set]. rewrite list_elem_of_singleton elem_of_nil. naive_solver. }
  apply StronglySorted_inv in Hs as [Hs Hk]. cbn [map_set]. rewrite list.Forall_forall in Hk.
  assert (∀ q : Z * Z, q ∈ m → (k' < q.1)%Z) as Hlt.
  { intros q Hq. apply Hk. apply list_elem_of_fmap. by exists q. }
  destruct (Z.ltb_spec k k'); [|destruct (Z.eqb_spec k k') as [->|]]; rewrite !elem_of_cons.
  - split; [|naive_solver]. intros [?|[->|Hp]]; [by left|right; simpl; split; [by left|lia]|].
    right. split; [by right|]. specialize (Hlt _ Hp). lia.
  - split; [|naive_solver]. intros [?|Hp]; [by left|]. right. split; [by right|]. specialize (Hlt _ Hp). lia.
  - rewrite IH //. naive_solver.
Qed.
Lemma map_set_sorted m k d : StronglySorted Z.lt m.*1 → StronglySorted Z.lt (map_set m k d).*1.
Proof.
  induction m as [|[k' d'] m IH]; intros Hs; [by repeat constructor|].
  pose proof Hs as [Hs' Hk]%StronglySorted_inv. cbn [map_set fst] in *.
  destruct (Z.ltb_spec k k'); [|destruct (Z.eqb_spec k k') as [->|]]; cbn [fmap list_fmap fst].
  - constructor; [done|]. constructor; [done|]. eapply Forall_impl; [exact Hk|]. simpl. lia.
  - by constructor.
  - constructor; [by apply IH|]. rewrite list.Forall_forall. rewrite list.Forall_forall in Hk.
    intros x (p & -> & [->|[Hp _]]%map_set_elem)%list_elem_of_fmap; [simpl; lia| |done].
    apply Hk. apply list_elem_of_fmap. by exists p.
Qed.
(** the map holds the last datum of each key *)
Lemma map_of_visits out : let m := foldl (λ m hd, map_set m hd.1 hd.2) [] out in
  StronglySorted Z.lt m.*1 ∧ ∀ h d, (h, d) ∈ m ↔ last (filter (λ p, p.1 = h) out) = Some (h, d).
Proof.
  induction out as [|[h' d'] out [Hs IH]] using rev_ind; [by split; [constructor|intros h d; rewrite elem_of_nil]|].
  cbn zeta. rewrite foldl_app. cbn [foldl fst snd]. split; [by apply map_set_sorted|]. intros h d.
  rewrite map_set_elem // filter_app IH filter_cons filter_nil. cbn [fst].
  destruct (decide (h' = h)) as [->|Hne].
  - rewrite last_snoc. naive_solver.
  - rewrite app_nil_r. naive_solver.
Qed.
End loop.

(** ** Properties *)

(** C27: [bottomView] on any tree, whatever the nodes hold in [hd]: it terminates
    without a fault, stores in each node its horizontal distance, and prints, from
    the left to the right, for each distance the last node of the level order. *)
Theorem bottomView_correct fuel t h :
  is_tree t h → size t < fuel → (Z.of_nat (depth t) ≤ INT_MAX)%Z →
  ∃ m h', bottomView fuel (ptr_of t) h = Ok (m.*2, h') ∧ is_placed t 0 h' ∧
    StronglySorted Z.lt m.*1 ∧
    ∀ dist d, (dist, d) ∈ m ↔ last (filter (λ p, p.1 = dist) (level_order t)) = Some (dist, d).
Proof.
  intros Hh Hf Hd. set (m := foldl (λ m hd, map_set m hd.1 hd.2) [] (level_order t)).
  destruct (map_of_visits (level_order t)) as [Hs Hm]. exists m.
  destruct (wp_runs (bottomView fuel (ptr_of t)) (is_tree t) (λ out, ⟨out = m.*2⟩ ∗ is_placed t 0)%I h)
    as (out & h' & Hr & Ho); [|done|].
  { iIntros "Ht". unfold bottomView. destruct t as [|n l d r]; cbn [ptr_of]; [steps; by iFrame|].
    iEval (rewrite is_tree_hd) in "Ht". iDestruct "Ht" as "([%hd Hn] & Hl & Hr)". steps.
    assert (N n l d r ≠ E) as Hne by done. pose proof (visits_level_order _ Hne) as Hq.
    iApply (wp_bottomView_loop fuel [(N n l d r, 0%Z)] _ [] _ Hq).
    - rewrite (length_visits _ _ Hq). simpl in *. lia.
    - repeat constructor. unfold fits. simpl in *. lia.
    - cbn [big_opL is_reached fst snd]. iFrame. unfold placed_nodes. cbn [big_opL fst snd]. iIntros "[Ht _]". steps. by iFrame. }
  apply holds_pure_sep in Ho as [-> Ho]. by exists h'.
Qed.

Lemma bottomView_correct_witness : ∃ m h',
  bottomView 2 (Some 0) {[ 0 := mk_Node 7 INT_MAX None None ]} = Ok (m.*2, h') ∧ is_placed (N 0 E 7 E) 0 h' ∧
  StronglySorted Z.lt m.*1 ∧
  ∀ dist d, (dist, d) ∈ m ↔ last (filter (λ p, p.1 = dist) (level_order (N 0 E 7 E))) = Some (dist, d).
Proof.
  apply (bottomView_correct 2 (N 0 E 7 E)); [|simpl; lia|done].
  refine (holds_mono (0 ↦ mk_Node 7 INT_MAX None None) _ _ _ _); [|done].
  rewrite is_tree_hd !is_tree_nil !right_id. iIntros "Hn". by iExists INT_MAX.
Defined.

Example bottomView_main : ∃ h, main ∅ = Ok ([5; 10; 4; 14; 25]%Z, h).
Proof. eexists. vm_compute. reflexivity. Qed.
