(* ===== verification/Accumulate.v ===== *)
(** accumulate.cpp: std::accumulate with several threads, its model and equivalence
    with the sequential function.

    [T] is the type of the elements with its [+] and its default value.  An iterator
    is a position in the range, [hw] what hardware_concurrency() returns.  One event
    is a step of the calling thread (a thread is launched, the last block is added,
    a thread is joined, the results are added) or the whole run of a thread, whose
    only shared data is its own entry of [results]. *)

From S2P Require Import Prelude Array.

Local Open Scope Z_scope.

Section accumulate.
Context {T : Type} (add : T → T → T) (dflt : T).

(** ** Model *)

(** std::accumulate *)
Definition accumulate (xs : list T) (init : T) : T := foldl add init xs.
(** the elements from [first] to [last] *)
Definition range (xs : list T) (first last : Z) : list T :=
  take (Z.to_nat (last - first)) (drop (Z.to_nat first) xs).
(** [operator()] of [accumulate_block] *)
Definition accumulate_block (xs : list T) (first last : Z) (result : T) : T :=
  accumulate (range xs first last) result.

Definition min_per_thread : Z := 50.
Definition max_threads (length : Z) : Z := ulong (ulong (length + min_per_thread) - 1) / min_per_thread.
Definition num_threads (hw length : Z) : Z := Z.min (if negb (hw =? 0) then hw else 2) (max_threads length).
Definition block_size (hw length : Z) : Z := length / num_threads hw length.

(** [std::advance] behind the end of the range is a fault *)
Definition advance (xs : list T) (it n : Z) : res Z :=
  _ ← require (bool_decide (it + n ≤ Z.of_nat (length xs))) OutOfBounds; mret (it + n).

Inductive worker := Running (first last : Z) | Finished.
Inductive caller :=
  | Launch (i block_start : Z)     (* the loop over the threads *)
  | LastBlock (block_start : Z)    (* the block of the calling thread *)
  | Join (i : Z)
  | Return (sum : T).
Record conf := Conf { pc : caller; threads : list worker; results : list T }.

Inductive event := ECaller | EThread (i : nat).
Definition caller_step (xs : list T) (init : T) (hw : Z) (c : conf) : res conf :=
  let length := Z.of_nat (length xs) in
  let num_threads := num_threads hw length in
  match pc c with
  | Launch i block_start =>
      if i <? num_threads - 1 then
        block_end ← advance xs block_start (block_size hw length);
        Ok (Conf (Launch (i + 1) block_end) (threads c ++ [Running block_start block_end]) (results c))
      else Ok (Conf (LastBlock block_start) (threads c) (results c))
  | LastBlock block_start =>
      r ← get (results c) (num_threads - 1);
      rs ← put (results c) (num_threads - 1) (accumulate_block xs block_start length r);
      Ok (Conf (Join 0) (threads c) rs)
  | Join i =>
      if i <? num_threads - 1 then
        t ← get (threads c) i;
        _ ← await (match t with Finished => true | _ => false end);
        Ok (Conf (Join (i + 1)) (threads c) (results c))
      else Ok (Conf (Return (accumulate (results c) init)) (threads c) (results c))
  | Return _ => Blocked
  end.
Definition thread_step (xs : list T) (i : nat) (c : conf) : res conf :=
  t ← choose (threads c !! i);
  match t with
  | Running first last =>
      r ← get (results c) (Z.of_nat i);
      rs ← put (results c) (Z.of_nat i) (accumulate_block xs first last r);
      Ok (Conf (pc c) (<[i:=Finished]> (threads c)) rs)
  | Finished => Blocked
  end.
Definition step (xs : list T) (init : T) (hw : Z) (c : conf) (e : event) : res conf :=
  match e with ECaller => caller_step xs init hw c | EThread i => thread_step xs i c end.
Definition accumulate_machine (xs : list T) (init : T) (hw : Z) : Machine conf event := step xs init hw.

(** [parallel_accumulate] up to the loop: an empty range is not divided *)
Definition parallel_accumulate (xs : list T) (init : T) (hw : Z) : conf :=
  let length := Z.of_nat (length xs) in
  if length =? 0 then Conf (Return init) [] []
  else Conf (Launch 0 0) [] (replicate (Z.to_nat (num_threads hw length)) dflt).

(** ** The blocks *)

Section runs.
Context (xs : list T) (init : T) (hw : Z).
Hypothesis (Hne : xs ≠ []) (Hlen : Z.of_nat (length xs) + 50 < 2 ^ 64) (Hhw : 0 ≤ hw).
Let n := Z.of_nat (length xs).
Let k := Z.to_nat (num_threads hw n - 1).
Let bs := block_size hw n.

Lemma length_pos : 0 < n.
Proof. unfold n. destruct xs; [done|]. simpl. lia. Qed.
Lemma num_threads_pos : 1 ≤ num_threads hw n.
Proof.
  pose proof length_pos. fold n in Hlen. unfold num_threads, max_threads, min_per_thread.
  rewrite (wrap_unsigned_id 64 (n + 50)) by lia. rewrite wrap_unsigned_id by lia.
  assert (1 ≤ (n + 50 - 1) / 50) by (apply Z.div_le_lower_bound; lia).
  destruct (Z.eqb_spec hw 0); simpl; lia.
Qed.
Lemma num_threads_k : num_threads hw n - 1 = Z.of_nat k.
Proof. pose proof num_threads_pos. unfold k. lia. Qed.
Lemma block_nonneg : 0 ≤ bs.
Proof. pose proof num_threads_pos. pose proof length_pos. apply Z.div_pos; lia. Qed.
Lemma blocks_fit : (Z.of_nat k + 1) * bs ≤ n.
Proof.
  pose proof num_threads_pos. pose proof num_threads_k.
  replace (Z.of_nat k + 1) with (num_threads hw n) by lia. apply Z.mul_div_le. lia.
Qed.
Lemma block_end i : (i ≤ k)%nat → Z.of_nat i * bs + bs ≤ n.
Proof. intros Hi. pose proof blocks_fit. pose proof block_nonneg. nia. Qed.

(** the range of thread [i], and that of the caller *)
Definition block (i : nat) : list T := range xs (Z.of_nat i * bs) (Z.of_nat i * bs + bs).
Definition last_block : list T := drop (Z.to_nat (Z.of_nat k * bs)) xs.
Lemma blocks_concat m : (m ≤ S k)%nat → concat (block <$> seq 0 m) = take (m * Z.to_nat bs) xs.
Proof.
  induction m as [|m IH]; intros Hm; [done|]. rewrite seq_S, fmap_app, concat_app. cbn [fmap list_fmap concat Nat.add].
  rewrite IH, app_nil_r by lia. unfold block, range. pose proof block_nonneg.
  replace (Z.to_nat (Z.of_nat m * bs + bs - Z.of_nat m * bs)) with (Z.to_nat bs) by lia.
  replace (Z.to_nat (Z.of_nat m * bs)) with (m * Z.to_nat bs)%nat by lia.
  rewrite <- (take_drop (m * Z.to_nat bs) (take (S m * Z.to_nat bs) xs)).
  rewrite take_take, Nat.min_l by lia. f_equal. rewrite skipn_firstn_comm. f_equal. lia.
Qed.
Lemma blocks_all : concat (block <$> seq 0 k) ++ last_block = xs.
Proof.
  rewrite blocks_concat by lia. unfold last_block. pose proof block_nonneg.
  replace (Z.to_nat (Z.of_nat k * bs)) with (k * Z.to_nat bs)%nat by lia. apply take_drop.
Qed.

(** ** The invariant *)

Definition part (b : list T) : T := accumulate b dflt.
Definition pc_ok (c : conf) : Prop :=
  match pc c with
  | Launch i b => i = Z.of_nat (length (threads c)) ∧ b = i * bs ∧ results c !! k = Some dflt
  | LastBlock b => length (threads c) = k ∧ b = Z.of_nat k * bs ∧ results c !! k = Some dflt
  | Join i => length (threads c) = k ∧ results c !! k = Some (part last_block) ∧
      0 ≤ i ≤ Z.of_nat k ∧ ∀ j : nat, Z.of_nat j < i → threads c !! j = Some Finished
  | Return s => (∀ j, (j < k)%nat → threads c !! j = Some Finished) ∧
      s = accumulate (part <$> ((block <$> seq 0 k) ++ [last_block])) init
  end.
Record acc_ok (c : conf) : Prop := {
  v_results : length (results c) = S k;
  v_threads : (length (threads c) ≤ k)%nat;
  v_running j f l : threads c !! j = Some (Running f l) → f = Z.of_nat j * bs ∧ l = Z.of_nat j * bs + bs;
  v_entry j : (j < k)%nat →
    results c !! j = Some (match threads c !! j with Some Finished => part (block j) | _ => dflt end);
  v_pc : pc_ok c;
}.

Definition is_running (t : worker) : nat := match t with Running _ _ => 1 | Finished => 0 end.
Definition pc_left (p : caller) : Z :=
  match p with
  | Launch i _ => 2 * (Z.of_nat k - i) + Z.of_nat k + 3 | LastBlock _ => Z.of_nat k + 2
  | Join i => Z.of_nat k - i + 1 | Return _ => 0
  end.
Definition steps_left (c : conf) : Z := pc_left (pc c) + Z.of_nat (sum_list_with is_running (threads c)).

Lemma start_acc_ok : acc_ok (parallel_accumulate xs init hw).
Proof.
  pose proof length_pos. pose proof num_threads_k. unfold parallel_accumulate. fold n.
  destruct (Z.eqb_spec n 0); [lia|]. replace (Z.to_nat (num_threads hw n)) with (S k) by lia.
  split; cbn [threads results pc].
  - by rewrite length_replicate.
  - simpl. lia.
  - done.
  - intros j Hj. rewrite lookup_nil. apply lookup_replicate_2. lia.
  - split; [done|]. split; [done|]. apply lookup_replicate_2. lia.
Qed.

Lemma range_last : range xs (Z.of_nat k * bs) n = last_block.
Proof.
  unfold range, last_block. apply take_ge. rewrite length_drop. pose proof block_nonneg. pose proof (block_end k).
  unfold n in *. lia.
Qed.
Lemma all_results c : acc_ok c → results c !! k = Some (part last_block) → (∀ j, (j < k)%nat → threads c !! j = Some Finished) →
  results c = part <$> ((block <$> seq 0 k) ++ [last_block]).
Proof.
  intros Hc Hk Hj. apply list_eq_same_length with (n := S k).
  - rewrite length_fmap, length_app, length_fmap, length_seq. simpl. lia.
  - apply Hc.
  - intros j x y Hlt Hx Hy. destruct (decide (j = k)) as [->|Hne'].
    + rewrite Hk in Hx. rewrite list_lookup_fmap, lookup_app_r in Hy by (rewrite length_fmap, length_seq; lia).
      rewrite length_fmap, length_seq, Nat.sub_diag in Hy. simpl in Hy. congruence.
    + rewrite (v_entry _ Hc j) in Hx by lia. rewrite Hj in Hx by lia.
      rewrite list_lookup_fmap, lookup_app_l in Hy by (rewrite length_fmap, length_seq; lia).
      rewrite list_lookup_fmap, lookup_seq_lt in Hy by lia. simpl in *. congruence.
Qed.

(** *** The steps *)
Definition moves (c : conf) (r : res conf) : Prop := ∃ c', r = Ok c' ∧ acc_ok c' ∧ steps_left c' < steps_left c.

Lemma launch_moves c i b : acc_ok c → pc c = Launch i b → moves c (caller_step xs init hw c).
Proof.
  intros Hc Hpc. destruct Hc as [H1 H2 H3 H4 H5]. unfold pc_ok in H5. rewrite Hpc in H5. destruct H5 as (-> & -> & Hk).
  unfold caller_step. rewrite Hpc. fold n. rewrite num_threads_k. fold bs.
  destruct (Z.ltb_spec (Z.of_nat (length (threads c))) (Z.of_nat k)) as [Hlt|Hge].
  - unfold advance. fold n. rewrite bool_decide_true by (apply block_end; lia). cbn [require mbind res_bind mret res_ret].
    eexists. split; [reflexivity|]. split; [split|].
    + done.
    + cbn [threads]. rewrite length_app. simpl. lia.
    + cbn [threads]. intros j f l [Hj|[Hj Hl]]%lookup_app_Some; [by apply H3|].
      apply list_lookup_singleton_Some in Hl as [Hz [= <- <-]]. replace j with (length (threads c)) by lia. done.
    + cbn [threads results]. intros j Hj. rewrite (H4 j Hj). do 2 f_equal.
      destruct (decide (j < length (threads c))%nat); [by rewrite lookup_app_l|].
      rewrite lookup_ge_None_2, lookup_app_r by lia. by destruct (j - length (threads c))%nat.
    + unfold pc_ok. cbn [pc threads results]. rewrite length_app. cbn [length]. split; [lia|]. split; [lia|done].
    + unfold steps_left. rewrite Hpc. cbn [pc threads pc_left]. rewrite sum_list_with_app. simpl. lia.
  - assert (length (threads c) = k) as Hl by lia. eexists. split; [reflexivity|]. split; [split; try done|].
    + unfold pc_ok. cbn [pc threads results]. rewrite Hl. done.
    + unfold steps_left. rewrite Hpc, Hl. cbn [pc threads pc_left]. lia.
Qed.
Lemma last_moves c b : acc_ok c → pc c = LastBlock b → moves c (caller_step xs init hw c).
Proof.
  intros Hc Hpc. destruct Hc as [H1 H2 H3 H4 H5]. unfold pc_ok in H5. rewrite Hpc in H5. destruct H5 as (Hl & -> & Hk).
  unfold caller_step. rewrite Hpc. fold n. rewrite num_threads_k.
  rewrite (get_Ok _ _ _ Hk). cbn [mbind res_bind]. rewrite put_Ok by lia. cbn [mbind res_bind].
  eexists. split; [reflexivity|]. unfold accumulate_block. rewrite range_last. split; [split|].
  - cbn [results]. by rewrite length_insert.
  - done.
  - done.
  - cbn [results threads]. intros j Hj. rewrite list_lookup_insert_ne by lia. by apply H4.
  - unfold pc_ok. cbn [pc threads results]. split; [done|]. split; [apply list_lookup_insert_eq; lia|]. split; [lia|].
    intros j Hj. lia.
  - unfold steps_left. rewrite Hpc. cbn [pc threads pc_left]. lia.
Qed.
(** a thread is joined when it has finished *)
Lemma join_moves c i : acc_ok c → pc c = Join i →
  moves c (caller_step xs init hw c) ∨
  caller_step xs init hw c = Blocked ∧ ∃ f l, threads c !! Z.to_nat i = Some (Running f l).
Proof.
  intros Hc Hpc. pose proof Hc as [H1 H2 H3 H4 H5]. unfold pc_ok in H5. rewrite Hpc in H5. destruct H5 as (Hl & Hk & Hi & Hj).
  unfold caller_step. rewrite Hpc. fold n. rewrite num_threads_k.
  destruct (Z.ltb_spec i (Z.of_nat k)) as [Hlt|Hge].
  - destruct (lookup_lt_is_Some_2 (threads c) (Z.to_nat i)) as [t Ht]; [lia|].
    assert (get (threads c) i = Ok t) as -> by (rewrite <- (get_Ok _ _ _ Ht); f_equal; lia). cbn [mbind res_bind].
    destruct t as [f l|]; [right; split; [done|by exists f, l]|left]. cbn [await mbind res_bind].
    eexists. split; [reflexivity|]. split; [split; try done|].
    + unfold pc_ok. cbn [pc threads results]. split; [done|]. split; [done|]. split; [lia|]. intros j Hjl.
      destruct (decide (Z.of_nat j = i)) as [<-|]; [by rewrite Nat2Z.id in Ht|]. apply Hj. lia.
    + unfold steps_left. rewrite Hpc. cbn [pc threads pc_left]. lia.
  - left. eexists. split; [reflexivity|]. split; [split; try done|].
    + unfold pc_ok. cbn [pc threads results]. split; [intros j Hj'; apply Hj; lia|]. f_equal.
      apply (all_results c Hc Hk). intros j Hj'. apply Hj. lia.
    + unfold steps_left. rewrite Hpc. cbn [pc threads pc_left]. lia.
Qed.
Lemma sum_insert_finished (ts : list worker) i f l : ts !! i = Some (Running f l) →
  S (sum_list_with is_running (<[i:=Finished]> ts)) = sum_list_with is_running ts.
Proof.
  revert i. induction ts as [|t ts IH]; intros [|i] H; simplify_eq/=; [done|]. rewrite <- (IH i H). lia.
Qed.
Lemma thread_moves c i f l : acc_ok c → threads c !! i = Some (Running f l) → moves c (thread_step xs i c).
Proof.
  intros Hc Hi. pose proof Hc as [H1 H2 H3 H4 H5]. pose proof (lookup_lt_Some _ _ _ Hi) as Hlt.
  unfold thread_step. rewrite Hi. cbn [choose mbind res_bind]. pose proof (H4 i ltac:(lia)) as Hr. rewrite Hi in Hr.
  rewrite (get_Ok _ _ _ Hr). cbn [mbind res_bind]. rewrite put_Ok by lia. cbn [mbind res_bind].
  eexists. split; [reflexivity|]. destruct (H3 _ _ _ Hi) as [-> ->]. split; [split|].
  - cbn [results]. by rewrite length_insert.
  - cbn [threads]. by rewrite length_insert.
  - cbn [threads]. intros j f l [(_ & [=] & _)|[_ Hj]]%list_lookup_insert_Some. by apply H3.
  - cbn [threads results]. intros j Hj. destruct (decide (j = i)) as [->|Hji].
    + by rewrite !list_lookup_insert_eq by lia.
    + rewrite !list_lookup_insert_ne by done. by apply H4.
  - unfold pc_ok in *. cbn [pc threads results]. rewrite length_insert.
    assert (∀ j, threads c !! j = Some Finished → <[i:=Finished]> (threads c) !! j = Some Finished) as Hfin.
    { intros j Hj. by rewrite list_lookup_insert_ne by congruence. }
    destruct (pc c); rewrite ?list_lookup_insert_ne by lia; naive_solver.
  - unfold steps_left. cbn [pc threads]. rewrite <- (sum_insert_finished _ _ _ _ Hi). lia.
Qed.

Lemma step_moves c e : acc_ok c → moves c (step xs init hw c e) ∨ step xs init hw c e = Blocked.
Proof.
  intros Hc. destruct e as [|i]; simpl.
  - destruct (pc c) eqn:Hpc.
    + left. by eapply launch_moves.
    + left. by eapply last_moves.
    + destruct (join_moves c i Hc Hpc) as [?|[? _]]; auto.
    + right. unfold caller_step. by rewrite Hpc.
  - destruct (threads c !! i) as [[f l|]|] eqn:Hi.
    + left. by eapply thread_moves.
    + right. unfold thread_step. by rewrite Hi.
    + right. unfold thread_step. by rewrite Hi.
Qed.
Lemma acc_progress c : acc_ok c → (∀ s, pc c ≠ Return s) → ∃ e, moves c (step xs init hw c e).
Proof.
  intros Hc Hn. destruct (pc c) eqn:Hpc.
  - exists ECaller. by eapply launch_moves.
  - exists ECaller. by eapply last_moves.
  - destruct (join_moves c i Hc Hpc) as [?|(_ & f & l & Hi)]; [by exists ECaller|].
    exists (EThread (Z.to_nat i)). by eapply thread_moves.
  - by destruct (Hn sum).
Qed.

(** ** Every schedule *)
#[local] Instance acc_machine : Machine conf event := accumulate_machine xs init hw.

Lemma acc_stable : stable acc_ok.
Proof.
  intros c e c' Hc Hs. change (step xs init hw c e = Ok c') in Hs.
  destruct (step_moves c e Hc) as [(c1 & Hr & Hok & _)|Hb]; congruence.
Qed.
Lemma acc_no_fault f : ¬ can_fault (parallel_accumulate xs init hw) f.
Proof.
  apply (invariant_no_fault acc_ok); [apply start_acc_ok|apply acc_stable|].
  intros c e Hc Hs. change (step xs init hw c e = Fault f) in Hs.
  destruct (step_moves c e Hc) as [(c1 & Hr & _)|Hb]; congruence.
Qed.
Lemma acc_reachable c : reachable (parallel_accumulate xs init hw) c → acc_ok c.
Proof. apply (invariant_run acc_ok); [apply start_acc_ok|apply acc_stable]. Qed.
Lemma acc_short es c c' : acc_ok c → run c es = Ok c' → acc_ok c' ∧ steps_left c' + Z.of_nat (length es) ≤ steps_left c.
Proof.
  revert c. induction es as [|e es IH]; intros c Hc Hr.
  - injection Hr as <-. split; [done|]. simpl. lia.
  - apply bind_Ok in Hr as (c1 & H1 & Hr). change (step xs init hw c e = Ok c1) in H1.
    destruct (step_moves c e Hc) as [(c2 & Hr2 & Hok & Hl)|Hb]; [|congruence]. assert (c2 = c1) as -> by congruence.
    destruct (IH _ Hok Hr) as [Hc' Hl']. split; [done|]. simpl length. lia.
Qed.
Lemma acc_bound es c : run (parallel_accumulate xs init hw) es = Ok c → Z.of_nat (length es) ≤ 3 * num_threads hw n.
Proof.
  intros Hr. destruct (acc_short es _ c start_acc_ok Hr) as [[_ _ _ _ Hpc] Hl].
  pose proof length_pos. pose proof num_threads_k.
  assert (steps_left (parallel_accumulate xs init hw) = 3 * num_threads hw n) as Hs.
  { unfold parallel_accumulate. fold n. destruct (Z.eqb_spec n 0); [lia|]. unfold steps_left. cbn [pc threads pc_left sum_list_with]. lia. }
  assert (0 ≤ steps_left c) as Hc; [|lia]. unfold steps_left. unfold pc_ok in Hpc.
  destruct (acc_short es _ c start_acc_ok Hr) as [[_ Hthr _ _ _] _].
  destruct (pc c); cbn [pc_left]; [destruct Hpc as [-> _]| |destruct Hpc as (_ & _ & Hi & _)|]; lia.
Qed.
End runs.

(** the sums of the blocks, added up, are the sum of the whole *)
Lemma accumulate_parts (bss : list (list T)) (init : T) :
  (∀ x y z, add x (add y z) = add (add x y) z) → (∀ x, add x dflt = x) →
  accumulate (part <$> bss) init = accumulate (concat bss) init.
Proof.
  intros Hassoc Hid. assert (∀ ys a b, foldl add (add a b) ys = add a (foldl add b ys)) as Hf.
  { intros ys. induction ys as [|y ys IH]; intros a b; [done|]. simpl. by rewrite <- Hassoc, IH. }
  revert init. induction bss as [|b bss IH]; intros init; [done|].
  unfold accumulate, part in *. cbn [fmap list_fmap foldl concat]. rewrite foldl_app, IH. f_equal.
  unfold accumulate. by rewrite <- (Hf b init dflt), Hid.
Qed.

Lemma num_threads_empty hw : 0 ≤ hw → num_threads hw 0 = 0.
Proof. intros Hhw. unfold num_threads. change (max_threads 0) with 0. destruct (Z.eqb_spec hw 0); simpl; lia. Qed.
End accumulate.

(** ** Properties *)

(** C16: [parallel_accumulate] for an addition that is associative with the default
    value as its zero, any number of hardware threads (0 for an unknown one) and any
    range: under every schedule nothing is read or written out of bounds, the threads
    and the caller take at most three steps per thread and are never stuck before the
    caller returns, and it returns what std::accumulate does. *)
Theorem parallel_accumulate_correct {T} (add : T → T → T) (dflt : T) xs init hw :
  (∀ x y z, add x (add y z) = add (add x y) z) ∧ (∀ x, add x dflt = x) →
  0 ≤ hw → Z.of_nat (length xs) + 50 < 2 ^ 64 →
  let M := accumulate_machine add xs init hw in
  let c0 := parallel_accumulate dflt xs init hw in
  (∀ f, ¬ can_fault (M := M) c0 f) ∧
  (∀ es c, run (M := M) c0 es = Ok c → Z.of_nat (length es) ≤ 3 * num_threads hw (Z.of_nat (length xs)) ∧
     ((∀ s, pc c ≠ Return s) → ∃ e c', step add xs init hw c e = Ok c')) ∧
  (∀ c s, reachable (M := M) c0 c → pc c = Return s → s = accumulate add xs init).
Proof.
  intros [Hassoc Hid] Hhw Hlen M c0. destruct (decide (xs = [])) as [->|Hne].
  { assert (∀ c e, pc c = Return init ∧ threads c = [] → step add [] init hw c e = Blocked) as Hb.
    { intros c [|i] [Hpc Hthr]; simpl; [unfold caller_step; by rewrite Hpc|unfold thread_step; by rewrite Hthr]. }
    assert (∀ es c, run (M := M) c0 es = Ok c → es = [] ∧ c = c0) as Hrun.
    { intros [|e es] c Hr; [by injection Hr as <-|]. apply bind_Ok in Hr as (c1 & H1 & _).
      change (step add [] init hw c0 e = Ok c1) in H1. by rewrite Hb in H1. }
    split; [|split].
    - intros f [[|e es] Hr]; [done|]. apply bind_Fault in Hr as [Hr|(c1 & H1 & _)].
      + change (step add [] init hw c0 e = Fault f) in Hr. by rewrite Hb in Hr.
      + change (step add [] init hw c0 e = Ok c1) in H1. by rewrite Hb in H1.
    - intros es c [-> ->]%Hrun. split; [|intros Hn; by destruct (Hn init)].
      change (Z.of_nat (length [])) with 0. rewrite num_threads_empty; done.
    - intros c s [es [-> ->]%Hrun] [= <-]. done. }
  split; [|split].
  - intros f. by apply acc_no_fault.
  - intros es c Hr. split; [by eapply acc_bound|]. intros Hn.
    destruct (acc_progress add dflt xs init hw Hne Hlen Hhw c) as (e & c' & Hs & _); [|done|by exists e, c'].
    apply (acc_reachable add dflt xs init hw Hne Hlen Hhw). by exists es.
  - intros c s Hr Hpc. pose proof (v_pc _ _ _ _ _ _ (acc_reachable add dflt xs init hw Hne Hlen Hhw c Hr)) as Hok.
    unfold pc_ok in Hok. rewrite Hpc in Hok. destruct Hok as [_ ->].
    rewrite accumulate_parts, concat_app by done. cbn [concat]. by rewrite app_nil_r, blocks_all.
Qed.

Lemma parallel_accumulate_correct_witness :
  let xs := replicate 120 1 in
  let M := accumulate_machine Z.add xs 7 4 in
  let c0 := parallel_accumulate 0 xs 7 4 in
  (∀ f, ¬ can_fault (M := M) c0 f) ∧
  (∀ es c, run (M := M) c0 es = Ok c → Z.of_nat (length es) ≤ 3 * num_threads 4 (Z.of_nat (length xs)) ∧
     ((∀ s, pc c ≠ Return s) → ∃ e c', step Z.add xs 7 4 c e = Ok c')) ∧
  (∀ c s, reachable (M := M) c0 c → pc c = Return s → s = accumulate Z.add xs 7).
Proof. apply (parallel_accumulate_correct Z.add 0 (replicate 120 1) 7 4); [split; intros; lia|lia|done]. Defined.

(** 120 elements on four hardware threads: three blocks of 40, one of them by the caller *)
Example three_blocks : let M := accumulate_machine Z.add (replicate 120 1) 7 4 in
  (c ← run (M := M) (parallel_accumulate 0 (replicate 120 1) 7 4)
    [ECaller; ECaller; EThread 1; ECaller; ECaller; EThread 0; ECaller; ECaller; ECaller];
  mret (pc c)) = Ok (Return 127).
Proof. vm_compute. reflexivity. Qed.
