(* ===== verification/ThreadExamples.v ===== *)
(** Two short programs with threads: once.c (one-time initialisation) and cond.c
    (a timed wait).

    As in [Condition], one event is a step of a thread from one call of the thread
    library to the next, and the calls succeed. *)

From S2P Require Import Prelude Pthread.

(** ** once.c *)
Module Once.

Inductive once_t := NotYet | InProgress (t : tid) | Done.

(** main is thread 0, the thread that it creates is thread 1 *)
Inductive main_pc := MCreate | MOnce | MInit | MUnlock | MJoin | MReturn.
Inductive thread_pc := TNone | TOnce | TInit | TLock | TUnlock | TReturn.
Record conf := Conf {
  once_block : once_t;
  the_mutex : option mutex;   (* [None] until it is initialised *)
  inits : nat;                (* how often the routine has run *)
  main_at : main_pc;
  thread_at : thread_pc
}.

(** [pthread_once]: the call begins the routine, waits for it, or returns *)
Definition pthread_once {A} (t : tid) (o : once_t) (run_it return_now : A) : res (once_t * A) :=
  match o with
  | NotYet => Ok (InProgress t, run_it)
  | InProgress _ => Blocked
  | Done => Ok (Done, return_now)
  end.
Definition once_init_routine (c : conf) : conf := Conf Done (Some None) (S (inits c)) (main_at c) (thread_at c).
Definition main_goes (c : conf) (p : main_pc) : conf := Conf (once_block c) (the_mutex c) (inits c) p (thread_at c).
Definition thread_goes (c : conf) (p : thread_pc) : conf := Conf (once_block c) (the_mutex c) (inits c) (main_at c) p.

Definition main_step (c : conf) : res conf :=
  match main_at c with
  | MCreate => Ok (Conf (once_block c) (the_mutex c) (inits c) MOnce TOnce)
  | MOnce =>
      '(o, p) ← pthread_once 0 (once_block c) MInit MUnlock;
      Ok (Conf o (the_mutex c) (inits c) p (thread_at c))
  | MInit => Ok (main_goes (once_init_routine c) MUnlock)
  | MUnlock =>
      m ← of_option Uninitialised (the_mutex c);
      m ← mutex_unlock 0 m;
      Ok (Conf (once_block c) (Some m) (inits c) MJoin (thread_at c))
  | MJoin => _ ← await (match thread_at c with TReturn => true | _ => false end); Ok (main_goes c MReturn)
  | MReturn => Blocked
  end.
Definition thread_routine (c : conf) : res conf :=
  match thread_at c with
  | TNone | TReturn => Blocked
  | TOnce =>
      '(o, p) ← pthread_once 1 (once_block c) TInit TLock;
      Ok (Conf o (the_mutex c) (inits c) (main_at c) p)
  | TInit => Ok (thread_goes (once_init_routine c) TLock)
  | TLock =>
      m ← of_option Uninitialised (the_mutex c);
      m ← mutex_lock 1 m;
      Ok (Conf (once_block c) (Some m) (inits c) (main_at c) TUnlock)
  | TUnlock =>
      m ← of_option Uninitialised (the_mutex c);
      m ← mutex_unlock 1 m;
      Ok (Conf (once_block c) (Some m) (inits c) (main_at c) TReturn)
  end.
Inductive event := EMain | EThread.
Definition step (c : conf) (e : event) : res conf :=
  match e with EMain => main_step c | EThread => thread_routine c end.
#[export] Instance once_machine : Machine conf event := step.
Definition start : conf := Conf NotYet None 0 MCreate TNone.

(** *** The invariant *)
Definition main_ok (p : main_pc) (o : once_t) : Prop :=
  match p with
  | MCreate | MOnce => o ≠ InProgress 0
  | MInit => o = InProgress 0
  | MUnlock => o = Done
  | MJoin | MReturn => False
  end.
Definition thread_ok (p : thread_pc) (o : once_t) : Prop :=
  match p with
  | TNone | TOnce => o ≠ InProgress 1
  | TInit => o = InProgress 1
  | _ => o = Done
  end.
Record once_ok (c : conf) : Prop := {
  ok_created : main_at c = MCreate → thread_at c = TNone;
  ok_main : main_ok (main_at c) (once_block c);
  ok_thread : thread_ok (thread_at c) (once_block c);
  ok_inits : inits c = match once_block c with Done => 1 | _ => 0 end;
  ok_mutex : the_mutex c = match once_block c with
    | Done => Some (match thread_at c with TUnlock => Some 1 | _ => None end) | _ => None end;
}.

Lemma once_step_ok c e c' : once_ok c → step c e = Ok c' → once_ok c'.
Proof.
  intros [H0 H1 H2 H3 H4] Hs. destruct c as [o m k p q]. cbn in H0, H1, H2, H3, H4.
  destruct o as [|t|], p; try done; destruct q; try done; try discriminate (H0 eq_refl); subst k m; destruct e; cbn in Hs;
    try discriminate; injection Hs as <-; split; cbn in *; congruence.
Qed.
Lemma once_reachable_ok c : reachable start c → once_ok c.
Proof.
  apply (invariant_run once_ok); [by split|]. intros c1 e c2. apply once_step_ok.
Qed.

(** The routine runs at most once and the thread never meets an uninitialised
    mutex; but main unlocks the mutex without having locked it: whenever it gets
    there the call is an error, and main never returns. *)
Theorem once_unlocks_unlocked :
  (∀ c, reachable start c → inits c ≤ 1 ∧
     (∀ f, step c EThread ≠ Fault f) ∧
     (main_at c = MUnlock → step c EMain = Fault BadSync) ∧ main_at c ≠ MReturn) ∧
  can_fault start BadSync.
Proof.
  split; [|by exists [EMain; EMain; EMain; EMain]].
  intros c [H0 H1 H2 H3 H4]%once_reachable_ok. destruct c as [o m k p q]. simpl in *. subst k m. split_and!.
  - destruct o; lia.
  - intros f. destruct q; simpl in *; subst; try done; try (by destruct o).
  - intros ->. simpl in *. subst o. simpl. by destruct q.
  - by intros ->.
Qed.

End Once.

(** ** cond.c *)
Module TimedWait.

(** main is thread 0 *)
Inductive main_pc := MLock | MWait | MBlocked | MUnlock | MReturn.
Inductive thread_pc := TLock | TSignal | TUnlock | TReturn.
Inductive message := TimedOut | WaitFailed | Signaled.
Record conf := Conf {
  value : Z;
  the_mutex : mutex;
  the_cond : cond;
  main_at : main_pc;
  thread_at : thread_pc;
  output : list message
}.

(** the end of main, lines 63 and 64 *)
Definition after_loop (c : conf) : conf :=
  Conf (value c) (the_mutex c) (the_cond c) MUnlock (thread_at c)
    (output c ++ (if negb (value c =? 0)%Z then [Signaled] else [])).
(** the condition of the loop, line 52 *)
Definition loop (c : conf) : conf :=
  if (value c =? 0)%Z then Conf (value c) (the_mutex c) (the_cond c) MWait (thread_at c) (output c) else after_loop c.
Definition say (c : conf) (s : list message) : conf :=
  Conf (value c) (the_mutex c) (the_cond c) (main_at c) (thread_at c) (output c ++ s).

(** [status] is what [pthread_cond_timedwait] returns *)
Definition main_step (status : Z) (c : conf) : res conf :=
  match main_at c with
  | MLock =>
      m ← mutex_lock 0 (the_mutex c);
      Ok (loop (Conf (value c) m (the_cond c) MLock (thread_at c) (output c)))
  | MWait =>
      m ← mutex_unlock 0 (the_mutex c);
      Ok (Conf (value c) m (cond_block 0 (the_cond c)) MBlocked (thread_at c) (output c))
  | MBlocked =>
      _ ← await (negb (status =? 0)%Z || awake 0 (the_cond c));
      m ← mutex_lock 0 (the_mutex c);
      let c := Conf (value c) m (cond_leave 0 (the_cond c)) MBlocked (thread_at c) (output c) in
      Ok (if (status =? ETIMEDOUT)%Z then after_loop (say c [TimedOut])
          else if negb (status =? 0)%Z then loop (say c [WaitFailed])
          else loop c)
  | MUnlock =>
      m ← mutex_unlock 0 (the_mutex c);
      Ok (Conf (value c) m (the_cond c) MReturn (thread_at c) (output c))
  | MReturn => Blocked
  end.
(** [o] is the thread that the signal wakes *)
Definition wait_thread (o : option tid) (c : conf) : res conf :=
  match thread_at c with
  | TLock =>
      m ← mutex_lock 1 (the_mutex c);
      Ok (Conf 1 m (the_cond c) (main_at c) TSignal (output c))
  | TSignal =>
      ws ← cond_signal o (the_cond c);
      Ok (Conf (value c) (the_mutex c) ws (main_at c) TUnlock (output c))
  | TUnlock =>
      m ← mutex_unlock 1 (the_mutex c);
      Ok (Conf (value c) m (the_cond c) (main_at c) TReturn (output c))
  | TReturn => Blocked
  end.
Inductive event := EMain (status : Z) | EThread (o : option tid) | EWake.
Definition step (c : conf) (e : event) : res conf :=
  match e with
  | EMain status => main_step status c
  | EThread o => wait_thread o c
  | EWake => Ok (Conf (value c) (the_mutex c) (cond_leave 0 (the_cond c)) (main_at c) (thread_at c) (output c))
  end.
#[export] Instance wait_machine : Machine conf event := step.
Definition start : conf := Conf 0 None [] MLock TLock [].

(** *** The invariant *)
Definition main_holds (p : main_pc) : bool := match p with MWait | MUnlock => true | _ => false end.
Definition thread_holds (p : thread_pc) : bool := match p with TSignal | TUnlock => true | _ => false end.
Definition told (out : list message) : Prop := TimedOut ∈ out ∨ Signaled ∈ out.
Record wait_ok (c : conf) : Prop := {
  ok_value : value c = match thread_at c with TLock => 0%Z | _ => 1%Z end;
  ok_mutex : the_mutex c = if main_holds (main_at c) then Some 0 else if thread_holds (thread_at c) then Some 1 else None;
  ok_alone : main_holds (main_at c) && thread_holds (thread_at c) = false;
  ok_waiters : the_cond c = [] ∨ the_cond c = [0] ∧ main_at c = MBlocked;
  (** main is signalled after the value has changed *)
  ok_signal : the_cond c = [] ∨ thread_at c = TLock ∨ thread_at c = TSignal;
  ok_wait : main_at c = MWait → thread_at c = TLock;
  ok_output : match main_at c with MUnlock | MReturn => told (output c) | _ => True end;
}.

Lemma after_loop_told c s : s = [TimedOut] ∨ (value c =? 0)%Z = false → told (output (after_loop (say c s))).
Proof.
  unfold told. simpl. rewrite !elem_of_app. intros [->| ->]; simpl; [left; left; right; by left|right; right; by left].
Qed.
Lemma signal_wakes o ws : cond_signal o [0] = Ok ws → ws = [].
Proof.
  intros [[_ ->]|(t & Ht & ->)]%cond_signal_Ok; [done|]. by apply list_elem_of_singleton in Ht as ->.
Qed.
Lemma timed_thread_ok o c c' : wait_ok c → wait_thread o c = Ok c' → wait_ok c'.
Proof.
  intros [H1 H2 H3 H4 H5 H6 H7] Hs. destruct c as [v m ws p q out]. cbn in H1, H2, H3, H4, H5, H6, H7.
  assert (ws = [] ∨ ws = [0]) as Hws by (destruct H4 as [?|[? _]]; auto).
  unfold wait_thread in Hs. cbn [thread_at value the_mutex the_cond main_at output] in Hs. subst v m.
  destruct q; [| | |done]; apply bind_Ok in Hs as (x & Hx & [= <-]).
  - apply mutex_lock_Ok in Hx as [Hm ->].
    destruct p; try done; split; cbn in *; try done; tauto.
  - assert (x = []) as -> by (destruct Hws as [->| ->]; [by injection Hx as <-|by eapply signal_wakes]).
    destruct p; try done; split; cbn in *; try done; by left.
  - apply mutex_unlock_Ok in Hx as [Hm ->].
    destruct p; try done; split; cbn in *; try done; destruct H5 as [->|[?|?]]; try done; by left.
Qed.
(** main holds the mutex and goes to the loop or behind it *)
Lemma loop_ok v ws q out s : v = match q with TLock => 0%Z | _ => 1%Z end → thread_holds q = false → ws = [] →
  wait_ok (loop (Conf v (Some 0) ws MBlocked q (out ++ s))).
Proof.
  intros -> Hq ->. destruct q; try done; unfold loop; simpl; split; simpl; try done; try (by left).
  - right. apply elem_of_app. right. by left.
Qed.
Lemma after_ok v ws q out : v = match q with TLock => 0%Z | _ => 1%Z end → thread_holds q = false → ws = [] →
  wait_ok (after_loop (say (Conf v (Some 0) ws MBlocked q out) [TimedOut])).
Proof.
  intros -> Hq ->. split; try done; try (by left).
  cbn. apply (after_loop_told (Conf _ (Some 0) [] MBlocked q out)). by left.
Qed.
Lemma leave_waiters ws (P : Prop) : ws = [] ∨ ws = [0] ∧ P → cond_leave 0 ws = [].
Proof. by intros [->|[-> _]]. Qed.
Lemma timed_main_ok s c c' : wait_ok c → main_step s c = Ok c' → wait_ok c'.
Proof.
  intros [H1 H2 H3 H4 H5 H6 H7] Hs. destruct c as [v m ws p q out]. cbn in H1, H2, H3, H4, H5, H6, H7.
  pose proof (leave_waiters _ _ H4) as Hleave. unfold main_step in Hs. cbn [thread_at value the_mutex the_cond main_at output] in Hs.
  destruct p.
  - apply bind_Ok in Hs as (x & [Hm ->]%mutex_lock_Ok & [= <-]).
    destruct H4 as [->|[_ ?]]; [|done]. rewrite <- (app_nil_r out).
    assert (thread_holds q = false) as Hq by (subst m; by destruct q). subst v.
    pose proof (loop_ok _ [] q out [] eq_refl Hq eq_refl) as Hl. revert Hl. unfold loop. simpl. by destruct q.
  - apply bind_Ok in Hs as (x & [Hm ->]%mutex_unlock_Ok & [= <-]). specialize (H6 eq_refl). subst q.
    destruct H4 as [->|[_ ?]]; [|done]. split; cbn; try done; auto.
  - apply bind_Ok in Hs as (_ & _ & Hs). apply bind_Ok in Hs as (x & [Hm ->]%mutex_lock_Ok & [= <-]).
    assert (thread_holds q = false) as Hq by (subst m; by destruct q). rewrite Hleave.
    destruct (_ =? ETIMEDOUT)%Z; [by apply after_ok|]. destruct (negb _); [by apply loop_ok|].
    rewrite <- (app_nil_r out). by apply loop_ok.
  - apply bind_Ok in Hs as (x & [Hm ->]%mutex_unlock_Ok & [= <-]). destruct H4 as [->|[_ ?]]; [|done].
    assert (thread_holds q = false) as Hq by done. split; cbn; try done; try (by left). by rewrite Hq.
  - done.
Qed.
Lemma wait_stable : stable wait_ok.
Proof.
  intros c e c' Hc Hs. destruct e as [s|o|].
  - by eapply timed_main_ok.
  - by eapply timed_thread_ok.
  - destruct Hc as [H1 H2 H3 H4 H5 H6 H7]. injection Hs as <-. pose proof (leave_waiters _ _ H4) as Hl.
    split; cbn; try done; by left.
Qed.
Lemma wait_reachable c : reachable start c → wait_ok c.
Proof. apply (invariant_run wait_ok); [split; cbn; auto|apply wait_stable]. Qed.

Definition spurious (e : event) : bool := match e with EWake => true | _ => false end.
Lemma wait_no_fault c e f : wait_ok c → step c e ≠ Fault f.
Proof.
  intros [H1 H2 H3 H4 H5 H6 H7] Hs. destruct c as [v m ws p q out]. cbn in H1, H2, H3, H4, H5, H6, H7. subst v m.
  destruct e as [s|o|]; [| |done].
  - destruct p; cbn in Hs, H3; try done; try (by destruct q).
    destruct (negb _ || _); simpl in Hs; [|done]. by destruct q.
  - destruct q; cbn in Hs; try (by destruct p).
    destruct H4 as [->|[-> _]]; cbn in Hs; [done|]. destruct o as [[|t]|]; cbn in Hs; try done.
Qed.
(** whoever can go on: the holder of the mutex, else main *)
Lemma wait_progress c : wait_ok c → main_at c ≠ MReturn → ∃ e c', spurious e = false ∧ step c e = Ok c'.
Proof.
  intros [H1 H2 H3 H4 H5 H6 H7] Hr. destruct c as [v m ws p q out]. cbn in H1, H2, H3, H4, H5, H6, H7, Hr. subst v m.
  destruct (thread_holds q) eqn:Hq.
  - destruct q; try done.
    + exists (EThread (Some 0)). destruct H4 as [->|[-> _]]; by eexists.
    + exists (EThread None). destruct p; try done; by eexists.
  - exists (EMain ETIMEDOUT). destruct p; try done; destruct q; try done; by eexists.
Qed.

(** Under every schedule: no fault; main, once it waits while the value is set, has
    a signal on the way; it is never stuck before it returns; and when it returns it
    has reported the time-out or the signal. *)
Theorem timed_wait_reports :
  (∀ f, ¬ can_fault start f) ∧
  ∀ c, reachable start c →
    (value c ≠ 0%Z → the_cond c ≠ [] → thread_at c = TSignal) ∧
    (main_at c ≠ MReturn → ∃ e c', spurious e = false ∧ step c e = Ok c') ∧
    (main_at c = MReturn → told (output c)).
Proof.
  split.
  - intros f. apply (invariant_no_fault wait_ok); [split; cbn; auto|apply wait_stable|].
    intros c e Hc. by apply wait_no_fault.
  - intros c Hc%wait_reachable. split; [|split].
    + intros Hv Hw. pose proof (ok_value _ Hc) as H. destruct (ok_signal _ Hc) as [?|[Hq|?]]; [done| |done]. by rewrite Hq in H.
    + by apply wait_progress.
    + intros Hm. pose proof (ok_output _ Hc) as H. by rewrite Hm in H.
Qed.
(** both may be reported: the time is over while the thread holds the mutex, and the
    value is set when main gets the mutex back *)
Example reports_both : ∃ c, reachable start c ∧ output c = [TimedOut; Signaled].
Proof.
  exists (final start [EMain 0; EMain 0; EThread None; EWake; EThread None; EThread None; EMain ETIMEDOUT]).
  split; [apply reachable_final; by vm_compute|by vm_compute].
Qed.

End TimedWait.
